(* ===== verification/_CoqProject ===== *)
-Q . S2P
Prelude.v
RustStd.v
RustStr.v
Json.v
Nrf.v
NrfFacts.v
BigNum.v
Unc1.v
Unc1Facts.v
Rho.v
Tlv.v
Vm.v
VmFacts.v
VmTyping.v
Policy.v
Silicon.v
CompileFacts.v
GateFacts.v
SiliconFacts.v
Gate.v
RateLimit.v
Canon.v
Idempotency.v
Durable.v
DurableFacts.v
NrfExact.v
Types.v
Receipt.v
ReceiptFacts.v
TextFacts.v
Knock.v
KnockFacts.v
ChipStore.v
ChipStoreFacts.v
Capability.v
Auth.v
AuthFacts.v
PolicyLoader.v
Envelope.v
ChipFile.v
KeyRotation.v
AuditChip.v
AuditFacts.v
TrRegistry.v
EventBus.v
Ledger.v
Advisory.v
PipelineTypes.v
Sled.v
SledBackend.v
Check.v
CheckFacts.v
Compaction.v
CompactionFacts.v
Wasm.v
Adapter.v
AdapterFacts.v
Transition.v
Pipeline.v
PipelineFacts.v
PipelineSample.v
Logline.v
LoglineFacts.v
LoglineRoundtrip.v
RichUrl.v
RichUrlFacts.v
ErrorResponse.v
EventStore.v
GateState.v
GateSubmit.v
GateRead.v
Mcp.v
MetaChip.v
Registry.v
GateEvents.v
SubmitFacts.v
Router.v
PolicyLock.v
ReadFacts.v
Config.v
