(* ===== verification/Prelude.v ===== *)
(** * UBL-CORE: a verification library

    UBL-CORE processes chips: JSON documents that are canonicalised, checked
    against policies, executed on a small deterministic virtual machine,
    recorded in signed receipts and made durable.  This library models its
    core in Rocq, component by component from the Rust sources under [src/],
    and proves what makes each component correct; the last files compose the
    components into the pipeline that the program runs and into the gate, the
    HTTP and MCP service through which chips are submitted and read.

    ** The program's parts and the files that model them

    A chip enters as bytes ([Knock]), becomes a request ([PipelineTypes]) and
    passes the stages WA, CHECK, TR and WF ([Pipeline], [Check], [Transition]),
    each of which adds a record to one receipt ([Receipt]); the result is
    committed ([Durable]), the chip stored ([ChipStore]), events published
    ([EventBus]) and the ledger extended ([Ledger]).  The gate ([GateState] to
    [Router]) authenticates a request, runs the pipeline on it and answers with
    what the stores hold.

    Data and identifiers:
    - [ubl_nrf/src/nrf.rs]: the canonical binary encoding NRF-1.1 and content
      identifiers.  [Nrf] has the encoder, the decoder over a byte cursor, the
      conversion from JSON under the ρ rules, the normalisation of external
      input and CIDs; [NrfFacts], [NrfExact] and [TextFacts] the theorems.
    - [ubl_nrf/src/envelope.rs]: [Envelope]; [chip_format.rs]: [ChipFile].
    - [ubl_unc1/src/lib.rs]: exact numbers (integer, decimal, rational,
      interval, each with a unit).  [Unc1] over [BigNum]; [Unc1Facts].
    - [ubl_types/src/lib.rs]: [Types], the validated identifiers.
    - [ubl_canon/src/lib.rs] and [ubl_kms/src/lib.rs]: [Canon], canonical
      signing, fingerprints and [did:key] identifiers (key loading: [Adapter]).

    Execution and policies:
    - [ubl_vm]: [Rho] is the JSON canonicaliser and strict validator
      ([canon.rs]); [Tlv] the opcode table, the instruction stream and the
      disassembler ([opcode.rs], [tlv.rs], [disasm.rs]); [Vm] the machine
      ([exec.rs], [types.rs]), one definition per opcode arm, in a state and
      error monad; [VmFacts] and [VmTyping] its theorems.
    - [reasoning_bit.rs], [circuit.rs], [policy_bit.rs]: [Policy];
      [policy_loader.rs] and [genesis.rs]: [PolicyLoader].
    - [silicon_chip.rs]: policies as chips compiled to bytecode.  [Silicon] has
      the parsers, the store validation, the graph resolution and the compiler;
      [CompileFacts] and [GateFacts] prove the compiler correct against the VM
      of [Vm], [SiliconFacts] that it returns.  The [@silicon_gate] block of
      [pipeline/stages/check.rs] with [pipeline/providers.rs]: [Gate].
    - [wasm_adapter.rs]: [Wasm], over the interface of the engine, and the
      adapter policy of [pipeline/stages/transition.rs]: [Adapter], with
      [AdapterFacts].

    Admission and authority:
    - [knock.rs]: [Knock], [KnockFacts]; [rate_limit.rs]: [RateLimit] and the
      canon-aware limiter in [Canon].
    - [auth.rs]: [Auth], [AuthFacts]; [capability.rs] and [authorship.rs]:
      [Capability]; [key_rotation.rs]: [KeyRotation]; [audit_chip.rs]:
      [AuditChip], [AuditFacts].

    Records and storage:
    - [ubl_receipt/src/unified.rs] and [pipeline_types.rs]: [Receipt],
      [ReceiptFacts].
    - [ubl_chipstore]: [ChipStore], the store, its indexer, queries and the
      in-memory backend; [ChipStoreFacts], the contract of a backend, its proof
      for the in-memory one, what clients have from it, and in its Module
      [Race] the interleavings of critical sections; [SledBackend], the backend
      over the embedded database, with the same contract and its behaviour
      under failures and crashes.
    - [Sled], the embedded database as an interface with its laws (trees,
      calls that may fail with or without having done their work) and the
      reasoning its two clients share; an instance whose failures are scripted.
    - [idempotency.rs]: [Idempotency]; [durable_store.rs] and
      [outbox_dispatcher.rs]: [Durable], with [DurableFacts].
    - [logline/src]: the LogLine text format.  [Logline] has the tokenizer with
      its positions, the parser, the error messages and the serializer;
      [LoglineFacts] where the loops stop and where one does not,
      [LoglineRoundtrip] the round trip with its witnesses and examples.
    - [rich_url.rs]: [RichUrl], [RichUrlFacts]: hosted and self-contained
      URLs and the public receipt token.
    - [event_bus.rs]: [EventBus]; [ledger.rs] and, in its Module [Storage],
      [ubl_ledger]: [Ledger]; [advisory.rs] and [ai_passport.rs]: [Advisory];
      [transition_registry.rs]: [TrRegistry].
    - [ubl_eventstore]: [EventStore], events and their seven indexes over
      [Sled], in which any call can fail.
    - [meta_chip.rs]: [MetaChip], type registration; [policy_lock.rs]:
      [PolicyLock], the lock file of a policy tree; [error_response.rs]:
      [ErrorResponse], the classification of errors, their texts and statuses.

    The pipeline ([pipeline/mod.rs], [types.rs], [processing.rs], [stages/]):
    - [PipelineTypes]: requests, errors, configuration, the shared state and
      the state-and-error monad of the stages; [Check] and [CheckFacts];
      [Compaction] and [CompactionFacts], the removal of ledger segments over a
      model of the file system; [Transition], the TR stage with its audit
      transitions; [Pipeline], the stages WA and WF and everything that
      [process_chip] does around them; [PipelineFacts]; [PipelineSample], a
      concrete environment on which whole runs are evaluated.

    The gate ([services/ubl_gate/src]):
    - [state.rs], [utils.rs]: [GateState], the state of the service, its
      configuration from the environment, cache headers, tokens of the write
      allowlist and the monad of the handlers.
    - [chip.rs]: [GateSubmit], sessions, scopes and the handlers that submit;
      [GateRead], the handlers that read chips, and [receipt.rs], which serve
      receipts, traces, narrations and public receipts.
    - [mcp.rs]: [Mcp], the JSON-RPC endpoint, its tools and its limiter.
    - [registry.rs] and [templates.rs]: [Registry], the view that replays the
      receipts of the store into a table of chip types, and its JSON and HTML.
    - [events.rs], [advisor.rs], [console.rs], [audit.rs], [outbox.rs]:
      [GateEvents], hub events and their ingestion, streams and searches, the
      advisor's snapshots, the lists of the console and of the audit pages, and
      the delivery of outbox events.
    - [ubl_config]: [Config], the configuration as a function of the
      environment and what the gate builds from it.
    - [lib.rs]: [Router], the table of routes, with the requests that change
      the store; [SubmitFacts] and [ReadFacts] the theorems on submission and
      reading, the latter with a sample gate on which the handlers are
      evaluated.

    [Prelude] (this file) has the error monad, the tactics and the generic
    lemmas; [RustStd] and [RustStr] what the code uses of Rust's standard
    library (bytes, fixed-width integers, strings and UTF-8, stable sorting,
    ordered maps); [Json] [serde_json::Value] and its accessors.

    ** How the code is modelled

    A [Result] is [result], Rust's [?] the bind of its monad; error texts are
    constructors of one error type per crate.  Machine integers are [Z] with
    their range, wrap-around and saturation written out.  A [HashMap] is a
    [gmap]; a [BTreeMap] an ordered association list ([RustStd]); a JSON object
    an association list in insertion order with unique keys ([json_wf]).
    Mutable state is passed explicitly: the VM's in a state monad, the
    limiters', stores' and tables' as arguments and results, the pipeline's in
    the monad of [PipelineTypes], in which a failed call keeps the state it has
    reached; the gate's handlers run in a monad of the same form ([GateState]), where
    a call of the pipeline is a step of the pipeline's state and a panicking
    [unwrap] or a value the model cannot read stops the run.  Operations that the code serialises with a lock or a transaction
    are atomic steps, and histories are lists of such steps.  The pipeline's
    calls run one after the other.  The tasks that it spawns, which store
    advisories, wait in the state ([spawned]); between calls the runtime may run
    any of them in any order ([run_pending], [run_schedule]).  That a task runs
    while a call is under way is not modelled: the steps of a denied chip that
    follow the spawn do not read the chip store.

    Storage that fails does so as it may: a call of the embedded database that
    reports an error may have written its entry, and a clear may have removed a
    part of a tree ([SledLaws]); a failing copy of a file may leave a part of
    the target ([Compaction]).  After a crash the embedded database may have lost
    what was not flushed; theorems on that start from any part of what was
    written ([sled_survives_failures], [index_never_dangles]).

    Clock readings, random numbers, measured durations and the failures of
    database calls are a function of the number of readings so far ([Readings],
    [tick]), so theorems hold for every behaviour of the environment.

    Libraries the code calls are type classes, their documented behaviour is a
    class of laws or a named hypothesis, and the theorems that rely on one have
    an instance that satisfies it: [Unicode] (NFC), [StrCase], [StrUpper],
    [StrDebug], [Blake3], [Blake3Keyed], [Sha256], [HexDecode], [Base64],
    [Base64Std], [Base58], [Ed25519] and [Ed25519Keys], [Chrono],
    [ChronoInstant], [ChronoDate], [ChronoFormat], [Clock], [BigNum],
    [BigintText], [SerdeJson], [NumSerde], [PolicySerde], [ReceiptSerde],
    [HashIter] (the order of a hash table), [Wasmtime], [CharClass] and
    [F64Text] (characters and floats of LogLine), [Deflate], [ErrorTexts] and [ForeignTexts] (texts
    of the libraries' errors), [GateReadings] and [GateTexts] (what the gate
    reads from its environment and prints), [ChronoMillis], [MillisLaws] and
    [EventTexts] (instants in milliseconds and the texts of events), [ChipTexts]
    (texts of reading errors), [Sled] and [SledLaws] (the embedded database).  The VM's providers are interfaces too ([CasProvider], [SignProvider], [CanonProvider]); [Gate]
    and [Check] instantiate them with the pipeline's.  A chip-store backend is
    the class [ChipStoreBackend] with its contract [BackendSpec], against which
    the clients' theorems are proved; a ledger is a [LedgerWriter].

    ** What the theorems show

    - NRF: decoding inverts encoding; the varint codec accepts minimal
      encodings only; the decoder returns on every input; bytes and CID do not
      depend on member order or null members, and determine the content.
    - ρ: idempotent, normalising, byte-preserving; a validated value is
      encodable when its integers fit [i64].
    - numbers: correct rounding in six modes, exact point arithmetic, sound
      interval arithmetic and [f64] import, bounded rational approximation,
      comparison by midpoints.
    - VM: the stream decoder is the inverse of the encoder; exact fuel
      accounting; the typed stack; receipts bind the run; tracing and the
      clock are not observable.
    - policies: each aggregation mode meets its contract; sequential
      composition is parallel composition with an early exit; reported inputs
      determine the result; the ancestry walk returns with every ancestor.
    - silicon: compiled bytecode, run on the VM, does what the documentation
      says the chip means, but for three modes in which it does something else
      ([first_decisive_denies], [subchip_counting_stuck],
      [large_threshold_passes]); resolution and compilation terminate; what the
      live gate does when the program fails or reads its input.
    - admission: what an admitted body satisfies; the exact answer of the
      duplicate-key scan on flat objects; agreement of the two float imports.
    - authority: onboarding is accepted exactly when its dependencies are met
      and none of them is revoked; capabilities cover what they are used for
      (and can be self-issued); audit snapshots stay disjoint.
    - receipts: the chain check is exact; receipts with one CID agree; appends
      extend, denials rebuild, rotations keep the chain.
    - chip store: the in-memory and the database backend are finite maps and
      agree; executed chips are found; concurrent puts end up indexed; whatever
      calls of the database fail, every acknowledged operation survives while
      the database keeps what its calls did, and opening it again restores the
      indexes, also on what a crash has left of the chips.
    - rate limiting: the window bound over any history, exactness, honest
      retry delays, shared budget of cosmetic variants.
    - signing: signatures verify on cosmetic variants, domains separate
      messages, identifiers parse back.
    - durability: atomic commits under arbitrary statement failures, permanent
      idempotent results, each outbox event claimed once, settled dispatch
      rounds, the nonce guard.
    - adapters and compaction: what a sandboxed run can have done; archiving
      loses nothing under any pattern of input/output errors, deletion removes
      exactly a verified prefix.
    - LogLine: the tokenizer stops and its positions are those of the text; the
      parser stops on a text without arrays and runs for ever on a stray
      delimiter after any values of one; serialized documents read back, on
      stated conditions on keys, strings and numbers.
    - rich URLs: the URL forms read back; what verification accepts; what a
      signature covers and where it covers nothing; the token of a receipt.
    - errors: every error has one code, class and status, and what the model
      calls a denial is one; lock files: verification reports exactly the
      policies that differ from the lock.
    - events: a query answers with exactly the matching events whichever index
      it takes; no index names an event that is not stored, whatever fails, and
      rebuilding makes the indexes those of the events there are; a chain of search pages never ends; the console
      shows the oldest events.
    - ledgers: files only grow; the storage file answers as the one in memory
      does, and a torn line takes it away; passports: parsed back, and what
      they permit.
    - configuration: what is read from the environment is valid; a misspelt
      flag leaves the gate open; the log line depends on no secret.
    - gate: a request that changes the store was permitted to, reads change
      nothing; a session is bound to the subject of its token (and a client can
      mint a token for another subject); a served receipt is the stored one; a
      narration takes any receipt it is given; the MCP limiter is the sliding
      window of [rate_limit.rs]; the registry shows the last registration that
      was not withdrawn.
    - pipeline: the stages, links, decision and chain of every finished run;
      a denied chip leaves only the advisory on its denial, which a spawned
      task stores; a processed request is answered
      from then on with its stored result; issued receipts verify; a rotation
      rotates the secret in memory and in the database and keeps its own
      receipt valid; CHECK allows exactly what no policy of the chain denies.

    Theorems that describe a defect (a panic, an unreachable branch, a gate
    that fails open, an event that stays in flight) are stated the same way,
    with their witnesses.

    ** Fuel

    Recursion that is not structural carries fuel, and a theorem shows that
    the fuel is enough: the NRF decoder runs with [2 * length + 1]
    ([nrf_decode_total]), since every call consumes a byte or counts down a
    length; continued fractions with 132 rounds ([to_rat_bounded]), since
    denominators grow like Fibonacci numbers and limits are below [2^64]; the
    instruction decoder with one unit per byte ([decode_stream_exact]); the
    duplicate-key scan with one unit per byte; condition parsing with the depth
    of the JSON value; chip resolution with the number of stored chips plus one
    ([gate_compile_terminates]), since the visiting set grows along a path; the
    ancestry walk with the number of stored chips plus one ([ancestry_exact]).
    The LogLine tokenizer takes one round per character and one for the end
    ([tokenizer_located]); its parser has no bound of its own: the fuel is an
    argument, three rounds per character are enough without arrays
    ([logline_terminates]), [document_cost] for a serialized document
    ([logline_roundtrip]), and no fuel is enough for [stray_in_array_diverges].
    The pipeline's two fuels ([pl_resolve_fuel], [pl_ancestry_fuel]) are those
    of the last two; theorems on the pipeline hold for any value.

    ** What is not modelled

    Transport, logging and metrics; the inside of the WASM engine, of SQLite
    and of the embedded database; the file-system and S3 backends of the
    chip store; YAML; the capture of build and runtime metadata and the runtime
    attestation; the gate's start-up and shutdown, its HTML, its day of sample
    data, calls to language models and the time limit on its calls; manifests,
    DIDs and the command line.  Waiting on locks and the
    interleaving of concurrent pipeline calls are outside the model.
    In [Durable], opening the database and creating the schema are the
    statements [SOpen] and [SPragmas] that may fail; clock readings are
    arguments, and instants are assumed far from the ends of [i64]. *)

From Stdlib Require Export ZArith Lia String Ascii Strings.Byte Permutation Sorted.
From stdpp Require Export base tactics option list strings gmap.

Global Open Scope Z_scope.
#[export] Set Warnings "-register-all".

(** ** The error monad

    Rust's [Result<A, E>], with stdpp's [x ← m; k] notation for the [?]
    operator. *)

Inductive result (E A : Type) : Type :=
| Ok (a : A)
| Err (e : E).
Arguments Ok {E A} a.
Arguments Err {E A} e.

#[export] Instance result_ret {E} : MRet (result E) := fun A a => Ok a.
#[export] Instance result_bind {E} : MBind (result E) := fun A B f m =>
  match m with Ok a => f a | Err e => Err e end.
#[export] Instance result_fmap {E} : FMap (result E) := fun A B f m =>
  match m with Ok a => Ok (f a) | Err e => Err e end.

Definition map_err {E F A} (f : E -> F) (m : result E A) : result F A :=
  match m with Ok a => Ok a | Err e => Err (f e) end.

Definition ok_or {E A} (o : option A) (e : E) : result E A :=
  match o with Some a => Ok a | None => Err e end.

Definition is_ok {E A} (m : result E A) : bool :=
  match m with Ok _ => true | Err _ => false end.

(** [for x in l { acc = f(acc, x)? }]: a loop that stops at the first error. *)
Fixpoint try_fold {E A S} (f : S -> A -> result E S) (s : S) (l : list A) : result E S :=
  match l with
  | [] => Ok s
  | x :: l' => match f s x with Ok s' => try_fold f s' l' | Err e => Err e end
  end.

(** [l.iter().map(f).collect::<Result<Vec<_>, _>>()]. *)
Fixpoint try_map {E A B} (f : A -> result E B) (l : list A) : result E (list B) :=
  match l with
  | [] => Ok []
  | x :: l' =>
      match f x with
      | Ok y => match try_map f l' with Ok ys => Ok (y :: ys) | Err e => Err e end
      | Err e => Err e
      end
  end.

(** ** Tactics *)

(** Reduce the monadic structure of hypotheses and goal, splitting on the
    scrutinees of binds over [result] and [option]. *)
Ltac res_simpl :=
  unfold mret, result_ret, mbind, result_bind, option_bind, fmap, result_fmap,
    map_err, ok_or in *.

Ltac res_step :=
  match goal with
  | H : Ok _ = Ok _ |- _ => injection H as H
  | H : Err _ = Err _ |- _ => injection H as H
  | H : Ok _ = Err _ |- _ => discriminate H
  | H : Err _ = Ok _ |- _ => discriminate H
  | H : Some _ = Some _ |- _ => injection H as H
  | H : Some _ = None |- _ => discriminate H
  | H : None = Some _ |- _ => discriminate H
  | H : match ?m with _ => _ end = Ok _ |- _ => destruct m eqn:?; try discriminate H
  | H : match ?m with _ => _ end = Some _ |- _ => destruct m eqn:?; try discriminate H
  end.

(** Invert a hypothesis [m = Ok _] down to the calls that succeeded. *)
Ltac inv_ok := res_simpl; repeat (progress (cbn beta iota in *) || res_step); subst.

(** Boolean tests to arithmetic facts. *)
Ltac bool_to_prop :=
  repeat match goal with
  | H : (_ && _)%bool = true |- _ => apply andb_prop in H as [? ?]
  | H : (_ || _)%bool = false |- _ => apply orb_false_elim in H as [? ?]
  | H : negb _ = true |- _ => apply negb_true_iff in H
  | H : negb _ = false |- _ => apply negb_false_iff in H
  | H : (_ =? _) = true |- _ => apply Z.eqb_eq in H
  | H : (_ =? _) = false |- _ => apply Z.eqb_neq in H
  | H : (_ <? _) = true |- _ => apply Z.ltb_lt in H
  | H : (_ <? _) = false |- _ => apply Z.ltb_ge in H
  | H : (_ <=? _) = true |- _ => apply Z.leb_le in H
  | H : (_ <=? _) = false |- _ => apply Z.leb_gt in H
  end.

(** ** Generic lemmas *)

Create HintDb ubl.

Lemma result_bind_ok {E A B} (m : result E A) (f : A -> result E B) b :
  (m ≫= f) = Ok b <-> exists a, m = Ok a /\ f a = Ok b.
Proof.
  destruct m as [a|e]; cbn; split.
  - intros H. by exists a.
  - by intros (a' & [= ->] & H).
  - done.
  - by intros (a' & [=] & _).
Qed.

Lemma try_fold_app {E A S} (f : S -> A -> result E S) s l1 l2 :
  try_fold f s (l1 ++ l2) =
  match try_fold f s l1 with Ok s' => try_fold f s' l2 | Err e => Err e end.
Proof.
  revert s; induction l1 as [|x l1 IH]; intros s; cbn; [done|].
  by destruct (f s x).
Qed.

(** A loop invariant of [try_fold]. *)
Lemma try_fold_inv {E A S} (P : S -> Prop) (f : S -> A -> result E S) l s s' :
  (forall s x s', x ∈ l -> P s -> f s x = Ok s' -> P s') ->
  P s -> try_fold f s l = Ok s' -> P s'.
Proof.
  revert s; induction l as [|x l IH]; cbn; intros s Hf HP H.
  - by injection H as <-.
  - destruct (f s x) as [s1|] eqn:Hx; [|done].
    apply (IH s1); [|by eapply Hf; eauto; left|done].
    intros ? y ? Hy. apply Hf. by right.
Qed.

Lemma try_map_Forall2 {E A B} (f : A -> result E B) l ys :
  try_map f l = Ok ys <-> Forall2 (fun x y => f x = Ok y) l ys.
Proof.
  revert ys; induction l as [|x l IH]; cbn; intros ys.
  - split; [by intros [= <-]|]. by inversion 1.
  - split.
    + intros H. inv_ok. constructor; [done|]. by apply IH.
    + inversion 1 as [|? ? ? ? Hx Hl]; subst. rewrite Hx.
      by apply IH in Hl as ->.
Qed.

Lemma try_map_length {E A B} (f : A -> result E B) l ys :
  try_map f l = Ok ys -> length ys = length l.
Proof. rewrite try_map_Forall2. intros H. by apply Forall2_length in H. Qed.

Lemma try_map_app {E A B} (f : A -> result E B) l1 l2 ys1 ys2 :
  try_map f l1 = Ok ys1 -> try_map f l2 = Ok ys2 -> try_map f (l1 ++ l2) = Ok (ys1 ++ ys2).
Proof. rewrite !try_map_Forall2. apply Forall2_app. Qed.

#[export] Instance filter_bool_perm {A} (f : A -> bool) :
  Proper (Permutation ==> Permutation) (List.filter f).
Proof.
  induction 1 as [|x l l' H IH|x y l|l1 l2 l3 H1 IH1 H2 IH2]; cbn.
  - done.
  - destruct (f x); [by constructor|done].
  - destruct (f x), (f y); try done. constructor.
  - by rewrite IH1.
Qed.

(** *** Filters and concatenations *)

Lemma list_filter_all {A} (f : A -> bool) l : (forall x, x ∈ l -> f x = true) -> List.filter f l = l.
Proof.
  induction l as [|x l IH]; intros H; cbn; [done|].
  rewrite (H x) by left. f_equal. apply IH. intros y Hy. apply H. by right.
Qed.

Lemma elem_of_list_filter {A} (f : A -> bool) l x : x ∈ List.filter f l <-> f x = true /\ x ∈ l.
Proof. rewrite !list_elem_of_In, filter_In. tauto. Qed.

Lemma filter_NoDup {A} (f : A -> bool) l : NoDup l -> NoDup (List.filter f l).
Proof.
  induction 1 as [|x l Hx Hl IH]; cbn; [constructor|]. destruct (f x); [|done].
  constructor; [|done]. rewrite elem_of_list_filter. tauto.
Qed.

Lemma existsb_elem (x : string) l : existsb (String.eqb x) l = true <-> x ∈ l.
Proof.
  rewrite existsb_exists. setoid_rewrite String.eqb_eq. setoid_rewrite <- list_elem_of_In.
  split; [by intros (? & ? & ->)|eauto].
Qed.

Lemma elem_of_concat_map {A B} (f : A -> list B) l y : y ∈ concat (f <$> l) <-> exists x, x ∈ l /\ y ∈ f x.
Proof.
  rewrite list_elem_of_In, in_concat. setoid_rewrite in_map_iff. setoid_rewrite <- list_elem_of_In. naive_solver.
Qed.
