(* ===== verification/RustStd.v ===== *)
(** * The parts of Rust and its standard library the sources use

    Bytes and big-endian integers, [i64]/[u64] wrap-around and saturation,
    UTF-8 strings and their byte-wise order, stable sorting, and ordered maps
    ([BTreeMap<String, _>]) as sorted association lists. *)

From S2P Require Import Prelude.

(** ** Bytes *)

Abbreviation bytes := (list Byte.byte).

Definition u8 (b : Byte.byte) : Z := Z.of_N (Byte.to_N b).

(** [z as u8]: truncation to eight bits. *)
Definition as_u8 (z : Z) : Byte.byte :=
  default x00 (Byte.of_N (Z.to_N (z mod 256))).

(** [to_be_bytes] of a [8*n]-bit integer (two's complement for signed ones). *)
Fixpoint to_be_bytes (n : nat) (z : Z) : bytes :=
  match n with
  | O => []
  | S n' => as_u8 (Z.shiftr z (8 * Z.of_nat n')) :: to_be_bytes n' z
  end.

(** [from_be_bytes] of an unsigned integer. *)
Fixpoint from_be_bytes (acc : Z) (bs : bytes) : Z :=
  match bs with
  | [] => acc
  | b :: bs' => from_be_bytes (256 * acc + u8 b) bs'
  end.

(** ** Machine integers *)

Definition i64_min : Z := - 2 ^ 63.
Definition i64_max : Z := 2 ^ 63 - 1.
Definition u64_max : Z := 2 ^ 64 - 1.
Definition u32_max : Z := 2 ^ 32 - 1.

Definition in_i64 (z : Z) : bool := (i64_min <=? z) && (z <=? i64_max).
Definition in_u64 (z : Z) : bool := (0 <=? z) && (z <=? u64_max).

(** [v as i64] for an unsigned 64-bit [v]. *)
Definition u64_as_i64 (v : Z) : Z := if v <=? i64_max then v else v - 2 ^ 64.

Definition i64_from_be_bytes (bs : bytes) : Z := u64_as_i64 (from_be_bytes 0 bs).

(** Clamping of an exact result to [i64], the meaning of [saturating_*]. *)
Definition saturate_i64 (z : Z) : Z := Z.max i64_min (Z.min i64_max z).
Definition i64_saturating_add (a b : Z) : Z := saturate_i64 (a + b).
Definition i64_saturating_sub (a b : Z) : Z := saturate_i64 (a - b).
Definition i64_saturating_mul (a b : Z) : Z := saturate_i64 (a * b).
(** Division truncates; only [i64::MIN / -1] saturates. *)
Definition i64_saturating_div (a b : Z) : Z := saturate_i64 (Z.quot a b).
Definition u64_saturating_add (a b : Z) : Z := Z.min u64_max (a + b).

(** ** Strings

    A Rust [String] is a byte sequence that is valid UTF-8; the model is
    [string], whose characters are bytes, with validity as [utf8_valid]. *)

Definition as_bytes (s : string) : bytes := list_byte_of_string s.

Definition is_cont (b : Byte.byte) : bool := (0x80 <=? u8 b) && (u8 b <=? 0xBF).

Definition between (lo hi : Z) (b : Byte.byte) : bool := (lo <=? u8 b) && (u8 b <=? hi).

Definition cont6 (b : Byte.byte) : Z := u8 b - 0x80.

(** One scalar value off the front of a byte sequence (the well-formed UTF-8
    table of the Unicode standard, which [core::str] implements). *)
Definition next_char (bs : bytes) : option (Z * bytes) :=
  match bs with
  | [] => None
  | b0 :: r0 =>
      let x := u8 b0 in
      if x <=? 0x7F then Some (x, r0)
      else if (0xC2 <=? x) && (x <=? 0xDF) then
        match r0 with
        | b1 :: r1 =>
            if is_cont b1 then Some ((x - 0xC0) * 64 + cont6 b1, r1) else None
        | _ => None
        end
      else if (0xE0 <=? x) && (x <=? 0xEF) then
        match r0 with
        | b1 :: b2 :: r2 =>
            let lo := if x =? 0xE0 then 0xA0 else 0x80 in
            let hi := if x =? 0xED then 0x9F else 0xBF in
            if between lo hi b1 && is_cont b2
            then Some ((x - 0xE0) * 4096 + cont6 b1 * 64 + cont6 b2, r2) else None
        | _ => None
        end
      else if (0xF0 <=? x) && (x <=? 0xF4) then
        match r0 with
        | b1 :: b2 :: b3 :: r3 =>
            let lo := if x =? 0xF0 then 0x90 else 0x80 in
            let hi := if x =? 0xF4 then 0x8F else 0xBF in
            if between lo hi b1 && is_cont b2 && is_cont b3
            then Some ((x - 0xF0) * 262144 + cont6 b1 * 4096 + cont6 b2 * 64 + cont6 b3, r3)
            else None
        | _ => None
        end
      else None
  end.

Fixpoint decode_chars (fuel : nat) (bs : bytes) : option (list Z) :=
  match bs with
  | [] => Some []
  | _ =>
      match fuel with
      | O => None
      | S f =>
          match next_char bs with
          | Some (c, r) => match decode_chars f r with Some cs => Some (c :: cs) | None => None end
          | None => None
          end
      end
  end.

(** The scalar values of a byte sequence; [None] when it is not UTF-8. Each
    character takes at least one byte, so the length is enough fuel. *)
Definition utf8_chars (bs : bytes) : option (list Z) := decode_chars (length bs) bs.

Definition utf8_valid (bs : bytes) : bool :=
  match utf8_chars bs with Some _ => true | None => false end.

(** [str::from_utf8] / [String::from_utf8]. *)
Definition from_utf8 (bs : bytes) : option string :=
  if utf8_valid bs then Some (string_of_list_byte bs) else None.

(** [s.chars()]. *)
Definition chars (s : string) : list Z := default [] (utf8_chars (as_bytes s)).

(** [s.contains('\u{feff}')] and [s.chars().any(|c| c <= '\u{001f}')]. *)
Definition has_bom (s : string) : bool := existsb (Z.eqb 0xFEFF) (chars s).
Definition has_control_char (s : string) : bool := existsb (fun c => c <=? 0x1F) (chars s).

Fixpoint starts_with (p s : string) : bool :=
  match p, s with
  | EmptyString, _ => true
  | String a p', String b s' => Ascii.eqb a b && starts_with p' s'
  | String _ _, EmptyString => false
  end.

Fixpoint strip_prefix (p s : string) : option string :=
  match p, s with
  | EmptyString, _ => Some s
  | String a p', String b s' => if Ascii.eqb a b then strip_prefix p' s' else None
  | String _ _, EmptyString => None
  end.

(** [s.split(c)] on an ASCII separator. *)
Fixpoint split_on (c : ascii) (s : string) : list string :=
  match s with
  | EmptyString => [EmptyString]
  | String a s' =>
      if Ascii.eqb a c then EmptyString :: split_on c s'
      else match split_on c s' with
           | w :: ws => String a w :: ws
           | [] => [String a EmptyString]
           end
  end.

(** [to_ascii_lowercase]. *)
Definition ascii_lower (a : ascii) : ascii :=
  let n := N_of_ascii a in
  if (65 <=? n)%N && (n <=? 90)%N then ascii_of_N (n + 32) else a.
Fixpoint to_ascii_lowercase (s : string) : string :=
  match s with
  | EmptyString => EmptyString
  | String a s' => String (ascii_lower a) (to_ascii_lowercase s')
  end.

Definition ends_with (suf s : string) : bool :=
  let n := String.length s in
  let k := String.length suf in
  (Nat.leb k n && String.eqb (String.substring (n - k) k s) suf)%bool.

(** Decimal rendering of a non-negative integer ([{}] of an unsigned type). *)
Definition digit_char (d : Z) : ascii := ascii_of_N (Z.to_N (48 + d)).
Fixpoint dec_digits (fuel : nat) (n : Z) (acc : string) : string :=
  match fuel with
  | O => acc
  | S f =>
      let acc' := String (digit_char (n mod 10)) acc in
      if n <? 10 then acc' else dec_digits f (n / 10) acc'
  end.
Definition u_to_string (n : Z) : string := dec_digits (S (Z.to_nat (Z.log2 n))) n EmptyString.
(** [{}] of a signed integer. *)
Definition i_to_string (n : Z) : string :=
  if n <? 0 then String "-" (u_to_string (- n)) else u_to_string n.

(** Lower-case hexadecimal, two digits per byte ([hex::encode], [{:02x}]). *)
Definition hex_digit (d : Z) : ascii :=
  ascii_of_N (Z.to_N (if d <? 10 then 48 + d else 87 + d)).
Definition hex_byte (b : Byte.byte) : string :=
  String (hex_digit (u8 b / 16)) (String (hex_digit (u8 b mod 16)) EmptyString).
Fixpoint hex_encode (bs : bytes) : string :=
  match bs with
  | [] => EmptyString
  | b :: bs' => String.append (hex_byte b) (hex_encode bs')
  end.

Fixpoint join (sep : string) (l : list string) : string :=
  match l with
  | [] => EmptyString
  | [x] => x
  | x :: l' => String.append x (String.append sep (join sep l'))
  end.

(** ** Sorting: [slice::sort_by] is stable *)

Section SortBy.
Context {A : Type} (leb : A -> A -> bool).

Fixpoint insert_by (x : A) (l : list A) : list A :=
  match l with
  | [] => [x]
  | y :: l' => if leb x y then x :: y :: l' else y :: insert_by x l'
  end.

Fixpoint sort_by (l : list A) : list A :=
  match l with
  | [] => []
  | x :: l' => insert_by x (sort_by l')
  end.

Lemma insert_by_perm x l : insert_by x l ≡ₚ x :: l.
Proof.
  induction l as [|y l IH]; cbn; [done|].
  destruct (leb x y); [done|]. rewrite IH. apply Permutation_swap.
Qed.

Lemma sort_by_perm l : sort_by l ≡ₚ l.
Proof. induction l as [|x l IH]; cbn; [done|]. by rewrite insert_by_perm, IH. Qed.

Context (leb_total : forall x y, leb x y = false -> leb y x = true).
Context (leb_trans : forall x y z, leb x y = true -> leb y z = true -> leb x z = true).

Lemma insert_by_sorted x l :
  StronglySorted (fun a b => leb a b = true) l ->
  StronglySorted (fun a b => leb a b = true) (insert_by x l).
Proof using leb_total leb_trans.
  induction 1 as [|y l Hl IH Hy]; cbn; [by repeat constructor|].
  destruct (leb x y) eqn:Hxy.
  - constructor; [by constructor|]. constructor; [done|].
    eapply Forall_impl; [exact Hy|]. eauto.
  - constructor; [done|]. rewrite insert_by_perm. constructor; eauto.
Qed.

Lemma sort_by_sorted l : StronglySorted (fun a b => leb a b = true) (sort_by l).
Proof using leb_total leb_trans.
  induction l as [|x l IH]; cbn; [constructor|]. by apply insert_by_sorted.
Qed.
End SortBy.

(** [Vec::dedup_by]: each element is compared with the last one retained. *)
Fixpoint dedup_from {A} (same : A -> A -> bool) (x : A) (l : list A) : list A :=
  match l with
  | [] => [x]
  | y :: l' => if same x y then dedup_from same x l' else x :: dedup_from same y l'
  end.
Definition dedup_by {A} (same : A -> A -> bool) (l : list A) : list A :=
  match l with [] => [] | x :: l' => dedup_from same x l' end.

(** ** Ordered maps

    A [BTreeMap<String, V>] is the list of its entries in iteration order:
    ascending by key, each key once ([btree_wf]). *)

Section BTreeMap.
Context {V : Type}.
Implicit Types (m : list (string * V)) (k : string).

Fixpoint btree_get k m : option V :=
  match m with
  | [] => None
  | (k', v) :: m' => if String.eqb k k' then Some v else btree_get k m'
  end.

Definition btree_contains_key k m : bool :=
  match btree_get k m with Some _ => true | None => false end.

Fixpoint btree_insert k (v : V) m : list (string * V) :=
  match m with
  | [] => [(k, v)]
  | (k', v') :: m' =>
      match String.compare k k' with
      | Lt => (k, v) :: m
      | Eq => (k, v) :: m'
      | Gt => (k', v') :: btree_insert k v m'
      end
  end.

Definition btree_wf m : Prop :=
  StronglySorted (fun a b => String.ltb a.1 b.1 = true) m.
End BTreeMap.

(** ** Lemmas: bytes and integers *)

Lemma u8_range b : 0 <= u8 b < 256.
Proof. unfold u8. pose proof (Byte.to_N_bounded b). lia. Qed.

Lemma u8_as_u8 z : u8 (as_u8 z) = z mod 256.
Proof.
  unfold u8, as_u8. pose proof (Z.mod_pos_bound z 256 eq_refl) as Hb.
  destruct (Byte.of_N (Z.to_N (z mod 256))) as [b|] eqn:E; cbn.
  - apply Byte.to_of_N in E. rewrite E. lia.
  - apply Byte.of_N_None_iff in E. lia.
Qed.

Lemma u8_inj a b : u8 a = u8 b -> a = b.
Proof.
  unfold u8. intros H. apply N2Z.inj in H.
  pose proof (Byte.of_to_N a) as Ha. pose proof (Byte.of_to_N b) as Hb.
  rewrite H in Ha. congruence.
Qed.

Lemma as_u8_u8 b : as_u8 (u8 b) = b.
Proof.
  apply u8_inj. rewrite u8_as_u8. pose proof (u8_range b). by apply Z.mod_small.
Qed.

#[export] Instance byte_eq_dec : EqDecision Byte.byte.
Proof. intros x y. destruct (Byte.byte_eq_dec x y); [by left|by right]. Defined.

Lemma to_be_bytes_length n z : length (to_be_bytes n z) = n.
Proof. induction n; cbn; congruence. Qed.

Lemma pow8_succ n : 2 ^ (8 * Z.of_nat (S n)) = 256 * 2 ^ (8 * Z.of_nat n).
Proof. replace (8 * Z.of_nat (S n)) with (8 + 8 * Z.of_nat n) by lia.
  rewrite Z.pow_add_r by lia. reflexivity.
Qed.

Lemma from_be_bytes_acc acc bs :
  from_be_bytes acc bs = acc * 2 ^ (8 * Z.of_nat (length bs)) + from_be_bytes 0 bs.
Proof.
  revert acc; induction bs as [|b bs IH]; intros acc.
  - cbn. lia.
  - cbn [from_be_bytes length]. rewrite (IH (256 * acc + u8 b)), (IH (256 * 0 + u8 b)).
    rewrite pow8_succ. ring.
Qed.

Lemma from_be_bytes_range bs : 0 <= from_be_bytes 0 bs < 2 ^ (8 * Z.of_nat (length bs)).
Proof.
  induction bs as [|b bs IH].
  - cbn. lia.
  - cbn [from_be_bytes length]. rewrite from_be_bytes_acc, pow8_succ.
    pose proof (u8_range b). nia.
Qed.

Lemma from_to_be_bytes n z :
  from_be_bytes 0 (to_be_bytes n z) = z mod 2 ^ (8 * Z.of_nat n).
Proof.
  induction n as [|n IH]; [cbn; by rewrite Z.mod_1_r|].
  cbn [to_be_bytes from_be_bytes]. rewrite from_be_bytes_acc, IH, to_be_bytes_length.
  rewrite u8_as_u8, pow8_succ, Z.shiftr_div_pow2 by lia.
  set (p := 2 ^ (8 * Z.of_nat n)).
  assert (0 < p) by (unfold p; apply Z.pow_pos_nonneg; lia).
  rewrite (Z.mul_comm 256 p), Z.rem_mul_r by lia. ring.
Qed.

Lemma to_be_bytes_shift n k y : to_be_bytes n (k * 2 ^ (8 * Z.of_nat n) + y) = to_be_bytes n y.
Proof.
  revert k; induction n as [|n IH]; intros k; [done|]. cbn [to_be_bytes].
  rewrite pow8_succ.
  replace (k * (256 * 2 ^ (8 * Z.of_nat n)) + y)
    with (k * 256 * 2 ^ (8 * Z.of_nat n) + y) by ring.
  f_equal; [|apply IH].
  apply u8_inj. rewrite !u8_as_u8, !Z.shiftr_div_pow2 by lia.
  assert (0 < 2 ^ (8 * Z.of_nat n)) by (apply Z.pow_pos_nonneg; lia).
  by rewrite Z.add_comm, Z.div_add, Z_mod_plus_full by lia.
Qed.

Lemma to_from_be_bytes bs : to_be_bytes (length bs) (from_be_bytes 0 bs) = bs.
Proof.
  induction bs as [|b bs IH]; [done|].
  cbn [length from_be_bytes to_be_bytes]. rewrite from_be_bytes_acc.
  pose proof (from_be_bytes_range bs) as Hr.
  assert (0 < 2 ^ (8 * Z.of_nat (length bs))) by (apply Z.pow_pos_nonneg; lia).
  f_equal.
  - rewrite Z.shiftr_div_pow2 by lia.
    rewrite Z.add_comm, Z.div_add, (Z.div_small (from_be_bytes 0 bs)) by lia.
    apply as_u8_u8.
  - by rewrite to_be_bytes_shift.
Qed.

(** [i64] round trip through its eight big-endian bytes. *)
Lemma i64_be_roundtrip z :
  in_i64 z = true -> i64_from_be_bytes (to_be_bytes 8 z) = z.
Proof.
  unfold in_i64, i64_from_be_bytes, u64_as_i64, i64_min, i64_max. intros H.
  bool_to_prop. rewrite from_to_be_bytes. change (2 ^ (8 * Z.of_nat 8)) with (2 ^ 64).
  destruct (Z.leb_spec (z mod 2 ^ 64) (2 ^ 63 - 1)) as [Hle|Hgt];
    pose proof (Z.mod_pos_bound z (2 ^ 64) eq_refl);
    pose proof (Z_div_mod_eq_full z (2 ^ 64)); nia.
Qed.

Lemma i64_from_be_bytes_range bs :
  length bs = 8%nat -> in_i64 (i64_from_be_bytes bs) = true.
Proof.
  intros Hl. pose proof (from_be_bytes_range bs) as Hr. rewrite Hl in Hr.
  change (2 ^ (8 * Z.of_nat 8)) with (2 ^ 64) in Hr.
  unfold in_i64, i64_from_be_bytes, u64_as_i64, i64_min, i64_max.
  destruct (Z.leb_spec (from_be_bytes 0 bs) (2 ^ 63 - 1)); apply andb_true_intro; lia.
Qed.

Lemma i64_be_inverse bs :
  length bs = 8%nat -> to_be_bytes 8 (i64_from_be_bytes bs) = bs.
Proof.
  intros Hl. pose proof (to_from_be_bytes bs) as H. rewrite Hl in H.
  unfold i64_from_be_bytes, u64_as_i64.
  destruct (Z.leb_spec (from_be_bytes 0 bs) i64_max); [done|].
  rewrite <- H at 2. rewrite <- (to_be_bytes_shift 8 (-1) (from_be_bytes 0 bs)).
  f_equal. change (8 * Z.of_nat 8) with 64. lia.
Qed.

Lemma saturate_in_i64 z : in_i64 (saturate_i64 z) = true.
Proof. unfold in_i64, saturate_i64, i64_min, i64_max. apply andb_true_intro; lia. Qed.

Lemma saturate_exact z : in_i64 z = true -> saturate_i64 z = z.
Proof. unfold in_i64, saturate_i64. intros H. bool_to_prop. lia. Qed.

Lemma u64_as_i64_range n : 0 <= n <= u64_max -> in_i64 (u64_as_i64 n) = true.
Proof. unfold u64_as_i64, in_i64, i64_min, i64_max, u64_max. intros Hn. case_match; lia. Qed.

#[export] Hint Resolve saturate_in_i64 i64_from_be_bytes_range u8_range : ubl.

(** Or-ing disjoint bit ranges adds. *)
Lemma lor_shiftl_add a x k :
  0 <= k -> 0 <= a < 2 ^ k -> Z.lor a (Z.shiftl x k) = a + x * 2 ^ k.
Proof.
  intros Hk Ha. rewrite <- Z.shiftl_mul_pow2 by done.
  assert (Z.land a (Z.shiftl x k) = 0) as H0.
  { apply Z.bits_inj'. intros i Hi. rewrite Z.land_spec, Z.bits_0.
    destruct (Z.lt_ge_cases i k).
    - rewrite (Z.shiftl_spec_low x k i) by done. apply andb_false_r.
    - rewrite <- (Z.mod_small a (2 ^ k)), Z.mod_pow2_bits_high by lia. done. }
  by rewrite Z.add_nocarry_lxor, Z.lxor_lor.
Qed.

(** ** Lemmas: strings *)

Lemma as_bytes_inj s1 s2 : as_bytes s1 = as_bytes s2 -> s1 = s2.
Proof.
  intros H. rewrite <- (string_of_list_byte_of_string s1),
    <- (string_of_list_byte_of_string s2). by f_equal.
Qed.

Lemma from_utf8_as_bytes s : utf8_valid (as_bytes s) = true -> from_utf8 (as_bytes s) = Some s.
Proof.
  intros H. unfold from_utf8. rewrite H. f_equal. apply string_of_list_byte_of_string.
Qed.

Lemma from_utf8_Some bs s :
  from_utf8 bs = Some s -> as_bytes s = bs /\ utf8_valid (as_bytes s) = true.
Proof.
  unfold from_utf8. destruct (utf8_valid bs) eqn:E; [|done]. intros [= <-].
  unfold as_bytes. by rewrite list_byte_of_string_of_list_byte.
Qed.

Lemma str_app_cons a s1 s2 : String a s1 +:+ s2 = String a (s1 +:+ s2).
Proof. reflexivity. Qed.
Lemma str_app_assoc s1 s2 s3 : (s1 +:+ s2) +:+ s3 = s1 +:+ (s2 +:+ s3).
Proof. induction s1 as [|a s1 IH]; [done|]. by rewrite !str_app_cons, IH. Qed.
Lemma str_app_nil s : s +:+ "" = s.
Proof. induction s as [|a s IH]; [done|]. by rewrite str_app_cons, IH. Qed.
Lemma str_app_empty s1 s2 : s1 +:+ s2 = ""%string -> s1 = ""%string /\ s2 = ""%string.
Proof. by destruct s1. Qed.

Lemma str_compare_refl s : String.compare s s = Eq.
Proof.
  induction s as [|a s IH]; cbn; [done|]. unfold Ascii.compare. by rewrite N.compare_refl.
Qed.

Lemma str_compare_Eq s1 s2 : String.compare s1 s2 = Eq <-> s1 = s2.
Proof.
  split; [apply String.compare_eq_iff|]. intros ->. apply str_compare_refl.
Qed.

Lemma str_ltb_irrefl s : String.ltb s s = false.
Proof. unfold String.ltb. by rewrite str_compare_refl. Qed.

Lemma str_ltb_Lt s1 s2 : String.ltb s1 s2 = true <-> String.compare s1 s2 = Lt.
Proof. unfold String.ltb. by destruct (String.compare s1 s2). Qed.

Lemma str_gt_ltb s1 s2 : String.compare s1 s2 = Gt -> String.ltb s2 s1 = true.
Proof. intros H. apply str_ltb_Lt. rewrite String.compare_antisym, H. done. Qed.

Lemma str_ltb_leb s1 s2 : String.ltb s1 s2 = true -> String.leb s1 s2 = true.
Proof. unfold String.ltb, String.leb. by destruct (String.compare s1 s2). Qed.

Lemma str_leb_trans s1 s2 s3 :
  String.leb s1 s2 = true -> String.leb s2 s3 = true -> String.leb s1 s3 = true.
Proof.
  intros H1 H2. apply Is_true_true. apply Is_true_true in H1, H2.
  exact (transitivity (R := String.le) H1 H2).
Qed.

Lemma str_leb_false s1 s2 : String.leb s1 s2 = false -> String.leb s2 s1 = true.
Proof.
  destruct (String.leb_total s1 s2) as [H|H]; [by rewrite H|done].
Qed.

Lemma str_ltb_trans s1 s2 s3 :
  String.ltb s1 s2 = true -> String.ltb s2 s3 = true -> String.ltb s1 s3 = true.
Proof.
  intros H1 H2.
  assert (String.leb s1 s3 = true) as H by (eapply str_leb_trans; eauto using str_ltb_leb).
  apply str_ltb_Lt. unfold String.leb in H.
  destruct (String.compare s1 s3) eqn:E; [|done..].
  apply str_compare_Eq in E as ->.
  exfalso. pose proof (String.leb_antisym s2 s3 (str_ltb_leb _ _ H2) (str_ltb_leb _ _ H1)) as ->.
  by rewrite str_ltb_irrefl in H1.
Qed.

Lemma str_leb_ltb s1 s2 : String.leb s1 s2 = true -> s1 <> s2 -> String.ltb s1 s2 = true.
Proof.
  unfold String.leb, String.ltb. intros H Hne.
  destruct (String.compare s1 s2) eqn:E; [|done..]. by apply str_compare_Eq in E.
Qed.

(** ** Lemmas: ordered maps *)

Section BTreeFacts.
Context {V : Type}.
Implicit Types (m : list (string * V)) (k : string).

Lemma btree_get_insert k v m j :
  btree_wf m ->
  btree_get j (btree_insert k v m) = if String.eqb j k then Some v else btree_get j m.
Proof.
  induction 1 as [|[k' v'] m Hm IH Hk']; cbn; [done|].
  destruct (String.compare k k') eqn:E; cbn.
  - apply str_compare_Eq in E as ->. by destruct (String.eqb j k').
  - by destruct (String.eqb j k).
  - rewrite IH. destruct (String.eqb_spec j k') as [->|]; [|done].
    destruct (String.eqb_spec k' k) as [->|]; [|done].
    by rewrite str_compare_refl in E.
Qed.

Lemma btree_insert_keys k v m x :
  x ∈ (btree_insert k v m).*1 -> x = k \/ x ∈ m.*1.
Proof.
  induction m as [|[k' v'] m IH]; csimpl.
  { rewrite elem_of_cons. tauto. }
  destruct (String.compare k k'); csimpl; rewrite ?elem_of_cons; [tauto..|]. intros [->|H]; [tauto|]. destruct (IH H); tauto.
Qed.

Lemma btree_insert_NoDup k v m : NoDup m.*1 -> k ∉ m.*1 -> NoDup (btree_insert k v m).*1.
Proof.
  induction m as [|[k' v'] m IH]; csimpl; intros Hnd Hk; [by repeat constructor|].
  apply NoDup_cons in Hnd as [Hk' Hnd]. rewrite not_elem_of_cons in Hk. destruct Hk as [Hne Hk].
  destruct (String.compare k k') eqn:E; csimpl.
  - by apply str_compare_Eq in E.
  - by rewrite !NoDup_cons, not_elem_of_cons.
  - apply NoDup_cons. split; [|auto]. by intros [->|?]%btree_insert_keys.
Qed.

Lemma btree_insert_wf k v m : btree_wf m -> btree_wf (btree_insert k v m).
Proof.
  unfold btree_wf. induction 1 as [|[k' v'] m Hm IH Hk']; cbn; [by repeat constructor|].
  destruct (String.compare k k') eqn:E.
  - apply str_compare_Eq in E as ->. by constructor.
  - constructor; [by constructor|]. apply str_ltb_Lt in E.
    constructor; [done|]. eapply Forall_impl; [exact Hk'|]. cbn. eauto using str_ltb_trans.
  - constructor; [done|]. apply Forall_forall. intros [k1 v1] Hin.
    destruct (btree_insert_keys k v m k1) as [->|Hk1].
    + apply list_elem_of_fmap. by exists (k1, v1).
    + by apply str_gt_ltb.
    + apply list_elem_of_fmap in Hk1 as ([k2 v2] & Heq & Hin2).
      cbn in Heq |- *. subst k1. rewrite Forall_forall in Hk'. exact (Hk' _ Hin2).
Qed.

(** Entries that arrive in ascending order are appended. *)
Lemma btree_insert_last k v m : Forall (fun b => String.ltb b.1 k = true) m -> btree_insert k v m = m ++ [(k, v)].
Proof.
  induction 1 as [|[k' v'] m Hk Hm IH]; cbn; [done|].
  rewrite String.compare_antisym. cbn in Hk. apply str_ltb_Lt in Hk as ->. cbn. by rewrite IH.
Qed.

Lemma btree_wf_cons_inv p m : btree_wf (p :: m) -> btree_wf m.
Proof. by inversion 1. Qed.

Lemma btree_get_above k m :
  Forall (fun b => String.ltb k b.1 = true) m -> btree_get k m = None.
Proof.
  induction 1 as [|[k' v'] m Hk Hm IH]; cbn; [done|].
  destruct (String.eqb_spec k k') as [->|]; [|done].
  cbn in Hk. by rewrite str_ltb_irrefl in Hk.
Qed.

Lemma btree_get_elem k v m : btree_wf m -> (btree_get k m = Some v <-> (k, v) ∈ m).
Proof.
  induction 1 as [|[k' v'] m Hm IH Hk']; cbn; [set_solver|].
  destruct (String.eqb_spec k k') as [->|Hne].
  - split; [intros [= ->]; by left|]. rewrite elem_of_cons.
    intros [[= ->]|Hin]; [done|].
    apply (Forall_forall _ _) with (x := (k', v)) in Hk'; [|done].
    cbn in Hk'. by rewrite str_ltb_irrefl in Hk'.
  - rewrite IH, elem_of_cons. split; [by right|]. by intros [[= -> ->]|].
Qed.

(** A sorted map is determined by its lookups. *)
Lemma btree_ext m1 m2 :
  btree_wf m1 -> btree_wf m2 -> (forall k, btree_get k m1 = btree_get k m2) -> m1 = m2.
Proof.
  intros H1; revert m2; induction H1 as [|[k1 v1] m1 Hm1 IH Hk1]; intros m2 H2 Hext.
  - destruct m2 as [|[k v] m2]; [done|]. specialize (Hext k). cbn in Hext.
    by rewrite String.eqb_refl in Hext.
  - destruct m2 as [|[k2 v2] m2].
    { specialize (Hext k1). cbn in Hext. by rewrite String.eqb_refl in Hext. }
    inversion H2 as [|? ? Hm2 Hk2]; subst.
    assert (k1 = k2) as ->.
    { pose proof (Hext k1) as E1. pose proof (Hext k2) as E2. cbn in E1, E2.
      rewrite String.eqb_refl in E1, E2.
      destruct (String.eqb_spec k1 k2) as [|Hne]; [done|]. exfalso.
      rewrite String.eqb_sym in E2.
      destruct (String.eqb_spec k1 k2); [done|].
      symmetry in E1. apply btree_get_elem in E1; [|done].
      apply btree_get_elem in E2; [|done].
      rewrite Forall_forall in Hk1, Hk2.
      pose proof (str_ltb_trans _ _ _ (Hk1 _ E2) (Hk2 _ E1)) as Hc.
      cbn in Hc. by rewrite str_ltb_irrefl in Hc. }
    pose proof (Hext k2) as E. cbn in E. rewrite String.eqb_refl in E.
    injection E as ->. f_equal. apply IH; [done|]. intros j.
    specialize (Hext j). cbn in Hext.
    destruct (String.eqb_spec j k2) as [Hj|]; [|done].
    by rewrite Hj, !btree_get_above.
Qed.
End BTreeFacts.
#[export] Hint Resolve btree_insert_wf : ubl.
