(* ===== verification/RustStr.v ===== *)
(** * More of [str]: searching, splitting and classes of characters

    The string operations that the textual parts of the program call, with
    the lemmas that relate splitting to concatenation.  A string is its UTF-8
    bytes; a test on ASCII characters may be made bytewise, since no byte of a
    longer sequence is an ASCII character. *)

From S2P Require Import Prelude RustStd.

(** ** Operations *)

Fixpoint str_forallb (p : ascii -> bool) (s : string) : bool :=
  match s with EmptyString => true | String a s' => p a && str_forallb p s' end.

(** [s.contains(c)] for an ASCII character. *)
Fixpoint contains_char (c : ascii) (s : string) : bool :=
  match s with EmptyString => false | String a s' => Ascii.eqb a c || contains_char c s' end.

(** [s.contains(pat)]. *)
Fixpoint str_contains (pat s : string) : bool :=
  starts_with pat s || match s with EmptyString => false | String _ s' => str_contains pat s' end.

(** [s.split_once(c)]. *)
Fixpoint split_once (c : ascii) (s : string) : option (string * string) :=
  match s with
  | EmptyString => None
  | String a s' =>
      if Ascii.eqb a c then Some (EmptyString, s')
      else match split_once c s' with Some (l, r) => Some (String a l, r) | None => None end
  end.

(** [s.splitn(n, c)]: at most [n] pieces. *)
Fixpoint splitn (n : nat) (c : ascii) (s : string) : list string :=
  match n with
  | O => []
  | S n' =>
      match n', split_once c s with
      | O, _ | _, None => [s]
      | _, Some (l, r) => l :: splitn n' c r
      end
  end.

(** [s.split_once(pat)] with a non-empty pattern. *)
Fixpoint split_once_str (pat s : string) : option (string * string) :=
  match strip_prefix pat s with
  | Some r => Some (EmptyString, r)
  | None =>
      match s with
      | EmptyString => None
      | String a s' =>
          match split_once_str pat s' with Some (l, r) => Some (String a l, r) | None => None end
      end
  end.

(** [s.split(pat).next()] and [s.split(pat).nth(1)]. *)
Definition split_first (pat s : string) : string :=
  match split_once_str pat s with Some (l, _) => l | None => s end.
Definition split_second (pat s : string) : option string :=
  match split_once_str pat s with Some (_, r) => Some (split_first pat r) | None => None end.

Definition eq_ignore_ascii_case (a b : string) : bool :=
  String.eqb (to_ascii_lowercase a) (to_ascii_lowercase b).

Definition ascii_between (lo hi a : ascii) : bool :=
  ((N_of_ascii lo <=? N_of_ascii a) && (N_of_ascii a <=? N_of_ascii hi))%N.
Definition is_ascii_digit (a : ascii) : bool := ascii_between "0" "9" a.
Definition is_ascii_hexdigit (a : ascii) : bool :=
  is_ascii_digit a || ascii_between "a" "f" a || ascii_between "A" "F" a.
Definition is_ascii_lowercase (a : ascii) : bool := ascii_between "a" "z" a.
Definition is_ascii_alphanumeric (a : ascii) : bool :=
  is_ascii_digit a || ascii_between "a" "z" a || ascii_between "A" "Z" a.

(** [char::is_whitespace]; [s.trim().is_empty()]. *)
Definition is_whitespace (c : Z) : bool :=
  ((9 <=? c) && (c <=? 13)) || (c =? 0x20) || (c =? 0x85) || (c =? 0xA0) || (c =? 0x1680)
  || ((0x2000 <=? c) && (c <=? 0x200A)) || (c =? 0x2028) || (c =? 0x2029) || (c =? 0x202F)
  || (c =? 0x205F) || (c =? 0x3000).
Definition blank (s : string) : bool := forallb is_whitespace (chars s).

(** The characters of a text as its byte sequences, one per character; [fuel]
    is the number of bytes. *)
Fixpoint char_texts (fuel : nat) (bs : bytes) : list (Z * bytes) :=
  match fuel with
  | O => []
  | S fuel' =>
      match next_char bs with
      | Some (c, rest) => (c, take (length bs - length rest) bs) :: char_texts fuel' rest
      | None => []
      end
  end.
Definition str_chars (s : string) : list (Z * bytes) := char_texts (length (as_bytes s)) (as_bytes s).
Definition of_chars (l : list (Z * bytes)) : string := string_of_list_byte (concat l.*2).

Fixpoint drop_while {A} (p : A -> bool) (l : list A) : list A :=
  match l with [] => [] | x :: l' => if p x then drop_while p l' else l end.

(** [s.trim()] and [s.chars().filter(|c| !c.is_whitespace()).collect()]. *)
Definition str_trim (s : string) : string :=
  let sp := fun c : Z * bytes => is_whitespace c.1 in
  of_chars (reverse (drop_while sp (reverse (drop_while sp (str_chars s))))).
Definition strip_whitespace (s : string) : string :=
  of_chars (List.filter (fun c => negb (is_whitespace c.1)) (str_chars s)).

Definition is_empty (s : string) : bool := match s with EmptyString => true | _ => false end.

(** ** Lemmas *)

Lemma str_app_nil_l s : "" +:+ s = s.
Proof. reflexivity. Qed.

Lemma str_forallb_app p s1 s2 : str_forallb p (s1 +:+ s2) = str_forallb p s1 && str_forallb p s2.
Proof.
  induction s1 as [|a s1 IH]; [done|]. rewrite str_app_cons. cbn. by rewrite IH, andb_assoc.
Qed.

Lemma str_forallb_weaken (p q : ascii -> bool) s :
  (forall a, p a = true -> q a = true) -> str_forallb p s = true -> str_forallb q s = true.
Proof.
  intros Hpq. induction s as [|a s IH]; [done|]. cbn. intros [Ha Hs]%andb_prop.
  by rewrite (Hpq _ Ha), IH.
Qed.

Lemma contains_char_app c s1 s2 : contains_char c (s1 +:+ s2) = contains_char c s1 || contains_char c s2.
Proof.
  induction s1 as [|a s1 IH]; [done|]. rewrite str_app_cons. cbn. by rewrite IH, orb_assoc.
Qed.

Lemma contains_char_forallb c s : contains_char c s = negb (str_forallb (fun a => negb (Ascii.eqb a c)) s).
Proof.
  induction s as [|a s IH]; [done|]. cbn. rewrite IH. by destruct (Ascii.eqb a c), (str_forallb _ s).
Qed.

Lemma split_once_app c l r : contains_char c l = false -> split_once c (l +:+ String c r) = Some (l, r).
Proof.
  induction l as [|a l IH]; intros H.
  - rewrite str_app_nil_l. cbn. by rewrite Ascii.eqb_refl.
  - rewrite str_app_cons. cbn in *. apply orb_false_elim in H as [-> H]. by rewrite IH.
Qed.

Lemma split_once_Some c s l r :
  split_once c s = Some (l, r) -> s = l +:+ String c r /\ contains_char c l = false.
Proof.
  revert l r. induction s as [|a s IH]; intros l r; [done|]. cbn.
  destruct (Ascii.eqb_spec a c) as [->|Hne]; [by intros [= <- <-]|].
  destruct (split_once c s) as [[l' r']|]; [|done]. intros [= <- <-].
  destruct (IH _ _ eq_refl) as [-> ?]. split; [done|]. cbn. by destruct (Ascii.eqb_spec a c).
Qed.

Lemma split_once_None c s : split_once c s = None <-> contains_char c s = false.
Proof.
  induction s as [|a s IH]; [done|]. cbn. destruct (Ascii.eqb a c); [done|].
  cbn. rewrite <- IH. by destruct (split_once c s) as [[l r]|].
Qed.

Lemma split_on_no c s : contains_char c s = false -> split_on c s = [s].
Proof.
  induction s as [|a s IH]; intros H; [done|]. cbn in *. apply orb_false_elim in H as [-> H].
  by rewrite IH.
Qed.

Lemma split_on_app c l r : contains_char c l = false -> split_on c (l +:+ String c r) = l :: split_on c r.
Proof.
  induction l as [|a l IH]; intros H.
  - rewrite str_app_nil_l. cbn. by rewrite Ascii.eqb_refl.
  - rewrite str_app_cons. cbn in *. apply orb_false_elim in H as [-> H]. by rewrite IH.
Qed.

(** Pieces of a split do not contain the separator, and joining them gives
    the string back. *)
Lemma split_on_pieces c s : Forall (fun p => contains_char c p = false) (split_on c s).
Proof.
  induction s as [|a s IH]; cbn; [by repeat constructor|].
  destruct (Ascii.eqb_spec a c) as [->|Hne]; [by constructor|].
  destruct (split_on c s) as [|p ps]; inversion IH; subst.
  - repeat constructor. cbn. by destruct (Ascii.eqb_spec a c).
  - constructor; [|done]. cbn. by destruct (Ascii.eqb_spec a c).
Qed.

Lemma split_on_nonempty c s : split_on c s <> [].
Proof. destruct s as [|a s]; cbn; [done|]. destruct (Ascii.eqb a c); [done|]. by destruct (split_on c s). Qed.

Lemma join_cons sep p ps : ps <> [] -> join sep (p :: ps) = p +:+ sep +:+ join sep ps.
Proof. by destruct ps. Qed.

Lemma split_on_join c s : join (String c EmptyString) (split_on c s) = s.
Proof.
  induction s as [|a s IH]; [done|]. cbn. destruct (Ascii.eqb_spec a c) as [->|Hne].
  - pose proof (split_on_nonempty c s) as Hn. rewrite join_cons by done. by rewrite IH.
  - destruct (split_on c s) as [|p ps] eqn:E; [by apply split_on_nonempty in E|].
    destruct ps as [|p2 ps].
    + cbn in *. by rewrite IH.
    + rewrite join_cons in IH |- * by done. rewrite str_app_cons. by f_equal.
Qed.

Lemma starts_with_strip p s : starts_with p s = match strip_prefix p s with Some _ => true | None => false end.
Proof.
  revert s. induction p as [|a p IH]; intros s; [done|]. destruct s as [|b s]; [done|]. cbn.
  destruct (Ascii.eqb a b); [apply IH|done].
Qed.

Lemma strip_prefix_Some p s r : strip_prefix p s = Some r -> s = p +:+ r.
Proof.
  revert s. induction p as [|a p IH]; intros s; [by intros [= ->]|]. destruct s as [|b s]; [done|]. cbn.
  destruct (Ascii.eqb_spec a b) as [->|]; [|done]. intros H%IH. by rewrite str_app_cons, H.
Qed.

Lemma starts_with_app p s : starts_with p (p +:+ s) = true.
Proof.
  induction p as [|a p IH]; [done|]. rewrite str_app_cons. cbn. by rewrite Ascii.eqb_refl.
Qed.

Lemma starts_with_Some p s : starts_with p s = true -> exists r, s = p +:+ r.
Proof.
  rewrite starts_with_strip. destruct (strip_prefix p s) as [r|] eqn:E; [|done].
  intros _. exists r. by apply strip_prefix_Some.
Qed.

Lemma str_length_app s1 s2 : String.length (s1 +:+ s2) = (String.length s1 + String.length s2)%nat.
Proof. induction s1 as [|a s1 IH]; [done|]. rewrite str_app_cons. cbn. by rewrite IH. Qed.

Lemma str_app_inj_l p s1 s2 : p +:+ s1 = p +:+ s2 -> s1 = s2.
Proof. induction p as [|a p IH]; [done|]. rewrite !str_app_cons. intros [= H]. by apply IH. Qed.

Lemma str_app_inj_len p1 p2 s1 s2 :
  String.length p1 = String.length p2 -> p1 +:+ s1 = p2 +:+ s2 -> p1 = p2 /\ s1 = s2.
Proof.
  revert p2. induction p1 as [|a p1 IH]; intros [|b p2] Hl; try done.
  rewrite !str_app_cons. intros [= -> H]. injection Hl as Hl.
  destruct (IH _ Hl H) as [-> ->]. done.
Qed.

(** ** Hexadecimal text *)

Lemma hex_byte_digits b : exists x y,
  hex_byte b = String x (String y EmptyString) /\ is_ascii_hexdigit x = true /\ is_ascii_hexdigit y = true.
Proof. destruct b; by repeat econstructor. Qed.

(** The value a pair of lower-case digits stands for. *)
Definition unhex_digit (a : ascii) : Z :=
  let n := Z.of_N (N_of_ascii a) in if n <? 58 then n - 48 else n - 87.
Definition unhex_byte (s : string) : Z :=
  match s with String x (String y _) => 16 * unhex_digit x + unhex_digit y | _ => 0 end.
Lemma unhex_hex_byte b : unhex_byte (hex_byte b) = u8 b.
Proof. by destruct b. Qed.
Lemma hex_byte_inj a b : hex_byte a = hex_byte b -> a = b.
Proof. intros H. apply u8_inj. by rewrite <- !unhex_hex_byte, H. Qed.

Lemma hex_encode_cons b bs : hex_encode (b :: bs) = hex_byte b +:+ hex_encode bs.
Proof. reflexivity. Qed.

Lemma hex_encode_length bs : String.length (hex_encode bs) = (2 * length bs)%nat.
Proof.
  induction bs as [|b bs IH]; [done|]. rewrite hex_encode_cons, str_length_app, IH.
  destruct (hex_byte_digits b) as (x & y & -> & _). cbn. lia.
Qed.

Lemma hex_encode_hexdigits bs : str_forallb is_ascii_hexdigit (hex_encode bs) = true.
Proof.
  induction bs as [|b bs IH]; [done|]. rewrite hex_encode_cons, str_forallb_app, IH.
  destruct (hex_byte_digits b) as (x & y & -> & Hx & Hy). cbn [str_forallb]. by rewrite Hx, Hy.
Qed.

Lemma hex_encode_inj a b : hex_encode a = hex_encode b -> a = b.
Proof.
  revert b. induction a as [|x a IH]; intros [|y b] H; try done.
  rewrite !hex_encode_cons in H. apply str_app_inj_len in H as [Hx H].
  - by rewrite (hex_byte_inj _ _ Hx), (IH _ H).
  - destruct (hex_byte_digits x) as (? & ? & -> & _), (hex_byte_digits y) as (? & ? & -> & _). done.
Qed.
