(* ===== verification/Json.v ===== *)
(** * JSON values

    [serde_json::Value] with the workspace's [preserve_order] feature: an
    object is an insertion-ordered map with unique keys.  The accessors are
    the ones the sources call; parsing and printing are parameters
    ([SerdeJson]). *)

From S2P Require Import Prelude RustStd.

(** [serde_json::Number]: a [u64], a negative [i64], or a finite [f64] (its
    bit pattern). *)
Inductive number : Type :=
| PosInt (n : Z)
| NegInt (z : Z)
| Float (bits : Z).

Inductive json : Type :=
| JNull
| JBool (b : bool)
| JNumber (n : number)
| JString (s : string)
| JArray (l : list json)
| JObject (m : list (string * json)).

(** Induction that reaches the elements of arrays and the values of objects. *)
Section JsonInd.
Context (P : json -> Prop).
Context (Hnull : P JNull) (Hbool : forall b, P (JBool b)) (Hnum : forall n, P (JNumber n))
  (Hstr : forall s, P (JString s))
  (Harr : forall l, Forall P l -> P (JArray l))
  (Hobj : forall m, Forall (fun kv => P kv.2) m -> P (JObject m)).

Fixpoint json_ind' (v : json) : P v :=
  match v with
  | JNull => Hnull
  | JBool b => Hbool b
  | JNumber n => Hnum n
  | JString s => Hstr s
  | JArray l =>
      Harr l ((fix go (l : list json) : Forall P l :=
        match l with
        | [] => Forall_nil_2 P
        | x :: l' => Forall_cons_2 P x l' (json_ind' x) (go l')
        end) l)
  | JObject m =>
      Hobj m ((fix go (m : list (string * json)) : Forall (fun kv => P kv.2) m :=
        match m with
        | [] => Forall_nil_2 _
        | kv :: m' => Forall_cons_2 (fun kv => P kv.2) kv m' (json_ind' kv.2) (go m')
        end) m)
  end.
End JsonInd.

(** ** Accessors *)

Definition is_i64 (n : number) : bool :=
  match n with PosInt v => v <=? i64_max | NegInt _ => true | Float _ => false end.
Definition is_u64 (n : number) : bool :=
  match n with PosInt _ => true | _ => false end.
Definition number_as_i64 (n : number) : option Z :=
  match n with
  | PosInt v => if v <=? i64_max then Some v else None
  | NegInt z => Some z
  | Float _ => None
  end.
Definition number_as_u64 (n : number) : option Z :=
  match n with PosInt v => Some v | _ => None end.

Definition is_null (v : json) : bool := match v with JNull => true | _ => false end.
Definition as_str (v : json) : option string := match v with JString s => Some s | _ => None end.
Definition as_bool (v : json) : option bool := match v with JBool b => Some b | _ => None end.
Definition as_array (v : json) : option (list json) :=
  match v with JArray l => Some l | _ => None end.
Definition as_object (v : json) : option (list (string * json)) :=
  match v with JObject m => Some m | _ => None end.
Definition as_i64 (v : json) : option Z :=
  match v with JNumber n => number_as_i64 n | _ => None end.
Definition as_u64 (v : json) : option Z :=
  match v with JNumber n => number_as_u64 n | _ => None end.

Fixpoint map_get {A} (k : string) (m : list (string * A)) : option A :=
  match m with
  | [] => None
  | (k', v) :: m' => if String.eqb k k' then Some v else map_get k m'
  end.

Definition contains_key {A} (k : string) (m : list (string * A)) : bool :=
  match map_get k m with Some _ => true | None => false end.

(** [Map::insert] keeps the position of an existing key, else appends. *)
Fixpoint map_insert {A} (k : string) (v : A) (m : list (string * A)) : list (string * A) :=
  match m with
  | [] => [(k, v)]
  | (k', v') :: m' => if String.eqb k k' then (k', v) :: m' else (k', v') :: map_insert k v m'
  end.

(** [Value::get] with a string index. *)
Definition get (k : string) (v : json) : option json :=
  match v with JObject m => map_get k m | _ => None end.

(** ** Derived readers

    What [#[derive(Deserialize)]] generates: a struct is read from an object by
    the names of its fields, or from an array that is not longer than it by
    their positions. *)
Definition struct_of (n : nat) (v : json) : bool :=
  match v with JObject _ => true | JArray l => (length l <=? n)%nat | _ => false end.
Definition at_field (k : string) (i : nat) (v : json) : option json :=
  match v with JArray l => l !! i | _ => get k v end.
Definition str_at (k : string) (i : nat) (v : json) : option string := at_field k i v ≫= as_str.
(** [i64] and [Vec<String>] as values *)
Definition json_i64 (z : Z) : json := JNumber (if 0 <=? z then PosInt z else NegInt z).
Definition json_strings (l : list string) : json := JArray (JString <$> l).
Definition strings_at (k : string) (i : nat) (v : json) : option (list string) := (at_field k i v ≫= as_array) ≫= mapM as_str.

Lemma strings_read l : mapM as_str (JString <$> l) = Some l.
Proof. induction l as [|s l IH]; [done|]. cbn. by rewrite IH. Qed.

(** ** Equality ([PartialEq] of [Value]): object order is irrelevant *)

(** [f64] equality of finite values: the two zeros are equal. *)
Definition f64_eqb (a b : Z) : bool :=
  (a =? b) || ((a mod 2 ^ 63 =? 0) && (b mod 2 ^ 63 =? 0)).
Definition number_eqb (a b : number) : bool :=
  match a, b with
  | PosInt x, PosInt y => x =? y
  | NegInt x, NegInt y => x =? y
  | Float x, Float y => f64_eqb x y
  | _, _ => false
  end.
Fixpoint json_eqb (a b : json) {struct a} : bool :=
  match a, b with
  | JNull, JNull => true
  | JBool x, JBool y => Bool.eqb x y
  | JNumber x, JNumber y => number_eqb x y
  | JString x, JString y => String.eqb x y
  | JArray la, JArray lb =>
      (fix go (la lb : list json) : bool :=
         match la, lb with
         | [], [] => true
         | x :: la', y :: lb' => json_eqb x y && go la' lb'
         | _, _ => false
         end) la lb
  | JObject ma, JObject mb =>
      Nat.eqb (length ma) (length mb) &&
      (fix go (ma : list (string * json)) : bool :=
         match ma with
         | [] => true
         | (k, x) :: ma' =>
             match map_get k mb with Some y => json_eqb x y | None => false end && go ma'
         end) ma
  | _, _ => false
  end.

(** ** Well-formedness: what every [Value] satisfies *)

Definition number_wf (n : number) : Prop :=
  match n with
  | PosInt v => 0 <= v <= u64_max
  | NegInt z => i64_min <= z < 0
  | Float b => 0 <= b <= u64_max
  end.

Definition str_wf (s : string) : Prop := utf8_valid (as_bytes s) = true.

Fixpoint json_wf (v : json) : Prop :=
  match v with
  | JNull | JBool _ => True
  | JNumber n => number_wf n
  | JString s => str_wf s
  | JArray l =>
      (fix go (l : list json) : Prop :=
         match l with [] => True | x :: l' => json_wf x /\ go l' end) l
  | JObject m =>
      NoDup m.*1 /\
      (fix go (m : list (string * json)) : Prop :=
         match m with
         | [] => True
         | (k, x) :: m' => str_wf k /\ json_wf x /\ go m'
         end) m
  end.

(** ** serde_json's reader and writer: parameters *)

Class SerdeJson : Type := {
  (** [serde_json::from_slice::<Value>] *)
  from_slice : bytes -> option json;
  (** [serde_json::to_vec] of a [Value] *)
  to_vec : json -> bytes;
  (** [Value]'s [Display] (compact JSON text) *)
  value_to_string : json -> string;
}.

(** ** Lemmas *)

Lemma json_wf_array l : json_wf (JArray l) <-> Forall json_wf l.
Proof.
  cbn. induction l as [|x l IH]; [done|]. rewrite Forall_cons. by rewrite IH.
Qed.

Lemma json_wf_object m :
  json_wf (JObject m) <-> NoDup m.*1 /\ Forall (fun kv => str_wf kv.1 /\ json_wf kv.2) m.
Proof.
  cbn. assert (forall P Q R : Prop, (Q <-> R) -> (P /\ Q <-> P /\ R)) as Hc by tauto. apply Hc.
  induction m as [|[k x] m IH]; [done|]. rewrite Forall_cons. cbn. rewrite IH. tauto.
Qed.

Lemma map_get_elem {A} k (v : A) m : map_get k m = Some v -> (k, v) ∈ m.
Proof.
  induction m as [|[k' v'] m IH]; cbn; [done|].
  destruct (String.eqb_spec k k') as [->|]; [intros [= ->]; by left|right; auto].
Qed.

Lemma map_get_elem_iff {A} k (v : A) m : NoDup m.*1 -> (map_get k m = Some v <-> (k, v) ∈ m).
Proof.
  intros Hnd. split; [apply map_get_elem|].
  induction m as [|[k' v'] m IH]; csimpl; [by intros ?%elem_of_nil|].
  csimpl in Hnd. apply NoDup_cons in Hnd as [Hk Hnd].
  intros [[= -> ->]|Hin]%elem_of_cons; [by rewrite String.eqb_refl|].
  destruct (String.eqb_spec k k') as [->|]; [|auto].
  exfalso. apply Hk, list_elem_of_fmap. by exists (k', v).
Qed.

Lemma map_get_None {A} k (m : list (string * A)) : map_get k m = None <-> k ∉ m.*1.
Proof.
  induction m as [|[k' v'] m IH]; csimpl; [split; [by intros _ ?%elem_of_nil|done]|].
  rewrite not_elem_of_cons. destruct (String.eqb_spec k k'); [naive_solver|]. rewrite IH. naive_solver.
Qed.

(** Lookups do not depend on the order of an object's entries. *)
Lemma map_get_perm {A} k (m1 m2 : list (string * A)) :
  NoDup m1.*1 -> m1 ≡ₚ m2 -> map_get k m1 = map_get k m2.
Proof.
  intros Hnd Hp.
  assert (NoDup m2.*1) as Hnd2 by (by rewrite <- Hp).
  destruct (map_get k m1) as [v|] eqn:E.
  - symmetry. apply map_get_elem_iff; [done|]. rewrite <- Hp. by apply map_get_elem.
  - symmetry. apply map_get_None. rewrite <- Hp. by apply map_get_None.
Qed.

Lemma map_insert_fresh {A} k (v : A) m : k ∉ m.*1 -> map_insert k v m = m ++ [(k, v)].
Proof.
  induction m as [|[k' v'] m IH]; csimpl; [done|].
  rewrite not_elem_of_cons. intros [Hne Hk].
  destruct (String.eqb_spec k k'); [done|]. by rewrite IH.
Qed.
