(* ===== verification/Nrf.v ===== *)
(** * NRF-1.1: the canonical binary encoding ([ubl_nrf::nrf])

    The encoder, the decoder over a byte cursor, the conversion from JSON with
    the ρ rules, the normalisation of external input, and content
    identifiers.  NFC normalisation, RFC 3339 parsing and BLAKE3 are
    parameters. *)

From S2P Require Import Prelude RustStd Json.

(** ** Parameters *)

(** [unicode_normalization]: the NFC form of a string. *)
Class Unicode : Type := { nfc : string -> string }.

(** The guarantees of UAX #15 the sources rely on: NFC output is stable under
    NFC and valid UTF-8, and U+FEFF and the C0 controls are neither removed
    nor produced by normalisation. *)
Class UnicodeLaws (U : Unicode) : Prop := {
  nfc_idem s : nfc (nfc s) = nfc s;
  nfc_valid s : str_wf s -> str_wf (nfc s);
  nfc_bom s : has_bom (nfc s) = has_bom s;
  nfc_control s : has_control_char (nfc s) = has_control_char s;
}.

(** [blake3::hash]. *)
Class Blake3 : Type := { blake3 : bytes -> bytes }.

(** [chrono::DateTime::parse_from_rfc3339] followed by [with_timezone(&Utc)]:
    the [%Y-%m-%dT%H:%M:%S] rendering and the nanoseconds of the second. *)
Class Chrono : Type := { parse_rfc3339_utc : string -> option (string * Z) }.

(** ** Data *)

Definition MAGIC : bytes := [x6e; x72; x66; x31].
Definition TAG_NULL := x00.
Definition TAG_FALSE := x01.
Definition TAG_TRUE := x02.
Definition TAG_INT64 := x03.
Definition TAG_STRING := x04.
Definition TAG_BYTES := x05.
Definition TAG_ARRAY := x06.
Definition TAG_MAP := x07.

Inductive NrfValue : Type :=
| NrfNull
| NrfBool (b : bool)
| NrfInt (i : Z)
| NrfString (s : string)
| NrfBytes (b : bytes)
| NrfArray (l : list NrfValue)
| NrfMap (m : list (string * NrfValue)).

(** Error paths: [body], [path.key], [path["key"]] (keys outside
    [[A-Za-z0-9_@]*]) and [path[i]]. *)
Inductive path_seg : Type :=
| SegKey (k : string)
| SegQuotedKey (k : string)
| SegIndex (i : nat).
Definition path : Type := (string * list path_seg)%type.

Inductive rho_violation : Type :=
| NumberMustBeI64
| RBomPresent
| RControlCharPresent
| RNotNFC
| RBomInKey
| RControlCharInKey
| RNotNFCInKey
| RDuplicateKey (k : string)
| REmptyKeyAfterNormalization.

Inductive NrfError : Type :=
| UnexpectedEof
| InvalidMagic
| TrailingData
| InvalidUTF8
| BOMPresent
| NotNFC
| NonStringKey
| DuplicateKey (k : string)
| InvalidTypeTag (t : Z)
| VarIntOverflow
| NonMinimalVarint
| RhoViolation (p : path) (r : rho_violation)
| InvalidRFC3339Timestamp
| OutOfFuel.

(** ** Encoding *)

(** [encode_varint32]: the loop runs at most five times on a [u32]. *)
Fixpoint encode_varint_loop (fuel : nat) (n : Z) : bytes :=
  match fuel with
  | O => []
  | S f =>
      let byte := Z.land n 0x7f in
      let n := Z.shiftr n 7 in
      if negb (n =? 0) then as_u8 (Z.lor byte 0x80) :: encode_varint_loop f n
      else [as_u8 byte]
  end.
Definition encode_varint32 (n : Z) : bytes := encode_varint_loop 5 n.

(** [len as u32]. *)
Definition len_u32 {A} (l : list A) : Z := Z.of_nat (length l) mod 2 ^ 32.

Fixpoint encode_value (v : NrfValue) : bytes :=
  match v with
  | NrfNull => [TAG_NULL]
  | NrfBool false => [TAG_FALSE]
  | NrfBool true => [TAG_TRUE]
  | NrfInt i => TAG_INT64 :: to_be_bytes 8 i
  | NrfString s => TAG_STRING :: encode_varint32 (len_u32 (as_bytes s)) ++ as_bytes s
  | NrfBytes b => TAG_BYTES :: encode_varint32 (len_u32 b) ++ b
  | NrfArray l =>
      TAG_ARRAY :: encode_varint32 (len_u32 l) ++
      (fix go (l : list NrfValue) : bytes :=
         match l with [] => [] | x :: l' => encode_value x ++ go l' end) l
  | NrfMap m =>
      TAG_MAP :: encode_varint32 (len_u32 m) ++
      (fix go (m : list (string * NrfValue)) : bytes :=
         match m with
         | [] => []
         | (k, x) :: m' =>
             (* the key is encoded as a string value *)
             (TAG_STRING :: encode_varint32 (len_u32 (as_bytes k)) ++ as_bytes k)
             ++ encode_value x ++ go m'
         end) m
  end.

Definition encode_to_vec (v : NrfValue) : bytes := MAGIC ++ encode_value v.

(** ** Decoding *)

Definition read_exact (n : Z) (r : bytes) : result NrfError (bytes * bytes) :=
  if Z.of_nat (length r) <? n then Err UnexpectedEof
  else Ok (take (Z.to_nat n) r, drop (Z.to_nat n) r).

Fixpoint decode_varint_loop (r : bytes) (res shift bytes_read : Z)
  : result NrfError (Z * Z * bytes) :=
  match r with
  | [] => Err UnexpectedEof
  | b :: r' =>
      let bytes_read := bytes_read + 1 in
      let val := Z.land (u8 b) 0x7f in
      if (shift =? 28) && (0x0F <? val) then Err VarIntOverflow
      else
        let res := Z.lor res ((Z.shiftl val shift) mod 2 ^ 32) in
        if Z.land (u8 b) 0x80 =? 0 then Ok (res, bytes_read, r')
        else
          let shift := shift + 7 in
          if (28 <? shift) || (5 <=? bytes_read) then Err NonMinimalVarint
          else decode_varint_loop r' res shift bytes_read
  end.

Definition decode_varint32 (r : bytes) : result NrfError (Z * bytes) :=
  match decode_varint_loop r 0 0 0 with
  | Err e => Err e
  | Ok (res, bytes_read, r') =>
      if (1 <? bytes_read) && (Z.shiftr res (7 * (bytes_read - 1)) =? 0)
      then Err NonMinimalVarint
      else Ok (res, r')
  end.

Section WithUnicode.
Context {U : Unicode}.

(** The [TAG_STRING] arm of [decode_value]. *)
Definition decode_string (r : bytes) : result NrfError (string * bytes) :=
  '(len, r) ← decode_varint32 r;
  '(buf, r) ← read_exact len r;
  s ← ok_or (from_utf8 buf) InvalidUTF8;
  if has_bom s then Err BOMPresent
  else if negb (String.eqb (nfc s) s) then Err NotNFC
  else Ok (s, r).

(** [decode_value] recurses through the loops over array items and map
    entries; the fuel bounds recursion depth plus loop iterations. *)
Fixpoint decode_value (fuel : nat) (r : bytes) {struct fuel}
  : result NrfError (NrfValue * bytes) :=
  match fuel with
  | O => Err OutOfFuel
  | S f =>
      match r with
      | [] => Err UnexpectedEof
      | tag :: r =>
          if Byte.eqb tag TAG_NULL then Ok (NrfNull, r)
          else if Byte.eqb tag TAG_FALSE then Ok (NrfBool false, r)
          else if Byte.eqb tag TAG_TRUE then Ok (NrfBool true, r)
          else if Byte.eqb tag TAG_INT64 then
            '(buf, r) ← read_exact 8 r; Ok (NrfInt (i64_from_be_bytes buf), r)
          else if Byte.eqb tag TAG_STRING then
            '(s, r) ← decode_string r; Ok (NrfString s, r)
          else if Byte.eqb tag TAG_BYTES then
            '(len, r) ← decode_varint32 r;
            '(buf, r) ← read_exact len r;
            Ok (NrfBytes buf, r)
          else if Byte.eqb tag TAG_ARRAY then
            '(count, r) ← decode_varint32 r;
            '(l, r) ← decode_items f count r;
            Ok (NrfArray l, r)
          else if Byte.eqb tag TAG_MAP then
            '(count, r) ← decode_varint32 r;
            '(m, r) ← decode_entries f count [] r;
            Ok (NrfMap m, r)
          else Err (InvalidTypeTag (u8 tag))
      end
  end
with decode_items (fuel : nat) (count : Z) (r : bytes) {struct fuel}
  : result NrfError (list NrfValue * bytes) :=
  match fuel with
  | O => Err OutOfFuel
  | S f =>
      if count <=? 0 then Ok ([], r)
      else
        '(v, r) ← decode_value f r;
        '(vs, r) ← decode_items f (count - 1) r;
        Ok (v :: vs, r)
  end
with decode_entries (fuel : nat) (count : Z) (acc : list (string * NrfValue)) (r : bytes)
  {struct fuel} : result NrfError (list (string * NrfValue) * bytes) :=
  match fuel with
  | O => Err OutOfFuel
  | S f =>
      if count <=? 0 then Ok (acc, r)
      else
        '(kv, r) ← decode_value f r;
        match kv with
        | NrfString key =>
            if btree_contains_key key acc then Err (DuplicateKey key)
            else
              '(v, r) ← decode_value f r;
              decode_entries f (count - 1) (btree_insert key v acc) r
        | _ => Err NonStringKey
        end
  end.

(** Every recursive step consumes input or a loop iteration that does:
    [2 * length + 1] is enough ([decode_value_fuel]). *)
Definition decode_fuel (r : bytes) : nat := 2 * length r + 1.

Definition decode_from_slice (bs : bytes) : result NrfError NrfValue :=
  '(magic, r) ← read_exact 4 bs;
  if negb (bool_decide (magic = MAGIC)) then Err InvalidMagic
  else
    '(v, r) ← decode_value (decode_fuel r) r;
    if negb (Nat.eqb (length r) 0) then Err TrailingData else Ok v.

(** ** From JSON *)

Definition plain_key_char (c : Z) : bool :=
  ((48 <=? c) && (c <=? 57)) || ((65 <=? c) && (c <=? 90)) || ((97 <=? c) && (c <=? 122))
  || (c =? 95) || (c =? 64).

Definition path_for_key (p : path) (key : string) : path :=
  (p.1, p.2 ++ [if forallb plain_key_char (chars key) then SegKey key else SegQuotedKey key]).
Definition path_for_index (p : path) (i : nat) : path := (p.1, p.2 ++ [SegIndex i]).

Fixpoint json_to_nrf_with_path (v : json) (p : path) {struct v} : result NrfError NrfValue :=
  match v with
  | JNull => Ok NrfNull
  | JBool b => Ok (NrfBool b)
  | JNumber n =>
      match number_as_i64 n with
      | Some i => Ok (NrfInt i)
      | None => Err (RhoViolation p NumberMustBeI64)
      end
  | JString s =>
      if has_bom s then Err (RhoViolation p RBomPresent)
      else if has_control_char s then Err (RhoViolation p RControlCharPresent)
      else if negb (String.eqb (nfc s) s) then Err (RhoViolation p RNotNFC)
      else Ok (NrfString s)
  | JArray arr =>
      items ← (fix go (idx : nat) (l : list json) : result NrfError (list NrfValue) :=
                 match l with
                 | [] => Ok []
                 | x :: l' =>
                     y ← json_to_nrf_with_path x (path_for_index p idx);
                     ys ← go (S idx) l';
                     Ok (y :: ys)
                 end) 0%nat arr;
      Ok (NrfArray items)
  | JObject m =>
      bt ← (fix go (bt : list (string * NrfValue)) (m : list (string * json))
              : result NrfError (list (string * NrfValue)) :=
              match m with
              | [] => Ok bt
              | (k, x) :: m' =>
                  let key_path := path_for_key p k in
                  if has_bom k then Err (RhoViolation key_path RBomInKey)
                  else if has_control_char k then Err (RhoViolation key_path RControlCharInKey)
                  else if negb (String.eqb (nfc k) k) then Err (RhoViolation key_path RNotNFCInKey)
                  else if is_null x then go bt m'
                  else
                    y ← json_to_nrf_with_path x key_path;
                    if btree_contains_key k bt then Err (RhoViolation p (RDuplicateKey k))
                    else go (btree_insert k y bt) m'
              end) [] m;
      Ok (NrfMap bt)
  end.

Definition json_to_nrf (v : json) : result NrfError NrfValue :=
  json_to_nrf_with_path v ("body"%string, []).

Definition to_nrf1_bytes (v : json) : result NrfError bytes :=
  n ← json_to_nrf v; Ok (encode_to_vec n).

(** ** Content identifiers *)

Definition cid_from_nrf_bytes `{Blake3} (bs : bytes) : string :=
  String.append "b3:" (hex_encode (blake3 bs)).
Definition compute_cid `{Blake3} (bs : bytes) : string := cid_from_nrf_bytes bs.

(** ** Normalisation of external input *)

(** [s.chars().filter(|c| *c != '\u{feff}')]: the three bytes of U+FEFF are
    dropped wherever that character occurs. *)
Fixpoint strip_bom_bytes (fuel : nat) (bs : bytes) : bytes :=
  match fuel with
  | O => bs
  | S f =>
      match next_char bs with
      | None => bs
      | Some (c, r) =>
          (if c =? 0xFEFF then [] else take (length bs - length r) bs) ++ strip_bom_bytes f r
      end
  end.
Definition strip_bom (s : string) : string :=
  string_of_list_byte (strip_bom_bytes (String.length s) (as_bytes s)).

Definition normalize_string_scalar (s : string) : result rho_violation string :=
  let without_bom := strip_bom s in
  if has_control_char without_bom then Err RControlCharPresent
  else Ok (nfc without_bom).

Definition normalize_key_scalar (k : string) : result rho_violation string :=
  n ← normalize_string_scalar k;
  if String.eqb n "" then Err REmptyKeyAfterNormalization else Ok n.

Definition is_timestamp_key (key : string) : bool :=
  let key := to_ascii_lowercase key in
  ends_with "_at" key || ends_with "_time" key || ends_with "created" key
  || ends_with "expires" key || ends_with "issued" key.

Definition is_set_like_key (key : string) : bool :=
  existsb (String.eqb key) ["chip_types"; "policy_refs"; "evidence_cids"; "audience"]%string.

(** [{:09}] and the loop that pops trailing zeros. *)
Fixpoint pad9_digits (n : nat) (v : Z) : list Z :=
  match n with O => [] | S n' => pad9_digits n' (v / 10) ++ [v mod 10] end.
Fixpoint pop_zeros (rev_digits : list Z) : list Z :=
  match rev_digits with 0 :: r => pop_zeros r | _ => rev_digits end.
Definition digits_string (l : list Z) : string :=
  fold_right (fun d s => String (digit_char d) s) EmptyString l.

Definition normalize_timestamp `{Chrono} (s : string) : result NrfError string :=
  match parse_rfc3339_utc s with
  | None => Err InvalidRFC3339Timestamp
  | Some (base, nanos) =>
      if nanos =? 0 then Ok (String.append base "Z")
      else
        let frac := digits_string (rev (pop_zeros (rev (pad9_digits 9 nanos)))) in
        Ok (String.append base (String.append "." (String.append frac "Z")))
  end.

(** [Vec<u8>]'s lexicographic order. *)
Fixpoint bytes_leb (a b : bytes) : bool :=
  match a, b with
  | [], _ => true
  | _ :: _, [] => false
  | x :: a', y :: b' => if u8 x =? u8 y then bytes_leb a' b' else u8 x <? u8 y
  end.
Definition bytes_eqb (a b : bytes) : bool := bool_decide (a = b).

Fixpoint set_pairs (idx : nat) (p : path) (items : list json)
  : result NrfError (list (bytes * json)) :=
  match items with
  | [] => Ok []
  | item :: items' =>
      n ← json_to_nrf_with_path item (path_for_index p idx);
      rest ← set_pairs (S idx) p items';
      Ok ((encode_to_vec n, item) :: rest)
  end.

Definition normalize_as_set_with_path (items : list json) (p : path)
  : result NrfError (list json) :=
  pairs ← set_pairs 0 p items;
  let pairs := sort_by (fun a b => bytes_leb a.1 b.1) pairs in
  let pairs := dedup_by (fun a b => bytes_eqb a.1 b.1) pairs in
  Ok (pairs.*2).
Definition normalize_as_set (items : list json) : result NrfError (list json) :=
  normalize_as_set_with_path items ("body_set"%string, []).

Fixpoint normalize_value_for_input `{Chrono} (v : json) (parent_key : option string)
  (p : path) {struct v} : result NrfError json :=
  match v with
  | JNull => Ok JNull
  | JBool b => Ok (JBool b)
  | JNumber n => Ok (JNumber n)
  | JString s =>
      n ← map_err (RhoViolation p) (normalize_string_scalar s);
      if match parent_key with Some k => is_timestamp_key k | None => false end
      then match normalize_timestamp n with
           | Ok ts => Ok (JString ts)
           | Err _ => Ok (JString n)
           end
      else Ok (JString n)
  | JArray arr =>
      out ← (fix go (idx : nat) (l : list json) : result NrfError (list json) :=
               match l with
               | [] => Ok []
               | x :: l' =>
                   y ← normalize_value_for_input x None (path_for_index p idx);
                   ys ← go (S idx) l';
                   Ok (y :: ys)
               end) 0%nat arr;
      if match parent_key with Some k => is_set_like_key k | None => false end
      then s ← normalize_as_set_with_path out p; Ok (JArray s)
      else Ok (JArray out)
  | JObject m =>
      out ← (fix go (out : list (string * json)) (m : list (string * json))
               : result NrfError (list (string * json)) :=
               match m with
               | [] => Ok out
               | (k, x) :: m' =>
                   let key_path := path_for_key p k in
                   nk ← map_err (RhoViolation key_path) (normalize_key_scalar k);
                   nv ← normalize_value_for_input x (Some nk) key_path;
                   if is_null nv then go out m'
                   else match map_get nk out with
                        | Some _ => Err (RhoViolation p (RDuplicateKey nk))
                        | None => go (map_insert nk nv out) m'
                        end
               end) [] m;
      Ok (JObject out)
  end.

Definition normalize_for_input `{Chrono} (v : json) : result NrfError json :=
  normalize_value_for_input v None ("body"%string, []).
End WithUnicode.
