(* ===== verification/NrfFacts.v ===== *)
(** * Correctness of NRF-1.1

    The varint codec is a bijection on [u32]; encoding and decoding are
    inverse on well-formed values; the decoder is total and only produces
    well-formed values; and the JSON conversion does not depend on object
    order, so content identifiers are a function of the canonical content. *)

From S2P Require Import Prelude RustStd Json Nrf.

(** ** Bit arithmetic used by the varint codec *)

Lemma land_127 n : Z.land n 0x7f = n mod 128.
Proof. change 0x7f with (Z.ones 7). by rewrite Z.land_ones. Qed.

Lemma shiftr_7 n : Z.shiftr n 7 = n / 128.
Proof. by rewrite Z.shiftr_div_pow2. Qed.

Lemma lor_128 b : 0 <= b < 128 -> Z.lor b 0x80 = b + 128.
Proof. intros Hb. exact (lor_shiftl_add b 1 7 ltac:(lia) Hb). Qed.

Lemma byte_low b : Z.land (u8 b) 0x7f = u8 b mod 128.
Proof. apply land_127. Qed.

Lemma byte_high b : (Z.land (u8 b) 0x80 =? 0) = (u8 b <? 128).
Proof. by destruct b. Qed.

(** ** Varints *)

Lemma encode_varint_unfold f n :
  encode_varint_loop (S f) n =
  if n / 128 =? 0 then [as_u8 (n mod 128)]
  else as_u8 (n mod 128 + 128) :: encode_varint_loop f (n / 128).
Proof.
  cbn [encode_varint_loop]. rewrite land_127, shiftr_7.
  pose proof (Z.mod_pos_bound n 128 eq_refl).
  destruct (n / 128 =? 0); cbn [negb]; [done|]. by rewrite lor_128.
Qed.

Lemma decode_varint_step b r res k :
  0 <= k <= 4 -> 0 <= res < 2 ^ (7 * k) -> (k = 4 -> u8 b mod 128 < 16) ->
  decode_varint_loop (b :: r) res (7 * k) k =
  if u8 b <? 128 then Ok (res + (u8 b mod 128) * 2 ^ (7 * k), k + 1, r)
  else if 4 <=? k then Err NonMinimalVarint
  else decode_varint_loop r (res + (u8 b mod 128) * 2 ^ (7 * k)) (7 * (k + 1)) (k + 1).
Proof.
  intros Hk Hres Hlast. cbn [decode_varint_loop].
  rewrite byte_high, byte_low. pose proof (Z.mod_pos_bound (u8 b) 128 eq_refl) as Hm.
  replace ((7 * k =? 28) && (15 <? u8 b mod 128)) with false.
  2:{ symmetry. destruct (Z.eqb_spec (7 * k) 28) as [E|]; [|done]. cbn.
      apply Z.ltb_ge. specialize (Hlast ltac:(lia)). lia. }
  assert (0 <= Z.shiftl (u8 b mod 128) (7 * k) < 2 ^ 32) as Hs.
  { rewrite Z.shiftl_mul_pow2 by lia.
    assert (k = 0 \/ k = 1 \/ k = 2 \/ k = 3 \/ k = 4) as Hc by lia.
    destruct Hc as [->|[->|[->|[->| ->]]]];
      [| | | |specialize (Hlast eq_refl)]; lia. }
  rewrite (Z.mod_small _ _ Hs), lor_shiftl_add by lia.
  destruct (u8 b <? 128); [done|].
  replace (7 * k + 7) with (7 * (k + 1)) by ring.
  replace ((28 <? 7 * (k + 1)) || (5 <=? k + 1)) with (4 <=? k); [done|].
  destruct (Z.leb_spec 4 k), (Z.ltb_spec 28 (7 * (k + 1))), (Z.leb_spec 5 (k + 1));
    cbn; lia || done.
Qed.

(** The bytes of one varint, with [k] bytes already read. *)
Lemma varint_loop_roundtrip (f : nat) (k n res : Z) rest :
  k = 5 - Z.of_nat f -> (1 <= f <= 5)%nat -> 0 <= n < 2 ^ (32 - 7 * k) ->
  0 <= res < 2 ^ (7 * k) ->
  decode_varint_loop (encode_varint_loop f n ++ rest) res (7 * k) k =
  Ok (res + n * 2 ^ (7 * k), k + Z.of_nat (length (encode_varint_loop f n)), rest).
Proof.
  revert k n res. induction f as [|f IH]; [lia|]. intros k n res Hk Hf Hn Hres.
  rewrite encode_varint_unfold. pose proof (Z.mod_pos_bound n 128 eq_refl) as Hm.
  pose proof (Z_div_mod_eq_full n 128) as Hdm.
  assert (2 ^ (7 * (k + 1)) = 128 * 2 ^ (7 * k)) as Hp
    by (replace (7 * (k + 1)) with (7 + 7 * k) by ring; rewrite Z.pow_add_r by lia; done).
  destruct (Z.eqb_spec (n / 128) 0) as [E|E]; cbn [app length].
  - assert (n < 128) by lia. rewrite (Z.mod_small n 128) by lia.
    rewrite decode_varint_step; [|lia|done|].
    + rewrite u8_as_u8, (Z.mod_small n 256), (Z.mod_small n 128) by lia.
      destruct (Z.ltb_spec n 128); [done|lia].
    + intros ->. rewrite u8_as_u8, (Z.mod_small n 256), (Z.mod_small n 128) by lia. lia.
  - assert (k <> 4) by (intros ->; cbn in Hn; lia).
    assert (n / 128 < 2 ^ (32 - 7 * (k + 1))).
    { apply Z.div_lt_upper_bound; [lia|].
      replace (32 - 7 * k) with (7 + (32 - 7 * (k + 1))) in Hn by ring.
      rewrite Z.pow_add_r in Hn by lia. change (2 ^ 7) with 128 in Hn. lia. }
    assert (u8 (as_u8 (n mod 128 + 128)) = n mod 128 + 128) as Hb
      by (rewrite u8_as_u8; apply Z.mod_small; lia).
    rewrite decode_varint_step; [|lia|done|lia].
    rewrite Hb. destruct (Z.ltb_spec (n mod 128 + 128) 128); [lia|].
    destruct (Z.leb_spec 4 k); [lia|].
    replace ((n mod 128 + 128) mod 128) with (n mod 128)
      by (rewrite <- (Z.mul_1_l 128) at 3; rewrite Z_mod_plus_full, Z.mod_mod; lia).
    rewrite IH; [|lia|lia|lia|nia].
    do 3 f_equal; [|lia]. rewrite Hp. nia.
Qed.

Lemma varint_loop_length f n :
  (1 <= f)%nat -> 0 <= n < 2 ^ (7 * Z.of_nat f) ->
  let m := Z.of_nat (length (encode_varint_loop f n)) in
  1 <= m <= Z.of_nat f /\ (1 < m -> 2 ^ (7 * (m - 1)) <= n).
Proof.
  revert n. induction f as [|f IH]; [lia|]. intros n Hf Hn. rewrite encode_varint_unfold.
  pose proof (Z_div_mod_eq_full n 128) as Hdm. pose proof (Z.mod_pos_bound n 128 eq_refl).
  destruct (Z.eqb_spec (n / 128) 0) as [E|E]; cbn [length]; cbv zeta; [lia|].
  assert (f <> 0)%nat by (intros ->; cbn in Hn; lia).
  replace (7 * Z.of_nat (S f)) with (7 + 7 * Z.of_nat f) in Hn by lia.
  rewrite Z.pow_add_r in Hn by lia. change (2 ^ 7) with 128 in Hn.
  destruct (IH (n / 128) ltac:(lia)) as [Hm1 Hm2].
  { split; [lia|]. apply Z.div_lt_upper_bound; lia. }
  set (m := Z.of_nat (length (encode_varint_loop f (n / 128)))) in *.
  split; [lia|]. intros _. replace (Z.of_nat (S _)) with (m + 1) by (unfold m; lia).
  destruct (Z.eq_dec m 1) as [->|Hne]; [cbn; lia|].
  specialize (Hm2 ltac:(lia)).
  replace (7 * (m + 1 - 1)) with (7 + 7 * (m - 1)) by lia.
  rewrite Z.pow_add_r by lia. change (2 ^ 7) with 128. lia.
Qed.

Lemma varint_roundtrip n rest :
  0 <= n < 2 ^ 32 -> decode_varint32 (encode_varint32 n ++ rest) = Ok (n, rest).
Proof.
  intros Hn. unfold decode_varint32, encode_varint32.
  rewrite (varint_loop_roundtrip 5 0 n 0) by lia.
  destruct (varint_loop_length 5 n) as [Hm1 Hm2]; [lia|cbn; lia|].
  set (m := Z.of_nat (length (encode_varint_loop 5 n))) in *.
  change (7 * 0) with 0. rewrite Z.pow_0_r, Z.mul_1_r, !Z.add_0_l.
  destruct (Z.ltb_spec 1 m) as [Hlt|]; cbn [andb]; [|done].
  rewrite Z.shiftr_div_pow2 by lia. specialize (Hm2 Hlt).
  assert (1 <= n / 2 ^ (7 * (m - 1))).
  { apply Z.div_le_lower_bound; [apply Z.pow_pos_nonneg|]; lia. }
  destruct (Z.eqb_spec (n / 2 ^ (7 * (m - 1))) 0); [lia|done].
Qed.

(** The decoder accepts only the encoder's bytes. *)
Lemma varint_loop_inverse r (f : nat) (k res res' m : Z) r' :
  k = 5 - Z.of_nat f -> (1 <= f <= 5)%nat -> 0 <= res < 2 ^ (7 * k) ->
  decode_varint_loop r res (7 * k) k = Ok (res', m, r') ->
  exists n, res' = res + n * 2 ^ (7 * k) /\ 0 <= n < 2 ^ (32 - 7 * k) /\ k < m <= 5 /\
    (m = k + 1 \/ 2 ^ (7 * (m - k - 1)) <= n -> r = encode_varint_loop f n ++ r').
Proof.
  revert f k res. induction r as [|b r IH]; intros f k res Hk Hf Hres H; [done|].
  pose proof (u8_range b) as Hb. pose proof (Z.mod_pos_bound (u8 b) 128 eq_refl) as Hm.
  pose proof (Z_div_mod_eq_full (u8 b) 128) as Hdm.
  assert (k = 4 -> u8 b mod 128 < 16) as Hlast.
  { intros ->. cbn [decode_varint_loop] in H. rewrite byte_low in H.
    destruct (Z.ltb_spec 15 (u8 b mod 128)); [|lia]. done. }
  assert (2 ^ (7 * (k + 1)) = 128 * 2 ^ (7 * k)) as Hp
    by (replace (7 * (k + 1)) with (7 + 7 * k) by ring; rewrite Z.pow_add_r by lia; done).
  rewrite decode_varint_step in H by (done || lia).
  destruct f as [|f]; [lia|].
  destruct (Z.ltb_spec (u8 b) 128) as [Hlt|Hge].
  - injection H as <- <- <-. exists (u8 b). rewrite (Z.mod_small (u8 b)) in * by lia.
    repeat split; [lia| |lia|lia|].
    + assert (2 ^ 4 <= 2 ^ (32 - 7 * k)) by (apply Z.pow_le_mono_r; lia).
      assert (k < 4 -> 2 ^ 11 <= 2 ^ (32 - 7 * k)) by (intros; apply Z.pow_le_mono_r; lia).
      destruct (Z.eq_dec k 4); lia.
    + intros _. rewrite encode_varint_unfold, (Z.mod_small (u8 b)), Z.div_small by lia.
      cbn. by rewrite as_u8_u8.
  - destruct (Z.leb_spec 4 k); [done|].
    apply (IH f (k + 1)) in H as (n & -> & Hn & Hmk & Henc); [|lia|lia|nia].
    exists (u8 b mod 128 + 128 * n).
    replace (32 - 7 * k) with (7 + (32 - 7 * (k + 1))) by ring.
    rewrite Z.pow_add_r by lia. change (2 ^ 7) with 128.
    repeat split; [nia|lia|nia|lia|lia|]. intros [?|Hmin]; [lia|].
    rewrite encode_varint_unfold.
    replace ((u8 b mod 128 + 128 * n) / 128) with n
      by (rewrite Z.mul_comm, Z.div_add, Z.div_small by lia; lia).
    rewrite (Z.mul_comm 128 n), Z_mod_plus_full, Z.mod_mod by lia.
    replace (7 * (m - k - 1)) with (7 + 7 * (m - (k + 1) - 1)) in Hmin by ring.
    destruct (Z.eq_dec m (k + 1 + 1)) as [->|Hne].
    + replace (7 + 7 * (k + 1 + 1 - (k + 1) - 1)) with 7 in Hmin by ring.
      change (2 ^ 7) with 128 in Hmin.
      destruct (Z.eqb_spec n 0); [lia|]. cbn [app].
      rewrite <- Henc by auto. f_equal. apply u8_inj. rewrite u8_as_u8, Z.mod_small; lia.
    + rewrite Z.pow_add_r in Hmin by lia. change (2 ^ 7) with 128 in Hmin.
      assert (0 < 2 ^ (7 * (m - (k + 1) - 1))) by (apply Z.pow_pos_nonneg; lia).
      destruct (Z.eqb_spec n 0); [lia|]. cbn [app].
      rewrite <- Henc by (right; lia). f_equal. apply u8_inj. rewrite u8_as_u8, Z.mod_small; lia.
Qed.

Lemma varint_inverse r n r' :
  decode_varint32 r = Ok (n, r') -> r = encode_varint32 n ++ r' /\ 0 <= n < 2 ^ 32.
Proof.
  unfold decode_varint32, encode_varint32.
  destruct (decode_varint_loop r 0 0 0) as [[[res m] r1]|] eqn:E; [|done].
  destruct (varint_loop_inverse r 5 0 0 res m r1 eq_refl ltac:(lia) ltac:(cbn; lia) E)
    as (n' & -> & Hn & Hm & Henc).
  change (7 * 0) with 0 in *. rewrite Z.pow_0_r, Z.mul_1_r, Z.add_0_l in *.
  destruct ((1 <? m) && (Z.shiftr n' (7 * (m - 1)) =? 0)) eqn:Hmin; [done|].
  intros [= <- <-]. split; [|lia]. apply Henc.
  destruct (Z.ltb_spec 1 m); [right|left; lia]. cbn in Hmin. apply Z.eqb_neq in Hmin.
  rewrite Z.shiftr_div_pow2 in Hmin by lia. replace (m - 0 - 1) with (m - 1) by ring.
  destruct (Z.lt_ge_cases n' (2 ^ (7 * (m - 1)))); [|lia].
  rewrite Z.div_small in Hmin by lia. lia.
Qed.

Lemma varint_nonempty n : 0 <= n < 2 ^ 32 -> (1 <= length (encode_varint32 n))%nat.
Proof. intros Hn. destruct (varint_loop_length 5 n) as [? _]; [lia|cbn; lia|]. unfold encode_varint32. lia. Qed.

Lemma read_exact_app n a b : n = Z.of_nat (length a) -> read_exact n (a ++ b) = Ok (a, b).
Proof.
  intros ->. unfold read_exact. rewrite length_app.
  destruct (Z.ltb_spec (Z.of_nat (length a + length b)) (Z.of_nat (length a))); [lia|].
  by rewrite Nat2Z.id, take_app_length, drop_app_length.
Qed.

Lemma read_exact_inv n r a b :
  0 <= n -> read_exact n r = Ok (a, b) -> r = a ++ b /\ Z.of_nat (length a) = n.
Proof.
  unfold read_exact. intros Hn. destruct (Z.ltb_spec (Z.of_nat (length r)) n); [done|].
  intros [= <- <-]. rewrite take_drop, length_take. split; [done|]. lia.
Qed.

(** ** Well-formed values *)

Section NrfInd.
Context (P : NrfValue -> Prop).
Context (Hnull : P NrfNull) (Hbool : forall b, P (NrfBool b)) (Hint : forall i, P (NrfInt i))
  (Hstr : forall s, P (NrfString s)) (Hbytes : forall b, P (NrfBytes b))
  (Harr : forall l, Forall P l -> P (NrfArray l))
  (Hmap : forall m, Forall (fun kv => P kv.2) m -> P (NrfMap m)).
Fixpoint nrf_ind' (v : NrfValue) : P v :=
  match v with
  | NrfNull => Hnull
  | NrfBool b => Hbool b
  | NrfInt i => Hint i
  | NrfString s => Hstr s
  | NrfBytes b => Hbytes b
  | NrfArray l =>
      Harr l ((fix go (l : list NrfValue) : Forall P l :=
        match l with
        | [] => Forall_nil_2 P
        | x :: l' => Forall_cons_2 P x l' (nrf_ind' x) (go l')
        end) l)
  | NrfMap m =>
      Hmap m ((fix go (m : list (string * NrfValue)) : Forall (fun kv => P kv.2) m :=
        match m with
        | [] => Forall_nil_2 _
        | kv :: m' => Forall_cons_2 (fun kv => P kv.2) kv m' (nrf_ind' kv.2) (go m')
        end) m)
  end.
End NrfInd.

Definition encode_items (l : list NrfValue) : bytes := concat (encode_value <$> l).
Definition encode_string (s : string) : bytes :=
  TAG_STRING :: encode_varint32 (len_u32 (as_bytes s)) ++ as_bytes s.
Definition encode_entry (kv : string * NrfValue) : bytes :=
  encode_string kv.1 ++ encode_value kv.2.
Definition encode_entries (m : list (string * NrfValue)) : bytes := concat (encode_entry <$> m).

Lemma encode_array l :
  encode_value (NrfArray l) = TAG_ARRAY :: encode_varint32 (len_u32 l) ++ encode_items l.
Proof.
  cbn [encode_value]. do 2 f_equal. induction l as [|x l IH]; [reflexivity|].
  unfold encode_items. rewrite fmap_cons, concat_cons. fold (encode_items l).
  by rewrite <- IH.
Qed.

Lemma encode_map m :
  encode_value (NrfMap m) = TAG_MAP :: encode_varint32 (len_u32 m) ++ encode_entries m.
Proof.
  cbn [encode_value]. do 2 f_equal. induction m as [|[k x] m IH]; [reflexivity|].
  unfold encode_entries. rewrite fmap_cons, concat_cons. fold (encode_entries m).
  rewrite <- IH. unfold encode_entry, encode_string. cbn [fst snd].
  by rewrite <- app_assoc.
Qed.

Definition fits_u32 {A} (l : list A) : Prop := Z.of_nat (length l) < 2 ^ 32.

Lemma len_u32_small {A} (l : list A) : fits_u32 l -> len_u32 l = Z.of_nat (length l).
Proof. intros H. apply Z.mod_small. unfold fits_u32 in H. lia. Qed.

Lemma len_u32_range {A} (l : list A) : 0 <= len_u32 l < 2 ^ 32.
Proof. by apply Z.mod_pos_bound. Qed.

Section Wf.
Context {U : Unicode}.

(** Strings the decoder accepts: UTF-8, no U+FEFF, NFC, length in [u32]. *)
Definition nrf_str_wf (s : string) : Prop :=
  str_wf s /\ has_bom s = false /\ nfc s = s /\ fits_u32 (as_bytes s).

Fixpoint nrf_wf (v : NrfValue) : Prop :=
  match v with
  | NrfNull | NrfBool _ => True
  | NrfInt i => in_i64 i = true
  | NrfString s => nrf_str_wf s
  | NrfBytes b => fits_u32 b
  | NrfArray l =>
      fits_u32 l /\
      (fix go (l : list NrfValue) : Prop :=
         match l with [] => True | x :: l' => nrf_wf x /\ go l' end) l
  | NrfMap m =>
      fits_u32 m /\ btree_wf m /\
      (fix go (m : list (string * NrfValue)) : Prop :=
         match m with
         | [] => True
         | (k, x) :: m' => (nrf_str_wf k /\ nrf_wf x) /\ go m'
         end) m
  end.

Lemma nrf_wf_array l : nrf_wf (NrfArray l) <-> fits_u32 l /\ Forall nrf_wf l.
Proof.
  cbn. assert (forall P Q R : Prop, (Q <-> R) -> (P /\ Q <-> P /\ R)) as Hc by tauto. apply Hc.
  induction l as [|x l IH]; [done|]. by rewrite Forall_cons, IH.
Qed.

Lemma nrf_wf_map m :
  nrf_wf (NrfMap m) <->
  fits_u32 m /\ btree_wf m /\ Forall (fun kv => nrf_str_wf kv.1 /\ nrf_wf kv.2) m.
Proof.
  cbn. assert (forall P Q R : Prop, (Q <-> R) -> (P /\ Q <-> P /\ R)) as Hc by tauto.
  do 2 apply Hc.
  induction m as [|[k x] m IH]; [done|]. by rewrite Forall_cons, IH.
Qed.
End Wf.

(** ** Round trip *)

Section Decode.
Context {U : Unicode}.

Lemma decode_string_enc s rest :
  nrf_str_wf s ->
  decode_string ((encode_varint32 (len_u32 (as_bytes s)) ++ as_bytes s) ++ rest) = Ok (s, rest).
Proof.
  intros (Hv & Hb & Hn & Hl). unfold decode_string. rewrite <- app_assoc.
  rewrite varint_roundtrip by apply len_u32_range. cbn [mbind result_bind].
  rewrite read_exact_app by (by apply len_u32_small). cbn [mbind result_bind].
  rewrite from_utf8_as_bytes by done. cbn [ok_or mbind result_bind].
  rewrite Hb, Hn, String.eqb_refl. done.
Qed.

Lemma decode_string_inv r s r' :
  decode_string r = Ok (s, r') ->
  nrf_str_wf s /\ r = (encode_varint32 (len_u32 (as_bytes s)) ++ as_bytes s) ++ r'.
Proof.
  unfold decode_string. intros H. inv_ok.
  match goal with H : negb _ = false |- _ =>
    apply negb_false_iff in H; apply String.eqb_eq in H end.
  match goal with H : decode_varint32 _ = _ |- _ => apply varint_inverse in H as [-> Hn] end.
  match goal with H : read_exact _ _ = _ |- _ => apply read_exact_inv in H as [-> Hl]; [|lia] end.
  match goal with H : from_utf8 _ = _ |- _ => apply from_utf8_Some in H as [<- Hv] end.
  assert (fits_u32 (as_bytes s)) by (unfold fits_u32; lia).
  split; [done|]. by rewrite len_u32_small, Hl, app_assoc.
Qed.

(** One unfolding of the decoder per tag. *)
Lemma decode_value_string f r :
  decode_value (S f) (TAG_STRING :: r) = ('(s, r) ← decode_string r; Ok (NrfString s, r)).
Proof. reflexivity. Qed.
Lemma decode_value_int f r :
  decode_value (S f) (TAG_INT64 :: r) =
  ('(buf, r) ← read_exact 8 r; Ok (NrfInt (i64_from_be_bytes buf), r)).
Proof. reflexivity. Qed.
Lemma decode_value_bytes f r :
  decode_value (S f) (TAG_BYTES :: r) =
  ('(len, r) ← decode_varint32 r; '(buf, r) ← read_exact len r; Ok (NrfBytes buf, r)).
Proof. reflexivity. Qed.
Lemma decode_value_array f r :
  decode_value (S f) (TAG_ARRAY :: r) =
  ('(count, r) ← decode_varint32 r; '(l, r) ← decode_items f count r; Ok (NrfArray l, r)).
Proof. reflexivity. Qed.
Lemma decode_value_map f r :
  decode_value (S f) (TAG_MAP :: r) =
  ('(count, r) ← decode_varint32 r; '(m, r) ← decode_entries f count [] r; Ok (NrfMap m, r)).
Proof. reflexivity. Qed.
Lemma decode_items_S f count r :
  decode_items (S f) count r =
  if count <=? 0 then Ok ([], r)
  else ('(v, r) ← decode_value f r; '(vs, r) ← decode_items f (count - 1) r; Ok (v :: vs, r)).
Proof. reflexivity. Qed.
Lemma decode_entries_S f count acc r :
  decode_entries (S f) count acc r =
  if count <=? 0 then Ok (acc, r)
  else
    ('(kv, r) ← decode_value f r;
     match kv with
     | NrfString key =>
         if btree_contains_key key acc then Err (DuplicateKey key)
         else ('(v, r) ← decode_value f r;
               decode_entries f (count - 1) (btree_insert key v acc) r)
     | _ => Err NonStringKey
     end).
Proof. reflexivity. Qed.

Lemma encode_value_nonempty v : (1 <= length (encode_value v))%nat.
Proof. destruct v as [|[]| | | | |]; cbn [encode_value length]; lia. Qed.

Definition decodes_back (v : NrfValue) : Prop :=
  forall f rest, (2 * length (encode_value v) <= f)%nat ->
  decode_value (S f) (encode_value v ++ rest) = Ok (v, rest).

Lemma decode_items_enc l f rest :
  Forall decodes_back l -> (2 * length (encode_items l) + 2 <= f)%nat ->
  decode_items f (Z.of_nat (length l)) (encode_items l ++ rest) = Ok (l, rest).
Proof.
  intros Hl. revert f. induction Hl as [|x l Hx Hl IH]; intros f Hf.
  - destruct f; [lia|]. reflexivity.
  - unfold encode_items in *. rewrite fmap_cons, concat_cons in *. rewrite length_app in Hf.
    pose proof (encode_value_nonempty x).
    destruct f as [|[|f]]; [lia..|]. rewrite decode_items_S.
    destruct (Z.leb_spec (Z.of_nat (length (x :: l))) 0); [cbn in *; lia|].
    rewrite <- app_assoc, Hx by lia. cbn [mbind result_bind].
    replace (Z.of_nat (length (x :: l)) - 1) with (Z.of_nat (length l)) by (cbn; lia).
    by rewrite IH by lia.
Qed.

Lemma btree_fresh_last (k : string) (m : list (string * NrfValue)) :
  Forall (fun b => String.ltb b.1 k = true) m -> btree_contains_key k m = false.
Proof.
  unfold btree_contains_key. induction 1 as [|[k' v'] m Hk Hm IH]; cbn; [done|].
  destruct (String.eqb_spec k k') as [->|]; [|done].
  cbn in Hk. by rewrite str_ltb_irrefl in Hk.
Qed.

Lemma decode_entries_enc m acc f rest :
  Forall (fun kv => nrf_str_wf kv.1 /\ decodes_back kv.2) m -> btree_wf m ->
  Forall (fun a => Forall (fun b => String.ltb a.1 b.1 = true) m) acc ->
  (2 * length (encode_entries m) + 2 <= f)%nat ->
  decode_entries f (Z.of_nat (length m)) acc (encode_entries m ++ rest) = Ok (acc ++ m, rest).
Proof.
  intros Hm. revert acc f. induction Hm as [|[k x] m [Hk Hx] Hm IH]; intros acc f Hwf Hacc Hf.
  - destruct f; [lia|]. rewrite decode_entries_S. cbn. by rewrite app_nil_r.
  - unfold encode_entries in *. rewrite fmap_cons, concat_cons in *.
    change (encode_entry (k, x)) with (encode_string k ++ encode_value x) in *.
    rewrite !length_app in Hf. unfold encode_string in *. cbn [length] in Hf.
    pose proof (encode_value_nonempty x).
    destruct f as [|[|f]]; [lia..|]. rewrite decode_entries_S.
    destruct (Z.leb_spec (Z.of_nat (length ((k, x) :: m))) 0); [cbn in *; lia|].
    rewrite <- !app_assoc, <- app_comm_cons, decode_value_string.
    rewrite decode_string_enc by done. cbn [mbind result_bind].
    inversion Hwf as [|? ? Hwf' Hkm]; subst.
    assert (Forall (fun b => String.ltb b.1 k = true) acc) as Hlast.
    { eapply Forall_impl; [exact Hacc|]. cbn. intros a Ha. by inversion Ha. }
    rewrite btree_fresh_last by done. cbn [fst snd] in Hk, Hx. rewrite Hx by lia. cbn [mbind result_bind].
    replace (Z.of_nat (length ((k, x) :: m)) - 1) with (Z.of_nat (length m)) by (cbn; lia).
    rewrite btree_insert_last by done. rewrite IH; [by rewrite <- app_assoc|done| |lia].
    apply Forall_app. split.
    + eapply Forall_impl; [exact Hacc|]. cbn. intros a Ha. by inversion Ha.
    + constructor; [|constructor]. exact Hkm.
Qed.

Lemma decode_value_enc v : nrf_wf v -> decodes_back v.
Proof.
  induction v as [|b|i|s|b|l IH|m IH] using nrf_ind'; intros Hwf f rest Hf.
  - reflexivity.
  - by destruct b.
  - cbn [encode_value]. rewrite <- app_comm_cons, decode_value_int.
    rewrite read_exact_app by (by rewrite to_be_bytes_length). cbn [mbind result_bind].
    by rewrite i64_be_roundtrip.
  - cbn [encode_value]. rewrite <- app_comm_cons, decode_value_string.
    by rewrite decode_string_enc.
  - cbn [encode_value]. rewrite <- app_comm_cons, decode_value_bytes.
    rewrite <- app_assoc, varint_roundtrip by apply len_u32_range. cbn [mbind result_bind].
    by rewrite read_exact_app by (by apply len_u32_small).
  - apply nrf_wf_array in Hwf as [Hl Hwf]. rewrite encode_array in *.
    cbn [length] in Hf. rewrite length_app in Hf.
    pose proof (varint_nonempty _ (len_u32_range l)).
    rewrite <- app_comm_cons, decode_value_array, <- app_assoc.
    rewrite varint_roundtrip by apply len_u32_range. cbn [mbind result_bind].
    rewrite len_u32_small by done.
    rewrite decode_items_enc; [done| |lia].
    apply Forall_forall. intros x Hx. rewrite Forall_forall in IH, Hwf. by apply IH, Hwf.
  - apply nrf_wf_map in Hwf as (Hl & Hb & Hwf). rewrite encode_map in *.
    cbn [length] in Hf. rewrite length_app in Hf.
    pose proof (varint_nonempty _ (len_u32_range m)).
    rewrite <- app_comm_cons, decode_value_map, <- app_assoc.
    rewrite varint_roundtrip by apply len_u32_range. cbn [mbind result_bind].
    rewrite len_u32_small by done.
    rewrite decode_entries_enc; [done| |done|constructor|lia].
    apply Forall_forall. intros x Hx. rewrite Forall_forall in IH, Hwf.
    destruct (Hwf x Hx). split; [done|]. by apply IH.
Qed.
(** *** The decoder's results *)

Lemma decode_varint_consumes r n r' :
  decode_varint32 r = Ok (n, r') -> 0 <= n < 2 ^ 32 /\ (length r' < length r)%nat.
Proof.
  intros [-> Hn]%varint_inverse. split; [done|].
  rewrite length_app. pose proof (varint_nonempty n Hn). lia.
Qed.

Lemma read_exact_consumes n r a r' :
  0 <= n -> read_exact n r = Ok (a, r') ->
  Z.of_nat (length a) = n /\ (length r' <= length r)%nat.
Proof. intros Hn [-> Hl]%read_exact_inv; [|done]. rewrite length_app. lia. Qed.

Lemma decode_string_consumes r s r' :
  decode_string r = Ok (s, r') -> nrf_str_wf s /\ (length r' < length r)%nat.
Proof.
  intros [Hs ->]%decode_string_inv. split; [done|]. rewrite !length_app.
  pose proof (varint_nonempty _ (len_u32_range (as_bytes s))). lia.
Qed.

(** The eight arms of [decode_value], as alternatives on the input. *)
Lemma decode_value_cases f r :
  decode_value (S f) r =
  match r with
  | [] => Err UnexpectedEof
  | x00 :: r => Ok (NrfNull, r)
  | x01 :: r => Ok (NrfBool false, r)
  | x02 :: r => Ok (NrfBool true, r)
  | x03 :: r => '(buf, r) ← read_exact 8 r; Ok (NrfInt (i64_from_be_bytes buf), r)
  | x04 :: r => '(s, r) ← decode_string r; Ok (NrfString s, r)
  | x05 :: r => '(len, r) ← decode_varint32 r; '(buf, r) ← read_exact len r; Ok (NrfBytes buf, r)
  | x06 :: r => '(count, r) ← decode_varint32 r; '(l, r) ← decode_items f count r; Ok (NrfArray l, r)
  | x07 :: r => '(count, r) ← decode_varint32 r; '(m, r) ← decode_entries f count [] r; Ok (NrfMap m, r)
  | tag :: r => Err (InvalidTypeTag (u8 tag))
  end.
Proof. destruct r as [|[] r]; reflexivity. Qed.

Lemma btree_insert_fresh_length (k : string) (v : NrfValue) m :
  btree_contains_key k m = false -> length (btree_insert k v m) = S (length m).
Proof.
  unfold btree_contains_key. induction m as [|[k' v'] m IH]; cbn; [done|].
  destruct (String.eqb_spec k k') as [->|Hne]; [done|]. intros H.
  destruct (String.compare k k') eqn:E; cbn; [|done|].
  - by apply str_compare_Eq in E.
  - by rewrite IH.
Qed.

Lemma btree_insert_Forall (P : string * NrfValue -> Prop) k v m :
  P (k, v) -> Forall P m -> Forall P (btree_insert k v m).
Proof.
  intros Hp. induction 1 as [|[k' v'] m Hk Hm IH]; cbn; [by repeat constructor|].
  destruct (String.compare k k'); by repeat constructor.
Qed.

Lemma decode_sound f :
  (forall r v r', decode_value f r = Ok (v, r') -> nrf_wf v /\ (length r' < length r)%nat) /\
  (forall c r l r', decode_items f c r = Ok (l, r') ->
     Forall nrf_wf l /\ length l = Z.to_nat c /\ (length r' <= length r)%nat) /\
  (forall c acc r m r', decode_entries f c acc r = Ok (m, r') ->
     btree_wf acc -> Forall (fun kv => nrf_str_wf kv.1 /\ nrf_wf kv.2) acc ->
     btree_wf m /\ Forall (fun kv => nrf_str_wf kv.1 /\ nrf_wf kv.2) m /\
     length m = (length acc + Z.to_nat c)%nat /\ (length r' <= length r)%nat).
Proof.
  induction f as [|f (IHv & IHi & IHe)]; [done|]. split; [|split].
  - intros r v r'. rewrite decode_value_cases. intros H.
    destruct r as [|[] r]; try discriminate H; inv_ok; cbn [length].
    all: repeat match goal with
      | H : decode_varint32 _ = Ok _ |- _ => apply decode_varint_consumes in H as [? ?]
      | H : read_exact _ _ = Ok _ |- _ => apply read_exact_consumes in H as [? ?]; [|lia]
      | H : decode_string _ = Ok _ |- _ => apply decode_string_consumes in H as [? ?]
      | H : decode_items _ _ _ = Ok _ |- _ => apply IHi in H as (? & ? & ?)
      | H : decode_entries _ _ _ _ = Ok _ |- _ =>
          apply IHe in H as (? & ? & ? & ?); [|constructor|constructor]
      end.
    all: split; [|lia]; rewrite ?nrf_wf_array, ?nrf_wf_map; cbn [nrf_wf length] in *;
      unfold fits_u32; try done; split_and?; try done; try lia.
    apply i64_from_be_bytes_range. lia.
  - intros c r l r'. rewrite decode_items_S. destruct (Z.leb_spec c 0).
    + intros [= <- <-]. repeat split; [constructor|cbn; lia|lia].
    + intros H'. inv_ok.
      match goal with H : decode_value _ _ = _ |- _ => apply IHv in H as [? ?] end.
      match goal with H : decode_items _ _ _ = _ |- _ => apply IHi in H as (? & ? & ?) end.
      repeat split; [by constructor|cbn [length]; lia|lia].
  - intros c acc r m r'. rewrite decode_entries_S. destruct (Z.leb_spec c 0).
    + intros [= <- <-] ? ?. repeat split; [done..|lia|lia].
    + intros H' Hwf Hacc. inv_ok.
      repeat match goal with H : decode_value _ _ = _ |- _ => apply IHv in H as [? ?] end.
      match goal with H : decode_entries _ _ _ _ = _ |- _ =>
        apply IHe in H as (? & ? & ? & ?); [|by apply btree_insert_wf|by apply btree_insert_Forall] end.
      rewrite btree_insert_fresh_length in * by done. repeat split; [done..|lia|lia].
Qed.

(** *** Fuel *)

Lemma varint_loop_no_fuel r a b c : decode_varint_loop r a b c <> Err OutOfFuel.
Proof.
  revert a b c. induction r as [|x r IH]; intros a b c; cbn; [done|]. by repeat case_match.
Qed.
Lemma varint_no_fuel r : decode_varint32 r <> Err OutOfFuel.
Proof.
  unfold decode_varint32. pose proof (varint_loop_no_fuel r 0 0 0).
  repeat case_match; congruence.
Qed.
Lemma read_exact_no_fuel n r : read_exact n r <> Err OutOfFuel.
Proof. unfold read_exact. by case_match. Qed.
Lemma decode_string_no_fuel r : decode_string r <> Err OutOfFuel.
Proof.
  unfold decode_string. res_simpl. pose proof (varint_no_fuel r).
  destruct (decode_varint32 r) as [[n r1]|]; [|congruence].
  pose proof (read_exact_no_fuel n r1). repeat case_match; congruence.
Qed.

Lemma decode_fuel_enough f :
  (forall r, (2 * length r < f)%nat -> decode_value f r <> Err OutOfFuel) /\
  (forall c r, (2 * length r + 1 < f)%nat -> decode_items f c r <> Err OutOfFuel) /\
  (forall c acc r, (2 * length r + 1 < f)%nat -> decode_entries f c acc r <> Err OutOfFuel).
Proof.
  induction f as [|f (IHv & IHi & IHe)]; [split; [|split]; intros; lia|]. split; [|split].
  - intros r Hf. rewrite decode_value_cases. res_simpl.
    destruct r as [|[] r]; cbn [length] in Hf; try done.
    all: repeat match goal with
      | |- context [decode_varint32 ?r] =>
          pose proof (varint_no_fuel r);
          destruct (decode_varint32 r) as [[? ?]|] eqn:?; [|congruence]
      | |- context [read_exact ?n ?r] =>
          pose proof (read_exact_no_fuel n r);
          destruct (read_exact n r) as [[? ?]|] eqn:?; [|congruence]
      | |- context [decode_string ?r] =>
          pose proof (decode_string_no_fuel r);
          destruct (decode_string r) as [[? ?]|] eqn:?; [|congruence]
      | H : decode_varint32 _ = Ok _ |- _ => apply decode_varint_consumes in H as [? ?]
      | |- context [decode_items ?g ?c ?r] =>
          pose proof (IHi c r ltac:(lia)); destruct (decode_items g c r) as [[? ?]|]; [|congruence]
      | |- context [decode_entries ?g ?c ?a ?r] =>
          pose proof (IHe c a r ltac:(lia)); destruct (decode_entries g c a r) as [[? ?]|]; [|congruence]
      end; done.
  - intros c r Hf. rewrite decode_items_S. res_simpl. case_match; [done|].
    pose proof (IHv r ltac:(lia)).
    destruct (decode_value f r) as [[v r1]|] eqn:E; [|congruence].
    apply (proj1 (decode_sound f)) in E as [_ Hc].
    pose proof (IHi (c - 1) r1 ltac:(lia)).
    by destruct (decode_items f (c - 1) r1) as [[? ?]|]; [|congruence].
  - intros c acc r Hf. rewrite decode_entries_S. res_simpl. case_match; [done|].
    pose proof (IHv r ltac:(lia)).
    destruct (decode_value f r) as [[v r1]|] eqn:E; [|congruence].
    apply (proj1 (decode_sound f)) in E as [_ Hc]. destruct v as [| | |s| | |]; try done.
    case_match; [done|]. pose proof (IHv r1 ltac:(lia)).
    destruct (decode_value f r1) as [[x r2]|] eqn:E; [|congruence].
    apply (proj1 (decode_sound f)) in E as [_ Hc2]. apply IHe. lia.
Qed.
End Decode.

(** ** JSON conversion *)

Section FromJson.
Context {U : Unicode}.

(** The loops of [json_to_nrf_with_path], named. *)
Definition array_loop (p : path) :=
  fix go (idx : nat) (l : list json) : result NrfError (list NrfValue) :=
    match l with
    | [] => Ok []
    | x :: l' =>
        y ← json_to_nrf_with_path x (path_for_index p idx);
        ys ← go (S idx) l';
        Ok (y :: ys)
    end.
Definition object_loop (p : path) :=
  fix go (bt : list (string * NrfValue)) (m : list (string * json))
    : result NrfError (list (string * NrfValue)) :=
    match m with
    | [] => Ok bt
    | (k, x) :: m' =>
        let key_path := path_for_key p k in
        if has_bom k then Err (RhoViolation key_path RBomInKey)
        else if has_control_char k then Err (RhoViolation key_path RControlCharInKey)
        else if negb (String.eqb (nfc k) k) then Err (RhoViolation key_path RNotNFCInKey)
        else if is_null x then go bt m'
        else
          y ← json_to_nrf_with_path x key_path;
          if btree_contains_key k bt then Err (RhoViolation p (RDuplicateKey k))
          else go (btree_insert k y bt) m'
    end.

Lemma array_loop_cons p i x l :
  array_loop p i (x :: l) =
  (y ← json_to_nrf_with_path x (path_for_index p i); ys ← array_loop p (S i) l; Ok (y :: ys)).
Proof. reflexivity. Qed.
Lemma object_loop_cons p bt k x m :
  object_loop p bt ((k, x) :: m) =
  if has_bom k then Err (RhoViolation (path_for_key p k) RBomInKey)
  else if has_control_char k then Err (RhoViolation (path_for_key p k) RControlCharInKey)
  else if negb (String.eqb (nfc k) k) then Err (RhoViolation (path_for_key p k) RNotNFCInKey)
  else if is_null x then object_loop p bt m
  else
    (y ← json_to_nrf_with_path x (path_for_key p k);
     if btree_contains_key k bt then Err (RhoViolation p (RDuplicateKey k))
     else object_loop p (btree_insert k y bt) m).
Proof. reflexivity. Qed.

Lemma conv_array l p :
  json_to_nrf_with_path (JArray l) p = (items ← array_loop p 0 l; Ok (NrfArray items)).
Proof. reflexivity. Qed.
Lemma conv_object m p :
  json_to_nrf_with_path (JObject m) p = (bt ← object_loop p [] m; Ok (NrfMap bt)).
Proof. reflexivity. Qed.

(** The value of a successful conversion does not depend on the path. *)
Lemma conv_path v p p' n :
  json_to_nrf_with_path v p = Ok n -> json_to_nrf_with_path v p' = Ok n.
Proof.
  revert p p' n. induction v as [|b|x|s|l IH|m IH] using json_ind'; intros p p' n.
  - done.
  - done.
  - cbn. by destruct (number_as_i64 x).
  - cbn. by repeat case_match.
  - rewrite !conv_array. intros H.
    assert (forall i ys, array_loop p i l = Ok ys -> array_loop p' i l = Ok ys) as Hl.
    { clear H n. induction IH as [|x l Hx Hl IHl]; intros i ys; [done|].
      rewrite !array_loop_cons. intros H. inv_ok.
      erewrite Hx by done. by erewrite IHl by done. }
    inv_ok. by erewrite Hl by done.
  - rewrite !conv_object. intros H.
    assert (forall bt bt', object_loop p bt m = Ok bt' -> object_loop p' bt m = Ok bt') as Hl.
    { clear H n. induction IH as [|[k x] m Hx Hm IHm]; intros bt bt'; [done|].
      rewrite !object_loop_cons. destruct (has_bom k); [done|].
      destruct (has_control_char k); [done|]. destruct (negb _); [done|].
      destruct (is_null x); [apply IHm|].
      cbn [snd] in Hx. intros Hk. inv_ok. erewrite Hx by done. by apply IHm. }
    inv_ok. by erewrite Hl by done.
Qed.

Lemma conv_root v p n : json_to_nrf_with_path v p = Ok n <-> json_to_nrf v = Ok n.
Proof. split; apply conv_path. Qed.

Lemma array_loop_Forall2 p i l ys :
  array_loop p i l = Ok ys -> Forall2 (fun x y => json_to_nrf x = Ok y) l ys.
Proof.
  revert i ys. induction l as [|x l IH]; intros i ys.
  - intros [= <-]. constructor.
  - rewrite array_loop_cons. intros H. inv_ok. constructor; [by eapply conv_path|by eapply IH].
Qed.

(** What the object loop builds: the non-null entries, ordered by key. *)
Lemma object_loop_spec p bt m bt' :
  object_loop p bt m = Ok bt' -> btree_wf bt ->
  btree_wf bt' /\
  Forall (fun kv => has_bom kv.1 = false /\ has_control_char kv.1 = false /\ nfc kv.1 = kv.1 /\
    (is_null kv.2 = false -> exists y, json_to_nrf kv.2 = Ok y)) m /\
  forall k y, btree_get k bt' = Some y <->
    btree_get k bt = Some y \/
    exists x, (k, x) ∈ m /\ is_null x = false /\ json_to_nrf x = Ok y.
Proof.
  revert bt. induction m as [|[k x] m IH]; intros bt; [|rewrite object_loop_cons].
  { intros [= <-] Hwf. split; [done|]. split; [constructor|]. intros k y. split; [by left|].
    intros [?|(x & Hx & _)]; [done|]. by apply elem_of_nil in Hx. }
  destruct (has_bom k) eqn:Hb; [done|]. destruct (has_control_char k) eqn:Hc; [done|].
  destruct (String.eqb_spec (nfc k) k) as [Hn|]; [|done]. cbn [negb].
  destruct (is_null x) eqn:Hx.
  - intros H Hwf. destruct (IH _ H Hwf) as (H1 & H2 & H3). split; [done|].
    split; [constructor; [|done]; cbn; rewrite Hx; split_and!; done|]. intros j y. rewrite H3. setoid_rewrite elem_of_cons.
    naive_solver congruence.
  - intros H Hwf. inv_ok. destruct (IH _ H (btree_insert_wf _ _ _ Hwf)) as (H1 & H2 & H3).
    assert (json_to_nrf x = Ok a) as Hconv by (by eapply conv_path).
    split; [done|]. split; [constructor; [|done]; cbn; split_and!; eauto|].
    intros j z. rewrite H3.
    rewrite btree_get_insert by done. setoid_rewrite elem_of_cons.
    unfold btree_contains_key in Heqb. destruct (btree_get k bt) eqn:Hg; [done|].
    destruct (String.eqb_spec j k) as [->|Hne].
    + split.
      * intros [[= ->]|(x' & Hin & ?)]; right; eauto 10.
      * intros [?|(x' & [[= ->]|Hin] & Hnn & Hx')]; [congruence|left; congruence|eauto].
    + naive_solver congruence.
Qed.

(** JSON values that differ only in the order of object members and in
    null-valued members. *)
Inductive json_equiv : json -> json -> Prop :=
| equiv_refl v : json_equiv v v
| equiv_array l1 l2 : Forall2 json_equiv l1 l2 -> json_equiv (JArray l1) (JArray l2)
| equiv_object m1 m1' m2 m2' :
    List.filter (fun kv => negb (is_null kv.2)) m1 ≡ₚ m1' ->
    List.filter (fun kv => negb (is_null kv.2)) m2 ≡ₚ m2' ->
    Forall2 (fun a b => a.1 = b.1 /\ json_equiv a.2 b.2) m1' m2' ->
    json_equiv (JObject m1) (JObject m2).

Lemma nonnull_elem (m m' : list (string * json)) k x :
  List.filter (fun kv => negb (is_null kv.2)) m ≡ₚ m' ->
  (k, x) ∈ m' <-> (k, x) ∈ m /\ is_null x = false.
Proof.
  intros H. rewrite <- H, !list_elem_of_In, List.filter_In, negb_true_iff. done.
Qed.

Lemma equiv_entry (m1 m1' m2 m2' : list (string * json)) k x :
  List.filter (fun kv => negb (is_null kv.2)) m1 ≡ₚ m1' ->
  List.filter (fun kv => negb (is_null kv.2)) m2 ≡ₚ m2' ->
  Forall2 (fun a b => a.1 = b.1 /\ json_equiv a.2 b.2) m1' m2' ->
  (k, x) ∈ m1 -> is_null x = false ->
  exists y, (k, y) ∈ m2 /\ is_null y = false /\ json_equiv x y.
Proof.
  intros H1 H2 HF Hin Hx.
  assert ((k, x) ∈ m1') as [i Hi]%list_elem_of_lookup by (by eapply nonnull_elem).
  destruct (Forall2_lookup_l _ _ _ _ _ HF Hi) as ([k' y] & Hj & Hk & He). cbn in Hk, He. subst k'.
  assert ((k, y) ∈ m2') as Hin2 by (apply list_elem_of_lookup; eauto).
  eapply nonnull_elem in Hin2 as [? ?]; [|done]. eauto.
Qed.
Lemma equiv_entry_r (m1 m1' m2 m2' : list (string * json)) k y :
  List.filter (fun kv => negb (is_null kv.2)) m1 ≡ₚ m1' ->
  List.filter (fun kv => negb (is_null kv.2)) m2 ≡ₚ m2' ->
  Forall2 (fun a b => a.1 = b.1 /\ json_equiv a.2 b.2) m1' m2' ->
  (k, y) ∈ m2 -> is_null y = false ->
  exists x, (k, x) ∈ m1 /\ is_null x = false /\ json_equiv x y.
Proof.
  intros H1 H2 HF Hin Hx.
  assert ((k, y) ∈ m2') as [i Hi]%list_elem_of_lookup by (by eapply nonnull_elem).
  destruct (Forall2_lookup_r _ _ _ _ _ HF Hi) as ([k' x] & Hj & Hk & He). cbn in Hk, He. subst k'.
  assert ((k, x) ∈ m1') as Hin2 by (apply list_elem_of_lookup; eauto).
  eapply nonnull_elem in Hin2 as [? ?]; [|done]. eauto.
Qed.

Lemma json_equiv_conv v1 v2 n1 n2 :
  json_equiv v1 v2 -> json_to_nrf v1 = Ok n1 -> json_to_nrf v2 = Ok n2 -> n1 = n2.
Proof.
  revert v2 n1 n2. induction v1 as [|b|x|s|l IH|m IH] using json_ind'; intros v2 n1 n2 He.
  1-4: inversion He; subst; congruence.
  - inversion He as [|? l2 Hl|]; subst; [congruence|].
    unfold json_to_nrf. rewrite !conv_array. rewrite !result_bind_ok.
    intros (ys1 & E1%array_loop_Forall2 & [= <-]) (ys2 & E2%array_loop_Forall2 & [= <-]).
    f_equal. clear He. revert ys1 ys2 E1 E2.
    induction Hl as [|x y l l2 Hxy Hl IHl]; intros ys1 ys2 HF1 HF2.
    + inversion HF1; inversion HF2; congruence.
    + inversion HF1; inversion HF2; subst. inversion IH as [|? ? Hx IH']; subst.
      f_equal; eauto.
  - inversion He as [|? m2 Hl|m1 m1' m2 m2' Hp1 Hp2 HF]; subst; [congruence|].
    unfold json_to_nrf. rewrite !conv_object. rewrite !result_bind_ok.
    intros (bt1 & E1 & [= <-]) (bt2 & E2 & [= <-]).
    apply object_loop_spec in E1 as (Hw1 & Hc1 & Hs1); [|constructor].
    apply object_loop_spec in E2 as (Hw2 & Hc2 & Hs2); [|constructor].
    f_equal. apply btree_ext; [done..|]. intros k. cbn [btree_get] in Hs1, Hs2.
    apply option_eq. intros y. rewrite Hs1, Hs2. clear Hs1 Hs2.
    rewrite Forall_forall in IH, Hc1, Hc2. split.
    + intros [?|(x1 & Hin & Hnn & Hx1)]; [done|]. right.
      destruct (equiv_entry _ _ _ _ _ _ Hp1 Hp2 HF Hin Hnn) as (x2 & Hin2 & Hnn2 & Hxx).
      exists x2. split_and!; [done..|].
      destruct (Hc2 _ Hin2) as (_ & _ & _ & Hok). destruct (Hok Hnn2) as [y2 Hy2].
      by rewrite (IH _ Hin _ _ _ Hxx Hx1 Hy2).
    + intros [?|(x2 & Hin2 & Hnn2 & Hx2)]; [done|]. right.
      destruct (equiv_entry_r _ _ _ _ _ _ Hp1 Hp2 HF Hin2 Hnn2) as (x1 & Hin & Hnn & Hxx).
      exists x1. split_and!; [done..|].
      destruct (Hc1 _ Hin) as (_ & _ & _ & Hok). destruct (Hok Hnn) as [y1 Hy1].
      by rewrite <- (IH _ Hin _ _ _ Hxx Hy1 Hx2).
Qed.
(** Every string, array and object is shorter than [2^32]: lengths are
    encoded as [u32]. *)
Fixpoint json_fits (v : json) : Prop :=
  match v with
  | JString s => fits_u32 (as_bytes s)
  | JArray l =>
      fits_u32 l /\
      (fix go (l : list json) : Prop :=
         match l with [] => True | x :: l' => json_fits x /\ go l' end) l
  | JObject m =>
      fits_u32 m /\
      (fix go (m : list (string * json)) : Prop :=
         match m with
         | [] => True
         | (k, x) :: m' => (fits_u32 (as_bytes k) /\ json_fits x) /\ go m'
         end) m
  | _ => True
  end.

Lemma json_fits_array l : json_fits (JArray l) <-> fits_u32 l /\ Forall json_fits l.
Proof.
  cbn. assert (forall P Q R : Prop, (Q <-> R) -> (P /\ Q <-> P /\ R)) as Hc by tauto. apply Hc.
  induction l as [|x l IH]; [done|]. by rewrite Forall_cons, IH.
Qed.
Lemma json_fits_object m :
  json_fits (JObject m) <->
  fits_u32 m /\ Forall (fun kv => fits_u32 (as_bytes kv.1) /\ json_fits kv.2) m.
Proof.
  cbn. assert (forall P Q R : Prop, (Q <-> R) -> (P /\ Q <-> P /\ R)) as Hc by tauto. apply Hc.
  induction m as [|[k x] m IH]; [done|]. by rewrite Forall_cons, IH.
Qed.

Lemma object_loop_length p bt m bt' :
  object_loop p bt m = Ok bt' -> (length bt' <= length bt + length m)%nat.
Proof.
  revert bt. induction m as [|[k x] m IH]; intros bt.
  - intros [= <-]. lia.
  - rewrite object_loop_cons. intros H. cbn [length]. inv_ok; apply IH in H; [lia|].
    rewrite btree_insert_fresh_length in H by done. lia.
Qed.

Lemma number_i64_wf x i : number_wf x -> number_as_i64 x = Some i -> in_i64 i = true.
Proof.
  destruct x as [v|z|b]; cbn; [|intros Hz [= <-]|done]; unfold in_i64, i64_min, i64_max in *.
  - destruct (Z.leb_spec v (2 ^ 63 - 1)); [|done]. intros Hv [= <-]. apply andb_true_intro; lia.
  - apply andb_true_intro; lia.
Qed.

(** Converted values are well formed, so the codec laws apply to them. *)
Lemma conv_wf v n : json_wf v -> json_fits v -> json_to_nrf v = Ok n -> nrf_wf n.
Proof.
  revert n. induction v as [|b|x|s|l IH|m IH] using json_ind'; intros n Hwf Hfit.
  - by intros [= <-].
  - by intros [= <-].
  - unfold json_to_nrf. cbn. destruct (number_as_i64 x) eqn:E; [|done].
    intros [= <-]. by eapply number_i64_wf.
  - unfold json_to_nrf. cbn. destruct (has_bom s) eqn:?; [done|].
    destruct (has_control_char s); [done|].
    destruct (String.eqb_spec (nfc s) s); [|done]. intros [= <-]. done.
  - apply json_wf_array in Hwf. apply json_fits_array in Hfit as [Hl Hfit].
    unfold json_to_nrf. rewrite conv_array, result_bind_ok.
    intros (ys & Hys%array_loop_Forall2 & [= <-]). apply nrf_wf_array. split.
    { apply Forall2_length in Hys. unfold fits_u32 in *. by rewrite <- Hys. }
    clear Hl. induction Hys as [|x y l ys Hxy Hys IHys]; [constructor|].
    inversion IH; inversion Hwf; inversion Hfit; subst. constructor; eauto.
  - apply json_wf_object in Hwf as [_ Hwf]. apply json_fits_object in Hfit as [Hl Hfit].
    unfold json_to_nrf. rewrite conv_object, result_bind_ok. intros (bt & E & [= <-]).
    pose proof (object_loop_length _ _ _ _ E) as Hlen.
    apply object_loop_spec in E as (Hw & Hc & Hs); [|constructor].
    apply nrf_wf_map. split_and!; [unfold fits_u32 in *; cbn in Hlen; lia|done|].
    rewrite Forall_forall in IH, Hc, Hwf, Hfit. apply Forall_forall. intros [k y] Hin. apply btree_get_elem in Hin; [|done].
    apply Hs in Hin as [?|(x & Hx & Hnn & Hconv)]; [done|].
    destruct (Hc _ Hx) as (? & ? & ? & _), (Hwf _ Hx), (Hfit _ Hx). cbn in *.
    split; [by split_and!|]. eapply (IH (k, x)); eauto.
Qed.
End FromJson.

(** ** Properties *)

Section Properties.
Context {U : Unicode}.

Lemma decode_encode_wf v : nrf_wf v -> decode_from_slice (encode_to_vec v) = Ok v.
Proof.
  intros Hwf. unfold decode_from_slice, encode_to_vec.
  rewrite read_exact_app by done. cbn [mbind result_bind].
  rewrite bool_decide_true by done. cbn [negb].
  rewrite <- (app_nil_r (encode_value v)) at 2. unfold decode_fuel.
  rewrite Nat.add_1_r, decode_value_enc by (done || lia). done.
Qed.

(** The varint codec is exact.  [decode_varint32] accepts a byte string
    with result [n] and rest [r'] exactly when that string is the minimal
    encoding [encode_varint32 n] of a [u32] followed by [r']. *)
Theorem varint_exact r n r' :
  decode_varint32 r = Ok (n, r') <-> r = encode_varint32 n ++ r' /\ 0 <= n < 2 ^ 32.
Proof.
  split; [apply varint_inverse|]. intros [-> Hn]. by apply varint_roundtrip.
Qed.

(** C4: Decoding inverts encoding on every well-formed value (strings UTF-8,
    free of U+FEFF and in NFC, maps sorted, lengths in [u32], integers in
    [i64]); in particular encoding is injective on them. *)
Theorem nrf_decode_encode v : nrf_wf v -> decode_from_slice (encode_to_vec v) = Ok v.
Proof.
  apply decode_encode_wf.
Qed.

(** The decoder is total: on every input it returns a value or one of
    its own errors, its fuel never runs out, and a returned value is well
    formed. *)
Theorem nrf_decode_total bs :
  decode_from_slice bs <> Err OutOfFuel /\
  (forall v, decode_from_slice bs = Ok v -> nrf_wf v).
Proof.
  unfold decode_from_slice. split.
  - pose proof (read_exact_no_fuel 4 bs).
    destruct (read_exact 4 bs) as [[m r]|]; cbn [mbind result_bind]; [|congruence].
    case_match; [done|].
    pose proof (proj1 (decode_fuel_enough (decode_fuel r)) r ltac:(unfold decode_fuel; lia)).
    destruct (decode_value (decode_fuel r) r) as [[v r1]|]; cbn; [|congruence]. by case_match.
  - intros v H. inv_ok.
    match goal with H : decode_value _ _ = _ |- _ =>
      apply (proj1 (decode_sound _)) in H as [? _] end. done.
Qed.

(** Content determinism.  Two JSON values that differ only in the order
    of object members and in null-valued members have the same NRF-1 bytes
    and the same CID whenever both are accepted. *)
Theorem cid_order_independent `{Blake3} v1 v2 b1 b2 :
  json_equiv v1 v2 -> to_nrf1_bytes v1 = Ok b1 -> to_nrf1_bytes v2 = Ok b2 ->
  b1 = b2 /\ compute_cid b1 = compute_cid b2.
Proof.
  unfold to_nrf1_bytes. rewrite !result_bind_ok.
  intros He (n1 & E1 & [= <-]) (n2 & E2 & [= <-]).
  by rewrite (json_equiv_conv _ _ _ _ He E1 E2).
Qed.

(** The canonical bytes of a chip determine its content.  Decoding the
    bytes produced from an accepted JSON value gives back exactly the NRF
    value it was converted to, hence two accepted values with equal bytes
    convert to the same NRF value. *)
Theorem to_nrf1_bytes_faithful v1 v2 bs :
  json_wf v1 -> json_fits v1 -> json_wf v2 -> json_fits v2 ->
  to_nrf1_bytes v1 = Ok bs -> to_nrf1_bytes v2 = Ok bs ->
  exists n, decode_from_slice bs = Ok n /\ json_to_nrf v1 = Ok n /\ json_to_nrf v2 = Ok n.
Proof.
  unfold to_nrf1_bytes. rewrite !result_bind_ok.
  intros Hw1 Hf1 Hw2 Hf2 (n1 & E1 & [= <-]) (n2 & E2 & [= Heq]).
  pose proof (decode_encode_wf n1 (conv_wf _ _ Hw1 Hf1 E1)) as D1.
  pose proof (decode_encode_wf n2 (conv_wf _ _ Hw2 Hf2 E2)) as D2.
  unfold encode_to_vec in D2. rewrite Heq in D2. exists n1. split_and!; [done..|].
  rewrite E2. f_equal. unfold encode_to_vec in D1. congruence.
Qed.
End Properties.

(** ** Witnesses *)

(** Normalisation that changes nothing: NFC on ASCII text. *)
Definition ascii_unicode : Unicode := {| nfc := fun s => s |}.

Definition sample_nrf : NrfValue :=
  NrfMap [("a"%string, NrfInt (-7));
          ("b"%string, NrfArray [NrfBool true; NrfBytes [x01; xff]; NrfString "hi"])].

Lemma sample_nrf_wf : @nrf_wf ascii_unicode sample_nrf.
Proof.
  cbn. unfold nrf_str_wf, fits_u32. repeat split; try reflexivity.
  repeat constructor.
Defined.

Lemma nrf_decode_encode_witness :
  @decode_from_slice ascii_unicode (encode_to_vec sample_nrf) = Ok sample_nrf.
Proof. apply (@nrf_decode_encode ascii_unicode sample_nrf). exact sample_nrf_wf. Defined.

Definition sample_json1 : json :=
  JObject [("x", JNumber (PosInt 1)); ("y", JArray [JString "s"]); ("z", JNull)]%string.
Definition sample_json2 : json :=
  JObject [("y", JArray [JString "s"]); ("x", JNumber (PosInt 1))]%string.
Definition zero_blake3 : Blake3 := {| blake3 := fun _ => replicate 32 x00 |}.
Definition sample_bytes : bytes :=
  match @to_nrf1_bytes ascii_unicode sample_json1 with Ok b => b | Err _ => [] end.

Lemma cid_order_independent_witness :
  @to_nrf1_bytes ascii_unicode sample_json1 = Ok sample_bytes /\
  sample_bytes = sample_bytes /\ @compute_cid zero_blake3 sample_bytes = @compute_cid zero_blake3 sample_bytes.
Proof.
  split; [reflexivity|].
  apply (@cid_order_independent ascii_unicode zero_blake3 sample_json1 sample_json2);
    [|reflexivity..].
  eapply equiv_object; [reflexivity|apply Permutation_swap|].
  repeat constructor.
Defined.

Lemma to_nrf1_bytes_faithful_witness :
  exists n, @decode_from_slice ascii_unicode sample_bytes = Ok n /\
    @json_to_nrf ascii_unicode sample_json1 = Ok n /\ @json_to_nrf ascii_unicode sample_json2 = Ok n.
Proof.
  apply (@to_nrf1_bytes_faithful ascii_unicode sample_json1 sample_json2 sample_bytes);
    try reflexivity.
  all: cbn; unfold fits_u32, str_wf, u64_max; repeat split; try reflexivity; try lia.
  all: refine (bool_decide_unpack _ _); vm_compute; exact I.
Defined.

(** The decoder does not require map keys in ascending order: these bytes
    decode, and encode to different bytes. *)
Definition unsorted_map_bytes : bytes :=
  MAGIC ++ [TAG_MAP; x02] ++ encode_string "b" ++ [TAG_NULL] ++ encode_string "a" ++ [TAG_NULL].

Lemma decode_accepts_unsorted_keys :
  exists v, @decode_from_slice ascii_unicode unsorted_map_bytes = Ok v /\
    encode_to_vec v <> unsorted_map_bytes.
Proof. eexists. split; [vm_compute; reflexivity|]. by vm_compute. Qed.
