(* ===== verification/BigNum.v ===== *)
(** * Arbitrary-precision integers and rationals

    [num_bigint::BigInt] is modelled by [Z] (its [/] and [%] truncate); its
    text conversions and [num_rational::BigRational] are the parameters
    [BigNum], with their documented behaviour as [BigNumLaws], and the
    instance [qc_bignum] discharges it. *)

From S2P Require Import Prelude RustStd.
From Stdlib Require Export QArith Qcanon Qround Lqa.
#[global] Open Scope Z_scope.

Class BigNum : Type := {
  (** [s.parse::<BigInt>().ok()] and [BigInt::to_string]. *)
  bigint_parse : string -> option Z;
  bigint_to_string : Z -> string;
  (** [BigRational]; [None] stands for the panic on a zero denominator. *)
  ratio : Type;
  numer : ratio -> Z;
  denom : ratio -> Z;
  ratio_new : Z -> Z -> option ratio;
  ratio_from_integer : Z -> ratio;
  ratio_add : ratio -> ratio -> ratio;
  ratio_sub : ratio -> ratio -> ratio;
  ratio_mul : ratio -> ratio -> ratio;
  ratio_div : ratio -> ratio -> option ratio;
  ratio_cmp : ratio -> ratio -> comparison;
}.

(** The rational number a [BigRational] denotes. *)
Definition ratio_Q `{BigNum} (r : ratio) : Q := Qmake (numer r) (Z.to_pos (denom r)).

Class BigNumLaws (B : BigNum) : Prop := {
  parse_to_string z : bigint_parse (bigint_to_string z) = Some z;
  to_string_decimal z : bigint_to_string z = i_to_string z;
  (** [Ratio] is kept reduced with a positive denominator. *)
  denom_pos r : 0 < denom r;
  reduced r : Z.gcd (numer r) (denom r) = 1;
  ratio_new_ok n d : d <> 0 -> exists r, ratio_new n d = Some r /\ (ratio_Q r * inject_Z d == inject_Z n)%Q;
  ratio_new_zero n : ratio_new n 0 = None;
  from_integer_Q z : (ratio_Q (ratio_from_integer z) == inject_Z z)%Q;
  add_Q a b : (ratio_Q (ratio_add a b) == ratio_Q a + ratio_Q b)%Q;
  sub_Q a b : (ratio_Q (ratio_sub a b) == ratio_Q a - ratio_Q b)%Q;
  mul_Q a b : (ratio_Q (ratio_mul a b) == ratio_Q a * ratio_Q b)%Q;
  div_Q a b : numer b <> 0 ->
    exists r, ratio_div a b = Some r /\ (ratio_Q r == ratio_Q a / ratio_Q b)%Q;
  div_zero a b : numer b = 0 -> ratio_div a b = None;
  cmp_Q a b : ratio_cmp a b = Qcompare (ratio_Q a) (ratio_Q b);
}.

(** ** An instance: canonical rationals *)

Definition qc_new (n d : Z) : option Qc :=
  match d with
  | Z0 => None
  | Zpos p => Some (Q2Qc (n # p))
  | Zneg p => Some (Q2Qc ((- n) # p))
  end.
Definition qc_div (a b : Qc) : option Qc :=
  if Qnum (this b) =? 0 then None else Some (Q2Qc (this a / this b)).

(** Decimal text: an optional sign and at least one digit. *)
Definition digit_val (a : ascii) : option Z :=
  let n := Z.of_N (N_of_ascii a) in
  if (48 <=? n) && (n <=? 57) then Some (n - 48) else None.
Fixpoint parse_digits (s : string) (acc : Z) : option Z :=
  match s with
  | EmptyString => Some acc
  | String a s' => d ← digit_val a; parse_digits s' (10 * acc + d)
  end.
Definition parse_dec (s : string) : option Z :=
  match s with
  | EmptyString => None
  | String a s' =>
      if Ascii.eqb a "-" then
        match s' with EmptyString => None | _ => z ← parse_digits s' 0; Some (- z) end
      else parse_digits s 0
  end.

#[export] Instance qc_bignum : BigNum := {|
  bigint_parse := parse_dec;
  bigint_to_string := i_to_string;
  ratio := Qc;
  numer := fun q => Qnum (this q);
  denom := fun q => Zpos (Qden (this q));
  ratio_new := qc_new;
  ratio_from_integer := fun z => Q2Qc (inject_Z z);
  ratio_add := fun a b => Q2Qc (this a + this b);
  ratio_sub := fun a b => Q2Qc (this a - this b);
  ratio_mul := fun a b => Q2Qc (this a * this b);
  ratio_div := qc_div;
  ratio_cmp := fun a b => Qcompare (this a) (this b);
|}.

Lemma digit_val_char d : 0 <= d < 10 -> digit_val (digit_char d) = Some d.
Proof.
  intros Hd. assert (d = 0 \/ d = 1 \/ d = 2 \/ d = 3 \/ d = 4 \/ d = 5 \/ d = 6 \/ d = 7
    \/ d = 8 \/ d = 9) as Hc by lia.
  by repeat destruct Hc as [->|Hc]; [..|subst].
Qed.

Lemma parse_dec_digits f n s :
  0 <= n < 2 ^ Z.of_nat f -> (1 <= f)%nat ->
  parse_digits (dec_digits f n s) 0 = parse_digits s n.
Proof.
  revert n s. induction f as [|f IH]; intros n s Hn Hf; [lia|]. cbn [dec_digits].
  pose proof (Z.mod_pos_bound n 10 eq_refl). pose proof (Z_div_mod_eq_full n 10).
  destruct (Z.ltb_spec n 10).
  - cbn [parse_digits]. rewrite digit_val_char by done. cbn. f_equal.
    rewrite Z.mod_small by lia. done.
  - destruct f as [|f].
    { cbn in Hn. lia. }
    rewrite IH; [|split; [lia|]|lia].
    + cbn [parse_digits]. rewrite digit_val_char by done. cbn -[Z.mul Z.div Z.modulo]. f_equal. lia.
    + rewrite Nat2Z.inj_succ, Z.pow_succ_r in Hn by lia. lia.
Qed.

Lemma u_to_string_parse n : 0 <= n -> parse_digits (u_to_string n) 0 = Some n.
Proof.
  intros Hn. unfold u_to_string. rewrite parse_dec_digits; [done| |lia]. split; [done|].
  rewrite Nat2Z.inj_succ, Z2Nat.id by apply Z.log2_nonneg.
  destruct (Z.eq_dec n 0) as [->|]; [done|]. apply Z.log2_spec. lia.
Qed.

Lemma dec_digits_head f n s :
  0 <= n -> (1 <= f)%nat ->
  exists d s', 0 <= d < 10 /\ dec_digits f n s = String (digit_char d) s'.
Proof.
  revert n s. induction f as [|f IH]; intros n s Hn Hf; [lia|]. cbn [dec_digits].
  pose proof (Z.mod_pos_bound n 10 eq_refl).
  destruct (n <? 10); [eauto|]. destruct f as [|f]; [cbn; eauto|].
  apply IH; [|lia]. apply Z.div_pos; lia.
Qed.

Lemma i_to_string_parse z : parse_dec (i_to_string z) = Some z.
Proof.
  assert (forall n, 0 <= n -> exists d s', 0 <= d < 10 /\ u_to_string n = String (digit_char d) s')
    as Hh by (intros; apply dec_digits_head; lia).
  unfold i_to_string. destruct (Z.ltb_spec z 0).
  - pose proof (u_to_string_parse (- z) ltac:(lia)) as Hp.
    destruct (Hh (- z) ltac:(lia)) as (d & s' & Hd & Hs). rewrite Hs in *.
    unfold parse_dec. change (Ascii.eqb "-" "-") with true. cbv iota. rewrite Hp. cbn. f_equal. lia.
  - pose proof (u_to_string_parse z ltac:(lia)) as Hp.
    destruct (Hh z ltac:(lia)) as (d & s' & Hd & Hs). rewrite Hs in *. unfold parse_dec.
    replace (Ascii.eqb (digit_char d) "-") with false; [done|].
    assert (d = 0 \/ d = 1 \/ d = 2 \/ d = 3 \/ d = 4 \/ d = 5 \/ d = 6 \/ d = 7
      \/ d = 8 \/ d = 9) as Hc by lia.
    by repeat destruct Hc as [->|Hc]; [..|subst].
Qed.

Lemma qc_Q (q : Qc) : ratio_Q (q : ratio) = this q.
Proof. unfold ratio_Q. cbn. by destruct (this q). Qed.

Lemma Q2Qc_Q q : (ratio_Q (Q2Qc q : ratio) == q)%Q.
Proof. rewrite qc_Q. cbn. apply Qred_correct. Qed.

#[export] Instance qc_bignum_laws : BigNumLaws qc_bignum.
Proof.
  constructor.
  - apply i_to_string_parse.
  - done.
  - done.
  - intros [q Hq]. by apply Qred_iff.
  - intros n d Hd. destruct d as [|p|p]; [done|..]; cbn [ratio_new qc_bignum qc_new];
      eexists; (split; [reflexivity|]); rewrite Q2Qc_Q; unfold Qeq; cbn; lia.
  - done.
  - intros z. apply Q2Qc_Q.
  - intros a b. rewrite !qc_Q. apply Q2Qc_Q.
  - intros a b. rewrite !qc_Q. apply Q2Qc_Q.
  - intros a b. rewrite !qc_Q. apply Q2Qc_Q.
  - intros a b Hb. cbn in Hb |- *. unfold qc_div. destruct (Z.eqb_spec (Qnum b) 0); [done|].
    eexists. split; [reflexivity|]. rewrite !qc_Q. apply Q2Qc_Q.
  - intros a b Hb. cbn in *. unfold qc_div. by rewrite Hb.
  - intros a b. rewrite !qc_Q. done.
Qed.

(** ** Consequences of the laws *)

Section Laws.
Context {B : BigNum} {HB : BigNumLaws B}.

Lemma ratio_Q_le_int (r : ratio) z : (inject_Z z <= ratio_Q r)%Q <-> z * denom r <= numer r.
Proof.
  unfold ratio_Q, Qle. cbn. rewrite Z2Pos.id by apply denom_pos. lia.
Qed.
Lemma ratio_Q_int_le (r : ratio) z : (ratio_Q r <= inject_Z z)%Q <-> numer r <= z * denom r.
Proof.
  unfold ratio_Q, Qle. cbn. rewrite Z2Pos.id by apply denom_pos. lia.
Qed.
Lemma ratio_Q_lt_int (r : ratio) z : (inject_Z z < ratio_Q r)%Q <-> z * denom r < numer r.
Proof.
  unfold ratio_Q, Qlt. cbn. rewrite Z2Pos.id by apply denom_pos. lia.
Qed.
Lemma ratio_Q_int_lt (r : ratio) z : (ratio_Q r < inject_Z z)%Q <-> numer r < z * denom r.
Proof.
  unfold ratio_Q, Qlt. cbn. rewrite Z2Pos.id by apply denom_pos. lia.
Qed.
Lemma ratio_Q_int_eq (r : ratio) z : (ratio_Q r == inject_Z z)%Q <-> numer r = z * denom r.
Proof.
  unfold ratio_Q, Qeq. cbn. rewrite Z2Pos.id by apply denom_pos. lia.
Qed.

(** A reduced fraction that denotes an integer has denominator one. *)
Lemma ratio_int_denom (r : ratio) z : (ratio_Q r == inject_Z z)%Q -> denom r = 1 /\ numer r = z.
Proof.
  intros Hz%ratio_Q_int_eq. pose proof (reduced r) as Hg. pose proof (denom_pos r).
  rewrite Hz, Z.gcd_comm, (Z.mul_comm z), Z.gcd_mul_diag_l in Hg by lia. lia.
Qed.

(** Equal rationals have equal numerators and denominators. *)
Lemma ratio_Q_inj (a b : ratio) : (ratio_Q a == ratio_Q b)%Q -> numer a = numer b /\ denom a = denom b.
Proof.
  unfold ratio_Q, Qeq. cbn. rewrite !Z2Pos.id by apply denom_pos. intros Heq.
  pose proof (reduced a) as Ha. pose proof (reduced b) as Hb.
  pose proof (denom_pos a). pose proof (denom_pos b).
  assert (denom a = denom b) as Hd.
  { apply Z.divide_antisym_nonneg; [lia..| |].
    - apply Z.gauss with (numer a); [|by rewrite Z.gcd_comm].
      exists (numer b). lia.
    - apply Z.gauss with (numer b); [|by rewrite Z.gcd_comm].
      exists (numer a). lia. }
  split; [|done]. rewrite Hd in Heq. nia.
Qed.

Lemma new_Q n d r : 0 < d -> ratio_new n d = Some r -> (ratio_Q r == n # Z.to_pos d)%Q.
Proof.
  intros Hd E. destruct (ratio_new_ok n d) as (r' & E' & HQ); [lia|].
  rewrite E in E'. injection E' as <-.
  assert (n # Z.to_pos d == inject_Z n / inject_Z d)%Q as ->.
  { rewrite (Qmake_Qdiv n (Z.to_pos d)), Z2Pos.id by done. done. }
  rewrite <- HQ, Qdiv_mult_l; [done|]. intros H0. unfold Qeq in H0. cbn in H0. lia.
Qed.
End Laws.
