(* ===== verification/Unc1.v ===== *)
(** * UNC-1 numerics ([ubl_unc1])

    Exact integers, decimals, rationals and intervals with optional units:
    unit handling, rounding, arithmetic with promotion, the IEEE-754
    frontier, conversions and comparison. *)

From S2P Require Import Prelude RustStd BigNum.

(** ** Data *)

Inductive Num : Type :=
| NumInt (v : string) (u : option string)
| NumDec (m : string) (s : Z) (u : option string)
| NumRat (p q : string) (u : option string)
| NumBnd (lo hi : Num) (u : option string).

Inductive RoundingMode : Type := HalfEven | Down | Up | HalfUp | Floor | Ceil.

(** The error strings of the crate; [Panic] marks a call that unwinds. *)
Inductive unc_error : Type :=
| InvalidRoundingMode (v : Z)
| UnitMismatch
| UnitMissing
| UnitMismatchVs (x y : string)
| InvalidBigint (s : string)
| DivisionByZero
| CannotConvertBnd
| InvalidDecimal
| NumericValueInvalid
| IntervalMulEmpty
| IntervalDivEmpty
| BndTooWide
| Panic.

#[export] Instance Num_eq_dec : EqDecision Num.
Proof. solve_decision. Defined.
#[export] Instance RoundingMode_eq_dec : EqDecision RoundingMode.
Proof. solve_decision. Defined.

Definition rounding_mode_from_u8 (v : Z) : result unc_error RoundingMode :=
  match v with
  | 0 => Ok HalfEven
  | 1 => Ok Down
  | 2 => Ok Up
  | 3 => Ok HalfUp
  | 4 => Ok Floor
  | 5 => Ok Ceil
  | _ => Err (InvalidRoundingMode v)
  end.

(** ** Units *)

Definition unit_of (n : Num) : option string :=
  match n with
  | NumInt _ u | NumDec _ _ u | NumRat _ _ u | NumBnd _ _ u => u
  end.

Definition unit_conflict (u : option string) (unit : string) : bool :=
  match u with Some old => negb (String.eqb old unit) | None => false end.

Definition with_unit (n : Num) (unit : string) : result unc_error Num :=
  match n with
  | NumInt v u =>
      if unit_conflict u unit then Err UnitMismatch else Ok (NumInt v (Some unit))
  | NumDec m s u =>
      if unit_conflict u unit then Err UnitMismatch else Ok (NumDec m s (Some unit))
  | NumRat p q u =>
      if unit_conflict u unit then Err UnitMismatch else Ok (NumRat p q (Some unit))
  | NumBnd lo hi u =>
      if unit_conflict u unit then Err UnitMismatch else Ok (NumBnd lo hi (Some unit))
  end.

Definition assert_unit (n : Num) (unit : string) : result unc_error () :=
  match unit_of n with
  | Some x => if negb (String.eqb x unit) then Err UnitMismatch else Ok tt
  | None => Err UnitMissing
  end.

Fixpoint strip_unit (n : Num) : Num :=
  match n with
  | NumInt v _ => NumInt v None
  | NumDec m s _ => NumDec m s None
  | NumRat p q _ => NumRat p q None
  | NumBnd lo hi _ => NumBnd (strip_unit lo) (strip_unit hi) None
  end.

Definition set_unit (n : Num) (u : option string) : Num :=
  match n with
  | NumInt v _ => NumInt v u
  | NumDec m s _ => NumDec m s u
  | NumRat p q _ => NumRat p q u
  | NumBnd lo hi _ => NumBnd lo hi u
  end.

(** Promotion rank: INT=0, DEC=1, RAT=2, BND=3. *)
Definition rank (n : Num) : Z :=
  match n with NumInt _ _ => 0 | NumDec _ _ _ => 1 | NumRat _ _ _ => 2 | NumBnd _ _ _ => 3 end.

Definition check_units (a b : Num) : result unc_error (option string) :=
  match unit_of a, unit_of b with
  | None, None => Ok None
  | Some x, None | None, Some x => Ok (Some x)
  | Some x, Some y => if String.eqb x y then Ok (Some x) else Err (UnitMismatchVs x y)
  end.

Section Arith.
Context {B : BigNum}.

(** ** Conversions to and from rationals *)

Definition parse_bigint (s : string) : result unc_error Z :=
  ok_or (bigint_parse s) (InvalidBigint s).

Definition to_rational (n : Num) : result unc_error ratio :=
  match n with
  | NumInt v _ => i ← parse_bigint v; Ok (ratio_from_integer i)
  | NumDec m s _ =>
      mantissa ← parse_bigint m;
      ok_or (ratio_new mantissa (10 ^ s)) Panic
  | NumRat p q _ =>
      num ← parse_bigint p;
      den ← parse_bigint q;
      if den =? 0 then Err DivisionByZero else ok_or (ratio_new num den) Panic
  | NumBnd _ _ _ => Err CannotConvertBnd
  end.

Definition is_integer (r : ratio) : bool := denom r =? 1.

Definition rational_to_int (r : ratio) : option Num :=
  if is_integer r then Some (NumInt (bigint_to_string (numer r)) None) else None.

Definition rational_to_reduced_rat (r : ratio) : Num :=
  NumRat (bigint_to_string (numer r)) (bigint_to_string (denom r)) None.

(** ** Rounding; [BigInt] division truncates *)

Definition is_negative (z : Z) : bool := z <? 0.

Definition floor_div (n d : Z) : Z :=
  let '(q, r) := (Z.quot n d, Z.rem n d) in
  if negb (r =? 0) && negb (Bool.eqb (is_negative n) (is_negative d)) then q - 1 else q.

Definition ceil_div (n d : Z) : Z :=
  let '(q, r) := (Z.quot n d, Z.rem n d) in
  if negb (r =? 0) && Bool.eqb (is_negative n) (is_negative d) then q + 1 else q.

Definition half_up (n d : Z) : Z :=
  let abs_d := Z.abs d in
  let abs_n := Z.abs n in
  let '(q, r) := (Z.quot abs_n abs_d, Z.rem abs_n abs_d) in
  let doubled_r := r * 2 in
  let res := if abs_d <=? doubled_r then q + 1 else q in
  if is_negative n then - res else res.

Definition half_even (n d : Z) : Z :=
  let abs_d := Z.abs d in
  let abs_n := Z.abs n in
  let '(q, r) := (Z.quot abs_n abs_d, Z.rem abs_n abs_d) in
  let doubled_r := r * 2 in
  let res :=
    if abs_d <? doubled_r then q + 1
    else if doubled_r =? abs_d then (if Z.rem q 2 =? 0 then q else q + 1)
    else q in
  if is_negative n then - res else res.

Definition round_mantissa (scaled : ratio) (rm : RoundingMode) : Z :=
  let n := numer scaled in
  let d := denom scaled in
  match rm with
  | Down => if is_negative n then - Z.quot (- n) d else Z.quot n d
  | Up =>
      if is_integer scaled then n
      else if is_negative n then - Z.quot (- n + d - 1) d
      else Z.quot (n + d - 1) d
  | Floor => floor_div n d
  | Ceil => ceil_div n d
  | HalfUp => half_up n d
  | HalfEven => half_even n d
  end.

Definition round_rational_to_dec (r : ratio) (scale : Z) (rm : RoundingMode) : Num :=
  let factor := 10 ^ scale in
  let scaled := ratio_mul r (ratio_from_integer factor) in
  let m := round_mantissa scaled rm in
  NumDec (bigint_to_string m) scale None.

(** ** Decimal text *)

Definition all_dots_or_dashes (s : string) : bool :=
  forallb (fun c => (c =? 46) || (c =? 45)) (chars s).

Definition from_decimal_str (s : string) : result unc_error Num :=
  let neg := starts_with "-" s in
  let t := if neg then default ""%string (strip_prefix "-" s) else s in
  if String.eqb t "" || all_dots_or_dashes t then Err InvalidDecimal
  else
    match split_on "." t with
    | [p0] => Ok (NumDec (if neg then String "-" p0 else p0) 0 None)
    | [p0; p1] =>
        let m := String.append p0 p1 in
        let s := Z.of_nat (String.length p1) mod 2 ^ 32 in
        Ok (NumDec (if neg then String "-" m else m) s None)
    | _ => Err InvalidDecimal
    end.

(** ** The IEEE-754 frontier: an [f64] is its bit pattern *)

Definition f64_sign_bit (bits : Z) : Z := Z.shiftr bits 63.
Definition f64_biased_exp (bits : Z) : Z := Z.land (Z.shiftr bits 52) 0x7FF.
Definition f64_frac (bits : Z) : Z := Z.land bits 0x000FFFFFFFFFFFFF.
Definition f64_is_finite (bits : Z) : bool := negb (f64_biased_exp bits =? 0x7FF).
Definition f64_is_zero (bits : Z) : bool := (bits =? 0) || (bits =? 2 ^ 63).
(** [f > 0.0] for a finite non-zero [f]. *)
Definition f64_is_positive (bits : Z) : bool := f64_sign_bit bits =? 0.

Definition exact_f64_rational (bits : Z) : option ratio :=
  let sign := if f64_sign_bit bits =? 1 then -1 else 1 in
  let biased_exp := f64_biased_exp bits in
  let frac := f64_frac bits in
  let '(mantissa, exponent) :=
    if biased_exp =? 0 then (frac, -1074)
    else (Z.lor frac (Z.shiftl 1 52), biased_exp - 1023 - 52) in
  let signed_mantissa := sign * mantissa in
  if 0 <=? exponent then Some (ratio_from_integer (signed_mantissa * 2 ^ exponent))
  else ratio_new signed_mantissa (2 ^ (- exponent)).

Definition adjacent_f64 (bits : Z) : Z * Z :=
  if f64_is_positive bits then (bits - 1, bits + 1) else (bits + 1, bits - 1).

Definition zero_dec : Num := NumDec "0" 1 None.

Definition from_f64_bits (bits : Z) : result unc_error Num :=
  if negb (f64_is_finite bits) then Err NumericValueInvalid
  else if f64_is_zero bits then Ok (NumBnd zero_dec zero_dec None)
  else
    exact ← ok_or (exact_f64_rational bits) Panic;
    let '(prev_f, next_f) := adjacent_f64 bits in
    prev_exact ← ok_or (exact_f64_rational prev_f) Panic;
    next_exact ← ok_or (exact_f64_rational next_f) Panic;
    let two := ratio_from_integer 2 in
    lo_rat ← ok_or (ratio_div (ratio_add exact prev_exact) two) Panic;
    hi_rat ← ok_or (ratio_div (ratio_add exact next_exact) two) Panic;
    let lo_dec := round_rational_to_dec lo_rat 18 Floor in
    let hi_dec := round_rational_to_dec hi_rat 18 Ceil in
    Ok (NumBnd lo_dec hi_dec None).

(** ** Arithmetic *)

Inductive IntervalOp : Type := OpAdd | OpSub | OpMul | OpDiv.

Definition bnd_bounds (n : Num) : result unc_error (ratio * ratio) :=
  match n with
  | NumBnd lo hi _ =>
      lo_r ← to_rational lo;
      hi_r ← to_rational hi;
      Ok (lo_r, hi_r)
  | _ => r ← to_rational n; Ok (r, r)
  end.

(** [Iterator::min] and [Iterator::max] over [Ord]. *)
Definition ratio_min (x y : ratio) : ratio :=
  match ratio_cmp x y with Gt => y | _ => x end.
Definition ratio_max (x y : ratio) : ratio :=
  match ratio_cmp x y with Gt => x | _ => y end.
Definition min_of (l : list ratio) : option ratio :=
  match l with [] => None | x :: l' => Some (fold_left ratio_min l' x) end.
Definition max_of (l : list ratio) : option ratio :=
  match l with [] => None | x :: l' => Some (fold_left ratio_max l' x) end.

Definition ratio_zero : ratio := ratio_from_integer 0.
Definition ratio_leb (a b : ratio) : bool :=
  match ratio_cmp a b with Gt => false | _ => true end.
Definition ratio_ltb (a b : ratio) : bool :=
  match ratio_cmp a b with Lt => true | _ => false end.

Definition bnd_binary_op (a b : Num) (result_unit : option string) (op : IntervalOp)
  : result unc_error Num :=
  '(a_lo, a_hi) ← bnd_bounds a;
  '(b_lo, b_hi) ← bnd_bounds b;
  '(lo, hi) ←
    match op with
    | OpAdd => Ok (ratio_add a_lo b_lo, ratio_add a_hi b_hi)
    | OpSub => Ok (ratio_sub a_lo b_hi, ratio_sub a_hi b_lo)
    | OpMul =>
        let candidates := [ratio_mul a_lo b_lo; ratio_mul a_lo b_hi;
                           ratio_mul a_hi b_lo; ratio_mul a_hi b_hi] in
        lo ← ok_or (min_of candidates) IntervalMulEmpty;
        hi ← ok_or (max_of candidates) IntervalMulEmpty;
        Ok (lo, hi)
    | OpDiv =>
        if ratio_leb b_lo ratio_zero && ratio_leb ratio_zero b_hi then Err DivisionByZero
        else
          c1 ← ok_or (ratio_div a_lo b_lo) Panic;
          c2 ← ok_or (ratio_div a_lo b_hi) Panic;
          c3 ← ok_or (ratio_div a_hi b_lo) Panic;
          c4 ← ok_or (ratio_div a_hi b_hi) Panic;
          let candidates := [c1; c2; c3; c4] in
          lo ← ok_or (min_of candidates) IntervalDivEmpty;
          hi ← ok_or (max_of candidates) IntervalDivEmpty;
          Ok (lo, hi)
    end;
  let lo_dec := round_rational_to_dec lo 18 Floor in
  let hi_dec := round_rational_to_dec hi 18 Ceil in
  Ok (NumBnd lo_dec hi_dec result_unit).

Definition dec_scale (n : Num) : Z := match n with NumDec _ s _ => s | _ => 0 end.

(** The operator is partial: [BigRational] division panics on zero. *)
Definition binary_op (a b : Num) (interval_op : IntervalOp)
  (op : ratio -> ratio -> option ratio) : result unc_error Num :=
  result_unit ← check_units a b;
  if (rank a =? 3) || (rank b =? 3) then bnd_binary_op a b result_unit interval_op
  else
    ra ← to_rational (strip_unit a);
    rb ← to_rational (strip_unit b);
    res ← ok_or (op ra rb) Panic;
    let max_rank := Z.max (rank a) (rank b) in
    num ←
      match max_rank with
      | 0 => Ok (default (rational_to_reduced_rat res) (rational_to_int res))
      | 1 =>
          let max_s := Z.max (dec_scale a) (dec_scale b) in
          Ok (round_rational_to_dec res max_s HalfEven)
      | 2 => Ok (rational_to_reduced_rat res)
      | _ => Err Panic
      end;
    Ok (set_unit num result_unit).

Definition add (a b : Num) : result unc_error Num :=
  binary_op a b OpAdd (fun ra rb => Some (ratio_add ra rb)).
Definition sub (a b : Num) : result unc_error Num :=
  binary_op a b OpSub (fun ra rb => Some (ratio_sub ra rb)).
Definition mul (a b : Num) : result unc_error Num :=
  binary_op a b OpMul (fun ra rb => Some (ratio_mul ra rb)).
Definition div (a b : Num) : result unc_error Num :=
  rb ← to_rational (strip_unit b);
  if numer rb =? 0 then Err DivisionByZero
  else binary_op a b OpDiv ratio_div.

(** ** Conversions *)

Definition to_dec (a : Num) (scale : Z) (rm : RoundingMode) : result unc_error Num :=
  let unit := unit_of a in
  match a with
  | NumBnd lo hi _ =>
      lo_r ← to_rational lo;
      hi_r ← to_rational hi;
      let lo_dec := round_rational_to_dec lo_r scale Floor in
      let hi_dec := round_rational_to_dec hi_r scale Ceil in
      if bool_decide (lo_dec = hi_dec) then Ok (set_unit lo_dec unit) else Err BndTooWide
  | _ =>
      r ← to_rational a;
      Ok (set_unit (round_rational_to_dec r scale rm) unit)
  end.

Definition floor_bigrat (r : ratio) : Z := floor_div (numer r) (denom r).

(** The continued-fraction loop; [None] is the panic of [recip] or, with no
    fuel left, of no run at all ([approximate_fuel] is enough). *)
Fixpoint approximate_loop (fuel : nat) (p0 q0 p1 q1 : Z) (x : ratio) (limit : Z)
  : option (Z * Z) :=
  match fuel with
  | O => None
  | S f =>
      let a := floor_bigrat x in
      let p2 := a * p1 + p0 in
      let q2 := a * q1 + q0 in
      if limit <? q2 then Some (p1, q1)
      else
        let '(p0, q0, p1, q1) := (p1, q1, p2, q2) in
        let frac := ratio_sub x (ratio_from_integer a) in
        if numer frac =? 0 then Some (p1, q1)
        else
          match ratio_div (ratio_from_integer 1) frac with
          | Some x' => approximate_loop f p0 q0 p1 q1 x' limit
          | None => None
          end
  end.

(** The product of consecutive denominators doubles, and both stay below
    [2^64]: 132 iterations cover every [u64] limit. *)
Definition approximate_fuel : nat := 132.

Definition approximate_rational (r : ratio) (limit_den : Z) : option ratio :=
  match approximate_loop approximate_fuel 0 1 1 0 r limit_den with
  | Some (p1, q1) => ratio_new p1 q1
  | None => None
  end.

Definition to_rat (a : Num) (limit_den : Z) : result unc_error Num :=
  let unit := unit_of a in
  r ← to_rational a;
  if negb (denom r <=? u64_max) || (limit_den <? denom r) then
    approx ← ok_or (approximate_rational r limit_den) Panic;
    Ok (NumRat (bigint_to_string (numer approx)) (bigint_to_string (denom approx)) unit)
  else Ok (NumRat (bigint_to_string (numer r)) (bigint_to_string (denom r)) unit).

(** ** Comparison *)

Definition ordering_int (c : comparison) : Num :=
  NumInt (match c with Lt => "-1" | Eq => "0" | Gt => "1" end)%string None.

Definition compare (a b : Num) : result unc_error Num :=
  _ ← check_units a b;
  if (rank a =? 3) || (rank b =? 3) then
    '(a_lo, a_hi) ← bnd_bounds a;
    '(b_lo, b_hi) ← bnd_bounds b;
    if ratio_ltb a_hi b_lo then Ok (NumInt "-1" None)
    else if ratio_ltb b_hi a_lo then Ok (NumInt "1" None)
    else
      let two := ratio_from_integer 2 in
      a_mid ← ok_or (ratio_div (ratio_add a_lo a_hi) two) Panic;
      b_mid ← ok_or (ratio_div (ratio_add b_lo b_hi) two) Panic;
      Ok (ordering_int (ratio_cmp a_mid b_mid))
  else
    ra ← to_rational (strip_unit a);
    rb ← to_rational (strip_unit b);
    Ok (ordering_int (ratio_cmp ra rb)).
End Arith.
