(* ===== verification/Unc1Facts.v ===== *)
(** * Correctness of UNC-1 numerics

    Rounding meets its specification in all six modes; arithmetic on points
    is exact up to the documented decimal rounding; interval arithmetic and
    the IEEE-754 frontier enclose the exact result; the bounded-denominator
    approximation terminates within its limit. *)

From S2P Require Import Prelude RustStd BigNum Unc1.

Ltac zdiv := Z.to_euclidean_division_equations; nia.

(** ** Rounding of [n / d] to an integer *)

(** [m] is [q] rounded in mode [rm]. *)
Definition rounded (rm : RoundingMode) (q : Q) (m : Z) : Prop :=
  let below := (inject_Z m <= q < inject_Z (m + 1))%Q in
  let above := (inject_Z (m - 1) < q <= inject_Z m)%Q in
  let near := (inject_Z (2 * m - 1) <= 2 * q <= inject_Z (2 * m + 1))%Q in
  match rm with
  | Floor => below
  | Ceil => above
  | Down => ((0 <= q)%Q -> below) /\ ((q < 0)%Q -> above)
  | Up => ((0 <= q)%Q -> above) /\ ((q < 0)%Q -> below)
  | HalfUp =>
      near /\ ((2 * q == inject_Z (2 * m - 1))%Q -> (0 <= q)%Q)
           /\ ((2 * q == inject_Z (2 * m + 1))%Q -> (q <= 0)%Q)
  | HalfEven =>
      near /\ ((2 * q == inject_Z (2 * m - 1))%Q \/ (2 * q == inject_Z (2 * m + 1))%Q ->
               Z.Even m)
  end.

Lemma floor_div_spec n d : 0 < d -> floor_div n d * d <= n < (floor_div n d + 1) * d.
Proof.
  intros Hd. unfold floor_div, is_negative.
  destruct (Z.ltb_spec d 0); [lia|].
  destruct (Z.eqb_spec (Z.rem n d) 0), (Z.ltb_spec n 0); cbn; zdiv.
Qed.

Lemma ceil_div_spec n d : 0 < d -> (ceil_div n d - 1) * d < n <= ceil_div n d * d.
Proof.
  intros Hd. unfold ceil_div, is_negative.
  destruct (Z.ltb_spec d 0); [lia|].
  destruct (Z.eqb_spec (Z.rem n d) 0), (Z.ltb_spec n 0); cbn; zdiv.
Qed.

Lemma half_up_spec n d :
  0 < d -> let m := half_up n d in
  (2 * m - 1) * d <= 2 * n <= (2 * m + 1) * d /\
  (2 * n = (2 * m - 1) * d -> 0 <= n) /\ (2 * n = (2 * m + 1) * d -> n <= 0).
Proof.
  intros Hd. unfold half_up, is_negative. rewrite (Z.abs_eq d) by lia.
  destruct (Z.leb_spec d (Z.rem (Z.abs n) d * 2)), (Z.ltb_spec n 0); cbv zeta; zdiv.
Qed.

Lemma half_even_spec n d :
  0 < d -> let m := half_even n d in
  (2 * m - 1) * d <= 2 * n <= (2 * m + 1) * d /\
  (2 * n = (2 * m - 1) * d \/ 2 * n = (2 * m + 1) * d -> Z.Even m).
Proof.
  intros Hd. unfold half_even, is_negative. rewrite (Z.abs_eq d) by lia.
  assert (forall k, Z.rem k 2 = 0 -> Z.Even k) as Hev.
  { intros k Hk. exists (Z.quot k 2). pose proof (Z.quot_rem' k 2). lia. }
  assert (forall k, 0 <= k -> Z.rem k 2 <> 0 -> Z.Even (k + 1)) as Hodd.
  { intros k Hk0 Hk. exists (Z.quot k 2 + 1). pose proof (Z.quot_rem' k 2).
    pose proof (Z.rem_bound_pos k 2 Hk0 ltac:(lia)). lia. }
  assert (forall k, Z.Even k -> Z.Even (- k)) as Hopp by (intros k [j ->]; exists (- j); lia).
  set (a := Z.abs n). assert (0 <= a) by (unfold a; lia).
  pose proof (Z.quot_rem' a d) as Hqr. pose proof (Z.rem_bound_pos a d ltac:(lia) Hd).
  assert (0 <= Z.quot a d) by (apply Z.quot_pos; lia).
  set (q := Z.quot a d) in *. set (r := Z.rem a d) in *.
  destruct (Z.ltb_spec d (r * 2)) as [|]; [|destruct (Z.eqb_spec (r * 2) d)];
    [|destruct (Z.eqb_spec (Z.rem q 2) 0)|];
    destruct (Z.ltb_spec n 0) as [Hn|Hn]; cbv zeta;
    first [assert (a = - n) as Ha by (unfold a; lia) | assert (a = n) as Ha by (unfold a; lia)];
    (split; [nia|intros Htie]);
    first [by apply Hopp, Hev | by apply Hev | by apply Hopp, Hodd | by apply Hodd
          | exfalso; nia].
Qed.

(** ** Rounding of rationals *)

Section Rounding.
Context {B : BigNum} {HB : BigNumLaws B}.

Lemma int_le_2Q (r : ratio) z : (inject_Z z <= 2 * ratio_Q r)%Q <-> z * denom r <= 2 * numer r.
Proof.
  unfold ratio_Q, Qle. cbn [inject_Z Qnum Qden Qmult].
  rewrite Pos2Z.inj_mul, Z2Pos.id by apply denom_pos. lia.
Qed.
Lemma twoQ_le_int (r : ratio) z : (2 * ratio_Q r <= inject_Z z)%Q <-> 2 * numer r <= z * denom r.
Proof.
  unfold ratio_Q, Qle. cbn [inject_Z Qnum Qden Qmult].
  rewrite Pos2Z.inj_mul, Z2Pos.id by apply denom_pos. lia.
Qed.
Lemma twoQ_eq_int (r : ratio) z : (2 * ratio_Q r == inject_Z z)%Q <-> 2 * numer r = z * denom r.
Proof.
  unfold ratio_Q, Qeq. cbn [inject_Z Qnum Qden Qmult].
  rewrite Pos2Z.inj_mul, Z2Pos.id by apply denom_pos. lia.
Qed.
Lemma zero_le_Q (r : ratio) : (0 <= ratio_Q r)%Q <-> 0 <= numer r.
Proof. change 0%Q with (inject_Z 0). rewrite ratio_Q_le_int. lia. Qed.
Lemma Q_lt_zero (r : ratio) : (ratio_Q r < 0)%Q <-> numer r < 0.
Proof. change 0%Q with (inject_Z 0). rewrite ratio_Q_int_lt. lia. Qed.
Lemma Q_le_zero (r : ratio) : (ratio_Q r <= 0)%Q <-> numer r <= 0.
Proof. change 0%Q with (inject_Z 0). rewrite ratio_Q_int_le. lia. Qed.

Lemma round_mantissa_spec r rm : rounded rm (ratio_Q r) (round_mantissa r rm).
Proof.
  pose proof (denom_pos r) as Hd. unfold rounded, round_mantissa, is_integer, is_negative.
  destruct rm; rewrite ?int_le_2Q, ?twoQ_le_int, ?twoQ_eq_int, ?zero_le_Q, ?Q_lt_zero,
    ?Q_le_zero, ?ratio_Q_le_int, ?ratio_Q_int_le, ?ratio_Q_lt_int, ?ratio_Q_int_lt.
  - apply half_even_spec. done.
  - destruct (Z.ltb_spec (numer r) 0); zdiv.
  - destruct (Z.eqb_spec (denom r) 1) as [->|]; [lia|].
    destruct (Z.ltb_spec (numer r) 0); zdiv.
  - apply half_up_spec. done.
  - apply floor_div_spec. done.
  - apply ceil_div_spec. done.
Qed.

#[global] Instance rounded_proper rm : Proper (Qeq ==> eq ==> iff) (rounded rm).
Proof.
  intros q q' Hq m m' <-. unfold rounded. destruct rm; by setoid_rewrite Hq.
Qed.

(** A value that is already an integer is rounded to itself. *)
Lemma rounded_exact rm z m : rounded rm (inject_Z z) m -> m = z.
Proof.
  unfold rounded. change 0%Q with (inject_Z 0). change 2%Q with (inject_Z 2).
  destruct rm; rewrite <- ?inject_Z_mult, <- ?Zle_Qle, <- ?Zlt_Qlt; intros H; try lia.
  all: destruct H; destruct (Z.lt_ge_cases z 0); lia.
Qed.

Lemma pow10_pos s : 0 <= s -> 0 < 10 ^ s.
Proof. intros. apply Z.pow_pos_nonneg; lia. Qed.

(** The value of a decimal literal. *)
Definition dec_Q (m s : Z) : Q := m # Z.to_pos (10 ^ s).

Lemma dec_Q_scaled m s : 0 <= s -> (dec_Q m s * inject_Z (10 ^ s) == inject_Z m)%Q.
Proof.
  intros Hs. unfold dec_Q, Qeq. cbn [inject_Z Qnum Qden Qmult].
  rewrite Pos2Z.inj_mul, Z2Pos.id by (by apply pow10_pos). lia.
Qed.

Lemma round_rational_to_dec_spec r s rm :
  exists m, round_rational_to_dec r s rm = NumDec (bigint_to_string m) s None /\
    rounded rm (ratio_Q r * inject_Z (10 ^ s)) m.
Proof.
  eexists. split; [reflexivity|].
  rewrite <- from_integer_Q, <- mul_Q. apply round_mantissa_spec.
Qed.

(** ** Values of numbers *)

(** The rational a point number denotes. *)
Definition num_value (n : Num) (q : Q) : Prop :=
  exists r, to_rational n = Ok r /\ (ratio_Q r == q)%Q.

(** The rationals a number stands for: one for a point, an interval for a
    bound. *)
Definition num_contains (n : Num) (q : Q) : Prop :=
  match n with
  | NumBnd lo hi _ => exists l h, num_value lo l /\ num_value hi h /\ (l <= q <= h)%Q
  | _ => num_value n q
  end.

#[global] Instance num_value_proper n : Proper (Qeq ==> iff) (num_value n).
Proof. intros q q' Hq. unfold num_value. by setoid_rewrite Hq. Qed.

Lemma dec_value m s u : 0 <= s -> num_value (NumDec (bigint_to_string m) s u) (dec_Q m s).
Proof.
  intros Hs. unfold num_value, to_rational, parse_bigint. rewrite parse_to_string. cbn.
  pose proof (pow10_pos s Hs). destruct (ratio_new_ok m (10 ^ s)) as (r & E & _); [lia|].
  exists r. rewrite E. split; [done|]. by apply new_Q.
Qed.

Lemma num_value_fun n q q' : num_value n q -> num_value n q' -> (q == q')%Q.
Proof. intros (r & E & <-) (r' & E' & <-). rewrite E in E'. by injection E' as <-. Qed.

Lemma strip_unit_value n : rank n <> 3 -> to_rational (strip_unit n) = to_rational n.
Proof. by destruct n. Qed.

(** Rounding down and up encloses. *)
Lemma floor_dec_le r s :
  0 <= s -> exists q, num_value (round_rational_to_dec r s Floor) q /\ (q <= ratio_Q r)%Q.
Proof.
  intros Hs. destruct (round_rational_to_dec_spec r s Floor) as (m & -> & Hm & _).
  exists (dec_Q m s). split; [by apply dec_value|].
  apply Qmult_lt_0_le_reg_r with (inject_Z (10 ^ s)).
  { change 0%Q with (inject_Z 0). rewrite <- Zlt_Qlt. by apply pow10_pos. }
  by rewrite dec_Q_scaled.
Qed.
Lemma ceil_dec_ge r s :
  0 <= s -> exists q, num_value (round_rational_to_dec r s Ceil) q /\ (ratio_Q r <= q)%Q.
Proof.
  intros Hs. destruct (round_rational_to_dec_spec r s Ceil) as (m & -> & _ & Hm).
  exists (dec_Q m s). split; [by apply dec_value|].
  apply Qmult_lt_0_le_reg_r with (inject_Z (10 ^ s)).
  { change 0%Q with (inject_Z 0). rewrite <- Zlt_Qlt. by apply pow10_pos. }
  by rewrite dec_Q_scaled.
Qed.

Lemma enclose lo hi u q :
  (ratio_Q lo <= q <= ratio_Q hi)%Q ->
  num_contains (NumBnd (round_rational_to_dec lo 18 Floor) (round_rational_to_dec hi 18 Ceil) u) q.
Proof.
  intros [Hl Hh]. destruct (floor_dec_le lo 18) as (l & Hl1 & Hl2); [lia|].
  destruct (ceil_dec_ge hi 18) as (h & Hh1 & Hh2); [lia|].
  exists l, h. split_and!; [done..| |]; eapply Qle_trans; eauto.
Qed.
End Rounding.

(** ** Arithmetic *)

Definition op_Q (op : IntervalOp) (x y : Q) : Q :=
  match op with OpAdd => x + y | OpSub => x - y | OpMul => x * y | OpDiv => x / y end.

Definition num_op {B : BigNum} (op : IntervalOp) : Num -> Num -> result unc_error Num :=
  match op with OpAdd => add | OpSub => sub | OpMul => mul | OpDiv => div end.

Definition scale_ok (n : Num) : Prop := 0 <= dec_scale n.

(** Products over a box are bounded by the corner products. *)
Lemma Qmul_corner_le a b x y :
  (a <= x <= b -> x * y <= a * y \/ x * y <= b * y)%Q.
Proof.
  intros [H1 H2]. destruct (Qlt_le_dec 0 y) as [Hy|Hy].
  - right. apply Qmult_le_compat_r; [done|]. by apply Qlt_le_weak.
  - left. nra.
Qed.
Lemma Qmul_corner_ge a b x y :
  (a <= x <= b -> a * y <= x * y \/ b * y <= x * y)%Q.
Proof.
  intros [H1 H2]. destruct (Qlt_le_dec 0 y) as [Hy|Hy].
  - left. apply Qmult_le_compat_r; [done|]. by apply Qlt_le_weak.
  - right. nra.
Qed.
Lemma Qmul_box_le a b c d x y hi :
  (a <= x <= b -> c <= y <= d -> a * c <= hi -> a * d <= hi -> b * c <= hi -> b * d <= hi ->
   x * y <= hi)%Q.
Proof.
  intros Hx Hy H1 H2 H3 H4.
  destruct (Qmul_corner_le a b x y Hx) as [H|H]; (eapply Qle_trans; [exact H|]);
    rewrite (Qmult_comm _ y);
    (destruct (Qmul_corner_le c d y a Hy), (Qmul_corner_le c d y b Hy));
    first [eapply Qle_trans; [eassumption|]; rewrite Qmult_comm; assumption].
Qed.
Lemma Qmul_box_ge a b c d x y lo :
  (a <= x <= b -> c <= y <= d -> lo <= a * c -> lo <= a * d -> lo <= b * c -> lo <= b * d ->
   lo <= x * y)%Q.
Proof.
  intros Hx Hy H1 H2 H3 H4.
  destruct (Qmul_corner_ge a b x y Hx) as [H|H]; (eapply Qle_trans; [|exact H]);
    rewrite (Qmult_comm _ y);
    (destruct (Qmul_corner_ge c d y a Hy), (Qmul_corner_ge c d y b Hy));
    first [eapply Qle_trans; [|eassumption]; rewrite Qmult_comm; assumption].
Qed.

Lemma Qinv_antitone c y : (0 < c -> c <= y -> / y <= / c)%Q.
Proof.
  intros Hc Hy. assert (0 < y)%Q by (eapply Qlt_le_trans; eauto).
  apply Qle_shift_inv_r; [done|]. rewrite Qmult_comm. by apply Qle_shift_div_l; [|rewrite Qmult_1_l].
Qed.
Lemma Qinv_box c d y :
  (c <= y <= d -> 0 < c \/ d < 0 -> / d <= / y <= / c)%Q.
Proof.
  intros [H1 H2] [Hc|Hd].
  - split; apply Qinv_antitone; try done. eapply Qlt_le_trans; eauto.
  - assert (forall z, (/ z == - / (- z))%Q) as Hneg.
    { intros [[|p|p] q]; reflexivity. }
    rewrite (Hneg d), (Hneg y), (Hneg c).
    split; apply Qopp_le_compat, Qinv_antitone; try lra.
Qed.

Section ArithFacts.
Context {B : BigNum} {HB : BigNumLaws B}.

Lemma ratio_min_le x y : (ratio_Q (ratio_min x y) <= ratio_Q x)%Q /\ (ratio_Q (ratio_min x y) <= ratio_Q y)%Q.
Proof.
  unfold ratio_min. rewrite cmp_Q. destruct (Qcompare_spec (ratio_Q x) (ratio_Q y)); split; lra.
Qed.
Lemma ratio_max_ge x y : (ratio_Q x <= ratio_Q (ratio_max x y))%Q /\ (ratio_Q y <= ratio_Q (ratio_max x y))%Q.
Proof.
  unfold ratio_max. rewrite cmp_Q. destruct (Qcompare_spec (ratio_Q x) (ratio_Q y)); split; lra.
Qed.
Lemma fold_min_le l x y : y ∈ x :: l -> (ratio_Q (fold_left ratio_min l x) <= ratio_Q y)%Q.
Proof.
  revert x y. induction l as [|z l IH]; cbn; intros x y Hy.
  - apply elem_of_cons in Hy as [->|Hy%elem_of_nil]; [apply Qle_refl|done].
  - pose proof (IH (ratio_min x z) (ratio_min x z) ltac:(left)). destruct (ratio_min_le x z).
    apply elem_of_cons in Hy as [->|[->|Hy]%elem_of_cons]; [lra|lra|].
    apply IH. by right.
Qed.
Lemma fold_max_ge l x y : y ∈ x :: l -> (ratio_Q y <= ratio_Q (fold_left ratio_max l x))%Q.
Proof.
  revert x y. induction l as [|z l IH]; cbn; intros x y Hy.
  - apply elem_of_cons in Hy as [->|Hy%elem_of_nil]; [apply Qle_refl|done].
  - pose proof (IH (ratio_max x z) (ratio_max x z) ltac:(left)). destruct (ratio_max_ge x z).
    apply elem_of_cons in Hy as [->|[->|Hy]%elem_of_cons]; [lra|lra|].
    apply IH. by right.
Qed.

Lemma bnd_bounds_contains n lo hi q :
  bnd_bounds n = Ok (lo, hi) -> num_contains n q -> (ratio_Q lo <= q <= ratio_Q hi)%Q.
Proof.
  destruct n as [v u|m s u|p d u|l h u]; cbn [bnd_bounds num_contains]; intros E.
  1-3: apply result_bind_ok in E as (r & E & [= <- <-]); intros (r' & E' & <-);
    rewrite E in E'; injection E' as <-; split; apply Qle_refl.
  intros (ql & qh & (rl & El & <-) & (rh & Eh & <-) & Hq).
  rewrite El, Eh in E. cbn in E. by injection E as <- <-.
Qed.

(** Interval arithmetic encloses the exact result, for every operation. *)
Lemma bnd_binary_op_sound op a b u c x y :
  bnd_binary_op a b u op = Ok c -> num_contains a x -> num_contains b y ->
  num_contains c (op_Q op x y).
Proof.
  unfold bnd_binary_op. intros H Ha Hb.
  apply result_bind_ok in H as ([a_lo a_hi] & Ea & H).
  apply result_bind_ok in H as ([b_lo b_hi] & Eb & H).
  apply result_bind_ok in H as ([lo hi] & E & [= <-]).
  pose proof (bnd_bounds_contains _ _ _ _ Ea Ha) as Hx.
  pose proof (bnd_bounds_contains _ _ _ _ Eb Hb) as Hy.
  apply enclose. destruct op; cbn [op_Q].
  - injection E as <- <-. rewrite !add_Q. lra.
  - injection E as <- <-. rewrite !sub_Q. lra.
  - injection E as <- <-. split.
    + eapply Qmul_box_ge; [exact Hx|exact Hy|..]; rewrite <- mul_Q; apply (fold_min_le [_; _; _]);
        set_solver.
    + eapply Qmul_box_le; [exact Hx|exact Hy|..]; rewrite <- mul_Q; apply (fold_max_ge [_; _; _]);
        set_solver.
  - destruct (ratio_leb b_lo ratio_zero && ratio_leb ratio_zero b_hi) eqn:Hz; [done|].
    assert (0 < ratio_Q b_lo \/ ratio_Q b_hi < 0)%Q as Hsign.
    { unfold ratio_leb, ratio_zero in Hz. rewrite !cmp_Q, from_integer_Q in Hz.
      destruct (Qcompare_spec (ratio_Q b_lo) (inject_Z 0)), (Qcompare_spec (inject_Z 0) (ratio_Q b_hi));
        try discriminate Hz; auto. }
    destruct (Qinv_box _ _ _ Hy Hsign) as [Hi1 Hi2].
    repeat (apply result_bind_ok in E as (? & ?E & E)). injection E as <- <-.
    assert (forall a b r, ok_or (ratio_div a b) Panic = Ok r -> (ratio_Q r == ratio_Q a * / ratio_Q b)%Q) as Hdiv.
    { intros a' b' r Hr. destruct (Z.eq_dec (numer b') 0) as [Hb0|Hb0].
      - rewrite div_zero in Hr by done. discriminate.
      - destruct (div_Q a' b' Hb0) as (r' & E' & HQ). rewrite E' in Hr. injection Hr as <-. done. }
    apply Hdiv in E0, E1, E2, E3. unfold Qdiv.
    injection E4 as <-. injection E5 as <-. split.
    + eapply Qmul_box_ge; [exact Hx|exact (conj Hi1 Hi2)|..]; 
        first [rewrite <- E0|rewrite <- E1|rewrite <- E2|rewrite <- E3]; apply (fold_min_le [_; _; _]);
        set_solver.
    + eapply Qmul_box_le; [exact Hx|exact (conj Hi1 Hi2)|..];
        first [rewrite <- E0|rewrite <- E1|rewrite <- E2|rewrite <- E3]; apply (fold_max_ge [_; _; _]);
        set_solver.
Qed.
Lemma div_ok (a b : ratio) :
  ~ (ratio_Q b == 0)%Q -> exists r, ratio_div a b = Some r /\ (ratio_Q r == ratio_Q a / ratio_Q b)%Q.
Proof.
  intros Hb. apply div_Q. intros H0. apply Hb.
  change 0%Q with (inject_Z 0). apply ratio_Q_int_eq. lia.
Qed.

Lemma numer_zero_Q (r : ratio) : numer r = 0 <-> (ratio_Q r == 0)%Q.
Proof. change 0%Q with (inject_Z 0). rewrite ratio_Q_int_eq. lia. Qed.

Lemma reduced_rat_value r u : num_value (set_unit (rational_to_reduced_rat r) u) (ratio_Q r).
Proof.
  unfold num_value, rational_to_reduced_rat. cbn. unfold parse_bigint.
  rewrite !parse_to_string. cbn. pose proof (denom_pos r) as Hd.
  destruct (Z.eqb_spec (denom r) 0); [lia|].
  destruct (ratio_new_ok (numer r) (denom r)) as (r' & E & _); [lia|]. rewrite E.
  exists r'. split; [done|]. rewrite (new_Q _ _ _ Hd E). done.
Qed.

Lemma int_value r u n :
  rational_to_int r = Some n -> num_value (set_unit n u) (ratio_Q r).
Proof.
  unfold rational_to_int, is_integer. destruct (Z.eqb_spec (denom r) 1) as [Hd|]; [|done].
  intros [= <-]. unfold num_value. cbn. unfold parse_bigint. rewrite parse_to_string. cbn.
  eexists. split; [done|]. rewrite from_integer_Q. symmetry. apply ratio_Q_int_eq. lia.
Qed.

(** The rational operation [binary_op] receives. *)
Definition op_ratio (op : IntervalOp) : ratio -> ratio -> option ratio :=
  match op with
  | OpAdd => fun a b => Some (ratio_add a b)
  | OpSub => fun a b => Some (ratio_sub a b)
  | OpMul => fun a b => Some (ratio_mul a b)
  | OpDiv => ratio_div
  end.

Lemma op_ratio_Q op a b :
  (op = OpDiv -> ~ (ratio_Q b == 0)%Q) ->
  exists r, op_ratio op a b = Some r /\ (ratio_Q r == op_Q op (ratio_Q a) (ratio_Q b))%Q.
Proof.
  intros Hdiv. destruct op; cbn.
  - eexists. split; [done|]. apply add_Q.
  - eexists. split; [done|]. apply sub_Q.
  - eexists. split; [done|]. apply mul_Q.
  - apply div_ok. auto.
Qed.

Lemma num_op_unfold op a b :
  num_op op a b =
  match op with
  | OpDiv =>
      rb ← to_rational (strip_unit b);
      if numer rb =? 0 then Err DivisionByZero else binary_op a b OpDiv ratio_div
  | _ => binary_op a b op (op_ratio op)
  end.
Proof. by destruct op. Qed.

Lemma rank_lt3 n : rank n < 3 -> rank n = 0 \/ rank n = 1 \/ rank n = 2.
Proof. destruct n; cbn; lia. Qed.

(** The result of an operation on points: exact when no operand is a
    decimal or one is a rational, else the exact result rounded half-even at
    the larger scale. *)
Definition point_result (op : IntervalOp) (a b c : Num) (q : Q) (u : option string) : Prop :=
  if Z.max (rank a) (rank b) =? 1 then
    exists m, c = NumDec (bigint_to_string m) (Z.max (dec_scale a) (dec_scale b)) u /\
      rounded HalfEven (q * inject_Z (10 ^ Z.max (dec_scale a) (dec_scale b))) m
  else num_value c q.

Lemma binary_op_point op a b x y u :
  rank a < 3 -> rank b < 3 -> check_units a b = Ok u ->
  num_value a x -> num_value b y -> (op = OpDiv -> ~ (y == 0)%Q) ->
  exists c, binary_op a b op (op_ratio op) = Ok c /\ unit_of c = u /\
    point_result op a b c (op_Q op x y) u.
Proof.
  intros Ha Hb Hu (ra & Ea & Hx) (rb & Eb & Hy) Hdiv.
  unfold binary_op. rewrite Hu. cbn [mbind result_bind].
  destruct (Z.eqb_spec (rank a) 3); [lia|]. destruct (Z.eqb_spec (rank b) 3); [lia|].
  cbn [orb]. rewrite !strip_unit_value by lia. rewrite Ea, Eb. cbn [mbind result_bind].
  destruct (op_ratio_Q op ra rb) as (r & -> & Hr).
  { intros Hop. rewrite Hy. auto. }
  assert (ratio_Q r == op_Q op x y)%Q as HQ.
  { rewrite Hr. destruct op; cbn; by rewrite Hx, Hy. }
  cbn [ok_or mbind result_bind]. unfold point_result.
  destruct (rank_lt3 a Ha) as [Ra|[Ra|Ra]], (rank_lt3 b Hb) as [Rb|[Rb|Rb]]; rewrite Ra, Rb;
    repeat match goal with |- context [Z.max ?i ?j] =>
      let k := eval vm_compute in (Z.max i j) in
      match k with context [dec_scale] => fail 1 | _ => change (Z.max i j) with k end end;
    cbn [mbind result_bind]; eexists; (split; [reflexivity|]); cbn [Z.eqb Pos.eqb].
  1: { destruct (rational_to_int r) eqn:Ei; cbn [default].
       - split; [by destruct n1|]. rewrite <- HQ. by apply int_value.
       - split; [done|]. rewrite <- HQ. apply reduced_rat_value. }
  all: try (split; [done|]; rewrite <- HQ; apply reduced_rat_value).
  all: split; [done|]; eexists; split; [reflexivity|];
    rewrite <- HQ, <- from_integer_Q, <- mul_Q; apply round_mantissa_spec.
Qed.

Lemma num_op_point op a b x y u :
  rank a < 3 -> rank b < 3 -> check_units a b = Ok u ->
  num_value a x -> num_value b y -> (op = OpDiv -> ~ (y == 0)%Q) ->
  exists c, num_op op a b = Ok c /\ unit_of c = u /\ point_result op a b c (op_Q op x y) u.
Proof.
  intros Ha Hb Hu Hx Hy Hdiv. rewrite num_op_unfold.
  pose proof (binary_op_point op a b x y u Ha Hb Hu Hx Hy Hdiv) as Hp.
  destruct op; try done. destruct Hy as (rb & Eb & Hy).
  rewrite strip_unit_value, Eb by lia. cbn [mbind result_bind].
  destruct (Z.eqb_spec (numer rb) 0) as [H0|]; [|done].
  apply numer_zero_Q in H0. rewrite Hy in H0. by destruct (Hdiv eq_refl).
Qed.
End ArithFacts.

(** ** The IEEE-754 frontier *)

(** The reference value of an [f64] bit pattern: an integer number of units
    in the last subnormal place, [2^-1074], with the sign of bit 63. *)
Definition f64_units (b : Z) : Z :=
  if b / 2 ^ 52 =? 0 then b mod 2 ^ 52
  else (2 ^ 52 + b mod 2 ^ 52) * 2 ^ (b / 2 ^ 52 - 1).
Definition f64_value (bits : Z) : Q :=
  (if bits <? 2 ^ 63 then f64_units bits else - f64_units (bits - 2 ^ 63)) # Z.to_pos (2 ^ 1074).

Lemma f64_units_mono b : 0 <= b -> f64_units b <= f64_units (b + 1).
Proof.
  intros Hb. unfold f64_units.
  assert (b / 2 ^ 52 = (b + 1) / 2 ^ 52 /\ b mod 2 ^ 52 + 1 = (b + 1) mod 2 ^ 52 \/
          (b + 1) / 2 ^ 52 = b / 2 ^ 52 + 1 /\ b mod 2 ^ 52 = 2 ^ 52 - 1 /\ (b + 1) mod 2 ^ 52 = 0)
    as Hc by (Z.to_euclidean_division_equations; lia).
  assert (0 <= b / 2 ^ 52) as He by (apply Z.div_pos; lia).
  pose proof (Z.mod_pos_bound b (2 ^ 52) eq_refl).
  set (e := b / 2 ^ 52) in *. set (f := b mod 2 ^ 52) in *.
  assert (0 < 2 ^ (e - 1) \/ e = 0) by (destruct (Z.eq_dec e 0); [by right|left; apply Z.pow_pos_nonneg; lia]).
  destruct Hc as [[<- <-]|(-> & -> & ->)].
  - destruct (Z.eqb_spec e 0); nia.
  - destruct (Z.eqb_spec (e + 1) 0); [lia|]. replace (e + 1 - 1) with e by ring.
    destruct (Z.eqb_spec e 0) as [->|]; [lia|].
    replace e with (1 + (e - 1)) at 2 by ring. rewrite Z.pow_add_r by lia. nia.
Qed.

Lemma f64_fields bits :
  0 <= bits < 2 ^ 64 ->
  let b := bits mod 2 ^ 63 in
  f64_sign_bit bits = bits / 2 ^ 63 /\ f64_biased_exp bits = b / 2 ^ 52 /\ f64_frac bits = b mod 2 ^ 52.
Proof.
  intros Hb. unfold f64_sign_bit, f64_biased_exp, f64_frac. cbv zeta.
  rewrite !Z.shiftr_div_pow2 by lia.
  change 0x7FF with (Z.ones 11). change 0x000FFFFFFFFFFFFF with (Z.ones 52).
  rewrite !Z.land_ones by lia. split_and!; [done|..]; Z.to_euclidean_division_equations; lia.
Qed.

Section F64.
Context {B : BigNum} {HB : BigNumLaws B}.

Lemma pow2_pos e : 0 <= e -> 0 < 2 ^ e.
Proof. intros. apply Z.pow_pos_nonneg; lia. Qed.

Lemma Qmake_eq n d n' d' : 0 < d -> 0 < d' -> n * d' = n' * d -> (n # Z.to_pos d == n' # Z.to_pos d')%Q.
Proof. intros Hd Hd' H. unfold Qeq. cbn. by rewrite !Z2Pos.id. Qed.

Lemma exact_f64_spec bits :
  0 <= bits < 2 ^ 64 ->
  exists r, exact_f64_rational bits = Some r /\ (ratio_Q r == f64_value bits)%Q.
Proof.
  intros Hb. destruct (f64_fields bits Hb) as (Hs & He & Hf).
  unfold exact_f64_rational, f64_value. rewrite Hs, He, Hf. unfold f64_units.
  set (b := bits mod 2 ^ 63) in *.
  assert (b = if bits <? 2 ^ 63 then bits else bits - 2 ^ 63) as Hbdef.
  { unfold b. destruct (Z.ltb_spec bits (2 ^ 63)); Z.to_euclidean_division_equations; lia. }
  assert ((bits / 2 ^ 63 =? 1) = negb (bits <? 2 ^ 63)) as ->.
  { destruct (Z.ltb_spec bits (2 ^ 63)); cbn [negb]; [apply Z.eqb_neq|apply Z.eqb_eq];
      Z.to_euclidean_division_equations; lia. }
  assert (0 <= b < 2 ^ 63) as Hb63 by (by apply Z.mod_pos_bound).
  assert (0 <= b / 2 ^ 52 < 2048) as Hexp by (Z.to_euclidean_division_equations; lia).
  pose proof (Z.mod_pos_bound b (2 ^ 52) eq_refl) as Hfr.
  rewrite (lor_shiftl_add (b mod 2 ^ 52) 1 52) by lia.
  set (sgn := if negb (bits <? 2 ^ 63) then -1 else 1).
  set (units := if b / 2 ^ 52 =? 0 then b mod 2 ^ 52
                else (2 ^ 52 + b mod 2 ^ 52) * 2 ^ (b / 2 ^ 52 - 1)).
  assert ((if bits <? 2 ^ 63 then f64_units bits else - f64_units (bits - 2 ^ 63)) = sgn * units) as Hv.
  { unfold f64_units, sgn, units. rewrite Hbdef.
    destruct (bits <? 2 ^ 63); cbn [negb]; ring. }
  unfold f64_units in Hv. rewrite Hv. clearbody sgn. unfold units. clear Hv units.
  pose proof (pow2_pos 1074 ltac:(lia)) as Hp.
  set (e := b / 2 ^ 52) in *. set (f := b mod 2 ^ 52) in *. clearbody b e f.
  destruct (Z.eqb_spec e 0) as [->|Hne].
  - destruct (Z.leb_spec 0 (-1074)); [lia|].
    change (- -1074) with 1074.
    destruct (ratio_new_ok (sgn * f) (2 ^ 1074)) as (r & E & _); [lia|].
    exists r. split; [done|]. by apply new_Q.
  - destruct (Z.leb_spec 0 (e - 1023 - 52)) as [H0|H0].
    + eexists. split; [reflexivity|]. rewrite from_integer_Q.
      change (inject_Z ?z) with (z # Z.to_pos 1). apply Qmake_eq; [lia|done|].
      replace (e - 1) with ((e - 1023 - 52) + 1074) by ring. rewrite Z.pow_add_r by lia. ring.
    + pose proof (pow2_pos (- (e - 1023 - 52)) ltac:(lia)) as Hq.
      destruct (ratio_new_ok (sgn * (f + 1 * 2 ^ 52)) (2 ^ (- (e - 1023 - 52)))) as (r & E & _); [lia|].
      exists r. split; [done|]. rewrite (new_Q _ _ _ Hq E). apply Qmake_eq; [done..|].
      replace 1074 with ((e - 1) + - (e - 1023 - 52)) at 1 by ring.
      rewrite (Z.pow_add_r 2 (e - 1)) by lia. ring.
Qed.

Lemma f64_value_le bits bits' :
  (if bits <? 2 ^ 63 then f64_units bits else - f64_units (bits - 2 ^ 63)) <=
  (if bits' <? 2 ^ 63 then f64_units bits' else - f64_units (bits' - 2 ^ 63)) ->
  (f64_value bits <= f64_value bits')%Q.
Proof.
  intros H. unfold f64_value, Qle. cbn [Qnum Qden].
  apply Z.mul_le_mono_nonneg_r; [|done]. apply Zle_0_pos.
Qed.

(** The neighbours of a finite non-zero [f64] enclose it. *)
Lemma adjacent_f64_order bits :
  0 <= bits < 2 ^ 64 -> f64_is_finite bits = true -> f64_is_zero bits = false ->
  let '(p, n) := adjacent_f64 bits in
  0 <= p < 2 ^ 64 /\ 0 <= n < 2 ^ 64 /\
  (f64_value p <= f64_value bits)%Q /\ (f64_value bits <= f64_value n)%Q.
Proof.
  intros Hb Hfin Hz. destruct (f64_fields bits Hb) as (Hs & He & _).
  unfold f64_is_finite in Hfin. apply negb_true_iff, Z.eqb_neq in Hfin. rewrite He in Hfin.
  unfold f64_is_zero in Hz. apply orb_false_elim in Hz as [Hz1%Z.eqb_neq Hz2%Z.eqb_neq].
  unfold adjacent_f64, f64_is_positive. rewrite Hs.
  destruct (Z.eqb_spec (bits / 2 ^ 63) 0) as [E|E].
  - assert (bits < 2 ^ 63) by (Z.to_euclidean_division_equations; lia).
    rewrite Z.mod_small in Hfin by lia.
    assert (bits + 1 < 2 ^ 63) by (Z.to_euclidean_division_equations; lia).
    split_and!; [lia..| |]; apply f64_value_le;
      repeat match goal with |- context [?x <? 2 ^ 63] => destruct (Z.ltb_spec x (2 ^ 63)); try lia end.
    + replace bits with (bits - 1 + 1) at 2 by ring. apply f64_units_mono. lia.
    + apply f64_units_mono. lia.
  - assert (2 ^ 63 <= bits) by (Z.to_euclidean_division_equations; lia).
    replace (bits mod 2 ^ 63) with (bits - 2 ^ 63) in Hfin by (Z.to_euclidean_division_equations; lia).
    assert (bits + 1 < 2 ^ 64) by (Z.to_euclidean_division_equations; lia).
    split_and!; [lia..| |]; apply f64_value_le;
      repeat match goal with |- context [?x <? 2 ^ 63] => destruct (Z.ltb_spec x (2 ^ 63)); try lia end.
    + apply -> Z.opp_le_mono. replace (bits + 1 - 2 ^ 63) with (bits - 2 ^ 63 + 1) by ring.
      apply f64_units_mono. lia.
    + apply -> Z.opp_le_mono. replace (bits - 2 ^ 63) with (bits - 1 - 2 ^ 63 + 1) by ring.
      apply f64_units_mono. lia.
Qed.

Lemma half_sum (a b : ratio) :
  exists r, ratio_div (ratio_add a b) (ratio_from_integer 2) = Some r /\
    (ratio_Q r == (ratio_Q a + ratio_Q b) / 2)%Q.
Proof.
  destruct (div_ok (ratio_add a b) (ratio_from_integer 2)) as (r & E & HQ).
  { rewrite from_integer_Q. done. }
  exists r. split; [done|]. by rewrite HQ, add_Q, from_integer_Q.
Qed.

Lemma from_f64_bits_finite bits :
  0 <= bits < 2 ^ 64 -> f64_is_finite bits = true ->
  exists lo hi, from_f64_bits bits = Ok (NumBnd lo hi None) /\
    num_contains (NumBnd lo hi None) (f64_value bits).
Proof.
  intros Hb Hfin. unfold from_f64_bits. rewrite Hfin. cbn [negb].
  destruct (f64_is_zero bits) eqn:Hz.
  - exists zero_dec, zero_dec. split; [done|].
    assert (num_value zero_dec (dec_Q 0 1)) as Hv.
    { pose proof (dec_value 0 1 None ltac:(lia)) as Hv. by rewrite to_string_decimal in Hv. }
    exists (dec_Q 0 1), (dec_Q 0 1). split_and!; [done..| |]; unfold f64_is_zero in Hz;
      (destruct (Z.eqb_spec bits 0) as [->|]; [by vm_compute|]);
      (destruct (Z.eqb_spec bits (2 ^ 63)) as [->|]; [by vm_compute|done]).
  - pose proof (adjacent_f64_order bits Hb Hfin Hz) as Hadj.
    destruct (exact_f64_spec bits Hb) as (r & -> & Hr). cbn [ok_or mbind result_bind].
    destruct (adjacent_f64 bits) as [p n]. destruct Hadj as (Hp & Hn & Hlo & Hhi).
    destruct (exact_f64_spec p Hp) as (rp & -> & Hrp). cbn [ok_or mbind result_bind].
    destruct (exact_f64_spec n Hn) as (rn & -> & Hrn). cbn [ok_or mbind result_bind].
    destruct (half_sum r rp) as (lo & -> & Hlo'). cbn [ok_or mbind result_bind].
    destruct (half_sum r rn) as (hi & -> & Hhi'). cbn [ok_or mbind result_bind].
    eexists _, _. split; [reflexivity|]. apply enclose.
    rewrite Hlo', Hhi', Hr, Hrp, Hrn.
    set (x := f64_value bits) in *. set (y := f64_value p) in *. set (z := f64_value n) in *.
    unfold Qdiv. change (/ 2)%Q with (1 # 2)%Q. lra.
Qed.
End F64.

(** ** Bounded-denominator approximation *)

Section Approx.
Context {B : BigNum} {HB : BigNumLaws B}.

Lemma floor_bigrat_spec (x : ratio) :
  (inject_Z (floor_bigrat x) <= ratio_Q x < inject_Z (floor_bigrat x + 1))%Q.
Proof.
  unfold floor_bigrat. rewrite ratio_Q_le_int, ratio_Q_int_lt.
  apply floor_div_spec, denom_pos.
Qed.

(** [p / q] approximates [R] with error below [1 / (q * limit)]. *)
Definition approximates (R : Q) (p q limit : Z) : Prop :=
  (-(1) < (R * inject_Z q - inject_Z p) * inject_Z limit < 1)%Q.

(** The convergent invariant: [R] is the tail [x] mapped through the last
    two convergents, whose determinant is a unit. *)
Definition convergents (R x : Q) (p0 q0 p1 q1 : Z) : Prop :=
  (R * (x * inject_Z q1 + inject_Z q0) == x * inject_Z p1 + inject_Z p0)%Q /\
  (p1 * q0 - p0 * q1 = 1 \/ p1 * q0 - p0 * q1 = -1).

Lemma convergents_step R (x x' : Q) a p0 q0 p1 q1 :
  convergents R x p0 q0 p1 q1 -> (x * x' == inject_Z a * x' + 1)%Q ->
  convergents R x' p1 q1 (a * p1 + p0) (a * q1 + q0).
Proof.
  intros [Hc Hd] Hx. split; [|lia].
  rewrite !inject_Z_plus, !inject_Z_mult.
  assert (R * (x' * (inject_Z a * inject_Z q1 + inject_Z q0) + inject_Z q1) ==
          x' * (R * (x * inject_Z q1 + inject_Z q0)) + R * inject_Z q1 * (inject_Z a * x' + 1 - x * x'))%Q
    as -> by ring.
  rewrite Hc, Hx. ring_simplify.
  assert (x' * x * inject_Z p1 == (x * x') * inject_Z p1)%Q as -> by ring. rewrite Hx. ring.
Qed.

(** Stopping because the next denominator exceeds the limit. *)
Lemma convergents_stop R x a p0 q0 p1 q1 limit :
  convergents R x p0 q0 p1 q1 -> (inject_Z a <= x)%Q -> 0 <= q1 -> 0 < limit ->
  limit < a * q1 + q0 -> approximates R p1 q1 limit.
Proof.
  intros [Hc Hd] Ha Hq1 Hl Hlim. unfold approximates.
  set (den := (x * inject_Z q1 + inject_Z q0)%Q) in *.
  assert (inject_Z limit < den)%Q as Hden.
  { apply Qlt_le_trans with (inject_Z (a * q1 + q0)); [by rewrite <- Zlt_Qlt|].
    rewrite inject_Z_plus, inject_Z_mult. unfold den. apply Qplus_le_compat; [|apply Qle_refl].
    apply Qmult_le_compat_r; [done|]. change 0%Q with (inject_Z 0). by rewrite <- Zle_Qle. }
  assert ((R * inject_Z q1 - inject_Z p1) * den == inject_Z (p0 * q1 - p1 * q0))%Q as Hprod.
  { assert ((R * inject_Z q1 - inject_Z p1) * den ==
            R * den * inject_Z q1 - inject_Z p1 * den)%Q as -> by ring.
    rewrite Hc. unfold den. unfold Z.sub. rewrite inject_Z_plus, inject_Z_opp, !inject_Z_mult. ring. }
  assert (0 < inject_Z limit)%Q as Hl0 by (change 0%Q with (inject_Z 0); by rewrite <- Zlt_Qlt).
  set (e := (R * inject_Z q1 - inject_Z p1)%Q) in *. set (L := inject_Z limit) in *. clearbody e L den.
  assert (e * den == 1 \/ e * den == -(1))%Q as [He|He].
  { rewrite Hprod. destruct Hd as [Hd|Hd]; [right|left];
      (replace (p0 * q1 - p1 * q0) with (- (p1 * q0 - p0 * q1)) by ring); rewrite Hd; done. }
  - split; nra.
  - split; nra.
Qed.

(** The reciprocal of a proper fractional part exceeds one. *)
Lemma recip_frac (x : ratio) :
  let a := floor_bigrat x in
  let fr := ratio_sub x (ratio_from_integer a) in
  (numer fr = 0 /\ (ratio_Q x == inject_Z a)%Q) \/
  (numer fr <> 0 /\ exists x', ratio_div (ratio_from_integer 1) fr = Some x' /\
    (1 < ratio_Q x')%Q /\ (ratio_Q x * ratio_Q x' == inject_Z a * ratio_Q x' + 1)%Q).
Proof.
  cbv zeta. destruct (floor_bigrat_spec x) as [Ha1 Ha2]. set (a := floor_bigrat x) in *.
  pose proof (sub_Q x (ratio_from_integer a)) as Hfrac. rewrite from_integer_Q in Hfrac.
  set (fr := ratio_sub x (ratio_from_integer a)) in *.
  destruct (Z.eq_dec (numer fr) 0) as [H0|H0]; [left|right]; (split; [done|]).
  { apply numer_zero_Q in H0. rewrite H0 in Hfrac. lra. }
  assert (~ ratio_Q fr == 0)%Q as Hne by (by rewrite <- numer_zero_Q).
  destruct (div_ok (ratio_from_integer 1) fr Hne) as (x' & E & Hx').
  exists x'. split; [done|]. rewrite from_integer_Q in Hx'.
  rewrite inject_Z_plus in Ha2. change (inject_Z 1) with 1%Q in *.
  assert (0 < ratio_Q fr < 1)%Q as [Hf0 Hf1].
  { split; [|lra]. destruct (Qlt_le_dec 0 (ratio_Q fr)); [done|]. exfalso. apply Hne. lra. }
  split; rewrite Hx'.
  - apply Qlt_shift_div_l; [done|]. lra.
  - assert (ratio_Q x == ratio_Q fr + inject_Z a)%Q as -> by lra. field. done.
Qed.

Lemma floor_ge_1 (x : ratio) : (1 < ratio_Q x)%Q -> 1 <= floor_bigrat x.
Proof.
  intros Hx. destruct (floor_bigrat_spec x) as [_ Ha2].
  assert (inject_Z 1 < inject_Z (floor_bigrat x + 1))%Q as Hlt
    by (eapply Qlt_trans; [exact Hx|exact Ha2]).
  rewrite <- Zlt_Qlt in Hlt. lia.
Qed.

Lemma exact_approximates R p q limit :
  (R * inject_Z q == inject_Z p)%Q -> approximates R p q limit.
Proof. intros H. unfold approximates. rewrite H. lra. Qed.

Lemma approximate_loop_S f p0 q0 p1 q1 x limit :
  approximate_loop (S f) p0 q0 p1 q1 x limit =
  let a := floor_bigrat x in
  if limit <? a * q1 + q0 then Some (p1, q1)
  else
    let frac := ratio_sub x (ratio_from_integer a) in
    if numer frac =? 0 then Some (a * p1 + p0, a * q1 + q0)
    else
      match ratio_div (ratio_from_integer 1) frac with
      | Some x' => approximate_loop f p1 q1 (a * p1 + p0) (a * q1 + q0) x' limit
      | None => None
      end.
Proof. reflexivity. Qed.

(** The loop from the third iteration on: consecutive denominators are
    positive and their product has doubled [k] times. *)
Lemma approximate_loop_spec R fuel k p0 q0 p1 q1 x limit :
  convergents R (ratio_Q x) p0 q0 p1 q1 -> (1 < ratio_Q x)%Q ->
  1 <= q0 <= q1 -> q1 <= limit -> limit <= u64_max ->
  2 ^ Z.of_nat k <= q0 * q1 -> (129 <= fuel + k)%nat ->
  exists p q, approximate_loop fuel p0 q0 p1 q1 x limit = Some (p, q) /\
    1 <= q <= limit /\ approximates R p q limit.
Proof.
  revert k p0 q0 p1 q1 x. induction fuel as [|f IH]; intros k p0 q0 p1 q1 x Hc Hx Hq Hl Hu Hk Hf.
  { assert (2 ^ 129 <= 2 ^ Z.of_nat k) by (apply Z.pow_le_mono_r; lia).
    unfold u64_max in Hu. assert (q0 * q1 <= limit * limit) by nia. nia. }
  rewrite approximate_loop_S. cbv beta iota zeta.
  pose proof (floor_ge_1 x Hx) as Ha. destruct (floor_bigrat_spec x) as [Ha1 _].
  pose proof (recip_frac x) as Hr. cbv zeta in Hr. set (a := floor_bigrat x) in *.
  destruct (Z.ltb_spec limit (a * q1 + q0)) as [Hlim|Hlim].
  { exists p1, q1. split; [done|]. split; [lia|]. by eapply convergents_stop; eauto; lia. }
  destruct Hr as [[H0 He]|(H0 & x' & -> & Hx' & Hstep)].
  { rewrite (proj2 (Z.eqb_eq _ _) H0). eexists _, _. split; [reflexivity|]. split; [nia|].
    apply exact_approximates. destruct Hc as [Hc _]. rewrite He in Hc.
    rewrite !inject_Z_plus, !inject_Z_mult. exact Hc. }
  rewrite (proj2 (Z.eqb_neq _ _) H0). apply (IH (S k)); [..|lia].
  - by eapply convergents_step.
  - done.
  - nia.
  - done.
  - done.
  - rewrite Nat2Z.inj_succ, Z.pow_succ_r by lia. nia.
Qed.
Lemma approximate_rational_spec (r : ratio) limit :
  1 <= limit <= u64_max ->
  exists p q, approximate_loop approximate_fuel 0 1 1 0 r limit = Some (p, q) /\
    1 <= q <= limit /\ approximates (ratio_Q r) p q limit.
Proof.
  intros Hl. set (R := ratio_Q r).
  assert (convergents R (ratio_Q r) 0 1 1 0) as Hc0.
  { split; [|lia]. unfold R. change (inject_Z 0) with 0%Q. change (inject_Z 1) with 1%Q. ring. }
  change approximate_fuel with (S (S 130)). rewrite approximate_loop_S. cbv beta iota zeta.
  pose proof (recip_frac r) as Hr1. cbv zeta in Hr1.
  set (a1 := floor_bigrat r) in *.
  destruct (Z.ltb_spec limit (a1 * 0 + 1)); [lia|].
  destruct Hr1 as [[H0 He]|(H0 & x' & -> & Hx' & Hstep)].
  { rewrite (proj2 (Z.eqb_eq _ _) H0). eexists _, _. split; [reflexivity|]. split; [lia|].
    apply exact_approximates. fold R in He. rewrite He.
    replace (a1 * 0 + 1) with 1 by ring. replace (a1 * 1 + 0) with a1 by ring.
    change (inject_Z 1) with 1%Q. ring. }
  rewrite (proj2 (Z.eqb_neq _ _) H0).
  pose proof (convergents_step _ _ _ _ _ _ _ _ Hc0 Hstep) as Hc1. fold a1 in Hc1.
  replace (a1 * 0 + 1) with 1 in * by ring. replace (a1 * 1 + 0) with a1 in * by ring.
  rewrite approximate_loop_S. cbv beta iota zeta.
  pose proof (floor_ge_1 x' Hx') as Ha2. destruct (floor_bigrat_spec x') as [Hfl _].
  pose proof (recip_frac x') as Hr2. cbv zeta in Hr2. set (a2 := floor_bigrat x') in *.
  destruct (Z.ltb_spec limit (a2 * 1 + 0)) as [Hlim|Hlim].
  { exists a1, 1. split; [done|]. split; [lia|].
    by eapply convergents_stop; [exact Hc1|exact Hfl|lia..]. }
  destruct Hr2 as [[H0' He]|(H0' & x'' & -> & Hx'' & Hstep2)].
  { rewrite (proj2 (Z.eqb_eq _ _) H0'). eexists _, _. split; [reflexivity|]. split; [lia|].
    apply exact_approximates. destruct Hc1 as [Hc1 _]. rewrite He in Hc1.
    rewrite !inject_Z_plus, !inject_Z_mult. exact Hc1. }
  rewrite (proj2 (Z.eqb_neq _ _) H0').
  pose proof (convergents_step _ _ _ _ _ _ _ _ Hc1 Hstep2) as Hc2. fold a2 in Hc2.
  apply (approximate_loop_spec R 130 0); [done|done|lia|lia|lia|change (2 ^ Z.of_nat 0) with 1; lia|lia].
Qed.

Lemma ratio_new_reduces p q r :
  1 <= q -> ratio_new p q = Some r -> denom r <= q /\ (ratio_Q r * inject_Z q == inject_Z p)%Q.
Proof.
  intros Hq E. destruct (ratio_new_ok p q) as (r' & E' & HQ); [lia|].
  rewrite E in E'. injection E' as <-. split; [|done].
  pose proof (denom_pos r) as Hd.
  assert (numer r * q = p * denom r) as Hcross.
  { unfold ratio_Q, Qeq in HQ. cbn [Qmult inject_Z Qnum Qden] in HQ.
    rewrite Pos2Z.inj_mul, Z2Pos.id in HQ by done. lia. }
  apply Z.divide_pos_le; [lia|]. apply Z.gauss with (numer r).
  - exists p. lia.
  - rewrite Z.gcd_comm. apply reduced.
Qed.

Lemma approximates_reduce R p q p' q' limit :
  approximates R p q limit -> 0 < limit -> 1 <= q' <= q -> p' * q = p * q' ->
  approximates R p' q' limit.
Proof.
  intros [H1 H2] Hl Hq Hcross. unfold approximates.
  set (L := inject_Z limit) in *.
  assert ((R * inject_Z q' - inject_Z p') * L * inject_Z q ==
          (R * inject_Z q - inject_Z p) * L * inject_Z q')%Q as Heq.
  { assert (inject_Z p' * inject_Z q == inject_Z p * inject_Z q')%Q as Hc
      by (rewrite <- !inject_Z_mult, Hcross; done).
    assert ((R * inject_Z q' - inject_Z p') * L * inject_Z q ==
            L * (R * inject_Z q' * inject_Z q - inject_Z p' * inject_Z q))%Q as -> by ring.
    rewrite Hc. ring. }
  assert (inject_Z 1 <= inject_Z q')%Q as Hq1 by (rewrite <- Zle_Qle; lia).
  assert (inject_Z q' <= inject_Z q)%Q as Hq2 by (rewrite <- Zle_Qle; lia).
  change (inject_Z 1) with 1%Q in Hq1.
  set (e := ((R * inject_Z q - inject_Z p) * L)%Q) in *.
  set (e' := ((R * inject_Z q' - inject_Z p') * L)%Q) in *.
  set (a := inject_Z q) in *. set (b := inject_Z q') in *. clearbody e e' a b.
  split; nra.
Qed.
End Approx.

(** ** Properties *)

Section Properties.
Context {B : BigNum} {HB : BigNumLaws B}.

Lemma mid_cmp a_lo a_hi b_lo b_hi (a_mid b_mid : ratio) :
  (ratio_Q a_mid == (a_lo + a_hi) / 2)%Q -> (ratio_Q b_mid == (b_lo + b_hi) / 2)%Q ->
  ratio_cmp a_mid b_mid = Qcompare (a_lo + a_hi) (b_lo + b_hi).
Proof.
  intros Ha Hb. rewrite cmp_Q, Ha, Hb. unfold Qdiv. change (/ 2)%Q with (1 # 2)%Q.
  destruct (Qcompare_spec (a_lo + a_hi) (b_lo + b_hi)) as [H|H|H];
    [apply -> Qeq_alt|apply -> Qlt_alt|apply -> Qgt_alt]; lra.
Qed.

Lemma ltb_Q x y : ratio_ltb x y = true <-> (ratio_Q x < ratio_Q y)%Q.
Proof.
  unfold ratio_ltb. rewrite cmp_Q. rewrite (Qlt_alt (ratio_Q x)).
  by destruct (Qcompare (ratio_Q x) (ratio_Q y)).
Qed.

Lemma bnd_bounds_point n : rank n < 3 -> bnd_bounds n = (r ← to_rational n; Ok (r, r)).
Proof. by destruct n. Qed.

(** C36: Decimal rounding is correct in all six modes: the mantissa written by
    [round_rational_to_dec] at scale [s] is the value times [10^s] rounded
    as the mode prescribes (toward zero, away from zero, down, up, to
    nearest with ties away from zero, to nearest with ties to even). *)
Theorem rounding_correct r s rm :
  0 <= s ->
  exists m, round_rational_to_dec r s rm = NumDec (bigint_to_string m) s None /\
    rounded rm (ratio_Q r * inject_Z (10 ^ s)) m /\
    num_value (round_rational_to_dec r s rm) (dec_Q m s).
Proof.
  intros Hs. destruct (round_rational_to_dec_spec r s rm) as (m & E & Hm).
  exists m. rewrite E. split_and!; [done..|]. by apply dec_value.
Qed.

(** Arithmetic on point numbers with compatible units always succeeds
    (division needs a non-zero divisor), carries the common unit, and is
    exact unless the result is a decimal, in which case it is the exact
    result rounded half-even at the larger operand scale. *)
Theorem point_arith op a b x y u :
  rank a < 3 -> rank b < 3 -> check_units a b = Ok u ->
  num_value a x -> num_value b y -> (op = OpDiv -> ~ (y == 0)%Q) ->
  exists c, num_op op a b = Ok c /\ unit_of c = u /\ point_result op a b c (op_Q op x y) u.
Proof. apply num_op_point. Qed.

(** Decimal addition and subtraction lose nothing: when every operand is
    an integer or a decimal, the result denotes the exact sum or
    difference. *)
Theorem dec_add_sub_exact op a b x y u :
  op = OpAdd \/ op = OpSub -> rank a < 2 -> rank b < 2 -> scale_ok a -> scale_ok b ->
  check_units a b = Ok u -> num_value a x -> num_value b y ->
  exists c, num_op op a b = Ok c /\ num_value c (op_Q op x y).
Proof.
  intros Hop Ra Rb Sa Sb Hu Hx Hy.
  destruct (num_op_point op a b x y u ltac:(lia) ltac:(lia) Hu Hx Hy) as (c & E & _ & Hc).
  { by destruct Hop as [->| ->]. }
  exists c. split; [done|]. unfold point_result in Hc.
  destruct (Z.eqb_spec (Z.max (rank a) (rank b)) 1) as [Hr|]; [|done].
  destruct Hc as (m & -> & Hm). unfold scale_ok in *.
  set (s := Z.max (dec_scale a) (dec_scale b)) in *.
  assert (forall n q, rank n < 2 -> 0 <= dec_scale n <= s -> num_value n q ->
    exists z, (q * inject_Z (10 ^ s) == inject_Z z)%Q) as Hint.
  { intros n q Rn Sn (r & En & Hq). setoid_rewrite <- Hq. clear Hq. destruct n as [v un|mn sn un|? ? ?|? ? ?]; cbn in Rn; try lia;
      cbn in Sn; cbn in En; apply result_bind_ok in En as (z & _ & En).
    - injection En as <-. exists (z * 10 ^ s). by rewrite from_integer_Q, inject_Z_mult.
    - pose proof (pow10_pos sn ltac:(lia)) as Hp.
      destruct (ratio_new z (10 ^ sn)) as [r'|] eqn:Er; [|done]. injection En as <-.
      exists (z * 10 ^ (s - sn)). rewrite (new_Q _ _ _ Hp Er).
      replace s with (sn + (s - sn)) at 1 by ring. rewrite Z.pow_add_r, inject_Z_mult by lia.
      rewrite Qmult_assoc. fold (dec_Q z sn). by rewrite dec_Q_scaled, inject_Z_mult by lia. }
  destruct (Hint a x Ra ltac:(unfold s; lia) Hx) as [za Hza].
  destruct (Hint b y Rb ltac:(unfold s; lia) Hy) as [zb Hzb].
  assert (exists z, (op_Q op x y * inject_Z (10 ^ s) == inject_Z z)%Q) as [z Hz].
  { destruct Hop as [->| ->]; cbn [op_Q].
    - exists (za + zb). rewrite inject_Z_plus, <- Hza, <- Hzb. ring.
    - exists (za - zb). unfold Z.sub. rewrite inject_Z_plus, inject_Z_opp, <- Hza, <- Hzb. ring. }
  rewrite Hz in Hm. apply rounded_exact in Hm as ->.
  pose proof (dec_value z s u ltac:(unfold s; lia)) as Hv.
  eapply num_value_proper; [|exact Hv].
  pose proof (dec_Q_scaled z s ltac:(unfold s; lia)) as Hs.
  apply (Qmult_inj_r _ _ (inject_Z (10 ^ s))); [|by rewrite Hz, Hs].
  pose proof (pow10_pos s ltac:(unfold s; lia)). unfold Qeq. cbn. lia.
Qed.

(** Interval arithmetic is sound and total: when an operand is an
    interval and both operands' bounds parse, the operation succeeds (for
    division the divisor must be a non-zero point) and its result encloses
    the exact result for all members of the operands. *)
Theorem interval_arith op a b u al ah bl bh :
  rank a = 3 \/ rank b = 3 -> check_units a b = Ok u ->
  bnd_bounds a = Ok (al, ah) -> bnd_bounds b = Ok (bl, bh) ->
  (op = OpDiv -> rank b < 3 /\ ~ (ratio_Q bl == 0)%Q) ->
  exists c, num_op op a b = Ok c /\ unit_of c = u /\
    forall x y, num_contains a x -> num_contains b y -> num_contains c (op_Q op x y).
Proof.
  intros Hr Hu Ea Eb Hdiv.
  assert (exists c, bnd_binary_op a b u op = Ok c /\ unit_of c = u) as (c & E & Huc).
  { unfold bnd_binary_op. rewrite Ea, Eb. cbn [mbind result_bind].
    destruct op; cbn [mbind result_bind min_of max_of ok_or]; [by eexists..|].
    destruct (Hdiv eq_refl) as [Hb Hne]. rewrite bnd_bounds_point in Eb by done.
    apply result_bind_ok in Eb as (r & _ & [= <- <-]).
    destruct (ratio_leb r ratio_zero && ratio_leb ratio_zero r) eqn:Hz.
    - exfalso. apply Hne. unfold ratio_leb, ratio_zero in Hz. rewrite !cmp_Q, from_integer_Q in Hz.
      change (inject_Z 0) with 0%Q in Hz.
      destruct (Qcompare_spec (ratio_Q r) 0), (Qcompare_spec 0 (ratio_Q r)); try done; lra.
    - destruct (div_ok al r Hne) as (c1 & -> & _), (div_ok ah r Hne) as (c2 & -> & _).
      by eexists. }
  exists c. split_and!; [|done|intros x y; by eapply bnd_binary_op_sound].
  assert (binary_op a b op (op_ratio op) = Ok c) as Hbin.
  { unfold binary_op. rewrite Hu. cbn [mbind result_bind].
    replace ((rank a =? 3) || (rank b =? 3)) with true; [done|].
    destruct Hr as [-> | ->]; cbn; [done|by rewrite orb_true_r]. }
  rewrite num_op_unfold. destruct op; try done. destruct (Hdiv eq_refl) as [Hb Hne].
  rewrite bnd_bounds_point in Eb by done. apply result_bind_ok in Eb as (r & E' & [= <- <-]).
  rewrite strip_unit_value, E' by lia. cbn [mbind result_bind].
  destruct (Z.eqb_spec (numer r) 0) as [H0|]; [|done]. by apply numer_zero_Q in H0.
Qed.

(** Dividing by an interval never succeeds: the zero test of [div]
    converts the divisor to a single rational, so the interval-division
    branch is only reached with a point divisor. *)
Theorem div_by_interval_rejected a lo hi u : div a (NumBnd lo hi u) = Err CannotConvertBnd.
Proof. reflexivity. Qed.

(** Importing a finite [f64] gives an interval that contains the exact
    value of the bit pattern; NaN and infinities are rejected. *)
Theorem f64_import_sound bits :
  0 <= bits < 2 ^ 64 ->
  if f64_is_finite bits
  then exists lo hi, from_f64_bits bits = Ok (NumBnd lo hi None) /\
         num_contains (NumBnd lo hi None) (f64_value bits)
  else from_f64_bits bits = Err NumericValueInvalid.
Proof.
  intros Hb. destruct (f64_is_finite bits) eqn:Hf; [by apply from_f64_bits_finite|].
  unfold from_f64_bits. by rewrite Hf.
Qed.

(** [to_rat] with a limit between 1 and [u64::MAX] terminates with a
    fraction whose denominator is within the limit and whose error is below
    [1 / (q * limit)]; a value that fits is returned unchanged. *)
Theorem to_rat_bounded a r limit :
  to_rational a = Ok r -> 1 <= limit <= u64_max ->
  exists p q, to_rat a limit = Ok (NumRat (bigint_to_string p) (bigint_to_string q) (unit_of a)) /\
    1 <= q <= limit /\ approximates (ratio_Q r) p q limit /\
    (denom r <= limit -> p = numer r /\ q = denom r).
Proof.
  intros E Hl. unfold to_rat. rewrite E. cbn [mbind result_bind].
  pose proof (denom_pos r) as Hd. destruct (Z.leb_spec (denom r) limit) as [Hfit|Hbig].
  - replace (negb (denom r <=? u64_max) || (limit <? denom r)) with false.
    2:{ symmetry. apply orb_false_intro; [apply negb_false_iff, Z.leb_le|apply Z.ltb_ge]; lia. }
    eexists _, _. split; [reflexivity|]. split; [lia|]. split; [|done].
    apply exact_approximates. unfold ratio_Q, Qeq. cbn [Qmult inject_Z Qnum Qden].
    rewrite Pos2Z.inj_mul, Z2Pos.id by done. lia.
  - replace (negb (denom r <=? u64_max) || (limit <? denom r)) with true.
    2:{ symmetry. apply orb_true_intro. right. apply Z.ltb_lt. done. }
    destruct (approximate_rational_spec r limit Hl) as (p & q & Ep & Hq & Hap).
    unfold approximate_rational. rewrite Ep.
    destruct (ratio_new_ok p q) as (r' & Er & HQ); [lia|]. rewrite Er. cbn [ok_or mbind result_bind].
    destruct (ratio_new_reduces p q r' ltac:(lia) Er) as [Hden HQ'].
    pose proof (denom_pos r'). eexists _, _. split; [reflexivity|]. split; [lia|]. split; [|lia].
    eapply approximates_reduce; [exact Hap|lia|lia|].
    unfold ratio_Q, Qeq in HQ'. cbn [Qmult inject_Z Qnum Qden] in HQ'.
    rewrite Pos2Z.inj_mul, Z2Pos.id in HQ' by done. lia.
Qed.

(** [to_rat] with limit 0 panics on every convertible operand: the
    continued-fraction loop stops before its first convergent and builds the
    fraction [1/0]. *)
Theorem to_rat_zero_panics a r : to_rational a = Ok r -> to_rat a 0 = Err Panic.
Proof.
  intros E. unfold to_rat. rewrite E. cbn [mbind result_bind]. pose proof (denom_pos r).
  replace (negb (denom r <=? u64_max) || (0 <? denom r)) with true.
  2:{ symmetry. apply orb_true_intro. right. by apply Z.ltb_lt. }
  unfold approximate_rational. change approximate_fuel with (S 131).
  rewrite approximate_loop_S. cbv beta iota zeta.
  destruct (Z.ltb_spec 0 (floor_bigrat r * 0 + 1)); [|lia]. by rewrite ratio_new_zero.
Qed.

(** Comparison orders numbers by the midpoints of their bounds (the
    value itself for a point) and succeeds on every pair with compatible
    units and well-formed bounds; so it is a total preorder, and intervals
    that do not overlap are ordered as their members are. *)
Theorem compare_correct a b u al ah bl bh :
  check_units a b = Ok u -> bnd_bounds a = Ok (al, ah) -> bnd_bounds b = Ok (bl, bh) ->
  (ratio_Q al <= ratio_Q ah)%Q -> (ratio_Q bl <= ratio_Q bh)%Q ->
  compare a b =
  Ok (ordering_int (Qcompare (ratio_Q al + ratio_Q ah) (ratio_Q bl + ratio_Q bh))).
Proof.
  intros Hu Ea Eb Ha Hb. unfold compare. rewrite Hu. cbn [mbind result_bind].
  destruct ((rank a =? 3) || (rank b =? 3)) eqn:Hr.
  - rewrite Ea, Eb. cbn [mbind result_bind].
    destruct (ratio_ltb ah bl) eqn:H1.
    { apply ltb_Q in H1. do 2 f_equal. symmetry.
      assert (Qcompare (ratio_Q al + ratio_Q ah) (ratio_Q bl + ratio_Q bh) = Lt) as ->; [|done].
      apply -> Qlt_alt. lra. }
    destruct (ratio_ltb bh al) eqn:H2.
    { apply ltb_Q in H2. do 2 f_equal. symmetry.
      assert (Qcompare (ratio_Q al + ratio_Q ah) (ratio_Q bl + ratio_Q bh) = Gt) as ->; [|done].
      apply -> Qgt_alt. lra. }
    destruct (half_sum al ah) as (am & -> & Ham), (half_sum bl bh) as (bm & -> & Hbm).
    cbn [ok_or mbind result_bind]. by erewrite mid_cmp.
  - apply orb_false_elim in Hr as [Ra%Z.eqb_neq Rb%Z.eqb_neq].
    rewrite !strip_unit_value by done.
    assert (forall n, rank n <> 3 -> rank n < 3) as Hlt by (intros []; cbn; lia).
    rewrite bnd_bounds_point in Ea, Eb by auto.
    apply result_bind_ok in Ea as (ra & -> & [= <- <-]).
    apply result_bind_ok in Eb as (rb & -> & [= <- <-]).
    cbn [mbind result_bind]. do 2 f_equal. rewrite cmp_Q.
    destruct (Qcompare_spec (ratio_Q ra) (ratio_Q rb)) as [H|H|H]; symmetry;
      [apply -> Qeq_alt|apply -> Qlt_alt|apply -> Qgt_alt]; lra.
Qed.
End Properties.

(** ** Witnesses *)

Section Witnesses.
Local Open Scope string_scope.

(** 12.50 and 3.7 as decimals, [3/4] as a fraction and the interval
    [[1, 2]]. *)
Definition sample_dec1 : Num := NumDec "1250" 2 None.
Definition sample_dec2 : Num := NumDec "37" 1 None.
Definition sample_rat : Num := NumRat "3" "4" (Some "kg").
Definition sample_bnd : Num := NumBnd (NumInt "1" None) (NumInt "2" None) None.
Definition sample_ratio (n : Num) : ratio (BigNum := qc_bignum) :=
  match to_rational (B := qc_bignum) n with Ok r => r | Err _ => ratio_zero end.

Lemma sample_value n : is_ok (to_rational (B := qc_bignum) n) = true ->
  num_value n (ratio_Q (sample_ratio n)).
Proof. unfold num_value, sample_ratio. destruct (to_rational n) as [r|]; [|done].
  intros _. by exists r.
Defined.

Lemma rounding_correct_witness :
  exists m, round_rational_to_dec (sample_ratio sample_dec1) 0 HalfEven =
      NumDec (bigint_to_string m) 0 None /\
    rounded HalfEven (ratio_Q (sample_ratio sample_dec1) * inject_Z (10 ^ 0)) m /\
    num_value (round_rational_to_dec (sample_ratio sample_dec1) 0 HalfEven) (dec_Q m 0).
Proof. apply (@rounding_correct qc_bignum qc_bignum_laws). lia. Defined.

Lemma point_arith_witness :
  exists c, num_op OpDiv sample_rat sample_dec2 = Ok c /\ unit_of c = Some "kg" /\
    point_result OpDiv sample_rat sample_dec2 c
      (op_Q OpDiv (ratio_Q (sample_ratio sample_rat)) (ratio_Q (sample_ratio sample_dec2)))
      (Some "kg").
Proof.
  apply (@point_arith qc_bignum qc_bignum_laws);
    [done..|by apply sample_value|by apply sample_value|].
  by intros _ H.
Defined.

Lemma dec_add_sub_exact_witness :
  exists c, num_op OpSub sample_dec1 sample_dec2 = Ok c /\
    num_value c (op_Q OpSub (ratio_Q (sample_ratio sample_dec1)) (ratio_Q (sample_ratio sample_dec2))).
Proof.
  apply (@dec_add_sub_exact qc_bignum qc_bignum_laws OpSub sample_dec1 sample_dec2 _ _ None);
    [by right|done..|by apply sample_value|by apply sample_value].
Defined.

Lemma interval_arith_witness :
  exists c, num_op OpMul sample_bnd sample_dec2 = Ok c /\ unit_of c = None /\
    forall x y, num_contains sample_bnd x -> num_contains sample_dec2 y ->
      num_contains c (op_Q OpMul x y).
Proof.
  eapply (@interval_arith qc_bignum qc_bignum_laws OpMul sample_bnd sample_dec2 None);
    [by left|done|vm_compute; reflexivity|vm_compute; reflexivity|done].
Defined.

(** The bit pattern of the double 0.1. *)
Lemma f64_import_sound_witness :
  if f64_is_finite 4591870180066957722
  then exists lo hi, from_f64_bits 4591870180066957722 = Ok (NumBnd lo hi None) /\
         num_contains (NumBnd lo hi None) (f64_value 4591870180066957722)
  else from_f64_bits 4591870180066957722 = Err NumericValueInvalid.
Proof. apply (@f64_import_sound qc_bignum qc_bignum_laws). lia. Defined.

Lemma to_rat_bounded_witness :
  exists p q, to_rat (NumDec "314159" 5 None) 10 =
      Ok (NumRat (bigint_to_string p) (bigint_to_string q) None) /\
    1 <= q <= 10 /\
    approximates (ratio_Q (sample_ratio (NumDec "314159" 5 None))) p q 10 /\
    (denom (sample_ratio (NumDec "314159" 5 None)) <= 10 ->
      p = numer (sample_ratio (NumDec "314159" 5 None)) /\
      q = denom (sample_ratio (NumDec "314159" 5 None))).
Proof.
  apply (@to_rat_bounded qc_bignum qc_bignum_laws (NumDec "314159" 5 None));
    [vm_compute; reflexivity|unfold u64_max; lia].
Defined.

Lemma to_rat_zero_panics_witness : to_rat sample_dec1 0 = Err Panic.
Proof.
  apply (@to_rat_zero_panics qc_bignum qc_bignum_laws _ (sample_ratio sample_dec1)).
  vm_compute. reflexivity.
Defined.

Lemma compare_correct_witness :
  compare sample_bnd sample_dec2 =
  Ok (ordering_int (Qcompare (1 + 2) (ratio_Q (sample_ratio sample_dec2) + ratio_Q (sample_ratio sample_dec2)))).
Proof.
  apply (@compare_correct qc_bignum qc_bignum_laws sample_bnd sample_dec2 None
    (sample_ratio (NumInt "1" None)) (sample_ratio (NumInt "2" None))
    (sample_ratio sample_dec2) (sample_ratio sample_dec2));
    try (vm_compute; reflexivity); unfold Qle; vm_compute; discriminate.
Defined.
End Witnesses.
