(* ===== verification/Rho.v ===== *)
(** * ρ canonicalisation of JSON ([ubl_vm::canon])

    [NaiveCanon] (recursive key sort), [RhoCanon::validate] (the strict
    validator, with every error it pushes) and [RhoCanon::rho] (the best-effort
    normal form), and how both relate to the NRF-1 encoding: ρ is idempotent
    and does not change the canonical bytes, and a validated value is
    encodable exactly when its integers fit [i64]. *)

From S2P Require Import Prelude RustStd Json Nrf NrfFacts.

(** ** Definitions *)

(** The messages [collect_errors] pushes, with their format arguments. *)
Inductive rho_error : Type :=
| RawFloat (path : string) (n : number)
| BomPresent (path : string)
| ControlCharacterPresent (path : string)
| NotNfcNormalized (path : string)
| BomPresentInKey (key_path : string)
| ControlCharacterPresentInKey (key_path : string)
| KeyNotNfcNormalized (key_path : string)
| DuplicateKeyAfterNfc (path key_nfc : string)
| NullValueInMap (path k : string).

(** Ordering of key-value pairs by key: [a.0.cmp(&b.0)]. *)
Definition key_leb {A} (a b : string * A) : bool := String.leb a.1 b.1.

Definition push_if {A} (c : bool) (e : A) : list A := if c then [e] else [].

(** [NaiveCanon::canon]: the values are sorted recursively, the pairs by key. *)
Fixpoint naive_sort (v : json) : json :=
  match v with
  | JObject m =>
      let pairs :=
        sort_by key_leb
          ((fix go (m : list (string * json)) : list (string * json) :=
              match m with [] => [] | (k, x) :: m' => (k, naive_sort x) :: go m' end) m) in
      JObject (fold_left (fun out kv => map_insert kv.1 kv.2 out) pairs [])
  | JArray a =>
      JArray ((fix go (l : list json) : list json :=
                 match l with [] => [] | x :: l' => naive_sort x :: go l' end) a)
  | _ => v
  end.

Section Rho.
Context {U : Unicode}.

Fixpoint collect_errors (v : json) (path : string) {struct v} : list rho_error :=
  match v with
  | JNull | JBool _ => []
  | JNumber n => push_if (negb (is_i64 n) && negb (is_u64 n)) (RawFloat path n)
  | JString s =>
      push_if (has_bom s) (BomPresent path) ++
      push_if (has_control_char s) (ControlCharacterPresent path) ++
      push_if (negb (String.eqb (nfc s) s)) (NotNfcNormalized path)
  | JArray arr =>
      (fix go (i : nat) (l : list json) : list rho_error :=
         match l with
         | [] => []
         | item :: l' =>
             collect_errors item (path +:+ "[" +:+ u_to_string (Z.of_nat i) +:+ "]") ++ go (S i) l'
         end) 0%nat arr
  | JObject map =>
      (fix go (seen_norm_keys : list string) (m : list (string * json)) : list rho_error :=
         match m with
         | [] => []
         | (k, val) :: m' =>
             let key_path := path +:+ "." +:+ k in
             let key_nfc := nfc k in
             push_if (has_bom k) (BomPresentInKey key_path) ++
             push_if (has_control_char k) (ControlCharacterPresentInKey key_path) ++
             push_if (negb (String.eqb key_nfc k)) (KeyNotNfcNormalized key_path) ++
             push_if (existsb (String.eqb key_nfc) seen_norm_keys) (DuplicateKeyAfterNfc path key_nfc) ++
             push_if (is_null val) (NullValueInMap path k) ++
             collect_errors val key_path ++
             go (key_nfc :: seen_norm_keys) m'
         end) [] map
  end.

Definition validate (v : json) : result (list rho_error) unit :=
  match collect_errors v "$" with
  | [] => Ok tt
  | errors => Err errors
  end.

Definition validate_string (s : string) : result string string :=
  if has_bom s then Err "BOM present in string"%string
  else if has_control_char s then Err "Control character present in string"%string
  else Ok (nfc s).

(** The loop over the sorted pairs reads each value's nullness and inserts
    its image. *)
Fixpoint rho (v : json) : json :=
  match v with
  | JNull => JNull
  | JBool b => JBool b
  | JNumber n => JNumber n
  | JString s =>
      match validate_string s with
      | Ok normalized => JString normalized
      | Err _ => JString s
      end
  | JArray arr =>
      JArray ((fix go (l : list json) : list json :=
                 match l with [] => [] | x :: l' => rho x :: go l' end) arr)
  | JObject map =>
      let pairs :=
        sort_by key_leb
          ((fix go (m : list (string * json)) : list (string * (json * json)) :=
              match m with [] => [] | (k, x) :: m' => (k, (x, rho x)) :: go m' end) map) in
      JObject (fold_left
        (fun sorted kv => if is_null kv.2.1 then sorted else map_insert kv.1 kv.2.2 sorted)
        pairs [])
  end.
End Rho.

(** ** Sorting by key *)

Lemma sort_by_fmap {A B} (f : A -> B) leA leB (l : list A) :
  (forall a b, leB (f a) (f b) = leA a b) -> sort_by leB (f <$> l) = f <$> sort_by leA l.
Proof.
  intros Hf. induction l as [|x l IH]; cbn; [done|]. rewrite IH. generalize (sort_by leA l). clear IH l.
  induction l as [|y l IH]; cbn; [done|]. rewrite Hf. destruct (leA x y); cbn; [done|]. by rewrite IH.
Qed.

Section KeySort.
Context {A : Type}.
Implicit Type m : list (string * A).

Lemma key_sort_sorted m : NoDup m.*1 ->
  StronglySorted (fun a b => String.ltb a.1 b.1 = true) (sort_by key_leb m).
Proof.
  intros Hnd. assert (NoDup (sort_by key_leb m).*1) as Hnd'.
  { by rewrite (sort_by_perm key_leb m). }
  assert (StronglySorted (fun a b => key_leb a b = true) (sort_by key_leb m)) as Hs.
  { apply sort_by_sorted; unfold key_leb; [intros ??; apply str_leb_false|intros ???; apply str_leb_trans]. }
  revert Hs Hnd'. generalize (sort_by key_leb m). induction 1 as [|p l Hl IH Hp]; intros Hn; constructor.
  - apply IH. by inversion Hn.
  - inversion Hn as [|? ? Hx _]; subst. eapply Forall_impl; [apply Forall_and; split; [exact Hp|]|].
    + apply (Forall_forall (fun q => p.1 <> q.1)). intros q Hq Heq. apply Hx.
      change (p.1 ∈ l.*1). rewrite Heq. apply list_elem_of_fmap. eauto.
    + cbn. intros q [H1 H2]. by apply str_leb_ltb.
Qed.

(** A list in strictly ascending key order is its own sort. *)
Lemma key_sort_id m :
  StronglySorted (fun a b => String.ltb a.1 b.1 = true) m -> sort_by key_leb m = m.
Proof.
  induction 1 as [|p l Hl IH Hp]; cbn; [done|]. rewrite IH. destruct Hp as [|q l Hq _]; cbn; [done|].
  unfold key_leb. by rewrite (str_ltb_leb _ _ Hq).
Qed.

Lemma sorted_keys_NoDup m :
  StronglySorted (fun a b => String.ltb a.1 b.1 = true) m -> NoDup m.*1.
Proof.
  induction 1 as [|p l Hl IH Hp]; csimpl; constructor; [|done].
  intros (q & Hq & Hin)%list_elem_of_fmap. rewrite Forall_forall in Hp. apply Hp in Hin.
  rewrite Hq, str_ltb_irrefl in Hin. done.
Qed.

Lemma sorted_filter (f : string * A -> bool) m :
  StronglySorted (fun a b => String.ltb a.1 b.1 = true) m ->
  StronglySorted (fun a b => String.ltb a.1 b.1 = true) (List.filter f m).
Proof.
  induction 1 as [|p l Hl IH Hp]; cbn; [constructor|]. destruct (f p); [|done]. constructor; [done|].
  rewrite Forall_forall in *. intros q Hq. apply Hp. rewrite list_elem_of_In in *.
  by apply List.filter_In in Hq as [? _].
Qed.

(** Inserting fresh keys in order appends them. *)
Lemma fold_insert_fresh {C} (skip : C -> bool) (key : C -> string) (val : C -> A) (l : list C) out :
  NoDup (out.*1 ++ (key <$> l)) ->
  fold_left (fun out c => if skip c then out else map_insert (key c) (val c) out) l out =
  out ++ ((fun c => (key c, val c)) <$> List.filter (fun c => negb (skip c)) l).
Proof.
  revert out. induction l as [|c l IH]; intros out Hnd; cbn; [by rewrite app_nil_r|].
  csimpl in Hnd. destruct (skip c); cbn.
  - apply IH. rewrite <- Permutation_middle in Hnd. by inversion Hnd.
  - rewrite map_insert_fresh.
    + rewrite IH; [by rewrite <- app_assoc|]. rewrite fmap_app, <- app_assoc. exact Hnd.
    + apply NoDup_app in Hnd as (_ & Hd & _). intros H. apply (Hd _ H). by left.
Qed.
End KeySort.

(** ** The shape of ρ *)

Definition non_null (kv : string * json) : bool := negb (is_null kv.2).

Section RhoFacts.
Context {U : Unicode}.

Definition rho_entry (kv : string * json) : string * json := (kv.1, rho kv.2).

Lemma rho_array l : rho (JArray l) = JArray (rho <$> l).
Proof. reflexivity. Qed.

Lemma rho_object m :
  NoDup m.*1 -> rho (JObject m) = JObject (rho_entry <$> List.filter non_null (sort_by key_leb m)).
Proof.
  intros Hnd. cbn. f_equal.
  set (f := fun kv : string * json => (kv.1, (kv.2, rho kv.2))).
  match goal with |- fold_left _ (sort_by _ ?l) _ = _ => replace l with (f <$> m) end.
  2:{ clear Hnd. induction m as [|[k x] m IH]; cbn; [done|]. by f_equal. }
  rewrite (sort_by_fmap f key_leb key_leb) by done.
  rewrite (fold_insert_fresh (fun kv => is_null kv.2.1) fst (fun kv => kv.2.2)).
  - cbn. generalize (sort_by key_leb m). induction l as [|[k x] l IH]; cbn; [done|].
    unfold non_null. cbn. destruct (is_null x); cbn; [done|]. by f_equal.
  - cbn. rewrite <- list_fmap_compose. change (NoDup (fst <$> sort_by key_leb m)).
    by rewrite (sort_by_perm key_leb m).
Qed.

Lemma rho_null v : is_null (rho v) = is_null v.
Proof. destruct v; try done. cbn. by case_match. Qed.

(** The normal form: keys strictly ascending, no null members, at every
    depth. *)
Fixpoint rho_normal (v : json) : Prop :=
  match v with
  | JArray l =>
      (fix go (l : list json) : Prop :=
         match l with [] => True | x :: l' => rho_normal x /\ go l' end) l
  | JObject m =>
      StronglySorted (fun a b => String.ltb a.1 b.1 = true) m /\
      (fix go (m : list (string * json)) : Prop :=
         match m with
         | [] => True
         | (k, x) :: m' => is_null x = false /\ rho_normal x /\ go m'
         end) m
  | _ => True
  end.

Lemma rho_normal_array l : rho_normal (JArray l) <-> Forall rho_normal l.
Proof. cbn. induction l as [|x l IH]; [done|]. by rewrite Forall_cons, IH. Qed.
Lemma rho_normal_object m :
  rho_normal (JObject m) <-> StronglySorted (fun a b => String.ltb a.1 b.1 = true) m /\
    Forall (fun kv => is_null kv.2 = false /\ rho_normal kv.2) m.
Proof.
  cbn. apply and_iff_compat_l. induction m as [|[k x] m IH]; [done|]. rewrite Forall_cons, IH. cbn. tauto.
Qed.

Lemma elem_non_null kv m :
  kv ∈ List.filter non_null (sort_by key_leb m) <-> kv ∈ m /\ is_null kv.2 = false.
Proof.
  rewrite list_elem_of_In, List.filter_In, <- list_elem_of_In, (sort_by_perm key_leb m).
  unfold non_null. by rewrite negb_true_iff.
Qed.

Lemma rho_entries_sorted m : NoDup m.*1 ->
  StronglySorted (fun a b => String.ltb a.1 b.1 = true)
    (rho_entry <$> List.filter non_null (sort_by key_leb m)).
Proof.
  intros Hnd. apply key_sort_sorted, (sorted_filter non_null) in Hnd. revert Hnd.
  induction 1 as [|p l Hl IH Hp]; cbn; constructor; [done|]. by apply Forall_fmap.
Qed.

Lemma rho_is_normal v : json_wf v -> rho_normal (rho v).
Proof.
  induction v as [| | |s|l IH|m IH] using json_ind'; try done.
  - intros _. cbn. by case_match.
  - rewrite json_wf_array, rho_array, rho_normal_array, Forall_fmap. intros Hw.
    rewrite Forall_forall in *. intros x Hx. cbn. auto.
  - rewrite json_wf_object. intros [Hnd Hw]. rewrite rho_object, rho_normal_object by done. split.
    + by apply rho_entries_sorted.
    + apply Forall_fmap, Forall_forall. intros kv [Hin Hn]%elem_non_null. cbn. rewrite rho_null.
      rewrite Forall_forall in IH, Hw. split; [done|]. apply IH; [done|]. by apply Hw.
Qed.

Lemma rho_wf `{!UnicodeLaws U} v : json_wf v -> json_wf (rho v).
Proof.
  induction v as [| | |s|l IH|m IH] using json_ind'; try done.
  - intros H. cbn. unfold validate_string. repeat case_match; simplify_eq; try done. by apply nfc_valid.
  - rewrite json_wf_array, rho_array, json_wf_array, Forall_fmap. intros Hw.
    rewrite Forall_forall in *. intros x Hx. cbn. auto.
  - rewrite json_wf_object. intros [Hnd Hw]. rewrite rho_object, json_wf_object by done. split.
    + by apply sorted_keys_NoDup, rho_entries_sorted.
    + apply Forall_fmap, Forall_forall. intros kv [Hin Hn]%elem_non_null. cbn.
      rewrite Forall_forall in IH, Hw. split; [by apply Hw|]. apply IH; [done|]. by apply Hw.
Qed.

(** ρ fixes a normal form whose strings are fixed. *)
Lemma validate_string_idem `{!UnicodeLaws U} s : rho (rho (JString s)) = rho (JString s).
Proof.
  cbn. unfold validate_string. destruct (has_bom s) eqn:Hb; cbn; [by unfold validate_string; rewrite Hb|].
  destruct (has_control_char s) eqn:Hc; cbn; unfold validate_string.
  - by rewrite Hb, Hc.
  - by rewrite nfc_bom, nfc_control, Hb, Hc, nfc_idem.
Qed.

Lemma filter_all {A} (f : A -> bool) (l : list A) :
  Forall (fun x => f x = true) l -> List.filter f l = l.
Proof. induction 1 as [|x l Hx Hl IH]; cbn; [done|]. by rewrite Hx, IH. Qed.

Lemma rho_idem `{!UnicodeLaws U} v : json_wf v -> rho (rho v) = rho v.
Proof.
  induction v as [| | |s|l IH|m IH] using json_ind'; intros Hw; try done.
  - apply validate_string_idem.
  - rewrite json_wf_array in Hw. rewrite !rho_array. f_equal. rewrite <- list_fmap_compose.
    rewrite Forall_forall in *. apply list_fmap_ext. intros i x Hx%list_elem_of_lookup_2. cbn. auto.
  - rewrite json_wf_object in Hw. destruct Hw as [Hnd Hw]. rewrite (rho_object m Hnd).
    pose proof (rho_entries_sorted m Hnd) as Hs. rewrite rho_object by (by apply sorted_keys_NoDup).
    f_equal. rewrite key_sort_id, filter_all by
      (done || (apply Forall_fmap, Forall_forall; intros kv [Hin Hn]%elem_non_null;
                unfold non_null; cbn; by rewrite rho_null, Hn)).
    rewrite <- list_fmap_compose. rewrite Forall_forall in IH, Hw.
    apply list_fmap_ext. intros i kv [Hin Hn]%list_elem_of_lookup_2%elem_non_null.
    unfold rho_entry. cbn. f_equal. apply IH; [done|]. by apply Hw.
Qed.
End RhoFacts.

(** ** What the NRF encoder and the strict validator accept *)

Section Accept.
Context {U : Unicode}.

Definition str_clean (s : string) : Prop :=
  has_bom s = false /\ has_control_char s = false /\ nfc s = s.

(** The values [json_to_nrf] converts; [nums] is the demand on numbers and
    [vals] the one on member values. *)
Fixpoint clean (nums : number -> Prop) (vals : json -> Prop) (v : json) : Prop :=
  match v with
  | JNull | JBool _ => True
  | JNumber n => nums n
  | JString s => str_clean s
  | JArray l =>
      (fix go (l : list json) : Prop :=
         match l with [] => True | x :: l' => clean nums vals x /\ go l' end) l
  | JObject m =>
      (fix go (m : list (string * json)) : Prop :=
         match m with
         | [] => True
         | (k, x) :: m' => (str_clean k /\ vals x /\ clean nums vals x) /\ go m'
         end) m
  end.

Lemma clean_array nums vals l : clean nums vals (JArray l) <-> Forall (clean nums vals) l.
Proof. cbn. induction l as [|x l IH]; [done|]. by rewrite Forall_cons, IH. Qed.
Lemma clean_object nums vals m :
  clean nums vals (JObject m) <->
  Forall (fun kv => str_clean kv.1 /\ vals kv.2 /\ clean nums vals kv.2) m.
Proof. cbn. induction m as [|[k x] m IH]; [done|]. by rewrite Forall_cons, IH. Qed.

Definition number_encodable (n : number) : Prop := is_Some (number_as_i64 n).
Definition number_integer (n : number) : Prop := match n with Float _ => False | _ => True end.
Definition encodable : json -> Prop := clean number_encodable (fun _ => True).
Definition strict : json -> Prop := clean number_integer (fun x => is_null x = false).

Lemma array_loop_ok p i l :
  Forall (fun x => forall p, exists n, json_to_nrf_with_path x p = Ok n) l ->
  exists ys, array_loop p i l = Ok ys.
Proof.
  intros H. revert i. induction H as [|x l Hx Hl IH]; intros i; [by eexists|].
  rewrite array_loop_cons. destruct (Hx (path_for_index p i)) as [y ->].
  destruct (IH (S i)) as [ys ->]. by eexists.
Qed.

Lemma object_loop_ok p bt m :
  NoDup (m.*1 ++ bt.*1) ->
  Forall (fun kv => str_clean kv.1 /\ forall p, exists n, json_to_nrf_with_path kv.2 p = Ok n) m ->
  exists bt', object_loop p bt m = Ok bt'.
Proof.
  intros Hnd H. revert bt Hnd. induction H as [|[k x] m [(Hb & Hc & Hn) Hx] Hm IH]; intros bt Hnd;
    [by eexists|].
  rewrite object_loop_cons. cbn [fst snd] in Hb, Hc, Hn, Hx. rewrite Hb, Hc, Hn, String.eqb_refl. cbn [negb].
  csimpl in Hnd. apply NoDup_cons in Hnd as [Hk Hnd]. rewrite not_elem_of_app in Hk. destruct Hk as [Hk1 Hk2].
  destruct (is_null x); [by apply IH|].
  destruct (Hx (path_for_key p k)) as [y ->]. cbn [mbind result_bind].
  assert (btree_contains_key k bt = false) as ->.
  { unfold btree_contains_key. destruct (btree_get k bt) as [z|] eqn:E; [|done]. exfalso. apply Hk2.
    clear -E. induction bt as [|[k' v'] bt IH]; cbn in *; [done|].
    destruct (String.eqb_spec k k') as [->|]; [by left|right; auto]. }
  apply IH. apply NoDup_app in Hnd as (H1 & H2 & H3). apply NoDup_app. split; [done|].
  split; [|by apply btree_insert_NoDup]. intros j Hj [->|Hin]%btree_insert_keys; [done|]. by apply (H2 j).
Qed.

Lemma conv_encodable v p : json_wf v -> encodable v -> exists n, json_to_nrf_with_path v p = Ok n.
Proof.
  unfold encodable. revert p. induction v as [| |x|s|l IH|m IH] using json_ind'; intros p Hw He.
  - by eexists.
  - by eexists.
  - destruct He as [i Hi]. cbn. rewrite Hi. by eexists.
  - destruct He as (Hb & Hc & Hn). cbn. rewrite Hb, Hc, Hn, String.eqb_refl. by eexists.
  - rewrite json_wf_array in Hw. rewrite clean_array in He. rewrite conv_array.
    destruct (array_loop_ok p 0 l) as [ys ->]; [|by eexists].
    rewrite Forall_forall in *. intros x Hx p'. auto.
  - rewrite json_wf_object in Hw. destruct Hw as [Hnd Hw]. rewrite clean_object in He. rewrite conv_object.
    destruct (object_loop_ok p [] m) as [bt ->]; [by rewrite app_nil_r| |by eexists].
    rewrite Forall_forall in *. intros kv Hin. destruct (He kv Hin) as (? & _ & ?), (Hw kv Hin).
    split; [done|]. intros p'. by apply IH.
Qed.

Lemma encodable_conv v n : json_to_nrf v = Ok n -> encodable v.
Proof.
  unfold encodable. revert n. induction v as [| |x|s|l IH|m IH] using json_ind'; intros n; try done.
  - cbn. destruct (number_as_i64 x) eqn:E; [|done]. intros _. unfold number_encodable. rewrite E. done.
  - unfold json_to_nrf. cbn. unfold str_clean. repeat case_match; try done.
    intros _. split_and!; [done..|]. by apply String.eqb_eq, negb_false_iff.
  - unfold json_to_nrf. rewrite conv_array, result_bind_ok. intros (ys & HF%array_loop_Forall2 & _).
    apply clean_array, Forall_forall. intros x [i Hi]%list_elem_of_lookup.
    destruct (Forall2_lookup_l _ _ _ _ _ HF Hi) as (y & _ & Hy).
    rewrite Forall_forall in IH. eapply IH, Hy. by eapply list_elem_of_lookup_2.
  - unfold json_to_nrf. rewrite conv_object, result_bind_ok. intros (bt & H & _).
    apply object_loop_spec in H as (_ & HF & _); [|constructor].
    apply clean_object. rewrite Forall_forall in *. intros [k x] Hin.
    destruct (HF _ Hin) as (Hb & Hc & Hn & Hx). cbn [fst snd] in *. split; [done|]. split; [done|].
    destruct x as [| | | | |]; try (destruct (Hx eq_refl) as [y Hy]; by eapply (IH _ Hin)). done.
Qed.

(** ρ leaves clean strings alone, so it only reorders and drops nulls. *)
Lemma rho_encodable v : json_wf v -> encodable v -> encodable (rho v).
Proof.
  unfold encodable. induction v as [| |x|s|l IH|m IH] using json_ind'; intros Hw He; try done.
  - destruct He as (Hb & Hc & Hn). cbn. unfold validate_string. by rewrite Hb, Hc, Hn.
  - rewrite json_wf_array in Hw. rewrite clean_array in He. rewrite rho_array, clean_array, Forall_fmap.
    rewrite Forall_forall in *. intros x Hx. cbn. auto.
  - rewrite json_wf_object in Hw. destruct Hw as [Hnd Hw]. rewrite clean_object in He.
    rewrite rho_object, clean_object, Forall_fmap by done. rewrite Forall_forall in *.
    intros kv [Hin Hx]%elem_non_null. destruct (He kv Hin) as (? & _ & ?), (Hw kv Hin). cbn. auto.
Qed.

Lemma rho_equiv v : json_wf v -> encodable v -> json_equiv v (rho v).
Proof.
  unfold encodable. induction v as [| |x|s|l IH|m IH] using json_ind'; intros Hw He; try by constructor.
  - destruct He as (Hb & Hc & Hn). cbn. unfold validate_string. rewrite Hb, Hc, Hn. constructor.
  - rewrite json_wf_array in Hw. rewrite clean_array in He. rewrite rho_array. constructor.
    rewrite Forall_forall in *. apply Forall2_fmap_r, Forall_Forall2_diag, Forall_forall. auto.
  - rewrite json_wf_object in Hw. destruct Hw as [Hnd Hw]. rewrite clean_object in He.
    rewrite rho_object by done. rewrite Forall_forall in *.
    apply (equiv_object _ (List.filter non_null (sort_by key_leb m)) _
      (rho_entry <$> List.filter non_null (sort_by key_leb m))).
    + fold non_null. by rewrite (sort_by_perm key_leb m).
    + fold non_null. rewrite filter_all; [done|]. apply Forall_fmap, Forall_forall.
      intros kv [_ Hn]%elem_non_null. unfold non_null. cbn. by rewrite rho_null, Hn.
    + apply Forall2_fmap_r, Forall_Forall2_diag, Forall_forall. intros kv [Hin Hn]%elem_non_null.
      cbn. destruct (He kv Hin) as (? & _ & ?), (Hw kv Hin). auto.
Qed.
End Accept.

(** ** The strict validator *)

Section Validate.
Context {U : Unicode}.

Lemma push_if_nil {A} c (e : A) : push_if c e = [] <-> c = false.
Proof. by destruct c. Qed.

Definition array_errors (path : string) :=
  fix go (i : nat) (l : list json) : list rho_error :=
    match l with
    | [] => []
    | item :: l' =>
        collect_errors item (path +:+ "[" +:+ u_to_string (Z.of_nat i) +:+ "]") ++ go (S i) l'
    end.
Definition member_errors (path : string) (seen : list string) (k : string) (val : json) : list rho_error :=
  push_if (has_bom k) (BomPresentInKey (path +:+ "." +:+ k)) ++
  push_if (has_control_char k) (ControlCharacterPresentInKey (path +:+ "." +:+ k)) ++
  push_if (negb (String.eqb (nfc k) k)) (KeyNotNfcNormalized (path +:+ "." +:+ k)) ++
  push_if (existsb (String.eqb (nfc k)) seen) (DuplicateKeyAfterNfc path (nfc k)) ++
  push_if (is_null val) (NullValueInMap path k).
Definition object_errors (path : string) :=
  fix go (seen : list string) (m : list (string * json)) : list rho_error :=
    match m with
    | [] => []
    | (k, val) :: m' =>
        member_errors path seen k val ++ collect_errors val (path +:+ "." +:+ k) ++ go (nfc k :: seen) m'
    end.

Lemma collect_array l path : collect_errors (JArray l) path = array_errors path 0 l.
Proof. reflexivity. Qed.
Lemma collect_object m path : collect_errors (JObject m) path = object_errors path [] m.
Proof.
  cbn [collect_errors]. generalize (@nil string). induction m as [|[k x] m IH]; intros seen; [done|].
  cbn [object_errors]. unfold member_errors. rewrite <- IH, <- !app_assoc. done.
Qed.

Lemma member_errors_nil path seen k val :
  member_errors path seen k val = [] <-> str_clean k /\ (nfc k ∉ seen) /\ is_null val = false.
Proof.
  unfold member_errors, str_clean. rewrite !app_nil, !push_if_nil, negb_false_iff, String.eqb_eq.
  assert (existsb (String.eqb (nfc k)) seen = false <-> nfc k ∉ seen) as ->; [|tauto].
  rewrite <- not_true_iff_false, existsb_exists. apply not_iff_compat. rewrite list_elem_of_In.
  split; [intros (x & Hx & ->%String.eqb_eq); done|]. intros H. exists (nfc k). by rewrite String.eqb_refl.
Qed.

Lemma object_errors_nil path seen m :
  object_errors path seen m = [] <->
  Forall (fun kv => str_clean kv.1 /\ is_null kv.2 = false /\
    collect_errors kv.2 (path +:+ "." +:+ kv.1) = []) m /\
  NoDup (nfc <$> m.*1) /\ Forall (fun kv => nfc kv.1 ∉ seen) m.
Proof.
  revert seen. induction m as [|[k x] m IH]; intros seen; csimpl.
  - split; [|done]. intros _. split_and!; constructor.
  - fold (object_errors path). rewrite !app_nil, member_errors_nil, IH, !Forall_cons, NoDup_cons. cbn [fst snd].
    assert (Forall (fun kv => nfc kv.1 ∉ (nfc k :: seen)) m <->
            (nfc k ∉ nfc <$> m.*1) /\ Forall (fun kv => nfc kv.1 ∉ seen) m) as ->; [|tauto].
    rewrite !Forall_forall. setoid_rewrite not_elem_of_cons. split.
    + intros H. split; [|intros y Hy; by apply H]. intros (j & Hj & (kv & -> & Hin)%list_elem_of_fmap)%list_elem_of_fmap.
      by apply H in Hin as [? _].
    + intros [H1 H2] kv Hin. split; [|by apply H2]. intros Heq. apply H1, list_elem_of_fmap.
      exists kv.1. split; [done|]. apply list_elem_of_fmap. eauto.
Qed.

Lemma collect_strict v path : json_wf v -> (collect_errors v path = [] <-> strict v).
Proof.
  unfold strict. revert path. induction v as [| |x|s|l IH|m IH] using json_ind'; intros path Hw; try done.
  - cbn [collect_errors clean]. rewrite push_if_nil. destruct x as [p|z|b]; cbn; [|done|done].
    by rewrite andb_false_r.
  - cbn [collect_errors clean]. unfold str_clean.
    by rewrite !app_nil, !push_if_nil, negb_false_iff, String.eqb_eq.
  - rewrite json_wf_array in Hw. rewrite collect_array, clean_array. generalize 0%nat.
    induction l as [|x l IHl]; intros i; [done|]. cbn [array_errors].
    rewrite Forall_cons in Hw, IH |- *. destruct Hw, IH as [IHx IH].
    fold (array_errors path). by rewrite app_nil, IHx, IHl.
  - rewrite json_wf_object in Hw. destruct Hw as [Hnd Hw]. rewrite collect_object, clean_object, object_errors_nil.
    rewrite !Forall_forall. rewrite Forall_forall in IH, Hw. split.
    + intros (H & _) kv Hin. destruct (H kv Hin) as (Hk & Hn & Hc). split; [done|]. split; [done|].
      apply (IH kv Hin) in Hc; [done|]. by apply Hw.
    + intros H. split_and!.
      * intros kv Hin. destruct (H kv Hin) as (Hk & Hn & Hc). split; [done|]. split; [done|].
        apply (IH kv Hin); [|done]. by apply Hw.
      * rewrite <- list_fmap_compose. erewrite list_fmap_ext; [exact Hnd|].
        intros i kv Hin%list_elem_of_lookup_2. by destruct (H kv Hin) as ((_ & _ & ?) & _).
      * intros kv Hin. by intros ?%elem_of_nil.
Qed.
End Validate.

(** ** Properties *)

Section Properties.
Context {U : Unicode}.

(** Every integer of the value fits [i64]. *)
Fixpoint ints_fit_i64 (v : json) : bool :=
  match v with
  | JNumber (PosInt n) => n <=? i64_max
  | JArray l => (fix go (l : list json) : bool :=
                   match l with [] => true | x :: l' => ints_fit_i64 x && go l' end) l
  | JObject m => (fix go (m : list (string * json)) : bool :=
                    match m with [] => true | (_, x) :: m' => ints_fit_i64 x && go m' end) m
  | _ => true
  end.

Lemma strict_encodable v : strict v -> (encodable v <-> ints_fit_i64 v = true).
Proof.
  unfold strict, encodable. induction v as [| |x|s|l IH|m IH] using json_ind'; intros Hs; try done.
  - cbn. unfold number_encodable. destruct x as [n|z|b]; cbn in *; [|by eauto|done].
    destruct (n <=? i64_max); [by eauto|]. split; [by intros [? ?]|done].
  - rewrite clean_array in *. cbn [ints_fit_i64].
    induction l as [|x l IHl]; [done|]. rewrite Forall_cons in *. rewrite andb_true_iff.
    destruct IH as [Hx IH], Hs. by rewrite Hx, IHl.
  - rewrite clean_object in *. cbn [ints_fit_i64].
    induction m as [|[k x] m IHm]; [done|]. rewrite Forall_cons in *. rewrite andb_true_iff.
    cbn [fst snd] in *. destruct IH as [Hx IH], Hs as [(? & _ & ?) Hs].
    rewrite Hx, IHm by done. tauto.
Qed.

Lemma validate_strict v : json_wf v -> (validate v = Ok tt <-> strict v).
Proof.
  intros Hw. rewrite <- (collect_strict v "$") by done. unfold validate. by destruct (collect_errors v "$").
Qed.

Lemma normal_encodable_strict v : rho_normal v -> encodable v -> strict v.
Proof.
  unfold encodable, strict. induction v as [| |x|s|l IH|m IH] using json_ind'; try done.
  - intros _. cbn. unfold number_encodable. destruct x; cbn; try done; by intros [].
  - rewrite rho_normal_array, !clean_array. rewrite !Forall_forall in *. auto.
  - rewrite rho_normal_object, !clean_object. intros [_ Hn]. rewrite !Forall_forall in *.
    intros He kv Hin. destruct (He kv Hin) as (? & _ & ?), (Hn kv Hin). auto.
Qed.

(** Ρ is idempotent, and its result is a normal form: at every depth the
    keys are strictly ascending and no member is null. *)
Theorem rho_idempotent `{!UnicodeLaws U} v : json_wf v -> rho (rho v) = rho v /\ rho_normal (rho v).
Proof. intros Hw. split; [by apply rho_idem|by apply rho_is_normal]. Qed.

(** Canonicalising a value with ρ before encoding does not change its
    identity: a value the NRF-1 encoder accepts is still accepted after ρ,
    with the same canonical bytes, and then passes the strict validator. *)
Theorem rho_preserves_bytes `{!UnicodeLaws U} v bs :
  json_wf v -> to_nrf1_bytes v = Ok bs ->
  to_nrf1_bytes (rho v) = Ok bs /\ validate (rho v) = Ok tt.
Proof.
  unfold to_nrf1_bytes. rewrite !result_bind_ok. intros Hw (n & E & [= <-]).
  pose proof (encodable_conv _ _ E) as He. pose proof (rho_wf v Hw) as Hw'.
  pose proof (rho_encodable v Hw He) as He'. split.
  - destruct (conv_encodable _ ("body"%string, []) Hw' He') as [n' E'].
    exists n'. split; [done|]. by rewrite (json_equiv_conv _ _ _ _ (rho_equiv v Hw He) E E').
  - apply validate_strict; [done|]. apply normal_encodable_strict; [by apply rho_is_normal|done].
Qed.

(** A value that passes the strict validator is encodable exactly when
    all its integers fit [i64]: the validator lets unsigned integers above
    [i64::MAX] through, the encoder does not. *)
Theorem validated_encodable v :
  json_wf v -> validate v = Ok tt ->
  (exists bs, to_nrf1_bytes v = Ok bs) <-> ints_fit_i64 v = true.
Proof.
  intros Hw Hv%(validate_strict v Hw). rewrite <- (strict_encodable v Hv). unfold to_nrf1_bytes. split.
  - intros (bs & (n & E & _)%result_bind_ok). by eapply encodable_conv.
  - intros He. destruct (conv_encodable v ("body"%string, []) Hw He) as [n E].
    unfold json_to_nrf. rewrite E. by eexists.
Qed.
End Properties.

(** ** Witnesses *)

#[local] Instance ascii_unicode_laws : UnicodeLaws ascii_unicode.
Proof. by constructor. Qed.

Lemma sample_json1_wf : json_wf sample_json1.
Proof.
  cbn. unfold str_wf, u64_max. repeat split; try reflexivity; try lia.
  refine (bool_decide_unpack _ _); vm_compute; exact I.
Qed.

Lemma rho_idempotent_witness :
  rho (U := ascii_unicode) (rho (U := ascii_unicode) sample_json1) = rho (U := ascii_unicode) sample_json1 /\
  rho_normal (rho (U := ascii_unicode) sample_json1).
Proof. apply (@rho_idempotent ascii_unicode ascii_unicode_laws sample_json1), sample_json1_wf. Defined.

Lemma rho_preserves_bytes_witness :
  to_nrf1_bytes (U := ascii_unicode) (rho (U := ascii_unicode) sample_json1) = Ok sample_bytes /\
  validate (U := ascii_unicode) (rho (U := ascii_unicode) sample_json1) = Ok tt.
Proof.
  apply (@rho_preserves_bytes ascii_unicode ascii_unicode_laws sample_json1);
    [exact sample_json1_wf|vm_compute; reflexivity].
Defined.

(** [2^63], accepted by the validator and rejected by the encoder. *)
Lemma validated_encodable_witness :
  (exists bs, to_nrf1_bytes (U := ascii_unicode) (JNumber (PosInt (2 ^ 63))) = Ok bs) <->
  ints_fit_i64 (JNumber (PosInt (2 ^ 63))) = true.
Proof.
  apply (@validated_encodable ascii_unicode);
    [cbn; unfold u64_max; lia|vm_compute; reflexivity].
Defined.
