(* ===== verification/Tlv.v ===== *)
(** * Bytecode ([ubl_vm::opcode], [ubl_vm::tlv], [ubl_vm::disasm])

    The opcode table, the type-length-value instruction stream (the decoder
    and the encoder [tlv_instr] of the chip compiler) and the disassembler.
    [decode_stream_exact] characterises the decoder completely: a buffer
    decodes to a program exactly when it is that program's encoding. *)

From S2P Require Import Prelude RustStd.

(** ** Opcodes *)

Inductive Opcode : Type :=
| ConstI64 | ConstBytes | JsonNormalize | JsonValidate | AddI64
| SubI64 | MulI64 | CmpI64 | AssertTrue | HashBlake3
| CasPut | CasGet | SetRcBody | AttachProof | SignDefault
| EmitRc | Drop | PushInput | JsonGetKey | Dup
| Swap | VerifySig | NumFromDecimalStr | NumFromF64Bits | NumAdd
| NumSub | NumMul | NumDiv | NumToDec | NumToRat
| NumWithUnit | NumAssertUnit | NumCompare | JsonGetKeyBytes | JsonHasKey
| EqBytes | PushBodySize | PushBool | BoolNot | BoolOr
| BoolAnd | BoolToI64 | DivI64 | PushTimestamp | CmpTimestamp.

#[export] Instance opcode_eq_dec : EqDecision Opcode.
Proof. solve_decision. Defined.

(** [op as u8]: the discriminants of the [repr(u8)] enum. *)
Definition opcode_u8 (op : Opcode) : Byte.byte :=
  match op with
  | ConstI64 => x01 | ConstBytes => x02 | JsonNormalize => x03 | JsonValidate => x04 | AddI64 => x05
  | SubI64 => x06 | MulI64 => x07 | CmpI64 => x08 | AssertTrue => x09 | HashBlake3 => x0a
  | CasPut => x0b | CasGet => x0c | SetRcBody => x0d | AttachProof => x0e | SignDefault => x0f
  | EmitRc => x10 | Drop => x11 | PushInput => x12 | JsonGetKey => x13 | Dup => x14
  | Swap => x15 | VerifySig => x16 | NumFromDecimalStr => x17 | NumFromF64Bits => x18 | NumAdd => x19
  | NumSub => x1a | NumMul => x1b | NumDiv => x1c | NumToDec => x1d | NumToRat => x1e
  | NumWithUnit => x1f | NumAssertUnit => x20 | NumCompare => x21 | JsonGetKeyBytes => x22 | JsonHasKey => x23
  | EqBytes => x24 | PushBodySize => x25 | PushBool => x26 | BoolNot => x27 | BoolOr => x28
  | BoolAnd => x29 | BoolToI64 => x2a | DivI64 => x2b | PushTimestamp => x2c | CmpTimestamp => x2d
  end.

(** [TryFrom<u8>]. *)
Definition opcode_try_from (v : Byte.byte) : option Opcode :=
  match v with
  | x01 => Some ConstI64 | x02 => Some ConstBytes | x03 => Some JsonNormalize | x04 => Some JsonValidate | x05 => Some AddI64
  | x06 => Some SubI64 | x07 => Some MulI64 | x08 => Some CmpI64 | x09 => Some AssertTrue | x0a => Some HashBlake3
  | x0b => Some CasPut | x0c => Some CasGet | x0d => Some SetRcBody | x0e => Some AttachProof | x0f => Some SignDefault
  | x10 => Some EmitRc | x11 => Some Drop | x12 => Some PushInput | x13 => Some JsonGetKey | x14 => Some Dup
  | x15 => Some Swap | x16 => Some VerifySig | x17 => Some NumFromDecimalStr | x18 => Some NumFromF64Bits | x19 => Some NumAdd
  | x1a => Some NumSub | x1b => Some NumMul | x1c => Some NumDiv | x1d => Some NumToDec | x1e => Some NumToRat
  | x1f => Some NumWithUnit | x20 => Some NumAssertUnit | x21 => Some NumCompare | x22 => Some JsonGetKeyBytes | x23 => Some JsonHasKey
  | x24 => Some EqBytes | x25 => Some PushBodySize | x26 => Some PushBool | x27 => Some BoolNot | x28 => Some BoolOr
  | x29 => Some BoolAnd | x2a => Some BoolToI64 | x2b => Some DivI64 | x2c => Some PushTimestamp | x2d => Some CmpTimestamp
  | _ => None
  end.

(** [format!("{:?}", op)]: the derived [Debug] prints the variant's name. *)
Definition opcode_debug (op : Opcode) : string :=
  match op with
  | ConstI64 => "ConstI64" | ConstBytes => "ConstBytes" | JsonNormalize => "JsonNormalize"
  | JsonValidate => "JsonValidate" | AddI64 => "AddI64" | SubI64 => "SubI64"
  | MulI64 => "MulI64" | CmpI64 => "CmpI64" | AssertTrue => "AssertTrue"
  | HashBlake3 => "HashBlake3" | CasPut => "CasPut" | CasGet => "CasGet"
  | SetRcBody => "SetRcBody" | AttachProof => "AttachProof" | SignDefault => "SignDefault"
  | EmitRc => "EmitRc" | Drop => "Drop" | PushInput => "PushInput"
  | JsonGetKey => "JsonGetKey" | Dup => "Dup" | Swap => "Swap"
  | VerifySig => "VerifySig" | NumFromDecimalStr => "NumFromDecimalStr" | NumFromF64Bits => "NumFromF64Bits"
  | NumAdd => "NumAdd" | NumSub => "NumSub" | NumMul => "NumMul"
  | NumDiv => "NumDiv" | NumToDec => "NumToDec" | NumToRat => "NumToRat"
  | NumWithUnit => "NumWithUnit" | NumAssertUnit => "NumAssertUnit" | NumCompare => "NumCompare"
  | JsonGetKeyBytes => "JsonGetKeyBytes" | JsonHasKey => "JsonHasKey" | EqBytes => "EqBytes"
  | PushBodySize => "PushBodySize" | PushBool => "PushBool" | BoolNot => "BoolNot"
  | BoolOr => "BoolOr" | BoolAnd => "BoolAnd" | BoolToI64 => "BoolToI64"
  | DivI64 => "DivI64" | PushTimestamp => "PushTimestamp" | CmpTimestamp => "CmpTimestamp"
  end%string.

(** ** The instruction stream *)

Record Instr : Type := mkInstr { op : Opcode; payload : bytes }.

Inductive DecodeError : Type :=
| Truncated
| UnknownOpcode (v : Byte.byte).

(** One turn of the [while] loop per unit of fuel, on the bytes from index [i]
    on; [None] is "out of fuel", which [decode_stream]'s fuel excludes
    ([decode_loop_fuel]). *)
Fixpoint decode_loop (fuel : nat) (buf : bytes) : option (result DecodeError (list Instr)) :=
  match fuel with
  | O => None
  | S f =>
      match buf with
      | [] => Some (Ok [])
      | op_u8 :: l1 :: l2 :: rest =>
          let len := Z.to_nat (from_be_bytes 0 [l1; l2]) in
          if (length rest <? len)%nat then Some (Err Truncated)
          else
            match opcode_try_from op_u8 with
            | None => Some (Err (UnknownOpcode op_u8))
            | Some o =>
                match decode_loop f (drop len rest) with
                | Some (Ok out) => Some (Ok (mkInstr o (take len rest) :: out))
                | e => e
                end
            end
      | _ => Some (Err Truncated)
      end
  end.

Definition decode_stream (buf : bytes) : result DecodeError (list Instr) :=
  default (Err Truncated) (decode_loop (S (length buf)) buf).

(** The compiler's [tlv_instr]: the length is cast to [u16]. *)
Definition tlv_instr (opcode : Byte.byte) (payload : bytes) : bytes :=
  opcode :: to_be_bytes 2 (Z.of_nat (length payload) mod 2 ^ 16) ++ payload.

(** ** The disassembler *)

(** [{:x}], left-padded with zeros to [w] digits. *)
Fixpoint hex_digits (fuel : nat) (n : Z) (acc : string) : string :=
  match fuel with
  | O => acc
  | S f =>
      let acc' := String (hex_digit (n mod 16)) acc in
      if n <? 16 then acc' else hex_digits f (n / 16) acc'
  end.
Definition hex_string (n : Z) : string := hex_digits (S (Z.to_nat (Z.log2 n))) n "".
Fixpoint zeros (n : nat) : string :=
  match n with O => EmptyString | S n' => String "0" (zeros n') end.
Definition hex_padded (w : nat) (n : Z) : string :=
  let s := hex_string n in zeros (w - String.length s) +:+ s.

(** A double quote. *)
Definition quote : string := String (ascii_of_nat 34) EmptyString.

Definition hex_preview (bs : bytes) : string := hex_encode bs.

Definition cmp_name (n : Byte.byte) : string :=
  match n with
  | x00 => "(EQ)" | x01 => "(NE)" | x02 => "(LT)" | x03 => "(LE)" | x04 => "(GT)" | x05 => "(GE)"
  | _ => "(cmp=0x" +:+ hex_byte n +:+ "?)"
  end%string.

Definition utf8_detail (payload : bytes) : string :=
  match from_utf8 payload with
  | Some s => "(" +:+ quote +:+ s +:+ quote +:+ ")"
  | None => "(" +:+ u_to_string (Z.of_nat (length payload)) +:+ " bytes, non-utf8)"
  end%string.

Definition default_detail (payload : bytes) : string :=
  match payload with
  | [] => ""
  | _ => "(" +:+ u_to_string (Z.of_nat (length payload)) +:+ " bytes)"
  end%string.

Definition format_payload (op : Opcode) (payload : bytes) : string :=
  let len := length payload in
  (match op, payload with
   | ConstI64, _ =>
       if (len =? 8)%nat then "(" +:+ i_to_string (i64_from_be_bytes payload) +:+ ")"
       else default_detail payload
   | ConstBytes, _ =>
       if (len <=? 32)%nat then
         "(" +:+ u_to_string (Z.of_nat len) +:+ " bytes: " +:+ hex_preview payload +:+ ")"
       else
         "(" +:+ u_to_string (Z.of_nat len) +:+ " bytes: " +:+ hex_preview (take 32 payload) +:+ "...)"
   | PushInput, [_; _] => "(idx=" +:+ u_to_string (from_be_bytes 0 payload) +:+ ")"
   | CmpI64, [n] | CmpTimestamp, [n] => cmp_name n
   | JsonGetKey, _ | NumWithUnit, _ | NumAssertUnit, _ | JsonGetKeyBytes, _ | JsonHasKey, _ =>
       utf8_detail payload
   | NumToDec, [a; b; c; d; rm] =>
       "(scale=" +:+ u_to_string (from_be_bytes 0 [a; b; c; d]) +:+ ", rm=" +:+ u_to_string (u8 rm) +:+ ")"
   | NumToRat, _ =>
       if (len =? 8)%nat then "(limit_den=" +:+ u_to_string (from_be_bytes 0 payload) +:+ ")"
       else default_detail payload
   | PushBool, [b] => if negb (u8 b =? 0)%Z then "(true)" else "(false)"
   | _, _ => default_detail payload
   end)%string.

Definition format_instr (offset : nat) (op : Opcode) (payload : bytes) : string :=
  let name := opcode_debug op in
  let detail := format_payload op payload in
  let head := hex_padded 4 (Z.of_nat offset) +:+ "  " +:+ hex_byte (opcode_u8 op) +:+ "  " +:+ name in
  if String.eqb detail "" then head else head +:+ " " +:+ detail.

Definition newline : string := String (ascii_of_nat 10) EmptyString.

Fixpoint disassemble_loop (offset : nat) (instrs : list Instr) (out : string) : string :=
  match instrs with
  | [] => out
  | ins :: rest =>
      disassemble_loop (offset + (3 + length (payload ins))) rest
        (out +:+ format_instr offset (op ins) (payload ins) +:+ newline)
  end.

Definition disassemble (bytecode : bytes) : result DecodeError string :=
  instrs ← decode_stream bytecode;
  let out := disassemble_loop 0 instrs "" in
  Ok (if String.eqb out "" then "(empty program)" +:+ newline else out).

(** ** Facts *)

Lemma opcode_try_from_u8 o : opcode_try_from (opcode_u8 o) = Some o.
Proof. by destruct o. Qed.

Lemma opcode_try_from_Some b o : opcode_try_from b = Some o -> opcode_u8 o = b.
Proof. destruct b; cbn; intros H; by simplify_eq. Qed.

(** The encoding of a program. *)
Definition encode_instr (i : Instr) : bytes := tlv_instr (opcode_u8 (op i)) (payload i).
Definition encode_stream (prog : list Instr) : bytes := concat (encode_instr <$> prog).
Definition payload_fits (i : Instr) : Prop := Z.of_nat (length (payload i)) < 2 ^ 16.

Lemma encode_stream_cons i prog : encode_stream (i :: prog) = encode_instr i ++ encode_stream prog.
Proof. done. Qed.

Lemma be_pair n : 0 <= n < 2 ^ 16 ->
  exists h l, to_be_bytes 2 n = [h; l] /\ from_be_bytes 0 [h; l] = n.
Proof.
  intros Hn. destruct (to_be_bytes 2 n) as [|h [|l [|]]] eqn:E; try discriminate E.
  exists h, l. split; [done|]. rewrite <- E, from_to_be_bytes. by apply Z.mod_small.
Qed.

Lemma decode_loop_cons f i rest :
  payload_fits i ->
  decode_loop (S f) (encode_instr i ++ rest) =
  match decode_loop f rest with Some (Ok out) => Some (Ok (i :: out)) | e => e end.
Proof.
  intros Hi. unfold payload_fits in Hi. unfold encode_instr, tlv_instr. destruct i as [o p]; cbn [op payload] in *.
  destruct (be_pair (Z.of_nat (length p) mod 2 ^ 16)) as (h & l & E & E'); [by apply Z.mod_pos_bound|].
  rewrite E. cbn [app decode_loop]. rewrite E', Z.mod_small, Nat2Z.id by lia.
  rewrite length_app. destruct (Nat.ltb_spec (length p + length rest) (length p)); [lia|].
  rewrite opcode_try_from_u8, drop_app_length, take_app_length. done.
Qed.

Lemma encode_instr_length i : length (encode_instr i) = (3 + length (payload i))%nat.
Proof. done. Qed.

(** Every turn consumes at least three bytes. *)
Lemma decode_loop_fuel f buf : (length buf < f)%nat -> decode_loop f buf <> None.
Proof.
  revert buf. induction f as [|f IH]; intros buf Hf; [lia|]. cbn [decode_loop].
  destruct buf as [|o [|l1 [|l2 rest]]]; try done. case_match; [done|]. case_match; [|done].
  pose proof (IH (drop (Z.to_nat (from_be_bytes 0 [l1; l2])) rest)) as Hr.
  rewrite length_drop in Hr. cbn [length] in Hf. specialize (Hr ltac:(lia)).
  by destruct (decode_loop _ _) as [[]|].
Qed.

Lemma decode_loop_encode f prog :
  Forall payload_fits prog -> (length prog < f)%nat -> decode_loop f (encode_stream prog) = Some (Ok prog).
Proof.
  intros H. revert f. induction H as [|i prog Hi His IH]; intros [|f] Hf; try (cbn in Hf; lia); [done|].
  rewrite encode_stream_cons, decode_loop_cons by done. rewrite IH; [done|]. cbn in Hf. lia.
Qed.

Lemma encode_stream_length prog : (length prog <= length (encode_stream prog))%nat.
Proof.
  induction prog as [|i prog IH]; [done|].
  rewrite encode_stream_cons, length_app, encode_instr_length. cbn [length]. lia.
Qed.

Lemma decode_loop_inverse f buf prog :
  decode_loop f buf = Some (Ok prog) -> buf = encode_stream prog /\ Forall payload_fits prog.
Proof.
  revert buf prog. induction f as [|f IH]; intros buf prog; [done|]. cbn [decode_loop].
  destruct buf as [|o [|l1 [|l2 rest]]]; try done; [by intros [= <-]|].
  pose proof (from_be_bytes_range [l1; l2]) as Hr. pose proof (to_from_be_bytes [l1; l2]) as Hl.
  cbn [length] in Hr, Hl. remember (from_be_bytes 0 [l1; l2]) as n eqn:En. clear En.
  destruct (Nat.ltb_spec (length rest) (Z.to_nat n)) as [|Hlen]; [done|].
  destruct (opcode_try_from o) as [o'|] eqn:Eo; [|done].
  destruct (decode_loop f _) as [[out|]|] eqn:Ed; [|done..]. intros [= <-].
  apply IH in Ed as [Ed Hout]. apply opcode_try_from_Some in Eo.
  assert (length (take (Z.to_nat n) rest) = Z.to_nat n) as Ht by (rewrite length_take; lia). split.
  - rewrite encode_stream_cons, <- Ed. unfold encode_instr, tlv_instr. cbn [op payload].
    rewrite Ht, Z2Nat.id, Z.mod_small, Eo, Hl by lia. cbn [app]. by rewrite take_drop.
  - constructor; [|done]. unfold payload_fits. cbn [payload]. rewrite Ht. lia.
Qed.

(** Decoding the compiler's output, one instruction at a time or whole. *)
Lemma decode_stream_encode prog : Forall payload_fits prog -> decode_stream (encode_stream prog) = Ok prog.
Proof.
  intros H. unfold decode_stream. rewrite decode_loop_encode; [done..|].
  pose proof (encode_stream_length prog). lia.
Qed.

Lemma encode_stream_app p1 p2 : encode_stream (p1 ++ p2) = encode_stream p1 ++ encode_stream p2.
Proof. unfold encode_stream. by rewrite fmap_app, concat_app. Qed.

(** The listing of a program that follows [pre]: one line per instruction,
    each with its byte offset in the whole encoding. *)
Fixpoint listing (pre prog : list Instr) : string :=
  match prog with
  | [] => ""
  | i :: rest =>
      format_instr (length (encode_stream pre)) (op i) (payload i) +:+ newline +:+ listing (pre ++ [i]) rest
  end.

Lemma disassemble_listing pre prog out :
  disassemble_loop (length (encode_stream pre)) prog out = out +:+ listing pre prog.
Proof.
  revert pre out. induction prog as [|i prog IH]; intros pre out; cbn [disassemble_loop listing].
  { by rewrite str_app_nil. }
  assert (length (encode_stream pre) + (3 + length (payload i)) = length (encode_stream (pre ++ [i])))%nat as ->.
  { rewrite encode_stream_app, length_app, encode_stream_cons, length_app, encode_instr_length. cbn. lia. }
  by rewrite IH, !str_app_assoc.
Qed.

Lemma listing_nonempty pre i prog : listing pre (i :: prog) <> ""%string.
Proof. cbn [listing]. by intros [_ [[=] _]%str_app_empty]%str_app_empty. Qed.

(** ** Properties *)

(** The instruction decoder is exactly the inverse of the encoder: a buffer
    decodes to a program if and only if it is the concatenation of the
    encodings of its instructions, each with a payload of at most 65535
    bytes.  So decoding is injective and no other byte string is accepted. *)
Theorem decode_stream_exact buf prog :
  decode_stream buf = Ok prog <-> buf = encode_stream prog /\ Forall payload_fits prog.
Proof.
  split.
  - unfold decode_stream. pose proof (decode_loop_fuel (S (length buf)) buf ltac:(lia)).
    destruct (decode_loop _ _) as [r|] eqn:E; [|done]. cbn. intros ->. by eapply decode_loop_inverse.
  - intros [-> H]. by apply decode_stream_encode.
Qed.

(** A payload longer than 65535 bytes does not survive [tlv_instr]: the
    length field holds its length modulo [2^16], so the instruction does not
    decode to itself. *)
Theorem tlv_instr_truncates o p :
  2 ^ 16 <= Z.of_nat (length p) -> decode_stream (tlv_instr (opcode_u8 o) p) <> Ok [mkInstr o p].
Proof.
  intros Hp H. unfold decode_stream in H.
  destruct (decode_loop (S (length (tlv_instr (opcode_u8 o) p))) (tlv_instr (opcode_u8 o) p)) as [r|] eqn:E;
    [|done]. cbn in H. subst r. apply decode_loop_inverse in E as [_ E]. inversion E as [|? ? Hf _]; subst.
  unfold payload_fits in Hf. cbn [payload] in Hf. lia.
Qed.

(** The disassembler lists every instruction of the program, in order, at
    its byte offset in the encoding; it fails only when decoding fails. *)
Theorem disassemble_offsets buf :
  disassemble buf =
  match decode_stream buf with
  | Err e => Err e
  | Ok [] => Ok ("(empty program)" +:+ newline)
  | Ok prog => Ok (listing [] prog)
  end.
Proof.
  unfold disassemble. destruct (decode_stream buf) as [prog|e]; [|done]. cbn [mbind result_bind].
  pose proof (disassemble_listing [] prog "") as H. cbn [encode_stream concat fmap list_fmap length] in H.
  rewrite H. change ("" +:+ listing [] prog) with (listing [] prog). destruct prog as [|i prog]; [done|].
  destruct (String.eqb_spec (listing [] (i :: prog)) "") as [E|]; [|done]. by apply listing_nonempty in E.
Qed.

(** ** Witnesses *)

Lemma tlv_instr_truncates_witness :
  decode_stream (tlv_instr (opcode_u8 ConstBytes) (replicate (Z.to_nat 65536) x00)) <>
  Ok [mkInstr ConstBytes (replicate (Z.to_nat 65536) x00)].
Proof. apply (tlv_instr_truncates ConstBytes). rewrite length_replicate. lia. Defined.
