(* ===== verification/Vm.v ===== *)
(** * The RB-VM ([ubl_vm::exec], [ubl_vm::types])

    The stack machine that executes compiled chips: one definition per opcode
    arm of [Vm::run], over an explicit machine state.  The content store, the
    signer and the canonicaliser are the VM's own provider traits (classes
    here); the clock read by [PushTimestamp], Ed25519, base64 and the derived
    serde code of [Num] are parameters. *)

From S2P Require Import Prelude RustStd Json Nrf BigNum Unc1 Tlv.

(** ** Types *)

Definition Cid : Type := string.

Inductive Value : Type :=
| I64 (v : Z)
| Bytes (b : bytes)
| Json (v : json)
| VNum (n : Num)
| VCid (c : Cid)
| Bool (b : bool)
| VUnit.

Record RcPayload : Type := {
  subject_cid : option Cid;
  engine : string;
  rc_ghost : bool;
  rc_inputs : list Cid;
  rc_proofs : list Cid;
  rc_steps : Z;
  rc_fuel_used : Z;
  policy_id : string;
  decision : json;
  body : json;
}.

(** The text of a [Deny]: a constant, one with a key, or the rendering of an
    arithmetic error after a prefix. *)
Inductive deny_reason : Type :=
| Reason (s : string)
| ReasonKey (s key : string)
| ReasonNum (prefix : string) (e : unc_error).

(** [Unwinds] stands for a panic inside an opcode. *)
Inductive ExecError : Type :=
| FuelExhausted
| StackUnderflow (op : Opcode)
| TypeMismatch (op : Opcode)
| InvalidPayload (op : Opcode)
| Deny (why : deny_reason)
| Unwinds.

Definition deny_num (prefix : string) (e : unc_error) : ExecError :=
  match e with Panic => Unwinds | _ => Deny (ReasonNum prefix e) end.

(** ** Providers *)

(** [CasProvider]: [put] may change the store. *)
Class CasProvider (C : Type) : Type := {
  cas_put : C -> bytes -> Cid * C;
  cas_get : C -> Cid -> option bytes;
}.

(** [SignProvider] and [CanonProvider]. *)
Class SignProvider : Type := { sign_jws : bytes -> bytes; kid : string }.
Class CanonProvider : Type := { canon : json -> json }.

(** [ed25519_dalek]: does the signature verify under a 32-byte key ([false]
    also when the key bytes are not a point). *)
Class Ed25519 : Type := { ed25519_verify : bytes -> bytes -> bytes -> bool }.
(** [base64] with the URL-safe alphabet, no padding. *)
Class Base64 : Type := { base64_url : bytes -> string }.
(** The derived [Serialize]/[Deserialize] of [Num]. *)
Class NumSerde : Type := { num_from_value : json -> option Num; num_to_value : Num -> option json }.
(** The wall clock: seconds since the epoch when step [n] of a run reads it. *)
Class Clock : Type := { unix_secs : Z -> Z }.

(** ** The machine *)

Record VmConfig : Type := { fuel_limit : Z; ghost : bool; tracing : bool }.

Record TraceStep : Type := mkTrace {
  ts_step : Z; ts_op : string; ts_fuel_after : Z; ts_stack_depth : nat; ts_note : option string;
}.

(** The stack is listed from its top. *)
Record Vm (C : Type) : Type := mkVm {
  cfg : VmConfig;
  stack : list Value;
  steps : Z;
  fuel_used : Z;
  cas : C;
  inputs : list Cid;
  rc_body : json;
  proofs : list Cid;
  trace : list TraceStep;
  body_size : Z;
}.
Arguments mkVm {C} _ _ _ _ _ _ _ _ _ _.
Arguments cfg {C} _.
Arguments stack {C} _.
Arguments steps {C} _.
Arguments fuel_used {C} _.
Arguments cas {C} _.
Arguments inputs {C} _.
Arguments rc_body {C} _.
Arguments proofs {C} _.
Arguments trace {C} _.
Arguments body_size {C} _.

Record VmOutcome : Type := mkOutcome {
  rc_cid : option Cid;
  rc_sig : option string;
  rc_payload_cid : option Cid;
  out_steps : Z;
  out_fuel_used : Z;
  out_trace : list TraceStep;
}.

Section Machine.
Context {C : Type} {CP : CasProvider C} {SP : SignProvider} {KP : CanonProvider} {ED : Ed25519}
  {B64 : Base64} {NS : NumSerde} {CK : Clock} {HB3 : Blake3} {SJ : SerdeJson} {BN : BigNum}.

Definition vm_new (cfg : VmConfig) (cas : C) (inputs : list Cid) : Vm C :=
  mkVm cfg [] 0 0 cas inputs (JObject []) [] [] 0.

Definition with_body_size (m : Vm C) (size : Z) : Vm C :=
  mkVm (cfg m) (stack m) (steps m) (fuel_used m) (cas m) (inputs m) (rc_body m) (proofs m) (trace m) size.

Definition set_stack (m : Vm C) (s : list Value) : Vm C :=
  mkVm (cfg m) s (steps m) (fuel_used m) (cas m) (inputs m) (rc_body m) (proofs m) (trace m) (body_size m).
Definition set_counters (m : Vm C) (st fu : Z) : Vm C :=
  mkVm (cfg m) (stack m) st fu (cas m) (inputs m) (rc_body m) (proofs m) (trace m) (body_size m).
Definition set_cas (m : Vm C) (c : C) : Vm C :=
  mkVm (cfg m) (stack m) (steps m) (fuel_used m) c (inputs m) (rc_body m) (proofs m) (trace m) (body_size m).
Definition set_rc_body (m : Vm C) (v : json) : Vm C :=
  mkVm (cfg m) (stack m) (steps m) (fuel_used m) (cas m) (inputs m) v (proofs m) (trace m) (body_size m).
Definition set_proofs (m : Vm C) (p : list Cid) : Vm C :=
  mkVm (cfg m) (stack m) (steps m) (fuel_used m) (cas m) (inputs m) (rc_body m) p (trace m) (body_size m).
Definition set_trace (m : Vm C) (t : list TraceStep) : Vm C :=
  mkVm (cfg m) (stack m) (steps m) (fuel_used m) (cas m) (inputs m) (rc_body m) (proofs m) t (body_size m).

(** The [&mut self] methods: a state monad over the machine with [ExecError]s. *)
Definition vm (A : Type) : Type := Vm C -> result ExecError (A * Vm C).
#[global] Instance vm_ret : MRet vm := fun A a m => Ok (a, m).
#[global] Instance vm_bind : MBind vm := fun A B f x m =>
  match x m with Ok (a, m') => f a m' | Err e => Err e end.
Definition fail {A} (e : ExecError) : vm A := fun _ => Err e.
Definition lift {A} (r : result ExecError A) : vm A := fun m =>
  match r with Ok a => Ok (a, m) | Err e => Err e end.
Definition gets {A} (f : Vm C -> A) : vm A := fun m => Ok (f m, m).
Definition modify (f : Vm C -> Vm C) : vm () := fun m => Ok (tt, f m).

Definition charge (units : Z) : vm () := fun m =>
  let next := u64_saturating_add (fuel_used m) units in
  if fuel_limit (cfg m) <? next then Err FuelExhausted
  else Ok (tt, set_counters m (steps m) next).

Definition pop : vm Value := fun m =>
  match stack m with
  | [] => Err (StackUnderflow Drop)
  | v :: s => Ok (v, set_stack m s)
  end.

Definition push (v : Value) : vm () := fun m => Ok (tt, set_stack m (v :: stack m)).

Definition pop_num_for (op : Opcode) : vm Num :=
  v ← pop;
  match v with
  | VNum n => mret n
  | I64 v => mret (NumInt (i_to_string v) None)
  | Json v => lift (ok_or (num_from_value v) (TypeMismatch op))
  | _ => fail (TypeMismatch op)
  end.

(** [match self.pop()? { I64(v) => v, _ => return Err(TypeMismatch(op)) }]
    and its like. *)
Definition pop_i64 (op : Opcode) : vm Z :=
  v ← pop; match v with I64 v => mret v | _ => fail (TypeMismatch op) end.
Definition pop_bytes (op : Opcode) : vm bytes :=
  v ← pop; match v with Bytes b => mret b | _ => fail (TypeMismatch op) end.
Definition pop_json (op : Opcode) : vm json :=
  v ← pop; match v with Json v => mret v | _ => fail (TypeMismatch op) end.
Definition pop_cid (op : Opcode) : vm Cid :=
  v ← pop; match v with VCid c => mret c | _ => fail (TypeMismatch op) end.
Definition pop_bool (op : Opcode) : vm bool :=
  v ← pop; match v with Bool b => mret b | _ => fail (TypeMismatch op) end.
Definition pop_bytes_or_cid (op : Opcode) : vm bytes :=
  v ← pop; match v with Bytes b => mret b | VCid c => mret (as_bytes c) | _ => fail (TypeMismatch op) end.

(** ** The opcode arms *)

Definition exec_const_i64 (payload : bytes) : vm () :=
  if negb (length payload =? 8)%nat then fail (InvalidPayload ConstI64)
  else push (I64 (i64_from_be_bytes payload)).

Definition exec_const_bytes (payload : bytes) : vm () := push (Bytes payload).

Definition exec_drop : vm () := _ ← pop; mret tt.

Definition exec_push_input (payload : bytes) : vm () :=
  if negb (length payload =? 2)%nat then fail (InvalidPayload PushInput)
  else
    let idx := Z.to_nat (from_be_bytes 0 payload) in
    ins ← gets inputs;
    cid ← lift (ok_or (ins !! idx) (InvalidPayload PushInput));
    push (VCid cid).

Definition exec_arith (op : Opcode) : vm () :=
  b ← pop_i64 op;
  a ← pop_i64 op;
  push (I64 (match op with
             | AddI64 => i64_saturating_add a b
             | SubI64 => i64_saturating_sub a b
             | _ => i64_saturating_mul a b
             end)).

Definition cmp_op (code : Byte.byte) (a b : Z) : option bool :=
  match code with
  | x00 => Some (a =? b)
  | x01 => Some (negb (a =? b))
  | x02 => Some (a <? b)
  | x03 => Some (a <=? b)
  | x04 => Some (b <? a)
  | x05 => Some (b <=? a)
  | _ => None
  end.

Definition exec_cmp_i64 (payload : bytes) : vm () :=
  match payload with
  | [code] =>
      b ← pop_i64 CmpI64;
      a ← pop_i64 CmpI64;
      ok ← lift (ok_or (cmp_op code a b) (InvalidPayload CmpI64));
      push (Bool ok)
  | _ => fail (InvalidPayload CmpI64)
  end.

Definition exec_assert_true : vm () :=
  v ← pop_bool AssertTrue;
  if negb v then fail (Deny (Reason "assert_false")) else mret tt.

Definition exec_cas_get : vm () :=
  cid ← pop_cid CasGet;
  c ← gets cas;
  bs ← lift (ok_or (cas_get c cid) (Deny (Reason "cas_get_not_found")));
  push (Bytes bs).

Definition exec_cas_put : vm () :=
  bs ← pop_bytes CasPut;
  c ← gets cas;
  let '(cid, c') := cas_put c bs in
  _ ← modify (fun m => set_cas m c');
  push (VCid cid).

Definition exec_json_normalize : vm () :=
  bs ← pop_bytes JsonNormalize;
  v ← lift (ok_or (from_slice bs) (Deny (Reason "json_parse_error")));
  push (Json (canon v)).

Definition exec_json_validate : vm () := v ← pop_json JsonValidate; push (Json v).

Definition exec_json_get_key (payload : bytes) : vm () :=
  key ← lift (ok_or (from_utf8 payload) (InvalidPayload JsonGetKey));
  v ← pop_json JsonGetKey;
  extracted ← lift (ok_or (get key v) (Deny (Reason "json_key_missing_or_not_i64")));
  match as_i64 extracted with
  | Some n => push (I64 n)
  | None =>
      match get "@num" extracted with
      | Some _ =>
          num ← lift (ok_or (num_from_value extracted) (Deny (Reason "json_key_missing_or_not_i64")));
          push (VNum num)
      | None => fail (Deny (Reason "json_key_missing_or_not_i64"))
      end
  end.

Definition exec_hash_blake3 : vm () := bs ← pop_bytes HashBlake3; push (Bytes (blake3 bs)).

Definition exec_set_rc_body : vm () :=
  v ← pop;
  j ← match v with
      | Json v => mret v
      | VNum n => lift (ok_or (num_to_value n) (Deny (Reason "num_serialize_error")))
      | _ => fail (TypeMismatch SetRcBody)
      end;
  modify (fun m => set_rc_body m j).

Definition exec_attach_proof : vm () :=
  cid ← pop_cid AttachProof;
  modify (fun m => set_proofs m (proofs m ++ [cid])).

Definition exec_dup : vm () := v ← pop; _ ← push v; push v.

Definition exec_swap : vm () := b ← pop; a ← pop; _ ← push b; push a.

Definition exec_verify_sig : vm () :=
  pubkey_bytes ← pop_bytes VerifySig;
  sig_bytes ← pop_bytes VerifySig;
  msg_bytes ← pop_bytes VerifySig;
  push (Bool (if (length pubkey_bytes =? 32)%nat && (length sig_bytes =? 64)%nat
              then ed25519_verify pubkey_bytes sig_bytes msg_bytes else false)).

Definition exec_num_from_decimal_str : vm () :=
  raw ← pop_bytes NumFromDecimalStr;
  decimal ← lift (ok_or (from_utf8 raw) (InvalidPayload NumFromDecimalStr));
  num ← lift (map_err (deny_num "num_from_decimal_str: ") (from_decimal_str decimal));
  push (VNum num).

Definition exec_num_from_f64_bits : vm () :=
  bits_i64 ← pop_i64 NumFromF64Bits;
  if bits_i64 <? 0 then fail (InvalidPayload NumFromF64Bits)
  else
    num ← lift (map_err (deny_num "num_from_f64_bits: ") (from_f64_bits bits_i64));
    push (VNum num).

Definition exec_num_op (op : Opcode) : vm () :=
  b ← pop_num_for op;
  a ← pop_num_for op;
  r ← lift (map_err (deny_num "num_op_error: ")
         (match op with
          | NumAdd => add a b
          | NumSub => sub a b
          | NumMul => mul a b
          | _ => div a b
          end));
  push (VNum r).

Definition exec_num_to_dec (payload : bytes) : vm () :=
  match payload with
  | [b0; b1; b2; b3; b4] =>
      let scale := from_be_bytes 0 [b0; b1; b2; b3] in
      rm ← lift (map_err (fun _ => InvalidPayload NumToDec) (rounding_mode_from_u8 (u8 b4)));
      a ← pop_num_for NumToDec;
      r ← lift (map_err (deny_num "num_to_dec: ") (to_dec a scale rm));
      push (VNum r)
  | _ => fail (InvalidPayload NumToDec)
  end.

Definition exec_num_to_rat (payload : bytes) : vm () :=
  if negb (length payload =? 8)%nat then fail (InvalidPayload NumToRat)
  else
    let limit_den := from_be_bytes 0 payload in
    a ← pop_num_for NumToRat;
    r ← lift (map_err (deny_num "num_to_rat: ") (to_rat a limit_den));
    push (VNum r).

Definition exec_num_with_unit (payload : bytes) : vm () :=
  unit ← lift (ok_or (from_utf8 payload) (InvalidPayload NumWithUnit));
  a ← pop_num_for NumWithUnit;
  r ← lift (map_err (deny_num "num_with_unit: ") (with_unit a unit));
  push (VNum r).

Definition exec_num_assert_unit (payload : bytes) : vm () :=
  unit ← lift (ok_or (from_utf8 payload) (InvalidPayload NumAssertUnit));
  a ← pop_num_for NumAssertUnit;
  _ ← lift (map_err (deny_num "num_assert_unit: ") (assert_unit a unit));
  push (VNum a).

Definition exec_num_compare : vm () :=
  b ← pop_num_for NumCompare;
  a ← pop_num_for NumCompare;
  r ← lift (map_err (deny_num "num_compare: ") (compare a b));
  push (VNum r).

Definition exec_json_get_key_bytes (payload : bytes) : vm () :=
  key ← lift (ok_or (from_utf8 payload) (InvalidPayload JsonGetKeyBytes));
  v ← pop_json JsonGetKeyBytes;
  s ← lift (ok_or (get key v ≫= as_str) (Deny (ReasonKey "json_key_missing_or_not_string: " key)));
  push (Bytes (as_bytes s)).

Definition exec_json_has_key (payload : bytes) : vm () :=
  key ← lift (ok_or (from_utf8 payload) (InvalidPayload JsonHasKey));
  v ← pop_json JsonHasKey;
  push (Bool (match get key v with Some val => negb (is_null val) | None => false end)).

Definition exec_eq_bytes : vm () :=
  b ← pop_bytes_or_cid EqBytes;
  a ← pop_bytes_or_cid EqBytes;
  push (Bool (bool_decide (a = b))).

Definition exec_push_body_size : vm () := n ← gets body_size; push (I64 (u64_as_i64 n)).

Definition exec_push_bool (payload : bytes) : vm () :=
  match payload with
  | [b] => push (Bool (negb (u8 b =? 0)))
  | _ => fail (InvalidPayload PushBool)
  end.

Definition exec_bool_not : vm () := b ← pop_bool BoolNot; push (Bool (negb b)).
Definition exec_bool_or : vm () := b ← pop_bool BoolOr; a ← pop_bool BoolOr; push (Bool (a || b)).
Definition exec_bool_and : vm () := b ← pop_bool BoolAnd; a ← pop_bool BoolAnd; push (Bool (a && b)).
Definition exec_bool_to_i64 : vm () := b ← pop_bool BoolToI64; push (I64 (Z.b2z b)).

Definition exec_div_i64 : vm () :=
  b ← pop_i64 DivI64;
  a ← pop_i64 DivI64;
  push (I64 (if b =? 0 then 0 else i64_saturating_div a b)).

Definition exec_push_timestamp : vm () :=
  n ← gets steps;
  push (I64 (u64_as_i64 (unix_secs n))).

Definition exec_cmp_timestamp (payload : bytes) : vm () :=
  match payload with
  | [code] =>
      b ← pop_i64 CmpTimestamp;
      a ← pop_i64 CmpTimestamp;
      ok ← lift (ok_or (cmp_op code a b) (InvalidPayload CmpTimestamp));
      push (Bool ok)
  | _ => fail (InvalidPayload CmpTimestamp)
  end.

(** [if self.cfg.trace { self.trace.push(..) }]. *)
Definition push_trace (trace_op : string) (note : option string) : vm () := fun m =>
  if tracing (cfg m) then
    Ok (tt, set_trace m (trace m ++
              [mkTrace (steps m) trace_op (fuel_used m) (length (stack m)) note]))
  else Ok (tt, m).

(** [serde_json::to_value(&payload)]: the struct's fields in order; a [Cid]
    is its string. *)
Definition rc_payload_value (p : RcPayload) : json :=
  JObject [("subject_cid", match subject_cid p with Some c => JString c | None => JNull end);
           ("engine", JString (engine p));
           ("ghost", JBool (rc_ghost p));
           ("inputs", JArray (JString <$> rc_inputs p));
           ("proofs", JArray (JString <$> rc_proofs p));
           ("steps", JNumber (PosInt (rc_steps p)));
           ("fuel_used", JNumber (PosInt (rc_fuel_used p)));
           ("policy_id", JString (policy_id p));
           ("decision", decision p);
           ("body", body p)]%string.

Definition emit_payload (m : Vm C) : RcPayload := {|
  subject_cid := None;
  engine := "rb-vm/0.1.0";
  rc_ghost := ghost (cfg m);
  rc_inputs := inputs m;
  rc_proofs := proofs m;
  rc_steps := steps m;
  rc_fuel_used := fuel_used m;
  policy_id := "default:v1";
  decision := JObject [("status"%string, JString "ok")];
  body := rc_body m;
|}.

Definition exec_emit_rc (trace_op : string) : vm VmOutcome :=
  _ ← push_trace trace_op (Some "emit_rc"%string);
  payload ← gets emit_payload;
  let bs := to_vec (canon (rc_payload_value payload)) in
  let sig_bytes := sign_jws bs in
  if (length sig_bytes =? 0)%nat then fail (Deny (Reason "emit_rc_missing_signature"))
  else
    let sig := "ed25519:" +:+ base64_url sig_bytes in
    c ← gets cas;
    let '(cid, c') := cas_put c bs in
    _ ← modify (fun m => set_cas m c');
    t ← gets trace;
    _ ← modify (fun m => set_trace m []);
    gets (fun m => mkOutcome (Some cid) (Some sig) (Some cid) (steps m) (fuel_used m) t).

(** The arms that fall through to the end of the loop body. *)
Definition exec_op (o : Opcode) (payload : bytes) : vm () :=
  match o with
  | ConstI64 => exec_const_i64 payload
  | ConstBytes => exec_const_bytes payload
  | Drop => exec_drop
  | PushInput => exec_push_input payload
  | AddI64 | SubI64 | MulI64 => exec_arith o
  | CmpI64 => exec_cmp_i64 payload
  | AssertTrue => exec_assert_true
  | CasGet => exec_cas_get
  | CasPut => exec_cas_put
  | JsonNormalize => exec_json_normalize
  | JsonValidate => exec_json_validate
  | JsonGetKey => exec_json_get_key payload
  | HashBlake3 => exec_hash_blake3
  | SetRcBody => exec_set_rc_body
  | AttachProof => exec_attach_proof
  | SignDefault => mret tt
  | Dup => exec_dup
  | Swap => exec_swap
  | VerifySig => exec_verify_sig
  | NumFromDecimalStr => exec_num_from_decimal_str
  | NumFromF64Bits => exec_num_from_f64_bits
  | NumAdd | NumSub | NumMul | NumDiv => exec_num_op o
  | NumToDec => exec_num_to_dec payload
  | NumToRat => exec_num_to_rat payload
  | NumWithUnit => exec_num_with_unit payload
  | NumAssertUnit => exec_num_assert_unit payload
  | NumCompare => exec_num_compare
  | JsonGetKeyBytes => exec_json_get_key_bytes payload
  | JsonHasKey => exec_json_has_key payload
  | EqBytes => exec_eq_bytes
  | PushBodySize => exec_push_body_size
  | PushBool => exec_push_bool payload
  | BoolNot => exec_bool_not
  | BoolOr => exec_bool_or
  | BoolAnd => exec_bool_and
  | BoolToI64 => exec_bool_to_i64
  | DivI64 => exec_div_i64
  | PushTimestamp => exec_push_timestamp
  | CmpTimestamp => exec_cmp_timestamp payload
  | EmitRc => mret tt
  end.

(** The loop of [run]; [EmitRc] returns from it. *)
Fixpoint run (code : list Instr) : vm VmOutcome :=
  match code with
  | [] => fun m : Vm C => Ok (mkOutcome None None None (steps m) (fuel_used m) (trace m), set_trace m [])
  | ins :: rest =>
      _ ← charge 1;
      _ ← modify (fun m => set_counters m (steps m + 1) (fuel_used m));
      match op ins with
      | EmitRc => exec_emit_rc (opcode_debug EmitRc)
      | o =>
          _ ← exec_op o (payload ins);
          _ ← push_trace (opcode_debug o) None;
          run rest
      end
  end.
End Machine.
