(* ===== verification/VmFacts.v ===== *)
(** * Facts about the RB-VM

    Reasoning principles for the machine monad (relations preserved by every
    opcode, typing triples on the stack, commutation with a change of state)
    and the properties of [run]: exact fuel accounting, the typed stack,
    independence of tracing and of the clock, and what [EmitRc] signs. *)

From S2P Require Import Prelude RustStd Json Nrf BigNum Unc1 Tlv Vm.

(** Unfold the arms of [exec_op] down to the machine's primitives. *)
Ltac unfold_ops :=
  unfold exec_const_i64, exec_const_bytes, exec_drop, exec_push_input, exec_arith, exec_cmp_i64,
    exec_assert_true, exec_cas_get, exec_cas_put, exec_json_normalize, exec_json_validate,
    exec_json_get_key, exec_hash_blake3, exec_set_rc_body, exec_attach_proof, exec_dup, exec_swap,
    exec_verify_sig, exec_num_from_decimal_str, exec_num_from_f64_bits, exec_num_op, exec_num_to_dec,
    exec_num_to_rat, exec_num_with_unit, exec_num_assert_unit, exec_num_compare,
    exec_json_get_key_bytes, exec_json_has_key, exec_eq_bytes, exec_push_body_size, exec_push_bool,
    exec_bool_not, exec_bool_or, exec_bool_and, exec_bool_to_i64, exec_div_i64, exec_push_timestamp,
    exec_cmp_timestamp, pop_i64, pop_bytes, pop_json, pop_cid, pop_bool, pop_bytes_or_cid.

Section Facts.
Context {C : Type} {CP : CasProvider C} {SP : SignProvider} {KP : CanonProvider} {ED : Ed25519}
  {B64 : Base64} {NS : NumSerde} {CK : Clock} {HB3 : Blake3} {SJ : SerdeJson} {BN : BigNum}.
Implicit Types (m : Vm C) (code : list Instr).

(** ** Relations every operation preserves *)

Section Preserves.
Context (R : Vm C -> Vm C -> Prop) `{!PreOrder R}.
Context (R_stack : forall m s, R m (set_stack m s)) (R_cas : forall m c, R m (set_cas m c))
  (R_body : forall m v, R m (set_rc_body m v)) (R_proofs : forall m p, R m (set_proofs m p)).

Definition preserves {A} (x : vm A) : Prop := forall m a m', x m = Ok (a, m') -> R m m'.

Lemma pr_bind {A B} (x : vm A) (f : A -> vm B) :
  preserves x -> (forall a, preserves (f a)) -> preserves (x ≫= f).
Proof using PreOrder0.
  intros Hx Hf m b m'. unfold mbind, vm_bind. destruct (x m) as [[a m1]|] eqn:E; [|done].
  intros H. etrans; [by eapply Hx|by eapply Hf].
Qed.
Lemma pr_ret {A} (a : A) : preserves (mret a).
Proof using PreOrder0. by intros m b m' [= _ <-]. Qed.
Lemma pr_fail {A} e : preserves (fail (A := A) e).
Proof. by intros m a m' [=]. Qed.
Lemma pr_lift {A} (r : result ExecError A) : preserves (lift r).
Proof using PreOrder0. intros m a m'. unfold lift. destruct r; [|done]. by intros [= _ <-]. Qed.
Lemma pr_gets {A} (f : Vm C -> A) : preserves (gets f).
Proof using PreOrder0. by intros m a m' [= _ <-]. Qed.
Lemma pr_modify f : (forall m, R m (f m)) -> preserves (modify f).
Proof. intros Hf m a m' [= _ <-]. apply Hf. Qed.
Lemma pr_pop : preserves pop.
Proof using R_stack. intros m a m'. unfold pop. destruct (stack m); [done|]. intros [= _ <-]. apply R_stack. Qed.
Lemma pr_push v : preserves (push v).
Proof using R_stack. intros m a m' [= _ <-]. apply R_stack. Qed.

Ltac pr :=
  repeat first
    [ apply pr_bind; [|intros ?] | apply pr_ret | apply pr_fail | apply pr_lift | apply pr_gets
    | apply pr_pop | apply pr_push | apply pr_modify; intros ?; auto; fail
    | case_match ].

Lemma pr_pop_num o : preserves (pop_num_for o).
Proof using All. unfold pop_num_for. pr. Qed.
Lemma exec_op_preserves o p : preserves (exec_op o p).
Proof using All.
  destruct o; cbn [exec_op];
    unfold_ops;
    repeat first [apply pr_pop_num | progress pr].
Qed.
End Preserves.

(** The part of the machine no opcode touches. *)
Definition same_frame m m' : Prop :=
  cfg m' = cfg m /\ steps m' = steps m /\ fuel_used m' = fuel_used m /\ inputs m' = inputs m /\
  trace m' = trace m /\ body_size m' = body_size m.
#[global] Instance same_frame_preorder : PreOrder same_frame.
Proof. split; [intros m; by split_and!|]. unfold same_frame. intros ??? H1 H2. naive_solver congruence. Qed.

Lemma exec_op_frame o p m u m' : exec_op o p m = Ok (u, m') -> same_frame m m'.
Proof. apply exec_op_preserves; [apply _|by repeat intro..]. Qed.

(** ** One turn of the loop *)

Definition tick m : Vm C := set_counters m (steps m + 1) (u64_saturating_add (fuel_used m) 1).
Definition trace_entry (o : Opcode) (note : option string) m : TraceStep :=
  mkTrace (steps m) (opcode_debug o) (fuel_used m) (length (stack m)) note.
Definition record (o : Opcode) (note : option string) m : Vm C :=
  if tracing (cfg m) then set_trace m (trace m ++ [trace_entry o note m]) else m.

Lemma run_nil m :
  run [] m = Ok (mkOutcome None None None (steps m) (fuel_used m) (trace m), set_trace m []).
Proof. reflexivity. Qed.

Lemma run_cons ins rest m :
  run (ins :: rest) m =
  if fuel_limit (cfg m) <? u64_saturating_add (fuel_used m) 1 then Err FuelExhausted
  else if decide (op ins = EmitRc) then exec_emit_rc (opcode_debug EmitRc) (tick m)
  else match exec_op (op ins) (payload ins) (tick m) with
       | Ok (_, m') => run rest (record (op ins) None m')
       | Err e => Err e
       end.
Proof.
  cbn [run]. unfold charge, modify, push_trace, record, tick, mbind, vm_bind.
  destruct (fuel_limit (cfg m) <? _); [done|].
  change (steps (set_counters m ?a ?b)) with a. change (fuel_used (set_counters m ?a ?b)) with b.
  change (set_counters (set_counters m ?a ?b) ?c ?d) with (set_counters m c d).
  destruct (decide (op ins = EmitRc)) as [->|Hne]; [done|].
  destruct (op ins); try congruence;
    (destruct (exec_op _ _ _) as [[u m']|]; [|done]); by destruct (tracing (cfg m')).
Qed.

(** The number of instructions [run] executes when it succeeds: up to and
    including the first [EmitRc]. *)
Fixpoint executed code : nat :=
  match code with
  | [] => 0
  | ins :: rest => if decide (op ins = EmitRc) then 1 else S (executed rest)
  end.

Lemma executed_le code : (executed code <= length code)%nat.
Proof. induction code as [|ins code IH]; cbn; [done|]. case_decide; lia. Qed.

Lemma tick_fuel m : fuel_limit (cfg m) < u64_max ->
  (fuel_limit (cfg m) <? u64_saturating_add (fuel_used m) 1) = false ->
  fuel_used (tick m) = fuel_used m + 1 /\ fuel_used m + 1 <= fuel_limit (cfg m).
Proof. cbn. unfold u64_saturating_add. intros. bool_to_prop. lia. Qed.

Lemma emit_rc_inv o m out m' :
  exec_emit_rc (opcode_debug o) m = Ok (out, m') ->
  let m1 := record o (Some "emit_rc"%string) m in
  let bs := to_vec (canon (rc_payload_value (emit_payload m))) in
  let cid := (cas_put (cas m) bs).1 in
  sign_jws bs <> [] /\
  out = mkOutcome (Some cid) (Some ("ed25519:" +:+ base64_url (sign_jws bs))) (Some cid)
          (steps m) (fuel_used m) (trace m1) /\
  m' = set_trace (set_cas m1 (cas_put (cas m) bs).2) [].
Proof.
  unfold exec_emit_rc, push_trace, record, gets, modify, fail, mbind, vm_bind.
  destruct (tracing (cfg m)); cbv beta iota.
  all: change (emit_payload (set_trace m ?t)) with (emit_payload m).
  all: destruct (sign_jws _) as [|b l] eqn:E; cbn [length Nat.eqb]; [done|].
  all: change (cas (set_trace m ?t)) with (cas m).
  all: destruct (cas_put _ _) as [cid c'] eqn:Ec; intros [= <- <-]; split; [done|]; done.
Qed.

(** ** Fuel *)

(** Opcodes never report exhaustion themselves. *)
Definition no_exhaustion {A} (x : vm A) : Prop := forall m, x m <> Err FuelExhausted.

Lemma ne_bind {A B} (x : vm A) (f : A -> vm B) :
  no_exhaustion x -> (forall a, no_exhaustion (f a)) -> no_exhaustion (x ≫= f).
Proof.
  intros Hx Hf m. unfold mbind, vm_bind. specialize (Hx m). destruct (x m) as [[a m1]|]; [apply Hf|congruence].
Qed.
Lemma ne_ok_or {A} (o : option A) e : e <> FuelExhausted -> no_exhaustion (lift (ok_or o e)).
Proof. intros He m. unfold lift. destruct o; cbn; congruence. Qed.
Lemma ne_deny {A} prefix (r : result unc_error A) : no_exhaustion (lift (map_err (deny_num prefix) r)).
Proof. intros m. unfold lift. destruct r as [a|e]; cbn; [congruence|]. by destruct e. Qed.
Lemma ne_rounding v : no_exhaustion (lift (map_err (fun _ => InvalidPayload NumToDec) (rounding_mode_from_u8 v))).
Proof. intros m. unfold lift. by destruct (rounding_mode_from_u8 v). Qed.
Lemma ne_pop : no_exhaustion pop.
Proof. intros m. unfold pop. by destruct (stack m). Qed.

Ltac ne :=
  repeat first
    [ apply ne_bind; [|intros ?] | apply ne_ok_or; discriminate | apply ne_deny | apply ne_rounding | apply ne_pop
    | done | case_match ].

Lemma exec_op_no_exhaustion o p : no_exhaustion (exec_op o p).
Proof.
  assert (forall o, no_exhaustion (pop_num_for o)) as Hn by (intros; unfold pop_num_for; ne).
  destruct o; cbn [exec_op]; unfold_ops; repeat first [apply Hn | progress ne].
Qed.

Lemma emit_no_exhaustion s : no_exhaustion (exec_emit_rc s).
Proof.
  intros m. unfold exec_emit_rc, push_trace, gets, modify, fail, mbind, vm_bind.
  destruct (tracing (cfg m)); cbv beta iota; (case_match; [done|]); by destruct (cas_put _ _).
Qed.

Lemma record_frame o note m :
  cfg (record o note m) = cfg m /\ steps (record o note m) = steps m /\
  fuel_used (record o note m) = fuel_used m.
Proof. unfold record. by destruct (tracing (cfg m)). Qed.

Lemma record_trace_length o note m :
  length (trace (record o note m)) = (length (trace m) + if tracing (cfg m) then 1 else 0)%nat.
Proof. unfold record. destruct (tracing (cfg m)); cbn; [by rewrite length_app|lia]. Qed.

(** ** Properties *)

(** Exact fuel accounting.  A successful run charges one unit per executed
    instruction and nothing else: steps and fuel grow by exactly the number
    of instructions up to the first [EmitRc], the total stays within the
    limit, the trace (when enabled) has one entry per instruction, and a
    receipt is emitted if and only if the program has an [EmitRc]. *)
Theorem run_accounting code m out m' :
  run code m = Ok (out, m') -> fuel_used m <= fuel_limit (cfg m) < u64_max ->
  out_steps out = steps m + Z.of_nat (executed code) /\
  out_fuel_used out = fuel_used m + Z.of_nat (executed code) /\
  out_fuel_used out <= fuel_limit (cfg m) /\
  length (out_trace out) = (length (trace m) + if tracing (cfg m) then executed code else 0)%nat /\
  (is_Some (rc_cid out) <-> EmitRc ∈ (op <$> code)).
Proof.
  revert m. induction code as [|ins code IH]; intros m.
  { rewrite run_nil. intros [= <- _] Hl. cbn. do 3 (split; [lia|]). split; [destruct (tracing (cfg m)); lia|].
    split; [by intros [? [=]]|]. by intros ?%elem_of_nil. }
  rewrite run_cons. destruct (fuel_limit (cfg m) <? _) eqn:Hf; [done|]. intros H Hl.
  apply tick_fuel in Hf as [Hf Hle]; [|lia]. csimpl. case_decide as Ho.
  - apply emit_rc_inv in H as (_ & -> & _). cbn [out_steps out_fuel_used out_trace rc_cid].
    rewrite Hf, record_trace_length. cbn [tick set_counters steps trace cfg].
    do 3 (split; [lia|]). split; [destruct (tracing (cfg m)); lia|]. split; [by rewrite Ho; left|eauto].
  - destruct (exec_op _ _ _) as [[u m1]|] eqn:Ex; [|done].
    apply exec_op_frame in Ex as (Hc & Hs & Hu & _ & Ht & _).
    destruct (record_frame (op ins) None m1) as (Rc & Rs & Rf).
    apply IH in H; [|rewrite Rc, Rf, Hc, Hu, Hf; cbn; lia].
    rewrite record_trace_length, Rc, Rs, Rf, Hc, Hs, Hu, Hf, Ht in H.
    cbn [tick set_counters steps trace cfg] in H. destruct H as (H1 & H2 & H3 & H4 & H5).
    do 3 (split; [lia|]). split; [destruct (tracing (cfg m)); lia|]. rewrite H5, elem_of_cons. naive_solver.
Qed.

(** A fuel limit that covers the program is never exhausted: running out
    of fuel is possible only when fewer units are left than instructions
    remain. *)
Theorem fuel_sufficient code m :
  fuel_used m + Z.of_nat (executed code) <= fuel_limit (cfg m) < u64_max ->
  run code m <> Err FuelExhausted.
Proof.
  revert m. induction code as [|ins code IH]; intros m Hl; [done|]. rewrite run_cons. cbn [executed] in Hl.
  destruct (fuel_limit (cfg m) <? u64_saturating_add (fuel_used m) 1) eqn:Hf.
  { unfold u64_saturating_add in Hf. bool_to_prop. case_decide; lia. }
  apply tick_fuel in Hf as [Hf Hle]; [|lia]. case_decide; [apply emit_no_exhaustion|].
  pose proof (exec_op_no_exhaustion (op ins) (payload ins) (tick m)) as Hx.
  destruct (exec_op _ _ _) as [[u m1]|] eqn:Ex; [|congruence].
  apply exec_op_frame in Ex as (Hc & Hs & Hu & _).
  destruct (record_frame (op ins) None m1) as (Rc & Rs & Rf).
  apply IH. rewrite Rc, Rf, Hc, Hu, Hf. cbn. lia.
Qed.
End Facts.

(** ** Commutation with a change of state *)

Section Commutes.
Context {C : Type} {CP : CasProvider C} {SP : SignProvider} {KP : CanonProvider} {ED : Ed25519}
  {B64 : Base64} {NS : NumSerde} {CK : Clock} {HB3 : Blake3} {SJ : SerdeJson} {BN : BigNum}.
Implicit Types (m : Vm C) (code : list Instr).

(** The observable components an opcode may read. *)
Definition view m : list Value * list Cid * C * Z * Z := (stack m, inputs m, cas m, steps m, body_size m).

(** A change [f] of the parts no opcode reads. *)
Class Invisible (f : Vm C -> Vm C) : Prop := {
  inv_view m : view (f m) = view m;
  inv_stack m s : f (set_stack m s) = set_stack (f m) s;
  inv_cas m c : f (set_cas m c) = set_cas (f m) c;
  inv_body m v : f (set_rc_body m v) = set_rc_body (f m) v;
  inv_proofs m p : f (set_proofs m p) = set_proofs (f m) p;
  inv_proofs_get m : proofs (f m) = proofs m;
}.

Context (f : Vm C -> Vm C) `{HI : !Invisible f}.

Definition commutes {A} (x : vm A) : Prop :=
  forall m, x (f m) = match x m with Ok (a, m') => Ok (a, f m') | Err e => Err e end.

Lemma cm_bind {A B} (x : vm A) (g : A -> vm B) :
  commutes x -> (forall a, commutes (g a)) -> commutes (x ≫= g).
Proof.
  intros Hx Hg m. unfold mbind, vm_bind. rewrite Hx. destruct (x m) as [[a m1]|]; [apply Hg|done].
Qed.
Lemma cm_lift {A} (r : result ExecError A) : commutes (lift r).
Proof. intros m. unfold lift. by destruct r. Qed.
Lemma cm_gets {A} (g : Vm C -> A) (h : list Value * list Cid * C * Z * Z -> A) :
  (forall m, g m = h (view m)) -> commutes (gets g).
Proof using HI. intros Hg m. unfold gets. by rewrite !Hg, inv_view. Qed.
Lemma cm_modify g : (forall m, f (g m) = g (f m)) -> commutes (modify g).
Proof. intros Hg m. unfold modify. by rewrite Hg. Qed.
Lemma view_stack m : stack (f m) = stack m.
Proof using HI. pose proof (inv_view m) as H. by injection H. Qed.
Lemma cm_pop : commutes pop.
Proof using HI. intros m. unfold pop. rewrite view_stack. destruct (stack m); [done|]. by rewrite inv_stack. Qed.
Lemma cm_push v : commutes (push v).
Proof using HI. intros m. unfold push. by rewrite view_stack, inv_stack. Qed.

Ltac cm :=
  repeat first
    [ apply cm_bind; [|intros ?] | apply cm_lift | apply cm_pop | apply cm_push
    | apply (cm_gets inputs (fun v => v.1.1.1.2)); reflexivity
    | apply (cm_gets cas (fun v => v.1.1.2)); reflexivity
    | apply (cm_gets steps (fun v => v.1.2)); reflexivity
    | apply (cm_gets body_size (fun v => v.2)); reflexivity
    | apply cm_modify; intros ?; first [apply inv_cas|apply inv_body|by rewrite inv_proofs_get, inv_proofs]
    | done | case_match ].

Lemma exec_op_commutes o p : commutes (exec_op o p).
Proof using HI.
  assert (forall o, commutes (pop_num_for o)) as Hn by (intros; unfold pop_num_for; cm).
  destruct o; cbn [exec_op]; unfold_ops; repeat first [apply Hn | progress cm].
Qed.
End Commutes.

Section Independence.
Context {C : Type} {CP : CasProvider C} {SP : SignProvider} {KP : CanonProvider} {ED : Ed25519}
  {B64 : Base64} {NS : NumSerde} {HB3 : Blake3} {SJ : SerdeJson} {BN : BigNum}.
Implicit Types (m : Vm C) (code : list Instr).

(** The machine and the outcome with tracing switched off. *)
Definition untraced m : Vm C :=
  mkVm {| fuel_limit := fuel_limit (cfg m); ghost := ghost (cfg m); tracing := false |}
    (stack m) (steps m) (fuel_used m) (cas m) (inputs m) (rc_body m) (proofs m) [] (body_size m).
Definition untraced_outcome (o : VmOutcome) : VmOutcome :=
  mkOutcome (rc_cid o) (rc_sig o) (rc_payload_cid o) (out_steps o) (out_fuel_used o) [].
#[global] Instance untraced_invisible : Invisible untraced.
Proof. by constructor. Qed.

Lemma untraced_record o note m : untraced (record o note m) = untraced m.
Proof. unfold record. by destruct (tracing (cfg m)). Qed.

(** Tracing is an observer: switching it off changes neither the result,
    nor the receipt, nor the final machine, only the trace itself. *)
Theorem tracing_invisible {CK : Clock} code m :
  run code (untraced m) =
  match run code m with
  | Ok (out, m') => Ok (untraced_outcome out, untraced m')
  | Err e => Err e
  end.
Proof.
  revert m. induction code as [|ins code IH]; intros m; [done|]. rewrite !run_cons.
  change (fuel_limit (cfg (untraced m))) with (fuel_limit (cfg m)).
  change (fuel_used (untraced m)) with (fuel_used m). case_match; [done|].
  change (tick (untraced m)) with (untraced (tick m)). case_decide.
  - unfold exec_emit_rc, push_trace, gets, modify, fail, mbind, vm_bind. cbn [tracing cfg untraced].
    change (emit_payload (untraced (tick m))) with (emit_payload (tick m)).
    destruct (tracing (cfg (tick m))); cbv beta iota;
      [change (emit_payload (set_trace (tick m) ?t)) with (emit_payload (tick m));
       change (cas (set_trace (tick m) ?t)) with (cas (tick m))|];
      change (cas (untraced (tick m))) with (cas (tick m));
      (case_match; [done|]); by destruct (cas_put _ _).
  - rewrite (exec_op_commutes untraced). destruct (exec_op _ _ _) as [[u m1]|]; [|done].
    assert (record (op ins) None (untraced m1) = untraced (record (op ins) None m1)) as ->;
      [by rewrite untraced_record|apply IH].
Qed.

(** Without [PushTimestamp] a run does not depend on the clock, so the
    same program on the same inputs gives the same outcome on every machine
    and at every time. *)
Theorem clock_independent (CK1 CK2 : Clock) code m :
  ~ PushTimestamp ∈ (op <$> code) -> run (CK := CK1) code m = run (CK := CK2) code m.
Proof.
  revert m. induction code as [|ins code IH]; intros m Hn; [done|]. rewrite !run_cons.
  csimpl in Hn. rewrite not_elem_of_cons in Hn. destruct Hn as [Ho Hn].
  case_match; [done|]. case_decide; [done|].
  assert (exec_op (CK := CK1) (op ins) (payload ins) (tick m) =
          exec_op (CK := CK2) (op ins) (payload ins) (tick m)) as -> by (by destruct (op ins)).
  destruct (exec_op _ _ _) as [[u m1]|]; [|done]. by apply IH.
Qed.

(** Instructions after the first [EmitRc] are not executed. *)
Lemma run_stops_at_emit {CK : Clock} code m : run (take (executed code) code) m = run code m.
Proof.
  revert m. induction code as [|ins code IH]; intros m; [done|]. cbn [executed]. case_decide.
  - cbn [take]. rewrite !run_cons. case_match; [done|]. by case_decide.
  - cbn [take]. rewrite !run_cons. case_match; [done|]. case_decide; [done|].
    destruct (exec_op _ _ _) as [[u m1]|]; [apply IH|done].
Qed.
End Independence.
