(* ===== verification/VmTyping.v ===== *)
(** * The RB-VM's values stay in range, and what a receipt binds

    The typing invariant of the machine's stack under every opcode (integers
    in [i64], JSON well formed), and the contents of an emitted receipt. *)

From S2P Require Import Prelude RustStd Json Nrf BigNum Unc1 Tlv Vm VmFacts.

(** What the machine expects of its environment: the JSON reader and the
    canonicaliser produce well-formed values, the clock and the body size are
    [u64]. *)
Class EnvLaws (SJ : SerdeJson) (KP : CanonProvider) (CK : Clock) : Prop := {
  from_slice_wf bs v : from_slice bs = Some v -> json_wf v;
  canon_wf v : json_wf v -> json_wf (canon v);
  clock_u64 n : 0 <= unix_secs n <= u64_max;
}.

(** A content store returns what was put under the identifier it gave. *)
Class CasLaws (C : Type) (CP : CasProvider C) : Prop := {
  cas_put_get c bs : cas_get (cas_put c bs).2 (cas_put c bs).1 = Some bs;
}.

Section Typing.
Context {C : Type} {CP : CasProvider C} {SP : SignProvider} {KP : CanonProvider} {ED : Ed25519}
  {B64 : Base64} {NS : NumSerde} {CK : Clock} {HB3 : Blake3} {SJ : SerdeJson} {BN : BigNum}.
Implicit Types (m : Vm C) (code : list Instr).

Definition value_ok (v : Value) : Prop :=
  match v with I64 z => in_i64 z = true | Json j => json_wf j | _ => True end.
Definition vm_ok m : Prop := Forall value_ok (stack m) /\ 0 <= body_size m <= u64_max.

Context `{HE : !EnvLaws SJ KP CK}.

Definition typed {A} (x : vm A) (Q : A -> Prop) : Prop :=
  forall m a m', vm_ok m -> x m = Ok (a, m') -> Q a /\ vm_ok m'.

Lemma ty_bind {A B} (x : vm A) (f : A -> vm B) Q R :
  typed x Q -> (forall a, Q a -> typed (f a) R) -> typed (x ≫= f) R.
Proof.
  intros Hx Hf m b m' Hm. unfold mbind, vm_bind. destruct (x m) as [[a m1]|] eqn:E; [|done].
  intros H. apply Hx in E as [Ha Hm1]; [|done]. by eapply Hf.
Qed.
Lemma ty_ret {A} (Q : A -> Prop) a : Q a -> typed (mret a) Q.
Proof. by intros HQ m b m' Hm [= <- <-]. Qed.
Lemma ty_fail {A} e (Q : A -> Prop) : typed (fail e) Q.
Proof. by intros m a m' _ [=]. Qed.
Lemma ty_lift {A} (r : result ExecError A) : typed (lift r) (fun a => r = Ok a).
Proof. intros m a m' Hm. unfold lift. destruct r; [|done]. by intros [= -> ->]. Qed.
Lemma ty_gets {A} (f : Vm C -> A) : typed (gets f) (fun a => exists m, vm_ok m /\ a = f m).
Proof. intros m a m' Hm [= <- <-]. split; [by exists m|done]. Qed.
Lemma ty_modify f : (forall m, vm_ok m -> vm_ok (f m)) -> typed (modify f) (fun _ => True).
Proof. intros Hf m a m' Hm [= _ <-]. auto. Qed.
Lemma ty_pop : typed pop value_ok.
Proof.
  intros m a m' [Hs Hb]. unfold pop. destruct (stack m) as [|v s] eqn:E; [done|]. intros [= <- <-].
  inversion Hs; subst. by split.
Qed.
Lemma ty_push v : value_ok v -> typed (push v) (fun _ => True).
Proof. intros Hv m a m' [Hs Hb] [= _ <-]. split; [done|]. split; [by constructor|done]. Qed.

Lemma ty_pop_as {A} (f : Value -> option A) o (Q : A -> Prop) (x : Value -> vm A) :
  (forall v, match f v with Some a => x v = mret a | None => x v = fail (TypeMismatch o) end) ->
  (forall v a, value_ok v -> f v = Some a -> Q a) -> typed (v ← pop; x v) Q.
Proof.
  intros Hx HQ. eapply ty_bind; [apply ty_pop|]. intros v Hv. specialize (Hx v).
  destruct (f v) eqn:E; rewrite Hx; [|apply ty_fail]. apply ty_ret. eauto.
Qed.

Lemma ty_pop_i64 o : typed (pop_i64 o) (fun z => in_i64 z = true).
Proof.
  apply (ty_pop_as (fun v => match v with I64 z => Some z | _ => None end) o); [by intros []|].
  intros [] a Hv; by intros [= <-].
Qed.
Lemma ty_pop_json o : typed (pop_json o) json_wf.
Proof.
  apply (ty_pop_as (fun v => match v with Json z => Some z | _ => None end) o); [by intros []|].
  intros [] a Hv; by intros [= <-].
Qed.
Lemma ty_pop_any {A} (f : Value -> option A) o (x : Value -> vm A) :
  (forall v, match f v with Some a => x v = mret a | None => x v = fail (TypeMismatch o) end) ->
  typed (v ← pop; x v) (fun _ => True).
Proof. intros H. by eapply ty_pop_as. Qed.
Lemma ty_pop_bytes o : typed (pop_bytes o) (fun _ => True).
Proof. by apply (ty_pop_any (fun v => match v with Bytes b => Some b | _ => None end) o); intros []. Qed.
Lemma ty_pop_cid o : typed (pop_cid o) (fun _ => True).
Proof. by apply (ty_pop_any (fun v => match v with VCid b => Some b | _ => None end) o); intros []. Qed.
Lemma ty_pop_bool o : typed (pop_bool o) (fun _ => True).
Proof. by apply (ty_pop_any (fun v => match v with Bool b => Some b | _ => None end) o); intros []. Qed.
Lemma ty_pop_bytes_or_cid o : typed (pop_bytes_or_cid o) (fun _ => True).
Proof.
  by apply (ty_pop_any (fun v => match v with Bytes b => Some b | VCid c => Some (as_bytes c) | _ => None end) o);
    intros [].
Qed.
Lemma ty_weaken {A} (x : vm A) Q : typed x Q -> typed x (fun _ => True).
Proof. intros H m a m' Hm E. split; [done|]. by eapply H. Qed.
Lemma ty_pop_num o : typed (pop_num_for o) (fun _ => True).
Proof.
  eapply ty_bind; [apply ty_pop|]. intros [] _; try (by apply ty_ret); try apply ty_fail.
  eapply ty_weaken, ty_lift.
Qed.

Lemma get_wf k v x : json_wf v -> get k v = Some x -> json_wf x.
Proof.
  destruct v as [| | | | |m]; try done. rewrite json_wf_object. intros [_ Hw] E. cbn in E.
  apply map_get_elem in E. rewrite Forall_forall in Hw. by apply Hw in E as [_ ?].
Qed.
Lemma as_i64_wf v n : json_wf v -> as_i64 v = Some n -> in_i64 n = true.
Proof.
  destruct v as [| |[p|z|b]| | |]; cbn; try done; unfold in_i64, i64_min, i64_max, u64_max in *.
  - case_match; [|done]. intros Hw [= <-]. lia.
  - intros Hw [= <-]. lia.
Qed.
Lemma div_in_i64 a b : in_i64 (if b =? 0 then 0 else i64_saturating_div a b) = true.
Proof. case_match; [done|]. apply saturate_in_i64. Qed.

Ltac ty_leaf :=
  cbn [value_ok]; unfold i64_saturating_add, i64_saturating_sub, i64_saturating_mul;
  first [ done | apply saturate_in_i64 | apply div_in_i64 | assumption
        | apply u64_as_i64_range; first [apply clock_u64 | naive_solver]
        | by apply i64_from_be_bytes_range, Nat.eqb_eq, negb_false_iff
        | by eapply as_i64_wf; [eapply get_wf|]; eauto ].
Ltac ty :=
  repeat first
    [ apply ty_push; ty_leaf | apply ty_fail | by apply ty_ret
    | eapply ty_bind; [first [apply ty_pop_i64 | apply ty_pop_json | apply ty_pop_bytes | apply ty_pop_cid
                             | apply ty_pop_bool | apply ty_pop_bytes_or_cid | apply ty_pop_num | apply ty_lift
                             | apply ty_gets | apply ty_modify; done | apply ty_pop
                             | eapply ty_push; assumption ]|intros ? ?]
    | apply ty_modify; done | case_match ].

Lemma exec_op_typed o p : typed (exec_op o p) (fun _ => True).
Proof using HE.
  destruct o; cbn [exec_op];
    unfold exec_const_i64, exec_const_bytes, exec_drop, exec_push_input, exec_arith, exec_cmp_i64,
      exec_assert_true, exec_cas_get, exec_cas_put, exec_json_validate,
      exec_json_get_key, exec_hash_blake3, exec_attach_proof, exec_dup, exec_swap,
      exec_verify_sig, exec_num_from_decimal_str, exec_num_from_f64_bits, exec_num_op, exec_num_to_dec,
      exec_num_to_rat, exec_num_with_unit, exec_num_assert_unit, exec_num_compare,
      exec_json_get_key_bytes, exec_json_has_key, exec_eq_bytes, exec_push_body_size, exec_push_bool,
      exec_bool_not, exec_bool_or, exec_bool_and, exec_bool_to_i64, exec_div_i64, exec_push_timestamp,
      exec_cmp_timestamp; try solve [ty].
  - unfold exec_json_normalize. eapply ty_bind; [apply ty_pop_bytes|]. intros bs _.
    eapply ty_bind; [apply ty_lift|]. intros v Hv. apply ty_push. cbn.
    destruct (from_slice bs) eqn:E; [|done]. injection Hv as ->. by eapply canon_wf, from_slice_wf.
  - eapply ty_bind; [apply ty_lift|]. intros key _. eapply ty_bind; [apply ty_pop_json|]. intros v Hv.
    eapply ty_bind; [apply ty_lift|]. intros x Hx.
    destruct (get key v) as [x'|] eqn:Eg; [|done]. injection Hx as ->.
    destruct (as_i64 x) as [n|] eqn:Ei; [|by ty]. apply ty_push. cbn.
    eapply as_i64_wf; [by eapply get_wf|done].
  - eapply ty_bind; [apply ty_gets|]. intros n (m & [_ Hm] & ->). apply ty_push. by apply u64_as_i64_range.
  - eapply ty_bind; [apply ty_pop_bool|]. intros [] _; by apply ty_push.
Qed.

Lemma record_ok o note m : vm_ok m -> vm_ok (record o note m).
Proof. unfold record. by destruct (tracing (cfg m)). Qed.

(** C39: The typed-stack invariant.  From a machine whose stack holds [i64]
    integers and well-formed JSON, every run that succeeds ends in such a
    machine: no opcode, saturating arithmetic, body size or timestamp
    included, can produce an integer outside [i64]. *)
Theorem run_typed code m out m' : vm_ok m -> run code m = Ok (out, m') -> vm_ok m'.
Proof using HE.
  revert m. induction code as [|ins code IH]; intros m Hm; [by intros [= _ <-]|]. rewrite run_cons.
  case_match; [done|]. case_decide.
  - intros (_ & _ & ->)%emit_rc_inv. by apply (record_ok EmitRc (Some "emit_rc"%string) (tick m)) in Hm.
  - destruct (exec_op _ _ _) as [[u m1]|] eqn:E; [|done]. apply exec_op_typed in E as [_ Hm1]; [|done].
    apply IH. by apply record_ok.
Qed.
End Typing.

Section Receipts.
Context {C : Type} {CP : CasProvider C} {SP : SignProvider} {KP : CanonProvider} {ED : Ed25519}
  {B64 : Base64} {NS : NumSerde} {CK : Clock} {HB3 : Blake3} {SJ : SerdeJson} {BN : BigNum}.
Implicit Types (m : Vm C) (code : list Instr).

(** The machine at the [EmitRc] that ended a run. *)
Lemma run_emits code m out m' cid :
  run code m = Ok (out, m') -> rc_cid out = Some cid ->
  exists m1, inputs m1 = inputs m /\ cfg m1 = cfg m /\ exec_emit_rc (opcode_debug EmitRc) m1 = Ok (out, m').
Proof.
  revert m. induction code as [|ins code IH]; intros m; [by intros [= <- _]|]. rewrite run_cons.
  case_match; [done|]. case_decide; [by exists (tick m)|].
  destruct (exec_op _ _ _) as [[u m1]|] eqn:E; [|done].
  apply exec_op_frame in E as (Hc & _ & _ & Hi & _). intros H1 H2.
  destruct (IH _ H1 H2) as (m2 & Hi2 & Hc2 & He). exists m2.
  assert (inputs (record (op ins) None m1) = inputs m1 /\ cfg (record (op ins) None m1) = cfg m1)
    as [Ri Rc] by (unfold record; by destruct (tracing (cfg m1))).
  split_and!; [by rewrite Hi2, Ri, Hi|by rewrite Hc2, Rc, Hc|done].
Qed.

(** C38: What a receipt binds.  When a run emits a receipt, the bytes stored
    under its CID are the canonical JSON of a payload with exactly the run's
    inputs, ghost flag, step count and fuel, the signature in the outcome is
    the signer's over those same bytes, and the instructions after the first
    [EmitRc] do not matter. *)
Theorem receipt_binds `{!CasLaws C CP} code m out m' cid :
  run code m = Ok (out, m') -> rc_cid out = Some cid ->
  run (take (executed code) code) m = Ok (out, m') /\
  exists p, let bs := to_vec (canon (rc_payload_value p)) in
    cas_get (cas m') cid = Some bs /\
    rc_sig out = Some ("ed25519:" +:+ base64_url (sign_jws bs)) /\ sign_jws bs <> [] /\
    rc_inputs p = inputs m /\ rc_ghost p = ghost (cfg m) /\
    rc_steps p = out_steps out /\ rc_fuel_used p = out_fuel_used out.
Proof.
  rewrite run_stops_at_emit. intros Hr Hcid. split; [done|].
  destruct (run_emits _ _ _ _ _ Hr Hcid) as (m1 & Hi & Hc & He).
  apply emit_rc_inv in He as (Hs & -> & ->). injection Hcid as <-. exists (emit_payload m1).
  cbn [cas set_trace set_cas rc_sig out_steps out_fuel_used].
  split_and!; [apply cas_put_get|done|done|by rewrite <- Hi|by rewrite <- Hc|done|done].
Qed.
End Receipts.

(** ** Witnesses *)

(** A store that is the list of what was put, addressed by content. *)
#[local] Instance list_cas : CasProvider (list bytes) := {|
  cas_put c bs := (hex_encode bs, bs :: c);
  cas_get c cid := List.find (fun bs => String.eqb (hex_encode bs) cid) c;
|}.
#[local] Instance list_cas_laws : CasLaws (list bytes) list_cas.
Proof. constructor. intros c bs. cbn. by rewrite String.eqb_refl. Qed.

Module Sample.
Definition sp : SignProvider := {| sign_jws bs := x2a :: bs; kid := "k" |}.
Definition kp : CanonProvider := {| canon v := v |}.
Definition ed : Ed25519 := {| ed25519_verify _ _ _ := false |}.
Definition b64 : Base64 := {| base64_url := hex_encode |}.
Definition ns : NumSerde := {| num_from_value _ := None; num_to_value _ := None |}.
Definition ck : Clock := {| unix_secs _ := 1700000000 |}.
Definition hb3 : Blake3 := {| blake3 bs := take 32 bs |}.
Definition sj : SerdeJson := {|
  from_slice bs := match bs with [] => None | _ => Some (JObject [("n"%string, JNumber (PosInt 3))]) end;
  to_vec v := match v with JObject m => concat (as_bytes <$> m.*1) | _ => [] end;
  value_to_string _ := ""%string |}.
Lemma env_laws : EnvLaws sj kp ck.
Proof.
  constructor; [|done|cbn; unfold u64_max; lia]. intros [|b bs] v; cbn; [done|]. intros [= <-].
  cbn. unfold str_wf, u64_max. split; [by repeat constructor; set_solver|]. split_and!; done.
Qed.
(** Push 3 and 4, add, drop, then emit. *)
Definition prog : list Instr :=
  [mkInstr ConstI64 (to_be_bytes 8 3); mkInstr ConstI64 (to_be_bytes 8 4); mkInstr AddI64 [];
   mkInstr Drop []; mkInstr EmitRc []; mkInstr Drop []].
Definition machine : Vm (list bytes) :=
  vm_new {| fuel_limit := 100; ghost := false; tracing := true |} [] ["b3:in"%string].
#[local] Existing Instances sp kp ed b64 ns ck hb3 sj.
Definition final : VmOutcome * Vm (list bytes) :=
  match run prog machine with Ok r => r | Err _ => (mkOutcome None None None 0 0 [], machine) end.
Lemma final_run : run prog machine = Ok (final.1, final.2).
Proof. vm_compute. reflexivity. Qed.
End Sample.

Section Witnesses.
#[local] Existing Instances Sample.sp Sample.kp Sample.ed Sample.b64 Sample.ns Sample.ck Sample.hb3 Sample.sj.

Lemma run_accounting_witness :
  out_steps Sample.final.1 = 0 + 5 /\ out_fuel_used Sample.final.1 = 0 + 5 /\
  out_fuel_used Sample.final.1 <= 100 /\ length (out_trace Sample.final.1) = (0 + 5)%nat /\
  (is_Some (rc_cid Sample.final.1) <-> EmitRc ∈ (op <$> Sample.prog)).
Proof.
  apply (run_accounting Sample.prog Sample.machine Sample.final.1 Sample.final.2);
    [apply Sample.final_run|vm_compute; split; congruence].
Defined.

Lemma fuel_sufficient_witness : run Sample.prog Sample.machine <> Err FuelExhausted.
Proof. apply (fuel_sufficient Sample.prog Sample.machine). vm_compute. split; congruence. Defined.

Lemma clock_independent_witness :
  run (CK := Sample.ck) Sample.prog Sample.machine =
  run (CK := {| unix_secs n := n |}) Sample.prog Sample.machine.
Proof.
  apply (clock_independent Sample.ck {| unix_secs n := n |} Sample.prog Sample.machine).
  refine (bool_decide_unpack _ _). vm_compute. exact I.
Defined.

Lemma run_typed_witness : vm_ok Sample.final.2.
Proof.
  apply (run_typed (HE := Sample.env_laws) Sample.prog Sample.machine Sample.final.1);
    [|apply Sample.final_run]. split; [constructor|vm_compute; split; congruence].
Defined.

Lemma receipt_binds_witness :
  run (take (executed Sample.prog) Sample.prog) Sample.machine = Ok (Sample.final.1, Sample.final.2) /\
  exists p, let bs := to_vec (canon (rc_payload_value p)) in
    cas_get (cas Sample.final.2) (default ""%string (rc_cid Sample.final.1)) = Some bs /\
    rc_sig Sample.final.1 = Some ("ed25519:" +:+ base64_url (sign_jws bs)) /\ sign_jws bs <> [] /\
    rc_inputs p = inputs Sample.machine /\ rc_ghost p = ghost (cfg Sample.machine) /\
    rc_steps p = out_steps Sample.final.1 /\ rc_fuel_used p = out_fuel_used Sample.final.1.
Proof.
  apply (receipt_binds Sample.prog Sample.machine Sample.final.1 Sample.final.2
    (default ""%string (rc_cid Sample.final.1))); [apply Sample.final_run|vm_compute; reflexivity].
Defined.
End Witnesses.
