(* ===== verification/Policy.v ===== *)
(** * Policies ([ubl_runtime::reasoning_bit], [circuit], [policy_bit])

    Reasoning bits (an expression over a context, with a decision for each
    outcome), circuits of bits (composition and aggregation modes, nested
    conditional branches) and policies (lists of circuits).  Durations are not
    modelled: they are measured, and no decision reads them. *)

From S2P Require Import Prelude RustStd Json.

(** ** Data *)

(** [Decision]; the variants [Deny] and [Require] carry a suffix because the
    VM has an error of that name and the other word is a command. *)
Inductive Decision : Type := Allow | DenyD | RequireD.
#[export] Instance Decision_eq_dec : EqDecision Decision.
Proof. solve_decision. Defined.

Definition decision_debug (d : Decision) : string :=
  match d with Allow => "Allow" | DenyD => "Deny" | RequireD => "Require" end.

Inductive Expression : Type :=
| Always (value : bool)
| ContextHas (key : string)
| ContextEquals (key : string) (expected : json)
| BodySizeLte (limit : Z)
| TypeEquals (expected_type : string)
| And (expressions : list Expression)
| Or (expressions : list Expression)
| Not (expr : Expression).

Record ReasoningBit : Type := mkBit {
  rb_bit_id : string;
  rb_name : string;
  condition : Expression;
  on_true : Decision;
  on_false : Decision;
  requires_context : list string;
}.

Record EvalContext : Type := mkContext {
  chip : json;
  ctx_body_size : Z;
  variables : gmap string json;
}.

Record RbResult : Type := mkRbResult {
  rb_id : string;
  rb_decision : Decision;
  rb_reason : string;
  inputs_used_by : list string;
}.

Inductive AggregationMode : Type :=
| All | Any | Majority | KofN (k n : Z) | FirstDecisive.

Inductive Circuit : Type :=
| mkCircuit (id name : string) (reasoning_bits : list ReasoningBit)
    (composition : CompositionMode) (aggregator : AggregationMode)
with CompositionMode : Type :=
| Sequential
| Parallel
| Conditional (branches : list ConditionalBranch)
with ConditionalBranch : Type :=
| mkBranch (branch_condition : Expression) (then_circuit : Circuit) (else_circuit : option Circuit).

Record CircuitResult : Type := mkCircuitResult {
  circuit_id : string;
  cr_decision : Decision;
  cr_reason : string;
  rb_results : list RbResult;
  cr_short_circuited : bool;
}.

Record PolicyScope : Type := mkScope { chip_types : list string; operations : list string; level : string }.
Record PolicyBit : Type := mkPolicy {
  policy_bit_id : string; policy_name : string; circuits : list Circuit; scope : PolicyScope;
}.
Record PolicyResult : Type := mkPolicyResult {
  result_policy_id : string;
  pr_decision : Decision;
  pr_reason : string;
  circuit_results : list CircuitResult;
  pr_short_circuited : bool;
}.

(** ** Reasoning bits *)

Fixpoint expr_evaluate (e : Expression) (context : EvalContext) {struct e} : bool :=
  match e with
  | Always value => value
  | ContextHas key => match variables context !! key with Some _ => true | None => false end
  | ContextEquals key expected =>
      match variables context !! key with Some v => json_eqb v expected | None => false end
  | BodySizeLte limit => ctx_body_size context <=? limit
  | TypeEquals expected_type =>
      match get "@type" (chip context) ≫= as_str with
      | Some t => String.eqb t expected_type
      | None => false
      end
  | And expressions =>
      (fix go (l : list Expression) : bool :=
         match l with [] => true | x :: l' => expr_evaluate x context && go l' end) expressions
  | Or expressions =>
      (fix go (l : list Expression) : bool :=
         match l with [] => false | x :: l' => expr_evaluate x context || go l' end) expressions
  | Not expr => negb (expr_evaluate expr context)
  end.

Fixpoint collect_inputs (e : Expression) : list string :=
  match e with
  | ContextHas key | ContextEquals key _ => [key]
  | TypeEquals _ => ["@type"%string]
  | And exprs | Or exprs =>
      (fix go (l : list Expression) : list string :=
         match l with [] => [] | x :: l' => collect_inputs x ++ go l' end) exprs
  | Not expr => collect_inputs expr
  | Always _ | BodySizeLte _ => []
  end.

Definition inputs_used (e : Expression) : list string :=
  dedup_by String.eqb (sort_by String.leb (collect_inputs e)).

Definition bool_display (b : bool) : string := if b then "true" else "false".

Definition rb_evaluate (rb : ReasoningBit) (context : EvalContext) : RbResult :=
  let condition_result := expr_evaluate (condition rb) context in
  let decision := if condition_result then on_true rb else on_false rb in
  let reason := rb_name rb +:+ " evaluated to " +:+ bool_display condition_result +:+ " → "
                +:+ decision_debug decision in
  mkRbResult (rb_bit_id rb) decision reason (inputs_used (condition rb)).

(** ** Circuits *)

Definition is_deny (d : Decision) : bool := match d with DenyD => true | _ => false end.
Definition is_allow (d : Decision) : bool := match d with Allow => true | _ => false end.
Definition is_require (d : Decision) : bool := match d with RequireD => true | _ => false end.

Definition ids (l : list RbResult) : string := join ", " (rb_id <$> l).
Definition count_allows (l : list RbResult) : Z :=
  Z.of_nat (length (List.filter (fun r => is_allow (rb_decision r)) l)).

Definition aggregate_all (results : list RbResult) : Decision * string :=
  match List.filter (fun r => is_deny (rb_decision r)) results with
  | [] =>
      match List.filter (fun r => is_require (rb_decision r)) results with
      | [] => (Allow, "All reasoning bits allowed"%string)
      | requires => (RequireD, "Requires consent from: " +:+ ids requires)
      end
  | denies => (DenyD, "Denied by: " +:+ ids denies)
  end.

Definition aggregate_any (results : list RbResult) : Decision * string :=
  match List.filter (fun r => is_allow (rb_decision r)) results with
  | [] => (DenyD, "No reasoning bit allowed"%string)
  | allows => (Allow, "Allowed by: " +:+ ids allows)
  end.

Definition aggregate_majority (results : list RbResult) : Decision * string :=
  let allows := count_allows results in
  let total := Z.of_nat (length results) in
  if total / 2 <? allows then
    (Allow, "Majority allowed (" +:+ u_to_string allows +:+ "/" +:+ u_to_string total +:+ ")")
  else
    (DenyD, "Majority denied (" +:+ u_to_string (total - allows) +:+ "/" +:+ u_to_string total +:+ ")").

Definition aggregate_k_of_n (k n : Z) (results : list RbResult) : Decision * string :=
  let allows := count_allows results in
  if k <=? allows then
    (Allow, "K-of-N satisfied (" +:+ u_to_string allows +:+ "/" +:+ u_to_string n +:+ ")")
  else
    (DenyD, "K-of-N not satisfied (" +:+ u_to_string allows +:+ "/" +:+ u_to_string n +:+ ", need "
            +:+ u_to_string k +:+ ")").

Definition aggregate_first_decisive (results : list RbResult) : Decision * string :=
  match List.find (fun r => negb (is_require (rb_decision r))) results with
  | Some r => (rb_decision r, "First decisive: " +:+ rb_reason r)
  | None => (RequireD, "All reasoning bits require consent"%string)
  end.

Definition aggregate_results (id : string) (aggregator : AggregationMode) (results : list RbResult)
    : CircuitResult :=
  match results with
  | [] => mkCircuitResult id Allow "No reasoning bits to evaluate" [] false
  | _ =>
      let '(decision, reason) :=
        match aggregator with
        | All => aggregate_all results
        | Any => aggregate_any results
        | Majority => aggregate_majority results
        | KofN k n => aggregate_k_of_n k n results
        | FirstDecisive => aggregate_first_decisive results
        end in
      mkCircuitResult id decision reason results false
  end.

(** The loop of [evaluate_sequential], with the results pushed so far. *)
Fixpoint sequential_loop (id : string) (aggregator : AggregationMode) (context : EvalContext)
    (bits : list ReasoningBit) (acc : list RbResult) : CircuitResult :=
  match bits with
  | [] => aggregate_results id aggregator acc
  | rb :: rest =>
      let result := rb_evaluate rb context in
      let acc' := acc ++ [result] in
      if is_deny (rb_decision result) then
        mkCircuitResult id DenyD ("Denied by " +:+ rb_id result +:+ ": " +:+ rb_reason result) acc' true
      else sequential_loop id aggregator context rest acc'
  end.
Definition evaluate_sequential id aggregator context bits : CircuitResult :=
  sequential_loop id aggregator context bits [].

Definition evaluate_parallel id aggregator context (bits : list ReasoningBit) : CircuitResult :=
  aggregate_results id aggregator ((fun rb => rb_evaluate rb context) <$> bits).

(** [evaluate], with [evaluate_conditional] inlined: the first branch whose
    condition holds, else the first branch's alternative, else a denial; the
    outer circuit's id replaces the inner one's. *)
Fixpoint circuit_evaluate (c : Circuit) (context : EvalContext) {struct c} : CircuitResult :=
  match c with
  | mkCircuit id name bits composition aggregator =>
      let result :=
        match composition with
        | Sequential => evaluate_sequential id aggregator context bits
        | Parallel => evaluate_parallel id aggregator context bits
        | Conditional branches =>
            match (fix go (l : list ConditionalBranch) : option CircuitResult :=
                     match l with
                     | [] => None
                     | mkBranch cond then_c _ :: l' =>
                         if expr_evaluate cond context then Some (circuit_evaluate then_c context) else go l'
                     end) branches with
            | Some r => r
            | None =>
                match branches with
                | mkBranch _ _ (Some else_c) :: _ => circuit_evaluate else_c context
                | _ => mkCircuitResult id DenyD "No matching condition in conditional circuit" [] false
                end
            end
        end in
      mkCircuitResult id (cr_decision result) (cr_reason result) (rb_results result) (cr_short_circuited result)
  end.

(** ** Policies *)

Fixpoint policy_loop (p : PolicyBit) (context : EvalContext) (cs : list Circuit) (acc : list CircuitResult)
    : PolicyResult :=
  match cs with
  | [] => mkPolicyResult (policy_bit_id p) Allow "All circuits allowed" acc false
  | c :: rest =>
      let result := circuit_evaluate c context in
      let acc' := acc ++ [result] in
      if is_deny (cr_decision result) then
        mkPolicyResult (policy_bit_id p) DenyD (cr_reason result) acc' true
      else policy_loop p context rest acc'
  end.
Definition policy_evaluate (p : PolicyBit) (context : EvalContext) : PolicyResult :=
  policy_loop p context (circuits p) [].

(** ** Facts *)

Section ExprInd.
Context (P : Expression -> Prop).
Context (Halways : forall b, P (Always b)) (Hhas : forall k, P (ContextHas k))
  (Heq : forall k v, P (ContextEquals k v)) (Hsize : forall n, P (BodySizeLte n))
  (Htype : forall t, P (TypeEquals t)) (Hand : forall l, Forall P l -> P (And l))
  (Hor : forall l, Forall P l -> P (Or l)) (Hnot : forall e, P e -> P (Not e)).
Fixpoint expr_ind' (e : Expression) : P e :=
  let go := fix go (l : list Expression) : Forall P l :=
    match l with [] => Forall_nil_2 P | x :: l' => Forall_cons_2 P x l' (expr_ind' x) (go l') end in
  match e with
  | Always b => Halways b
  | ContextHas k => Hhas k
  | ContextEquals k v => Heq k v
  | BodySizeLte n => Hsize n
  | TypeEquals t => Htype t
  | And l => Hand l (go l)
  | Or l => Hor l (go l)
  | Not e => Hnot e (expr_ind' e)
  end.
End ExprInd.

Lemma eval_and l ctx : expr_evaluate (And l) ctx = forallb (fun e => expr_evaluate e ctx) l.
Proof. reflexivity. Qed.
Lemma eval_or l ctx : expr_evaluate (Or l) ctx = existsb (fun e => expr_evaluate e ctx) l.
Proof. reflexivity. Qed.
Lemma collect_list l (e : Expression) :
  e = And l \/ e = Or l -> collect_inputs e = concat (collect_inputs <$> l).
Proof. intros [-> | ->]; cbn; induction l as [|x l IH]; cbn; [done|by rewrite IH|done|by rewrite IH]. Qed.

(** [dedup] after [sort]: strictly ascending, same members. *)
Lemma dedup_from_elem (x : string) l y : y ∈ dedup_from String.eqb x l <-> y ∈ (x :: l).
Proof.
  revert x. induction l as [|z l IH]; intros x; cbn; [done|].
  destruct (String.eqb_spec x z) as [->|]; [rewrite IH|rewrite elem_of_cons, IH]; set_solver.
Qed.
Lemma dedup_elem l (y : string) : y ∈ dedup_by String.eqb l <-> y ∈ l.
Proof. destruct l as [|x l]; [done|]. apply dedup_from_elem. Qed.

Lemma dedup_from_sorted (x : string) l :
  StronglySorted (fun a b => String.leb a b = true) (x :: l) ->
  StronglySorted (fun a b => String.ltb a b = true) (dedup_from String.eqb x l).
Proof.
  revert x. induction l as [|z l IH]; intros x Hs; cbn; [by repeat constructor|].
  apply StronglySorted_inv in Hs as [Hl Hx]. destruct (String.eqb_spec x z) as [->|Hne]; [by apply IH|].
  constructor; [by apply IH|]. apply Forall_forall. intros y Hy%dedup_from_elem.
  inversion Hx as [|? ? Hxz Hxl]; subst. apply StronglySorted_inv in Hl as [_ Hz].
  rewrite Forall_forall in Hz. apply elem_of_cons in Hy as [->|Hy]; [by apply str_leb_ltb|].
  pose proof (str_leb_ltb _ _ Hxz Hne) as Hlt. apply Hz in Hy.
  destruct (decide (z = y)) as [->|Hzy]; [done|]. eapply str_ltb_trans; [done|]. by apply str_leb_ltb.
Qed.

Lemma inputs_used_elem e k : k ∈ inputs_used e <-> k ∈ collect_inputs e.
Proof. unfold inputs_used. by rewrite dedup_elem, (sort_by_perm String.leb). Qed.
Lemma inputs_used_sorted e : StronglySorted (fun a b => String.ltb a b = true) (inputs_used e).
Proof.
  unfold inputs_used, dedup_by. pose proof (sort_by_sorted String.leb) as Hs.
  specialize (Hs ltac:(intros ??; apply str_leb_false) ltac:(intros ???; apply str_leb_trans) (collect_inputs e)).
  destruct (sort_by _ _) as [|x l]; [constructor|]. by apply dedup_from_sorted.
Qed.

(** Contexts that agree on a set of inputs. *)
Definition agree (keys : list string) (c1 c2 : EvalContext) : Prop :=
  ctx_body_size c1 = ctx_body_size c2 /\
  (forall k, k ∈ keys -> variables c1 !! k = variables c2 !! k) /\
  ("@type"%string ∈ keys -> get "@type" (chip c1) = get "@type" (chip c2)).

Lemma agree_app l1 l2 c1 c2 : agree (l1 ++ l2) c1 c2 -> agree l1 c1 c2 /\ agree l2 c1 c2.
Proof. unfold agree. set_solver. Qed.

Lemma eval_agree e c1 c2 : agree (collect_inputs e) c1 c2 -> expr_evaluate e c1 = expr_evaluate e c2.
Proof.
  induction e as [b|k|k v|n|t|l IH|l IH|e IH] using expr_ind'; intros H.
  - done.
  - destruct H as (_ & Hk & _). cbn in *. rewrite (Hk k); [done|set_solver].
  - destruct H as (_ & Hk & _). cbn in *. rewrite (Hk k); [done|set_solver].
  - destruct H as (Hs & _). cbn. by rewrite Hs.
  - destruct H as (_ & _ & Ht). cbn in *. rewrite Ht; [done|set_solver].
  - rewrite (collect_list l) in H by auto. rewrite !eval_and.
    induction IH as [|x l Hx Hl IHl]; cbn; [done|]. cbn in H. apply agree_app in H as [H1 H2].
    by rewrite Hx, IHl.
  - rewrite (collect_list l) in H by auto. rewrite !eval_or.
    induction IH as [|x l Hx Hl IHl]; cbn; [done|]. cbn in H. apply agree_app in H as [H1 H2].
    by rewrite Hx, IHl.
  - cbn in *. by rewrite IH.
Qed.

(** ** Aggregation *)

(** What each mode promises of the decision [d] taken over the decisions
    [ds]. *)
Definition count_allow (ds : list Decision) : Z := Z.of_nat (length (List.filter is_allow ds)).
Definition decision_spec (mode : AggregationMode) (ds : list Decision) (d : Decision) : Prop :=
  match mode with
  | All => (d = DenyD <-> DenyD ∈ ds) /\ (d = Allow <-> Forall (eq Allow) ds)
  | Any => d = if decide (Allow ∈ ds) then Allow else DenyD
  | Majority => d = if decide (Z.of_nat (length ds) < 2 * count_allow ds) then Allow else DenyD
  | KofN k _ => d = if decide (k <= count_allow ds) then Allow else DenyD
  | FirstDecisive =>
      (d = RequireD /\ Forall (eq RequireD) ds) \/
      (d <> RequireD /\ exists pre post, ds = pre ++ d :: post /\ Forall (eq RequireD) pre)
  end.

Lemma filter_nil_iff {A} (f : A -> bool) l : List.filter f l = [] <-> forall x, x ∈ l -> f x = false.
Proof.
  induction l as [|y l IH]; cbn; [split; [by intros _ ? ?%elem_of_nil|done]|].
  setoid_rewrite elem_of_cons. destruct (f y) eqn:E; [split; [done|naive_solver congruence]|].
  rewrite IH. naive_solver.
Qed.

Lemma filter_decisions (f : Decision -> bool) (rs : list RbResult) :
  length (List.filter (fun r => f (rb_decision r)) rs) = length (List.filter f (rb_decision <$> rs)).
Proof. induction rs as [|r rs IH]; cbn; [done|]. destruct (f (rb_decision r)); cbn; by rewrite IH. Qed.

Lemma no_decision (d : Decision) (f : Decision -> bool) (rs : list RbResult) :
  (forall x, f x = true <-> x = d) ->
  List.filter (fun r => f (rb_decision r)) rs = [] <-> d ∉ rb_decision <$> rs.
Proof.
  intros Hf. rewrite filter_nil_iff. split.
  - intros H (r & -> & Hin)%list_elem_of_fmap. apply H in Hin. by rewrite (proj2 (Hf _) eq_refl) in Hin.
  - intros H r Hin. apply not_true_iff_false. intros E%Hf. apply H, list_elem_of_fmap. by exists r.
Qed.
Lemma is_deny_iff x : is_deny x = true <-> x = DenyD.
Proof. by destruct x. Qed.
Lemma is_allow_iff x : is_allow x = true <-> x = Allow.
Proof. by destruct x. Qed.
Lemma is_require_iff x : is_require x = true <-> x = RequireD.
Proof. by destruct x. Qed.

Lemma aggregate_all_spec rs : decision_spec All (rb_decision <$> rs) (aggregate_all rs).1.
Proof.
  unfold aggregate_all, decision_spec.
  pose proof (no_decision DenyD is_deny rs is_deny_iff) as Hd.
  pose proof (no_decision RequireD is_require rs is_require_iff) as Hr.
  destruct (List.filter (fun r => is_deny (rb_decision r)) rs) as [|? ?] eqn:Ed.
  - assert (DenyD ∉ rb_decision <$> rs) as Hnd by (by apply Hd).
    destruct (List.filter (fun r => is_require (rb_decision r)) rs) as [|? ?] eqn:Er; cbn.
    + assert (RequireD ∉ rb_decision <$> rs) as Hnr by (by apply Hr). split; [done|]. split; [|done]. intros _.
      apply Forall_forall. intros [] Hx; done.
    + split; [done|]. split; [done|]. intros HF. assert (RequireD ∉ rb_decision <$> rs) as Hnr%Hr; [|done].
      intros Hin. rewrite Forall_forall in HF. by apply HF in Hin.
  - cbn. destruct (decide (DenyD ∈ rb_decision <$> rs)) as [Hin|Hn%Hd]; [|done].
    split; [done|]. split; [done|]. intros HF. rewrite Forall_forall in HF. by apply HF in Hin.
Qed.

Lemma aggregate_spec mode rs :
  decision_spec mode (rb_decision <$> rs)
    (match mode with
     | All => aggregate_all rs
     | Any => aggregate_any rs
     | Majority => aggregate_majority rs
     | KofN k n => aggregate_k_of_n k n rs
     | FirstDecisive => aggregate_first_decisive rs
     end).1.
Proof.
  destruct mode as [| | |k n|].
  - apply aggregate_all_spec.
  - unfold aggregate_any, decision_spec. pose proof (no_decision Allow is_allow rs is_allow_iff) as Ha.
    destruct (List.filter _ rs) as [|r l] eqn:E; cbn; case_decide as H; try done.
    + by apply Ha in H.
    + by apply Ha in H.
  - unfold aggregate_majority, decision_spec, count_allows, count_allow. rewrite filter_decisions, length_fmap.
    set (a := Z.of_nat (length (List.filter is_allow _))). set (t := Z.of_nat (length rs)).
    pose proof (Z_div_mod_eq_full t 2). pose proof (Z.mod_pos_bound t 2 eq_refl).
    destruct (Z.ltb_spec (t / 2) a); case_decide; cbn; first [done|lia].
  - unfold aggregate_k_of_n, decision_spec, count_allows, count_allow. rewrite filter_decisions.
    destruct (Z.leb_spec k (Z.of_nat (length (List.filter is_allow (rb_decision <$> rs))))); case_decide; first [done|lia].
  - unfold aggregate_first_decisive, decision_spec.
    induction rs as [|r rs IH]; [by left|]. cbn [List.find]. csimpl.
    destruct (rb_decision r) eqn:Er; cbn [is_require negb].
    + right. rewrite Er. split; [done|]. exists [], (rb_decision <$> rs). by split.
    + right. rewrite Er. split; [done|]. exists [], (rb_decision <$> rs). by split.
    + destruct IH as [[-> HF]|(Hne & pre & post & Hds & HF)].
      * left. split; [done|]. by constructor.
      * right. split; [done|]. exists (RequireD :: pre), post. rewrite Hds. split; [done|]. by constructor.
Qed.

(** ** Sequential composition *)

Definition evals (ctx : EvalContext) (bits : list ReasoningBit) : list RbResult :=
  (fun rb => rb_evaluate rb ctx) <$> bits.
Definition denies (ctx : EvalContext) (rb : ReasoningBit) : Prop := rb_decision (rb_evaluate rb ctx) = DenyD.

Lemma sequential_no_deny id mode ctx bits acc :
  Forall (fun rb => ~ denies ctx rb) bits ->
  sequential_loop id mode ctx bits acc = aggregate_results id mode (acc ++ evals ctx bits).
Proof.
  intros H. revert acc. induction H as [|rb bits Hrb Hb IH]; intros acc;
    cbn [sequential_loop]; [by rewrite app_nil_r|].
  destruct (is_deny _) eqn:E; [by apply is_deny_iff in E|]. rewrite IH. by rewrite <- app_assoc.
Qed.
Lemma sequential_deny id mode ctx pre rb post acc :
  Forall (fun rb => ~ denies ctx rb) pre -> denies ctx rb ->
  sequential_loop id mode ctx (pre ++ rb :: post) acc =
  mkCircuitResult id DenyD ("Denied by " +:+ rb_bit_id rb +:+ ": " +:+ rb_reason (rb_evaluate rb ctx))
    (acc ++ evals ctx (pre ++ [rb])) true.
Proof.
  intros H Hrb. revert acc. induction H as [|x pre Hx Hp IH]; intros acc; cbn [app sequential_loop].
  - destruct (is_deny _) eqn:E; [done|]. by rewrite (proj2 (is_deny_iff _) Hrb) in E.
  - destruct (is_deny _) eqn:E; [by apply is_deny_iff in E|]. rewrite IH. by rewrite <- app_assoc.
Qed.

Lemma deny_split ctx bits :
  Forall (fun rb => ~ denies ctx rb) bits \/
  exists pre rb post, bits = pre ++ rb :: post /\ Forall (fun rb => ~ denies ctx rb) pre /\ denies ctx rb.
Proof.
  induction bits as [|x bits [IH|(pre & rb & post & -> & Hp & Hrb)]]; [by left| |].
  - destruct (decide (rb_decision (rb_evaluate x ctx) = DenyD)) as [Hx|Hx]; [|left; by constructor].
    right. by exists [], x, bits.
  - right. destruct (decide (rb_decision (rb_evaluate x ctx) = DenyD)) as [Hx|Hx].
    + by exists [], x, (pre ++ rb :: post).
    + exists (x :: pre), rb, post. split_and!; [done|by constructor|done].
Qed.

(** ** Circuits over agreeing contexts *)

Section CircuitInd.
Context (P : Circuit -> Prop).
Definition branch_prop (b : ConditionalBranch) : Prop :=
  match b with mkBranch _ t e => P t /\ match e with Some e => P e | None => True end end.
Context (Hc : forall id name bits comp agg,
  match comp with Conditional bs => Forall branch_prop bs | _ => True end -> P (mkCircuit id name bits comp agg)).
Fixpoint circuit_ind' (c : Circuit) : P c :=
  match c with
  | mkCircuit id name bits comp agg =>
      Hc id name bits comp agg
        match comp with
        | Conditional bs =>
            (fix go (l : list ConditionalBranch) : Forall branch_prop l :=
               match l with
               | [] => Forall_nil_2 _
               | mkBranch c t e :: l' =>
                   Forall_cons_2 branch_prop (mkBranch c t e) l'
                     (conj (circuit_ind' t)
                        (match e return match e with Some e => P e | None => True end with
                         | Some e => circuit_ind' e | None => I end))
                     (go l')
               end) bs
        | Sequential => I
        | Parallel => I
        end
  end.
End CircuitInd.

(** Every expression of a circuit, nested branches included. *)
Fixpoint circuit_inputs (c : Circuit) : list string :=
  match c with
  | mkCircuit _ _ bits comp _ =>
      match comp with
      | Conditional bs =>
          (fix go (l : list ConditionalBranch) : list string :=
             match l with
             | [] => []
             | mkBranch cond t e :: l' =>
                 inputs_used cond ++ circuit_inputs t ++
                 match e with Some e => circuit_inputs e | None => [] end ++ go l'
             end) bs
      | _ => concat ((fun rb => inputs_used (condition rb)) <$> bits)
      end
  end.

Lemma expr_agree e c1 c2 : agree (inputs_used e) c1 c2 -> expr_evaluate e c1 = expr_evaluate e c2.
Proof.
  intros (H1 & H2 & H3). apply eval_agree. split_and!; [done| |].
  - intros k Hk. by apply H2, inputs_used_elem.
  - intros Hk. by apply H3, inputs_used_elem.
Qed.

Lemma evals_agree bits c1 c2 :
  agree (concat ((fun rb => inputs_used (condition rb)) <$> bits)) c1 c2 -> evals c1 bits = evals c2 bits.
Proof.
  induction bits as [|rb bits IH]; [done|]. intros [H1 H2]%agree_app.
  change (evals ?c (rb :: bits)) with (rb_evaluate rb c :: evals c bits). rewrite IH by done. f_equal.
  unfold rb_evaluate. by rewrite (expr_agree _ c1 c2).
Qed.

Lemma sequential_agree id mode bits c1 c2 acc :
  evals c1 bits = evals c2 bits -> sequential_loop id mode c1 bits acc = sequential_loop id mode c2 bits acc.
Proof.
  revert acc. induction bits as [|rb bits IH]; intros acc; cbn [sequential_loop]; [done|]. intros H.
  assert (rb_evaluate rb c1 = rb_evaluate rb c2) as Hrb by exact (f_equal (hd (rb_evaluate rb c1)) H).
  assert (evals c1 bits = evals c2 bits) as Hb by exact (f_equal (@tl _) H).
  rewrite Hrb. case_match; [done|]. by apply IH.
Qed.

(** The branch [evaluate_conditional] selects. *)
Definition first_branch (ctx : EvalContext) : list ConditionalBranch -> option CircuitResult :=
  fix go (l : list ConditionalBranch) : option CircuitResult :=
    match l with
    | [] => None
    | mkBranch cond then_c _ :: l' =>
        if expr_evaluate cond ctx then Some (circuit_evaluate then_c ctx) else go l'
    end.
Definition branch_inputs : list ConditionalBranch -> list string :=
  fix go (l : list ConditionalBranch) : list string :=
    match l with
    | [] => []
    | mkBranch cond t e :: l' =>
        inputs_used cond ++ circuit_inputs t ++ match e with Some e => circuit_inputs e | None => [] end ++ go l'
    end.

Definition relabel (id : string) (r : CircuitResult) : CircuitResult :=
  mkCircuitResult id (cr_decision r) (cr_reason r) (rb_results r) (cr_short_circuited r).
Lemma evaluate_conditional id name bits bs agg ctx :
  circuit_evaluate (mkCircuit id name bits (Conditional bs) agg) ctx =
  relabel id (match first_branch ctx bs with
              | Some r => r
              | None =>
                  match bs with
                  | mkBranch _ _ (Some else_c) :: _ => circuit_evaluate else_c ctx
                  | _ => mkCircuitResult id DenyD "No matching condition in conditional circuit" [] false
                  end
              end).
Proof. reflexivity. Qed.

Lemma first_branch_agree c1 c2 bs :
  Forall (branch_prop (fun c => agree (circuit_inputs c) c1 c2 -> circuit_evaluate c c1 = circuit_evaluate c c2)) bs ->
  agree (branch_inputs bs) c1 c2 -> first_branch c1 bs = first_branch c2 bs.
Proof.
  induction 1 as [|[cond t e] bs [Ht _] Hb IH]; cbn [first_branch branch_inputs]; [done|].
  intros [H1 [H2 [_ H3]%agree_app]%agree_app]%agree_app. rewrite (expr_agree cond c1 c2) by done.
  rewrite Ht by done. fold (first_branch c1) (first_branch c2). by rewrite IH.
Qed.

Lemma circuit_agree c c1 c2 : agree (circuit_inputs c) c1 c2 -> circuit_evaluate c c1 = circuit_evaluate c c2.
Proof.
  induction c as [id name bits comp agg IH] using circuit_ind'. destruct comp as [| |bs]; intros H.
  - apply evals_agree in H. cbn. unfold evaluate_sequential. by rewrite (sequential_agree _ _ _ c1 c2).
  - apply evals_agree in H. cbn. unfold evaluate_parallel. fold (evals c1 bits) (evals c2 bits). by rewrite H.
  - rewrite !evaluate_conditional. change (agree (branch_inputs bs) c1 c2) in H.
    rewrite (first_branch_agree c1 c2 bs) by done. case_match; [done|].
    destruct IH as [|[cond t [e|]] bs [_ He] _]; [done| |done]. cbn [branch_inputs] in H.
    apply agree_app in H as [_ [_ [H _]%agree_app]%agree_app]. by rewrite He.
Qed.

Lemma policy_loop_spec p ctx cs acc :
  pr_decision (policy_loop p ctx cs acc) =
  if decide (Exists (fun c => cr_decision (circuit_evaluate c ctx) = DenyD) cs) then DenyD else Allow.
Proof.
  revert acc. induction cs as [|c cs IH]; intros acc; cbn [policy_loop].
  - rewrite decide_False; [done|]. intros H. inversion H.
  - destruct (is_deny (cr_decision (circuit_evaluate c ctx))) eqn:E.
    + apply is_deny_iff in E. rewrite decide_True; [done|by left].
    + rewrite IH. assert (cr_decision (circuit_evaluate c ctx) <> DenyD) as Hne by (intros H%is_deny_iff; congruence).
      destruct (decide (Exists (fun c => cr_decision (circuit_evaluate c ctx) = DenyD) cs)) as [H|H].
      * rewrite decide_True; [done|by right].
      * rewrite decide_False; [done|]. intros H'. inversion H'; subst; done.
Qed.

(** ** Properties *)

(** Every aggregation mode meets its contract on a non-empty list of
    results: All denies iff some bit denies and allows iff all allow, Any
    allows iff some bit allows, Majority iff more than half allow, KofN iff at
    least k allow, FirstDecisive returns the first decision that is not
    Require. *)
Theorem aggregate_results_correct id mode rs :
  rs <> [] ->
  decision_spec mode (rb_decision <$> rs) (cr_decision (aggregate_results id mode rs)) /\
  rb_results (aggregate_results id mode rs) = rs.
Proof.
  intros Hne. unfold aggregate_results. destruct rs as [|r rs]; [done|].
  pose proof (aggregate_spec mode (r :: rs)) as H.
  destruct mode; match type of H with decision_spec _ _ (fst ?x) => by destruct x end.
Qed.

(** Sequential composition is parallel composition with an early exit:
    when no bit denies, it returns exactly what evaluating all bits in
    parallel returns; otherwise it denies, names the first denying bit and
    reports the results up to and including that bit, nothing after it. *)
Theorem sequential_correct id mode ctx bits :
  (Forall (fun rb => ~ denies ctx rb) bits /\
   evaluate_sequential id mode ctx bits = evaluate_parallel id mode ctx bits) \/
  (exists pre rb post, bits = pre ++ rb :: post /\ Forall (fun rb => ~ denies ctx rb) pre /\ denies ctx rb /\
   evaluate_sequential id mode ctx bits =
   mkCircuitResult id DenyD ("Denied by " +:+ rb_bit_id rb +:+ ": " +:+ rb_reason (rb_evaluate rb ctx))
     (evals ctx (pre ++ [rb])) true).
Proof.
  unfold evaluate_sequential. destruct (deny_split ctx bits) as [H|(pre & rb & post & -> & Hp & Hrb)].
  - left. split; [done|]. by rewrite sequential_no_deny.
  - right. exists pre, rb, post. split_and!; [done..|]. by rewrite sequential_deny.
Qed.

(** Under the All aggregator the two composition modes take the same
    decision. *)
Theorem sequential_parallel_all id ctx bits :
  cr_decision (evaluate_sequential id All ctx bits) = cr_decision (evaluate_parallel id All ctx bits).
Proof.
  unfold evaluate_sequential. destruct (deny_split ctx bits) as [H|(pre & rb & post & -> & Hp & Hrb)].
  - by rewrite sequential_no_deny.
  - rewrite sequential_deny by done. symmetry. unfold evaluate_parallel. fold (evals ctx (pre ++ rb :: post)).
    pose proof (aggregate_all_spec (evals ctx (pre ++ rb :: post))) as [Hs _].
    unfold aggregate_results. destruct (evals ctx (pre ++ rb :: post)) as [|r rs] eqn:E; [by destruct pre|].
    destruct (aggregate_all (r :: rs)) as [d s]. cbn [fst cr_decision] in *. apply Hs. rewrite <- E.
    apply list_elem_of_fmap. exists (rb_evaluate rb ctx). split; [done|]. apply list_elem_of_fmap.
    exists rb. split; [done|]. set_solver.
Qed.

(** A policy denies exactly when one of its circuits denies, and allows
    otherwise: a circuit that asks for consent (Require) is counted as
    allowing, and a policy never answers Require. *)
Theorem policy_denies_iff p ctx :
  pr_decision (policy_evaluate p ctx) =
  if decide (Exists (fun c => cr_decision (circuit_evaluate c ctx) = DenyD) (circuits p)) then DenyD else Allow.
Proof. apply policy_loop_spec. Qed.

(** [inputs_used] is sound: it lists the keys an expression reads in
    strictly ascending order, and a circuit's result (decisions, reasons and
    reported inputs, nested branches included) is determined by the body
    size and the inputs so listed. *)
Theorem circuit_inputs_sufficient c c1 c2 :
  agree (circuit_inputs c) c1 c2 ->
  circuit_evaluate c c1 = circuit_evaluate c c2 /\
  forall e, StronglySorted (fun a b => String.ltb a b = true) (inputs_used e).
Proof. intros H. split; [by apply circuit_agree|intros e; apply inputs_used_sorted]. Qed.

(** ** Witnesses *)

Definition sample_bit : ReasoningBit :=
  mkBit "b1" "bit" (And [ContextHas "k"; BodySizeLte 10]) Allow DenyD [].
Definition sample_circuit : Circuit :=
  mkCircuit "c1" "circuit" []
    (Conditional [mkBranch (Not (ContextHas "z")) (mkCircuit "c2" "inner" [sample_bit] Sequential Majority) None]) All.
Definition sample_ctx (z : json) : EvalContext := mkContext z 5 {["k"%string := JNull]}.

Lemma aggregate_results_correct_witness :
  let rs := [rb_evaluate sample_bit (sample_ctx JNull)] in
  decision_spec Majority (rb_decision <$> rs) (cr_decision (aggregate_results "c" Majority rs)) /\
  rb_results (aggregate_results "c" Majority rs) = rs.
Proof. apply (aggregate_results_correct "c" Majority). discriminate. Defined.

Lemma circuit_inputs_sufficient_witness :
  circuit_evaluate sample_circuit (sample_ctx JNull) = circuit_evaluate sample_circuit (sample_ctx (JBool true)) /\
  forall e, StronglySorted (fun a b => String.ltb a b = true) (inputs_used e).
Proof.
  apply (circuit_inputs_sufficient sample_circuit (sample_ctx JNull) (sample_ctx (JBool true))).
  split; [reflexivity|]. split; reflexivity.
Defined.
