(* ===== verification/Silicon.v ===== *)
(** * Silicon chips ([ubl_runtime::silicon_chip])

    The chip-as-code family: the condition language and its JSON forms, the
    typed bodies and their parsers, the check against the chip store, the
    resolution of a chip's graph, and the compiler to VM bytecode.  The chip
    store is an interface (a lookup by CID); Unicode lower-casing is a
    parameter. *)

From S2P Require Import Prelude RustStd RustStr Json Tlv Policy.
Local Open Scope string_scope.
Local Open Scope Z_scope.
Local Open Scope list_scope.

(** ** Parameters *)

(** [str::to_lowercase]. *)
Class StrCase : Type := { to_lowercase : string -> string }.

Record StoredChip : Type := mkStored { chip_type : string; chip_data : json }.
(** [ChipStore::get_chip]: a store error, or the chip if there is one. *)
Class ChipStore : Type := { get_chip : string -> result string (option StoredChip) }.

(** ** Data *)

Definition TYPE_SILICON_BIT := "ubl/silicon.bit".
Definition TYPE_SILICON_CIRCUIT := "ubl/silicon.circuit".
Definition TYPE_SILICON_CHIP := "ubl/silicon.chip".
Definition TYPE_SILICON_COMPILE := "ubl/silicon.compile".
Definition SILICON_TYPES : list string :=
  [TYPE_SILICON_BIT; TYPE_SILICON_CIRCUIT; TYPE_SILICON_CHIP; TYPE_SILICON_COMPILE].
Definition is_silicon_type (chip_type : string) : bool := existsb (String.eqb chip_type) SILICON_TYPES.

(** [OutOfFuel] belongs to the model's recursions only; [from_value_fuel] and
    [resolve_terminates] show when it cannot occur. *)
Inductive SiliconError : Type :=
| MissingField (s : string)
| InvalidField (s : string)
| BitNotFound (cid : string)
| BitTypeMismatch (cid : string)
| CircuitNotFound (cid : string)
| CircuitTypeMismatch (cid : string)
| ChipNotFound (cid : string)
| ChipTypeMismatch (cid : string)
| UnsupportedTarget (s : string)
| CompileError (s : string)
| ChipStoreRequired
| ChipStoreError (s : string)
| CyclicChipGraph (cid : string)
| OutOfFuel.

Inductive ConditionSpec : Type :=
| CAlways (value : bool)
| CContextHas (key : string)
| CContextEquals (key : string) (value : json)
| CBodySizeLte (limit : Z)
| CTypeEquals (chip_type : string)
| CAnd (conditions : list ConditionSpec)
| COr (conditions : list ConditionSpec)
| CNot (condition : ConditionSpec)
| CAmountLte (field : string) (amount : Z)
| CTimestampWithinSecs (field : string) (window_secs : Z).

Record SiliconBitBody : Type := mkBitBody {
  bit_id : string; bit_name : string; bit_condition : ConditionSpec;
  bit_on_true : Decision; bit_on_false : Decision; bit_requires_context : list string;
}.
Record SiliconCircuitBody : Type := mkCircuitBody {
  scircuit_id : string; scircuit_name : string; scircuit_bits : list string;
  scircuit_composition : string; scircuit_aggregator : string;
}.
Record HalProfile : Type := mkHal {
  profile : string; targets : list string; deterministic : bool;
  timebase_ns : option Z; energy_unit : option string; cost_unit : option string;
}.
Record SiliconChipBody : Type := mkChipBody {
  schip_id : string; schip_name : string; schip_circuits : list string;
  schip_hal : HalProfile; schip_version : string;
}.
Inductive CompileTarget : Type := UblVm.
Record SiliconCompileBody : Type := mkCompileBody { compile_chip_cid : string; compile_target : CompileTarget }.
Inductive SiliconRequest : Type :=
| ReqBit (b : SiliconBitBody)
| ReqCircuit (c : SiliconCircuitBody)
| ReqChip (c : SiliconChipBody)
| ReqCompile (c : SiliconCompileBody).

(** ** Conditions *)

Fixpoint to_expression (c : ConditionSpec) : Expression :=
  match c with
  | CAlways value => Always value
  | CContextHas key => ContextHas key
  | CContextEquals key value => ContextEquals key value
  | CBodySizeLte limit => BodySizeLte limit
  | CTypeEquals chip_type => TypeEquals chip_type
  | CAnd conditions =>
      And ((fix go (l : list ConditionSpec) : list Expression :=
              match l with [] => [] | x :: l' => to_expression x :: go l' end) conditions)
  | COr conditions =>
      Or ((fix go (l : list ConditionSpec) : list Expression :=
             match l with [] => [] | x :: l' => to_expression x :: go l' end) conditions)
  | CNot condition => Not (to_expression condition)
  | CAmountLte _ _ => Always true
  | CTimestampWithinSecs _ _ => Always true
  end.

(** [v.get(k).and_then(f).ok_or_else(|| MissingField(name))]. *)
Definition need {A} (v : json) (k : string) (f : json -> option A) (name : string) : result SiliconError A :=
  ok_or (get k v ≫= f) (MissingField name).

(** [parse_tagged], with the recursive call as an argument. *)
Definition parse_tagged (from_value : json -> result SiliconError ConditionSpec) (op : string) (v : json)
    : result SiliconError ConditionSpec :=
  if String.eqb op "always" then
    value ← need v "value" as_bool "condition.value"; Ok (CAlways value)
  else if String.eqb op "context_has" then
    key ← need v "key" as_str "condition.key"; Ok (CContextHas key)
  else if String.eqb op "context_equals" then
    key ← need v "key" as_str "condition.key";
    value ← need v "value" Some "condition.value"; Ok (CContextEquals key value)
  else if String.eqb op "body_size_lte" then
    limit ← need v "limit" as_u64 "condition.limit"; Ok (CBodySizeLte limit)
  else if String.eqb op "type_equals" then
    t ← need v "chip_type" as_str "condition.chip_type"; Ok (CTypeEquals t)
  else if String.eqb op "and" then
    conditions ← need v "conditions" as_array "condition.conditions";
    parsed ← try_map from_value conditions; Ok (CAnd parsed)
  else if String.eqb op "or" then
    conditions ← need v "conditions" as_array "condition.conditions";
    parsed ← try_map from_value conditions; Ok (COr parsed)
  else if String.eqb op "not" then
    inner ← need v "condition" Some "condition.condition";
    c ← from_value inner; Ok (CNot c)
  else if String.eqb op "amount_lte" then
    field ← need v "field" as_str "condition.field";
    amount ← need v "amount" as_i64 "condition.amount"; Ok (CAmountLte field amount)
  else if String.eqb op "timestamp_within_secs" then
    field ← need v "field" as_str "condition.field";
    window_secs ← need v "window_secs" as_i64 "condition.window_secs"; Ok (CTimestampWithinSecs field window_secs)
  else Err (InvalidField ("unknown condition op: " +:+ op)).

(** The legacy compact form: the first key present decides. *)
Definition parse_legacy (from_value : json -> result SiliconError ConditionSpec) (v : json)
    : result SiliconError ConditionSpec :=
  match get "Always" v with
  | Some val => b ← ok_or (as_bool val) (InvalidField "Always value must be bool"); Ok (CAlways b)
  | None =>
  match get "ContextHas" v ≫= as_str with
  | Some key => Ok (CContextHas key)
  | None =>
  match get "ContextEquals" v ≫= as_array with
  | Some [k; value] =>
      key ← ok_or (as_str k) (InvalidField "ContextEquals key must be string"); Ok (CContextEquals key value)
  | Some _ => Err (InvalidField "ContextEquals must be [key, value]")
  | None =>
  match get "BodySizeLte" v ≫= as_u64 with
  | Some n => Ok (CBodySizeLte n)
  | None =>
  match get "TypeEquals" v ≫= as_str with
  | Some t => Ok (CTypeEquals t)
  | None =>
  match get "And" v ≫= as_array with
  | Some conditions => parsed ← try_map from_value conditions; Ok (CAnd parsed)
  | None =>
  match get "Or" v ≫= as_array with
  | Some conditions => parsed ← try_map from_value conditions; Ok (COr parsed)
  | None =>
  match get "Not" v with
  | Some inner => c ← from_value inner; Ok (CNot c)
  | None => Err (InvalidField "condition must have 'op' field or be a legacy compact object")
  end end end end end end end end.

(** [ConditionSpec::from_value]; each level of nesting takes one unit of fuel. *)
Fixpoint from_value_loop (fuel : nat) (v : json) : result SiliconError ConditionSpec :=
  match fuel with
  | O => Err OutOfFuel
  | S f =>
      match get "op" v ≫= as_str with
      | Some op => parse_tagged (from_value_loop f) op v
      | None =>
          match v with
          | JObject _ => parse_legacy (from_value_loop f) v
          | _ => Err (InvalidField "condition must have 'op' field or be a legacy compact object")
          end
      end
  end.

Fixpoint json_depth (v : json) : nat :=
  match v with
  | JArray l => S ((fix go (l : list json) : nat := match l with [] => O | x :: l' => Nat.max (json_depth x) (go l') end) l)
  | JObject m =>
      S ((fix go (m : list (string * json)) : nat :=
            match m with [] => O | (_, x) :: m' => Nat.max (json_depth x) (go m') end) m)
  | _ => 1
  end%nat.
Definition condition_from_value (v : json) : result SiliconError ConditionSpec :=
  from_value_loop (json_depth v) v.

(** ** Modes *)

(** [str::parse::<usize>]: an optional plus sign and decimal digits, in range. *)
Fixpoint parse_usize_digits (s : string) (acc : Z) : option Z :=
  match s with
  | EmptyString => Some acc
  | String a s' =>
      let d := Z.of_N (N_of_ascii a) - 48 in
      if (0 <=? d) && (d <=? 9) && (10 * acc + d <=? u64_max) then parse_usize_digits s' (10 * acc + d) else None
  end.
Definition parse_usize (s : string) : option Z :=
  let digits := match s with String "+" s' => s' | _ => s end in
  match digits with EmptyString => None | _ => parse_usize_digits digits 0 end.

Section Parsing.
Context {SC : StrCase}.

Definition composition_mode (c : SiliconCircuitBody) : result SiliconError CompositionMode :=
  let s := to_lowercase (scircuit_composition c) in
  if String.eqb s "sequential" then Ok Sequential
  else if String.eqb s "parallel" then Ok Parallel
  else Err (InvalidField ("composition must be Sequential|Parallel, got '" +:+ s +:+ "'")).

Definition aggregation_mode (c : SiliconCircuitBody) : result SiliconError AggregationMode :=
  let s := to_lowercase (scircuit_aggregator c) in
  if String.eqb s "all" then Ok All
  else if String.eqb s "any" then Ok Any
  else if String.eqb s "majority" then Ok Majority
  else if String.eqb s "first_decisive" || String.eqb s "firstdecisive" then Ok FirstDecisive
  else
    let bad := Err (InvalidField
      ("aggregator must be All|Any|Majority|FirstDecisive|k_of_n:K:N, got '" +:+ s +:+ "'")) in
    match strip_prefix "k_of_n:" s with
    | Some rest =>
        match split_on ":" rest with
        | [a; b] =>
            match parse_usize a, parse_usize b with
            | Some k, Some n => Ok (KofN k n)
            | _, _ => bad
            end
        | _ => bad
        end
    | None => bad
    end.

(** ** Bodies *)

Definition req_str (body : json) (field : string) : result SiliconError string :=
  need body field as_str field.

Definition parse_decision (body : json) (field : string) : result SiliconError Decision :=
  s ← need body field as_str field;
  let s' := to_lowercase s in
  if String.eqb s' "allow" then Ok Allow
  else if String.eqb s' "deny" then Ok DenyD
  else if String.eqb s' "require" then Ok RequireD
  else Err (InvalidField (field +:+ " must be allow|deny|require, got '" +:+ s' +:+ "'")).

Definition str_items (v : option json) : list string :=
  match v ≫= as_array with Some l => omap as_str l | None => [] end.

Definition hal_from_value (v : json) : result SiliconError HalProfile :=
  profile ← need v "profile" as_str "hal.profile";
  Ok (mkHal profile (str_items (get "targets" v)) (default true (get "deterministic" v ≫= as_bool))
        (get "timebase_ns" v ≫= as_u64) (get "energy_unit" v ≫= as_str) (get "cost_unit" v ≫= as_str)).

Definition parse_bit (body : json) : result SiliconError SiliconBitBody :=
  id ← req_str body "id";
  name ← req_str body "name";
  condition_val ← need body "condition" Some "condition";
  condition ← condition_from_value condition_val;
  on_true ← parse_decision body "on_true";
  on_false ← parse_decision body "on_false";
  Ok (mkBitBody id name condition on_true on_false (str_items (get "requires_context" body))).

(** [.enumerate().map(..).collect()] and the loop that checks the prefix. *)
Definition index_name (label : string) (i : nat) : string := label +:+ "[" +:+ u_to_string (Z.of_nat i) +:+ "]".
Fixpoint str_array (label : string) (i : nat) (l : list json) : result SiliconError (list string) :=
  match l with
  | [] => Ok []
  | v :: l' =>
      s ← ok_or (as_str v) (InvalidField (index_name label i +:+ " must be string"));
      rest ← str_array label (S i) l'; Ok (s :: rest)
  end.
Fixpoint check_cids (label : string) (i : nat) (l : list string) : result SiliconError () :=
  match l with
  | [] => Ok tt
  | cid :: l' =>
      if negb (starts_with "b3:" cid) then Err (InvalidField (index_name label i +:+ " must be a CID (b3:...)"))
      else check_cids label (S i) l'
  end.

Definition parse_cids (body : json) (label : string) : result SiliconError (list string) :=
  arr ← need body label as_array label;
  cids ← str_array label 0 arr;
  match cids with
  | [] => Err (InvalidField (label +:+ " cannot be empty"))
  | _ => _ ← check_cids label 0 cids; Ok cids
  end.

Definition parse_circuit (body : json) : result SiliconError SiliconCircuitBody :=
  id ← req_str body "id";
  name ← req_str body "name";
  bits ← parse_cids body "bits";
  composition ← req_str body "composition";
  aggregator ← req_str body "aggregator";
  let circuit := mkCircuitBody id name bits composition aggregator in
  _ ← composition_mode circuit;
  _ ← aggregation_mode circuit;
  Ok circuit.

Definition parse_chip (body : json) : result SiliconError SiliconChipBody :=
  id ← req_str body "id";
  name ← req_str body "name";
  circuits ← parse_cids body "circuits";
  hal_v ← need body "hal" Some "hal";
  hal ← hal_from_value hal_v;
  Ok (mkChipBody id name circuits hal (default "1.0" (get "version" body ≫= as_str))).

Definition compile_target_parse (s : string) : option CompileTarget :=
  let t := to_lowercase (str_trim s) in
  if String.eqb t "ubl_vm" || String.eqb t "ubl_vm/v1" then Some UblVm else None.

Definition parse_compile (body : json) : result SiliconError SiliconCompileBody :=
  chip_cid ← req_str body "chip_cid";
  if negb (starts_with "b3:" chip_cid) then Err (InvalidField "chip_cid must be a CID (b3:...)")
  else
    let target_str := default "ubl_vm" (get "target" body ≫= as_str) in
    target ← ok_or (compile_target_parse target_str) (UnsupportedTarget target_str);
    Ok (mkCompileBody chip_cid target).

Definition parse_silicon (chip_type : string) (body : json) : result SiliconError SiliconRequest :=
  if String.eqb chip_type TYPE_SILICON_BIT then b ← parse_bit body; Ok (ReqBit b)
  else if String.eqb chip_type TYPE_SILICON_CIRCUIT then c ← parse_circuit body; Ok (ReqCircuit c)
  else if String.eqb chip_type TYPE_SILICON_CHIP then c ← parse_chip body; Ok (ReqChip c)
  else if String.eqb chip_type TYPE_SILICON_COMPILE then c ← parse_compile body; Ok (ReqCompile c)
  else Err (InvalidField ("not a silicon chip type: " +:+ chip_type)).
End Parsing.

(** ** The check against the chip store *)

Section Check.
Context {SC : StrCase}.

(** [verify_chip_type]: the type of the stored chip; the callers replace any
    error by their own "not found". *)
Definition verify_chip_type (store : ChipStore) (cid : string) : result SiliconError string :=
  stored ← map_err ChipStoreError (get_chip cid);
  stored ← ok_or stored (ChipNotFound cid);
  Ok (chip_type stored).

Definition check_circuit_entry (store : ChipStore) (_ : ()) (cid : string) : result SiliconError () :=
  found_type ← map_err (fun _ => BitNotFound cid) (verify_chip_type store cid);
  if negb (String.eqb found_type TYPE_SILICON_BIT) && negb (String.eqb found_type TYPE_SILICON_CHIP) then
    Err (InvalidField ("circuit bits[" +:+ cid +:+ "] must be ubl/silicon.bit or ubl/silicon.chip, got '"
                       +:+ found_type +:+ "'"))
  else Ok tt.

Definition check_chip_entry (store : ChipStore) (_ : ()) (cid : string) : result SiliconError () :=
  found_type ← map_err (fun _ => CircuitNotFound cid) (verify_chip_type store cid);
  if negb (String.eqb found_type TYPE_SILICON_CIRCUIT) then Err (CircuitTypeMismatch cid) else Ok tt.

Definition check_compile (store : ChipStore) (cid : string) : result SiliconError () :=
  found_type ← map_err (fun _ => ChipNotFound cid) (verify_chip_type store cid);
  if negb (String.eqb found_type TYPE_SILICON_CHIP) then Err (ChipTypeMismatch cid) else Ok tt.

Definition validate_for_check (chip_type : string) (body : json) (chip_store : option ChipStore)
    : result SiliconError SiliconRequest :=
  parsed ← parse_silicon chip_type body;
  _ ← match parsed with
      | ReqBit _ => Ok tt
      | ReqCircuit circuit =>
          store ← ok_or chip_store ChipStoreRequired;
          try_fold (check_circuit_entry store) tt (scircuit_bits circuit)
      | ReqChip chip =>
          store ← ok_or chip_store ChipStoreRequired;
          try_fold (check_chip_entry store) tt (schip_circuits chip)
      | ReqCompile compile =>
          store ← ok_or chip_store ChipStoreRequired;
          check_compile store (compile_chip_cid compile)
      end;
  Ok parsed.
End Check.

(** ** Resolution of the chip graph *)

Record ResolvedBit : Type := mkResolvedBit { resolved_bit_cid : string; resolved_bit : SiliconBitBody }.

Inductive ResolvedNode : Type :=
| NodeBit (b : ResolvedBit)
| NodeSubChip (cs : list ResolvedCircuit)
with ResolvedCircuit : Type :=
| mkResolved (cid : string) (body : SiliconCircuitBody) (nodes : list ResolvedNode).

Definition resolved_body (c : ResolvedCircuit) : SiliconCircuitBody := let '(mkResolved _ b _) := c in b.
Definition resolved_nodes (c : ResolvedCircuit) : list ResolvedNode := let '(mkResolved _ _ n) := c in n.

Section Resolve.
Context {SC : StrCase} (store : ChipStore).

Definition load (not_found : string -> SiliconError) (cid : string) : result SiliconError StoredChip :=
  stored ← map_err ChipStoreError (get_chip cid);
  ok_or stored (not_found cid).

(** One entry of a circuit's [bits]; [inner] resolves a sub-chip.  The set
    of chips being resolved is threaded as the source threads [visiting]. *)
Definition resolve_entry (inner : SiliconChipBody -> gset string -> result SiliconError (list ResolvedCircuit * gset string))
    (visiting : gset string) (entry_cid : string) : result SiliconError (ResolvedNode * gset string) :=
  entry_stored ← load BitNotFound entry_cid;
  let t := chip_type entry_stored in
  if String.eqb t TYPE_SILICON_BIT then
    bit_body ← parse_bit (chip_data entry_stored);
    Ok (NodeBit (mkResolvedBit entry_cid bit_body), visiting)
  else if String.eqb t TYPE_SILICON_CHIP then
    if bool_decide (entry_cid ∈ visiting) then Err (CyclicChipGraph entry_cid)
    else
      req ← parse_silicon TYPE_SILICON_CHIP (chip_data entry_stored);
      match req with
      | ReqChip sub_chip_body =>
          '(sub_circuits, visiting') ← inner sub_chip_body ({[entry_cid]} ∪ visiting);
          Ok (NodeSubChip sub_circuits, visiting' ∖ {[entry_cid]})
      | _ => Err (ChipTypeMismatch entry_cid)
      end
  else
    Err (InvalidField ("circuit bits[" +:+ entry_cid +:+ "] has unsupported type '" +:+ t
                       +:+ "'; expected bit or chip")).

Fixpoint resolve_entries inner (visiting : gset string) (cids : list string)
    : result SiliconError (list ResolvedNode * gset string) :=
  match cids with
  | [] => Ok ([], visiting)
  | cid :: rest =>
      '(node, visiting) ← resolve_entry inner visiting cid;
      '(nodes, visiting) ← resolve_entries inner visiting rest;
      Ok (node :: nodes, visiting)
  end.

Fixpoint resolve_circuits inner (visiting : gset string) (cids : list string)
    : result SiliconError (list ResolvedCircuit * gset string) :=
  match cids with
  | [] => Ok ([], visiting)
  | circuit_cid :: rest =>
      circuit_stored ← load CircuitNotFound circuit_cid;
      circuit_body ← parse_circuit (chip_data circuit_stored);
      '(nodes, visiting) ← resolve_entries inner visiting (scircuit_bits circuit_body);
      '(circuits, visiting) ← resolve_circuits inner visiting rest;
      Ok (mkResolved circuit_cid circuit_body nodes :: circuits, visiting)
  end.

(** Each nested chip takes one unit of fuel. *)
Fixpoint resolve_chip_graph_inner (fuel : nat) (chip : SiliconChipBody) (visiting : gset string)
    : result SiliconError (list ResolvedCircuit * gset string) :=
  match fuel with
  | O => Err OutOfFuel
  | S f => resolve_circuits (resolve_chip_graph_inner f) visiting (schip_circuits chip)
  end.

Definition resolve_chip_graph (fuel : nat) (chip : SiliconChipBody) : result SiliconError (list ResolvedCircuit) :=
  '(circuits, _) ← resolve_chip_graph_inner fuel chip ∅;
  Ok circuits.
End Resolve.

(** ** The compiler *)

(** [0u16.to_be_bytes()] and [i64::to_be_bytes]. *)
Definition push_input0 : bytes := tlv_instr x12 [x00; x00].
Definition i64_bytes (z : Z) : bytes := to_be_bytes 8 z.

(** [for _ in 0..n { code.extend(tlv_instr(op, &[])) }]. *)
Definition repeat_instr (n : nat) (op : Byte.byte) : bytes := concat (replicate n (tlv_instr op [])).

Section Compile.
Context {SC : StrCase} {SJ : SerdeJson}.

(** The input as a JSON value on the stack: [PushInput(0) CasGet
    JsonNormalize]. *)
Definition load_input : bytes := push_input0 ++ tlv_instr x0c [] ++ tlv_instr x03 [].

Definition expected_bytes (value : json) : bytes :=
  match as_str value with Some s => as_bytes s | None => as_bytes (value_to_string value) end.

Fixpoint compile_to_bool (cond : ConditionSpec) : bytes :=
  let compile_list := fix go (l : list ConditionSpec) : bytes :=
    match l with [] => [] | x :: l' => compile_to_bool x ++ go l' end in
  match cond with
  | CAlways value => tlv_instr x26 [if value then x01 else x00]
  | CContextHas key => load_input ++ tlv_instr x23 (as_bytes key)
  | CContextEquals key value =>
      load_input ++ tlv_instr x22 (as_bytes key) ++ tlv_instr x02 (expected_bytes value) ++ tlv_instr x24 []
  | CTypeEquals chip_type =>
      load_input ++ tlv_instr x22 (as_bytes "@type") ++ tlv_instr x02 (as_bytes chip_type) ++ tlv_instr x24 []
  | CBodySizeLte limit =>
      tlv_instr x25 [] ++ tlv_instr x01 (i64_bytes (u64_as_i64 limit)) ++ tlv_instr x08 [x03]
  | CAnd conditions =>
      match conditions with
      | [] => tlv_instr x26 [x01]
      | _ => compile_list conditions ++ repeat_instr (length conditions - 1) x29
      end
  | COr conditions =>
      match conditions with
      | [] => tlv_instr x26 [x00]
      | _ => compile_list conditions ++ repeat_instr (length conditions - 1) x28
      end
  | CNot condition => compile_to_bool condition ++ tlv_instr x27 []
  | CAmountLte field amount =>
      load_input ++ tlv_instr x13 (as_bytes field) ++ tlv_instr x01 (i64_bytes amount) ++ tlv_instr x08 [x03]
  | CTimestampWithinSecs field window_secs =>
      tlv_instr x2c [] ++ load_input ++ tlv_instr x13 (as_bytes field) ++ tlv_instr x06 [] ++
      tlv_instr x01 (i64_bytes window_secs) ++ tlv_instr x08 [x03]
  end.

Definition compile_condition (cond : ConditionSpec) (on_false : Decision) : bytes :=
  compile_to_bool cond ++ (if is_deny on_false then tlv_instr x09 [] else tlv_instr x11 []).

(** [emit_node_as_bool]: the code appended, and the incremented count. *)
Fixpoint emit_node_as_bool (node : ResolvedNode) (count : nat) : bytes * nat :=
  match node with
  | NodeBit bit => (compile_to_bool (bit_condition (resolved_bit bit)), S count)
  | NodeSubChip sub_circuits =>
      let '(inner, inner_count) :=
        (fix go (cs : list ResolvedCircuit) (acc : bytes * nat) : bytes * nat :=
           match cs with
           | [] => acc
           | mkResolved _ _ nodes :: cs' =>
               go cs'
                 ((fix go_nodes (ns : list ResolvedNode) (acc : bytes * nat) : bytes * nat :=
                     match ns with
                     | [] => acc
                     | n :: ns' =>
                         let '(code, count) := emit_node_as_bool n acc.2 in go_nodes ns' (acc.1 ++ code, count)
                     end) nodes acc)
           end) sub_circuits ([], O) in
      let '(inner, inner_count) :=
        if (inner_count =? 0)%nat then (inner ++ tlv_instr x26 [x01], 1%nat) else (inner, inner_count) in
      (inner ++ repeat_instr (inner_count - 1) x29, S count)
  end.

(** [compile_subchip_as_bool]: the nodes of all the circuits, folded with
    [BoolAnd]. *)
Definition compile_subchip_as_bool (sub_circuits : list ResolvedCircuit) : bytes :=
  let '(all_bools, bool_count) :=
    fold_left (fun acc node => let '(code, count) := emit_node_as_bool node acc.2 in (acc.1 ++ code, count))
      (concat (resolved_nodes <$> sub_circuits)) ([], O) in
  let '(all_bools, bool_count) :=
    if (bool_count =? 0)%nat then (all_bools ++ tlv_instr x26 [x01], 1%nat) else (all_bools, bool_count) in
  all_bools ++ repeat_instr (bool_count - 1) x29.

Definition node_bit (n : ResolvedNode) : option ResolvedBit :=
  match n with NodeBit b => Some b | NodeSubChip _ => None end.

(** [for i in 0..n { BoolToI64; if i > 0 { AddI64 } }]. *)
Fixpoint interleaved_sum (i n : nat) : bytes :=
  match n with
  | O => []
  | S n' => tlv_instr x2a [] ++ (if (0 <? i)%nat then tlv_instr x05 [] else []) ++ interleaved_sum (S i) n'
  end.

(** [AssertTrue] after comparing the sum on the stack with [k]. *)
Definition assert_at_least (k : Z) : bytes :=
  tlv_instr x01 (i64_bytes k) ++ tlv_instr x08 [x05] ++ tlv_instr x09 [].

(** [collect_bits]: either the flat list of bits, or the code emitted for a
    circuit with sub-chips. *)
Definition collect_bits (nodes : list ResolvedNode) (aggregation : AggregationMode)
    : result SiliconError (bytes * option (list ResolvedBit)) :=
  if forallb (fun n => match n with NodeBit _ => true | NodeSubChip _ => false end) nodes then
    Ok ([], Some (omap node_bit nodes))
  else
    let n := length nodes in
    let code := concat ((fun node =>
      match node with
      | NodeBit bit => compile_to_bool (bit_condition (resolved_bit bit))
      | NodeSubChip sub_circuits => compile_subchip_as_bool sub_circuits
      end) <$> nodes) in
    let fold_code :=
      match aggregation with
      | All | FirstDecisive => repeat_instr (n - 1) x29 ++ tlv_instr x09 []
      | Any => repeat_instr (n - 1) x28 ++ tlv_instr x09 []
      | Majority => interleaved_sum 0 n ++ assert_at_least (Z.of_nat n / 2 + 1)
      | KofN k _ => interleaved_sum 0 n ++ assert_at_least (u64_as_i64 k)
      end in
    Ok (code ++ fold_code, None).

Definition compile_bools (bits : list ResolvedBit) : bytes :=
  concat ((fun b => compile_to_bool (bit_condition (resolved_bit b))) <$> bits).
Definition compile_counts (bits : list ResolvedBit) : bytes :=
  concat ((fun b => compile_to_bool (bit_condition (resolved_bit b)) ++ tlv_instr x2a []) <$> bits).
Definition compile_asserts (bits : list ResolvedBit) : bytes :=
  concat ((fun b => compile_condition (bit_condition (resolved_bit b)) (bit_on_false (resolved_bit b))) <$> bits).

(** The aggregation of a circuit made of bits. *)
Definition aggregate_bits (composition : CompositionMode) (aggregation : AggregationMode) (bits : list ResolvedBit)
    : bytes :=
  let n := length bits in
  match composition, aggregation with
  | Sequential, All | Sequential, FirstDecisive => compile_asserts bits
  | _, Any => compile_bools bits ++ repeat_instr (n - 1) x28 ++ tlv_instr x09 []
  | _, Majority => compile_counts bits ++ repeat_instr (n - 1) x05 ++ assert_at_least (Z.of_nat n / 2 + 1)
  | _, KofN k _ => compile_counts bits ++ repeat_instr (n - 1) x05 ++ assert_at_least (u64_as_i64 k)
  | Parallel, All | Parallel, FirstDecisive =>
      compile_bools bits ++ repeat_instr (n - 1) x29 ++ tlv_instr x09 []
  | Conditional _, All | Conditional _, FirstDecisive => compile_asserts bits
  end.

Definition compile_circuit (c : ResolvedCircuit) : result SiliconError bytes :=
  composition ← composition_mode (resolved_body c);
  aggregation ← aggregation_mode (resolved_body c);
  '(code, bits) ← collect_bits (resolved_nodes c) aggregation;
  match bits with
  | None => Ok code
  | Some [] => Err (CompileError "circuit has no bits")
  | Some bits => Ok (code ++ aggregate_bits composition aggregation bits)
  end.

Definition compile_circuits_inner (circuits : list ResolvedCircuit) : result SiliconError bytes :=
  try_fold (fun code c => x ← compile_circuit c; Ok (code ++ x)) [] circuits.

Definition compile_chip_to_ubl_vm (circuits : list ResolvedCircuit) : result SiliconError bytes :=
  code ← compile_circuits_inner circuits;
  Ok (code ++ push_input0 ++ tlv_instr x10 []).

Definition gate_compile (fuel : nat) (store : ChipStore) (gate_chip_cid : string) : result SiliconError bytes :=
  stored ← map_err ChipStoreError (get_chip gate_chip_cid);
  stored ← ok_or stored (ChipNotFound gate_chip_cid);
  if negb (String.eqb (chip_type stored) TYPE_SILICON_CHIP) then Err (ChipTypeMismatch gate_chip_cid)
  else
    req ← parse_silicon TYPE_SILICON_CHIP (chip_data stored);
    match req with
    | ReqChip chip_body =>
        circuits ← resolve_chip_graph store fuel chip_body;
        compile_chip_to_ubl_vm circuits
    | _ => Err (ChipTypeMismatch gate_chip_cid)
    end.
End Compile.
