(* ===== verification/CompileFacts.v ===== *)
(** * Correctness of the chip compiler

    The bytecode compiled from a condition, run on the VM, computes the
    condition's meaning on the canonical input ([cond_sem]): the basis of the
    results on whole chips. *)

From S2P Require Import Prelude RustStd Json Nrf BigNum Unc1 Tlv Policy Vm VmFacts Silicon.
Local Open Scope string_scope.
Local Open Scope Z_scope.
Local Open Scope list_scope.

(** ** Straight-line execution *)

Section Exec.
Context {C : Type} {CP : CasProvider C} {SP : SignProvider} {KP : CanonProvider} {ED : Ed25519}
  {B64 : Base64} {NS : NumSerde} {CK : Clock} {HB3 : Blake3} {SJ : SerdeJson} {BN : BigNum}.
Implicit Types (m : Vm C) (code : list Instr) (s : list Value).

(** [run] on code without [EmitRc], up to its last machine. *)
Fixpoint exec_code code m : result ExecError (Vm C) :=
  match code with
  | [] => Ok m
  | ins :: rest =>
      if fuel_limit (cfg m) <? u64_saturating_add (fuel_used m) 1 then Err FuelExhausted
      else match exec_op (op ins) (payload ins) (tick m) with
           | Ok (_, m') => exec_code rest (record (op ins) None m')
           | Err e => Err e
           end
  end.

Lemma exec_code_app c1 c2 m :
  exec_code (c1 ++ c2) m = match exec_code c1 m with Ok m1 => exec_code c2 m1 | Err e => Err e end.
Proof.
  revert m. induction c1 as [|ins c1 IH]; intros m; cbn [app exec_code]; [done|].
  case_match; [done|]. destruct (exec_op _ _ _) as [[u m1]|]; [apply IH|done].
Qed.

Lemma run_app c1 c2 m :
  ~ EmitRc ∈ (op <$> c1) ->
  run (c1 ++ c2) m = match exec_code c1 m with Ok m1 => run c2 m1 | Err e => Err e end.
Proof.
  revert m. induction c1 as [|ins c1 IH]; intros m Hn; cbn [app exec_code]; [done|].
  csimpl in Hn. rewrite not_elem_of_cons in Hn. destruct Hn as [Ho Hn]. rewrite run_cons.
  case_match; [done|]. case_decide; [by congruence|].
  destruct (exec_op _ _ _) as [[u m1]|]; [by apply IH|done].
Qed.

(** ** The environment of a gate run *)

Context (cid : Cid) (input : bytes) (j : json) (size now : Z).

(** Input 0 is stored, and the body size is given. *)
Definition env m : Prop :=
  inputs m !! 0%nat = Some cid /\ cas_get (cas m) cid = Some input /\ body_size m = size.

Definition same_env m m' : Prop :=
  cfg m' = cfg m /\ inputs m' = inputs m /\ cas m' = cas m /\ body_size m' = body_size m /\
  rc_body m' = rc_body m /\ proofs m' = proofs m.

Lemma env_same m m' : same_env m m' -> env m -> env m'.
Proof. intros (_ & Hi & Hc & Hb & _). unfold env. by rewrite Hi, Hc, Hb. Qed.

(** From stack [s] the code either reaches the stack of [r] or fails with its
    error, given fuel for all of it. *)
Definition runs code s (r : result ExecError (list Value)) : Prop :=
  forall m, env m -> stack m = s ->
    fuel_used m + Z.of_nat (length code) <= fuel_limit (cfg m) < u64_max ->
    match r with
    | Ok s' => exists m', exec_code code m = Ok m' /\ same_env m m' /\
        fuel_used m' = fuel_used m + Z.of_nat (length code) /\ stack m' = s'
    | Err e => exec_code code m = Err e
    end.

Lemma runs_nil s : runs [] s (Ok s).
Proof. intros m He <- Hf. exists m. cbn. split_and!; try done. lia. Qed.

Lemma runs_app c1 c2 s r1 r :
  runs c1 s r1 ->
  match r1 with Ok s1 => runs c2 s1 r | Err e => r = Err e end -> runs (c1 ++ c2) s r.
Proof.
  intros H1 H2 m He Hs Hf. rewrite length_app in *. rewrite exec_code_app.
  specialize (H1 m He Hs ltac:(lia)). destruct r1 as [s1|e]; [|by rewrite H1, H2].
  destruct H1 as (m1 & -> & Hsame & Hfu & Hs1). destruct Hsame as (Hcfg & Hrest).
  specialize (H2 m1 (env_same m m1 (conj Hcfg Hrest) He) Hs1). rewrite Hcfg, Hfu in H2. specialize (H2 ltac:(lia)).
  destruct r as [s'|e]; [|done]. destruct H2 as (m' & E & Hsame' & Hfu' & Hs'). exists m'.
  split_and!; [done| |lia|done]. unfold same_env in *. naive_solver congruence.
Qed.

(** One instruction, from its effect on the stack. *)
Lemma runs_one o p s r :
  (forall m, env m -> stack m = s ->
    exec_op o p m = match r with Ok s' => Ok (tt, set_stack m s') | Err e => Err e end) ->
  runs [mkInstr o p] s r.
Proof.
  intros H m He Hs Hf. cbn [exec_code op payload length] in *.
  unfold u64_saturating_add. destruct (Z.ltb_spec (fuel_limit (cfg m)) (Z.min u64_max (fuel_used m + 1))); [lia|].
  rewrite (H (tick m)) by done. destruct r as [s'|e]; [|done].
  exists (record o None (set_stack (tick m) s')). split; [done|].
  assert (u64_saturating_add (fuel_used m) 1 = fuel_used m + 1) as Hu by (unfold u64_saturating_add; lia).
  unfold record. destruct (tracing _); (split; [by split_and!|]); cbn; rewrite Hu; split; [lia|done|lia|done].
Qed.

Lemma runs_cons o p c s r1 r :
  (forall m, env m -> stack m = s ->
    exec_op o p m = match r1 with Ok s' => Ok (tt, set_stack m s') | Err e => Err e end) ->
  match r1 with Ok s1 => runs c s1 r | Err e => r = Err e end ->
  runs (mkInstr o p :: c) s r.
Proof. intros H1 H2. change (mkInstr o p :: c) with ([mkInstr o p] ++ c). eapply runs_app; [by apply runs_one|done]. Qed.

(** ** The meaning of conditions *)

Definition missing_number : ExecError := Deny (Reason "json_key_missing_or_not_i64").

(** An integer member of the input, for an opcode [o] that will consume it:
    a missing or non-numeric member denies, a UNC-1 number is a type error of
    [o]. *)
Definition field_i64 (f : string) (o : Opcode) : result ExecError Z :=
  match get f j with
  | None => Err missing_number
  | Some x =>
      match as_i64 x with
      | Some n => Ok n
      | None =>
          match get "@num" x with
          | None => Err missing_number
          | Some _ => match num_from_value x with Some _ => Err (TypeMismatch o) | None => Err missing_number end
          end
      end
  end.

Definition field_equals (k : string) (expected : bytes) : result ExecError bool :=
  match get k j ≫= as_str with
  | None => Err (Deny (ReasonKey "json_key_missing_or_not_string: " k))
  | Some t => Ok (bool_decide (as_bytes t = expected))
  end.

(** Conjunctions and disjunctions are strict: every operand is computed, in
    order, and the first error is the result. *)
Fixpoint cond_sem (c : ConditionSpec) : result ExecError bool :=
  let sems := fix go (l : list ConditionSpec) : result ExecError (list bool) :=
    match l with [] => Ok [] | x :: l' => b ← cond_sem x; bs ← go l'; Ok (b :: bs) end in
  match c with
  | CAlways b => Ok b
  | CContextHas k => Ok (match get k j with Some v => negb (is_null v) | None => false end)
  | CContextEquals k v => field_equals k (expected_bytes v)
  | CTypeEquals t => field_equals "@type" (as_bytes t)
  | CBodySizeLte n => Ok (u64_as_i64 size <=? u64_as_i64 n)
  | CAnd l => bs ← sems l; Ok (forallb id bs)
  | COr l => bs ← sems l; Ok (existsb id bs)
  | CNot c => b ← cond_sem c; Ok (negb b)
  | CAmountLte f a => x ← field_i64 f CmpI64; Ok (x <=? a)
  | CTimestampWithinSecs f w =>
      x ← field_i64 f SubI64; Ok (i64_saturating_sub (u64_as_i64 now) x <=? w)
  end.

(** Conditions as the parser produces them, with keys and constants that fit
    an instruction. *)
Definition key_ok (k : string) : Prop := str_wf k /\ Z.of_nat (length (as_bytes k)) < 2 ^ 16.
Fixpoint cond_ok (c : ConditionSpec) : Prop :=
  let all := fix go (l : list ConditionSpec) : Prop :=
    match l with [] => True | x :: l' => cond_ok x /\ go l' end in
  match c with
  | CAlways _ => True
  | CContextHas k => key_ok k
  | CContextEquals k v => key_ok k /\ Z.of_nat (length (expected_bytes v)) < 2 ^ 16
  | CTypeEquals t => Z.of_nat (length (as_bytes t)) < 2 ^ 16
  | CBodySizeLte n => 0 <= n <= u64_max
  | CAnd l | COr l => all l
  | CNot c => cond_ok c
  | CAmountLte f a => key_ok f /\ in_i64 a = true
  | CTimestampWithinSecs f w => key_ok f /\ in_i64 w = true
  end.

(** ** The program of a condition *)

Definition instr0 (o : Opcode) : Instr := mkInstr o [].
Definition load_prog : list Instr := [mkInstr PushInput [x00; x00]; instr0 CasGet; instr0 JsonNormalize].
Definition const_prog (z : Z) : Instr := mkInstr ConstI64 (i64_bytes z).

Fixpoint cond_prog (c : ConditionSpec) : list Instr :=
  let progs := fix go (l : list ConditionSpec) : list Instr :=
    match l with [] => [] | x :: l' => cond_prog x ++ go l' end in
  match c with
  | CAlways b => [mkInstr PushBool [if b then x01 else x00]]
  | CContextHas k => load_prog ++ [mkInstr JsonHasKey (as_bytes k)]
  | CContextEquals k v =>
      load_prog ++ [mkInstr JsonGetKeyBytes (as_bytes k); mkInstr ConstBytes (expected_bytes v); instr0 EqBytes]
  | CTypeEquals t =>
      load_prog ++ [mkInstr JsonGetKeyBytes (as_bytes "@type"); mkInstr ConstBytes (as_bytes t); instr0 EqBytes]
  | CBodySizeLte n => [instr0 PushBodySize; const_prog (u64_as_i64 n); mkInstr CmpI64 [x03]]
  | CAnd l =>
      match l with
      | [] => [mkInstr PushBool [x01]]
      | _ => progs l ++ replicate (length l - 1) (instr0 BoolAnd)
      end
  | COr l =>
      match l with
      | [] => [mkInstr PushBool [x00]]
      | _ => progs l ++ replicate (length l - 1) (instr0 BoolOr)
      end
  | CNot c => cond_prog c ++ [instr0 BoolNot]
  | CAmountLte f a => load_prog ++ [mkInstr JsonGetKey (as_bytes f); const_prog a; mkInstr CmpI64 [x03]]
  | CTimestampWithinSecs f w =>
      instr0 PushTimestamp :: load_prog ++
      [mkInstr JsonGetKey (as_bytes f); instr0 SubI64; const_prog w; mkInstr CmpI64 [x03]]
  end.
End Exec.

Section CondInd.
Context (P : ConditionSpec -> Prop).
Context (H1 : forall b, P (CAlways b)) (H2 : forall k, P (CContextHas k))
  (H3 : forall k v, P (CContextEquals k v)) (H4 : forall n, P (CBodySizeLte n)) (H5 : forall t, P (CTypeEquals t))
  (H6 : forall l, Forall P l -> P (CAnd l)) (H7 : forall l, Forall P l -> P (COr l))
  (H8 : forall c, P c -> P (CNot c)) (H9 : forall f a, P (CAmountLte f a))
  (H10 : forall f w, P (CTimestampWithinSecs f w)).
Fixpoint cond_ind' (c : ConditionSpec) : P c :=
  let go := fix go (l : list ConditionSpec) : Forall P l :=
    match l with [] => Forall_nil_2 P | x :: l' => Forall_cons_2 P x l' (cond_ind' x) (go l') end in
  match c with
  | CAlways b => H1 b | CContextHas k => H2 k | CContextEquals k v => H3 k v | CBodySizeLte n => H4 n
  | CTypeEquals t => H5 t | CAnd l => H6 l (go l) | COr l => H7 l (go l) | CNot c => H8 c (cond_ind' c)
  | CAmountLte f a => H9 f a | CTimestampWithinSecs f w => H10 f w
  end.
End CondInd.

(** ** The compiler emits the encoding of the program *)

Section Encoding.
Context {SC : StrCase} {SJ : SerdeJson}.

Lemma encode_replicate n o : encode_stream (replicate n (instr0 o)) = repeat_instr n (opcode_u8 o).
Proof.
  unfold repeat_instr. induction n as [|n IH]; [done|].
  cbn [replicate concat]. by rewrite encode_stream_cons, IH.
Qed.

Definition compile_list : list ConditionSpec -> bytes :=
  fix go l := match l with [] => [] | x :: l' => compile_to_bool x ++ go l' end.
Definition prog_list : list ConditionSpec -> list Instr :=
  fix go l := match l with [] => [] | x :: l' => cond_prog x ++ go l' end.
Lemma compile_and x l :
  compile_to_bool (CAnd (x :: l)) = compile_list (x :: l) ++ repeat_instr (length (x :: l) - 1) x29.
Proof. reflexivity. Qed.
Lemma compile_or x l :
  compile_to_bool (COr (x :: l)) = compile_list (x :: l) ++ repeat_instr (length (x :: l) - 1) x28.
Proof. reflexivity. Qed.
Lemma prog_and x l :
  cond_prog (CAnd (x :: l)) = prog_list (x :: l) ++ replicate (length (x :: l) - 1) (instr0 BoolAnd).
Proof. reflexivity. Qed.
Lemma prog_or x l :
  cond_prog (COr (x :: l)) = prog_list (x :: l) ++ replicate (length (x :: l) - 1) (instr0 BoolOr).
Proof. reflexivity. Qed.
Lemma compile_list_encodes l :
  Forall (fun c => compile_to_bool c = encode_stream (cond_prog c)) l ->
  compile_list l = encode_stream (prog_list l).
Proof.
  induction 1 as [|x l Hx Hl IH]; [done|]. cbn [compile_list prog_list].
  fold compile_list prog_list. by rewrite encode_stream_app, Hx, IH.
Qed.

Ltac encode_leaf :=
  cbn [compile_to_bool cond_prog]; unfold load_input, load_prog, push_input0, const_prog, instr0;
  cbn [app]; rewrite !encode_stream_cons; change (encode_stream []) with (@nil Byte.byte);
  rewrite ?app_nil_r, <- ?app_assoc; reflexivity.

Lemma compile_to_bool_encodes c : compile_to_bool c = encode_stream (cond_prog c).
Proof.
  induction c as [b|k|k v|n|t|l IH|l IH|c IH|f a|f w] using cond_ind'; try solve [encode_leaf].
  - destruct l as [|x l]; [done|]. rewrite compile_and, prog_and, encode_stream_app, encode_replicate.
    f_equal. by apply compile_list_encodes.
  - destruct l as [|x l]; [done|]. rewrite compile_or, prog_or, encode_stream_app, encode_replicate.
    f_equal. by apply compile_list_encodes.
  - cbn [compile_to_bool cond_prog]. rewrite encode_stream_app, IH. done.
Qed.
End Encoding.

(** ** Compiled conditions compute their meaning *)

Section Compiled.
Context {C : Type} {CP : CasProvider C} {SP : SignProvider} {KP : CanonProvider} {ED : Ed25519}
  {B64 : Base64} {NS : NumSerde} {CK : Clock} {HB3 : Blake3} {SJ : SerdeJson} {BN : BigNum}.
Context (cid : Cid) (input : bytes) (j : json) (size now : Z).
(** The input parses, canonically, to [j]; the clock is fixed. *)
Context (input_json : canon <$> from_slice input = Some j) (clock_fixed : forall n, unix_secs n = now).
Abbreviation runs := (runs (C := C) cid input size).
Abbreviation cond_sem := (cond_sem j size now).

(** The result of pushing a computed boolean. *)
Definition pushed (s : list Value) (r : result ExecError bool) : result ExecError (list Value) :=
  match r with Ok b => Ok (Bool b :: s) | Err e => Err e end.

Lemma utf8_key k : str_wf k -> from_utf8 (as_bytes k) = Some k.
Proof. apply from_utf8_as_bytes. Qed.

(** Symbolic execution of one opcode on a known stack. *)
Ltac step_op :=
  intros [cf st sp fu cs inp rb pf tr bz] (He1 & He2 & He3) Hs;
  cbn [stack inputs cas body_size] in He1, He2, He3, Hs; subst st bz; cbn [exec_op]; unfold_ops;
  cbv beta iota zeta delta [pop push gets modify lift fail mret vm_ret mbind vm_bind set_stack ok_or
    stack inputs cas body_size steps cfg fuel_used rc_body proofs trace].
Ltac step r := apply (runs_cons cid input size _ _ _ _ r); [step_op|].

Lemma runs_load c s r : runs c (Json j :: s) r -> runs (load_prog ++ c) s r.
Proof using input_json.
  intros H. cbn [load_prog app]. unfold instr0.
  step (Ok (E := ExecError) (VCid cid :: s)).
  { change (negb (length [x00; x00] =? 2)%nat) with false. cbv iota beta.
    change (Z.to_nat (from_be_bytes 0 [x00; x00])) with 0%nat. by rewrite He1. }
  step (Ok (E := ExecError) (Bytes input :: s)); [by rewrite He2|].
  step (Ok (E := ExecError) (Json j :: s)); [|done].
  destruct (from_slice input) as [v|]; [|done]. by injection input_json as ->.
Qed.

Lemma runs_bool_const b c s r :
  runs c (Bool b :: s) r -> runs (mkInstr PushBool [if b then x01 else x00] :: c) s r.
Proof. intros H. step (Ok (E := ExecError) (Bool b :: s)); [by destruct b|done]. Qed.

Lemma runs_const z c s r : in_i64 z = true -> runs c (I64 z :: s) r -> runs (const_prog z :: c) s r.
Proof.
  intros Hz H. unfold const_prog. step (Ok (E := ExecError) (I64 z :: s)); [|done].
  change (negb (length (i64_bytes z) =? 8)%nat) with false. cbv iota beta. unfold i64_bytes.
  by rewrite i64_be_roundtrip.
Qed.

Lemma runs_cmp code a b ok s :
  cmp_op code a b = Some ok -> runs [mkInstr CmpI64 [code]] (I64 b :: I64 a :: s) (Ok (Bool ok :: s)).
Proof. intros H. step (Ok (E := ExecError) (Bool ok :: s)); [by rewrite H|apply runs_nil]. Qed.

Lemma runs_field_equals k e s :
  key_ok k ->
  runs (load_prog ++ [mkInstr JsonGetKeyBytes (as_bytes k); mkInstr ConstBytes e; instr0 EqBytes]) s
    (pushed s (field_equals j k e)).
Proof using input_json.
  intros [Hk _]. apply runs_load. unfold field_equals.
  destruct (get k j ≫= as_str) as [t|] eqn:E; cbn [pushed]; unfold mbind in E.
  - step (Ok (E := ExecError) (Bytes (as_bytes t) :: s)); [by rewrite utf8_key, E|].
    step (Ok (E := ExecError) (Bytes e :: Bytes (as_bytes t) :: s)); [done|].
    step (Ok (E := ExecError) (Bool (bool_decide (as_bytes t = e)) :: s)); [done|apply runs_nil].
  - step (Err (A := list Value) (Deny (ReasonKey "json_key_missing_or_not_string: " k))); [|done].
    by rewrite utf8_key, E.
Qed.

(** A numeric member: pushed when it is an integer; otherwise an error, at
    once or, for a UNC-1 number, in the opcode [o] that consumes it. *)
Lemma runs_field f o c s r :
  key_ok f ->
  (forall n, field_i64 j f o = Ok n -> runs c (I64 n :: s) r) ->
  (forall e, field_i64 j f o = Err e -> r = Err e) ->
  (forall n, runs c (VNum n :: s) (Err (TypeMismatch o))) ->
  runs (load_prog ++ mkInstr JsonGetKey (as_bytes f) :: c) s r.
Proof using input_json.
  intros [Hf _] Hok Herr Hnum. apply runs_load. unfold field_i64 in *.
  destruct (get f j) as [x|] eqn:Ex.
  2:{ rewrite (Herr _ eq_refl). step (Err (A := list Value) missing_number); [by rewrite utf8_key, Ex|done]. }
  destruct (as_i64 x) as [n|] eqn:Ei.
  { step (Ok (E := ExecError) (I64 n :: s)); [by rewrite utf8_key, Ex, Ei|]. by apply Hok. }
  destruct (get "@num" x) as [y|] eqn:Ey.
  2:{ rewrite (Herr _ eq_refl). step (Err (A := list Value) missing_number); [by rewrite utf8_key, Ex, Ei, Ey|done]. }
  destruct (num_from_value x) as [n|] eqn:En.
  2:{ rewrite (Herr _ eq_refl). step (Err (A := list Value) missing_number); [by rewrite utf8_key, Ex, Ei, Ey, En|done]. }
  rewrite (Herr _ eq_refl). step (Ok (E := ExecError) (VNum n :: s)); [by rewrite utf8_key, Ex, Ei, Ey, En|].
  apply Hnum.
Qed.

(** Folding the booleans on the stack. *)
Lemma runs_bool_fold (o : Opcode) (f : bool -> bool -> bool) b bs c s r :
  (forall a b s m, env cid input size m -> stack m = Bool b :: Bool a :: s ->
    exec_op o [] m = Ok (tt, set_stack m (Bool (f a b) :: s))) ->
  runs c (Bool (fold_left (fun acc x => f x acc) bs b) :: s) r ->
  runs (replicate (length bs) (instr0 o) ++ c) (Bool b :: (Bool <$> bs) ++ s) r.
Proof.
  intros Ho. revert b. induction bs as [|x bs IH]; intros b H; [done|].
  cbn [length replicate app fmap list_fmap fold_left] in *. unfold instr0 at 1.
  apply (runs_cons cid input size _ _ _ _ (Ok (Bool (f x b) :: (Bool <$> bs) ++ s))); [|by apply IH].
  intros m He Hs. by apply Ho.
Qed.
Lemma st_bool_and a b s m : env cid input size m -> stack m = Bool b :: Bool a :: s ->
  exec_op BoolAnd [] m = Ok (tt, set_stack m (Bool (a && b) :: s)).
Proof. revert m. by step_op. Qed.
Lemma st_bool_or a b s m : env cid input size m -> stack m = Bool b :: Bool a :: s ->
  exec_op BoolOr [] m = Ok (tt, set_stack m (Bool (a || b) :: s)).
Proof. revert m. by step_op. Qed.

Lemma fold_and bs b : fold_left (fun acc x => x && acc) bs b = b && forallb id bs.
Proof.
  revert b. induction bs as [|x bs IH]; intros b; cbn; [by rewrite andb_true_r|].
  rewrite IH. unfold id. by destruct b, x.
Qed.
Lemma fold_or bs b : fold_left (fun acc x => x || acc) bs b = b || existsb id bs.
Proof.
  revert b. induction bs as [|x bs IH]; intros b; cbn; [by rewrite orb_false_r|].
  rewrite IH. unfold id. by destruct b, x.
Qed.
Lemma forallb_rev (bs : list bool) : forallb id (rev bs) = forallb id bs.
Proof.
  induction bs as [|b bs IH]; cbn; [done|]. rewrite forallb_app, IH. cbn. rewrite andb_true_r. apply andb_comm.
Qed.
Lemma existsb_rev (bs : list bool) : existsb id (rev bs) = existsb id bs.
Proof.
  induction bs as [|b bs IH]; cbn; [done|]. rewrite existsb_app, IH. cbn. rewrite orb_false_r. apply orb_comm.
Qed.

(** A list of computations of booleans, and the stack they leave. *)
Definition pushed_all (s : list Value) (r : result ExecError (list bool)) : result ExecError (list Value) :=
  match r with Ok bs => Ok ((Bool <$> rev bs) ++ s) | Err e => Err e end.

Section Lists.
Context {A : Type} (p : A -> list Instr) (r : A -> result ExecError bool).
Definition computes (x : A) : Prop := forall s, runs (p x) s (pushed s (r x)).

Lemma runs_list l s :
  Forall computes l -> runs (concat (p <$> l)) s (pushed_all s (try_map r l)).
Proof.
  intros H. revert s. induction H as [|x l Hx Hl IH]; intros s; [apply runs_nil|]. csimpl.
  eapply runs_app; [apply Hx|]. destruct (r x) as [b|e]; cbn [pushed]; [|done].
  specialize (IH (Bool b :: s)). destruct (try_map r l) as [bs|e]; cbn [pushed_all] in *; [|done].
  cbn [rev]. rewrite fmap_app, <- app_assoc. exact IH.
Qed.

(** A list folded to one boolean. *)
Lemma runs_fold_list (o : Opcode) (f : bool -> bool -> bool) (g : list bool -> bool) l s :
  l <> [] ->
  (forall a b s m, env cid input size m -> stack m = Bool b :: Bool a :: s ->
    exec_op o [] m = Ok (tt, set_stack m (Bool (f a b) :: s))) ->
  (forall b bs, fold_left (fun acc x => f x acc) bs b = g (rev (b :: bs))) ->
  Forall computes l ->
  runs (concat (p <$> l) ++ replicate (length l - 1) (instr0 o)) s (pushed s (bs ← try_map r l; Ok (g bs))).
Proof.
  intros Hne Ho Hg Hl. eapply runs_app; [by apply runs_list|].
  destruct (try_map r l) as [bs|e] eqn:E; cbn [pushed_all pushed mbind result_bind]; [|done].
  apply try_map_length in E. rewrite <- (rev_involutive bs). rewrite <- (rev_involutive bs), length_rev in E.
  destruct (rev bs) as [|b0 bs0]; [by destruct l|]. rewrite rev_involutive.
  rewrite <- E. cbn [length]. rewrite Nat.sub_succ, Nat.sub_0_r, <- (app_nil_r (replicate _ _)).
  csimpl. apply (runs_bool_fold o f); [done|]. rewrite Hg. apply runs_nil.
Qed.
Lemma runs_and l s :
  l <> [] -> Forall computes l ->
  runs (concat (p <$> l) ++ replicate (length l - 1) (instr0 BoolAnd)) s
    (pushed s (bs ← try_map r l; Ok (forallb id bs))).
Proof.
  intros Hne Hl. apply (runs_fold_list BoolAnd andb (forallb id)); [done|apply st_bool_and| |done].
  intros b bs. by rewrite fold_and, forallb_rev.
Qed.
Lemma runs_or l s :
  l <> [] -> Forall computes l ->
  runs (concat (p <$> l) ++ replicate (length l - 1) (instr0 BoolOr)) s
    (pushed s (bs ← try_map r l; Ok (existsb id bs))).
Proof.
  intros Hne Hl. apply (runs_fold_list BoolOr orb (existsb id)); [done|apply st_bool_or| |done].
  intros b bs. by rewrite fold_or, existsb_rev.
Qed.
End Lists.

Lemma prog_list_concat l : prog_list l = concat (cond_prog <$> l).
Proof. induction l as [|x l IH]; [done|]. cbn [prog_list fmap list_fmap concat]. fold prog_list. by rewrite IH. Qed.
Lemma sem_and l : cond_sem (CAnd l) = bs ← try_map cond_sem l; Ok (forallb id bs).
Proof.
  cbn [CompileFacts.cond_sem]. f_equal. induction l as [|x l IH]; cbn; [done|].
  destruct (cond_sem x); cbn; [|done]. by rewrite IH.
Qed.
Lemma sem_or l : cond_sem (COr l) = bs ← try_map cond_sem l; Ok (existsb id bs).
Proof.
  cbn [CompileFacts.cond_sem]. f_equal. induction l as [|x l IH]; cbn; [done|].
  destruct (cond_sem x); cbn; [|done]. by rewrite IH.
Qed.

Definition all_ok : list ConditionSpec -> Prop :=
  fix go l := match l with [] => True | x :: l' => cond_ok x /\ go l' end.
Lemma all_ok_Forall l : all_ok l <-> Forall cond_ok l.
Proof. induction l as [|x l IH]; cbn [all_ok]; [done|]. fold all_ok. by rewrite Forall_cons, IH. Qed.

Lemma cond_runs c : cond_ok c -> forall s, runs (cond_prog c) s (pushed s (cond_sem c)).
Proof using input_json clock_fixed.
  induction c as [b|k|k v|n|t|l IH|l IH|c IH|f a|f w] using cond_ind'; intros Hc s.
  - apply runs_bool_const, runs_nil.
  - destruct Hc as [Hk _]. apply runs_load.
    step (Ok (E := ExecError) (Bool (match get k j with Some v => negb (is_null v) | None => false end) :: s));
      [by rewrite utf8_key|apply runs_nil].
  - destruct Hc as [Hk _]. by apply runs_field_equals.
  - step (Ok (E := ExecError) (I64 (u64_as_i64 size) :: s)); [done|].
    apply runs_const; [by apply u64_as_i64_range|]. by apply runs_cmp.
  - apply runs_field_equals. by split; [vm_compute|].
  - rewrite sem_and. destruct l as [|x l]; [apply (runs_bool_const true), runs_nil|].
    rewrite prog_and, prog_list_concat. apply (runs_and cond_prog); [done|].
    apply (all_ok_Forall (x :: l)) in Hc. rewrite Forall_forall in *. intros y Hy s'. apply IH; [done|by apply Hc].
  - rewrite sem_or. destruct l as [|x l]; [apply (runs_bool_const false), runs_nil|].
    rewrite prog_or, prog_list_concat. apply (runs_or cond_prog); [done|].
    apply (all_ok_Forall (x :: l)) in Hc. rewrite Forall_forall in *. intros y Hy s'. apply IH; [done|by apply Hc].
  - cbn [cond_prog]. eapply runs_app; [by apply IH|]. cbn [cond_sem]. destruct (cond_sem c) as [b|e]; [|done].
    cbn [pushed mbind result_bind]. unfold instr0. step (Ok (E := ExecError) (Bool (negb b) :: s)); [done|apply runs_nil].
  - destruct Hc as [Hk Ha]. cbn [cond_prog cond_sem]. apply (runs_field f CmpI64); [done|..].
    + intros n ->. apply runs_const; [done|]. by apply runs_cmp.
    + by intros e ->.
    + intros n. apply runs_const; [done|]. by step (Err (A := list Value) (TypeMismatch CmpI64)).
  - destruct Hc as [Hk Ha]. cbn [cond_prog cond_sem]. unfold instr0 at 1.
    step (Ok (E := ExecError) (I64 (u64_as_i64 now) :: s)); [by rewrite clock_fixed|].
    apply (runs_field f SubI64); [done|..].
    + intros n ->. unfold instr0.
      step (Ok (E := ExecError) (I64 (i64_saturating_sub (u64_as_i64 now) n) :: s)); [done|].
      apply runs_const; [done|]. by apply runs_cmp.
    + by intros e ->.
    + intros n. unfold instr0. by step (Err (A := list Value) (TypeMismatch SubI64)).
Qed.
End Compiled.
