(* ===== verification/GateFacts.v ===== *)
(** * Correctness of compiled chips

    The compiled program of a whole chip (circuits of bits and inlined
    sub-chips, all aggregation modes): what it does ([gate_code]), what the
    documentation says the chip means ([gate_sem]), where the two are the same
    ([documented]), and the defects where they are not. *)

From S2P Require Import Prelude RustStd Json Nrf BigNum Unc1 Tlv Policy Vm VmFacts VmTyping Silicon CompileFacts.
Local Open Scope string_scope.
Local Open Scope Z_scope.
Local Open Scope list_scope.

(** ** Nodes and circuits as programs *)

Definition flat_nodes (cs : list ResolvedCircuit) : list ResolvedNode := concat (resolved_nodes <$> cs).

Section NodeInd.
Context (P : ResolvedNode -> Prop).
Context (Hbit : forall b, P (NodeBit b)) (Hsub : forall cs, Forall P (flat_nodes cs) -> P (NodeSubChip cs)).
Fixpoint node_ind' (n : ResolvedNode) : P n :=
  match n with
  | NodeBit b => Hbit b
  | NodeSubChip cs =>
      Hsub cs ((fix go (cs : list ResolvedCircuit) : Forall P (flat_nodes cs) :=
        match cs with
        | [] => Forall_nil_2 P
        | mkResolved _ _ ns :: cs' =>
            proj2 (Forall_app P ns (flat_nodes cs'))
              (conj ((fix gon (ns : list ResolvedNode) : Forall P ns :=
                        match ns with [] => Forall_nil_2 P | n :: ns' => Forall_cons_2 P n ns' (node_ind' n) (gon ns') end) ns)
                 (go cs'))
        end) cs)
  end.
End NodeInd.

(** Fold a list of booleans on the stack with [BoolAnd]. *)
Definition and_prog (progs : list (list Instr)) : list Instr :=
  match progs with
  | [] => [mkInstr PushBool [x01]]
  | _ => concat progs ++ replicate (length progs - 1) (instr0 BoolAnd)
  end.

Section Progs.
Context {SJ : SerdeJson}.

Definition bit_prog (b : ResolvedBit) : list Instr := cond_prog (bit_condition (resolved_bit b)).

Fixpoint node_prog (n : ResolvedNode) : list Instr :=
  match n with
  | NodeBit b => bit_prog b
  | NodeSubChip cs =>
      and_prog ((fix go (cs : list ResolvedCircuit) : list (list Instr) :=
        match cs with
        | [] => []
        | mkResolved _ _ ns :: cs' =>
            (fix gon (ns : list ResolvedNode) : list (list Instr) :=
               match ns with [] => [] | n :: ns' => node_prog n :: gon ns' end) ns ++ go cs'
        end) cs)
  end.

Lemma node_prog_sub cs : node_prog (NodeSubChip cs) = and_prog (node_prog <$> flat_nodes cs).
Proof.
  cbn [node_prog]. f_equal. induction cs as [|[cid body ns] cs IH]; [done|].
  unfold flat_nodes in *. csimpl. rewrite fmap_app, IH. reflexivity.
Qed.

(** The emitter's loop over nodes: code and count. *)
Definition emit_step (acc : bytes * nat) (node : ResolvedNode) : bytes * nat :=
  let '(code, count) := emit_node_as_bool node acc.2 in (acc.1 ++ code, count).

Lemma emit_sub cs count :
  emit_node_as_bool (NodeSubChip cs) count =
  let '(inner, n) := fold_left emit_step (flat_nodes cs) ([], O) in
  let '(inner, n) := if (n =? 0)%nat then (inner ++ tlv_instr x26 [x01], 1%nat) else (inner, n) in
  (inner ++ repeat_instr (n - 1) x29, S count).
Proof.
  cbn [emit_node_as_bool].
  match goal with |- context [?g cs ([], O)] => set (go := g) end.
  assert (forall cs acc, go cs acc = fold_left emit_step (flat_nodes cs) acc) as ->; [|done].
  clear cs. induction cs as [|[cid body ns] cs IH]; intros acc; [done|].
  unfold flat_nodes in *. csimpl. rewrite fold_left_app, <- IH. cbn [go]. fold go. f_equal.
  revert acc. induction ns as [|n ns IHn]; intros acc; [done|]. cbn [fold_left]. rewrite <- IHn.
  unfold emit_step at 1. by destruct (emit_node_as_bool n acc.2).
Qed.

Lemma fold_emit ns acc :
  Forall (fun n => forall count, emit_node_as_bool n count = (encode_stream (node_prog n), S count)) ns ->
  fold_left emit_step ns acc = (acc.1 ++ encode_stream (concat (node_prog <$> ns)), (acc.2 + length ns)%nat).
Proof.
  intros H. revert acc. induction H as [|n ns Hn Hns IH]; intros acc; csimpl.
  { rewrite app_nil_r, Nat.add_0_r. by destruct acc. }
  unfold emit_step at 2. rewrite Hn, IH. cbn [fst snd].
  rewrite encode_stream_app, app_assoc. f_equal. lia.
Qed.

Lemma and_prog_encode progs :
  encode_stream (and_prog progs) =
  let '(code, n) := if (length progs =? 0)%nat then (encode_stream (concat progs) ++ tlv_instr x26 [x01], 1%nat)
                    else (encode_stream (concat progs), length progs) in
  code ++ repeat_instr (n - 1) x29.
Proof.
  destruct progs as [|p progs]; [done|]. cbn [and_prog length Nat.eqb].
  by rewrite encode_stream_app, encode_replicate.
Qed.

Lemma emit_node_encodes n count : emit_node_as_bool n count = (encode_stream (node_prog n), S count).
Proof.
  revert count. induction n as [b|cs IH] using node_ind'; intros count.
  - cbn. by rewrite compile_to_bool_encodes.
  - rewrite emit_sub, fold_emit by done. rewrite node_prog_sub, and_prog_encode, length_fmap. cbn [fst snd app].
    rewrite Nat.add_0_l. by destruct (length (flat_nodes cs) =? 0)%nat.
Qed.

Lemma subchip_encodes cs : compile_subchip_as_bool cs = encode_stream (node_prog (NodeSubChip cs)).
Proof.
  unfold compile_subchip_as_bool. change (concat (resolved_nodes <$> cs)) with (flat_nodes cs).
  change (fold_left _ (flat_nodes cs) ([], O)) with (fold_left emit_step (flat_nodes cs) ([], O)).
  rewrite fold_emit by (apply Forall_forall; intros; apply emit_node_encodes).
  rewrite node_prog_sub, and_prog_encode, length_fmap. cbn [fst snd app].
  rewrite Nat.add_0_l. by destruct (length (flat_nodes cs) =? 0)%nat.
Qed.

(** ** Circuits *)

Definition assert_prog (b : ResolvedBit) : list Instr :=
  bit_prog b ++ [if is_deny (bit_on_false (resolved_bit b)) then instr0 AssertTrue else instr0 Drop].
Definition at_least_prog (k : Z) : list Instr := [const_prog k; mkInstr CmpI64 [x05]; instr0 AssertTrue].
Definition count_prog (b : ResolvedBit) : list Instr := bit_prog b ++ [instr0 BoolToI64].

Definition bits_prog (composition : CompositionMode) (aggregation : AggregationMode) (bits : list ResolvedBit)
    : list Instr :=
  let n := length bits in
  let counted k := concat (count_prog <$> bits) ++ replicate (n - 1) (instr0 AddI64) ++ at_least_prog k in
  match aggregation, composition with
  | Any, _ => concat (bit_prog <$> bits) ++ replicate (n - 1) (instr0 BoolOr) ++ [instr0 AssertTrue]
  | Majority, _ => counted (Z.of_nat n / 2 + 1)
  | KofN k _, _ => counted (u64_as_i64 k)
  | _, Parallel => concat (bit_prog <$> bits) ++ replicate (n - 1) (instr0 BoolAnd) ++ [instr0 AssertTrue]
  | _, _ => concat (assert_prog <$> bits)
  end.

Fixpoint interleaved_prog (i n : nat) : list Instr :=
  match n with
  | O => []
  | S n' => instr0 BoolToI64 :: (if (0 <? i)%nat then [instr0 AddI64] else []) ++ interleaved_prog (S i) n'
  end.
Definition nodes_prog (aggregation : AggregationMode) (nodes : list ResolvedNode) : list Instr :=
  let n := length nodes in
  concat (node_prog <$> nodes) ++
  match aggregation with
  | All | FirstDecisive => replicate (n - 1) (instr0 BoolAnd) ++ [instr0 AssertTrue]
  | Any => replicate (n - 1) (instr0 BoolOr) ++ [instr0 AssertTrue]
  | Majority => interleaved_prog 0 n ++ at_least_prog (Z.of_nat n / 2 + 1)
  | KofN k _ => interleaved_prog 0 n ++ at_least_prog (u64_as_i64 k)
  end.

Lemma encode_concat {A} (p : A -> list Instr) (code : A -> bytes) l :
  (forall x, code x = encode_stream (p x)) -> concat (code <$> l) = encode_stream (concat (p <$> l)).
Proof. intros H. induction l as [|x l IH]; csimpl; [done|]. by rewrite encode_stream_app, H, IH. Qed.
Lemma encode_instr0 o : tlv_instr (opcode_u8 o) [] = encode_stream [instr0 o].
Proof. unfold encode_stream. cbn [fmap list_fmap concat]. by rewrite app_nil_r. Qed.
Lemma encode_one o p : tlv_instr (opcode_u8 o) p = encode_stream [mkInstr o p].
Proof. unfold encode_stream. cbn [fmap list_fmap concat]. by rewrite app_nil_r. Qed.

Lemma at_least_encodes k : assert_at_least k = encode_stream (at_least_prog k).
Proof. reflexivity. Qed.
Lemma interleaved_encodes i n : interleaved_sum i n = encode_stream (interleaved_prog i n).
Proof.
  revert i. induction n as [|n IH]; intros i; [done|]. cbn [interleaved_sum interleaved_prog].
  rewrite encode_stream_cons, encode_stream_app, IH. by destruct (0 <? i)%nat.
Qed.

Lemma aggregate_bits_encodes comp agg bits :
  match comp with Conditional _ => False | _ => True end ->
  aggregate_bits comp agg bits = encode_stream (bits_prog comp agg bits).
Proof.
  intros Hcomp.
  assert (compile_bools bits = encode_stream (concat (bit_prog <$> bits))) as Hb.
  { apply encode_concat. intros x. apply compile_to_bool_encodes. }
  assert (compile_counts bits = encode_stream (concat (count_prog <$> bits))) as Hc.
  { apply encode_concat. intros x. unfold count_prog. by rewrite encode_stream_app, compile_to_bool_encodes. }
  assert (compile_asserts bits = encode_stream (concat (assert_prog <$> bits))) as Ha.
  { apply encode_concat. intros x. unfold assert_prog, compile_condition.
    rewrite encode_stream_app, compile_to_bool_encodes. by destruct (is_deny _). }
  destruct comp; [| |done]; destruct agg; cbn [aggregate_bits bits_prog];
    rewrite ?Hb, ?Hc, ?Ha, ?at_least_encodes, ?encode_stream_app, ?encode_replicate; done.
Qed.

Lemma nodes_encodes agg nodes :
  concat ((fun node => match node with
                       | NodeBit bit => compile_to_bool (bit_condition (resolved_bit bit))
                       | NodeSubChip sub => compile_subchip_as_bool sub
                       end) <$> nodes) ++
  match agg with
  | All | FirstDecisive => repeat_instr (length nodes - 1) x29 ++ tlv_instr x09 []
  | Any => repeat_instr (length nodes - 1) x28 ++ tlv_instr x09 []
  | Majority => interleaved_sum 0 (length nodes) ++ assert_at_least (Z.of_nat (length nodes) / 2 + 1)
  | KofN k _ => interleaved_sum 0 (length nodes) ++ assert_at_least (u64_as_i64 k)
  end = encode_stream (nodes_prog agg nodes).
Proof.
  unfold nodes_prog. rewrite encode_stream_app. f_equal.
  - apply encode_concat. intros [b|cs]; [apply compile_to_bool_encodes|apply subchip_encodes].
  - destruct agg; rewrite ?interleaved_encodes, ?at_least_encodes, ?encode_stream_app, ?encode_replicate; done.
Qed.
End Progs.

(** ** The meaning of circuits *)

Section Meaning.
Context {SC : StrCase} {SJ : SerdeJson} {NS : NumSerde} (j : json) (size now : Z).

Definition assert_sem (b : bool) : result ExecError () :=
  if b then Ok tt else Err (Deny (Reason "assert_false")).
Definition bit_sem (b : ResolvedBit) : result ExecError bool := cond_sem j size now (bit_condition (resolved_bit b)).
Definition count_true (bs : list bool) : Z := Z.of_nat (length (List.filter id bs)).

(** A bit whose [on_false] is not a denial is evaluated and ignored. *)
Definition bit_assert_sem (_ : ()) (b : ResolvedBit) : result ExecError () :=
  v ← bit_sem b; if is_deny (bit_on_false (resolved_bit b)) then assert_sem v else Ok tt.

(** What a circuit of bits is for, by the documentation of the compiler: all
    bits, some bit, more than half of them, at least [k] of them; and
    [FirstDecisive] is another name of [Any]. *)
Definition bits_sem (composition : CompositionMode) (aggregation : AggregationMode) (bits : list ResolvedBit)
    : result ExecError () :=
  let counted k := bs ← try_map bit_sem bits; assert_sem (k <=? count_true bs) in
  match aggregation, composition with
  | Any, _ | FirstDecisive, _ => bs ← try_map bit_sem bits; assert_sem (existsb id bs)
  | Majority, _ => counted (Z.of_nat (length bits) / 2 + 1)
  | KofN k _, _ => counted k
  | All, Parallel => bs ← try_map bit_sem bits; assert_sem (forallb id bs)
  | All, _ => try_fold bit_assert_sem tt bits
  end.
(** What the code for a circuit of bits does: [FirstDecisive] is compiled as
    [All], and the threshold is cast to [i64]. *)
Definition bits_code (composition : CompositionMode) (aggregation : AggregationMode) (bits : list ResolvedBit)
    : result ExecError () :=
  let counted k := bs ← try_map bit_sem bits; assert_sem (k <=? count_true bs) in
  match aggregation, composition with
  | Any, _ => bs ← try_map bit_sem bits; assert_sem (existsb id bs)
  | Majority, _ => counted (Z.of_nat (length bits) / 2 + 1)
  | KofN k _, _ => counted (u64_as_i64 k)
  | _, Parallel => bs ← try_map bit_sem bits; assert_sem (forallb id bs)
  | _, _ => try_fold bit_assert_sem tt bits
  end.

(** A sub-chip passes only if all its conditions pass, whatever modes its own
    circuits name: so says the documentation of [compile_subchip_as_bool]. *)
Fixpoint node_sem (n : ResolvedNode) : result ExecError bool :=
  match n with
  | NodeBit b => bit_sem b
  | NodeSubChip cs =>
      bs ← (fix go (cs : list ResolvedCircuit) : result ExecError (list bool) :=
        match cs with
        | [] => Ok []
        | mkResolved _ _ ns :: cs' =>
            b1 ← (fix gon (ns : list ResolvedNode) : result ExecError (list bool) :=
               match ns with [] => Ok [] | n :: ns' => b ← node_sem n; bs ← gon ns'; Ok (b :: bs) end) ns;
            b2 ← go cs'; Ok (b1 ++ b2)
        end) cs;
      Ok (forallb id bs)
  end.

(** The aggregation wraps a sub-chip like any other bit. *)
Definition nodes_sem (aggregation : AggregationMode) (nodes : list ResolvedNode) : result ExecError () :=
  bs ← try_map node_sem nodes;
  match aggregation with
  | All => assert_sem (forallb id bs)
  | Any | FirstDecisive => assert_sem (existsb id bs)
  | Majority => assert_sem (Z.of_nat (length nodes) / 2 + 1 <=? count_true bs)
  | KofN k _ => assert_sem (k <=? count_true bs)
  end.
(** In the code the counting aggregators only work for one node: the second
    [BoolToI64] finds an integer. *)
Definition nodes_code (aggregation : AggregationMode) (nodes : list ResolvedNode) : result ExecError () :=
  bs ← try_map node_sem nodes;
  let counted k :=
    match bs with [b] => assert_sem (k <=? Z.b2z b) | _ => Err (TypeMismatch BoolToI64) end in
  match aggregation with
  | All | FirstDecisive => assert_sem (forallb id bs)
  | Any => assert_sem (existsb id bs)
  | Majority => counted (Z.of_nat (length nodes) / 2 + 1)
  | KofN k _ => counted (u64_as_i64 k)
  end.

Definition is_bit (n : ResolvedNode) : bool := match n with NodeBit _ => true | NodeSubChip _ => false end.

Definition circuit_sem (c : ResolvedCircuit) : result ExecError () :=
  match composition_mode (resolved_body c), aggregation_mode (resolved_body c) with
  | Ok comp, Ok agg =>
      if forallb is_bit (resolved_nodes c) then bits_sem comp agg (omap node_bit (resolved_nodes c))
      else nodes_sem agg (resolved_nodes c)
  | _, _ => Ok tt
  end.
Definition circuit_code (c : ResolvedCircuit) : result ExecError () :=
  match composition_mode (resolved_body c), aggregation_mode (resolved_body c) with
  | Ok comp, Ok agg =>
      if forallb is_bit (resolved_nodes c) then bits_code comp agg (omap node_bit (resolved_nodes c))
      else nodes_code agg (resolved_nodes c)
  | _, _ => Ok tt
  end.

(** Circuits run in order; the first failure is the chip's. *)
Definition gate_sem (circuits : list ResolvedCircuit) : result ExecError () :=
  try_fold (fun _ c => circuit_sem c) tt circuits.
Definition gate_code (circuits : list ResolvedCircuit) : result ExecError () :=
  try_fold (fun _ c => circuit_code c) tt circuits.

Definition circuit_prog (c : ResolvedCircuit) : list Instr :=
  match composition_mode (resolved_body c), aggregation_mode (resolved_body c) with
  | Ok comp, Ok agg =>
      if forallb is_bit (resolved_nodes c) then bits_prog comp agg (omap node_bit (resolved_nodes c))
      else nodes_prog agg (resolved_nodes c)
  | _, _ => []
  end.
Definition gate_prog (circuits : list ResolvedCircuit) : list Instr :=
  concat (circuit_prog <$> circuits) ++ [mkInstr PushInput [x00; x00]; instr0 EmitRc].

Lemma node_sem_sub cs : node_sem (NodeSubChip cs) = bs ← try_map node_sem (flat_nodes cs); Ok (forallb id bs).
Proof.
  cbn [node_sem]. f_equal. induction cs as [|[cid body ns] cs IH]; [done|].
  unfold flat_nodes in *. csimpl. rewrite IH. clear IH.
  generalize (concat (resolved_nodes <$> cs)) as rest. intros rest. induction ns as [|n ns IHn]; cbn.
  { by destruct (try_map node_sem rest). }
  destruct (node_sem n) as [b|]; [|done]. cbn. rewrite <- IHn.
  match goal with |- (?g ≫= _) ≫= _ = _ => destruct g as [bs|] end; [|done]. cbn.
  by destruct (try_map node_sem rest).
Qed.

(** ** What is compiled *)

Definition node_conds : ResolvedNode -> list ConditionSpec :=
  fix go n := match n with
    | NodeBit b => [bit_condition (resolved_bit b)]
    | NodeSubChip cs =>
        (fix goc cs := match cs with
           | [] => []
           | mkResolved _ _ ns :: cs' =>
               (fix gon ns := match ns with [] => [] | n :: ns' => go n ++ gon ns' end) ns ++ goc cs'
           end) cs
    end.
Lemma node_conds_sub cs : node_conds (NodeSubChip cs) = concat (node_conds <$> flat_nodes cs).
Proof.
  cbn. induction cs as [|[cid body ns] cs IH]; [done|]. unfold flat_nodes in *. csimpl.
  rewrite fmap_app, concat_app, <- IH. f_equal. clear IH. induction ns as [|n ns IHn]; csimpl; [done|]. by rewrite IHn.
Qed.

Definition conds_ok (nodes : list ResolvedNode) : Prop :=
  Forall (fun n => Forall cond_ok (node_conds n)) nodes.
(** A chip within the machine's ranges: well-formed conditions, counts and
    thresholds that are [i64]. *)
Definition circuit_ok (c : ResolvedCircuit) : Prop :=
  resolved_nodes c <> [] /\ conds_ok (resolved_nodes c) /\ Z.of_nat (length (resolved_nodes c)) < i64_max /\
  forall k n, aggregation_mode (resolved_body c) = Ok (KofN k n) -> 0 <= k <= u64_max.

(** The circuits that the compiler translates as its documentation says: not
    [FirstDecisive], no threshold beyond [i64], and no counting over two or
    more nodes with a sub-chip among them. *)
Definition documented (c : ResolvedCircuit) : Prop :=
  aggregation_mode (resolved_body c) <> Ok FirstDecisive /\
  (forall k n, aggregation_mode (resolved_body c) = Ok (KofN k n) -> k <= i64_max) /\
  (length (resolved_nodes c) = 1%nat \/ forallb is_bit (resolved_nodes c) = true \/
   aggregation_mode (resolved_body c) = Ok All \/ aggregation_mode (resolved_body c) = Ok Any).

Lemma u64_as_i64_small k : 0 <= k <= i64_max -> u64_as_i64 k = k.
Proof. intros H. unfold u64_as_i64. by rewrite (proj2 (Z.leb_le _ _)) by lia. Qed.
Lemma count_one b : count_true [b] = Z.b2z b.
Proof. by destruct b. Qed.

Lemma documented_code c : circuit_ok c -> documented c -> circuit_code c = circuit_sem c.
Proof.
  intros (_ & _ & _ & Hk) (Hf & Hk' & Hn). unfold circuit_code, circuit_sem.
  destruct (composition_mode _) as [comp|]; [|done]. destruct (aggregation_mode _) as [agg|]; [|done].
  assert (forall k n, agg = KofN k n -> u64_as_i64 k = k) as Hcast.
  { intros k n ->. apply u64_as_i64_small. split; [by eapply Hk|by eapply Hk']. }
  destruct (forallb is_bit _).
  { destruct agg as [| | |k n|]; [done..| |done]. cbn [bits_code bits_sem]. by rewrite (Hcast k n). }
  destruct agg as [| | |k n|]; [done|done| | |done].
  all: destruct Hn as [Hn|[|[|]]]; try done; unfold nodes_code, nodes_sem.
  all: destruct (try_map node_sem (resolved_nodes c)) as [bs|] eqn:E; [|done]; apply try_map_length in E.
  all: destruct bs as [|b [|]]; [cbn in E; lia| |cbn in E; lia]; cbn [mbind result_bind]; rewrite count_one.
  - done.
  - by rewrite (Hcast k n).
Qed.

Lemma documented_gate circuits :
  Forall circuit_ok circuits -> Forall documented circuits -> gate_code circuits = gate_sem circuits.
Proof.
  unfold gate_code, gate_sem. induction 1 as [|c cs Hc Hcs IH]; inversion 1; subst; [done|]. cbn [try_fold].
  rewrite documented_code by done. destruct (circuit_sem c) as [[]|]; cbn [mbind result_bind]; [by apply IH|done].
Qed.

Lemma composition_not_conditional b comp :
  composition_mode b = Ok comp -> match comp with Conditional _ => False | _ => True end.
Proof.
  unfold composition_mode. destruct (String.eqb _ _); [by intros [= <-]|].
  destruct (String.eqb _ _); [by intros [= <-]|done].
Qed.

Lemma compile_circuit_encodes c code : compile_circuit c = Ok code -> code = encode_stream (circuit_prog c).
Proof.
  unfold compile_circuit, circuit_prog. rewrite result_bind_ok. intros (comp & Ec & H).
  rewrite result_bind_ok in H. destruct H as (agg & Ea & H). rewrite result_bind_ok in H.
  destruct H as ([code0 bits] & Eb & H). rewrite Ec, Ea. unfold collect_bits in Eb. unfold is_bit.
  destruct (forallb _ (resolved_nodes c)).
  - injection Eb as <- <-. destruct (omap node_bit (resolved_nodes c)) as [|b bs]; [done|].
    injection H as <-. apply aggregate_bits_encodes. by eapply composition_not_conditional.
  - injection Eb as <- <-. injection H as <-. apply nodes_encodes.
Qed.

Lemma compile_chip_encodes circuits code :
  compile_chip_to_ubl_vm circuits = Ok code -> code = encode_stream (gate_prog circuits).
Proof.
  unfold compile_chip_to_ubl_vm, gate_prog, compile_circuits_inner. rewrite result_bind_ok.
  intros (code0 & H & [= <-]). rewrite encode_stream_app. f_equal.
  assert (forall acc, try_fold (fun code c => x ← compile_circuit c; Ok (code ++ x)) acc circuits = Ok code0 ->
    code0 = acc ++ encode_stream (concat (circuit_prog <$> circuits))) as Hall; [|by apply Hall in H].
  clear H. induction circuits as [|c cs IH]; intros acc; cbn [try_fold]; [intros [= ->]; by rewrite app_nil_r|].
  destruct (compile_circuit c) as [x|] eqn:E; cbn [mbind result_bind]; [|done].
  intros H. apply IH in H. apply compile_circuit_encodes in E as ->. csimpl.
  by rewrite H, encode_stream_app, app_assoc.
Qed.
End Meaning.

(** ** Circuits run to their meaning *)

Section Runs.
Context {C : Type} {CP : CasProvider C} {SP : SignProvider} {KP : CanonProvider} {ED : Ed25519}
  {B64 : Base64} {NS : NumSerde} {CK : Clock} {HB3 : Blake3} {SJ : SerdeJson} {BN : BigNum} {SC : StrCase}.
Context (cid : Cid) (input : bytes) (j : json) (size now : Z).
Context (input_json : canon <$> from_slice input = Some j) (clock_fixed : forall n, unix_secs n = now).
Abbreviation runs := (runs (C := C) cid input size).
Abbreviation bit_sem := (bit_sem j size now).
Abbreviation node_sem := (node_sem j size now).

Definition passes (s : list Value) (r : result ExecError ()) : result ExecError (list Value) :=
  match r with Ok _ => Ok s | Err e => Err e end.

Lemma runs_bind {A} c1 c2 s (x : result ExecError A) (st : A -> list Value) (f : A -> result ExecError ()) :
  runs c1 s (match x with Ok a => Ok (st a) | Err e => Err e end) ->
  (forall a, x = Ok a -> runs c2 (st a) (passes s (f a))) -> runs (c1 ++ c2) s (passes s (x ≫= f)).
Proof.
  intros H1 H2. eapply runs_app; [exact H1|]. destruct x as [a|e]; cbn [mbind result_bind passes]; [by apply H2|done].
Qed.

Lemma runs_assert b s : runs [instr0 AssertTrue] (Bool b :: s) (passes s (assert_sem b)).
Proof.
  unfold instr0. apply runs_one. intros [cf st sp fu cs inp rb pf tr bz] He Hs. cbn [stack] in Hs. subst. destruct b; done.
Qed.
Lemma runs_drop v s : runs [instr0 Drop] (v :: s) (Ok s).
Proof. unfold instr0. apply runs_one. intros [cf st sp fu cs inp rb pf tr bz] He Hs. cbn [stack] in Hs. by subst. Qed.
Lemma runs_to_i64 b s : runs [instr0 BoolToI64] (Bool b :: s) (Ok (I64 (Z.b2z b) :: s)).
Proof. unfold instr0. apply runs_one. intros [cf st sp fu cs inp rb pf tr bz] He Hs. cbn [stack] in Hs. by subst. Qed.
Lemma runs_to_i64_mismatch z s : runs [instr0 BoolToI64] (I64 z :: s) (Err (TypeMismatch BoolToI64)).
Proof. unfold instr0. apply runs_one. intros [cf st sp fu cs inp rb pf tr bz] He Hs. cbn [stack] in Hs. by subst. Qed.
Lemma runs_at_least k z s :
  in_i64 k = true -> runs (at_least_prog k) (I64 z :: s) (passes s (assert_sem (k <=? z))).
Proof.
  intros Hk. unfold at_least_prog. apply runs_const; [done|].
  change [mkInstr CmpI64 [x05]; instr0 AssertTrue] with ([mkInstr CmpI64 [x05]] ++ [instr0 AssertTrue]).
  eapply runs_app; [by apply (runs_cmp cid input size x05 z k)|]. apply runs_assert.
Qed.

Definition bit_ok (b : ResolvedBit) : Prop := cond_ok (bit_condition (resolved_bit b)).
Lemma bit_computes b : bit_ok b -> computes cid input size bit_prog bit_sem b.
Proof using input_json clock_fixed. intros Hb s. by apply cond_runs. Qed.
Lemma bits_compute bits : Forall bit_ok bits -> Forall (computes cid input size bit_prog bit_sem) bits.
Proof using input_json clock_fixed. intros H. eapply Forall_impl; [exact H|apply bit_computes]. Qed.

Lemma node_computes n : Forall cond_ok (node_conds n) -> computes cid input size node_prog node_sem n.
Proof using input_json clock_fixed.
  induction n as [b|cs IH] using node_ind'.
  - intros H. inversion H; subst. by apply bit_computes.
  - rewrite node_conds_sub. intros H s. rewrite node_prog_sub, node_sem_sub.
    destruct (flat_nodes cs) as [|n ns]; [apply (runs_bool_const cid input size true), runs_nil|].
    change (and_prog (node_prog <$> n :: ns)) with
      (concat (node_prog <$> n :: ns) ++ replicate (length (node_prog <$> n :: ns) - 1) (instr0 BoolAnd)).
    rewrite length_fmap. apply runs_and; [done|]. rewrite Forall_forall in IH |- *. intros x Hx. apply IH; [done|].
    rewrite Forall_forall in H |- *. intros c Hc. apply H. apply list_elem_of_In, in_concat. exists (node_conds x).
    rewrite <- !list_elem_of_In. split; [|done]. apply list_elem_of_fmap. eauto.
Qed.

(** Asserted bits, one after the other. *)
Lemma runs_asserts bits s :
  Forall bit_ok bits ->
  runs (concat (assert_prog <$> bits)) s (passes s (try_fold (bit_assert_sem j size now) tt bits)).
Proof using input_json clock_fixed.
  induction 1 as [|b bits Hb Hbs IH]; [apply runs_nil|]. csimpl. unfold assert_prog at 1. rewrite <- app_assoc.
  eapply runs_app; [by apply bit_computes|]. cbn [try_fold].
  change (bit_assert_sem j size now tt b) with
    (v ← bit_sem b; if is_deny (bit_on_false (resolved_bit b)) then assert_sem v else Ok tt).
  destruct (bit_sem b) as [v|e]; cbn [pushed mbind result_bind]; [|done].
  destruct (is_deny _).
  - eapply runs_app; [apply runs_assert|]. by destruct v.
  - eapply runs_app; [apply runs_drop|]. done.
Qed.

(** Counted bits. *)
Definition ints (bs : list bool) : list Value := (fun b => I64 (Z.b2z b)) <$> bs.
Lemma runs_counts bits s :
  Forall bit_ok bits ->
  runs (concat (count_prog <$> bits)) s
    (match try_map bit_sem bits with Ok bs => Ok (ints (rev bs) ++ s) | Err e => Err e end).
Proof using input_json clock_fixed.
  intros H. revert s. induction H as [|b bits Hb Hbs IH]; intros s; [apply runs_nil|]. csimpl.
  unfold count_prog at 1. rewrite <- app_assoc. eapply runs_app; [by apply bit_computes|]. cbn [try_map].
  destruct (bit_sem b) as [v|e]; cbn [pushed]; [|done]. eapply runs_app; [apply runs_to_i64|].
  specialize (IH (I64 (Z.b2z v) :: s)). destruct (try_map bit_sem bits) as [bs|e]; [|done].
  unfold ints in *. cbn [rev]. rewrite fmap_app, <- app_assoc. exact IH.
Qed.

Lemma runs_sum a bs c s r :
  0 <= a -> a + Z.of_nat (length bs) <= i64_max ->
  runs c (I64 (a + count_true bs) :: s) r ->
  runs (replicate (length bs) (instr0 AddI64) ++ c) (I64 a :: ints bs ++ s) r.
Proof.
  revert a. unfold count_true, ints.
  induction bs as [|x bs IH]; intros a Ha Hn H; [by rewrite Z.add_0_r in H|].
  cbn [length replicate app fmap list_fmap List.filter] in *. unfold instr0 at 1.
  apply (runs_cons cid input size _ _ _ _ (Ok (I64 (a + Z.b2z x) :: ints bs ++ s))).
  - intros [cf st sp fu cs inp rb pf tr bz] He Hs. cbn [stack] in Hs. subst.
    assert (i64_saturating_add (Z.b2z x) a = a + Z.b2z x) as Hsat.
    { unfold i64_saturating_add. rewrite saturate_exact; [lia|].
      unfold in_i64, i64_min, i64_max in *. destruct x; cbn in *; lia. }
    rewrite <- Hsat. reflexivity.
  - apply IH; [destruct x; cbn; lia|destruct x; cbn in *; lia|].
    destruct x; cbn [id length Z.b2z] in *; [|by rewrite Z.add_0_r].
    replace (a + 1 + _) with (a + Z.of_nat (S (length (List.filter id bs)))) by lia. done.
Qed.

Lemma count_true_rev bs : count_true (rev bs) = count_true bs.
Proof.
  unfold count_true. f_equal. apply Permutation_length, filter_bool_perm. symmetry. apply Permutation_rev.
Qed.

Lemma runs_counted bits k s :
  Forall bit_ok bits -> bits <> [] -> Z.of_nat (length bits) < i64_max -> in_i64 k = true ->
  runs (concat (count_prog <$> bits) ++ replicate (length bits - 1) (instr0 AddI64) ++ at_least_prog k) s
    (passes s (bs ← try_map bit_sem bits; assert_sem (k <=? count_true bs))).
Proof using input_json clock_fixed.
  intros Hb Hne Hn Hk. apply (runs_bind _ _ _ _ (fun bs => ints (rev bs) ++ s)); [by apply runs_counts|].
  intros bs E%try_map_length. rewrite <- (count_true_rev bs). rewrite <- length_rev in E.
  destruct (rev bs) as [|b0 bs0]; [by destruct bits|]. rewrite <- E in *. cbn [length] in *.
  rewrite Nat.sub_succ, Nat.sub_0_r. apply (runs_sum (Z.b2z b0) bs0); [destruct b0; cbn; lia|destruct b0; cbn; lia|].
  replace (Z.b2z b0 + count_true bs0) with (count_true (b0 :: bs0)); [by apply runs_at_least|].
  unfold count_true. destruct b0; cbn; lia.
Qed.

(** A list of booleans folded and asserted. *)
Lemma runs_assert_fold {A} (p : A -> list Instr) (r : A -> result ExecError bool) (g : list bool -> bool) o l s :
  (runs (concat (p <$> l) ++ replicate (length l - 1) (instr0 o)) s (pushed s (bs ← try_map r l; Ok (g bs)))) ->
  runs (concat (p <$> l) ++ replicate (length l - 1) (instr0 o) ++ [instr0 AssertTrue]) s
    (passes s (bs ← try_map r l; assert_sem (g bs))).
Proof.
  intros H. rewrite app_assoc.
  replace (bs ← try_map r l; assert_sem (g bs)) with (b ← (bs ← try_map r l; Ok (g bs)); assert_sem b)
    by (by destruct (try_map r l)).
  eapply (runs_bind _ _ _ _ (fun b => Bool b :: s)); [exact H|]. intros; apply runs_assert.
Qed.

Lemma all_bits_ok nodes :
  forallb is_bit nodes = true -> conds_ok nodes ->
  Forall bit_ok (omap node_bit nodes) /\ length (omap node_bit nodes) = length nodes.
Proof.
  unfold conds_ok. induction nodes as [|[b|cs] nodes IH]; csimpl; [done| |done]. intros Hb H.
  inversion H as [|? ? Hn Hns]; subst. destruct (IH Hb Hns) as [IH1 IH2]. split; [|by rewrite IH2].
  constructor; [by inversion Hn|done].
Qed.

Lemma runs_bits comp agg bits s :
  Forall bit_ok bits -> bits <> [] -> Z.of_nat (length bits) < i64_max ->
  (forall k n, agg = KofN k n -> 0 <= k <= u64_max) -> match comp with Conditional _ => False | _ => True end ->
  runs (bits_prog comp agg bits) s (passes s (bits_code j size now comp agg bits)).
Proof using input_json clock_fixed.
  intros Hb Hne Hn Hk Hcomp. pose proof (bits_compute bits Hb) as Hc.
  assert (Z.of_nat (length bits) / 2 + 1 <= i64_max) as Hm.
  { pose proof (Z.div_le_upper_bound (Z.of_nat (length bits)) 2 (Z.of_nat (length bits)) ltac:(lia) ltac:(lia)). lia. }
  assert (0 <= Z.of_nat (length bits) / 2) by (apply Z.div_pos; lia).
  destruct agg as [| | |k n|]; unfold bits_prog, bits_code.
  3: { apply runs_counted; [done..|]. unfold in_i64, i64_min. lia. }
  3: { apply runs_counted; [done..|]. apply u64_as_i64_range. by eapply Hk. }
  - destruct comp; [by apply runs_asserts| |done]. by apply (runs_assert_fold _ _ (forallb id)), runs_and.
  - by apply (runs_assert_fold _ _ (existsb id)), runs_or.
  - destruct comp; [by apply runs_asserts| |done]. by apply (runs_assert_fold _ _ (forallb id)), runs_and.
Qed.

(** The counting code for sub-chips: right for one node, stuck for more. *)
Lemma runs_interleaved n bs k s :
  length bs = n -> n <> 0%nat -> in_i64 k = true ->
  runs (interleaved_prog 0 n ++ at_least_prog k) ((Bool <$> rev bs) ++ s)
    (passes s (match bs with [b] => assert_sem (k <=? Z.b2z b) | _ => Err (TypeMismatch BoolToI64) end)).
Proof.
  intros Hl Hn Hk. destruct bs as [|b0 [|b1 bs]]; [by subst| |].
  - subst n. cbn [length interleaved_prog Nat.ltb Nat.leb app rev fmap list_fmap].
    eapply (runs_app _ _ _ [instr0 BoolToI64]); [apply runs_to_i64|]. by apply runs_at_least.
  - subst n. cbn [length]. destruct (rev (b0 :: b1 :: bs)) as [|t rest] eqn:Er.
    { apply (f_equal length) in Er. rewrite length_rev in Er. done. }
    cbn [interleaved_prog Nat.ltb Nat.leb app fmap list_fmap].
    eapply (runs_app _ _ _ [instr0 BoolToI64]); [apply runs_to_i64|].
    eapply (runs_app _ _ _ [instr0 BoolToI64]); [apply runs_to_i64_mismatch|done].
Qed.

Lemma runs_nodes agg nodes s :
  conds_ok nodes -> nodes <> [] -> Z.of_nat (length nodes) < i64_max ->
  (forall k n, agg = KofN k n -> 0 <= k <= u64_max) ->
  runs (nodes_prog agg nodes) s (passes s (nodes_code j size now agg nodes)).
Proof using input_json clock_fixed.
  intros Hb Hne Hn Hk.
  assert (Forall (computes cid input size node_prog node_sem) nodes) as Hc.
  { eapply Forall_impl; [exact Hb|]. apply node_computes. }
  assert (Z.of_nat (length nodes) / 2 + 1 <= i64_max) as Hm.
  { pose proof (Z.div_le_upper_bound (Z.of_nat (length nodes)) 2 (Z.of_nat (length nodes)) ltac:(lia) ltac:(lia)). lia. }
  assert (0 <= Z.of_nat (length nodes) / 2) by (apply Z.div_pos; lia).
  assert (length nodes <> 0%nat) as Hlen by (by destruct nodes).
  unfold nodes_prog, nodes_code. destruct agg as [| | |k n|].
  3: { apply (runs_bind _ _ _ _ (fun bs => (Bool <$> rev bs) ++ s)); [by apply runs_list|].
       intros bs E%try_map_length. apply runs_interleaved; [done..|]. unfold in_i64, i64_min. lia. }
  3: { apply (runs_bind _ _ _ _ (fun bs => (Bool <$> rev bs) ++ s)); [by apply runs_list|].
       intros bs E%try_map_length. apply runs_interleaved; [done..|]. apply u64_as_i64_range. by eapply Hk. }
  - by apply (runs_assert_fold _ _ (forallb id)), runs_and.
  - by apply (runs_assert_fold _ _ (existsb id)), runs_or.
  - by apply (runs_assert_fold _ _ (forallb id)), runs_and.
Qed.

Lemma circuit_runs c s :
  circuit_ok c -> runs (circuit_prog c) s (passes s (circuit_code j size now c)).
Proof using input_json clock_fixed.
  intros (Hne & Hok & Hn & Hk). unfold circuit_prog, circuit_code.
  destruct (composition_mode (resolved_body c)) as [comp|] eqn:Ec; [|apply runs_nil].
  destruct (aggregation_mode (resolved_body c)) as [agg|] eqn:Ea; [|apply runs_nil].
  assert (forall k n, agg = KofN k n -> 0 <= k <= u64_max) as Hk' by (intros k n ->; by eapply Hk).
  destruct (forallb is_bit (resolved_nodes c)) eqn:Eb; [|by apply runs_nodes].
  destruct (all_bits_ok _ Eb Hok) as [Hbits Hlen].
  apply runs_bits; [done| |by rewrite Hlen|done|by eapply composition_not_conditional].
  intros E. rewrite E in Hlen. by destruct (resolved_nodes c).
Qed.

Lemma circuits_run circuits s :
  Forall circuit_ok circuits ->
  runs (concat (circuit_prog <$> circuits)) s (passes s (gate_code j size now circuits)).
Proof using input_json clock_fixed.
  unfold gate_code. induction 1 as [|c cs Hc Hcs IH]; [apply runs_nil|]. csimpl.
  eapply runs_app; [by apply circuit_runs|]. cbn [try_fold].
  destruct (circuit_code j size now c) as [[]|e]; cbn [passes]; [done|done].
Qed.
End Runs.

(** ** The compiled program is well formed *)

Section WellFormed.
Context {SJ : SerdeJson} {SC : StrCase}.

(** Not the terminator, and with a payload that fits its length field. *)
Definition plain (i : Instr) : Prop := op i <> EmitRc /\ payload_fits i.

Lemma plain_instr0 o : o <> EmitRc -> plain (instr0 o).
Proof. by split. Qed.
Lemma plain_const z : plain (const_prog z).
Proof. by split. Qed.
Lemma plain_replicate n o : o <> EmitRc -> Forall plain (replicate n (instr0 o)).
Proof. intros Ho. apply Forall_replicate. by apply plain_instr0. Qed.
Lemma plain_concat {A} (p : A -> list Instr) l : Forall (fun x => Forall plain (p x)) l -> Forall plain (concat (p <$> l)).
Proof. induction 1 as [|x l Hx Hl IH]; csimpl; [constructor|]. by apply Forall_app. Qed.

Ltac plain_leaf := repeat (apply Forall_cons; split); try apply Forall_nil_2; split; try discriminate; assumption || done.

Lemma cond_prog_plain c : cond_ok c -> Forall plain (cond_prog c).
Proof.
  induction c as [b|k|k v|n|t|l IH|l IH|c IH|f a|f w] using cond_ind'; intros Hc;
    try (cbn [cond_prog load_prog app]; cbn in Hc; unfold key_ok in Hc; destruct_and? Hc; plain_leaf).
  - destruct l as [|x l]; [plain_leaf|]. rewrite prog_and, prog_list_concat. apply Forall_app. split.
    + apply plain_concat. apply (all_ok_Forall (x :: l)) in Hc. rewrite Forall_forall in *. auto.
    + by apply plain_replicate.
  - destruct l as [|x l]; [plain_leaf|]. rewrite prog_or, prog_list_concat. apply Forall_app. split.
    + apply plain_concat. apply (all_ok_Forall (x :: l)) in Hc. rewrite Forall_forall in *. auto.
    + by apply plain_replicate.
  - cbn [cond_prog]. apply Forall_app. split; [by apply IH|plain_leaf].
Qed.

Lemma bit_prog_plain b : bit_ok b -> Forall plain (bit_prog b).
Proof. apply cond_prog_plain. Qed.
Lemma node_prog_plain n : Forall cond_ok (node_conds n) -> Forall plain (node_prog n).
Proof.
  induction n as [b|cs IH] using node_ind'.
  - intros H. inversion H; subst. by apply bit_prog_plain.
  - rewrite node_conds_sub, node_prog_sub. intros H. unfold and_prog.
    destruct (node_prog <$> flat_nodes cs) as [|q qs] eqn:E; [plain_leaf|]. rewrite <- E. apply Forall_app. split.
    + apply plain_concat. rewrite Forall_forall in IH |- *. intros x Hx. apply IH; [done|].
      rewrite Forall_forall in H |- *. intros c Hc. apply H, list_elem_of_In, in_concat.
      exists (node_conds x). rewrite <- !list_elem_of_In. split; [|done]. apply list_elem_of_fmap. eauto.
    + by apply plain_replicate.
Qed.

Lemma at_least_plain k : Forall plain (at_least_prog k).
Proof. plain_leaf. Qed.
Lemma interleaved_plain i n : Forall plain (interleaved_prog i n).
Proof.
  revert i. induction n as [|n IH]; intros i; cbn [interleaved_prog]; [constructor|].
  constructor; [by apply plain_instr0|]. apply Forall_app. split; [|apply IH]. case_match; plain_leaf.
Qed.

Lemma circuit_prog_plain c : circuit_ok c -> Forall plain (circuit_prog c).
Proof.
  intros (_ & Hok & _). unfold circuit_prog.
  destruct (composition_mode _) as [comp|]; [|constructor]. destruct (aggregation_mode _) as [agg|]; [|constructor].
  destruct (forallb is_bit (resolved_nodes c)) eqn:Eb.
  - destruct (all_bits_ok _ Eb Hok) as [Hbits _]. generalize dependent (omap node_bit (resolved_nodes c)).
    intros bits Hbits.
    assert (Forall plain (concat (bit_prog <$> bits))) as H1.
    { apply plain_concat. eapply Forall_impl; [exact Hbits|apply bit_prog_plain]. }
    assert (Forall plain (concat (count_prog <$> bits))) as H2.
    { apply plain_concat. eapply Forall_impl; [exact Hbits|]. intros b Hb. apply Forall_app.
      split; [by apply bit_prog_plain|plain_leaf]. }
    assert (Forall plain (concat (assert_prog <$> bits))) as H3.
    { apply plain_concat. eapply Forall_impl; [exact Hbits|]. intros b Hb. apply Forall_app.
      split; [by apply bit_prog_plain|]. destruct (is_deny _); plain_leaf. }
    unfold bits_prog. destruct agg, comp; rewrite ?Forall_app; split_and?; try done;
      first [by apply plain_replicate|apply at_least_plain|plain_leaf].
  - assert (Forall plain (concat (node_prog <$> resolved_nodes c))) as H1.
    { apply plain_concat. eapply Forall_impl; [exact Hok|]. apply node_prog_plain. }
    unfold nodes_prog. destruct agg; rewrite !Forall_app; split_and?; try done;
      first [by apply plain_replicate|apply at_least_plain|apply interleaved_plain|plain_leaf].
Qed.

Lemma circuits_plain circuits : Forall circuit_ok circuits -> Forall plain (concat (circuit_prog <$> circuits)).
Proof. intros H. apply plain_concat. eapply Forall_impl; [exact H|apply circuit_prog_plain]. Qed.

Lemma gate_decodes circuits code :
  compile_chip_to_ubl_vm circuits = Ok code -> Forall circuit_ok circuits ->
  decode_stream code = Ok (gate_prog circuits).
Proof.
  intros ->%compile_chip_encodes H. apply decode_stream_encode. unfold gate_prog. apply Forall_app. split.
  - eapply Forall_impl; [by apply circuits_plain|]. by intros i [_ ?].
  - by repeat constructor.
Qed.
End WellFormed.

(** ** Properties *)

Section Properties.
Context {C : Type} {CP : CasProvider C} {SP : SignProvider} {KP : CanonProvider} {ED : Ed25519}
  {B64 : Base64} {NS : NumSerde} {CK : Clock} {HB3 : Blake3} {SJ : SerdeJson} {BN : BigNum} {SC : StrCase}.

Lemma run_tail (m : Vm C) cid input size :
  env cid input size m -> fuel_used m + 2 <= fuel_limit (cfg m) < u64_max -> (forall bs, sign_jws bs <> []) ->
  exists out m', run [mkInstr PushInput [x00; x00]; instr0 EmitRc] m = Ok (out, m') /\ is_Some (rc_cid out).
Proof.
  intros (Hi & _) Hf Hs. destruct m as [cf st sp fu cs inp rb pf tr bz]. cbn [inputs fuel_used cfg] in *.
  rewrite run_cons. cbn [op payload cfg fuel_used].
  assert ((fuel_limit cf <? u64_saturating_add fu 1) = false) as -> by (unfold u64_saturating_add; apply Z.ltb_ge; lia).
  rewrite decide_False by done.
  assert (exec_op PushInput [x00; x00] (tick (mkVm cf st sp fu cs inp rb pf tr bz)) =
    Ok (tt, set_stack (tick (mkVm cf st sp fu cs inp rb pf tr bz)) (VCid cid :: st))) as ->.
  { cbn [exec_op]. unfold exec_push_input, gets, lift, push, mbind, vm_bind.
    change (negb (length [x00; x00] =? 2)%nat) with false. cbv iota beta.
    change (Z.to_nat (from_be_bytes 0 [x00; x00])) with 0%nat.
    change (inputs (tick (mkVm cf st sp fu cs inp rb pf tr bz))) with inp. by rewrite Hi. }
  cbv iota beta. match goal with |- context [run _ ?x] => set (m1 := x) end.
  assert (cfg m1 = cf /\ fuel_used m1 = u64_saturating_add fu 1) as [Hc1 Hf1]
    by (unfold m1, record; by destruct (tracing _)).
  rewrite run_cons. rewrite Hc1, Hf1. cbn [op instr0].
  assert ((fuel_limit cf <? u64_saturating_add (u64_saturating_add fu 1) 1) = false) as ->
    by (unfold u64_saturating_add; apply Z.ltb_ge; lia).
  rewrite decide_True by done.
  unfold exec_emit_rc, push_trace, gets, modify, fail, mbind, vm_bind.
  destruct (tracing (cfg (tick m1))); cbv beta iota;
    match goal with |- context [sign_jws ?x] => destruct (sign_jws x) eqn:E; [by apply Hs in E|] end;
    cbn [length Nat.eqb]; destruct (cas_put _ _) as [c c']; by eexists _, _.
Qed.

(** What the emitted program does on the machine. *)
Lemma gate_runs circuits cid input j size now (m : Vm C) :
  Forall circuit_ok circuits -> canon <$> from_slice input = Some j -> (forall n, unix_secs n = now) ->
  (forall bs, sign_jws bs <> []) -> env cid input size m -> stack m = [] ->
  fuel_used m + Z.of_nat (length (gate_prog circuits)) <= fuel_limit (cfg m) < u64_max ->
  match gate_code j size now circuits with
  | Ok _ => exists out m', run (gate_prog circuits) m = Ok (out, m') /\ is_Some (rc_cid out)
  | Err e => run (gate_prog circuits) m = Err e
  end.
Proof.
  intros Hok Hj Hclock Hsig He Hs Hf. unfold gate_prog in *. rewrite length_app in Hf. cbn [length] in Hf.
  rewrite run_app.
  2:{ intros (i & Hop & Hin)%list_elem_of_fmap. pose proof (circuits_plain circuits Hok) as Hp.
      rewrite Forall_forall in Hp. by destruct (Hp i Hin). }
  pose proof (circuits_run cid input j size now Hj Hclock circuits [] Hok m He Hs ltac:(lia)) as H.
  destruct (gate_code j size now circuits) as [[]|e]; cbn [passes] in H.
  - destruct H as (m1 & -> & Hsame & Hfu & _). destruct Hsame as (Hcfg & Hrest).
    eapply (run_tail m1 cid input size); [by eapply env_same; [split|]|rewrite Hcfg, Hfu; lia|done].
  - by rewrite H.
Qed.

(** C1: Compiler correctness.  Bytecode compiled from a chip decodes, and run
    on the VM against an input it does exactly what the documentation of the
    compiler says the chip means on the canonical JSON of that input: if the
    chip passes the run ends with a receipt, otherwise it fails with exactly
    the error of the first failing condition or assertion.

    The circuits are within the machine's ranges ([circuit_ok]: at least one
    node, conditions with payloads and numbers that fit, fewer nodes than
    [i64_max]) and compiled as documented ([documented]).  The modes left out
    are those in which the code departs from its documentation:
    [FirstDecisive] ([first_decisive_denies]), a threshold above [i64_max]
    ([large_threshold_passes]), and counting over two or more nodes with a
    sub-chip ([subchip_counting_stuck]).  A sub-chip counts as the conjunction of
    its conditions, as documented; where its own circuits aggregate otherwise
    this is not what it decides alone ([subchip_any_denies]).  The clock stands still during the
    run, the signer signs, the machine has an empty stack, the input as input
    0 in its store, and fuel for one step per instruction. *)
Theorem gate_correct circuits code cid input j size now (m : Vm C) :
  compile_chip_to_ubl_vm circuits = Ok code -> Forall circuit_ok circuits -> Forall documented circuits ->
  canon <$> from_slice input = Some j -> (forall n, unix_secs n = now) -> (forall bs, sign_jws bs <> []) ->
  env cid input size m -> stack m = [] ->
  fuel_used m + Z.of_nat (length (gate_prog circuits)) <= fuel_limit (cfg m) < u64_max ->
  decode_stream code = Ok (gate_prog circuits) /\
  match gate_sem j size now circuits with
  | Ok _ => exists out m', run (gate_prog circuits) m = Ok (out, m') /\ is_Some (rc_cid out)
  | Err e => run (gate_prog circuits) m = Err e
  end.
Proof.
  intros Hcode Hok Hdoc Hj Hclock Hsig He Hs Hf. split; [by eapply gate_decodes|].
  rewrite <- documented_gate by done. by apply (gate_runs circuits cid input).
Qed.

(** A KofN threshold above [i64_max] becomes negative in the cast, and a
    circuit of bits that asks for more bits than there can be always passes:
    its meaning is to deny. *)
Theorem large_threshold_passes comp k n bits bs j size now :
  i64_max < k <= u64_max -> Z.of_nat (length bits) <= i64_max -> try_map (bit_sem j size now) bits = Ok bs ->
  bits_code j size now comp (KofN k n) bits = Ok tt /\
  bits_sem j size now comp (KofN k n) bits = Err (Deny (Reason "assert_false")).
Proof.
  intros Hk Hl Hbs. cbn [bits_code bits_sem]. rewrite Hbs. cbn [mbind result_bind].
  apply try_map_length in Hbs.
  assert (0 <= count_true bs <= Z.of_nat (length bs)) as Hc.
  { unfold count_true. pose proof (List.filter_length_le id bs). lia. }
  split; [|by rewrite (proj2 (Z.leb_gt _ _)) by lia].
  unfold u64_as_i64. rewrite (proj2 (Z.leb_gt k i64_max)) by lia. unfold u64_max in Hk.
  by rewrite (proj2 (Z.leb_le _ _)) by lia.
Qed.

(** A circuit that mixes sub-chips with a counting aggregator (Majority
    or KofN) over two or more nodes never passes: after all nodes evaluate,
    the compiled code applies BoolToI64 to an integer and the run fails with
    a type error instead of a decision. *)
Theorem subchip_counting_stuck agg nodes j size now bs :
  agg = Majority \/ (exists k n, agg = KofN k n) ->
  conds_ok nodes -> (2 <= length nodes)%nat -> Z.of_nat (length nodes) < i64_max ->
  (forall k n, agg = KofN k n -> 0 <= k <= u64_max) ->
  try_map (node_sem j size now) nodes = Ok bs ->
  forall cid input, canon <$> from_slice input = Some j -> (forall n, unix_secs n = now) ->
  runs (C := C) cid input size (nodes_prog agg nodes) [] (Err (TypeMismatch BoolToI64)).
Proof.
  intros Hagg Hok Hlen Hn Hk Hbs cid input Hj Hclock.
  pose proof (runs_nodes cid input j size now Hj Hclock agg nodes [] Hok
    ltac:(by intros ->; cbn in Hlen; lia) Hn Hk) as H.
  assert (nodes_code j size now agg nodes = Err (TypeMismatch BoolToI64)) as E; [|by rewrite E in H].
  unfold nodes_code. rewrite Hbs. apply try_map_length in Hbs. cbn [mbind result_bind].
  destruct bs as [|b0 [|b1 bs]]; [by cbn in Hbs; lia..|]. by destruct Hagg as [->|(k & n & ->)].
Qed.
End Properties.
