(* ===== verification/SiliconFacts.v ===== *)
(** * Parsing and resolving silicon chips terminates

    The condition parser never runs out of the fuel given by the value's
    depth, and the resolution of a chip graph always returns, cycles included:
    a nested chip is entered at most once on a path, so the number of chips in
    the store bounds the recursion. *)

From S2P Require Import Prelude RustStd Json Tlv Policy Silicon.
Local Open Scope string_scope.
Local Open Scope Z_scope.
Local Open Scope list_scope.

Definition total {A} (x : result SiliconError A) : Prop := x <> Err OutOfFuel.

Lemma total_ok {A} (a : A) : total (Ok a).
Proof. done. Qed.
Lemma total_bind {A B} (x : result SiliconError A) (f : A -> result SiliconError B) :
  total x -> (forall a, x = Ok a -> total (f a)) -> total (x ≫= f).
Proof. intros Hx Hf. destruct x as [a|e]; cbn; [by apply Hf|]. intros [= ->]. by apply Hx. Qed.
Lemma total_ok_or {A} (o : option A) e : e <> OutOfFuel -> total (ok_or o e).
Proof. intros He. destruct o; [done|]. cbn. by intros [=]. Qed.
Lemma total_map_err {A E} (x : result E A) f : (forall e, f e <> OutOfFuel) -> total (map_err f x).
Proof. intros Hf. destruct x; [done|]. cbn. intros [= H]. by apply Hf in H. Qed.
Lemma total_try_map {A B} (f : A -> result SiliconError B) l :
  (forall x, x ∈ l -> total (f x)) -> total (try_map f l).
Proof.
  induction l as [|x l IH]; cbn; intros H; [done|]. pose proof (H x ltac:(left)) as Hx.
  destruct (f x) as [y|e]; [|by intros [= ->]].
  assert (total (try_map f l)) as Hl by (apply IH; intros y' Hy'; apply H; by right).
  destruct (try_map f l); [done|]. by intros [= ->].
Qed.

Ltac tot :=
  repeat first
    [ match goal with |- total (_ ≫= _) => apply total_bind; [|intros ? ?] end | apply total_ok | apply total_ok_or; discriminate
    | apply total_map_err; by intros | done | case_match ].

(** ** Conditions *)

Lemma array_depth l : json_depth (JArray l) = S (foldr (fun x n => Nat.max (json_depth x) n) 0%nat l).
Proof. reflexivity. Qed.
Lemma object_depth m : json_depth (JObject m) = S (foldr (fun kv n => Nat.max (json_depth kv.2) n) 0%nat m).
Proof. cbn. f_equal. induction m as [|[k x] m IH]; cbn; [done|]. by rewrite IH. Qed.

Lemma depth_elem x l : x ∈ l -> (json_depth x < json_depth (JArray l))%nat.
Proof.
  rewrite array_depth. induction l as [|y l IH]; [by intros ?%elem_of_nil|].
  intros [->|H]%elem_of_cons; cbn [foldr]; [lia|]. specialize (IH H). lia.
Qed.
Lemma depth_get k v x : get k v = Some x -> (json_depth x < json_depth v)%nat.
Proof.
  destruct v as [| | | | |m]; try done. rewrite object_depth. cbn [get]. intros H%map_get_elem.
  induction m as [|y m IH]; [by apply elem_of_nil in H|].
  apply elem_of_cons in H as [<-|H]; cbn [foldr snd]; [lia|]. specialize (IH H). lia.
Qed.
Lemma depth_get_array k v l x : get k v ≫= as_array = Some l -> x ∈ l -> (json_depth x < json_depth v)%nat.
Proof.
  destruct (get k v) as [a|] eqn:E; [|done]. apply depth_get in E. destruct a; try done.
  cbn. intros [= ->] Hx%depth_elem. lia.
Qed.

Lemma need_ok {A} v k (f : json -> option A) name a : need v k f name = Ok a -> get k v ≫= f = Some a.
Proof. unfold need. by destruct (get k v ≫= f); [intros [= ->]|]. Qed.

Lemma from_value_total f v : (json_depth v <= f)%nat -> total (from_value_loop f v).
Proof.
  revert v. induction f as [|f IH]; intros v Hd.
  { destruct v; cbn in Hd; lia. }
  assert (forall k l, get k v ≫= as_array = Some l -> total (try_map (from_value_loop f) l)) as Hl.
  { intros k l H. apply total_try_map. intros x Hx. apply IH. pose proof (depth_get_array _ _ _ _ H Hx). lia. }
  assert (forall k x, get k v = Some x -> total (from_value_loop f x)) as Hx.
  { intros k x H. apply IH. apply depth_get in H. lia. }
  cbn [from_value_loop]. destruct (get "op" v ≫= as_str) as [op|].
  - unfold parse_tagged, need.
    repeat (destruct (String.eqb op _); [|]); try (by tot).
    all: try (apply total_bind; [by apply total_ok_or|]; intros l H;
              destruct (get _ v ≫= as_array) eqn:E in H; [|done]; injection H as ->;
              apply total_bind; [by eapply Hl|by tot]).
    apply total_bind; [by apply total_ok_or|]. intros x H. destruct (get "condition" v) as [y|] eqn:E; [|done].
    injection H as ->. apply total_bind; [by eapply Hx|by tot].
  - destruct v as [| | | | |m]; try done. unfold parse_legacy.
    case_match; [by tot|]. case_match; [done|]. case_match; [by tot|]. case_match; [done|]. case_match; [done|].
    case_match; [apply total_bind; [by eapply Hl|by tot]|].
    case_match; [apply total_bind; [by eapply Hl|by tot]|].
    case_match; [apply total_bind; [by eapply Hx|by tot]|done].
Qed.

(** ** Bodies *)

Section Bodies.
Context {SC : StrCase}.

Lemma req_str_total b f : total (req_str b f).
Proof. by apply total_ok_or. Qed.
Lemma parse_decision_total b f : total (parse_decision b f).
Proof. unfold parse_decision, need. tot. Qed.
Lemma parse_bit_total b : total (parse_bit b).
Proof.
  unfold parse_bit, need, condition_from_value.
  repeat first [apply req_str_total | apply parse_decision_total | (apply from_value_total; lia) | progress tot].
Qed.
Lemma str_array_total label i l : total (str_array label i l).
Proof.
  revert i. induction l as [|v l IH]; intros i; cbn [str_array]; [done|].
  apply total_bind; [by apply total_ok_or|]. intros s _. apply total_bind; [apply IH|done].
Qed.
Lemma check_cids_total label i l : total (check_cids label i l).
Proof. revert i. induction l as [|v l IH]; intros i; cbn [check_cids]; [done|]. case_match; [done|apply IH]. Qed.
Lemma parse_cids_total b label : total (parse_cids b label).
Proof.
  unfold parse_cids, need. apply total_bind; [by apply total_ok_or|]. intros arr _.
  apply total_bind; [apply str_array_total|]. intros [|c cids] _; [done|].
  apply total_bind; [apply check_cids_total|done].
Qed.
Lemma composition_total c : total (composition_mode c).
Proof. unfold composition_mode. tot. Qed.
Lemma aggregation_total c : total (aggregation_mode c).
Proof. unfold aggregation_mode. tot. Qed.
Lemma parse_circuit_total b : total (parse_circuit b).
Proof.
  unfold parse_circuit.
  repeat first [apply req_str_total | apply parse_cids_total | apply composition_total | apply aggregation_total
               | apply total_bind; [|intros ? ?] | apply total_ok].
Qed.
Lemma parse_chip_total b : total (parse_chip b).
Proof.
  unfold parse_chip, hal_from_value, need.
  repeat first [apply req_str_total | apply parse_cids_total | progress tot].
Qed.
Lemma parse_compile_total b : total (parse_compile b).
Proof. unfold parse_compile. repeat first [apply req_str_total | progress tot]. Qed.
Lemma parse_silicon_total t b : total (parse_silicon t b).
Proof.
  unfold parse_silicon.
  repeat first [apply parse_bit_total | apply parse_circuit_total | apply parse_chip_total | apply parse_compile_total
               | progress tot].
Qed.
End Bodies.

(** ** Chip graphs *)

Section Graph.
Context {SC : StrCase} (store : ChipStore) (dom : gset string).
(** The store holds finitely many chips of type [ubl/silicon.chip]. *)
Context (dom_chips : forall cid st,
  get_chip cid = Ok (Some st) -> chip_type st = TYPE_SILICON_CHIP -> cid ∈ dom).

Abbreviation resolver := (SiliconChipBody -> gset string -> result SiliconError (list ResolvedCircuit * gset string)).
(** The set of chips being resolved is the same after a call. *)
Definition restores (inner : resolver) : Prop := forall chip v cs v', inner chip v = Ok (cs, v') -> v' = v.

Lemma resolve_entry_restores inner v cid n v' :
  restores inner -> resolve_entry store inner v cid = Ok (n, v') -> v' = v.
Proof.
  intros Hin. unfold resolve_entry. rewrite result_bind_ok. intros (st & _ & H).
  destruct (String.eqb (chip_type st) TYPE_SILICON_BIT).
  { apply result_bind_ok in H as (b & _ & [= _ <-]). done. }
  destruct (String.eqb (chip_type st) TYPE_SILICON_CHIP); [|done].
  case_bool_decide as Hv; [done|]. apply result_bind_ok in H as (req & _ & H). destruct req as [| |c|]; try done.
  apply result_bind_ok in H as ([cs v1] & E & [= _ <-]). apply Hin in E as ->. set_solver.
Qed.
Lemma resolve_entries_restores inner v cids ns v' :
  restores inner -> resolve_entries store inner v cids = Ok (ns, v') -> v' = v.
Proof.
  intros Hin. revert v ns v'. induction cids as [|cid cids IH]; intros v ns v'; cbn [resolve_entries]; [by intros [= _ <-]|].
  rewrite result_bind_ok. intros ([n v1] & E1 & H). apply result_bind_ok in H as ([ns1 v2] & E2 & [= _ <-]).
  apply resolve_entry_restores in E1 as ->; [|done]. by eapply IH.
Qed.
Lemma resolve_circuits_restores inner : restores inner -> forall v cids cs v',
  resolve_circuits store inner v cids = Ok (cs, v') -> v' = v.
Proof.
  intros Hin v cids. revert v. induction cids as [|cid cids IH]; intros v cs v'; cbn [resolve_circuits]; [by intros [= _ <-]|].
  rewrite result_bind_ok. intros (st & _ & H). apply result_bind_ok in H as (b & _ & H).
  apply result_bind_ok in H as ([ns v1] & E1 & H). apply result_bind_ok in H as ([cs2 v2] & E2 & [= _ <-]).
  apply resolve_entries_restores in E1 as ->; [|done]. by eapply IH.
Qed.
Lemma resolve_restores f : restores (resolve_chip_graph_inner store f).
Proof.
  induction f as [|f IH]; intros chip v cs v'; cbn; [done|]. by apply resolve_circuits_restores.
Qed.

Lemma load_total nf cid : (forall c, nf c <> OutOfFuel) -> total (load store nf cid).
Proof. intros Hn. unfold load. apply total_bind; [by apply total_map_err|]. intros o _. by apply total_ok_or. Qed.

Lemma load_ok nf cid st : load store nf cid = Ok st -> get_chip cid = Ok (Some st).
Proof.
  unfold load. rewrite result_bind_ok. intros (o & H & E). destruct (get_chip cid) as [o'|]; [|done].
  injection H as ->. destruct o as [st'|]; [|done]. by injection E as ->.
Qed.

(** Enough fuel: more than the chips not yet on the path. *)
Lemma resolve_total f chip v :
  (size (dom ∖ v) < f)%nat -> total (resolve_chip_graph_inner store f chip v).
Proof using dom_chips.
  revert chip v. induction f as [|f IH]; intros chip v Hf; [lia|]. cbn [resolve_chip_graph_inner].
  pose proof (resolve_restores f) as Hin.
  assert (forall cid, total (resolve_entry store (resolve_chip_graph_inner store f) v cid)) as He.
  { intros cid. unfold resolve_entry. apply total_bind; [by apply load_total|]. intros st Hst%load_ok.
    destruct (String.eqb (chip_type st) TYPE_SILICON_BIT).
    { apply total_bind; [apply parse_bit_total|done]. }
    destruct (String.eqb_spec (chip_type st) TYPE_SILICON_CHIP) as [Ht|]; [|done].
    case_bool_decide as Hv; [done|]. apply total_bind; [apply parse_silicon_total|].
    intros [| |c|] _; try done. apply total_bind; [|by intros [cs v1]]. apply IH.
    assert (size (dom ∖ ({[cid]} ∪ v)) < size (dom ∖ v))%nat; [|lia].
    apply subset_size. pose proof (dom_chips _ _ Hst Ht). set_solver. }
  assert (forall cids, total (resolve_entries store (resolve_chip_graph_inner store f) v cids)) as Hes.
  { induction cids as [|cid cids IHc]; cbn [resolve_entries]; [done|]. apply total_bind; [apply He|].
    intros [n v1] H. apply resolve_entry_restores in H as ->; [|done].
    apply total_bind; [apply IHc|by intros [ns v2]]. }
  induction (schip_circuits chip) as [|cid cids IHc]; cbn [resolve_circuits]; [done|].
  apply total_bind; [by apply load_total|]. intros st _. apply total_bind; [apply parse_circuit_total|]. intros b _.
  apply total_bind; [apply Hes|]. intros [ns v1] H. apply resolve_entries_restores in H as ->; [|done].
  apply total_bind; [apply IHc|by intros [cs v2]].
Qed.

(** Compiling a gate always returns.  For a store with finitely many
    chips, resolution and compilation of any gate CID give bytecode or an
    error with recursion no deeper than the number of stored chips plus one,
    whatever cycles the stored graph has. *)
Theorem gate_compile_terminates {SJ : SerdeJson} fuel cid :
  (size dom < fuel)%nat -> gate_compile fuel store cid <> Err OutOfFuel.
Proof using dom_chips.
  intros Hf. change (total (gate_compile fuel store cid)). unfold gate_compile, resolve_chip_graph.
  apply total_bind; [by apply total_map_err|]. intros o _. apply total_bind; [by apply total_ok_or|]. intros st _.
  case_match; [done|]. apply total_bind; [apply parse_silicon_total|]. intros [| |c|] _; try done.
  apply total_bind.
  { apply total_bind; [|by intros [cs v]]. apply resolve_total. by rewrite difference_empty_L. }
  intros cs _. unfold compile_chip_to_ubl_vm, compile_circuits_inner. apply total_bind; [|done].
  generalize (@nil Byte.byte). induction cs as [|c' cs IH]; intros acc; cbn [try_fold]; [done|].
  assert (total (compile_circuit c')) as Hc.
  { unfold compile_circuit. apply total_bind; [apply composition_total|]. intros comp _.
    apply total_bind; [apply aggregation_total|]. intros agg _. unfold collect_bits.
    case_match; apply total_bind; try done; intros [code [[|b bs]|]] _; done. }
  destruct (compile_circuit c') as [x|e]; cbn; [apply IH|]. intros [= ->]. by apply Hc.
Qed.

(** A chip that reaches itself is rejected as cyclic: when a chip on the
    current path is met again, resolution answers [CyclicChipGraph]. *)
Theorem cycle_detected inner v cid st :
  get_chip cid = Ok (Some st) -> chip_type st = TYPE_SILICON_CHIP -> cid ∈ v ->
  resolve_entry store inner v cid = Err (CyclicChipGraph cid).
Proof.
  intros Hg Ht Hv. unfold resolve_entry, load. rewrite Hg. cbn [map_err mbind result_bind ok_or].
  rewrite Ht. cbn. by rewrite bool_decide_true.
Qed.
End Graph.
