(* ===== verification/Gate.v ===== *)
(** * The live gate of the CHECK stage ([pipeline::stages::check], [pipeline::providers])

    A chip body that names a gate ([@silicon_gate]) is checked by compiling
    the gate's chip and running it on the VM over the body's NRF bytes.  The
    in-memory store and the ρ canonicaliser of the pipeline are the VM's
    providers. *)

From S2P Require Import Prelude RustStd Json Nrf Rho BigNum Unc1 Tlv Policy Vm VmFacts VmTyping Silicon.
From S2P Require Import CompileFacts GateFacts SiliconFacts.
Local Open Scope string_scope.
Local Open Scope Z_scope.
Local Open Scope list_scope.

(** ** The pipeline's providers *)

(** [PipelineCas]: a hash map keyed by the BLAKE3 CID. *)
Definition PipelineCas : Type := gmap string bytes.
Definition pipeline_cid {HB3 : Blake3} (bs : bytes) : Cid := "b3:" +:+ hex_encode (blake3 bs).
#[export] Instance pipeline_cas {HB3 : Blake3} : CasProvider PipelineCas := {|
  cas_put store bs := let cid := pipeline_cid bs in (cid, <[cid := bs]> store);
  cas_get store cid := store !! cid;
|}.
#[export] Instance pipeline_cas_laws {HB3 : Blake3} : CasLaws PipelineCas pipeline_cas.
Proof. constructor. intros c bs. cbn. apply lookup_insert_eq. Qed.

(** [PipelineCanon]: full ρ. *)
Definition pipeline_canon {U : Unicode} : CanonProvider := {| canon v := rho v |}.

(** ** The gate *)

Inductive PipelineError : Type :=
| InvalidChip (e : SiliconError)
| InternalDecode (e : DecodeError)
| InternalNrf (e : NrfError).

Record GateDenial : Type := mkDenial { denied_gate : string; denied_reason : deny_reason }.

Section Gate.
Context {U : Unicode} {SP : SignProvider} {ED : Ed25519} {B64 : Base64} {NS : NumSerde} {CK : Clock}
  {HB3 : Blake3} {SJ : SerdeJson} {BN : BigNum} {SC : StrCase}.
#[local] Existing Instance pipeline_canon.

(** The machine the gate runs on: ghost mode, no trace, the body as input 0. *)
Definition gate_machine (fuel_limit : Z) (chip_nrf : bytes) : Vm PipelineCas :=
  let '(input_cid, cas) := cas_put (∅ : PipelineCas) chip_nrf in
  with_body_size (vm_new {| fuel_limit := fuel_limit; ghost := true; tracing := false |} cas [input_cid])
    (Z.of_nat (length chip_nrf)).

(** [None]: the stage goes on; [Some d]: it returns a denial.  Without a
    store, or without the member, there is no gate. *)
Definition silicon_gate (chip_store : option ChipStore) (resolve_fuel : nat) (fuel_limit : Z) (body : json)
    : result PipelineError (option GateDenial) :=
  match get "@silicon_gate" body ≫= as_str, chip_store with
  | Some gate_cid, Some store =>
      bytecode ← map_err InvalidChip (gate_compile resolve_fuel store gate_cid);
      instructions ← map_err InternalDecode (decode_stream bytecode);
      chip_nrf ← map_err InternalNrf (to_nrf1_bytes body);
      match run instructions (gate_machine fuel_limit chip_nrf) with
      | Err (Deny reason) => Ok (Some (mkDenial gate_cid reason))
      | _ => Ok None
      end
  | _, _ => Ok None
  end.

(** A gate that is reached: its program and the body's bytes. *)
Definition gate_reached (store : ChipStore) (fuel : nat) (body : json) (cid : string) (prog : list Instr)
    (nrf : bytes) : Prop :=
  get "@silicon_gate" body ≫= as_str = Some cid /\
  (exists code, gate_compile fuel store cid = Ok code /\ decode_stream code = Ok prog) /\
  to_nrf1_bytes body = Ok nrf.

Lemma silicon_gate_reached store fuel limit body cid prog nrf :
  gate_reached store fuel body cid prog nrf ->
  silicon_gate (Some store) fuel limit body =
  Ok (match run prog (gate_machine limit nrf) with
      | Err (Deny reason) => Some (mkDenial cid reason)
      | _ => None
      end).
Proof.
  intros (Hg & (code & Hc & Hd) & Hn). unfold silicon_gate. rewrite Hg, Hc. cbn [map_err mbind result_bind].
  rewrite Hd. cbn [map_err mbind result_bind]. rewrite Hn. cbn [map_err mbind result_bind].
  by destruct (run prog _) as [?|[]].
Qed.

(** The gate fails open.  Only a [Deny] blocks a chip: when the gate's
    program fails in any other way (fuel exhausted, a type error, an
    underflow, a bad payload), the check goes on as if the gate had
    passed. *)
Theorem gate_fails_open store fuel limit body cid prog nrf e :
  gate_reached store fuel body cid prog nrf ->
  run prog (gate_machine limit nrf) = Err e -> (forall why, e <> Deny why) ->
  silicon_gate (Some store) fuel limit body = Ok None.
Proof.
  intros Hr He Hne. rewrite (silicon_gate_reached _ _ _ _ _ _ _ Hr), He. destruct e; try done. by destruct (Hne why).
Qed.

(** The JSON grammar: a document that starts with [n] is [null], so no
    document starts with the NRF magic. *)
Class JsonGrammar : Prop := { json_not_nrf bs : from_slice (x6e :: x72 :: bs) = None }.

Lemma nrf_starts v bs : to_nrf1_bytes v = Ok bs -> exists r, bs = x6e :: x72 :: r.
Proof.
  unfold to_nrf1_bytes. rewrite result_bind_ok. intros (n & _ & [= <-]). unfold encode_to_vec, MAGIC. by eexists.
Qed.

(** A gate that reads the body denies every body.  Input 0 is the NRF
    encoding, which is never JSON, so as soon as a gate's program loads its
    input the run ends in a denial with [json_parse_error], whatever the body
    says. *)
Theorem gate_reading_body_denies `{!JsonGrammar} store fuel limit body cid rest nrf :
  gate_reached store fuel body cid (load_prog ++ rest) nrf -> 3 <= limit < u64_max ->
  silicon_gate (Some store) fuel limit body = Ok (Some (mkDenial cid (Reason "json_parse_error"))).
Proof.
  intros Hr Hl. rewrite (silicon_gate_reached _ _ _ _ _ _ _ Hr). destruct Hr as (_ & _ & Hn).
  apply nrf_starts in Hn as (r & ->). set (input := x6e :: x72 :: r).
  set (cid0 := pipeline_cid input). set (size := Z.of_nat (length input)).
  assert (env cid0 input size (gate_machine limit input)) as He.
  { split; [done|]. split; [|done]. cbn. apply lookup_insert_eq. }
  assert (runs (C := PipelineCas) cid0 input size load_prog [] (Err (Deny (Reason "json_parse_error")))) as Hload.
  { unfold load_prog, instr0.
    apply (runs_cons cid0 input size _ _ _ _ (Ok [VCid cid0])).
    { intros [cf st sp fu cs inp rb pf tr bz] (H1 & H2 & H3) Hs. cbn [stack inputs cas] in *. subst.
      cbn [exec_op]. unfold exec_push_input, gets, lift, push, mbind, vm_bind.
      change (negb (length [x00; x00] =? 2)%nat) with false. cbv iota beta.
      change (Z.to_nat (from_be_bytes 0 [x00; x00])) with 0%nat. cbn [inputs]. by rewrite H1. }
    apply (runs_cons cid0 input size _ _ _ _ (Ok [Bytes input])).
    { intros [cf st sp fu cs inp rb pf tr bz] (H1 & H2 & H3) Hs. cbn [stack inputs cas] in *. subst.
      cbn [exec_op]. unfold exec_cas_get, pop_cid, pop, gets, lift, push, mbind, vm_bind, mret, vm_ret.
      cbn [stack cas set_stack]. by rewrite H2. }
    apply (runs_cons cid0 input size _ _ _ _ (Err (Deny (Reason "json_parse_error")))); [|done].
    intros [cf st sp fu cs inp rb pf tr bz] (H1 & H2 & H3) Hs. cbn [stack inputs cas] in *. subst.
    cbn [exec_op]. unfold exec_json_normalize, pop_bytes, pop, gets, lift, push, mbind, vm_bind, mret, vm_ret.
    cbn [stack cas set_stack]. unfold input. by rewrite json_not_nrf. }
  rewrite run_app.
  2:{ refine (bool_decide_unpack _ _). vm_compute. exact I. }
  rewrite (Hload (gate_machine limit input) He eq_refl); [done|]. cbn. lia.
Qed.
End Gate.

(** ** Witnesses *)

Module ReadFacts.
#[export] Existing Instances Sample.sp Sample.ed Sample.b64 Sample.ns Sample.ck Sample.hb3.
#[export] Instance str_case : StrCase := {| to_lowercase := to_ascii_lowercase |}.
#[export] Instance unicode : Unicode := {| nfc s := s |}.
(** A reader that rejects what starts with [nr] and reads one document. *)
#[export] Instance serde : SerdeJson := {|
  from_slice bs := match bs with x6e :: x72 :: _ => None | _ => Some (JObject [("n", JNumber (PosInt 3))]) end;
  to_vec v := [x7b; x7d];
  value_to_string _ := "" |}.
Lemma grammar : JsonGrammar.
Proof. by constructor. Qed.

(** A chip with one circuit of one bit: [n <= 5]. *)
Definition amount_bit : SiliconBitBody := mkBitBody "b" "b" (CAmountLte "n" 5) Allow DenyD [].
Definition circuit_body (agg : string) : SiliconCircuitBody := mkCircuitBody "c" "c" ["b3:bit"] "Sequential" agg.
Definition circuits : list ResolvedCircuit :=
  [mkResolved "b3:circuit" (circuit_body "All") [NodeBit (mkResolvedBit "b3:bit" amount_bit)]].
Definition code : bytes := match compile_chip_to_ubl_vm circuits with Ok c => c | Err _ => [] end.
Definition machine : Vm PipelineCas := gate_machine 100 [x7b].

(** The same chip in a store. *)
Definition text (s : string) : json := JString s.
#[export] Instance store : ChipStore := {|
  get_chip cid :=
    Ok (if String.eqb cid "b3:gate" then
          Some (mkStored TYPE_SILICON_CHIP
            (JObject [("id", text "g"); ("name", text "g"); ("circuits", JArray [text "b3:circuit"]);
                      ("hal", JObject [("profile", text "HAL/v0/cpu")])]))
        else if String.eqb cid "b3:circuit" then
          Some (mkStored TYPE_SILICON_CIRCUIT
            (JObject [("id", text "c"); ("name", text "c"); ("bits", JArray [text "b3:bit"]);
                      ("composition", text "Sequential"); ("aggregator", text "All")]))
        else if String.eqb cid "b3:bit" then
          Some (mkStored TYPE_SILICON_BIT
            (JObject [("id", text "b"); ("name", text "b");
                      ("condition", JObject [("op", text "amount_lte"); ("field", text "n");
                                             ("amount", JNumber (PosInt 5))]);
                      ("on_true", text "allow"); ("on_false", text "deny")]))
        else None) |}.
Lemma store_chips cid st : get_chip cid = Ok (Some st) -> chip_type st = TYPE_SILICON_CHIP -> cid ∈ ({["b3:gate"]} : gset string).
Proof.
  cbn. destruct (String.eqb_spec cid "b3:gate") as [->|]; [set_solver|].
  repeat case_match; intros [= <-]; done.
Qed.
Definition body : json := JObject [("@silicon_gate", text "b3:gate"); ("n", JNumber (PosInt 99))].
Definition nrf : bytes := match to_nrf1_bytes body with Ok b => b | Err _ => [] end.
Definition gate_code : list Instr :=
  match gate_compile 2 store "b3:gate" with
  | Ok c => match decode_stream c with Ok p => p | Err _ => [] end
  | Err _ => []
  end.
Lemma reached : gate_reached store 2 body "b3:gate" gate_code nrf.
Proof.
  split; [reflexivity|]. split; [|vm_compute; reflexivity].
  exists (match gate_compile 2 store "b3:gate" with Ok c => c | Err _ => [] end).
  split; vm_compute; reflexivity.
Qed.
End ReadFacts.

Section GateWitnesses.
Import ReadFacts.
#[local] Existing Instance Sample.kp.

Lemma gate_correct_witness :
  decode_stream code = Ok (gate_prog circuits) /\
  match gate_sem (JObject [("n", JNumber (PosInt 3))]) 1 1700000000 circuits with
  | Ok _ => exists out m', run (gate_prog circuits) machine = Ok (out, m') /\ is_Some (rc_cid out)
  | Err e => run (gate_prog circuits) machine = Err e
  end.
Proof.
  apply (gate_correct circuits code (pipeline_cid [x7b]) [x7b]).
  - vm_compute. reflexivity.
  - repeat constructor; try discriminate; vm_compute; try reflexivity.
  - repeat constructor; discriminate.
  - reflexivity.
  - reflexivity.
  - discriminate.
  - split; [reflexivity|]. split; [apply lookup_insert_eq|reflexivity].
  - reflexivity.
  - vm_compute. split; congruence.
Defined.

(** [FirstDecisive] is documented as another name of [Any].  The machine
    denies a chip of one passing and one failing bit, which means to pass: its
    program is that of [All]. *)
Lemma first_decisive_denies :
  exists two m,
    compile_chip_to_ubl_vm (two "FirstDecisive") = compile_chip_to_ubl_vm (two "All") /\
    gate_sem (JObject [("n", JNumber (PosInt 3))]) 1 1700000000 (two "FirstDecisive") = Ok tt /\
    run (gate_prog (two "FirstDecisive")) m = Err (Deny (Reason "assert_false")).
Proof.
  exists (fun agg => [mkResolved "b3:circuit" (circuit_body agg)
    [NodeBit (mkResolvedBit "b3:bit" amount_bit);
     NodeBit (mkResolvedBit "b3:never" (mkBitBody "b" "b" (CAlways false) Allow DenyD []))]]), machine.
  split_and!; vm_compute; reflexivity.
Qed.

(** A chip of one passing and one failing bit under [Any] passes alone; as the
    only node of another chip it denies. *)
Lemma subchip_any_denies :
  exists inner m,
    gate_sem (JObject [("n", JNumber (PosInt 3))]) 1 1700000000 inner = Ok tt /\
    run (gate_prog [mkResolved "b3:outer" (circuit_body "All") [NodeSubChip inner]]) m = Err (Deny (Reason "assert_false")).
Proof.
  exists [mkResolved "b3:circuit" (circuit_body "Any")
    [NodeBit (mkResolvedBit "b3:bit" amount_bit);
     NodeBit (mkResolvedBit "b3:never" (mkBitBody "b" "b" (CAlways false) Allow DenyD []))]], machine.
  split; vm_compute; reflexivity.
Qed.

(** [2 ^ 63] of one bit is a negative threshold. *)
Lemma large_threshold_passes_witness :
  bits_code JNull 1 0 Sequential (KofN (2 ^ 63) 1) [mkResolvedBit "b3:never" (mkBitBody "b" "b" (CAlways false) Allow DenyD [])] = Ok tt /\
  bits_sem JNull 1 0 Sequential (KofN (2 ^ 63) 1) [mkResolvedBit "b3:never" (mkBitBody "b" "b" (CAlways false) Allow DenyD [])] =
    Err (Deny (Reason "assert_false")).
Proof.
  apply (large_threshold_passes Sequential (2 ^ 63) 1 _ [false]); [|discriminate|reflexivity].
  split; vm_compute; [reflexivity|discriminate].
Defined.

Lemma subchip_counting_stuck_witness :
  runs (C := PipelineCas) "b3:in" [x7b] 1 (nodes_prog Majority [NodeSubChip []; NodeSubChip []]) []
    (Err (TypeMismatch BoolToI64)).
Proof.
  apply (subchip_counting_stuck Majority [NodeSubChip []; NodeSubChip []] (JObject [("n", JNumber (PosInt 3))])
    1 1700000000 [true; true]).
  - by left.
  - repeat constructor.
  - repeat constructor.
  - vm_compute. reflexivity.
  - discriminate.
  - reflexivity.
  - reflexivity.
  - reflexivity.
Defined.

Lemma gate_compile_terminates_witness : gate_compile 2 store "b3:gate" <> Err OutOfFuel.
Proof.
  apply (gate_compile_terminates store {["b3:gate"]} store_chips). rewrite size_singleton. lia.
Defined.

Lemma cycle_detected_witness :
  resolve_entry store (resolve_chip_graph_inner store 1) {["b3:gate"]} "b3:gate" = Err (CyclicChipGraph "b3:gate").
Proof. eapply (cycle_detected store); [reflexivity|reflexivity|set_solver]. Defined.

(** No fuel, no gate. *)
Lemma gate_fails_open_witness : silicon_gate (Some store) 2 0 body = Ok None.
Proof.
  apply (gate_fails_open store 2 0 body "b3:gate" gate_code nrf FuelExhausted);
    [exact reached|vm_compute; reflexivity|discriminate].
Defined.

Lemma gate_reading_body_denies_witness :
  silicon_gate (Some store) 2 100 body = Ok (Some (mkDenial "b3:gate" (Reason "json_parse_error"))).
Proof.
  apply (@gate_reading_body_denies _ _ _ _ _ _ _ _ _ _ grammar store 2 100 body "b3:gate"
    (drop 3 gate_code) nrf); [exact reached|unfold u64_max; lia].
Defined.
End GateWitnesses.
