(* ===== verification/RateLimit.v ===== *)
(** * Rate limiting ([ubl_runtime::rate_limit])

    The sliding-window limiter: one window of timestamps per key, the limiter
    with its map of windows, and the gate's combination of three limiters.
    Instants and durations are nanoseconds ([Z]); every operation takes the
    instant its caller read.  The lock serialises operations, so a limiter's
    history is a sequence of them; the window theorem is about histories whose
    instants do not decrease.  An instant is at least one window after the
    clock's origin (the code's [now - window] panics otherwise). *)

From S2P Require Import Prelude RustStd.

(** ** Data *)

Record RateLimitConfig : Type := mkConfig { max_requests : Z; window : Z }.
Definition SECOND : Z := 1000000000.
Definition per_minute (max : Z) : RateLimitConfig := mkConfig max (60 * SECOND).
Definition default_did_limit : RateLimitConfig := per_minute 100.
Definition default_tenant_limit : RateLimitConfig := per_minute 1000.
Definition default_ip_limit : RateLimitConfig := per_minute 10.

(** [WindowEntry]: the vector of timestamps. *)
Definition WindowEntry : Type := list Z.
Definition entry_new : WindowEntry := [].

Inductive RateLimitResult : Type :=
| Allowed (limit remaining : Z)
| Limited (limit remaining retry_after : Z).

(** Indexing an empty vector panics. *)
Inductive rl_panic : Type := IndexOutOfBounds.

(** ** Operations on one window *)

(** [timestamps.retain(|t| *t > cutoff)]. *)
Definition retain_after (cutoff : Z) (e : WindowEntry) : WindowEntry := List.filter (fun t => cutoff <? t) e.

(** [len() as u32]. *)
Definition len_as_u32 (e : WindowEntry) : Z := Z.of_nat (length e) mod 2 ^ 32.

(** [Instant] subtraction saturates at zero. *)
Definition instant_sub (a b : Z) : Z := Z.max 0 (a - b).

Definition check_and_record (e : WindowEntry) (now : Z) (config : RateLimitConfig)
    : result rl_panic (RateLimitResult * WindowEntry) :=
  let cutoff := now - window config in
  let timestamps := retain_after cutoff e in
  let current := len_as_u32 timestamps in
  if max_requests config <=? current then
    match timestamps with
    | [] => Err IndexOutOfBounds
    | oldest :: _ =>
        let retry_after := window config - instant_sub now oldest in
        Ok (Limited (max_requests config) 0 retry_after, timestamps)
    end
  else
    Ok (Allowed (max_requests config) (max_requests config - current - 1), timestamps ++ [now]).

Definition entry_remaining (e : WindowEntry) (now : Z) (config : RateLimitConfig) : Z :=
  let cutoff := now - window config in
  let active := len_as_u32 (List.filter (fun t => cutoff <? t) e) in
  Z.max 0 (max_requests config - active).

Definition is_allowed (r : RateLimitResult) : bool := match r with Allowed _ _ => true | Limited _ _ _ => false end.
Definition is_limited (r : RateLimitResult) : bool := match r with Limited _ _ _ => true | Allowed _ _ => false end.
Definition result_remaining (r : RateLimitResult) : Z :=
  match r with Allowed _ rem | Limited _ rem _ => rem end.
Definition result_limit (r : RateLimitResult) : Z := match r with Allowed l _ | Limited l _ _ => l end.
Definition retry_after_secs (r : RateLimitResult) : option Z :=
  match r with Limited _ _ retry_after => Some (retry_after / SECOND + 1) | _ => None end.

(** ** The limiter *)

Record RateLimiter : Type := mkLimiter { config : RateLimitConfig; entries : gmap string WindowEntry }.
Definition limiter_new (c : RateLimitConfig) : RateLimiter := mkLimiter c ∅.

Definition check (l : RateLimiter) (now : Z) (key : string) : result rl_panic (RateLimitResult * RateLimiter) :=
  let entry := default entry_new (entries l !! key) in
  '(r, entry') ← check_and_record entry now (config l);
  Ok (r, mkLimiter (config l) (<[key := entry']> (entries l))).

Definition remaining (l : RateLimiter) (now : Z) (key : string) : Z :=
  match entries l !! key with
  | Some e => entry_remaining e now (config l)
  | None => max_requests (config l)
  end.

(** [retain] keeps an entry whose pruned window is not empty. *)
Definition prune (l : RateLimiter) (now : Z) : RateLimiter :=
  let cutoff := now - window (config l) in
  mkLimiter (config l)
    (omap (fun e => match retain_after cutoff e with [] => None | e' => Some e' end) (entries l)).

(** ** The gate's limiter *)

Record GateRateLimiter : Type := mkGate {
  did_limiter : RateLimiter; tenant_limiter : RateLimiter; ip_limiter : RateLimiter;
}.
Definition gate_with_config (did tenant ip : RateLimitConfig) : GateRateLimiter :=
  mkGate (limiter_new did) (limiter_new tenant) (limiter_new ip).
Definition gate_new : GateRateLimiter := gate_with_config default_did_limit default_tenant_limit default_ip_limit.

Record GateRateLimitResult : Type := mkGateResult { allowed : bool; limited_by : string; gate_result : RateLimitResult }.

(** A later dimension, when its key is known. *)
Definition check_optional (l : RateLimiter) (now : Z) (key : option string)
    : result rl_panic (option RateLimitResult * RateLimiter) :=
  match key with
  | None => Ok (None, l)
  | Some k => '(r, l') ← check l now k; Ok (Some r, l')
  end.

Definition limited_opt (r : option RateLimitResult) : bool := match r with Some r => is_limited r | None => false end.

(** Each dimension's check reads the clock itself. *)
Definition gate_check (g : GateRateLimiter) (now_ip now_tenant now_did : Z) (ip : string) (tenant did : option string)
    : result rl_panic (GateRateLimitResult * GateRateLimiter) :=
  '(ip_result, ip_l) ← check (ip_limiter g) now_ip ip;
  if is_limited ip_result then
    Ok (mkGateResult false "ip" ip_result, mkGate (did_limiter g) (tenant_limiter g) ip_l)
  else
    '(tenant_result, tenant_l) ← check_optional (tenant_limiter g) now_tenant tenant;
    match tenant_result with
    | Some (Limited _ _ _ as r) => Ok (mkGateResult false "tenant" r, mkGate (did_limiter g) tenant_l ip_l)
    | _ =>
        '(did_result, did_l) ← check_optional (did_limiter g) now_did did;
        match did_result with
        | Some (Limited _ _ _ as r) => Ok (mkGateResult false "did" r, mkGate did_l tenant_l ip_l)
        | _ => Ok (mkGateResult true "" ip_result, mkGate did_l tenant_l ip_l)
        end
    end.

Definition prune_all (g : GateRateLimiter) (now_did now_tenant now_ip : Z) : GateRateLimiter :=
  mkGate (prune (did_limiter g) now_did) (prune (tenant_limiter g) now_tenant) (prune (ip_limiter g) now_ip).

(** ** Histories of one key *)

(** The requests at the given instants, in order: the window at the end and
    the instants of the requests that were allowed, latest first. *)
Fixpoint serve (c : RateLimitConfig) (times : list Z) (e : WindowEntry) (served : list Z)
    : result rl_panic (WindowEntry * list Z) :=
  match times with
  | [] => Ok (e, served)
  | now :: rest =>
      '(r, e') ← check_and_record e now c;
      serve c rest e' (if is_allowed r then now :: served else served)
  end.

(** Allowed requests in the window that ends at [t]. *)
Definition in_window (c : RateLimitConfig) (t : Z) (served : list Z) : list Z :=
  List.filter (fun x => (t - window c <? x) && (x <=? t)) served.

(** ** Facts *)

Definition config_ok (c : RateLimitConfig) : Prop := 1 <= max_requests c < 2 ^ 32 /\ 0 < window c.

Lemma filter_length_mono {A} (f g : A -> bool) l :
  (forall x, x ∈ l -> f x = true -> g x = true) -> (length (List.filter f l) <= length (List.filter g l))%nat.
Proof.
  induction l as [|y l IH]; intros H; cbn; [done|].
  assert (length (List.filter f l) <= length (List.filter g l))%nat as Hl by (apply IH; intros x Hx; apply H; by right).
  pose proof (H y ltac:(left)) as Hy. destruct (f y), (g y); cbn; lia.
Qed.
Lemma retain_retain a b e : a <= b -> retain_after b (retain_after a e) = retain_after b e.
Proof.
  intros Hab. unfold retain_after. induction e as [|x e IH]; cbn; [done|].
  destruct (Z.ltb_spec a x), (Z.ltb_spec b x); cbn; rewrite ?IH; try lia; try done.
  - destruct (Z.ltb_spec b x); [done|lia].
  - destruct (Z.ltb_spec b x); [lia|done].
Qed.
Lemma retain_rev a e : retain_after a (rev e) = rev (retain_after a e).
Proof.
  unfold retain_after. induction e as [|x e IH]; cbn; [done|]. rewrite List.filter_app, IH. cbn.
  destruct (a <? x); cbn; [done|by rewrite app_nil_r].
Qed.

(** The state after serving requests up to instant [last]. *)
Definition history_ok (c : RateLimitConfig) (last : Z) (e : WindowEntry) (served : list Z) : Prop :=
  Forall (fun x => x <= last) served /\
  (exists c0, c0 <= last - window c /\ e = rev (retain_after c0 served)) /\
  forall t, Z.of_nat (length (in_window c t served)) <= max_requests c.

Lemma history_window c last e served now :
  config_ok c -> history_ok c last e served -> last <= now ->
  retain_after (now - window c) e = rev (retain_after (now - window c) served) /\
  len_as_u32 (retain_after (now - window c) e) = Z.of_nat (length (retain_after (now - window c) served)) /\
  Z.of_nat (length (retain_after (now - window c) served)) <= max_requests c.
Proof.
  intros [Hc Hw] (Hle & (c0 & Hc0 & ->) & Hwin) Hnow.
  rewrite retain_rev, retain_retain by lia.
  assert (Z.of_nat (length (retain_after (now - window c) served)) <= max_requests c) as Hn.
  { etrans; [|apply (Hwin last)]. apply inj_le. unfold retain_after, in_window. apply filter_length_mono.
    intros x Hx H. rewrite Forall_forall in Hle. apply Hle in Hx. bool_to_prop.
    apply andb_true_intro. split; [apply Z.ltb_lt|apply Z.leb_le]; lia. }
  split_and!; [done| |done]. unfold len_as_u32. rewrite length_rev. apply Z.mod_small. lia.
Qed.

Lemma check_history c last e served now r e' :
  config_ok c -> history_ok c last e served -> last <= now ->
  check_and_record e now c = Ok (r, e') ->
  history_ok c now e' (if is_allowed r then now :: served else served).
Proof.
  intros Hc Hh Hnow. destruct (history_window c last e served now Hc Hh Hnow) as (Hts & Hlen & Hmax).
  destruct Hc as [Hc Hw]. destruct Hh as (Hle & _ & Hwin). unfold check_and_record. rewrite Hlen, Hts.
  assert (Forall (fun x => x <= now) served) as Hle' by (eapply Forall_impl; [exact Hle|]; cbn; lia).
  destruct (Z.leb_spec (max_requests c) (Z.of_nat (length (retain_after (now - window c) served)))) as [Hfull|Hroom].
  - destruct (rev _) as [|oldest ts] eqn:E; [done|]. intros [= <- <-]. cbn [is_allowed].
    split; [done|]. split; [|done]. exists (now - window c). by rewrite E.
  - intros [= <- <-]. cbn [is_allowed]. split; [by constructor|]. split.
    + exists (now - window c). split; [lia|]. unfold retain_after. cbn [List.filter].
      by destruct (Z.ltb_spec (now - window c) now); [|lia].
    + intros t. unfold in_window. cbn [List.filter].
      destruct ((t - window c <? now) && (now <=? t)) eqn:Ht; [|apply Hwin].
      bool_to_prop. cbn [length]. rewrite Nat2Z.inj_succ.
      assert (le (length (List.filter (fun x => (t - window c <? x) && (x <=? t)) served))
                 (length (retain_after (now - window c) served))); [|lia].
      apply filter_length_mono. intros x _ Hx. bool_to_prop. apply Z.ltb_lt. lia.
Qed.

Lemma serve_history c times last e served e' served' :
  config_ok c -> history_ok c last e served -> StronglySorted Z.le (last :: times) ->
  serve c times e served = Ok (e', served') -> exists last', history_ok c last' e' served'.
Proof.
  intros Hc. revert last e served. induction times as [|now times IH]; intros last e served Hh Hs.
  { intros [= <- <-]. by exists last. }
  cbn [serve]. destruct (check_and_record e now c) as [[r e1]|] eqn:E; cbn [mbind result_bind]; [|done].
  apply StronglySorted_inv in Hs as [Hs Hl]. inversion Hl; subst.
  eapply IH; [by eapply check_history|done].
Qed.

Lemma check_total c last e served now :
  config_ok c -> history_ok c last e served -> last <= now ->
  exists r e', check_and_record e now c = Ok (r, e') /\
    is_allowed r = (Z.of_nat (length (retain_after (now - window c) served)) <? max_requests c).
Proof.
  intros Hc Hh Hnow. destruct (history_window c last e served now Hc Hh Hnow) as (Hts & Hlen & Hmax).
  unfold check_and_record. rewrite Hlen, Hts.
  destruct (Z.leb_spec (max_requests c) (Z.of_nat (length (retain_after (now - window c) served)))) as [Hf|Hr].
  - destruct (rev _) as [|o ts] eqn:E.
    + apply (f_equal length) in E. rewrite length_rev in E. cbn in E. destruct Hc. lia.
    + eexists _, _. split; [done|]. symmetry. apply Z.ltb_ge. lia.
  - eexists _, _. split; [done|]. symmetry. by apply Z.ltb_lt.
Qed.

Lemma serve_total c times last e served :
  config_ok c -> history_ok c last e served -> StronglySorted Z.le (last :: times) ->
  exists e' served', serve c times e served = Ok (e', served').
Proof.
  intros Hc. revert last e served. induction times as [|now times IH]; intros last e served Hh Hs; [by eexists _, _|].
  apply StronglySorted_inv in Hs as [Hs Hl]. inversion Hl; subst.
  destruct (check_total c last e served now) as (r & e1 & E & _); [done..|]. cbn [serve]. rewrite E.
  cbn [mbind result_bind]. eapply IH; [by eapply check_history|done].
Qed.

Lemma history_new c last : config_ok c -> history_ok c last [] [].
Proof.
  intros [Hc Hw]. split; [constructor|]. split; [by exists (last - window c)|]. intros t. cbn. lia.
Qed.

(** Pruning at an earlier instant is invisible to a later check. *)
Lemma check_pruned c e cut now :
  cut <= now - window c -> check_and_record (retain_after cut e) now c = check_and_record e now c.
Proof. intros H. unfold check_and_record. by rewrite retain_retain. Qed.

(** ** Properties *)

(** C32: The sliding-window guarantee.  For any sequence of requests for one key
    at non-decreasing instants, every request gets an answer and in every time
    window of the configured length at most [max_requests] of them are
    allowed. *)
Theorem sliding_window c first times :
  config_ok c -> StronglySorted Z.le (first :: times) ->
  exists e served, serve c (first :: times) entry_new [] = Ok (e, served) /\
    forall t, Z.of_nat (length (in_window c t served)) <= max_requests c.
Proof.
  intros Hc Hs. pose proof (history_new c first Hc) as Hh.
  assert (StronglySorted Z.le (first :: first :: times)) as Hs'.
  { constructor; [done|]. constructor; [lia|]. by apply StronglySorted_inv in Hs as [_ ?]. }
  destruct (serve_total c (first :: times) first [] [] Hc Hh Hs') as (e & served & E).
  exists e, served. split; [done|]. destruct (serve_history _ _ _ _ _ _ _ Hc Hh Hs' E) as (last & _ & _ & Hw). done.
Qed.

(** The limiter is exact.  After any history a request is allowed if and
    only if fewer than [max_requests] allowed requests lie in the window that
    ends at its instant. *)
Theorem check_exact c last e served now :
  config_ok c -> history_ok c last e served -> last <= now ->
  exists r e', check_and_record e now c = Ok (r, e') /\
    (is_allowed r = true <-> Z.of_nat (length (in_window c now served)) < max_requests c).
Proof.
  intros Hc Hh Hnow. destruct (check_total c last e served now Hc Hh Hnow) as (r & e' & E & Hr).
  exists r, e'. split; [done|]. rewrite Hr, Z.ltb_lt.
  replace (in_window c now served) with (retain_after (now - window c) served); [done|].
  destruct Hh as (Hle & _). unfold retain_after, in_window. clear -Hle Hnow.
  induction Hle as [|x l Hx Hl IH]; cbn; [done|]. rewrite IH.
  by destruct (Z.leb_spec x now); [rewrite andb_true_r|lia].
Qed.

(** [retry_after] is honest: a limited request that is repeated after the
    reported delay, with no other request in between, is allowed. *)
Theorem retry_after_sufficient c last e served now limit rem d e' :
  config_ok c -> history_ok c last e served -> last <= now ->
  check_and_record e now c = Ok (Limited limit rem d, e') ->
  0 < d /\ exists r e'', check_and_record e' (now + d) c = Ok (r, e'') /\ is_allowed r = true.
Proof.
  intros Hc Hh Hnow E. pose proof (check_history c last e served now _ _ Hc Hh Hnow E) as Hh'.
  cbn [is_allowed] in Hh'. destruct (history_window c last e served now Hc Hh Hnow) as (Hts & Hlen & Hmax).
  unfold check_and_record in E. rewrite Hlen, Hts in E.
  destruct (Z.leb_spec (max_requests c) (Z.of_nat (length (retain_after (now - window c) served)))); [|done].
  destruct (rev (retain_after (now - window c) served)) as [|o ts] eqn:Er; [done|]. injection E as <- <- <- <-.
  assert (retain_after (now - window c) served = rev ts ++ [o]) as Ho.
  { rewrite <- (rev_involutive (retain_after _ _)), Er. done. }
  assert (o ∈ retain_after (now - window c) served) as Hin by (rewrite Ho; set_solver).
  assert (now - window c < o <= now) as Hor.
  { unfold retain_after in Hin. rewrite list_elem_of_In, List.filter_In in Hin. destruct Hin as [Hin Hlt].
    destruct Hh as (Hle & _). rewrite Forall_forall in Hle. rewrite <- list_elem_of_In in Hin. apply Hle in Hin.
    bool_to_prop. lia. }
  unfold instant_sub. rewrite Z.max_r by lia. split; [lia|].
  replace (now + (window c - (now - o))) with (o + window c) by lia.
  destruct (check_total c now (o :: ts) served (o + window c)) as (r & e'' & E'' & Hr); [done|done|lia|].
  exists r, e''. split; [done|]. rewrite Hr. apply Z.ltb_lt.
  replace (o + window c - window c) with o by lia.
  assert (retain_after o served = retain_after o (rev ts ++ [o])) as Hro.
  { rewrite <- Ho. symmetry. apply retain_retain. lia. }
  rewrite Hro. unfold retain_after. rewrite List.filter_app. cbn [List.filter].
  destruct (Z.ltb_spec o o); [lia|]. rewrite app_nil_r.
  pose proof (List.filter_length_le (fun t => o <? t) (rev ts)) as Hm.
  rewrite Ho, length_app in Hmax. cbn [length] in Hmax. lia.
Qed.

(** Pruning is transparent: after [prune] at some instant, every later
    check of any key gives the same answer and leaves the same window as
    without pruning. *)
Theorem prune_transparent l t now key :
  t <= now ->
  match check (prune l t) now key, check l now key with
  | Ok (r1, l1), Ok (r2, l2) => r1 = r2 /\ entries l1 !! key = entries l2 !! key
  | Err e1, Err e2 => e1 = e2
  | _, _ => False
  end.
Proof.
  intros Ht. unfold check, prune. cbn [entries config]. rewrite lookup_omap.
  set (e := default entry_new (entries l !! key)).
  assert (default entry_new (entries l !! key ≫= fun e =>
      match retain_after (t - window (config l)) e with [] => None | e' => Some e' end) =
    retain_after (t - window (config l)) e) as ->.
  { unfold e. destruct (entries l !! key) as [e0|]; [|done]. cbn [mbind option_bind default]. unfold id.
    by destruct (retain_after _ e0). }
  rewrite check_pruned by lia. destruct (check_and_record e now (config l)) as [[r e']|]; [|done].
  cbn. by rewrite !lookup_insert_eq.
Qed.

(** A limit of zero is not "deny all" but a panic: the first check indexes
    an empty vector. *)
Theorem zero_limit_panics w now : check_and_record entry_new now (mkConfig 0 w) = Err IndexOutOfBounds.
Proof. reflexivity. Qed.

(** The gate allows a request exactly when none of the applicable
    dimensions is exhausted, and otherwise names the first exhausted one in
    the order ip, tenant, did; a rejected request takes nothing from the
    dimensions after the one that rejected it. *)
Theorem gate_check_first_limit g now_ip now_tenant now_did ip tenant did r g' :
  gate_check g now_ip now_tenant now_did ip tenant did = Ok (r, g') ->
  exists ipr ipl, check (ip_limiter g) now_ip ip = Ok (ipr, ipl) /\
  if is_limited ipr then allowed r = false /\ limited_by r = "ip"%string /\
    g' = mkGate (did_limiter g) (tenant_limiter g) ipl
  else exists tr tl, check_optional (tenant_limiter g) now_tenant tenant = Ok (tr, tl) /\
  if limited_opt tr then allowed r = false /\ limited_by r = "tenant"%string /\
    g' = mkGate (did_limiter g) tl ipl
  else exists dr dl, check_optional (did_limiter g) now_did did = Ok (dr, dl) /\
  if limited_opt dr then allowed r = false /\ limited_by r = "did"%string
  else allowed r = true /\ gate_result r = ipr /\ g' = mkGate dl tl ipl.
Proof.
  unfold gate_check. rewrite result_bind_ok. intros ([ipr ipl] & E1 & H). exists ipr, ipl. split; [done|].
  destruct (is_limited ipr); [by injection H as <- <-|].
  apply result_bind_ok in H as ([tr tl] & E2 & H). exists tr, tl. split; [done|].
  destruct tr as [[l1 r1|l1 r1 d1]|]; cbn [limited_opt is_limited]; [|by injection H as <- <-|];
    apply result_bind_ok in H as ([dr dl] & E3 & H); exists dr, dl; (split; [done|]);
    destruct dr as [[l2 r2|l2 r2 d2]|]; cbn [limited_opt is_limited]; by injection H as <- <-.
Qed.

(** ** Witnesses *)

Module RateLimitSample.

Definition cfg : RateLimitConfig := mkConfig 2 10.
Definition full : WindowEntry := [3; 5].

Lemma cfg_ok : config_ok cfg.
Proof. split; cbn; lia. Qed.

Lemma full_ok : history_ok cfg 5 full [5; 3].
Proof.
  split; [repeat constructor; lia|]. split; [exists (-5); split; [cbn; lia|reflexivity]|].
  intros t. unfold in_window, cfg. cbn.
  destruct (_ && _), (_ && _); cbn; lia.
Qed.

End RateLimitSample.
Import RateLimitSample.

Lemma sliding_window_witness :
  exists e served, serve cfg [1; 2; 3; 12; 13] entry_new [] = Ok (e, served) /\
    forall t, Z.of_nat (length (in_window cfg t served)) <= 2.
Proof. apply (sliding_window cfg 1 [2; 3; 12; 13] cfg_ok). repeat constructor; lia. Defined.

Lemma check_exact_witness :
  exists r e', check_and_record full 6 cfg = Ok (r, e') /\
    (is_allowed r = true <-> Z.of_nat (length (in_window cfg 6 [5; 3])) < 2).
Proof. apply (check_exact cfg 5 full [5; 3] 6 cfg_ok full_ok). lia. Defined.

Lemma retry_after_sufficient_witness :
  0 < 7 /\ exists r e'', check_and_record full (6 + 7) cfg = Ok (r, e'') /\ is_allowed r = true.
Proof. apply (retry_after_sufficient cfg 5 full [5; 3] 6 2 0 7 full cfg_ok full_ok); [lia|reflexivity]. Defined.

Lemma prune_transparent_witness :
  let l := mkLimiter cfg {["k" := full]} in
  match check (prune l 14) 14 "k", check l 14 "k" with
  | Ok (r1, l1), Ok (r2, l2) => r1 = r2 /\ entries l1 !! "k" = entries l2 !! "k"
  | Err e1, Err e2 => e1 = e2
  | _, _ => False
  end.
Proof. apply (prune_transparent (mkLimiter cfg {["k" := full]}) 14 14 "k"). lia. Defined.

Lemma gate_check_first_limit_witness :
  let g := mkGate (limiter_new cfg) (mkLimiter cfg {["acme" := full]}) (limiter_new cfg) in
  exists r g', gate_check g 6 6 6 "10.0.0.1" (Some "acme"%string) (Some "did:x"%string) = Ok (r, g') /\
    limited_by r = "tenant"%string /\
    exists ipr ipl, check (ip_limiter g) 6 "10.0.0.1" = Ok (ipr, ipl).
Proof.
  set (g := mkGate (limiter_new cfg) (mkLimiter cfg {["acme" := full]}) (limiter_new cfg)).
  eexists _, _. split; [vm_compute; reflexivity|]. split; [reflexivity|].
  pose proof (gate_check_first_limit g 6 6 6 "10.0.0.1" (Some "acme"%string) (Some "did:x"%string) _ _ eq_refl)
    as (ipr & ipl & E & _).
  exists ipr, ipl. exact E.
Defined.
