(* ===== verification/Canon.v ===== *)
(** * Canonical signing and fingerprints ([ubl_canon], [ubl_kms])

    The one path from a JSON value to signed bytes: [ubl_canon/src/lib.rs]
    (CID, fingerprint, v1 and v2 signatures with a domain), its counterpart in
    [ubl_kms/src/lib.rs] (signatures and [did:key] identifiers), and the
    canon-aware rate limiter of [ubl_runtime/src/rate_limit.rs] that buckets
    requests by fingerprint.  Ed25519, base64 and base58 are parameters. *)

From S2P Require Import Prelude RustStd Json Nrf NrfFacts Vm RateLimit.

(** ** Libraries the code calls *)

(** [ed25519_dalek]: signing under a seed, the public key of a seed, and the
    test [VerifyingKey::from_bytes] makes on 32 bytes. *)
Class Ed25519Keys : Type := {
  sk_sign : bytes -> bytes -> bytes;
  sk_verifying_key : bytes -> bytes;
  vk_is_point : bytes -> bool;
}.
Class Ed25519Laws (E : Ed25519) (K : Ed25519Keys) : Prop := {
  sign_length sk m : length (sk_sign sk m) = 64%nat;
  vk_length sk : length (sk_verifying_key sk) = 32%nat;
  vk_point sk : vk_is_point (sk_verifying_key sk) = true;
  sign_verifies sk m : ed25519_verify (sk_verifying_key sk) (sk_sign sk m) m = true;
}.

(** Decoding of the URL-safe alphabet, and base58. *)
Class Base64Decode : Type := { base64_decode : string -> option bytes }.
Class Base64Laws (B : Base64) (D : Base64Decode) : Prop := {
  base64_roundtrip b : base64_decode (base64_url b) = Some b;
}.
Class Base58 : Type := { bs58_encode : bytes -> string; bs58_decode : string -> option bytes }.
Class Base58Laws (B : Base58) : Prop := { bs58_roundtrip b : bs58_decode (bs58_encode b) = Some b }.

(** ** Domains *)

Module domains.
Definition RECEIPT : string := "ubl/receipt/v1".
Definition RICH_URL : string := "ubl/rich-url/v1".
Definition RB_VM : string := "ubl-rb-vm/v1".
Definition CAPABILITY : string := "ubl-capability/v1".
Definition RUNTIME_ATTESTATION : string := "ubl/runtime-attestation/v1".
End domains.

Module kms_domain.
Definition RECEIPT : string := "ubl-receipt/v1".
Definition RB_VM : string := "ubl-rb-vm/v1".
Definition CAPSULE : string := "ubl-capsule/v1".
Definition CHIP : string := "ubl-chip/v1".
Definition CAPABILITY : string := "ubl-capability/v1".
End kms_domain.

Definition registered_domains : list string :=
  [domains.RECEIPT; domains.RICH_URL; domains.RB_VM; domains.CAPABILITY; domains.RUNTIME_ATTESTATION;
   kms_domain.RECEIPT; kms_domain.RB_VM; kms_domain.CAPSULE; kms_domain.CHIP; kms_domain.CAPABILITY].

(** ** Errors *)

(** What is wrong with a signature or identifier string. *)
Inductive sig_error : Type :=
| MissingPrefix
| NotBase64
| BadSignatureLength.

Inductive CanonError : Type :=
| CanonNrf (e : NrfError)
| CanonSignature (e : sig_error).

Inductive did_error : Type :=
| DidPrefix
| DidBase58
| DidLength (got : nat)
| DidMulticodec
| DidPoint.

Inductive KmsError : Type :=
| KmsNrf (e : NrfError)
| KmsBadSignature (e : sig_error)
| KmsBadDid (e : did_error).

Inductive CryptoMode : Type := CompatV1 | HashFirstV2.

(** ** Fingerprints *)

Record CanonFingerprint : Type := mkFingerprint {
  fp_hash : string; fp_type : string; fp_ver : string; fp_world : string;
}.

(** [body.get(k).and_then(as_str).unwrap_or(empty)]. *)
Definition anchor (k : string) (body : json) : string := default ""%string (get k body ≫= as_str).

Definition rate_key (fp : CanonFingerprint) : string :=
  fp_type fp +:+ "|" +:+ fp_ver fp +:+ "|" +:+ fp_world fp +:+ "|" +:+ fp_hash fp.

Definition fingerprint_display (fp : CanonFingerprint) : string :=
  let h := fp_hash fp in
  if (String.length h <? 12)%nat then "canon:" +:+ h
  else "canon:" +:+ substring 0 8 h +:+ "…" +:+ substring (String.length h - 4) 4 h.

Section Canon.
Context {U : Unicode} {HB3 : Blake3} {ED : Ed25519} {EK : Ed25519Keys} {B64 : Base64} {B64D : Base64Decode}
  {B58 : Base58}.

Definition to_nrf_bytes (value : json) : result CanonError bytes := map_err CanonNrf (to_nrf1_bytes value).

Definition cid_of (value : json) : result CanonError string :=
  nrf ← to_nrf_bytes value;
  Ok ("b3:" +:+ hex_encode (blake3 nrf)).

Definition from_chip_body (body : json) : option CanonFingerprint :=
  match to_nrf_bytes body with
  | Err _ => None
  | Ok nrf_bytes =>
      Some (mkFingerprint (hex_encode (blake3 nrf_bytes))
              (anchor "@type" body) (anchor "@ver" body) (anchor "@world" body))
  end.

(** *** Signatures of [ubl_canon] *)

Definition verify_signature (vk message : bytes) (sig : string) : result CanonError bool :=
  b64 ← ok_or (strip_prefix "ed25519:" sig) (CanonSignature MissingPrefix);
  sig_bytes ← ok_or (base64_decode b64) (CanonSignature NotBase64);
  if (length sig_bytes =? 64)%nat then Ok (ed25519_verify vk sig_bytes message)
  else Err (CanonSignature BadSignatureLength).

Definition sign_raw_v1 (payload : bytes) (domain : string) (sk : bytes) : string :=
  let msg := as_bytes domain ++ payload in
  "ed25519:" +:+ base64_url (sk_sign sk msg).

Definition verify_raw_v1 (payload : bytes) (domain : string) (vk : bytes) (sig : string) : result CanonError bool :=
  let msg := as_bytes domain ++ payload in
  verify_signature vk msg sig.

Definition sign_domain_v1 (value : json) (domain : string) (sk : bytes) : result CanonError string :=
  nrf ← to_nrf_bytes value; Ok (sign_raw_v1 nrf domain sk).

Definition verify_domain_v1 (value : json) (domain : string) (vk : bytes) (sig : string) : result CanonError bool :=
  nrf ← to_nrf_bytes value; verify_raw_v1 nrf domain vk sig.

Definition sign_raw_v2_hash_first (payload : bytes) (domain : string) (sk : bytes) : string :=
  let msg := as_bytes domain ++ payload in
  let digest := blake3 msg in
  "ed25519:" +:+ base64_url (sk_sign sk digest).

Definition verify_raw_v2_hash_first (payload : bytes) (domain : string) (vk : bytes) (sig : string)
    : result CanonError bool :=
  let msg := as_bytes domain ++ payload in
  let digest := blake3 msg in
  verify_signature vk digest sig.

Definition sign_domain_v2_hash_first (value : json) (domain : string) (sk : bytes) : result CanonError string :=
  nrf ← to_nrf_bytes value; Ok (sign_raw_v2_hash_first nrf domain sk).

Definition verify_domain_v2_hash_first (value : json) (domain : string) (vk : bytes) (sig : string)
    : result CanonError bool :=
  nrf ← to_nrf_bytes value; verify_raw_v2_hash_first nrf domain vk sig.

(** *** Signatures of [ubl_kms] *)

Definition domain_message (domain : string) (payload : bytes) : bytes := as_bytes domain ++ payload.

Definition kms_verify_raw (vk msg : bytes) (sig_str : string) : result KmsError bool :=
  b64 ← ok_or (strip_prefix "ed25519:" sig_str) (KmsBadSignature MissingPrefix);
  sig_bytes ← ok_or (base64_decode b64) (KmsBadSignature NotBase64);
  if (length sig_bytes =? 64)%nat then Ok (ed25519_verify vk sig_bytes msg)
  else Err (KmsBadSignature BadSignatureLength).

Definition sign_bytes (sk raw : bytes) (domain : string) : string :=
  "ed25519:" +:+ base64_url (sk_sign sk (domain_message domain raw)).

Definition sign_canonical (sk : bytes) (value : json) (domain : string) : result KmsError string :=
  nrf_bytes ← map_err KmsNrf (to_nrf1_bytes value);
  Ok ("ed25519:" +:+ base64_url (sk_sign sk (domain_message domain nrf_bytes))).

Definition verify_canonical (vk : bytes) (value : json) (domain sig_str : string) : result KmsError bool :=
  nrf_bytes ← map_err KmsNrf (to_nrf1_bytes value);
  kms_verify_raw vk (domain_message domain nrf_bytes) sig_str.

Definition verify_bytes (vk raw : bytes) (domain sig_str : string) : result KmsError bool :=
  kms_verify_raw vk (domain_message domain raw) sig_str.

Definition key_cid (vk : bytes) : string := "b3:" +:+ hex_encode (blake3 vk).

(** *** [did:key] identifiers *)

Definition ED25519_PUB_MULTICODEC : bytes := [xed; x01].

Definition did_from_verifying_key_strict (vk : bytes) : string :=
  "did:key:z" +:+ bs58_encode (ED25519_PUB_MULTICODEC ++ vk).

(** [strict]: the environment asks for the multicodec form. *)
Definition did_from_verifying_key (strict : bool) (vk : bytes) : string :=
  if strict then did_from_verifying_key_strict vk else "did:key:z" +:+ bs58_encode vk.

Definition vk_from_bytes (arr : bytes) : result KmsError bytes :=
  if vk_is_point arr then Ok arr else Err (KmsBadDid DidPoint).

Definition verifying_key_from_did_strict (did : string) : result KmsError bytes :=
  encoded ← ok_or (strip_prefix "did:key:z" did) (KmsBadDid DidPrefix);
  bs ← ok_or (bs58_decode encoded) (KmsBadDid DidBase58);
  if negb (length bs =? 34)%nat then Err (KmsBadDid (DidLength (length bs)))
  else if negb (bool_decide (take 2 bs = ED25519_PUB_MULTICODEC)) then Err (KmsBadDid DidMulticodec)
  else vk_from_bytes (drop 2 bs).

Definition verifying_key_from_did (did : string) : result KmsError bytes :=
  match verifying_key_from_did_strict did with
  | Ok vk => Ok vk
  | Err _ =>
      encoded ← ok_or (strip_prefix "did:key:z" did) (KmsBadDid DidPrefix);
      key_bytes ← ok_or (bs58_decode encoded) (KmsBadDid DidBase58);
      if negb (length key_bytes =? 32)%nat then Err (KmsBadDid (DidLength (length key_bytes)))
      else vk_from_bytes key_bytes
  end.

Definition kid_from_verifying_key (strict : bool) (vk : bytes) : string :=
  did_from_verifying_key strict vk +:+ "#ed25519".

(** *** The canon-aware rate limiter *)

Definition canon_default_config : RateLimitConfig := per_minute 5.

(** [None]: the body has no canonical form and is not counted. *)
Definition check_body (l : RateLimiter) (now : Z) (body : json)
    : result rl_panic (option (CanonFingerprint * RateLimitResult) * RateLimiter) :=
  match from_chip_body body with
  | None => Ok (None, l)
  | Some fp =>
      '(r, l') ← check l now (rate_key fp);
      Ok (Some (fp, r), l')
  end.

Definition canon_prune (l : RateLimiter) (now : Z) : RateLimiter := prune l now.

(** Requests in order; the instants of those allowed, latest first. *)
Fixpoint serve_bodies (l : RateLimiter) (reqs : list (Z * json)) (served : list Z)
    : result rl_panic (RateLimiter * list Z) :=
  match reqs with
  | [] => Ok (l, served)
  | (now, body) :: rest =>
      '(r, l') ← check_body l now body;
      serve_bodies l' rest
        (match r with Some (_, r) => if is_allowed r then now :: served else served | None => served end)
  end.
End Canon.

(** ** Facts *)

Lemma strip_prefix_app p s : strip_prefix p (p +:+ s) = Some s.
Proof. induction p as [|a p IH]; [done|]. rewrite str_app_cons. cbn. by rewrite Ascii.eqb_refl. Qed.

Lemma as_bytes_cons a s : as_bytes (String a s) = byte_of_ascii a :: as_bytes s.
Proof. reflexivity. Qed.

(** Two strings that start a common byte string: one is a prefix of the other. *)
Lemma common_prefix d1 d2 p1 p2 :
  as_bytes d1 ++ p1 = as_bytes d2 ++ p2 -> starts_with d1 d2 = true \/ starts_with d2 d1 = true.
Proof.
  revert d2. induction d1 as [|a d1 IH]; intros d2; [by left|]. destruct d2 as [|b d2]; [by right|].
  rewrite !as_bytes_cons. cbn [app starts_with]. intros [= Hab Hrest].
  apply (f_equal ascii_of_byte) in Hab. rewrite !ascii_of_byte_of_ascii in Hab. subst b.
  rewrite Ascii.eqb_refl. cbn. by apply IH.
Qed.

Lemma registered_prefix_free d1 d2 :
  d1 ∈ registered_domains -> d2 ∈ registered_domains -> starts_with d1 d2 = true -> d1 = d2.
Proof.
  intros H1 H2 Hs.
  assert (forallb (fun a => forallb (fun b => implb (starts_with a b) (String.eqb a b)) registered_domains)
            registered_domains = true) as Hall by reflexivity.
  rewrite forallb_forall in Hall. apply list_elem_of_In in H1, H2. specialize (Hall _ H1).
  rewrite forallb_forall in Hall. specialize (Hall _ H2). rewrite Hs in Hall. by apply String.eqb_eq.
Qed.

(** The string members of equivalent values agree. *)
Lemma anchor_equiv k v1 v2 : json_wf v1 -> json_wf v2 -> json_equiv v1 v2 -> anchor k v1 = anchor k v2.
Proof.
  intros W1 W2 He. unfold anchor. f_equal.
  inversion He as [v|l1 l2 Hl|m1 m1' m2 m2' H1 H2 HF]; subst; [done..|].
  apply json_wf_object in W1 as [N1 _], W2 as [N2 _]. cbn [get].
  apply option_eq. intros s. rewrite !bind_Some. split.
  - intros (x & Hx & Hs). destruct x; try done. apply map_get_elem in Hx.
    destruct (equiv_entry _ _ _ _ _ _ H1 H2 HF Hx eq_refl) as (y & Hy & _ & Hxy).
    inversion Hxy; subst. exists (JString s0). split; [by apply map_get_elem_iff|done].
  - intros (y & Hy & Hs). destruct y; try done. apply map_get_elem in Hy.
    destruct (equiv_entry_r _ _ _ _ _ _ H1 H2 HF Hy eq_refl) as (x & Hx & _ & Hxy).
    inversion Hxy; subst. exists (JString s0). split; [by apply map_get_elem_iff|done].
Qed.

Section Facts.
Context {U : Unicode} {HB3 : Blake3} {ED : Ed25519} {EK : Ed25519Keys} {B64 : Base64} {B64D : Base64Decode}
  {B58 : Base58}.

Lemma equiv_bytes v1 v2 b1 b2 :
  json_equiv v1 v2 -> to_nrf1_bytes v1 = Ok b1 -> to_nrf1_bytes v2 = Ok b2 -> b1 = b2.
Proof.
  unfold to_nrf1_bytes. rewrite !result_bind_ok. intros He (n1 & E1 & [= <-]) (n2 & E2 & [= <-]).
  by rewrite (json_equiv_conv _ _ _ _ He E1 E2).
Qed.

Lemma to_nrf_bytes_ok v b : to_nrf_bytes v = Ok b <-> to_nrf1_bytes v = Ok b.
Proof. unfold to_nrf_bytes, map_err. destruct (to_nrf1_bytes v); split; congruence. Qed.

Lemma fingerprint_equiv v1 v2 f1 f2 :
  json_wf v1 -> json_wf v2 -> json_equiv v1 v2 ->
  from_chip_body v1 = Some f1 -> from_chip_body v2 = Some f2 -> f1 = f2.
Proof.
  intros W1 W2 He. unfold from_chip_body.
  destruct (to_nrf_bytes v1) as [b1|] eqn:E1; [|done]. destruct (to_nrf_bytes v2) as [b2|] eqn:E2; [|done].
  intros [= <-] [= <-]. apply to_nrf_bytes_ok in E1, E2. rewrite (equiv_bytes _ _ _ _ He E1 E2).
  by rewrite !(anchor_equiv _ _ _ W1 W2 He).
Qed.

Lemma canon_signature `{!Ed25519Laws ED EK, !Base64Laws B64 B64D} sk msg :
  verify_signature (sk_verifying_key sk) msg ("ed25519:" +:+ base64_url (sk_sign sk msg)) = Ok true.
Proof.
  unfold verify_signature. rewrite strip_prefix_app. cbn [ok_or mbind result_bind].
  rewrite base64_roundtrip. cbn [ok_or mbind result_bind]. by rewrite sign_length, sign_verifies.
Qed.
Lemma kms_signature `{!Ed25519Laws ED EK, !Base64Laws B64 B64D} sk msg :
  kms_verify_raw (sk_verifying_key sk) msg ("ed25519:" +:+ base64_url (sk_sign sk msg)) = Ok true.
Proof.
  unfold kms_verify_raw. rewrite strip_prefix_app. cbn [ok_or mbind result_bind].
  rewrite base64_roundtrip. cbn [ok_or mbind result_bind]. by rewrite sign_length, sign_verifies.
Qed.

(** A run of requests with one fingerprint is a run of one key. *)
Lemma serve_bodies_serve (c : RateLimitConfig) fp reqs l served e served' :
  config l = c -> Forall (fun r => from_chip_body r.2 = Some fp) reqs ->
  serve c reqs.*1 (default entry_new (entries l !! rate_key fp)) served = Ok (e, served') ->
  exists l', serve_bodies l reqs served = Ok (l', served').
Proof.
  intros <-. revert l served. induction reqs as [|[now body] reqs IH]; intros l served Hf; cbn [fmap list_fmap serve].
  { intros [= <- <-]. by exists l. }
  inversion Hf as [|? ? Hb Hf']; subst. cbn [fst]. cbn [snd] in Hb.
  cbn [serve_bodies]. unfold check_body. rewrite Hb. unfold check.
  destruct (check_and_record _ now (config l)) as [[r e1]|] eqn:E; cbn [mbind result_bind]; [|done].
  intros Hs. apply (IH (mkLimiter (config l) (<[rate_key fp := e1]> (entries l)))); [done|].
  cbn [entries config]. by rewrite lookup_insert_eq.
Qed.

(** ** Properties *)

(** Signatures survive cosmetic changes.  In both signing modes and in
    the key-management service, the signature made over a value under a
    domain verifies, under the signer's public key and that domain, on every
    accepted value that differs only in member order and null members. *)
Theorem sign_verify_canonical `{!Ed25519Laws ED EK, !Base64Laws B64 B64D} v1 v2 b1 b2 domain sk :
  json_equiv v1 v2 -> to_nrf1_bytes v1 = Ok b1 -> to_nrf1_bytes v2 = Ok b2 ->
  exists s1 s2, sign_domain_v1 v1 domain sk = Ok s1 /\
    verify_domain_v1 v2 domain (sk_verifying_key sk) s1 = Ok true /\
    sign_domain_v2_hash_first v1 domain sk = Ok s2 /\
    verify_domain_v2_hash_first v2 domain (sk_verifying_key sk) s2 = Ok true /\
    sign_canonical sk v1 domain = Ok s1 /\
    verify_canonical (sk_verifying_key sk) v2 domain s1 = Ok true.
Proof.
  intros He E1 E2. pose proof (equiv_bytes _ _ _ _ He E1 E2) as <-.
  exists (sign_raw_v1 b1 domain sk), (sign_raw_v2_hash_first b1 domain sk).
  unfold sign_domain_v1, verify_domain_v1, sign_domain_v2_hash_first, verify_domain_v2_hash_first,
    sign_canonical, verify_canonical.
  apply to_nrf_bytes_ok in E1 as E1', E2 as E2'. rewrite E1', E2', E1, E2. cbn [map_err mbind result_bind].
  split_and!; try done; first [apply canon_signature|apply kms_signature].
Qed.

(** Domain separation.  Over the registered domains of both crates, the
    signed message determines its domain and its payload, so a signature
    made for one purpose signs no message of another. *)
Theorem domain_message_injective d1 d2 p1 p2 :
  d1 ∈ registered_domains -> d2 ∈ registered_domains ->
  domain_message d1 p1 = domain_message d2 p2 -> d1 = d2 /\ p1 = p2.
Proof.
  unfold domain_message. intros H1 H2 H.
  assert (d1 = d2) as ->.
  { destruct (common_prefix _ _ _ _ H) as [Hs|Hs]; [|symmetry]; by apply registered_prefix_free. }
  split; [done|]. by apply app_inv_head in H.
Qed.

(** [did:key] identifiers are faithful: in the compatible and in the
    strict form, the identifier of a public key parses back to that key. *)
Theorem did_roundtrip `{!Ed25519Laws ED EK, !Base58Laws B58} strict sk :
  verifying_key_from_did (did_from_verifying_key strict (sk_verifying_key sk)) = Ok (sk_verifying_key sk).
Proof.
  unfold verifying_key_from_did, verifying_key_from_did_strict, did_from_verifying_key,
    did_from_verifying_key_strict.
  destruct strict; rewrite strip_prefix_app; cbn [ok_or mbind result_bind]; rewrite bs58_roundtrip;
    cbn [ok_or mbind result_bind]; rewrite ?length_app, vk_length;
    cbn [Nat.eqb length negb Nat.add ED25519_PUB_MULTICODEC].
  - rewrite bool_decide_true by done. cbn [negb]. unfold vk_from_bytes. cbn. by rewrite !drop_0, vk_point.
  - unfold vk_from_bytes. by rewrite vk_point.
Qed.

(** Cosmetic variants share one budget.  Whatever variants of a body (in
    member order and null members) a client sends, at non-decreasing
    instants, every request is answered and at most [max_requests] are
    allowed in any window. *)
Theorem canon_limit_window c body0 first reqs :
  config_ok c -> json_wf body0 -> is_Some (from_chip_body body0) ->
  Forall (fun r => json_wf r.2 /\ json_equiv body0 r.2 /\ is_Some (from_chip_body r.2)) (first :: reqs) ->
  StronglySorted Z.le (first :: reqs).*1 ->
  exists l served, serve_bodies (limiter_new c) (first :: reqs) [] = Ok (l, served) /\
    forall t, Z.of_nat (length (in_window c t served)) <= max_requests c.
Proof.
  intros Hc W0 [fp Hfp] Hall Hs. pose proof (history_new c first.1 Hc) as Hh.
  assert (StronglySorted Z.le (first.1 :: (first :: reqs).*1)) as Hs'.
  { constructor; [done|]. constructor; [lia|]. by apply StronglySorted_inv in Hs as [_ ?]. }
  destruct (serve_total c (first :: reqs).*1 first.1 [] [] Hc Hh Hs') as (e & served & E).
  destruct (serve_history _ _ _ _ _ _ _ Hc Hh Hs' E) as (last & _ & _ & Hw).
  destruct (serve_bodies_serve c fp (first :: reqs) (limiter_new c) [] e served) as [l Hl]; [done| |done|by exists l, served].
  eapply Forall_impl; [exact Hall|]. intros [now body] (Wb & He & [fp' Hb]). cbn [snd] in *.
  by rewrite (fingerprint_equiv _ _ _ _ W0 Wb He Hfp Hb), Hb.
Qed.
End Facts.

(** ** Witnesses *)

Module CanonSample.

(** A scheme with a single key: enough for the laws. *)
#[local] Instance toy_ed : Ed25519 := {| ed25519_verify pk sig m := bool_decide (sig = pk ++ pk) |}.
#[local] Instance toy_keys : Ed25519Keys := {|
  sk_sign sk m := replicate 64 x07; sk_verifying_key sk := replicate 32 x07; vk_is_point _ := true;
|}.
#[local] Instance toy_ed_laws : Ed25519Laws toy_ed toy_keys.
Proof. by split. Qed.

(** Byte strings as text, one character per byte. *)
#[local] Instance raw64 : Base64 := {| base64_url := string_of_list_byte |}.
#[local] Instance raw64d : Base64Decode := {| base64_decode s := Some (list_byte_of_string s) |}.
#[local] Instance raw64_laws : Base64Laws raw64 raw64d.
Proof. split. intros b. apply (f_equal Some), list_byte_of_string_of_list_byte. Qed.
#[local] Instance raw58 : Base58 := {|
  bs58_encode := string_of_list_byte; bs58_decode s := Some (list_byte_of_string s) |}.
#[local] Instance raw58_laws : Base58Laws raw58.
Proof. split. intros b. apply (f_equal Some), list_byte_of_string_of_list_byte. Qed.

#[local] Existing Instance ascii_unicode.
#[local] Existing Instance zero_blake3.

Lemma sample_equiv : json_equiv sample_json1 sample_json2.
Proof. eapply equiv_object; [reflexivity|apply Permutation_swap|]. repeat constructor. Defined.

Lemma sign_verify_canonical_witness :
  exists s1 s2, sign_domain_v1 sample_json1 domains.RECEIPT [] = Ok s1 /\
    verify_domain_v1 sample_json2 domains.RECEIPT (sk_verifying_key []) s1 = Ok true /\
    sign_domain_v2_hash_first sample_json1 domains.RECEIPT [] = Ok s2 /\
    verify_domain_v2_hash_first sample_json2 domains.RECEIPT (sk_verifying_key []) s2 = Ok true /\
    sign_canonical [] sample_json1 domains.RECEIPT = Ok s1 /\
    verify_canonical (sk_verifying_key []) sample_json2 domains.RECEIPT s1 = Ok true.
Proof.
  apply (sign_verify_canonical sample_json1 sample_json2 sample_bytes sample_bytes domains.RECEIPT []);
    [exact sample_equiv|reflexivity..].
Defined.

Lemma domain_message_injective_witness :
  domains.RB_VM = kms_domain.RB_VM /\ [x01] = [x01].
Proof.
  apply (domain_message_injective domains.RB_VM kms_domain.RB_VM [x01] [x01]);
    [apply (bool_decide_unpack _); vm_compute; exact I..|reflexivity].
Defined.

Lemma did_roundtrip_witness :
  verifying_key_from_did (did_from_verifying_key true (sk_verifying_key [])) = Ok (sk_verifying_key []).
Proof. apply (did_roundtrip true []). Defined.

Lemma canon_limit_window_witness :
  exists l served,
    serve_bodies (limiter_new RateLimitSample.cfg) [(1, sample_json1); (2, sample_json2); (3, sample_json2)] []
      = Ok (l, served) /\
    forall t, Z.of_nat (length (in_window RateLimitSample.cfg t served)) <= 2.
Proof.
  assert (json_wf sample_json1 /\ json_wf sample_json2) as [W1 W2].
  { split; cbn; unfold str_wf, u64_max; repeat split; try reflexivity; try lia;
      apply (bool_decide_unpack _); vm_compute; exact I. }
  apply (canon_limit_window RateLimitSample.cfg sample_json1 (1, sample_json1)
           [(2, sample_json2); (3, sample_json2)] RateLimitSample.cfg_ok W1).
  - eexists. reflexivity.
  - repeat apply Forall_cons_2; try apply Forall_nil_2; cbn [snd];
      (split; [assumption|split; [first [exact sample_equiv|apply equiv_refl]|eexists; reflexivity]]).
  - cbn. repeat constructor; lia.
Defined.

End CanonSample.
