(* ===== verification/Idempotency.v ===== *)
(** * Idempotency keys and the in-memory store ([ubl_runtime::idempotency])

    The key a command chip is remembered under, its two textual forms, and the
    in-memory store.  The durable counterpart is in [Durable]. *)

From S2P Require Import Prelude RustStd Json Nrf.

(** ** Keys *)

Record IdempotencyKey : Type := mkKey { at_type : string; at_ver : string; at_world : string; at_id : string }.
#[export] Instance IdempotencyKey_eq_dec : EqDecision IdempotencyKey.
Proof. solve_decision. Defined.
#[export] Instance IdempotencyKey_countable : Countable IdempotencyKey.
Proof.
  refine (inj_countable' (fun k => (at_type k, at_ver k, at_world k, at_id k))
            (fun '(a, b, c, d) => mkKey a b c d) _). by intros [].
Defined.

Definition str_member (k : string) (body : json) : option string := get k body ≫= as_str.

Definition key_from_chip_body (body : json) : option IdempotencyKey :=
  at_type ← str_member "@type" body;
  at_ver ← str_member "@ver" body;
  at_world ← str_member "@world" body;
  at_id ← str_member "@id" body;
  if String.eqb at_type "" || String.eqb at_id "" then None
  else Some (mkKey at_type at_ver at_world at_id).

Definition to_string_key (k : IdempotencyKey) : string :=
  at_type k +:+ "|" +:+ at_ver k +:+ "|" +:+ at_world k +:+ "|" +:+ at_id k.

Definition to_durable_key `{Blake3} (k : IdempotencyKey) : string :=
  hex_encode (blake3 (as_bytes (to_string_key k))).

Definition key_display (k : IdempotencyKey) : string :=
  "(" +:+ at_type k +:+ ", " +:+ at_ver k +:+ ", " +:+ at_world k +:+ ", " +:+ at_id k +:+ ")".

(** ** The store *)

Record CachedResult : Type := mkCached {
  receipt_cid : string; response_json : json; cached_decision : string; cached_chain : list string;
  created_at : string;
}.

Definition IdempotencyStore : Type := gmap IdempotencyKey CachedResult.
Definition idem_new : IdempotencyStore := ∅.
Definition idem_get (s : IdempotencyStore) (k : IdempotencyKey) : option CachedResult := s !! k.
Definition idem_put (s : IdempotencyStore) (k : IdempotencyKey) (r : CachedResult) : IdempotencyStore := <[k := r]> s.
Definition idem_contains (s : IdempotencyStore) (k : IdempotencyKey) : bool := bool_decide (is_Some (s !! k)).
Definition idem_len (s : IdempotencyStore) : nat := size s.
Definition idem_is_empty (s : IdempotencyStore) : bool := (idem_len s =? 0)%nat.

(** [created_at] and the cutoff are compared as strings; [cutoff_str] is the
    cutoff instant in RFC 3339. *)
Definition prune_older_than (s : IdempotencyStore) (cutoff_str : string) : IdempotencyStore :=
  filter (fun kv => String.ltb cutoff_str (created_at kv.2) = true) s.

(** ** Facts *)

(** No separator in a field. *)
Fixpoint bar_free (s : string) : bool :=
  match s with EmptyString => true | String a s' => negb (Ascii.eqb a "|") && bar_free s' end.

Lemma field_inj s1 s2 r1 r2 :
  bar_free s1 = true -> bar_free s2 = true -> s1 +:+ "|" +:+ r1 = s2 +:+ "|" +:+ r2 -> s1 = s2 /\ r1 = r2.
Proof.
  revert s2. induction s1 as [|a s1 IH]; intros [|b s2] H1 H2 H; rewrite ?str_app_cons in H; cbn [bar_free] in *.
  - split; [done|]. change (String "|" r1 = String "|" r2) in H. by injection H.
  - change (String "|" r1 = String b (s2 +:+ "|" +:+ r2)) in H. injection H as <- _. done.
  - change (String a (s1 +:+ "|" +:+ r1) = String "|" r2) in H. injection H as -> _. done.
  - injection H as <- H. bool_to_prop. destruct (IH s2) as [-> ->]; done.
Qed.

(** The anchors of a body are determined by its key. *)
Lemma key_anchors body k :
  key_from_chip_body body = Some k ->
  str_member "@type" body = Some (at_type k) /\ str_member "@ver" body = Some (at_ver k) /\
  str_member "@world" body = Some (at_world k) /\ str_member "@id" body = Some (at_id k) /\
  at_type k <> ""%string /\ at_id k <> ""%string.
Proof.
  unfold key_from_chip_body.
  destruct (str_member "@type" body) as [t|]; [|done]. destruct (str_member "@ver" body) as [v|]; [|done].
  destruct (str_member "@world" body) as [w|]; [|done]. destruct (str_member "@id" body) as [i|]; [|done].
  cbn. destruct (String.eqb_spec t ""), (String.eqb_spec i ""); try done. by intros [= <-].
Qed.

(** ** Properties *)

(** The textual key identifies a command as long as no [|] occurs in its
    type, version and world: two such keys with the same text are equal, and
    two bodies with the same key have the same four anchors. *)
Theorem string_key_injective k1 k2 :
  bar_free (at_type k1) = true -> bar_free (at_ver k1) = true -> bar_free (at_world k1) = true ->
  bar_free (at_type k2) = true -> bar_free (at_ver k2) = true -> bar_free (at_world k2) = true ->
  to_string_key k1 = to_string_key k2 -> k1 = k2.
Proof.
  destruct k1, k2. unfold to_string_key. cbn. intros T1 V1 W1 T2 V2 W2 H.
  apply field_inj in H as [-> H]; [|done..]. apply field_inj in H as [-> H]; [|done..].
  by apply field_inj in H as [-> ->].
Qed.

(** Fields are joined without escaping, so there are distinct keys, both
    extracted from bodies, with one textual and one durable key: a chip can be
    answered with the receipt of another. *)
Theorem durable_key_collision `{Blake3} :
  exists b1 b2 k1 k2, key_from_chip_body b1 = Some k1 /\ key_from_chip_body b2 = Some k2 /\
    k1 <> k2 /\ to_durable_key k1 = to_durable_key k2.
Proof.
  exists (JObject [("@type", JString "t|1"); ("@ver", JString "2"); ("@world", JString "a/app/t/acme"); ("@id", JString "i")]),
    (JObject [("@type", JString "t"); ("@ver", JString "1|2"); ("@world", JString "a/app/t/acme"); ("@id", JString "i")]).
  by eexists _, _.
Qed.

Lemma string_key_injective_witness :
  mkKey "t" "1" "a/x" "i|j" = mkKey "t" "1" "a/x" "i|j".
Proof. apply (string_key_injective (mkKey "t" "1" "a/x" "i|j") (mkKey "t" "1" "a/x" "i|j")); reflexivity. Defined.
