(* ===== verification/Durable.v ===== *)
(** * The durable store and the outbox ([durable_store], [outbox_dispatcher])

    The SQLite boundary of [ubl_runtime]: the tables as a record, one
    definition per method, SQL statements as their effect on the tables.
    Methods that use a transaction work on a copy of the tables that replaces
    them on commit and is dropped on every early return.  Every statement can
    fail: [fails] tells which statements of a call do (a full disk, a lock
    timeout, ...).  Clock readings are arguments, in Unix seconds. *)

From S2P Require Import Prelude RustStd Json Nrf Idempotency.

(** ** Tables *)

Record receipt_row : Type := mkReceiptRow {
  r_body : string; r_created : Z; r_did : string; r_kid : string; r_rt_hash : string; r_decision : string;
}.
Record idem_row : Type := mkIdemRow { i_cid : string; i_response : string; i_chain : string; i_created : Z }.

Inductive outbox_status : Type := Pending | Inflight | Done | Dead.
#[export] Instance outbox_status_eq_dec : EqDecision outbox_status.
Proof. solve_decision. Defined.

Record outbox_row : Type := mkOutbox {
  o_id : Z; o_type : string; o_payload : string; o_status : outbox_status; o_attempts : Z; o_next : Z; o_created : Z;
}.

Record Db : Type := mkDb {
  receipts : gmap string receipt_row;
  idempotency : gmap string idem_row;
  outbox : list outbox_row;
  outbox_seq : Z;
  seen_nonces : gmap string (Z * Z);
  stage_secrets : option (string * option string * Z);
}.
Definition db_new : Db := mkDb ∅ ∅ [] 0 ∅ None.

(** ** Inputs, results, errors *)

Record NewOutboxEvent : Type := mkNewEvent { n_type : string; n_payload : json }.
Record OutboxEvent : Type := mkEvent { e_id : Z; e_type : string; e_payload : json; e_attempts : Z; e_next : Z }.

Record CommitInput : Type := mkCommit {
  c_receipt_cid : string; c_receipt_json : json; c_did : string; c_kid : string; c_rt_hash : string;
  c_decision : string; c_idem_key : option string; c_chain : list string; c_outbox : list NewOutboxEvent;
  c_created_at : Z; c_fail_after_receipt_write : bool;
}.

Inductive DurableError : Type :=
| Sqlite
| Serde
| IdempotencyConflict (key : string)
| DurableCommitFailed.

(** The statements of a call that can fail. *)
Inductive stmt : Type :=
| SOpen | SPragmas | SBegin | SInsertReceipt | SInsertIdem | SInsertOutbox (i : nat)
| SSelect | SUpdate (i : nat) | SDelete | SInsertNonce | SCommit.

(** [self.open_conn()?; self.apply_pragmas(&conn)?]. *)
Definition connect (fails : stmt -> bool) : result DurableError () :=
  if fails SOpen then Err Sqlite else if fails SPragmas then Err Sqlite else Ok ().

Definition guard (b : bool) (e : DurableError) : result DurableError () := if b then Err e else Ok ().

(** Run a call on a database: on error nothing is kept. *)
Definition in_tx {A} (db : Db) (m : result DurableError (A * Db)) : result DurableError A * Db :=
  match m with Ok (a, db') => (Ok a, db') | Err e => (Err e, db) end.

Section Durable.
Context {SJ : SerdeJson}.

(** *** Commit *)

(** [INSERT OR IGNORE]: nothing happens when the CID is stored already or the
    decision violates the column's [CHECK]. *)
Definition insert_receipt (db : Db) (input : CommitInput) : Db :=
  if bool_decide (is_Some (receipts db !! c_receipt_cid input)) then db
  else if String.eqb (c_decision input) "allow" || String.eqb (c_decision input) "deny" then
    mkDb (<[c_receipt_cid input :=
             mkReceiptRow (value_to_string (c_receipt_json input)) (c_created_at input) (c_did input) (c_kid input)
               (c_rt_hash input) (c_decision input)]> (receipts db))
      (idempotency db) (outbox db) (outbox_seq db) (seen_nonces db) (stage_secrets db)
  else db.

Definition chain_to_string (chain : list string) : string := value_to_string (JArray (JString <$> chain)).

Definition put_idempotent_in_tx (fails : stmt -> bool) (db : Db) (idem_key : string) (input : CommitInput)
    : result DurableError Db :=
  let response_json := value_to_string (c_receipt_json input) in
  let chain_json := chain_to_string (c_chain input) in
  if fails SInsertIdem then Err DurableCommitFailed
  else match idempotency db !! idem_key with
  | Some _ => Err (IdempotencyConflict idem_key)
  | None =>
      Ok (mkDb (receipts db)
            (<[idem_key := mkIdemRow (c_receipt_cid input) response_json chain_json (c_created_at input)]>
               (idempotency db))
            (outbox db) (outbox_seq db) (seen_nonces db) (stage_secrets db))
  end.

(** The row gets the next [AUTOINCREMENT] id. *)
Definition enqueue_outbox_in_tx (fails : stmt -> bool) (i : nat) (db : Db) (event : NewOutboxEvent) (created_at : Z)
    : result DurableError Db :=
  let payload := value_to_string (n_payload event) in
  if fails (SInsertOutbox i) then Err DurableCommitFailed
  else
    let id := outbox_seq db + 1 in
    Ok (mkDb (receipts db) (idempotency db)
          (outbox db ++ [mkOutbox id (n_type event) payload Pending 0 created_at created_at])
          id (seen_nonces db) (stage_secrets db)).

Fixpoint enqueue_all (fails : stmt -> bool) (i : nat) (db : Db) (events : list NewOutboxEvent) (created_at : Z)
    : result DurableError Db :=
  match events with
  | [] => Ok db
  | event :: rest =>
      db' ← enqueue_outbox_in_tx fails i db event created_at;
      enqueue_all fails (S i) db' rest created_at
  end.

Definition commit_wf_atomically (fails : stmt -> bool) (db : Db) (input : CommitInput)
    : result DurableError () * Db :=
  in_tx db (
    _ ← connect fails;
    _ ← guard (fails SBegin) DurableCommitFailed;
    _ ← guard (fails SInsertReceipt) DurableCommitFailed;
    let db1 := insert_receipt db input in
    _ ← guard (c_fail_after_receipt_write input) DurableCommitFailed;
    db2 ← match c_idem_key input with
          | Some k => put_idempotent_in_tx fails db1 k input
          | None => Ok db1
          end;
    db3 ← enqueue_all fails 0 db2 (c_outbox input) (c_created_at input);
    _ ← guard (fails SCommit) DurableCommitFailed;
    Ok ((), db3)).

(** *** Reads *)

(** [serde_json::from_str::<Value>] and [::<Vec<String>>]. *)
Definition from_str (s : string) : option json := from_slice (as_bytes s).
Definition strings_from_str (s : string) : option (list string) :=
  match from_str s with
  | Some (JArray l) => mapM as_str l
  | _ => None
  end.

(** [rfc3339]: the stored second as text, or the current time when it is out
    of [chrono]'s range. *)
Definition get_idempotent (rfc3339 : Z -> string) (fails : stmt -> bool) (db : Db) (idem_key : string)
    : result DurableError (option CachedResult) :=
  _ ← connect fails;
  _ ← guard (fails SSelect) Sqlite;
  match idempotency db !! idem_key with
  | None => Ok None
  | Some row =>
      response_json ← ok_or (from_str (i_response row)) Serde;
      chain ← ok_or (strings_from_str (i_chain row)) Serde;
      let decision := default "Allow"%string (get "decision" response_json ≫= as_str) in
      Ok (Some (mkCached (i_cid row) response_json decision chain (rfc3339 (i_created row))))
  end.

Definition get_receipt (fails : stmt -> bool) (db : Db) (cid : string) : result DurableError (option json) :=
  _ ← connect fails;
  _ ← guard (fails SSelect) Sqlite;
  match receipts db !! cid with
  | None => Ok None
  | Some row => receipt_json ← ok_or (from_str (r_body row)) Serde; Ok (Some receipt_json)
  end.

(** *** Outbox *)

Definition is_due (now : Z) (r : outbox_row) : bool := bool_decide (o_status r = Pending) && (o_next r <=? now).

(** [LIMIT ?2]: a negative limit is no limit. *)
Definition sql_limit {A} (limit : Z) (l : list A) : list A := if limit <? 0 then l else take (Z.to_nat limit) l.

Definition due_rows (now limit : Z) (rows : list outbox_row) : list outbox_row :=
  sql_limit (u64_as_i64 limit)
    (sort_by (fun a b => o_id a <=? o_id b) (List.filter (is_due now) rows)).

Definition event_of_row (r : outbox_row) : option OutboxEvent :=
  payload_json ← from_str (o_payload r);
  Some (mkEvent (o_id r) (o_type r) payload_json (o_attempts r) (o_next r)).

Definition set_rows (db : Db) (rows : list outbox_row) : Db :=
  mkDb (receipts db) (idempotency db) rows (outbox_seq db) (seen_nonces db) (stage_secrets db).

(** [UPDATE outbox SET ... WHERE id = ?]. *)
Definition update_row (id : Z) (f : outbox_row -> outbox_row) (db : Db) : Db :=
  set_rows db ((fun r => if o_id r =? id then f r else r) <$> outbox db).

Definition mark_inflight (r : outbox_row) : outbox_row :=
  mkOutbox (o_id r) (o_type r) (o_payload r) Inflight (o_attempts r + 1) (o_next r) (o_created r).
Definition mark_done (r : outbox_row) : outbox_row :=
  mkOutbox (o_id r) (o_type r) (o_payload r) Done (o_attempts r) (o_next r) (o_created r).
Definition mark_pending (next : Z) (r : outbox_row) : outbox_row :=
  mkOutbox (o_id r) (o_type r) (o_payload r) Pending (o_attempts r) next (o_created r).

Fixpoint claim_updates (fails : stmt -> bool) (i : nat) (db : Db) (events : list OutboxEvent) : result DurableError Db :=
  match events with
  | [] => Ok db
  | event :: rest =>
      if fails (SUpdate i) then Err Sqlite
      else claim_updates fails (S i) (update_row (e_id event) mark_inflight db) rest
  end.

Definition claim_outbox (fails : stmt -> bool) (db : Db) (now limit : Z)
    : result DurableError (list OutboxEvent) * Db :=
  in_tx db (
    _ ← connect fails;
    _ ← guard (fails SBegin) Sqlite;
    _ ← guard (fails SSelect) Sqlite;
    events ← ok_or (mapM event_of_row (due_rows now limit (outbox db))) Serde;
    db' ← claim_updates fails 0 db events;
    _ ← guard (fails SCommit) Sqlite;
    Ok (events, db')).

Definition ack_outbox (fails : stmt -> bool) (db : Db) (id : Z) : result DurableError () * Db :=
  in_tx db (
    _ ← connect fails;
    _ ← guard (fails (SUpdate 0)) Sqlite;
    Ok ((), update_row id mark_done db)).

Definition nack_outbox (fails : stmt -> bool) (db : Db) (id next_attempt_at : Z) : result DurableError () * Db :=
  in_tx db (
    _ ← connect fails;
    _ ← guard (fails (SUpdate 0)) Sqlite;
    Ok ((), update_row id (mark_pending next_attempt_at) db)).

Definition outbox_pending (fails : stmt -> bool) (db : Db) : result DurableError Z :=
  _ ← connect fails;
  _ ← guard (fails SSelect) Sqlite;
  Ok (Z.of_nat (length (List.filter (fun r => bool_decide (o_status r = Pending)) (outbox db)))).

(** *** Nonces and stage secrets *)

Definition set_nonces (db : Db) (n : gmap string (Z * Z)) : Db :=
  mkDb (receipts db) (idempotency db) (outbox db) (outbox_seq db) n (stage_secrets db).

Definition nonce_mark_if_new (fails : stmt -> bool) (db : Db) (now : Z) (nonce : string) (ttl_secs : Z)
    : result DurableError bool * Db :=
  in_tx db (
    _ ← connect fails;
    _ ← guard (fails SBegin) Sqlite;
    let expires_at := now + u64_as_i64 (Z.max ttl_secs 1) in
    _ ← guard (fails SDelete) Sqlite;
    let live := filter (fun kv => ~ kv.2.2 <= now) (seen_nonces db) in
    _ ← guard (fails SInsertNonce) Sqlite;
    let '(live', inserted) :=
      match live !! nonce with
      | Some _ => (live, false)
      | None => (<[nonce := (now, expires_at)]> live, true)
      end in
    _ ← guard (fails SCommit) Sqlite;
    Ok (inserted, set_nonces db live')).

Definition put_stage_secrets (fails : stmt -> bool) (db : Db) (now : Z) (current : string) (prev : option string)
    : result DurableError () * Db :=
  in_tx db (
    _ ← connect fails;
    _ ← guard (fails (SUpdate 0)) Sqlite;
    Ok ((), mkDb (receipts db) (idempotency db) (outbox db) (outbox_seq db) (seen_nonces db)
              (Some (current, prev, now)))).

Definition get_stage_secrets (fails : stmt -> bool) (db : Db) : result DurableError (option (string * option string)) :=
  _ ← connect fails;
  _ ← guard (fails SSelect) Sqlite;
  Ok (fst <$> stage_secrets db).

(** ** The dispatcher *)

Record OutboxDispatcher : Type := mkDispatcher { base_backoff_secs : Z; max_backoff_secs : Z }.
Definition dispatcher_new : OutboxDispatcher := mkDispatcher 2 300.
Definition with_backoff (base max : Z) : OutboxDispatcher :=
  let b := Z.max base 1 in mkDispatcher b (Z.max max b).

(** [attempts.saturating_add(1) as u32], then [2i64.saturating_pow(min 16)]. *)
Definition backoff (d : OutboxDispatcher) (attempts : Z) : Z :=
  let tries := i64_saturating_add attempts 1 mod 2 ^ 32 in
  let factor := saturate_i64 (2 ^ Z.min tries 16) in
  Z.min (i64_saturating_mul (base_backoff_secs d) factor) (max_backoff_secs d).

(** The loop over the claimed events.  [handler] is the delivery, [clock i]
    the reading for event [i], [fails i] the failures of its update. *)
Fixpoint dispatch (d : OutboxDispatcher) (handler : OutboxEvent -> bool) (clock : nat -> Z)
    (fails : nat -> stmt -> bool) (i : nat) (db : Db) (events : list OutboxEvent) (processed : nat)
    : result DurableError nat * Db :=
  match events with
  | [] => (Ok processed, db)
  | event :: rest =>
      let '(r, db') :=
        if handler event then ack_outbox (fails i) db (e_id event)
        else nack_outbox (fails i) db (e_id event) (i64_saturating_add (clock i) (backoff d (e_attempts event))) in
      match r with
      | Ok _ => dispatch d handler clock fails (S i) db' rest (S processed)
      | Err e => (Err e, db')
      end
  end.

Definition run_once (d : OutboxDispatcher) (handler : OutboxEvent -> bool) (clock : nat -> Z)
    (claim_fails : stmt -> bool) (fails : nat -> stmt -> bool) (db : Db) (now limit : Z)
    : result DurableError nat * Db :=
  match claim_outbox claim_fails db now limit with
  | (Ok events, db') => dispatch d handler clock fails 0 db' events 0
  | (Err e, db') => (Err e, db')
  end.
End Durable.
