(* ===== verification/DurableFacts.v ===== *)
(** * What the durable store guarantees

    Atomicity of the commit, permanence of idempotent results, the outbox as a
    state machine, the nonce guard, and the dispatcher. *)

From S2P Require Import Prelude RustStd Json Nrf Idempotency Durable.

(** ** Histories *)

Inductive op : Type :=
| OCommit (input : CommitInput)
| OClaim (now limit : Z)
| OAck (id : Z)
| ONack (id next : Z)
| ONonce (now : Z) (nonce : string) (ttl_secs : Z)
| OSecrets (now : Z) (current : string) (prev : option string).

(** No statement fails. *)
Definition healthy (s : stmt) : bool := false.

Lemma connect_healthy : connect healthy = Ok ().
Proof. reflexivity. Qed.

Lemma in_tx_cases {A} db (m : result DurableError (A * Db)) r db' :
  in_tx db m = (r, db') -> (exists e, r = Err e /\ db' = db) \/ (exists a, r = Ok a /\ m = Ok (a, db')).
Proof. destruct m as [[a d]|e]; intros [= <- <-]; eauto. Qed.

(** Invert a successful transaction down to its statements. *)
Ltac inv_tx :=
  repeat match goal with
  | H : (let _ := _ in _) = Ok _ |- _ => cbv zeta in H
  | H : (_ ≫= _) = Ok _ |- _ => apply result_bind_ok in H as (? & ? & H)
  | H : Ok _ = Ok _ |- _ => injection H as H; subst
  | H : Err _ = Ok _ |- _ => discriminate H
  | H : ok_or ?o _ = Ok _ |- _ => destruct o eqn:?; cbn [ok_or] in H
  | H : guard ?b _ = Ok _ |- _ => destruct b eqn:?; cbn [guard] in H
  end; simplify_eq.

(** ** Rows *)

(** What of a row never changes. *)
Definition row_data (r : outbox_row) : Z * string * string * Z := (o_id r, o_type r, o_payload r, o_created r).

Definition ids (db : Db) : list Z := o_id <$> outbox db.

(** Ids are assigned in ascending order and none is reused. *)
Definition db_wf (db : Db) : Prop :=
  0 <= outbox_seq db /\ StronglySorted Z.lt (ids db) /\ Forall (fun i => 0 < i <= outbox_seq db) (ids db).

(** The rows of [db] are a prefix of those of [db'], up to state. *)
Definition rows_kept (db db' : Db) : Prop := (row_data <$> outbox db) `prefix_of` (row_data <$> outbox db').

#[export] Instance rows_kept_preorder : PreOrder rows_kept.
Proof. unfold rows_kept. split; [intros ?; reflexivity|intros ? ? ?; apply transitivity]. Qed.

Lemma row_data_ids (rows : list outbox_row) : o_id <$> rows = (fun d => d.1.1.1) <$> (row_data <$> rows).
Proof. rewrite <- list_fmap_compose. by apply list_fmap_ext. Qed.

Lemma strongly_sorted_app {A} (R : A -> A -> Prop) l1 l2 :
  StronglySorted R l1 -> (forall a b, a ∈ l1 -> b ∈ l2 -> R a b) -> StronglySorted R l2 -> StronglySorted R (l1 ++ l2).
Proof.
  intros H1 Hc H2. induction H1 as [|x l1 Hl IH Hx]; cbn; [done|]. constructor.
  - apply IH. intros a b Ha. apply Hc. by right.
  - apply Forall_app. split; [done|]. apply Forall_forall. intros b. apply Hc. left.
Qed.

Section Facts.
Context {SJ : SerdeJson}.

Definition step (o : op) (fails : stmt -> bool) (db : Db) : Db :=
  match o with
  | OCommit input => (commit_wf_atomically fails db input).2
  | OClaim now limit => (claim_outbox fails db now limit).2
  | OAck id => (ack_outbox fails db id).2
  | ONack id next => (nack_outbox fails db id next).2
  | ONonce now nonce ttl => (nonce_mark_if_new fails db now nonce ttl).2
  | OSecrets now current prev => (put_stage_secrets fails db now current prev).2
  end.

(** A history: operations in order, each with its failures. *)
Definition run_ops (h : list (op * (stmt -> bool))) (db : Db) : Db :=
  foldl (fun db o => step o.1 o.2 db) db h.

Lemma run_ops_inv (R : Db -> Db -> Prop) `{!PreOrder R} (Pre : op -> Prop) :
  (forall o fails db, Pre o -> R db (step o fails db)) ->
  forall h db, Forall (fun o => Pre o.1) h -> R db (run_ops h db).
Proof.
  intros Hstep h. unfold run_ops. induction h as [|[o fails] h IH]; intros db Hh; cbn; [reflexivity|].
  inversion Hh; subst. etrans; [by apply Hstep|by apply IH].
Qed.

(** *** Each operation on the tables *)

Lemma enqueue_all_spec fails events : forall i db t db',
  enqueue_all fails i db events t = Ok db' ->
  receipts db' = receipts db /\ idempotency db' = idempotency db /\ seen_nonces db' = seen_nonces db /\
  stage_secrets db' = stage_secrets db /\
  outbox_seq db' = outbox_seq db + Z.of_nat (length events) /\
  outbox db' = outbox db ++ imap (fun j e =>
    mkOutbox (outbox_seq db + Z.of_nat j + 1) (n_type e) (value_to_string (n_payload e)) Pending 0 t t) events.
Proof.
  induction events as [|e events IH]; intros i db t db' H; cbn [enqueue_all] in H.
  { injection H as <-. cbn. split_and!; try done; [lia|by rewrite app_nil_r]. }
  apply result_bind_ok in H as (db1 & E1 & H). unfold enqueue_outbox_in_tx in E1.
  destruct (fails (SInsertOutbox i)); [done|]. injection E1 as <-. apply IH in H.
  cbn [receipts idempotency outbox outbox_seq seen_nonces stage_secrets] in H.
  destruct H as (-> & -> & -> & -> & -> & ->). cbn [length]. rewrite imap_cons, <- app_assoc. cbn [app].
  split_and!; try done; [lia|]. f_equal. f_equal; [f_equal; lia|].
  apply imap_ext. intros j x _. cbn. f_equal. lia.
Qed.

Lemma claim_updates_spec fails events : forall i db db',
  claim_updates fails i db events = Ok db' ->
  db' = set_rows db ((fun r => foldl (fun r e => if o_id r =? e_id e then mark_inflight r else r) r events) <$> outbox db).
Proof.
  induction events as [|e events IH]; intros i db db' H; cbn [claim_updates] in H.
  { injection H as <-. destruct db. unfold set_rows. cbn. f_equal. symmetry. apply list_fmap_id. }
  destruct (fails (SUpdate i)); [done|]. apply IH in H as ->. unfold update_row, set_rows. cbn. f_equal.
  rewrite <- list_fmap_compose. by apply list_fmap_ext.
Qed.

Lemma inflight_fold_data events r :
  row_data (foldl (fun r e => if o_id r =? e_id e then mark_inflight r else r) r events) = row_data r.
Proof.
  revert r. induction events as [|e events IH]; intros r; cbn; [done|]. rewrite IH. by case_match.
Qed.

(** Only the outbox changes, row by row. *)
Lemma claim_cases fails db now limit r db' :
  claim_outbox fails db now limit = (r, db') ->
  (exists e, r = Err e /\ db' = db) \/
  (exists events, r = Ok events /\ mapM event_of_row (due_rows now limit (outbox db)) = Some events /\
     db' = set_rows db ((fun r => foldl (fun r e => if o_id r =? e_id e then mark_inflight r else r) r events)
                          <$> outbox db)).
Proof.
  intros [?|(events & -> & H)]%in_tx_cases; [by left|]. right. exists events. inv_tx.
  split_and!; [done..|]. by eapply claim_updates_spec.
Qed.

Lemma update_row_kept id f db :
  (forall r, row_data (f r) = row_data r) ->
  row_data <$> outbox (update_row id f db) = row_data <$> outbox db.
Proof.
  intros Hf. unfold update_row, set_rows. cbn. rewrite <- list_fmap_compose. apply list_fmap_ext.
  intros i r _. cbn. case_match; [by rewrite Hf|done].
Qed.

Lemma commit_cases fails db input r db' :
  commit_wf_atomically fails db input = (r, db') ->
  (exists e, r = Err e /\ db' = db) \/
  (r = Ok () /\ exists db2, enqueue_all fails 0 db2 (c_outbox input) (c_created_at input) = Ok db' /\
     match c_idem_key input with
     | Some k => put_idempotent_in_tx fails (insert_receipt db input) k input = Ok db2
     | None => db2 = insert_receipt db input
     end).
Proof.
  intros [?|([] & -> & H)]%in_tx_cases; [by left|]. right. split; [done|].
  destruct (c_idem_key input); inv_tx; eauto.
Qed.

Lemma insert_receipt_frame db input :
  idempotency (insert_receipt db input) = idempotency db /\ outbox (insert_receipt db input) = outbox db /\
  outbox_seq (insert_receipt db input) = outbox_seq db /\
  seen_nonces (insert_receipt db input) = seen_nonces db /\
  stage_secrets (insert_receipt db input) = stage_secrets db.
Proof. unfold insert_receipt. by repeat case_match. Qed.

Lemma put_idempotent_cases fails db k input db' :
  put_idempotent_in_tx fails db k input = Ok db' ->
  idempotency db !! k = None /\ receipts db' = receipts db /\ outbox db' = outbox db /\
  outbox_seq db' = outbox_seq db /\ seen_nonces db' = seen_nonces db /\ stage_secrets db' = stage_secrets db /\
  idempotency db' = <[k := mkIdemRow (c_receipt_cid input) (value_to_string (c_receipt_json input))
                             (chain_to_string (c_chain input)) (c_created_at input)]> (idempotency db).
Proof.
  unfold put_idempotent_in_tx. destruct (fails SInsertIdem); [done|].
  destruct (idempotency db !! k) eqn:E; [done|]. by intros [= <-].
Qed.

(** *** What every operation keeps *)

(** A property of the outbox's unchanging part and the sequence. *)
Lemma step_outbox o fails db :
  let db' := step o fails db in
  (row_data <$> outbox db' = row_data <$> outbox db /\ outbox_seq db' = outbox_seq db) \/
  (exists input, o = OCommit input /\ outbox_seq db' = outbox_seq db + Z.of_nat (length (c_outbox input)) /\
     outbox db' = outbox db ++ imap (fun j e =>
       mkOutbox (outbox_seq db + Z.of_nat j + 1) (n_type e) (value_to_string (n_payload e)) Pending 0
         (c_created_at input) (c_created_at input)) (c_outbox input)).
Proof.
  destruct o as [input|now limit|id|id next|now nonce ttl|now cur prev]; cbn [step].
  - destruct (commit_wf_atomically fails db input) as [r db'] eqn:E.
    apply commit_cases in E as [(e & _ & ->)|(_ & db2 & E & H2)]; [by left|]. right. exists input.
    apply enqueue_all_spec in E as (_ & _ & _ & _ & Hseq & Hout). cbn.
    assert (outbox db2 = outbox db /\ outbox_seq db2 = outbox_seq db) as [Ho Hs].
    { destruct (insert_receipt_frame db input) as (_ & Ho & Hs & _).
      destruct (c_idem_key input); [|by subst db2; rewrite Ho, Hs].
      apply put_idempotent_cases in H2 as (_ & _ & -> & -> & _). done. }
    by rewrite Hseq, Hout, Ho, Hs.
  - left. destruct (claim_outbox fails db now limit) as [r db'] eqn:E.
    apply claim_cases in E as [(e & _ & ->)|(ev & _ & _ & ->)]; [done|]. cbn. split; [|done].
    rewrite <- list_fmap_compose. apply list_fmap_ext. intros i x _. apply inflight_fold_data.
  - left. destruct (ack_outbox fails db id) as [r db'] eqn:E.
    apply in_tx_cases in E as [(e & _ & ->)|(a & _ & H)]; [done|]. inv_tx. cbn -[update_row].
    split; [by apply update_row_kept|done].
  - left. destruct (nack_outbox fails db id next) as [r db'] eqn:E.
    apply in_tx_cases in E as [(e & _ & ->)|(a & _ & H)]; [done|]. inv_tx. cbn -[update_row].
    split; [by apply update_row_kept|done].
  - left. destruct (nonce_mark_if_new fails db now nonce ttl) as [r db'] eqn:E.
    apply in_tx_cases in E as [(e & _ & ->)|(a & _ & H)]; [done|]. inv_tx.
    destruct (filter _ _ !! nonce); inv_tx; done.
  - left. destruct (put_stage_secrets fails db now cur prev) as [r db'] eqn:E.
    apply in_tx_cases in E as [(e & _ & ->)|(a & _ & H)]; [done|]. by inv_tx.
Qed.

Lemma step_rows_kept o fails db : rows_kept db (step o fails db).
Proof.
  unfold rows_kept. destruct (step_outbox o fails db) as [[-> _]|(input & _ & _ & ->)]; [done|].
  rewrite fmap_app. apply prefix_app_r. done.
Qed.

Lemma step_wf o fails db : db_wf db -> db_wf (step o fails db).
Proof.
  intros (Hs & Hsort & Hall). unfold db_wf, ids in *.
  destruct (step_outbox o fails db) as [[Hd ->]|(input & _ & -> & ->)].
  { rewrite row_data_ids, Hd, <- row_data_ids. done. }
  match goal with |- context [imap ?f ?l] => set (new := o_id <$> imap f l) end. rewrite fmap_app. fold new.
  assert (forall i x, new !! i = Some x -> x = outbox_seq db + Z.of_nat i + 1 /\ (i < length (c_outbox input))%nat) as Hnew.
  { intros i x. unfold new. rewrite list_lookup_fmap, list_lookup_imap.
    destruct (c_outbox input !! i) eqn:Hl; [|done]. intros [= <-]. split; [done|]. by eapply lookup_lt_Some. }
  split_and!; [lia| |].
  - apply strongly_sorted_app; [done| |].
    + intros a b Ha [i Hi]%list_elem_of_lookup. rewrite Forall_forall in Hall. apply Hall in Ha.
      apply Hnew in Hi. lia.
    + clearbody new. clear -Hnew. assert (forall i j x y, new !! i = Some x -> new !! j = Some y -> (i < j)%nat -> x < y) as H.
      { intros i j x y Hi%Hnew Hj%Hnew. lia. }
      clear Hnew. induction new as [|x new IH]; [constructor|]. constructor.
      * apply IH. intros i j a b Hi Hj ?. by apply (H (S i) (S j)); [..|lia].
      * apply Forall_forall. intros y [j Hj]%list_elem_of_lookup. apply (H 0%nat (S j)); [done..|lia].
  - apply Forall_app. split.
    + eapply Forall_impl; [exact Hall|]. cbn. lia.
    + apply Forall_forall. intros x [i Hi]%list_elem_of_lookup. apply Hnew in Hi. lia.
Qed.

(** Stored idempotent results and receipts are never changed or removed. *)
Lemma step_records o fails db :
  idempotency db ⊆ idempotency (step o fails db) /\ receipts db ⊆ receipts (step o fails db).
Proof.
  destruct o as [input|now limit|id|id next|now nonce ttl|now cur prev]; cbn [step].
  - destruct (commit_wf_atomically fails db input) as [r db'] eqn:E.
    apply commit_cases in E as [(e & _ & ->)|(_ & db2 & E & H2)]; [done|].
    apply enqueue_all_spec in E as (Hr & Hi & _). cbn [snd]. rewrite Hr, Hi. clear Hr Hi db'.
    assert (receipts db ⊆ receipts (insert_receipt db input)) as Hr.
    { unfold insert_receipt. destruct (bool_decide_reflect (is_Some (receipts db !! c_receipt_cid input))) as [|Hn]; [done|].
      destruct (_ || _); [|done]. cbn. apply insert_subseteq. by apply eq_None_not_Some. }
    destruct (insert_receipt_frame db input) as (Hi & _).
    destruct (c_idem_key input) as [k|]; [|by subst; rewrite Hi].
    apply put_idempotent_cases in H2 as (Hk & -> & _ & _ & _ & _ & ->). rewrite Hi in *. split; [|done].
    by apply insert_subseteq.
  - destruct (claim_outbox fails db now limit) as [r db'] eqn:E.
    by apply claim_cases in E as [(e & _ & ->)|(ev & _ & _ & ->)].
  - destruct (ack_outbox fails db id) as [r db'] eqn:E.
    apply in_tx_cases in E as [(e & _ & ->)|(a & _ & H)]; [done|]. by inv_tx.
  - destruct (nack_outbox fails db id next) as [r db'] eqn:E.
    apply in_tx_cases in E as [(e & _ & ->)|(a & _ & H)]; [done|]. by inv_tx.
  - destruct (nonce_mark_if_new fails db now nonce ttl) as [r db'] eqn:E.
    apply in_tx_cases in E as [(e & _ & ->)|(a & _ & H)]; [done|]. inv_tx.
    by destruct (filter _ _ !! nonce); inv_tx.
  - destruct (put_stage_secrets fails db now cur prev) as [r db'] eqn:E.
    apply in_tx_cases in E as [(e & _ & ->)|(a & _ & H)]; [done|]. by inv_tx.
Qed.

Lemma run_idem h db : idempotency db ⊆ idempotency (run_ops h db).
Proof.
  unfold run_ops. revert db. induction h as [|[o f] h IH]; intros db; cbn; [done|].
  etrans; [apply (step_records o f db)|apply IH].
Qed.

(** *** Claims *)

Lemma due_rows_elem now limit rows r : r ∈ due_rows now limit rows -> r ∈ rows /\ is_due now r = true.
Proof.
  intros H. assert (r ∈ sort_by (fun a b => o_id a <=? o_id b) (List.filter (is_due now) rows)) as H'.
  { unfold due_rows, sql_limit in H. case_match; [done|].
    rewrite <- (take_drop (Z.to_nat (u64_as_i64 limit))). apply elem_of_app. by left. }
  rewrite sort_by_perm in H'. by apply list_elem_of_In, List.filter_In in H' as [?%list_elem_of_In ?].
Qed.

Lemma filter_ids_NoDup f (rows : list outbox_row) : NoDup (o_id <$> rows) -> NoDup (o_id <$> List.filter f rows).
Proof.
  induction rows as [|r rows IH]; cbn; [done|]. intros [Hr Hn]%NoDup_cons. destruct (f r); [|auto].
  cbn. apply NoDup_cons. split; [|auto]. intros (x & Hx & Hin)%list_elem_of_fmap. apply Hr.
  apply list_elem_of_In, List.filter_In in Hin as [?%list_elem_of_In _]. apply list_elem_of_fmap. eauto.
Qed.

Lemma due_rows_NoDup now limit rows : NoDup (o_id <$> rows) -> NoDup (o_id <$> due_rows now limit rows).
Proof.
  intros H. assert (NoDup (o_id <$> sort_by (fun a b => o_id a <=? o_id b) (List.filter (is_due now) rows))) as H'.
  { rewrite sort_by_perm. by apply filter_ids_NoDup. }
  unfold due_rows, sql_limit. case_match; [done|].
  rewrite fmap_take.
  rewrite <- (take_drop (Z.to_nat (u64_as_i64 limit))), NoDup_app in H'. naive_solver.
Qed.

Lemma events_of_rows rows events :
  mapM event_of_row rows = Some events ->
  e_id <$> events = o_id <$> rows /\ e_type <$> events = o_type <$> rows /\ e_attempts <$> events = o_attempts <$> rows /\
  Forall2 (fun r e => from_str (o_payload r) = Some (e_payload e)) rows events.
Proof.
  intros H%mapM_Some. induction H as [|r e rows events Hr Hrs (IH1 & IH2 & IH3 & IH4)]; [done|].
  unfold event_of_row in Hr. apply bind_Some in Hr as (j & Hj & [= <-]). cbn. rewrite IH1, IH2, IH3.
  split_and!; try done. by constructor.
Qed.

Lemma inflight_fold events r :
  NoDup (e_id <$> events) ->
  foldl (fun r e => if o_id r =? e_id e then mark_inflight r else r) r events =
  if bool_decide (o_id r ∈ e_id <$> events) then mark_inflight r else r.
Proof.
  revert r. induction events as [|e events IH]; intros r; cbn; [done|]. intros [He Hn]%NoDup_cons.
  destruct (Z.eqb_spec (o_id r) (e_id e)) as [Heq|Hne].
  - rewrite IH by done. cbn. rewrite (bool_decide_false (o_id r ∈ _)) by (rewrite Heq; done).
    rewrite (bool_decide_true (o_id r ∈ _ :: _)) by (rewrite Heq; left). done.
  - rewrite IH by done. rewrite (bool_decide_ext (o_id r ∈ _ :: _) (o_id r ∈ e_id <$> events)); [done|].
    rewrite elem_of_cons. naive_solver.
Qed.

Lemma wf_NoDup db : db_wf db -> NoDup (ids db).
Proof.
  intros (_ & H & _). induction H as [|x l Hl IH Hx]; [constructor|]. apply NoDup_cons. split; [|done].
  intros Hin. rewrite Forall_forall in Hx. apply Hx in Hin. lia.
Qed.

(** A successful claim marks exactly the rows it returns. *)
Lemma claim_spec fails db now limit events db' :
  db_wf db -> claim_outbox fails db now limit = (Ok events, db') ->
  mapM event_of_row (due_rows now limit (outbox db)) = Some events /\
  db' = set_rows db ((fun r => if bool_decide (o_id r ∈ e_id <$> events) then mark_inflight r else r) <$> outbox db).
Proof.
  intros Hwf E. apply claim_cases in E as [(e & ? & _)|(ev & [= <-] & Hm & ->)]; [done|]. split; [done|].
  f_equal. apply list_fmap_ext. intros i r _. apply inflight_fold.
  destruct (events_of_rows _ _ Hm) as [-> _]. by apply due_rows_NoDup, wf_NoDup.
Qed.

(** *** Nonces *)

(** Two operations in a row that keep a live entry. *)
Lemma step_nonce o fails db nonce t exp :
  match o with ONonce now _ _ => now < exp | _ => True end ->
  seen_nonces db !! nonce = Some (t, exp) -> seen_nonces (step o fails db) !! nonce = Some (t, exp).
Proof.
  destruct o as [input|now limit|id|id next|now nonce' ttl|now cur prev]; cbn [step]; intros Ho Hn.
  - destruct (commit_wf_atomically fails db input) as [r db'] eqn:E.
    apply commit_cases in E as [(e & _ & ->)|(_ & db2 & E & H2)]; [done|].
    apply enqueue_all_spec in E as (_ & _ & Hn' & _). cbn [snd]. rewrite Hn'.
    destruct (insert_receipt_frame db input) as (_ & _ & _ & Hs & _).
    destruct (c_idem_key input) as [k|]; [|by subst; rewrite Hs].
    apply put_idempotent_cases in H2 as (_ & _ & _ & _ & -> & _). by rewrite Hs.
  - destruct (claim_outbox fails db now limit) as [r db'] eqn:E.
    by apply claim_cases in E as [(e & _ & ->)|(ev & _ & _ & ->)].
  - destruct (ack_outbox fails db id) as [r db'] eqn:E.
    apply in_tx_cases in E as [(e & _ & ->)|(a & _ & H)]; [done|]. by inv_tx.
  - destruct (nack_outbox fails db id next) as [r db'] eqn:E.
    apply in_tx_cases in E as [(e & _ & ->)|(a & _ & H)]; [done|]. by inv_tx.
  - destruct (nonce_mark_if_new fails db now nonce' ttl) as [r db'] eqn:E.
    apply in_tx_cases in E as [(e & _ & ->)|(a & _ & H)]; [done|]. inv_tx.
    set (live := filter _ _) in H. assert (live !! nonce = Some (t, exp)) as Hl.
    { apply map_lookup_filter_Some_2; [done|]. cbn. lia. }
    destruct (live !! nonce') as [y|] eqn:E'; inv_tx; cbn; [done|].
    rewrite lookup_insert_ne; [done|]. intros <-. congruence.
  - destruct (put_stage_secrets fails db now cur prev) as [r db'] eqn:E.
    apply in_tx_cases in E as [(e & _ & ->)|(a & _ & H)]; [done|]. by inv_tx.
Qed.

(** ** Properties *)

(** What a successful commit has written: the receipt (kept as it was when
    the CID is known already), the idempotent result under a key that was
    free, and one pending outbox row per event with consecutive fresh ids. *)
Definition committed (db : Db) (input : CommitInput) (db' : Db) : Prop :=
  (forall cid, cid <> c_receipt_cid input -> receipts db' !! cid = receipts db !! cid) /\
  (receipts db ⊆ receipts db' /\
   (c_decision input ∈ ["allow"; "deny"]%string -> is_Some (receipts db' !! c_receipt_cid input))) /\
  match c_idem_key input with
  | Some k => idempotency db !! k = None /\
      idempotency db' = <[k := mkIdemRow (c_receipt_cid input) (value_to_string (c_receipt_json input))
                                 (chain_to_string (c_chain input)) (c_created_at input)]> (idempotency db)
  | None => idempotency db' = idempotency db
  end /\
  outbox db' = outbox db ++ imap (fun j e =>
    mkOutbox (outbox_seq db + Z.of_nat j + 1) (n_type e) (value_to_string (n_payload e)) Pending 0
      (c_created_at input) (c_created_at input)) (c_outbox input) /\
  seen_nonces db' = seen_nonces db /\ stage_secrets db' = stage_secrets db.

Lemma insert_receipt_spec db input :
  (forall cid, cid <> c_receipt_cid input -> receipts (insert_receipt db input) !! cid = receipts db !! cid) /\
  (c_decision input ∈ ["allow"; "deny"]%string -> is_Some (receipts (insert_receipt db input) !! c_receipt_cid input)).
Proof.
  unfold insert_receipt. destruct (bool_decide_reflect (is_Some (receipts db !! c_receipt_cid input))); [done|].
  destruct (String.eqb_spec (c_decision input) "allow"), (String.eqb_spec (c_decision input) "deny"); cbn [orb receipts];
    (split; [intros; by rewrite ?lookup_insert_ne by done|intros; rewrite ?lookup_insert_eq; try done]).
  set_solver.
Qed.

Lemma commit_ok_committed fails db input db' :
  commit_wf_atomically fails db input = (Ok (), db') -> committed db input db'.
Proof.
  intros E. pose proof (step_records (OCommit input) fails db) as [_ Hsub]. cbn [step] in Hsub. rewrite E in Hsub.
  apply commit_cases in E as [(e & ? & _)|(_ & db2 & E & H2)]; [done|].
  apply enqueue_all_spec in E as (Hr & Hi & Hn & Hs & Hq & Ho). cbn [snd] in Hsub.
  destruct (insert_receipt_frame db input) as (Fi & Fo & Fq & Fn & Fs), (insert_receipt_spec db input) as [R1 R2].
  unfold committed. rewrite Ho, Hn, Hs, Hi. rewrite Hr in *.
  destruct (c_idem_key input) as [k|].
  - apply put_idempotent_cases in H2 as (Hk & P1 & P2 & P3 & P4 & P5 & P6).
    rewrite P1, P2, P3, P4, P5, P6, Fi, Fo, Fq, Fn, Fs in *. split_and!; done.
  - subst db2. rewrite Fi, Fo, Fq, Fn, Fs in *. split_and!; done.
Qed.

Lemma enqueue_all_healthy events : forall i db t, exists db', enqueue_all healthy i db events t = Ok db'.
Proof. induction events as [|e events IH]; intros i db t; cbn; [by eexists|]. apply IH. Qed.

(** C17: The commit is atomic and conflict-aware.  Whatever statements fail, a
    commit that reports an error leaves the database as it was, and one that
    reports success has written the receipt, the idempotent result and all
    outbox events.  When nothing fails it succeeds exactly when the
    idempotency key is free, and otherwise reports the conflict. *)
Theorem commit_atomic fails db input :
  match commit_wf_atomically fails db input with
  | (Ok _, db') => committed db input db'
  | (Err _, db') => db' = db
  end /\
  (c_fail_after_receipt_write input = false ->
   (commit_wf_atomically healthy db input).1 =
   match c_idem_key input with
   | Some k => if bool_decide (is_Some (idempotency db !! k)) then Err (IdempotencyConflict k) else Ok ()
   | None => Ok ()
   end).
Proof.
  split.
  - destruct (commit_wf_atomically fails db input) as [[[]|e] db'] eqn:E; [by eapply commit_ok_committed|].
    by apply commit_cases in E as [(e' & _ & ->)|(? & _)].
  - intros Hf. unfold commit_wf_atomically. rewrite connect_healthy, Hf. cbn [guard healthy mbind result_bind].
    destruct (c_idem_key input) as [k|]; cbn [mbind result_bind].
    + unfold put_idempotent_in_tx. cbn [healthy]. destruct (insert_receipt_frame db input) as (-> & _).
      destruct (idempotency db !! k) eqn:Ek; cbn [mbind result_bind].
      * by rewrite bool_decide_true by eauto.
      * rewrite bool_decide_false by (by intros [? ?]).
        match goal with |- context [enqueue_all healthy 0 ?d ?ev ?t] => destruct (enqueue_all_healthy ev 0 d t) as [d' ->] end.
        done.
    + destruct (enqueue_all_healthy (c_outbox input) 0 (insert_receipt db input) (c_created_at input)) as [d' ->]. done.
Qed.

(** A committed result is looked up as it was written, as long as its row stays. *)
Lemma replay_row rfc3339 fails db input db' k db2 :
  commit_wf_atomically fails db input = (Ok (), db') -> c_idem_key input = Some k ->
  from_str (value_to_string (c_receipt_json input)) = Some (c_receipt_json input) ->
  from_str (chain_to_string (c_chain input)) = Some (JArray (JString <$> c_chain input)) ->
  idempotency db' ⊆ idempotency db2 ->
  get_idempotent rfc3339 healthy db2 k = Ok (Some (mkCached (c_receipt_cid input) (c_receipt_json input)
    (default "Allow"%string (get "decision" (c_receipt_json input) ≫= as_str)) (c_chain input) (rfc3339 (c_created_at input)))).
Proof.
  intros E Hk Hj Hc Hsub. apply commit_ok_committed in E as (_ & _ & Hi & _). rewrite Hk in Hi. destruct Hi as [_ Hi].
  assert (idempotency db2 !! k = idempotency db' !! k) as Hrow.
  { rewrite Hi, lookup_insert_eq. eapply lookup_weaken; [|exact Hsub]. by rewrite Hi, lookup_insert_eq. }
  unfold get_idempotent. rewrite connect_healthy, Hrow, Hi, lookup_insert_eq. cbn [guard healthy mbind result_bind].
  cbn [i_response i_chain i_cid i_created]. rewrite Hj. unfold strings_from_str. rewrite Hc. cbn [ok_or mbind result_bind].
  assert (mapM as_str (JString <$> c_chain input) = Some (c_chain input)) as ->; [|done].
  apply mapM_Some. clear. by induction (c_chain input); constructor.
Qed.

(** A committed result is what every later replay returns.  After a
    successful commit under an idempotency key and any sequence of further
    operations, with any failures, the lookup of that key returns the same
    receipt CID, receipt and chain (for values that the JSON writer and
    reader round-trip). *)
Theorem replay_durable rfc3339 fails db input db' k h :
  commit_wf_atomically fails db input = (Ok (), db') -> c_idem_key input = Some k ->
  from_str (value_to_string (c_receipt_json input)) = Some (c_receipt_json input) ->
  from_str (chain_to_string (c_chain input)) = Some (JArray (JString <$> c_chain input)) ->
  exists cached, get_idempotent rfc3339 healthy (run_ops h db') k = Ok (Some cached) /\
    receipt_cid cached = c_receipt_cid input /\ response_json cached = c_receipt_json input /\
    cached_chain cached = c_chain input.
Proof. intros E Hk Hj Hc. eexists. split; [by eapply replay_row; [..|apply run_idem]|done]. Qed.

(** Claims hand out each event once.  A successful claim returns the
    due pending events of lowest id, at most [limit] of them, with their
    payloads, and marks exactly these in flight; a claim that follows
    returns none of them again. *)
Theorem claim_once fails db now limit events db' :
  db_wf db -> claim_outbox fails db now limit = (Ok events, db') ->
  mapM event_of_row (due_rows now limit (outbox db)) = Some events /\
  outbox db' = ((fun r => if bool_decide (o_id r ∈ e_id <$> events) then mark_inflight r else r) <$> outbox db) /\
  (0 <= limit <= i64_max -> Z.of_nat (length events) <= limit) /\
  forall fails2 now2 limit2 events2 db2,
    claim_outbox fails2 db' now2 limit2 = (Ok events2, db2) -> forall i, i ∈ e_id <$> events -> i ∉ e_id <$> events2.
Proof.
  intros Hwf E. destruct (claim_spec _ _ _ _ _ _ Hwf E) as [Hm ->]. split_and!; [done..| |].
  - intros [Hl0 Hl]. destruct (events_of_rows _ _ Hm) as [Hid _]. apply (f_equal length) in Hid.
    rewrite !length_fmap in Hid. rewrite Hid. unfold due_rows, sql_limit, u64_as_i64.
    destruct (Z.leb_spec limit i64_max); [|lia]. destruct (Z.ltb_spec limit 0); [lia|]. rewrite length_take. lia.
  - intros fails2 now2 limit2 events2 db2 E2 i Hi Hi2.
    apply claim_cases in E2 as [(e & ? & _)|(ev & [= <-] & Hm2 & _)]; [done|].
    destruct (events_of_rows _ _ Hm2) as [Hid2 _]. rewrite Hid2 in Hi2.
    apply list_elem_of_fmap in Hi2 as (r & -> & Hr). apply due_rows_elem in Hr as [Hr Hd]. cbn in Hr.
    apply list_elem_of_fmap in Hr as (r0 & -> & Hr0).
    revert Hi Hd. destruct (bool_decide_reflect (o_id r0 ∈ e_id <$> events)) as [Hin|Hout]; 
      intros Hi Hd; [|by destruct Hout].
    unfold is_due in Hd. by rewrite bool_decide_false in Hd.
Qed.

(** Event [i] is in flight. *)
Definition inflight (i : Z) (db : Db) : Prop := exists r, r ∈ outbox db /\ o_id r = i /\ o_status r = Inflight.

Lemma update_row_inflight i id f db :
  (id <> i \/ forall r, o_status (f r) = Inflight) -> (forall r, o_id (f r) = o_id r) ->
  inflight i db -> inflight i (update_row id f db).
Proof.
  intros Hf Hid (r & Hr & Hi & Hs). eexists. split; [apply list_elem_of_fmap; eexists; split; [reflexivity|exact Hr]|].
  cbn. destruct (Z.eqb_spec (o_id r) id); [|done]. rewrite Hid. split; [done|]. destruct Hf; [lia|done].
Qed.

Lemma step_inflight i o fails db :
  match o with OAck id | ONack id _ => id <> i | _ => True end -> inflight i db -> inflight i (step o fails db).
Proof.
  destruct o as [input|now limit|id|id next|now nonce' ttl|now cur prev]; cbn [step]; intros Ho Hin.
  - destruct (commit_wf_atomically fails db input) as [r db'] eqn:E.
    apply commit_cases in E as [(e & _ & ->)|(_ & db2 & E & H2)]; [done|].
    apply enqueue_all_spec in E as (_ & _ & _ & _ & _ & Hout). destruct Hin as (x & Hx & Hi & Hs). exists x.
    split; [|done]. cbn [snd]. rewrite Hout. apply elem_of_app. left.
    destruct (insert_receipt_frame db input) as (_ & Fo & _).
    destruct (c_idem_key input); [|by subst; rewrite Fo].
    apply put_idempotent_cases in H2 as (_ & _ & -> & _). by rewrite Fo.
  - destruct (claim_outbox fails db now limit) as [r db'] eqn:E.
    apply claim_cases in E as [(e & _ & ->)|(ev & _ & _ & ->)]; [done|]. destruct Hin as (x & Hx & Hi & Hs).
    eexists. split; [apply list_elem_of_fmap; eexists; split; [reflexivity|exact Hx]|].
    cbn. clear Hx. revert x Hi Hs. induction ev as [|e ev IH]; intros x Hi Hs; cbn; [done|].
    apply IH; by case_match.
  - destruct (ack_outbox fails db id) as [r db'] eqn:E.
    apply in_tx_cases in E as [(e & _ & ->)|(a & _ & H)]; [done|]. inv_tx. apply update_row_inflight; auto.
  - destruct (nack_outbox fails db id next) as [r db'] eqn:E.
    apply in_tx_cases in E as [(e & _ & ->)|(a & _ & H)]; [done|]. inv_tx. apply update_row_inflight; auto.
  - destruct (nonce_mark_if_new fails db now nonce' ttl) as [r db'] eqn:E.
    apply in_tx_cases in E as [(e & _ & ->)|(a & _ & H)]; [done|]. inv_tx.
    by destruct (filter _ _ !! nonce'); inv_tx.
  - destruct (put_stage_secrets fails db now cur prev) as [r db'] eqn:E.
    apply in_tx_cases in E as [(e & _ & ->)|(a & _ & H)]; [done|]. by inv_tx.
Qed.

(** An event in flight is never retried by itself.  Once claimed, an
    event that is neither acknowledged nor rejected (its dispatcher crashed,
    or an update failed before its turn) stays in flight under every history,
    and no claim returns it: nothing puts it back. *)
Theorem inflight_stuck i h db :
  db_wf db -> inflight i db ->
  Forall (fun o => match o.1 with OAck id | ONack id _ => id <> i | _ => True end) h ->
  inflight i (run_ops h db) /\
  forall fails now limit events db', claim_outbox fails (run_ops h db) now limit = (Ok events, db') -> i ∉ e_id <$> events.
Proof.
  intros Hwf Hin Hh.
  assert (db_wf (run_ops h db) /\ inflight i (run_ops h db)) as [Hwf' Hin'].
  { revert db Hwf Hin. unfold run_ops. induction Hh as [|[o f] h Ho Hh IH]; intros db Hwf Hin; cbn; [done|].
    apply IH; [by apply step_wf|by apply step_inflight]. }
  split; [done|]. intros fails now limit events db' E Hev.
  destruct (claim_spec _ _ _ _ _ _ Hwf' E) as [Hm _]. destruct (events_of_rows _ _ Hm) as [Hid _].
  rewrite Hid in Hev. apply list_elem_of_fmap in Hev as (r & -> & Hr). apply due_rows_elem in Hr as [Hr Hd].
  destruct Hin' as (r' & Hr' & Hi & Hs). apply wf_NoDup in Hwf'. unfold ids in Hwf'.
  assert (r' = r) as ->.
  { apply list_elem_of_lookup in Hr as [n1 H1], Hr' as [n2 H2].
    assert (n2 = n1) as -> by (eapply (NoDup_lookup (o_id <$> outbox (run_ops h db)));
      [done|rewrite list_lookup_fmap, H2; reflexivity|rewrite list_lookup_fmap, H1; cbn; by rewrite Hi]).
    congruence. }
  unfold is_due in Hd. rewrite bool_decide_false in Hd by congruence. done.
Qed.

(** The nonce guard.  A call on a healthy store answers whether the nonce
    has no unexpired entry; and a nonce that was accepted with a lifetime is
    not accepted again before it expires, whatever operations happen in
    between and whatever fails, as long as no clock reading reaches the
    expiry. *)
Theorem nonce_once db db' fails t nonce ttl :
  nonce_mark_if_new fails db t nonce ttl = (Ok true, db') ->
  (forall db now ttl', (nonce_mark_if_new healthy db now nonce ttl').1 =
     Ok (match seen_nonces db !! nonce with Some (_, exp) => exp <=? now | None => true end)) /\
  forall h fails2 t2 ttl2,
    Forall (fun o => match o.1 with ONonce now _ _ => now < t + u64_as_i64 (Z.max ttl 1) | _ => True end) h ->
    t2 < t + u64_as_i64 (Z.max ttl 1) ->
    (nonce_mark_if_new fails2 (run_ops h db') t2 nonce ttl2).1 <> Ok true.
Proof.
  intros E. split.
  - clear. intros db now ttl. unfold nonce_mark_if_new. rewrite connect_healthy. cbn [guard healthy mbind result_bind].
    rewrite map_lookup_filter. destruct (seen_nonces db !! nonce) as [[t exp]|]; cbn; [|done].
    destruct (Z.leb_spec exp now); cbn.
    + rewrite option_guard_False by (cbn; lia). done.
    + rewrite option_guard_True by (cbn; lia). done.
  - intros h fails2 t2 ttl2 Hh Ht2 E2.
    assert (seen_nonces db' !! nonce = Some (t, t + u64_as_i64 (Z.max ttl 1))) as Hn.
    { apply in_tx_cases in E as [(e & ? & _)|(a & [= <-] & H)]; [done|]. inv_tx.
      destruct (filter _ _ !! nonce); inv_tx. apply lookup_insert_eq. }
    assert (seen_nonces (run_ops h db') !! nonce = Some (t, t + u64_as_i64 (Z.max ttl 1))) as Hn'.
    { clear -Hh Hn. revert db' Hn. unfold run_ops. induction Hh as [|[o f] h Ho Hh IH]; intros db' Hn; cbn; [done|].
      apply IH. by apply step_nonce. }
    destruct (nonce_mark_if_new fails2 (run_ops h db') t2 nonce ttl2) as [r2 db2] eqn:E3. cbn in E2. subst r2.
    apply in_tx_cases in E3 as [(e & ? & _)|(a & [= <-] & H)]; [done|]. inv_tx.
    rewrite map_lookup_filter, Hn' in H. cbn in H. rewrite option_guard_True in H by (cbn; lia). cbn in H. by inv_tx.
Qed.

(** *** The dispatcher *)

(** What becomes of a row in one round: untouched unless claimed; then done
    or, after a failed delivery, pending again with its next attempt. *)
Definition settled (d : OutboxDispatcher) (handler : OutboxEvent -> bool) (clock : nat -> Z) (i : nat)
    (events : list OutboxEvent) (r r' : outbox_row) : Prop :=
  row_data r' = row_data r /\ o_attempts r' = o_attempts r /\
  (o_id r ∉ e_id <$> events -> r' = r) /\
  forall j e, events !! j = Some e -> e_id e = o_id r ->
    if handler e then o_status r' = Done
    else o_status r' = Pending /\ o_next r' = i64_saturating_add (clock (i + j)%nat) (backoff d (e_attempts e)).

Lemma dispatch_settles d handler clock events : forall i db p,
  NoDup (e_id <$> events) ->
  exists db', dispatch d handler clock (fun _ => healthy) i db events p = (Ok (p + length events)%nat, db') /\
    Forall2 (settled d handler clock i events) (outbox db) (outbox db').
Proof.
  induction events as [|e events IH]; intros i db p Hnd; cbn [dispatch].
  { exists db. split; [by rewrite Nat.add_0_r|]. apply Forall_Forall2_diag, Forall_true. intros r.
    split_and!; [done..|]. intros j e'. by rewrite lookup_nil. }
  apply NoDup_cons in Hnd as [He Hnd].
  set (f := if handler e then mark_done
            else mark_pending (i64_saturating_add (clock i) (backoff d (e_attempts e)))).
  assert ((if handler e then ack_outbox healthy db (e_id e)
           else nack_outbox healthy db (e_id e) (i64_saturating_add (clock i) (backoff d (e_attempts e)))) =
          (Ok (), update_row (e_id e) f db)) as -> by (unfold f; by destruct (handler e)).
  destruct (IH (S i) (update_row (e_id e) f db) (S p) Hnd) as (db' & -> & HF). exists db'.
  split; [cbn [length]; f_equal; f_equal; lia|].
  unfold update_row in HF. cbn [outbox set_rows] in HF. rewrite Forall2_fmap_l in HF.
  eapply Forall2_impl; [exact HF|]. intros r r' (Hd & Ha & Hk & Hj). cbn beta in *.
  assert (forall r, row_data (f r) = row_data r /\ o_attempts (f r) = o_attempts r) as Hf
    by (intros ?; unfold f; by destruct (handler e)).
  destruct (Z.eqb_spec (o_id r) (e_id e)) as [Heq|Hne].
  - destruct (Hf r) as [Hf1 Hf2]. assert (r' = f r) as ->.
    { apply Hk. replace (o_id (f r)) with (o_id r); [by rewrite Heq|]. unfold row_data in Hf1. congruence. }
    split_and!; [done..| |].
    + intros Hnin. destruct Hnin. rewrite Heq. left.
    + intros [|j] e'; cbn [lookup list_lookup].
      * intros [= <-] _. rewrite Nat.add_0_r. unfold f. by destruct (handler e).
      * intros Hl Hid. destruct He. rewrite <- Heq, <- Hid. apply list_elem_of_fmap. exists e'.
        split; [done|]. apply list_elem_of_lookup. eauto.
  - split_and!; [done..| |].
    + intros Hnin. apply Hk. rewrite fmap_cons, elem_of_cons in Hnin. naive_solver.
    + intros [|j] e'; cbn [lookup list_lookup]; [intros [= <-]; lia|]. intros Hl Hid.
      replace (i + S j)%nat with (S i + j)%nat by lia. by apply (Hj j e').
Qed.

Lemma backoff_range base max attempts :
  max <= i64_max -> in_i64 base = true ->
  1 <= backoff (with_backoff base max) attempts <= Z.max max (Z.max base 1).
Proof.
  unfold backoff, with_backoff, in_i64. intros Hm Hb. bool_to_prop. cbn [base_backoff_secs max_backoff_secs].
  set (tries := i64_saturating_add attempts 1 mod 2 ^ 32).
  assert (0 <= tries) by (apply Z.mod_pos_bound; lia).
  assert (2 ^ 0 <= 2 ^ Z.min tries 16) by (apply Z.pow_le_mono_r; lia).
  assert (2 ^ Z.min tries 16 <= 2 ^ 16) by (apply Z.pow_le_mono_r; lia).
  rewrite (saturate_exact (2 ^ Z.min tries 16)) by (unfold in_i64, i64_min, i64_max; lia).
  unfold i64_saturating_mul, saturate_i64, i64_max, i64_min in *. nia.
Qed.

(** C40: A dispatch round settles its whole batch.  On a healthy store every
    claimed event ends the round delivered (done) or, when its handler
    failed, pending again after a back-off of at least one second and at
    most the configured maximum; its attempt is counted, every other row is
    as before, and the round reports the size of the batch. *)
Theorem run_once_settles base max handler clock db now limit events :
  db_wf db -> max <= i64_max -> in_i64 base = true ->
  mapM event_of_row (due_rows now limit (outbox db)) = Some events ->
  let d := with_backoff base max in
  exists db', run_once d handler clock healthy (fun _ => healthy) db now limit = (Ok (length events), db') /\
    Forall2 (fun r r' =>
      settled d handler clock 0 events
        (if bool_decide (o_id r ∈ e_id <$> events) then mark_inflight r else r) r') (outbox db) (outbox db') /\
    forall e, e ∈ events -> 1 <= backoff d (e_attempts e) <= Z.max max (Z.max base 1).
Proof.
  intros Hwf Hmax Hb Hm d. unfold run_once.
  assert (exists db1, claim_outbox healthy db now limit = (Ok events, db1)) as [db1 E].
  { unfold claim_outbox. rewrite connect_healthy, Hm. cbn [guard healthy mbind result_bind ok_or].
    assert (forall i db, exists db1, claim_updates healthy i db events = Ok db1) as Hc.
    { clear. induction events as [|e events IH]; intros i db; cbn; [by eexists|]. apply IH. }
    destruct (Hc 0%nat db) as [db1 ->]. by eexists. }
  rewrite E. destruct (claim_spec _ _ _ _ _ _ Hwf E) as [_ ->].
  destruct (dispatch_settles d handler clock events 0
              (set_rows db ((fun r => if bool_decide (o_id r ∈ e_id <$> events) then mark_inflight r else r) <$> outbox db)) 0)
    as (db' & -> & HF).
  { destruct (events_of_rows _ _ Hm) as [-> _]. by apply due_rows_NoDup, wf_NoDup. }
  exists db'. split; [done|]. split; [|intros; by apply backoff_range].
  cbn [outbox set_rows] in HF. by rewrite Forall2_fmap_l in HF.
Qed.

(** The outbox over any history.  Ids are unique and ascending in every
    reachable database, and a row once written is still there, with its id,
    type, payload and creation time, after any further operations. *)
Theorem outbox_history h1 h2 :
  db_wf (run_ops h1 db_new) /\ rows_kept (run_ops h1 db_new) (run_ops (h1 ++ h2) db_new).
Proof.
  split.
  - assert (db_wf db_new) as Hwf by (split_and!; [done|constructor..]).
    revert Hwf. generalize db_new. unfold run_ops. induction h1 as [|[o f] h IH]; intros db Hwf; cbn; [done|].
    by apply IH, step_wf.
  - unfold run_ops at 2. rewrite foldl_app. apply (run_ops_inv rows_kept (fun _ => True)).
    + intros. apply step_rows_kept.
    + by apply Forall_true.
Qed.
End Facts.

(** ** Witnesses *)

Module DurableSample.

Definition receipt1 : json := JObject [("decision"%string, JString "allow")].
Definition chain1 : list string := ["b3:wa"; "b3:tr"; "b3:wf"]%string.

(** Enough of a JSON writer and reader for two values. *)
#[local] Instance two_values : SerdeJson := {|
  from_slice bs := if bool_decide (bs = as_bytes "o") then Some receipt1 else Some (JArray (JString <$> chain1));
  to_vec v := as_bytes "o";
  value_to_string v := match v with JObject _ => "o" | _ => "a" end%string;
|}.

Definition commit1 : CommitInput :=
  mkCommit "b3:r" receipt1 "did" "kid" "rt" "allow" (Some "k"%string) chain1
    [mkNewEvent "emit_receipt" receipt1; mkNewEvent "emit_receipt" receipt1] 100 false.

Definition db1 : Db := (commit_wf_atomically healthy db_new commit1).2.
Definition events1 : list OutboxEvent := default [] (mapM event_of_row (due_rows 100 1 (outbox db1))).
Definition db2 : Db := (claim_outbox healthy db1 100 1).2.

Lemma db1_wf : db_wf db1.
Proof.
  unfold db_wf. replace (ids db1) with [1; 2] by reflexivity. replace (outbox_seq db1) with 2 by reflexivity.
  split_and!; [done|repeat constructor; lia|repeat constructor; lia].
Qed.
Lemma db2_wf : db_wf db2.
Proof.
  unfold db_wf. replace (ids db2) with [1; 2] by reflexivity. replace (outbox_seq db2) with 2 by reflexivity.
  split_and!; [done|repeat constructor; lia|repeat constructor; lia].
Qed.

Lemma replay_durable_witness :
  exists cached, get_idempotent (fun _ => ""%string) healthy (run_ops [(OCommit commit1, healthy)] db1) "k" = Ok (Some cached) /\
    receipt_cid cached = "b3:r"%string /\ response_json cached = receipt1 /\ cached_chain cached = chain1.
Proof.
  apply (replay_durable (fun _ => ""%string) healthy db_new commit1 db1 "k" [(OCommit commit1, healthy)]); reflexivity.
Defined.

Lemma claim_once_witness :
  mapM event_of_row (due_rows 100 1 (outbox db1)) = Some events1 /\
  outbox db2 = ((fun r => if bool_decide (o_id r ∈ e_id <$> events1) then mark_inflight r else r) <$> outbox db1) /\
  (0 <= 1 <= i64_max -> Z.of_nat (length events1) <= 1) /\
  forall fails2 now2 limit2 events2 db3,
    claim_outbox fails2 db2 now2 limit2 = (Ok events2, db3) -> forall i, i ∈ e_id <$> events1 -> i ∉ e_id <$> events2.
Proof. apply (claim_once healthy db1 100 1 events1 db2 db1_wf). vm_compute. reflexivity. Defined.

Lemma inflight_stuck_witness :
  inflight 1 (run_ops [(OAck 2, healthy)] db2) /\
  forall fails now limit events db',
    claim_outbox fails (run_ops [(OAck 2, healthy)] db2) now limit = (Ok events, db') -> 1 ∉ e_id <$> events.
Proof.
  apply (inflight_stuck 1 [(OAck 2, healthy)] db2 db2_wf).
  - eexists. split; [left|]. by vm_compute.
  - repeat constructor. cbn. lia.
Defined.

Definition db3 : Db := (nonce_mark_if_new healthy db_new 100 "n" 60).2.

Lemma nonce_once_witness :
  (nonce_mark_if_new healthy (run_ops [(ONonce 150 "m" 5, healthy)] db3) 159 "n" 60).1 <> Ok true.
Proof.
  apply (nonce_once db_new db3 healthy 100 "n" 60); [vm_compute; reflexivity| |vm_compute; reflexivity].
  repeat constructor.
Defined.

Lemma run_once_settles_witness :
  let d := with_backoff 2 300 in
  exists db', run_once d (fun _ => false) (fun _ => 101) healthy (fun _ => healthy) db1 100 1 = (Ok (length events1), db') /\
    Forall2 (fun r r' =>
      settled d (fun _ => false) (fun _ => 101) 0 events1
        (if bool_decide (o_id r ∈ e_id <$> events1) then mark_inflight r else r) r') (outbox db1) (outbox db') /\
    forall e, e ∈ events1 -> 1 <= backoff d (e_attempts e) <= Z.max 300 (Z.max 2 1).
Proof.
  apply (run_once_settles 2 300 (fun _ => false) (fun _ => 101) db1 100 1 events1 db1_wf);
    [by vm_compute|reflexivity|vm_compute; reflexivity].
Defined.

End DurableSample.
