(* ===== verification/NrfExact.v ===== *)
(** * What canonical bytes determine

    The converse of content determinism: two accepted JSON values with the
    same NRF-1 bytes differ only in the order of object members and in
    null-valued members.  With [NrfFacts.json_equiv_conv] this makes the
    canonical bytes of [ubl_nrf/src/nrf.rs] a complete invariant of that
    equivalence. *)

From S2P Require Import Prelude RustStd Json Nrf NrfFacts.

Section Exact.
Context {U : Unicode}.

(** An object member and the NRF member it converts to. *)
Definition conv_entry (a : string * json) (b : string * NrfValue) : Prop :=
  a.1 = b.1 /\ json_to_nrf a.2 = Ok b.2.

Definition nonnull (m : list (string * json)) : list (string * json) :=
  List.filter (fun kv => negb (is_null kv.2)) m.

Lemma conv_entry_insert a k y m0 bt :
  btree_contains_key k bt = false -> conv_entry a (k, y) -> Forall2 conv_entry m0 bt ->
  exists m1, m1 ≡ₚ a :: m0 /\ Forall2 conv_entry m1 (btree_insert k y bt).
Proof.
  intros Hk Ha HF. induction HF as [|b [k' y'] m0 bt Hb HF IH].
  - exists [a]. split; [done|]. by apply Forall2_cons.
  - unfold btree_contains_key in *. cbn [btree_get btree_insert] in *.
    destruct (String.eqb_spec k k') as [->|Hne]; [done|].
    destruct (String.compare k k') eqn:E.
    + by apply str_compare_Eq in E.
    + exists (a :: b :: m0). split; [done|]. by repeat apply Forall2_cons_2.
    + destruct (IH Hk) as (m1 & Hp & HF1). exists (b :: m1). split; [|by constructor].
      rewrite Hp. apply Permutation_swap.
Qed.

Lemma object_loop_entries p bt m bt' m0 :
  object_loop p bt m = Ok bt' -> Forall2 conv_entry m0 bt ->
  exists m1, m1 ≡ₚ m0 ++ nonnull m /\ Forall2 conv_entry m1 bt'.
Proof.
  revert bt m0. induction m as [|[k x] m IH]; intros bt m0.
  - intros [= <-] HF. exists m0. by rewrite app_nil_r.
  - rewrite object_loop_cons. intros H HF. unfold nonnull. cbn [List.filter snd].
    destruct (is_null x) eqn:Hx; cbn [negb]; inv_ok; [by eapply IH|].
    edestruct (conv_entry_insert (k, x) k) as (m1 & Hp & HF1); [eassumption| |exact HF|].
    { split; [done|]. by eapply conv_path. }
    destruct (IH _ _ H HF1) as (m2 & Hp2 & HF2). exists m2. split; [|done].
    rewrite Hp2, Hp. cbn. rewrite Permutation_middle. done.
Qed.

Lemma number_as_i64_inj a b i :
  number_wf a -> number_wf b -> number_as_i64 a = Some i -> number_as_i64 b = Some i -> a = b.
Proof.
  destruct a as [x|x|x], b as [y|y|y]; cbn; repeat case_match; intros Ha Hb; try done;
    intros [= <-] [= ?]; subst; try done; lia.
Qed.

Lemma conv_entries_equiv m1 m2 bt :
  Forall (fun a => forall v2 n, json_wf v2 -> json_to_nrf a.2 = Ok n -> json_to_nrf v2 = Ok n -> json_equiv a.2 v2) m1 ->
  Forall (fun b => json_wf b.2) m2 ->
  Forall2 conv_entry m1 bt -> Forall2 conv_entry m2 bt ->
  Forall2 (fun a b => a.1 = b.1 /\ json_equiv a.2 b.2) m1 m2.
Proof.
  intros IH Hw HF1. revert m2 Hw. induction HF1 as [|a c m1 bt [Hk Hc] HF1 IHF]; intros m2 Hw HF2.
  - inversion HF2. constructor.
  - inversion HF2 as [|b ? m2' ? [Hk2 Hc2] HF2']; subst. inversion IH; inversion Hw; subst.
    constructor; [|by apply IHF]. split; [congruence|]. eauto.
Qed.

Lemma nonnull_Forall (P : string * json -> Prop) m m' : m' ≡ₚ nonnull m -> Forall P m -> Forall P m'.
Proof.
  intros -> HF. rewrite Forall_forall in HF |- *. intros x Hx. apply HF.
  apply list_elem_of_In in Hx. apply List.filter_In in Hx as [Hx _]. by apply list_elem_of_In.
Qed.

(** The conversion identifies only equivalent values. *)
Lemma conv_equiv v1 v2 n :
  json_wf v1 -> json_wf v2 -> json_to_nrf v1 = Ok n -> json_to_nrf v2 = Ok n -> json_equiv v1 v2.
Proof.
  revert v2 n. induction v1 as [|b|x|s|l IH|m IH] using json_ind'; intros v2 n W1 W2 H1 H2.
  all: unfold json_to_nrf in H1, H2.
  5: { rewrite conv_array in H1. destruct v2 as [|b2|x2|s2|l2|m2].
       all: try (exfalso; cbn in H1, H2; inv_ok; done).
       rewrite conv_array in H2. apply result_bind_ok in H1 as (ys & E1%array_loop_Forall2 & [= <-]).
       apply result_bind_ok in H2 as (ys2 & E2%array_loop_Forall2 & [= ->]).
       apply json_wf_array in W1, W2. constructor. clear -IH E1 E2 W1 W2.
       revert l2 W2 E2. induction E1 as [|x y l ys Hx E1 IHl]; intros l2 W2 E2; [by inversion E2|].
       inversion E2; subst. inversion IH; inversion W1; inversion W2; subst. constructor; eauto. }
  5: { rewrite conv_object in H1. destruct v2 as [|b2|x2|s2|l2|m2].
       all: try (exfalso; cbn in H1, H2; inv_ok; done).
       rewrite conv_object in H2. apply result_bind_ok in H1 as (bt & E1 & [= <-]).
       apply result_bind_ok in H2 as (bt2 & E2 & [= ->]).
       destruct (object_loop_entries _ _ _ _ [] E1) as (m1' & Hp1 & F1); [constructor|].
       destruct (object_loop_entries _ _ _ _ [] E2) as (m2' & Hp2 & F2); [constructor|].
       apply json_wf_object in W1 as [_ W1], W2 as [_ W2]. cbn in Hp1, Hp2.
       apply (equiv_object m m1' m2 m2'); [by symmetry..|].
       eapply conv_entries_equiv; [| |exact F1|exact F2].
       - eapply nonnull_Forall; [exact Hp1|]. rewrite Forall_forall in IH, W1 |- *.
         intros a Ha v2 n Wv2. eapply IH; [done| |done]. by apply W1.
       - eapply nonnull_Forall; [exact Hp2|]. eapply Forall_impl; [exact W2|]. by intros ? [_ ?]. }
  all: destruct v2 as [|b2|x2|s2|l2|m2]; try (exfalso; cbn in H1, H2; inv_ok; done).
  - constructor.
  - cbn in H1, H2. injection H1 as <-. injection H2 as ->. constructor.
  - cbn in H1, H2. destruct (number_as_i64 x) eqn:E1, (number_as_i64 x2) eqn:E2; try done.
    assert (x = x2) as -> by (apply (number_as_i64_inj x x2 z); (done || congruence)). constructor.
  - cbn in H1, H2. assert (s = s2) as -> by (inv_ok; congruence). constructor.
Qed.
End Exact.

(** ** Properties *)

(** C5: Canonical bytes are a complete invariant: two accepted values have the
    same NRF-1 bytes exactly when they differ only in the order of object
    members and in null-valued members. *)
Theorem nrf1_bytes_exact {U : Unicode} v1 v2 b1 b2 :
  json_wf v1 -> json_fits v1 -> json_wf v2 -> json_fits v2 ->
  to_nrf1_bytes v1 = Ok b1 -> to_nrf1_bytes v2 = Ok b2 -> (b1 = b2 <-> json_equiv v1 v2).
Proof.
  unfold to_nrf1_bytes. rewrite !result_bind_ok.
  intros W1 F1 W2 F2 (n1 & E1 & [= <-]) (n2 & E2 & [= <-]). split.
  - intros Heq. apply (conv_equiv v1 v2 n1); try done.
    pose proof (decode_encode_wf n1 (conv_wf _ _ W1 F1 E1)) as D1.
    pose proof (decode_encode_wf n2 (conv_wf _ _ W2 F2 E2)) as D2.
    rewrite Heq in D1. congruence.
  - intros He. by rewrite (json_equiv_conv _ _ _ _ He E1 E2).
Qed.

Lemma nrf1_bytes_exact_witness :
  sample_bytes = sample_bytes <-> json_equiv sample_json1 sample_json2.
Proof.
  apply (@nrf1_bytes_exact ascii_unicode sample_json1 sample_json2); try reflexivity.
  all: cbn; unfold fits_u32, str_wf, u64_max; repeat split; try reflexivity; try lia.
  all: refine (bool_decide_unpack _ _); vm_compute; exact I.
Defined.

(** ** Deciding well-formedness

    Boolean forms of [json_wf] and [json_fits], for concrete values. *)

Definition number_wfb (n : number) : bool :=
  match n with
  | PosInt v => (0 <=? v) && (v <=? u64_max)
  | NegInt z => (i64_min <=? z) && (z <? 0)
  | Float b => (0 <=? b) && (b <=? u64_max)
  end.
Fixpoint json_wfb (v : json) : bool :=
  match v with
  | JNull | JBool _ => true
  | JNumber n => number_wfb n
  | JString s => utf8_valid (as_bytes s)
  | JArray l => forallb json_wfb l
  | JObject m =>
      bool_decide (NoDup m.*1) && forallb (fun kv => utf8_valid (as_bytes kv.1) && json_wfb kv.2) m
  end.
Definition fits_u32b {A} (l : list A) : bool := Z.of_nat (length l) <? 2 ^ 32.
Fixpoint json_fitsb (v : json) : bool :=
  match v with
  | JString s => fits_u32b (as_bytes s)
  | JArray l => fits_u32b l && forallb json_fitsb l
  | JObject m => fits_u32b m && forallb (fun kv => fits_u32b (as_bytes kv.1) && json_fitsb kv.2) m
  | _ => true
  end.

Lemma forallb_Forall_impl {A} (p : A -> bool) (P : A -> Prop) l :
  Forall (fun x => p x = true -> P x) l -> forallb p l = true -> Forall P l.
Proof. induction 1 as [|x l Hx _ IH]; cbn; [constructor|]. intros [? ?]%andb_prop. constructor; auto. Qed.

Lemma json_wfb_sound v : json_wfb v = true -> json_wf v.
Proof.
  induction v as [|b|n|s|l IH|m IH] using json_ind'; try done.
  - destruct n; cbn; intros H; bool_to_prop; lia.
  - intros H. apply json_wf_array. by eapply forallb_Forall_impl.
  - cbn [json_wfb]. intros [Hn Hm]%andb_prop. apply json_wf_object.
    split; [by apply bool_decide_eq_true in Hn|]. eapply forallb_Forall_impl; [|exact Hm].
    eapply Forall_impl; [exact IH|]. intros kv Hkv [? ?]%andb_prop. split; auto.
Qed.

Lemma json_fitsb_sound v : json_fitsb v = true -> json_fits v.
Proof.
  induction v as [|b|n|s|l IH|m IH] using json_ind'; try done.
  - cbn. unfold fits_u32b, fits_u32. intros H. by bool_to_prop.
  - cbn [json_fitsb]. intros [Hf H]%andb_prop. apply json_fits_array. unfold fits_u32b in Hf. bool_to_prop.
    split; [done|]. by eapply forallb_Forall_impl.
  - cbn [json_fitsb]. intros [Hf H]%andb_prop. apply json_fits_object. unfold fits_u32b in Hf. bool_to_prop.
    split; [done|]. eapply forallb_Forall_impl; [|exact H].
    eapply Forall_impl; [exact IH|]. intros kv Hkv [Hk ?]%andb_prop. unfold fits_u32b in Hk. bool_to_prop.
    split; auto.
Qed.
