(* ===== verification/Types.v ===== *)
(** * Leaf types ([ubl_types])

    Content identifiers, decentralized identifiers, key identifiers, nonces,
    chip types and worlds: one-field wrappers of a string with a checked and an
    unchecked constructor ([ubl_types/src/lib.rs]).  The constructor of each
    record is [new_unchecked], the projection is [as_str]. *)

From S2P Require Import Prelude RustStd RustStr.
From S2P Require Import Json Nrf NrfFacts Vm Canon.

(** ** Errors *)

Inductive TypeParseError : Type :=
| InvalidPrefix (expected got : string)
| InvalidFormat (kind expected got : string)
| InvalidChars (kind got : string)
| InvalidLength (kind : string) (expected got : nat)
| EmptyPart (what : string).

Definition type_parse_error_display (e : TypeParseError) : string :=
  match e with
  | InvalidPrefix expected got => "expected prefix '" +:+ expected +:+ "', got '" +:+ got +:+ "'"
  | InvalidFormat kind expected got =>
      "invalid " +:+ kind +:+ ": expected '" +:+ expected +:+ "', got '" +:+ got +:+ "'"
  | InvalidChars kind got => "invalid characters in " +:+ kind +:+ ": '" +:+ got +:+ "'"
  | InvalidLength kind expected got =>
      "invalid " +:+ kind +:+ " length: expected " +:+ u_to_string (Z.of_nat expected) +:+ ", got "
      +:+ u_to_string (Z.of_nat got)
  | EmptyPart kind => kind +:+ " cannot be empty"
  end.

(** ** Cid *)

Record TypedCid : Type := cid_new_unchecked { cid_as_str : string }.

Definition cid_new (s : string) : result TypeParseError TypedCid :=
  match strip_prefix "b3:" s with
  | None => Err (InvalidPrefix "b3:" s)
  | Some hex_part =>
      if is_empty hex_part then Err (EmptyPart "Cid hex part")
      else if negb (str_forallb is_ascii_hexdigit hex_part) then Err (InvalidChars "Cid" s)
      else Ok (cid_new_unchecked s)
  end.

(** ** Did *)

Record TypedDid : Type := did_new_unchecked { did_as_str : string }.

Definition did_new (s : string) : result TypeParseError TypedDid :=
  if negb (starts_with "did:" s) then Err (InvalidPrefix "did:" s)
  else
    match splitn 3 ":" s with
    | _ :: p1 :: p2 :: _ =>
        if is_empty p1 || is_empty p2 then Err (InvalidFormat "Did" "did:<method>:<id>" s)
        else Ok (did_new_unchecked s)
    | _ => Err (InvalidFormat "Did" "did:<method>:<id>" s)
    end.

Definition did_method (d : TypedDid) : string := default ""%string (split_on ":" (did_as_str d) !! 1%nat).

(** ** Kid *)

Record TypedKid : Type := kid_new_unchecked { kid_as_str : string }.

Definition kid_new (s : string) : result TypeParseError TypedKid :=
  if negb (contains_char "#" s) then Err (InvalidFormat "Kid" "<did>#<fragment>" s)
  else Ok (kid_new_unchecked s).

Definition did_part (k : TypedKid) : string := default ""%string (split_on "#" (kid_as_str k) !! 0%nat).
Definition fragment (k : TypedKid) : string := default ""%string (split_on "#" (kid_as_str k) !! 1%nat).

(** ** Nonce *)

Record TypedNonce : Type := nonce_new_unchecked { nonce_as_str : string }.

Definition nonce_new (s : string) : result TypeParseError TypedNonce :=
  if negb (String.length s =? 32)%nat then Err (InvalidLength "Nonce" 32 (String.length s))
  else if negb (str_forallb is_ascii_hexdigit s) then Err (InvalidChars "Nonce" s)
  else Ok (nonce_new_unchecked s).

(** ** ChipType *)

Record ChipType : Type := chip_type_new_unchecked { chip_type_as_str : string }.

Definition chip_type_new (s : string) : result TypeParseError ChipType :=
  if negb (contains_char "/" s) then Err (InvalidFormat "ChipType" "<namespace>/<name>" s)
  else Ok (chip_type_new_unchecked s).

Definition chip_namespace (c : ChipType) : string := default ""%string (split_on "/" (chip_type_as_str c) !! 0%nat).
Definition chip_name (c : ChipType) : string :=
  match split_once "/" (chip_type_as_str c) with Some (_, n) => n | None => ""%string end.

(** ** World *)

Record TypedWorld : Type := world_new_unchecked { world_as_str : string }.

Definition world_new (s : string) : result TypeParseError TypedWorld :=
  if negb (starts_with "a/" s) then Err (InvalidPrefix "a/" s) else Ok (world_new_unchecked s).

(** [app] slices the string from byte 2: [None] is the panic on a string of
    fewer bytes, or whose second byte is inside a character. *)
Definition slice_from_2 (s : string) : option string :=
  match s with
  | String _ (String _ EmptyString) => Some EmptyString
  | String _ (String _ (String c r)) => if is_cont (byte_of_ascii c) then None else Some (String c r)
  | _ => None
  end.
Definition world_app (w : TypedWorld) : option string :=
  after_a ← slice_from_2 (world_as_str w); Some (split_first "/t/" after_a).
Definition world_tenant (w : TypedWorld) : option string := split_second "/t/" (world_as_str w).

(** ** What the checked constructors accept *)

Lemma cid_new_ok s c :
  cid_new s = Ok c <->
  c = cid_new_unchecked s /\
  exists h, s = "b3:" +:+ h /\ h <> ""%string /\ str_forallb is_ascii_hexdigit h = true.
Proof.
  unfold cid_new. destruct (strip_prefix "b3:" s) as [h|] eqn:E.
  - apply strip_prefix_Some in E as ->. split.
    + destruct h as [|a h]; [done|]. cbn [is_empty]. destruct (str_forallb _ _) eqn:F; [|done].
      intros [= <-]. split; [done|]. by exists (String a h).
    + intros (-> & h' & Hs & Hn & Hf). apply str_app_inj_l in Hs as <-.
      destruct h as [|a h]; [done|]. cbn [is_empty]. by rewrite Hf.
  - split; [done|]. intros (-> & h & -> & _). by rewrite strip_prefix_app in E.
Qed.

Lemma did_new_ok s d :
  did_new s = Ok d <->
  d = did_new_unchecked s /\
  exists m i, s = "did:" +:+ m +:+ String ":" i /\ m <> ""%string /\ contains_char ":" m = false /\ i <> ""%string.
Proof.
  unfold did_new. destruct (starts_with "did:" s) eqn:E; cbn [negb].
  2: { split; [done|]. intros (_ & m & i & -> & _). by rewrite starts_with_app in E. }
  apply starts_with_Some in E as [r ->].
  assert (splitn 3 ":" ("did:" +:+ r) = "did"%string :: splitn 2 ":" r) as ->.
  { change ("did:" +:+ r) with ("did" +:+ String ":" r). cbn [splitn]. by rewrite split_once_app. }
  cbn [splitn]. destruct (split_once ":" r) as [[m i]|] eqn:E.
  - apply split_once_Some in E as [-> Hm]. split.
    + destruct m as [|a m]; [done|]. destruct i as [|b i]; [done|]. cbn [is_empty orb]. intros [= <-].
      split; [done|]. by exists (String a m), (String b i).
    + intros (-> & m' & i' & Hs & Hn & Hc & Hi). apply str_app_inj_l in Hs.
      pose proof (split_once_app ":" m i Hm) as E1. rewrite Hs, split_once_app in E1 by done.
      injection E1 as -> ->. destruct m; [done|]. by destruct i.
  - split; [done|]. intros (-> & m & i & Hs & _ & Hc & _). apply str_app_inj_l in Hs as ->.
    by rewrite split_once_app in E.
Qed.

Lemma slice_world r : (forall c r', r = String c r' -> is_cont (byte_of_ascii c) = false) ->
  slice_from_2 ("a/" +:+ r) = Some r.
Proof.
  intros H. destruct r as [|c r]; [done|]. change ("a/" +:+ String c r) with (String "a" (String "/" (String c r))).
  unfold slice_from_2. by rewrite (H _ _ eq_refl).
Qed.

(** A pattern that contains a character is not found where the character is
    not. *)
Lemma split_once_str_none c pat s :
  contains_char c pat = true -> contains_char c s = false -> split_once_str pat s = None.
Proof.
  intros Hp. induction s as [|a s IH]; intros Hs; cbn [split_once_str].
  - by destruct pat.
  - destruct (strip_prefix pat (String a s)) as [r|] eqn:E.
    + apply strip_prefix_Some in E. rewrite E, contains_char_app, Hp in Hs. done.
    + cbn in Hs. apply orb_false_elim in Hs as [_ Hs]. by rewrite IH.
Qed.

(** The text before a pattern's first occurrence, when it lacks the pattern's
    first character. *)
Lemma split_once_str_app c p l r :
  contains_char c l = false -> split_once_str (String c p) (l +:+ String c p +:+ r) = Some (l, r).
Proof.
  induction l as [|a l IH]; intros H.
  - rewrite str_app_nil_l. destruct (String c p +:+ r) eqn:E; [done|]. cbn [split_once_str].
    by rewrite <- E, strip_prefix_app.
  - cbn in H. apply orb_false_elim in H as [Ha H]. rewrite str_app_cons. cbn [split_once_str].
    assert (strip_prefix (String c p) (String a (l +:+ String c p +:+ r)) = None) as ->.
    { cbn. by rewrite Ascii.eqb_sym, Ha. }
    by rewrite IH.
Qed.

(** ** Properties *)

(** Slugs: what [a/<app>/t/<tenant>] puts between the separators. *)
Definition slug (s : string) : Prop :=
  contains_char "/" s = false /\ (forall c r, s = String c r -> is_cont (byte_of_ascii c) = false).

(** The computed identifiers are in the checked types: a CID computed from a
    JSON value passes [Cid::new], and sixteen random bytes in hexadecimal pass
    [Nonce::new], given that a digest has 32 bytes. *)
Theorem computed_ids_typed {U : Unicode} {HB3 : Blake3} v c rnd :
  (forall m, length (blake3 m) = 32%nat) ->
  cid_of v = Ok c -> length rnd = 16%nat ->
  cid_new c = Ok (cid_new_unchecked c) /\ nonce_new (hex_encode rnd) = Ok (nonce_new_unchecked (hex_encode rnd)).
Proof.
  unfold cid_of. intros Hb. rewrite result_bind_ok. intros (nrf & _ & [= <-]) Hl. split.
  - apply cid_new_ok. split; [done|]. eexists. split; [reflexivity|]. split; [|apply hex_encode_hexdigits].
    intros E. apply (f_equal String.length) in E. rewrite hex_encode_length, Hb in E. done.
  - unfold nonce_new. by rewrite hex_encode_length, Hl, hex_encode_hexdigits.
Qed.

(** The accessors of a world give back the slugs it was printed from, and the
    constructor accepts it. *)
Theorem world_slugs app tenant :
  slug app -> contains_char "/" tenant = false ->
  world_new ("a/" +:+ app +:+ "/t/" +:+ tenant) = Ok (world_new_unchecked ("a/" +:+ app +:+ "/t/" +:+ tenant)) /\
  world_app (world_new_unchecked ("a/" +:+ app +:+ "/t/" +:+ tenant)) = Some app /\
  (app <> "t"%string -> app <> ""%string -> world_tenant (world_new_unchecked ("a/" +:+ app +:+ "/t/" +:+ tenant)) = Some tenant).
Proof.
  intros [Hs Hc] Ht. split_and!.
  - unfold world_new. by rewrite starts_with_app.
  - unfold world_app. cbn [world_as_str]. rewrite slice_world.
    + cbn. unfold split_first. by rewrite (split_once_str_app "/" "t/" app tenant Hs).
    + intros c r. destruct app as [|a app]; [by intros [= <- <-]|].
      rewrite str_app_cons. intros [= <- <-]. by apply (Hc _ app).
  - intros Ha Hne. unfold world_tenant, split_second. cbn [world_as_str].
    assert (split_once_str "/t/" ("a/" +:+ app +:+ "/t/" +:+ tenant) = Some ("a/" +:+ app, tenant)) as ->.
    { change ("a/" +:+ app +:+ "/t/" +:+ tenant) with (String "a" (String "/" (app +:+ "/t/" +:+ tenant))).
      cbn [split_once_str].
      assert (strip_prefix "/t/" (String "/" (app +:+ "/t/" +:+ tenant)) = None) as ->.
      { destruct app as [|x [|y app]]; [done| |].
        - rewrite str_app_cons, str_app_nil_l. cbn [strip_prefix]. rewrite Ascii.eqb_refl. destruct (Ascii.eqb_spec "t" x) as [<-|]; [by destruct Ha|done].
        - rewrite !str_app_cons. cbn [strip_prefix]. rewrite Ascii.eqb_refl. destruct (Ascii.eqb "t" x); [|done].
          destruct (Ascii.eqb_spec "/" y) as [<-|]; [|done].
          cbn in Hs. apply orb_false_elim in Hs as [_ Hs]. done. }
      rewrite (split_once_str_app "/" "t/" app tenant Hs). done. }
    unfold split_first. by rewrite (split_once_str_none "/" "/t/" tenant eq_refl Ht).
Qed.

(** [Cid::new] does not enforce the documented lower case. *)
Lemma cid_new_accepts_upper : cid_new "b3:ABCDEF" = Ok (cid_new_unchecked "b3:ABCDEF").
Proof. reflexivity. Qed.
(** [World::new] accepts worlds that are not [a/<app>] or [a/<app>/t/<tenant>]. *)
Lemma world_new_accepts_any : world_new "a/" = Ok (world_new_unchecked "a/") /\
  world_new "a/x/y/z" = Ok (world_new_unchecked "a/x/y/z").
Proof. done. Qed.

Lemma computed_ids_typed_witness : exists c, @cid_of ascii_unicode zero_blake3 JNull = Ok c /\
  cid_new c = Ok (cid_new_unchecked c) /\
  nonce_new (hex_encode (replicate 16 x0a)) = Ok (nonce_new_unchecked (hex_encode (replicate 16 x0a))).
Proof.
  eexists. split; [reflexivity|].
  apply (@computed_ids_typed ascii_unicode zero_blake3 JNull); done.
Defined.
Lemma world_slugs_witness : world_app (world_new_unchecked "a/acme/t/prod") = Some "acme"%string.
Proof.
  apply (world_slugs "acme" "prod"); [split; [done|]|done]. by intros c r [= <- <-].
Defined.
