(* ===== verification/Receipt.v ===== *)
(** * Unified receipts ([ubl_receipt])

    The receipt that grows through the pipeline ([ubl_receipt/src/unified.rs]):
    its JSON form, the stage authentication chain (a keyed digest per stage
    over the receipt's CID so far), the recomputed CID, denial, and the final
    signature.  A method that mutates the receipt and may fail returns the
    receipt it leaves behind together with the result, because a failure does
    not undo the mutation.  Keyed BLAKE3, hexadecimal decoding and the
    environment are parameters. *)

From S2P Require Import Prelude RustStd RustStr Json Nrf NrfFacts Vm Policy Canon Types.

Local Open Scope string_scope.
Local Open Scope list_scope.
Local Open Scope Z_scope.

(** ** Libraries and environment *)

(** [blake3::Hasher::new_keyed(key)] updated with a message. *)
Class Blake3Keyed : Type := { blake3_keyed : bytes -> bytes -> bytes }.

(** [hex::decode]. *)
Class HexDecode : Type := { hex_decode : string -> option bytes }.

(** [std::env::var]. *)
Inductive VarError : Type := NotPresent | NotUnicode.
Definition Environment : Type := string -> result VarError string.

(** ** Data *)

Inductive PipelineStage : Type := Knock | WriteAhead | Check | Transition | WriteFinished.
#[export] Instance PipelineStage_eq_dec : EqDecision PipelineStage.
Proof. solve_decision. Defined.

Definition stage_as_str (s : PipelineStage) : string :=
  match s with
  | Knock => "KNOCK" | WriteAhead => "WA" | Check => "CHECK" | Transition => "TR" | WriteFinished => "WF"
  end.

(** [RbResult] and [PolicyTraceEntry] of the receipt crate. *)
Record TraceBit : Type := mkTraceBit {
  tb_rb_id : string; tb_decision : Decision; tb_reason : string; tb_inputs_used : list string; tb_duration_nanos : Z;
}.
Record PolicyTraceEntry : Type := mkTraceEntry {
  te_level : string; te_policy_id : string; te_result : Decision; te_reason : string;
  te_rb_results : list TraceBit; te_duration_ms : Z;
}.

Record StageExecution : Type := mkStage {
  stage : PipelineStage;
  timestamp : string;
  input_cid : string;
  output_cid : option string;
  fuel_used : option Z;
  policy_trace : list PolicyTraceEntry;
  vm_sig : option string;
  vm_sig_payload_cid : option string;
  auth_token : string;
  duration_ms : Z;
}.
Definition with_token (s : StageExecution) (t : string) : StageExecution :=
  mkStage (stage s) (timestamp s) (input_cid s) (output_cid s) (fuel_used s) (policy_trace s)
    (vm_sig s) (vm_sig_payload_cid s) t (duration_ms s).

(** [CryptoMode] of the receipt crate and its two string forms. *)
Definition crypto_mode_parse (raw : string) : result string CryptoMode :=
  if eq_ignore_ascii_case raw "compat_v1" then Ok CompatV1
  else if eq_ignore_ascii_case raw "hash_first_v2" then Ok HashFirstV2
  else Err raw.
Definition crypto_mode_as_str (m : CryptoMode) : string :=
  match m with CompatV1 => "compat_v1" | HashFirstV2 => "hash_first_v2" end.
Definition crypto_mode_from_env (env : Environment) : CryptoMode :=
  match env "UBL_CRYPTO_MODE" with
  | Ok v => match crypto_mode_parse v with Ok m => m | Err _ => CompatV1 end
  | Err _ => CompatV1
  end.

Inductive VerifyMode : Type := V1Only | V2Only | Dual.
Record VerifyReport : Type := mkReport { valid : bool; v1_valid : bool; v2_valid : bool }.

Record BuildMeta : Type := mkBuildMeta {
  rustc : string; os : string; arch : string; profile : string;
  git_commit : option string; git_dirty : option bool;
}.

Record RuntimeInfo : Type := mkRuntimeInfo {
  binary_hash : string;
  rt_runtime_hash : string;
  rt_version : string;
  build : BuildMeta;
  rt_env : list (string * string);
  certs : list (string * string);
}.

(** [build]: what [BuildMeta::capture] finds. *)
Definition runtime_info_new (build : BuildMeta) (binary_hash version : string) : RuntimeInfo :=
  mkRuntimeInfo binary_hash binary_hash version build [] [].
Definition with_env (rt : RuntimeInfo) (key value : string) : RuntimeInfo :=
  mkRuntimeInfo (binary_hash rt) (rt_runtime_hash rt) (rt_version rt) (build rt)
    (btree_insert key value (rt_env rt)) (certs rt).
Definition with_cert (rt : RuntimeInfo) (key value : string) : RuntimeInfo :=
  mkRuntimeInfo (binary_hash rt) (rt_runtime_hash rt) (rt_version rt) (build rt)
    (rt_env rt) (btree_insert key value (certs rt)).
Definition runtime_hash (rt : RuntimeInfo) : string :=
  if is_empty (rt_runtime_hash rt) then binary_hash rt else rt_runtime_hash rt.

Record UnifiedReceipt : Type := mkReceipt {
  receipt_type : string;
  rc_id : string;
  rc_ver : string;
  world : TypedWorld;
  rc_v : Z;
  rc_t : string;
  did : TypedDid;
  subject_did : option string;
  kid : TypedKid;
  nonce : TypedNonce;
  stages : list StageExecution;
  decision : Decision;
  effects : json;
  prev_receipt_cid : option TypedCid;
  receipt_cid : TypedCid;
  sig : string;
  knock_cid : option TypedCid;
  rt : option RuntimeInfo;
}.

(** ** JSON form (the derived [Serialize]) *)

Definition json_opt (o : option string) : json := match o with Some s => JString s | None => JNull end.
Definition json_decision (d : Decision) : json := JString (decision_debug d).

(** A member that [skip_serializing_if] leaves out. *)
Definition member_opt {A} (k : string) (f : A -> json) (o : option A) : list (string * json) :=
  match o with Some a => [(k, f a)] | None => [] end.
Definition member_list {A} (k : string) (f : list A -> json) (l : list A) : list (string * json) :=
  match l with [] => [] | _ => [(k, f l)] end.

Definition json_trace_bit (b : TraceBit) : json :=
  JObject [("rb_id", JString (tb_rb_id b)); ("decision", json_decision (tb_decision b));
           ("reason", JString (tb_reason b)); ("inputs_used", JArray (JString <$> tb_inputs_used b));
           ("duration_nanos", JNumber (PosInt (tb_duration_nanos b)))].
Definition json_trace_entry (e : PolicyTraceEntry) : json :=
  JObject [("level", JString (te_level e)); ("policy_id", JString (te_policy_id e));
           ("result", json_decision (te_result e)); ("reason", JString (te_reason e));
           ("rb_results", JArray (json_trace_bit <$> te_rb_results e));
           ("duration_ms", json_i64 (te_duration_ms e))].
Definition json_stage (s : StageExecution) : json :=
  JObject ([("stage", JString (stage_as_str (stage s))); ("timestamp", JString (timestamp s));
            ("input_cid", JString (input_cid s)); ("output_cid", json_opt (output_cid s))]
           ++ member_opt "fuel_used" (fun n => JNumber (PosInt n)) (fuel_used s)
           ++ member_list "policy_trace" (fun l => JArray (json_trace_entry <$> l)) (policy_trace s)
           ++ member_opt "vm_sig" JString (vm_sig s)
           ++ member_opt "vm_sig_payload_cid" JString (vm_sig_payload_cid s)
           ++ [("auth_token", JString (auth_token s)); ("duration_ms", json_i64 (duration_ms s))]).
Definition json_string_map (m : list (string * string)) : json :=
  JObject ((fun kv => (kv.1, JString kv.2)) <$> m).
Definition json_build (b : BuildMeta) : json :=
  JObject ([("rustc", JString (rustc b)); ("os", JString (os b)); ("arch", JString (arch b));
            ("profile", JString (profile b))]
           ++ member_opt "git_commit" JString (git_commit b)
           ++ member_opt "git_dirty" JBool (git_dirty b)).
Definition json_runtime (r : RuntimeInfo) : json :=
  JObject ([("binary_hash", JString (binary_hash r))]
           ++ (if is_empty (rt_runtime_hash r) then [] else [("runtime_hash", JString (rt_runtime_hash r))])
           ++ [("version", JString (rt_version r)); ("build", json_build (build r))]
           ++ member_list "env" json_string_map (rt_env r)
           ++ member_list "certs" json_string_map (certs r)).

(** [serde_json::to_value] of a receipt; it has no failing case. *)
Definition receipt_to_json (r : UnifiedReceipt) : json :=
  JObject ([("@type", JString (receipt_type r)); ("@id", JString (rc_id r)); ("@ver", JString (rc_ver r));
            ("@world", JString (world_as_str (world r))); ("v", JNumber (PosInt (rc_v r))); ("t", JString (rc_t r));
            ("did", JString (did_as_str (did r)))]
           ++ member_opt "subject_did" JString (subject_did r)
           ++ [("kid", JString (kid_as_str (kid r))); ("nonce", JString (nonce_as_str (nonce r)));
               ("stages", JArray (json_stage <$> stages r)); ("decision", json_decision (decision r));
               ("effects", effects r)]
           ++ member_opt "prev_receipt_cid" (fun c => JString (cid_as_str c)) (prev_receipt_cid r)
           ++ [("receipt_cid", JString (cid_as_str (receipt_cid r))); ("sig", JString (sig r))]
           ++ member_opt "knock_cid" (fun c => JString (cid_as_str c)) (knock_cid r)
           ++ member_opt "rt" json_runtime (rt r)).

(** ** Errors *)

Inductive secret_error : Type := SecretEmpty | SecretHex.

(** [AuthChainBroken]'s texts, as data. *)
Inductive chain_error : Type :=
| MissingSecret (var : string)
| InvalidSecret (var : string) (e : secret_error)
| UnreadableSecret (var : string)
| TokenMismatch.

Inductive signature_error : Type :=
| SigCanon (e : CanonError)
| SigKms (e : KmsError)
| SigEmpty.

Inductive ReceiptError : Type :=
| ReSerialization (what : string)
| InvalidStageOrder (what : string)
| AuthChainBroken (e : chain_error)
| ReSignature (e : signature_error).

(** ** Field updates *)

Definition set_ids (r : UnifiedReceipt) (i : string) (c : TypedCid) (s : string) : UnifiedReceipt :=
  mkReceipt (receipt_type r) i (rc_ver r) (world r) (rc_v r) (rc_t r) (did r) (subject_did r) (kid r) (nonce r)
    (stages r) (decision r) (effects r) (prev_receipt_cid r) c s (knock_cid r) (rt r).
Definition set_stages (r : UnifiedReceipt) (l : list StageExecution) : UnifiedReceipt :=
  mkReceipt (receipt_type r) (rc_id r) (rc_ver r) (world r) (rc_v r) (rc_t r) (did r) (subject_did r) (kid r) (nonce r)
    l (decision r) (effects r) (prev_receipt_cid r) (receipt_cid r) (sig r) (knock_cid r) (rt r).
Definition set_decision (r : UnifiedReceipt) (d : Decision) (e : json) : UnifiedReceipt :=
  mkReceipt (receipt_type r) (rc_id r) (rc_ver r) (world r) (rc_v r) (rc_t r) (did r) (subject_did r) (kid r) (nonce r)
    (stages r) d e (prev_receipt_cid r) (receipt_cid r) (sig r) (knock_cid r) (rt r).
Definition set_type (r : UnifiedReceipt) (ty : string) : UnifiedReceipt :=
  mkReceipt ty (rc_id r) (rc_ver r) (world r) (rc_v r) (rc_t r) (did r) (subject_did r) (kid r) (nonce r)
    (stages r) (decision r) (effects r) (prev_receipt_cid r) (receipt_cid r) (sig r) (knock_cid r) (rt r).
Definition set_authorship (r : UnifiedReceipt) (s : option string) (k : option TypedCid) (i : option RuntimeInfo)
    : UnifiedReceipt :=
  mkReceipt (receipt_type r) (rc_id r) (rc_ver r) (world r) (rc_v r) (rc_t r) (did r) s (kid r) (nonce r)
    (stages r) (decision r) (effects r) (prev_receipt_cid r) (receipt_cid r) (sig r) k i.

(** [now]: [chrono::Utc::now().to_rfc3339()]. *)
Definition receipt_new (now world did kid nonce : string) : UnifiedReceipt :=
  mkReceipt "ubl/receipt" "" "1.0" (world_new_unchecked world) 1 now (did_new_unchecked did) None
    (kid_new_unchecked kid) (nonce_new_unchecked nonce) [] Allow (JObject []) None
    (cid_new_unchecked "") "" None None.
Definition with_runtime_info (r : UnifiedReceipt) (i : RuntimeInfo) : UnifiedReceipt :=
  set_authorship r (subject_did r) (knock_cid r) (Some i).
Definition with_subject_did (r : UnifiedReceipt) (s : option string) : UnifiedReceipt :=
  set_authorship r s (knock_cid r) (rt r).
Definition with_knock_cid (r : UnifiedReceipt) (k : option string) : UnifiedReceipt :=
  set_authorship r (subject_did r) (cid_new_unchecked <$> k) (rt r).

Definition STAGE_SECRET_ENV : string := "UBL_STAGE_SECRET".
Definition STAGE_SECRET_PREV_ENV : string := "UBL_STAGE_SECRET_PREV".
Definition RECEIPT_DOMAIN_ENV : string := "UBL_SIGN_DOMAIN_RECEIPT".

Definition receipt_sign_domain (env : Environment) : string :=
  match env RECEIPT_DOMAIN_ENV with Ok d => d | Err _ => domains.RECEIPT end.

(** [obj.insert] on [effects] when it is an object. *)
Definition effects_insert (k : string) (x : json) (e : json) : json :=
  match e with JObject m => JObject (map_insert k x m) | _ => e end.

Definition stage_count (r : UnifiedReceipt) : nat := length (stages r).
Definition has_stage (r : UnifiedReceipt) (s : PipelineStage) : bool :=
  existsb (fun x => bool_decide (stage x = s)) (stages r).
Definition last_auth_token (r : UnifiedReceipt) : option string := auth_token <$> last (stages r).

(** ** Keys and tokens *)

Definition padded_key (key : bytes) : bytes :=
  let len := Nat.min (length key) 32 in
  take len key ++ replicate (32 - len) x00.

Definition key_from_secret_str `{HexDecode} (raw : string) : result secret_error bytes :=
  if is_empty raw then Err SecretEmpty
  else
    bytes ← match strip_prefix "hex:" raw with
            | Some hex_payload => ok_or (hex_decode hex_payload) SecretHex
            | None => Ok (as_bytes raw)
            end;
    Ok (padded_key bytes).

Definition compute_auth_token_with_key `{Blake3Keyed} (prev_cid stage_name : string) (key : bytes) : string :=
  "hmac:" +:+ hex_encode (take 16 (blake3_keyed key (as_bytes prev_cid ++ as_bytes "||" ++ as_bytes stage_name))).

(** ** Operations *)

Section Operations.
Context {U : Unicode} {HB3 : Blake3} {KB3 : Blake3Keyed} {HX : HexDecode}
  {ED : Ed25519} {EK : Ed25519Keys} {B64 : Base64} {B64D : Base64Decode} {B58 : Base58}.

Definition load_required_stage_secret_key (env : Environment) : result ReceiptError bytes :=
  raw ← map_err (fun _ => AuthChainBroken (MissingSecret STAGE_SECRET_ENV)) (env STAGE_SECRET_ENV);
  map_err (fun e => AuthChainBroken (InvalidSecret STAGE_SECRET_ENV e)) (key_from_secret_str raw).

Definition load_optional_stage_secret_key (env : Environment) (var_name : string)
    : result ReceiptError (option bytes) :=
  match env var_name with
  | Ok raw => map_err (fun e => AuthChainBroken (InvalidSecret var_name e)) (Some <$> key_from_secret_str raw)
  | Err NotPresent => Ok None
  | Err NotUnicode => Err (AuthChainBroken (UnreadableSecret var_name))
  end.

(** [Option::map(key_from_secret_str).transpose()]. *)
Definition optional_key (secret : option string) : result secret_error (option bytes) :=
  match secret with Some s => Some <$> key_from_secret_str s | None => Ok None end.

(** The state a failed recomputation leaves: signature, CID and id taken out
    and not put back. *)
Definition cleared (r : UnifiedReceipt) : UnifiedReceipt := set_ids r "" (cid_new_unchecked "") "".

Definition recompute_cid (r : UnifiedReceipt) : UnifiedReceipt * result ReceiptError unit :=
  match cid_of (receipt_to_json (cleared r)) with
  | Err e => (cleared r, Err (ReSignature (SigCanon e)))
  | Ok new_cid => (set_ids r new_cid (cid_new_unchecked new_cid) (sig r), Ok tt)
  end.

(** The text the next token is computed over. *)
Definition prev_cid_of (r : UnifiedReceipt) : string :=
  if is_empty (cid_as_str (receipt_cid r)) then "genesis" else cid_as_str (receipt_cid r).

Definition push_stage (r : UnifiedReceipt) (s : StageExecution) : UnifiedReceipt := set_stages r (stages r ++ [s]).

(** The receipt replay starts from. *)
Definition shadow_of (r : UnifiedReceipt) : UnifiedReceipt :=
  set_ids (set_stages r []) "" (cid_new_unchecked "") (sig r).

Definition token_matches (current_key : bytes) (previous_key : option bytes) (prev_cid : string)
    (s : StageExecution) : bool :=
  String.eqb (auth_token s) (compute_auth_token_with_key prev_cid (stage_as_str (stage s)) current_key)
  || match previous_key with
     | Some k => String.eqb (auth_token s) (compute_auth_token_with_key prev_cid (stage_as_str (stage s)) k)
     | None => false
     end.

Fixpoint verify_loop (current_key : bytes) (previous_key : option bytes) (shadow : UnifiedReceipt)
    (todo : list StageExecution) : result ReceiptError (option UnifiedReceipt) :=
  match todo with
  | [] => Ok (Some shadow)
  | s :: todo' =>
      if negb (token_matches current_key previous_key (prev_cid_of shadow) s) then Ok None
      else
        match recompute_cid (push_stage shadow s) with
        | (_, Err e) => Err e
        | (shadow', Ok _) => verify_loop current_key previous_key shadow' todo'
        end
  end.

Definition verify_auth_chain_with_keys (r : UnifiedReceipt) (current_key : bytes) (previous_key : option bytes)
    : result ReceiptError bool :=
  end_ ← verify_loop current_key previous_key (shadow_of r) (stages r);
  Ok (match end_ with
      | None => false
      | Some shadow => String.eqb (cid_as_str (receipt_cid shadow)) (cid_as_str (receipt_cid r))
      end).

Definition unwrap_or_false (m : result ReceiptError bool) : bool := match m with Ok b => b | Err _ => false end.

Definition verify_auth_chain_with_secrets (r : UnifiedReceipt) (current_secret : string)
    (previous_secret : option string) : bool :=
  match key_from_secret_str current_secret, optional_key previous_secret with
  | Ok current_key, Ok previous_key => unwrap_or_false (verify_auth_chain_with_keys r current_key previous_key)
  | _, _ => false
  end.

Definition verify_auth_chain (env : Environment) (r : UnifiedReceipt) : bool :=
  match load_required_stage_secret_key env, load_optional_stage_secret_key env STAGE_SECRET_PREV_ENV with
  | Ok current_key, Ok previous_key => unwrap_or_false (verify_auth_chain_with_keys r current_key previous_key)
  | _, _ => false
  end.

Definition append_stage_with_secrets (r : UnifiedReceipt) (current_secret : string)
    (previous_secret : option string) (s : StageExecution) : UnifiedReceipt * result ReceiptError unit :=
  match key_from_secret_str current_secret with
  | Err e => (r, Err (AuthChainBroken (InvalidSecret STAGE_SECRET_ENV e)))
  | Ok current_key =>
      let token := compute_auth_token_with_key (prev_cid_of r) (stage_as_str (stage s)) current_key in
      match recompute_cid (push_stage r (with_token s token)) with
      | (r', Err e) => (r', Err e)
      | (r', Ok _) =>
          match optional_key previous_secret with
          | Err e => (r', Err (AuthChainBroken (InvalidSecret STAGE_SECRET_PREV_ENV e)))
          | Ok previous_key =>
              match verify_auth_chain_with_keys r' current_key previous_key with
              | Err e => (r', Err e)
              | Ok false => (r', Err (AuthChainBroken TokenMismatch))
              | Ok true => (r', Ok tt)
              end
          end
      end
  end.

Definition append_stage (env : Environment) (r : UnifiedReceipt) (s : StageExecution)
    : UnifiedReceipt * result ReceiptError unit :=
  match env STAGE_SECRET_ENV with
  | Err _ => (r, Err (AuthChainBroken (MissingSecret STAGE_SECRET_ENV)))
  | Ok current =>
      let prev := match env STAGE_SECRET_PREV_ENV with Ok p => Some p | Err _ => None end in
      append_stage_with_secrets r current prev s
  end.

(** The stages with fresh tokens; [None] when a CID cannot be computed. *)
Fixpoint rebuild_loop (current_key : bytes) (shadow : UnifiedReceipt) (todo : list StageExecution)
    : option (list StageExecution) :=
  match todo with
  | [] => Some []
  | s :: todo' =>
      let s' := with_token s
        (compute_auth_token_with_key (prev_cid_of shadow) (stage_as_str (stage s)) current_key) in
      match recompute_cid (push_stage shadow s') with
      | (_, Err _) => None
      | (shadow', Ok _) =>
          match rebuild_loop current_key shadow' todo' with Some rest => Some (s' :: rest) | None => None end
      end
  end.

Definition rebuild_auth_chain_with_current_key (r : UnifiedReceipt) (current_secret : option string) : UnifiedReceipt :=
  match current_secret with
  | None => r
  | Some secret =>
      match key_from_secret_str secret with
      | Err _ => r
      | Ok current_key =>
          match stages r with
          | [] => r
          | _ =>
              match rebuild_loop current_key (shadow_of r) (stages r) with
              | None => r
              | Some rebuilt => set_stages r rebuilt
              end
          end
      end
  end.

Definition deny_with_secrets (r : UnifiedReceipt) (reason : string) (current_secret : option string) : UnifiedReceipt :=
  let r1 := set_decision r DenyD (effects_insert "deny_reason" (JString reason) (effects r)) in
  let r2 := rebuild_auth_chain_with_current_key r1 current_secret in
  let r3 := fst (recompute_cid r2) in
  set_ids r3 (cid_as_str (receipt_cid r3)) (receipt_cid r3) (sig r3).

Definition deny (env : Environment) (r : UnifiedReceipt) (reason : string) : UnifiedReceipt :=
  deny_with_secrets r reason (match env STAGE_SECRET_ENV with Ok s => Some s | Err _ => None end).

(** *** Signature *)

Definition set_sig (r : UnifiedReceipt) (s : string) : UnifiedReceipt := set_ids r (rc_id r) (receipt_cid r) s.

Definition signature_payload_value (r : UnifiedReceipt) : json := receipt_to_json (set_sig r "").

Definition finalize_and_sign (env : Environment) (r : UnifiedReceipt) (sk : bytes) (mode : CryptoMode)
    : UnifiedReceipt * result ReceiptError unit :=
  let payload := signature_payload_value r in
  let domain := receipt_sign_domain env in
  let signed := match mode with
                | CompatV1 => sign_domain_v1 payload domain sk
                | HashFirstV2 => sign_domain_v2_hash_first payload domain sk
                end in
  match signed with
  | Err e => (r, Err (ReSignature (SigCanon e)))
  | Ok s => (set_sig r s, Ok tt)
  end.

Definition receipt_verify_signature (env : Environment) (r : UnifiedReceipt) (mode : VerifyMode)
    : result ReceiptError VerifyReport :=
  if is_empty (sig r) then Err (ReSignature SigEmpty)
  else
    vk ← map_err (fun e => ReSignature (SigKms e)) (verifying_key_from_did (did_as_str (did r)));
    let payload := signature_payload_value r in
    let domain := receipt_sign_domain env in
    v1 ← map_err (fun e => ReSignature (SigCanon e)) (verify_domain_v1 payload domain vk (sig r));
    v2 ← map_err (fun e => ReSignature (SigCanon e)) (verify_domain_v2_hash_first payload domain vk (sig r));
    let valid := match mode with V1Only => v1 | V2Only => v2 | Dual => v1 || v2 end in
    Ok (mkReport valid v1 v2).
End Operations.
