(* ===== verification/ReceiptFacts.v ===== *)
(** * Facts about unified receipts

    The authentication chain verified by [verify_auth_chain_with_keys] meets a
    declarative description ([chain_valid]); appending, denying and signing
    preserve or re-establish it; the receipt's CID binds the whole stage
    list. *)

From S2P Require Import Prelude RustStd RustStr Json Nrf NrfFacts NrfExact Vm Policy Canon Types Receipt.

Local Open Scope string_scope.
Local Open Scope list_scope.
Local Open Scope Z_scope.

Section Chain.
Context {U : Unicode} {HB3 : Blake3} {KB3 : Blake3Keyed} {HX : HexDecode}.

(** ** The chain, declaratively *)

(** The CID of the receipt [r] when its stages are [l]: empty before the first
    stage. *)
Definition prefix_cid (r : UnifiedReceipt) (l : list StageExecution) : result CanonError string :=
  match l with
  | [] => Ok ""
  | _ => cid_of (receipt_to_json (cleared (set_stages r l)))
  end.

Definition genesis_or (c : string) : string := if is_empty c then "genesis" else c.

(** Each stage carries a token, under the current or the previous key, over
    the CID of the stages before it, and the receipt's CID is that of all of
    them. *)
Definition chain_valid (current_key : bytes) (previous_key : option bytes) (r : UnifiedReceipt) : Prop :=
  (forall i s, stages r !! i = Some s ->
     exists c, prefix_cid r (take i (stages r)) = Ok c /\
       token_matches current_key previous_key (genesis_or c) s = true) /\
  prefix_cid r (stages r) = Ok (cid_as_str (receipt_cid r)).

Lemma cid_nonempty v c : cid_of v = Ok c -> is_empty c = false.
Proof. unfold cid_of. rewrite result_bind_ok. by intros (? & _ & [= <-]). Qed.

Lemma cleared_set_ids r i c s : cleared (set_ids r i c s) = cleared r.
Proof. reflexivity. Qed.

(** The receipt after the stages [l]. *)
Definition at_stages (r : UnifiedReceipt) (l : list StageExecution) (c : string) : UnifiedReceipt :=
  set_ids (set_stages r l) c (cid_new_unchecked c) (sig r).

Lemma recompute_at r l s c :
  recompute_cid (push_stage (at_stages r l c) s) =
  match prefix_cid r (l ++ [s]) with
  | Ok c' => (at_stages r (l ++ [s]) c', Ok tt)
  | Err e => (cleared (push_stage (at_stages r l c) s), Err (ReSignature (SigCanon e)))
  end.
Proof.
  unfold recompute_cid.
  change (cleared (push_stage (at_stages r l c) s)) with (cleared (set_stages r (l ++ [s]))).
  assert (prefix_cid r (l ++ [s]) = cid_of (receipt_to_json (cleared (set_stages r (l ++ [s]))))) as ->.
  { unfold prefix_cid. by destruct l. }
  by destruct (cid_of _).
Qed.

Lemma prev_cid_at r l c : prev_cid_of (at_stages r l c) = genesis_or c.
Proof. reflexivity. Qed.

(** What a completed replay of [todo] after [l] means. *)
Lemma verify_loop_spec ck pk r todo l c sh :
  verify_loop ck pk (at_stages r l c) todo = Ok (Some sh) <->
  (forall i s, todo !! i = Some s ->
     exists c', (if (i =? 0)%nat then Ok c else prefix_cid r (l ++ take i todo)) = Ok c' /\
       token_matches ck pk (genesis_or c') s = true) /\
  exists cf, (match todo with [] => Ok c | _ => prefix_cid r (l ++ todo) end) = Ok cf /\
    sh = at_stages r (l ++ todo) cf.
Proof.
  revert l c. induction todo as [|s todo IH]; intros l c; cbn [verify_loop].
  - rewrite app_nil_r. split; [|by intros (_ & cf & [= <-] & ->)].
    intros [= <-]. split; [by intros i s Hi; rewrite lookup_nil in Hi|]. by exists c.
  - rewrite prev_cid_at. destruct (token_matches ck pk (genesis_or c) s) eqn:Ht; cbn [negb].
    2: { split; [done|]. intros [H _]. destruct (H 0%nat s eq_refl) as (c' & [= <-] & ?). congruence. }
    rewrite recompute_at. destruct (prefix_cid r (l ++ [s])) as [c1|e] eqn:E1.
    2: { split; [done|]. intros [H (cf & Hcf & _)]. destruct todo as [|s2 todo].
         - by rewrite E1 in Hcf.
         - destruct (H 1%nat s2 eq_refl) as (c' & Hc' & _). cbn in Hc'. by rewrite E1 in Hc'. }
    rewrite IH. rewrite <- !(assoc_L app). cbn [app]. split.
    + intros [H (cf & Hcf & ->)]. split.
      * intros [|i] s' Hi; [injection Hi as <-; eauto|]. cbn in Hi.
        destruct (H _ _ Hi) as (c' & Hc' & Hm). exists c'. split; [|done]. cbn [Nat.eqb firstn].
        destruct i as [|i]; cbn [Nat.eqb] in Hc' |- *; [rewrite ?firstn_cons, take_0 in *; congruence|].
        rewrite ?(firstn_cons (S i)) in *.
        by rewrite <- (assoc_L app) in Hc'.
      * exists cf. split; [|done]. destruct todo; [congruence|done].
    + intros [H (cf & Hcf & ->)]. split.
      * intros i s' Hi. destruct (H (S i) s' Hi) as (c' & Hc' & Hm). exists c'. split; [|done].
        destruct i as [|i]; cbn [Nat.eqb] in Hc' |- *; [rewrite ?firstn_cons, take_0 in *; congruence|].
        rewrite ?(firstn_cons (S i)) in *.
        by rewrite <- (assoc_L app).
      * exists cf. split; [|done]. destruct todo; [congruence|done].
Qed.

Lemma verify_chain_spec ck pk r :
  verify_auth_chain_with_keys r ck pk = Ok true <-> chain_valid ck pk r.
Proof.
  unfold verify_auth_chain_with_keys, chain_valid. rewrite result_bind_ok.
  change (shadow_of r) with (at_stages r [] ""). split.
  - intros ([sh|] & E & Heq); [|done]. injection Heq as Heq. apply verify_loop_spec in E as [H (cf & Hcf & ->)].
    apply String.eqb_eq in Heq. cbn [app] in *. split.
    + intros i s Hi. destruct (H i s Hi) as (c & Hc & Hm). exists c. split; [|done].
      destruct i as [|i]; [done|]. done.
    + destruct (stages r) as [|s l] eqn:El; cbn in *; congruence.
  - intros [H Hc]. exists (Some (at_stages r (stages r) (cid_as_str (receipt_cid r)))). split.
    + apply verify_loop_spec. split.
      * intros i s Hi. destruct (H i s Hi) as (c & Hcc & Hm). exists c. split; [|done].
        destruct i as [|i]; [done|]. done.
      * exists (cid_as_str (receipt_cid r)). split; [|done]. by destruct (stages r).
    + cbn. by rewrite String.eqb_refl.
Qed.

(** ** Appending *)

Lemma prefix_cid_at r l' c l : prefix_cid (at_stages r l' c) l = prefix_cid r l.
Proof. by destruct l. Qed.

Definition tokens_ok (ck : bytes) (pk : option bytes) (r : UnifiedReceipt) (l : list StageExecution) : Prop :=
  forall i s, l !! i = Some s ->
    exists c, prefix_cid r (take i l) = Ok c /\ token_matches ck pk (genesis_or c) s = true.

Lemma tokens_ok_snoc ck pk r l s c :
  tokens_ok ck pk r l -> prefix_cid r l = Ok c -> token_matches ck pk (genesis_or c) s = true ->
  tokens_ok ck pk r (l ++ [s]).
Proof.
  intros H Hc Hs i s' [Hi|[Hi [= <-]]]%lookup_snoc_Some.
  - destruct Hi as [Hlt Hi]. destruct (H i s' Hi) as (c' & ? & ?). exists c'. by rewrite take_app_le by lia.
  - subst i. exists c. by rewrite take_app_length.
Qed.

Lemma chain_valid_at ck pk r l c :
  chain_valid ck pk (at_stages r l c) <-> tokens_ok ck pk r l /\ prefix_cid r l = Ok c.
Proof.
  unfold chain_valid, tokens_ok. cbn [stages at_stages set_ids set_stages receipt_cid cid_as_str].
  rewrite prefix_cid_at. by setoid_rewrite prefix_cid_at.
Qed.

Lemma token_own ck pk p s : token_matches ck pk p
  (with_token s (compute_auth_token_with_key p (stage_as_str (stage s)) ck)) = true.
Proof. unfold token_matches. cbn [auth_token with_token stage]. by rewrite String.eqb_refl. Qed.

Lemma token_previous ck k p s : token_matches ck (Some k) p
  (with_token s (compute_auth_token_with_key p (stage_as_str (stage s)) k)) = true.
Proof. unfold token_matches. cbn [auth_token with_token stage]. by rewrite String.eqb_refl, orb_true_r. Qed.

(** A chain made under one key stays valid when this key becomes the previous one. *)
Lemma chain_valid_previous k kn r : chain_valid k None r -> chain_valid kn (Some k) r.
Proof.
  intros [Ht Hv]. split; [|done]. intros i x Hi. destruct (Ht i x Hi) as (c' & Hpc & Hm). exists c'. split; [done|].
  unfold token_matches in *. rewrite orb_false_r in Hm. by rewrite Hm, orb_true_r.
Qed.

(** The stage as it is stored: with the token for the receipt's current CID. *)
Definition stamped (ck : bytes) (r : UnifiedReceipt) (s : StageExecution) : StageExecution :=
  with_token s (compute_auth_token_with_key (prev_cid_of r) (stage_as_str (stage s)) ck).

Lemma recompute_push r s :
  recompute_cid (push_stage r s) =
  match prefix_cid r (stages r ++ [s]) with
  | Ok c => (at_stages r (stages r ++ [s]) c, Ok tt)
  | Err e => (cleared (push_stage r s), Err (ReSignature (SigCanon e)))
  end.
Proof.
  unfold recompute_cid. change (cleared (push_stage r s)) with (cleared (set_stages r (stages r ++ [s]))).
  assert (prefix_cid r (stages r ++ [s]) = cid_of (receipt_to_json (cleared (set_stages r (stages r ++ [s]))))) as ->.
  { unfold prefix_cid. by destruct (stages r). }
  by destruct (cid_of _).
Qed.

Lemma append_unfold r cur prev s ck pk :
  key_from_secret_str cur = Ok ck -> optional_key prev = Ok pk ->
  append_stage_with_secrets r cur prev s =
  match prefix_cid r (stages r ++ [stamped ck r s]) with
  | Err e => (cleared (push_stage r (stamped ck r s)), Err (ReSignature (SigCanon e)))
  | Ok c =>
      let r' := at_stages r (stages r ++ [stamped ck r s]) c in
      match verify_auth_chain_with_keys r' ck pk with
      | Err e => (r', Err e)
      | Ok false => (r', Err (AuthChainBroken TokenMismatch))
      | Ok true => (r', Ok tt)
      end
  end.
Proof.
  intros Hk Hp. unfold append_stage_with_secrets. rewrite Hk. fold (stamped ck r s). rewrite recompute_push.
  destruct (prefix_cid r _) as [c|e]; [|done]. by rewrite Hp.
Qed.

Lemma append_valid r cur prev s ck pk c :
  key_from_secret_str cur = Ok ck -> optional_key prev = Ok pk ->
  chain_valid ck pk r -> prefix_cid r (stages r ++ [stamped ck r s]) = Ok c ->
  append_stage_with_secrets r cur prev s = (at_stages r (stages r ++ [stamped ck r s]) c, Ok tt) /\
  chain_valid ck pk (at_stages r (stages r ++ [stamped ck r s]) c).
Proof.
  intros Hk Hp [Ht Hc] Hn. rewrite (append_unfold _ _ _ _ _ _ Hk Hp), Hn.
  assert (chain_valid ck pk (at_stages r (stages r ++ [stamped ck r s]) c)) as Hv.
  { apply chain_valid_at. split; [|done]. eapply tokens_ok_snoc; [done..|]. apply token_own. }
  split; [|done]. cbv zeta. by rewrite (proj2 (verify_chain_spec ck pk _) Hv).
Qed.

(** ** Denying *)

Lemma rebuild_loop_spec ck r todo l c rb :
  rebuild_loop ck (at_stages r l c) todo = Some rb ->
  tokens_ok ck None r l -> prefix_cid r l = Ok c ->
  tokens_ok ck None r (l ++ rb) /\ (exists cf, prefix_cid r (l ++ rb) = Ok cf) /\
  Forall2 (fun s s' => exists tok, s' = with_token s tok) todo rb.
Proof.
  revert l c rb. induction todo as [|s todo IH]; intros l c rb; cbn [rebuild_loop].
  - intros [= <-] Ht Hc. rewrite app_nil_r. split_and!; eauto.
  - rewrite prev_cid_at, recompute_at. set (s' := with_token s _).
    destruct (prefix_cid r (l ++ [s'])) as [c1|e] eqn:E; [|done].
    destruct (rebuild_loop ck (at_stages r (l ++ [s']) c1) todo) as [rest|] eqn:Er; [|done].
    intros [= <-] Ht Hc. apply IH in Er as (H1 & H2 & H3).
    + rewrite <- (assoc_L app) in H1, H2. split_and!; [done..|]. constructor; [|done]. by eexists.
    + eapply tokens_ok_snoc; [done..|]. apply token_own.
    + done.
Qed.

(** The receipt with its decision and effects changed by a denial. *)
Definition denied (r : UnifiedReceipt) (reason : string) : UnifiedReceipt :=
  set_decision r DenyD (effects_insert "deny_reason" (JString reason) (effects r)).

Lemma at_stages_ids r l c : set_ids (at_stages r l c) c (cid_new_unchecked c) (sig r) = at_stages r l c.
Proof. reflexivity. Qed.

Lemma recompute_stages r l :
  l <> [] -> recompute_cid (set_stages r l) =
  match prefix_cid r l with
  | Ok c => (at_stages r l c, Ok tt)
  | Err e => (cleared (set_stages r l), Err (ReSignature (SigCanon e)))
  end.
Proof. intros Hl. unfold recompute_cid, prefix_cid. destruct l; [done|]. by destruct (cid_of _). Qed.

Lemma deny_valid r reason secret ck rb :
  key_from_secret_str secret = Ok ck -> stages r <> [] ->
  rebuild_loop ck (shadow_of (denied r reason)) (stages r) = Some rb ->
  let d := deny_with_secrets r reason (Some secret) in
  decision d = DenyD /\ stages d = rb /\ chain_valid ck None d /\ rc_id d = cid_as_str (receipt_cid d) /\
  Forall2 (fun s s' => exists tok, s' = with_token s tok) (stages r) rb.
Proof.
  intros Hk Hs Hr. unfold deny_with_secrets. fold (denied r reason).
  unfold rebuild_auth_chain_with_current_key. rewrite Hk.
  change (stages (denied r reason)) with (stages r). rewrite Hr.
  change (shadow_of (denied r reason)) with (at_stages (denied r reason) [] "") in Hr.
  apply rebuild_loop_spec in Hr as (Ht & (cf & Hcf) & HF); [|by intros i s Hi; rewrite lookup_nil in Hi|done].
  cbn [app] in Ht, Hcf. destruct (stages r) as [|s l] eqn:El; [done|].
  assert (rb <> []) as Hrb by (by inversion HF). rewrite recompute_stages, Hcf by done.
  cbn [fst]. by split_and!.
Qed.

(** A denial before the first stage leaves a CID the replay cannot reach. *)
Lemma deny_empty_invalid r reason secret ck pk c :
  stages r = [] -> cid_of (receipt_to_json (cleared (denied r reason))) = Ok c ->
  verify_auth_chain_with_keys (deny_with_secrets r reason secret) ck pk = Ok false.
Proof.
  intros Hs Hc. unfold deny_with_secrets. fold (denied r reason).
  assert (rebuild_auth_chain_with_current_key (denied r reason) secret = denied r reason) as ->.
  { unfold rebuild_auth_chain_with_current_key. destruct secret as [x|]; [|done].
    destruct (key_from_secret_str x); [|done]. cbn [stages denied set_decision]. by rewrite Hs. }
  unfold recompute_cid. rewrite Hc. cbn [fst]. unfold verify_auth_chain_with_keys.
  cbn [stages set_ids denied set_decision]. rewrite Hs. cbn. pose proof (cid_nonempty _ _ Hc).
  by destruct c.
Qed.
End Chain.

(** ** The CID binds the receipt *)

Section Binding.

(** A member that is present and not null. *)
Definition field (k : string) (x : json) : option json :=
  match get k x with Some JNull => None | o => o end.

Lemma field_nonnull k x y : field k x = Some y <-> get k x = Some y /\ is_null y = false.
Proof. unfold field. destruct (get k x) as [[]|]; naive_solver. Qed.

Lemma equiv_refl_option (o : option json) : option_Forall2 json_equiv o o.
Proof. destruct o; repeat constructor. Qed.

Lemma field_equiv k x y : json_wf x -> json_wf y -> json_equiv x y -> option_Forall2 json_equiv (field k x) (field k y).
Proof.
  intros Wx Wy He. inversion He as [|l1 l2 Hl|m1 m1' m2 m2' H1 H2 HF]; subst; [apply equiv_refl_option|constructor|].
  apply json_wf_object in Wx as [N1 _], Wy as [N2 _].
  destruct (field k (JObject m1)) as [a|] eqn:Ea.
  - apply field_nonnull in Ea as [Ea Na]. apply map_get_elem in Ea.
    destruct (equiv_entry _ _ _ _ _ _ H1 H2 HF Ea Na) as (b & Hb & Nb & Hab).
    assert (field k (JObject m2) = Some b) as ->.
    { apply field_nonnull. split; [|done]. by apply map_get_elem_iff. }
    by constructor.
  - destruct (field k (JObject m2)) as [b|] eqn:Eb; [|constructor]. exfalso.
    apply field_nonnull in Eb as [Eb Nb]. apply map_get_elem in Eb.
    destruct (equiv_entry_r _ _ _ _ _ _ H1 H2 HF Eb Nb) as (a & Ha & Na & _).
    assert (field k (JObject m1) = Some a) as E; [|by rewrite E in Ea].
    apply field_nonnull. split; [|done]. by apply map_get_elem_iff.
Qed.

Lemma map_get_app {A} k (m1 m2 : list (string * A)) :
  map_get k (m1 ++ m2) = match map_get k m1 with Some x => Some x | None => map_get k m2 end.
Proof. induction m1 as [|[k' x] m1 IH]; [done|]. cbn. by destruct (String.eqb k k'). Qed.
Lemma map_get_member_opt {A} k k' (f : A -> json) o :
  map_get k (member_opt k' f o) = if String.eqb k k' then f <$> o else None.
Proof. destruct o; cbn; by destruct (String.eqb k k'). Qed.
Lemma map_get_member_list {A} k k' (f : list A -> json) l :
  map_get k (member_list k' f l) = if String.eqb k k' then match l with [] => None | _ => Some (f l) end else None.
Proof. destruct l; cbn; by destruct (String.eqb k k'). Qed.

Lemma equiv_string a y : json_equiv (JString a) y -> y = JString a.
Proof. by inversion 1. Qed.
Lemma equiv_number a y : json_equiv (JNumber a) y -> y = JNumber a.
Proof. by inversion 1. Qed.

Lemma equiv_array_elems l1 l2 : json_equiv (JArray l1) (JArray l2) -> Forall2 json_equiv l1 l2.
Proof.
  inversion 1; subst; [|done]. apply Forall_Forall2_diag. apply Forall_true. constructor.
Qed.

Lemma equiv_array_inj {A} (f : A -> json) l1 l2 :
  (forall a b, json_wf (f a) -> json_wf (f b) -> json_equiv (f a) (f b) -> a = b) ->
  json_wf (JArray (f <$> l1)) -> json_wf (JArray (f <$> l2)) ->
  json_equiv (JArray (f <$> l1)) (JArray (f <$> l2)) -> l1 = l2.
Proof.
  rewrite !json_wf_array. intros Hf W1 W2 HF%equiv_array_elems. revert l2 W2 HF.
  induction l1 as [|a l1 IH]; intros [|b l2] W2 HF; inversion HF; subst; [done|].
  csimpl in *. inversion W1; inversion W2; subst. f_equal; auto.
Qed.

Lemma wf_field k x y : json_wf x -> field k x = Some y -> json_wf y.
Proof.
  intros W [E _]%field_nonnull. destruct x; try done. apply json_wf_object in W as [_ W].
  apply map_get_elem in E. rewrite Forall_forall in W. by apply (W (k, y)).
Qed.
End Binding.

(** [bind_field k H]: the members named [k] of two equivalent objects, as an
    equality of what they hold. *)
Ltac bind_field k H :=
  match goal with
  | W1 : json_wf ?x, W2 : json_wf ?y, He : json_equiv ?x ?y |- _ =>
      pose proof (field_equiv k x y W1 W2 He) as H
  end;
  match type of H with
  | option_Forall2 json_equiv ?a ?b =>
      let a' := eval cbv [field get json_trace_bit json_trace_entry json_stage json_runtime json_build receipt_to_json] in a in
      let b' := eval cbv [field get json_trace_bit json_trace_entry json_stage json_runtime json_build receipt_to_json] in b in
      change (option_Forall2 json_equiv a' b') in H
  end;
  rewrite ?map_get_app, ?map_get_member_opt, ?map_get_member_list in H;
  cbn [map_get String.eqb Ascii.eqb Bool.eqb] in H.

Ltac wf_member k :=
  match goal with
  | W : json_wf ?x |- json_wf _ =>
      apply (wf_field k x _ W); unfold field, receipt_to_json; cbn [get];
      rewrite ?map_get_app, ?map_get_member_opt, ?map_get_member_list; reflexivity
  end.

Lemma bound_string a b : option_Forall2 json_equiv (Some (JString a)) (Some (JString b)) -> a = b.
Proof. inversion 1 as [? ? Hl|]; subst. by apply equiv_string in Hl as [= ->]. Qed.
Lemma bound_number a b : option_Forall2 json_equiv (Some (JNumber a)) (Some (JNumber b)) -> a = b.
Proof. inversion 1 as [? ? Hl|]; subst. by apply equiv_number in Hl as [= ->]. Qed.
Lemma bound_some x y : option_Forall2 json_equiv (Some x) (Some y) -> json_equiv x y.
Proof. by inversion 1. Qed.

Lemma decision_debug_inj a b : decision_debug a = decision_debug b -> a = b.
Proof. by destruct a, b. Qed.
Lemma stage_as_str_inj a b : stage_as_str a = stage_as_str b -> a = b.
Proof. by destruct a, b. Qed.

Lemma json_strings_inj l1 l2 : json_equiv (JArray (JString <$> l1)) (JArray (JString <$> l2)) -> 
  json_wf (JArray (JString <$> l1)) -> json_wf (JArray (JString <$> l2)) -> l1 = l2.
Proof.
  intros He W1 W2. eapply (equiv_array_inj JString); try done. intros a b _ _ H. by inversion H.
Qed.

Lemma json_i64_inj a b : json_i64 a = json_i64 b -> a = b.
Proof. unfold json_i64. destruct (0 <=? a), (0 <=? b); congruence. Qed.

Lemma json_trace_bit_inj a b :
  json_wf (json_trace_bit a) -> json_wf (json_trace_bit b) ->
  json_equiv (json_trace_bit a) (json_trace_bit b) -> a = b.
Proof.
  intros W1 W2 He.
  bind_field "rb_id" H1. apply bound_string in H1.
  bind_field "decision" H2. apply bound_string, decision_debug_inj in H2.
  bind_field "reason" H3. apply bound_string in H3.
  bind_field "inputs_used" H4. apply bound_some, json_strings_inj in H4; [|wf_member "inputs_used"..].
  bind_field "duration_nanos" H5. apply bound_number in H5. injection H5 as H5.
  destruct a, b; cbn in *. congruence.
Qed.

Lemma json_trace_entry_inj a b :
  json_wf (json_trace_entry a) -> json_wf (json_trace_entry b) ->
  json_equiv (json_trace_entry a) (json_trace_entry b) -> a = b.
Proof.
  intros W1 W2 He.
  bind_field "level" H1. apply bound_string in H1.
  bind_field "policy_id" H2. apply bound_string in H2.
  bind_field "result" H3. apply bound_string, decision_debug_inj in H3.
  bind_field "reason" H4. apply bound_string in H4.
  bind_field "rb_results" H5. apply bound_some, (equiv_array_inj json_trace_bit) in H5;
    [|apply json_trace_bit_inj|wf_member "rb_results"..].
  bind_field "duration_ms" H6. apply bound_number in H6.
  assert (te_duration_ms a = te_duration_ms b) by (apply json_i64_inj; unfold json_i64; by rewrite H6).
  destruct a, b; cbn in *. congruence.
Qed.

(** [opt_eq H a b]: optional members that agree hold equal values. *)
Ltac opt_eq H a b :=
  let E := fresh "Eopt" in
  assert (a = b) as E by
    (destruct a, b; cbn in H;
     [f_equal; first [by apply bound_string in H | apply bound_number in H; congruence]
     |by inversion H|by inversion H|done]).

Ltac opt_cid_eq H a b :=
  let E := fresh "Eopt" in
  assert (a = b) as E by
    (destruct a as [[?]|], b as [[?]|]; cbn in H;
     [apply bound_string in H; by subst|by inversion H|by inversion H|done]).

Lemma json_stage_trace s :
  field "policy_trace" (json_stage s) =
  match policy_trace s with [] => None | _ => Some (JArray (json_trace_entry <$> policy_trace s)) end.
Proof.
  unfold field, json_stage. cbn [get].
  rewrite !map_get_app, !map_get_member_opt, !map_get_member_list. by destruct (policy_trace s).
Qed.

Lemma json_stage_inj a b :
  json_wf (json_stage a) -> json_wf (json_stage b) -> json_equiv (json_stage a) (json_stage b) -> a = b.
Proof.
  intros W1 W2 He.
  bind_field "stage" H1. apply bound_string, stage_as_str_inj in H1.
  bind_field "timestamp" H2. apply bound_string in H2.
  bind_field "input_cid" H3. apply bound_string in H3.
  bind_field "output_cid" H4. opt_eq H4 (output_cid a) (output_cid b).
  bind_field "fuel_used" H5. opt_eq H5 (fuel_used a) (fuel_used b).
  bind_field "vm_sig" H7. opt_eq H7 (vm_sig a) (vm_sig b).
  bind_field "vm_sig_payload_cid" H8. opt_eq H8 (vm_sig_payload_cid a) (vm_sig_payload_cid b).
  bind_field "auth_token" H9. apply bound_string in H9.
  bind_field "duration_ms" H10. apply bound_number in H10.
  assert (duration_ms a = duration_ms b) as Hd by (apply json_i64_inj; unfold json_i64; by rewrite H10).
  assert (policy_trace a = policy_trace b) as H6.
  { pose proof (field_equiv "policy_trace" _ _ W1 W2 He) as H6.
    pose proof (wf_field "policy_trace" _ (JArray (json_trace_entry <$> policy_trace a)) W1) as Wa.
    pose proof (wf_field "policy_trace" _ (JArray (json_trace_entry <$> policy_trace b)) W2) as Wb.
    rewrite (json_stage_trace a) in H6, Wa. rewrite (json_stage_trace b) in H6, Wb.
    destruct (policy_trace a), (policy_trace b); [done|by inversion H6..|].
    apply bound_some in H6. apply (equiv_array_inj json_trace_entry) in H6; auto using json_trace_entry_inj. }
  destruct a, b; cbn in *. congruence.
Qed.

(** Receipts that agree on everything a verifier of the pipeline reads:
    identity, authorship, decision and every stage. *)
Definition receipt_agree (a b : UnifiedReceipt) : Prop :=
  receipt_type a = receipt_type b /\ rc_ver a = rc_ver b /\ world a = world b /\ rc_t a = rc_t b /\
  did a = did b /\ subject_did a = subject_did b /\ kid a = kid b /\ nonce a = nonce b /\
  stages a = stages b /\ decision a = decision b /\ prev_receipt_cid a = prev_receipt_cid b /\
  knock_cid a = knock_cid b.

Lemma receipt_json_inj a b :
  json_wf (receipt_to_json a) -> json_wf (receipt_to_json b) ->
  json_equiv (receipt_to_json a) (receipt_to_json b) -> receipt_agree a b.
Proof.
  intros W1 W2 He.
  bind_field "@type" H1. apply bound_string in H1.
  bind_field "@ver" H2. apply bound_string in H2.
  bind_field "@world" H3. apply bound_string in H3.
  bind_field "t" H4. apply bound_string in H4.
  bind_field "did" H5. apply bound_string in H5.
  bind_field "subject_did" H6. opt_eq H6 (subject_did a) (subject_did b).
  bind_field "kid" H7. apply bound_string in H7.
  bind_field "nonce" H8. apply bound_string in H8.
  bind_field "decision" H9. apply bound_string, decision_debug_inj in H9.
  bind_field "prev_receipt_cid" H10. opt_cid_eq H10 (prev_receipt_cid a) (prev_receipt_cid b).
  bind_field "knock_cid" H11. opt_cid_eq H11 (knock_cid a) (knock_cid b).
  bind_field "stages" H12. apply bound_some, (equiv_array_inj json_stage) in H12;
    [|apply json_stage_inj|wf_member "stages"..].
  unfold receipt_agree. destruct (world a), (world b), (did a), (did b), (kid a), (kid b), (nonce a), (nonce b).
  cbn in *. subst. by split_and!.
Qed.

(** ** Text a receipt cannot carry *)

Lemma object_members {U : Unicode} m b k x :
  to_nrf1_bytes (JObject m) = Ok b -> (k, x) ∈ m -> is_null x = false -> exists n, json_to_nrf x = Ok n.
Proof.
  unfold to_nrf1_bytes, json_to_nrf at 1. rewrite conv_object, !result_bind_ok.
  intros (n & (bt & E & _)%result_bind_ok & _) Hin Hx.
  apply object_loop_spec in E as (_ & Hc & _); [|constructor].
  rewrite Forall_forall in Hc. destruct (Hc _ Hin) as (_ & _ & _ & Hok). by apply Hok.
Qed.

Lemma map_insert_elem {A} k (x : A) m : (k, x) ∈ map_insert k x m.
Proof.
  induction m as [|[k' y] m IH]; cbn; [by left|]. destruct (String.eqb_spec k k') as [->|]; [by left|by right].
Qed.

(** Text that NRF-1 rejects. *)
Definition unencodable {U : Unicode} (s : string) : bool :=
  has_bom s || has_control_char s || negb (String.eqb (nfc s) s).

Lemma unencodable_string {U : Unicode} s n : json_to_nrf (JString s) = Ok n -> unencodable s = false.
Proof. unfold json_to_nrf, unencodable. cbn. by destruct (has_bom s), (has_control_char s), (String.eqb _ s). Qed.

Lemma unencodable_effects {U : Unicode} {HB3 : Blake3} r m k s :
  effects r = JObject m -> (k, JString s) ∈ m -> unencodable s = true ->
  exists e, cid_of (receipt_to_json r) = Err e.
Proof.
  intros He Hin Hs. destruct (cid_of (receipt_to_json r)) as [c|e] eqn:E; [|by exists e]. exfalso.
  unfold cid_of in E. apply result_bind_ok in E as (b & Hb%to_nrf_bytes_ok & _).
  destruct (object_members _ _ "effects" (effects r) Hb) as [n Hn]; [|by rewrite He|].
  { apply elem_of_app. right. apply elem_of_app. right. apply elem_of_app. left.
    do 4 (apply elem_of_cons; right). by left. }
  rewrite He in Hn. assert (to_nrf1_bytes (JObject m) = Ok (encode_to_vec n)) as Hm
    by (unfold to_nrf1_bytes; by rewrite Hn).
  destruct (object_members _ _ _ _ Hm Hin eq_refl) as [n' Hn']. apply unencodable_string in Hn'. congruence.
Qed.

(** ** Properties *)

Section Properties.
Context {U : Unicode} {HB3 : Blake3} {KB3 : Blake3Keyed} {HX : HexDecode}
  {ED : Ed25519} {EK : Ed25519Keys} {B64 : Base64} {B64D : Base64Decode} {B58 : Base58}.

(** What a signature covers in each mode. *)
Definition signed_message (domain : string) (b : bytes) (mode : CryptoMode) : bytes :=
  match mode with CompatV1 => as_bytes domain ++ b | HashFirstV2 => blake3 (as_bytes domain ++ b) end.

Lemma verify_signed `{!Ed25519Laws ED EK, !Base64Laws B64 B64D, !Base58Laws B58} env r sk mode strict b m :
  did_as_str (did r) = did_from_verifying_key strict (sk_verifying_key sk) ->
  to_nrf_bytes (signature_payload_value r) = Ok b ->
  let s0 := sk_sign sk (signed_message (receipt_sign_domain env) b mode) in
  let v1 := ed25519_verify (sk_verifying_key sk) s0 (signed_message (receipt_sign_domain env) b CompatV1) in
  let v2 := ed25519_verify (sk_verifying_key sk) s0 (signed_message (receipt_sign_domain env) b HashFirstV2) in
  receipt_verify_signature env (set_sig r ("ed25519:" +:+ base64_url s0)) m =
  Ok (mkReport (match m with V1Only => v1 | V2Only => v2 | Dual => v1 || v2 end) v1 v2).
Proof.
  intros Hd Hb. unfold receipt_verify_signature. cbn zeta.
  set (s := "ed25519:" +:+ _). change (sig (set_sig r s)) with s. change (is_empty s) with false. cbn iota.
  change (did (set_sig r s)) with (did r). rewrite Hd, did_roundtrip.
  change (signature_payload_value (set_sig r s)) with (signature_payload_value r).
  unfold verify_domain_v1, verify_domain_v2_hash_first. cbn [map_err mbind result_bind]. rewrite Hb.
  cbn [mbind result_bind]. unfold verify_raw_v1, verify_raw_v2_hash_first, verify_signature, s.
  rewrite strip_prefix_app. cbn [ok_or mbind result_bind]. rewrite base64_roundtrip.
  cbn [ok_or mbind result_bind]. by rewrite sign_length.
Qed.

Lemma finalize_inv env r sk mode r' :
  finalize_and_sign env r sk mode = (r', Ok tt) ->
  exists b, to_nrf_bytes (signature_payload_value r) = Ok b /\
    r' = set_sig r ("ed25519:" +:+ base64_url (sk_sign sk (signed_message (receipt_sign_domain env) b mode))).
Proof.
  unfold finalize_and_sign, sign_domain_v1, sign_domain_v2_hash_first.
  destruct (to_nrf_bytes (signature_payload_value r)) as [b|e] eqn:Hb; [|by destruct mode].
  intros Hf. exists b. split; [done|]. by destruct mode; cbn in Hf; injection Hf as <-.
Qed.

(** C7: The replay check decides the declarative chain: it answers [true] exactly
    when every stage's token was made, under the current or the previous key,
    over the CID of the stages before it, and the receipt carries the CID of
    all of them. *)
Theorem auth_chain_exact r ck pk :
  verify_auth_chain_with_keys r ck pk = Ok true <-> chain_valid ck pk r.
Proof. apply verify_chain_spec. Qed.

(** Appending keeps the chain.  On a receipt whose chain is valid under the
    given secrets, and whose extended form has a CID, the append succeeds: it
    adds exactly the stamped stage, updates CID and id, and the new chain is
    valid under the same secrets. *)
Theorem append_extends_chain r cur prev s ck pk c :
  key_from_secret_str cur = Ok ck -> optional_key prev = Ok pk -> chain_valid ck pk r ->
  cid_of (receipt_to_json (cleared (set_stages r (stages r ++ [stamped ck r s])))) = Ok c ->
  exists r', append_stage_with_secrets r cur prev s = (r', Ok tt) /\
    stages r' = stages r ++ [stamped ck r s] /\ receipt_cid r' = cid_new_unchecked c /\ rc_id r' = c /\
    chain_valid ck pk r' /\ verify_auth_chain_with_secrets r' cur prev = true.
Proof.
  intros Hk Hp Hv Hc. assert (prefix_cid r (stages r ++ [stamped ck r s]) = Ok c) as Hc'.
  { unfold prefix_cid. by destruct (stages r). }
  destruct (append_valid _ _ _ _ _ _ _ Hk Hp Hv Hc') as [-> Hv']. eexists. split_and!; try done.
  unfold verify_auth_chain_with_secrets. rewrite Hk, Hp. by rewrite (proj2 (verify_chain_spec ck pk _) Hv').
Qed.

(** A rotation of the stage secret does not break receipts in flight: stages
    made under the old secret stay valid when it becomes the previous one, and
    the next append under the new secret succeeds. *)
Theorem rotation_keeps_chain r old new s ko kn c :
  key_from_secret_str old = Ok ko -> key_from_secret_str new = Ok kn -> chain_valid ko None r ->
  cid_of (receipt_to_json (cleared (set_stages r (stages r ++ [stamped kn r s])))) = Ok c ->
  exists r', append_stage_with_secrets r new (Some old) s = (r', Ok tt) /\ chain_valid kn (Some ko) r'.
Proof.
  intros Ho Hn Hv%(chain_valid_previous _ kn) Hc. assert (prefix_cid r (stages r ++ [stamped kn r s]) = Ok c) as Hc'.
  { unfold prefix_cid. by destruct (stages r). }
  eexists. apply (append_valid r new (Some old) s kn (Some ko) c); try done. cbn. by rewrite Ho.
Qed.

(** A denial re-authenticates the receipt: with a usable secret and at least
    one stage, the denied receipt has decision [Deny], the same stages up to
    their tokens, and a chain valid under the current secret alone, so the WF
    stage can be appended. *)
Theorem deny_restores_chain r reason secret ck rb :
  key_from_secret_str secret = Ok ck -> stages r <> [] ->
  rebuild_loop ck (shadow_of (denied r reason)) (stages r) = Some rb ->
  decision (deny_with_secrets r reason (Some secret)) = DenyD /\
  verify_auth_chain_with_secrets (deny_with_secrets r reason (Some secret)) secret None = true /\
  Forall2 (fun s s' => exists tok, s' = with_token s tok) (stages r) (stages (deny_with_secrets r reason (Some secret))).
Proof.
  intros Hk Hs Hr. destruct (deny_valid _ _ _ _ _ Hk Hs Hr) as (Hd & -> & Hv & _ & HF). split_and!; try done.
  unfold verify_auth_chain_with_secrets. rewrite Hk. cbn [optional_key].
  by rewrite (proj2 (verify_chain_spec ck None _) Hv).
Qed.

(** A denial before any stage cannot be continued: the receipt gets a CID that
    the replay, which starts from an empty one, never reaches. *)
Theorem deny_before_stages_breaks r reason secret ck pk c :
  stages r = [] -> cid_of (receipt_to_json (cleared (denied r reason))) = Ok c ->
  verify_auth_chain_with_keys (deny_with_secrets r reason secret) ck pk = Ok false.
Proof. apply deny_empty_invalid. Qed.

(** A denial whose reason is not NRF-1 text (a control character, a byte order
    mark, text not in NFC) silently loses the receipt's CID and id, and no
    stage can be appended afterwards, whatever the secrets: there is no DENY
    receipt. *)
Theorem deny_unencodable_reason r reason secret m :
  effects r = JObject m -> unencodable reason = true ->
  cid_as_str (receipt_cid (deny_with_secrets r reason secret)) = "" /\
  rc_id (deny_with_secrets r reason secret) = "" /\
  forall cur prev s r' o,
    append_stage_with_secrets (deny_with_secrets r reason secret) cur prev s = (r', o) -> exists e, o = Err e.
Proof.
  intros Hm Hu. set (m' := map_insert "deny_reason" (JString reason) m).
  assert (forall x, effects x = JObject m' -> exists e, cid_of (receipt_to_json x) = Err e) as Hbad.
  { intros x Hx. eapply unencodable_effects; [done|apply map_insert_elem|done]. }
  assert (effects (denied r reason) = JObject m') as Hd by (cbn; by rewrite Hm).
  unfold deny_with_secrets. fold (denied r reason). set (r2 := rebuild_auth_chain_with_current_key _ _).
  assert (effects r2 = JObject m') as H2.
  { unfold r2, rebuild_auth_chain_with_current_key. repeat case_match; done. }
  destruct (Hbad (cleared r2) H2) as [e He]. unfold recompute_cid. rewrite He. cbn [fst].
  split_and!; [done..|]. intros cur prev s r' o. unfold append_stage_with_secrets.
  destruct (key_from_secret_str cur) as [ck|]; [|intros [= <- <-]; eauto].
  rewrite recompute_push. unfold prefix_cid. 
  match goal with |- context [set_stages ?x ?l] => destruct (Hbad (cleared (set_stages x l))) as [e' ->] end; [done|].
  destruct (_ ++ _) eqn:El; [by apply app_eq_nil in El as [_ ?]|]. intros [= <- <-]. eauto.
Qed.

(** C8: The receipt's CID is a commitment: two receipts with verified chains, at
    least one stage each and the same CID agree on identity, authorship,
    decision and every stage (tokens included), unless BLAKE3 collides on the
    two payloads. *)
Theorem receipt_tamper_evident r1 r2 k1 p1 k2 p2 :
  chain_valid k1 p1 r1 -> chain_valid k2 p2 r2 -> stages r1 <> [] -> stages r2 <> [] ->
  json_wf (receipt_to_json (cleared r1)) -> json_fits (receipt_to_json (cleared r1)) ->
  json_wf (receipt_to_json (cleared r2)) -> json_fits (receipt_to_json (cleared r2)) ->
  (forall b1 b2, to_nrf1_bytes (receipt_to_json (cleared r1)) = Ok b1 ->
     to_nrf1_bytes (receipt_to_json (cleared r2)) = Ok b2 -> blake3 b1 = blake3 b2 -> b1 = b2) ->
  receipt_cid r1 = receipt_cid r2 -> receipt_agree r1 r2.
Proof.
  intros [_ H1] [_ H2] N1 N2 W1 F1 W2 F2 Hcf Heq. rewrite Heq in H1.
  assert (forall r, stages r <> [] -> prefix_cid r (stages r) = cid_of (receipt_to_json (cleared r))) as Hp.
  { intros r Hr. unfold prefix_cid. destruct (stages r) eqn:E; [done|]. rewrite <- E. by destruct r. }
  rewrite Hp in H1, H2 by done. unfold cid_of in H1, H2.
  apply result_bind_ok in H1 as (b1 & B1%to_nrf_bytes_ok & C1), H2 as (b2 & B2%to_nrf_bytes_ok & C2).
  rewrite <- C2 in C1. injection C1 as C1%str_app_inj_l%hex_encode_inj.
  pose proof (Hcf _ _ B1 B2 C1) as <-. unfold to_nrf1_bytes in B1, B2.
  apply (receipt_json_inj (cleared r1) (cleared r2)); try done.
  apply result_bind_ok in B1 as (n1 & E1 & [= <-]), B2 as (n2 & E2 & [= Hn]).
  apply (conv_equiv _ _ n1); try done. rewrite E2. f_equal.
  pose proof (decode_encode_wf n1 (conv_wf _ _ W1 F1 E1)) as D1.
  pose proof (decode_encode_wf n2 (conv_wf _ _ W2 F2 E2)) as D2.
  unfold encode_to_vec in D1, D2. rewrite Hn in D2. congruence.
Qed.

(** Signing a receipt under a key whose DID it carries makes a signature that
    verifies in the matching mode and in dual mode, and does not disturb the
    authentication chain. *)
Theorem receipt_sign_verify `{!Ed25519Laws ED EK, !Base64Laws B64 B64D, !Base58Laws B58}
    env r sk mode strict r' ck pk :
  did_as_str (did r) = did_from_verifying_key strict (sk_verifying_key sk) ->
  finalize_and_sign env r sk mode = (r', Ok tt) -> chain_valid ck pk r ->
  chain_valid ck pk r' /\
  forall m, m = Dual \/ m = match mode with CompatV1 => V1Only | HashFirstV2 => V2Only end ->
    exists rep, receipt_verify_signature env r' m = Ok rep /\ valid rep = true.
Proof.
  intros Hd (b & Hb & ->)%finalize_inv Hv. split; [exact Hv|]. intros m Hm.
  eexists. split; [by apply (verify_signed env r sk mode strict b m)|]. cbn [valid].
  pose proof (sign_verifies sk (signed_message (receipt_sign_domain env) b mode)) as Hs.
  destruct Hm as [->| ->], mode; rewrite ?Hs, ?orb_true_r; done.
Qed.
End Properties.

(** ** Witnesses *)

Module ReceiptSample.

#[local] Existing Instance ascii_unicode.
(** Injective stand-ins for the digests. *)
#[local] Instance id_blake3 : Blake3 := {| blake3 b := b |}.
#[local] Instance rev_keyed : Blake3Keyed := {| blake3_keyed k m := reverse m ++ k |}.
#[local] Instance no_hex : HexDecode := {| hex_decode _ := None |}.
(** One printable key. *)
#[local] Instance toy_ed : Ed25519 := {| ed25519_verify pk sig m := bool_decide (sig = pk ++ pk) |}.
#[local] Instance toy_keys : Ed25519Keys := {|
  sk_sign sk m := replicate 64 x41; sk_verifying_key sk := replicate 32 x41; vk_is_point _ := true;
|}.
#[local] Instance toy_ed_laws : Ed25519Laws toy_ed toy_keys.
Proof. by split. Qed.
#[local] Existing Instance CanonSample.raw64.
#[local] Existing Instance CanonSample.raw64d.
#[local] Existing Instance CanonSample.raw64_laws.
#[local] Existing Instance CanonSample.raw58.
#[local] Existing Instance CanonSample.raw58_laws.

Definition env0 : Environment := fun _ => Err NotPresent.
Definition did0 : string := did_from_verifying_key false (sk_verifying_key []).
Definition r0 : UnifiedReceipt :=
  receipt_new "2026-01-01T00:00:00Z" "a/acme/t/prod" did0 (did0 +:+ "#ed25519") "00112233445566778899aabbccddeeff".
Definition stage0 (k : PipelineStage) : StageExecution :=
  mkStage k "2026-01-01T00:00:00Z" "b3:01" (Some "b3:02") (Some 7)
    [mkTraceEntry "tenant" "p" Allow "ok" [mkTraceBit "b" Allow "ok" ["@type"] 5] 1] None None "" 3.
Definition r1 : UnifiedReceipt := fst (append_stage_with_secrets r0 "old secret" None (stage0 WriteAhead)).
Definition r2 : UnifiedReceipt := fst (append_stage_with_secrets r1 "old secret" None (stage0 Check)).
Definition key0 : bytes := padded_key (as_bytes "old secret").
Definition key1 : bytes := padded_key (as_bytes "new secret").

Lemma r0_valid : chain_valid key0 None r0.
Proof. apply verify_chain_spec. reflexivity. Defined.
Lemma r1_valid : chain_valid key0 None r1.
Proof. apply verify_chain_spec. vm_compute. reflexivity. Defined.
Lemma r2_valid : chain_valid key0 None r2.
Proof. apply verify_chain_spec. vm_compute. reflexivity. Defined.

Lemma append_extends_chain_witness :
  exists r', append_stage_with_secrets r1 "old secret" None (stage0 Check) = (r', Ok tt) /\
    verify_auth_chain_with_secrets r' "old secret" None = true.
Proof.
  edestruct (append_extends_chain r1 "old secret" None (stage0 Check) key0 None) as (r' & H & _ & _ & _ & _ & Hv);
    [reflexivity|reflexivity|exact r1_valid|vm_compute; reflexivity|].
  exists r'. split; [exact H|exact Hv].
Defined.

Lemma rotation_keeps_chain_witness :
  exists r', append_stage_with_secrets r1 "new secret" (Some "old secret") (stage0 Check) = (r', Ok tt) /\
    chain_valid key1 (Some key0) r'.
Proof.
  eapply (rotation_keeps_chain r1 "old secret" "new secret" (stage0 Check) key0 key1);
    [reflexivity|reflexivity|exact r1_valid|vm_compute; reflexivity].
Defined.

Lemma deny_restores_chain_witness :
  decision (deny_with_secrets r2 "no" (Some "new secret")) = DenyD /\
  verify_auth_chain_with_secrets (deny_with_secrets r2 "no" (Some "new secret")) "new secret" None = true.
Proof.
  edestruct (deny_restores_chain r2 "no" "new secret" key1) as (H1 & H2 & _);
    [reflexivity|vm_compute; discriminate|vm_compute; reflexivity|].
  split; [exact H1|exact H2].
Defined.

Lemma deny_before_stages_breaks_witness :
  verify_auth_chain_with_keys (deny_with_secrets r0 "no" (Some "old secret")) key0 None = Ok false.
Proof. eapply (deny_before_stages_breaks r0 "no" (Some "old secret")); [reflexivity|vm_compute; reflexivity]. Defined.

(** A reason with a line feed. *)
Definition lf_reason : string := "bad key a" +:+ String "010" "b".
Lemma deny_unencodable_reason_witness :
  cid_as_str (receipt_cid (deny_with_secrets r1 lf_reason (Some "old secret"))) = "".
Proof.
  destruct (deny_unencodable_reason r1 lf_reason (Some "old secret") []) as [H _];
    [vm_compute; reflexivity..|exact H].
Defined.

Lemma receipt_tamper_evident_witness : receipt_agree r1 (set_sig r1 "s").
Proof.
  apply (receipt_tamper_evident r1 (set_sig r1 "s") key0 None key0 None);
    [exact r1_valid|exact r1_valid|vm_compute; discriminate|vm_compute; discriminate
    |apply json_wfb_sound|apply json_fitsb_sound|apply json_wfb_sound|apply json_fitsb_sound
    |intros b1 b2 _ _ H; exact H|reflexivity].
  all: vm_compute; reflexivity.
Defined.

Lemma receipt_sign_verify_witness :
  exists r', finalize_and_sign env0 r2 [] HashFirstV2 = (r', Ok tt) /\ chain_valid key0 None r' /\
    exists rep, receipt_verify_signature env0 r' Dual = Ok rep /\ valid rep = true.
Proof.
  eexists. split; [vm_compute; reflexivity|].
  edestruct (receipt_sign_verify env0 r2 [] HashFirstV2 false) as [H1 H2];
    [reflexivity|vm_compute; reflexivity|exact r2_valid|].
  split; [exact H1|apply H2; by left].
Defined.
End ReceiptSample.
