(* ===== verification/TextFacts.v ===== *)
(** * Texts: UTF-8 and the normalisation of external input

    Decoding is compositional: a character's bytes decode to it whatever
    follows, so concatenation, removal of a character and ASCII text behave as
    on lists of scalar values.  Then what [normalize_for_input] of
    [ubl_nrf/src/nrf.rs] establishes: every string and key of the result is NFC
    text without control characters and byte order marks, keys are unique,
    members are not null; with integers in [i64] such a value has canonical
    bytes. *)

From S2P Require Import Prelude RustStd RustStr Json Nrf NrfFacts Rho.

Lemma next_char_pre bs c r :
  next_char bs = Some (c, r) ->
  exists pre, bs = pre ++ r /\ pre <> [] /\ forall r', next_char (pre ++ r') = Some (c, r').
Proof.
  destruct bs as [|b0 r0]; [done|]. unfold next_char at 1. cbv zeta.
  destruct (u8 b0 <=? 0x7F) eqn:E1.
  { intros [= <- <-]. exists [b0]. split_and!; [done..|]. intros r'. cbn. by rewrite E1. }
  destruct ((0xC2 <=? u8 b0) && (u8 b0 <=? 0xDF)) eqn:E2.
  { destruct r0 as [|b1 r1]; [done|]. destruct (is_cont b1) eqn:C1; [|done].
    intros [= <- <-]. exists [b0; b1]. split_and!; [done..|]. intros r'. cbn. by rewrite E1, E2, C1. }
  destruct ((0xE0 <=? u8 b0) && (u8 b0 <=? 0xEF)) eqn:E3.
  { destruct r0 as [|b1 [|b2 r2]]; [done..|]. destruct (between _ _ b1 && is_cont b2) eqn:C1; [|done].
    intros [= <- <-]. exists [b0; b1; b2]. split_and!; [done..|]. intros r'. cbn. by rewrite E1, E2, E3, C1. }
  destruct ((0xF0 <=? u8 b0) && (u8 b0 <=? 0xF4)) eqn:E4; [|done].
  destruct r0 as [|b1 [|b2 [|b3 r3]]]; [done..|].
  destruct (between _ _ b1 && is_cont b2 && is_cont b3) eqn:C1; [|done].
  intros [= <- <-]. exists [b0; b1; b2; b3]. split_and!; [done..|]. intros r'. cbn. by rewrite E1, E2, E3, E4, C1.
Qed.

(** Enough fuel is the length; more changes nothing. *)
Lemma decode_fuel_length f bs : (length bs <= f)%nat -> decode_chars f bs = decode_chars (length bs) bs.
Proof.
  revert bs. induction f as [f IH] using lt_wf_ind. intros bs Hf.
  destruct bs as [|b bs]; [by destruct f|]. destruct f as [|f]; [cbn in Hf; lia|]. cbn [length decode_chars].
  destruct (next_char (b :: bs)) as [[c r]|] eqn:E; [|done].
  apply next_char_pre in E as (pre & Hp & Hn & _).
  assert (length r <= length bs)%nat as Hr.
  { apply (f_equal length) in Hp. rewrite length_app in Hp. cbn in Hp. destruct pre; [done|]. cbn in Hp. lia. }
  cbn in Hf. rewrite (IH f) by lia. by rewrite (IH (length bs)) by (cbn; lia).
Qed.

Lemma utf8_chars_next bs c r :
  next_char bs = Some (c, r) -> utf8_chars bs = (cs ← utf8_chars r; Some (c :: cs)).
Proof.
  intros E. destruct (next_char_pre _ _ _ E) as (pre & -> & Hn & _). unfold utf8_chars.
  destruct pre as [|b pre]; [done|]. cbn [app length decode_chars]. cbn [app] in E. rewrite E.
  rewrite decode_fuel_length by (rewrite length_app; lia). by destruct (decode_chars (length r) r).
Qed.

(** Induction on the characters of a byte string. *)
Lemma chars_ind (P : bytes -> Prop) :
  P [] ->
  (forall pre c r, pre <> [] -> (forall r', next_char (pre ++ r') = Some (c, r')) -> P r -> P (pre ++ r)) ->
  forall bs, utf8_valid bs = true -> P bs.
Proof.
  intros H0 Hs bs. remember (length bs) as n eqn:Hn. revert bs Hn.
  induction n as [n IH] using lt_wf_ind. intros bs -> Hv. destruct bs as [|b bs]; [done|].
  unfold utf8_valid, utf8_chars in Hv. cbn [length decode_chars] in Hv.
  destruct (next_char (b :: bs)) as [[c r]|] eqn:E; [|done].
  destruct (next_char_pre _ _ _ E) as (pre & Hp & Hn & Hc). rewrite Hp. apply (Hs pre c r Hn Hc).
  eapply IH; [|reflexivity|].
  - rewrite Hp, length_app. destruct pre; [done|]. cbn. lia.
  - unfold utf8_valid, utf8_chars. rewrite <- (decode_fuel_length (length bs)).
    + by destruct (decode_chars (length bs) r).
    + apply (f_equal length) in Hp. rewrite length_app in Hp. cbn in Hp. destruct pre; [done|]. cbn in Hp. lia.
Qed.

Lemma utf8_chars_app b1 b2 cs1 :
  utf8_chars b1 = Some cs1 -> utf8_chars (b1 ++ b2) = (cs2 ← utf8_chars b2; Some (cs1 ++ cs2)).
Proof.
  intros H. assert (utf8_valid b1 = true) as Hv by (unfold utf8_valid; by rewrite H). revert cs1 H.
  refine (chars_ind (fun b1 => forall cs1, utf8_chars b1 = Some cs1 ->
    utf8_chars (b1 ++ b2) = (cs2 ← utf8_chars b2; Some (cs1 ++ cs2))) _ _ b1 Hv).
  { intros cs1 [= <-]. cbn [app]. by destruct (utf8_chars b2). }
  intros pre c r Hn Hc IH cs1. rewrite (utf8_chars_next _ _ _ (Hc r)), <- (assoc_L app), (utf8_chars_next _ _ _ (Hc (r ++ b2))).
  destruct (utf8_chars r) as [cs|] eqn:E; [|done]. cbn. intros [= <-].
  rewrite (IH cs) by done. by destruct (utf8_chars b2).
Qed.

Lemma as_bytes_app s1 s2 : as_bytes (s1 +:+ s2) = as_bytes s1 ++ as_bytes s2.
Proof. induction s1 as [|a s1 IH]; [done|]. rewrite str_app_cons. cbn. by f_equal. Qed.

Lemma str_wf_app s1 s2 : str_wf s1 -> str_wf s2 -> str_wf (s1 +:+ s2).
Proof.
  unfold str_wf, utf8_valid. rewrite as_bytes_app. intros H1 H2.
  destruct (utf8_chars (as_bytes s1)) as [cs1|] eqn:E1; [|done].
  destruct (utf8_chars (as_bytes s2)) as [cs2|] eqn:E2; [|done].
  by rewrite (utf8_chars_app _ _ _ E1), E2.
Qed.

Lemma chars_app s1 s2 : str_wf s1 -> str_wf s2 -> chars (s1 +:+ s2) = chars s1 ++ chars s2.
Proof.
  unfold str_wf, utf8_valid, chars. rewrite as_bytes_app. intros H1 H2.
  destruct (utf8_chars (as_bytes s1)) as [cs1|] eqn:E1; [|done].
  destruct (utf8_chars (as_bytes s2)) as [cs2|] eqn:E2; [|done].
  by rewrite (utf8_chars_app _ _ _ E1), E2.
Qed.

(** ** Removing a character *)

Lemma strip_bom_chars bs : utf8_valid bs = true ->
  forall f cs, (length bs <= f)%nat -> utf8_chars bs = Some cs ->
  utf8_chars (strip_bom_bytes f bs) = Some (List.filter (fun c => negb (c =? 0xFEFF)) cs).
Proof.
  intros Hv. refine (chars_ind (fun bs => forall f cs, (length bs <= f)%nat -> utf8_chars bs = Some cs ->
    utf8_chars (strip_bom_bytes f bs) = Some (List.filter (fun c => negb (c =? 0xFEFF)) cs)) _ _ bs Hv).
  { intros f cs _ [= <-]. by destruct f. }
  intros pre c r Hn Hc IH f cs Hf. rewrite (utf8_chars_next _ _ _ (Hc r)).
  rewrite length_app in Hf. destruct pre as [|b pre]; [done|]. cbn [length] in Hf.
  destruct f as [|f]; [lia|]. cbn [strip_bom_bytes]. rewrite (Hc r).
  destruct (utf8_chars r) as [cs'|] eqn:E; [|done]. cbn [mbind option_bind]. intros [= <-].
  specialize (IH f cs' ltac:(lia) eq_refl). cbn [List.filter].
  destruct (c =? 0xFEFF); cbn [negb]; [done|].
  rewrite length_app, Nat.add_sub, take_app_length.
  by rewrite (utf8_chars_next _ _ _ (Hc _)), IH.
Qed.

Lemma strip_bom_spec s : str_wf s ->
  str_wf (strip_bom s) /\ chars (strip_bom s) = List.filter (fun c => negb (c =? 0xFEFF)) (chars s).
Proof.
  intros Hw. unfold str_wf, chars, strip_bom, as_bytes at 1 3. rewrite !list_byte_of_string_of_list_byte.
  pose proof Hw as Hv. unfold str_wf, utf8_valid in Hv.
  destruct (utf8_chars (as_bytes s)) as [cs|] eqn:E; [|done].
  assert (String.length s = length (as_bytes s)) as ->.
  { clear. induction s as [|a s IH]; [done|]. cbn. by f_equal. }
  pose proof (strip_bom_chars _ Hw (length (as_bytes s)) cs (le_n _) E) as H.
  unfold utf8_valid. by rewrite H.
Qed.

Lemma strip_bom_has s : str_wf s -> has_bom (strip_bom s) = false.
Proof.
  intros Hw. unfold has_bom. rewrite (proj2 (strip_bom_spec s Hw)). apply Bool.not_true_iff_false.
  rewrite existsb_exists. intros (c & [_ Hc]%List.filter_In & Hf). apply Z.eqb_eq in Hf. by subst c.
Qed.

(** ** ASCII text *)

Definition ascii_text (s : string) : bool := str_forallb (fun a => (N_of_ascii a <? 128)%N) s.
(** Space to tilde. *)
Definition printable_text (s : string) : bool := str_forallb (ascii_between " " "~") s.

Lemma u8_of_ascii a : u8 (byte_of_ascii a) = Z.of_N (N_of_ascii a).
Proof. unfold u8. f_equal. by rewrite <- N_of_ascii_via_byte || destruct a as [[] [] [] [] [] [] [] []]. Qed.

Lemma ascii_chars s : ascii_text s = true ->
  utf8_chars (as_bytes s) = Some ((fun b => u8 b) <$> as_bytes s).
Proof.
  induction s as [|a s IH]; [done|]. cbn [ascii_text str_forallb]. intros [Ha Hs]%andb_prop.
  change (as_bytes (String a s)) with (byte_of_ascii a :: as_bytes s).
  erewrite utf8_chars_next.
  2: { unfold next_char. apply N.ltb_lt in Ha. assert ((u8 (byte_of_ascii a) <=? 0x7F) = true) as ->; [|reflexivity].
       rewrite u8_of_ascii. apply Z.leb_le. lia. }
  by rewrite (IH Hs).
Qed.

Lemma printable_ascii s : printable_text s = true -> ascii_text s = true.
Proof.
  apply str_forallb_weaken. intros a [_ H]%andb_prop. apply N.leb_le in H. apply N.ltb_lt.
  change (N_of_ascii "~") with 126%N in H. lia.
Qed.

Lemma printable_chars s : printable_text s = true -> Forall (fun c => 32 <= c <= 126) (chars s).
Proof.
  intros H. unfold chars. rewrite (ascii_chars s (printable_ascii s H)). cbn [default].
  induction s as [|a s IH]; [constructor|]. cbn in H. apply andb_prop in H as [[H1 H2]%andb_prop Hs].
  change (as_bytes (String a s)) with (byte_of_ascii a :: as_bytes s). csimpl.
  constructor; [|by apply IH]. rewrite u8_of_ascii. apply N.leb_le in H1, H2.
  change (N_of_ascii " ") with 32%N in H1. change (N_of_ascii "~") with 126%N in H2. lia.
Qed.

Lemma printable_wf s : printable_text s = true -> str_wf s.
Proof. intros H. unfold str_wf, utf8_valid. by rewrite (ascii_chars s (printable_ascii s H)). Qed.

Lemma printable_no_bom s : printable_text s = true -> has_bom s = false.
Proof.
  intros H%printable_chars. apply Bool.not_true_iff_false. unfold has_bom. rewrite existsb_exists.
  intros (c & Hin & Hc). apply Z.eqb_eq in Hc. apply list_elem_of_In in Hin. rewrite Forall_forall in H.
  specialize (H _ Hin). lia.
Qed.
Lemma printable_no_control s : printable_text s = true -> has_control_char s = false.
Proof.
  intros H%printable_chars. apply Bool.not_true_iff_false. unfold has_control_char. rewrite existsb_exists.
  intros (c & Hin & Hc). apply Z.leb_le in Hc. apply list_elem_of_In in Hin. rewrite Forall_forall in H.
  specialize (H _ Hin). lia.
Qed.

(** * Normalisation of external input *)

(** ASCII text is its own NFC form (UAX #15). *)
Class UnicodeAscii (U : Unicode) : Prop := { nfc_ascii s : ascii_text s = true -> nfc s = s }.
(** The [%Y-%m-%dT%H:%M:%S] rendering is printable ASCII. *)
Class ChronoLaws (C : Chrono) : Prop :=
  { rfc3339_text s base n : parse_rfc3339_utc s = Some (base, n) -> printable_text base = true }.

Section Norm.
Context {U : Unicode} {CH : Chrono}.

(** The loops of [normalize_value_for_input], named. *)
Definition norm_array (p : path) :=
  fix go (idx : nat) (l : list json) : result NrfError (list json) :=
    match l with
    | [] => Ok []
    | x :: l' =>
        y ← normalize_value_for_input x None (path_for_index p idx);
        ys ← go (S idx) l';
        Ok (y :: ys)
    end.
Definition norm_object (p : path) :=
  fix go (out : list (string * json)) (m : list (string * json)) : result NrfError (list (string * json)) :=
    match m with
    | [] => Ok out
    | (k, x) :: m' =>
        let key_path := path_for_key p k in
        nk ← map_err (RhoViolation key_path) (normalize_key_scalar k);
        nv ← normalize_value_for_input x (Some nk) key_path;
        if is_null nv then go out m'
        else match map_get nk out with
             | Some _ => Err (RhoViolation p (RDuplicateKey nk))
             | None => go (map_insert nk nv out) m'
             end
    end.

Lemma norm_array_eq l pk p :
  normalize_value_for_input (JArray l) pk p =
  (out ← norm_array p 0 l;
   if match pk with Some k => is_set_like_key k | None => false end
   then s ← normalize_as_set_with_path out p; Ok (JArray s)
   else Ok (JArray out)).
Proof. reflexivity. Qed.
Lemma norm_object_eq m pk p :
  normalize_value_for_input (JObject m) pk p = (out ← norm_object p [] m; Ok (JObject out)).
Proof. reflexivity. Qed.

(** Clean text, unique keys, no null members. *)
Definition normal_json (v : json) : Prop := json_wf v /\ clean (fun _ => True) (fun x => is_null x = false) v.

Lemma norm_dedup_elem {A} (same : A -> A -> bool) x l y : y ∈ dedup_from same x l -> y = x \/ y ∈ l.
Proof.
  revert x. induction l as [|z l IH]; intros x; cbn.
  - intros ->%list_elem_of_singleton. by left.
  - destruct (same x z).
    + intros [->|Hy]%IH; [by left|right; by right].
    + intros [->|Hy]%elem_of_cons; [by left|]. apply IH in Hy as [->|Hy]; right; [by left|by right].
Qed.
Lemma dedup_by_elem {A} (same : A -> A -> bool) l y : y ∈ dedup_by same l -> y ∈ l.
Proof.
  destruct l as [|x l]; cbn; [done|]. intros [->|Hy]%norm_dedup_elem; [by left|by right].
Qed.

Lemma set_pairs_snd idx p items pairs : set_pairs idx p items = Ok pairs -> pairs.*2 = items.
Proof.
  revert idx pairs. induction items as [|x items IH]; intros idx pairs; cbn [set_pairs]; [by intros [= <-]|].
  intros H. inv_ok. csimpl. f_equal. by eapply IH.
Qed.

Lemma as_set_elem items p s x : normalize_as_set_with_path items p = Ok s -> x ∈ s -> x ∈ items.
Proof.
  unfold normalize_as_set_with_path. rewrite result_bind_ok. intros (pairs & Hp%set_pairs_snd & [= <-]).
  intros (pr & -> & Hin%dedup_by_elem)%list_elem_of_fmap. rewrite sort_by_perm in Hin.
  rewrite <- Hp. by apply list_elem_of_fmap_2.
Qed.

Context `{!UnicodeLaws U, !UnicodeAscii U, !ChronoLaws CH}.

Lemma printable_clean s : printable_text s = true -> str_wf s /\ str_clean s.
Proof.
  intros H. split; [by apply printable_wf|]. split_and!.
  - by apply printable_no_bom.
  - by apply printable_no_control.
  - by apply nfc_ascii, printable_ascii.
Qed.

Lemma scalar_clean s n : str_wf s -> normalize_string_scalar s = Ok n -> str_wf n /\ str_clean n.
Proof.
  unfold normalize_string_scalar. intros Hw. destruct (has_control_char (strip_bom s)) eqn:Hc; [done|].
  intros [= <-]. destruct (strip_bom_spec s Hw) as [Hs _]. split; [by apply nfc_valid|].
  unfold str_clean. rewrite nfc_bom, nfc_control, nfc_idem. split_and!; [by apply strip_bom_has|done..].
Qed.

Lemma digit_printable d : 0 <= d < 10 -> ascii_between " " "~" (digit_char d) = true.
Proof. intros H. assert (d ∈ seqZ 0 10) as Hd by (apply elem_of_seqZ; lia). clear H.
  repeat (apply elem_of_cons in Hd as [->|Hd]; [reflexivity|]). by apply elem_of_nil in Hd.
Qed.

Lemma pad9_range n v : Forall (fun d => 0 <= d < 10) (pad9_digits n v).
Proof.
  revert v. induction n as [|n IH]; intros v; cbn; [constructor|]. apply Forall_app. split; [apply IH|].
  repeat constructor; apply Z.mod_pos_bound; lia.
Qed.
Lemma pop_zeros_range l : Forall (fun d => 0 <= d < 10) l -> Forall (fun d => 0 <= d < 10) (pop_zeros l).
Proof. induction 1 as [|x l Hx Hl IH]; cbn; [constructor|]. destruct x; [done|by constructor..]. Qed.
Lemma digits_printable l : Forall (fun d => 0 <= d < 10) l -> printable_text (digits_string l) = true.
Proof.
  induction 1 as [|d l Hd Hl IH]; [done|]. cbn. apply andb_true_intro. split; [by apply digit_printable|done].
Qed.

Lemma timestamp_clean s ts : normalize_timestamp s = Ok ts -> str_wf ts /\ str_clean ts.
Proof.
  unfold normalize_timestamp. destruct (parse_rfc3339_utc s) as [[base n]|] eqn:E; [|done].
  apply rfc3339_text in E. set (frac := digits_string _).
  assert (printable_text frac = true) as Hf.
  { apply digits_printable, List.Forall_rev, pop_zeros_range, List.Forall_rev, pad9_range. }
  clearbody frac. intros H. apply printable_clean. unfold printable_text in *.
  destruct (n =? 0); injection H as <-; by rewrite !str_forallb_app, E, ?Hf.
Qed.

Lemma norm_array_clean p i l out :
  Forall (fun x => forall pk p v', normalize_value_for_input x pk p = Ok v' -> normal_json v') l ->
  norm_array p i l = Ok out -> Forall normal_json out.
Proof.
  intros HF. revert i out. induction HF as [|x l Hx HF IH]; intros i out; [intros [= <-]; constructor|].
  cbn [norm_array]. fold (norm_array p). intros H. inv_ok. constructor; eauto.
Qed.

Lemma norm_object_clean p m out out' :
  Forall (fun kv => str_wf kv.1 /\ forall pk p v', normalize_value_for_input kv.2 pk p = Ok v' -> normal_json v') m ->
  normal_json (JObject out) -> norm_object p out m = Ok out' -> normal_json (JObject out').
Proof.
  intros HF. revert out. induction HF as [|[k x] m [Hk Hx] HF IH]; intros out Ho; [by intros [= <-]|].
  cbn [norm_object]. fold (norm_object p). cbn [fst snd] in Hk, Hx. cbv zeta.
  destruct (normalize_key_scalar k) as [nk|] eqn:Ek; [|done]. cbn [map_err mbind result_bind].
  unfold normalize_key_scalar in Ek. apply result_bind_ok in Ek as (n & Hn%scalar_clean & Ek); [|done].
  destruct (String.eqb n ""); [done|]. injection Ek as ->. destruct Hn as [Wk Ck].
  destruct (normalize_value_for_input x _ _) as [nv|] eqn:Ex; [|done]. cbn [mbind result_bind].
  apply Hx in Ex as [Wv Cv]. destruct (is_null nv) eqn:En; [by apply IH|].
  destruct (map_get nk out) eqn:Eg; [done|]. apply IH. apply map_get_None in Eg.
  rewrite map_insert_fresh by done. destruct Ho as [Wo Co]. split.
  - apply json_wf_object in Wo as [Nd Wo]. apply json_wf_object. split.
    + rewrite fmap_app. apply NoDup_app. split; [done|]. split; [|apply NoDup_singleton].
      intros y Hy ->%list_elem_of_singleton. done.
    + apply Forall_app. split; [done|]. by apply Forall_singleton.
  - apply clean_object. apply clean_object in Co. apply Forall_app. split; [done|]. by apply Forall_singleton.
Qed.

Lemma normalize_clean v pk p v' : json_wf v -> normalize_value_for_input v pk p = Ok v' -> normal_json v'.
Proof.
  revert pk p v'. induction v as [|b|n|s|l IH|m IH] using json_ind'; intros pk p v' W.
  - by intros [= <-].
  - by intros [= <-].
  - by intros [= <-].
  - cbn. destruct (normalize_string_scalar s) as [n|] eqn:E; [|done]. cbn.
    apply scalar_clean in E; [|done]. intros H.
    assert (exists x, v' = JString x /\ str_wf x /\ str_clean x) as (x & -> & ? & ?); [|by split].
    destruct (match pk with Some _ => _ | None => _ end); [|injection H as <-; eauto].
    destruct (normalize_timestamp n) as [ts|] eqn:Et; injection H as <-; [|eauto].
    apply timestamp_clean in Et. eauto.
  - rewrite norm_array_eq. apply json_wf_array in W. intros (out & E & H)%result_bind_ok.
    apply norm_array_clean in E.
    2: { rewrite Forall_forall in IH, W |- *. intros x Hx pk' p' y Hy. eapply IH; eauto. }
    assert (forall s, Forall normal_json s -> normal_json (JArray s)) as Harr.
    { intros s Hs. split; [apply json_wf_array|apply clean_array]; eapply Forall_impl; [exact Hs|by intros ? []|exact Hs|by intros ? []]. }
    destruct (match pk with Some _ => _ | None => _ end); [|injection H as <-; auto].
    apply result_bind_ok in H as (s & Es & [= <-]). apply Harr. rewrite Forall_forall in E |- *.
    intros x Hx. eapply E, as_set_elem; eauto.
  - rewrite norm_object_eq. intros (out & E & [= <-])%result_bind_ok. apply json_wf_object in W as [_ W].
    eapply norm_object_clean; [| |exact E].
    + rewrite Forall_forall in IH, W |- *. intros kv Hkv. destruct (W _ Hkv) as [Wk Wv]. split; [done|].
      intros pk' p' y Hy. eapply IH; eauto.
    + split; [|done]. apply json_wf_object. split; constructor.
Qed.

End Norm.
