(* ===== verification/Knock.v ===== *)
(** * KNOCK: admission of raw input ([ubl_runtime::knock])

    The first gate of the pipeline ([ubl_runtime/src/knock.rs]): size and UTF-8
    of the body, parsing and normalisation, optional import of floats as
    intervals, anchors, depth and array limits, the rules on numbers and
    [@num] atoms, the schema of task events, and the textual scan for
    duplicate keys.  The JSON reader and Rust's [Debug] rendering of a string
    are parameters. *)

From S2P Require Import Prelude RustStd RustStr Json Nrf BigNum Unc1 Receipt.

Local Open Scope string_scope.
Local Open Scope list_scope.
Local Open Scope Z_scope.

(** [{:?}] of a string. *)
Class StrDebug : Type := { str_debug : string -> string }.

Definition MAX_BODY_BYTES : Z := 1048576.
Definition MAX_DEPTH : nat := 32.
Definition MAX_ARRAY_LEN : Z := 10000.

Inductive F64ImportMode : Type := RejectF64 | BndF64.

Definition f64_mode_from_env (env : Environment) : F64ImportMode :=
  match env "F64_IMPORT_MODE" with
  | Ok v => if eq_ignore_ascii_case v "bnd" then BndF64 else RejectF64
  | Err _ => RejectF64
  end.

(** What [MalformedNum] reports: a message, or an error of the numerics. *)
Inductive num_fault : Type := NumText (s : string) | NumUnc (e : unc_error).

Inductive KnockError : Type :=
| BodyTooLarge (n : Z)
| DepthExceeded
| ArrayTooLong (n : Z)
| KnockDuplicateKey (k : string)
| InvalidUtf8
| MissingAnchor (k : string)
| NotObject
| RawFloat (s : string)
| MalformedNum (s : num_fault)
| NumericLiteralNotAllowed (p : string)
| InputNormalization (s : string)
| SchemaValidation (s : string)
| KnockPanic.

Definition knock_raw (bs : bytes) : result KnockError unit :=
  if MAX_BODY_BYTES <? Z.of_nat (length bs) then Err (BodyTooLarge (Z.of_nat (length bs)))
  else if negb (utf8_valid bs) then Err InvalidUtf8
  else Ok tt.

(** ** Structure *)

Fixpoint check_depth (value : json) (depth : nat) {struct value} : result KnockError unit :=
  if (MAX_DEPTH <? depth)%nat then Err DepthExceeded
  else
    match value with
    | JObject m =>
        (fix go (m : list (string * json)) : result KnockError unit :=
           match m with [] => Ok tt | (_, x) :: m' => _ ← check_depth x (S depth); go m' end) m
    | JArray l =>
        (fix go (l : list json) : result KnockError unit :=
           match l with [] => Ok tt | x :: l' => _ ← check_depth x (S depth); go l' end) l
    | _ => Ok tt
    end.

Fixpoint check_arrays (value : json) : result KnockError unit :=
  match value with
  | JArray l =>
      if MAX_ARRAY_LEN <? Z.of_nat (length l) then Err (ArrayTooLong (Z.of_nat (length l)))
      else
        (fix go (l : list json) : result KnockError unit :=
           match l with [] => Ok tt | x :: l' => _ ← check_arrays x; go l' end) l
  | JObject m =>
      (fix go (m : list (string * json)) : result KnockError unit :=
         match m with [] => Ok tt | (_, x) :: m' => _ ← check_arrays x; go m' end) m
  | _ => Ok tt
  end.

(** ** [@num] atoms *)

Definition is_bigint_literal (s : string) : bool :=
  match s with
  | EmptyString => false
  | String a r =>
      if Ascii.eqb a "-" then negb (is_empty r) && str_forallb is_ascii_digit r
      else str_forallb is_ascii_digit s
  end.

Definition is_zero_bigint (s : string) : bool :=
  let s := match strip_prefix "-" s with Some r => r | None => s end in
  negb (is_empty s) && str_forallb (fun c => Ascii.eqb c "0") s.

Definition malformed {A} (s : string) : result KnockError A := Err (MalformedNum (NumText s)).

Fixpoint ensure_allowed_keys (m : list (string * json)) (allowed : list string) (path tag : string)
    : result KnockError unit :=
  match m with
  | [] => Ok tt
  | (k, _) :: m' =>
      if existsb (String.eqb k) allowed then ensure_allowed_keys m' allowed path tag
      else malformed (path +:+ " contains unknown field '" +:+ k +:+ "' for " +:+ tag)
  end.

Definition ensure_bigint_field (m : list (string * json)) (field path : string) : result KnockError string :=
  match map_get field m ≫= as_str with
  | None => malformed (path +:+ "." +:+ field +:+ " must be bigint string")
  | Some s =>
      if is_bigint_literal s then Ok s
      else malformed (path +:+ "." +:+ field +:+ " invalid bigint literal '" +:+ s +:+ "'")
  end.

Definition ensure_u32_field (m : list (string * json)) (field path : string) : result KnockError Z :=
  match map_get field m ≫= as_u64 with
  | None => malformed (path +:+ "." +:+ field +:+ " must be u32")
  | Some n => if n <=? u32_max then Ok n else malformed (path +:+ "." +:+ field +:+ " out of range for u32")
  end.

Definition is_string (v : json) : bool := match v with JString _ => true | _ => false end.

Definition ensure_optional_unit (m : list (string * json)) (path : string) : result KnockError unit :=
  match map_get "u" m with
  | Some v => if is_string v then Ok tt else malformed (path +:+ ".u must be string when present")
  | None => Ok tt
  end.

(** The argument is the whole object; the code only calls this on objects. *)
Fixpoint validate_num_atom (v : json) (path : string) {struct v} : result KnockError unit :=
  match v with
  | JObject m =>
      let sub (k path' : string) :=
        (fix go (m : list (string * json)) : option (result KnockError unit) :=
           match m with
           | [] => None
           | (k', x) :: m' =>
               if String.eqb k k' then match x with JObject _ => Some (validate_num_atom x path') | _ => None end
               else go m'
           end) m in
      match map_get "@num" m ≫= as_str with
      | None => malformed (path +:+ ".@num must be string")
      | Some tag =>
          if String.eqb tag "int/1" then
            _ ← ensure_allowed_keys m ["@num"; "v"; "u"] path tag;
            _ ← ensure_bigint_field m "v" path;
            ensure_optional_unit m path
          else if String.eqb tag "dec/1" then
            _ ← ensure_allowed_keys m ["@num"; "m"; "s"; "u"] path tag;
            _ ← ensure_bigint_field m "m" path;
            _ ← ensure_u32_field m "s" path;
            ensure_optional_unit m path
          else if String.eqb tag "rat/1" then
            _ ← ensure_allowed_keys m ["@num"; "p"; "q"; "u"] path tag;
            _ ← ensure_bigint_field m "p" path;
            q ← ensure_bigint_field m "q" path;
            if is_zero_bigint q then malformed (path +:+ ".q must be non-zero for rat/1")
            else ensure_optional_unit m path
          else if String.eqb tag "bnd/1" then
            _ ← ensure_allowed_keys m ["@num"; "lo"; "hi"; "u"] path tag;
            lo ← ok_or (sub "lo" (path +:+ ".lo")) (MalformedNum (NumText (path +:+ ".lo must be object")));
            hi ← ok_or (sub "hi" (path +:+ ".hi")) (MalformedNum (NumText (path +:+ ".hi must be object")));
            _ ← lo;
            _ ← hi;
            ensure_optional_unit m path
          else malformed (path +:+ ".@num unsupported tag '" +:+ tag +:+ "'")
      end
  | _ => malformed path
  end.

Fixpoint check_numeric_nodes `{SerdeJson} (value : json) (path : string) (require_unc1 : bool) {struct value}
    : result KnockError unit :=
  match value with
  | JNumber n =>
      if is_i64 n then if require_unc1 then Err (NumericLiteralNotAllowed path) else Ok tt
      else if is_u64 n then Err (InputNormalization ("numeric literal out of i64 range at " +:+ path))
      else Err (RawFloat (value_to_string (JNumber n) +:+ " at " +:+ path))
  | JArray l =>
      (fix go (idx : Z) (l : list json) : result KnockError unit :=
         match l with
         | [] => Ok tt
         | x :: l' =>
             _ ← check_numeric_nodes x (path +:+ "[" +:+ u_to_string idx +:+ "]") require_unc1;
             go (idx + 1) l'
         end) 0 l
  | JObject m =>
      if contains_key "@num" m then validate_num_atom (JObject m) path
      else
        (fix go (m : list (string * json)) : result KnockError unit :=
           match m with
           | [] => Ok tt
           | (k, x) :: m' => _ ← check_numeric_nodes x (path +:+ "." +:+ k) require_unc1; go m'
           end) m
  | _ => Ok tt
  end.

(** The derived [Serialize] of [Num]: the tag first. *)
Fixpoint num_to_json (n : Num) : json :=
  let unit_member (u : option string) := member_opt "u" JString u in
  match n with
  | NumInt v u => JObject ([("@num", JString "int/1"); ("v", JString v)] ++ unit_member u)
  | NumDec m s u => JObject ([("@num", JString "dec/1"); ("m", JString m); ("s", JNumber (PosInt s))] ++ unit_member u)
  | NumRat p q u => JObject ([("@num", JString "rat/1"); ("p", JString p); ("q", JString q)] ++ unit_member u)
  | NumBnd lo hi u =>
      JObject ([("@num", JString "bnd/1"); ("lo", num_to_json lo); ("hi", num_to_json hi)] ++ unit_member u)
  end.

Fixpoint normalize_f64_to_bnd `{BigNum} (value : json) : result KnockError json :=
  match value with
  | JNumber (Float bits) =>
      bnd ← map_err (fun e => MalformedNum (NumUnc e)) (from_f64_bits bits);
      Ok (num_to_json bnd)
  | JNumber _ => Ok value
  | JArray l =>
      l' ← (fix go (l : list json) : result KnockError (list json) :=
              match l with
              | [] => Ok []
              | x :: l' => y ← normalize_f64_to_bnd x; ys ← go l'; Ok (y :: ys)
              end) l;
      Ok (JArray l')
  | JObject m =>
      if contains_key "@num" m then Ok value
      else
        m' ← (fix go (m : list (string * json)) : result KnockError (list (string * json)) :=
                match m with
                | [] => Ok []
                | (k, x) :: m' => y ← normalize_f64_to_bnd x; ys ← go m'; Ok ((k, y) :: ys)
                end) m;
        Ok (JObject m')
  | _ => Ok value
  end.

(** ** The schema of task events *)

Definition schema {A} (s : string) : result KnockError A :=
  Err (SchemaValidation ("task.lifecycle.event.v1: " +:+ s)).

Definition validate_required_nonempty_string (m : list (string * json)) (field : string) : result KnockError unit :=
  match map_get field m ≫= as_str with
  | None => schema (field +:+ " must be string")
  | Some value => if blank value then schema (field +:+ " must be non-empty") else Ok tt
  end.

Fixpoint validate_items (field : string) (idx : Z) (l : list json) : result KnockError unit :=
  match l with
  | [] => Ok tt
  | item :: l' =>
      match as_str item with
      | None => schema (field +:+ "[" +:+ u_to_string idx +:+ "] must be string")
      | Some s =>
          if blank s then schema (field +:+ "[" +:+ u_to_string idx +:+ "] must be non-empty")
          else validate_items field (idx + 1) l'
      end
  end.
Definition validate_array_of_strings (m : list (string * json)) (field : string) : result KnockError nat :=
  match map_get field m ≫= as_array with
  | None => schema (field +:+ " must be array")
  | Some arr => _ ← validate_items field 0 arr; Ok (length arr)
  end.

Definition allowed_state : list string := ["open"; "blocked"; "in_progress"; "done"; "canceled"].
Definition allowed_role : list string := ["personal"; "platform"; "operator"; "noc"].

Definition validate_task_event `{StrDebug} (obj : list (string * json)) : result KnockError unit :=
  _ ← validate_required_nonempty_string obj "@id";
  _ ← validate_required_nonempty_string obj "@ver";
  _ ← validate_required_nonempty_string obj "task_id";
  _ ← validate_required_nonempty_string obj "track";
  _ ← validate_required_nonempty_string obj "title";
  match map_get "state" obj ≫= as_str with
  | None => schema "state must be string"
  | Some state =>
      if negb (existsb (String.eqb state) allowed_state) then schema ("invalid state " +:+ str_debug state)
      else
        _ ← validate_array_of_strings obj "depends_on";
        evidence_len ← validate_array_of_strings obj "evidence";
        _ ← (if String.eqb state "blocked" then validate_required_nonempty_string obj "blocker_code" else Ok tt);
        if String.eqb state "done" && (evidence_len =? 0)%nat
        then schema "done state requires at least one evidence item"
        else
          match map_get "actor" obj ≫= as_object with
          | None => schema "actor must be object"
          | Some actor =>
              _ ← validate_required_nonempty_string actor "did";
              match map_get "role" actor ≫= as_str with
              | None => schema "actor.role must be string"
              | Some role =>
                  if negb (existsb (String.eqb role) allowed_role)
                  then schema ("invalid actor.role " +:+ str_debug role) else Ok tt
              end
          end
  end.

Definition validate_type_specific_schema `{StrDebug} (value : json) : result KnockError unit :=
  obj ← ok_or (as_object value) NotObject;
  chip_type ← ok_or (map_get "@type" obj ≫= as_str) (MissingAnchor "@type");
  if negb (String.eqb chip_type "task.lifecycle.event.v1") then Ok tt else validate_task_event obj.

Definition knock_parsed_with_options `{SerdeJson} `{StrDebug} (value : json) (require_unc1 : bool)
    : result KnockError unit :=
  obj ← ok_or (as_object value) NotObject;
  if negb (contains_key "@type" obj) then Err (MissingAnchor "@type")
  else if negb (contains_key "@world" obj) then Err (MissingAnchor "@world")
  else
    _ ← check_depth value 0;
    _ ← check_arrays value;
    _ ← check_numeric_nodes value "$" require_unc1;
    validate_type_specific_schema value.

(** ** The scan for duplicate keys *)

Inductive scan_stop : Type :=
| ScanDuplicate (key : bytes)
| ScanPanic
| ScanOutOfFuel.

Definition quote_b : Byte.byte := x22.
Definition backslash_b : Byte.byte := x5c.

(** From just after an opening quote: the bytes up to the closing one, and the
    text from there on.  Skipping an escape past the end makes the slice that
    follows panic. *)
Fixpoint find_end (bs : bytes) : result scan_stop (bytes * bytes) :=
  match bs with
  | [] => Ok ([], [])
  | b :: r =>
      if Byte.eqb b backslash_b then
        match r with
        | [] => Err ScanPanic
        | c :: r' => '(k, rest) ← find_end r'; Ok (b :: c :: k, rest)
        end
      else if Byte.eqb b quote_b then Ok ([], bs)
      else '(k, rest) ← find_end r; Ok (b :: k, rest)
  end.

(** [u8::is_ascii_whitespace]. *)
Definition is_ascii_ws (b : Byte.byte) : bool :=
  let n := u8 b in (n =? 32) || (n =? 9) || (n =? 10) || (n =? 12) || (n =? 13).
Fixpoint skip_ws (bs : bytes) : bytes :=
  match bs with b :: r => if is_ascii_ws b then skip_ws r else bs | [] => [] end.

Definition is_key_colon (rest : bytes) : bool :=
  match skip_ws (tail rest) with b :: _ => Byte.eqb b x3a | [] => false end.

(** One object: from after its opening brace to its closing brace. *)
Fixpoint scan_object (fuel : nat) (keys : list bytes) (depth : nat) (in_string escape : bool) (bs : bytes)
    : result scan_stop bytes :=
  match bs with
  | [] => Ok []
  | b :: r =>
      match fuel with
      | O => Err ScanOutOfFuel
      | S f =>
          if escape then scan_object f keys depth in_string false r
          else if Byte.eqb b backslash_b && in_string then scan_object f keys depth in_string true r
          else if Byte.eqb b quote_b then
            if negb in_string && (depth =? 0)%nat then
              '(key, rest) ← find_end r;
              if match key with [] => false | _ => is_key_colon rest end then
                if bool_decide (key ∈ keys) then Err (ScanDuplicate key)
                else scan_object f (key :: keys) depth in_string escape (tail rest)
              else scan_object f keys depth in_string escape (tail rest)
            else scan_object f keys depth (negb in_string) escape r
          else if negb in_string && (Byte.eqb b x7b || Byte.eqb b x5b) then scan_object f keys (S depth) in_string escape r
          else if negb in_string && (Byte.eqb b x7d || Byte.eqb b x5d) then
            match depth with
            | O => Ok bs
            | S d => scan_object f keys d in_string escape r
            end
          else scan_object f keys depth in_string escape r
      end
  end.

Fixpoint scan_loop (fuel : nat) (bs : bytes) : result scan_stop unit :=
  match bs with
  | [] => Ok tt
  | b :: r =>
      match fuel with
      | O => Err ScanOutOfFuel
      | S f =>
          if Byte.eqb b x7b then
            rest ← scan_object (length r) [] 0 false false r;
            scan_loop f (tail rest)
          else scan_loop f r
      end
  end.

Definition scan_object_keys (bs : bytes) : result KnockError unit :=
  match scan_loop (length bs) bs with
  | Ok _ => Ok tt
  | Err (ScanDuplicate key) => Err (KnockDuplicateKey (string_of_list_byte key))
  | Err _ => Err KnockPanic
  end.

Definition check_duplicate_keys (bs : bytes) : result KnockError unit :=
  if utf8_valid bs then scan_object_keys bs else Err InvalidUtf8.

(** ** The whole stage *)

Definition path_text `{StrDebug} (p : path) : string :=
  fold_left (fun acc seg =>
    match seg with
    | SegKey k => acc +:+ "." +:+ k
    | SegQuotedKey k => acc +:+ "[" +:+ str_debug k +:+ "]"
    | SegIndex i => acc +:+ "[" +:+ u_to_string (Z.of_nat i) +:+ "]"
    end) p.2 p.1.

Definition violation_text (r : rho_violation) : string :=
  match r with
  | NumberMustBeI64 => "Number must be i64"
  | RBomPresent => "BOMPresent"
  | RControlCharPresent => "ControlCharPresent"
  | RNotNFC => "NotNFC"
  | RBomInKey => "BOMPresent in key"
  | RControlCharInKey => "ControlCharPresent in key"
  | RNotNFCInKey => "NotNFC in key"
  | RDuplicateKey k => "DuplicateKey(" +:+ k +:+ ")"
  | REmptyKeyAfterNormalization => "EmptyKeyAfterNormalization"
  end.

(** The message of a normalisation error (only [ρ] violations arise). *)
Definition normalization_text `{StrDebug} (e : NrfError) : string :=
  match e with
  | RhoViolation p r => "ρ violation at " +:+ path_text p +:+ ": " +:+ violation_text r
  | _ => ""
  end.

Definition map_normalization_error `{StrDebug} (e : NrfError) : KnockError :=
  let msg := normalization_text e in
  match split_once_str "DuplicateKey(" msg with
  | Some (_, tail) => KnockDuplicateKey (default tail (split_on ")" tail !! 0%nat))
  | None => InputNormalization msg
  end.

Section Knock.
Context {U : Unicode} {CH : Chrono} {SJ : SerdeJson} {BN : BigNum} {SD : StrDebug}.

Definition knock_with_options (bs : bytes) (require_unc1_numeric : bool) (f64_import_mode : F64ImportMode)
    : result KnockError json :=
  _ ← knock_raw bs;
  value ← ok_or (from_slice bs) (InputNormalization "invalid JSON syntax");
  value ← map_err map_normalization_error (normalize_for_input value);
  value ← match f64_import_mode with BndF64 => normalize_f64_to_bnd value | RejectF64 => Ok value end;
  _ ← knock_parsed_with_options value require_unc1_numeric;
  _ ← check_duplicate_keys bs;
  Ok value.

Definition require_unc1_from_env (env : Environment) : bool :=
  match env "REQUIRE_UNC1_NUMERIC" with
  | Ok v => String.eqb v "1" || eq_ignore_ascii_case v "true"
  | Err _ => false
  end.

Definition knock (env : Environment) (bs : bytes) : result KnockError json :=
  knock_with_options bs (require_unc1_from_env env) (f64_mode_from_env env).

Definition knock_parsed (env : Environment) (value : json) : result KnockError unit :=
  knock_parsed_with_options value (require_unc1_from_env env).
End Knock.
