(* ===== verification/KnockFacts.v ===== *)
(** * Facts about KNOCK

    An admitted body respects the size, depth and array limits, holds only
    [i64] integers, and has canonical bytes; the duplicate-key scan terminates,
    does not panic on text that does not end in a backslash, and decides
    uniqueness of the keys of a flat object, but does not look inside nested
    ones. *)

From S2P Require Import Prelude RustStd RustStr Json Nrf NrfFacts NrfExact Rho TextFacts.
From S2P Require Import BigNum Unc1 Unc1Facts Receipt Knock.

Local Open Scope string_scope.
Local Open Scope list_scope.
Local Open Scope Z_scope.

(** ** Values inside values *)

Inductive subvalue (y : json) : json -> Prop :=
| sub_refl : subvalue y y
| sub_array x l : x ∈ l -> subvalue y x -> subvalue y (JArray l)
| sub_object k x m : (k, x) ∈ m -> subvalue y x -> subvalue y (JObject m).

(** The same, not entering [@num] atoms. *)
Inductive bare_subvalue (y : json) : json -> Prop :=
| bare_refl : bare_subvalue y y
| bare_array x l : x ∈ l -> bare_subvalue y x -> bare_subvalue y (JArray l)
| bare_object k x m : contains_key "@num" m = false -> (k, x) ∈ m -> bare_subvalue y x -> bare_subvalue y (JObject m).

Fixpoint json_depth (v : json) : nat :=
  match v with
  | JArray l => (fix go (l : list json) : nat := match l with [] => O | x :: l' => Nat.max (S (json_depth x)) (go l') end) l
  | JObject m =>
      (fix go (m : list (string * json)) : nat :=
         match m with [] => O | (_, x) :: m' => Nat.max (S (json_depth x)) (go m') end) m
  | _ => O
  end.

(** ** Structural limits *)

Lemma check_depth_spec v d : check_depth v d = Ok tt <-> (d + json_depth v <= MAX_DEPTH)%nat.
Proof.
  revert d. induction v as [|b|n|s|l IH|m IH] using json_ind'; intros d.
  1-4: cbn [check_depth json_depth]; destruct (Nat.ltb_spec MAX_DEPTH d); split; intros; try done; lia.
  - cbn [check_depth json_depth]. destruct (Nat.ltb_spec MAX_DEPTH d) as [Hd|Hd]; [split; [done|lia]|].
    induction IH as [|x l Hx Hl IHl]; [split; [lia|done]|].
    destruct (check_depth x (S d)) as [[]|e] eqn:E; cbn [mbind result_bind].
    + apply Hx in E. rewrite IHl. lia.
    + split; [done|]. intros H. assert (check_depth x (S d) = Ok tt) by (apply Hx; lia). congruence.
  - cbn [check_depth json_depth]. destruct (Nat.ltb_spec MAX_DEPTH d) as [Hd|Hd]; [split; [done|lia]|].
    induction IH as [|[k x] m Hx Hm IHm]; [split; [lia|done]|]. cbn [snd] in Hx.
    destruct (check_depth x (S d)) as [[]|e] eqn:E; cbn [mbind result_bind].
    + apply Hx in E. rewrite IHm. lia.
    + split; [done|]. intros H. assert (check_depth x (S d) = Ok tt) by (apply Hx; lia). congruence.
Qed.

Lemma check_arrays_sound v l :
  check_arrays v = Ok tt -> subvalue (JArray l) v -> Z.of_nat (length l) <= MAX_ARRAY_LEN.
Proof.
  intros Hc Hs. induction Hs as [|x l' Hin Hs IH|k x m Hin Hs IH].
  - cbn [check_arrays] in Hc. destruct (Z.ltb_spec MAX_ARRAY_LEN (Z.of_nat (length l))); [done|lia].
  - apply IH. cbn [check_arrays] in Hc. destruct (MAX_ARRAY_LEN <? _); [done|].
    clear -Hc Hin. induction l' as [|y l' IH]; [by apply elem_of_nil in Hin|].
    destruct (check_arrays y) as [[]|] eqn:E; [|done]. cbn in Hc.
    apply elem_of_cons in Hin as [->|Hin]; auto.
  - apply IH. cbn [check_arrays] in Hc. clear -Hc Hin. induction m as [|[k' y] m IH]; [by apply elem_of_nil in Hin|].
    destruct (check_arrays y) as [[]|] eqn:E; [|done]. cbn in Hc.
    apply elem_of_cons in Hin as [[= -> ->]|Hin]; auto.
Qed.

(** ** Numbers *)

Lemma allowed_keys_elem m allowed path tag k x :
  ensure_allowed_keys m allowed path tag = Ok tt -> (k, x) ∈ m -> k ∈ allowed.
Proof.
  induction m as [|[k' y] m IH]; cbn; [by intros _ ?%elem_of_nil|].
  destruct (existsb (String.eqb k') allowed) eqn:E; [|done]. intros H [[= -> ->]|Hin]%elem_of_cons; [|auto].
  apply existsb_exists in E as (z & Hz & ->%String.eqb_eq). by apply list_elem_of_In.
Qed.

Lemma bigint_field_string m f p s : ensure_bigint_field m f p = Ok s -> map_get f m = Some (JString s).
Proof.
  unfold ensure_bigint_field. destruct (map_get f m) as [[]|]; cbn; try done.
  destruct (is_bigint_literal _); [|done]. by intros [= ->].
Qed.
Lemma unit_string m p x : ensure_optional_unit m p = Ok tt -> map_get "u" m = Some x -> exists s, x = JString s.
Proof. unfold ensure_optional_unit. intros H E. rewrite E in H. destruct x; try done. eauto. Qed.
Lemma u32_field_number m f p n :
  ensure_u32_field m f p = Ok n -> map_get f m = Some (JNumber (PosInt n)) /\ n <= u32_max.
Proof.
  unfold ensure_u32_field. destruct (map_get f m) as [[| |[]| | |]|]; cbn; try done.
  destruct (Z.leb_spec n0 u32_max); [|done]. by intros [= ->].
Qed.

(** The nested atoms of an interval. *)
Definition atom_member (m : list (string * json)) (k path : string) : option (result KnockError unit) :=
  (fix go (m : list (string * json)) : option (result KnockError unit) :=
     match m with
     | [] => None
     | (k', x) :: m' =>
         if String.eqb k k' then match x with JObject _ => Some (validate_num_atom x path) | _ => None end
         else go m'
     end) m.
Lemma atom_member_spec m k path r :
  atom_member m k path = Some r -> exists mm, map_get k m = Some (JObject mm) /\ r = validate_num_atom (JObject mm) path.
Proof.
  induction m as [|[k' x] m IH]; [done|]. cbn [atom_member map_get]. destruct (String.eqb k k').
  - destruct x; try done. intros [= <-]. eauto.
  - apply IH.
Qed.

(** The values an atom may hold: text, a [u32], or (for the bounds) atoms. *)
Definition atom_value (x : json) : Prop :=
  (exists s, x = JString s) \/ (exists n, x = JNumber (PosInt n) /\ n <= u32_max) \/
  (exists mm path, x = JObject mm /\ validate_num_atom x path = Ok tt).

Lemma atom_values m path k x :
  NoDup m.*1 -> validate_num_atom (JObject m) path = Ok tt -> (k, x) ∈ m -> atom_value x.
Proof.
  intros Hnd Hv Hin. pose proof (proj2 (map_get_elem_iff k x m Hnd) Hin) as Hx.
  cbn [validate_num_atom] in Hv. fold (atom_member m "lo" (path +:+ ".lo")) in Hv.
  fold (atom_member m "hi" (path +:+ ".hi")) in Hv.
  destruct (map_get "@num" m) as [tv|] eqn:Et; [|done]. destruct tv as [| | |tag| |]; try done. cbn [mbind option_bind as_str] in Hv.
  unfold atom_value. repeat case_match; try done; inv_ok.
  all: repeat match goal with
       | H : ensure_bigint_field _ _ _ = Ok _ |- _ => apply bigint_field_string in H
       | H : ensure_u32_field _ _ _ = Ok _ |- _ => apply u32_field_number in H as [? ?]
       | H : atom_member _ _ _ = Some _ |- _ => apply atom_member_spec in H as (? & ? & ?)
       | u : unit |- _ => destruct u
       end.
  all: match goal with H : ensure_allowed_keys _ _ _ _ = Ok _ |- _ => pose proof (allowed_keys_elem _ _ _ _ _ _ H Hin) as Hk end.
  all: repeat (apply elem_of_cons in Hk as [->|Hk]); try (by apply elem_of_nil in Hk).
  all: first
       [ destruct (unit_string _ _ _ Hv Hx) as [z ->]; left; by eexists
       | match goal with
         | Hi : (?k, ?x) ∈ ?m, H1 : map_get ?k ?m = Some ?x, H2 : map_get ?k ?m = Some ?y |- _ =>
             assert (x = y) as -> by congruence
         end; eauto 10
       | eauto 10 ].
Qed.

Lemma atom_numbers v path n :
  json_wf v -> validate_num_atom v path = Ok tt -> subvalue (JNumber n) v -> is_Some (number_as_i64 n).
Proof.
  revert path. induction v as [|b|n'|s|l IH|m IH] using json_ind'; intros path W Hv; try done.
  inversion 1 as [| |k x ? Hin Hs]; subst. apply json_wf_object in W as [Hnd W].
  rewrite Forall_forall in IH, W.
  destruct (atom_values _ _ _ _ Hnd Hv Hin) as [[s ->]|[(z & -> & Hz)|(mm & p' & -> & Hm)]].
  - inversion Hs.
  - inversion Hs; subst. cbn. destruct (Z.leb_spec z i64_max); [by eexists|]. unfold u32_max, i64_max in *. lia.
  - eapply (IH (k, JObject mm)); try done. by apply (W (k, JObject mm)).
Qed.

Section Numeric.
Context {SJ : SerdeJson}.

Lemma numeric_array_elem l idx p req x :
  (fix go (idx : Z) (l : list json) : result KnockError unit :=
     match l with
     | [] => Ok tt
     | x :: l' =>
         _ ← check_numeric_nodes x (p +:+ "[" +:+ u_to_string idx +:+ "]") req;
         go (idx + 1) l'
     end) idx l = Ok tt -> x ∈ l -> exists p', check_numeric_nodes x p' req = Ok tt.
Proof.
  revert idx. induction l as [|y l IH]; intros idx H Hin; [by apply elem_of_nil in Hin|].
  apply result_bind_ok in H as ([] & E & H). apply elem_of_cons in Hin as [->|Hin]; eauto.
Qed.
Lemma numeric_object_elem m p req k x :
  (fix go (m : list (string * json)) : result KnockError unit :=
     match m with
     | [] => Ok tt
     | (k, x) :: m' => _ ← check_numeric_nodes x (p +:+ "." +:+ k) req; go m'
     end) m = Ok tt -> (k, x) ∈ m -> exists p', check_numeric_nodes x p' req = Ok tt.
Proof.
  induction m as [|[k' y] m IH]; intros H Hin; [by apply elem_of_nil in Hin|].
  apply result_bind_ok in H as ([] & E & H). apply elem_of_cons in Hin as [[= -> ->]|Hin]; eauto.
Qed.

Lemma numeric_numbers v p req n :
  json_wf v -> check_numeric_nodes v p req = Ok tt -> subvalue (JNumber n) v -> is_Some (number_as_i64 n).
Proof.
  revert p. induction v as [|b|n'|s|l IH|m IH] using json_ind'; intros p W Hv Hs.
  - inversion Hs.
  - inversion Hs.
  - assert (n' = n) as -> by (by inversion Hs). cbn in Hv. destruct n as [z|z|z]; cbn in *; [|by eexists|done].
    destruct (z <=? i64_max); [by eexists|done].
  - inversion Hs.
  - inversion Hs as [|x ? Hin Hs'|]; subst. apply json_wf_array in W. rewrite Forall_forall in IH, W.
    destruct (numeric_array_elem _ _ _ _ _ Hv Hin) as [p' Hp']. by eapply IH; eauto.
  - inversion Hs as [| |k x ? Hin Hs']; subst. cbn [check_numeric_nodes] in Hv.
    destruct (contains_key "@num" m); [by eapply (atom_numbers (JObject m))|].
    apply json_wf_object in W as [_ W]. rewrite Forall_forall in IH, W.
    destruct (numeric_object_elem _ _ _ _ _ Hv Hin) as [p' Hp']. eapply (IH (k, x)); eauto. by apply (W (k, x)).
Qed.

Lemma numeric_strict v p n : check_numeric_nodes v p true = Ok tt -> ~ bare_subvalue (JNumber n) v.
Proof.
  revert p. induction v as [|b|n'|s|l IH|m IH] using json_ind'; intros p Hv Hs.
  - inversion Hs.
  - inversion Hs.
  - cbn in Hv. destruct n'; cbn in Hv; repeat case_match; done.
  - inversion Hs.
  - inversion Hs as [|x ? Hin Hs'|]; subst. rewrite Forall_forall in IH.
    destruct (numeric_array_elem _ _ _ _ _ Hv Hin) as [p' Hp']. by eapply IH; eauto.
  - inversion Hs as [| |k x ? Hk Hin Hs']; subst. cbn [check_numeric_nodes] in Hv. rewrite Hk in Hv.
    rewrite Forall_forall in IH. destruct (numeric_object_elem _ _ _ _ _ Hv Hin) as [p' Hp'].
    by eapply (IH (k, x)); eauto.
Qed.
End Numeric.

(** Clean text and numbers together. *)
Lemma clean_numbers {U : Unicode} (P : number -> Prop) vals v :
  clean (fun _ => True) vals v -> (forall n, subvalue (JNumber n) v -> P n) -> clean P (fun _ => True) v.
Proof.
  induction v as [|b|n|s|l IH|m IH] using json_ind'; intros Hc Hn; try done.
  - apply Hn. constructor.
  - apply clean_array in Hc. apply clean_array. rewrite Forall_forall in *. intros x Hx.
    apply IH; [done|by apply Hc|]. intros n Hs. apply Hn. by eapply sub_array.
  - apply clean_object in Hc. apply clean_object. rewrite Forall_forall in *. intros [k x] Hx.
    destruct (Hc _ Hx) as (? & ? & ?). split_and!; [done..|]. apply (IH (k, x)); [done..|].
    intros n Hs. apply Hn. by eapply sub_object.
Qed.

(** ** Importing floats *)

Lemma dec_digits_printable f n acc :
  0 <= n -> printable_text acc = true -> printable_text (dec_digits f n acc) = true.
Proof.
  revert n acc. induction f as [|f IH]; intros n acc Hn Ha; [done|]. cbn [dec_digits].
  assert (printable_text (String (digit_char (n mod 10)) acc) = true) as Hd.
  { cbn. rewrite digit_printable; [done|]. apply Z.mod_pos_bound. lia. }
  destruct (_ <? _) eqn:E; [done|]. apply IH; [|done]. apply Z.div_pos; lia.
Qed.
Lemma i_to_string_printable z : printable_text (i_to_string z) = true.
Proof.
  unfold i_to_string, u_to_string. destruct (Z.ltb_spec z 0).
  - cbn [printable_text str_forallb]. change (ascii_between " " "~" "-") with true. cbn [andb].
    apply dec_digits_printable; [lia|done].
  - by apply dec_digits_printable.
Qed.

Section FloatImport.
Context {U : Unicode} {CH : Chrono} {BN : BigNum} `{!UnicodeLaws U, !UnicodeAscii U, !BigNumLaws BN}.

(** A decimal with printable mantissa and a scale in [u32]. *)
Definition plain_dec (n : Num) : Prop :=
  exists m s, n = NumDec m s None /\ printable_text m = true /\ 0 <= s <= u32_max.

Lemma from_f64_plain bits n :
  from_f64_bits bits = Ok n -> exists lo hi, n = NumBnd lo hi None /\ plain_dec lo /\ plain_dec hi.
Proof.
  assert (forall r rm, plain_dec (round_rational_to_dec r 18 rm)) as Hr.
  { intros r rm. do 2 eexists. split; [reflexivity|]. rewrite to_string_decimal.
    split; [apply i_to_string_printable|unfold u32_max; lia]. }
  assert (plain_dec zero_dec) as Hz by (do 2 eexists; split; [reflexivity|split; [done|unfold u32_max; lia]]).
  unfold from_f64_bits. destruct (negb _); [done|]. destruct (f64_is_zero bits).
  - intros [= <-]. eauto.
  - intros H. inv_ok. eauto 10.
Qed.

Lemma plain_dec_normal n : plain_dec n -> normal_json (num_to_json n) /\ is_null (num_to_json n) = false.
Proof.
  intros (m & s & -> & Hm & Hs). split; [|done]. destruct (printable_clean m Hm) as [W C].
  assert (forall k, printable_text k = true -> str_wf k /\ str_clean k) as Hk by apply printable_clean.
  cbn [num_to_json app member_opt]. split.
  - apply json_wf_object. split; [apply (bool_decide_unpack _); vm_compute; exact I|].
    repeat apply Forall_cons_2; try apply Forall_nil_2; cbn [fst snd]; split; try (by apply Hk); try done.
    cbn. unfold u32_max, u64_max in *. lia.
  - apply clean_object. repeat apply Forall_cons_2; try apply Forall_nil_2; cbn [fst snd];
      split_and!; try (by apply Hk); try done.
Qed.

Lemma bnd_normal bits n :
  from_f64_bits bits = Ok n -> normal_json (num_to_json n) /\ is_null (num_to_json n) = false.
Proof.
  intros (lo & hi & -> & [[Wl Cl] Nl]%plain_dec_normal & [[Wh Ch] Nh]%plain_dec_normal)%from_f64_plain. split; [|done].
  assert (forall k, printable_text k = true -> str_wf k /\ str_clean k) as Hk by apply printable_clean.
  cbn [num_to_json app member_opt]. split.
  - apply json_wf_object. split; [apply (bool_decide_unpack _); vm_compute; exact I|].
    repeat apply Forall_cons_2; try apply Forall_nil_2; cbn [fst snd]; split; try (by apply Hk); try done.
  - apply clean_object. repeat apply Forall_cons_2; try apply Forall_nil_2; cbn [fst snd];
      split_and!; try (by apply Hk); try done.
Qed.

Lemma import_normal v v' :
  normal_json v -> normalize_f64_to_bnd v = Ok v' -> normal_json v' /\ (is_null v = false -> is_null v' = false).
Proof.
  revert v'. induction v as [|b|n|s|l IH|m IH] using json_ind'; intros v' [W C].
  - by intros [= <-].
  - by intros [= <-].
  - destruct n as [z|z|z]; cbn; [by intros [= <-]..|].
    destruct (from_f64_bits z) as [q|] eqn:E; [|done]. intros [= <-]. apply bnd_normal in E as [? ?]. auto.
  - by intros [= <-].
  - cbn [normalize_f64_to_bnd]. intros (l' & E & [= <-])%result_bind_ok. split; [|done].
    apply json_wf_array in W. apply clean_array in C.
    assert (Forall normal_json l') as HF.
    { revert l' E. induction l as [|x l IHl]; intros l' E; [injection E as <-; constructor|].
      apply result_bind_ok in E as (y & Ey & E). apply result_bind_ok in E as (ys & Eys & [= <-]).
      inversion IH; inversion W; inversion C; subst. constructor; [|eauto].
      match goal with Hx : forall v', normal_json x -> _ |- _ => apply (Hx y); [by split|done] end. }
    split; [apply json_wf_array|apply clean_array]; (eapply Forall_impl; [exact HF|by intros ? []]).
  - cbn [normalize_f64_to_bnd]. destruct (contains_key "@num" m); [by intros [= <-]|].
    intros (m' & E & [= <-])%result_bind_ok. split; [|done].
    apply json_wf_object in W as [Nd W]. apply clean_object in C.
    assert (m'.*1 = m.*1 /\ Forall (fun kv => (str_wf kv.1 /\ str_clean kv.1) /\ normal_json kv.2 /\ is_null kv.2 = false) m')
      as [Hk HF].
    { clear Nd. revert m' E. induction m as [|[k x] m IHm]; intros m' E; [injection E as <-; by split|].
      apply result_bind_ok in E as (y & Ey & E). apply result_bind_ok in E as (ys & Eys & [= <-]).
      inversion IH as [|? ? Hx IH']; inversion W as [|? ? [Wk Wx] W']; inversion C as [|? ? (Ck & Nx & Cx) C']; subst.
      cbn [fst snd] in *. destruct (IHm IH' W' C' _ Eys) as [Hks HF]. split; [by rewrite !fmap_cons, Hks|].
      constructor; [|done]. cbn [fst snd]. destruct (Hx y) as [Hy Hn]; [by split|done|]. split_and!; auto. }
    split.
    + apply json_wf_object. rewrite Hk. split; [done|]. eapply Forall_impl; [exact HF|]. by intros kv [[? ?] [[? ?] ?]].
    + apply clean_object. eapply Forall_impl; [exact HF|]. by intros kv [[? ?] [[? ?] ?]].
Qed.
End FloatImport.

(** ** The scan *)

Lemma find_end_app r k rest : find_end r = Ok (k, rest) -> r = k ++ rest.
Proof.
  revert k rest. induction r as [r IH] using (induction_ltof1 _ (@length _)). unfold ltof in IH.
  intros k rest. destruct r as [|b r]; [by intros [= <- <-]|]. cbn [find_end].
  destruct (Byte.eqb b backslash_b).
  - destruct r as [|c r]; [done|]. intros ([k' rest'] & E & [= <- <-])%result_bind_ok.
    apply IH in E as ->; [done|cbn; lia].
  - destruct (Byte.eqb b quote_b); [by intros [= <- <-]|].
    intros ([k' rest'] & E & [= <- <-])%result_bind_ok. apply IH in E as ->; [done|cbn; lia].
Qed.

Lemma find_end_err r e : find_end r = Err e -> e = ScanPanic /\ last r = Some backslash_b.
Proof.
  revert e. induction r as [r IH] using (induction_ltof1 _ (@length _)). unfold ltof in IH.
  intros e. destruct r as [|b r]; [done|]. cbn [find_end]. destruct (Byte.eqb b backslash_b) eqn:Eb.
  - destruct r as [|c r]; [intros [= <-]; split; [done|]; by apply Byte.byte_dec_bl in Eb as ->|].
    destruct (find_end r) as [[k' rest']|e'] eqn:E; cbn; [done|]. intros [= <-].
    apply IH in E as [-> Hl]; [|cbn; lia]. split; [done|]. by destruct r.
  - destruct (Byte.eqb b quote_b); [done|].
    destruct (find_end r) as [[k' rest']|e'] eqn:E; cbn; [done|]. intros [= <-].
    apply IH in E as [-> Hl]; [|cbn; lia]. split; [done|]. by destruct r.
Qed.

(** Suffixes of a text: either finished or with the same last byte. *)
Lemma last_suffix {A} (pre r : list A) : r <> [] -> last (pre ++ r) = last r.
Proof. intros Hr. rewrite last_app. by destruct (last r) eqn:E; [|apply last_None in E]. Qed.

Lemma scan_object_spec f keys depth ins esc bs :
  (length bs <= f)%nat ->
  match scan_object f keys depth ins esc bs with
  | Ok rest => exists pre, bs = pre ++ rest
  | Err ScanOutOfFuel => False
  | Err ScanPanic => last bs = Some backslash_b
  | Err (ScanDuplicate _) => True
  end.
Proof.
  revert keys depth ins esc bs. induction f as [|f IH]; intros keys depth ins esc bs Hf.
  { destruct bs; [by exists []|cbn in Hf; lia]. }
  destruct bs as [|b r]; [by exists []|]. cbn [length] in Hf.
  assert (forall keys depth ins esc x, (exists pre, b :: r = pre ++ x) -> (length x <= f)%nat ->
    match scan_object f keys depth ins esc x with
    | Ok rest => exists pre, b :: r = pre ++ rest
    | Err ScanOutOfFuel => False
    | Err ScanPanic => last (b :: r) = Some backslash_b
    | Err (ScanDuplicate _) => True
    end) as Hstep.
  { intros keys' depth' ins' esc' x [pre ->] Hx. specialize (IH keys' depth' ins' esc' x Hx).
    destruct (scan_object f keys' depth' ins' esc' x) as [rest|[| |]]; try done.
    - destruct IH as [pre' ->]. exists (pre ++ pre'). by rewrite (assoc_L app).
    - rewrite last_suffix; [done|]. by intros ->. }
  assert (forall keys depth ins esc, 
    match scan_object f keys depth ins esc r with
    | Ok rest => exists pre, b :: r = pre ++ rest
    | Err ScanOutOfFuel => False
    | Err ScanPanic => last (b :: r) = Some backslash_b
    | Err (ScanDuplicate _) => True
    end) as Hr.
  { intros. apply Hstep; [by exists [b]|lia]. }
  cbn [scan_object]. destruct esc; [apply Hr|]. destruct (Byte.eqb b backslash_b && ins); [apply Hr|].
  destruct (Byte.eqb b quote_b).
  - destruct (negb ins && (depth =? 0)%nat); [|apply Hr].
    destruct (find_end r) as [[key rest]|e] eqn:E; cbn [mbind result_bind].
    + apply find_end_app in E. assert (exists pre, b :: r = pre ++ tail rest) as Hs.
      { rewrite E. destruct rest as [|q rest]; [exists (b :: key); cbn; by rewrite !app_nil_r|].
        exists (b :: key ++ [q]). cbn. by rewrite <- (assoc_L app). }
      assert (length (tail rest) <= f)%nat as Hl.
      { rewrite E, length_app in Hf. destruct rest; cbn in *; lia. }
      destruct (match key with [] => _ | _ => _ end); [|by apply Hstep].
      case_bool_decide; [done|by apply Hstep].
    + apply find_end_err in E as [-> Hl]. by destruct r.
  - destruct (negb ins && (Byte.eqb b x7b || Byte.eqb b x5b)); [apply Hr|].
    destruct (negb ins && (Byte.eqb b x7d || Byte.eqb b x5d)); [|apply Hr].
    destruct depth; [by exists []|apply Hr].
Qed.

Lemma scan_loop_spec f bs :
  (length bs <= f)%nat ->
  match scan_loop f bs with
  | Err ScanOutOfFuel => False
  | Err ScanPanic => last bs = Some backslash_b
  | _ => True
  end.
Proof.
  revert bs. induction f as [|f IH]; intros bs Hf; [destruct bs; [done|cbn in Hf; lia]|].
  destruct bs as [|b r]; [done|]. cbn [length] in Hf. cbn [scan_loop].
  assert (forall x, (exists pre, b :: r = pre ++ x) -> (length x <= f)%nat ->
    match scan_loop f x with
    | Err ScanOutOfFuel => False
    | Err ScanPanic => last (b :: r) = Some backslash_b
    | _ => True
    end) as Hstep.
  { intros x [pre ->] Hx. specialize (IH x Hx). destruct (scan_loop f x) as [|[| |]]; try done.
    rewrite last_suffix; [done|]. by intros ->. }
  destruct (Byte.eqb b x7b); [|apply Hstep; [by exists [b]|lia]].
  pose proof (scan_object_spec (length r) [] 0 false false r (le_n _)) as Ho.
  destruct (scan_object (length r) [] 0 false false r) as [rest|[| |]]; cbn [mbind result_bind]; try done.
  - destruct Ho as [pre Hp]. apply Hstep.
    + rewrite Hp. destruct rest as [|q rest]; [exists (b :: pre); cbn; by rewrite !app_nil_r|].
      exists (b :: pre ++ [q]). cbn. by rewrite <- (assoc_L app).
    + rewrite Hp, length_app in Hf. destruct rest; cbn in *; lia.
  - by destruct r.
Qed.

(** *** Flat objects *)

Definition plain_key (k : bytes) : Prop :=
  k <> [] /\ Forall (fun b => Byte.eqb b quote_b = false /\ Byte.eqb b backslash_b = false) k.
(** The text of a number, [true], [false] or [null]: no quotes or brackets. *)
Definition plain_value (v : bytes) : Prop :=
  Forall (fun b => forallb (fun c => negb (Byte.eqb b c)) [quote_b; x7b; x5b; x7d; x5d] = true) v.

Definition member_text (kv : bytes * bytes) : bytes := [quote_b] ++ kv.1 ++ [quote_b; x3a] ++ kv.2.
Fixpoint members_text (ms : list (bytes * bytes)) : bytes :=
  match ms with
  | [] => []
  | [m] => member_text m
  | m :: ms' => member_text m ++ [x2c] ++ members_text ms'
  end.
Definition flat_text (ms : list (bytes * bytes)) : bytes := [x7b] ++ members_text ms ++ [x7d].

Lemma find_end_plain k r : plain_key k -> find_end (k ++ quote_b :: r) = Ok (k, quote_b :: r).
Proof.
  intros [_ HF]. induction HF as [|b k [Hq Hb] HF IH]; [done|]. cbn [app find_end]. by rewrite Hb, Hq, IH.
Qed.

Lemma scan_plain v r f keys :
  plain_value v -> (length v <= f)%nat ->
  scan_object f keys 0 false false (v ++ r) = scan_object (f - length v) keys 0 false false r.
Proof.
  intros HF. revert f. induction HF as [|b v Hb HF IH]; intros f Hf; [by rewrite Nat.sub_0_r|].
  destruct f as [|f]; [cbn in Hf; lia|]. cbn [app scan_object length]. cbn [length] in Hf.
  cbn [forallb] in Hb. bool_to_prop.
  repeat match goal with H : Byte.eqb b _ = false |- _ => rewrite H; clear H end.
  rewrite andb_false_r. cbn [negb andb orb]. rewrite IH by lia. f_equal.
Qed.

Lemma scan_member k v r f keys :
  plain_key k -> plain_value v -> (length (member_text (k, v)) <= f)%nat ->
  exists f', (f <= f' + length (member_text (k, v)))%nat /\
  scan_object f keys 0 false false (member_text (k, v) ++ r) =
  if bool_decide (k ∈ keys) then Err (ScanDuplicate k) else scan_object f' (k :: keys) 0 false false r.
Proof.
  intros Hk Hv Hf. unfold member_text in *. cbn [fst snd] in *. rewrite !length_app in Hf. cbn [length] in Hf.
  destruct f as [|[|f]]; [lia..|]. exists (f - length v)%nat. rewrite !length_app. cbn [length]. split; [lia|].
  rewrite <- !(assoc_L app). cbn [app]. set (x := k ++ _). cbn [scan_object].
  change (Byte.eqb quote_b backslash_b) with false. change (Byte.eqb quote_b quote_b) with true. cbn [andb negb Nat.eqb].
  unfold x. rewrite find_end_plain by done. cbn [mbind result_bind].
  assert (match k with [] => false | _ => is_key_colon (quote_b :: x3a :: v ++ r) end = true) as ->.
  { destruct Hk as [Hk _]. by destruct k. }
  case_bool_decide; [done|]. cbn [tail]. cbn [scan_object].
  change (Byte.eqb x3a backslash_b) with false. change (Byte.eqb x3a quote_b) with false.
  change (Byte.eqb x3a x7b) with false. change (Byte.eqb x3a x5b) with false.
  change (Byte.eqb x3a x7d) with false. change (Byte.eqb x3a x5d) with false. cbn [andb orb negb].
  rewrite scan_plain; [done..|]. lia.
Qed.

Lemma scan_members ms r f keys :
  Forall (fun kv => plain_key kv.1 /\ plain_value kv.2) ms ->
  (length (members_text ms ++ x7d :: r) <= f)%nat ->
  NoDup keys ->
  (NoDup (ms.*1 ++ keys) -> scan_object f keys 0 false false (members_text ms ++ x7d :: r) = Ok (x7d :: r)) /\
  (~ NoDup (ms.*1 ++ keys) -> exists k, scan_object f keys 0 false false (members_text ms ++ x7d :: r) = Err (ScanDuplicate k)).
Proof.
  intros HF. revert f keys. induction HF as [|[k v] ms [Hk Hv] HF IH]; intros f keys Hf Hnd.
  { split; [|done]. intros _. destruct f as [|f]; [cbn in Hf; lia|]. done. }
  cbn [fst snd] in Hk, Hv.
  assert (exists sep, members_text ((k, v) :: ms) = member_text (k, v) ++ sep ++ members_text ms /\ plain_value sep) as (sep & Hm & Hsep).
  { destruct ms as [|m ms]; [exists []|exists [x2c]].
    - split; [cbn [members_text]; by rewrite !app_nil_r|constructor].
    - split; [done|]. by repeat constructor. }
  rewrite Hm, <- !(assoc_L app) in Hf |- *. rewrite length_app in Hf.
  destruct (scan_member k v (sep ++ members_text ms ++ x7d :: r) f keys Hk Hv ltac:(lia)) as (f' & Hf' & ->).
  rewrite length_app in Hf. csimpl. case_bool_decide as Hin.
  - split; [|by eauto]. rewrite NoDup_cons. intros [Hn _]. exfalso. apply Hn. apply elem_of_app. by right.
  - rewrite scan_plain by (done || lia).
    destruct (IH (f' - length sep)%nat (k :: keys)) as [H1 H2]; [lia|by constructor|].
    rewrite <- Permutation_middle in H1, H2. by split.
Qed.

(** What [serde_json::from_slice] builds: UTF-8 strings, unique keys, numbers
    in range. *)
Class SerdeJsonLaws (S : SerdeJson) : Prop := { from_slice_wf bs v : from_slice bs = Some v -> json_wf v }.

(** ** Properties *)

Section Properties.
Context {U : Unicode} {CH : Chrono} {SJ : SerdeJson} {BN : BigNum} {SD : StrDebug}
  `{!UnicodeLaws U, !UnicodeAscii U, !ChronoLaws CH, !SerdeJsonLaws SJ, !BigNumLaws BN}.

(** C6: Soundness of admission.  A body that KNOCK admits is UTF-8 of at most
    1 MiB; the admitted value is an object with a text [@type] and a [@world],
    nested at most 32 deep, with arrays of at most 10,000 elements; all its
    numbers are [i64], under the strict option none stands outside an [@num]
    atom; and it has canonical bytes, so the stages behind KNOCK can compute
    its CID. *)
Theorem knock_admits bs req mode v :
  knock_with_options bs req mode = Ok v ->
  Z.of_nat (length bs) <= MAX_BODY_BYTES /\ utf8_valid bs = true /\
  (exists m ty, v = JObject m /\ map_get "@type" m = Some (JString ty) /\ contains_key "@world" m = true) /\
  (json_depth v <= MAX_DEPTH)%nat /\
  (forall l, subvalue (JArray l) v -> Z.of_nat (length l) <= MAX_ARRAY_LEN) /\
  (forall n, subvalue (JNumber n) v -> is_Some (number_as_i64 n)) /\
  (req = true -> forall n, ~ bare_subvalue (JNumber n) v) /\
  exists b, to_nrf1_bytes v = Ok b.
Proof.
  unfold knock_with_options. intros H. apply result_bind_ok in H as ([] & Hraw & H).
  apply result_bind_ok in H as (v0 & Hparse & H). apply result_bind_ok in H as (v1 & Hnorm & H).
  apply result_bind_ok in H as (v2 & Himp & H). apply result_bind_ok in H as ([] & Hk & H).
  apply result_bind_ok in H as ([] & Hdup & [= <-]).
  assert (json_wf v0) as W0.
  { destruct (from_slice bs) eqn:E; [|done]. injection Hparse as ->. by eapply from_slice_wf. }
  assert (normal_json v1) as N1.
  { destruct (normalize_for_input v0) eqn:E; [|done]. injection Hnorm as ->. by eapply normalize_clean. }
  assert (normal_json v2) as [W2 C2].
  { destruct mode; [by injection Himp as <-|]. by apply import_normal in Himp as [? _]. }
  unfold knock_raw in Hraw. destruct (Z.ltb_spec MAX_BODY_BYTES (Z.of_nat (length bs))); [done|].
  destruct (utf8_valid bs) eqn:Hu; [|done].
  unfold knock_parsed_with_options in Hk. apply result_bind_ok in Hk as (m & Hm & Hk).
  destruct v2 as [| | | | |m']; try done. injection Hm as ->.
  destruct (contains_key "@type" m); [|done]. destruct (contains_key "@world" m) eqn:Hw; [|done]. cbn [negb] in Hk.
  apply result_bind_ok in Hk as ([] & Hd & Hk). apply result_bind_ok in Hk as ([] & Ha & Hk).
  apply result_bind_ok in Hk as ([] & Hn & Hs).
  assert (forall n, subvalue (JNumber n) (JObject m) -> is_Some (number_as_i64 n)) as Hints
    by (intros n; by eapply numeric_numbers).
  split_and!; [done..| | | | | |].
  - unfold validate_type_specific_schema in Hs. apply result_bind_ok in Hs as (? & [= <-] & Hs).
    apply result_bind_ok in Hs as (ty & Hty & _). exists m, ty. split; [done|]. split; [|done].
    destruct (map_get "@type" m) as [[]|]; try done. by injection Hty as ->.
  - apply check_depth_spec in Hd. lia.
  - intros l. by apply check_arrays_sound.
  - done.
  - intros -> n. by eapply numeric_strict.
  - destruct (conv_encodable (JObject m) ("body"%string, [])) as [n E]; [done| |].
    + by eapply clean_numbers.
    + exists (encode_to_vec n). unfold to_nrf1_bytes, json_to_nrf. by rewrite E.
Qed.
End Properties.

(** The duplicate-key scan terminates on every input (its fuel, the length, is
    never exhausted), and it can panic only on text whose last byte is a
    backslash, which no JSON document is. *)
Theorem scan_total bs :
  scan_loop (length bs) bs <> Err ScanOutOfFuel /\
  (last bs <> Some backslash_b -> scan_object_keys bs <> Err KnockPanic).
Proof.
  pose proof (scan_loop_spec (length bs) bs (le_n _)) as H. unfold scan_object_keys.
  destruct (scan_loop (length bs) bs) as [[]|[| |]]; try done.
Qed.

(** On the text of a flat object (plain keys, values without quotes and
    brackets) the scan accepts exactly when the keys are distinct. *)
Theorem scan_flat_exact ms :
  Forall (fun kv => plain_key kv.1 /\ plain_value kv.2) ms ->
  (scan_object_keys (flat_text ms) = Ok tt <-> NoDup ms.*1).
Proof.
  intros HF. unfold scan_object_keys, flat_text. cbn [app length scan_loop].
  change (Byte.eqb x7b x7b) with true.
  destruct (scan_members ms [] (length (members_text ms ++ [x7d])) [] HF (le_n _) (NoDup_nil_2)) as [H1 H2].
  rewrite app_nil_r in H1, H2. destruct (decide (NoDup ms.*1)) as [Hn|Hn].
  - rewrite (H1 Hn). cbn [mbind result_bind tail]. destruct (length _); by split.
  - destruct (H2 Hn) as [k ->]. by split.
Qed.

(** ** Witnesses *)

Module KnockSample.

Definition text (s : string) : bytes := as_bytes s.
(** Double quotes written as accents. *)
Definition q (s : string) : bytes := (fun b => if Byte.eqb b x60 then quote_b else b) <$> as_bytes s.

(** Keys of a nested object are not compared, escapes of one character are
    not recognised, and empty keys are skipped. *)
Lemma nested_duplicates_pass : scan_object_keys (q "{`a`:{`x`:1,`x`:2}}") = Ok tt.
Proof. reflexivity. Qed.
Lemma escaped_duplicates_pass : scan_object_keys (q "{`a`:1,`\u0061`:2}") = Ok tt.
Proof. reflexivity. Qed.
Lemma empty_duplicates_pass : scan_object_keys (q "{``:1,``:2}") = Ok tt.
Proof. reflexivity. Qed.
Lemma toplevel_duplicates_found : scan_object_keys (q "{`a`:1,`a`:2}") = Err (KnockDuplicateKey "a").
Proof. reflexivity. Qed.
(** The slice past the end. *)
Lemma scan_panics : scan_object_keys (q "{`a" ++ [backslash_b]) = Err KnockPanic.
Proof. reflexivity. Qed.

Definition body : json :=
  JObject [("@type", JString "doc/x"); ("@world", JString "a/b"); ("n", JNumber (PosInt 7));
           ("f", JNumber (Float 4591870180066957722)); ("l", JArray [JNull; JString "t"])].

#[local] Existing Instance ascii_unicode.
#[local] Instance id_laws : UnicodeLaws ascii_unicode.
Proof. by constructor. Qed.
#[local] Instance id_ascii : UnicodeAscii ascii_unicode.
Proof. by constructor. Qed.
#[local] Instance no_chrono : Chrono := {| parse_rfc3339_utc _ := None |}.
#[local] Instance no_chrono_laws : ChronoLaws no_chrono.
Proof. by constructor. Qed.
#[local] Instance one_json : SerdeJson :=
  {| from_slice _ := Some body; to_vec _ := []; value_to_string _ := "0.1" |}.
#[local] Instance one_json_laws : SerdeJsonLaws one_json.
Proof. split. intros bs v [= <-]. apply json_wfb_sound. vm_compute. reflexivity. Qed.
#[local] Instance id_debug : StrDebug := {| str_debug s := s |}.

Lemma knock_admits_witness : exists v,
  knock_with_options (q "{`@type`:`doc/x`,`@world`:`a/b`,`n`:7,`f`:0.1,`l`:[null,`t`]}") false BndF64 = Ok v /\
  (json_depth v <= MAX_DEPTH)%nat /\ exists b, to_nrf1_bytes v = Ok b.
Proof.
  eexists. split; [vm_compute; reflexivity|].
  edestruct (knock_admits (q "{`@type`:`doc/x`,`@world`:`a/b`,`n`:7,`f`:0.1,`l`:[null,`t`]}") false BndF64)
    as (_ & _ & _ & H1 & _ & _ & _ & H2); [vm_compute; reflexivity|].
  split; [exact H1|exact H2].
Defined.

Lemma scan_flat_exact_witness :
  scan_object_keys (flat_text [(text "a", text "1"); (text "b", text "true")]) = Ok tt <->
  NoDup [text "a"; text "b"].
Proof.
  apply (scan_flat_exact [(text "a", text "1"); (text "b", text "true")]).
  repeat (apply Forall_cons_2; [split; [split; [discriminate|]|]|]); try apply Forall_nil_2;
    repeat (apply Forall_cons_2; [by vm_compute|]); apply Forall_nil_2.
Defined.

Lemma scan_total_witness : scan_object_keys (text "{}") <> Err KnockPanic.
Proof. apply (scan_total (text "{}")). vm_compute. discriminate. Defined.
End KnockSample.
