(* ===== verification/ChipStore.v ===== *)
(** * The chip store ([ubl_chipstore])

    Executed chips under their CIDs, with secondary indexes by type, tag,
    executor and receipt: the store front end ([lib.rs]), the in-memory backend
    and the query helpers ([backends.rs]), the indexer ([indexing.rs]) and the
    query builder ([query.rs]).  A backend is an instance of the interface
    [ChipStoreBackend]; every operation takes the backend's state and returns
    the new one.  [ChipStoreFacts] has the contract of the interface and its
    proofs. *)

From S2P Require Import Prelude RustStd RustStr.
From S2P Require Import Json Nrf Types.

#[export] Instance TypedCid_eq_dec : EqDecision TypedCid.
Proof. solve_decision. Defined.
#[export] Instance TypedCid_countable : Countable TypedCid :=
  inj_countable' cid_as_str cid_new_unchecked (fun c => match c with cid_new_unchecked s => eq_refl end).

(** The iteration order of Rust's hash maps and sets is unspecified: some
    rearrangement of the elements. *)
Class HashIter : Type := { hash_iter : forall A : Type, list A -> list A }.
Class HashIterLaws (H : HashIter) : Prop := {
  hash_iter_perm A (l : list A) : hash_iter A l ≡ₚ l }.

(** [chrono::DateTime::parse_from_rfc3339(s)] printed with [%Y-%m-%d]. *)
Class ChronoDate : Type := { rfc3339_date : string -> option string }.

(** ** Data *)

Record ExecutionMetadata : Type := mkMeta {
  runtime_version : string;
  execution_time_ms : Z;
  fuel_consumed : Z;
  policies_applied : list string;
  executor_did : TypedDid;
  reproducible : bool }.

Record StoredChip : Type := mkChip {
  cid : TypedCid;
  chip_type : string;
  chip_data : json;
  receipt_cid : TypedCid;
  created_at : string;
  execution_metadata : ExecutionMetadata;
  tags : list string;
  related_chips : list string }.

Record ChipQuery : Type := mkQuery {
  q_chip_type : option string;
  q_tags : list string;
  q_created_after : option string;
  q_created_before : option string;
  q_executor_did : option string;
  q_limit : option nat;
  q_offset : option nat }.

Record QueryResult : Type := mkQueryResult {
  qr_chips : list StoredChip;
  total_count : nat;
  has_more : bool }.

Inductive ChipStoreError : Type :=
| Serialization (s : string)
| SerializationNrf (e : NrfError)
| Backend (s : string)
| NotFound (s : string)
| InvalidCid (s : string)
| Index (s : string).

(** ** The derived [serde] forms *)

Definition metadata_to_json (m : ExecutionMetadata) : json :=
  JObject [("runtime_version", JString (runtime_version m)); ("execution_time_ms", json_i64 (execution_time_ms m));
           ("fuel_consumed", json_i64 (fuel_consumed m)); ("policies_applied", json_strings (policies_applied m));
           ("executor_did", JString (did_as_str (executor_did m))); ("reproducible", JBool (reproducible m))]%string.

Definition metadata_from_json (v : json) : option ExecutionMetadata :=
  if struct_of 6 v then
    rv ← str_at "runtime_version" 0 v; ms ← at_field "execution_time_ms" 1 v ≫= as_i64; fuel ← at_field "fuel_consumed" 2 v ≫= as_u64;
    ps ← strings_at "policies_applied" 3 v; did ← str_at "executor_did" 4 v; rep ← at_field "reproducible" 5 v ≫= as_bool;
    Some (mkMeta rv ms fuel ps (did_new_unchecked did) rep)
  else None.

Definition chip_to_json (c : StoredChip) : json :=
  JObject [("cid", JString (cid_as_str (cid c))); ("chip_type", JString (chip_type c)); ("chip_data", chip_data c);
           ("receipt_cid", JString (cid_as_str (receipt_cid c))); ("created_at", JString (created_at c));
           ("execution_metadata", metadata_to_json (execution_metadata c)); ("tags", json_strings (tags c));
           ("related_chips", json_strings (related_chips c))]%string.

Definition chip_from_json (v : json) : option StoredChip :=
  if struct_of 8 v then
    c ← str_at "cid" 0 v; ty ← str_at "chip_type" 1 v; data ← at_field "chip_data" 2 v; r ← str_at "receipt_cid" 3 v;
    t ← str_at "created_at" 4 v; m ← at_field "execution_metadata" 5 v ≫= metadata_from_json;
    tg ← strings_at "tags" 6 v; rel ← strings_at "related_chips" 7 v;
    Some (mkChip (cid_new_unchecked c) ty data (cid_new_unchecked r) t m tg rel)
  else None.

(** ** Query helpers *)

(** [results.sort_by(|a, b| b.created_at.cmp(&a.created_at))]. *)
Definition newest_first (a b : StoredChip) : bool := String.leb (created_at b) (created_at a).

Definition apply_pagination (results : list StoredChip) (query : ChipQuery) : QueryResult :=
  let sorted := sort_by newest_first results in
  let total := length sorted in
  let offset := default 0%nat (q_offset query) in
  let limit := default 100%nat (q_limit query) in
  let page := take limit (drop offset sorted) in
  mkQueryResult page total ((offset + length page) <? total)%nat.

(** [chip.tags.contains(tag)]. *)
Definition has_tag_in (l : list string) (tag : string) : bool := existsb (String.eqb tag) l.

(** A filter that is only applied when the query has the field. *)
Definition when_some {A} (o : option A) (p : A -> bool) : bool :=
  match o with Some a => p a | None => true end.

Definition executor_of (chip : StoredChip) : string := did_as_str (executor_did (execution_metadata chip)).

Definition matches_query (chip : StoredChip) (query : ChipQuery) : bool :=
  when_some (q_chip_type query) (String.eqb (chip_type chip))
  && forallb (has_tag_in (tags chip)) (q_tags query)
  && when_some (q_created_after query) (fun after => negb (String.leb (created_at chip) after))
  && when_some (q_created_before query) (fun before => negb (String.leb before (created_at chip)))
  && when_some (q_executor_did query) (String.eqb (executor_of chip)).

Definition intersect_sets {A} `{Countable A} (current : option (gset A)) (next : gset A) : gset A :=
  match current with Some existing => existing ∩ next | None => next end.

(** ** Index maps *)

Abbreviation index_map := (gmap string (gset TypedCid)).

(** [index.get(key).cloned().unwrap_or_default()]. *)
Definition index_get (idx : index_map) (key : string) : gset TypedCid := default ∅ (idx !! key).

(** [entry(key).or_insert_with(HashSet::new).insert(cid)]. *)
Definition index_insert (key : string) (c : TypedCid) (idx : index_map) : index_map :=
  <[key := {[c]} ∪ index_get idx key]> idx.

(** [get_mut(key)], [remove(cid)], and the key goes with its last CID. *)
Definition index_remove (key : string) (c : TypedCid) (idx : index_map) : index_map :=
  match idx !! key with
  | None => idx
  | Some cids =>
      let cids' := cids ∖ {[c]} in
      if decide (cids' = ∅) then delete key idx else <[key := cids']> idx
  end.

Record ChipIndexes : Type := mkIndexes {
  type_index : index_map;
  tag_index : index_map;
  executor_index : index_map }.

Definition no_indexes : ChipIndexes := mkIndexes ∅ ∅ ∅.

(** The three critical sections of [index_chip]. *)
Definition index_type (chip : StoredChip) (i : ChipIndexes) : ChipIndexes :=
  mkIndexes (index_insert (chip_type chip) (cid chip) (type_index i)) (tag_index i) (executor_index i).
Definition index_tags (chip : StoredChip) (i : ChipIndexes) : ChipIndexes :=
  mkIndexes (type_index i) (fold_left (fun idx tag => index_insert tag (cid chip) idx) (tags chip) (tag_index i))
    (executor_index i).
Definition index_executor (chip : StoredChip) (i : ChipIndexes) : ChipIndexes :=
  mkIndexes (type_index i) (tag_index i) (index_insert (executor_of chip) (cid chip) (executor_index i)).

Definition index_chip (chip : StoredChip) (i : ChipIndexes) : ChipIndexes :=
  index_executor chip (index_tags chip (index_type chip i)).

Definition remove_chip_from_indexes (chip : StoredChip) (i : ChipIndexes) : ChipIndexes :=
  mkIndexes (index_remove (chip_type chip) (cid chip) (type_index i))
    (fold_left (fun idx tag => index_remove tag (cid chip) idx) (tags chip) (tag_index i))
    (index_remove (executor_of chip) (cid chip) (executor_index i)).

(** The candidates after each filter of the query. *)
Definition type_candidates (i : ChipIndexes) (query : ChipQuery) : option (gset TypedCid) :=
  match q_chip_type query with
  | Some ty => Some (intersect_sets None (index_get (type_index i) ty))
  | None => None
  end.
Definition tag_candidates (i : ChipIndexes) (query : ChipQuery) : option (gset TypedCid) :=
  fold_left (fun c tag => Some (intersect_sets c (index_get (tag_index i) tag))) (q_tags query)
    (type_candidates i query).
Definition executor_candidates (i : ChipIndexes) (query : ChipQuery) : option (gset TypedCid) :=
  match q_executor_did query with
  | Some e => Some (intersect_sets (tag_candidates i query) (index_get (executor_index i) e))
  | None => tag_candidates i query
  end.

Definition candidate_cids_from_indexes (i : ChipIndexes) (query : ChipQuery) : option (gset TypedCid) :=
  match q_chip_type query, q_tags query, q_executor_did query with
  | None, [], None => None
  | _, _, _ => Some (default ∅ (executor_candidates i query))
  end.

(** ** The backend interface *)

Class ChipStoreBackend (B : Type) : Type := {
  put_chip : StoredChip -> B -> B * result ChipStoreError unit;
  get_chip : string -> B -> result ChipStoreError (option StoredChip);
  get_chip_by_receipt_cid : string -> B -> result ChipStoreError (option StoredChip);
  exists_chip : string -> B -> result ChipStoreError bool;
  query_chips : ChipQuery -> B -> result ChipStoreError QueryResult;
  get_chips_by_type : string -> B -> result ChipStoreError (list StoredChip);
  get_related_chips : string -> B -> result ChipStoreError (list StoredChip);
  delete_chip : string -> B -> B * result ChipStoreError unit;
  rebuild_indexes : B -> B * result ChipStoreError unit;
  scan_all : B -> result ChipStoreError (list StoredChip) }.

(** ** The in-memory backend *)

Record InMemoryBackend : Type := mkMem {
  mem_chips : gmap TypedCid StoredChip;
  receipt_index : gmap TypedCid TypedCid;
  mem_indexes : ChipIndexes }.

Definition mem_new : InMemoryBackend := mkMem ∅ ∅ no_indexes.

Section InMemory.
Context {HI : HashIter}.

(** [chips.values().cloned().collect()]. *)
Definition map_values (m : gmap TypedCid StoredChip) : list StoredChip :=
  hash_iter _ ((map_to_list m).*2).

Definition set_iter (s : gset TypedCid) : list TypedCid := hash_iter _ (elements s).

Definition mem_put_chip (chip : StoredChip) (b : InMemoryBackend) : InMemoryBackend * result ChipStoreError unit :=
  (mkMem (<[cid chip := chip]> (mem_chips b)) (<[receipt_cid chip := cid chip]> (receipt_index b))
     (index_chip chip (mem_indexes b)), Ok tt).

Definition mem_get_chip (c : string) (b : InMemoryBackend) : result ChipStoreError (option StoredChip) :=
  Ok (mem_chips b !! cid_new_unchecked c).

Definition mem_get_chip_by_receipt_cid (r : string) (b : InMemoryBackend) :
    result ChipStoreError (option StoredChip) :=
  match receipt_index b !! cid_new_unchecked r with
  | Some c => Ok (mem_chips b !! c)
  | None => Ok None
  end.

Definition mem_exists (c : string) (b : InMemoryBackend) : result ChipStoreError bool :=
  Ok (bool_decide (is_Some (mem_chips b !! cid_new_unchecked c))).

Definition mem_query_chips (query : ChipQuery) (b : InMemoryBackend) : result ChipStoreError QueryResult :=
  let found :=
    match candidate_cids_from_indexes (mem_indexes b) query with
    | Some cids => omap (fun c => mem_chips b !! c) (set_iter cids)
    | None => map_values (mem_chips b)
    end in
  Ok (apply_pagination (List.filter (fun chip => matches_query chip query) found) query).

Definition mem_get_chips_by_type (ty : string) (b : InMemoryBackend) : result ChipStoreError (list StoredChip) :=
  Ok (sort_by newest_first
        (omap (fun c => mem_chips b !! c) (set_iter (index_get (type_index (mem_indexes b)) ty)))).

Definition mem_get_related_chips (c : string) (b : InMemoryBackend) : result ChipStoreError (list StoredChip) :=
  match mem_chips b !! cid_new_unchecked c with
  | Some chip => Ok (omap (fun r => mem_chips b !! cid_new_unchecked r) (related_chips chip))
  | None => Ok []
  end.

Definition mem_delete_chip (c : string) (b : InMemoryBackend) : InMemoryBackend * result ChipStoreError unit :=
  let key := cid_new_unchecked c in
  let chips := delete key (mem_chips b) in
  match mem_chips b !! key with
  | Some chip =>
      (mkMem chips (delete (receipt_cid chip) (receipt_index b)) (remove_chip_from_indexes chip (mem_indexes b)), Ok tt)
  | None => (mkMem chips (receipt_index b) (mem_indexes b), Ok tt)
  end.

Definition mem_rebuild_indexes (b : InMemoryBackend) : InMemoryBackend * result ChipStoreError unit :=
  (mkMem (mem_chips b) (receipt_index b)
     (fold_left (fun i chip => index_chip chip i) (map_values (mem_chips b)) no_indexes), Ok tt).

Definition mem_scan_all (b : InMemoryBackend) : result ChipStoreError (list StoredChip) :=
  Ok (map_values (mem_chips b)).

#[export] Instance in_memory_backend : ChipStoreBackend InMemoryBackend := {|
  put_chip := mem_put_chip;
  get_chip := mem_get_chip;
  get_chip_by_receipt_cid := mem_get_chip_by_receipt_cid;
  exists_chip := mem_exists;
  query_chips := mem_query_chips;
  get_chips_by_type := mem_get_chips_by_type;
  get_related_chips := mem_get_related_chips;
  delete_chip := mem_delete_chip;
  rebuild_indexes := mem_rebuild_indexes;
  scan_all := mem_scan_all |}.
End InMemory.

(** ** The indexer

    [ChipIndexer] keeps indexes of its own beside the backend's. *)

Section Indexer.
Context {HI : HashIter} {B : Type} {BE : ChipStoreBackend B}.

Definition indexer_cids (idx : index_map) (key : string) : list TypedCid :=
  match idx !! key with Some cids => set_iter cids | None => [] end.
Definition get_cids_by_type (i : ChipIndexes) (ty : string) : list TypedCid := indexer_cids (type_index i) ty.
Definition get_cids_by_tag (i : ChipIndexes) (tag : string) : list TypedCid := indexer_cids (tag_index i) tag.
Definition get_cids_by_executor (i : ChipIndexes) (e : string) : list TypedCid := indexer_cids (executor_index i) e.

Definition narrow (result_cids : option (gset TypedCid)) (found : list TypedCid) : option (gset TypedCid) :=
  Some (match result_cids with None => list_to_set found | Some existing => existing ∩ list_to_set found end).

Definition find_intersection (i : ChipIndexes) (ty : option string) (tgs : list string) (e : option string) :
    list TypedCid :=
  let r1 := match ty with Some t => narrow None (get_cids_by_type i t) | None => None end in
  let r2 := fold_left (fun r tag => narrow r (get_cids_by_tag i tag)) tgs r1 in
  let r3 := match e with Some d => narrow r2 (get_cids_by_executor i d) | None => r2 end in
  set_iter (default ∅ r3).

(** [ChipIndexer::index_chip] and [remove_from_indexes] keep these indexes the
    way the in-memory backend keeps its own. *)
Definition indexer_index_chip (chip : StoredChip) (i : ChipIndexes) : ChipIndexes * result ChipStoreError unit :=
  (index_chip chip i, Ok tt).
Definition remove_from_indexes (chip : StoredChip) (i : ChipIndexes) : ChipIndexes * result ChipStoreError unit :=
  (remove_chip_from_indexes chip i, Ok tt).

Definition indexer_rebuild (b : B) (i : ChipIndexes) : ChipIndexes * result ChipStoreError unit :=
  match scan_all b with
  | Ok chips => (fold_left (fun i chip => index_chip chip i) chips no_indexes, Ok tt)
  | Err e => (no_indexes, Err e)
  end.
End Indexer.

(** ** The store *)

(** The fields whose string values become tags. *)
Definition tag_fields : list string :=
  ["email"; "id"; "slug"; "status"; "target_cid"; "passport_cid"; "actor_cid"; "user_cid"; "tenant_cid";
   "creator_cid"; "app_cid"; "old_did"; "old_kid"; "new_did"; "new_kid"; "rotation_chip_cid";
   "rotation_receipt_cid"]%string.

Definition field_tag (chip_data : json) (field : string) : list string :=
  match get field chip_data ≫= as_str with
  | Some value => [field +:+ ":" +:+ value]
  | None => []
  end.

Definition world_tags (world : string) : list string :=
  let parts := split_on "/" world in
  ["world:" +:+ world]
  ++ match parts with
     | p0 :: p1 :: _ => if String.eqb p0 "a" && negb (is_empty p1) then ["app:" +:+ p1] else []
     | _ => []
     end
  ++ match parts with
     | [_; _; p2; p3] => if String.eqb p2 "t" && negb (is_empty p3) then ["tenant:" +:+ p3] else []
     | _ => []
     end.

Definition extract_tags {CD : ChronoDate} (chip_data : json) (ty : string) : list string :=
  ["type:" +:+ ty]
  ++ concat (field_tag chip_data <$> tag_fields)
  ++ match get "@id" chip_data ≫= as_str with Some id => ["id:" +:+ id] | None => [] end
  ++ match get "@world" chip_data ≫= as_str with Some world => world_tags world | None => [] end
  ++ match get "date" chip_data ≫= as_str with
     | Some date => match rfc3339_date date with Some d => ["date:" +:+ d] | None => [] end
     | None => []
     end.

Fixpoint extract_cids_recursive (value : json) : list string :=
  match value with
  | JString s => if starts_with "b3:" s then [s] else []
  | JObject m => concat (map (fun p => extract_cids_recursive p.2) m)
  | JArray l => concat (map extract_cids_recursive l)
  | _ => []
  end.

Definition extract_relationships (chip_data : json) : list string := extract_cids_recursive chip_data.

Record ChipStore (B : Type) : Type := mkStore { backend : B; indexer : ChipIndexes }.
Arguments mkStore {B}.
Arguments backend {B}.
Arguments indexer {B}.

Section Store.
Context {U : Unicode} {HB3 : Blake3} {CD : ChronoDate} {HI : HashIter} {B : Type} {BE : ChipStoreBackend B}.

Definition store_new (b : B) : ChipStore B := mkStore b no_indexes.

Definition store_new_with_rebuild (b : B) : result ChipStoreError (ChipStore B) :=
  match indexer_rebuild b no_indexes with
  | (i, Ok _) => Ok (mkStore b i)
  | (_, Err e) => Err e
  end.

(** The record that [store_executed_chip] builds; [now] is the clock reading. *)
Definition stored_of (data : json) (c receipt : string) (metadata : ExecutionMetadata) (now : string) : StoredChip :=
  let ty := default "unknown"%string (get "@type" data ≫= as_str) in
  mkChip (cid_new_unchecked c) ty data (cid_new_unchecked receipt) now metadata (extract_tags data ty)
    (extract_relationships data).

Definition store_executed_chip (s : ChipStore B) (data : json) (receipt : string) (metadata : ExecutionMetadata)
    (now : string) : ChipStore B * result ChipStoreError string :=
  match to_nrf1_bytes data with
  | Err e => (s, Err (SerializationNrf e))
  | Ok nrf1_bytes =>
      let cid_str := compute_cid nrf1_bytes in
      let chip := stored_of data cid_str receipt metadata now in
      match put_chip chip (backend s) with
      | (b, Err e) => (mkStore b (indexer s), Err e)
      | (b, Ok _) =>
          match indexer_index_chip chip (indexer s) with
          | (i, Err e) => (mkStore b i, Err e)
          | (i, Ok _) => (mkStore b i, Ok cid_str)
          end
      end
  end.

Definition store_query (s : ChipStore B) (query : ChipQuery) : result ChipStoreError QueryResult :=
  query_chips query (backend s).

Definition get_customers (s : ChipStore B) : result ChipStoreError (list StoredChip) :=
  get_chips_by_type "ubl/customer.register" (backend s).

Definition store_rebuild_indexes (s : ChipStore B) : ChipStore B * result ChipStoreError unit :=
  match rebuild_indexes (backend s) with
  | (b, Err e) => (mkStore b (indexer s), Err e)
  | (b, Ok _) => match indexer_rebuild b (indexer s) with (i, r) => (mkStore b i, r) end
  end.

Definition get_customer_by_email (s : ChipStore B) (email : string) :
    result ChipStoreError (option StoredChip) :=
  r ← store_query s (mkQuery (Some "ubl/customer.register"%string) ["email:" +:+ email] None None None (Some 1%nat) None);
  Ok (head (qr_chips r)).
End Store.

(** ** The query builder *)

Inductive SortField : Type := CreatedAt | ExecutionTime | FuelConsumed | SortChipType.
Inductive SortOrder : Type := Ascending | Descending.

Record ChipQueryBuilder : Type := mkBuilder {
  b_chip_type : option string;
  b_tags : list string;
  b_created_after : option string;
  b_created_before : option string;
  b_executor_did : option string;
  b_has_tags : list string;
  b_excludes_tags : list string;
  b_related_to : option string;
  b_fuel_consumed_min : option Z;
  b_fuel_consumed_max : option Z;
  b_execution_time_min : option Z;
  b_execution_time_max : option Z;
  b_limit : option nat;
  b_offset : option nat;
  b_sort_by : option SortField;
  b_sort_order : SortOrder }.

Definition builder_matches (q : ChipQueryBuilder) (chip : StoredChip) : bool :=
  let m := execution_metadata chip in
  when_some (b_chip_type q) (String.eqb (chip_type chip))
  && forallb (has_tag_in (tags chip)) (b_tags q)
  && forallb (has_tag_in (tags chip)) (b_has_tags q)
  && negb (existsb (has_tag_in (tags chip)) (b_excludes_tags q))
  && when_some (b_created_after q) (fun after => negb (String.leb (created_at chip) after))
  && when_some (b_created_before q) (fun before => negb (String.leb before (created_at chip)))
  && when_some (b_executor_did q) (String.eqb (executor_of chip))
  && when_some (b_fuel_consumed_min q) (fun lo => negb (fuel_consumed m <? lo))
  && when_some (b_fuel_consumed_max q) (fun hi => negb (hi <? fuel_consumed m))
  && when_some (b_execution_time_min q) (fun lo => negb (execution_time_ms m <? lo))
  && when_some (b_execution_time_max q) (fun hi => negb (hi <? execution_time_ms m))
  && when_some (b_related_to q) (has_tag_in (related_chips chip)).

(** The order that a field and a direction select; [a] may stand before [b]. *)
Definition field_leb (f : SortField) (a b : StoredChip) : bool :=
  match f with
  | CreatedAt => String.leb (created_at a) (created_at b)
  | ExecutionTime => execution_time_ms (execution_metadata a) <=? execution_time_ms (execution_metadata b)
  | FuelConsumed => fuel_consumed (execution_metadata a) <=? fuel_consumed (execution_metadata b)
  | SortChipType => String.leb (chip_type a) (chip_type b)
  end.

Definition sort_leb (q : ChipQueryBuilder) (a b : StoredChip) : bool :=
  match b_sort_by q with
  | Some f => match b_sort_order q with Ascending => field_leb f a b | Descending => field_leb f b a end
  | None => newest_first a b
  end.

Definition sort_chips (q : ChipQueryBuilder) (chips : list StoredChip) : list StoredChip :=
  sort_by (sort_leb q) chips.

Definition builder_new : ChipQueryBuilder :=
  mkBuilder None [] None None None [] [] None None None None None None None None Descending.
Definition builder_chip_type (q : ChipQueryBuilder) (ty : string) : ChipQueryBuilder :=
  let 'mkBuilder _ b c d e f g h i j k l m n o p := q in mkBuilder (Some ty) b c d e f g h i j k l m n o p.
Definition builder_with_tag (q : ChipQueryBuilder) (tag : string) : ChipQueryBuilder :=
  let 'mkBuilder a b c d e f g h i j k l m n o p := q in mkBuilder a (b ++ [tag]) c d e f g h i j k l m n o p.
Definition builder_created_after (q : ChipQueryBuilder) (t : string) : ChipQueryBuilder :=
  let 'mkBuilder a b _ d e f g h i j k l m n o p := q in mkBuilder a b (Some t) d e f g h i j k l m n o p.
Definition builder_created_before (q : ChipQueryBuilder) (t : string) : ChipQueryBuilder :=
  let 'mkBuilder a b c _ e f g h i j k l m n o p := q in mkBuilder a b c (Some t) e f g h i j k l m n o p.
Definition fuel_consumed_between (q : ChipQueryBuilder) (lo hi : Z) : ChipQueryBuilder :=
  let 'mkBuilder a b c d e f g h _ _ k l m n o p := q in mkBuilder a b c d e f g h (Some lo) (Some hi) k l m n o p.
Definition builder_with_tags (q : ChipQueryBuilder) (l : list string) : ChipQueryBuilder :=
  let 'mkBuilder a b c d e f g h i j k l' m n o p := q in mkBuilder a (b ++ l) c d e f g h i j k l' m n o p.
Definition builder_executor (q : ChipQueryBuilder) (d' : string) : ChipQueryBuilder :=
  let 'mkBuilder a b c d _ f g h i j k l m n o p := q in mkBuilder a b c d (Some d') f g h i j k l m n o p.
Definition builder_has_tag (q : ChipQueryBuilder) (tag : string) : ChipQueryBuilder :=
  let 'mkBuilder a b c d e f g h i j k l m n o p := q in mkBuilder a b c d e (f ++ [tag]) g h i j k l m n o p.
Definition builder_excludes_tag (q : ChipQueryBuilder) (tag : string) : ChipQueryBuilder :=
  let 'mkBuilder a b c d e f g h i j k l m n o p := q in mkBuilder a b c d e f (g ++ [tag]) h i j k l m n o p.
Definition builder_related_to (q : ChipQueryBuilder) (c' : string) : ChipQueryBuilder :=
  let 'mkBuilder a b c d e f g _ i j k l m n o p := q in mkBuilder a b c d e f g (Some c') i j k l m n o p.
Definition execution_time_between (q : ChipQueryBuilder) (lo hi : Z) : ChipQueryBuilder :=
  let 'mkBuilder a b c d e f g h i j _ _ m n o p := q in mkBuilder a b c d e f g h i j (Some lo) (Some hi) m n o p.
Definition builder_limit (q : ChipQueryBuilder) (limit : nat) : ChipQueryBuilder :=
  let 'mkBuilder a b c d e f g h i j k l _ n o p := q in mkBuilder a b c d e f g h i j k l (Some limit) n o p.
Definition builder_offset (q : ChipQueryBuilder) (offset : nat) : ChipQueryBuilder :=
  let 'mkBuilder a b c d e f g h i j k l m _ o p := q in mkBuilder a b c d e f g h i j k l m (Some offset) o p.
Definition builder_sort_by (q : ChipQueryBuilder) (field : SortField) (order : SortOrder) : ChipQueryBuilder :=
  let 'mkBuilder a b c d e f g h i j k l m n _ _ := q in mkBuilder a b c d e f g h i j k l m n (Some field) order.

(** [CommonQueries]. *)
Definition customers_query : ChipQueryBuilder := builder_chip_type builder_new "ubl/customer.register".
Definition recent_emails_query (yesterday : string) : ChipQueryBuilder :=
  builder_created_after (builder_chip_type builder_new "ubl/email.send") yesterday.
Definition failed_operations_query : ChipQueryBuilder := builder_with_tag builder_new "status:failed".
Definition expensive_operations_query (min_fuel : Z) : ChipQueryBuilder :=
  builder_sort_by (fuel_consumed_between builder_new min_fuel u64_max) FuelConsumed Descending.
Definition user_operations_query (user_id : string) : ChipQueryBuilder :=
  builder_with_tag builder_new ("user:" +:+ user_id).
Definition payments_query : ChipQueryBuilder :=
  builder_sort_by (builder_chip_type builder_new "ubl/payment.charge") CreatedAt Descending.
Definition audit_trail_query (start_date end_date : string) : ChipQueryBuilder :=
  builder_sort_by (builder_created_before (builder_created_after builder_new start_date) end_date) CreatedAt Ascending.
