(* ===== verification/ChipStoreFacts.v ===== *)
(** * The chip store's contract

    What a backend promises ([BackendSpec]): it behaves as a finite map from
    CIDs to chips, and its queries are filters of that map.  The in-memory
    backend keeps the promise because its indexes never miss a stored chip
    ([mem_inv], preserved by every operation); the store front end is proved
    against the promise alone.  Module [Race] interleaves the critical sections
    of concurrent operations. *)

From S2P Require Import Prelude RustStd RustStr Json Nrf NrfFacts Types ChipStore.
From stdpp Require Import sorting.

(** ** Index maps *)

Lemma index_get_insert idx key c k : index_get (index_insert key c idx) k =
  if decide (k = key) then {[c]} ∪ index_get idx key else index_get idx k.
Proof.
  unfold index_insert, index_get. case_decide as H; [subst; by rewrite lookup_insert_eq|].
  by rewrite lookup_insert_ne.
Qed.

Lemma index_get_remove idx key c k : index_get (index_remove key c idx) k =
  if decide (k = key) then index_get idx key ∖ {[c]} else index_get idx k.
Proof.
  unfold index_remove, index_get. destruct (idx !! key) as [s|] eqn:E; cbn [default from_option].
  - case_decide as Hs; case_decide as H; subst; rewrite ?lookup_delete_eq, ?lookup_insert_eq, ?lookup_delete_ne,
      ?lookup_insert_ne by done; cbn; rewrite ?Hs; done.
  - case_decide as H; [subst; rewrite E; cbn; set_solver|done].
Qed.

Lemma index_insert_mono idx key c k x : x ∈ index_get idx k -> x ∈ index_get (index_insert key c idx) k.
Proof. rewrite index_get_insert. case_decide; [subst|]; set_solver. Qed.

Lemma index_tags_get c l idx k x :
  x ∈ index_get (fold_left (fun i tag => index_insert tag c i) l idx) k <->
  x ∈ index_get idx k \/ (x = c /\ k ∈ l).
Proof.
  revert idx; induction l as [|t l IH]; intros idx; cbn; [set_solver|].
  rewrite IH, index_get_insert, elem_of_cons. case_decide; subst; set_solver.
Qed.

Lemma untag_get c l idx k x :
  x ∈ index_get (fold_left (fun i tag => index_remove tag c i) l idx) k <->
  x ∈ index_get idx k /\ (x = c -> k ∉ l).
Proof.
  revert idx; induction l as [|t l IH]; intros idx; cbn; [set_solver|].
  rewrite IH, index_get_remove, not_elem_of_cons. case_decide; subst; set_solver.
Qed.

(** ** A chip is indexed *)

Definition indexed_type (i : ChipIndexes) (c : StoredChip) : Prop := cid c ∈ index_get (type_index i) (chip_type c).
Definition indexed_tags (i : ChipIndexes) (c : StoredChip) : Prop :=
  forall t, t ∈ tags c -> cid c ∈ index_get (tag_index i) t.
Definition indexed_executor (i : ChipIndexes) (c : StoredChip) : Prop :=
  cid c ∈ index_get (executor_index i) (executor_of c).
Definition indexed (i : ChipIndexes) (c : StoredChip) : Prop :=
  indexed_type i c /\ indexed_tags i c /\ indexed_executor i c.

Lemma index_chip_self i c : indexed (index_chip c i) c.
Proof.
  unfold indexed, indexed_type, indexed_tags, indexed_executor, index_chip; cbn. split_and!.
  - rewrite index_get_insert, decide_True by done. set_solver.
  - intros t Ht. apply index_tags_get. by right.
  - rewrite index_get_insert, decide_True by done. set_solver.
Qed.

Lemma index_chip_mono i c d : indexed i c -> indexed (index_chip d i) c.
Proof.
  unfold indexed, indexed_type, indexed_tags, indexed_executor, index_chip; cbn. intros (H1 & H2 & H3). split_and!.
  - by apply index_insert_mono.
  - intros t Ht. apply index_tags_get. left. auto.
  - by apply index_insert_mono.
Qed.

Lemma index_all_indexed l i c : c ∈ l \/ indexed i c -> indexed (fold_left (fun i d => index_chip d i) l i) c.
Proof.
  revert i; induction l as [|d l IH]; intros i; cbn.
  - intros [H|H]; [by apply elem_of_nil in H|done].
  - rewrite elem_of_cons. intros [[->|H]|H]; apply IH; eauto using index_chip_self, index_chip_mono.
Qed.

Lemma remove_chip_others i c d : cid c <> cid d -> indexed i c -> indexed (remove_chip_from_indexes d i) c.
Proof.
  unfold indexed, indexed_type, indexed_tags, indexed_executor, remove_chip_from_indexes; cbn.
  intros Hne (H1 & H2 & H3). split_and!.
  - rewrite index_get_remove. case_decide as E; [rewrite E in H1|]; set_solver.
  - intros t Ht. apply untag_get. split; [auto|done].
  - rewrite index_get_remove. case_decide as E; [rewrite E in H3|]; set_solver.
Qed.

(** ** Queries through the indexes *)

(** The declarative meaning of [matches_query]. *)
Definition satisfies (chip : StoredChip) (q : ChipQuery) : Prop :=
  (forall ty, q_chip_type q = Some ty -> chip_type chip = ty) /\
  (forall t, t ∈ q_tags q -> t ∈ tags chip) /\
  (forall a, q_created_after q = Some a -> String.ltb a (created_at chip) = true) /\
  (forall z, q_created_before q = Some z -> String.ltb (created_at chip) z = true) /\
  (forall e, q_executor_did q = Some e -> executor_of chip = e).

Lemma when_some_spec {A} (o : option A) p : when_some o p = true <-> forall a, o = Some a -> p a = true.
Proof. destruct o as [a|]; cbn; [|done]. split; [by intros ? ? [= <-]|auto]. Qed.

Lemma leb_negb_ltb a b : negb (String.leb a b) = String.ltb b a.
Proof. unfold String.leb, String.ltb. rewrite (String.compare_antisym b a). by destruct (String.compare a b). Qed.

Lemma matches_satisfies chip q : matches_query chip q = true <-> satisfies chip q.
Proof.
  unfold matches_query, satisfies. rewrite !andb_true_iff, !when_some_spec, forallb_forall.
  setoid_rewrite String.eqb_eq. setoid_rewrite leb_negb_ltb. setoid_rewrite existsb_elem.
  setoid_rewrite <- list_elem_of_In. tauto.
Qed.

Lemma fold_candidates i l c x :
  match fold_left (fun c tag => Some (intersect_sets c (index_get (tag_index i) tag))) l c with
  | Some s => x ∈ s <-> (forall s0, c = Some s0 -> x ∈ s0) /\ (forall t, t ∈ l -> x ∈ index_get (tag_index i) t)
  | None => c = None /\ l = []
  end.
Proof.
  revert c; induction l as [|t l IH]; intros c; cbn.
  - destruct c as [s|]; [|done]. split; [|by intros [H _]; apply H].
    intros H. split; [by intros s0 [= <-]|]. intros t Ht. by apply elem_of_nil in Ht.
  - specialize (IH (Some (intersect_sets c (index_get (tag_index i) t)))).
    destruct (fold_left _ l _) as [s|]; [|by destruct IH].
    rewrite IH. split.
    + intros [H1 H2]. specialize (H1 _ eq_refl). split.
      * intros s0 ->. cbn in H1. set_solver.
      * intros t' [->|Ht]%elem_of_cons; [|auto]. destruct c; cbn in H1; set_solver.
    + intros [H1 H2]. split; [|intros t' Ht; apply H2; by right]. intros s0 [= <-].
      assert (x ∈ index_get (tag_index i) t) by (apply H2; left).
      destruct c as [s0|]; cbn; [|done]. pose proof (H1 _ eq_refl). set_solver.
Qed.

(** A chip that matches a query and is indexed is among the candidates. *)
Lemma candidate_complete i q c cids :
  candidate_cids_from_indexes i q = Some cids -> indexed i c -> matches_query c q = true -> cid c ∈ cids.
Proof.
  intros Hc (Ht & Hg & He) (M1 & M2 & _ & _ & M5)%matches_satisfies.
  pose proof (fold_candidates i (q_tags q) (type_candidates i q) (cid c)) as Hf.
  fold (tag_candidates i q) in Hf.
  assert (forall s, tag_candidates i q = Some s -> cid c ∈ s) as H2.
  { intros s E. rewrite E in Hf. apply Hf. split; [|auto]. intros s0. unfold type_candidates.
    destruct (q_chip_type q) as [ty|] eqn:Ety; [|done]. intros [= <-]. cbn. by rewrite <- (M1 _ eq_refl). }
  assert (forall s, executor_candidates i q = Some s -> cid c ∈ s) as H3.
  { unfold executor_candidates. destruct (q_executor_did q) as [e|] eqn:Ee; [|done]. intros s [= <-].
    unfold indexed_executor in He. rewrite (M5 e eq_refl) in He.
    destruct (tag_candidates i q) as [s|]; cbn; [|done]. apply elem_of_intersection. auto. }
  unfold candidate_cids_from_indexes in Hc. destruct (executor_candidates i q) as [s|] eqn:E.
  - assert (s = cids) as <- by (destruct (q_chip_type q), (q_tags q), (q_executor_did q); by simplify_eq/=). auto.
  - exfalso. unfold executor_candidates in E. destruct (q_executor_did q); [done|]. rewrite E in Hf.
    destruct Hf as [E1 E2]. unfold type_candidates in E1. rewrite E2 in Hc. by destruct (q_chip_type q).
Qed.

(** ** The contract of a backend

    [inv] is the backend's invariant, [accepts] what may be put into it, and
    [contents] the finite map it stands for. *)

Definition all_chips (m : gmap TypedCid StoredChip) : list StoredChip := (map_to_list m).*2.
Definition matching (q : ChipQuery) (m : gmap TypedCid StoredChip) : list StoredChip :=
  List.filter (fun c => matches_query c q) (all_chips m).

Class BackendSpec {B : Type} (BE : ChipStoreBackend B) (inv : B -> Prop) (accepts : StoredChip -> Prop)
    (contents : B -> gmap TypedCid StoredChip) : Prop := {
  spec_keyed b k c : inv b -> contents b !! k = Some c -> cid c = k;
  spec_put c b : inv b -> accepts c -> exists b',
    put_chip c b = (b', Ok tt) /\ inv b' /\ contents b' = <[cid c := c]> (contents b) /\
    get_chip_by_receipt_cid (cid_as_str (receipt_cid c)) b' = Ok (Some c);
  spec_get k b : inv b -> get_chip k b = Ok (contents b !! cid_new_unchecked k);
  spec_exists k b : inv b -> exists_chip k b = Ok (bool_decide (is_Some (contents b !! cid_new_unchecked k)));
  spec_query q b : inv b -> exists l, l ≡ₚ matching q (contents b) /\ query_chips q b = Ok (apply_pagination l q);
  spec_by_type ty b : inv b -> exists l,
    l ≡ₚ List.filter (fun c => String.eqb (chip_type c) ty) (all_chips (contents b)) /\
    get_chips_by_type ty b = Ok (sort_by newest_first l);
  spec_related k b : inv b -> get_related_chips k b =
    Ok (match contents b !! cid_new_unchecked k with
        | Some c => omap (fun r => contents b !! cid_new_unchecked r) (related_chips c)
        | None => []
        end);
  spec_delete k b : inv b -> exists b',
    delete_chip k b = (b', Ok tt) /\ inv b' /\ contents b' = delete (cid_new_unchecked k) (contents b);
  spec_rebuild b : inv b -> exists b', rebuild_indexes b = (b', Ok tt) /\ inv b' /\ contents b' = contents b;
  spec_scan b : inv b -> exists l, l ≡ₚ all_chips (contents b) /\ scan_all b = Ok l }.

(** ** The in-memory backend keeps the contract *)

(** Chips are stored under their own CIDs. *)
Definition keyed (m : gmap TypedCid StoredChip) : Prop := forall k c, m !! k = Some c -> cid c = k.

Lemma elem_all_chips m c : keyed m -> c ∈ all_chips m <-> m !! cid c = Some c.
Proof.
  intros K. unfold all_chips. rewrite list_elem_of_fmap. split.
  - intros ([k c'] & -> & H%elem_of_map_to_list). cbn [snd]. by rewrite (K _ _ H).
  - intros H. exists (cid c, c). split; [done|]. by apply elem_of_map_to_list.
Qed.

Lemma NoDup_all_chips m : keyed m -> NoDup (all_chips m).
Proof.
  intros K. unfold all_chips. apply NoDup_fmap_2_strong; [|apply NoDup_map_to_list].
  intros [k1 c1] [k2 c2] H1%elem_of_map_to_list H2%elem_of_map_to_list E. cbn in E. subst c2.
  by rewrite <- (K _ _ H1), <- (K _ _ H2).
Qed.

Lemma NoDup_lookups m l : keyed m -> NoDup l -> NoDup (omap (fun k => m !! k) l).
Proof.
  intros K. induction 1 as [|k l Hk Hl IH]; cbn; [constructor|]. destruct (m !! k) as [c|] eqn:E; [|done].
  constructor; [|done]. rewrite list_elem_of_omap. intros (k' & Hk' & E').
  by rewrite <- (K _ _ E), (K _ _ E') in Hk.
Qed.

(** Reading chips through a list of CIDs that misses none of the wanted ones is
    reading them from the map. *)
Lemma lookups_list_perm m l (p : StoredChip -> bool) : keyed m -> NoDup l ->
  (forall c, m !! cid c = Some c -> p c = true -> cid c ∈ l) ->
  List.filter p (omap (fun k => m !! k) l) ≡ₚ List.filter p (all_chips m).
Proof.
  intros K Hl Hs. apply NoDup_Permutation; [by apply filter_NoDup, NoDup_lookups|by apply filter_NoDup, NoDup_all_chips|].
  intros c. rewrite !elem_of_list_filter, elem_all_chips by done. rewrite list_elem_of_omap. split.
  - intros [Hp (k & _ & E)]. by rewrite (K _ _ E).
  - intros [Hp E]. split; [done|]. exists (cid c). split; [by apply Hs|done].
Qed.

Section InMemorySpec.
Context {HI : HashIter} `{!HashIterLaws HI} (ty_of : TypedCid -> string).

Lemma map_values_perm m : map_values m ≡ₚ all_chips m.
Proof. apply hash_iter_perm. Qed.

Lemma elem_lookups m s c : keyed m -> c ∈ omap (fun k => m !! k) (set_iter s) <-> cid c ∈ s /\ m !! cid c = Some c.
Proof.
  intros K. rewrite list_elem_of_omap. unfold set_iter. setoid_rewrite hash_iter_perm. setoid_rewrite elem_of_elements.
  split; [intros (k & Hk & E); by rewrite (K _ _ E)|intros [? ?]; eauto].
Qed.

Lemma lookups_perm m s (p : StoredChip -> bool) : keyed m ->
  (forall c, m !! cid c = Some c -> p c = true -> cid c ∈ s) ->
  List.filter p (omap (fun k => m !! k) (set_iter s)) ≡ₚ List.filter p (all_chips m).
Proof.
  intros K Hs. apply lookups_list_perm; [done| |].
  - unfold set_iter. rewrite hash_iter_perm. apply NoDup_elements.
  - intros c Hc Hp. unfold set_iter. rewrite hash_iter_perm. apply elem_of_elements. by apply Hs.
Qed.

(** When every stored chip is indexed, a query through the indexes is a filter
    of the map. *)
Lemma mem_query_exact b q :
  (forall k c, mem_chips b !! k = Some c -> cid c = k /\ indexed (mem_indexes b) c) ->
  exists l, l ≡ₚ matching q (mem_chips b) /\ mem_query_chips q b = Ok (apply_pagination l q).
Proof.
  intros H. assert (keyed (mem_chips b)) as K by (intros k c E; by apply H in E as [? _]).
  eexists. split; [|reflexivity]. destruct (candidate_cids_from_indexes (mem_indexes b) q) as [s|] eqn:E.
  - apply lookups_perm; [done|]. intros c Hc Hm. eapply candidate_complete; [done| |done]. by apply H in Hc as [_ ?].
  - unfold matching. by rewrite map_values_perm.
Qed.

Definition mem_inv (b : InMemoryBackend) : Prop :=
  (forall k c, mem_chips b !! k = Some c -> cid c = k /\ indexed (mem_indexes b) c /\ chip_type c = ty_of k) /\
  (forall ty k, k ∈ index_get (type_index (mem_indexes b)) ty -> ty_of k = ty /\ is_Some (mem_chips b !! k)).

Lemma mem_inv_new : mem_inv mem_new.
Proof. split; [done|]. cbn. intros ty k. unfold index_get. rewrite lookup_empty. cbn. set_solver. Qed.

Lemma mem_keyed b : mem_inv b -> keyed (mem_chips b).
Proof. intros [H _] k c E. by apply H in E as [? _]. Qed.

Lemma mem_put_inv c b : mem_inv b -> chip_type c = ty_of (cid c) -> mem_inv (mem_put_chip c b).1.
Proof.
  intros [H1 H2] Hty. split; cbn.
  - intros k d. rewrite lookup_insert_Some. intros [[<- <-]|[Hne E]].
    + split_and!; [done|apply index_chip_self|done].
    + destruct (H1 _ _ E) as (? & ? & ?). split_and!; [done|by apply index_chip_mono|done].
  - intros ty k. rewrite index_get_insert. destruct (decide (cid c = k)) as [<-|Hne].
    + rewrite lookup_insert_eq. intros Hin. split; [|eauto]. case_decide as E; [by rewrite <- Hty, E|].
      by apply H2 in Hin as [? _].
    + rewrite lookup_insert_ne by done. case_decide as E; [|apply H2].
      rewrite elem_of_union, elem_of_singleton. intros [?|Hin]; [congruence|]. rewrite E. by apply H2.
Qed.

Lemma mem_delete_inv k b : mem_inv b -> mem_inv (mem_delete_chip k b).1.
Proof.
  intros [H1 H2]. unfold mem_delete_chip. set (key := cid_new_unchecked k).
  destruct (mem_chips b !! key) as [d|] eqn:Ed; cbn [fst].
  - destruct (H1 _ _ Ed) as (Hd & _ & Ht). split; cbn [mem_chips mem_indexes].
    + intros k' c [Hne E]%lookup_delete_Some. destruct (H1 _ _ E) as (? & ? & ?).
      split_and!; [done|apply remove_chip_others; [congruence|done]|done].
    + intros ty k'. cbn. rewrite index_get_remove, Hd, Ht.
      case_decide as E; [rewrite elem_of_difference, elem_of_singleton; intros [Hin Hne]|intros Hin].
      * rewrite lookup_delete_ne by done. rewrite E. by apply H2.
      * destruct (H2 _ _ Hin) as [Hy Hs]. rewrite lookup_delete_ne; [done|congruence].
  - rewrite delete_id by done. by split.
Qed.

Lemma rebuilt_types l i ty k :
  k ∈ index_get (type_index (fold_left (fun i d => index_chip d i) l i)) ty ->
  k ∈ index_get (type_index i) ty \/ exists c, c ∈ l /\ cid c = k /\ chip_type c = ty.
Proof.
  revert i; induction l as [|d l IH]; intros i; cbn; [by left|].
  intros [H|(c & Hc & <- & <-)]%IH; [|right; exists c; split_and!; try done; by right].
  cbn in H. rewrite index_get_insert in H. case_decide as E; [|by left].
  apply elem_of_union in H as [->%elem_of_singleton|H]; [|left; by rewrite E].
  right. exists d. split_and!; [left|done|done].
Qed.

Lemma mem_rebuild_inv b : mem_inv b -> mem_inv (mem_rebuild_indexes b).1.
Proof.
  intros H. pose proof (mem_keyed b H) as K. destruct H as [H1 H2]. split; cbn [fst mem_rebuild_indexes mem_chips mem_indexes].
  - intros k c E. destruct (H1 _ _ E) as (<- & _ & Ht). split_and!; [done| |done].
    apply index_all_indexed. left. rewrite map_values_perm. by apply elem_all_chips.
  - intros ty k [Hin|(c & Hc & <- & <-)]%rebuilt_types.
    + unfold index_get in Hin. cbn in Hin. rewrite lookup_empty in Hin. cbn in Hin. set_solver.
    + rewrite map_values_perm in Hc. apply elem_all_chips in Hc; [|done].
      destruct (H1 _ _ Hc) as (_ & _ & Ht). split; [done|eauto].
Qed.

#[export] Instance in_memory_spec :
  BackendSpec in_memory_backend mem_inv (fun c => chip_type c = ty_of (cid c)) mem_chips.
Proof.
  split.
  - intros b k c H. by apply mem_keyed.
  - intros c b H Hc. eexists. split_and!; [reflexivity|by apply mem_put_inv|done|].
    cbn. unfold mem_get_chip_by_receipt_cid. cbn. replace (cid_new_unchecked (cid_as_str (receipt_cid c))) with (receipt_cid c)
      by by destruct (receipt_cid c). by rewrite !lookup_insert_eq.
  - done.
  - done.
  - intros q b [H _]. apply mem_query_exact. intros k c E. by apply H in E as (? & ? & _).
  - intros ty b H. pose proof (mem_keyed b H) as K. eexists. split; [|reflexivity].
    rewrite <- (lookups_perm _ (index_get (type_index (mem_indexes b)) ty)); [|done|].
    + rewrite list_filter_all; [done|]. intros c [Hc Hm]%elem_lookups; [|done]. apply String.eqb_eq.
      destruct (proj1 H _ _ Hm) as (_ & _ & ->). by apply (proj2 H).
    + intros c Hc <-%String.eqb_eq. by apply (proj1 H) in Hc as (_ & [? _] & _).
  - intros k b H. cbn. unfold mem_get_related_chips. by destruct (mem_chips b !! _).
  - intros k b H. exists (mem_delete_chip k b).1. split_and!; [|by apply mem_delete_inv|].
    + cbn. unfold mem_delete_chip. by destruct (mem_chips b !! _).
    + unfold mem_delete_chip. by destruct (mem_chips b !! _).
  - intros b H. eexists. split_and!; [reflexivity|by apply mem_rebuild_inv|done].
  - intros b H. eexists. split; [|reflexivity]. apply map_values_perm.
Qed.
End InMemorySpec.

(** ** Histories *)

Inductive store_op : Type :=
| OpPut (c : StoredChip)
| OpDelete (k : string)
| OpRebuild.

Definition run_op {B} {BE : ChipStoreBackend B} (b : B) (o : store_op) : B :=
  match o with
  | OpPut c => (put_chip c b).1
  | OpDelete k => (delete_chip k b).1
  | OpRebuild => (rebuild_indexes b).1
  end.

(** What the history means for the map. *)
Definition map_op (m : gmap TypedCid StoredChip) (o : store_op) : gmap TypedCid StoredChip :=
  match o with
  | OpPut c => <[cid c := c]> m
  | OpDelete k => delete (cid_new_unchecked k) m
  | OpRebuild => m
  end.

Definition op_accepted (accepts : StoredChip -> Prop) (o : store_op) : Prop :=
  match o with OpPut c => accepts c | _ => True end.

(** The operations that reported success. *)
Definition op_result {B} {BE : ChipStoreBackend B} (b : B) (o : store_op) : result ChipStoreError unit :=
  match o with OpPut c => (put_chip c b).2 | OpDelete k => (delete_chip k b).2 | OpRebuild => (rebuild_indexes b).2 end.
Fixpoint acknowledged {B} {BE : ChipStoreBackend B} (ops : list store_op) (b : B) : list store_op :=
  match ops with
  | [] => []
  | o :: rest =>
      let l := acknowledged rest (run_op b o) in
      match op_result b o with Ok _ => o :: l | Err _ => l end
  end.

Section Client.
Context {B : Type} {BE : ChipStoreBackend B} {inv : B -> Prop} {accepts : StoredChip -> Prop}
  {contents : B -> gmap TypedCid StoredChip} `{!BackendSpec BE inv accepts contents}.

Lemma run_ops_spec ops b : inv b -> Forall (op_accepted accepts) ops ->
  inv (fold_left run_op ops b) /\ contents (fold_left run_op ops b) = fold_left map_op ops (contents b).
Proof.
  revert b; induction ops as [|o ops IH]; intros b Hb HF; cbn; [done|].
  apply Forall_cons in HF as [Ho HF].
  assert (inv (run_op b o) /\ contents (run_op b o) = map_op (contents b) o) as [H1 H2].
  { destruct o as [c|k|]; cbn.
    - destruct (spec_put c b Hb Ho) as (b' & -> & ? & ? & _). done.
    - destruct (spec_delete k b Hb) as (b' & -> & ? & ?). done.
    - destruct (spec_rebuild b Hb) as (b' & -> & ? & ?). done. }
  destruct (IH _ H1 HF) as [? ->]. by rewrite H2.
Qed.

(** What the reads of a backend answer, for the chips [m]. *)
Definition answers_map (b : B) (m : gmap TypedCid StoredChip) : Prop :=
  (forall k, get_chip k b = Ok (m !! cid_new_unchecked k)) /\
  (forall k, exists_chip k b = Ok (bool_decide (is_Some (m !! cid_new_unchecked k)))) /\
  (exists l, l ≡ₚ all_chips m /\ scan_all b = Ok l) /\
  (forall ty, exists l, l ≡ₚ List.filter (fun c => String.eqb (chip_type c) ty) (all_chips m) /\
     get_chips_by_type ty b = Ok (sort_by newest_first l)) /\
  (forall q, exists l, l ≡ₚ matching q m /\ query_chips q b = Ok (apply_pagination l q)).

Lemma spec_answers b : inv b -> answers_map b (contents b).
Proof.
  intros Hb. split_and!.
  - intros k. by apply spec_get.
  - intros k. by apply spec_exists.
  - by apply spec_scan.
  - intros ty. by apply spec_by_type.
  - intros q. by apply spec_query.
Qed.

(** A matching chip is on the first page of a query whose limit covers the
    matches. *)
Lemma query_finds q b c : inv b -> contents b !! cid c = Some c -> matches_query c q = true ->
  q_offset q = None -> (length (matching q (contents b)) <= default 100%nat (q_limit q))%nat ->
  exists r, query_chips q b = Ok r /\ c ∈ qr_chips r /\ total_count r = length (matching q (contents b)).
Proof.
  intros Hb Hc Hm Ho Hl. destruct (spec_query q b Hb) as (l & Hp & ->). eexists. split; [done|].
  unfold apply_pagination. rewrite Ho. cbn. rewrite drop_0, take_ge by by rewrite sort_by_perm, Hp.
  rewrite !sort_by_perm, Hp. split; [|done]. apply elem_of_list_filter. split; [done|]. apply elem_all_chips; [|done].
  intros k d. by apply spec_keyed.
Qed.

(** A query answers that nothing matches exactly when nothing does. *)
Lemma query_empty q b : inv b -> exists r, query_chips q b = Ok r /\
  (total_count r = 0%nat <-> forall c, c ∈ all_chips (contents b) -> matches_query c q = false).
Proof.
  intros Hb. destruct (spec_query q b Hb) as (l & Hp & ->). eexists. split; [done|]. cbn.
  rewrite sort_by_perm, Hp. unfold matching. split.
  - intros H%nil_length_inv c Hc. destruct (matches_query c q) eqn:E; [|done].
    assert (c ∈ List.filter (fun c => matches_query c q) (all_chips (contents b))) as Hin
      by by apply elem_of_list_filter. rewrite H in Hin. by apply elem_of_nil in Hin.
  - intros H. induction (all_chips (contents b)) as [|c l' IH]; [done|]. cbn. rewrite (H c) by left.
    apply IH. intros d Hd. apply H. by right.
Qed.
End Client.

(** ** Pages *)

Lemma newest_first_total a b : newest_first a b = false -> newest_first b a = true.
Proof. apply str_leb_false. Qed.
Lemma newest_first_trans a b c : newest_first a b = true -> newest_first b c = true -> newest_first a c = true.
Proof. unfold newest_first. intros H1 H2. by eapply str_leb_trans. Qed.

Lemma strongly_sorted_sublist {A} (R : A -> A -> Prop) l o n :
  StronglySorted R l -> StronglySorted R (take n (drop o l)).
Proof.
  intros H. rewrite <- (take_drop o l) in H. apply StronglySorted_app_1_r in H.
  rewrite <- (take_drop n (drop o l)) in H. by apply StronglySorted_app_1_l in H.
Qed.

(** ** Two backends *)

Lemma newest_first_unique l1 l2 :
  (forall c1 c2, c1 ∈ l1 -> c2 ∈ l1 -> created_at c1 = created_at c2 -> c1 = c2) -> l1 ≡ₚ l2 ->
  sort_by newest_first l1 = sort_by newest_first l2.
Proof.
  intros Hd Hp.
  assert (S : forall l, StronglySorted (fun a b => newest_first a b = true) (sort_by newest_first l)).
  { intros l. apply sort_by_sorted; [apply newest_first_total|apply newest_first_trans]. }
  eapply StronglySorted_unique_strong; [|apply S|apply S|by rewrite !sort_by_perm].
  intros c1 c2 H1 H2 L1 L2. rewrite sort_by_perm in H1. rewrite sort_by_perm, <- Hp in H2. apply Hd; [done..|].
  by apply String.leb_antisym.
Qed.

(** C12: Backends that keep the contract cannot be told apart by lookups, nor by
    the counts of queries; with distinct creation times, nor by queries. *)
Theorem backends_agree {B1 B2} (BE1 : ChipStoreBackend B1) (BE2 : ChipStoreBackend B2) inv1 inv2 accepts1 accepts2 contents1 contents2
    `{!BackendSpec BE1 inv1 accepts1 contents1, !BackendSpec BE2 inv2 accepts2 contents2} b1 b2 ops :
  inv1 b1 -> inv2 b2 -> contents1 b1 = contents2 b2 ->
  Forall (op_accepted accepts1) ops -> Forall (op_accepted accepts2) ops ->
  let s1 := fold_left run_op ops b1 in let s2 := fold_left run_op ops b2 in
  (forall k, get_chip k s1 = get_chip k s2) /\
  (forall k, exists_chip k s1 = exists_chip k s2) /\
  (forall k, get_related_chips k s1 = get_related_chips k s2) /\
  forall q, exists r1 r2, query_chips q s1 = Ok r1 /\ query_chips q s2 = Ok r2 /\
    total_count r1 = total_count r2 /\ length (qr_chips r1) = length (qr_chips r2) /\ has_more r1 = has_more r2 /\
    ((forall k1 k2 c1 c2, contents1 s1 !! k1 = Some c1 -> contents1 s1 !! k2 = Some c2 -> created_at c1 = created_at c2 -> c1 = c2) ->
     r1 = r2).
Proof.
  intros H1 H2 Hc F1 F2 s1 s2. destruct (run_ops_spec ops b1 H1 F1) as [I1 C1]. destruct (run_ops_spec ops b2 H2 F2) as [I2 C2].
  fold s1 in I1, C1. fold s2 in I2, C2. assert (E : contents1 s1 = contents2 s2) by (by rewrite C1, C2, Hc). split_and!.
  - intros k. by rewrite !spec_get, E by done.
  - intros k. by rewrite !spec_exists, E by done.
  - intros k. by rewrite !spec_related, E by done.
  - intros q. destruct (spec_query q s1 I1) as (l1 & P1 & ->), (spec_query q s2 I2) as (l2 & P2 & ->).
    assert (P : l1 ≡ₚ l2) by (by rewrite P1, P2, E). exists (apply_pagination l1 q), (apply_pagination l2 q).
    assert (Hl : length (sort_by newest_first l1) = length (sort_by newest_first l2)) by by rewrite !sort_by_perm, P.
    split_and!; [done..|exact Hl| | |].
    + unfold apply_pagination. cbn [qr_chips]. by rewrite !length_take, !length_drop, Hl.
    + unfold apply_pagination. cbn [has_more]. by rewrite !length_take, !length_drop, Hl.
    + intros Hd. unfold apply_pagination. assert (sort_by newest_first l1 = sort_by newest_first l2) as ->; [|done].
      apply newest_first_unique; [|done]. intros c1 c2 Hc1 Hc2. rewrite P1 in Hc1, Hc2. unfold matching in Hc1, Hc2.
      assert (K : keyed (contents1 s1)) by (intros k c; by apply spec_keyed).
      apply elem_of_list_filter in Hc1 as [_ Hc1%elem_all_chips], Hc2 as [_ Hc2%elem_all_chips]; [|done..]. by eapply Hd.
Qed.

(** ** Properties *)

Section Properties.
Context {U : Unicode} {HB3 : Blake3} {CD : ChronoDate} {HI : HashIter} `{!HashIterLaws HI}.

(** C9: The in-memory backend refines a finite map.  After any history of stores,
    deletions and index rebuilds, in which a CID always comes with the same
    chip type, lookups, existence tests, scans, type listings and queries give
    what the map that the history describes gives; the indexes are not
    observable. *)
Theorem memory_refines_map ty_of ops :
  Forall (op_accepted (fun c => chip_type c = ty_of (cid c))) ops ->
  let b := fold_left run_op ops mem_new in
  let m := fold_left map_op ops ∅ in
  (forall k, get_chip k b = Ok (m !! cid_new_unchecked k)) /\
  (forall k, exists_chip k b = Ok (bool_decide (is_Some (m !! cid_new_unchecked k)))) /\
  (exists l, l ≡ₚ all_chips m /\ scan_all b = Ok l) /\
  (forall ty, exists l, l ≡ₚ List.filter (fun c => String.eqb (chip_type c) ty) (all_chips m) /\
     get_chips_by_type ty b = Ok (sort_by newest_first l)) /\
  (forall q, exists l, l ≡ₚ matching q m /\ query_chips q b = Ok (apply_pagination l q)).
Proof.
  intros HF. destruct (run_ops_spec (BackendSpec0 := in_memory_spec ty_of) ops mem_new (mem_inv_new ty_of) HF) as [Hi Hc].
  cbn zeta. cbn [mem_chips mem_new] in Hc. rewrite <- Hc. by apply (spec_answers (BackendSpec0 := in_memory_spec ty_of)).
Qed.

(** A page of a query: its length is what limit and offset leave, its chips are
    among the matches, newest first; the count is of all matches, and there is
    more exactly when matches remain behind the page. *)
Theorem page_exact l q :
  let r := apply_pagination l q in
  let o := default 0%nat (q_offset q) in
  total_count r = length l /\
  length (qr_chips r) = Nat.min (default 100%nat (q_limit q)) (length l - o) /\
  StronglySorted (fun a b => newest_first a b = true) (qr_chips r) /\
  (forall c, c ∈ qr_chips r -> c ∈ l) /\
  (has_more r = true <-> (o + length (qr_chips r) < length l)%nat).
Proof.
  cbn zeta. unfold apply_pagination. cbn [qr_chips total_count has_more].
  assert (length (sort_by newest_first l) = length l) as Hl by by rewrite sort_by_perm.
  rewrite Hl, Nat.ltb_lt. split_and!; try done.
  - by rewrite length_take, length_drop, Hl.
  - apply strongly_sorted_sublist, sort_by_sorted; [apply newest_first_total|apply newest_first_trans].
  - intros c Hc. rewrite <- (sort_by_perm newest_first l). eapply subseteq_drop, subseteq_take, Hc.
Qed.

(** What the store promises for a chip it has executed, over any backend that
    keeps the contract: the returned CID leads to the chip's data and type, the
    receipt CID leads to the chip, and a query for the chip's type and any of
    its tags counts it. *)
Theorem executed_chip_found {B} (BE : ChipStoreBackend B) inv accepts contents
    `{!BackendSpec BE inv accepts contents} s data receipt meta now bs :
  inv (backend s) -> to_nrf1_bytes data = Ok bs -> accepts (stored_of data (compute_cid bs) receipt meta now) ->
  let chip := stored_of data (compute_cid bs) receipt meta now in
  exists s', store_executed_chip s data receipt meta now = (s', Ok (compute_cid bs)) /\ inv (backend s') /\
    get_chip (compute_cid bs) (backend s') = Ok (Some chip) /\ chip_data chip = data /\
    get_chip_by_receipt_cid receipt (backend s') = Ok (Some chip) /\
    forall t r, t ∈ tags chip ->
      query_chips (mkQuery (Some (chip_type chip)) [t] None None None None None) (backend s') = Ok r ->
      (0 < total_count r)%nat.
Proof.
  intros Hi Hb Ha chip. fold chip in Ha. unfold store_executed_chip. rewrite Hb. fold chip.
  destruct (spec_put chip (backend s) Hi Ha) as (b' & -> & Hi' & Hc & Hr). eexists. split; [reflexivity|]. cbn [backend].
  assert (contents b' !! cid chip = Some chip) as Hl by by rewrite Hc, lookup_insert_eq.
  split_and!; [done|rewrite (spec_get (compute_cid bs) b' Hi'); f_equal; exact Hl|done|exact Hr|].
  intros t r Ht Hq. destruct (query_empty (mkQuery (Some (chip_type chip)) [t] None None None None None) b' Hi') as (r' & Hq' & He).
  rewrite Hq' in Hq. injection Hq as ->. destruct (total_count r) eqn:E; [|lia]. exfalso.
  assert (matches_query chip (mkQuery (Some (chip_type chip)) [t] None None None None None) = false) as Hm.
  { apply He; [done|]. apply list_elem_of_fmap. exists (cid chip, chip). split; [done|]. by apply elem_of_map_to_list. }
  assert (matches_query chip (mkQuery (Some (chip_type chip)) [t] None None None None None) = true) as Hm'; [|congruence].
  apply matches_satisfies. unfold satisfies. cbn. split_and!; try done; [by intros ? [= <-]|].
  intros t' ->%list_elem_of_singleton. done.
Qed.
End Properties.

(** ** Witnesses *)

Module ChipStoreSample.
#[export] Instance id_iter : HashIter := {| hash_iter A l := l |}.
#[export] Instance id_iter_laws : HashIterLaws id_iter.
Proof. by constructor. Qed.
#[export] Instance no_dates : ChronoDate := {| rfc3339_date _ := None |}.

Definition meta : ExecutionMetadata := mkMeta "0.1" 1 1 [] (did_new_unchecked "did:key:z1") true.
Definition chip (k ty r t : string) : StoredChip :=
  mkChip (cid_new_unchecked k) ty JNull (cid_new_unchecked r) t meta ["type:" +:+ ty] [].
Definition chip_a := chip "b3:a" "ubl/x" "b3:ra" "2024-01-01".
Definition chip_b := chip "b3:b" "ubl/x" "b3:rb" "2024-01-02".
Definition by_type : ChipQuery := mkQuery (Some "ubl/x"%string) [] None None None (Some 1%nat) None.

Lemma memory_refines_map_witness :
  (forall k, get_chip k (fold_left run_op [OpPut chip_a; OpPut chip_b; OpDelete "b3:a"; OpRebuild] mem_new) =
    Ok (fold_left map_op [OpPut chip_a; OpPut chip_b; OpDelete "b3:a"; OpRebuild] ∅ !! cid_new_unchecked k)) /\
  query_chips by_type (fold_left run_op [OpPut chip_a; OpPut chip_b] mem_new) =
    Ok (mkQueryResult [chip_b] 2 true).
Proof.
  split; [|vm_compute; reflexivity].
  refine (proj1 (memory_refines_map (fun _ => "ubl/x"%string) _ _)). by repeat constructor.
Defined.

Lemma executed_chip_found_witness :
  exists s', store_executed_chip (U := ascii_unicode) (HB3 := zero_blake3) (store_new mem_new)
    (JObject [("@type", JString "ubl/x")]) "b3:r" meta "2024-01-01" = (s', Ok (compute_cid (H := zero_blake3)
      (default [] (match to_nrf1_bytes (U := ascii_unicode) (JObject [("@type", JString "ubl/x")]) with Ok b => Some b | _ => None end)))).
Proof.
  edestruct (executed_chip_found (U := ascii_unicode) (HB3 := zero_blake3) in_memory_backend _ _ _
    (BackendSpec0 := in_memory_spec (fun _ => "ubl/x"%string))
    (store_new mem_new) (JObject [("@type", JString "ubl/x")]) "b3:r" meta "2024-01-01") as (s' & Hs & _).
  - apply mem_inv_new.
  - vm_compute. reflexivity.
  - reflexivity.
  - exists s'. exact Hs.
Defined.
End ChipStoreSample.

(** * Concurrent chip store operations

    The in-memory backend takes one lock after the other, so concurrent
    operations interleave between critical sections.  Stores and rebuilds may
    interleave freely: no chip is lost from the indexes.  A deletion may not. *)

Module Race.

Inductive aspect : Type := ByType | ByTags | ByExecutor.

Definition index_at (a : aspect) (c : StoredChip) (i : ChipIndexes) : ChipIndexes :=
  match a with ByType => index_type c i | ByTags => index_tags c i | ByExecutor => index_executor c i end.

Definition clear_at (a : aspect) (i : ChipIndexes) : ChipIndexes :=
  match a with
  | ByType => mkIndexes ∅ (tag_index i) (executor_index i)
  | ByTags => mkIndexes (type_index i) ∅ (executor_index i)
  | ByExecutor => mkIndexes (type_index i) (tag_index i) ∅
  end.

Definition unindex_at (a : aspect) (c : StoredChip) (i : ChipIndexes) : ChipIndexes :=
  match a with
  | ByType => mkIndexes (type_index (remove_chip_from_indexes c i)) (tag_index i) (executor_index i)
  | ByTags => mkIndexes (type_index i) (tag_index (remove_chip_from_indexes c i)) (executor_index i)
  | ByExecutor => mkIndexes (type_index i) (tag_index i) (executor_index (remove_chip_from_indexes c i))
  end.

Definition indexed_at (a : aspect) (i : ChipIndexes) (c : StoredChip) : Prop :=
  match a with ByType => indexed_type i c | ByTags => indexed_tags i c | ByExecutor => indexed_executor i c end.

(** One critical section. *)
Inductive section : Type :=
| SChip (c : StoredChip)
| SReceipt (c : StoredChip)
| SIndex (a : aspect) (c : StoredChip)
| SClear (a : aspect)
| SSnapshot
| SRemove (k : string)
| SUnreceipt (c : StoredChip)
| SUnindex (a : aspect) (c : StoredChip).

Definition aspects : list aspect := [ByType; ByTags; ByExecutor].
Definition index_sections (c : StoredChip) : list section := (fun a => SIndex a c) <$> aspects.
Definition put_sections (c : StoredChip) : list section := SChip c :: SReceipt c :: index_sections c.
Definition rebuild_sections : list section := (SClear <$> aspects) ++ [SSnapshot].
Definition delete_sections (k : string) : list section := [SRemove k].

Section Interleaving.
Context {HI : HashIter} `{!HashIterLaws HI}.

(** The state after a section, and the sections that the task has left on the
    strength of what it read. *)
Definition run_section (s : section) (b : InMemoryBackend) : InMemoryBackend * list section :=
  let 'mkMem chips receipts i := b in
  match s with
  | SChip c => (mkMem (<[cid c := c]> chips) receipts i, [])
  | SReceipt c => (mkMem chips (<[receipt_cid c := cid c]> receipts) i, [])
  | SIndex a c => (mkMem chips receipts (index_at a c i), [])
  | SClear a => (mkMem chips receipts (clear_at a i), [])
  | SSnapshot => (b, concat (index_sections <$> map_values chips))
  | SRemove k =>
      (mkMem (delete (cid_new_unchecked k) chips) receipts i,
       match chips !! cid_new_unchecked k with
       | Some d => SUnreceipt d :: ((fun a => SUnindex a d) <$> aspects)
       | None => []
       end)
  | SUnreceipt d => (mkMem chips (delete (receipt_cid d) receipts) i, [])
  | SUnindex a d => (mkMem chips receipts (unindex_at a d i), [])
  end.

(** A task runs its sections in order; [n] bounds their number. *)
Fixpoint run_task (n : nat) (p : list section) (b : InMemoryBackend) : option InMemoryBackend :=
  match n, p with
  | _, [] => Some b
  | O, _ => None
  | S n', s :: p' => let '(b', q) := run_section s b in run_task n' (q ++ p') b'
  end.

(** Alone, the sections of an operation are the operation. *)
Lemma put_alone c b : run_task 5 (put_sections c) b = Some (mem_put_chip c b).1.
Proof. by destruct b. Qed.
Lemma delete_alone k b : run_task 5 (delete_sections k) b = Some (mem_delete_chip k b).1.
Proof. destruct b as [m r i]. cbn. unfold mem_delete_chip. cbn. by destruct (m !! _). Qed.

Lemma run_indexing l n m r i :
  run_task (3 * length l + n) (concat (index_sections <$> l)) (mkMem m r i) =
  Some (mkMem m r (fold_left (fun i c => index_chip c i) l i)).
Proof.
  revert i; induction l as [|c l IH]; intros i; [by destruct n|].
  replace (3 * length (c :: l) + n)%nat with (3 + (3 * length l + n))%nat by (cbn [length]; lia).
  cbn -[Nat.mul]. by rewrite IH.
Qed.
Lemma rebuild_alone b : exists n, run_task n rebuild_sections b = Some (mem_rebuild_indexes b).1.
Proof.
  destruct b as [m r i]. exists (4 + (3 * length (map_values m) + 0))%nat.
  cbn -[Nat.mul]. rewrite app_nil_r. by rewrite run_indexing.
Qed.

(** Tasks interleave at section boundaries. *)
Inductive interleave : list (list section) * InMemoryBackend -> list (list section) * InMemoryBackend -> Prop :=
| interleave_run ts1 s p ts2 b b' q :
    run_section s b = (b', q) -> interleave (ts1 ++ (s :: p) :: ts2, b) (ts1 ++ (q ++ p) :: ts2, b').

(** What a task that is not a deletion may still have to do: a chip is
    inserted before it is indexed, an index is cleared before the snapshot. *)
Inductive well_formed : list section -> Prop :=
| wf_done : well_formed []
| wf_chip c p : (forall a, SIndex a c ∈ p) -> well_formed p -> well_formed (SChip c :: p)
| wf_receipt c p : well_formed p -> well_formed (SReceipt c :: p)
| wf_index a c p : well_formed p -> well_formed (SIndex a c :: p)
| wf_clear a p : SSnapshot ∈ p -> well_formed p -> well_formed (SClear a :: p)
| wf_snapshot p : well_formed p -> well_formed (SSnapshot :: p).

(** Some task will still index the chip. *)
Definition will_index (a : aspect) (c : StoredChip) (ts : list (list section)) : Prop :=
  exists p, p ∈ ts /\ (SIndex a c ∈ p \/ SSnapshot ∈ p).

Definition covered (ts : list (list section)) (b : InMemoryBackend) : Prop :=
  Forall well_formed ts /\
  forall k c, mem_chips b !! k = Some c ->
    cid c = k /\ forall a, indexed_at a (mem_indexes b) c \/ will_index a c ts.

Lemma index_sections_elem a c : SIndex a c ∈ index_sections c.
Proof. apply list_elem_of_fmap. exists a. split; [done|]. destruct a; set_solver. Qed.

Lemma wf_app p q : well_formed p -> well_formed q -> well_formed (p ++ q).
Proof.
  induction 1; intros; cbn; [done|constructor; auto; set_solver..].
Qed.
Lemma wf_index_sections c : well_formed (index_sections c).
Proof. repeat constructor. Qed.
Lemma wf_put c : well_formed (put_sections c).
Proof. constructor; [|constructor; apply wf_index_sections]. intros a. right. apply index_sections_elem. Qed.
Lemma wf_rebuild : well_formed rebuild_sections.
Proof. unfold rebuild_sections. cbn. repeat (constructor; [set_solver|]). repeat constructor. Qed.
Lemma wf_indexing l : well_formed (concat (index_sections <$> l)).
Proof. induction l; [constructor|]. cbn. by repeat constructor. Qed.

Lemma index_at_self a c i : indexed_at a (index_at a c i) c.
Proof.
  destruct a; cbn.
  - unfold indexed_type. cbn. rewrite index_get_insert, decide_True by done. set_solver.
  - intros t Ht. apply index_tags_get. by right.
  - unfold indexed_executor. cbn. rewrite index_get_insert, decide_True by done. set_solver.
Qed.
Lemma index_at_mono a a' c d i : indexed_at a i c -> indexed_at a (index_at a' d i) c.
Proof.
  destruct a, a'; cbn; try done; unfold indexed_type, indexed_tags, indexed_executor; cbn.
  - apply index_insert_mono.
  - intros H t Ht. apply index_tags_get. auto.
  - apply index_insert_mono.
Qed.
Lemma clear_other a a' c i : a <> a' -> indexed_at a i c -> indexed_at a (clear_at a' i) c.
Proof. by destruct a, a'. Qed.

Lemma will_index_step a c ts1 s p ts2 q :
  will_index a c (ts1 ++ (s :: p) :: ts2) ->
  s = SIndex a c \/ s = SSnapshot \/ will_index a c (ts1 ++ (q ++ p) :: ts2).
Proof.
  intros (p' & [H|[->|H]%elem_of_cons]%elem_of_app & Hp).
  - right. right. exists p'. split; [set_solver|done].
  - rewrite !elem_of_cons in Hp.
    assert (SIndex a c ∈ p \/ SSnapshot ∈ p -> will_index a c (ts1 ++ (q ++ p) :: ts2)) as Hq.
    { intros H. exists (q ++ p). set_solver. }
    naive_solver.
  - right. right. exists p'. split; [set_solver|done].
Qed.
Lemma will_index_here a c ts1 p ts2 : SIndex a c ∈ p \/ SSnapshot ∈ p -> will_index a c (ts1 ++ p :: ts2).
Proof. intros H. exists p. split; [set_solver|done]. Qed.

Lemma covered_step ts b ts' b' : interleave (ts, b) (ts', b') -> covered ts b -> covered ts' b'.
Proof.
  inversion 1 as [ts1 s p ts2 b0 b1 q Hs]; subst. intros [HF HC].
  apply Forall_app in HF as [F1 [Fs F2]%Forall_cons].
  assert (well_formed p) as Fp by by inversion Fs.
  destruct b as [m r i].
  inversion Fs; subst; cbn in Hs; injection Hs as <- <-; cbn [app mem_chips mem_indexes] in *.
  - split; [by apply Forall_app_2, Forall_cons_2|]. cbn. intros k d. rewrite lookup_insert_Some. intros [[<- <-]|[_ E]].
    + split; [done|]. intros a. right. apply will_index_here. auto.
    + destruct (HC _ _ E) as [Hk Hi]. split; [done|]. intros a. destruct (Hi a) as [?|W]; [by left|right].
      by destruct (will_index_step _ _ _ _ _ _ [] W) as [?|[?|?]].
  - split; [by apply Forall_app_2, Forall_cons_2|]. intros k d E. destruct (HC _ _ E) as [Hk Hi].
    split; [done|]. intros a. destruct (Hi a) as [?|W]; [by left|right].
    by destruct (will_index_step _ _ _ _ _ _ [] W) as [?|[?|?]].
  - split; [by apply Forall_app_2, Forall_cons_2|]. intros k d E. destruct (HC _ _ E) as [Hk Hi].
    split; [done|]. intros a'. destruct (Hi a') as [?|W]; [left; by apply index_at_mono|].
    destruct (will_index_step _ _ _ _ _ _ [] W) as [[= -> ->]|[?|?]]; [left; apply index_at_self|done|by right].
  - split; [by apply Forall_app_2, Forall_cons_2|]. intros k d E. destruct (HC _ _ E) as [Hk Hi].
    split; [done|]. intros a'. right. apply will_index_here. auto.
  - split; [by apply Forall_app_2, Forall_cons_2; [|apply wf_app; [apply wf_indexing|]|]|]. intros k d E.
    destruct (HC _ _ E) as [Hk Hi]. split; [done|]. intros a. right. apply will_index_here. left.
    apply elem_of_app. left. apply list_elem_of_In, in_concat. exists (index_sections d).
    split; [|apply list_elem_of_In, index_sections_elem]. apply in_map, list_elem_of_In.
    unfold map_values. rewrite hash_iter_perm. apply list_elem_of_fmap. exists (k, d). split; [done|].
    by apply elem_of_map_to_list.
Qed.

Lemma covered_rtc x y : rtc interleave x y -> covered x.1 x.2 -> covered y.1 y.2.
Proof. induction 1 as [|[t1 b1] [t2 b2] z Hs _ IH]; [done|]. intros H. apply IH. by apply (covered_step t1 b1). Qed.
End Interleaving.

(** ** Properties *)

Section Properties.
Context {HI : HashIter} `{!HashIterLaws HI}.

(** C37: Concurrent stores and rebuilds never lose a chip from the indexes.  Start
    any number of them on a backend whose chips are all indexed, interleave
    their critical sections in any order, and when all have finished every
    stored chip is indexed, so that queries through the indexes are exact. *)
Theorem concurrent_puts_indexed ts b ts' b' :
  Forall (fun p => p = rebuild_sections \/ exists c, p = put_sections c) ts ->
  (forall k c, mem_chips b !! k = Some c -> cid c = k /\ indexed (mem_indexes b) c) ->
  rtc interleave (ts, b) (ts', b') -> Forall (fun p => p = []) ts' ->
  (forall k c, mem_chips b' !! k = Some c -> cid c = k /\ indexed (mem_indexes b') c) /\
  forall q, exists l, l ≡ₚ matching q (mem_chips b') /\ mem_query_chips q b' = Ok (apply_pagination l q).
Proof.
  intros HF HB HR HE.
  assert (covered ts b) as HC.
  { split.
    - eapply Forall_impl; [exact HF|]. intros p [->|[c ->]]; [apply wf_rebuild|apply wf_put].
    - intros k c E. destruct (HB _ _ E) as (? & ? & ? & ?). split; [done|]. intros []; by left. }
  assert (covered ts' b') as [_ HC'].
  { exact (covered_rtc _ _ HR HC). }
  assert (forall k c, mem_chips b' !! k = Some c -> cid c = k /\ indexed (mem_indexes b') c) as HI'.
  { intros k c E. destruct (HC' _ _ E) as [Hk Hi]. split; [done|].
    assert (forall a, indexed_at a (mem_indexes b') c) as Ha.
    { intros a. destruct (Hi a) as [?|(p & Hp & Hin)]; [done|]. rewrite Forall_forall in HE.
      rewrite (HE _ Hp) in Hin. set_solver. }
    exact (conj (Ha ByType) (conj (Ha ByTags) (Ha ByExecutor))). }
  split; [done|]. intros q. by apply mem_query_exact.
Qed.

Lemma interleave_left s p t b b' q : run_section s b = (b', q) -> interleave ([s :: p; t], b) ([q ++ p; t], b').
Proof. apply (interleave_run [] s p [t]). Qed.
Lemma interleave_right s p t b b' q : run_section s b = (b', q) -> interleave ([t; s :: p], b) ([t; q ++ p], b').
Proof. apply (interleave_run [t] s p []). Qed.

(** A deletion that interleaves with a store of the same chip can hide the
    chip: the store finishes between the removal of the old record and the
    removal of its index entries, and the chip is then stored but found neither
    by its type nor by any query that names the type. *)
Theorem delete_hides_put b c :
  keyed (mem_chips b) -> mem_chips b !! cid c = Some c ->
  exists b', rtc interleave ([delete_sections (cid_as_str (cid c)); put_sections c], b) ([[]; []], b') /\
    mem_get_chip (cid_as_str (cid c)) b' = Ok (Some c) /\
    (exists l, mem_get_chips_by_type (chip_type c) b' = Ok l /\ c ∉ l).
Proof.
  intros K Hc. destruct b as [m r i]. cbn in K, Hc.
  assert (cid_new_unchecked (cid_as_str (cid c)) = cid c) as Ec by by destruct (cid c).
  eexists. split.
  { eapply rtc_l; [apply interleave_left; cbn; rewrite Ec, Hc; reflexivity|].
    do 5 (eapply rtc_l; [apply interleave_right; reflexivity|]).
    do 4 (eapply rtc_l; [apply interleave_left; reflexivity|]). apply rtc_refl. }
  split.
  - cbn. unfold mem_get_chip. cbn. by rewrite Ec, lookup_insert_eq.
  - eexists. split; [reflexivity|]. rewrite sort_by_perm. rewrite elem_lookups.
    + cbn. intros [Hin _]. rewrite index_get_remove, decide_True in Hin by done. set_solver.
    + cbn. rewrite insert_delete_eq. intros k d [[<- <-]|[_ E]]%lookup_insert_Some; [done|by apply K].
Qed.
End Properties.

(** ** Witnesses *)

Module RaceSample.
Import ChipStoreSample.

Lemma concurrent_puts_indexed_witness : exists b',
  rtc interleave ([put_sections chip_a; put_sections chip_b], mem_new) ([[]; []], b') /\
  forall k c, mem_chips b' !! k = Some c -> cid c = k /\ indexed (mem_indexes b') c.
Proof.
  assert (exists b', rtc interleave ([put_sections chip_a; put_sections chip_b], mem_new) ([[]; []], b')) as [b' HR].
  { eexists. do 3 (eapply rtc_l; [apply interleave_left; reflexivity|]).
    do 5 (eapply rtc_l; [apply interleave_right; reflexivity|]).
    do 2 (eapply rtc_l; [apply interleave_left; reflexivity|]). apply rtc_refl. }
  exists b'. split; [done|].
  refine (proj1 (concurrent_puts_indexed _ mem_new _ b' _ _ HR _)).
  - apply Forall_cons_2; [right; by exists chip_a|]. apply Forall_cons_2; [right; by exists chip_b|]. by apply Forall_nil_2.
  - intros k c E. cbn in E. by rewrite lookup_empty in E.
  - by repeat apply Forall_cons_2; try apply Forall_nil_2.
Defined.

Lemma delete_hides_put_witness : exists b',
  rtc interleave ([delete_sections "b3:a"; put_sections chip_a], (mem_put_chip chip_a mem_new).1) ([[]; []], b') /\
  mem_get_chip "b3:a" b' = Ok (Some chip_a).
Proof.
  destruct (delete_hides_put (mem_put_chip chip_a mem_new).1 chip_a) as (b' & H1 & H2 & _).
  - intros k c. cbn [fst mem_put_chip mem_chips]. intros [[<- <-]|[_ E]]%lookup_insert_Some; [done|]. cbn in E. by rewrite lookup_empty in E.
  - vm_compute; reflexivity.
  - exists b'. by split.
Defined.
End RaceSample.

End Race.
