(* ===== verification/Capability.v ===== *)
(** * Capabilities and authorship ([capability.rs], [authorship.rs])

    Signed capabilities embedded in chip bodies under [@cap]: extraction,
    validation (action, audience, time, signature) and the table of chip types
    that need one; and the resolution of the DID that a chip is attributed to.
    Instants are nanoseconds since the epoch; the clock reading is an
    argument. *)

From S2P Require Import Prelude RustStd RustStr.
From S2P Require Import Json Nrf NrfFacts Vm Canon Types.

(** [chrono::DateTime::parse_from_rfc3339(s)] as an instant. *)
Class ChronoInstant : Type := { rfc3339_instant : string -> option Z }.

(** ** Data *)

Record Capability : Type := mkCap {
  action : string;
  audience : string;
  issued_by : string;
  issued_at : string;
  expires_at : string;
  signature : string }.

(** Texts of the libraries are left out of the messages. *)
Inductive CapError : Type :=
| CapMissing
| CapMalformed (msg : string)
| WrongAction (required got : string)
| WrongAudience (required got : string)
| CapExpired (expires_at now : string)
| InvalidSignature (msg : string)
| InvalidSignatureKms (e : KmsError).

Definition required_capability (chip_type : string) : option string :=
  if String.eqb chip_type "ubl/app" then Some "registry:init"%string
  else if String.eqb chip_type "ubl/membership" then Some "membership:grant"%string
  else if String.eqb chip_type "ubl/revoke" then Some "revoke:execute"%string
  else if String.eqb chip_type "ubl/key.rotate" then Some "key:rotate"%string
  else if String.eqb chip_type "audit/report.request.v1" then Some "audit:report"%string
  else if String.eqb chip_type "audit/ledger.snapshot.request.v1" then Some "audit:snapshot"%string
  else if String.eqb chip_type "ledger/segment.compact.v1" then Some "ledger:compact"%string
  else if String.eqb chip_type "audit/advisory.request.v1" then Some "audit:advisory"%string
  else None.

Definition requires_cap_for_first (chip_type : string) : bool := String.eqb chip_type "ubl/user".

(** ** Extraction *)

(** A text field of a derived [Deserialize]: required, or defaulting to the
    empty text when absent. *)
Definition req_text (m : list (string * json)) (k : string) : option string := map_get k m ≫= as_str.
Definition default_text (m : list (string * json)) (k : string) : option string :=
  match map_get k m with Some v => as_str v | None => Some ""%string end.

(** [serde_json::from_value::<Capability>]: an object with the fields, or an
    array with their values in order (the defaulted ones may be missing at the
    end). *)
Definition cap_from_value (v : json) : option Capability :=
  match v with
  | JObject m =>
      a ← req_text m "action"; au ← req_text m "audience"; by_ ← req_text m "issued_by";
      at_ ← req_text m "issued_at"; ex ← default_text m "expires_at"; sg ← default_text m "signature";
      Some (mkCap a au by_ at_ ex sg)
  | JArray [JString a; JString au; JString by_; JString at_] => Some (mkCap a au by_ at_ "" "")
  | JArray [JString a; JString au; JString by_; JString at_; JString ex] => Some (mkCap a au by_ at_ ex "")
  | JArray [JString a; JString au; JString by_; JString at_; JString ex; JString sg] =>
      Some (mkCap a au by_ at_ ex sg)
  | _ => None
  end.

Definition extract_cap (body : json) : result CapError Capability :=
  cap_val ← ok_or (get "@cap" body) CapMissing;
  ok_or (cap_from_value cap_val) (CapMalformed "not a capability").

(** ** Validation *)

Definition audience_matches_world (aud world : string) : bool :=
  String.eqb world aud
  || match strip_prefix aud world with Some rest => starts_with "/" rest | None => false end.

Definition cap_signing_payload (cap : Capability) : json :=
  JObject [("action", JString (action cap)); ("audience", JString (audience cap));
           ("issued_by", JString (issued_by cap)); ("issued_at", JString (issued_at cap));
           ("expires_at", JString (expires_at cap))].

Section Validate.
Context {U : Unicode} {HB3 : Blake3} {CI : ChronoInstant}
  {ED : Ed25519} {EK : Ed25519Keys} {B64 : Base64} {B64D : Base64Decode} {B58 : Base58}.

(** The instants of a capability; [now] with its text is the clock reading. *)
Definition check_times (cap : Capability) (now : Z) (now_text : string) : result CapError unit :=
  issued ← ok_or (rfc3339_instant (issued_at cap)) (CapMalformed "issued_at must be RFC-3339");
  if is_empty (expires_at cap) then Ok tt
  else
    expires ← ok_or (rfc3339_instant (expires_at cap)) (CapMalformed "expires_at must be RFC-3339");
    if expires <=? issued then Err (CapMalformed "expires_at must be later than issued_at")
    else if expires <=? now then Err (CapExpired (expires_at cap) now_text)
    else Ok tt.

Definition check_signature (cap : Capability) : result CapError unit :=
  if is_empty (signature cap) then Err (InvalidSignature "signature is empty")
  else
    vk ← map_err InvalidSignatureKms (verifying_key_from_did (issued_by cap));
    verified ← map_err InvalidSignatureKms
      (verify_canonical vk (cap_signing_payload cap) kms_domain.CAPABILITY (signature cap));
    if verified : bool then Ok tt else Err (InvalidSignature "signature verification failed").

Definition validate_cap (cap : Capability) (required_action world : string) (now : Z) (now_text : string) :
    result CapError unit :=
  if negb (String.eqb (action cap) required_action) then Err (WrongAction required_action (action cap))
  else if negb (audience_matches_world (audience cap) world) then Err (WrongAudience world (audience cap))
  else
    _ ← check_times cap now now_text;
    check_signature cap.

Definition require_cap (body : json) (required_action world : string) (now : Z) (now_text : string) :
    result CapError Capability :=
  cap ← extract_cap body;
  _ ← validate_cap cap required_action world now now_text;
  Ok cap.

(** The record of a consumed capability. *)
Record ConsumedCap : Type := mkConsumed {
  cc_action : string; cc_audience : string; cc_issued_by : string; consumed_at : string }.
Definition consumed_cap (cap : Capability) (now_text : string) : ConsumedCap :=
  mkConsumed (action cap) (audience cap) (issued_by cap) now_text.
End Validate.

(** ** Authorship *)

Record ActorHint : Type := mkHint { ip_prefix : option string; user_agent_hash : option string }.

(** [.filter(|s| s.starts_with("did:"))]. *)
Definition only_did (o : option string) : option string :=
  s ← o; if starts_with "did:" s then Some s else None.

Definition extract_explicit_did (body : json) : option string :=
  match only_did (((get "actor" body ≫= as_object) ≫= map_get "did") ≫= as_str) with
  | Some did => Some did
  | None =>
      match only_did (get "did" body ≫= as_str) with
      | Some did => Some did
      | None => only_did (get "owner_did" body ≫= as_str)
      end
  end.

Definition copy_if_str (src : list (string * json)) (key : string) (dst : list (string * json)) :
    list (string * json) :=
  match map_get key src ≫= as_str with Some v => map_insert key (JString v) dst | None => dst end.

Section Authorship.
Context {U : Unicode} {HB3 : Blake3} {SJ : SerdeJson}.

Definition knock_cid_from_bytes (bs : bytes) : string := "b3:" +:+ hex_encode (blake3 bs).

Definition knock_cid_from_value (value : json) : string :=
  match to_nrf1_bytes value with
  | Ok nrf => compute_cid nrf
  | Err _ => knock_cid_from_bytes (to_vec value)
  end.

Definition claims_fingerprint (claims : json) : string :=
  match to_nrf1_bytes claims with
  | Ok nrf => compute_cid nrf
  | Err _ => knock_cid_from_bytes (to_vec claims)
  end.

Definition actor_claims (body : option json) : list (string * json) :=
  match (body ≫= get "actor") ≫= as_object with
  | Some actor =>
      copy_if_str actor "kid" (copy_if_str actor "session_id" (copy_if_str actor "device_id"
        (copy_if_str actor "client_pubkey" (copy_if_str actor "installation_key" []))))
  | None => []
  end.

Definition hint_claims (hint : option ActorHint) (claims : list (string * json)) : list (string * json) :=
  match hint with
  | Some h =>
      let c1 := match ip_prefix h with Some ip => map_insert "ip_prefix" (JString ip) claims | None => claims end in
      match user_agent_hash h with Some ua => map_insert "user_agent_hash" (JString ua) c1 | None => c1 end
  | None => claims
  end.

Definition resolve_subject_did (body : option json) (hint : option ActorHint) : string :=
  match body ≫= extract_explicit_did with
  | Some did => did
  | None => "did:ubl:anon:" +:+ claims_fingerprint (JObject (hint_claims hint (actor_claims body)))
  end.
End Authorship.

(** ** Facts *)

(** The path boundary, on path segments: the audience's segments start the
    world's. *)
Lemma split_on_slash_app s r : split_on "/" (s +:+ String "/" r) = split_on "/" s ++ split_on "/" r.
Proof.
  induction s as [|a s IH]; [done|]. rewrite str_app_cons. cbn. rewrite IH.
  destruct (Ascii.eqb a "/"); [done|]. by destruct (split_on "/" s) eqn:E; [by apply split_on_nonempty in E|].
Qed.

Lemma join_app sep l1 l2 : l1 <> [] -> l2 <> [] -> join sep (l1 ++ l2) = join sep l1 +:+ sep +:+ join sep l2.
Proof.
  intros H1 H2. induction l1 as [|x l1 IH]; [done|]. destruct l1 as [|y l1]; [by rewrite <- join_cons|].
  specialize (IH ltac:(done)). rewrite <- app_comm_cons, !join_cons, IH by done. by rewrite !str_app_assoc.
Qed.

Lemma audience_segments aud world :
  audience_matches_world aud world = true <-> split_on "/" aud `prefix_of` split_on "/" world.
Proof.
  unfold audience_matches_world. rewrite orb_true_iff, String.eqb_eq. split.
  - intros [->|H]; [done|]. destruct (strip_prefix aud world) as [rest|] eqn:E; [|done].
    apply strip_prefix_Some in E as ->. apply starts_with_Some in H as [r ->].
    change ("/" +:+ r) with (String "/" r). rewrite split_on_slash_app. by eexists.
  - intros [k Hk]. destruct k as [|p k].
    + left. rewrite <- (split_on_join "/" world), <- (split_on_join "/" aud). by rewrite Hk, app_nil_r.
    + right. assert (world = aud +:+ "/" +:+ join "/" (p :: k)) as ->.
      { rewrite <- (split_on_join "/" world), Hk, join_app, split_on_join; [done|apply split_on_nonempty|done]. }
      rewrite strip_prefix_app. apply starts_with_app.
Qed.

(** Members of equivalent values. *)
Lemma equiv_get v1 v2 k x : json_wf v1 -> json_wf v2 -> json_equiv v1 v2 ->
  get k v1 = Some x -> is_null x = false -> exists y, get k v2 = Some y /\ json_equiv x y.
Proof.
  intros W1 W2 He Hx Hn. inversion He as [v|l1 l2 Hl|m1 m1' m2 m2' H1 H2 HF]; subst; [|done|].
  - exists x. split; [done|apply equiv_refl].
  - cbn in Hx. apply map_get_elem in Hx. apply json_wf_object in W2 as [N2 _].
    destruct (equiv_entry _ _ _ _ _ _ H1 H2 HF Hx Hn) as (y & Hy & _ & Hxy).
    exists y. split; [cbn; by apply map_get_elem_iff|done].
Qed.

Lemma equiv_get_r v1 v2 k y : json_wf v1 -> json_wf v2 -> json_equiv v1 v2 ->
  get k v2 = Some y -> is_null y = false -> exists x, get k v1 = Some x /\ json_equiv x y.
Proof.
  intros W1 W2 He Hy Hn. inversion He as [v|l1 l2 Hl|m1 m1' m2 m2' H1 H2 HF]; subst; [|done|].
  - exists y. split; [done|apply equiv_refl].
  - cbn in Hy. apply map_get_elem in Hy. apply json_wf_object in W1 as [N1 _].
    destruct (equiv_entry_r _ _ _ _ _ _ H1 H2 HF Hy Hn) as (x & Hx & _ & Hxy).
    exists x. split; [cbn; by apply map_get_elem_iff|done].
Qed.

(** A reading of a member that ignores null and gives equal results on
    equivalent values gives equal results on equivalent objects. *)
Lemma equiv_read {A} (f : json -> option A) v1 v2 k : json_wf v1 -> json_wf v2 -> json_equiv v1 v2 ->
  f JNull = None -> (forall x y, json_wf x -> json_wf y -> json_equiv x y -> f x = f y) ->
  get k v1 ≫= f = get k v2 ≫= f.
Proof.
  intros W1 W2 He Hn Hf.
  assert (forall v x, json_wf v -> get k v = Some x -> json_wf x) as Hw.
  { intros v x W Hx. destruct v; try done. cbn in Hx. apply json_wf_object in W as [_ HF].
    rewrite Forall_forall in HF. apply map_get_elem in Hx. by apply (HF _ Hx). }
  apply option_eq. intros a. rewrite !bind_Some. split.
  - intros (x & Hx & Ha). destruct (equiv_get v1 v2 k x) as (y & Hy & Hxy); try done; [destruct x; naive_solver|].
    exists y. split; [done|]. by rewrite <- (Hf x y) by eauto.
  - intros (y & Hy & Ha). destruct (equiv_get_r v1 v2 k y) as (x & Hx & Hxy); try done; [destruct y; naive_solver|].
    exists x. split; [done|]. by rewrite (Hf x y) by eauto.
Qed.

Lemma equiv_get_str v1 v2 k : json_wf v1 -> json_wf v2 -> json_equiv v1 v2 ->
  get k v1 ≫= as_str = get k v2 ≫= as_str.
Proof. intros W1 W2 He. apply equiv_read; try done. by intros x y _ _ []. Qed.

(** What is read of an actor's object. *)
Lemma equiv_object_str x y m1 m2 k : x = JObject m1 -> y = JObject m2 -> json_wf x -> json_wf y -> json_equiv x y ->
  map_get k m1 ≫= as_str = map_get k m2 ≫= as_str.
Proof. intros -> -> W1 W2 He. exact (equiv_get_str _ _ k W1 W2 He). Qed.

Lemma equiv_as_object x y : json_equiv x y ->
  (as_object x = None /\ as_object y = None) \/ exists m1 m2, x = JObject m1 /\ y = JObject m2.
Proof. destruct 1 as [v| |]; [destruct v|..]; eauto 10. Qed.

Lemma explicit_did_equiv v1 v2 : json_wf v1 -> json_wf v2 -> json_equiv v1 v2 ->
  extract_explicit_did v1 = extract_explicit_did v2.
Proof.
  intros W1 W2 He. unfold extract_explicit_did.
  rewrite (equiv_get_str v1 v2 "did"), (equiv_get_str v1 v2 "owner_did") by done.
  assert (get "actor" v1 ≫= (fun x => (as_object x ≫= map_get "did") ≫= as_str) =
          get "actor" v2 ≫= (fun x => (as_object x ≫= map_get "did") ≫= as_str)) as Ha.
  { apply equiv_read; try done. intros x y Wx Wy Hxy.
    destruct (equiv_as_object x y Hxy) as [[-> ->]|(m1 & m2 & -> & ->)]; [done|].
    cbn. by apply (equiv_object_str (JObject m1) (JObject m2)). }
  assert (((get "actor" v1 ≫= as_object) ≫= map_get "did") ≫= as_str =
          ((get "actor" v2 ≫= as_object) ≫= map_get "did") ≫= as_str) as ->; [|done].
  by destruct (get "actor" v1), (get "actor" v2).
Qed.

Lemma actor_claims_equiv v1 v2 : json_wf v1 -> json_wf v2 -> json_equiv v1 v2 ->
  actor_claims (Some v1) = actor_claims (Some v2).
Proof.
  intros W1 W2 He.
  assert (get "actor" v1 ≫= (fun x => a ← as_object x; Some (actor_claims (Some (JObject [("actor"%string, JObject a)])))) =
          get "actor" v2 ≫= (fun x => a ← as_object x; Some (actor_claims (Some (JObject [("actor"%string, JObject a)]))))) as Ha.
  { apply equiv_read; try done. intros x y Wx Wy Hxy.
    destruct (equiv_as_object x y Hxy) as [[-> ->]|(m1 & m2 & -> & ->)]; [done|].
    cbn [as_object mbind option_bind]. unfold actor_claims, copy_if_str. cbn.
    by rewrite !(equiv_object_str (JObject m1) (JObject m2) m1 m2). }
  unfold actor_claims in *. cbn [mbind option_bind] in *.
  destruct (get "actor" v1) as [x|], (get "actor" v2) as [y|]; cbn [mbind option_bind] in *; try done;
    repeat match goal with |- context [as_object ?z] => destruct (as_object z) end; cbn in *; congruence.
Qed.

(** ** Properties *)

Section Properties.
Context {U : Unicode} {HB3 : Blake3} {CI : ChronoInstant} {SJ : SerdeJson}
  {ED : Ed25519} {EK : Ed25519Keys} {B64 : Base64} {B64D : Base64Decode} {B58 : Base58}.

(** What an accepted capability guarantees: it names the required action; its
    audience is the chip's world or one that contains it segment by segment;
    it was issued before it expires and has not expired; and its signature
    verifies, over the canonical bytes of its fields in the capability domain,
    under the key of the DID it names as its issuer. *)
Theorem cap_validated body act world now nt cap :
  require_cap body act world now nt = Ok cap ->
  extract_cap body = Ok cap /\ action cap = act /\
  split_on "/" (audience cap) `prefix_of` split_on "/" world /\
  (expires_at cap <> ""%string -> exists i e, rfc3339_instant (issued_at cap) = Some i /\
     rfc3339_instant (expires_at cap) = Some e /\ i < e /\ now < e) /\
  exists vk bs, verifying_key_from_did (issued_by cap) = Ok vk /\
    to_nrf1_bytes (cap_signing_payload cap) = Ok bs /\
    kms_verify_raw vk (domain_message kms_domain.CAPABILITY bs) (signature cap) = Ok true.
Proof.
  unfold require_cap. intros H. apply result_bind_ok in H as (c & Hx & H).
  apply result_bind_ok in H as ([] & Hv & [= <-]). unfold validate_cap in Hv.
  destruct (String.eqb_spec (action c) act) as [Ha|]; [|done].
  destruct (audience_matches_world _ _) eqn:Hau; [|done]. cbn [negb] in Hv.
  apply result_bind_ok in Hv as ([] & Ht & Hs). split_and!; [done|done|by apply audience_segments| |].
  - intros Hne. unfold check_times in Ht. apply result_bind_ok in Ht as (i & Hi & Ht).
    destruct (rfc3339_instant (issued_at c)) as [i'|]; [|done]. injection Hi as ->.
    destruct (expires_at c) as [|a s] eqn:E; [done|]. cbn [is_empty] in Ht.
    apply result_bind_ok in Ht as (e & He & Ht). destruct (rfc3339_instant (String a s)) as [e'|]; [|done].
    injection He as ->. destruct (Z.leb_spec e i); [done|]. destruct (Z.leb_spec e now); [done|].
    by exists i, e.
  - unfold check_signature in Hs. destruct (is_empty (signature c)); [done|].
    apply result_bind_ok in Hs as (vk & Hk & Hs). apply result_bind_ok in Hs as (b & Hb & Hs).
    destruct (verifying_key_from_did (issued_by c)) as [vk'|]; [|done]. injection Hk as ->.
    unfold verify_canonical in Hb. destruct (to_nrf1_bytes (cap_signing_payload c)) as [bs|]; [|done].
    cbn [map_err mbind result_bind] in Hb. exists vk, bs. split_and!; [done..|].
    destruct (kms_verify_raw _ _ _) as [[]|]; [done|by injection Hb as <-|done].
Qed.

(** A capability that a key issues to itself. *)
Definition self_signed (strict : bool) (sk : bytes) (act world at_ : string) (bs : bytes) : Capability :=
  mkCap act world (did_from_verifying_key strict (sk_verifying_key sk)) at_ ""
    ("ed25519:" +:+ base64_url (sk_sign sk (domain_message kms_domain.CAPABILITY bs))).

Definition cap_to_json (cap : Capability) : json :=
  JObject [("action", JString (action cap)); ("audience", JString (audience cap));
           ("issued_by", JString (issued_by cap)); ("issued_at", JString (issued_at cap));
           ("expires_at", JString (expires_at cap)); ("signature", JString (signature cap))].

(** The issuer is not checked against anything: whoever holds any key at all
    can issue itself any capability, for any action and any world, without
    expiry, and the check accepts it. *)
Theorem capability_self_issued `{!Ed25519Laws ED EK, !Base64Laws B64 B64D, !Base58Laws B58}
    strict sk act world at_ t bs body now nt :
  let cap := self_signed strict sk act world at_ bs in
  rfc3339_instant at_ = Some t -> to_nrf1_bytes (cap_signing_payload cap) = Ok bs ->
  get "@cap" body = Some (cap_to_json cap) -> require_cap body act world now nt = Ok cap.
Proof.
  intros cap Ht Hb Hg. unfold require_cap, extract_cap. rewrite Hg. cbn [ok_or mbind result_bind].
  assert (cap_from_value (cap_to_json cap) = Some cap) as -> by reflexivity. cbn [ok_or mbind result_bind].
  unfold validate_cap. unfold cap at 1 2. cbn [action audience self_signed]. rewrite String.eqb_refl.
  unfold audience_matches_world. rewrite String.eqb_refl. cbn [orb negb].
  unfold check_times. cbn [issued_at expires_at self_signed cap is_empty]. rewrite Ht. cbn [ok_or mbind result_bind].
  assert (check_signature cap = Ok tt) as ->; [|done].
  unfold check_signature. cbn [signature self_signed cap]. 
  change (is_empty ("ed25519:" +:+ base64_url (sk_sign sk (domain_message kms_domain.CAPABILITY bs)))) with false. cbn iota.
  cbn [issued_by cap self_signed]. rewrite did_roundtrip. cbn [map_err mbind result_bind].
  unfold verify_canonical. fold cap. rewrite Hb. cbn [map_err mbind result_bind]. by rewrite kms_signature.
Qed.

(** Attribution does not depend on how a chip is written: bodies that differ in
    member order and null members are attributed to the same subject. *)
Theorem subject_did_canonical v1 v2 hint :
  json_wf v1 -> json_wf v2 -> json_equiv v1 v2 ->
  resolve_subject_did (Some v1) hint = resolve_subject_did (Some v2) hint.
Proof.
  intros W1 W2 He. unfold resolve_subject_did. cbn [mbind option_bind].
  by rewrite (explicit_did_equiv v1 v2), (actor_claims_equiv v1 v2).
Qed.
End Properties.

(** ** Witnesses *)

Module CapSample.
#[export] Existing Instance ascii_unicode.
#[export] Existing Instance zero_blake3.
(** One printable key. *)
#[export] Instance cap_ed : Ed25519 := {| ed25519_verify pk sig m := bool_decide (sig = pk ++ pk) |}.
#[export] Instance cap_keys : Ed25519Keys := {|
  sk_sign sk m := replicate 64 x41; sk_verifying_key sk := replicate 32 x41; vk_is_point _ := true;
|}.
#[export] Instance cap_ed_laws : Ed25519Laws cap_ed cap_keys.
Proof. by split. Qed.
#[export] Existing Instance CanonSample.raw64.
#[export] Existing Instance CanonSample.raw64d.
#[export] Existing Instance CanonSample.raw64_laws.
#[export] Existing Instance CanonSample.raw58.
#[export] Existing Instance CanonSample.raw58_laws.
#[export] Instance year_zero : ChronoInstant := {| rfc3339_instant s := if is_empty s then None else Some 0 |}.

Definition bytes0 : bytes := Eval vm_compute in
  match to_nrf1_bytes (cap_signing_payload (self_signed false [] "registry:init" "a/acme" "2024-01-01T00:00:00Z" [])) with
  | Ok b => b
  | Err _ => []
  end.
Definition cap0 : Capability := self_signed false [] "registry:init" "a/acme" "2024-01-01T00:00:00Z" bytes0.
Definition body0 : json := JObject [("@type", JString "ubl/app"); ("@cap", cap_to_json cap0)].

Lemma capability_self_issued_witness : require_cap body0 "registry:init" "a/acme" 5 "now" = Ok cap0.
Proof.
  apply (capability_self_issued false [] "registry:init" "a/acme" "2024-01-01T00:00:00Z" 0 bytes0);
    [reflexivity|vm_compute; reflexivity|reflexivity].
Defined.

Lemma cap_validated_witness : action cap0 = "registry:init"%string.
Proof.
  apply (cap_validated body0 "registry:init" "a/acme/t/prod" 5 "now" cap0). vm_compute. reflexivity.
Defined.

#[local] Instance no_json : SerdeJson := {| from_slice _ := None; to_vec _ := []; value_to_string _ := "" |}.
Lemma subject_did_canonical_witness :
  resolve_subject_did (Some sample_json1) None = resolve_subject_did (Some sample_json2) None.
Proof.
  apply (subject_did_canonical sample_json1 sample_json2 None);
    [cbn; unfold str_wf, u64_max; repeat split; try reflexivity; try lia; apply (bool_decide_unpack _); vm_compute; exact I..|].
  exact CanonSample.sample_equiv.
Defined.
End CapSample.
