(* ===== verification/Auth.v ===== *)
(** * Onboarding and authorisation ([auth.rs])

    The six onboarding chips (application, user, tenant, membership, token,
    revocation) with their parsers and printers, worlds, the permission check,
    and the engine that checks the dependencies of an onboarding chip against
    the chip store, whose backend is any instance of [ChipStoreBackend]. *)

From S2P Require Import Prelude RustStd RustStr.
From S2P Require Import Json Nrf NrfFacts Vm Canon Types.
From S2P Require Import ChipStore Capability.

(** ** Errors *)

Inductive AuthError : Type :=
| MissingField (s : string)
| InvalidField (s : string)
| Unauthorized (s : string)
| AuthDependencyMissing (s : string)
| TokenExpired
| TokenInvalid (s : string).

(** ** Roles *)

Inductive Role : Type := Admin | Member.

#[export] Instance Role_eq_dec : EqDecision Role.
Proof. solve_decision. Defined.

Definition role_as_str (r : Role) : string := match r with Admin => "admin" | Member => "member" end.

Definition role_parse (s : string) : result AuthError Role :=
  if String.eqb s "admin" then Ok Admin
  else if String.eqb s "member" then Ok Member
  else Err (InvalidField ("Role must be 'admin' or 'member', got '" +:+ s +:+ "'")).

(** ** Field access *)

(** [body.get(k).and_then(|v| v.as_str()).ok_or_else(...)?.to_string()]. *)
Definition field (body : json) (k : string) : result AuthError string :=
  ok_or (get k body ≫= as_str) (MissingField k).

Definition require_prefix (what prefix value : string) : result AuthError unit :=
  if starts_with prefix value then Ok tt
  else Err (InvalidField (what +:+ " must start with '" +:+ prefix +:+ "': '" +:+ value +:+ "'")).

Definition valid_slug (slug : string) : bool :=
  negb (is_empty slug || contains_char "/" slug || contains_char " " slug).

Definition slug_field (body : json) : result AuthError string :=
  slug ← field body "slug";
  if valid_slug slug then Ok slug
  else Err (InvalidField ("slug must be non-empty, no spaces or slashes: '" +:+ slug +:+ "'")).

Definition display_name_field (body : json) : result AuthError string :=
  display_name ← field body "display_name";
  if is_empty display_name then Err (InvalidField "display_name cannot be empty") else Ok display_name.

Definition cid_field (body : json) (k : string) : result AuthError string :=
  c ← field body k;
  _ ← require_prefix k "b3:" c;
  Ok c.

(** The envelope that every onboarding body starts with. *)
Definition anchors (ty id world : string) : list (string * json) :=
  [("@type", JString ty); ("@id", JString id); ("@ver", JString "1.0"); ("@world", JString world)]%string.

(** ** 1. Applications *)

Record AppRegistration : Type := mkApp { app_slug : string; app_display_name : string; owner_did : string }.

Definition app_from_chip_body (body : json) : result AuthError AppRegistration :=
  slug ← slug_field body;
  display_name ← display_name_field body;
  owner ← field body "owner_did";
  _ ← require_prefix "owner_did" "did:" owner;
  Ok (mkApp slug display_name owner).

Definition world_prefix (a : AppRegistration) : string := "a/" +:+ app_slug a.

Definition app_to_chip_body (a : AppRegistration) (id : string) : json :=
  JObject (anchors "ubl/app" id ("a/" +:+ app_slug a) ++
    [("slug", JString (app_slug a)); ("display_name", JString (app_display_name a)); ("owner_did", JString (owner_did a))]).

(** ** 2. Users *)

Record UserIdentity : Type := mkUser { user_did : string; user_display_name : string }.

Definition user_from_chip_body (body : json) : result AuthError UserIdentity :=
  did ← field body "did";
  _ ← require_prefix "DID" "did:" did;
  display_name ← display_name_field body;
  Ok (mkUser did display_name).

Definition user_to_chip_body (u : UserIdentity) (id world : string) : json :=
  JObject (anchors "ubl/user" id world ++
    [("did", JString (user_did u)); ("display_name", JString (user_display_name u))]).

(** ** 3. Tenants *)

Record TenantCircle : Type := mkTenant { tenant_slug : string; tenant_display_name : string; creator_cid : string }.

Definition tenant_from_chip_body (body : json) : result AuthError TenantCircle :=
  slug ← slug_field body;
  display_name ← display_name_field body;
  creator ← cid_field body "creator_cid";
  Ok (mkTenant slug display_name creator).

Definition tenant_to_chip_body (t : TenantCircle) (id world : string) : json :=
  JObject (anchors "ubl/tenant" id world ++
    [("slug", JString (tenant_slug t)); ("display_name", JString (tenant_display_name t));
     ("creator_cid", JString (creator_cid t))]).

(** ** 4. Memberships *)

Record Membership : Type := mkMembership { m_user_cid : string; m_tenant_cid : string; m_role : Role }.

Definition membership_from_chip_body (body : json) : result AuthError Membership :=
  user ← cid_field body "user_cid";
  tenant ← cid_field body "tenant_cid";
  role_str ← field body "role";
  role ← role_parse role_str;
  Ok (mkMembership user tenant role).

Definition membership_to_chip_body (m : Membership) (id world : string) : json :=
  JObject (anchors "ubl/membership" id world ++
    [("user_cid", JString (m_user_cid m)); ("tenant_cid", JString (m_tenant_cid m));
     ("role", JString (role_as_str (m_role m)))]).

(** ** 5. Session tokens *)

Record SessionToken : Type := mkToken {
  t_user_cid : string; t_scope : list string; t_expires_at : string; t_kid : string }.

Definition token_from_chip_body (body : json) : result AuthError SessionToken :=
  user ← cid_field body "user_cid";
  let scope := match get "scope" body ≫= as_array with
               | Some arr => omap as_str arr
               | None => ["read"]%string
               end in
  expires ← field body "expires_at";
  kid ← field body "kid";
  Ok (mkToken user scope expires kid).

Definition token_to_chip_body (t : SessionToken) (id world : string) : json :=
  JObject (anchors "ubl/token" id world ++
    [("user_cid", JString (t_user_cid t)); ("scope", JArray (JString <$> t_scope t));
     ("expires_at", JString (t_expires_at t)); ("kid", JString (t_kid t))]).

Definition is_expired (t : SessionToken) (now : string) : bool := String.ltb (t_expires_at t) now.

Definition has_scope (t : SessionToken) (scope : string) : bool :=
  existsb (fun s => String.eqb s scope || String.eqb s "*") (t_scope t).

(** ** 6. Revocations *)

Record Revocation : Type := mkRevocation { target_cid : string; reason : string; actor_cid : string }.

Definition revocation_from_chip_body (body : json) : result AuthError Revocation :=
  target ← cid_field body "target_cid";
  why ← field body "reason";
  if is_empty why then Err (InvalidField "reason cannot be empty")
  else
    actor ← cid_field body "actor_cid";
    Ok (mkRevocation target why actor).

Definition revocation_to_chip_body (r : Revocation) (id world : string) : json :=
  JObject (anchors "ubl/revoke" id world ++
    [("target_cid", JString (target_cid r)); ("reason", JString (reason r)); ("actor_cid", JString (actor_cid r))]).

(** ** Worlds *)

Record WorldScope : Type := mkScope { ws_app : string; ws_tenant : option string }.

Definition world_scope_parse (world : string) : result AuthError WorldScope :=
  match split_on "/" world with
  | p0 :: p1 :: rest =>
      if negb (String.eqb p0 "a") then Err (InvalidField ("@world must start with 'a/{app}': '" +:+ world +:+ "'"))
      else if is_empty p1 then Err (InvalidField "app slug cannot be empty")
      else
        match rest with
        | p2 :: p3 :: _ =>
            if String.eqb p2 "t" then
              if is_empty p3 then Err (InvalidField "tenant slug cannot be empty") else Ok (mkScope p1 (Some p3))
            else Err (InvalidField ("@world format must be 'a/{app}' or 'a/{app}/t/{tenant}': '" +:+ world +:+ "'"))
        | [_] => Err (InvalidField ("@world format must be 'a/{app}' or 'a/{app}/t/{tenant}': '" +:+ world +:+ "'"))
        | [] => Ok (mkScope p1 None)
        end
  | _ => Err (InvalidField ("@world must start with 'a/{app}': '" +:+ world +:+ "'"))
  end.

Definition app_world (s : WorldScope) : string := "a/" +:+ ws_app s.

Definition world_scope_display (s : WorldScope) : string :=
  match ws_tenant s with
  | Some t => "a/" +:+ ws_app s +:+ "/t/" +:+ t
  | None => "a/" +:+ ws_app s
  end.

(** ** Permissions *)

Record PermissionContext : Type := mkPermission {
  actor_did : string; actor_role : Role; token_scopes : list string; pc_chip_type : string; pc_world : string }.

Definition to_eval_context (p : PermissionContext) : gmap string string :=
  <["chip.@world" := pc_world p]> (<["chip.@type" := pc_chip_type p]>
    (<["token.scopes" := join "," (token_scopes p)]> (<["actor.role" := role_as_str (actor_role p)]>
      (<["actor.did" := actor_did p]> ∅)))).

Definition quick_check (p : PermissionContext) : result AuthError unit :=
  if decide (actor_role p = Admin) then Ok tt
  else if String.eqb (pc_chip_type p) "ubl/revoke" || String.eqb (pc_chip_type p) "ubl/membership"
  then Err (Unauthorized ("'" +:+ pc_chip_type p +:+ "' requires admin role"))
  else Ok tt.

(** ** Onboarding chips *)

Definition ONBOARDING_TYPES : list string :=
  ["ubl/app"; "ubl/user"; "ubl/tenant"; "ubl/membership"; "ubl/token"; "ubl/revoke"]%string.

Definition is_onboarding_type (ty : string) : bool := existsb (String.eqb ty) ONBOARDING_TYPES.

Inductive OnboardingChip : Type :=
| OApp (a : AppRegistration)
| OUser (u : UserIdentity)
| OTenant (t : TenantCircle)
| OMembership (m : Membership)
| OToken (t : SessionToken)
| ORevoke (r : Revocation).

Definition parse_onboarding_chip (body : json) : result AuthError (option OnboardingChip) :=
  ty ← field body "@type";
  if String.eqb ty "ubl/app" then x ← app_from_chip_body body; Ok (Some (OApp x))
  else if String.eqb ty "ubl/user" then x ← user_from_chip_body body; Ok (Some (OUser x))
  else if String.eqb ty "ubl/tenant" then x ← tenant_from_chip_body body; Ok (Some (OTenant x))
  else if String.eqb ty "ubl/membership" then x ← membership_from_chip_body body; Ok (Some (OMembership x))
  else if String.eqb ty "ubl/token" then x ← token_from_chip_body body; Ok (Some (OToken x))
  else if String.eqb ty "ubl/revoke" then x ← revocation_from_chip_body body; Ok (Some (ORevoke x))
  else Ok None.

Definition validate_onboarding_chip (body : json) : result AuthError unit :=
  _ ← parse_onboarding_chip body; Ok tt.

(** ** The engine *)

Inductive AuthValidationError : Type :=
| InvalidChip (s : string)
| InvalidChipCap (what : string) (e : CapError)
| InvalidChipWorld (e : AuthError)
| DependencyMissing (s : string)
| Internal (e : ChipStoreError).

Definition tagged (ty tag : string) (limit : option nat) : ChipQuery :=
  mkQuery (Some ty) [tag] None None None limit None.

Section Engine.
Context {U : Unicode} {HB3 : Blake3} {CI : ChronoInstant}
  {ED : Ed25519} {EK : Ed25519Keys} {B64 : Base64} {B64D : Base64Decode} {B58 : Base58}.
Context {B : Type} {BE : ChipStoreBackend B}.

Definition is_revoked (target : string) (store : ChipStore B) : result AuthValidationError bool :=
  revocations ← map_err Internal (store_query store (tagged "ubl/revoke" ("target_cid:" +:+ target) (Some 1%nat)));
  Ok (negb (bool_decide (qr_chips revocations = []))).

(** [chip.chip_data.get("slug").and_then(|v| v.as_str()) == Some(slug)]. *)
Definition has_slug (chip : StoredChip) (slug : string) : bool :=
  match get "slug" (chip_data chip) ≫= as_str with Some s => String.eqb s slug | None => false end.

(** The loop over the applications with a slug: an active one is an error. *)
Fixpoint slug_unused (slug : string) (store : ChipStore B) (chips : list StoredChip) : result AuthValidationError unit :=
  match chips with
  | [] => Ok tt
  | chip :: rest =>
      if has_slug chip slug then
        revoked ← is_revoked (cid_as_str (cid chip)) store;
        if revoked : bool then slug_unused slug store rest
        else Err (InvalidChip ("App slug '" +:+ slug +:+ "' already registered"))
      else slug_unused slug store rest
  end.

(** The loop over the applications with a slug: an active one is wanted. *)
Fixpoint find_active (slug : string) (store : ChipStore B) (chips : list StoredChip) : result AuthValidationError unit :=
  match chips with
  | [] => Err (DependencyMissing ("App '" +:+ slug +:+ "' not found — register ubl/app first"))
  | chip :: rest =>
      if has_slug chip slug then
        revoked ← is_revoked (cid_as_str (cid chip)) store;
        if revoked : bool then find_active slug store rest else Ok tt
      else find_active slug store rest
  end.

Definition require_app_exists (slug : string) (store : ChipStore B) : result AuthValidationError unit :=
  apps ← map_err Internal (store_query store (tagged "ubl/app" ("slug:" +:+ slug) None));
  find_active slug store (qr_chips apps).

Definition require_chip_exists (c expected_type : string) (store : ChipStore B) : result AuthValidationError unit :=
  found ← map_err Internal (get_chip c (backend store));
  chip ← ok_or found (DependencyMissing (expected_type +:+ " '" +:+ c +:+ "' not found"));
  if negb (String.eqb (chip_type chip) expected_type) then
    Err (InvalidChip ("CID '" +:+ c +:+ "' is '" +:+ chip_type chip +:+ "', expected '" +:+ expected_type +:+ "'"))
  else
    revoked ← is_revoked c store;
    if revoked : bool then Err (DependencyMissing (expected_type +:+ " '" +:+ c +:+ "' has been revoked")) else Ok tt.

(** [now] and its text are the clock reading of the capability check. *)
Definition validate_onboarding_dependencies (onboarding : OnboardingChip) (body : json) (world : string)
    (store : ChipStore B) (now : Z) (now_text : string) : result AuthValidationError unit :=
  match onboarding with
  | OApp app =>
      _ ← map_err (InvalidChipCap "ubl/app capability: ") (require_cap body "registry:init" world now now_text);
      existing ← map_err Internal (store_query store (tagged "ubl/app" ("slug:" +:+ app_slug app) None));
      slug_unused (app_slug app) store (qr_chips existing)
  | OUser _ =>
      scope ← map_err InvalidChipWorld (world_scope_parse world);
      _ ← require_app_exists (ws_app scope) store;
      existing_users ← map_err Internal (store_query store (tagged "ubl/user" ("app:" +:+ ws_app scope) (Some 1%nat)));
      if bool_decide (qr_chips existing_users = []) then
        _ ← map_err (InvalidChipCap ("first ubl/user for app '" +:+ ws_app scope +:+ "' requires capability: "))
              (require_cap body "registry:init" world now now_text);
        Ok tt
      else Ok tt
  | OTenant tenant =>
      scope ← map_err InvalidChipWorld (world_scope_parse world);
      _ ← require_app_exists (ws_app scope) store;
      require_chip_exists (creator_cid tenant) "ubl/user" store
  | OMembership membership =>
      _ ← map_err (InvalidChipCap "ubl/membership capability: ") (require_cap body "membership:grant" world now now_text);
      _ ← require_chip_exists (m_user_cid membership) "ubl/user" store;
      require_chip_exists (m_tenant_cid membership) "ubl/tenant" store
  | OToken token => require_chip_exists (t_user_cid token) "ubl/user" store
  | ORevoke revoke =>
      _ ← map_err (InvalidChipCap "ubl/revoke capability: ") (require_cap body "revoke:execute" world now now_text);
      known ← map_err Internal (exists_chip (target_cid revoke) (backend store));
      if known : bool then require_chip_exists (actor_cid revoke) "ubl/user" store
      else Err (DependencyMissing ("Revoke target '" +:+ target_cid revoke +:+ "' not found"))
  end.
End Engine.
