(* ===== verification/AuthFacts.v ===== *)
(** * What onboarding and authorisation guarantee

    Against any chip store backend that keeps its contract ([BackendSpec]): the
    engine accepts an onboarding chip exactly when its dependencies are active,
    a revocation is final, bodies and worlds survive printing and parsing. *)

From stdpp Require Import sorting.
From S2P Require Import Prelude RustStd RustStr.
From S2P Require Import Json Nrf NrfFacts Vm Canon Types.
From S2P Require Import ChipStore ChipStoreFacts Capability Auth.

(** ** What the store says *)

(** A revocation of the target is on record. *)
Definition revoked (m : gmap TypedCid StoredChip) (target : string) : Prop :=
  exists c, m !! cid c = Some c /\ chip_type c = "ubl/revoke"%string /\ ("target_cid:" +:+ target) ∈ tags c.

(** The chip is there with the type, and not revoked. *)
Definition active (m : gmap TypedCid StoredChip) (c ty : string) : Prop :=
  (exists chip, m !! cid_new_unchecked c = Some chip /\ chip_type chip = ty) /\ ~ revoked m c.

(** An application with the slug, found by its tag. *)
Definition app_with_slug (m : gmap TypedCid StoredChip) (slug : string) (chip : StoredChip) : Prop :=
  m !! cid chip = Some chip /\ chip_type chip = "ubl/app"%string /\ ("slug:" +:+ slug) ∈ tags chip /\
  get "slug" (chip_data chip) ≫= as_str = Some slug.

Definition active_app (m : gmap TypedCid StoredChip) (slug : string) : Prop :=
  exists chip, app_with_slug m slug chip /\ ~ revoked m (cid_as_str (cid chip)).

(** Some chip has the type and the tag. *)
Definition some_tagged (m : gmap TypedCid StoredChip) (ty tag : string) : Prop :=
  exists chip, m !! cid chip = Some chip /\ chip_type chip = ty /\ tag ∈ tags chip.

Lemma tagged_matches chip ty tag limit :
  matches_query chip (tagged ty tag limit) = true <-> chip_type chip = ty /\ tag ∈ tags chip.
Proof.
  rewrite matches_satisfies. unfold satisfies, tagged. cbn. setoid_rewrite list_elem_of_singleton. naive_solver.
Qed.

Section Engine.
Context {U : Unicode} {HB3 : Blake3} {CI : ChronoInstant}
  {ED : Ed25519} {EK : Ed25519Keys} {B64 : Base64} {B64D : Base64Decode} {B58 : Base58}.
Context {B : Type} {BE : ChipStoreBackend B} {inv : B -> Prop} {accepts : StoredChip -> Prop}
  {contents : B -> gmap TypedCid StoredChip} `{!BackendSpec BE inv accepts contents}.
Implicit Types (s : ChipStore B).

Abbreviation held s := (contents (backend s)).

Lemma held_keyed s : inv (backend s) -> keyed (held s).
Proof. intros Hi k c. by apply spec_keyed. Qed.

(** A page of tagged chips is empty exactly when there are none. *)
Lemma tagged_page s ty tag n : inv (backend s) -> exists r, store_query s (tagged ty tag (Some (S n))) = Ok r /\
  ((qr_chips r = [] /\ ~ some_tagged (held s) ty tag) \/ (qr_chips r <> [] /\ some_tagged (held s) ty tag)).
Proof.
  intros Hi. destruct (spec_query (tagged ty tag (Some (S n))) (backend s) Hi) as (l & Hp & Hq).
  eexists. split; [exact Hq|].
  assert (forall c, c ∈ l <-> held s !! cid c = Some c /\ chip_type c = ty /\ tag ∈ tags c) as Hl.
  { intros c. rewrite Hp. unfold matching. rewrite elem_of_list_filter, elem_all_chips by by apply held_keyed.
    rewrite tagged_matches. tauto. }
  unfold apply_pagination. cbn. rewrite drop_0. destruct l as [|c l].
  - left. split; [done|]. intros (c & Hc). apply Hl in Hc. by apply elem_of_nil in Hc.
  - right. split; [|exists c; apply Hl; left]. intros E.
    destruct (sort_by newest_first (c :: l)) eqn:Es; [|done].
    pose proof (sort_by_perm newest_first (c :: l)) as P. rewrite Es in P. by apply Permutation_nil_cons in P.
Qed.

Lemma is_revoked_exact s t : inv (backend s) ->
  (is_revoked t s = Ok true /\ revoked (held s) t) \/ (is_revoked t s = Ok false /\ ~ revoked (held s) t).
Proof.
  intros Hi. unfold is_revoked.
  destruct (tagged_page s "ubl/revoke" ("target_cid:" +:+ t) 0 Hi) as (r & -> & [[E H]|[E H]]); cbn [map_err mbind result_bind].
  - right. by rewrite bool_decide_true.
  - left. by rewrite bool_decide_false.
Qed.

Lemma require_chip_exact s c ty : inv (backend s) -> (require_chip_exists c ty s = Ok tt <-> active (held s) c ty).
Proof.
  intros Hi. unfold require_chip_exists, active. rewrite (spec_get c (backend s) Hi). cbn [map_err mbind result_bind].
  destruct (held s !! cid_new_unchecked c) as [chip|]; cbn [ok_or mbind result_bind].
  2: { split; [done|]. by intros [(? & ? & _) _]. }
  destruct (String.eqb_spec (chip_type chip) ty) as [E|E]; cbn [negb].
  2: { split; [done|]. by intros [(? & [= <-] & ?) _]. }
  destruct (is_revoked_exact s c Hi) as [[-> Hr]|[-> Hr]]; cbn [mbind result_bind]; split; try done.
  - by intros [_ ?].
  - intros _. split; [by exists chip|done].
Qed.

Lemma has_slug_true chip slug : has_slug chip slug = true <-> get "slug" (chip_data chip) ≫= as_str = Some slug.
Proof.
  unfold has_slug. destruct (get "slug" (chip_data chip) ≫= as_str) as [x|]; [|done]. rewrite String.eqb_eq.
  split; [by intros ->|by intros [= ->]].
Qed.

Lemma find_active_exact s slug l : inv (backend s) ->
  (find_active slug s l = Ok tt <->
   Exists (fun c => has_slug c slug = true /\ ~ revoked (held s) (cid_as_str (cid c))) l).
Proof.
  intros Hi. induction l as [|c l IH]; cbn; [by rewrite Exists_nil|]. rewrite Exists_cons.
  destruct (has_slug c slug) eqn:E.
  - destruct (is_revoked_exact s (cid_as_str (cid c)) Hi) as [[-> Hr]|[-> Hr]]; cbn [mbind result_bind]; [rewrite IH|]; tauto.
  - rewrite IH. split; [by right|]. by intros [[? _]|?].
Qed.

Lemma slug_unused_exact s slug l : inv (backend s) ->
  (slug_unused slug s l = Ok tt <->
   Forall (fun c => has_slug c slug = true -> revoked (held s) (cid_as_str (cid c))) l).
Proof.
  intros Hi. induction l as [|c l IH]; cbn; [by rewrite Forall_nil|]. rewrite Forall_cons.
  destruct (has_slug c slug) eqn:E.
  - destruct (is_revoked_exact s (cid_as_str (cid c)) Hi) as [[-> Hr]|[-> Hr]]; cbn [mbind result_bind].
    + rewrite IH. tauto.
    + split; [done|]. intros [H _]. by destruct Hr; apply H.
  - rewrite IH. split; [by intros ?; split|by intros [_ ?]].
Qed.

(** The applications with a slug fit on the first page of 100. *)
Definition few_apps (m : gmap TypedCid StoredChip) (slug : string) : Prop :=
  (length (matching (tagged "ubl/app" ("slug:" +:+ slug) None) m) <= 100)%nat.

Lemma apps_page s slug : inv (backend s) -> few_apps (held s) slug ->
  exists r, store_query s (tagged "ubl/app" ("slug:" +:+ slug) None) = Ok r /\
    forall c, c ∈ qr_chips r /\ has_slug c slug = true <-> app_with_slug (held s) slug c.
Proof.
  intros Hi Hf. destruct (spec_query (tagged "ubl/app" ("slug:" +:+ slug) None) (backend s) Hi) as (l & Hp & Hq).
  eexists. split; [exact Hq|]. intros c. unfold apply_pagination. cbn [qr_chips q_offset q_limit tagged default from_option id].
  rewrite drop_0, take_ge by (rewrite sort_by_perm, Hp; exact Hf). rewrite sort_by_perm, Hp. unfold matching.
  rewrite elem_of_list_filter, elem_all_chips, tagged_matches, has_slug_true by by apply held_keyed.
  unfold app_with_slug. tauto.
Qed.

Lemma require_app_exact s slug : inv (backend s) -> few_apps (held s) slug ->
  (require_app_exists slug s = Ok tt <-> active_app (held s) slug).
Proof.
  intros Hi Hf. unfold require_app_exists. destruct (apps_page s slug Hi Hf) as (r & -> & Hr).
  cbn [map_err mbind result_bind]. rewrite find_active_exact by done. unfold active_app.
  rewrite Exists_exists. setoid_rewrite <- Hr. split; intros (c & H); exists c; tauto.
Qed.

(** ** The dependencies of an onboarding chip *)

Definition cap_ok (body : json) (act world : string) (now : Z) (nt : string) : Prop :=
  exists cap, require_cap body act world now nt = Ok cap.

Definition dependencies_met (m : gmap TypedCid StoredChip) (o : OnboardingChip) (body : json) (world : string)
    (now : Z) (nt : string) : Prop :=
  match o with
  | OApp a => cap_ok body "registry:init" world now nt /\ ~ active_app m (app_slug a)
  | OUser _ => exists sc, world_scope_parse world = Ok sc /\ active_app m (ws_app sc) /\
      (some_tagged m "ubl/user" ("app:" +:+ ws_app sc) \/ cap_ok body "registry:init" world now nt)
  | OTenant t => (exists sc, world_scope_parse world = Ok sc /\ active_app m (ws_app sc)) /\
      active m (creator_cid t) "ubl/user"
  | OMembership x => cap_ok body "membership:grant" world now nt /\
      active m (m_user_cid x) "ubl/user" /\ active m (m_tenant_cid x) "ubl/tenant"
  | OToken t => active m (t_user_cid t) "ubl/user"
  | ORevoke r => cap_ok body "revoke:execute" world now nt /\
      is_Some (m !! cid_new_unchecked (target_cid r)) /\ active m (actor_cid r) "ubl/user"
  end.

(** The slugs that the engine looks up. *)
Definition looked_up (o : OnboardingChip) (world slug : string) : Prop :=
  match o with
  | OApp a => slug = app_slug a
  | OUser _ | OTenant _ => exists sc, world_scope_parse world = Ok sc /\ slug = ws_app sc
  | _ => False
  end.

Lemma cap_bind {A} body act world now nt (f : CapError -> AuthValidationError) (k : result AuthValidationError A) a :
  ((_ ← map_err f (require_cap body act world now nt); k) = Ok a) <-> cap_ok body act world now nt /\ k = Ok a.
Proof.
  unfold cap_ok. destruct (require_cap body act world now nt); cbn; [naive_solver|]. split; [done|]. by intros [[? ?] _].
Qed.

Lemma unit_bind {A} (m : result AuthValidationError unit) (k : result AuthValidationError A) a :
  ((_ ← m; k) = Ok a) <-> m = Ok tt /\ k = Ok a.
Proof. destruct m as [[]|]; cbn; [naive_solver|]. split; [done|]. by intros [? _]. Qed.

Lemma world_bind {A} world (k : WorldScope -> result AuthValidationError A) a :
  ((sc ← map_err InvalidChipWorld (world_scope_parse world); k sc) = Ok a) <->
  exists sc, world_scope_parse world = Ok sc /\ k sc = Ok a.
Proof. destruct (world_scope_parse world); cbn; [naive_solver|]. split; [done|]. by intros (? & ? & _). Qed.

Lemma slug_free_exact s slug : inv (backend s) -> few_apps (held s) slug ->
  ((existing ← map_err Internal (store_query s (tagged "ubl/app" ("slug:" +:+ slug) None));
    slug_unused slug s (qr_chips existing)) = Ok tt <-> ~ active_app (held s) slug).
Proof.
  intros Hi Hf. destruct (apps_page s slug Hi Hf) as (r & -> & Hr). cbn [map_err mbind result_bind].
  rewrite slug_unused_exact, Forall_forall by done. unfold active_app. split.
  - intros H (c & [Hc Hs]%Hr & Hn). by apply Hn, H.
  - intros H c Hc Hs. destruct (is_revoked_exact s (cid_as_str (cid c)) Hi) as [[_ ?]|[_ Hn]]; [done|].
    destruct H. exists c. split; [by apply Hr|done].
Qed.

Lemma users_exact s slug body world now nt f : inv (backend s) ->
  ((existing ← map_err Internal (store_query s (tagged "ubl/user" ("app:" +:+ slug) (Some 1%nat)));
    if bool_decide (qr_chips existing = []) then
      _ ← map_err f (require_cap body "registry:init" world now nt); Ok tt
    else Ok tt) = Ok tt <->
   some_tagged (held s) "ubl/user" ("app:" +:+ slug) \/ cap_ok body "registry:init" world now nt).
Proof.
  intros Hi. destruct (tagged_page s "ubl/user" ("app:" +:+ slug) 0 Hi) as (r & -> & [[E H]|[E H]]);
    cbn [map_err mbind result_bind].
  - rewrite bool_decide_true by done. rewrite cap_bind. tauto.
  - rewrite bool_decide_false by done. tauto.
Qed.
End Engine.

(** ** Properties *)

Section Properties.
Context {U : Unicode} {HB3 : Blake3} {CI : ChronoInstant} {CD : ChronoDate}
  {ED : Ed25519} {EK : Ed25519Keys} {B64 : Base64} {B64D : Base64Decode} {B58 : Base58}.

(** C15: The engine accepts an onboarding chip exactly when its dependencies are
    met: an application needs the init capability and a slug that no active
    application has; a user an active application, and the capability if it is
    the first; a tenant an active application and an active user as creator; a
    membership the grant capability and an active user and tenant; a token an
    active user; a revocation the revoke capability, a stored target and an
    active user as actor.  Active means stored with the type and not revoked.
    (Lookups by slug read one page of 100 chips.) *)
Theorem onboarding_exact {B} (BE : ChipStoreBackend B) inv accepts contents `{!BackendSpec BE inv accepts contents}
    (s : ChipStore B) o body world now nt :
  inv (backend s) -> (forall slug, looked_up o world slug -> few_apps (contents (backend s)) slug) ->
  (validate_onboarding_dependencies o body world s now nt = Ok tt <->
   dependencies_met (contents (backend s)) o body world now nt).
Proof.
  intros Hi Hf. destruct o as [a|u|t|x|t|r]; cbn [validate_onboarding_dependencies dependencies_met].
  - rewrite cap_bind, slug_free_exact by (done || by apply Hf). done.
  - rewrite world_bind. split; intros (sc & Hw & H); exists sc; (split; [done|]); revert H;
      rewrite unit_bind, users_exact, require_app_exact by (done || by apply Hf; exists sc); tauto.
  - rewrite world_bind. split.
    + intros (sc & Hw & H). revert H. rewrite unit_bind, require_chip_exact, require_app_exact by (done || by apply Hf; exists sc).
      intros [H1 H2]. split; [by exists sc|done].
    + intros [(sc & Hw & H1) H2]. exists sc. split; [done|].
      rewrite unit_bind, require_chip_exact, require_app_exact by (done || by apply Hf; exists sc). done.
  - rewrite cap_bind, unit_bind, !require_chip_exact by done. tauto.
  - by apply require_chip_exact.
  - rewrite cap_bind, (spec_exists (target_cid r) (backend s) Hi). cbn [map_err mbind result_bind].
    case_bool_decide as E; [rewrite require_chip_exact by done; tauto|]. split; [by intros [_ ?]|by intros (_ & ? & _)].
Qed.

(** The chips that an onboarding chip depends on by CID. *)
Definition refers_to (o : OnboardingChip) (c : string) : Prop :=
  match o with
  | OTenant t => creator_cid t = c
  | OMembership x => m_user_cid x = c \/ m_tenant_cid x = c
  | OToken t => t_user_cid t = c
  | ORevoke r => actor_cid r = c
  | _ => False
  end.

(** An operation that leaves the record under a CID alone. *)
Definition keeps (accepts : StoredChip -> Prop) (k : TypedCid) (o : store_op) : Prop :=
  match o with OpPut c => accepts c /\ cid c <> k | OpDelete _ => False | OpRebuild => True end.

Lemma keeps_lookup accepts k c ops m :
  Forall (keeps accepts k) ops -> m !! k = Some c -> fold_left map_op ops m !! k = Some c.
Proof.
  intros HF. revert m. induction HF as [|o ops Ho HF IH]; intros m Hm; cbn; [done|]. apply IH.
  destruct o as [d|x|]; cbn; [|done..]. destruct Ho as [_ Hne]. by rewrite lookup_insert_ne.
Qed.

(** The tag of a tagged field. *)
Lemma field_in_tags data ty k v : k ∈ tag_fields -> get k data = Some (JString v) ->
  (k +:+ ":" +:+ v) ∈ extract_tags data ty.
Proof.
  intros Hk Hv. unfold extract_tags. apply elem_of_app. right. apply elem_of_app. left.
  apply list_elem_of_In, in_concat. exists (field_tag data k). split.
  - apply in_map. by apply list_elem_of_In.
  - unfold field_tag. rewrite Hv. cbn. by left.
Qed.

(** C16: Revocation is final: once a revocation of a chip has been executed and
    stored, then whatever is stored afterwards (short of a deletion or another
    chip under the revocation's CID), no onboarding chip that depends on the
    revoked one is accepted. *)
Theorem revocation_enforced {B} (BE : ChipStoreBackend B) inv accepts contents `{!BackendSpec BE inv accepts contents}
    (s s1 : ChipStore B) data t receipt meta at_ bs c ops ix o body world now nt :
  inv (backend s) -> to_nrf1_bytes data = Ok bs -> accepts (stored_of data (compute_cid bs) receipt meta at_) ->
  get "@type" data = Some (JString "ubl/revoke") -> get "target_cid" data = Some (JString t) ->
  store_executed_chip s data receipt meta at_ = (s1, Ok c) ->
  Forall (keeps accepts (cid_new_unchecked c)) ops -> refers_to o t ->
  validate_onboarding_dependencies o body world (mkStore (fold_left run_op ops (backend s1)) ix) now nt <> Ok tt.
Proof.
  intros Hi Hb Ha Hty Ht Hs HF Hr. unfold store_executed_chip in Hs. rewrite Hb in Hs.
  set (chip := stored_of data (compute_cid bs) receipt meta at_) in *.
  destruct (spec_put chip (backend s) Hi Ha) as (b' & Hp & Hi' & Hc & _). rewrite Hp in Hs. injection Hs as <- <-.
  cbn [backend]. set (s2 := mkStore (fold_left run_op ops b') ix).
  assert (Forall (op_accepted accepts) ops) as HA.
  { eapply Forall_impl; [exact HF|]. intros []; cbn; naive_solver. }
  destruct (run_ops_spec ops b' Hi' HA) as [Hi2 Hc2].
  assert (revoked (contents (backend s2)) t) as Hrev.
  { exists chip. cbn [backend s2]. rewrite Hc2. split_and!.
    - apply (keeps_lookup accepts); [exact HF|]. rewrite Hc. apply lookup_insert_eq.
    - unfold chip, stored_of. cbn. by rewrite Hty.
    - unfold chip, stored_of. cbn. rewrite Hty. apply (field_in_tags data _ "target_cid"); [|done]. unfold tag_fields. do 4 right. left. }
  assert (forall x ty, require_chip_exists x ty s2 = Ok tt -> x <> t) as Hno.
  { intros x ty H ->. apply require_chip_exact in H as [_ Hn]; [done|exact Hi2]. }
  destruct o as [| |t0|x|t0|r]; cbn in Hr; try done; cbn [validate_onboarding_dependencies]; intros H.
  - apply world_bind in H as (sc & _ & H). apply unit_bind in H as [_ H]. by apply Hno in H.
  - apply cap_bind in H as [_ H]. apply unit_bind in H as [H1%Hno H2%Hno]. naive_solver.
  - by apply Hno in H.
  - apply cap_bind in H as [_ H]. apply result_bind_ok in H as (k & _ & H). destruct k; [|done]. by apply Hno in H.
Qed.
End Properties.

(** ** Round trips *)

(** What the parsers check. *)
Definition onboarding_valid (o : OnboardingChip) : bool :=
  match o with
  | OApp a => valid_slug (app_slug a) && negb (is_empty (app_display_name a)) && starts_with "did:" (owner_did a)
  | OUser u => starts_with "did:" (user_did u) && negb (is_empty (user_display_name u))
  | OTenant t => valid_slug (tenant_slug t) && negb (is_empty (tenant_display_name t)) && starts_with "b3:" (creator_cid t)
  | OMembership x => starts_with "b3:" (m_user_cid x) && starts_with "b3:" (m_tenant_cid x)
  | OToken t => starts_with "b3:" (t_user_cid t)
  | ORevoke r => starts_with "b3:" (target_cid r) && negb (is_empty (reason r)) && starts_with "b3:" (actor_cid r)
  end.

Definition onboarding_to_body (o : OnboardingChip) (id world : string) : json :=
  match o with
  | OApp a => app_to_chip_body a id
  | OUser u => user_to_chip_body u id world
  | OTenant t => tenant_to_chip_body t id world
  | OMembership x => membership_to_chip_body x id world
  | OToken t => token_to_chip_body t id world
  | ORevoke r => revocation_to_chip_body r id world
  end.

Lemma omap_as_str (l : list string) : omap as_str (JString <$> l) = l.
Proof. induction l as [|x l IH]; cbn; [done|]. by f_equal. Qed.

(** The fields as the parsers accept them. *)
Lemma field_ok body k v : field body k = Ok v <-> get k body ≫= as_str = Some v.
Proof. unfold field. destruct (get k body ≫= as_str); cbn; split; congruence. Qed.

Lemma require_prefix_ok what p v : require_prefix what p v = Ok tt <-> starts_with p v = true.
Proof. unfold require_prefix. by destruct (starts_with p v). Qed.

Lemma slug_field_ok body v : slug_field body = Ok v <-> get "slug" body ≫= as_str = Some v /\ valid_slug v = true.
Proof.
  unfold slug_field. rewrite result_bind_ok. setoid_rewrite field_ok. split.
  - intros (x & Hx & H). destruct (valid_slug x) eqn:E; [|done]. by injection H as <-.
  - intros [H E]. exists v. by rewrite E.
Qed.

Lemma display_name_ok body v :
  display_name_field body = Ok v <-> get "display_name" body ≫= as_str = Some v /\ is_empty v = false.
Proof.
  unfold display_name_field. rewrite result_bind_ok. setoid_rewrite field_ok. split.
  - intros (x & Hx & H). destruct (is_empty x) eqn:E; [done|]. by injection H as <-.
  - intros [H E]. exists v. by rewrite E.
Qed.

Lemma cid_field_ok body k v : cid_field body k = Ok v <-> get k body ≫= as_str = Some v /\ starts_with "b3:" v = true.
Proof.
  unfold cid_field. rewrite result_bind_ok. setoid_rewrite field_ok. split.
  - intros (x & Hx & H). apply result_bind_ok in H as ([] & H%require_prefix_ok & [= <-]). done.
  - intros [H E%(require_prefix_ok k)]. exists v. split; [done|]. by rewrite E.
Qed.

Lemma role_roundtrip r : role_parse (role_as_str r) = Ok r.
Proof. by destruct r. Qed.

(** Reduce a parser to its fields. *)
Ltac parse_fields :=
  repeat match goal with
  | H : (_ ≫= _) = Ok _ |- _ => apply result_bind_ok in H as (? & ? & H)
  | H : slug_field _ = Ok _ |- _ => apply slug_field_ok in H as [? ?]
  | H : display_name_field _ = Ok _ |- _ => apply display_name_ok in H as [? ?]
  | H : cid_field _ _ = Ok _ |- _ => apply cid_field_ok in H as [? ?]
  | H : require_prefix _ _ _ = Ok ?u |- _ => destruct u; apply require_prefix_ok in H
  | H : Ok _ = Ok _ |- _ => injection H as <-
  end.

(** A field of a body made of members. *)
Ltac print_fields :=
  repeat (match goal with
  | |- context [slug_field ?b] => erewrite (proj2 (slug_field_ok b _)) by (split; [reflexivity|assumption])
  | |- context [display_name_field ?b] => erewrite (proj2 (display_name_ok b _)) by (split; [reflexivity|assumption])
  | |- context [cid_field ?b ?k] => erewrite (proj2 (cid_field_ok b k _)) by (split; [reflexivity|assumption])
  | |- context [field ?b ?k] => erewrite (proj2 (field_ok b k _)) by reflexivity
  | |- context [require_prefix ?w ?p ?v] => rewrite (proj2 (require_prefix_ok w p v)) by assumption
  end; cbn [mbind result_bind]).

(** The fields of a body, taken by the parser of its type. *)
Ltac print_chip from :=
  match goal with |- onboarding_valid ?o = true -> _ => intros H; unfold onboarding_valid in H end; bool_to_prop;
  match goal with |- parse_onboarding_chip ?b = Ok (Some (?K ?x)) =>
    transitivity (y ← from b; Ok (Some (K y))); [reflexivity|unfold from; print_fields; try by destruct x] end.

Lemma print_app a id : onboarding_valid (OApp a) = true ->
  parse_onboarding_chip (app_to_chip_body a id) = Ok (Some (OApp a)).
Proof. print_chip app_from_chip_body. Qed.
Lemma print_user u id w : onboarding_valid (OUser u) = true ->
  parse_onboarding_chip (user_to_chip_body u id w) = Ok (Some (OUser u)).
Proof. print_chip user_from_chip_body. Qed.
Lemma print_tenant t id w : onboarding_valid (OTenant t) = true ->
  parse_onboarding_chip (tenant_to_chip_body t id w) = Ok (Some (OTenant t)).
Proof. print_chip tenant_from_chip_body. Qed.
Lemma print_membership x id w : onboarding_valid (OMembership x) = true ->
  parse_onboarding_chip (membership_to_chip_body x id w) = Ok (Some (OMembership x)).
Proof. print_chip membership_from_chip_body. rewrite role_roundtrip. by destruct x. Qed.
Lemma print_token t id w : onboarding_valid (OToken t) = true ->
  parse_onboarding_chip (token_to_chip_body t id w) = Ok (Some (OToken t)).
Proof.
  print_chip token_from_chip_body. change (get "scope" (token_to_chip_body t id w) ≫= as_array) with (Some (JString <$> t_scope t)).
  cbn iota. rewrite omap_as_str. by destruct t.
Qed.
Lemma print_revocation r id w : onboarding_valid (ORevoke r) = true ->
  parse_onboarding_chip (revocation_to_chip_body r id w) = Ok (Some (ORevoke r)).
Proof.
  print_chip revocation_from_chip_body. destruct (is_empty (reason r)); [done|]. print_fields. by destruct r.
Qed.

(** Every valid onboarding chip survives printing and parsing, and what parses
    is valid. *)
Theorem onboarding_roundtrip :
  (forall o id world, onboarding_valid o = true -> parse_onboarding_chip (onboarding_to_body o id world) = Ok (Some o)) /\
  (forall body o, parse_onboarding_chip body = Ok (Some o) -> onboarding_valid o = true).
Proof.
  split.
  - intros [] id world; cbn [onboarding_to_body];
      eauto using print_app, print_user, print_tenant, print_membership, print_token, print_revocation.
  - intros body o H. unfold parse_onboarding_chip in H. apply result_bind_ok in H as (ty & _ & H).
    unfold app_from_chip_body, user_from_chip_body, tenant_from_chip_body, membership_from_chip_body,
      token_from_chip_body, revocation_from_chip_body in H.
    repeat (case_match; parse_fields; try (cbn -[valid_slug starts_with is_empty];
      repeat match goal with H : ?x = _ |- context [?x] => rewrite H end; done)); try done.
Qed.

Definition scope_valid (s : WorldScope) : Prop :=
  contains_char "/" (ws_app s) = false /\ ws_app s <> ""%string /\
  forall t, ws_tenant s = Some t -> contains_char "/" t = false /\ t <> ""%string.

Lemma is_empty_false s : s <> ""%string -> is_empty s = false.
Proof. by destruct s. Qed.

(** Worlds survive printing and parsing; what parses has the printed scope's
    segments in front, and nothing else unless it has more than four. *)
Theorem world_scope_roundtrip :
  (forall s, scope_valid s -> world_scope_parse (world_scope_display s) = Ok s) /\
  (forall w s, world_scope_parse w = Ok s -> scope_valid s /\
     split_on "/" (world_scope_display s) `prefix_of` split_on "/" w /\
     ((length (split_on "/" w) <= 4)%nat -> world_scope_display s = w)).
Proof.
  split.
  - intros [app tenant] (Ha & Hne & Ht). cbn in *. unfold world_scope_parse, world_scope_display. cbn [ws_app ws_tenant].
    apply is_empty_false in Hne. change ("a/" +:+ app) with ("a" +:+ String "/" app).
    destruct tenant as [t|].
    + destruct (Ht t eq_refl) as [Hs Hn%is_empty_false].
      change ("a/" +:+ app +:+ "/t/" +:+ t) with ("a" +:+ String "/" (app +:+ String "/" ("t" +:+ String "/" t))).
      rewrite !split_on_app by done. rewrite split_on_no by done. cbn. by rewrite Hne, Hn.
    + rewrite split_on_app, split_on_no by done. cbn. by rewrite Hne.
  - intros w s. unfold world_scope_parse. pose proof (split_on_pieces "/" w) as HF. pose proof (split_on_join "/" w) as HJ.
    destruct (split_on "/" w) as [|p0 [|p1 rest]]; try done. destruct (String.eqb_spec p0 "a") as [->|]; [|done].
    rewrite !Forall_cons in HF. destruct HF as (H0 & H1 & HF). cbn [negb].
    destruct (is_empty p1) eqn:E1; [done|]. assert (p1 <> ""%string) as N1 by by destruct p1.
    destruct rest as [|p2 [|p3 rest]]; [|done|].
    + intros [= <-]. split_and!; cbn; [done..| |].
      * change ("a/" +:+ p1) with ("a" +:+ String "/" p1). by rewrite split_on_app, split_on_no.
      * intros _. by rewrite <- HJ.
    + rewrite !Forall_cons in HF. destruct HF as (H2 & H3 & _). destruct (String.eqb_spec p2 "t") as [->|]; [|done].
      destruct (is_empty p3) eqn:E3; [done|]. assert (p3 <> ""%string) as N3 by by destruct p3.
      intros [= <-]. split_and!; cbn [ws_app ws_tenant world_scope_display].
      * split_and!; [done|done|by intros t [= <-]].
      * change ("a/" +:+ p1 +:+ "/t/" +:+ p3) with ("a" +:+ String "/" (p1 +:+ String "/" ("t" +:+ String "/" p3))).
        rewrite !split_on_app, split_on_no by done. by exists rest.
      * destruct rest; [|cbn; lia]. intros _. by rewrite <- HJ.
Qed.

(** A world with further segments is read as the tenant it starts with. *)
Lemma world_scope_trailing : world_scope_parse "a/acme/t/prod/x/y" = Ok (mkScope "acme" (Some "prod"%string)).
Proof. reflexivity. Qed.

(** Expiry compares texts: an instant written with an offset can be past and
    not expired. *)
Lemma expiry_textual : is_expired (mkToken "b3:u" [] "2024-01-01T05:00:00+05:00" "k") "2024-01-01T04:00:00Z" = false.
Proof. reflexivity. Qed.

(** ** Witnesses *)

Module AuthSample.
Import ChipStoreSample CapSample.
#[local] Existing Instance in_memory_backend.

Definition ty_of (c : TypedCid) : string :=
  if String.eqb (cid_as_str c) "b3:app" then "ubl/app" else if String.eqb (cid_as_str c) "b3:user" then "ubl/user" else "ubl/revoke".

Definition app_chip : StoredChip :=
  mkChip (cid_new_unchecked "b3:app") "ubl/app" (JObject [("slug", JString "acme")]) (cid_new_unchecked "b3:r1")
    "2024-01-01" meta ["slug:acme"] [].
Definition user_chip : StoredChip :=
  mkChip (cid_new_unchecked "b3:user") "ubl/user" (JObject []) (cid_new_unchecked "b3:r2")
    "2024-01-02" meta ["app:acme"] [].
Definition store0 : ChipStore InMemoryBackend :=
  mkStore (fold_left run_op [OpPut app_chip; OpPut user_chip] mem_new) no_indexes.
Definition tenant0 : OnboardingChip := OTenant (mkTenant "prod" "Prod" "b3:user").

Lemma store0_inv : mem_inv ty_of (backend store0).
Proof.
  apply (run_ops_spec (BackendSpec0 := in_memory_spec ty_of)); [apply mem_inv_new|]. repeat apply Forall_cons_2; done.
Defined.

Lemma onboarding_exact_witness :
  dependencies_met (mem_chips (backend store0)) tenant0 JNull "a/acme" 0 "".
Proof.
  apply (onboarding_exact in_memory_backend (mem_inv ty_of) _ mem_chips (BackendSpec0 := in_memory_spec ty_of) store0).
  - apply store0_inv.
  - intros slug (sc & Hw & ->). vm_compute in Hw. injection Hw as <-. apply Nat.leb_le. vm_compute. reflexivity.
  - vm_compute. reflexivity.
Defined.

Definition revoke_body : json := revocation_to_chip_body (mkRevocation "b3:user" "left" "b3:user") "r1" "a/acme".
Definition revoke_bytes : bytes := Eval vm_compute in
  match to_nrf1_bytes revoke_body with Ok b => b | Err _ => [] end.

Lemma revocation_enforced_witness :
  validate_onboarding_dependencies tenant0 JNull "a/acme"
    (mkStore (fold_left run_op [OpRebuild] (backend (store_executed_chip store0 revoke_body "b3:r3" meta "2024-01-03").1)) no_indexes)
    0 "" <> Ok tt.
Proof.
  apply (revocation_enforced in_memory_backend (mem_inv ty_of) _ mem_chips (BackendSpec0 := in_memory_spec ty_of) store0
    (store_executed_chip store0 revoke_body "b3:r3" meta "2024-01-03").1 revoke_body "b3:user" "b3:r3" meta "2024-01-03"
    revoke_bytes (compute_cid revoke_bytes)).
  - apply store0_inv.
  - vm_compute. reflexivity.
  - vm_compute. reflexivity.
  - reflexivity.
  - reflexivity.
  - vm_compute. reflexivity.
  - by apply Forall_cons_2; [|apply Forall_nil_2].
  - reflexivity.
Defined.

Lemma onboarding_roundtrip_witness : parse_onboarding_chip (onboarding_to_body tenant0 "t1" "a/acme") = Ok (Some tenant0).
Proof. apply (proj1 onboarding_roundtrip). vm_compute. reflexivity. Defined.
End AuthSample.
