(* ===== verification/PolicyLoader.v ===== *)
(** * Policy chains ([genesis.rs], [policy_loader.rs])

    The genesis policy, which every chip must pass, and the loader that
    collects the policies attached to a chip's ancestors.  The derived JSON
    forms of circuits and scopes are a parameter. *)

From S2P Require Import Prelude RustStd RustStr.
From S2P Require Import Json Nrf NrfFacts Policy.
Local Open Scope string_scope.
Local Open Scope list_scope.

(** The derived [Serialize] and [Deserialize] of circuits and scopes. *)
Class PolicySerde : Type := {
  circuits_from_value : json -> option (list Circuit);
  circuits_to_value : list Circuit -> json;
  scope_from_value : json -> option PolicyScope;
  scope_to_value : PolicyScope -> json }.

(** ** Genesis *)

Definition genesis_types : list string :=
  ["ubl/app"; "ubl/tenant"; "ubl/user"; "ubl/policy"; "ubl/token"; "ubl/invite"; "ubl/ai.passport"; "ubl/wasm.module";
   "ubl/verification"; "ubl/advisory"; "ubl/adapter"; "ubl/membership"; "ubl/revoke"; "ubl/key.rotate"; "ubl/document";
   "audit/report.request.v1"; "audit/ledger.snapshot.request.v1"; "ledger/segment.compact.v1"; "audit/advisory.request.v1"].

Definition create_type_validation_rb : ReasoningBit :=
  mkBit "type_validation" "Valid Chip Type" (Or (TypeEquals <$> genesis_types)) Allow DenyD ["chip.@type"].

Definition create_id_required_rb : ReasoningBit :=
  mkBit "has_logical_id" "Has ID Field" (ContextHas "chip.id") Allow DenyD ["chip.id"].

Definition create_size_limit_rb : ReasoningBit :=
  mkBit "size_limit" "Body Size Limit" (BodySizeLte 1048576) Allow DenyD [].

Definition create_no_malicious_content_rb : ReasoningBit :=
  mkBit "no_malicious_content" "No Malicious Content"
    (And [Not (ContextEquals "body.script" (JString "*")); Not (ContextEquals "body.query" (JString "DROP TABLE*"))])
    Allow DenyD [].

Definition create_genesis_circuit : Circuit :=
  mkCircuit "genesis_validation" "Genesis Validation Circuit"
    [create_type_validation_rb; create_id_required_rb; create_size_limit_rb; create_no_malicious_content_rb]
    Sequential All.

Definition create_genesis_policy : PolicyBit :=
  mkPolicy "ubl.genesis.v1" "UBL Genesis Policy" [create_genesis_circuit]
    (mkScope ["*"] ["create"; "update"] "genesis").

Section Genesis.
Context {U : Unicode} {HB3 : Blake3} {PS : PolicySerde}.

Definition create_genesis_chip_body : json :=
  JObject [("@type", JString "ubl/policy.genesis"); ("id", JString "ubl.genesis.v1"); ("version", JString "1.0");
           ("description", JString "Genesis Policy - Root of all UBL policies");
           ("created_at", JString "2025-02-15T00:00:00Z");
           ("circuits", circuits_to_value (circuits create_genesis_policy));
           ("scope", scope_to_value (scope create_genesis_policy))].

(** The code panics when the genesis chip has no canonical bytes; the model's
    value is then empty and unused. *)
Definition genesis_chip_cid : string :=
  match to_nrf1_bytes create_genesis_chip_body with Ok nrf1_bytes => compute_cid nrf1_bytes | Err _ => "" end.

Definition is_genesis_chip (cid : string) : bool := String.eqb cid genesis_chip_cid.
End Genesis.

(** ** The loader *)

Inductive PolicyError : Type :=
| PolicyNotFound (s : string)
| InvalidFormat (s : string)
| CircularDependency (s : string)
| Storage (s : string)
| AncestryOutOfFuel.

Record ChipData : Type := mkChipData {
  cd_cid : string; cd_chip_type : string; cd_body : json; cd_parents : list string }.

(** The request, as the loader sees it. *)
Record PolicyRequest : Type := mkPolicyRequest {
  pq_chip_type : string; pq_body : json; pq_parents : list string; pq_operation : string }.

Class PolicyStorage : Type := {
  ps_get_chip : string -> result PolicyError (option ChipData);
  ps_query_by_type : string -> result PolicyError (list ChipData);
  ps_find_children : string -> result PolicyError (list ChipData) }.

Section Loader.
Context {U : Unicode} {HB3 : Blake3} {PS : PolicySerde} (storage : PolicyStorage).

Definition parse_policy_chip (chip : ChipData) : result PolicyError PolicyBit :=
  circuits_v ← ok_or (get "circuits" (cd_body chip)) (InvalidFormat "Missing circuits field");
  scope_v ← ok_or (get "scope" (cd_body chip)) (InvalidFormat "Missing scope field");
  cs ← ok_or (circuits_from_value circuits_v) (InvalidFormat "Invalid circuits");
  sc ← ok_or (scope_from_value scope_v) (InvalidFormat "Invalid scope");
  let id := default (cd_cid chip) (get "id" (cd_body chip) ≫= as_str) in
  let name := default id (get "description" (cd_body chip) ≫= as_str) in
  Ok (mkPolicy id name cs sc).

Definition find_attached_policies (chip_cid : string) : result PolicyError (list PolicyBit) :=
  policy_chips ← ps_find_children chip_cid;
  try_fold (fun policies chip =>
      if starts_with "ubl/policy" (cd_chip_type chip) then
        policy_bit ← parse_policy_chip chip; Ok (policies ++ [policy_bit])
      else Ok policies) [] policy_chips.

(** The state of the walk: what was visited, the ancestry so far, and the
    parents of the round that follows. *)
Record walk : Type := mkWalk { visited : gset string; ancestry : list string; next_parents : list string }.

Definition visit (w : walk) (parent_cid : string) : result PolicyError walk :=
  if decide (parent_cid ∈ visited w) then Err (CircularDependency parent_cid)
  else
    let visited' := {[parent_cid]} ∪ visited w in
    if is_genesis_chip parent_cid then Ok (mkWalk visited' (ancestry w) (next_parents w))
    else
      parent_chip ← ps_get_chip parent_cid;
      Ok (mkWalk visited' (ancestry w ++ [parent_cid])
            (next_parents w ++ match parent_chip with Some c => cd_parents c | None => [] end)).

(** One unit of fuel per round; [Err AncestryOutOfFuel] is the model's. *)
Fixpoint walk_rounds (fuel : nat) (w : walk) (current_parents : list string) : result PolicyError (list string) :=
  match current_parents with
  | [] => Ok (ancestry w)
  | _ =>
      match fuel with
      | O => Err AncestryOutOfFuel
      | S fuel' =>
          w' ← try_fold visit (mkWalk (visited w) (ancestry w) []) current_parents;
          walk_rounds fuel' w' (next_parents w')
      end
  end.

Definition resolve_ancestry (fuel : nat) (request : PolicyRequest) : result PolicyError (list string) :=
  found ← walk_rounds fuel (mkWalk ∅ [] []) (pq_parents request);
  Ok (reverse found).

Definition load_policy_chain (fuel : nat) (request : PolicyRequest) : result PolicyError (list PolicyBit) :=
  found ← resolve_ancestry fuel request;
  try_fold (fun policies ancestor_cid =>
      attached ← find_attached_policies ancestor_cid; Ok (policies ++ attached)) [create_genesis_policy] found.
End Loader.

(** ** The in-memory storage *)

Record InMemoryPolicyStorage : Type := mkPolicyStorage {
  pol_chips : gmap string ChipData;
  by_type : gmap string (list string);
  by_parent : gmap string (list string) }.

Definition policy_storage_new : InMemoryPolicyStorage := mkPolicyStorage ∅ ∅ ∅.

(** [entry(k).or_default().push(x)]. *)
Definition push_under (k x : string) (m : gmap string (list string)) : gmap string (list string) :=
  <[k := default [] (m !! k) ++ [x]]> m.

Definition add_chip (chip : ChipData) (s : InMemoryPolicyStorage) : InMemoryPolicyStorage :=
  mkPolicyStorage (<[cd_cid chip := chip]> (pol_chips s))
    (push_under (cd_chip_type chip) (cd_cid chip) (by_type s))
    (fold_left (fun m parent => push_under parent (cd_cid chip) m) (cd_parents chip) (by_parent s)).

Definition in_memory_storage (s : InMemoryPolicyStorage) : PolicyStorage := {|
  ps_get_chip cid := Ok (pol_chips s !! cid);
  ps_query_by_type ty := Ok (omap (fun cid => pol_chips s !! cid) (default [] (by_type s !! ty)));
  ps_find_children parent := Ok (omap (fun cid => pol_chips s !! cid) (default [] (by_parent s !! parent))) |}.

(** ** Facts *)

(** *** Genesis *)

Lemma or_types l ctx : expr_evaluate (Or (TypeEquals <$> l)) ctx = true <->
  exists t, t ∈ l /\ get "@type" (chip ctx) ≫= as_str = Some t.
Proof.
  rewrite eval_or, existsb_exists. split.
  - intros (e & He & Ht). apply in_map_iff in He as (t & <- & Hin). cbn in Ht.
    destruct (get "@type" (chip ctx) ≫= as_str) as [x|]; [|done]. apply String.eqb_eq in Ht as ->.
    exists t. split; [by apply list_elem_of_In|done].
  - intros (t & Hin & Ht). exists (TypeEquals t). split; [by apply in_map, list_elem_of_In|].
    cbn. rewrite Ht. apply String.eqb_refl.
Qed.

(** What the genesis circuit lets pass. *)
Definition genesis_passes (ctx : EvalContext) : Prop :=
  (exists t, t ∈ genesis_types /\ get "@type" (chip ctx) ≫= as_str = Some t) /\
  is_Some (variables ctx !! "chip.id") /\ ctx_body_size ctx <= 1048576 /\
  (forall v, variables ctx !! "body.script" = Some v -> json_eqb v (JString "*") = false) /\
  (forall v, variables ctx !! "body.query" = Some v -> json_eqb v (JString "DROP TABLE*") = false).

Lemma genesis_bits_pass ctx :
  Forall (fun rb => rb_decision (rb_evaluate rb ctx) = Allow)
    [create_type_validation_rb; create_id_required_rb; create_size_limit_rb; create_no_malicious_content_rb] <->
  genesis_passes ctx.
Proof.
  rewrite !Forall_cons, Forall_nil. unfold rb_evaluate, genesis_passes.
  cbn [rb_decision condition on_true on_false create_type_validation_rb create_id_required_rb create_size_limit_rb create_no_malicious_content_rb].
  assert (forall b : bool, (if b then Allow else DenyD) = Allow <-> b = true) as Hb by by intros [].
  rewrite !Hb, or_types. cbn [expr_evaluate].
  destruct (variables ctx !! "chip.id") as [i|], (variables ctx !! "body.script") as [v1|], (variables ctx !! "body.query") as [v2|];
    rewrite ?andb_true_iff, ?negb_true_iff, ?Z.leb_le; unfold is_Some; naive_solver.
Qed.

Lemma genesis_circuit_decision ctx :
  (cr_decision (circuit_evaluate create_genesis_circuit ctx) = Allow /\ genesis_passes ctx) \/
  (cr_decision (circuit_evaluate create_genesis_circuit ctx) = DenyD /\ ~ genesis_passes ctx).
Proof.
  rewrite <- genesis_bits_pass, !Forall_cons, Forall_nil.
  assert (forall rb, on_true rb = Allow -> on_false rb = DenyD ->
    rb_decision (rb_evaluate rb ctx) = Allow \/ rb_decision (rb_evaluate rb ctx) = DenyD) as Hd.
  { intros rb H1 H2. unfold rb_evaluate. cbn [rb_decision]. rewrite H1, H2. destruct (expr_evaluate _ _); auto. }
  pose proof (Hd create_type_validation_rb eq_refl eq_refl) as D1.
  pose proof (Hd create_id_required_rb eq_refl eq_refl) as D2.
  pose proof (Hd create_size_limit_rb eq_refl eq_refl) as D3.
  pose proof (Hd create_no_malicious_content_rb eq_refl eq_refl) as D4.
  cbn [circuit_evaluate create_genesis_circuit cr_decision]. unfold evaluate_sequential. cbn [sequential_loop app].
  unfold aggregate_results, aggregate_all. cbn [List.filter].
  destruct D1 as [D1|D1], D2 as [D2|D2], D3 as [D3|D3], D4 as [D4|D4]; rewrite ?D1, ?D2, ?D3, ?D4;
    cbn [is_deny is_require cr_decision]; naive_solver.
Qed.

Lemma genesis_policy_decision ctx :
  (pr_decision (policy_evaluate create_genesis_policy ctx) = Allow /\ genesis_passes ctx) \/
  (pr_decision (policy_evaluate create_genesis_policy ctx) = DenyD /\ ~ genesis_passes ctx).
Proof.
  unfold policy_evaluate. cbn [policy_loop circuits create_genesis_policy].
  destruct (genesis_circuit_decision ctx) as [[-> H]|[-> H]]; cbn [is_deny pr_decision]; auto.
Qed.

(** *** The walk *)

Section Walk.
Context {U : Unicode} {HB3 : Blake3} {PS : PolicySerde} (s : InMemoryPolicyStorage).
Abbreviation storage := (in_memory_storage s).
Abbreviation genesis := (genesis_chip_cid).

(** [x] is an ancestor: a parent, or a parent of an ancestor that is stored and
    is not genesis. *)
Inductive ancestor (roots : list string) : string -> Prop :=
| ancestor_root x : x ∈ roots -> ancestor roots x
| ancestor_up x c y : ancestor roots x -> x <> genesis -> pol_chips s !! x = Some c -> y ∈ cd_parents c -> ancestor roots y.

(** The parents that the walk finds for a CID. *)
Definition parents_of (x : string) : list string :=
  if is_genesis_chip x then [] else match pol_chips s !! x with Some c => cd_parents c | None => [] end.

Lemma visit_ok w x w' : visit storage w x = Ok w' ->
  (x ∉ visited w) /\ (visited w' = {[x]} ∪ visited w) /\ next_parents w' = next_parents w ++ parents_of x /\
  ancestry w' = ancestry w ++ (if is_genesis_chip x then [] else [x]).
Proof.
  unfold visit, parents_of. case_decide as Hv; [done|]. destruct (is_genesis_chip x) eqn:Hg.
  - intros [= <-]. cbn. by rewrite !app_nil_r.
  - cbn. by intros [= <-].
Qed.

Lemma visit_fresh w x : x ∉ visited w -> exists a, visit storage w x =
  Ok (mkWalk ({[x]} ∪ visited w) a (next_parents w ++ parents_of x)).
Proof.
  intros Hx. unfold visit, parents_of. rewrite decide_False by done. destruct (is_genesis_chip x); cbn; [|eauto].
  rewrite app_nil_r. eauto.
Qed.
Lemma visit_seen w x : x ∈ visited w -> visit storage w x = Err (CircularDependency x).
Proof. intros Hx. unfold visit. by rewrite decide_True. Qed.

Lemma visit_all l w w' : try_fold (visit storage) w l = Ok w' ->
  NoDup l /\ (forall x, x ∈ l -> x ∉ visited w) /\ (visited w' = list_to_set l ∪ visited w) /\
  next_parents w' = next_parents w ++ concat (parents_of <$> l) /\
  ancestry w' = ancestry w ++ List.filter (fun x => negb (is_genesis_chip x)) l.
Proof.
  revert w. induction l as [|x l IH]; intros w; cbn [try_fold].
  - intros [= <-]. cbn. rewrite !app_nil_r. split_and!; [constructor|set_solver|set_solver|done|done].
  - destruct (visit storage w x) as [w1|] eqn:E; [|done]. intros H.
    apply visit_ok in E as (Hx & V1 & N1 & A1). apply IH in H as (Hnd & Hl & V2 & N2 & A2).
    rewrite V1 in Hl, V2. rewrite N1 in N2. rewrite A1 in A2. split_and!.
    + constructor; [|done]. intros Hin. specialize (Hl _ Hin). set_solver.
    + intros y [->|Hy]%elem_of_cons; [done|]. specialize (Hl _ Hy). set_solver.
    + rewrite V2. set_solver.
    + rewrite N2. cbn. by rewrite <- app_assoc.
    + rewrite A2, <- app_assoc. cbn. by destruct (is_genesis_chip x).
Qed.

(** Fuel: every round but the last visits a stored chip for the first time. *)
Lemma walk_fuel fuel w l : (size (dom (pol_chips s) ∖ visited w) < fuel)%nat ->
  walk_rounds storage fuel w l <> Err AncestryOutOfFuel.
Proof.
  revert w l. induction fuel as [|fuel IH]; intros w l Hf; [lia|]. destruct l as [|x l]; [done|].
  cbn [walk_rounds]. destruct (try_fold _ _ (x :: l)) as [w'|e] eqn:E; cbn [mbind result_bind].
  - apply visit_all in E as (_ & Hl & V & N & _). cbn [visited next_parents app] in Hl, V, N.
    destruct (next_parents w') as [|y ys] eqn:En; [by destruct fuel|]. rewrite <- En. apply IH.
    assert (exists z c, z ∈ x :: l /\ pol_chips s !! z = Some c) as (z & c & Hz & Hc).
    { assert (y ∈ concat (parents_of <$> x :: l)) as Hy by (rewrite <- N; left).
      apply list_elem_of_In, in_concat in Hy as (ps & Hps & Hy). apply in_map_iff in Hps as (z & <- & Hz).
      unfold parents_of in Hy. destruct (is_genesis_chip z); [done|].
      destruct (pol_chips s !! z) as [c|] eqn:Ec; [|done]. exists z, c. split; [by apply list_elem_of_In|done]. }
    assert (dom (pol_chips s) ∖ visited w' ⊂ dom (pol_chips s) ∖ visited w) as Hsub.
    { rewrite V. split; [set_solver|]. intros Hs. specialize (Hs z). rewrite !elem_of_difference in Hs.
      destruct Hs as [_ Hs]; [split; [by apply elem_of_dom|by apply Hl]|].
      apply Hs. apply elem_of_union. left. by apply elem_of_list_to_set. }
    apply subset_size in Hsub. lia.
  - intros [= ->]. revert E. generalize (mkWalk (visited w) (ancestry w) []). generalize (x :: l).
    intros l'. induction l' as [|y l' IHl]; intros w'; cbn [try_fold]; [done|].
    destruct (visit storage w' y) as [w1|e] eqn:Ev; [apply IHl|]. intros [= ->].
    unfold visit in Ev. case_decide; [done|]. by destruct (is_genesis_chip y).
Qed.

(** The walk's invariant, between rounds. *)
Record walk_inv (roots : list string) (w : walk) (cur : list string) : Prop := {
  wi_visited x : x ∈ visited w -> ancestor roots x;
  wi_cur x : x ∈ cur -> ancestor roots x;
  wi_roots x : x ∈ roots -> x ∈ visited w \/ x ∈ cur;
  wi_closed x y : x ∈ visited w -> y ∈ parents_of x -> y ∈ visited w \/ y ∈ cur;
  wi_nodup : NoDup (ancestry w);
  wi_ancestry x : x ∈ ancestry w <-> x ∈ visited w /\ x <> genesis }.

Lemma parents_of_elem x y : y ∈ parents_of x <-> x <> genesis /\ exists c, pol_chips s !! x = Some c /\ y ∈ cd_parents c.
Proof.
  unfold parents_of, is_genesis_chip. destruct (String.eqb_spec x genesis) as [E|E]; [set_solver|].
  destruct (pol_chips s !! x) as [c|]; split.
  - eauto.
  - by intros (_ & ? & [= <-] & ?).
  - by intros ?%elem_of_nil.
  - by intros (_ & ? & ? & _).
Qed.

Lemma walk_round_inv roots w cur w' : walk_inv roots w cur ->
  try_fold (visit storage) (mkWalk (visited w) (ancestry w) []) cur = Ok w' -> walk_inv roots w' (next_parents w').
Proof.
  intros [I1 I2 I3 I4 I5 I6] (Hnd & Hl & V & N & A)%visit_all. cbn [visited next_parents ancestry app] in *.
  assert (forall x, x ∈ visited w' <-> x ∈ cur \/ x ∈ visited w) as Hv.
  { intros x. rewrite V, elem_of_union, elem_of_list_to_set. done. }
  assert (forall x, x ∈ List.filter (fun x => negb (is_genesis_chip x)) cur <-> x ∈ cur /\ x <> genesis) as Hf.
  { intros x. rewrite list_elem_of_In, filter_In, <- list_elem_of_In, negb_true_iff. unfold is_genesis_chip.
    by rewrite String.eqb_neq. }
  split.
  - intros x [?|?]%Hv; auto.
  - intros y Hy. rewrite N in Hy. apply elem_of_concat_map in Hy as (x & Hx & (Hg & c & Hc & Hy)%parents_of_elem).
    eapply ancestor_up; eauto.
  - intros x Hx. left. apply Hv. destruct (I3 _ Hx); auto.
  - intros x y [Hx|Hx]%Hv Hy.
    + right. rewrite N. apply elem_of_concat_map. eauto.
    + left. apply Hv. destruct (I4 _ _ Hx Hy); auto.
  - rewrite A. apply NoDup_app. split_and!; [done| |].
    + intros x Hx [Hc _]%Hf. apply I6 in Hx as [Hx _]. by apply Hl in Hc.
    + by apply filter_NoDup.
  - intros x. rewrite A, elem_of_app, I6, Hf, Hv. tauto.
Qed.

(** When no parents are left, the visited CIDs are the ancestors. *)
Lemma walk_done roots w : walk_inv roots w [] -> forall x, x ∈ ancestry w <-> ancestor roots x /\ x <> genesis.
Proof.
  intros [I1 I2 I3 I4 I5 I6] x. rewrite I6. split; [intros [? ?]; auto|]. intros [Ha Hg]. split; [|done].
  clear Hg. induction Ha as [x Hx|x c y Hx IH Hg Hc Hy].
  - destruct (I3 _ Hx) as [?|?%elem_of_nil]; done.
  - destruct (I4 x y IH) as [?|?%elem_of_nil]; [apply parents_of_elem; eauto|done|done].
Qed.
End Walk.

(** ** Properties *)

Section Properties.
Context {U : Unicode} {HB3 : Blake3} {PS : PolicySerde}.

(** The genesis policy, which heads every chain, decides by four tests: the
    chip type is one of nineteen, an id is known, the body has at most 1 MiB,
    and two context variables do not hold two fixed texts.  It never answers
    [Require]. *)
Theorem genesis_decides ctx :
  pr_decision (policy_evaluate create_genesis_policy ctx) = Allow <-> genesis_passes ctx.
Proof. destruct (genesis_policy_decision ctx) as [[-> H]|[-> H]]; split; done. Qed.

(** The ancestry of a chip over an in-memory storage: the walk returns within
    as many rounds as there are stored chips plus one; when it succeeds it has
    found every ancestor but genesis, each once. *)
Theorem ancestry_exact s request :
  let fuel := S (size (dom (pol_chips s))) in
  resolve_ancestry (in_memory_storage s) fuel request <> Err AncestryOutOfFuel /\
  forall l, resolve_ancestry (in_memory_storage s) fuel request = Ok l ->
    NoDup l /\ forall x, x ∈ l <-> ancestor s (pq_parents request) x /\ x <> genesis_chip_cid.
Proof.
  cbn zeta. unfold resolve_ancestry. split.
  - intros H. assert (walk_rounds (in_memory_storage s) (S (size (dom (pol_chips s)))) (mkWalk ∅ [] []) (pq_parents request) = Err AncestryOutOfFuel) as Hw
      by (destruct (walk_rounds _ _ _ _); cbn in H; [done|by injection H as ->]).
    revert Hw. apply walk_fuel. cbn [visited]. rewrite difference_empty_L. lia.
  - intros l H. apply result_bind_ok in H as (found & Hw & [= <-]).
    assert (walk_inv s (pq_parents request) (mkWalk ∅ [] []) (pq_parents request)) as Hi.
    { split; cbn; [set_solver|intros x; by apply ancestor_root|by right|set_solver|constructor|set_solver]. }
    revert Hw Hi. generalize (mkWalk ∅ [] []). generalize (pq_parents request) at 1 3 as cur.
    generalize (S (size (dom (pol_chips s)))). intros fuel. induction fuel as [|fuel IH]; intros cur w.
    + destruct cur; [|done]. cbn [walk_rounds]. intros [= <-] I. split; [rewrite reverse_Permutation; apply I|].
      intros x. rewrite reverse_Permutation. exact (walk_done s (pq_parents request) w I x).
    + destruct cur as [|y cur]; cbn [walk_rounds].
      * intros [= <-] I. split; [rewrite reverse_Permutation; apply I|]. intros x. rewrite reverse_Permutation.
        exact (walk_done s (pq_parents request) w I x).
      * intros H I. apply result_bind_ok in H as (w' & Hv & H). apply (IH _ _ H). by eapply walk_round_inv.
Qed.

(** Two ancestors with a common parent are not a cycle, but are rejected as
    one, even when the common parent is genesis. *)
Theorem shared_parent_rejected s request a b ca cb p :
  pq_parents request = [a; b] -> a <> b -> a <> genesis_chip_cid -> b <> genesis_chip_cid -> p <> a -> p <> b ->
  pol_chips s !! a = Some ca -> pol_chips s !! b = Some cb -> cd_parents ca = [p] -> cd_parents cb = [p] ->
  forall fuel, (2 <= fuel)%nat -> resolve_ancestry (in_memory_storage s) fuel request = Err (CircularDependency p).
Proof.
  intros Hp Hab Ha Hb Hpa Hpb Ea Eb Pa Pb fuel Hf. destruct fuel as [|[|fuel]]; [lia..|].
  assert (parents_of s a = [p] /\ parents_of s b = [p]) as [Qa Qb].
  { unfold parents_of, is_genesis_chip. rewrite !(proj2 (String.eqb_neq _ _)) by done. by rewrite Ea, Eb. }
  unfold resolve_ancestry. rewrite Hp. cbn [walk_rounds try_fold visited ancestry].
  destruct (visit_fresh s (mkWalk ∅ [] []) a) as [a1 ->]; [set_solver|]. cbn [visited next_parents app].
  destruct (visit_fresh s (mkWalk ({[a]} ∪ ∅) a1 (parents_of s a)) b) as [a2 ->]; [set_solver|].
  cbn [mbind result_bind visited ancestry next_parents]. rewrite Qa, Qb. cbn [app try_fold].
  edestruct (visit_fresh s) as [a3 ->]; [cbn; set_solver|]. cbn [visited next_parents app].
  rewrite visit_seen by (cbn; set_solver). done.
Qed.

(** Chips of the silicon family never pass genesis: their types are not on its
    list. *)
Theorem silicon_types_denied ctx ty :
  ty ∈ ["ubl/silicon.bit"; "ubl/silicon.circuit"; "ubl/silicon.chip"; "ubl/silicon.compile"] ->
  get "@type" (chip ctx) = Some (JString ty) ->
  pr_decision (policy_evaluate create_genesis_policy ctx) = DenyD.
Proof.
  intros Ht Hg. destruct (genesis_policy_decision ctx) as [[_ H]|[-> _]]; [|done]. exfalso.
  destruct H as ((t & Hin & Hy) & _). rewrite Hg in Hy. injection Hy as <-.
  assert (existsb (String.eqb ty) genesis_types = true) as He by by apply existsb_elem.
  repeat (apply elem_of_cons in Ht as [->|Ht]; [done|]). by apply elem_of_nil in Ht.
Qed.
End Properties.

(** ** Witnesses *)

Module LoaderSample.
#[local] Existing Instance ascii_unicode.
#[local] Existing Instance zero_blake3.
#[local] Instance null_serde : PolicySerde := {|
  circuits_from_value _ := Some []; circuits_to_value _ := JNull;
  scope_from_value _ := None; scope_to_value _ := JNull |}.

Definition child (x p : string) : ChipData := mkChipData x "ubl/app" JNull [p].
Definition two : InMemoryPolicyStorage := add_chip (child "b3:b" "b3:p") (add_chip (child "b3:a" "b3:p") policy_storage_new).
Definition request0 : PolicyRequest := mkPolicyRequest "ubl/document" JNull ["b3:a"; "b3:b"] "create".

Lemma shared_parent_rejected_witness : resolve_ancestry (in_memory_storage two) 3 request0 = Err (CircularDependency "b3:p").
Proof.
  apply (shared_parent_rejected two request0 "b3:a" "b3:b" (child "b3:a" "b3:p") (child "b3:b" "b3:p") "b3:p");
    try reflexivity; try (by intros ?%(f_equal String.length)); try discriminate; try lia; vm_compute; congruence.
Defined.

Lemma ancestry_exact_witness : exists l,
  resolve_ancestry (in_memory_storage two) 3 (mkPolicyRequest "ubl/document" JNull ["b3:a"] "create") = Ok l /\ NoDup l.
Proof.
  exists ["b3:p"; "b3:a"]. split; [vm_compute; reflexivity|].
  apply (proj2 (ancestry_exact two (mkPolicyRequest "ubl/document" JNull ["b3:a"] "create"))). vm_compute. reflexivity.
Defined.

Lemma silicon_types_denied_witness :
  pr_decision (policy_evaluate create_genesis_policy
    (mkContext (JObject [("@type", JString "ubl/silicon.chip")]) 10 {["chip.id" := JString "x"]})) = DenyD.
Proof. apply (silicon_types_denied _ "ubl/silicon.chip"); [do 2 right; left|reflexivity]. Defined.
End LoaderSample.
