(* ===== verification/Envelope.v ===== *)
(** * The universal envelope ([ubl_nrf::envelope])

    The four anchors that every artifact carries ([@type], [@id], [@ver],
    [@world]), their validation, their reading from and writing to JSON, and
    the form of worlds. *)

From S2P Require Import Prelude RustStd RustStr Json.

Record UblEnvelope : Type := mkEnvelope { env_type : string; env_id : string; env_ver : string; env_world : string }.

Inductive EnvelopeError : Type :=
| MissingAnchor (anchor : string)
| EmptyType
| EmptyId
| EmptyVer
| EmptyWorld
| InvalidWorld (world : string)
| TypeNotFirst (found : string)
| IdNotSecond (found : string).

(** ** Worlds *)

Definition validate_world (world : string) : result EnvelopeError unit :=
  match split_on "/" world with
  | [p0; p1] => if String.eqb p0 "a" && negb (is_empty p1) then Ok tt else Err (InvalidWorld world)
  | [p0; p1; p2; p3] =>
      if String.eqb p0 "a" && String.eqb p2 "t" && negb (is_empty p1) && negb (is_empty p3)
      then Ok tt else Err (InvalidWorld world)
  | _ => Err (InvalidWorld world)
  end.

Definition parse_world (world : string) : option (string * string) :=
  match split_on "/" world with
  | [p0; p1; p2; p3] => if String.eqb p0 "a" && String.eqb p2 "t" then Some (p1, p3) else None
  | _ => None
  end.

(** ** Envelopes *)

Definition envelope_validate (e : UblEnvelope) : result EnvelopeError unit :=
  if is_empty (env_type e) then Err EmptyType
  else if is_empty (env_id e) then Err EmptyId
  else if is_empty (env_ver e) then Err EmptyVer
  else if is_empty (env_world e) then Err EmptyWorld
  else validate_world (env_world e).

Definition envelope_new (ty id ver world : string) : result EnvelopeError UblEnvelope :=
  let envelope := mkEnvelope ty id ver world in
  _ ← envelope_validate envelope;
  Ok envelope.

(** A text anchor of an object. *)
Definition anchor (k : string) (obj : list (string * json)) : result EnvelopeError string :=
  ok_or (map_get k obj ≫= as_str) (MissingAnchor k).

(** The order of the first two keys. *)
Definition check_key_order (keys : list string) : result EnvelopeError unit :=
  match keys with
  | [] => Err (TypeNotFirst "")
  | k0 :: keys' =>
      if negb (String.eqb k0 "@type") then Err (TypeNotFirst k0)
      else
        match keys' with
        | [] => Err (IdNotSecond "")
        | k1 :: _ => if negb (String.eqb k1 "@id") then Err (IdNotSecond k1) else Ok tt
        end
  end.

Definition envelope_from_json (value : json) : result EnvelopeError UblEnvelope :=
  obj ← ok_or (as_object value) (MissingAnchor "@type");
  _ ← check_key_order obj.*1;
  ty ← anchor "@type" obj;
  id ← anchor "@id" obj;
  ver ← anchor "@ver" obj;
  world ← anchor "@world" obj;
  let envelope := mkEnvelope ty id ver world in
  _ ← envelope_validate envelope;
  Ok envelope.

Definition to_ordered_map (e : UblEnvelope) : list (string * json) :=
  [("@type", JString (env_type e)); ("@id", JString (env_id e));
   ("@ver", JString (env_ver e)); ("@world", JString (env_world e))]%string.

Definition is_anchor (k : string) : bool :=
  String.eqb k "@type" || String.eqb k "@id" || String.eqb k "@ver" || String.eqb k "@world".

Definition add_extra (m : list (string * json)) (kv : string * json) : list (string * json) :=
  if is_anchor kv.1 then m else map_insert kv.1 kv.2 m.
Definition to_json_with (e : UblEnvelope) (extra : list (string * json)) : json :=
  JObject (fold_left add_extra extra (to_ordered_map e)).

Definition envelope_to_json (e : UblEnvelope) : json := JObject (to_ordered_map e).

Definition envelope_display (e : UblEnvelope) : string :=
  env_type e +:+ ":" +:+ env_id e +:+ " (ver=" +:+ env_ver e +:+ ", world=" +:+ env_world e +:+ ")".

(** ** Lemmas *)

Lemma is_empty_spec s : is_empty s = false <-> s <> ""%string.
Proof. by destruct s. Qed.

(** A segment of a world. *)
Definition segment (s : string) : Prop := s <> ""%string /\ contains_char "/" s = false.

Definition world_form (world : string) : Prop :=
  exists app, segment app /\
    (world = "a/" +:+ app \/ exists tenant, segment tenant /\ world = "a/" +:+ app +:+ "/t/" +:+ tenant).

Lemma split_app_world app : segment app -> split_on "/" ("a/" +:+ app) = ["a"; app]%string.
Proof.
  intros [_ H]. change ("a/" +:+ app) with ("a" +:+ String "/" app).
  by rewrite split_on_app, split_on_no.
Qed.
Lemma split_tenant_world app tenant : segment app -> segment tenant ->
  split_on "/" ("a/" +:+ app +:+ "/t/" +:+ tenant) = ["a"; app; "t"; tenant]%string.
Proof.
  intros [_ H] [_ Ht].
  change ("a/" +:+ app +:+ "/t/" +:+ tenant) with ("a" +:+ String "/" (app +:+ String "/" ("t" +:+ String "/" tenant))).
  by rewrite !split_on_app, split_on_no.
Qed.

Lemma map_get_insert {A} k (v : A) m j : map_get j (map_insert k v m) = if String.eqb j k then Some v else map_get j m.
Proof.
  induction m as [|[k' v'] m IH]; [done|]. cbn. destruct (String.eqb_spec k k') as [<-|Hk]; cbn.
  - by destruct (String.eqb j k).
  - rewrite IH. destruct (String.eqb_spec j k'), (String.eqb_spec j k); congruence.
Qed.
Lemma map_insert_keys {A} k (v : A) m : exists l, (map_insert k v m).*1 = m.*1 ++ l.
Proof.
  induction m as [|[k' v'] m [l IH]]; csimpl; [by exists [k]|].
  destruct (String.eqb k k'); csimpl; [exists []; by rewrite app_nil_r|exists l; by rewrite IH].
Qed.

Lemma extra_keys extra (m : list (string * json)) : exists l, (fold_left add_extra extra m).*1 = m.*1 ++ l.
Proof.
  revert m. induction extra as [|[k v] ex IH]; intros m; cbn [fold_left]; [exists []; by rewrite app_nil_r|].
  destruct (IH (add_extra m (k, v))) as [l Hl]. rewrite Hl. unfold add_extra. cbn [fst snd]. destruct (is_anchor k); [by exists l|].
  destruct (map_insert_keys k v m) as [l' ->]. exists (l' ++ l). by rewrite app_assoc.
Qed.
Lemma extra_anchor extra (m : list (string * json)) k : is_anchor k = true -> map_get k (fold_left add_extra extra m) = map_get k m.
Proof.
  intros Hk. revert m. induction extra as [|[k' v'] ex IH]; intros m; cbn [fold_left]; [done|]. rewrite IH. unfold add_extra. cbn [fst snd].
  destruct (is_anchor k') eqn:E; [done|]. rewrite map_get_insert. destruct (String.eqb_spec k k'); congruence.
Qed.
Lemma extra_other extra m k : NoDup extra.*1 -> is_anchor k = false ->
  map_get k (fold_left add_extra extra m) =
  match map_get k extra with Some v => Some v | None => map_get k m end.
Proof.
  intros Hn Hk. revert m. induction extra as [|[k' v'] ex IH]; intros m; [done|]. csimpl in Hn.
  apply NoDup_cons in Hn as [Hx Hn]. cbn [fold_left map_get]. rewrite IH by done. unfold add_extra. cbn [fst snd].
  destruct (String.eqb_spec k k') as [<-|Hne].
  - rewrite (proj2 (map_get_None k ex) Hx), Hk, map_get_insert. by rewrite String.eqb_refl.
  - destruct (map_get k ex); [done|]. destruct (is_anchor k'); [done|].
    rewrite map_get_insert. by destruct (String.eqb_spec k k').
Qed.

(** ** Properties *)

(** The worlds that the pipeline admits are [a/app] and [a/app/t/tenant] with
    segments that are not empty and contain no slash. *)
Theorem world_validated world : validate_world world = Ok tt <-> world_form world.
Proof.
  split.
  - unfold validate_world. pose proof (split_on_join "/" world) as HJ. pose proof (split_on_pieces "/" world) as HF.
    destruct (split_on "/" world) as [|p0 [|p1 [|p2 [|p3 [|]]]]]; try done.
    + destruct (String.eqb_spec p0 "a"), (is_empty p1) eqn:E; try done. intros _. exists p1.
      repeat (apply Forall_cons in HF as [? HF]). apply is_empty_spec in E. split; [by split|]. left. by subst.
    + destruct (String.eqb_spec p0 "a"), (String.eqb_spec p2 "t"), (is_empty p1) eqn:E1, (is_empty p3) eqn:E3; try done.
      intros _. repeat (apply Forall_cons in HF as [? HF]). apply is_empty_spec in E1. apply is_empty_spec in E3. subst.
      exists p1. split; [by split|]. right. exists p3. split; [by split|done].
  - intros (app & Ha & [->|(t & Ht & ->)]); unfold validate_world.
    + rewrite split_app_world by done. destruct Ha as [Ha%is_empty_spec _]. by rewrite Ha.
    + rewrite split_tenant_world by done. destruct Ha as [Ha%is_empty_spec _], Ht as [Ht%is_empty_spec _].
      by rewrite Ha, Ht.
Qed.

(** The pair that an admitted world is filed under: application worlds have
    none. *)
Theorem world_parsed app : segment app ->
  parse_world ("a/" +:+ app) = None /\
  forall tenant, segment tenant -> parse_world ("a/" +:+ app +:+ "/t/" +:+ tenant) = Some (app, tenant).
Proof.
  intros Ha. unfold parse_world. rewrite split_app_world by done. split; [done|].
  intros t Ht. by rewrite split_tenant_world.
Qed.

(** Envelopes survive being written with any further fields and read again,
    and the further fields never replace an anchor; and what is read from an
    object gives the object's members back when it is written with them. *)
Theorem envelope_roundtrip :
  (forall e extra, envelope_validate e = Ok tt -> envelope_from_json (to_json_with e extra) = Ok e) /\
  (forall m e, NoDup m.*1 -> envelope_from_json (JObject m) = Ok e ->
     envelope_validate e = Ok tt /\
     exists m', to_json_with e m = JObject m' /\ forall k, map_get k m' = map_get k m).
Proof.
  split.
  - intros e extra Hv. unfold envelope_from_json, to_json_with. cbn [as_object ok_or mbind result_bind].
    destruct (extra_keys extra (to_ordered_map e)) as [l Hl]. rewrite Hl.
    cbn [to_ordered_map fmap list_fmap fst app check_key_order String.eqb Ascii.eqb Bool.eqb negb mbind result_bind].
    unfold anchor. rewrite !extra_anchor by done. cbn -[envelope_validate]. destruct e as [t i v w]. cbn -[envelope_validate].
    by rewrite Hv.
  - intros m e Hn H. unfold envelope_from_json in H. cbn [as_object ok_or mbind result_bind] in H.
    apply result_bind_ok in H as ([] & _ & H).
    unfold anchor in H. do 4 (apply result_bind_ok in H as (? & ? & H)). apply result_bind_ok in H as ([] & Hv & [= <-]).
    split; [done|]. eexists. split; [reflexivity|]. intros k. destruct (is_anchor k) eqn:Hk.
    + rewrite extra_anchor by done. unfold is_anchor in Hk.
      repeat match goal with H : ok_or (?o ≫= as_str) _ = Ok _ |- _ =>
        let E := fresh "E" in destruct o as [[]|] eqn:E; try discriminate H; injection H as <- end.
      repeat (apply orb_prop in Hk as [Hk|Hk]); apply String.eqb_eq in Hk; subst; cbn; congruence.
    + rewrite extra_other by done. destruct (map_get k m) eqn:E; [done|]. unfold is_anchor in Hk.
      repeat (apply orb_false_elim in Hk as [Hk ?]). cbn.
      repeat match goal with H : String.eqb k _ = false |- _ => rewrite H; clear H end. done.
Qed.

(** ** Witnesses *)

Module EnvelopeSample.
Definition sample : UblEnvelope := mkEnvelope "ubl/event" "evt-42" "1.0" "a/demo/t/main".

Lemma envelope_roundtrip_witness :
  envelope_from_json (to_json_with sample [("@type", JString "HACKED"); ("payload", JNull)]%string) = Ok sample.
Proof. apply (proj1 envelope_roundtrip). vm_compute. reflexivity. Defined.

Lemma world_parsed_witness : parse_world ("a/" +:+ "acme") = None.
Proof. apply (proj1 (world_parsed "acme" ltac:(split; [discriminate|reflexivity]))). Defined.
End EnvelopeSample.
