(* ===== verification/ChipFile.v ===== *)
(** * Chip files ([ubl_nrf::chip_format])

    Chips written by hand: their canonical JSON, the normalisation of numbers,
    and compilation to NRF-1 bytes behind a three-byte header.  Reading YAML is
    serde_yaml's. *)

From S2P Require Import Prelude RustStd RustStr Json Nrf NrfFacts BigNum Unc1 Receipt Knock KnockFacts.
Local Open Scope Z_scope.
Local Open Scope string_scope.
Local Open Scope list_scope.

Record ChipMetadata : Type := mkChipMeta {
  meta_id : string; meta_tags : list string; meta_description : option string; meta_parents : list string }.
Record PolicyRef : Type := mkPolicyRef { policy_check : string }.
Record ChipFile : Type := mkChipFile {
  cf_type : string; cf_version : string; cf_metadata : ChipMetadata; cf_body : json; cf_policy : option PolicyRef }.
Record CompiledChip : Type := mkCompiled {
  cc_nrf1_bytes : bytes; cc_cid : string; cc_chip_type : string; cc_logical_id : string }.

(** [UncImport] is the message of a failed float import. *)
Inductive CompileError : Type :=
| InvalidFormat (msg : string)
| UncImport (e : unc_error)
| NrfFailure (e : NrfError).

(** ** Canonical JSON *)

Definition texts (l : list string) : json := JArray (JString <$> l).

Definition chip_to_json (c : ChipFile) : result CompileError json :=
  body_obj ← ok_or (as_object (cf_body c)) (InvalidFormat "Body must be a JSON object");
  let m := map_insert "@type" (JString (cf_type c)) body_obj in
  let m := map_insert "id" (JString (meta_id (cf_metadata c))) m in
  let parents := meta_parents (cf_metadata c) in
  let m := match parents with [] => m | _ => map_insert "parents" (texts parents) m end in
  let tags := meta_tags (cf_metadata c) in
  let m := match tags with [] => m | _ => map_insert "tags" (texts tags) m end in
  Ok (JObject m).

(** ** Numbers *)

Section Numbers.
Context {SJ : SerdeJson} {BN : BigNum}.

Fixpoint normalize_numbers_to_unc1 (value : json) (mode : F64ImportMode) : result CompileError json :=
  match value with
  | JNumber (Float bits) =>
      match mode with
      | RejectF64 =>
          Err (InvalidFormat ("raw float '" +:+ value_to_string (JNumber (Float bits)) +:+ "' violates UNC-1; use @num atom"))
      | BndF64 =>
          bnd ← map_err UncImport (from_f64_bits bits);
          Ok (num_to_json bnd)
      end
  | JNumber _ => Ok value
  | JArray l =>
      l' ← (fix go (l : list json) : result CompileError (list json) :=
              match l with
              | [] => Ok []
              | x :: l' => y ← normalize_numbers_to_unc1 x mode; ys ← go l'; Ok (y :: ys)
              end) l;
      Ok (JArray l')
  | JObject m =>
      if contains_key "@num" m then Ok value
      else
        m' ← (fix go (m : list (string * json)) : result CompileError (list (string * json)) :=
                match m with
                | [] => Ok []
                | (k, x) :: m' => y ← normalize_numbers_to_unc1 x mode; ys ← go m'; Ok ((k, y) :: ys)
                end) m;
        Ok (JObject m')
  | _ => Ok value
  end.

Fixpoint assert_no_numeric_literals (value : json) (path : string) : result CompileError unit :=
  match value with
  | JNumber _ =>
      Err (InvalidFormat ("numeric literal not allowed at " +:+ path +:+ " when REQUIRE_UNC1_NUMERIC=true"))
  | JArray l =>
      (fix go (idx : Z) (l : list json) : result CompileError unit :=
         match l with
         | [] => Ok tt
         | x :: l' => _ ← assert_no_numeric_literals x (path +:+ "[" +:+ u_to_string idx +:+ "]"); go (idx + 1) l'
         end) 0 l
  | JObject m =>
      if contains_key "@num" m then Ok tt
      else
        (fix go (m : list (string * json)) : result CompileError unit :=
           match m with
           | [] => Ok tt
           | (k, x) :: m' => _ ← assert_no_numeric_literals x (path +:+ "." +:+ k); go m'
           end) m
  | _ => Ok tt
  end.

(** ** Compilation *)

Definition chip_type_code (chip_type : string) : Byte.byte :=
  if String.eqb chip_type "ubl/user" then x10
  else if String.eqb chip_type "ubl/app" then x11
  else if String.eqb chip_type "ubl/tenant" then x12
  else if String.eqb chip_type "ubl/policy" then x13
  else if String.eqb chip_type "ubl/token" then x14
  else if String.eqb chip_type "ubl/invite" then x15
  else if String.eqb chip_type "ubl/ai.passport" then x16
  else if String.eqb chip_type "ubl/wasm.module" then x17
  else xff.

Context {U : Unicode} {HB3 : Blake3}.

Definition chip_compile (env : Environment) (c : ChipFile) : result CompileError CompiledChip :=
  canonical_json ← chip_to_json c;
  canonical_json ← normalize_numbers_to_unc1 canonical_json (f64_mode_from_env env);
  _ ← (if require_unc1_from_env env then assert_no_numeric_literals canonical_json "$" else Ok tt);
  nrf1_bytes ← map_err NrfFailure (to_nrf1_bytes canonical_json);
  let final_bytes := [xf2; x01; chip_type_code (cf_type c)] ++ nrf1_bytes in
  Ok (mkCompiled final_bytes (compute_cid final_bytes) (cf_type c) (meta_id (cf_metadata c))).
End Numbers.

(** ** Lemmas *)

Lemma Forall2_elem_l {A B} (P : A -> B -> Prop) l k x : Forall2 P l k -> x ∈ l -> exists y, P x y.
Proof.
  induction 1 as [|a b l k Hab HF IH]; [by intros ?%elem_of_nil|].
  intros [->|Hx]%elem_of_cons; [by exists b|auto].
Qed.

Section Facts.
Context {SJ : SerdeJson} {BN : BigNum}.

Lemma normalize_elems l mode l' : normalize_numbers_to_unc1 (JArray l) mode = Ok l' ->
  exists ys, l' = JArray ys /\ Forall2 (fun x y => normalize_numbers_to_unc1 x mode = Ok y) l ys.
Proof.
  cbn [normalize_numbers_to_unc1]. intros (ys & E & [= <-])%result_bind_ok. exists ys. split; [done|].
  revert ys E. induction l as [|x l IH]; intros ys E; [injection E as <-; constructor|].
  apply result_bind_ok in E as (y & Ey & E). apply result_bind_ok in E as (ys' & Eys & [= <-]). constructor; auto.
Qed.
Lemma normalize_members m mode v : contains_key "@num" m = false -> normalize_numbers_to_unc1 (JObject m) mode = Ok v ->
  exists m', v = JObject m' /\
    Forall2 (fun kx ky => kx.1 = ky.1 /\ normalize_numbers_to_unc1 kx.2 mode = Ok ky.2) m m'.
Proof.
  intros Hk. cbn [normalize_numbers_to_unc1]. rewrite Hk. intros (ys & E & [= <-])%result_bind_ok. exists ys. split; [done|].
  clear Hk. revert ys E. induction m as [|[k x] m IH]; intros ys E; [injection E as <-; constructor|].
  apply result_bind_ok in E as (y & Ey & E). apply result_bind_ok in E as (ys' & Eys & [= <-]).
  constructor; [done|auto].
Qed.

Lemma reject_identity v v' : normalize_numbers_to_unc1 v RejectF64 = Ok v' ->
  v' = v /\ forall b, ~ bare_subvalue (JNumber (Float b)) v.
Proof.
  revert v'. induction v as [|b|n|s|l IH|m IH] using json_ind'; intros v'.
  - intros [= <-]. split; [done|]. intros b Hb. inversion Hb.
  - intros [= <-]. split; [done|]. intros b' Hb. inversion Hb.
  - destruct n as [z|z|z]; [intros [= <-]..|done]; (split; [done|]); intros b Hb; inversion Hb.
  - intros [= <-]. split; [done|]. intros b Hb. inversion Hb.
  - intros (ys & -> & HF)%normalize_elems. rewrite Forall_forall in IH. split.
    + f_equal. clear -IH HF. induction HF as [|x y l ys Hxy HF IHf]; [done|].
      destruct (IH x ltac:(by left) _ Hxy) as [-> _]. f_equal. apply IHf. intros z Hz. apply IH. by right.
    + intros b Hb. inversion Hb as [|x ? Hin Hx|]; subst.
      destruct (Forall2_elem_l _ _ _ _ HF Hin) as [y Hy]. by apply (proj2 (IH x Hin _ Hy) b).
  - destruct (contains_key "@num" m) eqn:Hk.
    + cbn [normalize_numbers_to_unc1]. rewrite Hk. intros [= <-]. split; [done|]. intros b Hb. inversion Hb; congruence.
    + intros (ys & -> & HF)%normalize_members; [|done]. rewrite Forall_forall in IH. split.
      * f_equal. clear -IH HF. induction HF as [|[k x] [k' y] l ys [Hkk Hxy] HF IHf]; [done|]. cbn in Hkk, Hxy. subst.
        destruct (IH (k', x) ltac:(by left) _ Hxy) as [-> _]. f_equal. apply IHf. intros z Hz. apply IH. by right.
      * intros b Hb. inversion Hb as [| |k x ? ? Hin Hx]; subst.
        destruct (Forall2_elem_l _ _ _ _ HF Hin) as (y & _ & Hy). by apply (proj2 (IH (k, x) Hin _ Hy) b).
Qed.

Lemma literals_absent v path n : assert_no_numeric_literals v path = Ok tt -> ~ bare_subvalue (JNumber n) v.
Proof.
  revert path. induction v as [|b|n'|s|l IH|m IH] using json_ind'; intros path Hv Hs; try (by inversion Hs).
  - inversion Hs as [|x ? Hin Hx|]; subst. cbn [assert_no_numeric_literals] in Hv. revert Hv. generalize 0 as i.
    induction l as [|y l IHl]; intros i Hv; [by apply elem_of_nil in Hin|].
    apply Forall_cons in IH as [Hy IH]. apply result_bind_ok in Hv as ([] & Hv1 & Hv2).
    apply elem_of_cons in Hin as [->|Hin]; [by apply (Hy _ Hv1)|].
    apply (IHl IH ltac:(by econstructor) Hin _ Hv2).
  - inversion Hs as [| |k x ? Hk Hin Hx]; subst. cbn [assert_no_numeric_literals] in Hv. rewrite Hk in Hv.
    clear Hk Hs. induction m as [|[k' y] m IHm]; [by apply elem_of_nil in Hin|].
    apply Forall_cons in IH as [Hy IH]. apply result_bind_ok in Hv as ([] & Hv1 & Hv2).
    apply elem_of_cons in Hin as [[= -> ->]|Hin]; [by apply (Hy _ Hv1)|auto].
Qed.
End Facts.

(** ** Properties *)

Section Properties.
Context {SJ : SerdeJson} {BN : BigNum} {U : Unicode} {HB3 : Blake3}.

(** Chip files and submitted bodies import floats in the same way: the two
    routines of the two crates agree on every value. *)
Theorem float_import_agrees v v' :
  normalize_numbers_to_unc1 v BndF64 = Ok v' <-> normalize_f64_to_bnd v = Ok v'.
Proof.
  revert v'. induction v as [|b|n|s|l IH|m IH] using json_ind'; intros v'.
  1,2,4: split; by intros [= <-].
  - destruct n as [z|z|z]; [split; by intros [= <-]..|]. cbn [normalize_numbers_to_unc1 normalize_f64_to_bnd].
    rewrite !result_bind_ok. destruct (from_f64_bits z); cbn [map_err]; split; intros (q & Hq & H);
      try discriminate Hq; injection Hq as <-; injection H as <-; by eexists.
  - cbn [normalize_numbers_to_unc1 normalize_f64_to_bnd]. rewrite !result_bind_ok.
    assert (forall ys, (fix go (l : list json) : result CompileError (list json) := match l with [] => Ok []
        | x :: l' => y ← normalize_numbers_to_unc1 x BndF64; ys ← go l'; Ok (y :: ys) end) l = Ok ys <->
      (fix go (l : list json) : result KnockError (list json) := match l with [] => Ok []
        | x :: l' => y ← normalize_f64_to_bnd x; ys ← go l'; Ok (y :: ys) end) l = Ok ys) as H.
    { induction IH as [|x l Hx IH IHl]; intros ys; [split; by intros [= <-]|]. rewrite !result_bind_ok.
      split; intros (y & Ey & E); exists y; (split; [by apply Hx|]); revert E; rewrite !result_bind_ok;
        intros (zs & Ez & [= <-]); exists zs; (split; [by apply IHl|done]). }
    split; intros (ys & E & [= <-]); exists ys; (split; [by apply H|done]).
  - cbn [normalize_numbers_to_unc1 normalize_f64_to_bnd]. destruct (contains_key "@num" m); [split; by intros [= <-]|].
    rewrite !result_bind_ok.
    assert (forall ys, (fix go (m : list (string * json)) : result CompileError (list (string * json)) := match m with [] => Ok []
        | (k, x) :: m' => y ← normalize_numbers_to_unc1 x BndF64; ys ← go m'; Ok ((k, y) :: ys) end) m = Ok ys <->
      (fix go (m : list (string * json)) : result KnockError (list (string * json)) := match m with [] => Ok []
        | (k, x) :: m' => y ← normalize_f64_to_bnd x; ys ← go m'; Ok ((k, y) :: ys) end) m = Ok ys) as H.
    { induction IH as [|[k x] l Hx IH IHl]; intros ys; [split; by intros [= <-]|]. rewrite !result_bind_ok.
      split; intros (y & Ey & E); exists y; (split; [by apply Hx|]); revert E; rewrite !result_bind_ok;
        intros (zs & Ez & [= <-]); exists zs; (split; [by apply IHl|done]). }
    split; intros (ys & E & [= <-]); exists ys; (split; [by apply H|done]).
Qed.

(** A compiled chip is a header with the chip's type code, then the canonical
    bytes of its canonical JSON with numbers normalised; its CID is of the
    whole.  In the rejecting mode the JSON holds no float outside [@num] atoms
    and is otherwise untouched; under the strict option it holds no number
    outside them. *)
Theorem chip_compiled env c r :
  chip_compile env c = Ok r ->
  exists v v' nrf, chip_to_json c = Ok v /\ to_nrf1_bytes v' = Ok nrf /\
    cc_nrf1_bytes r = [xf2; x01; chip_type_code (cf_type c)] ++ nrf /\ cc_cid r = compute_cid (cc_nrf1_bytes r) /\
    normalize_numbers_to_unc1 v (f64_mode_from_env env) = Ok v' /\
    (f64_mode_from_env env = RejectF64 -> v' = v /\ forall b, ~ bare_subvalue (JNumber (Float b)) v) /\
    (require_unc1_from_env env = true -> forall n, ~ bare_subvalue (JNumber n) v').
Proof.
  unfold chip_compile. intros (v & Hv & H)%result_bind_ok. apply result_bind_ok in H as (v' & Hn & H).
  apply result_bind_ok in H as ([] & Hs & H). apply result_bind_ok in H as (nrf & Hb & [= <-]).
  destruct (to_nrf1_bytes v') as [bs|e] eqn:Eb; [|done]. injection Hb as <-.
  exists v, v', bs. split_and!; try done.
  - intros Hm. rewrite Hm in Hn. by apply reject_identity.
  - intros Hr n. rewrite Hr in Hs. by eapply literals_absent.
Qed.

(** The version, the description and the policy of a chip file leave no trace
    in the compiled chip: files that differ in these have the same CID. *)
Theorem chip_file_unbound env ty v1 v2 id tags d1 d2 parents body p1 p2 :
  chip_compile env (mkChipFile ty v1 (mkChipMeta id tags d1 parents) body p1) =
  chip_compile env (mkChipFile ty v2 (mkChipMeta id tags d2 parents) body p2).
Proof. reflexivity. Qed.
End Properties.
