(* ===== verification/KeyRotation.v ===== *)
(** * Key rotation ([key_rotation.rs])

    Parsing of rotation chips, derivation of the new key from the chip and the
    runtime's seed, and the mapping chip that records old and new
    identifiers. *)

From S2P Require Import Prelude RustStd RustStr Json Nrf NrfFacts Vm Canon Receipt.
Local Open Scope string_scope.
Local Open Scope list_scope.

Inductive KeyRotationError : Type :=
| InvalidType
| MissingField (field : string)
| InvalidField (msg : string)
| CanonFailure (e : CanonError).

Record KeyRotateRequest : Type := mkRotate { old_did : string; old_kid : string; rot_reason : option string }.

Record KeyRotationMaterial : Type := mkMaterial {
  mat_old_did : string; mat_old_kid : string; mat_new_did : string; mat_new_kid : string; mat_new_key_cid : string }.

Definition rotate_parse (body : json) : result KeyRotationError KeyRotateRequest :=
  let chip_type := get "@type" body ≫= as_str in
  if negb (bool_decide (chip_type = Some "ubl/key.rotate")) then Err InvalidType
  else
    old_did ← ok_or (get "old_did" body ≫= as_str) (MissingField "old_did");
    if negb (starts_with "did:key:z" old_did) then Err (InvalidField "old_did must be did:key:z...")
    else
      old_kid ← ok_or (get "old_kid" body ≫= as_str) (MissingField "old_kid");
      if negb (starts_with old_did old_kid) || negb (contains_char "#" old_kid)
      then Err (InvalidField "old_kid must match old_did and include fragment")
      else Ok (mkRotate old_did old_kid (get "reason" body ≫= as_str)).

Section Derive.
Context {U : Unicode} {HB3 : Blake3} {HK : Blake3Keyed} {EK : Ed25519Keys} {B58 : Base58}.

(** The text under the keyed hash: the domain, a zero byte and the chip's CID. *)
Definition rotation_context (chip_cid : string) : bytes := as_bytes "ubl/key.rotate/v1" ++ [x00] ++ as_bytes chip_cid.

(** A signing key is its 32-byte seed. *)
Definition derive_new_signing_key (body : json) (runtime_signing_seed : bytes) : result KeyRotationError bytes :=
  chip_cid ← map_err CanonFailure (cid_of body);
  Ok (blake3_keyed runtime_signing_seed (rotation_context chip_cid)).

Definition derive_material (strict : bool) (req : KeyRotateRequest) (body : json) (runtime_signing_seed : bytes)
    : result KeyRotationError KeyRotationMaterial :=
  chip_cid ← map_err CanonFailure (cid_of body);
  let seed := blake3_keyed runtime_signing_seed (rotation_context chip_cid) in
  let vk := sk_verifying_key seed in
  Ok (mkMaterial (old_did req) (old_kid req) (did_from_verifying_key strict vk) (kid_from_verifying_key strict vk)
        (key_cid vk)).

Definition map_id (material : KeyRotationMaterial) (rotation_chip_cid : string) : string :=
  "keymap-" +:+ hex_encode (blake3 (as_bytes
    (mat_old_kid material +:+ "|" +:+ mat_new_kid material +:+ "|" +:+ rotation_chip_cid))).

(** [created_at]: the text of the clock reading. *)
Definition mapping_chip (world rotation_chip_cid rotation_receipt_cid : string) (reason : option string)
    (material : KeyRotationMaterial) (created_at : string) : json :=
  JObject [("@type", JString "ubl/key.map");
           ("@id", JString (map_id material rotation_chip_cid));
           ("@ver", JString "1.0");
           ("@world", JString world);
           ("old_did", JString (mat_old_did material));
           ("old_kid", JString (mat_old_kid material));
           ("new_did", JString (mat_new_did material));
           ("new_kid", JString (mat_new_kid material));
           ("new_key_cid", JString (mat_new_key_cid material));
           ("rotation_chip_cid", JString rotation_chip_cid);
           ("rotation_receipt_cid", JString rotation_receipt_cid);
           ("reason", JString (default "unspecified" reason));
           ("algorithm", JString "Ed25519");
           ("created_at", JString created_at)].
End Derive.

(** ** Properties *)

Section Properties.
Context {U : Unicode} {HB3 : Blake3} {HK : Blake3Keyed} {ED : Ed25519} {EK : Ed25519Keys}
  {B64 : Base64} {B64D : Base64Decode} {B58 : Base58} `{!Ed25519Laws ED EK, !Base58Laws B58}.

(** A rotation chip parses exactly when it has the type, a [did:key:z] DID and
    a key id that extends this DID and has a fragment; its fields are the
    body's. *)
Theorem rotate_parsed body r :
  rotate_parse body = Ok r <->
  get "@type" body = Some (JString "ubl/key.rotate") /\ get "old_did" body = Some (JString (old_did r)) /\
  get "old_kid" body = Some (JString (old_kid r)) /\ rot_reason r = get "reason" body ≫= as_str /\
  starts_with "did:key:z" (old_did r) = true /\ starts_with (old_did r) (old_kid r) = true /\
  contains_char "#" (old_kid r) = true.
Proof.
  unfold rotate_parse. split.
  - destruct (get "@type" body) as [[| | |ty| |]|]; try done. cbn [mbind option_bind as_str]. intros H.
    case_bool_decide as Ht; [|done]. injection Ht as ->. cbn [negb] in H.
    destruct (get "old_did" body) as [[| | |d| |]|]; try done. cbn [mbind option_bind as_str ok_or result_bind] in H.
    destruct (starts_with "did:key:z" d) eqn:Hd; [|done]. cbn [negb] in H.
    destruct (get "old_kid" body) as [[| | |k| |]|]; try done. cbn [mbind option_bind as_str ok_or result_bind] in H.
    destruct (starts_with d k) eqn:Hk; [|done]. destruct (contains_char "#" k) eqn:Hc; [|done]. injection H as <-. done.
  - destruct r as [d k rs]. cbn. intros (-> & -> & -> & -> & H1 & H2 & H3). cbn. rewrite H1. cbn. by rewrite H2, H3.
Qed.

(** The mapping names the derived key: the new DID is read back as the
    verifying key of the key that the runtime derives from the same chip and
    seed, and the new key id extends it. *)
Theorem rotation_material_derived strict req body seed m :
  derive_material strict req body seed = Ok m ->
  exists sk, derive_new_signing_key body seed = Ok sk /\
    verifying_key_from_did (mat_new_did m) = Ok (sk_verifying_key sk) /\
    mat_new_kid m = mat_new_did m +:+ "#ed25519" /\ mat_new_key_cid m = key_cid (sk_verifying_key sk) /\
    mat_old_did m = old_did req /\ mat_old_kid m = old_kid req.
Proof.
  unfold derive_material, derive_new_signing_key. intros (c & Hc & [= <-])%result_bind_ok. rewrite Hc. cbn [mbind result_bind].
  eexists. split; [reflexivity|]. cbn. split; [apply did_roundtrip|done].
Qed.
End Properties.

(** ** Witnesses *)

Module RotationSample.
#[local] Existing Instance ascii_unicode.
#[local] Existing Instance zero_blake3.
#[local] Existing Instances CanonSample.toy_ed CanonSample.toy_keys CanonSample.toy_ed_laws CanonSample.raw58
  CanonSample.raw58_laws.
#[local] Instance rev_keyed : Blake3Keyed := {| blake3_keyed k m := reverse m ++ k |}.

Definition rotation : json :=
  JObject [("@type", JString "ubl/key.rotate"); ("@id", JString "rot-1"); ("@ver", JString "1.0");
           ("@world", JString "a/acme/t/prod"); ("old_did", JString "did:key:zOld");
           ("old_kid", JString "did:key:zOld#ed25519")].
Definition request : KeyRotateRequest := mkRotate "did:key:zOld" "did:key:zOld#ed25519" None.

Example rotation_parses : rotate_parse rotation = Ok request.
Proof. reflexivity. Qed.

Lemma rotation_material_derived_witness : exists m,
  derive_material false request rotation [] = Ok m /\ mat_new_kid m = mat_new_did m +:+ "#ed25519".
Proof.
  eexists. split; [vm_compute; reflexivity|].
  edestruct (rotation_material_derived false request rotation []) as (sk & _ & _ & H & _); [vm_compute; reflexivity|exact H].
Defined.
End RotationSample.
