(* ===== verification/AuditChip.v ===== *)
(** * Audit requests ([audit_chip.rs])

    The four audit chips (report, ledger snapshot, ledger compaction,
    advisory): their parsers and the checks of the CHECK stage, against any
    chip store backend.  Instants are nanoseconds since the epoch. *)

From S2P Require Import Prelude RustStd RustStr.
From S2P Require Import Json Nrf NrfFacts Vm BigNum Canon Types Knock ChipStore ChipStoreFacts Capability.

Definition TYPE_AUDIT_REPORT_REQUEST_V1 : string := "audit/report.request.v1".
Definition TYPE_AUDIT_LEDGER_SNAPSHOT_REQUEST_V1 : string := "audit/ledger.snapshot.request.v1".
Definition TYPE_LEDGER_SEGMENT_COMPACT_V1 : string := "ledger/segment.compact.v1".
Definition TYPE_AUDIT_ADVISORY_REQUEST_V1 : string := "audit/advisory.request.v1".

(** [to_rfc3339] of an instant in UTC. *)
Class ChronoFormat : Type := { to_rfc3339 : Z -> string }.

(** ** Data *)

Record TimeRange : Type := mkRange { rstart : Z; rend : Z }.
Record ReportRequest : Type := mkReport { rep_window : option string; rep_range : option TimeRange; rep_format : option string }.
Record SnapshotRequest : Type := mkSnapshot { snap_range : TimeRange }.
Record SegmentSource : Type := mkSegment { seg_path : string; seg_sha256 : string; seg_lines : Z }.
Record CompactRequest : Type := mkCompact {
  comp_range : TimeRange; snapshot_ref : string; source_segments : list SegmentSource; comp_mode : string }.
Record AdvisoryRequest : Type := mkAdvisory { subject_kind : string; subject_receipt_cid : string }.

Inductive AuditRequest : Type :=
| Report (r : ReportRequest)
| Snapshot (r : SnapshotRequest)
| Compact (r : CompactRequest)
| Advisory (r : AdvisoryRequest).

(** [AuditPanic] stands for a panic of the code. *)
Inductive AuditError : Type :=
| InvalidField (s : string)
| CapabilityFailed (e : CapError)
| StoreFailed (e : ChipStoreError)
| ChipStoreRequired
| SnapshotOverlap (start end_ : string)
| SnapshotRefNotFound (s : string)
| SnapshotRefTypeMismatch (expected got : string)
| SnapshotDoesNotCoverRange
| SubjectReceiptNotFound (s : string)
| AuditPanic.

Definition is_audit_request_type (chip_type : string) : bool :=
  existsb (String.eqb chip_type)
    [TYPE_AUDIT_REPORT_REQUEST_V1; TYPE_AUDIT_LEDGER_SNAPSHOT_REQUEST_V1; TYPE_LEDGER_SEGMENT_COMPACT_V1;
     TYPE_AUDIT_ADVISORY_REQUEST_V1].

(** ** Fields *)

Definition text_field (body : json) (k msg : string) : result AuditError string :=
  ok_or (get k body ≫= as_str) (InvalidField msg).

(** [str::parse::<u64>]: an optional plus sign and decimal digits. *)
Definition parse_u64 (s : string) : option Z :=
  let digits := match s with String "+" s' => s' | _ => s end in
  match digits with
  | EmptyString => None
  | _ => z ← parse_digits digits 0; if z <=? u64_max then Some z else None
  end.

(** [split_at(len - 1)]: the text without its last byte, and this byte; it
    panics when the byte is inside a character. *)
Fixpoint split_last (s : string) : option (string * ascii) :=
  match s with
  | EmptyString => None
  | String a s' => match split_last s' with Some (l, b) => Some (String a l, b) | None => Some (EmptyString, a) end
  end.

Definition window_unit (a : ascii) : bool := existsb (Ascii.eqb a) ["s"; "S"; "m"; "M"; "h"; "H"]%char.

Definition parse_window (window : string) : result AuditError unit :=
  match split_last window with
  | None => Err (InvalidField "window cannot be empty")
  | Some (num, unit) =>
      if is_cont (byte_of_ascii unit) then Err AuditPanic
      else
        value ← ok_or (parse_u64 num) (InvalidField "window must be like 30s|5m|1h");
        if value =? 0 then Err (InvalidField "window must be greater than zero")
        else if window_unit unit then Ok tt else Err (InvalidField "window unit must be s|m|h")
  end.

Section Parse.
Context {CI : ChronoInstant}.

Definition parse_range (value : json) : result AuditError TimeRange :=
  start ← text_field value "start" "range.start missing";
  end_ ← text_field value "end" "range.end missing";
  start ← ok_or (rfc3339_instant start) (InvalidField "range.start invalid RFC-3339");
  end_ ← ok_or (rfc3339_instant end_) (InvalidField "range.end invalid RFC-3339");
  if end_ <=? start then Err (InvalidField "range.end must be greater than range.start")
  else Ok (mkRange start end_).

Definition parse_report_request (body : json) : result AuditError ReportRequest :=
  let window := get "window" body ≫= as_str in
  _ ← match window with Some w => parse_window w | None => Ok tt end;
  range ← match get "range" body with
          | Some range_val => Some <$> parse_range range_val
          | None =>
              match get "start" body, get "end" body with
              | Some start, Some end_ => Some <$> parse_range (JObject [("start"%string, start); ("end"%string, end_)])
              | _, _ => Ok None
              end
          end;
  match window, range with
  | None, None => Err (InvalidField "report request requires either window or range")
  | _, _ => Ok (mkReport window range (get "format" body ≫= as_str))
  end.

Definition parse_snapshot_request (body : json) : result AuditError SnapshotRequest :=
  range_val ← ok_or (get "range" body) (InvalidField "missing range");
  range ← parse_range range_val;
  Ok (mkSnapshot range).

(** The loops over the segments. *)
Definition segment_err {A} (idx : Z) (what : string) : result AuditError A :=
  Err (InvalidField ("source_segments[" +:+ u_to_string idx +:+ "]." +:+ what)).

Fixpoint validate_segments_from (idx : Z) (l : list SegmentSource) : result AuditError unit :=
  match l with
  | [] => Ok tt
  | s :: l' =>
      if blank (seg_path s) then segment_err idx "path cannot be empty"
      else if seg_lines s =? 0 then segment_err idx "lines must be > 0"
      else if negb ((String.length (seg_sha256 s) =? 64)%nat && str_forallb is_ascii_hexdigit (seg_sha256 s))
      then segment_err idx "sha256 must be 64 hex chars"
      else validate_segments_from (idx + 1) l'
  end.
Definition validate_source_segments (l : list SegmentSource) : result AuditError unit := validate_segments_from 0 l.

Definition parse_segment (idx : Z) (segment : json) : result AuditError SegmentSource :=
  match get "path" segment ≫= as_str, get "sha256" segment ≫= as_str, get "lines" segment ≫= as_u64 with
  | Some path, Some sha, Some lines => Ok (mkSegment path sha lines)
  | None, _, _ => segment_err idx "path"
  | _, None, _ => segment_err idx "sha256"
  | _, _, None => segment_err idx "lines"
  end.
Fixpoint parse_segments (idx : Z) (l : list json) : result AuditError (list SegmentSource) :=
  match l with
  | [] => Ok []
  | x :: l' => s ← parse_segment idx x; ss ← parse_segments (idx + 1) l'; Ok (s :: ss)
  end.

Definition parse_compact_request (body : json) : result AuditError CompactRequest :=
  range_val ← ok_or (get "range" body) (InvalidField "missing range");
  range ← parse_range range_val;
  snapshot_ref ← text_field body "snapshot_ref" "missing snapshot_ref";
  if negb (starts_with "b3:" snapshot_ref) then Err (InvalidField "snapshot_ref must be CID-like (b3:...)")
  else
    mode ← text_field body "mode" "missing mode";
    if negb (String.eqb mode "archive_then_delete" || String.eqb mode "delete_with_rollup")
    then Err (InvalidField "mode must be archive_then_delete|delete_with_rollup")
    else
      segments ← ok_or (get "source_segments" body ≫= as_array) (InvalidField "missing source_segments");
      match segments with
      | [] => Err (InvalidField "source_segments cannot be empty")
      | _ =>
          source_segments ← parse_segments 0 segments;
          _ ← validate_source_segments source_segments;
          Ok (mkCompact range snapshot_ref source_segments mode)
      end.

Definition parse_advisory_request (body : json) : result AuditError AdvisoryRequest :=
  subject ← ok_or (get "subject" body) (InvalidField "missing subject");
  kind ← text_field subject "kind" "subject.kind";
  if negb (String.eqb kind "report" || String.eqb kind "snapshot")
  then Err (InvalidField "subject.kind must be report|snapshot")
  else
    receipt ← text_field subject "receipt_cid" "subject.receipt_cid";
    if negb (starts_with "b3:" receipt) then Err (InvalidField "subject.receipt_cid must be CID-like (b3:...)")
    else Ok (mkAdvisory kind receipt).

Definition parse_request (chip_type : string) (body : json) : result AuditError AuditRequest :=
  if String.eqb chip_type TYPE_AUDIT_REPORT_REQUEST_V1 then Report <$> parse_report_request body
  else if String.eqb chip_type TYPE_AUDIT_LEDGER_SNAPSHOT_REQUEST_V1 then Snapshot <$> parse_snapshot_request body
  else if String.eqb chip_type TYPE_LEDGER_SEGMENT_COMPACT_V1 then Compact <$> parse_compact_request body
  else if String.eqb chip_type TYPE_AUDIT_ADVISORY_REQUEST_V1 then Advisory <$> parse_advisory_request body
  else Err (InvalidField ("unsupported audit chip type '" +:+ chip_type +:+ "'")).
End Parse.

Definition ranges_overlap (a b : TimeRange) : bool := (rstart a <=? rend b) && (rstart b <=? rend a).
Definition range_covers (outer inner : TimeRange) : bool := (rstart outer <=? rstart inner) && (rend inner <=? rend outer).

Definition validate_advisory_inputs (body : json) : result AuditError unit :=
  match get "inputs" body with
  | None => Ok tt
  | Some inputs =>
      obj ← ok_or (as_object inputs) (InvalidField "inputs must be object");
      match List.find (fun k => negb (existsb (String.eqb k) ["dataset_cid"; "histograms_cid"; "hll_cid"]%string)) obj.*1 with
      | Some key => Err (InvalidField ("inputs." +:+ key +:+ " not allowed; only aggregate CIDs are accepted"))
      | None => Ok tt
      end
  end.

(** ** Checks against the store *)

Section Check.
Context {CI : ChronoInstant} {CF : ChronoFormat} {B : Type} {BE : ChipStoreBackend B}.

(** A stored snapshot that the overlap check skips: of another world, or with
    the request's own [@id]. *)
Definition snapshot_skipped (world : string) (body : json) (chip : StoredChip) : bool :=
  match get "@world" (chip_data chip) ≫= as_str with Some w => negb (String.eqb w world) | None => false end
  || match get "@id" body ≫= as_str, get "@id" (chip_data chip) ≫= as_str with
     | Some rid, Some id => String.eqb rid id
     | _, _ => false
     end.

Fixpoint overlap_loop (world : string) (requested : TimeRange) (body : json) (existing : list StoredChip)
    : result AuditError unit :=
  match existing with
  | [] => Ok tt
  | chip :: rest =>
      if snapshot_skipped world body chip then overlap_loop world requested body rest
      else
        match parse_snapshot_request (chip_data chip) with
        | Err _ => overlap_loop world requested body rest
        | Ok existing_req =>
            if ranges_overlap requested (snap_range existing_req)
            then Err (SnapshotOverlap (to_rfc3339 (rstart requested)) (to_rfc3339 (rend requested)))
            else overlap_loop world requested body rest
        end
  end.

Definition ensure_no_snapshot_overlap (store : ChipStore B) (world : string) (requested : TimeRange) (body : json)
    : result AuditError unit :=
  existing ← map_err StoreFailed (get_chips_by_type TYPE_AUDIT_LEDGER_SNAPSHOT_REQUEST_V1 (backend store));
  overlap_loop world requested body existing.

Definition find_snapshot_chip_by_ref (store : ChipStore B) (ref : string) : result AuditError (option StoredChip) :=
  chip ← map_err StoreFailed (get_chip ref (backend store));
  match chip with
  | Some chip => Ok (Some chip)
  | None => map_err StoreFailed (get_chip_by_receipt_cid ref (backend store))
  end.

Definition ensure_snapshot_reference_covers_range (store : ChipStore B) (ref : string) (compact_range : TimeRange)
    : result AuditError unit :=
  found ← find_snapshot_chip_by_ref store ref;
  snapshot_chip ← ok_or found (SnapshotRefNotFound ref);
  if negb (String.eqb (chip_type snapshot_chip) TYPE_AUDIT_LEDGER_SNAPSHOT_REQUEST_V1)
  then Err (SnapshotRefTypeMismatch TYPE_AUDIT_LEDGER_SNAPSHOT_REQUEST_V1 (chip_type snapshot_chip))
  else
    snapshot_req ← parse_snapshot_request (chip_data snapshot_chip);
    if range_covers (snap_range snapshot_req) compact_range then Ok tt else Err SnapshotDoesNotCoverRange.

Context {U : Unicode} {HB3 : Blake3} {ED : Ed25519} {EK : Ed25519Keys} {B64 : Base64} {B64D : Base64Decode} {B58 : Base58}.

Definition audit_validate_for_check (chip_type : string) (body : json) (world : string) (chip_store : option (ChipStore B))
    (now : Z) (now_text : string) : result AuditError AuditRequest :=
  parsed ← parse_request chip_type body;
  _ ← match parsed with
      | Report req =>
          _ ← map_err CapabilityFailed (require_cap body "audit:report" world now now_text);
          match rep_format req with
          | Some format =>
              if existsb (String.eqb format) ["ndjson"; "csv"; "pdf"]%string then Ok tt
              else Err (InvalidField ("format must be one of ndjson|csv|pdf, got '" +:+ format +:+ "'"))
          | None => Ok tt
          end
      | Snapshot req =>
          _ ← map_err CapabilityFailed (require_cap body "audit:snapshot" world now now_text);
          store ← ok_or chip_store ChipStoreRequired;
          ensure_no_snapshot_overlap store world (snap_range req) body
      | Compact req =>
          _ ← map_err CapabilityFailed (require_cap body "ledger:compact" world now now_text);
          store ← ok_or chip_store ChipStoreRequired;
          _ ← ensure_snapshot_reference_covers_range store (snapshot_ref req) (comp_range req);
          validate_source_segments (source_segments req)
      | Advisory req =>
          _ ← map_err CapabilityFailed (require_cap body "audit:advisory" world now now_text);
          _ ← validate_advisory_inputs body;
          store ← ok_or chip_store ChipStoreRequired;
          subject ← map_err StoreFailed (get_chip_by_receipt_cid (subject_receipt_cid req) (backend store));
          match subject with
          | Some _ => Ok tt
          | None => Err (SubjectReceiptNotFound (subject_receipt_cid req))
          end
      end;
  Ok parsed.
End Check.
