(* ===== verification/AuditFacts.v ===== *)
(** * What the audit checks guarantee

    Against any chip store backend that keeps its contract: the exact
    conditions under which a snapshot and a compaction are accepted, the
    invariant that the snapshots of a world are disjoint, and the windows of
    report requests. *)

From S2P Require Import Prelude RustStd RustStr.
From S2P Require Import Json Nrf NrfFacts Vm BigNum Canon Types Knock ChipStore ChipStoreFacts Capability Auth AuthFacts AuditChip.

(** ** Windows *)

Lemma split_last_Some s l a : split_last s = Some (l, a) <-> s = l +:+ String a EmptyString.
Proof.
  split.
  - revert l a. induction s as [|b s IH]; intros l a; [done|]. cbn.
    destruct (split_last s) as [[l' b']|] eqn:E; intros [= <- <-].
    + by rewrite (IH _ _ eq_refl).
    + destruct s as [|c s]; [done|]. exfalso. cbn in E. by destruct (split_last s) as [[]|].
  - intros ->. induction l as [|b l IH]; [done|]. rewrite str_app_cons. cbn. by rewrite IH.
Qed.

(** A report window is a positive 64-bit count and a unit; a window whose last
    character is not ASCII makes the parser panic. *)
Theorem window_parsed window :
  (parse_window window = Ok tt <->
   exists num a n, window = num +:+ String a EmptyString /\ window_unit a = true /\
     parse_u64 num = Some n /\ n <> 0) /\
  (parse_window window = Err AuditPanic <->
   exists num a, window = num +:+ String a EmptyString /\ is_cont (byte_of_ascii a) = true).
Proof.
  unfold parse_window. destruct (split_last window) as [[num a]|] eqn:E.
  - apply split_last_Some in E as ->.
    assert (forall num' a', num +:+ String a EmptyString = num' +:+ String a' EmptyString -> num' = num /\ a' = a) as Hinj.
    { intros num' a' H. apply split_last_Some in H. rewrite (proj2 (split_last_Some _ num a) eq_refl) in H.
      by injection H as <- <-. }
    assert (window_unit a = true -> is_cont (byte_of_ascii a) = false) as Hu.
    { unfold window_unit. cbn. intros H. repeat (apply orb_prop in H as [H|H]; [by apply Ascii.eqb_eq in H as ->|]). done. }
    split; split.
    + intros H. destruct (is_cont _); [done|]. apply result_bind_ok in H as (n & Hn & H).
      destruct (parse_u64 num) as [n'|] eqn:En; [|done]. injection Hn as ->.
      destruct (Z.eqb_spec n 0); [done|]. destruct (window_unit a) eqn:Eu; [|done]. by exists num, a, n.
    + intros (num' & a' & n & [-> ->]%Hinj & Hw & Hp & Hn). rewrite (Hu Hw), Hp. cbn [ok_or mbind result_bind]. rewrite Hw.
      by destruct (Z.eqb_spec n 0).
    + destruct (is_cont _) eqn:Ec; [by exists num, a|]. intros H. exfalso. revert H.
      destruct (parse_u64 num) as [n|]; cbn [ok_or mbind result_bind]; [|done]. by destruct (n =? 0), (window_unit a).
    + intros (num' & a' & [-> ->]%Hinj & Hc). by rewrite Hc.
  - assert (window = ""%string) as ->.
    { destruct window as [|b s]; [done|]. cbn in E. by destruct (split_last s) as [[]|]. }
    split; split; try done.
    + intros (num & a & n & H & _). by destruct num.
    + intros (num & a & H & _). by destruct num.
Qed.

(** ** Overlaps *)

Lemma overlap_sym a b : ranges_overlap a b = ranges_overlap b a.
Proof. unfold ranges_overlap. apply andb_comm. Qed.

(** Ranges that do not overlap, overlap being of closed ranges. *)
Lemma overlap_exact a b : ranges_overlap a b = true <-> rstart a <= rend b /\ rstart b <= rend a.
Proof. unfold ranges_overlap. rewrite andb_true_iff, !Z.leb_le. done. Qed.

Section Engine.
Context {CI : ChronoInstant} {CF : ChronoFormat} {CD : ChronoDate} {U : Unicode} {HB3 : Blake3}
  {ED : Ed25519} {EK : Ed25519Keys} {B64 : Base64} {B64D : Base64Decode} {B58 : Base58}.

(** The request does not meet a stored snapshot. *)
Definition clear_of (world : string) (requested : TimeRange) (body : json) (chip : StoredChip) : Prop :=
  snapshot_skipped world body chip = true \/
  forall r, parse_snapshot_request (chip_data chip) = Ok r -> ranges_overlap requested (snap_range r) = false.

Lemma overlap_loop_exact world requested body l :
  overlap_loop world requested body l = Ok tt <-> Forall (clear_of world requested body) l.
Proof.
  induction l as [|chip l IH]; [by split|]. rewrite Forall_cons, <- IH. cbn. unfold clear_of.
  destruct (snapshot_skipped world body chip); [tauto|].
  destruct (parse_snapshot_request (chip_data chip)) as [r|]; [|split; [intros ?; split; [by right|done]|tauto]].
  destruct (ranges_overlap requested (snap_range r)) eqn:E.
  - split; [done|]. intros [[?|H] _]; [done|]. by rewrite (H r eq_refl) in E.
  - split; [|tauto]. intros H. split; [right; by intros ? [= <-]|done].
Qed.

Context {B : Type} {BE : ChipStoreBackend B} {inv : B -> Prop} {accepts : StoredChip -> Prop}
  {contents : B -> gmap TypedCid StoredChip} `{!BackendSpec BE inv accepts contents}.
Implicit Types (s : ChipStore B).

Lemma no_overlap_exact s world requested body : inv (backend s) ->
  (ensure_no_snapshot_overlap s world requested body = Ok tt <->
   forall c, contents (backend s) !! cid c = Some c -> chip_type c = TYPE_AUDIT_LEDGER_SNAPSHOT_REQUEST_V1 ->
     clear_of world requested body c).
Proof.
  intros Hi. unfold ensure_no_snapshot_overlap.
  destruct (spec_by_type TYPE_AUDIT_LEDGER_SNAPSHOT_REQUEST_V1 (backend s) Hi) as (l & Hp & ->).
  cbn [map_err mbind result_bind]. rewrite overlap_loop_exact, Forall_forall. split.
  - intros H c Hc Ht. apply H. rewrite sort_by_perm, Hp, elem_of_list_filter, elem_all_chips.
    + by rewrite Ht, String.eqb_refl.
    + intros k d. by apply spec_keyed.
  - intros H c. rewrite sort_by_perm, Hp, elem_of_list_filter, elem_all_chips.
    + intros [Ht%String.eqb_eq Hc]. by apply H.
    + intros k d. by apply spec_keyed.
Qed.

Lemma compact_segments_valid body c : parse_compact_request body = Ok c ->
  validate_source_segments (source_segments c) = Ok tt.
Proof.
  unfold parse_compact_request. intros H. do 3 (apply result_bind_ok in H as (? & _ & H)). case_match; [done|].
  apply result_bind_ok in H as (? & _ & H). case_match; [done|]. apply result_bind_ok in H as (segs & _ & H).
  destruct segs; [done|]. apply result_bind_ok in H as (ss & _ & H). by apply result_bind_ok in H as ([] & Hv & [= <-]).
Qed.

(** ** The invariant *)

Definition snapshot_of (c : StoredChip) (world id : string) (r : TimeRange) : Prop :=
  chip_type c = TYPE_AUDIT_LEDGER_SNAPSHOT_REQUEST_V1 /\ get "@world" (chip_data c) = Some (JString world) /\
  get "@id" (chip_data c) = Some (JString id) /\ parse_snapshot_request (chip_data c) = Ok (mkSnapshot r).

Definition snapshots_disjoint (m : gmap TypedCid StoredChip) : Prop :=
  forall k1 k2 c1 c2 world id1 id2 r1 r2, m !! k1 = Some c1 -> m !! k2 = Some c2 ->
    snapshot_of c1 world id1 r1 -> snapshot_of c2 world id2 r2 -> id1 <> id2 -> ranges_overlap r1 r2 = false.

Lemma disjoint_insert m k c : snapshots_disjoint m ->
  (forall k' c' world id id' r r', m !! k' = Some c' -> snapshot_of c world id r -> snapshot_of c' world id' r' ->
     id <> id' -> ranges_overlap r r' = false) -> snapshots_disjoint (<[k := c]> m).
Proof.
  intros Hm Hc k1 k2 c1 c2 w id1 id2 r1 r2. rewrite !lookup_insert_Some.
  intros [[_ <-]|[_ H1]] [[_ <-]|[_ H2]] S1 S2 Hne.
  - destruct S1 as (_ & _ & E1 & _), S2 as (_ & _ & E2 & _). congruence.
  - by eapply Hc.
  - rewrite overlap_sym. eapply Hc; [exact H1|exact S2|exact S1|done].
  - by eapply (Hm k1 k2).
Qed.

(** One step of the store: an accepted snapshot request is executed and
    stored, or another chip is stored, or the backend deletes or rebuilds. *)
Inductive audit_step (s s' : ChipStore B) : Prop :=
| audit_snapshot body world req receipt meta at_ now nt c :
    audit_validate_for_check TYPE_AUDIT_LEDGER_SNAPSHOT_REQUEST_V1 body world (Some s) now nt = Ok req ->
    get "@world" body = Some (JString world) ->
    (forall bs, to_nrf1_bytes body = Ok bs -> accepts (stored_of body (compute_cid bs) receipt meta at_)) ->
    store_executed_chip s body receipt meta at_ = (s', Ok c) -> audit_step s s'
| audit_other o ix : op_accepted accepts o ->
    (forall c, o = OpPut c -> chip_type c <> TYPE_AUDIT_LEDGER_SNAPSHOT_REQUEST_V1) ->
    s' = mkStore (run_op (backend s) o) ix -> audit_step s s'.

Lemma audit_step_inv s s' : audit_step s s' -> inv (backend s) /\ snapshots_disjoint (contents (backend s)) ->
  inv (backend s') /\ snapshots_disjoint (contents (backend s')).
Proof.
  intros [body world req receipt meta at_ now nt c Hv Hw Ha Hs|o ix Ho Hne ->] [Hi Hd].
  - unfold audit_validate_for_check in Hv. apply result_bind_ok in Hv as (parsed & Hp & Hv).
    unfold parse_request in Hp.
    change (String.eqb TYPE_AUDIT_LEDGER_SNAPSHOT_REQUEST_V1 TYPE_AUDIT_REPORT_REQUEST_V1) with false in Hp.
    rewrite String.eqb_refl in Hp. cbv iota in Hp.
    destruct (parse_snapshot_request body) as [sr|] eqn:Es; [|done]. injection Hp as <-.
    apply result_bind_ok in Hv as ([] & Hv & _). apply result_bind_ok in Hv as (cap & _ & Hv).
    cbn [ok_or mbind result_bind] in Hv. pose proof (proj1 (no_overlap_exact s _ _ _ Hi) Hv) as Hclear. clear Hv.
    unfold store_executed_chip in Hs. destruct (to_nrf1_bytes body) as [bs|] eqn:Eb; [|done].
    destruct (spec_put _ (backend s) Hi (Ha bs eq_refl)) as (b' & Hput & Hi' & Hc & _). rewrite Hput in Hs.
    destruct (indexer_index_chip _ _) as [i [u|]]; [|done]. injection Hs as <- <-. cbn [backend]. split; [done|].
    rewrite Hc. apply disjoint_insert; [done|]. intros k' c' w id id' r r' Hk S1 S2 Hne.
    destruct S1 as (_ & W1 & I1 & P1), S2 as (T2 & W2 & I2 & P2). cbn [chip_data stored_of] in W1, I1, P1.
    rewrite Hw in W1. injection W1 as <-. rewrite Es in P1. injection P1 as ->.
    assert (cid c' = k') as <- by exact (spec_keyed (backend s) k' c' Hi Hk).
    destruct (Hclear c' Hk T2) as [Hsk|H]; [|by apply (H _ P2)]. exfalso. unfold snapshot_skipped in Hsk.
    rewrite W2, I2, I1 in Hsk. cbn [mbind option_bind as_str] in Hsk.
    rewrite String.eqb_refl in Hsk. by apply Hne, String.eqb_eq.
  - cbn [backend]. assert (Forall (op_accepted accepts) [o]) as HF by by constructor.
    destruct (run_ops_spec [o] (backend s) Hi HF) as [Hi' Hc]. cbn in Hi', Hc. rewrite Hc. split; [done|].
    destruct o as [c|k|]; cbn; [| |done].
    + apply disjoint_insert; [done|]. intros ? ? ? ? ? ? ? _ (Ht & _) _ _. by destruct (Hne c).
    + intros k1 k2 c1 c2 w id1 id2 r1 r2 [_ H1]%lookup_delete_Some [_ H2]%lookup_delete_Some. by apply (Hd k1 k2).
Qed.
End Engine.

(** ** Properties *)

Section Properties.
Context {CI : ChronoInstant} {CF : ChronoFormat} {CD : ChronoDate} {U : Unicode} {HB3 : Blake3}
  {ED : Ed25519} {EK : Ed25519Keys} {B64 : Base64} {B64D : Base64Decode} {B58 : Base58}.

(** Whatever the history of a chip store, as long as snapshots enter it through
    the CHECK stage, the snapshots of a world that have different [@id]s cover
    ranges of time that do not meet. *)
Theorem snapshots_stay_disjoint {B} (BE : ChipStoreBackend B) inv accepts contents `{!BackendSpec BE inv accepts contents}
    (s s' : ChipStore B) :
  inv (backend s) -> snapshots_disjoint (contents (backend s)) ->
  rtc (audit_step (accepts := accepts)) s s' -> snapshots_disjoint (contents (backend s')).
Proof.
  intros Hi Hd H. enough (inv (backend s') /\ snapshots_disjoint (contents (backend s'))) by tauto.
  induction H as [|s s1 s' Hs _ IH]; [done|]. destruct (audit_step_inv s s1 Hs) as [? ?]; [done|auto].
Qed.

(** A snapshot request is not compared with the stored snapshots that have its
    own [@id]: with a valid capability it is accepted however it overlaps
    them. *)
Theorem same_id_overlap_accepted {B} (BE : ChipStoreBackend B) inv accepts contents `{!BackendSpec BE inv accepts contents}
    (s : ChipStore B) body world id r now nt cap :
  inv (backend s) -> parse_snapshot_request body = Ok r -> require_cap body "audit:snapshot" world now nt = Ok cap ->
  get "@id" body = Some (JString id) ->
  (forall c, contents (backend s) !! cid c = Some c -> get "@id" (chip_data c) = Some (JString id)) ->
  audit_validate_for_check TYPE_AUDIT_LEDGER_SNAPSHOT_REQUEST_V1 body world (Some s) now nt = Ok (Snapshot r).
Proof.
  intros Hi Hp Hc Hid Hall. unfold audit_validate_for_check, parse_request.
  change (String.eqb TYPE_AUDIT_LEDGER_SNAPSHOT_REQUEST_V1 TYPE_AUDIT_REPORT_REQUEST_V1) with false.
  rewrite String.eqb_refl, Hp. cbn [fmap result_fmap mbind result_bind ok_or]. rewrite Hc. cbn [map_err mbind result_bind].
  rewrite (proj2 (no_overlap_exact s world (snap_range r) body Hi)); [done|].
  intros c Hl _. left. unfold snapshot_skipped. rewrite Hid, (Hall c Hl). cbn [mbind option_bind as_str].
  rewrite String.eqb_refl. apply orb_true_r.
Qed.

(** A compaction is accepted exactly when it parses, has a capability for the
    world, and the chip that its reference finds is a snapshot whose range
    covers the compacted one.  The snapshot's world plays no part. *)
Theorem compaction_accepted {B} (BE : ChipStoreBackend B) (s : ChipStore B) body world now nt req :
  audit_validate_for_check TYPE_LEDGER_SEGMENT_COMPACT_V1 body world (Some s) now nt = Ok req <->
  exists c, req = Compact c /\ parse_compact_request body = Ok c /\ cap_ok body "ledger:compact" world now nt /\
    exists chip snap, find_snapshot_chip_by_ref s (snapshot_ref c) = Ok (Some chip) /\
      chip_type chip = TYPE_AUDIT_LEDGER_SNAPSHOT_REQUEST_V1 /\ parse_snapshot_request (chip_data chip) = Ok snap /\
      rstart (snap_range snap) <= rstart (comp_range c) /\ rend (comp_range c) <= rend (snap_range snap).
Proof.
  unfold audit_validate_for_check, parse_request, cap_ok.
  change (String.eqb TYPE_LEDGER_SEGMENT_COMPACT_V1 TYPE_AUDIT_REPORT_REQUEST_V1) with false.
  change (String.eqb TYPE_LEDGER_SEGMENT_COMPACT_V1 TYPE_AUDIT_LEDGER_SNAPSHOT_REQUEST_V1) with false.
  rewrite String.eqb_refl. cbv iota. split.
  - destruct (parse_compact_request body) as [c|] eqn:Ec; [|done]. cbn [fmap result_fmap mbind result_bind].
    intros ([] & H & [= <-])%result_bind_ok. apply result_bind_ok in H as (cap & Hcap & H). cbn [ok_or mbind result_bind] in H.
    apply result_bind_ok in H as ([] & H & _). exists c. split_and!; [done..| |].
    { destruct (require_cap _ _ _ _ _); [by eexists|done]. }
    unfold ensure_snapshot_reference_covers_range in H. apply result_bind_ok in H as (found & Hf & H).
    destruct found as [chip|]; [|done]. cbn [ok_or mbind result_bind] in H.
    destruct (String.eqb_spec (chip_type chip) TYPE_AUDIT_LEDGER_SNAPSHOT_REQUEST_V1); [|done]. cbn [negb] in H.
    apply result_bind_ok in H as (snap & Hs & H). exists chip, snap. split_and!; try done; unfold range_covers in H;
      destruct (Z.leb_spec (rstart (snap_range snap)) (rstart (comp_range c))),
        (Z.leb_spec (rend (comp_range c)) (rend (snap_range snap))); done.
  - intros (c & -> & Hp & [cap Hcap] & chip & snap & Hf & Ht & Hs & H1 & H2). rewrite Hp.
    cbn [fmap result_fmap mbind result_bind]. rewrite Hcap. cbn [map_err ok_or mbind result_bind]. unfold ensure_snapshot_reference_covers_range. rewrite Hf.
    cbn [ok_or mbind result_bind]. rewrite Ht, String.eqb_refl. cbn [negb]. rewrite Hs. cbn [mbind result_bind].
    unfold range_covers. rewrite !(proj2 (Z.leb_le _ _)) by done. cbn [andb mbind result_bind].
    by rewrite (compact_segments_valid _ _ Hp).
Qed.
End Properties.

(** ** Witnesses *)

Module AuditSample.
Import ChipStoreSample CapSample.
#[local] Existing Instance in_memory_backend.
(** Instants as the lengths of their texts. *)
#[local] Instance length_instant : ChronoInstant := {| rfc3339_instant s := Some (Z.of_nat (String.length s)) |}.
(** The last bytes as a hash. *)
#[local] Instance last_bytes : Blake3 := {| blake3 bs := reverse (take 8 (reverse bs)) |}.
#[local] Instance no_text : ChronoFormat := {| to_rfc3339 _ := "" |}.

Ltac evaluates := match goal with |- ?x = _ => vm_cast_no_check (eq_refl x) end.

Definition ty_of (c : TypedCid) : string := TYPE_AUDIT_LEDGER_SNAPSHOT_REQUEST_V1.
Definition cap_for (act : string) : json :=
  let unsigned := self_signed false [] act "a/acme" "now" [] in
  cap_to_json (self_signed false [] act "a/acme" "now"
    (match to_nrf1_bytes (cap_signing_payload unsigned) with Ok b => b | Err _ => [] end)).
Definition snapshot_body (id start end_ : string) : json :=
  JObject [("@type", JString TYPE_AUDIT_LEDGER_SNAPSHOT_REQUEST_V1); ("@id", JString id); ("@world", JString "a/acme");
           ("@cap", cap_for "audit:snapshot");
           ("range", JObject [("start", JString start); ("end", JString end_)])]%string.

Definition s0 : ChipStore InMemoryBackend := mkStore mem_new no_indexes.
Definition s1 : ChipStore InMemoryBackend := (store_executed_chip s0 (snapshot_body "s1" "1" "12") "b3:r1" meta "t1").1.
Definition s2 : ChipStore InMemoryBackend := (store_executed_chip s1 (snapshot_body "s2" "123" "1234") "b3:r2" meta "t2").1.

Definition cid_of_body (body : json) : string := compute_cid (match to_nrf1_bytes body with Ok b => b | Err _ => [] end).
Definition chip1 : StoredChip :=
  stored_of (snapshot_body "s1" "1" "12") (cid_of_body (snapshot_body "s1" "1" "12")) "b3:r1" meta "t1".
Lemma s1_contents : mem_chips (backend s1) = <[cid chip1 := chip1]> ∅.
Proof. vm_cast_no_check (eq_refl (mem_chips (backend s1))). Defined.

Lemma s0_inv : mem_inv ty_of (backend s0).
Proof. apply mem_inv_new. Defined.

Lemma snapshots_stay_disjoint_witness : snapshots_disjoint (mem_chips (backend s2)).
Proof.
  apply (snapshots_stay_disjoint in_memory_backend (mem_inv ty_of) _ mem_chips (BackendSpec0 := in_memory_spec ty_of) s0).
  - apply s0_inv.
  - intros k1 k2 c1 c2 w id1 id2 r1 r2 H. done.
  - eapply rtc_l; [|eapply rtc_l; [|apply rtc_refl]].
    + eapply (audit_snapshot s0 s1 (snapshot_body "s1" "1" "12") "a/acme" _ "b3:r1" meta "t1" 0 "" (cid_of_body (snapshot_body "s1" "1" "12")));
        [vm_compute; reflexivity|reflexivity|reflexivity|evaluates].
    + eapply (audit_snapshot s1 s2 (snapshot_body "s2" "123" "1234") "a/acme" _ "b3:r2" meta "t2" 0 "" (cid_of_body (snapshot_body "s2" "123" "1234")));
        [vm_compute; reflexivity|reflexivity|reflexivity|evaluates].
Defined.

(** The same identifier, an overlapping range. *)
Lemma same_id_overlap_accepted_witness :
  audit_validate_for_check TYPE_AUDIT_LEDGER_SNAPSHOT_REQUEST_V1 (snapshot_body "s1" "1" "123") "a/acme" (Some s1) 0 "" =
  Ok (Snapshot (mkSnapshot (mkRange 1 3))).
Proof.
  eapply (same_id_overlap_accepted in_memory_backend (mem_inv ty_of) _ mem_chips (BackendSpec0 := in_memory_spec ty_of) s1
    (snapshot_body "s1" "1" "123") "a/acme" "s1").
  - destruct (run_ops_spec (BackendSpec0 := in_memory_spec ty_of) [OpPut chip1] mem_new (mem_inv_new ty_of)) as [H _];
      [repeat constructor|exact H].
  - reflexivity.
  - vm_compute. reflexivity.
  - reflexivity.
  - intros c. rewrite s1_contents. intros [[_ <-]|[_ H]]%lookup_insert_Some; [reflexivity|done].
Defined.

Lemma overlap_found : audit_validate_for_check TYPE_AUDIT_LEDGER_SNAPSHOT_REQUEST_V1 (snapshot_body "s2" "1" "123") "a/acme"
  (Some s1) 0 "" = Err (SnapshotOverlap "" "").
Proof. vm_compute. reflexivity. Qed.

(** A window that ends in a two-byte character. *)
Lemma window_panics : parse_window ("5" +:+ String (ascii_of_nat 194) (String (ascii_of_nat 181) "")) = Err AuditPanic.
Proof. reflexivity. Qed.
End AuditSample.
