(* ===== verification/TrRegistry.v ===== *)
(** * The transition registry ([transition_registry.rs])

    Which bytecode a transition runs: the chip's own directive, the overrides
    of the environment, or the default profile of the chip type. *)

From S2P Require Import Prelude RustStd RustStr Json Tlv Receipt.
Local Open Scope string_scope.
Local Open Scope list_scope.

(** ** Profiles *)

Inductive TrBytecodeProfile : Type := PassV1 | AuditV1 | NumericV1 | SiliconDefinitionV1 | SiliconCompileV1.

Definition profile_as_str (p : TrBytecodeProfile) : string :=
  match p with
  | PassV1 => "pass_v1"
  | AuditV1 => "audit_v1"
  | NumericV1 => "numeric_v1"
  | SiliconDefinitionV1 => "silicon_definition_v1"
  | SiliconCompileV1 => "silicon_compile_v1"
  end.

Definition profile_names : list (string * TrBytecodeProfile) :=
  [("pass_v1", PassV1); ("pass", PassV1); ("audit_v1", AuditV1); ("audit", AuditV1);
   ("numeric_v1", NumericV1); ("numeric", NumericV1); ("num_v1", NumericV1); ("num", NumericV1);
   ("silicon_definition_v1", SiliconDefinitionV1); ("silicon_definition", SiliconDefinitionV1);
   ("silicon_def", SiliconDefinitionV1); ("silicon_compile_v1", SiliconCompileV1); ("silicon_compile", SiliconCompileV1)].

Definition profile_parse (raw : string) : option TrBytecodeProfile :=
  map_get (to_ascii_lowercase (str_trim raw)) profile_names.

Definition default_profile_for (chip_type : string) : TrBytecodeProfile :=
  if existsb (String.eqb chip_type)
       ["ubl/app"; "ubl/user"; "ubl/tenant"; "ubl/membership"; "ubl/token"; "ubl/revoke"; "ubl/key.rotate"] then AuditV1
  else if existsb (String.eqb chip_type) ["ubl/payment"; "ubl/invoice"; "ubl/settlement"; "ubl/quote"] then NumericV1
  else if existsb (String.eqb chip_type) ["ubl/silicon.bit"; "ubl/silicon.circuit"; "ubl/silicon.chip"] then SiliconDefinitionV1
  else if String.eqb chip_type "ubl/silicon.compile" then SiliconCompileV1
  else PassV1.

(** The registry's own [tlv_instr]. *)
Definition registry_instr (op : Byte.byte) (payload : bytes) : bytes :=
  op :: to_be_bytes 2 (Z.of_nat (length payload) mod 2 ^ 16)%Z ++ payload.

Definition build_profile_bytecode (profile : TrBytecodeProfile) : bytes :=
  let push_input0 := registry_instr x12 (to_be_bytes 2 0) in
  match profile with
  | PassV1 | SiliconCompileV1 => push_input0 ++ registry_instr x10 []
  | AuditV1 => push_input0 ++ registry_instr x14 [] ++ registry_instr x11 [] ++ registry_instr x10 []
  | NumericV1 =>
      push_input0 ++ registry_instr x0c [] ++ registry_instr x03 [] ++ registry_instr x04 []
      ++ registry_instr x13 (as_bytes "amount") ++ registry_instr x1e (to_be_bytes 8 1000000)
      ++ registry_instr x1d [x00; x00; x00; x02; x00] ++ registry_instr x0d []
      ++ push_input0 ++ registry_instr x0e [] ++ registry_instr x10 []
  | SiliconDefinitionV1 =>
      push_input0 ++ registry_instr x0c [] ++ registry_instr x03 [] ++ registry_instr x0b []
      ++ registry_instr x11 [] ++ push_input0 ++ registry_instr x0e [] ++ registry_instr x10 []
  end.

(** ** The registry *)

Record TransitionResolution : Type := mkResolution { tr_bytecode : bytes; tr_source : string; tr_profile : TrBytecodeProfile }.

(** Texts of the libraries are left out of the messages. *)
Inductive TransitionRegistryError : Type :=
| InvalidHex
| InvalidProfile (raw : string)
| InvalidConfig (msg : string).

Record TransitionRegistry : Type := mkRegistry {
  bytecode_overrides : gmap string bytes;
  profile_overrides : gmap string TrBytecodeProfile }.

Definition registry_default : TransitionRegistry := mkRegistry ∅ ∅.

Inductive ChipTrDirective : Type :=
| BytecodeHex (hex : string)
| DirectProfile (p : TrBytecodeProfile).

Section Registry.
Context {HX : HexDecode} {SJ : SerdeJson}.

Definition parse_hex_bytecode (raw : string) : result TransitionRegistryError bytes :=
  ok_or (hex_decode (strip_whitespace raw)) InvalidHex.

Definition add_bytecode_override (m : gmap string bytes) (kv : string * json)
    : result TransitionRegistryError (gmap string bytes) :=
  hex_raw ← ok_or (as_str kv.2) (InvalidConfig ("bytecode for '" +:+ kv.1 +:+ "' must be string"));
  code ← parse_hex_bytecode hex_raw;
  Ok (<[kv.1 := code]> m).

Definition add_profile_override (m : gmap string TrBytecodeProfile) (kv : string * json)
    : result TransitionRegistryError (gmap string TrBytecodeProfile) :=
  profile_raw ← ok_or (as_str kv.2) (InvalidConfig ("profile for '" +:+ kv.1 +:+ "' must be string"));
  profile ← ok_or (profile_parse profile_raw) (InvalidProfile profile_raw);
  Ok (<[kv.1 := profile]> m).

(** A map of the environment: the entries of a JSON object, or nothing when
    the variable is not set. *)
Definition env_object (env : Environment) (var what : string) : result TransitionRegistryError (list (string * json)) :=
  match env var with
  | Err _ => Ok []
  | Ok raw =>
      map ← ok_or (from_slice (as_bytes raw)) (InvalidConfig "invalid JSON");
      ok_or (as_object map) (InvalidConfig (what +:+ " map must be object"))
  end.

Definition registry_from_env (env : Environment) : result TransitionRegistryError TransitionRegistry :=
  codes ← env_object env "UBL_TR_BYTECODE_MAP_JSON" "bytecode";
  codes ← try_fold add_bytecode_override ∅ codes;
  profiles ← env_object env "UBL_TR_PROFILE_MAP_JSON" "profile";
  profiles ← try_fold add_profile_override ∅ profiles;
  Ok (mkRegistry codes profiles).

Definition parse_chip_tr_directive (body : json) : result TransitionRegistryError (option ChipTrDirective) :=
  match get "@tr" body with
  | None => Ok None
  | Some tr =>
      tr ← ok_or (as_object tr) (InvalidConfig "@tr must be object");
      match map_get "bytecode_hex" tr ≫= as_str, map_get "profile" tr ≫= as_str with
      | Some _, Some _ => Err (InvalidConfig "@tr.bytecode_hex and @tr.profile are mutually exclusive")
      | Some hex_raw, None => Ok (Some (BytecodeHex hex_raw))
      | None, Some profile_raw =>
          profile ← ok_or (profile_parse profile_raw) (InvalidProfile profile_raw);
          Ok (Some (DirectProfile profile))
      | None, None => Ok None
      end
  end.

Definition tr_resolve (registry : TransitionRegistry) (chip_type : string) (body : json)
    : result TransitionRegistryError TransitionResolution :=
  directive ← parse_chip_tr_directive body;
  match directive with
  | Some (BytecodeHex hex_raw) =>
      code ← parse_hex_bytecode hex_raw;
      Ok (mkResolution code "chip:@tr.bytecode_hex" PassV1)
  | Some (DirectProfile profile) => Ok (mkResolution (build_profile_bytecode profile) "chip:@tr.profile" profile)
  | None =>
      match bytecode_overrides registry !! chip_type with
      | Some code => Ok (mkResolution code "env:UBL_TR_BYTECODE_MAP_JSON" PassV1)
      | None =>
          let profile := default (default_profile_for chip_type) (profile_overrides registry !! chip_type) in
          Ok (mkResolution (build_profile_bytecode profile)
                (match profile_overrides registry !! chip_type with
                 | Some _ => "env:UBL_TR_PROFILE_MAP_JSON"
                 | None => "profile:" +:+ profile_as_str profile
                 end) profile)
      end
  end.
End Registry.

(** ** Lemmas *)

Lemma registry_instr_tlv op payload : registry_instr op payload = tlv_instr op payload.
Proof. reflexivity. Qed.

Definition profile_program (p : TrBytecodeProfile) : list Instr :=
  match p with
  | PassV1 | SiliconCompileV1 => [mkInstr PushInput [x00; x00]; mkInstr EmitRc []]
  | AuditV1 => [mkInstr PushInput [x00; x00]; mkInstr Dup []; mkInstr Drop []; mkInstr EmitRc []]
  | NumericV1 =>
      [mkInstr PushInput [x00; x00]; mkInstr CasGet []; mkInstr JsonNormalize []; mkInstr JsonValidate [];
       mkInstr JsonGetKey (as_bytes "amount"); mkInstr NumToRat (to_be_bytes 8 1000000);
       mkInstr NumToDec [x00; x00; x00; x02; x00]; mkInstr SetRcBody [];
       mkInstr PushInput [x00; x00]; mkInstr AttachProof []; mkInstr EmitRc []]
  | SiliconDefinitionV1 =>
      [mkInstr PushInput [x00; x00]; mkInstr CasGet []; mkInstr JsonNormalize []; mkInstr CasPut [];
       mkInstr Drop []; mkInstr PushInput [x00; x00]; mkInstr AttachProof []; mkInstr EmitRc []]
  end.

Lemma profile_decodes p : decode_stream (build_profile_bytecode p) = Ok (profile_program p).
Proof. by destruct p; vm_compute. Qed.

(** A profile has the name it is printed with. *)
Lemma profile_roundtrip p : profile_parse (profile_as_str p) = Some p.
Proof. by destruct p; vm_compute. Qed.

(** ** Properties *)

Section Properties.
Context {HX : HexDecode} {SJ : SerdeJson}.

(** The order of resolution: the chip's bytecode, the chip's profile (never
    both), the bytecode of the environment, the profile of the environment, the
    default of the type.  Every profile's bytecode decodes to its program. *)
Theorem resolution_order registry chip_type body r :
  tr_resolve registry chip_type body = Ok r ->
  match parse_chip_tr_directive body with
  | Ok (Some (BytecodeHex hex)) => hex_decode (strip_whitespace hex) = Some (tr_bytecode r)
  | Ok (Some (DirectProfile p)) => decode_stream (tr_bytecode r) = Ok (profile_program p) /\ tr_profile r = p
  | Ok None =>
      match bytecode_overrides registry !! chip_type with
      | Some code => tr_bytecode r = code
      | None =>
          let p := default (default_profile_for chip_type) (profile_overrides registry !! chip_type) in
          decode_stream (tr_bytecode r) = Ok (profile_program p) /\ tr_profile r = p
      end
  | Err _ => False
  end.
Proof.
  unfold tr_resolve. destruct (parse_chip_tr_directive body) as [[[hex|p]|]|]; cbn [mbind result_bind]; [| | |done].
  - intros (code & Hc & [= <-])%result_bind_ok. unfold parse_hex_bytecode in Hc. by destruct (hex_decode _); [injection Hc as ->|].
  - intros [= <-]. split; [apply profile_decodes|done].
  - destruct (bytecode_overrides registry !! chip_type); intros [= <-]; [done|]. split; [apply profile_decodes|done].
Qed.
End Properties.
