(* ===== verification/EventBus.v ===== *)
(** * The event bus ([event_bus.rs])

    Events about receipts and the bus that broadcasts them.  The channel is
    the log of what was sent (receivers that lag behind lose its head). *)

From S2P Require Import Prelude RustStd Json Types Policy Receipt.
Local Open Scope string_scope.
Local Open Scope list_scope.

Record ReceiptEvent : Type := mkEvent {
  ev_at_type : string;
  ev_event_type : string;
  ev_schema_version : string;
  ev_idempotency_key : string;
  ev_receipt_cid : string;
  ev_receipt_type : string;
  ev_decision : option string;
  ev_duration_ms : option Z;
  ev_timestamp : string;
  ev_pipeline_stage : string;
  ev_fuel_used : option Z;
  ev_rb_count : option Z;
  ev_artifact_cids : list string;
  ev_metadata : json;
  ev_input_cid : option string;
  ev_output_cid : option string;
  ev_binary_hash : option string;
  ev_build_meta : option json;
  ev_world : option string;
  ev_actor : option string;
  ev_subject_did : option string;
  ev_knock_cid : option string;
  ev_latency_ms : option Z }.

Record StageEventContext : Type := mkContext {
  cx_decision : option string;
  cx_duration_ms : option Z;
  cx_world : option string;
  cx_input_cid : option string;
  cx_binary_hash : option string;
  cx_build_meta : option json;
  cx_actor : option string;
  cx_subject_did : option string;
  cx_knock_cid : option string }.

Definition EVENT_SCHEMA_VERSION : string := "1.0".

(** [now]: the text of the clock reading. *)
Definition event_new (event_type receipt_cid receipt_type pipeline_stage : string) (metadata : json) (now : string)
    : ReceiptEvent :=
  mkEvent "ubl/event" event_type EVENT_SCHEMA_VERSION receipt_cid receipt_cid receipt_type None None now pipeline_stage
    None None [] metadata None None None None None None None None None.

(** The number of reasoning bits in the [policy_trace] of a receipt body. *)
Definition trace_bits (trace : list json) : Z :=
  foldr Z.add 0%Z (omap (fun p => l ← get "rb_results" p ≫= as_array; Some (Z.of_nat (length l))) trace).

Definition from_stage_receipt (receipt_cid receipt_type : string) (metadata : json) (pipeline_stage : string)
    (ctx : StageEventContext) (now : string) : ReceiptEvent :=
  mkEvent "ubl/event" ("ubl.receipt." +:+ pipeline_stage) EVENT_SCHEMA_VERSION receipt_cid receipt_cid receipt_type
    (cx_decision ctx) (cx_duration_ms ctx) now pipeline_stage
    ((get "vm_state" metadata ≫= get "fuel_used") ≫= as_u64)
    (trace_bits <$> (get "policy_trace" metadata ≫= as_array))
    (match get "body_cid" metadata ≫= as_str with Some c => [c] | None => [] end)
    metadata (cx_input_cid ctx) (Some receipt_cid) (cx_binary_hash ctx) (cx_build_meta ctx) (cx_world ctx)
    (cx_actor ctx) (cx_subject_did ctx) (cx_knock_cid ctx) (cx_duration_ms ctx).

Definition stage_to_wire (s : PipelineStage) : string :=
  match s with Knock => "knock" | WriteAhead => "wa" | Check => "check" | Transition => "tr" | WriteFinished => "wf" end.

Definition decision_to_wire (d : Decision) : string :=
  match d with Allow => "allow" | DenyD => "deny" | RequireD => "require" end.

(** [From<&UnifiedReceipt>]. *)
Definition event_of_receipt (r : UnifiedReceipt) (now : string) : ReceiptEvent :=
  let last_stage := last (stages r) in
  let pipeline_stage := match last_stage with Some s => stage_to_wire (stage s) | None => "wf" end in
  let duration := duration_ms <$> last_stage in
  mkEvent "ubl/event" ("ubl.receipt." +:+ pipeline_stage) EVENT_SCHEMA_VERSION
    (cid_as_str (receipt_cid r)) (cid_as_str (receipt_cid r)) (receipt_type r)
    (Some (decision_to_wire (decision r))) duration now pipeline_stage
    (last_stage ≫= fuel_used)
    (s ← last_stage;
     match policy_trace s with
     | [] => None
     | l => Some (foldr Z.add 0%Z ((fun e => Z.of_nat (length (te_rb_results e))) <$> l))
     end)
    [] (receipt_to_json r) (input_cid <$> last_stage)
    (match last_stage ≫= output_cid with Some c => Some c | None => Some (cid_as_str (receipt_cid r)) end)
    (binary_hash <$> rt r) ((fun i => json_build (build i)) <$> rt r)
    (Some (world_as_str (world r))) (Some (did_as_str (did r))) (subject_did r) (cid_as_str <$> knock_cid r) duration.

(** ** The bus *)

Record EventBus : Type := mkBus { sent : list ReceiptEvent; event_count : Z; seen_keys : gset string }.

Definition bus_new : EventBus := mkBus [] 0 ∅.

Definition publish_stage_event (e : ReceiptEvent) (b : EventBus) : EventBus :=
  mkBus (sent b ++ [e]) (event_count b + 1) (seen_keys b).

Definition publish_receipt (e : ReceiptEvent) (b : EventBus) : EventBus :=
  if bool_decide (ev_idempotency_key e ∈ seen_keys b) then b
  else publish_stage_event e (mkBus (sent b) (event_count b) ({[ev_idempotency_key e]} ∪ seen_keys b)).

Definition dedup_count (b : EventBus) : nat := size (seen_keys b).

(** ** Properties *)

(** What a history of [publish_receipt] calls delivers: the first event of
    each idempotency key, in order, and nothing else; the counters agree. *)
Theorem receipts_published_once events :
  let b := fold_left (fun b e => publish_receipt e b) events bus_new in
  NoDup (ev_idempotency_key <$> sent b) /\
  (forall k, k ∈ ev_idempotency_key <$> sent b <-> k ∈ ev_idempotency_key <$> events) /\
  sent b `sublist_of` events /\ event_count b = Z.of_nat (length (sent b)) /\ dedup_count b = length (sent b).
Proof.
  cbn zeta. induction events as [|e events IH] using rev_ind.
  - split_and!; try done. constructor.
  - rewrite fold_left_app. cbn [fold_left]. set (b := fold_left _ events bus_new) in *.
    destruct IH as (Hn & Hk & Hs & Hc & Hd).
    assert (seen_keys b = list_to_set (ev_idempotency_key <$> sent b)) as Hseen.
    { subst b. clear. induction events as [|e events IH] using rev_ind; [done|]. rewrite fold_left_app. cbn [fold_left].
      revert IH. generalize (fold_left (fun b e => publish_receipt e b) events bus_new). intros b IH.
      unfold publish_receipt. case_bool_decide; [done|]. unfold publish_stage_event. cbn [seen_keys sent].
      rewrite IH, fmap_app, list_to_set_app_L. cbn. set_solver. }
    unfold publish_receipt. case_bool_decide as Hin; rewrite Hseen, elem_of_list_to_set in Hin.
    + split_and!; try done.
      * intros k. rewrite fmap_app, elem_of_app. cbn. rewrite list_elem_of_singleton, <- Hk. naive_solver.
      * by apply sublist_inserts_r.
    + unfold publish_stage_event, dedup_count. cbn [sent event_count seen_keys].
      rewrite !fmap_app, !length_app. cbn [fmap list_fmap length]. split_and!.
      * apply NoDup_app. split; [done|]. split; [|apply NoDup_singleton].
        intros k Hk1 Hk2%list_elem_of_singleton. by subst.
      * intros k. rewrite !elem_of_app, Hk. done.
      * by apply sublist_app.
      * lia.
      * rewrite size_union by (rewrite Hseen; set_solver). rewrite size_singleton. unfold dedup_count in Hd. lia.
Qed.

(** Stage events are not deduplicated: publishing the same event twice
    delivers it twice. *)
Theorem stage_events_repeat e b :
  sent (publish_stage_event e (publish_stage_event e b)) = sent b ++ [e; e].
Proof. cbn. by rewrite <- app_assoc. Qed.
