(* ===== verification/Ledger.v ===== *)
(** * The ledgers ([ledger.rs], [ubl_ledger])

    The audit ledger: entries, their NDJSON lines, and the writers: none, in
    memory, and one append-only file per application and tenant.  A file path
    is the base directory with the joined segments; whether an append to a file
    fails is an argument.  In Module [Storage] the crate that keeps the bytes of
    chips and receipts, in memory or in one file. *)

From S2P Require Import Prelude RustStd RustStr Json TextFacts Receipt Envelope.
Local Open Scope string_scope.
Local Open Scope list_scope.

Inductive LedgerEvent : Type := ReceiptCreated | GhostCreated | GhostPromoted | GhostExpired.

Definition ledger_event_str (e : LedgerEvent) : string :=
  match e with
  | ReceiptCreated => "receipt_created"
  | GhostCreated => "ghost_created"
  | GhostPromoted => "ghost_promoted"
  | GhostExpired => "ghost_expired"
  end.

Record LedgerEntry : Type := mkEntry {
  le_ts : string; le_event : LedgerEvent; le_app : string; le_tenant : string; le_chip_cid : string;
  le_receipt_cid : string; le_decision : string; le_did : option string; le_kid : option string }.

Inductive LedgerError : Type := LedgerIo | LedgerSerialization.

Definition entry_to_json (e : LedgerEntry) : json :=
  JObject ([("ts", JString (le_ts e)); ("event", JString (ledger_event_str (le_event e))); ("app", JString (le_app e));
            ("tenant", JString (le_tenant e)); ("chip_cid", JString (le_chip_cid e));
            ("receipt_cid", JString (le_receipt_cid e)); ("decision", JString (le_decision e))]
           ++ match le_did e with Some d => [("did", JString d)] | None => [] end
           ++ match le_kid e with Some k => [("kid", JString k)] | None => [] end).

(** The interface of the writers: a state and an append that can fail. *)
Class LedgerWriter (L : Type) : Type := { ledger_append : LedgerEntry -> L -> L * result LedgerError unit }.

(** ** No ledger *)

Inductive NullLedger : Type := null_ledger.
#[export] Instance null_writer : LedgerWriter NullLedger := {| ledger_append _ l := (l, Ok tt) |}.

(** ** In memory *)

Definition InMemoryLedger : Type := list LedgerEntry.
#[export] Instance memory_writer : LedgerWriter InMemoryLedger := {| ledger_append e l := (l ++ [e], Ok tt) |}.

(** ** Files *)

Record NdjsonLedger : Type := mkNdjson { base_dir : list string; files : gmap (list string) string; next_fails : list bool }.

(** [PathBuf::join] with relative paths. *)
Definition ledger_path (base : list string) (app tenant : string) : list string :=
  base ++ [app; tenant; "receipts.ndjson"].

Definition newline : string := String "010" EmptyString.

(** The head of [next_fails] says whether the next append hits an input/output
    error; nothing is written then. *)
Definition ndjson_append `{SerdeJson} (e : LedgerEntry) (l : NdjsonLedger) : NdjsonLedger * result LedgerError unit :=
  let line := value_to_string (entry_to_json e) +:+ newline in
  let path := ledger_path (base_dir l) (le_app e) (le_tenant e) in
  match next_fails l with
  | true :: rest => (mkNdjson (base_dir l) (files l) rest, Err LedgerIo)
  | fails =>
      (mkNdjson (base_dir l) (<[path := default "" (files l !! path) +:+ line]> (files l)) (tail fails), Ok tt)
  end.
#[export] Instance ndjson_writer `{SerdeJson} : LedgerWriter NdjsonLedger := {| ledger_append := ndjson_append |}.

(** [PathBuf] resolution by the file system: [..] leaves a directory. *)
Fixpoint resolve_path (acc path : list string) : list string :=
  match path with
  | [] => acc
  | ".." :: rest => resolve_path (removelast acc) rest
  | p :: rest => resolve_path (acc ++ [p]) rest
  end.

(** ** Properties *)

(** The ledger only appends: whatever is written, and whether or not writes
    fail, every file keeps what it had as a prefix, and the file of an
    application and tenant grows by exactly the lines of its entries whose
    appends succeeded. *)
Theorem ledger_append_only `{SerdeJson} e l l' r :
  ndjson_append e l = (l', r) ->
  base_dir l' = base_dir l /\
  (r = Err LedgerIo -> files l' = files l) /\
  (r = Ok tt -> forall path, default "" (files l' !! path) =
     default "" (files l !! path) +:+
     (if bool_decide (path = ledger_path (base_dir l) (le_app e) (le_tenant e))
      then value_to_string (entry_to_json e) +:+ newline else "")).
Proof.
  unfold ndjson_append. destruct (next_fails l) as [|[] fails]; intros [= <- <-]; (split; [done|]); (split; [done|]); try done;
    intros _ path; cbn [files]; (case_bool_decide as E; [rewrite E, lookup_insert_eq; done|]);
    rewrite lookup_insert_ne by done; by rewrite str_app_nil.
Qed.

(** An admitted world can lead out of the ledger's directory: nothing excludes
    dots as a segment. *)
Theorem ledger_path_escapes :
  validate_world "a/../t/.." = Ok tt /\ parse_world "a/../t/.." = Some ("..", "..") /\
  resolve_path [] (ledger_path ["data"; "ledger"] ".." "..") = ["receipts.ndjson"].
Proof. by vm_compute. Qed.

(** ** The storage crate ([ubl_ledger])

    Records of chips and receipts, in memory or in one NDJSON file.  A call of
    the file system can fail, and a failing write has written a part of its
    text: the head of [io] is the number of bytes, [None] for a call that
    succeeds. *)

Module Storage.

Inductive StorageCause : Type := FileError | RecordError | HexError.
Inductive StorageError : Type := NotFound | StorageFailed (cause : StorageCause).

Inductive Kind : Type := ChipRecord | ReceiptRecord.
Definition kind_str (k : Kind) : string := match k with ChipRecord => "chip" | ReceiptRecord => "receipt" end.

(** *** In memory *)

Record MemLedger : Type := mkMem { chip_store : gmap string bytes; receipt_store : gmap string bytes }.
Definition mem_store_chip (cid : string) (data : bytes) (l : MemLedger) : MemLedger * result StorageError unit :=
  (mkMem (<[cid := data]> (chip_store l)) (receipt_store l), Ok tt).
Definition mem_get_chip (cid : string) (l : MemLedger) : result StorageError bytes := ok_or (chip_store l !! cid) NotFound.
Definition mem_put_receipt (cid : string) (data : bytes) (l : MemLedger) : MemLedger * result StorageError unit :=
  (mkMem (chip_store l) (<[cid := data]> (receipt_store l)), Ok tt).
Definition mem_get_receipt (cid : string) (l : MemLedger) : option bytes := receipt_store l !! cid.

(** *** In a file *)

Definition DEFAULT_LEDGER_PATH : string := "./data/ubl_ledger.ndjson".
Definition storage_path (env : Environment) : string :=
  match env "UBL_LEDGER_NDJSON_PATH" with Ok p => p | Err _ => DEFAULT_LEDGER_PATH end.

Record Disk : Type := mkDisk { texts : gmap string string; io : list (option nat) }.

(** A call that does [f] when it succeeds and [g n] when it fails. *)
Definition io_call (f : gmap string string -> gmap string string) (g : nat -> gmap string string -> gmap string string) (d : Disk) :
    Disk * result StorageError unit :=
  match io d with
  | Some n :: rest => (mkDisk (g n (texts d)) rest, Err (StorageFailed FileError))
  | calls => (mkDisk (f (texts d)) (tail calls), Ok tt)
  end.
Definition append_text (path text : string) (t : gmap string string) : gmap string string :=
  <[path := default "" (t !! path) +:+ text]> t.
Definition create_dir : Disk -> Disk * result StorageError unit := io_call (fun t => t) (fun _ t => t).
Definition open_append (path : string) : Disk -> Disk * result StorageError unit := io_call (append_text path "") (fun _ t => t).
Definition write_all (path text : string) : Disk -> Disk * result StorageError unit :=
  io_call (append_text path text) (fun n => append_text path (substring 0 n text)).
Definition flush : Disk -> Disk * result StorageError unit := io_call (fun t => t) (fun _ t => t).

Definition and_then (m k : Disk -> Disk * result StorageError unit) (d : Disk) : Disk * result StorageError unit :=
  match m d with (d', Ok _) => k d' | (d', Err e) => (d', Err e) end.

Section File.
Context {SJ : SerdeJson} {HX : HexDecode}.

Definition record_to_json (kind cid data_hex : string) : json :=
  JObject [("kind", JString kind); ("cid", JString cid); ("data_hex", JString data_hex)].
Definition record_line (k : Kind) (cid : string) (data : bytes) : string :=
  value_to_string (record_to_json (kind_str k) cid (hex_encode data)).

Definition append_record (env : Environment) (k : Kind) (cid : string) (data : bytes) : Disk -> Disk * result StorageError unit :=
  let path := storage_path env in
  and_then create_dir (and_then (open_append path) (and_then (write_all path (record_line k cid data))
    (and_then (write_all path newline) flush))).

(** [serde_json::from_str::<NdjsonRecord>], through a [Value]. *)
Definition read_record (line : string) : option (string * string * string) :=
  v ← from_slice (as_bytes line);
  if struct_of 3 v then
    kind ← str_at "kind" 0 v; cid ← str_at "cid" 1 v; data ← str_at "data_hex" 2 v; Some (kind, cid, data)
  else None.

Fixpoint find_in_lines (kind cid : string) (lines : list string) (found : option bytes) : result StorageError (option bytes) :=
  match lines with
  | [] => Ok found
  | line :: rest =>
      if blank line then find_in_lines kind cid rest found
      else
        match read_record line with
        | None => Err (StorageFailed RecordError)
        | Some (k, c, h) =>
            if String.eqb k kind && String.eqb c cid then
              match hex_decode h with
              | None => Err (StorageFailed HexError)
              | Some bs => find_in_lines kind cid rest (Some bs)
              end
            else find_in_lines kind cid rest found
        end
  end.

(** [lines()], up to carriage returns, which are white space to the reader, and
    an empty last piece, which is blank. *)
Definition file_lines (content : string) : list string := split_on "010" content.

(** [read_to_string]: a failing call and a text that is not UTF-8 are errors, a
    missing file is not. *)
Definition find_record (env : Environment) (k : Kind) (cid : string) (d : Disk) : result StorageError (option bytes) :=
  match io d with
  | Some _ :: _ => Err (StorageFailed FileError)
  | _ =>
      match texts d !! storage_path env with
      | None => Ok None
      | Some content =>
          if utf8_valid (as_bytes content) then find_in_lines (kind_str k) cid (file_lines content) None
          else Err (StorageFailed FileError)
      end
  end.

Definition store_chip (env : Environment) := append_record env ChipRecord.
Definition get_chip (env : Environment) (cid : string) (d : Disk) : result StorageError bytes :=
  found ← find_record env ChipRecord cid d; ok_or found NotFound.
Definition put_receipt (env : Environment) := append_record env ReceiptRecord.
Definition get_receipt (env : Environment) (cid : string) (d : Disk) : option bytes :=
  match find_record env ReceiptRecord cid d with Ok found => found | Err _ => None end.

(** *** Properties *)

Lemma io_call_grows f g d path :
  (forall t, exists s, default "" (f t !! path) = default "" (t !! path) +:+ s) ->
  (forall n t, exists s, default "" (g n t !! path) = default "" (t !! path) +:+ s) ->
  exists s, default "" (texts (io_call f g d).1 !! path) = default "" (texts d !! path) +:+ s.
Proof. intros Hf Hg. unfold io_call. destruct (io d) as [|[n|] rest]; cbn; auto. Qed.

Lemma append_grows p text t path : exists s, default "" (append_text p text t !! path) = default "" (t !! path) +:+ s.
Proof.
  unfold append_text. destruct (decide (path = p)) as [->|Hne]; [rewrite lookup_insert_eq; by exists text|].
  rewrite lookup_insert_ne by done. exists "". by rewrite str_app_nil.
Qed.
Lemma same_grows (t : gmap string string) path : exists s, default "" (t !! path) = default "" (t !! path) +:+ s.
Proof. exists "". by rewrite str_app_nil. Qed.

Lemma then_grows m k path :
  (forall d, exists s, default "" (texts (m d).1 !! path) = default "" (texts d !! path) +:+ s) ->
  (forall d, exists s, default "" (texts (k d).1 !! path) = default "" (texts d !! path) +:+ s) ->
  forall d, exists s, default "" (texts (and_then m k d).1 !! path) = default "" (texts d !! path) +:+ s.
Proof.
  intros Hm Hk d. unfold and_then. destruct (Hm d) as [s Hs]. destruct (m d) as [d' [u|e]]; cbn in *; [|by exists s].
  destruct (Hk d') as [s' Hs']. exists (s +:+ s'). by rewrite Hs', Hs, str_app_assoc.
Qed.

(** Whatever calls fail, a file keeps what it had. *)
Theorem storage_appends_only env k cid data d path :
  exists s, default "" (texts (append_record env k cid data d).1 !! path) = default "" (texts d !! path) +:+ s.
Proof.
  unfold append_record. revert d.
  repeat (apply then_grows; [intros d; apply io_call_grows; eauto using append_grows, same_grows|]).
  intros d. apply io_call_grows; eauto using same_grows.
Qed.

(** A record whose line reads back and is one line of text. *)
Definition readable (k : Kind) (cid : string) (data : bytes) : Prop :=
  from_slice (as_bytes (record_line k cid data)) = Some (record_to_json (kind_str k) cid (hex_encode data)) /\
  contains_char "010" (record_line k cid data) = false /\ blank (record_line k cid data) = false /\
  utf8_valid (as_bytes (record_line k cid data)) = true /\ hex_decode (hex_encode data) = Some data.

Record stored : Type := mkStored { s_kind : Kind; s_cid : string; s_data : bytes }.
Definition readable_op (o : stored) : Prop := readable (s_kind o) (s_cid o) (s_data o).
Definition file_op (env : Environment) (d : Disk) (o : stored) : Disk := (append_record env (s_kind o) (s_cid o) (s_data o) d).1.
Definition mem_op (l : MemLedger) (o : stored) : MemLedger :=
  (match s_kind o with ChipRecord => mem_store_chip | ReceiptRecord => mem_put_receipt end (s_cid o) (s_data o) l).1.

Definition op_text (o : stored) : string := record_line (s_kind o) (s_cid o) (s_data o) +:+ newline.
Definition file_text (l : list stored) : string := foldr (fun o s => op_text o +:+ s) "" l.
Definition last_of (k : Kind) (cid : string) (l : list stored) (found : option bytes) : option bytes :=
  fold_left (fun f o => if String.eqb (kind_str (s_kind o)) (kind_str k) && String.eqb (s_cid o) cid then Some (s_data o) else f) l found.

Lemma append_twice path a b t : append_text path b (append_text path a t) = append_text path (a +:+ b) t.
Proof. unfold append_text. rewrite lookup_insert_eq, insert_insert_eq. cbn. by rewrite str_app_assoc. Qed.

Lemma append_run env o t :
  append_record env (s_kind o) (s_cid o) (s_data o) (mkDisk t []) = (mkDisk (append_text (storage_path env) (op_text o) t) [], Ok tt).
Proof. unfold append_record, and_then, create_dir, open_append, write_all, flush, io_call. cbn [io texts tail]. by rewrite !append_twice. Qed.
Lemma append_healthy env o t : file_op env (mkDisk t []) o = mkDisk (append_text (storage_path env) (op_text o) t) [].
Proof. unfold file_op. by rewrite append_run. Qed.

Lemma history_text env l o t :
  fold_left (file_op env) (o :: l) (mkDisk t []) = mkDisk (append_text (storage_path env) (file_text (o :: l)) t) [].
Proof.
  revert o t. induction l as [|o' l IH]; intros o t; cbn [fold_left]; rewrite append_healthy.
  - cbn. by rewrite str_app_nil.
  - cbn [fold_left] in IH. rewrite IH, append_twice. done.
Qed.

Lemma read_back k cid h line : from_slice (as_bytes line) = Some (record_to_json k cid h) -> read_record line = Some (k, cid, h).
Proof. unfold read_record. by intros ->. Qed.

Lemma find_history k cid l found : Forall readable_op l ->
  find_in_lines (kind_str k) cid (file_lines (file_text l)) found = Ok (last_of k cid l found).
Proof.
  intros H. revert found. induction H as [|o l (Hr & Hn & Hb & _ & Hx) Hl IH]; intros found; [done|].
  change (file_text (o :: l)) with (op_text o +:+ file_text l). unfold op_text, file_lines. rewrite str_app_assoc.
  change (newline +:+ file_text l) with (String "010" (file_text l)). rewrite split_on_app by done. cbn [find_in_lines].
  rewrite Hb, (read_back _ _ _ _ Hr). cbn [last_of fold_left].
  destruct (_ && _); [rewrite Hx|]; apply IH.
Qed.

Lemma text_utf8 l : Forall readable_op l -> utf8_valid (as_bytes (file_text l)) = true.
Proof.
  induction 1 as [|o l (_ & _ & _ & Hu & _) Hl IH]; [done|]. change (file_text (o :: l)) with (op_text o +:+ file_text l).
  apply str_wf_app; [|done]. by apply str_wf_app.
Qed.

Definition mem_map (k : Kind) (l : MemLedger) : gmap string bytes := match k with ChipRecord => chip_store l | ReceiptRecord => receipt_store l end.

Lemma last_of_mem k cid l m : last_of k cid l (mem_map k m !! cid) = mem_map k (fold_left mem_op l m) !! cid.
Proof.
  revert m. induction l as [|[k' c' b'] l IH]; intros m; [done|]. cbn [last_of fold_left]. rewrite <- IH. unfold last_of. f_equal. cbn [s_kind s_cid s_data].
  destruct k, k'; cbn; try done; (destruct (String.eqb_spec c' cid) as [->|Hne]; [by rewrite lookup_insert_eq|by rewrite lookup_insert_ne]).
Qed.

(** The ledger file and the ledger in memory answer alike: from an empty disk
    without failures, any history of readable records leaves a file in which
    every chip and every receipt is what was last stored under its CID. *)
Theorem file_agrees_with_memory env l : Forall readable_op l ->
  let d := fold_left (file_op env) l (mkDisk ∅ []) in
  let m := fold_left mem_op l (mkMem ∅ ∅) in
  (forall cid, get_chip env cid d = mem_get_chip cid m) /\ (forall cid, get_receipt env cid d = mem_get_receipt cid m).
Proof.
  intros H d m. assert (Hf : forall k cid, find_record env k cid d = Ok (mem_map k m !! cid)).
  { intros k cid. unfold d, m. rewrite <- last_of_mem. assert (E : mem_map k (mkMem ∅ ∅) !! cid = None) by by destruct k.
    rewrite E. destruct l as [|o l]; [done|]. rewrite history_text. unfold find_record. cbn [io texts]. unfold append_text.
    rewrite lookup_insert_eq, lookup_empty. cbn [default from_option]. rewrite str_app_nil_l, text_utf8 by done. by apply find_history. }
  split; intros cid.
  - unfold get_chip. by rewrite Hf.
  - unfold get_receipt. by rewrite Hf.
Qed.

(** A write that fails between a record and its newline takes the ledger away:
    the next record, although it is acknowledged, ends up on the same line, and
    since two records are not one JSON text every later lookup fails, of a
    receipt by finding nothing. *)
Theorem torn_line_takes_ledger env o1 o2 t :
  texts t !! storage_path env = None -> io t = [None; None; None; Some 0%nat] ->
  readable_op o1 -> readable_op o2 ->
  from_slice (as_bytes (record_line (s_kind o1) (s_cid o1) (s_data o1) +:+ record_line (s_kind o2) (s_cid o2) (s_data o2))) = None ->
  exists t1 t2,
    append_record env (s_kind o1) (s_cid o1) (s_data o1) t = (t1, Err (StorageFailed FileError)) /\
    append_record env (s_kind o2) (s_cid o2) (s_data o2) t1 = (t2, Ok tt) /\
    (forall cid, get_chip env cid t2 = Err (StorageFailed RecordError)) /\ forall cid, get_receipt env cid t2 = None.
Proof.
  intros Ht Hio (_ & N1 & B1 & U1 & _) (_ & N2 & B2 & U2 & _) Hj. destruct t as [t l]. cbn in Ht, Hio. subst l.
  exists (mkDisk (append_text (storage_path env) (record_line (s_kind o1) (s_cid o1) (s_data o1)) t) []). eexists.
  split; [|rewrite append_run, append_twice; split; [reflexivity|]].
  { unfold append_record, and_then, create_dir, open_append, write_all, flush, io_call. cbn [io texts tail substring]. by rewrite !append_twice, str_app_nil. }
  assert (Hf : forall k cid, find_record env k cid (mkDisk (append_text (storage_path env)
    (record_line (s_kind o1) (s_cid o1) (s_data o1) +:+ op_text o2) t) []) = Err (StorageFailed RecordError)).
  { intros k cid. unfold find_record. cbn [io texts]. unfold append_text. rewrite lookup_insert_eq, Ht. cbn [default].
    rewrite str_app_nil_l. assert (Hu : str_wf (record_line (s_kind o1) (s_cid o1) (s_data o1) +:+ op_text o2)).
    { apply str_wf_app; [done|]. by apply str_wf_app. }
    rewrite Hu. unfold op_text, file_lines. rewrite <- str_app_assoc. change newline with (String "010" ""). rewrite split_on_app by by rewrite contains_char_app, N1.
    cbn [find_in_lines]. unfold blank in B1 |- *. rewrite chars_app, forallb_app, B1 by done. cbn [andb]. unfold read_record. by rewrite Hj. }
  split; intros cid.
  - unfold get_chip. by rewrite Hf.
  - unfold get_receipt. by rewrite Hf.
Qed.
End File.

(** *** Witnesses *)

Module StorageSample.
(** A record is written with bars between its fields. *)
#[local] Instance bars : SerdeJson := {|
  value_to_string v := match v with
    | JObject [(_, JString k); (_, JString c); (_, JString h)] => k +:+ "|" +:+ c +:+ "|" +:+ h | _ => "" end;
  from_slice bs := match split_on "|" (string_of_list_byte bs) with [k; c; h] => Some (record_to_json k c h) | _ => None end;
  to_vec _ := [] |}.
#[local] Instance one_byte : HexDecode := {| hex_decode h := Some [as_u8 (unhex_byte h)] |}.

Definition no_env : Environment := fun _ => Err NotPresent.
Definition chip_1 : stored := mkStored ChipRecord "b3:1" [x61].
Definition chip_2 : stored := mkStored ChipRecord "b3:1" [x62].
Definition receipt_1 : stored := mkStored ReceiptRecord "b3:1" [x63].

Lemma stored_readable : Forall readable_op [chip_1; receipt_1; chip_2].
Proof. repeat constructor. Qed.

Lemma file_agrees_with_memory_witness :
  get_chip no_env "b3:1" (fold_left (file_op no_env) [chip_1; receipt_1; chip_2] (mkDisk ∅ [])) = Ok [x62].
Proof. rewrite (proj1 (file_agrees_with_memory no_env _ stored_readable)). reflexivity. Defined.

Lemma torn_line_takes_ledger_witness : exists t1 t2,
  append_record no_env ChipRecord "b3:1" [x61] (mkDisk ∅ [None; None; None; Some 0%nat]) = (t1, Err (StorageFailed FileError)) /\
  append_record no_env ReceiptRecord "b3:1" [x63] t1 = (t2, Ok tt) /\ get_receipt no_env "b3:1" t2 = None.
Proof.
  destruct (torn_line_takes_ledger no_env chip_1 receipt_1 (mkDisk ∅ [None; None; None; Some 0%nat])) as (t1 & t2 & H1 & H2 & _ & H4).
  - reflexivity.
  - reflexivity.
  - repeat constructor.
  - repeat constructor.
  - reflexivity.
  - exists t1, t2. split_and!; [exact H1|exact H2|apply H4].
Defined.
End StorageSample.
End Storage.
