(* ===== verification/Advisory.v ===== *)
(** * Advisory chips and passports ([advisory.rs], [ai_passport.rs])

    What the advisory hooks of the pipeline produce: advisories, their chip
    bodies, and the engine with its counter of identifiers; the passports that
    say what a language model may do. *)

From S2P Require Import Prelude RustStd RustStr Json Receipt.
Local Open Scope string_scope.
Local Open Scope list_scope.
Local Open Scope Z_scope.

(** [str::to_uppercase]. *)
Class StrUpper : Type := { to_uppercase : string -> string }.

Inductive AdvisoryHook : Type := PostCheck | PostWf | OnDemand.
Definition hook_display (h : AdvisoryHook) : string :=
  match h with PostCheck => "post_check" | PostWf => "post_wf" | OnDemand => "on_demand" end.

Record Advisory : Type := mkAdvisory {
  adv_passport_cid : string; adv_action : string; adv_input_cid : string; adv_output : json;
  adv_confidence : Z; adv_model : string; adv_hook : AdvisoryHook }.

Inductive AdvisoryError : Type := AdvMissingField (field : string) | InvalidPassport (msg : string).

Definition advisory_chip_body (a : Advisory) (id world : string) : json :=
  JObject [("@type", JString "ubl/advisory"); ("@id", JString id); ("@ver", JString "1.0"); ("@world", JString world);
           ("passport_cid", JString (adv_passport_cid a)); ("action", JString (adv_action a));
           ("input_cid", JString (adv_input_cid a)); ("output", adv_output a);
           ("confidence", json_i64 (adv_confidence a)); ("model", JString (adv_model a));
           ("hook", JString (hook_display (adv_hook a)))].

Definition adv_field (body : json) (k : string) : result AdvisoryError string :=
  ok_or (get k body ≫= as_str) (AdvMissingField k).

Definition hook_parse (o : option string) : AdvisoryHook :=
  match o with
  | Some s => if String.eqb s "post_check" then PostCheck else if String.eqb s "post_wf" then PostWf else OnDemand
  | None => OnDemand
  end.

Definition advisory_from_chip_body (body : json) : result AdvisoryError Advisory :=
  passport ← adv_field body "passport_cid";
  action ← adv_field body "action";
  input ← adv_field body "input_cid";
  Ok (mkAdvisory passport action input (default JNull (get "output" body))
        (default 0 (get "confidence" body ≫= as_i64)) (default "unknown" (get "model" body ≫= as_str))
        (hook_parse (get "hook" body ≫= as_str))).

(** ** The engine *)

Record AdvisoryEngine : Type := mkEngine { eng_passport_cid : string; eng_model : string; eng_world : string; eng_counter : Z }.

Definition engine_new (passport model world : string) : AdvisoryEngine := mkEngine passport model world 0.

Definition next_id (e : AdvisoryEngine) : string * AdvisoryEngine :=
  ("advisory-" +:+ u_to_string (eng_counter e),
   mkEngine (eng_passport_cid e) (eng_model e) (eng_world e) ((eng_counter e + 1) mod 2 ^ 64)).

Definition classify_chip_type (t : string) : string :=
  if starts_with "ubl/user" t then "identity"
  else if starts_with "ubl/token" t then "auth"
  else if starts_with "ubl/policy" t then "governance"
  else if starts_with "ubl/ai.passport" t then "ai_identity"
  else if starts_with "ubl/advisory" t then "ai_advisory"
  else if starts_with "ubl/app" t then "application"
  else if starts_with "ubl/tenant" t then "tenant"
  else "general".

Section Engine.
Context {SU : StrUpper}.

Definition post_check_advisory (e : AdvisoryEngine) (input_cid decision reason : string) (policy_count : nat) : Advisory :=
  mkAdvisory (eng_passport_cid e) "explain_check" input_cid
    (JObject [("decision", JString decision); ("reason", JString reason);
              ("policy_count", JNumber (PosInt (Z.of_nat policy_count)));
              ("narration", JString ("Policy evaluation resulted in " +:+ to_uppercase decision +:+ ". " +:+ reason))])
    (if String.eqb decision "deny" then 95 else 85) (eng_model e) PostCheck.

Definition post_wf_advisory (e : AdvisoryEngine) (input_cid chip_type decision : string) (duration : Z) : Advisory :=
  mkAdvisory (eng_passport_cid e) "classify" input_cid
    (JObject [("category", JString (classify_chip_type chip_type)); ("chip_type", JString chip_type);
              ("decision", JString decision); ("duration_ms", json_i64 duration);
              ("summary", JString (chip_type +:+ " chip processed in " +:+ i_to_string duration +:+ "ms → " +:+
                                   to_uppercase decision))])
    90 (eng_model e) PostWf.
End Engine.

Definition advisory_to_chip_body (e : AdvisoryEngine) (a : Advisory) : json * AdvisoryEngine :=
  let '(id, e') := next_id e in (advisory_chip_body a id (eng_world e), e').

(** ** Properties *)

(** Advisories survive being written to a chip body and read back. *)
Theorem advisory_roundtrip a id world :
  in_i64 (adv_confidence a) = true -> advisory_from_chip_body (advisory_chip_body a id world) = Ok a.
Proof.
  destruct a as [p ac i o c m h]. cbn [adv_confidence]. unfold in_i64. intros H. bool_to_prop.
  unfold advisory_from_chip_body, adv_field. cbn -[Z.leb i64_max]. unfold json_i64.
  destruct (Z.leb_spec 0 c); cbn -[Z.leb i64_max]; [rewrite (proj2 (Z.leb_le c i64_max)) by done|]; by destruct h.
Qed.

Lemma advisory_roundtrip_witness :
  advisory_from_chip_body (advisory_chip_body (mkAdvisory "b3:p" "classify" "b3:i" JNull 92 "m" PostWf) "adv-1" "a/acme") =
  Ok (mkAdvisory "b3:p" "classify" "b3:i" JNull 92 "m" PostWf).
Proof. apply advisory_roundtrip. reflexivity. Defined.

(** ** Passports ([ai_passport.rs]) *)

Record AiPassport : Type := mkPassport {
  ap_model : string; ap_provider : string; ap_rights : list string; ap_duties : list string; ap_scope : list string;
  ap_fuel_limit : Z; ap_signing_key : string }.

Inductive PassportError : Type :=
| PassportMissingField (field : string)
| PassportNotFound (cid : string)
| RightDenied (action passport_id : string).

Definition passport_error_display (e : PassportError) : string :=
  match e with
  | PassportMissingField field => "Passport missing field: " +:+ field
  | PassportNotFound cid => "Passport not found: " +:+ cid
  | RightDenied action id => "Action '" +:+ action +:+ "' not permitted for passport '" +:+ id +:+ "'"
  end.

Definition extract_string_array (body : json) (key : string) : option (list string) :=
  (get key body ≫= as_array) ≫= mapM as_str.

Definition passport_from_chip_body (body : json) : result PassportError AiPassport :=
  model ← ok_or (get "model" body ≫= as_str) (PassportMissingField "model");
  provider ← ok_or (get "provider" body ≫= as_str) (PassportMissingField "provider");
  rights ← ok_or (extract_string_array body "rights") (PassportMissingField "rights");
  duties ← ok_or (extract_string_array body "duties") (PassportMissingField "duties");
  let scope := default [] (extract_string_array body "scope") in
  let fuel := default 100000 (get "fuel_limit" body ≫= as_u64) in
  key ← ok_or (get "signing_key" body ≫= as_str) (PassportMissingField "signing_key");
  Ok (mkPassport model provider rights duties scope fuel key).

Definition has_right (p : AiPassport) (action : string) : bool :=
  existsb (fun r => String.eqb r action || String.eqb r "*") (ap_rights p).
Definition passport_authorize (p : AiPassport) (action : string) : result PassportError unit :=
  if has_right p action then Ok tt else Err (RightDenied action (ap_signing_key p)).

Definition passport_to_chip_body (p : AiPassport) (id world : string) : json :=
  JObject [("@type", JString "ubl/ai.passport"); ("@id", JString id); ("@ver", JString "1.0"); ("@world", JString world);
           ("model", JString (ap_model p)); ("provider", JString (ap_provider p)); ("rights", json_strings (ap_rights p));
           ("duties", json_strings (ap_duties p)); ("scope", json_strings (ap_scope p));
           ("fuel_limit", JNumber (PosInt (ap_fuel_limit p))); ("signing_key", JString (ap_signing_key p))].

(** A passport survives being written to a chip body and read back. *)
Theorem passport_roundtrip p id world : passport_from_chip_body (passport_to_chip_body p id world) = Ok p.
Proof.
  destruct p as [m pr r d s f k]. unfold passport_from_chip_body, passport_to_chip_body, extract_string_array. cbn.
  by rewrite !strings_read.
Qed.

(** A passport permits an action exactly when it names it or names all; a
    refusal names the action and the passport's key. *)
Theorem passport_authorize_exact p action :
  (passport_authorize p action = Ok tt <-> action ∈ ap_rights p \/ "*" ∈ ap_rights p) /\
  (passport_authorize p action <> Ok tt -> passport_authorize p action = Err (RightDenied action (ap_signing_key p))).
Proof.
  unfold passport_authorize. destruct (has_right p action) eqn:E; (split; [|done]).
  - split; [intros _|done]. apply existsb_exists in E as (r & Hr%list_elem_of_In & H). apply orb_true_iff in H as [->%String.eqb_eq| ->%String.eqb_eq]; auto.
  - split; [done|]. intros H. exfalso. apply not_true_iff_false in E. apply E, existsb_exists.
    destruct H as [H%list_elem_of_In|H%list_elem_of_In]; eexists; (split; [exact H|]); by rewrite String.eqb_refl, ?orb_true_r.
Qed.

(** A fuel limit that is negative or not an integer is not refused: the passport
    gets the default. *)
Theorem passport_fuel_default p id world v : as_u64 v = None ->
  exists body, get "fuel_limit" body = Some v /\ (forall k, k <> "fuel_limit" -> get k body = get k (passport_to_chip_body p id world)) /\
    passport_from_chip_body body = Ok (mkPassport (ap_model p) (ap_provider p) (ap_rights p) (ap_duties p) (ap_scope p) 100000 (ap_signing_key p)).
Proof.
  intros Hv. exists (match passport_to_chip_body p id world with JObject m => JObject (map_insert "fuel_limit" v m) | j => j end).
  split_and!; [done| |].
  - intros k Hk. cbn. repeat (case_match; [try done|]); try done. by destruct (String.eqb_spec k "fuel_limit").
  - destruct p as [m pr r d s f k]. unfold passport_from_chip_body, passport_to_chip_body, extract_string_array. cbn. by rewrite Hv, !strings_read.
Qed.
