(* ===== verification/PipelineTypes.v ===== *)
(** * Data and state of the pipeline ([pipeline/mod.rs], [pipeline/types.rs])

    Requests, errors, receipts of the stages, the configuration that stays
    fixed, the state that calls share, and the state-and-error monad that the
    stages run in.  A failed call keeps the state it has reached, as the code
    does. *)

From S2P Require Import Prelude RustStd RustStr Json Nrf BigNum Unc1 Tlv Vm Canon Types Silicon Idempotency Durable.
From S2P Require Import Policy Receipt Knock ChipStore Capability Auth PolicyLoader Envelope KeyRotation AuditChip.
From S2P Require Import TrRegistry EventBus Ledger Advisory.
Local Open Scope Z_scope.
Local Open Scope string_scope.
Local Open Scope list_scope.

(** ** Errors *)

(** The text of an error: a literal, a prefix before a nested text, or the
    [Display] of another crate's error. *)
Inductive cause : Type :=
| Text (s : string)
| Within (prefix : string) (c : cause)
| OfKnock (e : KnockError)
| OfNrf (e : NrfError)
| OfDecode (e : DecodeError)
| OfReceipt (e : ReceiptError)
| OfAuth (e : AuthError)
| OfAuthValidation (e : AuthValidationError)
| OfEnvelope (e : EnvelopeError)
| OfCap (e : CapError)
| OfRotation (e : KeyRotationError)
| OfAudit (e : AuditError)
| OfSilicon (e : SiliconError)
| OfStore (e : ChipStore.ChipStoreError)
| OfPolicy (e : PolicyError)
| OfRegistry (e : TransitionRegistryError)
| OfDurable (e : DurableError)
| OfKms (e : KmsError)
| OfVm (e : ExecError).

(** [PipelinePanic] stands for a panic below the pipeline. *)
Inductive PipelineError : Type :=
| KnockRejected (c : cause)
| PolicyDenied (c : cause)
| InvalidChip (c : cause)
| DependencyMissing (c : cause)
| FuelExhausted (c : cause)
| TypeMismatch (c : cause)
| StackUnderflow (c : cause)
| CasNotFound (c : cause)
| ReplayDetected (c : cause)
| CanonError (c : cause)
| SignError (c : cause)
| StorageError (c : cause)
| IdempotencyConflict (c : cause)
| DurableCommitFailed (c : cause)
| Internal (c : cause)
| PipelinePanic.

(** ** Requests *)

Record ChipRequest : Type := mkRequest {
  req_chip_type : string; req_body : json; req_parents : list string; req_operation : option string }.
Record AuthorshipContext : Type := mkAuthorship { subject_did_hint : option string; ctx_knock_cid : option string }.
Definition no_authorship : AuthorshipContext := mkAuthorship None None.

Record ParsedChipRequest : Type := mkParsed {
  p_request : ChipRequest; p_chip_type : string; p_chip_id : option string; p_world : string }.
Definition p_body (p : ParsedChipRequest) : json := req_body (p_request p).
Definition p_parents (p : ParsedChipRequest) : list string := req_parents (p_request p).
Definition p_operation (p : ParsedChipRequest) : string := default "create" (req_operation (p_request p)).

Definition parse_chip_request (request : ChipRequest) : result PipelineError ParsedChipRequest :=
  body ← ok_or (as_object (req_body request)) (InvalidChip (Text "chip body must be object"));
  chip_type ← ok_or (map_get "@type" body ≫= as_str) (InvalidChip (Text "missing @type"));
  if negb (String.eqb chip_type (req_chip_type request)) then
    Err (InvalidChip (Text ("request.chip_type '" +:+ req_chip_type request +:+ "' != body.@type '" +:+ chip_type +:+ "'")))
  else
    world ← ok_or (map_get "@world" body ≫= as_str) (InvalidChip (Text "missing @world"));
    _ ← map_err (fun e => InvalidChip (Within "@world: " (OfEnvelope e))) (validate_world world);
    let chip_id := match map_get "@id" body ≫= as_str with
                   | Some id => Some id
                   | None => map_get "id" body ≫= as_str
                   end in
    Ok (mkParsed request chip_type chip_id world).

(** ** Adapter declarations *)

Record AdapterRuntimeInfo : Type := mkAdapter {
  wasm_sha256 : string;
  abi_version : string;
  wasm_cid : option string;
  wasm_b64 : option string;
  fuel_budget : option Z;
  timeout_ms : option Z;
  capabilities : list string;
  attestation_signature_b64 : option string;
  attestation_trust_anchor : option string;
  required_receipt_claims : list string }.

(** The strings of an array; other members are dropped. *)
Definition string_items (o : option json) : list string := omap as_str (default [] (o ≫= as_array)).

Definition parse_optional (body : json) : result PipelineError (option AdapterRuntimeInfo) :=
  match get "adapter" body with
  | None => Ok None
  | Some adapter =>
      adapter ← ok_or (as_object adapter) (InvalidChip (Text "WASM_ABI_INVALID_PAYLOAD: adapter must be object"));
      let text k := map_get k adapter ≫= as_str in
      let num k := map_get k adapter ≫= as_u64 in
      sha ← ok_or (text "wasm_sha256") (InvalidChip (Text "WASM_ABI_INVALID_PAYLOAD: adapter.wasm_sha256 missing"));
      abi ← ok_or (text "abi_version") (InvalidChip (Text "WASM_ABI_MISSING_VERSION: adapter.abi_version missing"));
      let is_hex := (String.length sha =? 64)%nat && str_forallb is_ascii_hexdigit sha in
      if negb is_hex then
        Err (InvalidChip (Text "WASM_VERIFY_HASH_MISMATCH: adapter.wasm_sha256 must be 64 hex chars"))
      else if negb (String.eqb abi "1.0") then
        Err (InvalidChip (Text ("WASM_ABI_UNSUPPORTED_VERSION: adapter.abi_version unsupported: " +:+ abi)))
      else
        Ok (Some (mkAdapter sha abi (text "wasm_cid") (text "wasm_b64") (num "fuel_budget") (num "timeout_ms")
                    (string_items (map_get "capabilities" adapter)) (text "attestation_signature_b64")
                    (text "attestation_trust_anchor") (string_items (map_get "required_receipt_claims" adapter))))
  end.

(** ** Results *)

Record CheckResult : Type := mkCheckResult {
  ck_decision : Decision; ck_reason : string; ck_short_circuited : bool; ck_trace : list PolicyTraceEntry }.
Record PipelineReceipt : Type := mkPipelineReceipt { body_cid : TypedCid; pr_type : string; pr_body : json }.
Record PipelineResult : Type := mkPipelineResult {
  final_receipt : PipelineReceipt; res_chain : list string; res_decision : Decision; res_receipt : UnifiedReceipt;
  replayed : bool }.

(** ** Trace entries *)

(** [nanos]: the measured duration of the n-th reasoning bit. *)
Definition trace_bit_of (nanos : nat -> Z) (i : nat) (rb : RbResult) : TraceBit :=
  mkTraceBit (rb_id rb) (rb_decision rb) (rb_reason rb) (inputs_used_by rb) (nanos i).

Definition policy_result_to_trace (nanos : nat -> Z) (r : PolicyResult) (duration_ms : Z) : PolicyTraceEntry :=
  mkTraceEntry (default "unknown" (split_on "." (result_policy_id r) !! 1%nat)) (result_policy_id r) (pr_decision r)
    (pr_reason r) (imap (trace_bit_of nanos) (concat (rb_results <$> circuit_results r))) duration_ms.

(** ** Configuration and stage secrets *)

Record StageSecrets : Type := mkSecrets { sec_current : string; sec_prev : option string }.

Record PipelineConfig : Type := mkConfig {
  cfg_crypto_mode : CryptoMode;
  require_unc1_numeric : bool;
  f64_import_mode : F64ImportMode;
  cfg_durable_store : option Db;
  cfg_registry : TransitionRegistry;
  stage_secret_current : string;
  stage_secret_prev : option string }.

Definition set_secrets (c : PipelineConfig) (current : string) (prev : option string) : PipelineConfig :=
  mkConfig (cfg_crypto_mode c) (require_unc1_numeric c) (f64_import_mode c) (cfg_durable_store c) (cfg_registry c)
    current prev.

Definition load_transition_registry `{HexDecode} `{SerdeJson} (env : Environment) : TransitionRegistry :=
  match registry_from_env env with Ok r => r | Err _ => registry_default end.

(** [durable]: what [load_durable_store] opened. *)
Definition config_from_env `{HexDecode} `{SerdeJson} (env : Environment) (durable : option Db) : PipelineConfig :=
  mkConfig
    (match env "UBL_CRYPTO_MODE" with
     | Ok raw => match crypto_mode_parse raw with Ok m => m | Err _ => CompatV1 end
     | Err _ => CompatV1
     end)
    (match env "REQUIRE_UNC1_NUMERIC" with
     | Ok v => String.eqb v "1" || eq_ignore_ascii_case v "true"
     | Err _ => false
     end)
    (f64_mode_from_env env) durable (load_transition_registry env)
    (match env "UBL_STAGE_SECRET" with Ok s => s | Err _ => EmptyString end)
    (match env "UBL_STAGE_SECRET_PREV" with Ok s => Some s | Err _ => None end).

Definition apply_persisted_stage_secrets (fails : stmt -> bool) (c : PipelineConfig) : PipelineConfig :=
  match cfg_durable_store c with
  | None => c
  | Some db =>
      match get_stage_secrets fails db with
      | Ok (Some (current, prev)) => set_secrets c current prev
      | _ => c
      end
  end.

Definition derive_stage_secret `{Blake3Keyed} (signing_key : bytes) : bytes :=
  blake3_keyed signing_key (as_bytes "ubl.stage_secret.v1").

Definition ensure_stage_secret_config `{Blake3Keyed} (c : PipelineConfig) (key : bytes) : PipelineConfig :=
  if is_empty (stage_secret_current c)
  then set_secrets c ("hex:" +:+ hex_encode (derive_stage_secret key)) (stage_secret_prev c)
  else c.

(** ** The monad *)

(** A computation over a state that keeps the state when it fails. *)
Definition M (S E A : Type) : Type := S -> S * result E A.
#[export] Instance M_ret {S E} : MRet (M S E) := fun A a s => (s, Ok a).
#[export] Instance M_bind {S E} : MBind (M S E) := fun A B f m s =>
  match m s with (s', Ok a) => f a s' | (s', Err e) => (s', Err e) end.
Definition lift {S E A} (r : result E A) : M S E A := fun s => (s, r).
Definition throw {S E A} (e : E) : M S E A := fun s => (s, Err e).
Definition asks {S E A} (f : S -> A) : M S E A := fun s => (s, Ok (f s)).
Definition modify {S E} (f : S -> S) : M S E unit := fun s => (f s, Ok tt).

Lemma M_bind_ok {S E A B} (m : M S E A) (f : A -> M S E B) s s' b :
  (m ≫= f) s = (s', Ok b) <-> exists s1 a, m s = (s1, Ok a) /\ f a s1 = (s', Ok b).
Proof.
  unfold mbind, M_bind. destruct (m s) as [s1 [a|e]]; split; [eauto| |done|].
  - by intros (? & ? & [= <- <-] & ?).
  - by intros (? & ? & [=] & ?).
Qed.

(** ** The state *)

(** A chip that a spawned task is about to store. *)
Record AdvisoryTask : Type := mkTask { task_body : json; task_metadata : ExecutionMetadata }.

Record PState (B L D : Type) : Type := mkState {
  chip_store : option (ChipStore.ChipStore B);
  advisory_engine : option AdvisoryEngine;
  idempotency_store : IdempotencyStore;
  durable_store : option Db;
  stage_secrets : StageSecrets;
  nonces : gset string;
  event_bus : EventBus;
  ledger : L;
  disk : D;
  spawned : list AdvisoryTask;
  tick : nat }.
Arguments mkState {B L D}.
Arguments chip_store {B L D}.
Arguments advisory_engine {B L D}.
Arguments idempotency_store {B L D}.
Arguments durable_store {B L D}.
Arguments stage_secrets {B L D}.
Arguments nonces {B L D}.
Arguments event_bus {B L D}.
Arguments ledger {B L D}.
Arguments disk {B L D}.
Arguments spawned {B L D}.
Arguments tick {B L D}.

(** What the n-th reading of the environment gives: the wall clock as an
    instant, as whole seconds, as RFC 3339 text and as [%Y%m%dT%H%M%SZ], the
    milliseconds of a stopwatch, random nonces, measured bit durations, and the failures of the
    n-th database call. *)
Class Readings : Type := {
  now_instant : nat -> Z;
  now_text : nat -> string;
  now_secs : nat -> Z;
  now_stamp : nat -> string;
  elapsed_ms : nat -> Z;
  random_bytes : nat -> bytes;
  bit_nanos : nat -> nat -> Z;
  db_fails : nat -> stmt -> bool }.

Section State.
Context {B L D : Type} {R : Readings}.
Abbreviation State := (PState B L D).

Definition set_chip_store (x : option (ChipStore.ChipStore B)) (s : State) : State :=
  mkState x (advisory_engine s) (idempotency_store s) (durable_store s) (stage_secrets s) (nonces s) (event_bus s)
    (ledger s) (disk s) (spawned s) (tick s).
Definition set_engine (x : AdvisoryEngine) (s : State) : State :=
  mkState (chip_store s) (Some x) (idempotency_store s) (durable_store s) (stage_secrets s) (nonces s) (event_bus s)
    (ledger s) (disk s) (spawned s) (tick s).
Definition set_idempotency (x : IdempotencyStore) (s : State) : State :=
  mkState (chip_store s) (advisory_engine s) x (durable_store s) (stage_secrets s) (nonces s) (event_bus s)
    (ledger s) (disk s) (spawned s) (tick s).
Definition set_durable (x : Db) (s : State) : State :=
  mkState (chip_store s) (advisory_engine s) (idempotency_store s) (Some x) (stage_secrets s) (nonces s) (event_bus s)
    (ledger s) (disk s) (spawned s) (tick s).
Definition set_stage_secrets (x : StageSecrets) (s : State) : State :=
  mkState (chip_store s) (advisory_engine s) (idempotency_store s) (durable_store s) x (nonces s) (event_bus s)
    (ledger s) (disk s) (spawned s) (tick s).
Definition add_nonce (x : string) (s : State) : State :=
  mkState (chip_store s) (advisory_engine s) (idempotency_store s) (durable_store s) (stage_secrets s) ({[x]} ∪ nonces s)
    (event_bus s) (ledger s) (disk s) (spawned s) (tick s).
Definition set_bus (x : EventBus) (s : State) : State :=
  mkState (chip_store s) (advisory_engine s) (idempotency_store s) (durable_store s) (stage_secrets s) (nonces s) x
    (ledger s) (disk s) (spawned s) (tick s).
Definition set_ledger (x : L) (s : State) : State :=
  mkState (chip_store s) (advisory_engine s) (idempotency_store s) (durable_store s) (stage_secrets s) (nonces s)
    (event_bus s) x (disk s) (spawned s) (tick s).
Definition set_disk (x : D) (s : State) : State :=
  mkState (chip_store s) (advisory_engine s) (idempotency_store s) (durable_store s) (stage_secrets s) (nonces s)
    (event_bus s) (ledger s) x (spawned s) (tick s).
Definition add_task (x : AdvisoryTask) (s : State) : State :=
  mkState (chip_store s) (advisory_engine s) (idempotency_store s) (durable_store s) (stage_secrets s) (nonces s)
    (event_bus s) (ledger s) (disk s) (spawned s ++ [x]) (tick s).
Definition set_tasks (x : list AdvisoryTask) (s : State) : State :=
  mkState (chip_store s) (advisory_engine s) (idempotency_store s) (durable_store s) (stage_secrets s) (nonces s)
    (event_bus s) (ledger s) (disk s) x (tick s).
Definition next_tick (s : State) : State :=
  mkState (chip_store s) (advisory_engine s) (idempotency_store s) (durable_store s) (stage_secrets s) (nonces s)
    (event_bus s) (ledger s) (disk s) (spawned s) (S (tick s)).

(** The next reading of the environment. *)
Definition read {E A} (f : nat -> A) : M State E A := fun s => (next_tick s, Ok (f (tick s))).

Definition generate_nonce {E} : M State E string := n ← read random_bytes; mret (hex_encode n).

(** [store.store_executed_chip(...)] on the pipeline's store; the caller has
    checked that there is one, and handles the error. *)
Definition store_chip {E} `{Unicode} `{Blake3} `{ChronoDate} `{HashIter} `{ChipStoreBackend B}
    (data : json) (receipt : string) (metadata : ExecutionMetadata) : M State E (result ChipStore.ChipStoreError string) :=
  now ← read now_text;
  store ← asks chip_store;
  match store with
  | None => mret (Err (Backend "no chip store"))
  | Some store =>
      match store_executed_chip store data receipt metadata now with
      | (store', r) => _ ← modify (set_chip_store (Some store')); mret r
      end
  end.
End State.
