(* ===== verification/Sled.v ===== *)
(** * The embedded database of the stores ([sled])

    The [sled] crate is a parameter: [Sled] has the calls that the event store
    and the chip store make, [SledLaws] what its documentation promises of
    them.  A database is a set of named trees, each an ordered map from byte
    strings to byte strings; a call does what it says to the trees or fails, and does not fail
    while the database is [quiet].  A call that fails may have done its work: an
    entry that was to be written or removed is as before or as asked for, and of
    a tree that was to be cleared, which is not atomic, any entries are left.
    Nothing is promised here of what a crash leaves of writes that were not
    flushed: theorems about it name the trees that they start from.  [SledDb] is
    an instance whose calls fail as a list says. *)

From S2P Require Import Prelude RustStd RustStr PipelineTypes.

(** The entries of a tree in the order of their keys. *)
Definition Tree : Type := list (string * bytes).

Class Sled (D E : Type) : Type := {
  (** what iterators over the tree go through *)
  tree_of : string -> D -> Tree;
  (** the step of an iterator *)
  next_entry : M D E unit;
  open_db : M D E unit;
  open_tree : string -> M D E unit;
  tree_contains : string -> string -> M D E bool;
  tree_get : string -> string -> M D E (option bytes);
  tree_insert : string -> string -> bytes -> M D E unit;
  tree_remove : string -> string -> M D E unit;
  tree_clear : string -> M D E unit;
  db_flush : M D E unit }.

Definition btree_remove {V} (k : string) (m : list (string * V)) : list (string * V) :=
  List.filter (fun kv => negb (String.eqb kv.1 k)) m.

(** [for x in l { f(x)? }] *)
Fixpoint for_each {D E A} (f : A -> M D E unit) (l : list A) : M D E unit :=
  match l with [] => mret tt | x :: l' => _ ← f x; for_each f l' end.

Section Effects.
Context {D E : Type} {S : Sled D E}.

Definition same_trees (s s' : D) : Prop := forall n, tree_of n s' = tree_of n s.
Definition writes (name : string) (t : Tree) (s s' : D) : Prop :=
  forall n, tree_of n s' = if decide (n = name) then t else tree_of n s.

(** The call succeeds with the effect [R], or fails with the effect [F]. *)
Definition performs {A} (quiet : D -> Prop) (m : M D E A) (R : D -> D -> A -> Prop) (F : D -> D -> Prop) : Prop :=
  forall s, match m s with
            | (s', Ok a) => R s s' a /\ (quiet s -> quiet s')
            | (s', Err _) => F s s' /\ ~ quiet s
            end.
(** A call that makes [t] of a tree; when it fails, perhaps. *)
Definition performs_write (quiet : D -> Prop) (m : M D E unit) (name : string) (t : Tree -> Tree) : Prop :=
  performs quiet m (fun s s' _ => writes name (t (tree_of name s)) s s')
    (fun s s' => same_trees s s' \/ writes name (t (tree_of name s)) s s').
End Effects.

Class SledLaws {D E : Type} (S : Sled D E) : Type := {
  quiet : D -> Prop;
  next_law : performs quiet next_entry (fun s s' _ => same_trees s s') same_trees;
  open_db_law : performs quiet open_db (fun s s' _ => same_trees s s') same_trees;
  open_law n : performs quiet (open_tree n) (fun s s' _ => same_trees s s') same_trees;
  contains_law n k : performs quiet (tree_contains n k)
    (fun s s' b => same_trees s s' /\ b = btree_contains_key k (tree_of n s)) same_trees;
  get_law n k : performs quiet (tree_get n k) (fun s s' v => same_trees s s' /\ v = btree_get k (tree_of n s)) same_trees;
  insert_law n k v : performs_write quiet (tree_insert n k v) n (btree_insert k v);
  remove_law n k : performs_write quiet (tree_remove n k) n (btree_remove k);
  clear_law n : performs quiet (tree_clear n) (fun s s' _ => writes n [] s s')
    (fun s s' => exists t, t `sublist_of` tree_of n s /\ writes n t s s');
  flush_law : performs quiet db_flush (fun s s' _ => same_trees s s') same_trees }.

(** ** Ordered maps *)

Lemma btree_keys_get {V} (m : list (string * V)) k : btree_wf m -> k ∈ m.*1 <-> is_Some (btree_get k m).
Proof.
  intros Hw. rewrite list_elem_of_fmap. split.
  - intros ([k' v] & -> & H). exists v. by apply btree_get_elem.
  - intros [v Hv%btree_get_elem]; [|done]. by exists (k, v).
Qed.

Lemma btree_remove_elem {V} (m : list (string * V)) k kv : kv ∈ btree_remove k m <-> kv ∈ m /\ kv.1 <> k.
Proof.
  unfold btree_remove. rewrite !list_elem_of_In, List.filter_In, negb_true_iff. destruct (String.eqb_spec kv.1 k); naive_solver.
Qed.

Lemma btree_remove_wf {V} (m : list (string * V)) k : btree_wf m -> btree_wf (btree_remove k m).
Proof.
  unfold btree_wf. induction 1 as [|x m Hm IH Hx]; [constructor|]. cbn [btree_remove List.filter].
  destruct (negb _); [|done]. constructor; [done|]. apply Forall_forall. intros y [Hy _]%btree_remove_elem.
  by eapply Forall_forall in Hx.
Qed.

Lemma btree_get_remove {V} (m : list (string * V)) k k' : btree_wf m ->
  btree_get k' (btree_remove k m) = if String.eqb k' k then None else btree_get k' m.
Proof.
  intros Hw. apply option_eq. intros v. rewrite btree_get_elem, btree_remove_elem by by apply btree_remove_wf. cbn.
  destruct (String.eqb_spec k' k); [naive_solver|]. rewrite btree_get_elem by done. naive_solver.
Qed.

Lemma btree_wf_NoDup {V} (m : list (string * V)) : btree_wf m -> NoDup m.*1.
Proof.
  unfold btree_wf. induction 1 as [|x m Hm IH Hx]; [constructor|]. cbn. constructor; [|done].
  intros (y & E & Hy)%list_elem_of_fmap. rewrite Forall_forall in Hx. specialize (Hx y Hy). rewrite E in Hx.
  by rewrite str_ltb_irrefl in Hx.
Qed.

Lemma btree_insert_elem {V} (m : list (string * V)) k v kv : btree_wf m ->
  kv ∈ btree_insert k v m <-> kv = (k, v) \/ kv ∈ m /\ kv.1 <> k.
Proof.
  intros Hw. destruct kv as [k' v']. rewrite <- !btree_get_elem, btree_get_insert by auto with ubl. cbn.
  destruct (String.eqb_spec k' k) as [->|]; naive_solver.
Qed.

Lemma sublist_in {A} (l l' : list A) x : l' `sublist_of` l -> x ∈ l' -> x ∈ l.
Proof.
  induction 1 as [|y l' l Hs IH|y l' l Hs IH]; [done|..].
  - rewrite !elem_of_cons. naive_solver.
  - intros Hx. right. by apply IH.
Qed.
Lemma btree_sublist_wf {V} (m m' : list (string * V)) : m' `sublist_of` m -> btree_wf m -> btree_wf m'.
Proof.
  unfold btree_wf. induction 1 as [|x m' m Hs IH|x m' m Hs IH]; [done|..]; inversion 1 as [|? ? Hm Hx]; subst; [|by apply IH].
  constructor; [by apply IH|]. rewrite Forall_forall in Hx |- *. intros y Hy. apply Hx. by eapply sublist_in.
Qed.
Lemma sublist_keys {V} (m m' : list (string * V)) k : m' `sublist_of` m -> k ∈ m'.*1 -> k ∈ m.*1.
Proof. intros H. rewrite !list_elem_of_fmap. intros (kv & -> & Hkv). exists kv. split; [done|]. by eapply sublist_in. Qed.

#[export] Hint Resolve btree_remove_wf : ubl.

(** ** Computations over the database *)

Section Calls.
Context {D E : Type} {S : Sled D E}.
Implicit Types s : D.

Definition keys (name : string) s : list string := (tree_of name s).*1.

(** [m] takes states of [P] to states of [P], whether it succeeds or not. *)
Definition maintains {A} (P : D -> Prop) (m : M D E A) : Prop := forall s, P s -> P (m s).1.

Lemma maintains_bind {A B} P (m : M D E A) (f : A -> M D E B) :
  maintains P m -> (forall a, maintains P (f a)) -> maintains P (m ≫= f).
Proof.
  intros Hm Hf s Hs. unfold mbind, M_bind. specialize (Hm s Hs). destruct (m s) as [s1 [a|e]]; [by apply Hf|done].
Qed.
Lemma maintains_ret {A} P (a : A) : maintains P (mret a).
Proof. by intros s. Qed.
Lemma maintains_lift {A} P (r : result E A) : maintains P (lift r).
Proof. by intros s. Qed.
Lemma maintains_asks {A} P (f : D -> A) : maintains P (asks f).
Proof. by intros s. Qed.
Lemma maintains_each {A} P (f : A -> M D E unit) l : (forall x, x ∈ l -> maintains P (f x)) -> maintains P (for_each f l).
Proof.
  induction l as [|x l IH]; intros H; cbn [for_each]; [apply maintains_ret|].
  apply maintains_bind; [apply H; left|]. intros _. apply IH. intros y Hy. apply H. by right.
Qed.
Lemma maintains_and {A} P Q (m : M D E A) : maintains P m -> maintains Q m -> maintains (fun s => P s /\ Q s) m.
Proof. intros HP HQ s [? ?]. split; [by apply HP|by apply HQ]. Qed.

(** A property of the trees' contents. *)
Definition on_trees (P : D -> Prop) : Prop := forall s s', same_trees s s' -> P s -> P s'.

Lemma same_refl s : same_trees s s.
Proof. by intros n. Qed.
Lemma same_trans s1 s2 s3 : same_trees s1 s2 -> same_trees s2 s3 -> same_trees s1 s3.
Proof. intros H1 H2 n. by rewrite H2. Qed.

Lemma writes_keys name k v s s' n x : btree_wf (tree_of name s) -> writes name (btree_insert k v (tree_of name s)) s s' ->
  x ∈ keys n s' <-> x ∈ keys n s \/ n = name /\ x = k.
Proof.
  intros Hw H. unfold keys. rewrite H. case_decide as Hn; [subst|naive_solver].
  rewrite !btree_keys_get by auto with ubl. rewrite btree_get_insert by done. destruct (String.eqb_spec x k); naive_solver.
Qed.

Lemma writes_wf name t s s' : btree_wf t -> writes name t s s' -> (forall n, btree_wf (tree_of n s)) -> forall n, btree_wf (tree_of n s').
Proof. intros Ht H Hs n. rewrite H. by case_decide. Qed.

Lemma bind_run {A B} (m : M D E A) (f : A -> M D E B) s s' a : m s = (s', Ok a) -> (m ≫= f) s = f a s'.
Proof. unfold mbind, M_bind. by intros ->. Qed.
(** A property of a sequence, by the outcome of its first step. *)
Lemma bind_cases {A B} (m : M D E A) (f : A -> M D E B) s (Q : D * result E B -> Prop) :
  match m s with (s', Ok a) => Q (f a s') | (s', Err e) => Q (s', Err e) end -> Q ((m ≫= f) s).
Proof. unfold mbind, M_bind. by destruct (m s) as [s1 [a|e]]. Qed.
Lemma bind_assoc {A B C} (m : M D E A) (f : A -> M D E B) (g : B -> M D E C) s :
  ((m ≫= f) ≫= g) s = (m ≫= fun a => f a ≫= g) s.
Proof. unfold mbind, M_bind. by destruct (m s) as [s1 [a|e]]. Qed.
Lemma bind_ext {A B} (m : M D E A) (f g : A -> M D E B) s : (forall a s, f a s = g a s) -> (m ≫= f) s = (m ≫= g) s.
Proof. intros H. unfold mbind, M_bind. destruct (m s) as [s1 [a|e]]; [apply H|done]. Qed.

Context {SL : SledLaws S}.

Lemma maintains_call {A} P (m : M D E A) R F : performs quiet m R F ->
  (forall s s' a, P s -> R s s' a -> P s') -> (forall s s', P s -> F s s' -> P s') -> maintains P m.
Proof.
  intros Hm HR HF s Hs. specialize (Hm s). destruct (m s) as [s' [a|e]]; cbn.
  - apply (HR s s' a Hs), Hm.
  - apply (HF s s' Hs), Hm.
Qed.
(** A call that does not change the trees. *)
Lemma maintains_read {A} P (m : M D E A) R : performs quiet m R same_trees ->
  (forall s s' a, R s s' a -> same_trees s s') -> on_trees P -> maintains P m.
Proof.
  intros Hm HR HP. eapply maintains_call; [done| |].
  - intros s s' a Hs Ha. eapply HP; [by eapply HR|done].
  - intros s s' Hs Ha. by eapply HP.
Qed.
(** A call that writes. *)
Lemma maintains_write P m n t : performs_write quiet m n t -> on_trees P ->
  (forall s s', P s -> writes n (t (tree_of n s)) s s' -> P s') -> maintains P m.
Proof.
  intros Hm HP Hw. eapply maintains_call; [exact Hm|by intros s s' []; apply Hw|].
  intros s s' Hs [Ha|Ha]; [by eapply HP|by eapply Hw].
Qed.
Lemma maintains_insert P n k v : on_trees P ->
  (forall s s', P s -> writes n (btree_insert k v (tree_of n s)) s s' -> P s') -> maintains P (tree_insert n k v).
Proof. apply maintains_write, insert_law. Qed.
Lemma maintains_remove P n k : on_trees P ->
  (forall s s', P s -> writes n (btree_remove k (tree_of n s)) s s' -> P s') -> maintains P (tree_remove n k).
Proof. apply maintains_write, remove_law. Qed.
Lemma maintains_clear P n :
  (forall s s' t, P s -> t `sublist_of` tree_of n s -> writes n t s s' -> P s') -> maintains P (tree_clear n).
Proof.
  intros Hw. eapply maintains_call; [apply clear_law| |].
  - intros s s' [] Hs Ha. apply (Hw s s' []); [done|apply sublist_nil_l|done].
  - intros s s' Hs (t & Ht & Ha). by eapply Hw.
Qed.
Lemma maintains_open P n : on_trees P -> maintains P (open_tree n).
Proof. eapply maintains_read; [apply open_law|done]. Qed.
Lemma maintains_next P : on_trees P -> maintains P next_entry.
Proof. eapply maintains_read; [apply next_law|done]. Qed.
Lemma maintains_get P n k : on_trees P -> maintains P (tree_get n k).
Proof. eapply maintains_read; [apply get_law|by intros ? ? ? []]. Qed.
Lemma maintains_flush P : on_trees P -> maintains P db_flush.
Proof. eapply maintains_read; [apply flush_law|done]. Qed.

(** Calls of a quiet database. *)
Lemma quiet_run {A} (m : M D E A) R F s : performs quiet m R F -> quiet s -> exists s' a, m s = (s', Ok a) /\ R s s' a /\ quiet s'.
Proof.
  intros Hm Hq. specialize (Hm s). destruct (m s) as [s' [a|e]]; [|by destruct Hm]. exists s', a. naive_solver.
Qed.
Lemma quiet_open n s : quiet s -> exists s', open_tree n s = (s', Ok tt) /\ same_trees s s' /\ quiet s'.
Proof. intros Hq. destruct (quiet_run _ _ _ s (open_law n) Hq) as (s' & [] & ?). eauto. Qed.
Lemma quiet_next s : quiet s -> exists s', next_entry s = (s', Ok tt) /\ same_trees s s' /\ quiet s'.
Proof. intros Hq. destruct (quiet_run _ _ _ s next_law Hq) as (s' & [] & ?). eauto. Qed.
Lemma quiet_flush s : quiet s -> exists s', db_flush s = (s', Ok tt) /\ same_trees s s' /\ quiet s'.
Proof. intros Hq. destruct (quiet_run _ _ _ s flush_law Hq) as (s' & [] & ?). eauto. Qed.
Lemma quiet_contains n k s : quiet s ->
  exists s', tree_contains n k s = (s', Ok (btree_contains_key k (tree_of n s))) /\ same_trees s s' /\ quiet s'.
Proof. intros Hq. destruct (quiet_run _ _ _ s (contains_law n k) Hq) as (s' & b & H & [? ->] & ?). eauto. Qed.
Lemma quiet_get n k s : quiet s -> exists s', tree_get n k s = (s', Ok (btree_get k (tree_of n s))) /\ same_trees s s' /\ quiet s'.
Proof. intros Hq. destruct (quiet_run _ _ _ s (get_law n k) Hq) as (s' & b & H & [? ->] & ?). eauto. Qed.
Lemma quiet_insert n k v s : quiet s ->
  exists s', tree_insert n k v s = (s', Ok tt) /\ writes n (btree_insert k v (tree_of n s)) s s' /\ quiet s'.
Proof. intros Hq. destruct (quiet_run _ _ _ s (insert_law n k v) Hq) as (s' & [] & ?). eauto. Qed.
Lemma quiet_remove n k s : quiet s ->
  exists s', tree_remove n k s = (s', Ok tt) /\ writes n (btree_remove k (tree_of n s)) s s' /\ quiet s'.
Proof. intros Hq. destruct (quiet_run _ _ _ s (remove_law n k) Hq) as (s' & [] & ?). eauto. Qed.
Lemma quiet_clear n s : quiet s -> exists s', tree_clear n s = (s', Ok tt) /\ writes n [] s s' /\ quiet s'.
Proof. intros Hq. destruct (quiet_run _ _ _ s (clear_law n) Hq) as (s' & [] & ?). eauto. Qed.
End Calls.

(** ** Runs on a database that does not fail

    What such a run does depends on the trees alone: [turns m t u a] says that
    from the trees [t] it succeeds with [a] and leaves the trees [u]. *)

Abbreviation Trees := (string -> Tree).

Section Runs.
Context {D E : Type} {S : Sled D E} {SL : SledLaws S}.

Definition has_trees (t : Trees) (s : D) : Prop := forall n, tree_of n s = t n.
Definition turns {A} (m : M D E A) (t u : Trees) (a : A) : Prop :=
  forall s, quiet s -> has_trees t s -> exists s', m s = (s', Ok a) /\ quiet s' /\ has_trees u s'.

Definition set_tree (name : string) (x : Tree) (t : Trees) : Trees := fun n => if decide (n = name) then x else t n.

Lemma set_tree_eq name x t : set_tree name x t name = x.
Proof. unfold set_tree. by rewrite decide_True. Qed.
Lemma set_tree_ne name x t n : n <> name -> set_tree name x t n = t n.
Proof. intros H. unfold set_tree. by rewrite decide_False. Qed.

Lemma turns_bind {A B} (m : M D E A) (f : A -> M D E B) t u v a b :
  turns m t u a -> turns (f a) u v b -> turns (m ≫= f) t v b.
Proof.
  intros Hm Hf s Hq Ht. destruct (Hm s Hq Ht) as (s1 & E1 & Hq1 & Ht1). rewrite (bind_run _ _ _ _ _ E1). by apply Hf.
Qed.
Lemma turns_ret {A} (a : A) t : turns (mret a) t t a.
Proof. intros s Hq Ht. by exists s. Qed.
Lemma turns_lift {A} (r : result E A) (a : A) t : r = Ok a -> turns (lift r) t t a.
Proof. intros -> s Hq Ht. by exists s. Qed.
Lemma turns_asks_tree n t : turns (asks (tree_of n)) t t (t n).
Proof. intros s Hq Ht. exists s. unfold asks. by rewrite (Ht n). Qed.

Lemma turns_call {A} (m : M D E A) R F t u a : performs quiet m R F ->
  (forall s s' a', has_trees t s -> R s s' a' -> a' = a /\ has_trees u s') -> turns m t u a.
Proof.
  intros Hm HR s Hq Ht. destruct (quiet_run m R F s Hm Hq) as (s' & a' & E1 & Ha & Hq'). destruct (HR s s' a' Ht Ha) as [-> Hu]. by exists s'.
Qed.
Lemma same_has t s s' : has_trees t s -> same_trees s s' -> has_trees t s'.
Proof. intros Ht Hs n. by rewrite Hs. Qed.
Lemma writes_has n x t s s' : has_trees t s -> writes n x s s' -> has_trees (set_tree n x t) s'.
Proof. intros Ht Hw m. rewrite Hw. unfold set_tree. by case_decide. Qed.

Lemma turns_next t : turns next_entry t t tt.
Proof. eapply turns_call; [apply next_law|]. intros s s' [] Ht H. split; [done|by eapply same_has]. Qed.
Lemma turns_open_db t : turns open_db t t tt.
Proof. eapply turns_call; [apply open_db_law|]. intros s s' [] Ht H. split; [done|by eapply same_has]. Qed.
Lemma turns_open n t : turns (open_tree n) t t tt.
Proof. eapply turns_call; [apply open_law|]. intros s s' [] Ht H. split; [done|by eapply same_has]. Qed.
Lemma turns_contains n k t : turns (tree_contains n k) t t (btree_contains_key k (t n)).
Proof. eapply turns_call; [apply contains_law|]. intros s s' b Ht [H ->]. rewrite (Ht n). split; [done|by eapply same_has]. Qed.
Lemma turns_get n k t : turns (tree_get n k) t t (btree_get k (t n)).
Proof. eapply turns_call; [apply get_law|]. intros s s' b Ht [H ->]. rewrite (Ht n). split; [done|by eapply same_has]. Qed.
Lemma turns_insert n k v t : turns (tree_insert n k v) t (set_tree n (btree_insert k v (t n)) t) tt.
Proof. eapply turns_call; [apply insert_law|]. intros s s' [] Ht H. rewrite (Ht n) in H. split; [done|by apply writes_has with s]. Qed.
Lemma turns_remove n k t : turns (tree_remove n k) t (set_tree n (btree_remove k (t n)) t) tt.
Proof. eapply turns_call; [apply remove_law|]. intros s s' [] Ht H. rewrite (Ht n) in H. split; [done|by apply writes_has with s]. Qed.
Lemma turns_clear n t : turns (tree_clear n) t (set_tree n [] t) tt.
Proof. eapply turns_call; [apply clear_law|]. intros s s' [] Ht H. split; [done|by apply writes_has with s]. Qed.

Lemma turns_each {A} (f : A -> M D E unit) (g : A -> Trees -> Trees) l t :
  (forall x t, turns (f x) t (g x t) tt) -> turns (for_each f l) t (fold_left (fun t x => g x t) l t) tt.
Proof.
  intros Hf. revert t. induction l as [|x l IH]; intros t; cbn [for_each fold_left]; [apply turns_ret|].
  eapply turns_bind; [apply Hf|apply IH].
Qed.

(** A run from the trees of a state. *)
Lemma turns_run {A} (m : M D E A) s u a : turns m (fun n => tree_of n s) u a -> quiet s ->
  exists s', m s = (s', Ok a) /\ quiet s' /\ has_trees u s'.
Proof. intros Hm Hq. by apply Hm. Qed.
End Runs.

(** ** A database with scripted failures *)

(** The head of [io] says whether the next call fails, and after how much of
    its work: [Some 0] before it, [Some n] after a write or after the removal of
    [n] entries. *)
Record SledDb : Type := mkSled { sled_trees : gmap string Tree; io : list (option nat) }.
Definition empty_db : SledDb := mkSled ∅ [].

Section Scripted.
Context {E : Type} (broken : E).

Definition sled_call {A} (part : nat -> gmap string Tree -> gmap string Tree) (f : gmap string Tree -> gmap string Tree * A)
    : M SledDb E A := fun s =>
  match io s with
  | Some n :: rest => (mkSled (part n (sled_trees s)) rest, Err broken)
  | calls => (mkSled (f (sled_trees s)).1 (tail calls), Ok (f (sled_trees s)).2)
  end.
Definition at_tree (n : string) (t : gmap string Tree) : Tree := default [] (t !! n).
Definition sled_read {A} (f : gmap string Tree -> A) : M SledDb E A := sled_call (fun _ t => t) (fun t => (t, f t)).
Definition sled_write (f : gmap string Tree -> gmap string Tree) : M SledDb E unit :=
  sled_call (fun n t => match n with O => t | _ => f t end) (fun t => (f t, tt)).

Definition scripted : Sled SledDb E := {|
  tree_of n s := at_tree n (sled_trees s);
  next_entry := sled_read (fun _ => tt);
  open_db := sled_read (fun _ => tt);
  open_tree n := sled_write (fun t => <[n := at_tree n t]> t);
  tree_contains n k := sled_read (fun t => btree_contains_key k (at_tree n t));
  tree_get n k := sled_read (fun t => btree_get k (at_tree n t));
  tree_insert n k v := sled_write (fun t => <[n := btree_insert k v (at_tree n t)]> t);
  tree_remove n k := sled_write (fun t => <[n := btree_remove k (at_tree n t)]> t);
  tree_clear n := sled_call (fun m t => <[n := drop m (at_tree n t)]> t) (fun t => (<[n := []]> t, tt));
  db_flush := sled_read (fun _ => tt) |}.
#[local] Existing Instance scripted.

Lemma at_tree_insert n t x m : at_tree m (<[n := x]> t) = if decide (m = n) then x else at_tree m t.
Proof. unfold at_tree. case_decide; [subst; by rewrite lookup_insert_eq|by rewrite lookup_insert_ne]. Qed.
Lemma at_tree_same n t m : at_tree m (<[n := at_tree n t]> t) = at_tree m t.
Proof. rewrite at_tree_insert. by case_decide; subst. Qed.

Lemma sled_call_performs {A} part (f : gmap string Tree -> gmap string Tree * A) (R : SledDb -> SledDb -> A -> Prop) F :
  (forall s l, R s (mkSled (f (sled_trees s)).1 l) (f (sled_trees s)).2) ->
  (forall n s l, F s (mkSled (part n (sled_trees s)) l)) -> performs (fun s => io s = []) (sled_call part f) R F.
Proof.
  intros H H' [t l]. unfold sled_call. cbn. destruct l as [|[n|] l]; cbn.
  - split; [apply (H (mkSled t []))|done].
  - split; [apply (H' n (mkSled t (Some n :: l)))|done].
  - split; [apply (H (mkSled t (None :: l)))|done].
Qed.

Lemma scripted_laws : SledLaws scripted.
Proof.
  exists (fun s => io s = []); intros; apply sled_call_performs; intros; cbn; try done.
  - intros m. apply at_tree_same.
  - intros m. cbn. destruct n0; [done|apply at_tree_same].
  - intros m. apply at_tree_insert.
  - destruct n0; [by left|right; intros m; apply at_tree_insert].
  - intros m. apply at_tree_insert.
  - destruct n0; [by left|right; intros m; apply at_tree_insert].
  - intros m. apply at_tree_insert.
  - eexists. split; [apply sublist_drop|]. intros m. apply at_tree_insert.
Defined.
End Scripted.
