(* ===== verification/SledBackend.v ===== *)
(** * The chip store on the embedded database ([ubl_chipstore/src/backends.rs])

    [SledBackend], the backend that the gate runs on: chips as JSON text under
    their CIDs, a tree from receipts to CIDs, and three index trees whose keys
    are a type, tag or executor, a zero byte and a CID.  It is a second instance
    of [ChipStoreBackend], over any database of [Sled]; a read takes the
    failures of its calls from the state and leaves the state as it was.

    The theorems: on a database that does not fail it keeps the contract of
    [ChipStoreFacts] and so behaves as a finite map ([sled_refines_map]), and
    answers as the in-memory backend does ([backends_agree]); whatever calls
    fail, no operation does more to the chips than it should, and opening the
    database again restores every index, also after a crash that has lost a part
    of what was stored ([sled_survives_failures]). *)

From S2P Require Import Prelude RustStd RustStr Json Nrf TextFacts Types ChipStore ChipStoreFacts PipelineTypes Sled.
Local Open Scope string_scope.
Local Open Scope Z_scope.
Local Open Scope list_scope.

(** The texts of [serde_json]'s and of the UTF-8 errors. *)
Class ChipTexts : Type := { chip_read_error : bytes -> string; utf8_error : bytes -> string }.

(** ** Trees and keys *)

(** [sled]'s name of the tree that a database is itself. *)
Definition CHIPS : string := "__sled__default".
Definition RECEIPTS : string := "receipt_index".
Definition TYPES : string := "type_index".
Definition TAGS : string := "tag_index".
Definition EXECUTORS : string := "executor_index".

Definition NUL : ascii := "000".
Definition index_prefix (key : string) : string := key +:+ String NUL EmptyString.
Definition index_composite_key (key cid : string) : string := key +:+ String NUL EmptyString +:+ cid.

Section Operations.
Context {HI : HashIter} {SJ : SerdeJson} {CT : ChipTexts} {D : Type} {SLD : Sled D ChipStoreError}.

Abbreviation sled := (M D ChipStoreError).

(** [serde_json::to_vec(chip)] and [from_slice::<StoredChip>], which reads
    through a [Value]: the two differ on repeated members only. *)
Definition chip_to_vec (chip : StoredChip) : bytes := to_vec (chip_to_json chip).
Definition chip_from_slice (bs : bytes) : option StoredChip := from_slice bs ≫= chip_from_json.
Definition read_chip (bs : bytes) : sled StoredChip := lift (ok_or (chip_from_slice bs) (Serialization (chip_read_error bs))).

(** ** Indexes *)

Definition add_index_entry (tree key cid : string) : sled unit := tree_insert tree (index_composite_key key cid) [].
Definition remove_index_entry (tree key cid : string) : sled unit := tree_remove tree (index_composite_key key cid).

Definition add_chip_to_indexes (chip : StoredChip) : sled unit :=
  _ ← add_index_entry TYPES (chip_type chip) (cid_as_str (cid chip));
  _ ← for_each (fun tag => add_index_entry TAGS tag (cid_as_str (cid chip))) (tags chip);
  add_index_entry EXECUTORS (executor_of chip) (cid_as_str (cid chip)).

Definition sled_remove_chip_from_indexes (chip : StoredChip) : sled unit :=
  _ ← remove_index_entry TYPES (chip_type chip) (cid_as_str (cid chip));
  _ ← for_each (fun tag => remove_index_entry TAGS tag (cid_as_str (cid chip))) (tags chip);
  remove_index_entry EXECUTORS (executor_of chip) (cid_as_str (cid chip)).

(** The loop of [read_index_set] over the entries of the prefix. *)
Fixpoint read_entries (key : string) (entries : Tree) (values : gset string) : sled (gset string) :=
  match entries with
  | [] => mret values
  | (raw_key, _) :: rest =>
      _ ← next_entry;
      let n := String.length (index_prefix key) in
      if (String.length raw_key <? n)%nat then read_entries key rest values
      else
        let suffix := substring n (String.length raw_key - n) raw_key in
        if utf8_valid (as_bytes suffix) then read_entries key rest ({[suffix]} ∪ values)
        else throw (Backend ("Invalid index CID UTF-8 for key '" +:+ key +:+ "': " +:+ utf8_error (as_bytes suffix)))
  end.

Definition tree_prefix (prefix : string) (t : Tree) : Tree := List.filter (fun kv => starts_with prefix kv.1) t.
Definition read_index_set (tree key : string) : sled (gset string) :=
  t ← asks (tree_of tree);
  read_entries key (tree_prefix (index_prefix key) t) ∅.

Fixpoint narrow_by_tags (tgs : list string) (c : option (gset string)) : sled (option (gset string)) :=
  match tgs with
  | [] => mret c
  | tag :: rest => s ← read_index_set TAGS tag; narrow_by_tags rest (Some (intersect_sets c s))
  end.

Definition sled_candidate_cids (query : ChipQuery) : sled (option (gset string)) :=
  match q_chip_type query, q_tags query, q_executor_did query with
  | None, [], None => mret None
  | _, _, _ =>
      c1 ← match q_chip_type query with
           | Some ty => s ← read_index_set TYPES ty; mret (Some (intersect_sets None s))
           | None => mret None
           end;
      c2 ← narrow_by_tags (q_tags query) c1;
      c3 ← match q_executor_did query with
           | Some e => s ← read_index_set EXECUTORS e; mret (Some (intersect_sets c2 s))
           | None => mret c2
           end;
      mret (Some (default ∅ c3))
  end.

(** ** Chips *)

Definition load_chip_by_cid (c : string) : sled (option StoredChip) :=
  data ← tree_get CHIPS c;
  match data with
  | None => mret None
  | Some bs => chip ← read_chip bs; mret (Some chip)
  end.

(** Look each CID up and keep the chips that [keep] asks for. *)
Fixpoint load_chips (keep : StoredChip -> bool) (cids : list string) : sled (list StoredChip) :=
  match cids with
  | [] => mret []
  | c :: rest =>
      found ← load_chip_by_cid c;
      l ← load_chips keep rest;
      mret (match found with Some chip => if keep chip then chip :: l else l | None => l end)
  end.

(** The loop over the whole tree. *)
Fixpoint collect_chips (keep : StoredChip -> bool) (entries : Tree) : sled (list StoredChip) :=
  match entries with
  | [] => mret []
  | (_, value) :: rest =>
      _ ← next_entry;
      chip ← read_chip value;
      l ← collect_chips keep rest;
      mret (if keep chip then chip :: l else l)
  end.

Definition set_list (s : gset string) : list string := hash_iter _ (elements s).

(** ** The operations of the backend *)

Definition sled_put_chip (chip : StoredChip) : sled unit :=
  _ ← tree_insert CHIPS (cid_as_str (cid chip)) (chip_to_vec chip);
  _ ← tree_insert RECEIPTS (cid_as_str (receipt_cid chip)) (as_bytes (cid_as_str (cid chip)));
  add_chip_to_indexes chip.

Definition sled_get_chip_by_receipt_cid (receipt : string) : sled (option StoredChip) :=
  found ← tree_get RECEIPTS receipt;
  match found with
  | None => mret None
  | Some bs =>
      match from_utf8 bs with
      | Some c => load_chip_by_cid c
      | None => throw (Backend ("Invalid receipt index UTF-8: " +:+ utf8_error bs))
      end
  end.

Definition sled_exists (c : string) : sled bool := tree_contains CHIPS c.

Definition sled_query_chips (query : ChipQuery) : sled QueryResult :=
  candidates ← sled_candidate_cids query;
  results ← match candidates with
            | Some cids => load_chips (fun chip => matches_query chip query) (set_list cids)
            | None => t ← asks (tree_of CHIPS); collect_chips (fun chip => matches_query chip query) t
            end;
  mret (apply_pagination results query).

Definition sled_get_chips_by_type (ty : string) : sled (list StoredChip) :=
  cids ← read_index_set TYPES ty;
  l ← load_chips (fun chip => String.eqb (chip_type chip) ty) (set_list cids);
  mret (sort_by newest_first l).

Definition sled_get_related_chips (c : string) : sled (list StoredChip) :=
  found ← load_chip_by_cid c;
  match found with
  | Some chip => load_chips (fun _ => true) (related_chips chip)
  | None => mret []
  end.

Definition sled_delete_chip (c : string) : sled unit :=
  found ← load_chip_by_cid c;
  _ ← match found with
      | Some chip =>
          _ ← tree_remove RECEIPTS (cid_as_str (receipt_cid chip));
          sled_remove_chip_from_indexes chip
      | None => mret tt
      end;
  tree_remove CHIPS c.

Definition sled_rebuild_indexes : sled unit :=
  _ ← for_each tree_clear [RECEIPTS; TYPES; TAGS; EXECUTORS];
  t ← asks (tree_of CHIPS);
  for_each (fun kv =>
    _ ← next_entry;
    chip ← read_chip kv.2;
    _ ← tree_insert RECEIPTS (cid_as_str (receipt_cid chip)) (as_bytes (cid_as_str (cid chip)));
    add_chip_to_indexes chip) t.

Definition scan_all_chips : sled (list StoredChip) := t ← asks (tree_of CHIPS); collect_chips (fun _ => true) t.

(** [SledBackend::new] *)
Definition sled_new : sled unit :=
  _ ← open_db;
  _ ← for_each open_tree [RECEIPTS; TYPES; TAGS; EXECUTORS];
  sled_rebuild_indexes.

#[export] Instance sled_backend : ChipStoreBackend D := {|
  put_chip := sled_put_chip;
  get_chip c s := (load_chip_by_cid c s).2;
  get_chip_by_receipt_cid r s := (sled_get_chip_by_receipt_cid r s).2;
  exists_chip c s := (sled_exists c s).2;
  query_chips q s := (sled_query_chips q s).2;
  get_chips_by_type ty s := (sled_get_chips_by_type ty s).2;
  get_related_chips c s := (sled_get_related_chips c s).2;
  delete_chip := sled_delete_chip;
  rebuild_indexes := sled_rebuild_indexes;
  scan_all s := (scan_all_chips s).2 |}.
End Operations.

(** ** Keys *)

Lemma char_with_nul pre c : next_char pre = Some (c, []) -> x00 ∈ pre -> pre = [x00].
Proof.
  destruct pre as [|b0 r0]; [done|]. unfold next_char. intros H Hin.
  assert (Hc : forall b, is_cont b = true -> b <> x00) by by intros b Hb ->.
  assert (Hb : forall lo hi b, 0 < lo -> between lo hi b = true -> b <> x00).
  { intros lo hi b Hlo Hb ->. unfold between in Hb. bool_to_prop. change (u8 x00) with 0 in *. lia. }
  assert (H0 : forall lo, 0 < lo -> lo <= u8 b0 -> b0 <> x00). { intros lo H1 H2 ->. change (u8 x00) with 0 in H2. lia. }
  rewrite !elem_of_cons in Hin. destruct (u8 b0 <=? 0x7F).
  { injection H as _ ->. rewrite elem_of_nil in Hin. by destruct Hin as [<-|[]]. }
  exfalso. destruct (_ && _) eqn:E.
  { bool_to_prop. destruct r0 as [|b1 r1]; [done|]. destruct (is_cont b1) eqn:C; [|done]. injection H as _ ->.
    rewrite elem_of_cons, elem_of_nil in Hin. destruct Hin as [Hx|[Hx|[]]]; [by eapply (H0 0xC2)|by apply (Hc b1)]. }
  clear E. destruct (_ && _) eqn:E.
  { bool_to_prop. destruct r0 as [|b1 [|b2 r2]]; try done. destruct (_ && _) eqn:C; [|done]. injection H as _ ->. bool_to_prop.
    rewrite !elem_of_cons, elem_of_nil in Hin. destruct Hin as [Hx|[Hx|[Hx|[]]]]; [by eapply (H0 0xE0)| |by apply (Hc b2)].
    eapply (Hb _ _ b1); [|exact H|done]. case_match; lia. }
  clear E. destruct (_ && _) eqn:E; [|done]. bool_to_prop. destruct r0 as [|b1 [|b2 [|b3 r3]]]; try done.
  destruct (_ && _) eqn:C; [|done]. injection H as _ ->. bool_to_prop.
  rewrite !elem_of_cons, elem_of_nil in Hin. destruct Hin as [Hx|[Hx|[Hx|[Hx|[]]]]];
    [by eapply (H0 0xF0)| |by apply (Hc b2)|by apply (Hc b3)].
  eapply (Hb _ _ b1); [|exact H|done]. case_match; lia.
Qed.

(** A zero byte ends a character. *)
Lemma utf8_after_nul a b : utf8_valid (a ++ x00 :: b) = true -> utf8_valid b = true.
Proof.
  intros Hv. refine (proj2 (chars_ind (fun bs => utf8_valid bs = true /\ forall a b, bs = a ++ x00 :: b -> utf8_valid b = true) _ _ _ Hv) a b eq_refl).
  { split; [done|]. by intros []. }
  intros pre c r Hn Hc [Hr IH]. split.
  { unfold utf8_valid in *. rewrite (utf8_chars_next _ _ _ (Hc r)). by destruct (utf8_chars r). }
  intros a' b' E. apply app_eq_inv in E as [(l & -> & E)|(l & -> & E)]; [|by eapply IH].
  destruct l as [|x l]; [by apply (IH [] b')|]. injection E as <- ->.
  pose proof (Hc []) as H0. rewrite app_nil_r in H0. apply char_with_nul in H0; [|apply elem_of_app; right; left].
  destruct a'; [|by destruct a']. by injection H0 as ->.
Qed.

Lemma composite_key_prefix key x : index_prefix key +:+ x = index_composite_key key x.
Proof. unfold index_prefix, index_composite_key. by rewrite str_app_assoc. Qed.

Lemma composite_suffix_wf key x : str_wf (index_composite_key key x) -> str_wf x.
Proof. unfold str_wf, index_composite_key. rewrite as_bytes_app. cbn. apply utf8_after_nul. Qed.

Lemma substring_suffix p x : substring (String.length p) (String.length (p +:+ x) - String.length p) (p +:+ x) = x.
Proof.
  assert (Hl : (String.length (p +:+ x) - String.length p = String.length x)%nat).
  { induction p as [|a p IH]; [rewrite str_app_nil_l; cbn; lia|]. rewrite str_app_cons. cbn. exact IH. }
  rewrite Hl. clear Hl. induction p as [|a p IH]; [|by rewrite str_app_cons].
  rewrite str_app_nil_l. cbn [String.length]. induction x as [|a x IH]; [done|]. cbn. by rewrite IH.
Qed.

Lemma length_prefix p x : (String.length (p +:+ x) <? String.length p)%nat = false.
Proof.
  apply Nat.ltb_ge. induction p as [|a p IH]; [cbn; lia|]. rewrite str_app_cons. cbn. lia.
Qed.

Lemma nul_in_app x y : contains_char NUL (x +:+ String NUL y) = true.
Proof. induction x as [|a x IH]; [done|]. rewrite str_app_cons. cbn. by destruct (Ascii.eqb a NUL). Qed.

Lemma composite_key_inj k1 c1 k2 c2 : contains_char NUL c1 = false -> contains_char NUL c2 = false ->
  index_composite_key k1 c1 = index_composite_key k2 c2 -> k1 = k2 /\ c1 = c2.
Proof.
  unfold index_composite_key. intros H1 H2. change (String NUL EmptyString +:+ c1) with (String NUL c1).
  change (String NUL EmptyString +:+ c2) with (String NUL c2). revert k2.
  induction k1 as [|a k1 IH]; intros [|b k2]; rewrite ?str_app_nil_l, ?str_app_cons.
  - by intros [= ->].
  - intros [= _ ->]. by rewrite nul_in_app in H1.
  - intros [= _ <-]. by rewrite nul_in_app in H2.
  - intros [= -> E]. by destruct (IH k2 E) as [-> ->].
Qed.

Definition index_names : list string := [TYPES; TAGS; EXECUTORS].

(** The index entries of a chip. *)
Definition index_entries (c : StoredChip) : list (string * string) :=
  (TYPES, index_composite_key (chip_type c) (cid_as_str (cid c)))
  :: ((fun tag => (TAGS, index_composite_key tag (cid_as_str (cid c)))) <$> tags c)
  ++ [(EXECUTORS, index_composite_key (executor_of c) (cid_as_str (cid c)))].

Lemma index_entries_names c n k : (n, k) ∈ index_entries c -> n ∈ index_names.
Proof.
  unfold index_entries. rewrite elem_of_cons, elem_of_app, list_elem_of_singleton, list_elem_of_fmap.
  intros [[= -> ->]|[(tag & [= -> ->] & _)|[= -> ->]]]; by apply (bool_decide_unpack _).
Qed.

Lemma index_entries_keys c n k : (n, k) ∈ index_entries c -> exists key, k = index_composite_key key (cid_as_str (cid c)).
Proof.
  unfold index_entries. rewrite elem_of_cons, elem_of_app, list_elem_of_singleton, list_elem_of_fmap.
  intros [[= -> ->]|[(tag & [= -> ->] & _)|[= -> ->]]]; eauto.
Qed.

Lemma index_names_apart n : n ∈ index_names -> n <> CHIPS /\ n <> RECEIPTS.
Proof. intros H. split; intros ->; revert H; by apply (bool_decide_unpack (_ ∉ _)). Qed.

(** ** Changes of the index trees *)

Definition add_all (l : list (string * string)) (t : Trees) : Trees :=
  fold_left (fun t nk => Sled.set_tree nk.1 (btree_insert nk.2 [] (t nk.1)) t) l t.
Definition del_all (l : list (string * string)) (t : Trees) : Trees :=
  fold_left (fun t nk => Sled.set_tree nk.1 (btree_remove nk.2 (t nk.1)) t) l t.

Lemma set_tree_wf n x t : btree_wf x -> (forall m, btree_wf (t m)) -> forall m, btree_wf (Sled.set_tree n x t m).
Proof. intros Hx Ht m. unfold Sled.set_tree. by case_decide. Qed.

Lemma add_all_spec l t : (forall n, btree_wf (t n)) ->
  (forall n, btree_wf (add_all l t n)) /\ forall n k, k ∈ (add_all l t n).*1 <-> k ∈ (t n).*1 \/ (n, k) ∈ l.
Proof.
  revert t. induction l as [|[m x] l IH]; intros t Ht; cbn [add_all fold_left fst snd].
  { split; [done|]. intros n k. rewrite elem_of_nil. tauto. }
  assert (Hw : forall n, btree_wf (Sled.set_tree m (btree_insert x [] (t m)) t n)) by (apply set_tree_wf; auto with ubl).
  destruct (IH _ Hw) as [Hw' Hk]. split; [exact Hw'|]. intros n k. etrans; [apply Hk|]. rewrite elem_of_cons.
  unfold Sled.set_tree. case_decide as E; [subst n|naive_solver].
  rewrite !btree_keys_get by auto with ubl. rewrite btree_get_insert by done. destruct (String.eqb_spec k x); naive_solver.
Qed.

Lemma del_all_spec l t : (forall n, btree_wf (t n)) ->
  (forall n, btree_wf (del_all l t n)) /\ forall n k, k ∈ (del_all l t n).*1 <-> k ∈ (t n).*1 /\ (n, k) ∉ l.
Proof.
  revert t. induction l as [|[m x] l IH]; intros t Ht; cbn [del_all fold_left fst snd].
  { split; [done|]. intros n k. rewrite elem_of_nil. tauto. }
  assert (Hw : forall n, btree_wf (Sled.set_tree m (btree_remove x (t m)) t n)) by (apply set_tree_wf; auto with ubl).
  destruct (IH _ Hw) as [Hw' Hk]. split; [exact Hw'|]. intros n k. etrans; [apply Hk|]. rewrite not_elem_of_cons.
  unfold Sled.set_tree. case_decide as E; [subst n|naive_solver].
  rewrite !list_elem_of_fmap. setoid_rewrite btree_remove_elem. naive_solver.
Qed.

Lemma add_all_apart l t n : (forall k, (n, k) ∉ l) -> add_all l t n = t n.
Proof.
  revert t. induction l as [|[m x] l IH]; intros t H; [done|]. cbn. etrans; [apply IH|].
  - intros k Hk. apply (H k). by right.
  - apply set_tree_ne. intros ->. apply (H x). left.
Qed.
Lemma del_all_apart l t n : (forall k, (n, k) ∉ l) -> del_all l t n = t n.
Proof.
  revert t. induction l as [|[m x] l IH]; intros t H; [done|]. cbn. etrans; [apply IH|].
  - intros k Hk. apply (H k). by right.
  - apply set_tree_ne. intros ->. apply (H x). left.
Qed.
Lemma no_index_entry c n : n ∉ index_names -> forall k, (n, k) ∉ index_entries c.
Proof. by intros Hn k ?%index_entries_names. Qed.

(** ** The contents of the trees *)

Section Contents.
Context {SJ : SerdeJson}.
Implicit Types (t : Trees) (c : StoredChip).

Definition raw_chips (l : Tree) : gmap TypedCid bytes := list_to_map ((fun kv => (cid_new_unchecked kv.1, kv.2)) <$> l).
Definition tree_contents t : gmap TypedCid StoredChip := omap chip_from_slice (raw_chips (t CHIPS)).

Lemma raw_lookup l k : raw_chips l !! cid_new_unchecked k = btree_get k l.
Proof.
  unfold raw_chips. induction l as [|[k' v] l IH]; [done|]. cbn. destruct (String.eqb_spec k k') as [->|Hne].
  - by rewrite lookup_insert_eq.
  - rewrite lookup_insert_ne; [exact IH|]. by intros [= ->].
Qed.

Lemma contents_lookup t k : tree_contents t !! cid_new_unchecked k = btree_get k (t CHIPS) ≫= chip_from_slice.
Proof. unfold tree_contents. by rewrite lookup_omap, raw_lookup. Qed.

Lemma contents_ext t u : u CHIPS = t CHIPS -> tree_contents u = tree_contents t.
Proof. unfold tree_contents. by intros ->. Qed.

Lemma contents_eq t (m : gmap TypedCid StoredChip) :
  (forall k, btree_get k (t CHIPS) ≫= chip_from_slice = m !! cid_new_unchecked k) -> tree_contents t = m.
Proof. intros H. apply map_eq. intros [k]. by rewrite contents_lookup. Qed.

Lemma contents_insert t u c : btree_wf (t CHIPS) -> chip_from_slice (chip_to_vec c) = Some c ->
  u CHIPS = btree_insert (cid_as_str (cid c)) (chip_to_vec c) (t CHIPS) -> tree_contents u = <[cid c := c]> (tree_contents t).
Proof.
  intros Hw Hc Hu. apply contents_eq. intros k. rewrite Hu, btree_get_insert by done. destruct (cid c) as [kc]. cbn.
  destruct (String.eqb_spec k kc) as [->|Hne].
  - by rewrite lookup_insert_eq.
  - rewrite lookup_insert_ne by by intros [= ->]. by rewrite contents_lookup.
Qed.

Lemma contents_remove t u k : btree_wf (t CHIPS) -> u CHIPS = btree_remove k (t CHIPS) ->
  tree_contents u = delete (cid_new_unchecked k) (tree_contents t).
Proof.
  intros Hw Hu. apply contents_eq. intros k'. rewrite Hu, btree_get_remove by done.
  destruct (String.eqb_spec k' k) as [->|Hne]; [by rewrite lookup_delete_eq|].
  rewrite lookup_delete_ne by by intros [= ->]. by rewrite contents_lookup.
Qed.

(** A chip that is read back, with texts of Rust strings and a CID without zero
    bytes. *)
Record clean c : Prop := {
  clean_cid : str_wf (cid_as_str (cid c)) /\ contains_char NUL (cid_as_str (cid c)) = false;
  clean_keys : str_wf (chip_type c) /\ Forall str_wf (tags c) /\ str_wf (executor_of c) }.
Record good c : Prop := {
  good_clean : clean c;
  good_numbers : in_i64 (execution_time_ms (execution_metadata c)) = true /\
                 0 <= fuel_consumed (execution_metadata c) <= u64_max;
  good_json : from_slice (to_vec (chip_to_json c)) = Some (chip_to_json c) }.

Lemma metadata_round m : in_i64 (execution_time_ms m) = true -> 0 <= fuel_consumed m <= u64_max ->
  metadata_from_json (metadata_to_json m) = Some m.
Proof.
  destruct m as [rv ms fuel ps [did] rep]. cbn [execution_time_ms fuel_consumed]. intros Hms Hf.
  unfold metadata_from_json, metadata_to_json. cbn -[in_i64 i64_max Z.leb]. unfold json_i64, in_i64 in *.
  rewrite strings_read. destruct (Z.leb_spec 0 fuel); [|lia]. cbn -[i64_max Z.leb].
  destruct (Z.leb_spec 0 ms); cbn -[i64_max Z.leb]; [|done]. apply andb_true_iff in Hms as [_ ->]. done.
Qed.

Lemma good_reads c : good c -> chip_from_slice (chip_to_vec c) = Some c.
Proof.
  intros [_ [Hms Hf] Hj]. unfold chip_from_slice, chip_to_vec. rewrite Hj. destruct c as [[k] ty data [r] tm m tg rel].
  cbn in Hms, Hf. unfold chip_from_json, chip_to_json. cbn -[metadata_from_json metadata_to_json].
  rewrite metadata_round by done. cbn. by rewrite !strings_read.
Qed.

(** The invariant that no failure breaks: ordered trees, readable chips under
    their own CIDs, keys and receipts that are text. *)
Record sound t : Prop := {
  sound_wf n : btree_wf (t n);
  sound_chips kv : kv ∈ t CHIPS -> exists c, chip_from_slice kv.2 = Some c /\ cid_as_str (cid c) = kv.1 /\ clean c;
  sound_keys n k : n ∈ index_names -> k ∈ (t n).*1 -> str_wf k;
  sound_receipts kv : kv ∈ t RECEIPTS -> utf8_valid kv.2 = true }.

(** Every stored chip has its index entries. *)
Definition complete t : Prop := forall c n k, tree_contents t !! cid c = Some c -> (n, k) ∈ index_entries c -> k ∈ (t n).*1.

Lemma sound_lookup t k c : sound t -> tree_contents t !! k = Some c -> cid c = k /\ clean c.
Proof.
  intros Hs. destruct k as [k]. rewrite contents_lookup. destruct (btree_get k (t CHIPS)) as [bs|] eqn:E; [|done]. cbn. intros Hc.
  apply btree_get_elem in E; [|by apply sound_wf]. destruct (sound_chips t Hs _ E) as (c' & Hc' & Hk & Hcl). cbn in *.
  rewrite Hc in Hc'. injection Hc' as <-. split; [|done]. destruct (cid c). cbn in Hk. by subst.
Qed.

Lemma sound_keyed t : sound t -> keyed (tree_contents t).
Proof. intros Hs k c H. by apply (sound_lookup t). Qed.

(** The chips of the tree in the order of its keys are those of the map. *)
Lemma tree_chips_perm t : sound t -> omap (fun kv => chip_from_slice kv.2) (t CHIPS) ≡ₚ all_chips (tree_contents t).
Proof.
  intros Hs. apply NoDup_Permutation.
  - assert (Hsub : forall l, (forall kv, kv ∈ l -> kv ∈ t CHIPS) -> NoDup l.*1 -> NoDup (omap (fun kv => chip_from_slice kv.2) l)).
    { induction l as [|kv l IH]; intros Hl Hnd; [constructor|]. cbn in *. apply NoDup_cons in Hnd as [Hkv Hnd].
      destruct (chip_from_slice kv.2) as [c|] eqn:Ec; [|apply IH; [|done]; intros; apply Hl; by right].
      constructor; [|apply IH; [|done]; intros; apply Hl; by right].
      rewrite list_elem_of_omap. intros (kv' & Hkv' & Ec'). apply Hkv.
      destruct (sound_chips t Hs kv) as (d & Ed & Hd & _); [apply Hl; left|].
      destruct (sound_chips t Hs kv') as (d' & Ed' & Hd' & _); [apply Hl; by right|].
      assert (d' = d) as -> by congruence. rewrite <- Hd, Hd'. by apply list_elem_of_fmap_2. }
    apply Hsub; [done|]. apply btree_wf_NoDup, Hs.
  - apply NoDup_all_chips, sound_keyed, Hs.
  - intros c. rewrite elem_all_chips by by apply sound_keyed. rewrite list_elem_of_omap. split.
    + intros ([k bs] & Hkv & Ec). cbn in Ec. destruct (sound_chips t Hs _ Hkv) as (d & Ed & Hd & _). cbn in *.
      assert (d = c) as -> by congruence. destruct (cid c) as [k']. cbn in Hd. subst k'.
      apply btree_get_elem in Hkv; [|apply Hs]. by rewrite contents_lookup, Hkv.
    + intros H. destruct (cid c) as [k]. rewrite contents_lookup in H. destruct (btree_get k (t CHIPS)) as [bs|] eqn:E; [|done].
      apply btree_get_elem in E; [|apply Hs]. by exists (k, bs).
Qed.
End Contents.

(** ** Reads *)

Section Facts.
Context {HI : HashIter} `{!HashIterLaws HI} {SJ : SerdeJson} {CT : ChipTexts}.
Context {D : Type} {SLD : Sled D ChipStoreError} {SLL : SledLaws SLD}.
Implicit Types (t u : Trees) (c : StoredChip).

Lemma read_entries_run key l acc t :
  (forall kv, kv ∈ l -> exists x, kv.1 = index_composite_key key x /\ str_wf x) ->
  exists s, turns (read_entries key l acc) t t s /\ forall x, x ∈ s <-> x ∈ acc \/ index_composite_key key x ∈ l.*1.
Proof.
  revert acc. induction l as [|[k v] l IH]; intros acc Hl; cbn [read_entries].
  { exists acc. split; [apply turns_ret|]. intros x. rewrite elem_of_nil. tauto. }
  destruct (Hl (k, v)) as (x & Hk & Hx); [left|]. cbn in Hk. subst k. rewrite <- composite_key_prefix, length_prefix, substring_suffix, Hx.
  destruct (IH ({[x]} ∪ acc)) as (s & Hs & Hin); [intros; apply Hl; by right|].
  exists s. split; [eapply turns_bind; [apply turns_next|exact Hs]|]. intros y. rewrite Hin. cbn [fmap list_fmap fst].
  rewrite elem_of_cons, elem_of_union, elem_of_singleton.
  assert (Hi : index_composite_key key y = index_prefix key +:+ x <-> y = x); [|naive_solver].
  rewrite <- composite_key_prefix. split; [apply str_app_inj_l|by intros ->].
Qed.

Lemma read_index_run n key t : sound t -> n ∈ index_names ->
  exists s, turns (read_index_set n key) t t s /\ forall x, x ∈ s <-> index_composite_key key x ∈ (t n).*1.
Proof.
  intros Hs Hn. destruct (read_entries_run key (tree_prefix (index_prefix key) (t n)) ∅ t) as (s & Hr & Hin).
  { intros kv [Hp Hkv]%elem_of_list_filter. apply starts_with_Some in Hp as [x Hx]. exists x. rewrite Hx, composite_key_prefix. split; [done|].
    apply (composite_suffix_wf key). rewrite <- composite_key_prefix, <- Hx. apply (sound_keys t Hs n); [done|]. by apply list_elem_of_fmap_2. }
  exists s. split; [eapply turns_bind; [apply turns_asks_tree|exact Hr]|]. intros x. rewrite Hin, !list_elem_of_fmap. split.
  - intros [[]%elem_of_empty|(kv & E & [_ Hkv]%elem_of_list_filter)]. by exists kv.
  - intros (kv & E & Hkv). right. exists kv. split; [done|]. apply elem_of_list_filter. split; [|done].
    rewrite <- E, <- composite_key_prefix. apply starts_with_app.
Qed.

Lemma load_run k t : sound t -> turns (load_chip_by_cid k) t t (tree_contents t !! cid_new_unchecked k).
Proof.
  intros Hs. unfold load_chip_by_cid. rewrite contents_lookup. eapply turns_bind; [apply turns_get|].
  destruct (btree_get k (t CHIPS)) as [bs|] eqn:E; [|apply turns_ret]. cbn [mbind option_bind].
  apply btree_get_elem in E; [|apply Hs]. destruct (sound_chips t Hs _ E) as (c & Hc & _). cbn in Hc. rewrite Hc.
  eapply turns_bind; [|apply turns_ret]. apply turns_lift. by rewrite Hc.
Qed.

Lemma load_chips_run keep ks t : sound t ->
  turns (load_chips keep ks) t t (List.filter keep (omap (fun k => tree_contents t !! cid_new_unchecked k) ks)).
Proof.
  intros Hs. induction ks as [|k ks IH]; cbn [load_chips]; [apply turns_ret|].
  eapply turns_bind; [by apply load_run|]. eapply turns_bind; [exact IH|]. cbn.
  destruct (tree_contents t !! _) as [c|]; cbn; apply turns_ret.
Qed.

Lemma collect_run keep l t : (forall kv, kv ∈ l -> is_Some (chip_from_slice kv.2)) ->
  turns (collect_chips keep l) t t (List.filter keep (omap (fun kv => chip_from_slice kv.2) l)).
Proof.
  induction l as [|[k bs] l IH]; intros Hl; cbn [collect_chips]; [apply turns_ret|].
  destruct (Hl (k, bs)) as [c Hc]; [left|]. cbn in Hc. eapply turns_bind; [apply turns_next|].
  eapply turns_bind; [apply turns_lift; by rewrite Hc|]. eapply turns_bind; [apply IH; intros; apply Hl; by right|]. cbn. rewrite Hc. apply turns_ret.
Qed.

Lemma scan_run keep t : sound t -> exists l, l ≡ₚ List.filter keep (all_chips (tree_contents t)) /\
  turns (x ← asks (tree_of CHIPS); collect_chips keep x) t t l.
Proof.
  intros Hs. eexists. split; [|eapply turns_bind; [apply turns_asks_tree|apply collect_run]].
  - by rewrite <- tree_chips_perm.
  - intros kv Hkv. destruct (sound_chips t Hs kv Hkv) as (c & -> & _). by eexists.
Qed.

(** A set of candidates that misses no matching chip. *)
Definition covers t (q : ChipQuery) (s : gset string) : Prop :=
  forall c, tree_contents t !! cid c = Some c -> matches_query c q = true -> cid_as_str (cid c) ∈ s.
Definition covers_opt t q (o : option (gset string)) : Prop := match o with Some s => covers t q s | None => True end.

Lemma intersect_covers t q o s : covers_opt t q o -> covers t q s -> covers t q (intersect_sets o s).
Proof. intros Ho Hs c Hc Hm. destruct o as [s'|]; cbn; [|by apply Hs]. apply elem_of_intersection. split; [by apply Ho|by apply Hs]. Qed.

Lemma narrow_run t q n key : sound t -> complete t -> n ∈ index_names ->
  (forall c, matches_query c q = true -> (n, index_composite_key key (cid_as_str (cid c))) ∈ index_entries c) ->
  exists s, turns (read_index_set n key) t t s /\ covers t q s.
Proof.
  intros Hs Hc Hn Hq. destruct (read_index_run n key t Hs Hn) as (s & Hr & Hin). exists s. split; [done|].
  intros c Hst Hm. apply Hin. by eapply Hc, Hq.
Qed.

Lemma tags_run t q tgs o : sound t -> complete t -> (forall tag, tag ∈ tgs -> forall c, matches_query c q = true -> tag ∈ tags c) ->
  covers_opt t q o -> exists o', turns (narrow_by_tags tgs o) t t o' /\ covers_opt t q o' /\ (is_Some o \/ tgs <> [] -> is_Some o').
Proof.
  intros Hs Hc. revert o. induction tgs as [|tag tgs IH]; intros o Ht Ho; cbn [narrow_by_tags].
  { exists o. split_and!; [apply turns_ret|done|naive_solver]. }
  destruct (narrow_run t q TAGS tag Hs Hc) as (s & Hr & Hcov); [by apply (bool_decide_unpack _)| |].
  { intros c Hm. unfold index_entries. apply list_elem_of_further, elem_of_app. left.
    apply (list_elem_of_fmap_2 (fun tag => (TAGS, index_composite_key tag (cid_as_str (cid c))))), (Ht tag); [left|done]. }
  destruct (IH (Some (intersect_sets o s))) as (o' & Hr' & Hcov' & Hsome).
  - intros tag' Htag'. apply Ht. by right.
  - by apply intersect_covers.
  - exists o'. split_and!; [by eapply turns_bind|done|]. intros _. apply Hsome. left. by eexists.
Qed.

Lemma matches_parts c q : matches_query c q = true ->
  (forall ty, q_chip_type q = Some ty -> ty = chip_type c) /\ (forall tag, tag ∈ q_tags q -> tag ∈ tags c) /\
  (forall e, q_executor_did q = Some e -> e = executor_of c).
Proof.
  unfold matches_query. intros H. repeat (apply andb_true_iff in H as [H ?]). split_and!.
  - intros ty Hty. rewrite Hty in H. cbn in H. by apply String.eqb_eq in H.
  - intros tag Htag. match goal with Hf : forallb _ _ = true |- _ => rewrite forallb_forall in Hf; apply list_elem_of_In, Hf in Htag end.
    unfold has_tag_in in Htag. apply existsb_exists in Htag as (x & Hx & ->%String.eqb_eq). by apply list_elem_of_In.
  - intros e He. rewrite He in *. match goal with Hx : when_some (Some e) _ = true |- _ => by apply String.eqb_eq in Hx end.
Qed.

(** The step of one optional filter. *)
Lemma filter_run t q n (f : option string) o : sound t -> complete t -> n ∈ index_names ->
  (forall key c, f = Some key -> matches_query c q = true -> (n, index_composite_key key (cid_as_str (cid c))) ∈ index_entries c) ->
  covers_opt t q o ->
  exists o', turns (match f with Some key => s ← read_index_set n key; mret (Some (intersect_sets o s)) | None => mret o end) t t o' /\
    covers_opt t q o' /\ (is_Some f \/ is_Some o -> is_Some o').
Proof.
  intros Hs Hc Hn Hf Ho. destruct f as [key|]; [|exists o; split_and!; [apply turns_ret|done|naive_solver]].
  destruct (narrow_run t q n key Hs Hc Hn) as (s & Hr & Hcov); [by intros c; apply Hf|].
  exists (Some (intersect_sets o s)). split_and!; [|by apply intersect_covers|by eexists]. eapply turns_bind; [exact Hr|apply turns_ret].
Qed.

Lemma candidates_run t q : sound t -> complete t -> exists o, turns (sled_candidate_cids q) t t o /\ covers_opt t q o.
Proof.
  intros Hs Hc. unfold sled_candidate_cids.
  destruct (filter_run t q TYPES (q_chip_type q) None Hs Hc) as (o1 & R1 & C1 & S1); [by apply (bool_decide_unpack _)| |done|].
  { intros ty c Hty Hm. destruct (matches_parts c q Hm) as (H & _). rewrite (H ty) by done. left. }
  destruct (tags_run t q (q_tags q) o1 Hs Hc) as (o2 & R2 & C2 & S2); [|done|].
  { intros tag Htag c Hm. by apply (matches_parts c q Hm). }
  destruct (filter_run t q EXECUTORS (q_executor_did q) o2 Hs Hc) as (o3 & R3 & C3 & S3); [by apply (bool_decide_unpack _)| |done|].
  { intros e c He Hm. destruct (matches_parts c q Hm) as (_ & _ & H). rewrite (H e) by done. unfold index_entries.
    apply list_elem_of_further, elem_of_app. right. left. }
  assert (Hgo : is_Some (q_chip_type q) \/ q_tags q <> [] \/ is_Some (q_executor_did q) -> covers_opt t q (Some (default ∅ o3))).
  { intros H. assert (is_Some o3) as [s ->] by naive_solver. done. }
  destruct (q_chip_type q) as [ty|]; [|destruct (q_tags q) as [|tag tgs] eqn:Et; [destruct (q_executor_did q) as [e|]|]].
  3: { exists None. split; [apply turns_ret|done]. }
  all: exists (Some (default ∅ o3)); split; [|apply Hgo; naive_solver].
  all: eapply turns_bind; [exact R1|]; eapply turns_bind; [exact R2|]; eapply turns_bind; [exact R3|apply turns_ret].
Qed.

(** Looking up a set that covers the wanted chips finds them all. *)
Lemma lookups_cover t (s : gset string) (p : StoredChip -> bool) : sound t ->
  (forall c, tree_contents t !! cid c = Some c -> p c = true -> cid_as_str (cid c) ∈ s) ->
  List.filter p (omap (fun k => tree_contents t !! cid_new_unchecked k) (set_list s)) ≡ₚ List.filter p (all_chips (tree_contents t)).
Proof.
  intros Hs Hcov.
  assert (Heq : omap (fun k => tree_contents t !! cid_new_unchecked k) (set_list s) =
    omap (fun k => tree_contents t !! k) (cid_new_unchecked <$> set_list s)).
  { generalize (set_list s). intros l. induction l as [|k l IH]; [done|]. cbn. by rewrite IH. }
  rewrite Heq. apply lookups_list_perm; [by apply sound_keyed| |].
  - apply NoDup_fmap_2; [by intros ? ? [= ->]|]. unfold set_list. rewrite hash_iter_perm. apply NoDup_elements.
  - intros c Hc Hp. specialize (Hcov c Hc Hp). destruct (cid c) as [k]. cbn in Hcov. apply list_elem_of_fmap_2.
    unfold set_list. rewrite hash_iter_perm. by apply elem_of_elements.
Qed.

Lemma query_run t q : sound t -> complete t ->
  exists l, l ≡ₚ matching q (tree_contents t) /\ turns (sled_query_chips q) t t (apply_pagination l q).
Proof.
  intros Hs Hc. destruct (candidates_run t q Hs Hc) as (o & Hr & Hcov). unfold sled_query_chips. destruct o as [s|].
  - eexists. split; [by apply (lookups_cover t s)|]. eapply turns_bind; [exact Hr|].
    eapply turns_bind; [by apply load_chips_run|apply turns_ret].
  - destruct (scan_run (fun c => matches_query c q) t Hs) as (l & Hp & Hl). exists l. split; [done|].
    eapply turns_bind; [exact Hr|]. eapply turns_bind; [exact Hl|apply turns_ret].
Qed.

Lemma by_type_run t ty : sound t -> complete t ->
  exists l, l ≡ₚ List.filter (fun c => String.eqb (chip_type c) ty) (all_chips (tree_contents t)) /\
    turns (sled_get_chips_by_type ty) t t (sort_by newest_first l).
Proof.
  intros Hs Hc. destruct (read_index_run TYPES ty t Hs) as (s & Hr & Hin); [by apply (bool_decide_unpack _)|]. eexists. split.
  - apply (lookups_cover t s); [done|]. intros c Hst <-%String.eqb_eq. apply Hin, (Hc c); [done|left].
  - eapply turns_bind; [exact Hr|]. eapply turns_bind; [by apply load_chips_run|apply turns_ret].
Qed.

Lemma related_run t k : sound t -> turns (sled_get_related_chips k) t t
  (match tree_contents t !! cid_new_unchecked k with
   | Some c => omap (fun r => tree_contents t !! cid_new_unchecked r) (related_chips c)
   | None => []
   end).
Proof.
  intros Hs. eapply turns_bind; [by apply load_run|]. destruct (tree_contents t !! _) as [c|]; [|apply turns_ret].
  pose proof (load_chips_run (fun _ => true) (related_chips c) t Hs) as H. by rewrite list_filter_all in H.
Qed.
(** ** Writes *)

Lemma sound_set n x t : sound t -> n <> CHIPS -> btree_wf x -> (n ∈ index_names -> forall k, k ∈ x.*1 -> str_wf k) ->
  (n = RECEIPTS -> forall kv, kv ∈ x -> utf8_valid kv.2 = true) -> sound (Sled.set_tree n x t).
Proof.
  intros Hs Hn Hx Hk Hr. split.
  - apply set_tree_wf; [done|apply Hs].
  - rewrite set_tree_ne by done. apply Hs.
  - intros m k Hm. unfold Sled.set_tree. case_decide; [subst; by apply Hk|by apply Hs].
  - unfold Sled.set_tree. case_decide; [by apply Hr|apply Hs].
Qed.

Lemma sound_add n k t : sound t -> n ∈ index_names -> str_wf k -> sound (Sled.set_tree n (btree_insert k [] (t n)) t).
Proof.
  intros Hs Hn Hk. destruct (index_names_apart n Hn). apply sound_set; [done..|apply btree_insert_wf, Hs| |done].
  intros _ k' Hin. apply btree_insert_keys in Hin as [->|Hin]; [done|by apply (sound_keys t Hs n)].
Qed.
Lemma sound_drop n k t : sound t -> n <> CHIPS -> sound (Sled.set_tree n (btree_remove k (t n)) t).
Proof.
  intros Hs Hn. apply sound_set; [done..|apply btree_remove_wf, Hs| |].
  - intros Hin k' (kv & -> & [Hkv _]%btree_remove_elem)%list_elem_of_fmap. apply (sound_keys t Hs n); [done|]. by apply list_elem_of_fmap_2.
  - intros -> kv [Hkv _]%btree_remove_elem. by apply (sound_receipts t Hs).
Qed.
(** Entries of a tree that is not the chips' may be missing. *)
Lemma sound_sub n x t : sound t -> n <> CHIPS -> x `sublist_of` t n -> sound (Sled.set_tree n x t).
Proof.
  intros Hs Hn Hx. apply sound_set; [done..|eapply btree_sublist_wf; [exact Hx|apply Hs]| |].
  - intros Hin k Hk. apply (sound_keys t Hs n); [done|]. by eapply sublist_keys.
  - intros -> kv Hkv. apply (sound_receipts t Hs). by eapply sublist_in.
Qed.
Lemma sound_receipt k v t : sound t -> utf8_valid v = true -> sound (Sled.set_tree RECEIPTS (btree_insert k v (t RECEIPTS)) t).
Proof.
  intros Hs Hv. apply sound_set; [done..|apply btree_insert_wf, Hs| |].
  - by intros Hn%index_names_apart%proj2.
  - intros _ kv [->|[Hkv _]]%btree_insert_elem; [done|by apply (sound_receipts t Hs)|apply Hs].
Qed.
Lemma sound_chip c t : sound t -> good c -> sound (Sled.set_tree CHIPS (btree_insert (cid_as_str (cid c)) (chip_to_vec c) (t CHIPS)) t).
Proof.
  intros Hs Hc. split.
  - apply set_tree_wf; [apply btree_insert_wf, Hs|apply Hs].
  - rewrite set_tree_eq. intros kv [->|[Hkv _]]%btree_insert_elem; [|by apply (sound_chips t Hs)|apply Hs].
    exists c. split_and!; [by apply good_reads|done|apply Hc].
  - intros n k Hn. rewrite set_tree_ne by by apply index_names_apart. by apply Hs.
  - rewrite set_tree_ne by done. apply Hs.
Qed.

Lemma sound_chip_drop k t : sound t -> sound (Sled.set_tree CHIPS (btree_remove k (t CHIPS)) t).
Proof.
  intros Hs. split.
  - apply set_tree_wf; [apply btree_remove_wf, Hs|apply Hs].
  - rewrite set_tree_eq. intros kv [Hkv _]%btree_remove_elem. by apply Hs.
  - intros n x Hn. rewrite set_tree_ne by by apply index_names_apart. by apply Hs.
  - rewrite set_tree_ne by done. apply Hs.
Qed.

Lemma composite_key_wf key k : str_wf key -> str_wf k -> str_wf (index_composite_key key k).
Proof. intros H1 H2. unfold index_composite_key. apply str_wf_app; [done|]. by apply str_wf_app. Qed.

Lemma index_entries_wf c n k : clean c -> (n, k) ∈ index_entries c -> str_wf k.
Proof.
  intros [[Hc _] (H1 & H2 & H3)]. unfold index_entries. rewrite elem_of_cons, elem_of_app, list_elem_of_singleton, list_elem_of_fmap.
  rewrite Forall_forall in H2. intros [[= -> ->]|[(tag & [= -> ->] & Htag)|[= -> ->]]]; apply composite_key_wf; auto.
Qed.

Lemma sound_add_all l t : sound t -> (forall n k, (n, k) ∈ l -> n ∈ index_names /\ str_wf k) -> sound (add_all l t).
Proof.
  revert t. induction l as [|[n k] l IH]; intros t Hs Hl; [done|]. cbn. destruct (Hl n k) as [Hn Hk]; [left|].
  apply IH; [by apply sound_add|]. intros m x Hx. apply Hl. by right.
Qed.
Lemma sound_del_all l t : sound t -> (forall n k, (n, k) ∈ l -> n <> CHIPS) -> sound (del_all l t).
Proof.
  revert t. induction l as [|[n k] l IH]; intros t Hs Hl; [done|]. cbn. apply IH; [apply sound_drop; [done|]; apply (Hl n k); left|].
  intros m x Hx. apply (Hl m x). by right.
Qed.

(** The index entries and the receipt of a chip. *)
Definition with_receipt c t : Trees :=
  Sled.set_tree RECEIPTS (btree_insert (cid_as_str (receipt_cid c)) (as_bytes (cid_as_str (cid c))) (t RECEIPTS)) t.
Definition reindex c t : Trees := add_all (index_entries c) (with_receipt c t).

Lemma fold_left_fmap {A B C} (f : A -> B -> A) (g : C -> B) l a : fold_left f (g <$> l) a = fold_left (fun a x => f a (g x)) l a.
Proof. revert a. induction l as [|x l IH]; intros a; [done|]. cbn. apply IH. Qed.

Lemma add_index_run c t : turns (add_chip_to_indexes c) t (add_all (index_entries c) t) tt.
Proof.
  unfold add_chip_to_indexes, index_entries, add_all. cbn [fold_left fst snd]. rewrite fold_left_app, fold_left_fmap. cbn [fold_left fst snd].
  eapply turns_bind; [apply turns_insert|]. eapply turns_bind; [|apply turns_insert].
  apply (turns_each _ (fun tag t => Sled.set_tree TAGS (btree_insert (index_composite_key tag (cid_as_str (cid c))) [] (t TAGS)) t)).
  intros tag u. apply turns_insert.
Qed.
Lemma remove_index_run c t : turns (sled_remove_chip_from_indexes c) t (del_all (index_entries c) t) tt.
Proof.
  unfold sled_remove_chip_from_indexes, index_entries, del_all. cbn [fold_left fst snd]. rewrite fold_left_app, fold_left_fmap. cbn [fold_left fst snd].
  eapply turns_bind; [apply turns_remove|]. eapply turns_bind; [|apply turns_remove].
  apply (turns_each _ (fun tag t => Sled.set_tree TAGS (btree_remove (index_composite_key tag (cid_as_str (cid c))) (t TAGS)) t)).
  intros tag u. apply turns_remove.
Qed.

Lemma reindex_sound c t : sound t -> clean c -> sound (reindex c t).
Proof.
  intros Hs Hc. apply sound_add_all; [apply sound_receipt; [done|apply Hc]|]. intros n k Hin. split; [by eapply index_entries_names|by eapply index_entries_wf].
Qed.
Lemma with_receipt_ne c t n : n <> RECEIPTS -> with_receipt c t n = t n.
Proof. intros H. unfold with_receipt. by rewrite set_tree_ne. Qed.
Lemma reindex_chips c t : reindex c t CHIPS = t CHIPS.
Proof. unfold reindex. rewrite add_all_apart by by apply no_index_entry, (bool_decide_unpack _). by apply with_receipt_ne. Qed.
Lemma reindex_keys c t n k : sound t -> clean c -> n ∈ index_names -> k ∈ (reindex c t n).*1 <-> k ∈ (t n).*1 \/ (n, k) ∈ index_entries c.
Proof.
  intros Hs Hc Hn. unfold reindex. destruct (add_all_spec (index_entries c) (with_receipt c t)) as [_ Hk].
  - apply (sound_receipt _ _ _ Hs). apply Hc.
  - rewrite Hk, with_receipt_ne; [done|]. by apply index_names_apart.
Qed.
Lemma reindex_receipts c t : reindex c t RECEIPTS = btree_insert (cid_as_str (receipt_cid c)) (as_bytes (cid_as_str (cid c))) (t RECEIPTS).
Proof. unfold reindex. rewrite add_all_apart by by apply no_index_entry, (bool_decide_unpack _). apply set_tree_eq. Qed.

(** *** Storing *)

Definition with_chip c t : Trees := Sled.set_tree CHIPS (btree_insert (cid_as_str (cid c)) (chip_to_vec c) (t CHIPS)) t.

Lemma put_run c t : turns (sled_put_chip c) t (reindex c (with_chip c t)) tt.
Proof. eapply turns_bind; [apply turns_insert|]. eapply turns_bind; [apply turns_insert|]. apply add_index_run. Qed.

Lemma put_contents c t : sound t -> good c -> tree_contents (reindex c (with_chip c t)) = <[cid c := c]> (tree_contents t).
Proof.
  intros Hs Hc. apply contents_insert; [apply Hs|by apply good_reads|]. rewrite reindex_chips. apply set_tree_eq.
Qed.

Lemma put_complete c t : sound t -> good c -> complete t -> complete (reindex c (with_chip c t)).
Proof.
  intros Hs Hg Hc d n k Hd Hk. rewrite put_contents in Hd by done. pose proof (index_entries_names _ _ _ Hk) as Hn.
  apply reindex_keys; [by apply sound_chip|apply Hg|done|]. destruct (decide (cid c = cid d)) as [E|Hne].
  - rewrite E, lookup_insert_eq in Hd. injection Hd as ->. by right.
  - rewrite lookup_insert_ne in Hd by done. left. unfold with_chip. rewrite set_tree_ne by by apply index_names_apart. by apply (Hc d).
Qed.

(** *** Deleting *)

Definition unindex c t : Trees :=
  del_all (index_entries c) (Sled.set_tree RECEIPTS (btree_remove (cid_as_str (receipt_cid c)) (t RECEIPTS)) t).
Definition without k t : Trees :=
  let u := match tree_contents t !! cid_new_unchecked k with Some c => unindex c t | None => t end in
  Sled.set_tree CHIPS (btree_remove k (u CHIPS)) u.

Lemma delete_run k t : sound t -> turns (sled_delete_chip k) t (without k t) tt.
Proof.
  intros Hs. eapply turns_bind; [by apply load_run|]. unfold without. eapply turns_bind; [|apply turns_remove].
  destruct (tree_contents t !! _) as [c|]; [|apply turns_ret]. eapply turns_bind; [apply turns_remove|apply remove_index_run].
Qed.

Lemma unindex_spec c t : sound t -> sound (unindex c t) /\ unindex c t CHIPS = t CHIPS /\
  forall n k, n ∈ index_names -> k ∈ (unindex c t n).*1 <-> k ∈ (t n).*1 /\ (n, k) ∉ index_entries c.
Proof.
  intros Hs. assert (Hr : sound (Sled.set_tree RECEIPTS (btree_remove (cid_as_str (receipt_cid c)) (t RECEIPTS)) t)) by by apply sound_drop.
  split_and!.
  - apply sound_del_all; [done|]. intros n k Hin%index_entries_names. by apply index_names_apart.
  - unfold unindex. rewrite del_all_apart by by apply no_index_entry, (bool_decide_unpack _). by apply set_tree_ne.
  - intros n k Hn. unfold unindex. destruct (del_all_spec (index_entries c) _ (sound_wf _ Hr)) as [_ ->].
    rewrite set_tree_ne; [done|]. by apply index_names_apart.
Qed.

Lemma without_spec k t : sound t -> sound (without k t) /\ tree_contents (without k t) = delete (cid_new_unchecked k) (tree_contents t) /\
  (complete t -> complete (without k t)).
Proof.
  intros Hs. unfold without. set (u := match _ with Some c => unindex c t | None => t end).
  assert (Hu : sound u /\ u CHIPS = t CHIPS).
  { unfold u. destruct (tree_contents t !! _) as [c|]; [|done]. by destruct (unindex_spec c t Hs) as (? & ? & _). }
  destruct Hu as [Hu Hch]. assert (Hcon : tree_contents (Sled.set_tree CHIPS (btree_remove k (u CHIPS)) u) = delete (cid_new_unchecked k) (tree_contents t)).
  { rewrite <- (contents_ext t u Hch). apply contents_remove; [apply Hu|]. apply set_tree_eq. }
  split_and!; [by apply sound_chip_drop|exact Hcon|].
  - intros Hc d n x Hd Hx. rewrite Hcon in Hd. apply lookup_delete_Some in Hd as [Hne Hd].
    pose proof (index_entries_names _ _ _ Hx) as Hn. rewrite set_tree_ne by by apply index_names_apart.
    assert (Hin : x ∈ (t n).*1) by by apply (Hc d). unfold u. destruct (tree_contents t !! cid_new_unchecked k) as [c|] eqn:E; [|done].
    destruct (unindex_spec c t Hs) as (_ & _ & Hk). apply Hk; [done|]. split; [done|]. intros Hx'.
    destruct (sound_lookup t _ _ Hs E) as [Ec [[_ Hc1] _]], (sound_lookup t _ _ Hs Hd) as [_ [[_ Hc2] _]].
    apply index_entries_keys in Hx as (k1 & ->), Hx' as (k2 & E2). apply composite_key_inj in E2 as [_ E2]; [|done..].
    apply Hne. rewrite <- Ec. destruct (cid c), (cid d). cbn in E2. by subst.
Qed.
(** *** Rebuilding *)

Definition cleared t : Trees := fold_left (fun t n => Sled.set_tree n [] t) [RECEIPTS; TYPES; TAGS; EXECUTORS] t.
Definition rebuilt t : Trees := fold_left (fun u c => reindex c u) (omap (fun kv => chip_from_slice kv.2) (t CHIPS)) (cleared t).

(** All that rebuilding needs: ordered trees and readable chips under their own
    CIDs. *)
Definition readable_chips t : Prop :=
  (forall n, btree_wf (t n)) /\
  forall kv, kv ∈ t CHIPS -> exists c, chip_from_slice kv.2 = Some c /\ cid_as_str (cid c) = kv.1 /\ clean c.

Lemma sound_readable t : sound t -> readable_chips t.
Proof. intros Hs. split; apply Hs. Qed.

Lemma cleared_spec t : readable_chips t -> sound (cleared t) /\ cleared t CHIPS = t CHIPS.
Proof.
  intros [Hw Hc]. split; [|done]. split.
  - unfold cleared. cbn [fold_left]. by repeat (apply set_tree_wf; [constructor|]).
  - exact Hc.
  - intros n k. unfold index_names. rewrite !elem_of_cons, elem_of_nil. by intros [->|[->|[->|[]]]] ?%elem_of_nil.
  - by intros kv ?%elem_of_nil.
Qed.

Lemma rebuild_run t : readable_chips t -> turns sled_rebuild_indexes t (rebuilt t) tt.
Proof.
  intros Hs. unfold sled_rebuild_indexes. eapply turns_bind.
  { apply (turns_each tree_clear (fun n t => Sled.set_tree n [] t)). intros n u. apply turns_clear. }
  fold (cleared t). eapply turns_bind; [apply turns_asks_tree|]. unfold rebuilt. rewrite (proj2 (cleared_spec t Hs)).
  pose proof (proj2 Hs) as Hall. generalize (cleared t). induction (t CHIPS) as [|kv l IH]; intros u; cbn [for_each]; [apply turns_ret|].
  destruct (Hall kv) as (c & Hc & _); [left|]. cbn [omap list_omap]. rewrite Hc. cbn [fold_left].
  eapply turns_bind; [|apply IH; intros; apply Hall; by right]. eapply turns_bind; [apply turns_next|].
  eapply turns_bind; [apply turns_lift; by rewrite Hc|]. eapply turns_bind; [apply turns_insert|apply add_index_run].
Qed.

Lemma reindex_all l t : sound t -> Forall clean l -> let u := fold_left (fun u c => reindex c u) l t in
  sound u /\ u CHIPS = t CHIPS /\
  forall n k, n ∈ index_names -> k ∈ (u n).*1 <-> k ∈ (t n).*1 \/ exists c, c ∈ l /\ (n, k) ∈ index_entries c.
Proof.
  revert t. induction l as [|c l IH]; intros t Hs Hl; cbn [fold_left]; cbv zeta.
  { split_and!; [done..|]. intros n k Hn. split; [by left|]. by intros [?|(c & []%elem_of_nil & _)]. }
  apply Forall_cons in Hl as [Hc Hl]. destruct (IH (reindex c t) (reindex_sound c t Hs Hc) Hl) as (H1 & H2 & H3).
  split_and!; [done|by rewrite H2, reindex_chips|]. intros n k Hn. rewrite H3, reindex_keys by done. setoid_rewrite elem_of_cons. naive_solver.
Qed.

Lemma rebuilt_spec t : readable_chips t -> sound (rebuilt t) /\ rebuilt t CHIPS = t CHIPS /\ complete (rebuilt t).
Proof.
  intros Hs. destruct (cleared_spec t Hs) as [Hcl Hch].
  assert (Hall : Forall clean (omap (fun kv => chip_from_slice kv.2) (t CHIPS))).
  { apply Forall_forall. intros c (kv & Hkv & Ec)%list_elem_of_omap. destruct (proj2 Hs kv Hkv) as (d & Ed & _ & Hd). congruence. }
  destruct (reindex_all _ _ Hcl Hall) as (H1 & H2 & H3). fold (rebuilt t) in *. rewrite Hch in H2. split_and!; [done..|].
  intros c n k Hc Hk. apply H3; [by eapply index_entries_names|]. right. exists c. split; [|done].
  rewrite (contents_ext (cleared t)) in Hc by by rewrite Hch. rewrite <- Hch, tree_chips_perm by done. by apply elem_all_chips; [apply sound_keyed|].
Qed.

(** *** Receipts *)

Lemma by_receipt_run c t : sound t -> good c ->
  turns (sled_get_chip_by_receipt_cid (cid_as_str (receipt_cid c))) (reindex c (with_chip c t)) (reindex c (with_chip c t)) (Some c).
Proof.
  intros Hs Hc. assert (Hu : sound (reindex c (with_chip c t))) by (apply reindex_sound; [by apply sound_chip|apply Hc]).
  eapply turns_bind; [apply turns_get|]. rewrite reindex_receipts, btree_get_insert, String.eqb_refl by apply (sound_chip c t Hs Hc).
  rewrite from_utf8_as_bytes by apply Hc. pose proof (load_run (cid_as_str (cid c)) _ Hu) as H.
  rewrite put_contents in H by done. destruct (cid c) as [k]. cbn in H |- *. by rewrite lookup_insert_eq in H.
Qed.

(** ** The contract *)

Definition trees_of (s : D) : Trees := fun n => tree_of n s.
Definition sled_inv (s : D) : Prop := quiet s /\ sound (trees_of s) /\ complete (trees_of s).
Definition sled_contents (s : D) : gmap TypedCid StoredChip := tree_contents (trees_of s).

Lemma sound_ext t u : (forall n, t n = u n) -> sound t -> sound u.
Proof.
  intros E Hs. split.
  - intros n. rewrite <- E. apply Hs.
  - intros kv. rewrite <- E. apply Hs.
  - intros n k Hn. rewrite <- E. by apply Hs.
  - intros kv. rewrite <- E. apply Hs.
Qed.
Lemma complete_ext t u : (forall n, t n = u n) -> complete t -> complete u.
Proof. intros E Hc c n k Hd Hk. rewrite <- E. apply (Hc c); [|done]. by rewrite (contents_ext u t). Qed.

Lemma read_answer {A} (m : M D ChipStoreError A) s a : turns m (trees_of s) (trees_of s) a -> quiet s -> (m s).2 = Ok a.
Proof. intros H Hq. by destruct (H s Hq (fun n => eq_refl)) as (s' & -> & _). Qed.

Lemma write_answer (m : M D ChipStoreError unit) s u : turns m (trees_of s) u tt -> quiet s -> sound u -> complete u ->
  exists s', m s = (s', Ok tt) /\ sled_inv s' /\ sled_contents s' = tree_contents u.
Proof.
  intros H Hq Hs Hc. destruct (H s Hq (fun n => eq_refl)) as (s' & E & Hq' & Hu). exists s'. split_and!; [done| |].
  - split_and!; [done|eapply sound_ext; [|exact Hs]|eapply complete_ext; [|exact Hc]]; intros n; symmetry; apply Hu.
  - apply contents_ext, Hu.
Qed.

#[export] Instance sled_spec : BackendSpec sled_backend sled_inv good sled_contents.
Proof.
  split.
  - intros b k c (_ & Hs & _) H. by apply (sound_lookup (trees_of b)).
  - intros c b (Hq & Hs & Hc) Hg. pose proof (sound_chip c _ Hs Hg) as Hs'.
    assert (Hu : sound (reindex c (with_chip c (trees_of b)))) by (apply reindex_sound; [done|apply Hg]).
    destruct (put_run c (trees_of b) b Hq (fun n => eq_refl)) as (b1 & E1 & Hq1 & Ht1).
    destruct (write_answer (sled_put_chip c) b _ (put_run c _) Hq Hu) as (b' & E & Hi & Hcon); [by apply put_complete|].
    rewrite E in E1. injection E1 as <-. exists b'. split_and!; [done..|by rewrite Hcon, put_contents|].
    destruct (by_receipt_run c (trees_of b) Hs Hg b' Hq1 Ht1) as (b2 & E2 & _). cbn. by rewrite E2.
  - intros k b (Hq & Hs & _). apply read_answer; [by apply load_run|done].
  - intros k b (Hq & Hs & _). cbn. unfold sled_exists. rewrite (read_answer _ b _ (turns_contains CHIPS k _) Hq). f_equal.
    unfold sled_contents. rewrite contents_lookup. unfold btree_contains_key.
    destruct (btree_get k (trees_of b CHIPS)) as [bs|] eqn:E; [|done]. apply btree_get_elem in E; [|apply Hs].
    destruct (sound_chips _ Hs _ E) as (c & Hc & _). cbn in Hc |- *. rewrite Hc. symmetry. apply bool_decide_eq_true. by eexists.
  - intros q b (Hq & Hs & Hc). destruct (query_run (trees_of b) q Hs Hc) as (l & Hp & Hr). exists l. split; [done|]. by apply read_answer.
  - intros ty b (Hq & Hs & Hc). destruct (by_type_run (trees_of b) ty Hs Hc) as (l & Hp & Hr). exists l. split; [done|]. by apply read_answer.
  - intros k b (Hq & Hs & _). apply read_answer; [by apply related_run|done].
  - intros k b (Hq & Hs & Hc). destruct (without_spec k (trees_of b) Hs) as (H1 & H2 & H3).
    destruct (write_answer (sled_delete_chip k) b _ (delete_run k _ Hs) Hq H1 (H3 Hc)) as (b' & E & Hi & Hcon). exists b'. by rewrite Hcon.
  - intros b (Hq & Hs & Hc). destruct (rebuilt_spec (trees_of b) (sound_readable _ Hs)) as (H1 & H2 & H3).
    destruct (write_answer sled_rebuild_indexes b _ (rebuild_run _ (sound_readable _ Hs)) Hq H1 H3) as (b' & E & Hi & Hcon). exists b'.
    split_and!; [done..|]. rewrite Hcon. by apply contents_ext.
  - intros b (Hq & Hs & _). destruct (scan_run (fun _ => true) (trees_of b) Hs) as (l & Hp & Hr). exists l.
    rewrite list_filter_all in Hp by done. split; [done|]. cbn. unfold scan_all_chips. by apply read_answer.
Qed.

(** ** Failures *)

(** The chips are [m], whatever the indexes are. *)
Definition holds (m : gmap TypedCid StoredChip) (s : D) : Prop := sound (trees_of s) /\ sled_contents s = m.

Lemma on_trees_holds m : on_trees (holds m).
Proof.
  intros s s' H [Hs Hm]. split; [eapply sound_ext; [|exact Hs]; intros n; symmetry; apply H|]. rewrite <- Hm. apply contents_ext, H.
Qed.

Lemma holds_writes m n x s s' : holds m s -> writes n x s s' -> n <> CHIPS -> sound (Sled.set_tree n x (trees_of s)) -> holds m s'.
Proof.
  intros [Hs Hm] Hw Hn Hx. split.
  - eapply sound_ext; [|exact Hx]. intros k. unfold Sled.set_tree, trees_of. by rewrite Hw.
  - rewrite <- Hm. apply contents_ext. unfold trees_of. by rewrite Hw, decide_False.
Qed.

Lemma keeps_add m n k : n ∈ index_names -> str_wf k -> maintains (holds m) (tree_insert n k []).
Proof.
  intros Hn Hk. apply maintains_insert; [apply on_trees_holds|]. intros s s' Hm Hw.
  eapply holds_writes; [done..|by apply index_names_apart|]. exact (sound_add n k (trees_of s) (proj1 Hm) Hn Hk).
Qed.
Lemma keeps_drop m n k : n <> CHIPS -> maintains (holds m) (tree_remove n k).
Proof.
  intros Hn. apply maintains_remove; [apply on_trees_holds|]. intros s s' Hm Hw.
  eapply holds_writes; [done..|]. exact (sound_drop n k (trees_of s) (proj1 Hm) Hn).
Qed.
Lemma keeps_clear m n : n <> CHIPS -> maintains (holds m) (tree_clear n).
Proof.
  intros Hn. apply maintains_clear. intros s s' t Hm Ht Hw.
  eapply holds_writes; [done..|]. exact (sound_sub n t (trees_of s) (proj1 Hm) Hn Ht).
Qed.
Lemma keeps_receipt m k v : utf8_valid v = true -> maintains (holds m) (tree_insert RECEIPTS k v).
Proof.
  intros Hv. apply maintains_insert; [apply on_trees_holds|]. intros s s' Hm Hw.
  eapply holds_writes; [done..|]. exact (sound_receipt k v (trees_of s) (proj1 Hm) Hv).
Qed.

Lemma keeps_index m c : clean c -> maintains (holds m) (add_chip_to_indexes c).
Proof.
  intros Hc. assert (Hk : forall n k, (n, k) ∈ index_entries c -> maintains (holds m) (tree_insert n k [])).
  { intros n k Hin. apply keeps_add; [by eapply index_entries_names|by eapply index_entries_wf]. }
  unfold add_chip_to_indexes, add_index_entry. apply maintains_bind; [apply Hk; left|intros _]. apply maintains_bind; [|intros _].
  - apply maintains_each. intros tag Htag. apply Hk. right. apply elem_of_app. left.
    by apply (list_elem_of_fmap_2 (fun tag => (TAGS, index_composite_key tag (cid_as_str (cid c))))).
  - apply Hk. right. apply elem_of_app. right. left.
Qed.
Lemma keeps_reindex m c : clean c -> maintains (holds m)
  (_ ← tree_insert RECEIPTS (cid_as_str (receipt_cid c)) (as_bytes (cid_as_str (cid c))); add_chip_to_indexes c).
Proof. intros Hc. apply maintains_bind; [apply keeps_receipt, Hc|intros _; by apply keeps_index]. Qed.
Lemma keeps_unindex m c : maintains (holds m) (sled_remove_chip_from_indexes c).
Proof.
  unfold sled_remove_chip_from_indexes, remove_index_entry. apply maintains_bind; [by apply keeps_drop|intros _].
  apply maintains_bind; [|intros _; by apply keeps_drop]. apply maintains_each. intros tag _. by apply keeps_drop.
Qed.
Lemma keeps_load m k : maintains (holds m) (load_chip_by_cid k).
Proof.
  unfold load_chip_by_cid. apply maintains_bind; [apply maintains_get, on_trees_holds|intros [bs|]; [|apply maintains_ret]].
  apply maintains_bind; [apply maintains_lift|intros c; apply maintains_ret].
Qed.

(** A write that fails before it changes the chips, or changes them. *)
Definition fails_or_takes (m m' : gmap TypedCid StoredChip) (r : D * result ChipStoreError unit) : Prop :=
  holds m r.1 /\ r.2 <> Ok tt \/ holds m' r.1.

Lemma chip_written c s s1 : sound (trees_of s) -> good c ->
  writes CHIPS (btree_insert (cid_as_str (cid c)) (chip_to_vec c) (tree_of CHIPS s)) s s1 ->
  holds (<[cid c := c]> (sled_contents s)) s1.
Proof.
  intros Hs Hc Hw. assert (E : forall n, with_chip c (trees_of s) n = trees_of s1 n).
  { intros n. unfold with_chip, Sled.set_tree, trees_of. by rewrite Hw. }
  split; [eapply sound_ext; [exact E|by apply sound_chip]|]. apply contents_insert; [apply Hs|by apply good_reads|].
  rewrite <- E. apply set_tree_eq.
Qed.
Lemma chip_removed m k s s1 : holds m s -> writes CHIPS (btree_remove k (tree_of CHIPS s)) s s1 ->
  holds (delete (cid_new_unchecked k) m) s1.
Proof.
  intros [Hs Hm] Hw. assert (E : forall n, Sled.set_tree CHIPS (btree_remove k (trees_of s CHIPS)) (trees_of s) n = trees_of s1 n).
  { intros n. unfold Sled.set_tree, trees_of. by rewrite Hw. }
  split; [eapply sound_ext; [exact E|by apply sound_chip_drop]|]. rewrite <- Hm.
  apply contents_remove; [apply Hs|]. rewrite <- E. apply set_tree_eq.
Qed.

Lemma put_failing c s : sound (trees_of s) -> good c ->
  fails_or_takes (sled_contents s) (<[cid c := c]> (sled_contents s)) (sled_put_chip c s).
Proof.
  intros Hs Hc. apply (bind_cases _ _ _ (fails_or_takes _ _)). pose proof (insert_law CHIPS (cid_as_str (cid c)) (chip_to_vec c) s) as H.
  destruct (tree_insert CHIPS _ _ s) as [s1 [[]|]].
  - right. exact (keeps_reindex _ c (good_clean _ Hc) s1 (chip_written c s s1 Hs Hc (proj1 H))).
  - destruct H as [[H|H] _]; [left|by right; apply chip_written]. split; [|done]. by apply (on_trees_holds _ s).
Qed.

Lemma delete_failing k s : sound (trees_of s) ->
  fails_or_takes (sled_contents s) (delete (cid_new_unchecked k) (sled_contents s)) (sled_delete_chip k s).
Proof.
  intros Hs. apply (bind_cases _ _ _ (fails_or_takes _ _)).
  assert (H0 : holds (sled_contents s) s) by done. pose proof (keeps_load _ k s H0) as H1.
  destruct (load_chip_by_cid k s) as [s1 [found|]]; [|by left]. cbn [fst] in H1. apply (bind_cases _ _ _ (fails_or_takes _ _)).
  assert (H2 : maintains (holds (sled_contents s)) (match found with
    | Some chip => _ ← tree_remove RECEIPTS (cid_as_str (receipt_cid chip)); sled_remove_chip_from_indexes chip | None => mret tt end)).
  { destruct found as [c|]; [|apply maintains_ret]. apply maintains_bind; [by apply keeps_drop|intros _; apply keeps_unindex]. }
  specialize (H2 s1 H1). match goal with |- match ?m s1 with _ => _ end => destruct (m s1) as [s2 [[]|]]; [|by left] end. cbn [fst] in H2.
  pose proof (remove_law CHIPS k s2) as H. destruct (tree_remove CHIPS k s2) as [s3 [[]|]].
  - right. by eapply chip_removed; [exact H2|apply H].
  - destruct H as [[H|H] _]; [left|by right; eapply chip_removed]. split; [|done]. by apply (on_trees_holds _ s2).
Qed.

Lemma rebuild_failing m : maintains (holds m) sled_rebuild_indexes.
Proof.
  unfold sled_rebuild_indexes. apply maintains_bind; [|intros _].
  { apply maintains_each. intros n Hn. apply keeps_clear. intros ->. by apply (bool_decide_unpack (_ ∉ _)) in Hn. }
  intros s Hs. unfold mbind at 1, M_bind, asks. pose proof (sound_chips _ (proj1 Hs)) as Hall. fold (trees_of s) in Hall.
  revert s Hs Hall. intros s Hs Hall. change (tree_of CHIPS s) with (trees_of s CHIPS).
  refine (maintains_each (holds m) _ _ _ s Hs). intros kv Hkv. destruct (Hall kv Hkv) as (c & Hc & _ & Hcl).
  apply maintains_bind; [apply maintains_next, on_trees_holds|intros _]. unfold read_chip. rewrite Hc. cbn [ok_or].
  intros s1 Hs1. unfold mbind at 1, M_bind, lift.
  exact (keeps_reindex m c Hcl s1 Hs1).
Qed.

Lemma op_failing o s : sound (trees_of s) -> op_accepted good o ->
  fails_or_takes (sled_contents s) (map_op (sled_contents s) o) (run_op s o, op_result s o).
Proof.
  intros Hs Ho. destruct o as [c|k|]; unfold fails_or_takes; cbn.
  - by apply put_failing.
  - by apply delete_failing.
  - right. by apply rebuild_failing.
Qed.

(** ** Restarts *)

(** Whatever calls fail, the operations that were acknowledged take effect, in
    their order, and besides them only operations that were asked for. *)
Lemma ops_failing ops s : sound (trees_of s) -> Forall (op_accepted good) ops ->
  exists taken, acknowledged ops s `sublist_of` taken /\ taken `sublist_of` ops /\
    holds (fold_left map_op taken (sled_contents s)) (fold_left run_op ops s).
Proof.
  revert s. induction ops as [|o ops IH]; intros s Hs HF; [by exists []|]. apply Forall_cons in HF as [Ho HF].
  destruct (op_failing o s Hs Ho) as [[[Hs' Hm] Hr]|[Hs' Hm]]; cbn [fst snd] in *;
    destruct (IH _ Hs' HF) as (taken & H1 & H2 & H3); rewrite Hm in H3; cbn [fold_left acknowledged].
  - exists taken. split_and!; [|by apply sublist_cons|done]. by destruct (op_result s o) as [[]|].
  - exists (o :: taken). split_and!; [|by apply sublist_skip|done].
    destruct (op_result s o); [by apply sublist_skip|by apply sublist_cons].
Qed.

(** Opening a database that does not fail restores every index. *)
Lemma reopen s1 : readable_chips (trees_of s1) -> quiet s1 ->
  exists s2, sled_new s1 = (s2, Ok tt) /\ sled_inv s2 /\ sled_contents s2 = sled_contents s1.
Proof.
  intros Hs Hq. destruct (rebuilt_spec _ Hs) as (H1 & H2 & H3).
  destruct (write_answer sled_new s1 (rebuilt (trees_of s1))) as (s2 & E & Hi & Hc); [|done..|].
  - eapply turns_bind; [apply turns_open_db|]. eapply turns_bind; [|by apply rebuild_run].
    pose proof (turns_each open_tree (fun _ t => t) [RECEIPTS; TYPES; TAGS; EXECUTORS] (trees_of s1)) as H. by apply H; intros; apply turns_open.
  - exists s2. split_and!; [done..|]. rewrite Hc. by apply contents_ext.
Qed.

(** It goes on as a map of the chips it finds. *)
Lemma reopened_answers s1 : readable_chips (trees_of s1) -> quiet s1 ->
  exists s2, sled_new s1 = (s2, Ok tt) /\
    forall more, Forall (op_accepted good) more -> answers_map (fold_left run_op more s2) (fold_left map_op more (sled_contents s1)).
Proof.
  intros Hs Hq. destruct (reopen s1 Hs Hq) as (s2 & E & Hi & Hc). exists s2. split; [done|]. intros more HF.
  destruct (run_ops_spec more s2 Hi HF) as [Hi' Hc']. rewrite <- Hc, <- Hc'. by apply spec_answers.
Qed.

(** What is left when the process dies before writes have reached the disk:
    ordered trees, in which every entry under a CID is one that some store of
    [ops] wrote.  Entries may be missing, may be old, and the index trees may
    hold anything. *)
Definition survives (ops : list store_op) (s : D) : Prop :=
  (forall n, btree_wf (tree_of n s)) /\
  forall kv, kv ∈ tree_of CHIPS s -> exists c, OpPut c ∈ ops /\ kv = (cid_as_str (cid c), chip_to_vec c).

Lemma survives_readable ops s : Forall (op_accepted good) ops -> survives ops s -> readable_chips (trees_of s).
Proof.
  intros HF [Hw Hc]. split; [done|]. intros kv Hkv. destruct (Hc kv Hkv) as (c & Hin & ->).
  rewrite Forall_forall in HF. specialize (HF _ Hin). exists c. split_and!; [by apply good_reads|done|apply HF].
Qed.
Lemma survives_contents ops s k c : Forall (op_accepted good) ops -> survives ops s ->
  sled_contents s !! k = Some c <-> cid c = k /\ OpPut c ∈ ops /\ (cid_as_str k, chip_to_vec c) ∈ tree_of CHIPS s.
Proof.
  intros HF [Hw Hc]. rewrite Forall_forall in HF. destruct k as [k]. unfold sled_contents. rewrite contents_lookup. split.
  - destruct (btree_get k (trees_of s CHIPS)) as [bs|] eqn:E; [|done]. cbn. intros Er. apply btree_get_elem in E; [|apply Hw].
    destruct (Hc _ E) as (c' & Hin & [= -> ->]). rewrite good_reads in Er by apply (HF _ Hin). injection Er as <-.
    split_and!; [by destruct (cid c')|done..].
  - cbn [cid_as_str]. intros (Ek & Hin & Hkv). apply btree_get_elem in Hkv; [|apply Hw]. unfold trees_of. rewrite Hkv. cbn.
    apply good_reads, (HF _ Hin).
Qed.

Definition blank (s : D) : Prop := forall n, tree_of n s = [].

Lemma blank_holds s : blank s -> holds ∅ s.
Proof.
  intros Hb. split.
  - split; unfold trees_of; intros *; rewrite Hb; [constructor|by intros ?%elem_of_nil|by intros _ ?%elem_of_nil|by intros ?%elem_of_nil].
  - apply contents_eq. intros k. unfold trees_of. rewrite Hb. by rewrite lookup_empty.
Qed.
Lemma blank_inv s : blank s -> quiet s -> sled_inv s /\ sled_contents s = ∅.
Proof.
  intros Hb Hq. destruct (blank_holds s Hb) as [Hs Hm]. split; [split_and!; [exact Hq|exact Hs|]|exact Hm].
  intros c n k. fold (sled_contents s). by rewrite Hm, lookup_empty.
Qed.

(** ** Properties *)

(** C11: The database backend refines a finite map.  From a new database that does
    not fail, any history of stores, deletions and index rebuilds leaves a
    backend whose lookups, existence tests, scans, type listings and queries
    are those of the map that the history describes: its three indexes are not
    observable, and neither is a chip that changes type, tags or executor. *)
Theorem sled_refines_map ops s : blank s -> quiet s -> Forall (op_accepted good) ops ->
  sled_inv (fold_left run_op ops s) /\ answers_map (fold_left run_op ops s) (fold_left map_op ops ∅).
Proof.
  intros Hb Hq HF. destruct (blank_inv s Hb Hq) as [Hi Hm]. destruct (run_ops_spec ops s Hi HF) as [Hi' Hc].
  split; [done|]. rewrite <- Hm, <- Hc. by apply spec_answers.
Qed.

(** C10: What failures and crashes do to the store.  From a new database, let any
    calls fail, at any point of any operation, with or without having done their
    work.

    When the process ends in order, so that the database keeps what its calls
    have done, no acknowledged operation is lost: opening it again starts the
    backend, every index is whole, and it answers, now and after whatever
    follows, as a map that has seen, in their order, every operation that was
    acknowledged, and besides them only operations that were asked for.

    When the process dies, acknowledged stores may be lost too, because
    [put_chip] does not flush; but whatever part of the chips the database
    finds, with index trees in any state ([survives]), opening it starts the
    backend with exactly these chips, each one that was stored under its CID,
    and it goes on as the map of them. *)
Theorem sled_survives_failures ops s : blank s -> Forall (op_accepted good) ops ->
  (exists taken, acknowledged ops s `sublist_of` taken /\ taken `sublist_of` ops /\
    forall s1, quiet s1 -> same_trees (fold_left run_op ops s) s1 ->
      exists s2, sled_new s1 = (s2, Ok tt) /\
        forall more, Forall (op_accepted good) more ->
          answers_map (fold_left run_op more s2) (fold_left map_op (taken ++ more) ∅)) /\
  forall s1, quiet s1 -> survives ops s1 ->
    exists s2 survivors, sled_new s1 = (s2, Ok tt) /\
      (forall k c, survivors !! k = Some c <->
         cid c = k /\ OpPut c ∈ ops /\ (cid_as_str k, chip_to_vec c) ∈ tree_of CHIPS s1) /\
      forall more, Forall (op_accepted good) more ->
        answers_map (fold_left run_op more s2) (fold_left map_op more survivors).
Proof.
  intros Hb HF. split.
  - destruct (blank_holds s Hb) as [Hs Hm]. destruct (ops_failing ops s Hs HF) as (taken & H1 & H2 & H3).
    rewrite Hm in H3. exists taken. split_and!; [done..|]. intros s1 Hq He.
    destruct (on_trees_holds _ _ s1 He H3) as [Hs1 Hm1].
    destruct (reopened_answers s1 (sound_readable _ Hs1) Hq) as (s2 & E & Ha). exists s2. split; [done|].
    intros more HF'. rewrite fold_left_app, <- Hm1. by apply Ha.
  - intros s1 Hq Hv. destruct (reopened_answers s1 (survives_readable ops s1 HF Hv) Hq) as (s2 & E & Ha).
    exists s2, (sled_contents s1). split_and!; [done| |done]. intros k c. by apply survives_contents.
Qed.
End Facts.

(** ** Witnesses *)

Module SledSample.
Import ChipStoreSample.

Definition texts : list json := [chip_to_json chip_a; chip_to_json chip_b].
#[local] Instance two_chips : SerdeJson := {|
  from_slice bs := b ← head bs; texts !! Z.to_nat (u8 b);
  to_vec j := if json_eqb j (chip_to_json chip_a) then [x00] else [x01];
  value_to_string _ := "" |}.
#[local] Instance no_texts : ChipTexts := {| chip_read_error _ := ""; utf8_error _ := "" |}.
#[local] Instance db : Sled SledDb ChipStoreError := scripted (Backend "io").
#[local] Instance db_laws : SledLaws db := scripted_laws (Backend "io").

Lemma chips_good : good chip_a /\ good chip_b.
Proof. split; split; [split; [vm_compute; done|]|vm_compute; done|vm_compute; done|split; [vm_compute; done|]|vm_compute; done|vm_compute; done]. all: split_and!; repeat constructor. Qed.

Lemma puts_good ops : Forall (fun o => match o with OpPut c => c = chip_a \/ c = chip_b | _ => True end) ops -> Forall (op_accepted good) ops.
Proof. intros H. eapply Forall_impl; [exact H|]. intros [c|k|]; [|done..]. by intros [->| ->]; apply chips_good. Qed.

Lemma blank_db fails : blank (mkSled ∅ fails).
Proof. intros n. cbn. unfold at_tree. by rewrite lookup_empty. Qed.

Definition history : list store_op := [OpPut chip_a; OpPut chip_b; OpDelete "b3:a"; OpRebuild].

Lemma history_good : Forall (op_accepted good) history.
Proof. apply puts_good. repeat apply Forall_cons_2; try apply Forall_nil_2; auto. Qed.

Lemma sled_refines_map_witness :
  answers_map (fold_left run_op history empty_db) (fold_left map_op history ∅) /\
  query_chips by_type (fold_left run_op [OpPut chip_a; OpPut chip_b] empty_db) = Ok (mkQueryResult [chip_b] 2 true).
Proof.
  split; [exact (proj2 (sled_refines_map history empty_db (blank_db []) eq_refl history_good))|vm_compute; reflexivity].
Defined.

(** The second store fails when it indexes the chip: it is not acknowledged, the
    chip is stored, and no query through an index finds it until the database
    is opened again. *)
Definition broken_db : SledDb := mkSled ∅ (repeat None 7 ++ [Some 0%nat]).
Definition after : SledDb := fold_left run_op [OpPut chip_a; OpPut chip_b] broken_db.

(** After a crash: of the two stores only the first chip has reached the disk,
    and the index trees have not. *)
Definition crashed : SledDb := mkSled {[CHIPS := [("b3:a", chip_to_vec chip_a)]; TYPES := [("old", [])]]} [].

Lemma two_puts_good : Forall (op_accepted good) [OpPut chip_a; OpPut chip_b].
Proof. apply puts_good. repeat apply Forall_cons_2; try apply Forall_nil_2; auto. Qed.
Lemma crashed_survives : survives [OpPut chip_a; OpPut chip_b] crashed.
Proof.
  split.
  - intros n. change (btree_wf (at_tree n (sled_trees crashed))). unfold at_tree, crashed, sled_trees.
    destruct (decide (n = CHIPS)) as [->|Hn]; [rewrite lookup_insert_eq|rewrite lookup_insert_ne by done].
    { repeat constructor. }
    destruct (decide (n = TYPES)) as [->|Ht]; [rewrite lookup_singleton_eq|rewrite lookup_singleton_ne by done]; repeat constructor.
  - intros kv Hkv. apply list_elem_of_singleton in Hkv as ->. exists chip_a. split; [left|done].
Qed.

Lemma sled_survives_failures_witness :
  acknowledged [OpPut chip_a; OpPut chip_b] broken_db = [OpPut chip_a] /\
  get_chip "b3:b" after = Ok (Some chip_b) /\ query_chips by_type after = Ok (mkQueryResult [chip_a] 1 false) /\
  query_chips by_type (sled_new after).1 = Ok (mkQueryResult [chip_b] 2 true) /\
  (exists taken, [OpPut chip_a] `sublist_of` taken /\ exists s2, sled_new after = (s2, Ok tt) /\
    answers_map s2 (fold_left map_op taken ∅)) /\
  query_chips by_type (sled_new crashed).1 = Ok (mkQueryResult [chip_a] 1 false) /\
  exists s2 survivors, sled_new crashed = (s2, Ok tt) /\ survivors !! cid chip_a = Some chip_a /\ answers_map s2 survivors.
Proof.
  split_and!; [vm_compute; reflexivity..| |vm_compute; reflexivity|].
  all: destruct (sled_survives_failures [OpPut chip_a; OpPut chip_b] broken_db (blank_db _) two_puts_good)
    as [(taken & H1 & _ & H) Hcrash].
  - exists taken. split.
    { assert (E : acknowledged [OpPut chip_a; OpPut chip_b] broken_db = [OpPut chip_a]) by (vm_compute; reflexivity). by rewrite E in H1. }
    destruct (H after) as (s2 & E & Ha).
    { vm_compute. reflexivity. }
    { exact (same_refl after). }
    exists s2. split; [done|]. specialize (Ha [] (List.Forall_nil _)). rewrite app_nil_r in Ha. exact Ha.
  - destruct (Hcrash crashed) as (s2 & survivors & E & Hs & Ha).
    { reflexivity. }
    { apply crashed_survives. }
    exists s2, survivors. split_and!; [done| |exact (Ha [] (List.Forall_nil _))].
    apply Hs. split_and!; [done|left|]. unfold tree_of. cbn. left.
Defined.

Lemma blank_new : sled_inv empty_db /\ sled_contents empty_db = ∅.
Proof. apply blank_inv; [apply blank_db|reflexivity]. Qed.

Lemma backends_agree_witness :
  get_chip "b3:b" (fold_left run_op history mem_new) = get_chip "b3:b" (fold_left run_op history empty_db) /\
  exists r1 r2, query_chips by_type (fold_left run_op history mem_new) = Ok r1 /\
    query_chips by_type (fold_left run_op history empty_db) = Ok r2 /\ total_count r1 = total_count r2.
Proof.
  destruct (backends_agree in_memory_backend sled_backend _ sled_inv _ good mem_chips sled_contents
    (BackendSpec0 := in_memory_spec (fun _ => "ubl/x"%string)) mem_new empty_db history
    (mem_inv_new _) (proj1 blank_new) (eq_sym (proj2 blank_new))) as (H1 & _ & _ & H4).
  { by repeat constructor. }
  { exact history_good. }
  split; [exact (H1 "b3:b")|]. destruct (H4 by_type) as (r1 & r2 & E1 & E2 & E3 & _). exists r1, r2. split_and!; assumption.
Defined.
End SledSample.
