(* ===== verification/Check.v ===== *)
(** * The CHECK stage ([pipeline/stages/check.rs])

    The pre-checks of the special chip types, the live silicon gate, and the
    evaluation of the policy chain with its trace. *)

From S2P Require Import Prelude RustStd RustStr Json Nrf BigNum Unc1 Tlv Rho Vm Gate Canon Types Silicon Idempotency Durable.
From S2P Require Import Policy Receipt Knock ChipStore ChipStoreFacts Capability Auth PolicyLoader Envelope KeyRotation.
From S2P Require Import AuditChip TrRegistry EventBus Ledger Advisory PipelineTypes.
Local Open Scope Z_scope.
Local Open Scope string_scope.
Local Open Scope list_scope.

(** ** The fixed part of a pipeline *)

(** The fields of [UblPipeline] that no call changes; the two fuels bound the
    recursions of chip resolution and of the ancestry walk. *)
Record UblPipeline : Type := mkPipeline {
  pl_fuel_limit : Z;
  pl_did : string;
  pl_kid : string;
  pl_signing_key : bytes;
  pl_runtime_info : RuntimeInfo;
  pl_registry : TransitionRegistry;
  pl_config : PipelineConfig;
  pl_env : Environment;
  pl_storage : PolicyStorage;
  pl_strict_did : bool;
  pl_resolve_fuel : nat;
  pl_ancestry_fuel : nat }.

(** [PipelineSigner]: the raw signature bytes, or zeros when they cannot be
    read back from the text. *)
Definition pipeline_signer {ED : Ed25519} {EK : Ed25519Keys} {B64 : Base64} {B64D : Base64Decode}
    (signing_key : bytes) (kid : string) : SignProvider := {|
  sign_jws payload :=
    let zeros := replicate 64 x00 in
    match strip_prefix "ed25519:" (sign_bytes signing_key payload kms_domain.RB_VM) with
    | Some b64 => default zeros (base64_decode b64)
    | None => zeros
    end;
  Vm.kid := kid |}.

(** The [Display] of a store error. *)
Definition chipstore_error_text `{StrDebug} (e : ChipStore.ChipStoreError) : string :=
  match e with
  | Serialization s => "Serialization error: " +:+ s
  | SerializationNrf e => "Serialization error: " +:+ normalization_text e
  | Backend s => "Backend error: " +:+ s
  | NotFound s => "Not found: " +:+ s
  | InvalidCid s => "Invalid CID: " +:+ s
  | Index s => "Index error: " +:+ s
  end.

(** What the silicon modules see of a chip store. *)
Definition silicon_view `{StrDebug} {B : Type} {BE : ChipStoreBackend B} (store : ChipStore.ChipStore B) : Silicon.ChipStore := {|
  Silicon.get_chip c :=
    match ChipStore.get_chip c (backend store) with
    | Ok found => Ok ((fun chip => mkStored (ChipStore.chip_type chip) (ChipStore.chip_data chip)) <$> found)
    | Err e => Err (chipstore_error_text e)
    end |}.

(** ** Texts of denials *)

(** The text num-bigint gives for a literal that it does not parse. *)
Class BigintText : Type := { bigint_error_text : string -> string }.

Definition unc_error_text `{BigintText} (e : unc_error) : string :=
  match e with
  | InvalidRoundingMode v => "invalid rounding mode: " +:+ u_to_string v
  | UnitMismatch => "unit_mismatch"
  | UnitMissing => "unit_missing"
  | UnitMismatchVs x y => "unit_mismatch: " +:+ x +:+ " vs " +:+ y
  | InvalidBigint s => "invalid bigint '" +:+ s +:+ "': " +:+ bigint_error_text s
  | DivisionByZero => "division_by_zero"
  | CannotConvertBnd => "cannot convert BND to single rational"
  | InvalidDecimal => "invalid_decimal"
  | NumericValueInvalid => "NUMERIC_VALUE_INVALID: NaN or Inf"
  | IntervalMulEmpty => "interval_mul_empty"
  | IntervalDivEmpty => "interval_div_empty"
  | BndTooWide => "bnd_too_wide: interval does not collapse to single DEC at this scale"
  | Panic => ""
  end.

Definition deny_text `{BigintText} (r : deny_reason) : string :=
  match r with
  | Reason s => s
  | ReasonKey s key => s +:+ key
  | ReasonNum prefix e => prefix +:+ unc_error_text e
  end.

(** ** The stage *)

Section Check.
Context {U : Unicode} {HB3 : Blake3} {KB3 : Blake3Keyed} {ED : Ed25519} {EK : Ed25519Keys} {B64 : Base64} {B64D : Base64Decode}
  {B58 : Base58} {NS : NumSerde} {CK : Clock} {SJ : SerdeJson} {BN : BigNum} {SC : StrCase} {SD : StrDebug}
  {CI : ChronoInstant} {CF : ChronoFormat} {PS : PolicySerde} {BT : BigintText} {R : Readings}.
Context {B L D : Type} {BE : ChipStoreBackend B}.
Context (p : UblPipeline).

Abbreviation pipe := (M (PState B L D) PipelineError).

(** One reading of the clock, as an instant and as text. *)
Definition read_clock : pipe (Z * string) := read (fun n => (now_instant n, now_text n)).

Definition onboarding_precheck (request : ParsedChipRequest) : pipe unit :=
  if is_onboarding_type (p_chip_type request) then
    onboarding ← lift (map_err (fun e => InvalidChip (Within "Onboarding validation: " (OfAuth e)))
                         (parse_onboarding_chip (p_body request)));
    onboarding ← lift (ok_or onboarding
                         (InvalidChip (Text ("Onboarding type '" +:+ p_chip_type request +:+ "' not recognized"))));
    store ← asks chip_store;
    match store with
    | None => mret tt
    | Some store =>
        now ← read_clock;
        lift (map_err (fun e => match e with
                                | Auth.DependencyMissing msg => DependencyMissing (Text msg)
                                | Auth.Internal e => Internal (OfStore e)
                                | _ => InvalidChip (OfAuthValidation e)
                                end)
                (validate_onboarding_dependencies onboarding (p_body request) (p_world request) store now.1 now.2))
    end
  else mret tt.

Definition rotation_query (old_kid : string) : ChipQuery :=
  mkQuery (Some "ubl/key.map") ["old_kid:" +:+ old_kid] None None None (Some 1%nat) None.

Definition rotation_precheck (request : ParsedChipRequest) : pipe unit :=
  if String.eqb (p_chip_type request) "ubl/key.rotate" then
    parsed ← lift (map_err (fun e => InvalidChip (Within "Key rotation: " (OfRotation e))) (rotate_parse (p_body request)));
    now ← read_clock;
    _ ← lift (map_err (fun e => InvalidChip (Within "ubl/key.rotate capability: " (OfCap e)))
                (require_cap (p_body request) "key:rotate" (p_world request) now.1 now.2));
    store ← asks chip_store;
    match store with
    | None => mret tt
    | Some store =>
        existing ← lift (map_err (fun e => Internal (Within "ChipStore query: " (OfStore e)))
                           (store_query store (rotation_query (old_kid parsed))));
        match qr_chips existing with
        | [] => mret tt
        | _ => throw (InvalidChip (Text ("old_kid '" +:+ old_kid parsed +:+ "' already rotated")))
        end
    end
  else mret tt.

Definition audit_precheck (request : ParsedChipRequest) : pipe unit :=
  if is_audit_request_type (p_chip_type request) then
    store ← asks chip_store;
    now ← read_clock;
    _ ← lift (map_err (fun e => match e with
                                | StoreFailed _ => Internal (Within "Audit validation store: " (OfAudit e))
                                | AuditPanic => PipelinePanic
                                | _ => InvalidChip (Within "Audit validation: " (OfAudit e))
                                end)
                (audit_validate_for_check (p_chip_type request) (p_body request) (p_world request) store now.1 now.2));
    mret tt
  else mret tt.

Definition silicon_precheck (request : ParsedChipRequest) : pipe unit :=
  if is_silicon_type (p_chip_type request) then
    store ← asks chip_store;
    _ ← lift (map_err (fun e => match e with
                                | Silicon.ChipStoreError _ => Internal (Within "Silicon validation store: " (OfSilicon e))
                                | _ => InvalidChip (Within "Silicon validation: " (OfSilicon e))
                                end)
                (validate_for_check (p_chip_type request) (p_body request) (silicon_view <$> store)));
    mret tt
  else mret tt.

Definition gate_result (d : GateDenial) (gate_ms : Z) : CheckResult :=
  let reason := deny_text (denied_reason d) in
  mkCheckResult DenyD ("@silicon_gate '" +:+ denied_gate d +:+ "' denied: " +:+ reason) true
    [mkTraceEntry "silicon_gate" ("silicon_gate:" +:+ denied_gate d) DenyD ("silicon gate denied: " +:+ reason) [] gate_ms].

Definition gate_error (e : Gate.PipelineError) : PipelineError :=
  match e with
  | Gate.InvalidChip e => InvalidChip (Within "@silicon_gate compile: " (OfSilicon e))
  | InternalDecode e => Internal (Within "@silicon_gate decode: " (OfDecode e))
  | InternalNrf e => Internal (Within "@silicon_gate nrf: " (OfNrf e))
  end.

(** [Some]: the stage ends with this result. *)
Definition gate_check (request : ParsedChipRequest) : pipe (option CheckResult) :=
  store ← asks chip_store;
  denial ← lift (map_err gate_error
                   (silicon_gate (SP := pipeline_signer (pl_signing_key p) (pl_kid p)) (silicon_view <$> store)
                      (pl_resolve_fuel p) (pl_fuel_limit p) (p_body request)));
  match denial with
  | None => mret None
  | Some d => gate_ms ← read elapsed_ms; mret (Some (gate_result d gate_ms))
  end.

(** The context that policies see. *)
Definition check_context (request : ParsedChipRequest) : EvalContext :=
  let variables : gmap string json := {["chip.@type" := JString (p_chip_type request)]} in
  Policy.mkContext (p_body request) (Z.of_nat (length (to_vec (p_body request))))
    (match p_chip_id request with Some id => <["chip.id" := JString id]> variables | None => variables end).

Fixpoint evaluate_policies (context : EvalContext) (policies : list PolicyBit) (trace : list PolicyTraceEntry)
    : pipe CheckResult :=
  match policies with
  | [] => mret (mkCheckResult Allow "All policies allowed" false trace)
  | policy :: rest =>
      let result := policy_evaluate policy context in
      times ← read (fun n => (elapsed_ms n, bit_nanos n));
      let trace := trace ++ [policy_result_to_trace times.2 result times.1] in
      match pr_decision result with
      | DenyD => mret (mkCheckResult DenyD (pr_reason result) true trace)
      | _ => evaluate_policies context rest trace
      end
  end.

Definition policy_request (request : ParsedChipRequest) : PolicyRequest :=
  mkPolicyRequest (p_chip_type request) (p_body request) (p_parents request) (p_operation request).

(** The checks that depend on the chip's type. *)
Definition prechecks (request : ParsedChipRequest) : pipe unit :=
  _ ← onboarding_precheck request;
  _ ← rotation_precheck request;
  _ ← audit_precheck request;
  silicon_precheck request.

Definition stage_check (request : ParsedChipRequest) : pipe CheckResult :=
  _ ← prechecks request;
  gate ← gate_check request;
  match gate with
  | Some result => mret result
  | None =>
      policies ← lift (map_err (fun e => Internal (Within "Policy loading: " (OfPolicy e)))
                         (load_policy_chain (pl_storage p) (pl_ancestry_fuel p) (policy_request request)));
      evaluate_policies (check_context request) policies []
  end.
End Check.
