(* ===== verification/CheckFacts.v ===== *)
(** * Facts on the CHECK stage

    The stage reads and does not write; an allowed chip has passed genesis and
    every other policy of its chain; the trace lists the policies up to the
    first denial; a rotated key is not rotated again. *)

From S2P Require Import Prelude RustStd RustStr Json Nrf BigNum Unc1 Tlv Rho Vm Gate Canon Types Silicon Idempotency Durable.
From S2P Require Import Policy Receipt Knock ChipStore ChipStoreFacts Capability Auth AuthFacts PolicyLoader Envelope.
From S2P Require Import KeyRotation AuditChip TrRegistry EventBus Ledger Advisory PipelineTypes Check.
Local Open Scope Z_scope.
Local Open Scope string_scope.
Local Open Scope list_scope.

(** ** What a computation preserves *)

Section Frames.
Context {B L D : Type} {R : Readings}.
Abbreviation pipe := (M (PState B L D) PipelineError).

(** The part [f] of the state is the same after [m], whether it fails or not. *)
Definition preserves {X A} (f : PState B L D -> X) (m : pipe A) : Prop := forall s, f (fst (m s)) = f s.

(** A state without its count of readings. *)
Definition forget (s : PState B L D) : PState B L D :=
  mkState (chip_store s) (advisory_engine s) (idempotency_store s) (durable_store s) (stage_secrets s) (nonces s)
    (event_bus s) (ledger s) (disk s) (spawned s) 0.

Definition quiet {A} (m : pipe A) : Prop := preserves forget m.

Section Rules.
Context {X : Type} (f : PState B L D -> X).
Lemma preserves_ret {A} (a : A) : preserves f (mret a).
Proof. done. Qed.
Lemma preserves_lift {A} (r : result PipelineError A) : preserves f (lift r).
Proof. done. Qed.
Lemma preserves_throw {A} e : preserves f (throw e : pipe A).
Proof. done. Qed.
Lemma preserves_asks {A} (g : PState B L D -> A) : preserves f (asks g).
Proof. done. Qed.
Lemma preserves_read {A} (g : nat -> A) : (forall s, f (next_tick s) = f s) -> preserves f (read g).
Proof. intros H s. apply H. Qed.
Lemma preserves_modify (h : PState B L D -> PState B L D) : (forall s, f (h s) = f s) -> preserves f (modify h).
Proof. intros H s. apply H. Qed.
Lemma preserves_bind {A C} (m : pipe A) (g : A -> pipe C) : preserves f m -> (forall a, preserves f (g a)) -> preserves f (m ≫= g).
Proof.
  intros Hm Hf s. unfold mbind, M_bind. specialize (Hm s). destruct (m s) as [s1 [a|e]]; cbn in *; [|done].
  by rewrite Hf.
Qed.
Lemma preserves_run {A} (m : pipe A) s s' r : preserves f m -> m s = (s', r) -> f s' = f s.
Proof. intros Hm H. specialize (Hm s). by rewrite H in Hm. Qed.
Lemma quiet_preserves {A} (m : pipe A) : (forall s1 s2, forget s1 = forget s2 -> f s1 = f s2) -> quiet m -> preserves f m.
Proof. intros Hf Hm s. apply Hf, Hm. Qed.
End Rules.
End Frames.

#[export] Hint Resolve preserves_ret preserves_lift preserves_throw preserves_asks preserves_read preserves_modify preserves_bind : ubl.
(** [t] is tried first: it closes the goals about named computations. *)
Ltac preserves_with t :=
  repeat first [ t | apply preserves_ret | apply preserves_lift | apply preserves_throw | apply preserves_asks
               | apply preserves_read; intros; reflexivity | apply preserves_modify; intros; reflexivity
               | apply preserves_bind; [|intros ?] | case_match ].
Ltac preserves_tac := preserves_with fail.

(** ** The stage *)

Section Facts.
Context {U : Unicode} {HB3 : Blake3} {KB3 : Blake3Keyed} {ED : Ed25519} {EK : Ed25519Keys} {B64 : Base64} {B64D : Base64Decode}
  {B58 : Base58} {NS : NumSerde} {CK : Clock} {SJ : SerdeJson} {BN : BigNum} {SC : StrCase} {SD : StrDebug}
  {CI : ChronoInstant} {CF : ChronoFormat} {PS : PolicySerde} {BT : BigintText} {R : Readings}.
Context {B L D : Type} {BE : ChipStoreBackend B}.
Context (p : UblPipeline).
Implicit Types (s : PState B L D) (request : ParsedChipRequest).

Lemma prechecks_quiet request : quiet (L := L) (D := D) (prechecks request).
Proof.
  unfold prechecks, onboarding_precheck, rotation_precheck, audit_precheck, silicon_precheck, read_clock. preserves_tac.
Qed.

Lemma gate_quiet request : quiet (L := L) (D := D) (gate_check p request).
Proof. unfold gate_check. preserves_tac. Qed.

Lemma evaluate_quiet ctx policies trace : quiet (B := B) (L := L) (D := D) (evaluate_policies ctx policies trace).
Proof.
  revert trace. induction policies as [|q rest IH]; intros trace; cbn [evaluate_policies]; [apply preserves_ret|].
  apply preserves_bind; [by apply preserves_read|]. intros []. case_match; first [apply preserves_ret|apply IH].
Qed.

Lemma check_quiet request : quiet (L := L) (D := D) (stage_check p request).
Proof.
  unfold stage_check. apply preserves_bind; [apply prechecks_quiet|]. intros _. apply preserves_bind; [apply gate_quiet|].
  intros [r|]; [apply preserves_ret|]. apply preserves_bind; [apply preserves_lift|]. intros policies. apply evaluate_quiet.
Qed.

(** The policies that were evaluated: up to the first that denies. *)
Fixpoint evaluated (ctx : EvalContext) (policies : list PolicyBit) : list PolicyResult :=
  match policies with
  | [] => []
  | q :: rest =>
      let r := policy_evaluate q ctx in r :: (if is_deny (pr_decision r) then [] else evaluated ctx rest)
  end.

Definition passes (ctx : EvalContext) (q : PolicyBit) : Prop := pr_decision (policy_evaluate q ctx) <> DenyD.

Lemma evaluate_exact ctx policies trace s s' r :
  evaluate_policies (L := L) (D := D) (B := B) ctx policies trace s = (s', Ok r) ->
  (ck_decision r = Allow <-> Forall (passes ctx) policies) /\ ck_decision r <> RequireD /\
  (te_policy_id <$> ck_trace r) = (te_policy_id <$> trace) ++ (result_policy_id <$> evaluated ctx policies) /\
  (te_result <$> ck_trace r) = (te_result <$> trace) ++ (pr_decision <$> evaluated ctx policies).
Proof.
  revert trace s. induction policies as [|q rest IH]; intros trace s; cbn [evaluate_policies evaluated].
  - intros [= <- <-]. cbn. rewrite !app_nil_r. repeat split; auto; done.
  - unfold mbind, M_bind, read. cbv beta iota. unfold passes at 1.
    destruct (pr_decision (policy_evaluate q ctx)) eqn:E; cbn [is_deny].
    1, 3: intros (H1 & H2 & H3 & H4)%IH; rewrite H3, H4, H1, !fmap_app, <- !app_assoc; cbn;
      rewrite E; split_and!; try done; split; [intros HF; constructor; [by rewrite ?E|done]|by inversion 1].
    intros [= <- <-]. cbn. rewrite !fmap_app, E. cbn. split_and!; [|done|done|by rewrite E].
    split; [done|]. inversion 1 as [|? ? Hq]. by destruct Hq.
Qed.

(** The chain of policies starts with genesis. *)
Lemma chain_genesis fuel req policies :
  load_policy_chain (pl_storage p) fuel req = Ok policies -> exists rest, policies = create_genesis_policy :: rest.
Proof.
  unfold load_policy_chain. rewrite result_bind_ok. intros (found & _ & H).
  assert (forall l acc out, try_fold (fun policies ancestor_cid =>
      attached ← find_attached_policies (pl_storage p) ancestor_cid; Ok (policies ++ attached)) (create_genesis_policy :: acc) l = Ok out ->
      exists rest, out = create_genesis_policy :: rest) as Hf.
  { induction l as [|x l IH]; intros acc out; cbn [try_fold]; [intros [= <-]; eauto|].
    destruct (find_attached_policies (pl_storage p) x); cbn; [|done]. apply IH. }
  by apply Hf in H.
Qed.

(** CHECK answers with a decision, never with a requirement. *)
Lemma check_no_require request s s' r : stage_check p request s = (s', Ok r) -> ck_decision r <> RequireD.
Proof.
  intros (s1 & [] & _ & (s2 & g & Hg & H)%M_bind_ok)%M_bind_ok. destruct g as [x|].
  - unfold gate_check in Hg. apply M_bind_ok in Hg as (s3 & store & _ & (s4 & d & _ & Hg)%M_bind_ok). destruct d as [d|]; [|done].
    apply M_bind_ok in Hg as (s5 & ms & _ & [= _ <-]). by injection H as _ <-.
  - apply M_bind_ok in H as (s5 & policies & _ & (_ & ? & _)%evaluate_exact). done.
Qed.

(** C29: What the stage answers.  It changes nothing but the clock.  Either a gate
    denies, or the chain of policies is loaded, the trace lists the results of
    the policies up to the first denial, and the chip is allowed exactly when no
    policy denies it; then it has passed genesis. *)
Theorem stage_check_exact request s s' r :
  stage_check p request s = (s', Ok r) ->
  forget s' = forget s /\
  ((exists d ms, silicon_gate (SP := pipeline_signer (pl_signing_key p) (pl_kid p)) (silicon_view <$> chip_store s)
       (pl_resolve_fuel p) (pl_fuel_limit p) (p_body request) = Ok (Some d) /\ r = gate_result d ms) \/
   (exists policies, load_policy_chain (pl_storage p) (pl_ancestry_fuel p) (policy_request request) = Ok policies /\
      (te_result <$> ck_trace r) = (pr_decision <$> evaluated (check_context request) policies) /\
      (te_policy_id <$> ck_trace r) = (result_policy_id <$> evaluated (check_context request) policies) /\
      (ck_decision r = Allow <-> Forall (passes (check_context request)) policies) /\ ck_decision r <> RequireD /\
      (ck_decision r = Allow -> genesis_passes (check_context request)))).
Proof.
  intros H. split; [by eapply preserves_run; [apply check_quiet|]|]. unfold stage_check in H.
  apply M_bind_ok in H as (s1 & [] & H1 & (s2 & g & Hg & H)%M_bind_ok).
  apply (preserves_run forget _ _ _ _ (prechecks_quiet request)) in H1.
  assert (chip_store s1 = chip_store s) as Hs by exact (f_equal chip_store H1).
  unfold gate_check in Hg. apply M_bind_ok in Hg as (s3 & store & [= <- <-] & (s4 & d & Hd & Hg)%M_bind_ok).
  injection Hd as <- Hd. rewrite Hs in Hd.
  destruct (silicon_gate _ _ _ _) as [o|e] eqn:Eg; [|done]. injection Hd as ->. destruct d as [d|].
  - apply M_bind_ok in Hg as (s5 & ms & [= <- <-] & [= <- <-]). injection H as <- <-. left. eauto.
  - injection Hg as <- <-. right. apply M_bind_ok in H as (s5 & policies & Hl & H). injection Hl as <- Hl.
    destruct (load_policy_chain _ _ _) as [ps|e] eqn:El; [|done]. injection Hl as ->.
    apply evaluate_exact in H as (H2 & H3 & H4 & H5). exists policies. split_and!; try done.
    rewrite H2. intros HF. destruct (chain_genesis _ _ _ El) as [rest ->].
    apply Forall_cons in HF as [Hq _]. by destruct (genesis_policy_decision (check_context request)) as [[_ ?]|[? _]].
Qed.

(** *** Key rotation *)

(** Key rotation is final: once the mapping of an old key has been stored, then
    whatever is stored afterwards (short of a deletion or another chip under
    the mapping's CID), the stage rejects every rotation of the same key. *)
Theorem rotated_key_rejected inv accepts contents `{!BackendSpec BE inv accepts contents} {CD : ChronoDate} {HI : HashIter}
    (st st1 : ChipStore.ChipStore B) world rc rr why material at_ receipt meta now bs c ops ix request req s s' out :
  let mapping := mapping_chip world rc rr why material at_ in
  inv (backend st) -> to_nrf1_bytes mapping = Ok bs -> accepts (stored_of mapping (compute_cid bs) receipt meta now) ->
  store_executed_chip st mapping receipt meta now = (st1, Ok c) ->
  Forall (keeps accepts (cid_new_unchecked c)) ops ->
  chip_store s = Some (mkStore (fold_left run_op ops (backend st1)) ix) ->
  p_chip_type request = "ubl/key.rotate" -> rotate_parse (p_body request) = Ok req -> old_kid req = mat_old_kid material ->
  stage_check p request s <> (s', Ok out).
Proof.
  intros mapping Hi Hb Ha Hs HF Hc Hty Hr Hk H. unfold store_executed_chip in Hs. rewrite Hb in Hs.
  set (chip := stored_of mapping (compute_cid bs) receipt meta now) in *.
  destruct (spec_put chip (backend st) Hi Ha) as (b' & Hp & Hi' & Hcon & _). rewrite Hp in Hs. injection Hs as <- <-.
  cbn [backend] in Hc. set (s2 := mkStore (fold_left run_op ops b') ix) in *.
  assert (Forall (op_accepted accepts) ops) as HA by (eapply Forall_impl; [exact HF|]; intros []; cbn; naive_solver).
  destruct (run_ops_spec ops b' Hi' HA) as [Hi2 Hc2].
  assert (some_tagged (contents (backend s2)) "ubl/key.map" ("old_kid:" +:+ old_kid req)) as Ht.
  { exists chip. cbn [backend s2]. rewrite Hc2. split_and!.
    - apply (keeps_lookup accepts); [exact HF|]. rewrite Hcon. apply lookup_insert_eq.
    - done.
    - apply (field_in_tags mapping _ "old_kid"); [unfold tag_fields; set_solver|]. by rewrite Hk. }
  unfold stage_check in H. apply M_bind_ok in H as (s3 & [] & H1 & _). unfold prechecks in H1.
  apply M_bind_ok in H1 as (s4 & [] & Ho & (s5 & [] & Hrot & _)%M_bind_ok).
  unfold onboarding_precheck in Ho. rewrite Hty in Ho. change (is_onboarding_type "ubl/key.rotate") with false in Ho.
  injection Ho as <-. unfold rotation_precheck in Hrot. rewrite Hty in Hrot. cbn [String.eqb Ascii.eqb Bool.eqb] in Hrot.
  rewrite Hr in Hrot. apply M_bind_ok in Hrot as (s6 & parsed & [= <- <-] & (s7 & nw & [= <- <-] & Hrot)%M_bind_ok).
  apply M_bind_ok in Hrot as (s8 & cap & Hcap & (s9 & store & [= <- <-] & Hrot)%M_bind_ok). injection Hcap as <- _.
  cbn [chip_store next_tick] in Hrot. rewrite Hc in Hrot.
  apply M_bind_ok in Hrot as (s10 & ex & He & Hrot). injection He as <- He.
  destruct (tagged_page s2 "ubl/key.map" ("old_kid:" +:+ old_kid req) 0 Hi2) as (page & Hq & [[_ Hn]|[Hne _]]); [done|].
  unfold rotation_query in He. change (mkQuery _ _ _ _ _ _ _) with (tagged "ubl/key.map" ("old_kid:" +:+ old_kid req) (Some 1%nat)) in He.
  rewrite Hq in He. injection He as <-. by destruct (qr_chips page).
Qed.
End Facts.
