(* ===== verification/Compaction.v ===== *)
(** * Compaction of ledger segments ([pipeline/stages/transition.rs])

    [execute_filesystem_compaction]: every listed segment file is checked
    (size, SHA-256, number of lines) and then deleted or moved below a fresh
    archive directory.  The file system is a map from paths to contents with a
    set of directories; an oracle says which calls hit an input/output error and
    how much of its work a failing copy or creation of directories has done. *)

From S2P Require Import Prelude RustStd RustStr Json Receipt AuditChip PipelineTypes.
Local Open Scope Z_scope.
Local Open Scope string_scope.
Local Open Scope list_scope.

(** [ring::digest] with SHA-256. *)
Class Sha256 : Type := { sha256 : bytes -> bytes }.
Definition sha256_hex `{Sha256} (bs : bytes) : string := hex_encode (sha256 bs).

(** ** The file system *)

Abbreviation path := (list string) (only parsing).

(** Whether a call works; a copy that fails may have written the first bytes
    of its target, a creation of directories made the first of them. *)
Inductive IoOutcome : Type := Works | Faults (progress : option nat).

Record Fs : Type := mkFs { fs_files : gmap path bytes; fs_dirs : gset path; io_outcome : nat -> IoOutcome; io_count : nat }.

Inductive IoError : Type := IoFailed.

Definition fs_io (A : Type) : Type := M Fs IoError A.

(** One call: it fails when the oracle says so, after [part] of its work. *)
Definition io_call_partly {A} (part : nat -> Fs -> Fs) (m : fs_io A) : fs_io A := fun s =>
  let s' := mkFs (fs_files s) (fs_dirs s) (io_outcome s) (S (io_count s)) in
  match io_outcome s (io_count s) with
  | Works => m s'
  | Faults None => (s', Err IoFailed)
  | Faults (Some n) => (part n s', Err IoFailed)
  end.
Definition io_call {A} (m : fs_io A) : fs_io A := io_call_partly (fun _ s => s) m.

Definition set_files (s : Fs) (f : gmap path bytes) : Fs := mkFs f (fs_dirs s) (io_outcome s) (io_count s).
Definition add_dirs (s : Fs) (l : list path) : Fs := mkFs (fs_files s) (list_to_set l ∪ fs_dirs s) (io_outcome s) (io_count s).

(** The directories that lead to a path, itself included. *)
Definition prefixes (p : path) : list path := (fun n => take n p) <$> seq 0 (S (length p)).

Definition free_dirs (s : Fs) (l : list path) : bool := negb (existsb (fun q => bool_decide (is_Some (fs_files s !! q))) l).
Definition create_dir_all (p : path) : fs_io unit :=
  io_call_partly (fun n s => if free_dirs s (take n (prefixes p)) then add_dirs s (take n (prefixes p)) else s)
    (fun s => if free_dirs s (prefixes p) then (add_dirs s (prefixes p), Ok tt) else (s, Err IoFailed)).

(** Whether the path is a file, and its length. *)
Definition metadata (p : path) : fs_io (bool * Z) := io_call (fun s =>
  match fs_files s !! p with
  | Some content => (s, Ok (true, Z.of_nat (length content)))
  | None => if bool_decide (p ∈ fs_dirs s) then (s, Ok (false, 0)) else (s, Err IoFailed)
  end).

Definition read_file (p : path) : fs_io bytes := io_call (fun s =>
  match fs_files s !! p with Some content => (s, Ok content) | None => (s, Err IoFailed) end).

Definition parent (p : path) : path := removelast p.

(** A file can be written where its directory exists and no directory is. *)
Definition writable (s : Fs) (p : path) : bool :=
  bool_decide (parent p ∈ fs_dirs s) && negb (bool_decide (p ∈ fs_dirs s)).

Definition rename (from to : path) : fs_io unit := io_call (fun s =>
  match fs_files s !! from with
  | Some content =>
      if writable s to then (set_files s (<[to := content]> (delete from (fs_files s))), Ok tt) else (s, Err IoFailed)
  | None => (s, Err IoFailed)
  end).

(** The target with the first bytes of the file, or all of them. *)
Definition copied (cut : bytes -> bytes) (from to : path) (s : Fs) : option Fs :=
  content ← fs_files s !! from;
  if writable s to then Some (set_files s (<[to := cut content]> (fs_files s))) else None.
Definition copy (from to : path) : fs_io unit :=
  io_call_partly (fun n s => default s (copied (take n) from to s))
    (fun s => match copied id from to s with Some s' => (s', Ok tt) | None => (s, Err IoFailed) end).

Definition remove_file (p : path) : fs_io unit := io_call (fun s =>
  match fs_files s !! p with
  | Some _ => (set_files s (delete p (fs_files s)), Ok tt)
  | None => (s, Err IoFailed)
  end).

(** [map_err] and [or_else] of the monad. *)
Definition map_err_m {S E F A} (f : E -> F) (m : M S E A) : M S F A := fun s =>
  match m s with (s', Ok a) => (s', Ok a) | (s', Err e) => (s', Err (f e)) end.
Definition or_else_m {S E A} (m m' : M S E A) : M S E A := fun s =>
  match m s with (s', Ok a) => (s', Ok a) | (s', Err _) => m' s' end.

(** ** Paths *)

Inductive Component : Type := RootDir | CurDir | ParentDir | Normal (s : string).

(** [Path::components] on Unix: empty segments are dropped, and [.] too except
    at the start. *)
Definition components (raw : string) : list Component :=
  let segments := split_on "/" raw in
  let comp s := if String.eqb s ".." then ParentDir else Normal s in
  let rest l := comp <$> List.filter (fun s => negb (is_empty s) && negb (String.eqb s ".")) l in
  match segments with
  | "" :: (_ :: _) as l => RootDir :: rest l
  | "." :: l => CurDir :: rest l
  | l => rest l
  end.

Definition is_absolute (raw : string) : bool := starts_with "/" raw.

Fixpoint clean_components (raw : string) (l : list Component) (clean : path) : result PipelineError path :=
  match l with
  | [] => Ok clean
  | Normal s :: l' => clean_components raw l' (clean ++ [s])
  | CurDir :: l' => clean_components raw l' clean
  | _ => Err (InvalidChip (Text ("segment path contains invalid component: " +:+ raw)))
  end.

Definition segment_rel_path (raw : string) : result PipelineError path :=
  if is_absolute raw then Err (InvalidChip (Text ("segment path must be relative: " +:+ raw)))
  else
    clean ← clean_components raw (components raw) [];
    match clean with
    | [] => Err (InvalidChip (Text "segment path cannot be empty"))
    | _ => Ok clean
    end.

Definition resolve_compact_segment_path (base : path) (raw : string) : result PipelineError path :=
  rel ← segment_rel_path raw; Ok (base ++ rel).

(** ** Compaction *)

(** [content.split(|b| *b == b'\n')]. *)
Fixpoint split_lines (acc content : bytes) : list bytes :=
  match content with
  | [] => [acc]
  | b :: content' => if Byte.eqb b x0a then acc :: split_lines [] content' else split_lines (acc ++ [b]) content'
  end.
Definition count_non_empty_lines (content : bytes) : nat :=
  length (List.filter (fun line => negb (bool_decide (line = []))) (split_lines [] content)).

Record CompactFsResult : Type := mkCompactFs { freed_bytes : Z; archived_files : nat; deleted_files : nat }.

Section Compaction.
Context {SH : Sha256}.

Definition storage {A} (what : string) (m : fs_io A) : M Fs PipelineError A :=
  map_err_m (fun _ => StorageError (Text what)) m.

(** The checks of one segment: its path, length and verified content. *)
Definition verify_segment (base : path) (segment : SegmentSource) : M Fs PipelineError (path * Z) :=
  resolved ← lift (resolve_compact_segment_path base (seg_path segment));
  meta ← storage "compact segment metadata failed" (metadata resolved);
  if negb meta.1 then throw (InvalidChip (Text "compact segment is not a file"))
  else
    content ← storage "compact segment read failed" (read_file resolved);
    if negb (eq_ignore_ascii_case (sha256_hex content) (seg_sha256 segment))
    then throw (InvalidChip (Text ("compact segment sha256 mismatch for '" +:+ seg_path segment +:+ "'")))
    else if negb (Z.of_nat (count_non_empty_lines content) =? seg_lines segment)%Z
    then throw (InvalidChip (Text ("compact segment lines mismatch for '" +:+ seg_path segment +:+ "'")))
    else mret (resolved, meta.2).

Definition compact_segment (base : path) (archive_root : option path) (acc : CompactFsResult) (segment : SegmentSource)
    : M Fs PipelineError CompactFsResult :=
  checked ← verify_segment base segment;
  let resolved := checked.1 in
  let freed := u64_saturating_add (freed_bytes acc) checked.2 in
  match archive_root with
  | Some root =>
      rel ← lift (segment_rel_path (seg_path segment));
      let target := root ++ rel in
      _ ← storage "compact archive parent create failed" (create_dir_all (parent target));
      _ ← storage "compact archive move failed"
            (or_else_m (rename resolved target) (_ ← copy resolved target; remove_file resolved));
      mret (mkCompactFs freed (S (archived_files acc)) (deleted_files acc))
  | None =>
      _ ← storage "compact delete failed" (remove_file resolved);
      mret (mkCompactFs freed (archived_files acc) (S (deleted_files acc)))
  end.

Fixpoint compact_segments (base : path) (archive_root : option path) (acc : CompactFsResult) (segments : list SegmentSource)
    : M Fs PipelineError CompactFsResult :=
  match segments with
  | [] => mret acc
  | segment :: rest =>
      acc' ← compact_segment base archive_root acc segment;
      compact_segments base archive_root acc' rest
  end.

(** The base directory of the environment, as a path. *)
Definition ledger_base (env : Environment) : path :=
  List.filter (fun s => negb (is_empty s))
    (split_on "/" (match env "UBL_LEDGER_BASE_DIR" with Ok v => v | Err _ => "./data/ledger" end)).

(** [stamp]: the clock reading as [%Y%m%dT%H%M%SZ]. *)
Definition execute_filesystem_compaction (base : path) (stamp mode : string) (segments : list SegmentSource)
    : M Fs PipelineError CompactFsResult :=
  _ ← storage "compact base dir create failed" (create_dir_all base);
  archive_root ← (if String.eqb mode "archive_then_delete" then
                    let root := base ++ ["archive"; stamp] in
                    _ ← storage "compact archive dir create failed" (create_dir_all root); mret (Some root)
                  else mret None);
  compact_segments base archive_root (mkCompactFs 0 0 0) segments.
End Compaction.
