(* ===== verification/CompactionFacts.v ===== *)
(** * Facts on compaction

    Deletion removes exactly the verified files; archiving never loses one,
    whatever input/output errors occur; a segment that fails stops the
    compaction and leaves what was done before it. *)

From S2P Require Import Prelude RustStd RustStr Json Receipt AuditChip PipelineTypes Compaction.
Local Open Scope Z_scope.
Local Open Scope string_scope.
Local Open Scope list_scope.

(** ** Calls *)

Definition keeps_files {E A} (m : M Fs E A) : Prop := forall s, fs_files (fst (m s)) = fs_files s.

Lemma keeps_bind {E A B} (m : M Fs E A) (f : A -> M Fs E B) :
  keeps_files m -> (forall a, keeps_files (f a)) -> keeps_files (m ≫= f).
Proof.
  intros Hm Hf s. unfold mbind, M_bind. specialize (Hm s). destruct (m s) as [s1 [a|e]]; cbn in *; [|done].
  by rewrite Hf.
Qed.

Lemma keeps_partly {A} part (m : fs_io A) :
  (forall n s, fs_files (part n s) = fs_files s) -> keeps_files m -> keeps_files (io_call_partly part m).
Proof. intros Hp Hm s. unfold io_call_partly. destruct (io_outcome s _) as [|[n|]]; [exact (Hm _)|exact (Hp _ _)|done]. Qed.
Lemma keeps_call {A} (m : fs_io A) : keeps_files m -> keeps_files (io_call m).
Proof. by apply keeps_partly. Qed.

Lemma keeps_storage {A} what (m : fs_io A) : keeps_files m -> keeps_files (storage what m).
Proof. intros Hm s. unfold storage, map_err_m. specialize (Hm s). by destruct (m s) as [s1 []]. Qed.

Lemma keeps_create p : keeps_files (create_dir_all p).
Proof. apply keeps_partly; [intros n s|intros s]; cbn beta; by destruct (free_dirs s _). Qed.
Lemma keeps_metadata p : keeps_files (metadata p).
Proof. apply keeps_call. intros s. repeat case_match; done. Qed.
Lemma keeps_read p : keeps_files (read_file p).
Proof. apply keeps_call. intros s. by case_match. Qed.
Lemma keeps_lift {E A} (r : result E A) : keeps_files (lift r).
Proof. done. Qed.
Lemma keeps_ret {E A} (a : A) : keeps_files (E := E) (mret a).
Proof. done. Qed.
Lemma keeps_throw {E A} e : keeps_files (E := E) (A := A) (throw e).
Proof. done. Qed.
#[export] Hint Resolve keeps_bind keeps_storage keeps_create keeps_metadata keeps_read keeps_lift keeps_ret keeps_throw : ubl.

Lemma storage_ok {A} what (m : fs_io A) s s' a : storage what m s = (s', Ok a) <-> m s = (s', Ok a).
Proof. unfold storage, map_err_m. destruct (m s) as [s1 [x|x]]; naive_solver congruence. Qed.

Lemma io_ok {A} (m : fs_io A) s s' a :
  io_call m s = (s', Ok a) -> exists s1, fs_files s1 = fs_files s /\ m s1 = (s', Ok a).
Proof. unfold io_call, io_call_partly. destruct (io_outcome s _) as [|[n|]]; [|done..]. intros Hm. eexists. split; [|exact Hm]. done. Qed.

(** What a call that moves or removes files leaves. *)
Lemma remove_files p s s' r : remove_file p s = (s', r) ->
  (fs_files s' = fs_files s /\ r = Err IoFailed) \/
  (fs_files s' = delete p (fs_files s) /\ r = Ok tt /\ is_Some (fs_files s !! p)).
Proof.
  unfold remove_file, io_call, io_call_partly. destruct (io_outcome s _) as [|[n|]]; [|by intros [= <- <-]; left..]. cbn [fs_files].
  case_match; intros [= <- <-]; [right|left]; eauto.
Qed.

Lemma copy_files a b s s' r : copy a b s = (s', r) ->
  (fs_files s' = fs_files s /\ r = Err IoFailed) \/
  (exists c, fs_files s !! a = Some c /\
     ((exists part, fs_files s' = <[b := part]> (fs_files s) /\ r = Err IoFailed) \/
      fs_files s' = <[b := c]> (fs_files s) /\ r = Ok tt)).
Proof.
  unfold copy, io_call_partly, copied. destruct (io_outcome s _) as [|[n|]]; cbn [fs_files]; [| |by intros [= <- <-]; left].
  all: destruct (fs_files s !! a) as [c|]; cbn [mbind option_bind from_option default fs_files set_files]; [|intros [= <- <-]; by left].
  all: destruct (writable _ b); intros [= <- <-]; [right; exists c; split; [done|]|by left].
  - by right.
  - left. by exists (take n c).
Qed.

Lemma rename_files a b s s' r : rename a b s = (s', r) ->
  (fs_files s' = fs_files s /\ r = Err IoFailed) \/
  (exists c, fs_files s !! a = Some c /\ fs_files s' = <[b := c]> (delete a (fs_files s)) /\ r = Ok tt).
Proof.
  unfold rename, io_call, io_call_partly. destruct (io_outcome s _) as [|[n|]]; [|by intros [= <- <-]; left..]. cbn [fs_files].
  case_match; [case_match|]; intros [= <- <-]; [right|left|left]; eauto.
Qed.

(** ** One segment *)

Section Facts.
Context {SH : Sha256}.

(** The file of a segment, as the request describes it. *)
Definition verified (f : gmap path bytes) (base : path) (segment : SegmentSource) (rel : path) (content : bytes) : Prop :=
  segment_rel_path (seg_path segment) = Ok rel /\ f !! (base ++ rel) = Some content /\
  eq_ignore_ascii_case (sha256_hex content) (seg_sha256 segment) = true /\
  Z.of_nat (count_non_empty_lines content) = seg_lines segment.

Lemma keeps_verify base segment : keeps_files (verify_segment base segment).
Proof.
  unfold verify_segment. apply keeps_bind; [apply keeps_lift|]. intros q. apply keeps_bind; [auto with ubl|]. intros m.
  case_match; [apply keeps_throw|]. apply keeps_bind; [auto with ubl|]. intros c. repeat case_match; auto with ubl.
Qed.

Lemma verify_ok base segment s s' q n : verify_segment base segment s = (s', Ok (q, n)) ->
  exists rel content, q = base ++ rel /\ n = Z.of_nat (length content) /\ verified (fs_files s) base segment rel content.
Proof.
  unfold verify_segment, resolve_compact_segment_path.
  intros (s1 & q1 & H1 & (s2 & m & Hm & H)%M_bind_ok)%M_bind_ok. injection H1 as <- (rel & Hr & [= <-])%result_bind_ok.
  apply storage_ok in Hm. pose proof (keeps_metadata (base ++ rel) s) as K. rewrite Hm in K. cbn in K.
  apply io_ok in Hm as (s3 & E3 & Hm). revert H. destruct (negb m.1) eqn:Em; [done|]. intros H. revert Hm.
  destruct (fs_files s3 !! (base ++ rel)) as [c|] eqn:Ec; [intros [= <- <-]|by destruct (bool_decide _); [intros [= <- <-]|]].
  apply M_bind_ok in H as (s4 & c' & Hc & H). apply storage_ok, io_ok in Hc as (s5 & E5 & Hc).
  rewrite E5, Ec in Hc. injection Hc as _ <-. revert H.
  destruct (negb (eq_ignore_ascii_case _ _)) eqn:Hs; [done|]. destruct (negb (_ =? _)%Z) eqn:Hl; [done|].
  intros [= _ <- <-]. bool_to_prop. exists rel, c. unfold verified. rewrite <- E3. split_and!; done.
Qed.

(** Moving a file: nothing, a copy or a part of one without the removal, or the
    move. *)
Lemma move_files a b s s' r : a <> b ->
  or_else_m (rename a b) (_ ← copy a b; remove_file a) s = (s', r) ->
  (fs_files s' = fs_files s /\ r = Err IoFailed) \/
  (exists c, fs_files s !! a = Some c /\
     ((exists part, fs_files s' = <[b := part]> (fs_files s) /\ r = Err IoFailed) \/
      (fs_files s' = <[b := c]> (delete a (fs_files s)) /\ r = Ok tt))).
Proof.
  intros Hab. unfold or_else_m. destruct (rename a b s) as [s1 r1] eqn:E1.
  apply rename_files in E1 as [[F1 ->]|(c & Hc & F1 & ->)]; [|intros [= <- <-]; right; eauto].
  unfold mbind at 1, M_bind. destruct (copy a b s1) as [s2 r2] eqn:E2.
  apply copy_files in E2 as [[F2 ->]|(c & Hc & [(part & F2 & ->)|[F2 ->]])]; [intros [= <- <-]; left; by rewrite F2, F1| |];
    rewrite F1 in Hc; [intros [= <- <-]; right; exists c; split; [done|]; left; exists part; by rewrite F2, F1|].
  intros [[F3 ->]|(F3 & -> & _)]%remove_files; right; exists c; (split; [done|]).
  - left. exists c. by rewrite F3, F2, F1.
  - right. split; [|done]. rewrite F3, F2, F1. by apply delete_insert_ne.
Qed.

Lemma delete_segment base acc segment s s' r : compact_segment base None acc segment s = (s', r) ->
  (fs_files s' = fs_files s /\ (forall x, r <> Ok x)) \/
  (exists rel content, verified (fs_files s) base segment rel content /\
     fs_files s' = delete (base ++ rel) (fs_files s) /\
     r = Ok (mkCompactFs (u64_saturating_add (freed_bytes acc) (Z.of_nat (length content))) (archived_files acc)
               (S (deleted_files acc)))).
Proof.
  unfold compact_segment, mbind at 1, M_bind. pose proof (keeps_verify base segment s) as K.
  destruct (verify_segment base segment s) as [s1 [[q n]|e]] eqn:Ev; cbn [fst] in K; [|intros [= <- <-]; by left].
  apply verify_ok in Ev as (rel & c & -> & -> & Hv). cbn [fst snd]. unfold mbind at 1, M_bind, storage, map_err_m.
  destruct (remove_file (base ++ rel) s1) as [s2 r2] eqn:Er.
  apply remove_files in Er as [[F2 ->]|(F2 & -> & _)]; intros [= <- <-]; rewrite K in F2; [by left|right; eauto].
Qed.

Lemma archive_segment base root acc segment s s' r :
  (forall rel, segment_rel_path (seg_path segment) = Ok rel -> base ++ rel <> root ++ rel) ->
  compact_segment base (Some root) acc segment s = (s', r) ->
  (fs_files s' = fs_files s /\ (forall x, r <> Ok x)) \/
  (exists rel content, verified (fs_files s) base segment rel content /\
     ((exists part, fs_files s' = <[root ++ rel := part]> (fs_files s) /\ (forall x, r <> Ok x)) \/
      (fs_files s' = <[root ++ rel := content]> (delete (base ++ rel) (fs_files s)) /\
       r = Ok (mkCompactFs (u64_saturating_add (freed_bytes acc) (Z.of_nat (length content))) (S (archived_files acc))
                 (deleted_files acc))))).
Proof.
  intros Hne. unfold compact_segment, mbind at 1, M_bind. pose proof (keeps_verify base segment s) as K.
  destruct (verify_segment base segment s) as [s1 [[q n]|e]] eqn:Ev; cbn [fst] in K; [|intros [= <- <-]; by left].
  apply verify_ok in Ev as (rel & c & -> & -> & Hv). pose proof Hv as (Hr & Hc & _). cbn [fst snd].
  unfold lift. rewrite Hr. unfold mbind at 1, M_bind.
  pose proof (keeps_storage "compact archive parent create failed" _ (keeps_create (parent (root ++ rel))) s1) as K1.
  unfold mbind at 1, M_bind.
  destruct (storage _ (create_dir_all _) s1) as [s2 [[]|e]]; cbn [fst] in K1; [|intros [= <- <-]; left; by rewrite K1, K].
  unfold mbind at 1, M_bind, storage, map_err_m. destruct (or_else_m _ _ s2) as [s3 r3] eqn:Em.
  apply move_files in Em; [|by apply Hne]. rewrite K1, K in Em.
  destruct Em as [[F ->]|(c' & Hc' & [(part & F & ->)|[F ->]])]; intros [= <- <-]; [by left|right..];
    rewrite Hc in Hc'; injection Hc' as <-; exists rel, c; (split; [done|]); [left; by exists part|by right].
Qed.
(** ** Deletion *)

Definition freed_total (n : Z) (contents : list bytes) : Z :=
  fold_left (fun n c => u64_saturating_add n (Z.of_nat (length c))) contents n.

Definition delete_all (base : path) (f : gmap path bytes) (pairs : list (path * bytes)) : gmap path bytes :=
  fold_left (fun f p => delete (base ++ p.1) f) pairs f.

Lemma delete_loop base segments acc s s' r : compact_segments base None acc segments s = (s', r) ->
  exists pairs : list (path * bytes),
    Forall2 (fun segment p => verified (fs_files s) base segment p.1 p.2) (take (length pairs) segments) pairs /\
    NoDup pairs.*1 /\ fs_files s' = delete_all base (fs_files s) pairs /\
    (forall x, r = Ok x -> length pairs = length segments /\
       x = mkCompactFs (freed_total (freed_bytes acc) pairs.*2) (archived_files acc) (deleted_files acc + length segments)).
Proof.
  revert acc s. induction segments as [|segment rest IH]; intros acc s; cbn [compact_segments].
  - intros [= <- <-]. exists []. split_and!; try done; [by constructor..|]. intros x [= <-]. split; [done|].
    destruct acc; cbn. f_equal. lia.
  - unfold mbind, M_bind. destruct (compact_segment base None acc segment s) as [s1 r1] eqn:E.
    apply delete_segment in E as [[F Hr]|(rel & c & Hv & F & ->)].
    + destruct r1 as [x|e]; [by destruct (Hr x)|]. intros [= <- <-]. exists []. split_and!; try done; by constructor.
    + intros (pairs & H2 & Hnd & F' & Hx)%IH. exists ((rel, c) :: pairs). rewrite F in H2, F'. split_and!.
      * cbn. constructor; [done|]. eapply Forall2_impl; [exact H2|]. cbn. intros seg p (A & L & ?). split; [done|].
        by apply lookup_delete_Some in L as [_ L].
      * cbn. constructor; [|done]. assert (Forall (fun p => p.1 <> rel) pairs) as Hne.
        { eapply Forall2_Forall_r; [exact H2|]. apply Forall_true. intros seg p (_ & L & _) <-.
          by rewrite lookup_delete_eq in L. }
        rewrite list_elem_of_fmap. intros (p & -> & Hin). by eapply Forall_forall in Hne; [|exact Hin].
      * done.
      * intros x Hxr. destruct (Hx x Hxr) as [Hl ->]. cbn. split; [by f_equal|]. f_equal. lia.
Qed.

(** Compaction by deletion: whatever errors occur, what is gone is exactly a
    prefix of the listed segments, each a file that existed with the stated
    digest and number of lines, no file twice; when the call succeeds the prefix
    is the whole list and the freed bytes are counted. *)
Theorem deletion_exact base stamp mode segments s s' r :
  mode <> "archive_then_delete" ->
  execute_filesystem_compaction base stamp mode segments s = (s', r) ->
  exists pairs : list (path * bytes),
    Forall2 (fun segment p => verified (fs_files s) base segment p.1 p.2) (take (length pairs) segments) pairs /\
    NoDup pairs.*1 /\ fs_files s' = delete_all base (fs_files s) pairs /\
    (forall x, r = Ok x -> length pairs = length segments /\
       x = mkCompactFs (freed_total 0 pairs.*2) 0 (length segments)).
Proof.
  intros Hm. unfold execute_filesystem_compaction. unfold mbind at 1, M_bind.
  pose proof (keeps_storage "compact base dir create failed" _ (keeps_create base) s) as K.
  destruct (storage _ (create_dir_all base) s) as [s1 [[]|e]]; cbn [fst] in K.
  - rewrite (proj2 (String.eqb_neq _ _)) by done. cbn. intros H%delete_loop. by rewrite K in H.
  - intros [= <- <-]. exists []. split_and!; try done; by constructor.
Qed.

(** ** Archiving *)

Definition outside_archive (segment : SegmentSource) : Prop :=
  forall rel, segment_rel_path (seg_path segment) = Ok rel -> head rel <> Some "archive".

Section Archive.
Context (base : path) (stamp : string) (f0 : gmap path bytes).
Abbreviation root := (base ++ ["archive"; stamp]).
Context (Hfresh : forall q, f0 !! (root ++ q) = None).

(** Every file of the start is still there or below the archive. *)
Definition kept (f : gmap path bytes) : Prop :=
  forall q c, f0 !! q = Some c -> f !! q = Some c \/ exists rel, q = base ++ rel /\ f !! q = None /\ f !! (root ++ rel) = Some c.

Record arch_inv (f : gmap path bytes) : Prop := {
  inv_kept : kept f;
  inv_moved rel : head rel <> Some "archive" -> is_Some (f !! (root ++ rel)) -> f !! (base ++ rel) = None;
  inv_old q c : f !! q = Some c -> (exists rel, q = root ++ rel) \/ f0 !! q = Some c }.

Lemma below_root rel x : base ++ rel = root ++ x -> head rel = Some "archive".
Proof. rewrite <- app_assoc. intros ->%app_inv_head. done. Qed.

Lemma arch_start : arch_inv f0.
Proof.
  split; [by left|intros rel _ [c Hc]; by rewrite Hfresh in Hc|by right].
Qed.

Lemma start_outside q c rel : f0 !! q = Some c -> q <> root ++ rel.
Proof. intros H ->. by rewrite Hfresh in H. Qed.

Lemma kept_copy f rel c part : kept f -> f !! (base ++ rel) = Some c -> kept (<[root ++ rel := part]> f).
Proof.
  intros Hk Hc q c0 H0. pose proof (start_outside _ _ rel H0) as Hq.
  destruct (Hk q c0 H0) as [H|(rel0 & -> & Hn & H)]; [left; by rewrite lookup_insert_ne|].
  right. exists rel0. split; [done|]. rewrite !lookup_insert_ne; [done| |done].
  intros E%app_inv_head. congruence.
Qed.

Lemma arch_move f rel c : arch_inv f -> head rel <> Some "archive" -> f !! (base ++ rel) = Some c ->
  arch_inv (<[root ++ rel := c]> (delete (base ++ rel) f)).
Proof.
  intros [Hk Hm Ho] Hr Hc.
  assert (base ++ rel <> root ++ rel) as Hne by by intros ?%below_root.
  split.
  - intros q c0 H0. pose proof (start_outside _ _ rel H0) as Hq.
    destruct (decide (q = base ++ rel)) as [->|Hd].
    + right. exists rel. rewrite lookup_insert_eq, lookup_insert_ne, lookup_delete_eq by done.
      split_and!; try done. destruct (Hk _ _ H0) as [H|(? & _ & H & _)]; congruence.
    + destruct (Hk q c0 H0) as [H|(rel0 & -> & Hn & H)]; [left; by rewrite lookup_insert_ne, lookup_delete_ne|].
      right. exists rel0. split; [done|]. rewrite (lookup_insert_ne _ _ (base ++ rel0)), lookup_delete_ne by done. split; [done|].
      rewrite lookup_insert_ne, lookup_delete_ne; [done| |]; [by intros ?%below_root|intros E%app_inv_head; congruence].
  - intros rel1 H1 Hs. destruct (decide (rel1 = rel)) as [->|Hd].
    { by rewrite lookup_insert_ne, lookup_delete_eq. }
    rewrite lookup_insert_ne, lookup_delete_ne in Hs; [| |by intros E%app_inv_head]; [|by intros ?%below_root].
    rewrite lookup_insert_ne, lookup_delete_ne; [by apply Hm|by intros E%app_inv_head|].
    intros E. symmetry in E. by apply below_root in E.
  - intros q c0. destruct (decide (q = root ++ rel)) as [->|Hd]; [left; eauto|].
    rewrite lookup_insert_ne by done. intros [_ H]%lookup_delete_Some. by apply Ho.
Qed.

(** A segment that has been moved. *)
Definition moved (f : gmap path bytes) (segment : SegmentSource) : Prop :=
  exists rel c, verified f0 base segment rel c /\ f !! (base ++ rel) = None /\ f !! (root ++ rel) = Some c.

Lemma moved_step f segment rel c : outside_archive segment -> head rel <> Some "archive" -> f !! (base ++ rel) = Some c ->
  moved f segment -> moved (<[root ++ rel := c]> (delete (base ++ rel) f)) segment.
Proof.
  intros Ho Hr Hc (rel1 & c1 & Hv & H1 & H2). exists rel1, c1. split; [done|]. pose proof (Ho rel1 (proj1 Hv)) as Hr1.
  assert (rel1 <> rel) as Hd by congruence. split.
  - rewrite lookup_insert_ne, lookup_delete_ne; [done|by intros E%app_inv_head|].
    intros E. symmetry in E. by apply below_root in E.
  - rewrite lookup_insert_ne, lookup_delete_ne; [done|by intros ?%below_root|by intros E%app_inv_head].
Qed.

Lemma archive_loop segments acc s s' r don :
  Forall outside_archive segments -> Forall outside_archive don ->
  arch_inv (fs_files s) -> Forall (moved (fs_files s)) don ->
  compact_segments base (Some root) acc segments s = (s', r) ->
  kept (fs_files s') /\ (forall x, r = Ok x -> Forall (moved (fs_files s')) (don ++ segments)).
Proof.
  revert acc s don. induction segments as [|segment rest IH]; intros acc s don HF HFd Hi Hd; cbn [compact_segments].
  { intros [= <- <-]. rewrite app_nil_r. split; [apply Hi|done]. }
  apply Forall_cons in HF as [Ho HF]. unfold mbind, M_bind.
  destruct (compact_segment base (Some root) acc segment s) as [s1 r1] eqn:E.
  apply archive_segment in E; [|by intros rel Hrel ?%below_root; by apply (Ho rel)].
  destruct E as [[F Hr]|(rel & c & Hv & [(part & F & Hr)|[F ->]])].
  - destruct r1 as [x|e]; [by destruct (Hr x)|]. intros [= <- <-]. rewrite F. split; [apply Hi|done].
  - destruct r1 as [x|e]; [by destruct (Hr x)|]. intros [= <- <-]. rewrite F. split; [|done].
    eapply kept_copy; [apply Hi|apply Hv].
  - pose proof Hv as (Hrel & Hc & Hsha). pose proof (Ho rel Hrel) as Hh. intros H.
    replace (don ++ segment :: rest) with ((don ++ [segment]) ++ rest) by by rewrite <- app_assoc.
    eapply IH; [done| | | |exact H]; rewrite ?F.
    + apply Forall_app. split; [done|]. by constructor.
    + by apply arch_move.
    + apply Forall_app. split.
      * apply Forall_forall. intros x Hx. apply moved_step; [by eapply Forall_forall in HFd|done..|by eapply Forall_forall in Hd].
      * constructor; [|done]. exists rel, c. rewrite lookup_insert_eq, lookup_insert_ne, lookup_delete_eq; [|by intros ?%eq_sym%below_root].
        split_and!; try done. destruct (inv_old _ Hi _ _ Hc) as [[x Hx]|H0]; [by apply below_root in Hx|done].
Qed.
End Archive.

(** C30: Archiving loses nothing.  Below a fresh archive directory, and for segments
    outside of it, whatever input/output errors occur and wherever the call
    stops, every file is still in its place or has been moved, with its content,
    to its place below the archive; when the call succeeds every segment has been
    moved, and its file was as the request describes it. *)
Theorem archiving_keeps base stamp segments s s' r :
  (forall q, fs_files s !! ((base ++ ["archive"; stamp]) ++ q) = None) -> Forall outside_archive segments ->
  execute_filesystem_compaction base stamp "archive_then_delete" segments s = (s', r) ->
  kept base stamp (fs_files s) (fs_files s') /\
  (forall x, r = Ok x -> Forall (moved base stamp (fs_files s) (fs_files s')) segments).
Proof.
  intros Hfresh HF. unfold execute_filesystem_compaction. cbn [String.eqb Ascii.eqb Bool.eqb].
  pose proof (keeps_storage "compact base dir create failed" _ (keeps_create base) s) as K.
  unfold mbind at 1, M_bind. destruct (storage _ (create_dir_all base) s) as [s1 [[]|e]]; cbn [fst] in K.
  2: { intros [= <- <-]. rewrite K. split; [by left|done]. }
  pose proof (keeps_storage "compact archive dir create failed" _ (keeps_create (base ++ ["archive"; stamp])) s1) as K1.
  unfold mbind at 1 2, M_bind.
  destruct (storage _ (create_dir_all (base ++ ["archive"; stamp])) s1) as [s2 [[]|e]]; cbn [fst mret M_ret] in *.
  2: { intros [= <- <-]. rewrite K1, K. split; [by left|done]. }
  rewrite <- K, <- K1 in *. intros H. eapply (archive_loop base stamp _ Hfresh segments _ s2 s' r []); try done.
  by apply arch_start.
Qed.
End Facts.

(** ** Witnesses *)

Module CompactionSample.
#[local] Instance zero_sha : Sha256 := {| sha256 _ := replicate 32 x00 |}.

Definition zeros : string := sha256_hex [].
Definition a_path : path := ["ledger"; "a.ndjson"].
Definition b_path : path := ["ledger"; "b.ndjson"].
Definition fs0 : Fs := mkFs {[a_path := [x31; x0a]; b_path := [x32; x0a; x33]]} {[["ledger"]; []]} (fun _ => Works) 0.
Definition seg_a : SegmentSource := mkSegment "a.ndjson" zeros 1.
Definition seg_b : SegmentSource := mkSegment "./b.ndjson" zeros 2.
Definition seg_bad : SegmentSource := mkSegment "b.ndjson" zeros 7.

(** A compaction that stops at its second segment has deleted the first. *)
Lemma compaction_not_atomic :
  snd (execute_filesystem_compaction ["ledger"] "t" "delete" [seg_a; seg_bad] fs0)
    = Err (InvalidChip (Text "compact segment lines mismatch for 'b.ndjson'")) /\
  fs_files (fst (execute_filesystem_compaction ["ledger"] "t" "delete" [seg_a; seg_bad] fs0)) !! a_path = None.
Proof. split; vm_compute; reflexivity. Qed.

Lemma deletion_exact_witness :
  exists pairs : list (path * bytes),
    Forall2 (fun segment p => verified (fs_files fs0) ["ledger"] segment p.1 p.2) (take (length pairs) [seg_a; seg_bad]) pairs /\
    NoDup pairs.*1 /\
    fs_files (fst (execute_filesystem_compaction ["ledger"] "t" "delete" [seg_a; seg_bad] fs0))
      = delete_all ["ledger"] (fs_files fs0) pairs /\
    (forall x, snd (execute_filesystem_compaction ["ledger"] "t" "delete" [seg_a; seg_bad] fs0) = Ok x ->
       length pairs = 2%nat /\ x = mkCompactFs (freed_total 0 pairs.*2) 0 2).
Proof.
  apply (deletion_exact ["ledger"] "t" "delete" [seg_a; seg_bad] fs0); [discriminate|].
  destruct (execute_filesystem_compaction _ _ _ _ _). reflexivity.
Defined.

Lemma archiving_succeeds :
  snd (execute_filesystem_compaction ["ledger"] "t" "archive_then_delete" [seg_a; seg_b] fs0) = Ok (mkCompactFs 5 2 0).
Proof. vm_compute. reflexivity. Qed.

Lemma archiving_keeps_witness :
  Forall (moved ["ledger"] "t" (fs_files fs0)
    (fs_files (fst (execute_filesystem_compaction ["ledger"] "t" "archive_then_delete" [seg_a; seg_b] fs0)))) [seg_a; seg_b].
Proof.
  refine (proj2 (archiving_keeps ["ledger"] "t" [seg_a; seg_b] fs0 _ _ _ _ _) _ archiving_succeeds).
  - intros q. cbn [fs_files fs0]. rewrite lookup_insert_ne, lookup_singleton_ne; [done|discriminate..].
  - repeat apply Forall_cons_2; try apply Forall_nil_2; intros rel; vm_compute; intros [= <-]; discriminate.
  - destruct (execute_filesystem_compaction _ _ _ _ _). reflexivity.
Defined.
End CompactionSample.
