(* ===== verification/Wasm.v ===== *)
(** * WASM adapters ([wasm_adapter.rs])

    The executor around the wasmtime engine, adapter registrations and the
    registry.  The engine is an interface: compilation, instantiation under a
    memory limit and a fuel budget, and the calls on an instance. *)

From S2P Require Import Prelude RustStd RustStr Json Nrf NrfFacts Receipt Compaction.
Local Open Scope string_scope.
Local Open Scope Z_scope.
Local Open Scope list_scope.

Definition WASM_MEMORY_LIMIT_BYTES : Z := 64 * 1024 * 1024.
Definition WASM_DEFAULT_FUEL : Z := 100000.
Definition WASM_ENTRYPOINT_V1 : string := "ubl_adapter_v1".

Record WasmInput : Type := mkWasmInput {
  wi_nrf1_bytes : bytes; wi_chip_cid : string; frozen_timestamp : string; wi_fuel_limit : Z }.
Record WasmOutput : Type := mkWasmOutput {
  wo_nrf1_bytes : bytes; wo_output_cid : string; wo_effects : list string; wo_fuel_consumed : Z }.
Record SandboxConfig : Type := mkSandbox {
  memory_limit : Z; sandbox_fuel : Z; allow_fs : bool; allow_network : bool; allow_clock : bool }.
Definition sandbox_default : SandboxConfig := mkSandbox WASM_MEMORY_LIMIT_BYTES WASM_DEFAULT_FUEL false false false.

(** [WasmNrf] is [InvalidOutput] with the text of an NRF error. *)
Inductive WasmError : Type :=
| WasmCompile (e : string)
| WasmFuelExhausted (limit consumed : Z)
| WasmMemoryExceeded (limit : Z)
| WasmInvalidOutput (e : string)
| WasmNrf (e : NrfError)
| ModuleNotFound (cid : string)
| AbiMismatch (expected got : string)
| WasmRuntime (e : string).

(** ** The engine *)

(** wasmtime.  Memory and fuel are those of the instance's store; the exported
    memory is accessed at offset 0. *)
Class Wasmtime : Type := {
  wt_module : Type;
  wt_instance : Type;
  engine_new : result string unit;
  module_new : bytes -> result string wt_module;
  module_imports : wt_module -> list string;
  set_fuel : Z -> result string unit;
  instantiate : wt_module -> Z -> Z -> result string wt_instance;
  has_memory : wt_instance -> bool;
  typed_func : wt_instance -> string -> result string unit;
  data_size : wt_instance -> Z;
  memory_grow : wt_instance -> Z -> option wt_instance;
  memory_write : wt_instance -> bytes -> result string wt_instance;
  call_func : wt_instance -> Z -> wt_instance * result string Z;
  memory_read : wt_instance -> Z -> result string bytes;
  fuel_left : wt_instance -> option Z }.

Definition is_wasi (m : string) : bool := String.eqb m "wasi_snapshot_preview1" || starts_with "wasi:" m.

Definition div_ceil (a b : Z) : Z := (a + b - 1) / b.
Definition i32_max : Z := 2 ^ 31 - 1.

Section Execute.
Context {HB3 : Blake3} {U : Unicode} {W : Wasmtime}.

(** The memory grown to hold the input, within the limit. *)
Definition grow_for (inst : wt_instance) (required limit : Z) : result WasmError wt_instance :=
  inst ← (if data_size inst <? required
          then ok_or (memory_grow inst (div_ceil (required - data_size inst) 65536)) (WasmMemoryExceeded limit)
          else Ok inst);
  if limit <? data_size inst then Err (WasmMemoryExceeded limit) else Ok inst.

(** The call and the length it returns. *)
Definition call_entry (inst : wt_instance) (len fuel : Z) : result WasmError (wt_instance * Z) :=
  let '(inst, r) := call_func inst len in
  match r with
  | Ok v => Ok (inst, v)
  | Err e => match fuel_left inst with
             | Some 0 => Err (WasmFuelExhausted fuel fuel)
             | _ => Err (WasmRuntime e)
             end
  end.

(** The output read back and checked. *)
Definition read_output (inst : wt_instance) (output_len fuel : Z) : result WasmError WasmOutput :=
  if output_len <? 0 then Err (WasmInvalidOutput "module returned negative output length")
  else if data_size inst <? output_len then
    Err (WasmInvalidOutput ("module returned output length " +:+ u_to_string output_len +:+ " beyond memory size "
                            +:+ u_to_string (data_size inst)))
  else
    out ← map_err (fun e => WasmRuntime ("memory read: " +:+ e)) (memory_read inst output_len);
    _ ← map_err WasmNrf (decode_from_slice out);
    Ok (mkWasmOutput out (compute_cid out) [] (Z.max 0 (fuel - default 0 (fuel_left inst)))).

Definition execute (module_bytes : bytes) (input : WasmInput) (sandbox : SandboxConfig) : result WasmError WasmOutput :=
  if allow_fs sandbox || allow_network sandbox || allow_clock sandbox then
    Err (WasmRuntime "unsafe sandbox flags are not supported for WASM adapters")
  else
    _ ← map_err WasmCompile engine_new;
    m ← map_err WasmCompile (module_new module_bytes);
    if existsb is_wasi (module_imports m) then Err (WasmRuntime "WASI imports are not allowed in adapter modules")
    else
      _ ← map_err (fun e => WasmRuntime ("set_fuel: " +:+ e)) (set_fuel (sandbox_fuel sandbox));
      inst ← map_err WasmRuntime (instantiate m (memory_limit sandbox) (sandbox_fuel sandbox));
      if negb (has_memory inst) then Err (WasmInvalidOutput "module must export linear memory as `memory`")
      else
        _ ← map_err (AbiMismatch ("export fn " +:+ WASM_ENTRYPOINT_V1 +:+ "(i32, i32) -> i32"))
              (typed_func inst WASM_ENTRYPOINT_V1);
        let len := Z.of_nat (length (wi_nrf1_bytes input)) in
        if memory_limit sandbox <? len then Err (WasmMemoryExceeded (memory_limit sandbox))
        else if i32_max <? len then Err (WasmInvalidOutput "input too large for ABI i32 length")
        else
          inst ← grow_for inst len (memory_limit sandbox);
          inst ← map_err (fun e => WasmRuntime ("memory write: " +:+ e)) (memory_write inst (wi_nrf1_bytes input));
          called ← call_entry inst len (sandbox_fuel sandbox);
          read_output called.1 called.2 (sandbox_fuel sandbox).
End Execute.

(** ** Registrations *)

Record AdapterRegistration : Type := mkRegistration {
  ar_wasm_cid : string; ar_wasm_sha256 : string; ar_abi_version : string; ar_fuel_budget : Z;
  ar_capabilities : list string; ar_description : string }.

Definition registration_from_chip_body (body : json) : result WasmError AdapterRegistration :=
  cid ← ok_or (get "wasm_cid" body ≫= as_str) (WasmRuntime "Missing wasm_cid");
  sha ← ok_or (get "wasm_sha256" body ≫= as_str) (WasmRuntime "Missing wasm_sha256");
  let abi := default "1.0" (get "abi_version" body ≫= as_str) in
  if negb (String.eqb abi "1.0") then Err (AbiMismatch "1.0" abi)
  else
    Ok (mkRegistration cid sha abi (default WASM_DEFAULT_FUEL (get "fuel_budget" body ≫= as_u64))
          (omap as_str (default [] (get "capabilities" body ≫= as_array)))
          (default "" (get "description" body ≫= as_str))).

Definition registration_to_chip_body (r : AdapterRegistration) (id world : string) : json :=
  JObject [("@type", JString "ubl/adapter"); ("@id", JString id); ("@ver", JString "1.0"); ("@world", JString world);
           ("wasm_cid", JString (ar_wasm_cid r)); ("wasm_sha256", JString (ar_wasm_sha256 r));
           ("abi_version", JString (ar_abi_version r)); ("fuel_budget", JNumber (PosInt (ar_fuel_budget r)));
           ("capabilities", JArray (JString <$> ar_capabilities r)); ("description", JString (ar_description r))].

Definition verify_module `{Sha256} (r : AdapterRegistration) (wasm_bytes : bytes) : result WasmError unit :=
  let actual := sha256_hex wasm_bytes in
  if String.eqb actual (ar_wasm_sha256 r) then Ok tt
  else Err (WasmCompile ("Module hash mismatch: expected " +:+ ar_wasm_sha256 r +:+ ", got " +:+ actual)).

Record WasmRuntimeInfo : Type := mkWasmRuntime {
  wr_runtime_version : string; module_sha256 : string; module_cid : string; wr_fuel_consumed : Z; memory_peak : Z;
  deterministic : bool }.

(** ** The registry *)

Definition AdapterRegistry : Type := gmap string AdapterRegistration.
Definition registry_new : gmap string AdapterRegistration := ∅.
Definition register (reg : gmap string AdapterRegistration) (r : AdapterRegistration) : gmap string AdapterRegistration :=
  fold_left (fun m cap => <[cap := r]> m) (ar_capabilities r) reg.
Definition find_by_capability (reg : gmap string AdapterRegistration) (capability : string) : option AdapterRegistration := reg !! capability.
Definition registry_capabilities (reg : gmap string AdapterRegistration) : gset string := dom reg.
Definition registry_len (reg : gmap string AdapterRegistration) : nat := size reg.
Definition registry_is_empty (reg : gmap string AdapterRegistration) : bool := (registry_len reg =? 0)%nat.

(** ** Facts *)

Section Properties.
Context {HB3 : Blake3} {U : Unicode} {W : Wasmtime}.

(** What an accepted execution guarantees, whatever the engine does: the flags
    were off, the module imports nothing of WASI, the input fitted in the memory
    limit, the output is a well-formed NRF value under its own CID, and the fuel
    that is reported is within the budget. *)
Theorem execution_contained module_bytes input sandbox out :
  (forall i n, fuel_left i = Some n -> 0 <= n) -> 0 <= sandbox_fuel sandbox ->
  execute module_bytes input sandbox = Ok out ->
  allow_fs sandbox = false /\ allow_network sandbox = false /\ allow_clock sandbox = false /\
  (exists m, module_new module_bytes = Ok m /\ Forall (fun i => is_wasi i = false) (module_imports m)) /\
  Z.of_nat (length (wi_nrf1_bytes input)) <= Z.min (memory_limit sandbox) i32_max /\
  (exists v, decode_from_slice (wo_nrf1_bytes out) = Ok v) /\ wo_output_cid out = compute_cid (wo_nrf1_bytes out) /\
  wo_effects out = [] /\ 0 <= wo_fuel_consumed out <= sandbox_fuel sandbox.
Proof.
  intros Hfuel Hf. unfold execute.
  destruct (allow_fs sandbox), (allow_network sandbox), (allow_clock sandbox); cbn [orb]; try done.
  intros (_ & _ & (m & Hm & H)%result_bind_ok)%result_bind_ok.
  destruct (module_new module_bytes) as [m'|] eqn:Em; [injection Hm as ->|done].
  destruct (existsb is_wasi (module_imports m)) eqn:Ew; [done|].
  apply result_bind_ok in H as (_ & _ & (i0 & _ & H)%result_bind_ok). destruct (negb (has_memory i0)); [done|].
  apply result_bind_ok in H as (_ & _ & H).
  destruct (memory_limit sandbox <? _) eqn:El; [done|]. destruct (i32_max <? _) eqn:Ei; [done|]. bool_to_prop.
  apply result_bind_ok in H as (i1 & _ & (i2 & _ & ([i3 n] & _ & H)%result_bind_ok)%result_bind_ok).
  cbn [fst snd] in H. unfold read_output in H. destruct (n <? 0); [done|]. destruct (data_size i3 <? n); [done|].
  apply result_bind_ok in H as (o & _ & (v & Hv & [= <-])%result_bind_ok). cbn.
  split_and!; try done; try lia.
  - exists m. split; [done|]. apply Forall_forall. intros i Hi. apply not_true_is_false. intros Ht.
    apply not_true_iff_false in Ew. apply Ew, existsb_exists. exists i. split; [by apply list_elem_of_In|done].
  - exists v. destruct (decode_from_slice o); [by injection Hv as ->|done].
  - destruct (fuel_left i3) as [f|] eqn:E; cbn; [pose proof (Hfuel _ _ E)|]; lia.
Qed.
End Properties.

(** Registrations survive being written to a chip body and read back. *)
Theorem registration_roundtrip r id world :
  ar_abi_version r = "1.0" -> in_u64 (ar_fuel_budget r) = true ->
  registration_from_chip_body (registration_to_chip_body r id world) = Ok r.
Proof.
  destruct r as [c h a f caps d]. cbn. unfold in_u64. intros -> H. bool_to_prop.
  unfold registration_from_chip_body. cbn. do 2 f_equal. induction caps as [|x caps IH]; cbn; [done|]. by f_equal.
Qed.

(** A capability leads to the adapter that was registered for it last. *)
Theorem registry_last l cap :
  find_by_capability (fold_left register l registry_new) cap =
  last (List.filter (fun r => existsb (String.eqb cap) (ar_capabilities r)) l).
Proof.
  unfold find_by_capability. induction l as [|r l IH] using rev_ind; [done|].
  rewrite fold_left_app, List.filter_app. cbn.
  assert (forall caps (m : gmap string AdapterRegistration), (fold_left (fun (m : gmap string AdapterRegistration) c => <[c := r]> m) caps m : gmap string AdapterRegistration) !! cap =
            if existsb (String.eqb cap) caps then Some r else m !! cap) as Hr.
  { induction caps as [|c caps IHc]; intros m; cbn; [done|]. rewrite IHc.
    destruct (String.eqb_spec cap c) as [->|Hn]; cbn; [rewrite lookup_insert_eq; by case_match|].
    by rewrite lookup_insert_ne by done. }
  unfold register. rewrite Hr. destruct (existsb _ _); [by rewrite last_snoc|]. by rewrite app_nil_r.
Qed.
