(* ===== verification/Adapter.v ===== *)
(** * Adapters of the TR stage ([pipeline/stages/transition.rs])

    A chip with an [adapter] member runs a WASM module: the policy contract and
    attestation, where the module's bytes come from, the hash check, the
    budgets, the execution and the claims about it. *)

From S2P Require Import Prelude RustStd RustStr Json Nrf NrfFacts Vm Canon Types Receipt ChipStore EventBus Ledger Advisory.
From S2P Require Import PipelineTypes Check Compaction Wasm.
Local Open Scope string_scope.
Local Open Scope Z_scope.
Local Open Scope list_scope.

(** [base64] with the standard alphabet and padding. *)
Class Base64Std : Type := { base64_std_decode : string -> option bytes }.

(** ** Signing keys as text ([ubl_kms]) *)

Inductive KeyError : Type := EnvNotSet | BadHexText | BadHexLength (n : nat).

Definition signing_key_from_hex `{HexDecode} (hex_str : string) : result KeyError bytes :=
  bs ← ok_or (hex_decode (str_trim hex_str)) BadHexText;
  if (length bs =? 32)%nat then Ok bs else Err (BadHexLength (length bs)).

Definition signing_key_from_env `{HexDecode} (env : Environment) : result KeyError bytes :=
  match env "SIGNING_KEY_HEX" with
  | Ok hex_str => signing_key_from_hex hex_str
  | Err _ => Err EnvNotSet
  end.

Definition WASM_ATTEST_TRUST_ANCHOR_SEED_HEX : string :=
  "00112233445566778899aabbccddeeff00112233445566778899aabbccddeeff".

Record AdapterExecutionOutcome : Type := mkAdapterOutcome {
  ao_output_cid : string; ao_fuel_used : Z; ao_effects : list string; ao_module_source : string }.

Section Adapter.
Context {U : Unicode} {HB3 : Blake3} {ED : Ed25519} {EK : Ed25519Keys} {B64 : Base64} {B64D : Base64Decode} {B58 : Base58}
  {HX : HexDecode} {B64S : Base64Std} {SH : Sha256} {W : Wasmtime} {R : Readings}.
Context {B L D : Type} {BE : ChipStoreBackend B}.
Context (p : UblPipeline).

Definition wasm_trust_anchor_did : result PipelineError string :=
  let derived :=
    sk ← map_err (fun _ => Internal (Text "WASM trust anchor seed")) (signing_key_from_hex WASM_ATTEST_TRUST_ANCHOR_SEED_HEX);
    Ok (did_from_verifying_key (pl_strict_did p) (sk_verifying_key sk)) in
  match pl_env p "UBL_WASM_TRUST_ANCHOR_DID" with
  | Ok explicit_did => let trimmed := str_trim explicit_did in if is_empty trimmed then derived else Ok trimmed
  | Err _ => derived
  end.

Definition denied_capability (capability : string) : option PipelineError :=
  if String.eqb capability "network" then
    Some (PolicyDenied (Text "WASM_CAPABILITY_DENIED_NETWORK: network capability is disabled in deterministic_v1"))
  else if existsb (String.eqb capability) ["clock"; "fs_read"; "fs_write"] then
    Some (PolicyDenied (Text ("WASM_CAPABILITY_DENIED: capability '" +:+ capability +:+ "' is disabled in deterministic_v1")))
  else None.

Definition check_capability (_ : unit) (capability : string) : result PipelineError unit :=
  match denied_capability capability with Some e => Err e | None => Ok tt end.

Definition attest_payload (info : AdapterRuntimeInfo) : json :=
  JObject [("wasm_sha256", JString (wasm_sha256 info)); ("abi_version", JString (abi_version info))].

Definition invalid (s : string) : PipelineError := InvalidChip (Text s).
Definition invalid_kms (s : string) (e : KmsError) : PipelineError := InvalidChip (Within s (OfKms e)).

(** The signature is checked under the trust anchor that the adapter names,
    which has been compared with the expected one. *)
Definition check_attestation (info : AdapterRuntimeInfo) : result PipelineError unit :=
  match attestation_signature_b64 info with
  | None => Ok tt
  | Some sig_raw =>
      anchor ← ok_or (attestation_trust_anchor info)
                 (invalid "WASM_VERIFY_SIGNATURE_INVALID: attestation_trust_anchor missing");
      vk ← map_err (invalid_kms "WASM_VERIFY_SIGNATURE_INVALID: invalid attestation trust anchor: ")
             (verifying_key_from_did anchor);
      let sig := if starts_with "ed25519:" sig_raw then sig_raw else "ed25519:" +:+ sig_raw in
      verified ← map_err (invalid_kms "WASM_VERIFY_SIGNATURE_INVALID: ")
             (verify_canonical vk (attest_payload info) kms_domain.CAPSULE sig);
      if (verified : bool) then Ok tt
      else Err (invalid "WASM_VERIFY_SIGNATURE_INVALID: attestation signature verification failed")
  end.

Definition validate_adapter_policy_contract (info : AdapterRuntimeInfo) : result PipelineError unit :=
  _ ← try_fold check_capability tt (capabilities info);
  let has_sig := bool_decide (is_Some (attestation_signature_b64 info)) in
  let has_anchor := bool_decide (is_Some (attestation_trust_anchor info)) in
  if negb (Bool.eqb has_sig has_anchor) then
    Err (invalid "WASM_VERIFY_SIGNATURE_INVALID: attestation must include both signature and trust_anchor")
  else
    expected_anchor ← wasm_trust_anchor_did;
    _ ← match attestation_trust_anchor info with
        | Some anchor =>
            if String.eqb anchor expected_anchor then Ok tt
            else Err (invalid ("WASM_VERIFY_TRUST_ANCHOR_MISMATCH: expected " +:+ expected_anchor +:+ ", got " +:+ anchor))
        | None => Ok tt
        end;
    check_attestation info.

Definition claim_present (info : AdapterRuntimeInfo) (outcome : AdapterExecutionOutcome) (claim : string) : bool :=
  if String.eqb claim "wasm.module.sha256" then negb (is_empty (wasm_sha256 info))
  else if String.eqb claim "wasm.abi.version" then negb (is_empty (abi_version info))
  else if String.eqb claim "wasm.profile" then true
  else if String.eqb claim "wasm.fuel.used" then 0 <? ao_fuel_used outcome
  else if String.eqb claim "wasm.memory.max_bytes" then 0 <? WASM_MEMORY_LIMIT_BYTES
  else String.eqb claim "wasm.verify.status".

Definition validate_receipt_claim_bindings (info : AdapterRuntimeInfo) (outcome : AdapterExecutionOutcome)
    : result PipelineError unit :=
  try_fold (fun (_ : unit) claim =>
      if claim_present info outcome claim then Ok tt
      else Err (invalid ("WASM_RECEIPT_BINDING_MISSING_CLAIM: missing required receipt claim '" +:+ claim +:+ "'")))
    tt (required_receipt_claims info).

(** *** Module bytes *)

Definition decode_base64_bytes (raw : string) : result PipelineError bytes :=
  let decoded := match base64_decode raw with Some bs => Some bs | None => base64_std_decode raw end in
  bs ← ok_or decoded (invalid "WASM_ABI_INVALID_PAYLOAD: invalid adapter module base64");
  match bs with
  | [] => Err (invalid "WASM_ABI_INVALID_PAYLOAD: adapter module bytes cannot be empty")
  | _ => Ok bs
  end.

(** The first of the keys that holds a text. *)
Definition find_text (keys : list string) (obj : list (string * json)) : option string :=
  head (omap (fun k => map_get k obj ≫= as_str) keys).

Definition module_of_source (source : list (string * json)) : option (result PipelineError bytes) :=
  match find_text ["wasm_b64"; "module_b64"; "wasm_base64"; "module_base64"; "bytes_b64"] source with
  | Some raw => Some (decode_base64_bytes raw)
  | None =>
      match find_text ["wasm_hex"; "module_hex"] source with
      | Some raw_hex =>
          Some (bs ← ok_or (hex_decode raw_hex) (invalid "WASM_ABI_INVALID_PAYLOAD: invalid adapter module hex bytes");
                match bs with
                | [] => Err (invalid "WASM_ABI_INVALID_PAYLOAD: adapter module bytes cannot be empty")
                | _ => Ok bs
                end)
      | None => None
      end
  end.

Definition extract_module_bytes (chip_data : json) : result PipelineError bytes :=
  let sources := match as_object chip_data with
                 | Some obj => obj :: match map_get "body" obj ≫= as_object with Some b => [b] | None => [] end
                 | None => []
                 end in
  match head (omap module_of_source sources) with
  | Some r => r
  | None => Err (invalid "WASM_ABI_INVALID_PAYLOAD: wasm module chip missing bytes field (expected wasm_b64/module_b64/wasm_hex)")
  end.

Definition resolve_adapter_module_bytes (store : option (ChipStore.ChipStore B)) (info : AdapterRuntimeInfo)
    : result PipelineError (bytes * string) :=
  match wasm_b64 info with
  | Some inline_b64 => bs ← decode_base64_bytes inline_b64; Ok (bs, "inline:adapter.wasm_b64")
  | None =>
      cid ← ok_or (wasm_cid info)
              (invalid "WASM_ABI_INVALID_PAYLOAD: adapter requires one of adapter.wasm_b64 or adapter.wasm_cid");
      store ← ok_or store (StorageError (Text "adapter.wasm_cid requires ChipStore"));
      stored ← map_err (fun e => StorageError (Within "WASM module lookup: " (OfStore e))) (get_chip cid (backend store));
      stored ← ok_or stored (invalid ("WASM_ABI_INVALID_PAYLOAD: adapter.wasm_cid not found: " +:+ cid));
      bs ← extract_module_bytes (chip_data stored);
      Ok (bs, "chipstore:" +:+ cid)
  end.

Definition map_wasm_error (e : WasmError) : PipelineError :=
  match e with
  | WasmFuelExhausted limit consumed =>
      FuelExhausted (Text ("WASM_RESOURCE_FUEL_EXHAUSTED: WASM fuel exhausted (limit: " +:+ u_to_string limit +:+
                           ", consumed: " +:+ u_to_string consumed +:+ ")"))
  | WasmMemoryExceeded limit =>
      FuelExhausted (Text ("WASM_RESOURCE_MEMORY_LIMIT: WASM memory exceeded (limit: " +:+ u_to_string limit +:+ ")"))
  | WasmCompile msg => invalid ("WASM_ABI_INVALID_PAYLOAD: WASM compile error: " +:+ msg)
  | ModuleNotFound cid => invalid ("WASM_ABI_INVALID_PAYLOAD: WASM module not found: " +:+ cid)
  | AbiMismatch expected got =>
      invalid ("WASM_DETERMINISM_VIOLATION: WASM ABI mismatch (expected " +:+ expected +:+ ", got " +:+ got +:+ ")")
  | WasmInvalidOutput msg => invalid ("WASM_DETERMINISM_VIOLATION: WASM invalid output: " +:+ msg)
  | WasmNrf e => InvalidChip (Within "WASM_DETERMINISM_VIOLATION: WASM invalid output: not valid NRF-1: " (OfNrf e))
  | WasmRuntime msg =>
      if str_contains "WASI imports are not allowed" msg then invalid ("WASM_CAPABILITY_DENIED_NETWORK: " +:+ msg)
      else if str_contains "import" (to_ascii_lowercase msg) then invalid ("WASM_CAPABILITY_DENIED: " +:+ msg)
      else if str_contains "timeout" (to_ascii_lowercase msg) then FuelExhausted (Text ("WASM_RESOURCE_TIMEOUT: " +:+ msg))
      else invalid ("WASM_DETERMINISM_VIOLATION: " +:+ msg)
  end.

(** The module of an adapter, checked against its declared hash. *)
Definition pinned_module (store : option (ChipStore.ChipStore B)) (info : AdapterRuntimeInfo)
    : result PipelineError (bytes * string) :=
  found ← resolve_adapter_module_bytes store info;
  let actual := sha256_hex found.1 in
  if eq_ignore_ascii_case actual (wasm_sha256 info) then Ok found
  else Err (invalid ("WASM_VERIFY_HASH_MISMATCH: adapter.wasm_sha256 mismatch: expected " +:+ wasm_sha256 info +:+
                     ", got " +:+ actual)).

Definition adapter_fuel (info : AdapterRuntimeInfo) : Z :=
  Z.min (default (pl_fuel_limit p) (fuel_budget info)) (pl_fuel_limit p).

Definition check_timeout (info : AdapterRuntimeInfo) : result PipelineError unit :=
  match timeout_ms info with
  | Some t =>
      if t <? 10 then
        Err (FuelExhausted (Text ("WASM_RESOURCE_TIMEOUT: timeout budget too small (" +:+ u_to_string t +:+ "ms)")))
      else Ok tt
  | None => Ok tt
  end.

Definition execute_wasm_adapter (info : AdapterRuntimeInfo) (chip_nrf : bytes) (input_cid : string)
    : M (PState B L D) PipelineError AdapterExecutionOutcome :=
  _ ← lift (validate_adapter_policy_contract info);
  store ← asks chip_store;
  found ← lift (pinned_module store info);
  let fuel_limit := adapter_fuel info in
  _ ← lift (check_timeout info);
  now ← read now_text;
  let input := mkWasmInput chip_nrf input_cid now fuel_limit in
  let sandbox := mkSandbox WASM_MEMORY_LIMIT_BYTES fuel_limit false false false in
  out ← lift (map_err map_wasm_error (execute found.1 input sandbox));
  let outcome := mkAdapterOutcome (wo_output_cid out) (wo_fuel_consumed out) (wo_effects out) found.2 in
  _ ← lift (validate_receipt_claim_bindings info outcome);
  mret outcome.
End Adapter.
