(* ===== verification/AdapterFacts.v ===== *)
(** * Facts on adapters

    An adapter that runs is the module its hash names, has no denied
    capability, and stays within its budgets; the attestation can be forged
    with the default trust anchor. *)

From S2P Require Import Prelude RustStd RustStr Json Nrf NrfFacts Vm Canon Types Receipt ChipStore EventBus Ledger Advisory.
From S2P Require Import PipelineTypes Check CheckFacts Compaction Wasm Adapter.
Local Open Scope string_scope.
Local Open Scope Z_scope.
Local Open Scope list_scope.

Lemma try_fold_unit {E A} (f : unit -> A -> result E unit) l :
  try_fold f tt l = Ok tt <-> Forall (fun a => f tt a = Ok tt) l.
Proof.
  induction l as [|a l IH]; cbn; [split; [by constructor|done]|]. rewrite Forall_cons, <- IH.
  destruct (f tt a) as [[]|e]; naive_solver congruence.
Qed.

Section Facts.
Context {U : Unicode} {HB3 : Blake3} {ED : Ed25519} {EK : Ed25519Keys} {B64 : Base64} {B64D : Base64Decode} {B58 : Base58}
  {HX : HexDecode} {B64S : Base64Std} {SH : Sha256} {W : Wasmtime} {R : Readings}.
Context {B L D : Type} {BE : ChipStoreBackend B}.
Context (p : UblPipeline).

Definition denied_capabilities : list string := ["network"; "clock"; "fs_read"; "fs_write"].

Lemma capabilities_exact caps :
  try_fold check_capability tt caps = Ok tt <-> Forall (fun c => c ∉ denied_capabilities) caps.
Proof.
  rewrite try_fold_unit. apply Forall_iff. intros c. unfold check_capability, denied_capability.
  assert (forall x, String.eqb c x = true <-> c = x) as Hs by apply String.eqb_eq.
  unfold denied_capabilities. rewrite !not_elem_of_cons. cbn [existsb].
  destruct (String.eqb_spec c "network"); [naive_solver|].
  destruct (String.eqb_spec c "clock"); [naive_solver|]. destruct (String.eqb_spec c "fs_read"); [naive_solver|].
  destruct (String.eqb_spec c "fs_write"); cbn; [naive_solver|]. split; [intros _|done]. split_and!; try done. apply not_elem_of_nil.
Qed.

(** C31: An adapter that has run.  No denied capability was declared; the executed
    bytes have the declared hash; the module imports nothing of WASI; the output
    is well-formed NRF under its CID; the fuel is within the chip's budget and
    the pipeline's limit; every required claim is bound; and nothing but the
    clock was touched. *)
Theorem adapter_contained info chip_nrf input_cid (s s' : PState B L D) o :
  (forall i n, fuel_left i = Some n -> 0 <= n) -> 0 <= pl_fuel_limit p -> 0 <= default 0 (fuel_budget info) ->
  execute_wasm_adapter p info chip_nrf input_cid s = (s', Ok o) ->
  forget s' = forget s /\
  Forall (fun c => c ∉ denied_capabilities) (capabilities info) /\
  (exists code m out, resolve_adapter_module_bytes (chip_store s) info = Ok (code, ao_module_source o) /\
     eq_ignore_ascii_case (sha256_hex code) (wasm_sha256 info) = true /\
     module_new code = Ok m /\ Forall (fun i => is_wasi i = false) (module_imports m) /\
     (exists v, decode_from_slice out = Ok v) /\ ao_output_cid o = compute_cid out) /\
  0 <= ao_fuel_used o <= adapter_fuel p info /\ ao_effects o = [] /\
  Forall (fun c => claim_present info o c = true) (required_receipt_claims info).
Proof.
  intros Hfuel Hl Hb H. split.
  { eapply preserves_run; [|exact H]. unfold execute_wasm_adapter. preserves_tac. }
  unfold execute_wasm_adapter in H. apply M_bind_ok in H as (s1 & [] & Hc & H). injection Hc as <- Hc.
  apply M_bind_ok in H as (s2 & store & [= <- <-] & H). apply M_bind_ok in H as (s3 & [code src] & Hp & H).
  injection Hp as <- Hp. apply M_bind_ok in H as (s4 & [] & Ht & H). injection Ht as <- _.
  apply M_bind_ok in H as (s5 & now & [= <- <-] & H). apply M_bind_ok in H as (s6 & out & He & H). injection He as <- He.
  apply M_bind_ok in H as (s7 & [] & Hr & [= _ <-]). injection Hr as _ Hr. cbn [fst snd] in *.
  unfold validate_adapter_policy_contract in Hc. apply result_bind_ok in Hc as ([] & Hcap & _).
  apply capabilities_exact in Hcap. split; [done|].
  unfold pinned_module in Hp. apply result_bind_ok in Hp as (found & Hf & Hp). revert Hp.
  destruct (eq_ignore_ascii_case _ _) eqn:Eh; [intros [= ->]|done]. cbn [fst] in Eh.
  destruct (execute code _ _) as [out'|e] eqn:Ex; [injection He as ->|done].
  apply execution_contained in Ex; [|done|unfold adapter_fuel; cbn; destruct (fuel_budget info); cbn in *; lia].
  destruct Ex as (_ & _ & _ & (m & Hm & Hw) & _ & Hv & Hcid & Heff & Hfu).
  split; [by exists code, m, (wo_nrf1_bytes out)|]. cbn. split; [done|]. split; [done|].
  unfold validate_receipt_claim_bindings in Hr. apply try_fold_unit in Hr.
  eapply Forall_impl; [exact Hr|]. cbn. intros c. by case_match.
Qed.

(** The default trust anchor's secret key is a constant of the source, so
    anyone can attest any module. *)
Theorem attestation_forgeable `{!Ed25519Laws ED EK, !Base58Laws B58, !Base64Laws B64 B64D} info seed nrf sig :
  pl_env p "UBL_WASM_TRUST_ANCHOR_DID" = Err NotPresent ->
  hex_decode WASM_ATTEST_TRUST_ANCHOR_SEED_HEX = Some seed -> length seed = 32%nat ->
  Forall (fun c => c ∉ denied_capabilities) (capabilities info) -> to_nrf1_bytes (attest_payload info) = Ok nrf ->
  attestation_trust_anchor info = Some (did_from_verifying_key (pl_strict_did p) (sk_verifying_key seed)) ->
  sign_canonical seed (attest_payload info) kms_domain.CAPSULE = Ok sig -> attestation_signature_b64 info = Some sig ->
  validate_adapter_policy_contract p info = Ok tt.
Proof.
  intros Henv Hhex Hlen Hcaps Hnrf Ha Hsig Es. unfold validate_adapter_policy_contract.
  rewrite (proj2 (capabilities_exact _) Hcaps), Ha, Es. cbn [mbind result_bind].
  rewrite !bool_decide_true by eauto. cbn [Bool.eqb negb].
  assert (wasm_trust_anchor_did p = Ok (did_from_verifying_key (pl_strict_did p) (sk_verifying_key seed))) as ->.
  { unfold wasm_trust_anchor_did. rewrite Henv. unfold signing_key_from_hex.
    replace (str_trim WASM_ATTEST_TRUST_ANCHOR_SEED_HEX) with WASM_ATTEST_TRUST_ANCHOR_SEED_HEX by by vm_compute.
    rewrite Hhex. cbn. by rewrite Hlen. }
  cbn [mbind result_bind]. rewrite String.eqb_refl. cbn [mbind result_bind]. unfold check_attestation. rewrite Es, Ha.
  cbn [ok_or mbind result_bind]. rewrite did_roundtrip. cbn [map_err mbind result_bind].
  unfold sign_canonical in Hsig. rewrite Hnrf in Hsig. cbn in Hsig.
  injection Hsig as <-. rewrite (starts_with_app "ed25519:"). unfold verify_canonical. rewrite Hnrf. cbn [map_err mbind result_bind].
  by rewrite kms_signature.
Qed.
End Facts.

(** ** Witnesses *)

Module AdapterSample.
Import ChipStoreFacts.ChipStoreSample.
#[local] Existing Instance ascii_unicode.
#[local] Existing Instance zero_blake3.
#[local] Existing Instance in_memory_backend.
#[local] Instance toy_ed : Ed25519 := {| ed25519_verify pk sig m := bool_decide (sig = pk ++ pk) |}.
#[local] Instance toy_keys : Ed25519Keys := {|
  sk_sign sk m := replicate 64 x07; sk_verifying_key sk := replicate 32 x07; vk_is_point _ := true |}.
#[local] Instance toy_ed_laws : Ed25519Laws toy_ed toy_keys.
Proof. by split. Qed.
#[local] Instance raw64 : Base64 := {| base64_url := string_of_list_byte |}.
#[local] Instance raw64d : Base64Decode := {| base64_decode s := Some (list_byte_of_string s) |}.
#[local] Instance raw64_laws : Base64Laws raw64 raw64d.
Proof. split. intros b. apply (f_equal Some), list_byte_of_string_of_list_byte. Qed.
#[local] Instance raw58 : Base58 := {| bs58_encode := string_of_list_byte; bs58_decode s := Some (list_byte_of_string s) |}.
#[local] Instance raw58_laws : Base58Laws raw58.
Proof. split. intros b. apply (f_equal Some), list_byte_of_string_of_list_byte. Qed.
#[local] Instance no_std64 : Base64Std := {| base64_std_decode _ := None |}.
#[local] Instance seed_hex : HexDecode := {| hex_decode _ := Some (replicate 32 x01) |}.
#[local] Instance zero_sha : Sha256 := {| sha256 _ := replicate 32 x00 |}.
#[local] Instance still : Readings := {|
  now_instant _ := 0; now_text _ := "2024-01-01T00:00:00Z"; now_secs _ := 0; now_stamp _ := "t"; elapsed_ms _ := 0; random_bytes _ := [];
  bit_nanos _ _ := 0; db_fails _ _ := false |}.

(** An engine whose modules return their input and leave seven units of fuel. *)
#[local] Instance echo_engine : Wasmtime := {|
  wt_module := unit; wt_instance := bytes;
  engine_new := Ok tt; module_new _ := Ok tt; module_imports _ := []; set_fuel _ := Ok tt; instantiate _ _ _ := Ok [];
  has_memory _ := true; typed_func _ _ := Ok tt; data_size _ := 65536; memory_grow _ _ := None;
  memory_write _ bs := Ok bs; call_func i n := (i, Ok n); memory_read i n := Ok (take (Z.to_nat n) i);
  fuel_left _ := Some 7 |}.

Definition p0 : UblPipeline :=
  mkPipeline 100 "did:key:z1" "did:key:z1#ed25519" [] (runtime_info_new (mkBuildMeta "" "" "" "" None None) "b3:0" "1")
    TrRegistry.registry_default
    (mkConfig CompatV1 false Knock.RejectF64 None TrRegistry.registry_default "s" None)
    (fun _ => Err NotPresent) (PolicyLoader.in_memory_storage PolicyLoader.policy_storage_new) false 3 3.
Definition s0 : PState InMemoryBackend NullLedger unit :=
  mkState None None Idempotency.idem_new None (mkSecrets "s" None) ∅ bus_new null_ledger tt [] 0.

Definition seed : bytes := replicate 32 x01.
Definition unsigned (sig anchor : option string) : AdapterRuntimeInfo :=
  mkAdapter (sha256_hex []) "1.0" None (Some "module") (Some 50) None ["email.send"] sig anchor ["wasm.fuel.used"].
Definition forged_sig : string := Eval vm_compute in
  match sign_canonical seed (attest_payload (unsigned None None)) kms_domain.CAPSULE with Ok s => s | Err _ => "" end.
Definition forged : AdapterRuntimeInfo :=
  unsigned (Some forged_sig) (Some (did_from_verifying_key false (sk_verifying_key seed))).
Definition payload_bytes : bytes := Eval vm_compute in
  match to_nrf1_bytes (attest_payload forged) with Ok b => b | Err _ => [] end.
Definition null_nrf : bytes := Eval vm_compute in encode_to_vec NrfNull.

Lemma attestation_forgeable_witness : validate_adapter_policy_contract p0 forged = Ok tt.
Proof.
  apply (attestation_forgeable p0 forged seed payload_bytes forged_sig); try (vm_compute; reflexivity).
  repeat constructor; apply (bool_decide_unpack _); vm_compute; exact I.
Defined.

Lemma adapter_contained_witness :
  exists o, snd (execute_wasm_adapter p0 forged null_nrf "b3:in" s0) = Ok o /\ 0 <= ao_fuel_used o <= 50.
Proof.
  destruct (execute_wasm_adapter p0 forged null_nrf "b3:in" s0) as [s' [o|e]] eqn:E; [|vm_compute in E; discriminate].
  exists o. split; [reflexivity|].
  destruct (adapter_contained p0 forged null_nrf "b3:in" s0 s' o) as (_ & _ & _ & Hf & _).
  - intros i n [= <-]. lia.
  - cbn. lia.
  - cbn. lia.
  - exact E.
  - exact Hf.
Defined.
End AdapterSample.
