(* ===== verification/Transition.v ===== *)
(** * The TR stage ([pipeline/stages/transition.rs])

    The bytecode of a chip's type is run on the VM over the chip's NRF bytes;
    audit requests, silicon compilation, key rotation and adapters have their
    own effects; the stage's receipt records all of it. *)

From S2P Require Import Prelude RustStd RustStr Json Nrf NrfFacts BigNum Unc1 Tlv Rho Vm Gate Canon Types Silicon Policy.
From S2P Require Import Receipt Knock ChipStore Capability KeyRotation AuditChip TrRegistry EventBus Ledger Advisory.
From S2P Require Import PipelineTypes Check Compaction Wasm Adapter.
From Stdlib Require Import SpecFloat.
Local Open Scope string_scope.
Local Open Scope Z_scope.
Local Open Scope list_scope.

(** ** Small functions *)

(** [str::trim_start_matches("b3:")]. *)
Fixpoint trim_b3 (fuel : nat) (s : string) : string :=
  match fuel with
  | O => s
  | S fuel => match strip_prefix "b3:" s with Some r => trim_b3 fuel r | None => s end
  end.
Definition trim_cid (s : string) : string := trim_b3 (String.length s) s.

Definition json_usize (n : nat) : json := JNumber (PosInt (Z.of_nat n)).
Definition json_u64 (n : Z) : json := JNumber (PosInt n).
Definition json_optional (o : option string) : json := match o with Some s => JString s | None => JNull end.

(** [BTreeMap<String, usize>]: the counts of a list of names. *)
Definition count_names (names : list string) : list (string * nat) :=
  fold_left (fun m k => btree_insert k (S (default 0%nat (btree_get k m))) m) names [].
Definition json_counts (m : list (string * nat)) : json := JObject ((fun kv => (kv.1, json_usize kv.2)) <$> m).

(** [value.clamp(lo, hi)]. *)
Definition clamp (lo hi x : Z) : Z := Z.max lo (Z.min hi x).

Definition body_limit (body : json) (dflt cap : Z) : nat :=
  Z.to_nat (clamp 1 cap (default dflt (get "limit" body ≫= as_u64))).

(** *** Percentiles, in [f64] arithmetic *)

Definition f64_of_len (n : nat) : spec_float := binary_normalize 53 1024 (Z.of_nat n) 0 false.
Definition f64_one : spec_float := S754_finite false 4503599627370496 (-52).
Definition f64_sub (a b : spec_float) : spec_float := SFsub 53 1024 a b.
Definition f64_mul (a b : spec_float) : spec_float := SFmul 53 1024 a b.
(** [x.round() as usize]: half away from zero, 0 for what is not positive. *)
Definition f64_round_usize (x : spec_float) : Z :=
  match x with
  | S754_finite false m e =>
      if 0 <=? e then Z.min u64_max (Z.pos m * 2 ^ e) else Z.min u64_max ((Z.pos m + 2 ^ (- e - 1)) / 2 ^ (- e))
  | S754_infinity false => u64_max
  | _ => 0
  end.
Definition q50 : spec_float := S754_finite false 4503599627370496 (-53).
Definition q95 : spec_float := S754_finite false 8556839292003942 (-53).
Definition q99 : spec_float := S754_finite false 8917127262193582 (-53).

Definition percentile_index (len : nat) (q : spec_float) : nat :=
  Z.to_nat (f64_round_usize (f64_mul (f64_sub (f64_of_len len) f64_one) q)).
(** [None] is the panic of an index out of bounds. *)
Definition percentile_i64 (values : list Z) (q : spec_float) : option Z :=
  match values with [] => Some 0 | _ => values !! percentile_index (length values) q end.

(** ** Outcomes *)

Record AuditReportOutcome : Type := mkReportOutcome {
  ro_dataset_cid : string; ro_line_count : nat; ro_format : string; ro_artifact_payload_cid : string;
  ro_type_counts : list (string * nat) }.
Record AuditSnapshotOutcome : Type := mkSnapshotOutcome {
  so_dataset_cid : string; so_histograms_cid : string; so_sketches_cid : string; so_manifest_cid : string;
  so_line_count : nat; so_covered_segments : nat }.
Record LedgerCompactOutcome : Type := mkCompactOutcome {
  co_parent_snapshot_ref : string; co_rollup_index_cid : string; co_tombstones : bool; co_freed_bytes : Z;
  co_archived_files : nat; co_deleted_files : nat }.
Record AuditAdvisoryOutcome : Type := mkAdvisoryOutcome {
  ad_parent_receipt_cid : string; ad_markdown_cid : string; ad_json_cid : string; ad_input_count : nat }.
Inductive AuditTransitionOutcome : Type :=
| TReport (r : AuditReportOutcome)
| TSnapshot (s : AuditSnapshotOutcome)
| TCompact (c : LedgerCompactOutcome)
| TAdvisory (a : AuditAdvisoryOutcome).
Record SiliconCompileOutcome : Type := mkCompileOutcome {
  sc_chip_cid : string; sc_target : string; sc_circuit_count : nat; sc_bit_count : nat; sc_bytecode_len : nat;
  sc_bytecode_cid : string }.

Definition target_as_str (t : CompileTarget) : string := match t with UblVm => "ubl_vm/v1" end.

Definition map_exec_error `{BigintText} (fuel_limit : Z) (e : ExecError) : PipelineError :=
  match e with
  | Vm.FuelExhausted => FuelExhausted (Text ("VM fuel exhausted (limit: " +:+ u_to_string fuel_limit +:+ ")"))
  | Vm.StackUnderflow _ => StackUnderflow (OfVm e)
  | Vm.TypeMismatch _ | InvalidPayload _ => TypeMismatch (OfVm e)
  | Deny reason => PolicyDenied (Text (deny_text reason))
  | Unwinds => PipelinePanic
  end.

(** ** Transitions of the special types *)

Section Transition.
Context {U : Unicode} {HB3 : Blake3} {KB3 : Blake3Keyed} {ED : Ed25519} {EK : Ed25519Keys} {B64 : Base64} {B64D : Base64Decode}
  {B58 : Base58} {NS : NumSerde} {CK : Clock} {SJ : SerdeJson} {BN : BigNum} {SC : StrCase} {SD : StrDebug}
  {CI : ChronoInstant} {CF : ChronoFormat} {CD : ChronoDate} {HI : HashIter} {BT : BigintText}
  {HX : HexDecode} {B64S : Base64Std} {SH : Sha256} {W : Wasmtime} {R : Readings}.
Context {B L : Type} {BE : ChipStoreBackend B}.
Context (p : UblPipeline).

Abbreviation pipe := (M (PState B L Fs) PipelineError).

Definition on_disk {A} (m : M Fs PipelineError A) : pipe A := fun s =>
  match m (disk s) with (d, r) => (set_disk d s, r) end.

Definition internal_nrf (s : string) (e : NrfError) : PipelineError := Internal (Within s (OfNrf e)).
Definition storage_err (s : string) (e : ChipStore.ChipStoreError) : PipelineError := StorageError (Within s (OfStore e)).
Definition parse_err (s : string) (e : AuditError) : PipelineError :=
  match e with AuditPanic => PipelinePanic | _ => InvalidChip (Within s (OfAudit e)) end.

Definition artifact_id (request : ParsedChipRequest) (input_cid suffix : string) : string :=
  default (trim_cid input_cid) (p_chip_id request) +:+ suffix.

(** The members that start an artifact. *)
Definition artifact_head (request : ParsedChipRequest) (input_cid ty suffix : string) : list (string * json) :=
  [("@type", JString ty); ("@id", JString (artifact_id request input_cid suffix)); ("@ver", JString "1.0.0");
   ("@world", JString (p_world request))].

Definition artifact_metadata (version : string) (fuel_used : Z) (trace : list PolicyTraceEntry) : ExecutionMetadata :=
  mkMeta version 0 fuel_used (te_policy_id <$> trace) (did_new_unchecked (pl_did p)) true.

Definition store_audit_artifact (payload : json) (fuel_used : Z) (trace : list PolicyTraceEntry) (version : string)
    : pipe string :=
  nrf ← lift (map_err (internal_nrf "artifact NRF: ") (to_nrf1_bytes payload));
  stored ← store_chip payload "self" (artifact_metadata version fuel_used trace);
  stored_cid ← lift (map_err (storage_err "artifact store: ") stored);
  if String.eqb stored_cid (compute_cid nrf) then mret stored_cid
  else throw (Internal (Text ("artifact CID mismatch: expected " +:+ compute_cid nrf +:+ ", got " +:+ stored_cid))).

(** The chips of a world, newest first, up to a limit. *)
Definition world_query (world : string) (limit : nat) : ChipQuery :=
  mkQuery None ["world:" +:+ world] None None None (Some limit) None.

Definition in_range (r : TimeRange) (chip : StoredChip) : bool :=
  match rfc3339_instant (created_at chip) with
  | Some ts => (rstart r <=? ts) && (ts <=? rend r)
  | None => false
  end.

Definition chip_row (chip : StoredChip) : json :=
  JObject [("cid", JString (cid_as_str (cid chip))); ("receipt_cid", JString (cid_as_str (ChipStore.receipt_cid chip)));
           ("chip_type", JString (chip_type chip)); ("created_at", JString (created_at chip))].
Definition row_text (k : string) (row : json) : string := default "" (get k row ≫= as_str).
Definition json_range (r : TimeRange) : json :=
  JObject [("start", JString (to_rfc3339 (rstart r))); ("end", JString (to_rfc3339 (rend r)))].

(** *** Reports *)

Definition report_rows (report : ReportRequest) (chips : list StoredChip) : list json :=
  let kept := match rep_range report with Some r => List.filter (in_range r) chips | None => chips end in
  sort_by (fun a b => String.leb (row_text "cid" a) (row_text "cid" b)) (chip_row <$> kept).

Definition report_payload (request : ParsedChipRequest) (report : ReportRequest) (input_cid format : string)
    (rows : list json) (fuel_used : Z) (trace_len : nat) : json :=
  let ndjson := join (String "010" "") (value_to_string <$> rows) in
  JObject (artifact_head request input_cid "ubl/audit.dataset.v1" ":dataset" ++
    [("request_type", JString (p_chip_type request)); ("request_id", json_optional (p_chip_id request));
     ("input_cid", JString input_cid); ("format", JString format); ("window", json_optional (rep_window report));
     ("range", match rep_range report with Some r => json_range r | None => JNull end);
     ("line_count", json_usize (length rows));
     ("type_counts", json_counts (count_names (omap (fun row => get "chip_type" row ≫= as_str) rows)));
     ("dataset_ndjson_b3", JString ("b3:" +:+ hex_encode (blake3 (as_bytes ndjson))));
     ("rows", JArray rows); ("fuel_used_at_tr", json_u64 fuel_used); ("policy_trace_len", json_usize trace_len)]).

Definition execute_audit_report_transition (request : ParsedChipRequest) (input_cid : string) (fuel_used : Z)
    (trace : list PolicyTraceEntry) : pipe AuditReportOutcome :=
  parsed ← lift (map_err (parse_err "audit/report parse: ") (parse_request (p_chip_type request) (p_body request)));
  match parsed with
  | Report report =>
      store ← asks chip_store;
      store ← lift (ok_or store (StorageError (Text "audit/report.request.v1 requires ChipStore")));
      found ← lift (map_err (storage_err "audit/report query: ")
                      (store_query store (world_query (p_world request) (body_limit (p_body request) 1000 10000))));
      let rows := report_rows report (qr_chips found) in
      let format := default "ndjson" (rep_format report) in
      let payload := report_payload request report input_cid format rows fuel_used (length trace) in
      nrf ← lift (map_err (internal_nrf "audit/report NRF: ") (to_nrf1_bytes payload));
      stored ← store_chip payload "self" (artifact_metadata "audit/report-tr/0.1" fuel_used trace);
      stored_cid ← lift (map_err (storage_err "audit/report artifact store: ") stored);
      if negb (String.eqb stored_cid (compute_cid nrf)) then
        throw (Internal (Text ("audit/report artifact CID mismatch: expected " +:+ compute_cid nrf +:+ ", got " +:+ stored_cid)))
      else
        mret (mkReportOutcome (compute_cid nrf) (length rows) format stored_cid
                (count_names (omap (fun row => get "chip_type" row ≫= as_str) rows)))
  | _ => throw (InvalidChip (Text "audit/report transition received non-report request"))
  end.

(** *** Snapshots *)

Definition snapshot_chips (r : TimeRange) (chips : list StoredChip) : list StoredChip :=
  sort_by (fun a b => String.leb (cid_as_str (cid a)) (cid_as_str (cid b))) (List.filter (in_range r) chips).

Definition percentile (values : list Z) (q : spec_float) : pipe Z := lift (ok_or (percentile_i64 values q) PipelinePanic).

Definition dataset_payload (request : ParsedChipRequest) (input_cid : string) (r : TimeRange) (chips : list StoredChip) : json :=
  JObject (artifact_head request input_cid "ubl/audit.snapshot.dataset.v1" ":snapshot-dataset" ++
    [("input_cid", JString input_cid); ("range", json_range r); ("line_count", json_usize (length chips));
     ("rows", JArray (chip_row <$> chips))]).
Definition histograms_payload (request : ParsedChipRequest) (input_cid : string) (latencies : list Z) (p50 p95 p99 : Z) : json :=
  JObject (artifact_head request input_cid "ubl/audit.snapshot.histograms.v1" ":snapshot-histograms" ++
    [("input_cid", JString input_cid); ("count", json_usize (length latencies));
     ("latency_ms", JObject [("p50", json_i64 p50); ("p95", json_i64 p95); ("p99", json_i64 p99);
                             ("min", json_i64 (default 0 (head latencies))); ("max", json_i64 (default 0 (last latencies)))])]).
Definition sketches_payload (request : ParsedChipRequest) (input_cid : string) (chips : list StoredChip)
    (types : list (string * nat)) : json :=
  JObject (artifact_head request input_cid "ubl/audit.snapshot.sketches.v1" ":snapshot-sketches" ++
    [("input_cid", JString input_cid);
     ("cardinality_exact", JObject [("chips", json_usize (length chips)); ("types", json_usize (length types))]);
     ("type_counts", json_counts types)]).
Definition manifest_payload (request : ParsedChipRequest) (input_cid : string) (r : TimeRange) (n : nat)
    (dataset histograms sketches : string) : json :=
  JObject (artifact_head request input_cid "ubl/audit.snapshot.manifest.v1" ":snapshot-manifest" ++
    [("input_cid", JString input_cid); ("range", json_range r);
     ("artifacts", JObject [("dataset", JString dataset); ("histograms", JString histograms); ("sketches", JString sketches)]);
     ("coverage", JObject [("segments", json_usize n); ("lines", json_usize n);
                           ("bytes_estimate", json_u64 (Z.of_nat n * 128))])]).

Definition execute_audit_snapshot_transition (request : ParsedChipRequest) (input_cid : string) (fuel_used : Z)
    (trace : list PolicyTraceEntry) : pipe AuditSnapshotOutcome :=
  parsed ← lift (map_err (parse_err "audit/snapshot parse: ") (parse_request (p_chip_type request) (p_body request)));
  match parsed with
  | Snapshot snapshot =>
      store ← asks chip_store;
      store ← lift (ok_or store (StorageError (Text "audit/ledger.snapshot.request.v1 requires ChipStore")));
      found ← lift (map_err (storage_err "audit/snapshot query: ")
                      (store_query store (world_query (p_world request) (body_limit (p_body request) 5000 20000))));
      let chips := snapshot_chips (snap_range snapshot) (qr_chips found) in
      let latencies := sort_by Z.leb ((fun c => execution_time_ms (execution_metadata c)) <$> chips) in
      p50 ← percentile latencies q50;
      p95 ← percentile latencies q95;
      p99 ← percentile latencies q99;
      let types := count_names (chip_type <$> chips) in
      let n := length chips in
      let put payload version := store_audit_artifact payload fuel_used trace version in
      dataset ← put (dataset_payload request input_cid (snap_range snapshot) chips) "audit/snapshot-dataset-tr/0.1";
      histograms ← put (histograms_payload request input_cid latencies p50 p95 p99) "audit/snapshot-histograms-tr/0.1";
      sketches ← put (sketches_payload request input_cid chips types) "audit/snapshot-sketches-tr/0.1";
      manifest ← put (manifest_payload request input_cid (snap_range snapshot) n dataset histograms sketches)
                   "audit/snapshot-manifest-tr/0.1";
      mret (mkSnapshotOutcome dataset histograms sketches manifest n n)
  | _ => throw (InvalidChip (Text "audit/snapshot transition received non-snapshot request"))
  end.

(** *** Compaction *)

Definition json_segment (s : SegmentSource) : json :=
  JObject [("path", JString (seg_path s)); ("sha256", JString (seg_sha256 s)); ("lines", json_u64 (seg_lines s))].

Definition rollup_payload (request : ParsedChipRequest) (input_cid : string) (compact : CompactRequest) (snapshot_cid : string)
    (r : CompactFsResult) : json :=
  JObject (artifact_head request input_cid "ubl/ledger.compaction.rollup.v1" ":compact-rollup" ++
    [("input_cid", JString input_cid); ("parent_snapshot_ref", JString (snapshot_ref compact));
     ("parent_snapshot_cid", JString snapshot_cid); ("mode", JString (comp_mode compact)); ("range", json_range (comp_range compact));
     ("source_segments", JArray (json_segment <$> source_segments compact)); ("tombstones", JBool true);
     ("freed_bytes", json_u64 (freed_bytes r)); ("archived_files", json_usize (archived_files r));
     ("deleted_files", json_usize (deleted_files r))]).

(** The snapshot by its CID, or else by its receipt's. *)
Definition compact_snapshot (store : ChipStore.ChipStore B) (ref : string) : result PipelineError StoredChip :=
  found ← map_err (storage_err "compact snapshot lookup: ") (get_chip ref (backend store));
  match found with
  | Some chip => Ok chip
  | None =>
      found ← map_err (storage_err "compact snapshot receipt lookup: ") (get_chip_by_receipt_cid ref (backend store));
      ok_or found (InvalidChip (Text ("compact snapshot_ref not found: " +:+ ref)))
  end.

Definition execute_ledger_compact_transition (request : ParsedChipRequest) (input_cid : string) (fuel_used : Z)
    (trace : list PolicyTraceEntry) : pipe LedgerCompactOutcome :=
  parsed ← lift (map_err (parse_err "ledger/compact parse: ") (parse_request (p_chip_type request) (p_body request)));
  match parsed with
  | Compact compact =>
      store ← asks chip_store;
      store ← lift (ok_or store (StorageError (Text "ledger/segment.compact.v1 requires ChipStore")));
      snapshot ← lift (compact_snapshot store (snapshot_ref compact));
      stamp ← read now_stamp;
      r ← on_disk (execute_filesystem_compaction (ledger_base (pl_env p)) stamp (comp_mode compact) (source_segments compact));
      rollup ← store_audit_artifact (rollup_payload request input_cid compact (cid_as_str (cid snapshot)) r) fuel_used trace
                 "ledger/compact-tr/0.1";
      mret (mkCompactOutcome (snapshot_ref compact) rollup true (freed_bytes r) (archived_files r) (deleted_files r))
  | _ => throw (InvalidChip (Text "ledger/compact transition received non-compact request"))
  end.

(** *** Advisories *)

Definition advisory_finding (severity code message : string) : json :=
  JObject [("severity", JString severity); ("code", JString code); ("message", JString message)].

Definition advisory_json_payload (request : ParsedChipRequest) (input_cid : string) (advisory : AdvisoryRequest)
    (subject : StoredChip) (policy_cid style lang : string) (inputs : list (string * json)) : json :=
  let n := length inputs in
  JObject (artifact_head request input_cid "ubl/audit.advisory.result.v1" ":advisory-json" ++
    [("input_cid", JString input_cid);
     ("subject", JObject [("kind", JString (subject_kind advisory)); ("receipt_cid", JString (subject_receipt_cid advisory));
                          ("chip_type", JString (chip_type subject))]);
     ("policy_cid", JString policy_cid); ("style", JString style); ("lang", JString lang); ("inputs", JObject inputs);
     ("findings", JArray [advisory_finding (match n with O => "warn" | _ => "info" end) "advisory.inputs.count"
                            (u_to_string (Z.of_nat n) +:+ " aggregate input(s) provided");
                          advisory_finding "info" "advisory.subject.type" ("subject type " +:+ chip_type subject)])]).

Definition markdown_lines (advisory : AdvisoryRequest) (subject : StoredChip) (n : nat) (policy_cid style lang : string)
    : list string :=
  ["# Advisory"; "- Subject: `" +:+ subject_receipt_cid advisory +:+ "` (`" +:+ chip_type subject +:+ "`)";
   "- Inputs: `" +:+ u_to_string (Z.of_nat n) +:+ "`"; "- Policy: `" +:+ policy_cid +:+ "`"; "- Style: `" +:+ style +:+ "`";
   "- Lang: `" +:+ lang +:+ "`"].

Definition advisory_markdown_payload (request : ParsedChipRequest) (input_cid : string) (lines : list string)
    (advisory_json_cid : string) : json :=
  JObject (artifact_head request input_cid "ubl/audit.advisory.markdown.v1" ":advisory-md" ++
    [("input_cid", JString input_cid); ("markdown_text", JString (join " | " lines));
     ("markdown_lines", JArray (JString <$> lines)); ("advisory_json_cid", JString advisory_json_cid)]).

Definition execute_audit_advisory_transition (request : ParsedChipRequest) (input_cid : string) (fuel_used : Z)
    (trace : list PolicyTraceEntry) : pipe AuditAdvisoryOutcome :=
  parsed ← lift (map_err (parse_err "audit/advisory parse: ") (parse_request (p_chip_type request) (p_body request)));
  match parsed with
  | AuditChip.Advisory advisory =>
      store ← asks chip_store;
      store ← lift (ok_or store (StorageError (Text "audit/advisory.request.v1 requires ChipStore")));
      found ← lift (map_err (storage_err "audit/advisory subject: ")
                      (get_chip_by_receipt_cid (subject_receipt_cid advisory) (backend store)));
      subject ← lift (ok_or found (InvalidChip (Text ("subject receipt not found: " +:+ subject_receipt_cid advisory))));
      let body := p_body request in
      let inputs := default [] (get "inputs" body ≫= as_object) in
      let text k dflt := default dflt (get k body ≫= as_str) in
      let policy_cid := text "policy_cid" "b3:policy-missing" in
      let style := text "style" "concise" in
      let lang := text "lang" "en" in
      advisory_json_cid ← store_audit_artifact
        (advisory_json_payload request input_cid advisory subject policy_cid style lang inputs) fuel_used trace
        "audit/advisory-json-tr/0.1";
      let lines := markdown_lines advisory subject (length inputs) policy_cid style lang in
      markdown ← store_audit_artifact (advisory_markdown_payload request input_cid lines advisory_json_cid) fuel_used trace
        "audit/advisory-markdown-tr/0.1";
      mret (mkAdvisoryOutcome (subject_receipt_cid advisory) markdown advisory_json_cid (length inputs))
  | _ => throw (InvalidChip (Text "audit/advisory transition received non-advisory request"))
  end.

(** *** Silicon compilation *)

Definition bytecode_artifact (request : ParsedChipRequest) (compile : SiliconCompileBody) (bytecode : bytes)
    (circuits bits : nat) : json :=
  JObject [("@type", JString "ubl/silicon.bytecode.v1"); ("@world", JString (p_world request));
           ("chip_cid", JString (compile_chip_cid compile)); ("target", JString (target_as_str (compile_target compile)));
           ("bytecode_hex", JString (hex_encode bytecode)); ("bytecode_len", json_usize (length bytecode));
           ("bytecode_b3", JString ("b3:" +:+ hex_encode (blake3 bytecode))); ("circuit_count", json_usize circuits);
           ("bit_count", json_usize bits)].

Definition silicon_err (s : string) (e : SiliconError) : PipelineError := InvalidChip (Within s (OfSilicon e)).

Definition execute_silicon_compile_transition (request : ParsedChipRequest) (fuel_used : Z) (trace : list PolicyTraceEntry)
    : pipe SiliconCompileOutcome :=
  parsed ← lift (map_err (silicon_err "silicon.compile parse: ") (parse_silicon (p_chip_type request) (p_body request)));
  match parsed with
  | ReqCompile compile =>
      store ← asks chip_store;
      store ← lift (ok_or store (StorageError (Text "ubl/silicon.compile requires ChipStore")));
      found ← lift (map_err (storage_err "silicon.compile chip lookup: ") (get_chip (compile_chip_cid compile) (backend store)));
      chip_stored ← lift (ok_or found (InvalidChip (Text ("silicon.compile chip_cid not found: " +:+ compile_chip_cid compile))));
      chip_body ← lift (map_err (silicon_err "silicon.compile chip parse: ")
                          (parse_silicon TYPE_SILICON_CHIP (chip_data chip_stored)));
      match chip_body with
      | ReqChip chip_body =>
          circuits ← lift (map_err (fun e => Internal (Within "silicon.compile graph resolve: " (OfSilicon e)))
                             (resolve_chip_graph (silicon_view store) (pl_resolve_fuel p) chip_body));
          let circuit_count := length circuits in
          let bit_count := list_sum ((fun c => length (resolved_nodes c)) <$> circuits) in
          bytecode ← lift (map_err (silicon_err "silicon.compile: ") (compile_chip_to_ubl_vm circuits));
          bytecode_cid ← store_audit_artifact (bytecode_artifact request compile bytecode circuit_count bit_count) fuel_used
                           trace "silicon/compile-tr/0.1";
          mret (mkCompileOutcome (compile_chip_cid compile) (target_as_str (compile_target compile)) circuit_count bit_count
                  (length bytecode) bytecode_cid)
      | _ => throw (InvalidChip (Text "chip_cid does not point to a ubl/silicon.chip"))
      end
  | _ => throw (InvalidChip (Text "silicon.compile transition received non-compile request"))
  end.

(** ** The stage *)

Definition audit_transition (request : ParsedChipRequest) (input_cid : string) (fuel_used : Z)
    (trace : list PolicyTraceEntry) : pipe (option AuditTransitionOutcome) :=
  let ty := p_chip_type request in
  if String.eqb ty TYPE_AUDIT_REPORT_REQUEST_V1 then
    r ← execute_audit_report_transition request input_cid fuel_used trace; mret (Some (TReport r))
  else if String.eqb ty TYPE_AUDIT_LEDGER_SNAPSHOT_REQUEST_V1 then
    r ← execute_audit_snapshot_transition request input_cid fuel_used trace; mret (Some (TSnapshot r))
  else if String.eqb ty TYPE_LEDGER_SEGMENT_COMPACT_V1 then
    r ← execute_ledger_compact_transition request input_cid fuel_used trace; mret (Some (TCompact r))
  else if String.eqb ty TYPE_AUDIT_ADVISORY_REQUEST_V1 then
    r ← execute_audit_advisory_transition request input_cid fuel_used trace; mret (Some (TAdvisory r))
  else mret None.

Definition rotation_material (request : ParsedChipRequest) : pipe (option KeyRotationMaterial) :=
  if String.eqb (p_chip_type request) "ubl/key.rotate" then
    rotate_req ← lift (map_err (fun e => InvalidChip (Within "Key rotation: " (OfRotation e))) (rotate_parse (p_body request)));
    material ← lift (map_err (fun e => Internal (Within "Key rotation: " (OfRotation e)))
                       (derive_material (pl_strict_did p) rotate_req (p_body request) (pl_signing_key p)));
    mret (Some material)
  else mret None.

(** The members of [vm_state] that an audit outcome adds, and those of the body. *)
Definition audit_state (a : AuditTransitionOutcome) : list (string * json) :=
  match a with
  | TReport r =>
      [("audit_report_generated", JBool true); ("audit_report_dataset_cid", JString (ro_dataset_cid r));
       ("audit_report_line_count", json_usize (ro_line_count r))]
  | TSnapshot s =>
      [("audit_snapshot_generated", JBool true); ("audit_snapshot_manifest_cid", JString (so_manifest_cid s));
       ("audit_snapshot_line_count", json_usize (so_line_count s))]
  | TCompact c =>
      [("ledger_compact_generated", JBool true); ("ledger_compact_rollup_cid", JString (co_rollup_index_cid c));
       ("ledger_compact_freed_bytes", json_u64 (co_freed_bytes c));
       ("ledger_compact_archived_files", json_usize (co_archived_files c));
       ("ledger_compact_deleted_files", json_usize (co_deleted_files c))]
  | TAdvisory a =>
      [("audit_advisory_generated", JBool true); ("audit_advisory_json_cid", JString (ad_json_cid a));
       ("audit_advisory_input_count", json_usize (ad_input_count a))]
  end.

Definition audit_members (a : AuditTransitionOutcome) : list (string * json) :=
  match a with
  | TReport r =>
      [("artifacts", JObject [("dataset", JString (ro_dataset_cid r))]);
       ("audit_report", JObject [("dataset_cid", JString (ro_dataset_cid r)); ("line_count", json_usize (ro_line_count r));
                                 ("format", JString (ro_format r)); ("type_counts", json_counts (ro_type_counts r));
                                 ("artifact_payload_cid", JString (ro_artifact_payload_cid r))])]
  | TSnapshot s =>
      [("artifacts", JObject [("dataset", JString (so_dataset_cid s)); ("histograms", JString (so_histograms_cid s));
                              ("sketches", JString (so_sketches_cid s)); ("manifest", JString (so_manifest_cid s))]);
       ("audit_snapshot", JObject [("dataset_cid", JString (so_dataset_cid s)); ("histograms_cid", JString (so_histograms_cid s));
                                   ("sketches_cid", JString (so_sketches_cid s)); ("manifest_cid", JString (so_manifest_cid s));
                                   ("line_count", json_usize (so_line_count s));
                                   ("covered_segments", json_usize (so_covered_segments s))])]
  | TCompact c =>
      [("artifacts", JObject [("rollup_index", JString (co_rollup_index_cid c))]);
       ("ledger_compact", JObject [("parent_snapshot_ref", JString (co_parent_snapshot_ref c));
                                   ("rollup_index_cid", JString (co_rollup_index_cid c)); ("tombstones", JBool (co_tombstones c));
                                   ("freed_bytes", json_u64 (co_freed_bytes c));
                                   ("archived_files", json_usize (co_archived_files c));
                                   ("deleted_files", json_usize (co_deleted_files c))])]
  | TAdvisory a =>
      [("artifacts", JObject [("advisory_markdown", JString (ad_markdown_cid a)); ("advisory_json", JString (ad_json_cid a))]);
       ("audit_advisory", JObject [("parent_receipt_cid", JString (ad_parent_receipt_cid a));
                                   ("advisory_markdown_cid", JString (ad_markdown_cid a));
                                   ("advisory_json_cid", JString (ad_json_cid a)); ("input_count", json_usize (ad_input_count a))])]
  end.

Definition adapter_state (info : AdapterRuntimeInfo) : list (string * json) :=
  [("adapter_wasm_sha256", JString (wasm_sha256 info)); ("adapter_abi_version", JString (abi_version info))]
  ++ match wasm_cid info with Some c => [("adapter_wasm_cid", JString c)] | None => [] end.
Definition adapter_outcome_state (a : AdapterExecutionOutcome) : list (string * json) :=
  [("adapter_executed", JBool true); ("adapter_module_source", JString (ao_module_source a));
   ("adapter_output_cid", JString (ao_output_cid a)); ("adapter_fuel_used", json_u64 (ao_fuel_used a));
   ("adapter_effects", JArray (JString <$> ao_effects a))].
Definition rotation_members (m : KeyRotationMaterial) : list (string * json) :=
  [("key_rotation", JObject [("old_did", JString (mat_old_did m)); ("old_kid", JString (mat_old_kid m));
                             ("new_did", JString (mat_new_did m)); ("new_kid", JString (mat_new_kid m));
                             ("new_key_cid", JString (mat_new_key_cid m))])].
Definition compile_members (c : SiliconCompileOutcome) : list (string * json) :=
  [("artifacts", JObject [("bytecode", JString (sc_bytecode_cid c))]);
   ("silicon_compile", JObject [("chip_cid", JString (sc_chip_cid c)); ("target", JString (sc_target c));
                                ("circuit_count", json_usize (sc_circuit_count c)); ("bit_count", json_usize (sc_bit_count c));
                                ("bytecode_len", json_usize (sc_bytecode_len c)); ("bytecode_cid", JString (sc_bytecode_cid c))])].

Definition if_some {A} (f : A -> list (string * json)) (o : option A) : list (string * json) :=
  match o with Some a => f a | None => [] end.

Definition tr_vm_state (outcome : VmOutcome) (resolution : TransitionResolution) (info : option AdapterRuntimeInfo)
    (adapter : option AdapterExecutionOutcome) (audit : option AuditTransitionOutcome) : json :=
  JObject ([("fuel_used", json_u64 (out_fuel_used outcome)); ("steps", json_u64 (out_steps outcome));
            ("result", JString (match rc_cid outcome with Some _ => "receipt_emitted" | None => "completed" end));
            ("trace_len", json_usize (length (out_trace outcome))); ("bytecode_source", JString (tr_source resolution));
            ("bytecode_hash", JString ("b3:" +:+ hex_encode (blake3 (tr_bytecode resolution))));
            ("bytecode_len", json_usize (length (tr_bytecode resolution)));
            ("bytecode_profile", JString (profile_as_str (tr_profile resolution)))]
           ++ if_some adapter_state info ++ if_some adapter_outcome_state adapter ++ if_some audit_state audit).

(** [tr_body[k] = v] for each member. *)
Definition insert_members (l m : list (string * json)) : list (string * json) :=
  fold_left (fun m kv => map_insert kv.1 kv.2 m) l m.

Definition tr_body (input_cid : string) (outcome : VmOutcome) (vm_state : json) (audit : option AuditTransitionOutcome)
    (rotation : option KeyRotationMaterial) (compile : option SiliconCompileOutcome) : json :=
  JObject (insert_members (if_some audit_members audit ++ if_some rotation_members rotation ++ if_some compile_members compile)
    [("@type", JString "ubl/transition"); ("input_cid", JString input_cid);
     ("output_cid", JString (default "" (rc_cid outcome))); ("vm_sig", JString (default "" (rc_sig outcome)));
     ("vm_sig_payload_cid", JString (default "" (rc_payload_cid outcome))); ("vm_state", vm_state)]).

(** The machine: tracing, with the chip's bytes as input 0. *)
Definition tr_machine (chip_nrf : bytes) : Vm PipelineCas :=
  let '(input_cid, cas) := cas_put (∅ : PipelineCas) chip_nrf in
  with_body_size (vm_new {| fuel_limit := pl_fuel_limit p; ghost := false; tracing := true |} cas [input_cid])
    (Z.of_nat (length chip_nrf)).

Definition tr_run (instructions : list Instr) (chip_nrf : bytes) : result PipelineError VmOutcome :=
  map_err (map_exec_error (pl_fuel_limit p))
    (fst <$> run (SP := pipeline_signer (pl_signing_key p) (pl_kid p)) (KP := pipeline_canon) instructions (tr_machine chip_nrf)).

Definition stage_transition (request : ParsedChipRequest) (check : CheckResult) : pipe PipelineReceipt :=
  chip_nrf ← lift (map_err (internal_nrf "TR input NRF: ") (to_nrf1_bytes (p_body request)));
  let input_cid := pipeline_cid chip_nrf in
  adapter_info ← lift (parse_optional (p_body request));
  adapter_outcome ← match adapter_info with
                    | Some info => o ← execute_wasm_adapter p info chip_nrf input_cid; mret (Some o)
                    | None => mret None
                    end;
  resolution ← lift (map_err (fun e => InvalidChip (Within "TR bytecode resolution: " (OfRegistry e)))
                       (tr_resolve (pl_registry p) (p_chip_type request) (p_body request)));
  instructions ← lift (map_err (fun e => Internal (Within "TR bytecode decode: " (OfDecode e)))
                         (decode_stream (tr_bytecode resolution)));
  outcome ← lift (tr_run instructions chip_nrf);
  if is_empty (default "" (rc_sig outcome)) then
    throw (SignError (Text "TR EmitRc did not return a persisted signature"))
  else
    audit ← audit_transition request input_cid (out_fuel_used outcome) (ck_trace check);
    rotation ← rotation_material request;
    compile ← (if String.eqb (p_chip_type request) TYPE_SILICON_COMPILE
               then c ← execute_silicon_compile_transition request (out_fuel_used outcome) (ck_trace check); mret (Some c)
               else mret None);
    let vm_state := tr_vm_state outcome resolution adapter_info adapter_outcome audit in
    let body := tr_body input_cid outcome vm_state audit rotation compile in
    nrf ← lift (map_err (internal_nrf "TR CID: ") (to_nrf1_bytes body));
    mret (mkPipelineReceipt (cid_new_unchecked (compute_cid nrf)) "ubl/transition" body).
End Transition.
