(* ===== verification/Pipeline.v ===== *)
(** * The pipeline ([pipeline/processing.rs], [write_ahead.rs], [write_finished.rs], [mod.rs])

    From raw bytes or a chip request to a signed receipt: admission, the
    idempotency lookup, the replay guards, the stages WA, CHECK, TR and WF with
    their receipts and events, what an allowed chip leaves in the chip store and
    the ledger, and the final commit. *)

From S2P Require Import Prelude RustStd RustStr Json Nrf NrfFacts BigNum Unc1 Tlv Rho Vm Gate Canon Types Silicon Idempotency.
From S2P Require Import Durable Policy Receipt Knock ChipStore Capability Auth PolicyLoader Envelope KeyRotation AuditChip.
From S2P Require Import TrRegistry EventBus Ledger Advisory PipelineTypes Check Compaction Wasm Adapter Transition.
Local Open Scope string_scope.
Local Open Scope Z_scope.
Local Open Scope list_scope.

(** ** Receipts of the stages *)

Record WaReceiptBody : Type := mkWa {
  wa_ghost : bool; wa_chip_cid : string; wa_policy_cid : string; wa_frozen_time : string; wa_caller : string;
  wa_context : json; wa_operation : string; wa_nonce : string; wa_kid : string }.
Definition wa_to_json (w : WaReceiptBody) : json :=
  JObject [("ghost", JBool (wa_ghost w)); ("chip_cid", JString (wa_chip_cid w)); ("policy_cid", JString (wa_policy_cid w));
           ("frozen_time", JString (wa_frozen_time w)); ("caller", JString (wa_caller w)); ("context", wa_context w);
           ("operation", JString (wa_operation w)); ("nonce", JString (wa_nonce w)); ("kid", JString (wa_kid w))].

Record WfReceiptBody : Type := mkWf {
  wf_decision : Decision; wf_wa_cid : string; wf_tr_cid : option string; wf_artifacts : gmap string string;
  wf_duration_ms : Z; wf_policy_trace : list PolicyTraceEntry; wf_short_circuited : bool }.
Definition wf_to_json `{HashIter} (w : WfReceiptBody) : json :=
  JObject [("decision", json_decision (wf_decision w)); ("wa_cid", JString (wf_wa_cid w));
           ("tr_cid", json_optional (wf_tr_cid w));
           ("artifacts", JObject ((fun kv => (kv.1, JString kv.2)) <$> hash_iter _ (map_to_list (wf_artifacts w))));
           ("duration_ms", json_i64 (wf_duration_ms w)); ("policy_trace", JArray (json_trace_entry <$> wf_policy_trace w));
           ("short_circuited", JBool (wf_short_circuited w))].

(** [serde_json::from_value::<UnifiedReceipt>]. *)
Class ReceiptSerde : Type := { receipt_from_json : json -> option UnifiedReceipt }.

Section Pipeline.
Context {U : Unicode} {CH : Chrono} {HB3 : Blake3} {KB3 : Blake3Keyed} {ED : Ed25519} {EK : Ed25519Keys} {B64 : Base64}
  {B64D : Base64Decode} {B58 : Base58} {NS : NumSerde} {CK : Clock} {SJ : SerdeJson} {BN : BigNum} {SC : StrCase}
  {SU : StrUpper} {SD : StrDebug} {CI : ChronoInstant} {CF : ChronoFormat} {CD : ChronoDate} {HI : HashIter} {BT : BigintText}
  {HX : HexDecode} {B64S : Base64Std} {SH : Sha256} {W : Wasmtime} {PS : PolicySerde} {RS : ReceiptSerde} {R : Readings}.
Context {B L : Type} {BE : ChipStoreBackend B} {LW : LedgerWriter L}.
Context (p : UblPipeline).

Abbreviation pipe := (M (PState B L Fs) PipelineError).

(** The receipt of a body under its own CID. *)
Definition receipt_of_body (what ty : string) (body : json) : result PipelineError PipelineReceipt :=
  nrf ← map_err (internal_nrf what) (to_nrf1_bytes body);
  Ok (mkPipelineReceipt (cid_new_unchecked (compute_cid nrf)) ty body).

Definition body_cid_str (r : PipelineReceipt) : string := cid_as_str (body_cid r).

Definition stage_write_ahead (request : ParsedChipRequest) : pipe PipelineReceipt :=
  nonce ← generate_nonce;
  seen ← asks nonces;
  if bool_decide (nonce ∈ seen) then throw (ReplayDetected (Text "duplicate nonce"))
  else
    _ ← modify (add_nonce nonce);
    now ← read now_text;
    let wa := mkWa true "pending" genesis_chip_cid now (pl_did p) (p_body request) (p_operation request) nonce (pl_kid p) in
    lift (receipt_of_body "WA CID: " "ubl/wa" (wa_to_json wa)).

(** The artifacts of a chip: its CID and the text members of the transition's. *)
Definition collect_artifacts (chip_cid : string) (tr_body : json) : gmap string string :=
  fold_left (fun m kv => match as_str kv.2 with Some c => <[kv.1 := c]> m | None => m end)
    (default [] (get "artifacts" tr_body ≫= as_object)) {["chip" := chip_cid]}.

Definition stage_write_finished (request : ParsedChipRequest) (wa tr : PipelineReceipt) (check : CheckResult) (duration : Z)
    : result PipelineError PipelineReceipt :=
  chip_nrf1 ← map_err (internal_nrf "Chip CID: ") (to_nrf1_bytes (p_body request));
  receipt_of_body "WF CID: " "ubl/wf"
    (wf_to_json (mkWf (ck_decision check) (body_cid_str wa) (Some (body_cid_str tr))
                   (collect_artifacts (compute_cid chip_nrf1) (pr_body tr)) duration (ck_trace check) (ck_short_circuited check))).

Definition create_deny_receipt (wa : PipelineReceipt) (check : CheckResult) (duration : Z) : result PipelineError PipelineReceipt :=
  receipt_of_body "WF DENY CID: " "ubl/wf"
    (wf_to_json (mkWf DenyD (body_cid_str wa) None ∅ duration (ck_trace check) true)).

(** ** The evolving receipt *)

Definition append_stage_receipt (what : string) (receipt : UnifiedReceipt) (stage : StageExecution) : pipe UnifiedReceipt :=
  secrets ← asks stage_secrets;
  match append_stage_with_secrets receipt (sec_current secrets) (sec_prev secrets) stage with
  | (r, Ok _) => mret r
  | (_, Err e) => throw (Internal (Within what (Within "Internal error: Receipt append stage: " (OfReceipt e))))
  end.

(** A stage record with the clock's time and an empty token. *)
Definition stage_record (stage : PipelineStage) (input : string) (output : option string) (fuel : option Z)
    (trace : list PolicyTraceEntry) (sig payload : option string) (ms : Z) : pipe StageExecution :=
  now ← read now_text; mret (mkStage stage now input output fuel trace sig payload "" ms).

Definition finalize (what : string) (receipt : UnifiedReceipt) : pipe UnifiedReceipt :=
  match finalize_and_sign (pl_env p) receipt (pl_signing_key p) (cfg_crypto_mode (pl_config p)) with
  | (r, Ok _) => mret r
  | (_, Err e) => throw (SignError (Within what (OfReceipt e)))
  end.

(** Publishing never fails the pipeline. *)
Definition publish (receipt : PipelineReceipt) (stage : string) (decision : option string) (ms : Z) (world : string)
    (input : option string) (subject_did knock_cid : string) : pipe unit :=
  now ← read now_text;
  let rt := pl_runtime_info p in
  let ctx := EventBus.mkContext decision (Some ms) (Some world) input (Some (binary_hash rt)) (Some (json_build (build rt)))
               (Some (pl_did p)) (Some subject_did) (Some knock_cid) in
  let event := from_stage_receipt (body_cid_str receipt) (pr_type receipt) (pr_body receipt) stage ctx now in
  modify (fun s => set_bus (publish_stage_event event (event_bus s)) s).

(** ** Idempotency *)

Definition commit_input (idem_key : option string) (world : string) (result : PipelineResult) (created_at : Z) : CommitInput :=
  let r := res_receipt result in
  let wire := decision_to_wire (res_decision result) in
  let event := mkNewEvent "emit_receipt"
    (JObject [("receipt_cid", JString (cid_as_str (Receipt.receipt_cid r))); ("decision", JString wire); ("world", JString world)]) in
  mkCommit (cid_as_str (Receipt.receipt_cid r)) (receipt_to_json r) (pl_did p) (pl_kid p)
    (match rt r with Some i => binary_hash i | None => binary_hash (pl_runtime_info p) end)
    wire idem_key (res_chain result) [event] created_at false.

Definition persist_final_result (idem_key : option IdempotencyKey) (world : string) (result : PipelineResult) : pipe unit :=
  durable ← asks durable_store;
  match durable with
  | Some db =>
      reading ← read (fun n => (now_secs n, db_fails n));
      match commit_wf_atomically reading.2 db (commit_input (to_durable_key <$> idem_key) world result reading.1) with
      | (r, db') =>
          _ ← modify (set_durable db');
          match r with
          | Ok _ => mret tt
          | Err (Durable.IdempotencyConflict e) => throw (IdempotencyConflict (Text e))
          | Err e => throw (DurableCommitFailed (OfDurable e))
          end
      end
  | None =>
      match idem_key with
      | Some key =>
          now ← read now_text;
          let r := res_receipt result in
          modify (fun s => set_idempotency
            (idem_put (idempotency_store s) key
               (mkCached (cid_as_str (Receipt.receipt_cid r)) (receipt_to_json r) (decision_to_wire (res_decision result))
                  (res_chain result) now)) s)
      | None => mret tt
      end
  end.

(** The instant of a stored row as text. *)
Context (secs_to_rfc3339 : Z -> string).

Definition lookup_cached (key : IdempotencyKey) : pipe (option CachedResult) :=
  durable ← asks durable_store;
  match durable with
  | Some db =>
      fails ← read db_fails;
      lift (map_err (fun e => StorageError (Within "Idempotency lookup: " (OfDurable e)))
              (get_idempotent secs_to_rfc3339 fails db (to_durable_key key)))
  | None => s ← asks idempotency_store; mret (idem_get s key)
  end.

Definition replay_result (cached : CachedResult) (now : string) : PipelineResult :=
  let d := cached_decision cached in
  let decision := if eq_ignore_ascii_case d "allow" || str_contains "Allow" d then Allow else DenyD in
  let receipt := default (receipt_new now "" "" "" "") (receipt_from_json (response_json cached)) in
  mkPipelineResult (mkPipelineReceipt (cid_new_unchecked (Idempotency.receipt_cid cached)) "ubl/wf" (response_json cached))
    (cached_chain cached) decision receipt true.

(** The two replay guards of a fresh nonce. *)
Definition guard_nonce (nonce : string) : pipe unit :=
  seen ← asks nonces;
  if bool_decide (nonce ∈ seen) then throw (InvalidChip (Text "replay: duplicate nonce (in-memory)"))
  else
    _ ← modify (add_nonce nonce);
    durable ← asks durable_store;
    match durable with
    | None => mret tt
    | Some db =>
        reading ← read (fun n => (now_secs n, db_fails n));
        match nonce_mark_if_new reading.2 db reading.1 nonce (24 * 60 * 60) with
        | (r, db') =>
            _ ← modify (set_durable db');
            is_new ← lift (map_err (fun e => StorageError (Within "nonce persist: " (OfDurable e))) r);
            if (is_new : bool) then mret tt else throw (InvalidChip (Text "replay: nonce already seen (durable)"))
        end
    end.

(** ** Advisories *)

Definition advisory_metadata (version : string) : ExecutionMetadata :=
  mkMeta version 0 0 [] (did_new_unchecked "did:key:advisory") false.

(** A spawned task for the advisory, when there are an engine and a store. *)
Definition spawn_advisory (make : AdvisoryEngine -> Advisory) (version : string) : pipe unit :=
  engine ← asks advisory_engine;
  store ← asks chip_store;
  match engine, store with
  | Some engine, Some _ =>
      let '(body, engine') := advisory_to_chip_body engine (make engine) in
      _ ← modify (set_engine engine');
      modify (add_task (mkTask body (advisory_metadata version)))
  | _, _ => mret tt
  end.

(** What a spawned task does when it runs: a failure is only logged. *)
Definition run_task (task : AdvisoryTask) : pipe unit :=
  _ ← store_chip (task_body task) "self" (task_metadata task); mret tt.

(** The runtime picks any of the pending tasks and runs it: here the one at
    place [i] of the queue, and a schedule of such picks. *)
Definition run_pending (i : nat) : pipe unit :=
  tasks ← asks spawned;
  match tasks !! i with
  | Some task => _ ← modify (set_tasks (delete i tasks)); run_task task
  | None => mret tt
  end.
Fixpoint run_schedule (schedule : list nat) : pipe unit :=
  match schedule with
  | [] => mret tt
  | i :: rest => _ ← run_pending i; run_schedule rest
  end.

(** ** WA and CHECK of a fresh request *)

(** What the stages of one request share: the world, the authors and the key
    under which the result is kept. *)
Record Run : Type := mkRun { run_world : string; run_subject : string; run_knock : string; run_key : IdempotencyKey }.

Definition new_receipt (world nonce subject knock : string) : pipe UnifiedReceipt :=
  now ← read now_text;
  mret (with_knock_cid (with_subject_did (with_runtime_info (receipt_new now world (pl_did p) (pl_kid p) nonce)
                                            (pl_runtime_info p)) (Some subject)) (Some knock)).

Definition run_publish (run : Run) (receipt : PipelineReceipt) (stage : string) (decision : option string) (ms : Z)
    (input : option string) : pipe unit :=
  publish receipt stage decision ms (run_world run) input (run_subject run) (run_knock run).

Definition wa_step (run : Run) (request : ParsedChipRequest) (receipt : UnifiedReceipt) : pipe (PipelineReceipt * UnifiedReceipt) :=
  wa ← stage_write_ahead request;
  wa_ms ← read elapsed_ms;
  stage ← stage_record WriteAhead (body_cid_str wa) (Some (body_cid_str wa)) None [] None None wa_ms;
  receipt ← append_stage_receipt "Receipt WA: " receipt stage;
  _ ← run_publish run wa "wa" None wa_ms None;
  mret (wa, receipt).

Definition check_word (d : Decision) : string := match d with DenyD => "deny" | _ => "allow" end.

Definition check_step (request : ParsedChipRequest) (wa : PipelineReceipt) (receipt : UnifiedReceipt)
    : pipe (CheckResult * UnifiedReceipt) :=
  check ← stage_check p request;
  check_ms ← read elapsed_ms;
  stage ← stage_record Check (body_cid_str wa) None None (ck_trace check) None None check_ms;
  receipt ← append_stage_receipt "Receipt CHECK: " receipt stage;
  _ ← spawn_advisory (fun e => post_check_advisory e (body_cid_str wa) (check_word (ck_decision check)) (ck_reason check)
                                 (length (ck_trace check))) "advisory/post-check";
  mret (check, receipt).

(** ** A denied chip *)

Definition finish_denied (run : Run) (wa : PipelineReceipt) (check : CheckResult) (receipt : UnifiedReceipt)
    : pipe PipelineResult :=
  secrets ← asks stage_secrets;
  let receipt := deny_with_secrets receipt (ck_reason check) (Some (sec_current secrets)) in
  deny_ms ← read elapsed_ms;
  wf ← lift (create_deny_receipt wa check deny_ms);
  stage ← stage_record WriteFinished (body_cid_str wa) (Some (body_cid_str wf)) None (ck_trace check) None None deny_ms;
  receipt ← append_stage_receipt "Receipt WF(DENY): " receipt stage;
  receipt ← finalize "WF(DENY) sign failed: " receipt;
  _ ← run_publish run wf "wf" (Some "deny") deny_ms (Some (body_cid_str wa));
  let result := mkPipelineResult wf [body_cid_str wa; "no-tr"; body_cid_str wf] DenyD receipt false in
  _ ← persist_final_result (Some (run_key run)) (run_world run) result;
  mret result.

(** ** An allowed chip *)

Definition tr_step (run : Run) (request : ParsedChipRequest) (wa : PipelineReceipt) (check : CheckResult)
    (receipt : UnifiedReceipt) : pipe (PipelineReceipt * UnifiedReceipt) :=
  tr ← stage_transition p request check;
  tr_ms ← read elapsed_ms;
  let fuel : option Z := (get "vm_state" (pr_body tr) ≫= get "fuel_used") ≫= as_u64 in
  stage ← stage_record Transition (body_cid_str wa) (Some (body_cid_str tr)) fuel [] (get "vm_sig" (pr_body tr) ≫= as_str)
            (get "vm_sig_payload_cid" (pr_body tr) ≫= as_str) tr_ms;
  receipt ← append_stage_receipt "Receipt TR: " receipt stage;
  _ ← run_publish run tr "tr" None tr_ms (Some (body_cid_str wa));
  mret (tr, receipt).

(** WF up to the event: its receipt, the final receipt and the total time. *)
Definition wf_step (run : Run) (request : ParsedChipRequest) (wa tr : PipelineReceipt) (check : CheckResult)
    (receipt : UnifiedReceipt) : pipe (PipelineReceipt * UnifiedReceipt * Z) :=
  before_wf ← read elapsed_ms;
  wf ← lift (stage_write_finished request wa tr check before_wf);
  wf_ms ← read elapsed_ms;
  stage ← stage_record WriteFinished (body_cid_str tr) (Some (body_cid_str wf)) None [] None None wf_ms;
  receipt ← append_stage_receipt "Receipt WF: " receipt stage;
  receipt ← finalize "WF finalize/sign failed: " receipt;
  total_ms ← read elapsed_ms;
  _ ← run_publish run wf "wf" (Some "allow") total_ms (Some (body_cid_str tr));
  mret (wf, receipt, total_ms).

Definition run_metadata (version : string) (check : CheckResult) (total_ms : Z) : ExecutionMetadata :=
  mkMeta version total_ms (pl_fuel_limit p) (te_policy_id <$> ck_trace check) (did_new_unchecked (pl_did p)) true.

(** The new stage secret, in the state and then in the database. *)
Definition rotate_stage_secret (new_sk : bytes) : pipe unit :=
  let new_secret_env := "hex:" +:+ hex_encode (derive_stage_secret new_sk) in
  secrets ← asks stage_secrets;
  let prev := Some (sec_current secrets) in
  _ ← modify (PipelineTypes.set_stage_secrets (mkSecrets new_secret_env prev));
  durable ← asks durable_store;
  match durable with
  | None => mret tt
  | Some db =>
      reading ← read (fun n => (now_secs n, db_fails n));
      match put_stage_secrets reading.2 db reading.1 new_secret_env prev with
      | (r, db') =>
          _ ← modify (set_durable db');
          lift (map_err (fun e => StorageError (Within "stage secret persist: " (OfDurable e))) r)
      end
  end.

(** What a stored rotation chip entails: the mapping chip and the new secret. *)
Definition finish_rotation (run : Run) (request : ParsedChipRequest) (check : CheckResult) (unified : string) (total_ms : Z)
    (rotation_chip_cid : string) : pipe unit :=
  let body := p_body request in
  rotate_req ← lift (map_err (fun e => InvalidChip (Within "Key rotation: " (OfRotation e))) (rotate_parse body));
  material ← lift (map_err (fun e => Internal (Within "Key rotation: " (OfRotation e)))
                     (derive_material (pl_strict_did p) rotate_req body (pl_signing_key p)));
  now ← read now_text;
  let mapping := mapping_chip (run_world run) rotation_chip_cid unified (rot_reason rotate_req) material now in
  stored ← store_chip mapping unified (run_metadata "key_rotation/0.1" check total_ms);
  _ ← lift (map_err (fun e => StorageError (Within "key.rotate mapping store: " (OfStore e))) stored);
  new_sk ← lift (map_err (fun e => Internal (Within "key rotation new key: " (OfRotation e)))
                   (derive_new_signing_key body (pl_signing_key p)));
  rotate_stage_secret new_sk.

(** Storing the executed chip: fail-closed for a rotation, best effort else. *)
Definition store_executed (run : Run) (request : ParsedChipRequest) (check : CheckResult) (unified : string) (total_ms : Z)
    : pipe unit :=
  let rotates := String.eqb (p_chip_type request) "ubl/key.rotate" in
  store ← asks chip_store;
  match store with
  | Some _ =>
      stored ← store_chip (p_body request) unified (run_metadata "ubl_vm/0.1" check total_ms);
      if rotates then
        rotation_chip_cid ← lift (map_err (fun e => StorageError (Within "key.rotate store: " (OfStore e))) stored);
        finish_rotation run request check unified total_ms rotation_chip_cid
      else mret tt
  | None =>
      if rotates then throw (StorageError (Text "ubl/key.rotate requires ChipStore persistence")) else mret tt
  end.

(** The ledger's failures are only logged. *)
Definition append_ledger (run : Run) (wf : PipelineReceipt) (unified : string) : pipe unit :=
  now ← read now_text;
  let '(app, tenant) := default ("unknown", "unknown") (parse_world (run_world run)) in
  modify (fun s => set_ledger (ledger_append (mkEntry now ReceiptCreated app tenant (body_cid_str wf) unified "Allow"
                                                (Some (pl_did p)) (Some (pl_kid p))) (ledger s)).1 s).

Definition finish_allowed (run : Run) (request : ParsedChipRequest) (wa : PipelineReceipt) (check : CheckResult)
    (receipt : UnifiedReceipt) : pipe PipelineResult :=
  trr ← tr_step run request wa check receipt;
  let '(tr, receipt) := trr in
  wfr ← wf_step run request wa tr check receipt;
  let '(wf, receipt, total_ms) := wfr in
  let unified := cid_as_str (Receipt.receipt_cid receipt) in
  _ ← store_executed run request check unified total_ms;
  _ ← append_ledger run wf unified;
  _ ← spawn_advisory (fun e => post_wf_advisory e (body_cid_str wf) (p_chip_type request) "allow" total_ms) "advisory/post-wf";
  let result := mkPipelineResult wf [body_cid_str wa; body_cid_str tr; body_cid_str wf] (ck_decision check) receipt false in
  _ ← persist_final_result (Some (run_key run)) (run_world run) result;
  mret result.

(** ** The whole pipeline *)

(** A request that is not a replay. *)
Definition run_pipeline (request : ParsedChipRequest) (ctx : AuthorshipContext) (key : IdempotencyKey) : pipe PipelineResult :=
  nonce ← generate_nonce;
  let body := p_body request in
  let run := mkRun (p_world request) (default (resolve_subject_did (Some body) None) (subject_did_hint ctx))
               (default (knock_cid_from_value body) (ctx_knock_cid ctx)) key in
  _ ← guard_nonce nonce;
  receipt ← new_receipt (run_world run) nonce (run_subject run) (run_knock run);
  war ← wa_step run request receipt;
  let '(wa, receipt) := war in
  checked ← check_step request wa receipt;
  let '(check, receipt) := checked in
  match ck_decision check with
  | DenyD => finish_denied run wa check receipt
  | _ => finish_allowed run request wa check receipt
  end.

Definition process_chip_with_context (request : ChipRequest) (ctx : AuthorshipContext) : pipe PipelineResult :=
  parsed ← lift (parse_chip_request request);
  key ← lift (ok_or (key_from_chip_body (p_body parsed))
                (InvalidChip (Text "missing strict idempotency anchors: @type, @ver, @world, @id")));
  cached ← lookup_cached key;
  match cached with
  | Some cached => now ← read now_text; mret (replay_result cached now)
  | None => run_pipeline parsed ctx key
  end.

Definition process_chip (request : ChipRequest) : pipe PipelineResult := process_chip_with_context request no_authorship.

Definition process_raw (bs : bytes) : pipe PipelineResult :=
  let config := pl_config p in
  value ← lift (map_err (fun e => KnockRejected (OfKnock e))
                  (knock_with_options bs (require_unc1_numeric config) (f64_import_mode config)));
  process_chip_with_context
    (mkRequest (default "" (get "@type" value ≫= as_str)) value [] (Some "create"))
    (mkAuthorship (Some (resolve_subject_did (Some value) None)) (Some (knock_cid_from_bytes bs))).

(** ** Rejected envelopes *)

Definition process_knock_rejection (knock reason_code reason : string) (subject_did_hint : option string)
    : pipe PipelineResult :=
  let world := "ubl/system" in
  nonce ← generate_nonce;
  receipt ← new_receipt world nonce (default (resolve_subject_did None None) subject_did_hint) knock;
  let receipt := set_type receipt "ubl/knock.deny.v1" in
  stage ← stage_record Knock knock (Some knock) None [] None None 0;
  receipt ← append_stage_receipt "Receipt KNOCK(DENY): " receipt stage;
  let effects := effects_insert "knock_cid" (JString knock)
                   (effects_insert "reason_code" (JString reason_code) (effects receipt)) in
  let receipt := set_decision receipt (decision receipt) effects in
  secrets ← asks stage_secrets;
  let receipt := deny_with_secrets receipt reason (Some (sec_current secrets)) in
  stage ← stage_record WriteFinished knock None None [] None None 0;
  receipt ← append_stage_receipt "Receipt WF(KNOCK_DENY): " receipt stage;
  receipt ← finalize "WF(KNOCK_DENY) sign failed: " receipt;
  now ← read now_text;
  _ ← modify (fun s => set_bus (publish_stage_event (event_of_receipt receipt now) (event_bus s)) s);
  let cid := cid_as_str (Receipt.receipt_cid receipt) in
  let result := mkPipelineResult (mkPipelineReceipt (cid_new_unchecked cid) "ubl/wf" (receipt_to_json receipt))
                  [knock; "no-tr"; cid] DenyD receipt false in
  _ ← persist_final_result None world result;
  mret result.

(** ** Start-up *)

Definition genesis_metadata : ExecutionMetadata :=
  mkMeta "genesis/self-signed" 0 0 [] (did_new_unchecked "did:key:genesis") true.

Definition bootstrap_genesis : pipe string :=
  store ← asks chip_store;
  match store with
  | None => mret genesis_chip_cid
  | Some st =>
      already ← lift (map_err (fun e => Internal (Within "Genesis check: " (OfStore e)))
                        (exists_chip genesis_chip_cid (backend st)));
      if (already : bool) then mret genesis_chip_cid
      else
        stored ← store_chip create_genesis_chip_body genesis_chip_cid genesis_metadata;
        _ ← lift (map_err (fun e => Internal (Within "Genesis store: " (OfStore e))) stored);
        mret genesis_chip_cid
  end.
End Pipeline.

(** [load_or_generate_key]; [fresh]: what the generator gives. *)
Definition load_or_generate_key `{HexDecode} (env : Environment) (fresh : bytes) : bytes :=
  match signing_key_from_env env with Ok key => key | Err _ => fresh end.

Definition DEFAULT_FUEL_LIMIT : Z := 1000000.

(** [with_chip_store_and_config], and [with_config] when there is no store: the
    fixed part of the pipeline, with the fuels of the model chosen by the caller. *)
Definition pipeline_new `{Base58} `{HexDecode} `{Blake3Keyed} `{Ed25519} `{Ed25519Keys} (strict : bool) (env : Environment)
    (fresh : bytes) (rt : RuntimeInfo) (storage : PolicyStorage) (fails : stmt -> bool) (config : PipelineConfig)
    (resolve_fuel ancestry_fuel : nat) : UblPipeline :=
  let key := load_or_generate_key env fresh in
  let vk := sk_verifying_key key in
  let config := ensure_stage_secret_config (apply_persisted_stage_secrets fails config) key in
  mkPipeline DEFAULT_FUEL_LIMIT (did_from_verifying_key strict vk) (kid_from_verifying_key strict vk) key rt
    (cfg_registry config) config env storage strict resolve_fuel ancestry_fuel.

Definition state_new {B L D : Type} (p : UblPipeline) (store : option (ChipStore.ChipStore B)) (null : L) (d : D)
    : PState B L D :=
  let c := pl_config p in
  mkState store None idem_new (cfg_durable_store c) (mkSecrets (stage_secret_current c) (stage_secret_prev c)) ∅ bus_new
    null d [] 0.
