(* ===== verification/PipelineFacts.v ===== *)
(** * Facts on the pipeline

    What a finished run means: its stages, chain, receipt and decision; what a
    denied chip leaves behind; replays; rotations; rejected envelopes. *)

From S2P Require Import Prelude RustStd RustStr Json Nrf NrfFacts BigNum Unc1 Tlv Rho Vm Gate Canon Types Silicon Idempotency.
From S2P Require Import Durable DurableFacts Policy Receipt ReceiptFacts Knock ChipStore ChipStoreFacts Capability Auth PolicyLoader Envelope.
From S2P Require Import KeyRotation AuditChip TrRegistry EventBus Ledger Advisory PipelineTypes Check CheckFacts Compaction.
From S2P Require Import Wasm Adapter Transition Pipeline.
Local Open Scope string_scope.
Local Open Scope Z_scope.
Local Open Scope list_scope.

(** ** Receipts *)

Section Receipts.
Context {U : Unicode} {HB3 : Blake3} {KB3 : Blake3Keyed} {HX : HexDecode}
  {ED : Ed25519} {EK : Ed25519Keys} {B64 : Base64} {B64D : Base64Decode} {B58 : Base58}.

(** What a receipt says of a stage, apart from its token. *)
Definition stage_shape (s : StageExecution) : PipelineStage * string * option string :=
  (stage s, Receipt.input_cid s, output_cid s).

Lemma append_ok r cur prev s r' :
  append_stage_with_secrets r cur prev s = (r', Ok tt) ->
  exists ck pk c, key_from_secret_str cur = Ok ck /\ optional_key prev = Ok pk /\
    r' = at_stages r (stages r ++ [stamped ck r s]) c /\ chain_valid ck pk r'.
Proof.
  intros H. destruct (key_from_secret_str cur) as [ck|e] eqn:Ek; [|unfold append_stage_with_secrets in H; by rewrite Ek in H].
  destruct (optional_key prev) as [pk|e] eqn:Ep.
  - rewrite (append_unfold _ _ _ _ _ _ Ek Ep) in H. destruct (prefix_cid r _) as [c|e]; [|done]. cbv zeta in H.
    destruct (verify_auth_chain_with_keys _ ck pk) as [[]|] eqn:Ev; [|done..]. injection H as <-.
    exists ck, pk, c. split_and!; try done. by apply verify_chain_spec.
  - unfold append_stage_with_secrets in H. rewrite Ek, Ep in H. by destruct (recompute_cid _) as [? []].
Qed.

Lemma rebuild_shape ck todo : forall sh rb,
  rebuild_loop ck sh todo = Some rb -> stage_shape <$> rb = stage_shape <$> todo.
Proof.
  induction todo as [|s todo IH]; intros sh rb; cbn [rebuild_loop]; [by intros [= <-]|].
  destruct (recompute_cid _) as [sh' [[]|e]]; [|done]. destruct (rebuild_loop ck sh' todo) eqn:E; [|done].
  intros [= <-]. cbn. by rewrite (IH _ _ E).
Qed.

Lemma recompute_fields r : let r' := fst (recompute_cid r) in
  stages r' = stages r /\ decision r' = decision r /\ did r' = did r /\ effects r' = effects r /\ receipt_type r' = receipt_type r.
Proof. unfold recompute_cid. by destruct (cid_of _). Qed.

(** A denial keeps what the stages say. *)
Lemma deny_shape r reason secret : let d := deny_with_secrets r reason secret in
  decision d = DenyD /\ stage_shape <$> stages d = stage_shape <$> stages r /\ did d = did r /\ receipt_type d = receipt_type r.
Proof.
  intros d. subst d. unfold deny_with_secrets. set (r1 := set_decision _ _ _).
  assert (exists l, rebuild_auth_chain_with_current_key r1 secret = set_stages r1 l /\ stage_shape <$> l = stage_shape <$> stages r)
    as (l & -> & Hl).
  { unfold rebuild_auth_chain_with_current_key. assert (r1 = set_stages r1 (stages r)) as Hid by done.
    destruct secret as [sec|]; [|by eexists]. destruct (key_from_secret_str sec) as [ck|]; [|by eexists].
    destruct (stages r1) as [|x l] eqn:El; [by eexists|]. destruct (rebuild_loop _ _ _) as [rb|] eqn:Eb; [|by eexists].
    exists rb. split; [done|]. rewrite <- El in Eb. by apply rebuild_shape in Eb. }
  destruct (recompute_fields (set_stages r1 l)) as (H1 & H2 & H3 & H4 & H5). cbv zeta in *.
  cbn [set_ids decision stages did receipt_type]. rewrite H1, H2, H3, H5. by split_and!.
Qed.

(** The secrets under which a receipt's chain is checked. *)
Definition verifies (secrets : StageSecrets) (r : UnifiedReceipt) : Prop :=
  verify_auth_chain_with_secrets r (sec_current secrets) (sec_prev secrets) = true.

Lemma chain_valid_sig ck pk r x : chain_valid ck pk (set_sig r x) <-> chain_valid ck pk r.
Proof.
  assert (forall l, prefix_cid (set_sig r x) l = prefix_cid r l) as H by by intros [].
  unfold chain_valid. cbn [stages set_sig set_ids Receipt.receipt_cid]. rewrite H. by setoid_rewrite H.
Qed.

Lemma append_verifies r sec s r' x :
  append_stage_with_secrets r (sec_current sec) (sec_prev sec) s = (r', Ok tt) ->
  verifies sec (set_sig r' x) /\ stage_shape <$> stages r' = (stage_shape <$> stages r) ++ [stage_shape s] /\
  decision r' = decision r /\ did r' = did r /\ receipt_type r' = receipt_type r /\ effects r' = effects r /\ rt r' = rt r.
Proof.
  intros (ck & pk & c & Hk & Hp & -> & Hv)%append_ok. split; [|cbn [at_stages set_ids set_stages stages]; by rewrite fmap_app].
  unfold verifies, verify_auth_chain_with_secrets. rewrite Hk, Hp.
  apply (chain_valid_sig _ _ _ x) in Hv. by rewrite (proj2 (verify_chain_spec _ _ _) Hv).
Qed.
End Receipts.


(** ** Frames of the stages *)

Section Facts.
Context {U : Unicode} {CH : Chrono} {HB3 : Blake3} {KB3 : Blake3Keyed} {ED : Ed25519} {EK : Ed25519Keys} {B64 : Base64}
  {B64D : Base64Decode} {B58 : Base58} {NS : NumSerde} {CK : Clock} {SJ : SerdeJson} {BN : BigNum} {SC : StrCase}
  {SU : StrUpper} {SD : StrDebug} {CI : ChronoInstant} {CF : ChronoFormat} {CD : ChronoDate} {HI : HashIter} {BT : BigintText}
  {HX : HexDecode} {B64S : Base64Std} {SH : Sha256} {W : Wasmtime} {PS : PolicySerde} {RS : ReceiptSerde} {R : Readings}.
Context {B L : Type} {BE : ChipStoreBackend B} {LW : LedgerWriter L}.
Context (p : UblPipeline) (rfc3339 : Z -> string).
Abbreviation State := (PState B L Fs).
Abbreviation pipe := (M State PipelineError).
Implicit Types (s : State) (request : ParsedChipRequest) (run : Run).

(** All that the TR stage cannot change: it stores artifacts and compacts. *)
Definition has_store s : bool := match chip_store s with Some _ => true | None => false end.
Definition off_store s :=
  (advisory_engine s, idempotency_store s, durable_store s, stage_secrets s, nonces s, event_bus s, ledger s, spawned s,
   has_store s).

Lemma store_chip_off data receipt meta : preserves off_store (store_chip data receipt meta : pipe _).
Proof.
  intros s. unfold store_chip, mbind, M_bind, read, asks. cbn [chip_store next_tick].
  destruct (chip_store s) as [st|] eqn:Es; [|done]. destruct (store_executed_chip st data receipt meta _).
  unfold off_store, has_store. cbn. by rewrite Es.
Qed.

Lemma on_disk_off {A} (m : M Fs PipelineError A) : preserves off_store (on_disk m : pipe A).
Proof. intros s. unfold on_disk. by destruct (m (disk s)). Qed.

Lemma artifact_off payload fuel trace version : preserves off_store (store_audit_artifact p payload fuel trace version : pipe string).
Proof. unfold store_audit_artifact. preserves_with ltac:(apply store_chip_off). Qed.

Lemma adapter_off info nrf cid : preserves off_store (execute_wasm_adapter p info nrf cid : pipe AdapterExecutionOutcome).
Proof. unfold execute_wasm_adapter. preserves_tac. Qed.

Lemma audit_off request cid fuel trace :
  preserves off_store (audit_transition p request cid fuel trace : pipe (option AuditTransitionOutcome)).
Proof.
  unfold audit_transition, execute_audit_report_transition, execute_audit_snapshot_transition,
    execute_ledger_compact_transition, execute_audit_advisory_transition, percentile.
  preserves_with ltac:(first [apply store_chip_off|apply artifact_off|apply on_disk_off]).
Qed.

Lemma transition_off request check : preserves off_store (stage_transition p request check : pipe PipelineReceipt).
Proof.
  unfold stage_transition, rotation_material, execute_silicon_compile_transition.
  preserves_with ltac:(first [apply artifact_off|apply adapter_off|apply audit_off]).
Qed.

(** What only an allowed chip changes. *)
Definition durable_part s := (chip_store s, ledger s, disk s, stage_secrets s).

Lemma publish_keeps {X} (f : State -> X) r st d ms w i sub k :
  (forall s, f (next_tick s) = f s) -> (forall b s, f (set_bus b s) = f s) ->
  preserves f (publish p r st d ms w i sub k : pipe unit).
Proof.
  intros H1 H2. unfold publish. apply preserves_bind; [by apply preserves_read|]. intros now. apply preserves_modify. intros s.
  apply H2.
Qed.

Lemma persist_keeps {X} (f : State -> X) key world r :
  (forall s, f (next_tick s) = f s) -> (forall d s, f (set_durable d s) = f s) -> (forall i s, f (set_idempotency i s) = f s) ->
  preserves f (persist_final_result p key world r : pipe unit).
Proof.
  intros H1 H2 H3. unfold persist_final_result.
  repeat first [ apply preserves_bind; [|intros ?] | apply preserves_read; done | apply preserves_modify; intros; (apply H2 || apply H3)
               | apply preserves_asks | apply preserves_ret | apply preserves_throw | case_match ].
Qed.

Lemma wa_step_keeps run request r : preserves durable_part (wa_step p run request r : pipe (PipelineReceipt * UnifiedReceipt)).
Proof.
  unfold wa_step, stage_write_ahead, generate_nonce, stage_record, append_stage_receipt, run_publish.
  preserves_tac; by apply publish_keeps.
Qed.

Lemma forget_durable s1 s2 : forget s1 = forget s2 -> durable_part s1 = durable_part s2.
Proof. destruct s1, s2. unfold forget, durable_part. cbn. congruence. Qed.

Lemma check_step_keeps request wa r : preserves durable_part (check_step p request wa r : pipe (CheckResult * UnifiedReceipt)).
Proof.
  unfold check_step. apply preserves_bind.
  - apply quiet_preserves; [apply forget_durable|apply check_quiet].
  - intros check. unfold stage_record, append_stage_receipt, spawn_advisory. preserves_tac.
Qed.

(** The queue of spawned tasks, with what decides on a new one. *)
Definition queue_part s := (advisory_engine s, chip_store s, spawned s).
Lemma forget_queue s1 s2 : forget s1 = forget s2 -> queue_part s1 = queue_part s2.
Proof. destruct s1, s2. unfold forget, queue_part. cbn. congruence. Qed.
Lemma wa_step_queue run request r : preserves queue_part (wa_step p run request r : pipe (PipelineReceipt * UnifiedReceipt)).
Proof.
  unfold wa_step, stage_write_ahead, generate_nonce, stage_record, append_stage_receipt, run_publish.
  preserves_tac; by apply publish_keeps.
Qed.
Lemma guard_nonce_queue nonce : preserves queue_part (guard_nonce nonce : pipe unit).
Proof. unfold guard_nonce. preserves_tac. Qed.
Lemma finish_denied_queue run wa check r : preserves queue_part (finish_denied p run wa check r : pipe PipelineResult).
Proof.
  unfold finish_denied, stage_record, append_stage_receipt, finalize, run_publish.
  repeat first [by apply publish_keeps|by apply persist_keeps|progress preserves_tac].
Qed.

Lemma guard_nonce_keeps nonce : preserves durable_part (guard_nonce nonce : pipe unit).
Proof. unfold guard_nonce. preserves_tac. Qed.

Lemma finish_denied_keeps run wa check r : preserves durable_part (finish_denied p run wa check r : pipe PipelineResult).
Proof.
  unfold finish_denied, stage_record, append_stage_receipt, finalize, run_publish.
  repeat first [by apply publish_keeps|by apply persist_keeps|progress preserves_tac].
Qed.

(** ** What the steps produce *)

(** [r'] is [r] with one more stage of this shape, made under the secrets of [s]. *)
Definition extends s (r r' : UnifiedReceipt) (shape : PipelineStage * string * option string) : Prop :=
  exists st, append_stage_with_secrets r (sec_current (stage_secrets s)) (sec_prev (stage_secrets s)) st = (r', Ok tt) /\
    stage_shape st = shape.

Lemma extends_secrets s1 s2 r r' shape : durable_part s1 = durable_part s2 -> extends s1 r r' shape -> extends s2 r r' shape.
Proof. unfold extends. by intros [= _ _ _ ->]. Qed.

Lemma append_receipt_ok what r st s s' r' :
  append_stage_receipt (B := B) (L := L) what r st s = (s', Ok r') -> s' = s /\ extends s r r' (stage_shape st).
Proof.
  intros (s1 & sec & [= <- <-] & H)%M_bind_ok.
  destruct (append_stage_with_secrets r _ _ st) as [r1 [[]|e]] eqn:E; [|done]. injection H as <- <-. unfold extends. eauto.
Qed.

Lemma finalize_ok what r s s' r' : finalize (B := B) (L := L) p what r s = (s', Ok r') ->
  s' = s /\ finalize_and_sign (pl_env p) r (pl_signing_key p) (cfg_crypto_mode (pl_config p)) = (r', Ok tt).
Proof. unfold finalize. destruct (finalize_and_sign _ _ _ _) as [r1 [[]|e]]; [|done]. by intros [= <- <-]. Qed.

(** A recorded stage, appended. *)
Lemma record_append_ok stage i o fuel trace sig payload ms what r s s' r' :
  (st ← stage_record (B := B) (L := L) stage i o fuel trace sig payload ms; append_stage_receipt what r st) s = (s', Ok r') ->
  forget s' = forget s /\ extends s r r' (stage, i, o).
Proof. intros (s1 & st & H & [-> ?]%append_receipt_ok)%M_bind_ok. injection H as <- <-. done. Qed.

Lemma write_ahead_keeps request : preserves durable_part (stage_write_ahead p request : pipe PipelineReceipt).
Proof. unfold stage_write_ahead, generate_nonce. preserves_tac. Qed.

Lemma wa_step_ok run request r s s' wa r' :
  wa_step p run request r s = (s', Ok (wa, r')) -> extends s r r' (WriteAhead, body_cid_str wa, Some (body_cid_str wa)).
Proof.
  intros (s1 & w & Hw & (s2 & ms & [= <- <-] & (s3 & st & [= <- <-] & (s4 & r1 & [-> Hr]%append_receipt_ok & H)%M_bind_ok)%M_bind_ok)%M_bind_ok)%M_bind_ok.
  apply (preserves_run durable_part _ _ _ _ (write_ahead_keeps request)) in Hw.
  apply M_bind_ok in H as (s5 & [] & _ & [= _ <- <-]). by eapply extends_secrets; [|exact Hr].
Qed.

Lemma check_step_ok request wa r s s' check r' :
  check_step p request wa r s = (s', Ok (check, r')) ->
  (exists s1, stage_check p request s = (s1, Ok check)) /\ extends s r r' (Check, body_cid_str wa, None).
Proof.
  intros (s1 & c & Hc & (s2 & ms & [= <- <-] & (s3 & st & [= <- <-] & (s4 & r1 & [-> Hr]%append_receipt_ok & H)%M_bind_ok)%M_bind_ok)%M_bind_ok)%M_bind_ok.
  apply M_bind_ok in H as (s5 & [] & _ & [= _ <- <-]). split; [eauto|].
  apply (preserves_run forget _ _ _ _ (check_quiet p request)) in Hc.
  eapply extends_secrets; [|exact Hr]. by apply forget_durable in Hc.
Qed.

(** *** Spawned tasks *)

(** The tasks that CHECK spawns for this decision on the chip [wa]: where there
    are an engine and a chip store, the one that stores the engine's advisory on
    it. *)
Definition check_tasks s (wa : string) (decision : string) (tasks : list AdvisoryTask) : Prop :=
  match advisory_engine s, chip_store s with
  | Some engine, Some _ => exists reason policies,
      tasks = [mkTask (advisory_to_chip_body engine (post_check_advisory engine wa decision reason policies)).1
                 (advisory_metadata "advisory/post-check")]
  | _, _ => tasks = []
  end.
Lemma check_tasks_same s1 s2 wa d tasks : queue_part s1 = queue_part s2 -> check_tasks s1 wa d tasks -> check_tasks s2 wa d tasks.
Proof. unfold check_tasks. by intros [= -> -> _]. Qed.

Lemma check_step_spawns request wa r s s' check r' :
  check_step p request wa r s = (s', Ok (check, r')) ->
  exists tasks, check_tasks s (body_cid_str wa) (check_word (ck_decision check)) tasks /\ spawned s' = spawned s ++ tasks.
Proof.
  intros (s1 & c & Hc & (s2 & ms & [= <- <-] & (s3 & st & [= <- <-] & (s4 & r1 & [-> _]%append_receipt_ok & H)%M_bind_ok)%M_bind_ok)%M_bind_ok)%M_bind_ok.
  apply M_bind_ok in H as (s5 & [] & H & [= <- <- <-]).
  apply (preserves_run queue_part _ _ _ _ (quiet_preserves _ _ forget_queue (check_quiet p request))) in Hc.
  assert (exists tasks, check_tasks s1 (body_cid_str wa) (check_word (ck_decision c)) tasks /\ spawned s5 = spawned s1 ++ tasks)
    as (tasks & H1 & H2).
  { unfold check_tasks, spawn_advisory, mbind, M_bind, asks in *. cbn in H.
    destruct (advisory_engine s1) as [e|]; [|injection H as <-; exists []; by rewrite app_nil_r].
    destruct (chip_store s1) as [store|]; [|injection H as <-; exists []; by rewrite app_nil_r].
    injection H as <-. eexists. split; [|reflexivity]. eauto. }
  exists tasks. split; [by eapply check_tasks_same|]. rewrite H2. by injection Hc as _ _ ->.
Qed.

(** What one task does to the store at the instant [now]. *)
Definition after_task task now (store : option (ChipStore.ChipStore B)) : option (ChipStore.ChipStore B) :=
  (fun st => (store_executed_chip st (task_body task) "self" (task_metadata task) now).1) <$> store.

(** Tasks that have run, in order: each stored its advisory, or failed to. *)
Fixpoint stored_by (ran : list AdvisoryTask) (store store' : option (ChipStore.ChipStore B)) : Prop :=
  match ran with
  | [] => store' = store
  | task :: rest => exists now, stored_by rest (after_task task now store) store'
  end.

Lemma run_task_stores task s :
  run_task task s = (set_chip_store (after_task task (now_text (tick s)) (chip_store s)) (next_tick s), Ok tt).
Proof.
  unfold run_task, store_chip, after_task, mbind, M_bind, read, asks, modify, mret, M_ret. cbn [chip_store next_tick].
  destruct s as [[st|] ????????? t]; [|reflexivity]. cbn [chip_store tick fmap option_fmap option_map].
  by destruct (store_executed_chip _ _ _ _ _).
Qed.
Lemma run_pending_picks i s :
  (spawned s !! i = None /\ run_pending i s = (s, Ok tt)) \/
  exists task, spawned s !! i = Some task /\
    run_pending i s = (set_chip_store (after_task task (now_text (tick s)) (chip_store s))
                         (next_tick (set_tasks (delete i (spawned s)) s)), Ok tt).
Proof.
  destruct (spawned s !! i) as [task|] eqn:Ei; [right; exists task; split; [done|]|left; split; [done|]];
    unfold run_pending, mbind, M_bind, asks; rewrite Ei; [|done]. by unfold modify; rewrite run_task_stores.
Qed.

(** Whatever the runtime picks, the tasks touch the chip store only, which gets
    the advisories of those that have run. *)
Lemma schedule_stores schedule s : let s' := (run_schedule schedule s).1 in
  (ledger s', disk s', stage_secrets s') = (ledger s, disk s, stage_secrets s) /\
  exists ran, ran ++ spawned s' ≡ₚ spawned s /\ stored_by ran (chip_store s) (chip_store s').
Proof.
  revert s. induction schedule as [|i rest IH]; intros s; cbn [run_schedule]; cbv zeta.
  { split; [done|]. by exists []. }
  unfold mbind, M_bind. destruct (run_pending_picks i s) as [[_ ->]|(task & Ei & ->)]; [apply IH|].
  match goal with |- context [run_schedule rest ?x] => destruct (IH x) as (H1 & ran & H2 & H3) end.
  split; [exact H1|]. exists (task :: ran). split; [|by exists (now_text (tick s))].
  cbn [app]. rewrite H2. symmetry. by apply delete_Permutation.
Qed.

(** [r'] is [r] with the signature of the pipeline's key. *)
Definition signed (r r' : UnifiedReceipt) : Prop :=
  finalize_and_sign (pl_env p) r (pl_signing_key p) (cfg_crypto_mode (pl_config p)) = (r', Ok tt).

Lemma finish_denied_ok run wa check r s s' out :
  finish_denied p run wa check r s = (s', Ok out) ->
  exists wf r1 r2, extends s (deny_with_secrets r (ck_reason check) (Some (sec_current (stage_secrets s)))) r1
      (WriteFinished, body_cid_str wa, Some (body_cid_str wf)) /\ signed r1 r2 /\
    out = mkPipelineResult wf [body_cid_str wa; "no-tr"; body_cid_str wf] DenyD r2 false /\
    exists sp, persist_final_result p (Some (run_key run)) (run_world run) out sp = (s', Ok tt).
Proof.
  intros (s1 & sec & [= <- <-] & (s2 & ms & [= <- <-] & (s3 & wf & [= <- Hwf] & (s4 & st & [= <- <-] & H)%M_bind_ok)%M_bind_ok)%M_bind_ok)%M_bind_ok.
  apply M_bind_ok in H as (s5 & r1 & [-> Hr]%append_receipt_ok & (s6 & r2 & [-> Hf]%finalize_ok & H)%M_bind_ok).
  apply M_bind_ok in H as (s7 & [] & _ & (s8 & [] & Hp & [= <- <-])%M_bind_ok). exists wf, r1, r2. eauto.
Qed.

Lemma off_secrets s1 s2 : off_store s1 = off_store s2 -> stage_secrets s1 = stage_secrets s2.
Proof. by intros [= _ _ _ ? _ _ _ _ _]. Qed.
Lemma off_has s1 s2 : off_store s1 = off_store s2 -> has_store s1 = has_store s2.
Proof. by intros [= _ _ _ _ _ _ _ _ ?]. Qed.
Lemma durable_has s1 s2 : durable_part s1 = durable_part s2 -> has_store s1 = has_store s2.
Proof. unfold has_store. by intros [= -> _ _ _]. Qed.

Lemma tr_step_ok run request wa check r s s' tr r' :
  tr_step p run request wa check r s = (s', Ok (tr, r')) ->
  (exists s1, stage_transition p request check s = (s1, Ok tr)) /\
  extends s r r' (Transition, body_cid_str wa, Some (body_cid_str tr)) /\ stage_secrets s' = stage_secrets s /\
  has_store s' = has_store s.
Proof.
  intros (s1 & t & Ht & (s2 & ms & [= <- <-] & (s3 & st & [= <- <-] & (s4 & r1 & [-> Hr]%append_receipt_ok & H)%M_bind_ok)%M_bind_ok)%M_bind_ok)%M_bind_ok.
  apply M_bind_ok in H as (s5 & [] & Hp & [= <- <- <-]). split; [eauto|].
  apply (preserves_run off_store _ _ _ _ (transition_off request check)) in Ht.
  apply (preserves_run durable_part) in Hp; [|by apply publish_keeps].
  pose proof (off_secrets _ _ Ht) as H1. assert (stage_secrets s5 = stage_secrets s1) as H2 by by injection Hp.
  apply off_has in Ht. apply durable_has in Hp.
  change (has_store (next_tick (next_tick s1))) with (has_store s1) in Hp.
  split; [|split; congruence]. unfold extends in *. cbn in Hr. by rewrite <- H1.
Qed.

Lemma wf_step_ok run request wa tr check r s s' wf r' total :
  wf_step p run request wa tr check r s = (s', Ok (wf, r', total)) ->
  exists r1, extends s r r1 (WriteFinished, body_cid_str tr, Some (body_cid_str wf)) /\ signed r1 r' /\
    durable_part s' = durable_part s.
Proof.
  intros (s1 & before & [= <- <-] & (s2 & w & [= <- Hwf] & (s3 & ms & [= <- <-] & (s4 & st & [= <- <-] & H)%M_bind_ok)%M_bind_ok)%M_bind_ok)%M_bind_ok.
  apply M_bind_ok in H as (s5 & r1 & [-> Hr]%append_receipt_ok & (s6 & r2 & [-> Hf]%finalize_ok & H)%M_bind_ok).
  apply M_bind_ok in H as (s7 & t & [= <- <-] & (s8 & [] & Hp & [= <- <- <- <-])%M_bind_ok).
  apply (preserves_run durable_part) in Hp; [|by apply publish_keeps]. by exists r1.
Qed.

(** An allowed run: the state [s2] is that before the effects of an allowed chip. *)
Lemma finish_allowed_ok run request wa check r s s' out :
  finish_allowed p run request wa check r s = (s', Ok out) ->
  exists tr wf r1 r2 r3 s1 s2 total, tr_step p run request wa check r s = (s1, Ok (tr, r1)) /\
    wf_step p run request wa tr check r1 s1 = (s2, Ok (wf, r3, total)) /\
    extends s r r1 (Transition, body_cid_str wa, Some (body_cid_str tr)) /\
    extends s r1 r2 (WriteFinished, body_cid_str tr, Some (body_cid_str wf)) /\ signed r2 r3 /\
    out = mkPipelineResult wf [body_cid_str wa; body_cid_str tr; body_cid_str wf] (ck_decision check) r3 false /\
    (_ ← store_executed p run request check (cid_as_str (Receipt.receipt_cid r3)) total;
     _ ← append_ledger p run wf (cid_as_str (Receipt.receipt_cid r3));
     _ ← spawn_advisory (fun e => post_wf_advisory e (body_cid_str wf) (p_chip_type request) "allow" total) "advisory/post-wf";
     persist_final_result p (Some (run_key run)) (run_world run) out) s2 = (s', Ok tt).
Proof.
  intros (s1 & [tr r1] & Ht & (s2 & [[wf r3] total] & Hw & H)%M_bind_ok)%M_bind_ok.
  pose proof (tr_step_ok _ _ _ _ _ _ _ _ _ Ht) as (_ & H1 & Hs & _).
  pose proof (wf_step_ok _ _ _ _ _ _ _ _ _ _ _ Hw) as (r2 & H2 & Hf & _).
  apply M_bind_ok in H as (s3 & [] & E1 & (s4 & [] & E2 & (s5 & [] & E3 & (s6 & [] & E4 & [= <- <-])%M_bind_ok)%M_bind_ok)%M_bind_ok).
  exists tr, wf, r1, r2, r3, s1, s2, total. split_and!; try done.
  - unfold extends in *. by rewrite Hs in H2.
  - apply M_bind_ok. eexists _, _. split; [exact E1|]. apply M_bind_ok. eexists _, _. split; [exact E2|].
    apply M_bind_ok. eexists _, _. by split; [exact E3|].
Qed.

(** A run up to its decision. *)
Lemma run_ok request ctx key s s' out :
  run_pipeline p request ctx key s = (s', Ok out) ->
  exists run wa check r0 r1 r2 s1, run_world run = p_world request /\ run_key run = key /\
    stages r0 = [] /\ decision r0 = Allow /\ did r0 = did_new_unchecked (pl_did p) /\ cid_as_str (Receipt.receipt_cid r0) = "" /\
    extends s r0 r1 (WriteAhead, body_cid_str wa, Some (body_cid_str wa)) /\
    extends s r1 r2 (Check, body_cid_str wa, None) /\ durable_part s1 = durable_part s /\
    (exists sc sd, stage_check p request sc = (sd, Ok check) /\ durable_part sc = durable_part s) /\
    (if is_deny (ck_decision check) then finish_denied p run wa check r2 s1 else finish_allowed p run request wa check r2 s1)
      = (s', Ok out).
Proof.
  intros (s1 & n & [= <- <-] & (s2 & [] & Hg & (s3 & r0 & Hr & (s4 & [wa r1] & Hw & (s5 & [check r2] & Hc & H)%M_bind_ok)%M_bind_ok)%M_bind_ok)%M_bind_ok)%M_bind_ok.
  apply (preserves_run durable_part _ _ _ _ (guard_nonce_keeps _)) in Hg. injection Hr as <- Hr0.
  pose proof (preserves_run durable_part _ _ _ _ (wa_step_keeps _ _ _) Hw) as Kw.
  pose proof (preserves_run durable_part _ _ _ _ (check_step_keeps _ _ _) Hc) as Kc.
  apply wa_step_ok in Hw. pose proof (check_step_ok _ _ _ _ _ _ _ Hc) as [[sd Hd] He].
  exists (mkRun (p_world request) (default (resolve_subject_did (Some (p_body request)) None) (subject_did_hint ctx))
            (default (knock_cid_from_value (p_body request)) (ctx_knock_cid ctx)) key), wa, check, r0, r1, r2, s5.
  split; [reflexivity|]. split; [reflexivity|]. subst r0. do 4 (split; [reflexivity|]).
  assert (durable_part (next_tick s2) = durable_part s) as K2 by exact Hg.
  split; [by eapply extends_secrets; [|exact Hw]|]. split; [eapply extends_secrets; [|exact He]; congruence|].
  split; [congruence|]. split; [exists s4, sd; split; [done|congruence]|]. by destruct (ck_decision check).
Qed.

(** A request that is not answered from the cache is a run. *)
Lemma fresh_run (req : ChipRequest) ctx s s' out :
  process_chip_with_context p rfc3339 req ctx s = (s', Ok out) -> replayed out = false ->
  exists parsed key s1, parse_chip_request req = Ok parsed /\ key_from_chip_body (p_body parsed) = Some key /\
    lookup_cached rfc3339 key s = (s1, Ok None) /\ forget s1 = forget s /\ run_pipeline p parsed ctx key s1 = (s', Ok out).
Proof.
  intros (s1 & parsed & [= <- Hp] & (s2 & key & [= <- Hk] & (s3 & cached & Hl & H)%M_bind_ok)%M_bind_ok)%M_bind_ok Hf.
  exists parsed, key, s3.
  assert (forget s3 = forget s) as K.
  { unfold lookup_cached in Hl. apply M_bind_ok in Hl as (s4 & d & [= <- <-] & Hl). destruct (durable_store s).
    - by apply M_bind_ok in Hl as (s5 & x & [= <- <-] & [= <- _]).
    - by apply M_bind_ok in Hl as (s5 & x & [= <- <-] & [= <- _]). }
  destruct cached as [c|]; [apply M_bind_ok in H as (s4 & now & _ & [= _ <-]); done|].
  destruct (key_from_chip_body _); [|done]. injection Hk as ->. done.
Qed.

Lemma extends_shape s r r' shape : extends s r r' shape ->
  stage_shape <$> stages r' = (stage_shape <$> stages r) ++ [shape] /\ decision r' = decision r /\ did r' = did r /\
  receipt_type r' = receipt_type r /\ forall x, verifies (stage_secrets s) (set_sig r' x).
Proof.
  intros (st & Ha & <-). destruct (append_verifies _ _ _ _ "" Ha) as (_ & H1 & H2 & H3 & H4 & _).
  split_and!; try done. intros x. by eapply append_verifies.
Qed.

Lemma signed_sig r r' : signed r r' -> exists x, r' = set_sig r x.
Proof. intros (b & _ & ->)%finalize_inv. eauto. Qed.

(** A finished run: its receipt, its stages and its commit. *)
Definition outcome s s' (key : IdempotencyKey) (out : PipelineResult) : Prop :=
  (exists r, signed r (res_receipt out) /\ did r = did_new_unchecked (pl_did p)) /\
  verifies (stage_secrets s) (res_receipt out) /\ decision (res_receipt out) = res_decision out /\
  (exists sp world, persist_final_result p (Some key) world out sp = (s', Ok tt)) /\
  exists wa, let wf := body_cid_str (final_receipt out) in
    (res_decision out = DenyD /\ res_chain out = [wa; "no-tr"; wf] /\ durable_part s' = durable_part s /\
     stage_shape <$> stages (res_receipt out) =
       [(WriteAhead, wa, Some wa); (Check, wa, None); (WriteFinished, wa, Some wf)]) \/
    exists tr, res_decision out = Allow /\ res_chain out = [wa; tr; wf] /\
     stage_shape <$> stages (res_receipt out) =
       [(WriteAhead, wa, Some wa); (Check, wa, None); (Transition, wa, Some tr); (WriteFinished, tr, Some wf)].

Lemma run_outcome request ctx key s s' out : run_pipeline p request ctx key s = (s', Ok out) -> outcome s s' key out.
Proof.
  intros Hr. apply run_ok in Hr
    as (run & wa & check & r0 & r1 & r2 & s2 & _ & <- & R0 & D0 & I0 & _ & E1 & E2 & K2 & (sc & sd & Hc & _) & Hr).
  apply extends_shape in E1 as (S1 & D1 & I1 & _), E2 as (S2 & D2 & I2 & _). rewrite S1, R0 in S2.
  assert (stage_secrets s2 = stage_secrets s) as Hs by by injection K2. unfold outcome.
  destruct (ck_decision check) eqn:Ed; cbn [is_deny] in Hr; [| |by apply check_no_require in Hc].
  - apply finish_allowed_ok in Hr as (tr & wf & r3 & r4 & r5 & s3 & s4 & total & _ & _ & E3 & E4 & Hf & -> & Hp).
    apply M_bind_ok in Hp as (sa & [] & _ & (sb & [] & _ & (sp & [] & _ & Hp)%M_bind_ok)%M_bind_ok).
    destruct (signed_sig _ _ Hf) as [x ->].
    apply extends_shape in E3 as (S3 & D3 & I3 & _), E4 as (S4 & D4 & I4 & _ & V). rewrite S3, S2 in S4.
    cbn [res_receipt res_decision res_chain final_receipt]. split; [exists r4; split; [done|congruence]|].
    split; [by rewrite <- Hs|]. split; [cbn; congruence|]. split; [eauto|].
    exists (body_cid_str wa). right. by exists (body_cid_str tr).
  - pose proof (preserves_run durable_part _ _ _ _ (finish_denied_keeps _ _ _ _) Hr) as K3.
    apply finish_denied_ok in Hr as (wf & r3 & r4 & E3 & Hf & -> & sp & Hp). destruct (signed_sig _ _ Hf) as [x ->].
    apply extends_shape in E3 as (S3 & D3 & I3 & _ & V).
    destruct (deny_shape r2 (ck_reason check) (Some (sec_current (stage_secrets s2)))) as (Dd & Sd & Id & _).
    rewrite Sd, S2 in S3. cbn [res_receipt res_decision res_chain final_receipt].
    split; [exists r3; split; [done|congruence]|]. split; [by rewrite <- Hs|]. split; [cbn; congruence|]. split; [eauto|].
    exists (body_cid_str wa). left. split_and!; [done|done|congruence|done].
Qed.

(** A denied run leaves the tasks of its CHECK, and no other. *)
Lemma denied_spawns request ctx key s s' out :
  run_pipeline p request ctx key s = (s', Ok out) -> res_decision out = DenyD ->
  exists wa rest tasks, res_chain out = wa :: rest /\ check_tasks s wa "deny" tasks /\ spawned s' = spawned s ++ tasks.
Proof.
  intros (s1 & n & [= <- <-] & (s2 & [] & Hg & (s3 & r0 & Hr & (s4 & [wa r1] & Hw & (s5 & [check r2] & Hc & H)%M_bind_ok)%M_bind_ok)%M_bind_ok)%M_bind_ok)%M_bind_ok Hd.
  apply (preserves_run queue_part _ _ _ _ (guard_nonce_queue _)) in Hg. injection Hr as <- Hr0.
  apply (preserves_run queue_part _ _ _ _ (wa_step_queue _ _ _)) in Hw.
  pose proof (check_step_ok _ _ _ _ _ _ _ Hc) as [[sd Hk] _].
  destruct (check_step_spawns _ _ _ _ _ _ _ Hc) as (tasks & Ht & Hs).
  assert (queue_part s4 = queue_part s) as K by (rewrite Hw; exact Hg).
  destruct (ck_decision check) eqn:Ed; [|..|by apply check_no_require in Hk].
  - apply finish_allowed_ok in H as (tr & wf & x1 & x2 & x3 & x4 & x5 & total & _ & _ & _ & _ & _ & -> & _). cbn in Hd. congruence.
  - pose proof (preserves_run queue_part _ _ _ _ (finish_denied_queue _ _ _ _) H) as K'.
    apply finish_denied_ok in H as (wf & x1 & x2 & _ & _ & -> & _). eexists _, _, tasks. split; [reflexivity|].
    split; [by eapply check_tasks_same|]. injection K' as _ _ ->. rewrite Hs. by injection K as _ _ ->.
Qed.

Lemma outcome_from s s1 s' key out : forget s1 = forget s -> outcome s1 s' key out -> outcome s s' key out.
Proof.
  intros K%forget_durable. unfold outcome. rewrite K. assert (stage_secrets s1 = stage_secrets s) as -> by by injection K. done.
Qed.

(** *** The commit *)

Lemma persist_ok key world out s s' :
  persist_final_result p (Some key) world out s = (s', Ok tt) ->
  match durable_store s with
  | Some db => exists fails now db', durable_store s' = Some db' /\
      commit_wf_atomically fails db (commit_input p (Some (to_durable_key key)) world out now) = (Ok (), db')
  | None => durable_store s' = None /\ exists now, idem_get (idempotency_store s') key =
      Some (mkCached (cid_as_str (Receipt.receipt_cid (res_receipt out))) (receipt_to_json (res_receipt out))
              (decision_to_wire (res_decision out)) (res_chain out) now)
  end.
Proof.
  intros (s1 & d & [= <- <-] & H)%M_bind_ok. destruct (durable_store s) as [db|] eqn:Ed.
  - apply M_bind_ok in H as (s2 & rd & [= <- <-] & H). destruct (commit_wf_atomically _ _ _) as [r db'] eqn:Ec.
    apply M_bind_ok in H as (s3 & [] & [= <-] & H). destruct r as [[]|e]; [|by destruct e]. injection H as <-.
    eexists _, _, db'. split; [done|exact Ec].
  - apply M_bind_ok in H as (s2 & now & [= <- <-] & H). injection H as <-. split; [done|]. eexists. apply lookup_insert_eq.
Qed.

(** The JSON of a receipt names its decision. *)
Lemma receipt_json_decision r : get "decision" (receipt_to_json r) ≫= as_str = Some (decision_debug (decision r)).
Proof. unfold receipt_to_json. destruct (subject_did r); reflexivity. Qed.

(** C2: A finished run that is not a replay.  Its receipt verifies under the
    secrets of the state and carries the decision.  A denied chip has the stages
    WA, CHECK and WF, and the run itself leaves chip store, ledger, disk and
    secrets as they were; all it leaves to be done is the task that stores the
    advisory on its denial, where there are an engine and a chip store, and
    whichever pending tasks the runtime picks afterwards, ledger, disk and secrets
    stay as they are and the chip store changes by the advisories of the tasks
    that have run.  An allowed chip has the stages WA, CHECK, TR and WF. *)
Theorem pipeline_outcome (req : ChipRequest) ctx s s' out :
  process_chip_with_context p rfc3339 req ctx s = (s', Ok out) -> replayed out = false ->
  verifies (stage_secrets s) (res_receipt out) /\ decision (res_receipt out) = res_decision out /\
  exists wa, let wf := body_cid_str (final_receipt out) in
    (res_decision out = DenyD /\ res_chain out = [wa; "no-tr"; wf] /\ durable_part s' = durable_part s /\
     (exists tasks, check_tasks s wa "deny" tasks /\ spawned s' = spawned s ++ tasks /\
        forall schedule, let s2 := (run_schedule schedule s').1 in
          (ledger s2, disk s2, stage_secrets s2) = (ledger s, disk s, stage_secrets s) /\
          exists ran, ran ++ spawned s2 ≡ₚ spawned s ++ tasks /\ stored_by ran (chip_store s) (chip_store s2)) /\
     stage_shape <$> stages (res_receipt out) =
       [(WriteAhead, wa, Some wa); (Check, wa, None); (WriteFinished, wa, Some wf)]) \/
    exists tr, res_decision out = Allow /\ res_chain out = [wa; tr; wf] /\
     stage_shape <$> stages (res_receipt out) =
       [(WriteAhead, wa, Some wa); (Check, wa, None); (Transition, wa, Some tr); (WriteFinished, tr, Some wf)].
Proof.
  intros H Hf. destruct (fresh_run _ _ _ _ _ H Hf) as (parsed & key & s1 & _ & _ & _ & K1 & Hr).
  pose proof (denied_spawns _ _ _ _ _ _ Hr) as Hsp.
  apply run_outcome, (outcome_from s) in Hr; [|done].
  destruct Hr as (_ & H1 & H2 & _ & wa & [(Hd & Hc & K & Hst)|Ha]); (split; [done|]; split; [done|]; exists wa); [left|by right].
  destruct (Hsp Hd) as (wa' & rest & tasks & Hc' & Ht & Hs). rewrite Hc in Hc'. injection Hc' as <- _.
  pose proof (forget_queue _ _ K1) as Kq. split_and!; [done..| |done]. exists tasks.
  assert (spawned s' = spawned s ++ tasks) as Hs' by (rewrite Hs; by injection Kq as _ _ ->).
  split_and!; [by eapply check_tasks_same|done|]. intros schedule. destruct (schedule_stores schedule s') as (E & ran & Hp & Hb).
  rewrite Hs' in Hp. injection K as Kc Kl Kd Ks. rewrite Kc in Hb. split; [rewrite E; congruence|]. by exists ran.
Qed.

(** *** Replays *)

(** A later state [s'] that still has what the run that ended in [s] stored:
    in memory, or in a database on which any operations have run since and
    that answers the next lookup. *)
Definition still_stored s (out : PipelineResult) s' : Prop :=
  match durable_store s with
  | None => durable_store s' = None /\ idempotency_store s ⊆ idempotency_store s'
  | Some db => exists h, durable_store s' = Some (DurableFacts.run_ops h db) /\ db_fails (tick s') = DurableFacts.healthy /\
      from_str (value_to_string (receipt_to_json (res_receipt out))) = Some (receipt_to_json (res_receipt out)) /\
      from_str (chain_to_string (res_chain out)) = Some (JArray (JString <$> res_chain out))
  end.

Lemma stored_lookup sp s s' key world out :
  persist_final_result p (Some key) world out sp = (s, Ok tt) -> still_stored s out s' ->
  exists word now, lookup_cached rfc3339 key s' = (match durable_store s with Some _ => next_tick s' | None => s' end,
      Ok (Some (mkCached (cid_as_str (Receipt.receipt_cid (res_receipt out))) (receipt_to_json (res_receipt out)) word
                  (res_chain out) now))) /\
    (word = decision_to_wire (res_decision out) \/ word = decision_debug (decision (res_receipt out))).
Proof.
  intros H%persist_ok. unfold still_stored, lookup_cached, mbind, M_bind, asks. destruct (durable_store sp) as [db|].
  - destruct H as (fails & now & db' & -> & Hc). intros (h & -> & Hh & Hj & Hl). unfold read, lift. cbn [tick]. rewrite Hh.
    erewrite DurableFacts.replay_row; [|exact Hc|reflexivity|exact Hj|exact Hl|apply DurableFacts.run_idem].
    eexists _, _. split; [reflexivity|]. right. cbn [commit_input c_receipt_json].
    by rewrite receipt_json_decision.
  - destruct H as (-> & now & Hg). intros [-> Hsub]. eexists _, now. split; [|left; reflexivity].
    unfold mret, M_ret. unfold idem_get in *. pose proof (lookup_weaken _ _ _ _ Hg Hsub) as E.
    exact (f_equal (fun x => (s', Ok x)) E).
Qed.

Lemma replay_word d : d <> RequireD ->
  (if eq_ignore_ascii_case (decision_to_wire d) "allow" || str_contains "Allow" (decision_to_wire d) then Allow else DenyD) = d /\
  (if eq_ignore_ascii_case (decision_debug d) "allow" || str_contains "Allow" (decision_debug d) then Allow else DenyD) = d.
Proof. by destruct d. Qed.

Lemma parse_body req parsed : parse_chip_request req = Ok parsed -> p_body parsed = req_body req.
Proof.
  unfold parse_chip_request. intros (b & _ & (ty & _ & H)%result_bind_ok)%result_bind_ok. case_match; [done|].
  by apply result_bind_ok in H as (w & _ & (u & _ & [= <-])%result_bind_ok).
Qed.

(** C3: Once a request has been processed, every later request with the same four
    anchors, whatever else it says, is answered with the stored receipt, chain
    and decision, and changes nothing, as long as the entry is still stored. *)
Theorem processed_once (req1 req2 : ChipRequest) ctx1 ctx2 s s1 s2 out parsed :
  process_chip_with_context p rfc3339 req1 ctx1 s = (s1, Ok out) -> replayed out = false ->
  parse_chip_request req2 = Ok parsed -> key_from_chip_body (req_body req2) = key_from_chip_body (req_body req1) ->
  still_stored s1 out s2 ->
  exists s3 out2, process_chip_with_context p rfc3339 req2 ctx2 s2 = (s3, Ok out2) /\ forget s3 = forget s2 /\
    replayed out2 = true /\ res_chain out2 = res_chain out /\ res_decision out2 = res_decision out /\
    pr_body (final_receipt out2) = receipt_to_json (res_receipt out) /\
    cid_as_str (body_cid (final_receipt out2)) = cid_as_str (Receipt.receipt_cid (res_receipt out)).
Proof.
  intros H Hf Hp2 Hk2 Hst. destruct (fresh_run _ _ _ _ _ H Hf) as (parsed1 & key & s0 & Hp1 & Hk & _ & _ & Hr).
  apply run_outcome in Hr as (_ & _ & Hd & (sp & world & Hper) & wa & Ho).
  destruct (stored_lookup _ _ _ _ _ _ Hper Hst) as (word & now & Hl & Hw).
  assert (res_decision out <> RequireD) as Hnr by by destruct Ho as [[-> _]|(? & -> & _)].
  unfold process_chip_with_context. unfold mbind at 1, M_bind at 1, lift at 1. rewrite Hp2.
  unfold mbind at 1, M_bind at 1, lift at 1. rewrite (parse_body _ _ Hp2), Hk2, <- (parse_body _ _ Hp1), Hk. cbn [ok_or].
  unfold mbind at 1, M_bind at 1. rewrite Hl. eexists _, _. split; [reflexivity|]. split; [by destruct (durable_store s1)|].
  cbn [replayed replay_result res_chain res_decision final_receipt pr_body body_cid cached_chain cached_decision response_json].
  split_and!; try done. destruct (replay_word _ Hnr) as [R1 R2]. destruct Hw as [->| ->]; [done|]. by rewrite Hd.
Qed.

(** *** Key rotation *)

(** Under one usable secret every stage is made with its key. *)
Lemma extends_own s r r' shape ck :
  key_from_secret_str (sec_current (stage_secrets s)) = Ok ck -> chain_valid ck None r -> extends s r r' shape -> chain_valid ck None r'.
Proof.
  intros Hk [Ht Hc] (st & (ck' & pk & c & Hk' & _ & -> & Hv)%append_ok & _). rewrite Hk in Hk'. injection Hk' as <-.
  apply chain_valid_at in Hv as [_ Hv]. apply chain_valid_at. split; [|done].
  eapply tokens_ok_snoc; [exact Ht|exact Hc|apply token_own].
Qed.

Lemma extends_key s r r' shape : extends s r r' shape -> exists ck, key_from_secret_str (sec_current (stage_secrets s)) = Ok ck.
Proof. intros (st & (ck & _ & _ & Hk & _)%append_ok & _). eauto. Qed.

Lemma extends_at s1 s2 r r' shape : stage_secrets s1 = stage_secrets s2 -> extends s1 r r' shape -> extends s2 r r' shape.
Proof. unfold extends. by intros ->. Qed.

Lemma own_chain s ck r0 r1 r2 r3 r4 h1 h2 h3 h4 :
  key_from_secret_str (sec_current (stage_secrets s)) = Ok ck -> stages r0 = [] -> cid_as_str (Receipt.receipt_cid r0) = "" ->
  extends s r0 r1 h1 -> extends s r1 r2 h2 -> extends s r2 r3 h3 -> extends s r3 r4 h4 -> chain_valid ck None r4.
Proof.
  intros Hk R0 C0 E1 E2 E3 E4. assert (chain_valid ck None r0) as V0.
  { split; [intros i y Hi; by rewrite R0 in Hi|]. by rewrite R0, C0. }
  do 4 (eapply extends_own in V0; [|exact Hk|eassumption]). done.
Qed.

Lemma rotate_secret_ok new_sk s s' :
  rotate_stage_secret (B := B) (L := L) new_sk s = (s', Ok tt) ->
  stage_secrets s' = mkSecrets ("hex:" +:+ hex_encode (derive_stage_secret new_sk)) (Some (sec_current (stage_secrets s))) /\
  match durable_store s' with
  | Some db => fst <$> Durable.stage_secrets db = Some (sec_current (stage_secrets s'), sec_prev (stage_secrets s'))
  | None => True
  end.
Proof.
  intros (s1 & sec & [= <- <-] & (s2 & [] & [= <-] & (s3 & d & [= <- <-] & H)%M_bind_ok)%M_bind_ok)%M_bind_ok.
  cbn [durable_store PipelineTypes.set_stage_secrets] in H. destruct (durable_store s) as [db|] eqn:Ed.
  - apply M_bind_ok in H as (s4 & rd & [= <- <-] & H). destruct (put_stage_secrets _ _ _ _ _) as [r db'] eqn:Ep.
    apply M_bind_ok in H as (s5 & [] & [= <-] & H). destruct r as [[]|e]; [|done]. injection H as <-. split; [done|]. cbn.
    unfold put_stage_secrets in Ep. apply DurableFacts.in_tx_cases in Ep as [(e & [=] & _)|([] & _ & Ep)].
    DurableFacts.inv_tx. done.
  - injection H as <-. cbn. by rewrite Ed.
Qed.

Lemma store_chip_secrets data receipt meta s s' (r : result PipelineError _) :
  store_chip data receipt meta s = (s', r) -> stage_secrets s' = stage_secrets s.
Proof. by intros K%(preserves_run off_store _ _ _ _ (store_chip_off data receipt meta))%off_secrets. Qed.

Lemma store_executed_rotates run request check unified total s s' :
  p_chip_type request = "ubl/key.rotate" -> store_executed p run request check unified total s = (s', Ok tt) ->
  has_store s = true /\ exists new_sk, derive_new_signing_key (p_body request) (pl_signing_key p) = Ok new_sk /\
    stage_secrets s' = mkSecrets ("hex:" +:+ hex_encode (derive_stage_secret new_sk)) (Some (sec_current (stage_secrets s))) /\
    match durable_store s' with
    | Some db => fst <$> Durable.stage_secrets db = Some (sec_current (stage_secrets s'), sec_prev (stage_secrets s'))
    | None => True
    end.
Proof.
  intros Hty (s1 & st & [= <- <-] & H)%M_bind_ok. rewrite Hty in H. cbn [String.eqb Ascii.eqb Bool.eqb] in H. unfold has_store.
  destruct (chip_store s) as [st|]; [|done]. split; [done|].
  apply M_bind_ok in H as (s2 & r & Hs & (s3 & cid & [= <- _] & H)%M_bind_ok). apply store_chip_secrets in Hs.
  apply M_bind_ok in H as (s4 & rr & [= <- _] & (s5 & m & [= <- _] & (s6 & now & [= <- <-] & (s7 & r' & Hm & H)%M_bind_ok)%M_bind_ok)%M_bind_ok).
  apply store_chip_secrets in Hm.
  apply M_bind_ok in H as (s8 & stored & [= <- _] & (s9 & sk & Hsk & H)%M_bind_ok). injection Hsk as <- Hsk.
  exists sk. apply rotate_secret_ok in H as [H1 H2]. rewrite H1, Hm. cbn [stage_secrets next_tick]. rewrite Hs.
  destruct (derive_new_signing_key _ _); [|done]. injection Hsk as ->. split_and!; [done|done|]. by rewrite H1, Hm in H2; cbn in H2; rewrite Hs in H2.
Qed.

(** The secrets of a state, in memory and in its database. *)
Definition kept_secrets s := (stage_secrets s, (fun db => fst <$> Durable.stage_secrets db) <$> durable_store s).

Lemma persist_secrets key world out s s' : persist_final_result p key world out s = (s', Ok tt) -> kept_secrets s' = kept_secrets s.
Proof.
  intros (s1 & d & [= <- <-] & H)%M_bind_ok. unfold kept_secrets. destruct (durable_store s) as [db|] eqn:Ed.
  - apply M_bind_ok in H as (s2 & rd & [= <- <-] & H). destruct (commit_wf_atomically _ _ _) as [r db'] eqn:Ec.
    apply M_bind_ok in H as (s3 & [] & [= <-] & H). destruct r as [[]|e]; [|by destruct e]. injection H as <-.
    apply DurableFacts.commit_ok_committed in Ec as (_ & _ & _ & _ & _ & Hs). cbn. by rewrite Hs.
  - destruct key as [k|]; [|by injection H as <-; rewrite Ed].
    apply M_bind_ok in H as (s2 & now & [= <- <-] & H). injection H as <-. cbn. by rewrite Ed.
Qed.

Lemma key_from_hex k : (forall b, hex_decode (hex_encode b) = Some b) -> key_from_secret_str ("hex:" +:+ hex_encode k) = Ok (padded_key k).
Proof. intros Hx. unfold key_from_secret_str. rewrite strip_prefix_app. change (is_empty ("hex:" +:+ _)) with false. cbn iota. by rewrite Hx. Qed.

(** C28: An allowed rotation needs a chip store, and it rotates the stage secret: the
    new one is derived from the new signing key, the old one is kept as the
    previous one, both are in the database when there is one, and the receipt of
    the rotation itself stays valid under the new pair. *)
Theorem rotation_completes (req : ChipRequest) ctx s s' out parsed :
  process_chip_with_context p rfc3339 req ctx s = (s', Ok out) -> replayed out = false ->
  parse_chip_request req = Ok parsed -> p_chip_type parsed = "ubl/key.rotate" -> res_decision out = Allow ->
  has_store s = true /\ exists new_sk, derive_new_signing_key (p_body parsed) (pl_signing_key p) = Ok new_sk /\
    stage_secrets s' = mkSecrets ("hex:" +:+ hex_encode (derive_stage_secret new_sk)) (Some (sec_current (stage_secrets s))) /\
    match durable_store s' with
    | Some db => fst <$> Durable.stage_secrets db = Some (sec_current (stage_secrets s'), sec_prev (stage_secrets s'))
    | None => True
    end /\
    ((forall b, hex_decode (hex_encode b) = Some b) -> verifies (stage_secrets s') (res_receipt out)).
Proof.
  intros H Hf Hp Hty Ha. destruct (fresh_run _ _ _ _ _ H Hf) as (parsed' & key & s1 & Hp' & _ & _ & K1%forget_durable & Hr).
  rewrite Hp in Hp'. injection Hp' as <-. apply run_ok in Hr
    as (run & wa & check & r0 & r1 & r2 & s2 & _ & _ & R0 & _ & _ & C0 & E1 & E2 & K2 & _ & Hr).
  assert (durable_part s2 = durable_part s) as K by congruence.
  assert (stage_secrets s1 = stage_secrets s) as Hs1 by by injection K1. clear K1 K2.
  assert (stage_secrets s2 = stage_secrets s) as Hs by by injection K. apply durable_has in K as Hh. clear K.
  destruct (is_deny (ck_decision check)).
  { by apply finish_denied_ok in Hr as (wf & r3 & r4 & _ & _ & -> & _). }
  apply finish_allowed_ok in Hr as (tr & wf & r3 & r4 & r5 & s3 & s4 & total & Ht & Hw & E3 & E4 & Hsig & -> & Hp').
  apply M_bind_ok in Hp' as (s5 & [] & Hst & (s6 & [] & Hl & (s7 & [] & Had & Hper)%M_bind_ok)%M_bind_ok).
  apply wf_step_ok in Hw as (_ & _ & _ & Kw). apply tr_step_ok in Ht as (_ & _ & Ks & Kh).
  assert (stage_secrets s4 = stage_secrets s) as Hs4 by (injection Kw; congruence). apply durable_has in Kw.
  apply store_executed_rotates in Hst as (Hhas & sk & Hsk & Hn & Hd); [|done]. split; [congruence|]. exists sk. split; [done|].
  assert (kept_secrets s' = kept_secrets s5) as Hk.
  { apply persist_secrets in Hper. rewrite Hper. apply (preserves_run kept_secrets) in Had; [|unfold spawn_advisory; preserves_tac].
    rewrite Had. apply (preserves_run kept_secrets) in Hl; [done|]. unfold append_ledger. preserves_tac. }
  injection Hk as Hk1 Hk2. rewrite Hk1, Hn, Hs4. split; [done|].
  split; [destruct (durable_store s') as [db|], (durable_store s5) as [db5|]; try done; injection Hk2 as ->; by rewrite Hn, Hs4 in Hd|].
  intros Hx.  cbn [res_receipt]. destruct (signed_sig _ _ Hsig) as [x ->].
  destruct (extends_key _ _ _ _ E4) as [ck Hck]. rewrite Hs in Hck.
  assert (chain_valid ck None r4) as Hv by (eapply (own_chain s _ r0 r1 r2 r3); [exact Hck|exact R0|exact C0|..]; (eapply extends_at; [|eassumption]; congruence)).
  unfold verifies, verify_auth_chain_with_secrets. cbn [sec_current sec_prev]. rewrite (key_from_hex _ Hx). cbn [optional_key].
  rewrite Hck. cbn [fmap result_fmap]. apply (chain_valid_previous _ (padded_key (derive_stage_secret sk))), (chain_valid_sig _ _ _ x) in Hv.
  by rewrite (proj2 (verify_chain_spec _ _ _) Hv).
Qed.

(** *** Issued receipts *)

(** C27: Every receipt that a run issues is signed: under the DID of the pipeline's
    own key it verifies, in dual mode and in the mode it was signed in. *)
Theorem issued_receipt_verifies `{!Ed25519Laws ED EK, !Base64Laws B64 B64D, !Base58Laws B58}
    strict (req : ChipRequest) ctx s s' out m :
  pl_did p = did_from_verifying_key strict (sk_verifying_key (pl_signing_key p)) ->
  process_chip_with_context p rfc3339 req ctx s = (s', Ok out) -> replayed out = false ->
  m = Dual \/ m = match cfg_crypto_mode (pl_config p) with CompatV1 => V1Only | HashFirstV2 => V2Only end ->
  exists rep, receipt_verify_signature (pl_env p) (res_receipt out) m = Ok rep /\ valid rep = true.
Proof.
  intros Hd H Hf Hm. destruct (fresh_run _ _ _ _ _ H Hf) as (parsed & key & s1 & _ & _ & _ & _ & Hr).
  apply run_outcome in Hr as ((r & Hs & Hdid) & _). apply finalize_inv in Hs as (b & Hb & ->).
  eexists. split; [apply (verify_signed (pl_env p) r _ _ strict b m); [by rewrite Hdid|done]|]. cbn [valid].
  pose proof (sign_verifies (pl_signing_key p) (signed_message (receipt_sign_domain (pl_env p)) b (cfg_crypto_mode (pl_config p)))) as Hs.
  destruct Hm as [->| ->], (cfg_crypto_mode (pl_config p)); rewrite ?Hs, ?orb_true_r; done.
Qed.

(** *** Rejected envelopes *)

(** A rejection at admission always ends in a signed denial of its own type with
    the stages KNOCK and WF only; it touches no chip, ledger, disk or secret. *)
Theorem knock_rejection_denies knock reason_code reason hint s s' out :
  process_knock_rejection p knock reason_code reason hint s = (s', Ok out) ->
  durable_part s' = durable_part s /\ verifies (stage_secrets s) (res_receipt out) /\
  res_decision out = DenyD /\ decision (res_receipt out) = DenyD /\ receipt_type (res_receipt out) = "ubl/knock.deny.v1" /\
  stage_shape <$> stages (res_receipt out) = [(Knock, knock, Some knock); (WriteFinished, knock, None)] /\
  res_chain out = [knock; "no-tr"; cid_as_str (Receipt.receipt_cid (res_receipt out))] /\
  pr_body (final_receipt out) = receipt_to_json (res_receipt out).
Proof.
  intros (s1 & n & [= <- <-] & (s2 & r0 & [= <- <-] & (s3 & st & [= <- <-] & (s4 & r1 & [-> E1]%append_receipt_ok & H)%M_bind_ok)%M_bind_ok)%M_bind_ok)%M_bind_ok.
  apply M_bind_ok in H as (s5 & sec & [= <- <-] & (s6 & st & [= <- <-] & (s7 & r2 & [-> E2]%append_receipt_ok & H)%M_bind_ok)%M_bind_ok).
  apply M_bind_ok in H as (s8 & r3 & [-> (x & ->)%signed_sig]%finalize_ok & (s9 & now & [= <- <-] & (s10 & [] & [= <-] & H)%M_bind_ok)%M_bind_ok).
  apply M_bind_ok in H as (s11 & [] & Hp & [= <- <-]). apply (preserves_run durable_part) in Hp; [|by apply persist_keeps].
  apply extends_shape in E1 as (S1 & D1 & _ & T1 & _), E2 as (S2 & D2 & _ & T2 & V).
  match type of S2 with context [deny_with_secrets ?r ?why ?sec] => destruct (deny_shape r why sec) as (Dd & Sd & _ & Td) end.
  rewrite Sd in S2. cbn [stages set_decision] in S2. rewrite S1 in S2. rewrite Dd in D2. rewrite Td in T2.
  cbn [res_receipt res_decision res_chain final_receipt pr_body]. split_and!; try done.
  by transitivity (receipt_type r2); [|rewrite T2; exact T1].
Qed.
End Facts.
