(* ===== verification/PipelineSample.v ===== *)
(** * A sample environment for the pipeline

    Concrete stand-ins for the libraries and two small pipelines, on which the
    theorems on the pipeline and its CHECK stage are applied. *)

From S2P Require Import Prelude RustStd RustStr Json Nrf NrfFacts BigNum Unc1 Tlv Rho Vm Gate Canon Types Silicon Idempotency.
From S2P Require Import Durable Policy Receipt ReceiptFacts Knock ChipStore ChipStoreFacts Capability Auth PolicyLoader Envelope.
From S2P Require Import KeyRotation AuditChip TrRegistry EventBus Ledger Advisory PipelineTypes Check CheckFacts Compaction.
From S2P Require Import Wasm Adapter AdapterFacts Transition Pipeline PipelineFacts.
Local Open Scope string_scope.
Local Open Scope Z_scope.
Local Open Scope list_scope.

(** ** Libraries *)

#[export] Existing Instance ascii_unicode.
#[export] Existing Instance in_memory_backend.
#[export] Existing Instances ReceiptSample.toy_ed ReceiptSample.toy_keys ReceiptSample.toy_ed_laws.
#[export] Existing Instances CanonSample.raw64 CanonSample.raw64d CanonSample.raw64_laws CanonSample.raw58 CanonSample.raw58_laws.
#[export] Existing Instances AdapterSample.no_std64 AdapterSample.zero_sha AdapterSample.echo_engine.
#[export] Existing Instance qc_bignum.

(** The length and the last bytes in the place of the digests. *)
Definition checksum (bs : bytes) : bytes :=
  to_be_bytes 4 (Z.of_nat (length bs)) ++ take 28 (reverse bs ++ replicate 28 x00).
#[export] Instance sum_blake3 : Blake3 := {| blake3 := checksum |}.
#[export] Instance sum_keyed : Blake3Keyed := {| blake3_keyed k m := checksum (k ++ m) |}.
#[export] Instance no_chrono : Chrono := {| parse_rfc3339_utc _ := None |}.
#[export] Instance no_num : NumSerde := {| num_from_value _ := None; num_to_value _ := None |}.
#[export] Instance clock0 : Clock := {| unix_secs _ := 0 |}.
#[export] Instance no_json : SerdeJson := {| from_slice _ := None; to_vec _ := []; value_to_string _ := "" |}.
#[export] Instance ascii_case : StrCase := {| to_lowercase := to_ascii_lowercase |}.
#[export] Instance same_upper : StrUpper := {| to_uppercase s := s |}.
#[export] Instance same_debug : StrDebug := {| str_debug s := s |}.
#[export] Instance epoch : ChronoInstant := {| rfc3339_instant _ := Some 0 |}.
#[export] Instance no_text : ChronoFormat := {| to_rfc3339 _ := "" |}.
#[export] Instance no_date : ChronoDate := {| rfc3339_date _ := None |}.
#[export] Instance in_order : HashIter := {| hash_iter A l := l |}.
#[export] Instance in_order_laws : HashIterLaws in_order.
Proof. by split. Qed.
#[export] Instance no_reason : BigintText := {| bigint_error_text _ := "" |}.
#[export] Instance null_policies : PolicySerde := {|
  circuits_from_value _ := None; circuits_to_value _ := JNull; scope_from_value _ := None; scope_to_value _ := JNull |}.
#[export] Instance no_receipts : ReceiptSerde := {| receipt_from_json _ := None |}.
#[export] Instance ticking : Readings := {|
  now_instant _ := 0; now_text _ := "2024-01-01T00:00:00Z"; now_secs _ := 0; now_stamp _ := "t"; elapsed_ms _ := 1;
  random_bytes n := to_be_bytes 8 (Z.of_nat n); bit_nanos _ _ := 0; db_fails _ _ := false |}.

(** Hexadecimal digits read back. *)
Definition digit (a : ascii) : N :=
  let n := N_of_ascii a in (if (n <? 58)%N then n - 48 else n - 87)%N.
Definition unpair (a b : ascii) : option byte := Byte.of_N (16 * digit a + digit b)%N.
Fixpoint unhex (s : string) : option bytes :=
  match s with
  | EmptyString => Some []
  | String a (String b rest) =>
      match unpair a b, unhex rest with Some x, Some l => Some (x :: l) | _, _ => None end
  | _ => None
  end.
#[export] Instance real_hex : HexDecode := {| hex_decode := unhex |}.

Lemma hex_byte_pair b : exists x y, hex_byte b = String x (String y "") /\ unpair x y = Some b.
Proof. destruct b; (eexists _, _; split; [reflexivity|reflexivity]). Qed.

Lemma unhex_encode bs : hex_decode (hex_encode bs) = Some bs.
Proof.
  cbn [hex_decode real_hex]. induction bs as [|b bs IH]; [done|]. rewrite hex_encode_cons.
  destruct (hex_byte_pair b) as (x & y & -> & E). rewrite !str_app_cons, str_app_nil_l. cbn [unhex]. by rewrite E, IH.
Qed.

(** ** Two pipelines *)

Definition key0 : bytes := replicate 32 x01.
Definition config0 : PipelineConfig := mkConfig CompatV1 false RejectF64 None TrRegistry.registry_default "secret" None.
Definition p0 : UblPipeline := Eval vm_compute in
  pipeline_new false (fun _ => Err NotPresent) key0
    (runtime_info_new (mkBuildMeta "" "" "" "" None None) "b3:0" "1") (in_memory_storage policy_storage_new)
    (fun _ => false) config0 3 3.
Definition disk0 : Fs := mkFs ∅ ∅ (fun _ => Works) 0.
Definition state0 (store : option (ChipStore.ChipStore InMemoryBackend)) : PState InMemoryBackend NullLedger Fs :=
  state_new p0 store null_ledger disk0.

Definition chip (ty id : string) (extra : list (string * json)) : json :=
  JObject ([("@type", JString ty); ("@id", JString id); ("@ver", JString "1.0"); ("@world", JString "a/acme/t/prod")] ++ extra).
Definition request_of (body : json) (ty : string) : ChipRequest := mkRequest ty body [] None.
Definition rfc0 (_ : Z) : string := "".

Definition document : ChipRequest := request_of (chip "ubl/document" "doc-1" []) "ubl/document".

(** A rotation by a stranger: the old key is not the pipeline's, and the
    capability is issued by its own bearer. *)
Definition cap_bytes : bytes := Eval vm_compute in
  match to_nrf1_bytes (cap_signing_payload (self_signed false [] "key:rotate" "a/acme" "2024-01-01T00:00:00Z" [])) with
  | Ok b => b
  | Err _ => []
  end.
Definition rotation_body : json :=
  chip "ubl/key.rotate" "rot-1"
    [("old_did", JString "did:key:zOld"); ("old_kid", JString "did:key:zOld#ed25519");
     ("@cap", cap_to_json (self_signed false [] "key:rotate" "a/acme" "2024-01-01T00:00:00Z" cap_bytes))].
Definition rotation : ChipRequest := request_of rotation_body "ubl/key.rotate".
Definition store0 : ChipStore.ChipStore InMemoryBackend := store_new mem_new.

(** A fresh result with this decision, and no database. *)
Definition finished (d : Decision) (r : PState InMemoryBackend NullLedger Fs * result PipelineError PipelineResult) : bool :=
  match snd r, durable_store (fst r) with
  | Ok o, None => negb (replayed o) && bool_decide (res_decision o = d)
  | _, _ => false
  end.

Abbreviation run req store := (process_chip_with_context p0 rfc0 req no_authorship (state0 store)).

Lemma document_allowed : finished Allow (run document None) = true.
Proof. vm_cast_no_check (eq_refl true). Qed.
Lemma rotation_allowed : finished Allow (run rotation (Some store0)) = true.
Proof. vm_cast_no_check (eq_refl true). Qed.

Definition is_ok {E A} (r : result E A) : bool := match r with Ok _ => true | Err _ => false end.

(** Reading [finished]. *)
Lemma finished_ok d r : finished d r = true ->
  exists s' o, r = (s', Ok o) /\ replayed o = false /\ res_decision o = d /\ durable_store s' = None.
Proof.
  destruct r as [s' [o|e]]; [|done]. unfold finished. cbn. destruct (durable_store s') eqn:Ed; [done|].
  destruct (replayed o) eqn:Hr; [done|]. intros H%bool_decide_eq_true. by exists s', o.
Qed.

(** ** Witnesses *)

(** A chip that genesis denies, in a pipeline with an advisory engine. *)
Definition evil : ChipRequest := request_of (chip "evil/hack" "bad" []) "evil/hack".
Definition advised : PState InMemoryBackend NullLedger Fs :=
  PipelineTypes.set_engine (Advisory.engine_new "b3:test-passport" "test-model" "a/test/t/test") (state0 (Some store0)).
Abbreviation evil_run := (process_chip_with_context p0 rfc0 evil no_authorship advised).
Definition advisories (s : PState InMemoryBackend NullLedger Fs) : option nat :=
  store ← chip_store s;
  match store_query store (mkQuery (Some "ubl/advisory"%string) [] None None None (Some 10%nat) None) with
  | Ok r => Some (total_count r)
  | Err _ => None
  end.
Lemma evil_denied : finished DenyD evil_run = true.
Proof. vm_cast_no_check (eq_refl true). Qed.
(** No advisory when the run ends, one when its task has run. *)
Lemma evil_advised : (advisories evil_run.1, advisories (run_schedule [0%nat] evil_run.1).1) = (Some 0, Some 1)%nat.
Proof. vm_cast_no_check (eq_refl (Some 0, Some 1)%nat). Qed.

Lemma pipeline_outcome_witness : exists s' out tasks,
  evil_run = (s', Ok out) /\ verifies (stage_secrets advised) (res_receipt out) /\ durable_part s' = durable_part advised /\
  length tasks = 1%nat /\ spawned s' = tasks /\
  advisories s' = Some 0%nat /\ advisories (run_schedule [0%nat] s').1 = Some 1%nat /\
  exists ran, ran ++ spawned (run_schedule [0%nat] s').1 ≡ₚ tasks /\
    stored_by ran (chip_store advised) (chip_store (run_schedule [0%nat] s').1).
Proof.
  destruct (finished_ok _ _ evil_denied) as (s' & o & H & Hf & Hd & _). pose proof evil_advised as Ha. rewrite H in Ha.
  destruct (pipeline_outcome p0 rfc0 evil no_authorship advised s' o H Hf) as (Hv & _ & wa & [(_ & _ & Hk & Ht & _)|(tr & Hx & _)]);
    [|exfalso; rewrite Hd in Hx; discriminate Hx].
  destruct Ht as (tasks & (reason & policies & Et) & Hs & Hsched). destruct (Hsched [0%nat]) as (_ & ran & Hp & Hb).
  exists s', o, tasks. split_and!; [exact H|exact Hv|exact Hk|by rewrite Et|exact Hs| | |].
  - exact (f_equal fst Ha).
  - exact (f_equal snd Ha).
  - exists ran. split; [exact Hp|exact Hb].
Defined.

Lemma issued_receipt_verifies_witness : exists out rep,
  snd (run document None) = Ok out /\ receipt_verify_signature (pl_env p0) (res_receipt out) Dual = Ok rep /\ valid rep = true.
Proof.
  destruct (finished_ok _ _ document_allowed) as (s' & o & H & Hf & _ & _).
  destruct (issued_receipt_verifies p0 rfc0 false document no_authorship (state0 None) s' o Dual) as (rep & H1 & H2);
    [vm_compute; reflexivity|exact H|exact Hf|by left|]. exists o, rep. rewrite H.
  split; [reflexivity|]. exact (conj H1 H2).
Defined.

(** The same anchors with another body and another author. *)
Definition edited : ChipRequest :=
  request_of (chip "ubl/document" "doc-1" [("title", JString "edited")]) "ubl/document".
Lemma processed_once_witness : exists out s' out2,
  run document None = (s', Ok out) /\ replayed out2 = true /\ res_chain out2 = res_chain out /\
  snd (process_chip_with_context p0 rfc0 edited (mkAuthorship (Some "did:key:zMallory") None) s') = Ok out2.
Proof.
  destruct (finished_ok _ _ document_allowed) as (s' & o & H & Hf & _ & Hd).
  destruct (processed_once p0 rfc0 document edited no_authorship (mkAuthorship (Some "did:key:zMallory") None) (state0 None) s' s' o
              (mkParsed edited "ubl/document" (Some "doc-1") "a/acme/t/prod")) as (s3 & out2 & H2 & _ & H3 & H4 & _);
    [exact H|exact Hf|vm_compute; reflexivity|vm_compute; reflexivity|unfold still_stored; rewrite Hd; split; [reflexivity|apply map_subseteq_spec; tauto]|].
  exists o, s', out2. rewrite H2. split; [exact H|]. split; [exact H3|]. split; [exact H4|reflexivity].
Defined.

Lemma rotation_completes_witness : exists s' out,
  run rotation (Some store0) = (s', Ok out) /\ verifies (stage_secrets s') (res_receipt out) /\
  sec_prev (stage_secrets s') = Some "secret" /\ old_did KeyRotation.RotationSample.request <> pl_did p0.
Proof.
  destruct (finished_ok _ _ rotation_allowed) as (s' & o & H & Hf & Ha & Hd).
  destruct (rotation_completes p0 rfc0 rotation no_authorship (state0 (Some store0)) s' o
              (mkParsed rotation "ubl/key.rotate" (Some "rot-1") "a/acme/t/prod")) as (_ & sk & _ & Hs & _ & Hv);
    [exact H|exact Hf|vm_compute; reflexivity|reflexivity|exact Ha|].
  exists s', o. split; [exact H|]. split; [exact (Hv unhex_encode)|]. rewrite Hs. split; [reflexivity|]. vm_compute. discriminate.
Defined.

Abbreviation rejection := (process_knock_rejection p0 "b3:k" "KNOCK-005" "too deep" None (state0 None)).
Lemma rejection_ok : is_ok (snd rejection) = true.
Proof. vm_cast_no_check (eq_refl true). Qed.
Lemma knock_rejection_denies_witness : exists out, snd rejection = Ok out /\ res_decision out = DenyD.
Proof.
  pose proof rejection_ok as Hok. destruct rejection as [s' [o|e]] eqn:E; [|discriminate Hok].
  exists o. split; [reflexivity|].
  exact (proj1 (proj2 (proj2 (knock_rejection_denies p0 "b3:k" "KNOCK-005" "too deep" None (state0 None) s' o E)))).
Defined.

Definition parsed0 : ParsedChipRequest := mkParsed document "ubl/document" (Some "doc-1") "a/acme/t/prod".
Lemma check_ok : is_ok (snd (stage_check p0 parsed0 (state0 None))) = true.
Proof. vm_cast_no_check (eq_refl true). Qed.
Lemma stage_check_exact_witness : exists s' r,
  stage_check p0 parsed0 (state0 None) = (s', Ok r) /\ forget s' = forget (state0 None).
Proof.
  pose proof check_ok as Hok. destruct (stage_check p0 parsed0 (state0 None)) as [s' [r|e]] eqn:E; [|discriminate Hok].
  exists s', r. split; [reflexivity|]. exact (proj1 (stage_check_exact p0 parsed0 (state0 None) s' r E)).
Defined.

(** The mapping of the stranger's rotation, stored. *)
Definition material0 : KeyRotationMaterial := mkMaterial "did:key:zOld" "did:key:zOld#ed25519" "did:key:zNew" "did:key:zNew#ed25519" "b3:k".
Definition mapping0 : json := mapping_chip "a/acme/t/prod" "b3:r" "b3:rr" None material0 "2024-01-01T00:00:00Z".
Definition mapping_bytes : bytes := Eval vm_compute in match to_nrf1_bytes mapping0 with Ok b => b | Err _ => [] end.
Definition meta0 : ExecutionMetadata := mkMeta "key_rotation/0.1" 0 0 [] (did_new_unchecked "did:key:z1") true.
Abbreviation store1 := (store_executed_chip store0 mapping0 "b3:rr" meta0 "now").
Lemma store1_ok : is_ok (snd store1) = true.
Proof. vm_cast_no_check (eq_refl true). Qed.
Definition rotation_parsed0 : ParsedChipRequest := mkParsed rotation "ubl/key.rotate" (Some "rot-1") "a/acme/t/prod".
Lemma rotated_key_rejected_witness : is_ok (snd (stage_check p0 rotation_parsed0 (state0 (Some (fst store1))))) = false.
Proof.
  pose proof store1_ok as Hok. destruct store1 as [st1 [c|e]] eqn:E; [|discriminate Hok].
  destruct (stage_check p0 rotation_parsed0 _) as [s' [out|e]] eqn:H; [exfalso|reflexivity].
  refine (rotated_key_rejected p0 (mem_inv (fun _ => "ubl/key.map")) (fun c => ChipStore.chip_type c = "ubl/key.map") mem_chips
            (BackendSpec0 := in_memory_spec (fun _ => "ubl/key.map"))
            store0 st1 "a/acme/t/prod" "b3:r" "b3:rr" None material0 "2024-01-01T00:00:00Z" "b3:rr" meta0 "now" mapping_bytes c []
            (indexer st1) rotation_parsed0 (mkRotate "did:key:zOld" "did:key:zOld#ed25519" None) _ s' out _ _ _ E _ _ _ _ _ H).
  - apply mem_inv_new.
  - vm_compute. reflexivity.
  - reflexivity.
  - constructor.
  - by destruct st1.
  - reflexivity.
  - vm_compute. reflexivity.
  - reflexivity.
Defined.
