(* ===== verification/Logline.v ===== *)
(** * The LogLine language ([src/logline/src])

    Tokens with their positions, the tokenizer, the recursive-descent parser and
    the serializer.  A text is its list of characters (code points); Unicode
    character classes and case mappings, and the textual forms of [f64], are
    interfaces. *)

From S2P Require Import Prelude RustStd.
Local Open Scope string_scope.
Local Open Scope Z_scope.
Local Open Scope list_scope.

(** ** Characters, texts and numbers *)

Definition char : Type := N.
Definition text : Type := list char.
Definition ch (a : ascii) : char := N_of_ascii a.
Definition eqc (c : char) (a : ascii) : bool := (c =? ch a)%N.
Definition among (c : char) (l : list ascii) : bool := existsb (eqc c) l.
Definition txt (s : string) : text := ch <$> list_ascii_of_string s.
Definition newline : ascii := "010".
Definition tab : ascii := "009".
Definition return_ : ascii := "013".
Definition quote : ascii := "034".
Definition backslash : ascii := "\".

(** [char::is_alphabetic], [is_numeric], [is_whitespace], and the case mappings
    of [str]. *)
Class CharClass : Type := {
  is_alphabetic : char -> bool;
  is_numeric : char -> bool;
  is_whitespace : char -> bool;
  to_uppercase : text -> text;
  to_lowercase : text -> text }.

(** [f64]: [parse], [to_string], the test [fract() == 0.0] between [i64::MIN] and
    [i64::MAX], and [as i64]. *)
Class F64Text : Type := {
  f64 : Type;
  f64_parse : text -> option f64;
  f64_to_string : f64 -> text;
  f64_integral : f64 -> bool;
  f64_as_i64 : f64 -> Z }.

(** [usize] subtraction in a release build (a debug build panics below zero). *)
Definition usize_sub (a b : Z) : Z := (a - b) mod 2 ^ 64.

(** ** Positions ([position.rs]) *)

Record Position : Type := mkPosition { line : Z; column : Z; offset : Z }.
Definition position_default : Position := mkPosition 0 0 0.
Definition position_start : Position := mkPosition 1 1 0.

Definition len_utf8 (c : char) : Z :=
  if (c <? 128)%N then 1 else if (c <? 2048)%N then 2 else if (c <? 65536)%N then 3 else 4.
Definition position_advance (c : char) (p : Position) : Position :=
  if eqc c newline then mkPosition (line p + 1) 1 (offset p + len_utf8 c)
  else mkPosition (line p) (column p + 1) (offset p + len_utf8 c).

Record Span : Type := mkSpan { start : Position; end_ : Position }.
Definition span_default : Span := mkSpan position_default position_default.
Definition single (p : Position) : Span := mkSpan p p.
Definition merge (a b : Span) : Span :=
  mkSpan (if offset (start a) <? offset (start b) then start a else start b)
         (if offset (end_ b) <? offset (end_ a) then end_ a else end_ b).

Definition position_display (p : Position) : text :=
  txt (u_to_string (line p)) ++ txt ":" ++ txt (u_to_string (column p)).
Definition span_display (s : Span) : text :=
  if (line (start s) =? line (end_ s)) && (column (start s) =? column (end_ s))
  then position_display (start s)
  else position_display (start s) ++ txt ".." ++ position_display (end_ s).

(** ** Tokens ([token.rs]) *)

Inductive TokenKind `{F64Text} : Type :=
| Identifier (s : text)
| StringT (s : text)
| Number (n : f64)
| Boolean (b : bool)
| Colon | Comma | LeftBrace | RightBrace | LeftBracket | RightBracket
| Newline
| End
| Indent (n : Z)
| Eof.

Record Token `{F64Text} : Type := mkToken { kind : TokenKind; span : Span }.
Arguments mkToken {_} kind span.

Definition is_value_start `{F64Text} (k : TokenKind) : bool :=
  match k with
  | StringT _ | Number _ | Boolean _ | LeftBrace | LeftBracket | Identifier _ => true
  | _ => false
  end.

Definition quoted (s : text) : text := [ch quote] ++ s ++ [ch quote].
Definition bool_text (b : bool) : text := if b then txt "true" else txt "false".

Definition kind_display `{F64Text} (k : TokenKind) : text :=
  match k with
  | Identifier s => txt "identifier '" ++ s ++ txt "'"
  | StringT s => txt "string " ++ quoted s
  | Number n => txt "number " ++ f64_to_string n
  | Boolean b => txt "boolean " ++ bool_text b
  | Colon => txt "':'"
  | Comma => txt "','"
  | LeftBrace => txt "'{'"
  | RightBrace => txt "'}'"
  | LeftBracket => txt "'['"
  | RightBracket => txt "']'"
  | Newline => txt "newline"
  | End => txt "END"
  | Indent n => txt "indent(" ++ txt (u_to_string n) ++ txt ")"
  | Eof => txt "end of file"
  end.

(** ** Errors ([error.rs]) *)

Inductive ParseError : Type :=
| UnexpectedToken (expected found : text) (sp : Span)
| UnexpectedEof (pos : Position)
| InvalidNumber (sp : Span)
| UnterminatedString (sp : Span)
| InvalidEscape (pos : Position)
| InvalidCharacter (c : char) (pos : Position)
| MissingEnd
| EmptyInput
| InvalidHeader
| DuplicateKey (key : text) (sp : Span)
| NestingTooDeep (max : Z) (sp : Span).

(** [ParseError::span]. *)
Definition error_span (e : ParseError) : option Span :=
  match e with
  | UnexpectedToken _ _ sp | InvalidNumber sp | UnterminatedString sp
  | DuplicateKey _ sp | NestingTooDeep _ sp => Some sp
  | UnexpectedEof pos | InvalidEscape pos | InvalidCharacter _ pos => Some (single pos)
  | MissingEnd | EmptyInput | InvalidHeader => None
  end.

(** [str::lines]: the pieces between newlines, less one carriage return each; no
    piece after a final newline. *)
Definition strip_return (l : text) : text :=
  match last l with
  | Some c => if eqc c return_ then take (length l - 1) l else l
  | None => l
  end.
Fixpoint lines_from (acc : text) (s : text) : list text :=
  match s with
  | [] => match acc with [] => [] | _ => [acc] end
  | c :: s' => if eqc c newline then strip_return acc :: lines_from [] s' else lines_from (acc ++ [c]) s'
  end.
Definition lines (s : text) : list text := lines_from [] s.

(** [{:>width$}] of a number. *)
Definition spaces (n : Z) : text := replicate (Z.to_nat n) (ch " ").
Definition pad_left (width : Z) (s : text) : text := spaces (width - Z.of_nat (length s)) ++ s.

Definition format_source_context (source : text) (sp : Span) : text :=
  let ls := lines source in
  let n := line (start sp) in
  if (n =? 0) || (Z.of_nat (length ls) <? n) then []
  else
    let line_idx := n - 1 in
    let w := Z.max (Z.of_nat (String.length (u_to_string n))) 3 in
    let numbered k := pad_left w (txt (u_to_string k)) ++ [ch " "; 9474%N; ch " "]
                        ++ default [] (ls !! Z.to_nat (k - 1)) ++ [ch newline] in
    let error_len := if line (start sp) =? line (end_ sp)
                     then Z.max (usize_sub (column (end_ sp)) (column (start sp))) 1 else 1 in
    (if 0 <? line_idx then numbered (n - 1) else []) ++ numbered n
      ++ spaces w ++ [ch " "; 9474%N; ch " "]
      ++ spaces (column (start sp) - 1) ++ replicate (Z.to_nat error_len) (ch "^").

(** [ParseError::format_with_source]. *)
Definition format_with_source (source : text) (e : ParseError) : text :=
  let at_span sp message :=
    txt "Error at " ++ span_display sp ++ txt ": " ++ message ++ [ch newline] ++ format_source_context source sp in
  match e with
  | UnexpectedToken expected found sp => at_span sp (txt "Expected " ++ expected ++ txt ", found " ++ found)
  | UnexpectedEof pos => at_span (single pos) (txt "Unexpected end of file")
  | InvalidNumber sp => at_span sp (txt "Invalid number literal")
  | UnterminatedString sp => at_span sp (txt "Unterminated string")
  | InvalidEscape pos => at_span (single pos) (txt "Invalid escape sequence")
  | InvalidCharacter c pos => at_span (single pos) (txt "Invalid character '" ++ [c] ++ txt "'")
  | MissingEnd => txt "Error: missing END marker"
  | EmptyInput => txt "Error: empty input"
  | InvalidHeader => txt "Error: invalid header, expected TYPE: NAME"
  | DuplicateKey key sp => at_span sp (txt "Duplicate key '" ++ key ++ txt "'")
  | NestingTooDeep max sp => at_span sp (txt "Nesting too deep (max " ++ txt (u_to_string max) ++ txt ")")
  end.

(** ** The tokenizer ([tokenizer.rs])

    [rest] is the input from [position] on; [position] counts characters. *)

Record Tokenizer : Type := mkTokenizer {
  rest : text; position : Z; t_line : Z; t_column : Z; at_line_start : bool }.

Definition tokenizer_new (input : text) : Tokenizer := mkTokenizer input 0 1 1 true.
Definition current_position (t : Tokenizer) : Position := mkPosition (t_line t) (t_column t) (position t).
Definition current_char (t : Tokenizer) : option char := head (rest t).
Definition peek_char (t : Tokenizer) (n : nat) : option char := rest t !! n.
Definition leave_line_start (t : Tokenizer) : Tokenizer :=
  mkTokenizer (rest t) (position t) (t_line t) (t_column t) false.

Section Tokenizing.
Context `{CC : CharClass} `{FT : F64Text}.
Implicit Types (t : Tokenizer).

Definition is_alphanumeric (c : char) : bool := is_alphabetic c || is_numeric c.

Definition advance t : Tokenizer :=
  match rest t with
  | [] => t
  | c :: r =>
      if eqc c newline then mkTokenizer r (position t + 1) (t_line t + 1) 1 true
      else mkTokenizer r (position t + 1) (t_line t) (t_column t + 1)
             (if is_whitespace c then at_line_start t else false)
  end.

(** [while let Some(ch) = self.current_char()]: read the characters while [p]
    holds; [l] is the rest of the input. *)
Fixpoint read_while (p : char -> bool) (l : text) t : text * Tokenizer :=
  match l with
  | c :: l' => if p c then let '(cs, t') := read_while p l' (advance t) in (c :: cs, t') else ([], t)
  | [] => ([], t)
  end.

Definition skip_whitespace_except_newline t : Tokenizer :=
  snd (read_while (fun c => among c [" "%char; tab; return_]) (rest t) t).

Definition indent_width (c : char) : Z := if eqc c " " then 1 else 4.
Definition count_indent t : Z * Tokenizer :=
  let '(cs, t') := read_while (fun c => among c [" "%char; tab]) (rest t) t in
  (foldr (fun c n => indent_width c + n) 0 cs, t').

Definition identifier_char (c : char) : bool := is_alphanumeric c || eqc c "_" || eqc c "-".
Definition read_identifier t : text * Tokenizer := read_while identifier_char (rest t) t.

Fixpoint read_digits (has_dot : bool) (l : text) t : text * Tokenizer :=
  match l with
  | c :: l' =>
      if is_numeric c then
        let '(cs, t') := read_digits has_dot l' (advance t) in (c :: cs, t')
      else if eqc c "." && negb has_dot && from_option is_numeric false (peek_char t 1) then
        let '(cs, t') := read_digits true l' (advance t) in (c :: cs, t')
      else ([], t)
  | [] => ([], t)
  end.

Definition read_number (from : Position) t : result ParseError (f64 * Tokenizer) :=
  let '(sign, t) := if from_option (fun c => eqc c "-") false (current_char t)
                    then ([ch "-"], advance t) else ([], t) in
  let '(cs, t) := read_digits false (rest t) t in
  match f64_parse (sign ++ cs) with
  | Some n => Ok (n, t)
  | None => Err (InvalidNumber (mkSpan from (current_position t)))
  end.

Definition unescape (c : char) : option char :=
  if eqc c "n" then Some (ch newline) else if eqc c "t" then Some (ch tab)
  else if eqc c "r" then Some (ch return_) else if eqc c quote then Some (ch quote)
  else if eqc c backslash then Some (ch backslash) else None.

Fixpoint string_loop (from : Position) (l : text) t : result ParseError (text * Tokenizer) :=
  match l with
  | [] => Err (UnterminatedString (mkSpan from (current_position t)))
  | c :: l' =>
      if eqc c quote then Ok ([], advance t)
      else if eqc c backslash then
        let t := advance t in
        match l' with
        | [] => Err (UnterminatedString (mkSpan from (current_position t)))
        | e :: l'' =>
            match unescape e with
            | None => Err (InvalidEscape (current_position t))
            | Some d => '(s, t') ← string_loop from l'' (advance t); Ok (d :: s, t')
            end
        end
      else if eqc c newline then Err (UnterminatedString (mkSpan from (current_position t)))
      else '(s, t') ← string_loop from l' (advance t); Ok (c :: s, t')
  end.
Definition read_string (from : Position) t : result ParseError (text * Tokenizer) :=
  let t := advance t in string_loop from (rest t) t.

(** [str::trim]. *)
Fixpoint trim_start (s : text) : text :=
  match s with c :: s' => if is_whitespace c then trim_start s' else s | [] => [] end.
Definition trim (s : text) : text := reverse (trim_start (reverse (trim_start s))).

Definition read_unquoted_value t : text * Tokenizer :=
  let '(cs, t') := read_while (fun c => negb (among c [newline; "{"; "}"; "["; "]"; ","]%char)) (rest t) t in
  (trim cs, t').

Definition keyword (ident : text) : TokenKind :=
  let u := to_uppercase ident in
  if bool_decide (u = txt "END") then End
  else if bool_decide (u = txt "TRUE") then Boolean true
  else if bool_decide (u = txt "FALSE") then Boolean false
  else Identifier ident.

(** The token for a one-character lexeme. *)
Definition punctuation (c : char) : option TokenKind :=
  if eqc c newline then Some Newline else if eqc c ":" then Some Colon
  else if eqc c "{" then Some LeftBrace else if eqc c "}" then Some RightBrace
  else if eqc c "[" then Some LeftBracket else if eqc c "]" then Some RightBracket
  else if eqc c "," then Some Comma else None.

Definition starts_number t (c : char) : bool :=
  is_numeric c || (eqc c "-" && from_option is_numeric false (peek_char t 1)).

(** [next_token] after the indentation. *)
Definition next_content t : result ParseError (Token * Tokenizer) :=
  let t := skip_whitespace_except_newline t in
  let from := current_position t in
  let token k t' := (mkToken k (mkSpan from (current_position t')), t') in
  match current_char t with
  | None => Ok (mkToken Eof (single from), t)
  | Some c =>
      match punctuation c with
      | Some k => Ok (token k (advance t))
      | None =>
          if eqc c quote then '(s, t') ← read_string from t; Ok (token (StringT s) t')
          else if starts_number t c then '(n, t') ← read_number from t; Ok (token (Number n) t')
          else if is_alphabetic c || eqc c "_" then
            let '(ident, t') := read_identifier t in Ok (token (keyword ident) t')
          else
            let '(value, t') := read_unquoted_value t in
            match value with
            | [] => Err (InvalidCharacter (default 0%N (current_char t')) from)
            | _ => Ok (token (StringT value) t')
            end
      end
  end.

Definition next_token t : result ParseError (Token * Tokenizer) :=
  if at_line_start t then
    let '(indent, t) := count_indent t in
    match current_char t with
    | Some c =>
        if eqc c newline then next_content t
        else
          let t := leave_line_start t in
          if 0 <? indent then
            let from := mkPosition (t_line t) 1 (usize_sub (position t) indent) in
            Ok (mkToken (Indent indent) (mkSpan from (current_position t)), t)
          else next_content t
    | None => next_content t
    end
  else next_content t.

(** [tokenize]: the loop stops at the end of the input; [None] is a loop that has
    not stopped. *)
Fixpoint tokenize_loop (fuel : nat) t : option (result ParseError (list Token)) :=
  match fuel with
  | O => None
  | S fuel' =>
      match next_token t with
      | Err e => Some (Err e)
      | Ok (tok, t') =>
          match kind tok with
          | Eof => Some (Ok [tok])
          | _ =>
              match tokenize_loop fuel' t' with
              | Some (Ok toks) => Some (Ok (tok :: toks))
              | r => r
              end
          end
      end
  end.
Definition tokenize (input : text) : option (result ParseError (list Token)) :=
  tokenize_loop (S (length input)) (tokenizer_new input).

(** [peek]: the token, and the tokenizer as it was. *)
Definition peek t : result ParseError (Token * Tokenizer) :=
  '(tok, _) ← next_token t; Ok (tok, t).

End Tokenizing.

(** ** Documents ([ast.rs]) *)

Inductive LogLineValue `{F64Text} : Type :=
| Str (s : text)
| Num (n : f64)
| Bool (b : bool)
| List (l : list LogLineValue)
| Object (fields : list (text * LogLineValue)).

Record LogLineSpan `{F64Text} : Type := mkLogLineSpan {
  type_ : text; name : option text; params : list (text * LogLineValue); source_span : option Span }.
Arguments mkLogLineSpan {_} type_ name params source_span.

(** [eq_ignore_ascii_case]. *)
Definition ascii_lower_char (c : char) : char := if ((65 <=? c) && (c <=? 90))%N then (c + 32)%N else c.
Definition eq_ignore_ascii_case (a b : text) : bool :=
  bool_decide (ascii_lower_char <$> a = ascii_lower_char <$> b).

Section Documents.
Context `{FT : F64Text}.
Implicit Types (v : LogLineValue) (d : LogLineSpan).

Definition as_str v : option text := match v with Str s => Some s | _ => None end.
Definition as_num v : option f64 := match v with Num n => Some n | _ => None end.
Definition as_bool v : option bool := match v with Bool b => Some b | _ => None end.
Definition as_list v : option (list LogLineValue) := match v with List l => Some l | _ => None end.
Definition as_object v : option (list (text * LogLineValue)) := match v with Object o => Some o | _ => None end.

(** The first field whose key matches. *)
Definition find_key {A} (key : text) (l : list (text * A)) : option A :=
  snd <$> List.find (fun kv => eq_ignore_ascii_case (fst kv) key) l.
Definition value_get v (key : text) : option LogLineValue :=
  match v with Object fields => find_key key fields | _ => None end.

Definition span_new (ty : text) : LogLineSpan := mkLogLineSpan ty None [] None.
Definition with_name (n : text) d : LogLineSpan := mkLogLineSpan (type_ d) (Some n) (params d) (source_span d).
Definition with_param (key : text) v d : LogLineSpan :=
  mkLogLineSpan (type_ d) (name d) (params d ++ [(key, v)]) (source_span d).
Definition with_str (key s : text) d : LogLineSpan := with_param key (Str s) d.
Definition with_num (key : text) (n : f64) d : LogLineSpan := with_param key (Num n) d.
Definition with_bool (key : text) (b : bool) d : LogLineSpan := with_param key (Bool b) d.
Definition get d (key : text) : option LogLineValue := find_key key (params d).
Definition get_str d (key : text) : option text := get d key ≫= as_str.
Definition get_num d (key : text) : option f64 := get d key ≫= as_num.
Definition get_bool d (key : text) : option bool := get d key ≫= as_bool.
Definition has d (key : text) : bool := bool_decide (is_Some (get d key)).
Definition keys d : list text := fst <$> params d.
End Documents.

(** ** The parser ([parser.rs])

    [left] is the token list from [position] on.  A run fails, returns, or
    [Diverges]: the fuel is out and a loop has not stopped. *)

Definition MAX_NESTING_DEPTH : Z := 32.

Record Parser `{F64Text} : Type := mkParser { tokens : list Token; left : list Token; depth : Z }.
Arguments mkParser {_} tokens left depth.

Inductive outcome (A : Type) : Type :=
| Diverges
| Fails (e : ParseError)
| Returns (a : A).
Arguments Diverges {A}.
Arguments Fails {A} e.
Arguments Returns {A} a.
#[export] Instance outcome_bind : MBind outcome := fun A B f m =>
  match m with Diverges => Diverges | Fails e => Fails e | Returns a => f a end.

Section Parsing.
Context `{CC : CharClass} `{FT : F64Text}.
Implicit Types (p : Parser).

Definition parser_new (toks : list Token) : Parser := mkParser toks toks 0.
Definition set_left p (l : list Token) : Parser := mkParser (tokens p) l (depth p).
Definition current p : option Token := head (left p).
Definition current_kind p : option TokenKind := kind <$> current p.
Definition next p : Parser := set_left p (tail (left p)).
Definition deeper p : Parser := mkParser (tokens p) (left p) (depth p + 1).
Definition shallower p : Parser := mkParser (tokens p) (left p) (depth p - 1).

(** [self.tokens.last().map(|t| t.span.end).unwrap_or_default()] and
    [self.current().map(|t| t.span).unwrap_or_default()]. *)
Definition end_position p : Position := default position_default ((fun tok => end_ (span tok)) <$> last (tokens p)).
Definition current_span p : Span := default span_default (span <$> current p).
Definition found p : text := default [] (kind_display <$> current_kind p).

Definition is_eof p : bool := match current_kind p with Some Eof | None => true | _ => false end.

Definition expect p : result ParseError (Token * Parser) :=
  match current p with
  | Some tok => Ok (tok, next p)
  | None => Err (UnexpectedEof (end_position p))
  end.

Fixpoint drop_layout (l : list Token) : list Token :=
  match l with
  | tok :: l' => match kind tok with Newline | Indent _ => drop_layout l' | _ => l end
  | [] => []
  end.
Definition skip_whitespace p : Parser := set_left p (drop_layout (left p)).

Fixpoint drop_newlines (l : list Token) : list Token :=
  match l with
  | tok :: l' => match kind tok with Newline => drop_newlines l' | _ => l end
  | [] => []
  end.
Definition skip_newlines p : Parser := set_left p (drop_newlines (left p)).

Definition skip_comma p : Parser :=
  match current_kind p with Some Comma => next p | _ => p end.

(** The words of an unquoted value: the tokens up to a delimiter. *)
Fixpoint words (l : list Token) : list text * list Token :=
  match l with
  | [] => ([], [])
  | tok :: l' =>
      let keep part := let '(parts, r) := words l' in (part :: parts, r) in
      match kind tok with
      | Newline | End | Eof | LeftBrace | LeftBracket | RightBrace | RightBracket | Comma => ([], l)
      | Identifier s | StringT s => keep s
      | Number n => keep (f64_to_string n)
      | Boolean b => keep (bool_text b)
      | Colon => keep (txt ":")
      | Indent _ => words l'
      end
  end.
Fixpoint join_words (parts : list text) : text :=
  match parts with
  | [] => []
  | [w] => w
  | w :: parts' => w ++ ch " " :: join_words parts'
  end.

Fixpoint parse_value (fuel : nat) p {struct fuel} : outcome (LogLineValue * Parser) :=
  match fuel with
  | O => Diverges
  | S fuel' =>
      if MAX_NESTING_DEPTH <? depth p then Fails (NestingTooDeep MAX_NESTING_DEPTH (current_span p))
      else
        match current_kind p with
        | Some (StringT s) => Returns (Str s, next p)
        | Some (Number n) => Returns (Num n, next p)
        | Some (Boolean b) => Returns (Bool b, next p)
        | Some (Identifier _) => let '(parts, l) := words (left p) in Returns (Str (join_words parts), set_left p l)
        | Some LeftBrace => '(v, p') ← parse_object fuel' (deeper p); Returns (v, shallower p')
        | Some LeftBracket => '(v, p') ← parse_array fuel' (deeper p); Returns (v, shallower p')
        | _ => Returns (Str [], p)
        end
  end
with parse_object (fuel : nat) p {struct fuel} : outcome (LogLineValue * Parser) :=
  match fuel with
  | O => Diverges
  | S fuel' =>
      match current_kind p with
      | Some LeftBrace => object_loop fuel' [] (next p)
      | _ => Fails (UnexpectedToken (txt "'{'") (found p) (current_span p))
      end
  end
with object_loop (fuel : nat) (fields : list (text * LogLineValue)) p {struct fuel} : outcome (LogLineValue * Parser) :=
  match fuel with
  | O => Diverges
  | S fuel' =>
      let p := skip_whitespace p in
      match current_kind p with
      | Some RightBrace => Returns (Object fields, next p)
      | Some Eof | None => Fails (UnexpectedEof (end_position p))
      | Some (Identifier _) =>
          '(kv, p') ← parse_param fuel' p;
          object_loop fuel' (fields ++ [kv]) (skip_comma (skip_whitespace p'))
      | _ => object_loop fuel' fields (next p)
      end
  end
with parse_array (fuel : nat) p {struct fuel} : outcome (LogLineValue * Parser) :=
  match fuel with
  | O => Diverges
  | S fuel' =>
      match current_kind p with
      | Some LeftBracket => array_loop fuel' [] (next p)
      | _ => Fails (UnexpectedToken (txt "'['") (found p) (current_span p))
      end
  end
with array_loop (fuel : nat) (items : list LogLineValue) p {struct fuel} : outcome (LogLineValue * Parser) :=
  match fuel with
  | O => Diverges
  | S fuel' =>
      let p := skip_whitespace p in
      match current_kind p with
      | Some RightBracket => Returns (List items, next p)
      | Some Eof | None => Fails (UnexpectedEof (end_position p))
      | _ =>
          '(v, p') ← parse_value fuel' p;
          array_loop fuel' (items ++ [v]) (skip_comma (skip_whitespace p'))
      end
  end
with parse_param (fuel : nat) p {struct fuel} : outcome ((text * LogLineValue) * Parser) :=
  match fuel with
  | O => Diverges
  | S fuel' =>
      match current_kind p with
      | Some (Identifier s) =>
          let key := to_lowercase s in
          let p := next p in
          match current_kind p with
          | Some Colon => '(v, p') ← parse_value fuel' (next p); Returns ((key, v), p')
          | _ => Returns ((key, Bool true), p)
          end
      | _ => Fails InvalidHeader
      end
  end.

Fixpoint params_loop (fuel : nat) (acc : list (text * LogLineValue)) p : outcome (list (text * LogLineValue) * Parser) :=
  match fuel with
  | O => Diverges
  | S fuel' =>
      let p := skip_whitespace p in
      match current_kind p with
      | Some End | Some Eof | None | Some RightBrace => Returns (acc, p)
      | Some (Identifier _) =>
          '(kv, p') ← parse_param fuel' p; params_loop fuel' (acc ++ [kv]) p'
      | _ => params_loop fuel' acc (next p)
      end
  end.
Definition parse_params (fuel : nat) p := params_loop fuel [] p.

Definition parse_optional_name p : option text * Parser :=
  match current_kind p with
  | Some (Identifier s) | Some (StringT s) => (Some s, next p)
  | Some (Number n) => (Some (f64_to_string n), next p)
  | _ => (None, p)
  end.

Definition parse_header p : result ParseError (text * option text * Span * Parser) :=
  match current p with
  | Some tok =>
      match kind tok with
      | Identifier s =>
          let p := next p in
          match current_kind p with
          | Some Colon => let '(nm, p) := parse_optional_name (next p) in Ok (to_lowercase s, nm, span tok, p)
          | _ => Err InvalidHeader
          end
      | _ => Err InvalidHeader
      end
  | None => Err InvalidHeader
  end.

Definition parse (fuel : nat) p : outcome LogLineSpan :=
  let p := skip_whitespace p in
  match parse_header p with
  | Err e => Fails e
  | Ok (ty, nm, start_span, p) =>
      '(ps, p) ← parse_params fuel p;
      let p := skip_whitespace p in
      match current_kind p with
      | Some End =>
          let p := next p in
          let end_span := default start_span (span <$> current p) in
          Returns (mkLogLineSpan ty nm ps (Some (mkSpan (start start_span) (end_ end_span))))
      | _ => Fails MissingEnd
      end
  end.

Definition parse_logline (fuel : nat) (input : text) : outcome LogLineSpan :=
  match trim input with
  | [] => Fails EmptyInput
  | _ =>
      match tokenize input with
      | None => Diverges
      | Some (Err e) => Fails e
      | Some (Ok toks) => parse fuel (parser_new toks)
      end
  end.
End Parsing.

(** ** The serializer ([serializer.rs]) *)

Record SerializeOptions : Type := mkSerializeOptions {
  indent : text; uppercase_keywords : bool; quote_strings : bool }.
Definition options_default : SerializeOptions := mkSerializeOptions (txt "  ") true false.

Definition needs_quoting (s : text) : bool :=
  match s with
  | [] => true
  | _ => existsb (fun c => among c [quote; backslash; newline; return_; tab; "{"; "}"; "["; "]"; ","]%char) s
  end.

Definition escape_char (c : char) : text :=
  if eqc c quote then [ch backslash; ch quote]
  else if eqc c backslash then [ch backslash; ch backslash]
  else if eqc c newline then [ch backslash; ch "n"]
  else if eqc c return_ then [ch backslash; ch "r"]
  else if eqc c tab then [ch backslash; ch "t"]
  else [c].
Definition escape_string (s : text) : text := concat (escape_char <$> s).

Definition repeat_text (s : text) (n : nat) : text := concat (replicate n s).

Section Serializing.
Context `{CC : CharClass} `{FT : F64Text}.

Definition string_text (quote_it : bool) (s : text) : text :=
  if quote_it || needs_quoting s then quoted (escape_string s) else s.
Definition number_text (n : f64) : text :=
  if f64_integral n then txt (i_to_string (f64_as_i64 n)) else f64_to_string n.
Definition keyword_text (o : SerializeOptions) (key : text) : text :=
  if uppercase_keywords o then to_uppercase key else key.

(** The items of a list, separated; the fields of an object, a line each. *)
Definition items_text {A} (f : A -> text) : list A -> text :=
  fix go l := match l with [] => [] | [x] => f x | x :: l' => f x ++ txt ", " ++ go l' end.
Definition fields_text {A} (f : A -> text) (before : text) (o : SerializeOptions) : list (text * A) -> text :=
  fix go l :=
    match l with
    | [] => []
    | (key, x) :: l' => before ++ keyword_text o key ++ txt ": " ++ f x ++ [ch newline] ++ go l'
    end.

(** What [serialize_value] appends to the output. *)
Fixpoint serialize_value (o : SerializeOptions) (depth : nat) (v : LogLineValue) : text :=
  match v with
  | Str s => string_text (quote_strings o) s
  | Num n => number_text n
  | Bool b => bool_text b
  | List items => [ch "["] ++ items_text (serialize_value o (S depth)) items ++ [ch "]"]
  | Object fields =>
      [ch "{"; ch newline] ++ fields_text (serialize_value o (S depth)) (repeat_text (indent o) (S depth)) o fields
        ++ repeat_text (indent o) depth ++ [ch "}"]
  end.

Definition serialize_with_options (d : LogLineSpan) (o : SerializeOptions) : text :=
  keyword_text o (type_ d) ++ txt ":"
    ++ match name d with Some n => txt " " ++ string_text false n | None => [] end
    ++ [ch newline] ++ fields_text (serialize_value o 1) (indent o) o (params d) ++ txt "END".

Definition serialize_logline (d : LogLineSpan) : text := serialize_with_options d options_default.

(** *** [LogLineBuilder] *)

Record LogLineBuilder : Type := mkBuilder { b_span : LogLineSpan; b_options : SerializeOptions }.
Definition builder_new (ty : text) : LogLineBuilder := mkBuilder (span_new ty) options_default.
Definition on_span (f : LogLineSpan -> LogLineSpan) (b : LogLineBuilder) : LogLineBuilder := mkBuilder (f (b_span b)) (b_options b).
Definition b_name (n : text) : LogLineBuilder -> LogLineBuilder := on_span (with_name n).
Definition b_str (key s : text) : LogLineBuilder -> LogLineBuilder := on_span (with_str key s).
Definition b_num (key : text) (n : f64) : LogLineBuilder -> LogLineBuilder := on_span (with_num key n).
Definition b_bool (key : text) (x : bool) : LogLineBuilder -> LogLineBuilder := on_span (with_bool key x).
Definition b_list (key : text) (l : list LogLineValue) : LogLineBuilder -> LogLineBuilder := on_span (with_param key (List l)).
Definition b_object (key : text) (fs : list (text * LogLineValue)) : LogLineBuilder -> LogLineBuilder := on_span (with_param key (Object fs)).
Definition build (b : LogLineBuilder) : LogLineSpan := b_span b.
Definition b_to_string (b : LogLineBuilder) : text := serialize_with_options (b_span b) (b_options b).
End Serializing.
