(* ===== verification/LoglineFacts.v ===== *)
(** * Theorems on the LogLine language

    The tokenizer stops and its positions are those of the text; the parser stops
    on a stream without arrays and does not on a stray delimiter in one; a
    serialized document reads back. *)

From S2P Require Import Prelude RustStd Logline.
Local Open Scope string_scope.
Local Open Scope Z_scope.
Local Open Scope list_scope.

(** ** The documented behaviour of [char] on ASCII *)

Class CharLaws (CC : CharClass) : Prop := {
  alphabetic_ascii c : (c < 128)%N -> is_alphabetic c = ((65 <=? c) && (c <=? 90) || (97 <=? c) && (c <=? 122))%N;
  numeric_ascii c : (c < 128)%N -> is_numeric c = ((48 <=? c) && (c <=? 57))%N;
  whitespace_ascii c : (c < 128)%N -> is_whitespace c = ((9 <=? c) && (c <=? 13) || (c =? 32))%N;
  upper_true : to_uppercase (txt "true") = txt "TRUE";
  upper_false : to_uppercase (txt "false") = txt "FALSE";
  upper_end : to_uppercase (txt "END") = txt "END" }.

(** ** Positions: the tokenizer stands where the text says *)

Section Positions.
Context `{CC : CharClass} `{FT : F64Text}.
Implicit Types (t : Tokenizer).

(** The position after a prefix of the input, in characters. *)
Definition step_position (p : Position) (c : char) : Position :=
  if eqc c newline then mkPosition (line p + 1) 1 (offset p + 1) else mkPosition (line p) (column p + 1) (offset p + 1).
Definition position_after (before : text) : Position := foldl step_position position_start before.

Definition stands (input : text) t : Prop :=
  exists before, input = before ++ rest t /\ current_position t = position_after before.

Lemma stands_new input : stands input (tokenizer_new input).
Proof. by exists []. Qed.

Lemma stands_advance input t : stands input t -> stands input (advance t).
Proof.
  intros (before & Hin & Hp). unfold advance. destruct (rest t) as [|c r] eqn:Hr; [by exists before; rewrite Hr|].
  exists (before ++ [c]).
  assert (Hp' : position_after (before ++ [c]) = step_position (current_position t) c).
  { rewrite Hp. unfold position_after. by rewrite foldl_app. }
  rewrite Hp'. unfold step_position. split; destruct (eqc c newline); cbn [rest]; try done;
    by rewrite Hin, <- app_assoc.
Qed.

(** What the reading loops do to the tokenizer: [adv n] advances. *)
Fixpoint adv (n : nat) t : Tokenizer := match n with O => t | S n' => adv n' (advance t) end.

Lemma adv_S n t : adv (S n) t = adv n (advance t).
Proof. done. Qed.
Lemma adv_plus m n t : adv n (adv m t) = adv (m + n) t.
Proof. revert t; induction m as [|m IH]; intros t; [done|]. cbn [Nat.add]. by rewrite !adv_S. Qed.

Lemma stands_adv input n t : stands input t -> stands input (adv n t).
Proof. revert t; induction n as [|n IH]; intros t H; [done|]. rewrite adv_S. apply IH. by apply stands_advance. Qed.

Lemma rest_adv n t : rest (adv n t) = drop n (rest t).
Proof.
  revert t; induction n as [|n IH]; intros t; [by rewrite drop_0|]. rewrite adv_S, IH.
  unfold advance. destruct (rest t) as [|c r] eqn:E; [by rewrite E, !drop_nil|]. by destruct (eqc c newline).
Qed.

Lemma read_while_adv p l t : exists n, read_while p l t = (take n l, adv n t) /\ Forall p (take n l).
Proof.
  revert t; induction l as [|c l IH]; intros t; [by exists 0%nat|]. cbn [read_while].
  destruct (p c) eqn:E; [|exists 0%nat; by rewrite take_0].
  destruct (IH (advance t)) as (n & -> & H). exists (S n). rewrite adv_S. cbn [take]. split; [done|]. constructor; [by rewrite E|done].
Qed.

Lemma read_digits_adv d l t : exists n, snd (read_digits d l t) = adv n t /\ (n <> 0%nat \/ fst (read_digits d l t) = []).
Proof.
  revert d t; induction l as [|c l IH]; intros d t; [by exists 0%nat; auto|]. cbn [read_digits].
  assert (Hgo : forall d', exists n, snd (let '(cs, t') := read_digits d' l (advance t) in (c :: cs, t')) = adv n t /\ n <> 0%nat).
  { intros d'. destruct (IH d' (advance t)) as (n & H & _). destruct (read_digits d' l (advance t)) as [cs t'].
    exists (S n). by rewrite adv_S. }
  destruct (is_numeric c); [destruct (Hgo d) as (n & H & ?); exists n; auto|].
  destruct (_ && _); [destruct (Hgo true) as (n & H & ?); exists n; auto|]. by exists 0%nat; auto.
Qed.

Lemma string_loop_adv from l t s t' : string_loop from l t = Ok (s, t') -> exists n, t' = adv (S n) t.
Proof.
  revert l t s t'. fix IH 1. intros [|c l] t s t'; cbn [string_loop]; [discriminate|].
  destruct (eqc c quote). { intros [= _ <-]. by exists 0%nat. }
  destruct (eqc c backslash).
  - destruct l as [|e l']; [discriminate|]. destruct (unescape e); [|discriminate].
    destruct (string_loop from l' _) as [[s1 t1]|] eqn:E; [|discriminate]. intros [= _ <-].
    apply IH in E as [n ->]. by exists (S (S n)).
  - destruct (eqc c newline); [discriminate|].
    destruct (string_loop from l _) as [[s1 t1]|] eqn:E; [|discriminate]. intros [= _ <-].
    apply IH in E as [n ->]. by exists (S n).
Qed.

Definition located (input : text) (sp : Span) : Prop :=
  exists b1 b2 b3, input = b1 ++ b2 ++ b3 /\ start sp = position_after b1 /\ end_ sp = position_after (b1 ++ b2).

Lemma adv_position n t : exists k, rest t = take k (rest t) ++ rest (adv n t) /\
  forall before, current_position t = position_after before ->
    current_position (adv n t) = position_after (before ++ take k (rest t)).
Proof.
  revert t; induction n as [|n IH]; intros t; [exists 0%nat; split; [done|]; intros b; by rewrite app_nil_r|].
  cbn [adv]. destruct (IH (advance t)) as (k & Hr & Hp). unfold advance in *.
  destruct (rest t) as [|c r] eqn:E; [exists k; by rewrite E in *|].
  exists (S k). cbn [take app]. split.
  - f_equal. by destruct (eqc c newline); rewrite Hr at 1.
  - intros b Hb. rewrite cons_middle, app_assoc.
    assert (Hs : position_after (b ++ [c]) = step_position (current_position t) c).
    { rewrite Hb. unfold position_after. by rewrite foldl_app. }
    destruct (eqc c newline) eqn:En; cbn [rest] in *; apply Hp; rewrite Hs; unfold step_position; by rewrite En.
Qed.

Lemma located_adv input m n t : stands input t ->
  located input (mkSpan (current_position (adv m t)) (current_position (adv n (adv m t)))).
Proof.
  intros H. apply (stands_adv _ m) in H. destruct H as (b & -> & Hp). destruct (adv_position n (adv m t)) as (k & Hr & Hn).
  exists b, (take k (rest (adv m t))), (rest (adv n (adv m t))). cbn [start end_]. by rewrite <- Hr, <- (Hn b Hp).
Qed.

(** Where a failure is reported. *)
Definition error_from (t0 : Tokenizer) (m : nat) (e : ParseError) : Prop :=
  exists j n, error_span e = Some (mkSpan (current_position (adv (m + j) t0)) (current_position (adv n (adv (m + j) t0)))).

Lemma string_loop_error m t0 l n t e : t = adv n (adv m t0) ->
  string_loop (current_position (adv m t0)) l t = Err e -> error_from t0 m e.
Proof.
  revert n t. induction l as [l IH] using (induction_ltof1 _ (@length char)). unfold ltof in IH.
  intros n t Ht. destruct l as [|c l]; cbn [string_loop].
  - intros [= <-]. exists 0%nat, n. rewrite Nat.add_0_r. by subst t.
  - assert (Hadv : advance t = adv (S n) (adv m t0)).
    { subst t. by rewrite <- Nat.add_1_r, <- adv_plus. }
    destruct (eqc c quote); [discriminate|]. destruct (eqc c backslash).
    + destruct l as [|x l'].
      { intros [= <-]. exists 0%nat, (S n). by rewrite Nat.add_0_r, <- Hadv. }
      destruct (unescape x).
      * destruct (string_loop _ l' _) as [[s1 t1]|] eqn:E; [discriminate|]. intros [= <-].
        apply (IH l' ltac:(cbn; lia) (S (S n)) (advance (advance t))); [|done].
        by rewrite Hadv, <- (Nat.add_1_r (S n)), <- adv_plus.
      * intros [= <-]. exists (S n), 0%nat. cbn [error_span adv]. by rewrite Hadv, adv_plus.
    + destruct (eqc c newline).
      { intros [= <-]. exists 0%nat, n. rewrite Nat.add_0_r. by subst t. }
      destruct (string_loop _ l _) as [[s1 t1]|] eqn:E; [discriminate|]. intros [= <-].
      by apply (IH l ltac:(cbn; lia) (S n) (advance t)).
Qed.

Lemma read_number_spec t0 m :
  match read_number (current_position (adv m t0)) (adv m t0) with
  | Ok (_, t') => exists n, t' = adv n (adv m t0) /\
      (from_option (starts_number (adv m t0)) false (current_char (adv m t0)) = true -> n <> 0%nat)
  | Err e => error_from t0 m e
  end.
Proof.
  set (t := adv m t0). unfold read_number, starts_number.
  destruct (from_option (fun c => eqc c "-") false (current_char t)) eqn:Hsign.
  - destruct (read_digits_adv false (rest (advance t)) (advance t)) as (n & Hn & _).
    destruct (read_digits _ _ _) as [cs t'] eqn:E. cbn in Hn. subst t'. destruct (f64_parse _).
    + exists (S n). split; [done|lia].
    + exists 0%nat, (S n). by rewrite Nat.add_0_r.
  - destruct (read_digits_adv false (rest t) t) as (n & Hn & H0).
    destruct (read_digits _ _ _) as [cs t'] eqn:E. cbn in Hn, H0. subst t'. destruct (f64_parse _).
    + exists n. split; [done|]. intros Hs. destruct H0 as [?| ->]; [done|]. exfalso.
      unfold current_char in *. destruct (rest t) as [|c r]; [done|]. cbn in *. rewrite Hsign, orb_false_r in Hs.
      rewrite Hs in E. destruct (read_digits _ r _). discriminate E.
    + exists 0%nat, n. by rewrite Nat.add_0_r.
Qed.

Lemma next_content_spec t :
  match next_content t with
  | Ok (tok, t') => exists m n, t' = adv n (adv m t) /\ span tok = mkSpan (current_position (adv m t)) (current_position t') /\
      (kind tok = Eof \/ n <> 0%nat /\ rest (adv m t) <> []) /\ (forall w, kind tok <> Indent w)
  | Err e => exists m, error_from t m e
  end.
Proof.
  unfold next_content, skip_whitespace_except_newline.
  destruct (read_while_adv (fun c => among c [" "%char; tab; return_]) (rest t) t) as (m & -> & _). cbn [snd].
  destruct (current_char (adv m t)) as [c|] eqn:Hc.
  2:{ exists m, 0%nat. repeat split; [by left|done]. }
  assert (Hr : rest (adv m t) <> []) by (unfold current_char in Hc; by destruct (rest (adv m t))).
  destruct (punctuation c) as [k|] eqn:Hk.
  { exists m, 1%nat. repeat split; [by right|]. cbn [kind]. intros w ->. unfold punctuation in Hk.
    repeat (destruct (eqc c _); [discriminate Hk|]). discriminate Hk. }
  destruct (eqc c quote).
  { unfold read_string. destruct (string_loop _ _ (advance (adv m t))) as [[s t']|e] eqn:E.
    - apply string_loop_adv in E as [n ->]. exists m, (S (S n)). repeat split; [by right|done].
    - exists m. by apply (string_loop_error m t _ 1%nat) in E. }
  destruct (starts_number (adv m t) c) eqn:Hnum.
  { pose proof (read_number_spec t m) as H. destruct (read_number _ _) as [[x t']|e]; [|by exists m].
    destruct H as (n & -> & Hn). exists m, n. rewrite Hc in Hn. repeat split; [|done]. right. split; [by apply Hn|done]. }
  destruct (is_alphabetic c || eqc c "_") eqn:Ha.
  - unfold read_identifier. destruct (read_while_adv identifier_char (rest (adv m t)) (adv m t)) as (n & Hn & Hall).
    pose proof Hn as Hn'. rewrite Hn. exists m, n. repeat split.
    + right. split; [|done]. intros ->. unfold current_char in Hc. destruct (rest (adv m t)) as [|c' r]; [done|].
      cbn in Hc. injection Hc as ->. cbn [read_while take] in Hn'.
      assert (Hi : identifier_char c = true).
      { unfold identifier_char, is_alphanumeric. by destruct (is_alphabetic c), (eqc c "_"), (is_numeric c). }
      rewrite Hi in Hn'. destruct (read_while _ r _). discriminate Hn'.
    + intros w. unfold keyword. by repeat case_bool_decide.
  - unfold read_unquoted_value.
    set (p := fun c => negb _).
    destruct (read_while_adv p (rest (adv m t)) (adv m t)) as (n & -> & Hall).
    destruct (trim (take n (rest (adv m t)))) as [|x v] eqn:Hv.
    + exists m, 0%nat, 0%nat. by rewrite Nat.add_0_r.
    + exists m, n. repeat split; [|done]. right. split; [|done]. by intros ->.
Qed.

(** Leaving the start of a line moves nothing. *)
Definition same_place (t u : Tokenizer) : Prop := rest t = rest u /\ current_position t = current_position u.

Lemma same_place_adv n t u : same_place t u -> same_place (adv n t) (adv n u).
Proof.
  revert t u; induction n as [|n IH]; intros t u H; [done|]. apply IH. destruct H as [Hr Hp].
  unfold current_position in Hp. injection Hp as Hl Hc Hp. unfold same_place, advance, current_position. rewrite Hr, Hl, Hc, Hp.
  destruct (rest u) as [|c r] eqn:E; [by rewrite Hr, Hl, Hc, Hp|]. by destruct (eqc c newline).
Qed.

Lemma error_from_shift m0 t u m e : same_place u (adv m0 t) -> error_from u m e -> error_from t (m0 + m) e.
Proof.
  intros H (j & n & He). exists j, n. rewrite He.
  pose proof (same_place_adv (m + j) _ _ H) as H1. pose proof (same_place_adv n _ _ H1) as H2.
  rewrite (proj2 H1), (proj2 H2), !adv_plus. do 4 f_equal; lia.
Qed.

Definition token_from (t : Tokenizer) (tok : Token) (t' : Tokenizer) : Prop :=
  exists m n, same_place t' (adv n (adv m t)) /\
    span tok = mkSpan (current_position (adv m t)) (current_position (adv n (adv m t))) /\
    (kind tok = Eof \/ n <> 0%nat /\ rest (adv m t) <> []).

Lemma next_content_from m0 t u : same_place u (adv m0 t) ->
  match next_content u with
  | Ok (tok, t') => token_from t tok t' /\ (forall w, kind tok <> Indent w)
  | Err e => exists m, error_from t m e
  end.
Proof.
  intros H. pose proof (next_content_spec u) as Hs. destruct (next_content u) as [[tok t']|e].
  - destruct Hs as (m & n & -> & Hsp & Hk & Hi). split; [|done].
    pose proof (same_place_adv m _ _ H) as H1. pose proof (same_place_adv n _ _ H1) as H2. rewrite (adv_plus m0 m) in H1, H2.
    exists (m0 + m)%nat, n. split; [done|]. by rewrite Hsp, (proj2 H1), (proj2 H2), <- (proj1 H1).
  - destruct Hs as [m Hm]. exists (m0 + m)%nat. by eapply error_from_shift.
Qed.

Lemma next_token_spec t :
  match next_token t with
  | Ok (tok, t') =>
      token_from t tok t' \/
      (exists w m, kind tok = Indent w /\ m <> 0%nat /\ rest t <> [] /\ same_place t' (adv m t))
  | Err e => exists m, error_from t m e
  end.
Proof.
  assert (Hcont : forall m u, same_place u (adv m t) ->
    match next_content u with
    | Ok (tok, t') => token_from t tok t' \/
        (exists w m, kind tok = Indent w /\ m <> 0%nat /\ rest t <> [] /\ same_place t' (adv m t))
    | Err e => exists m, error_from t m e
    end).
  { intros m u H. apply next_content_from in H. destruct (next_content u) as [[tok t']|e]; [left; apply H|done]. }
  unfold next_token. destruct (at_line_start t); [|by apply (Hcont 0%nat)].
  unfold count_indent. destruct (read_while_adv (fun c => among c [" "%char; tab]) (rest t) t) as (m & -> & _).
  destruct (current_char (adv m t)) as [c|] eqn:Hc; [|by apply (Hcont m)].
  destruct (eqc c newline); [by apply (Hcont m)|].
  destruct (0 <? _) eqn:Hw; [|by apply (Hcont m)].
  right. eexists _, m. split; [done|].
  destruct m as [|m]; [by rewrite take_0 in Hw|]. split; [done|]. split; [|done].
  intros E. rewrite E in Hw. by cbn in Hw.
Qed.

Lemma token_from_progress t tok t' : token_from t tok t' -> kind tok = Eof \/ (length (rest t') < length (rest t))%nat.
Proof.
  intros (m & n & [Hr _] & _ & [?|[Hn Hne]]); [by left|right]. rewrite Hr, rest_adv, length_drop.
  rewrite rest_adv in *. assert (length (drop m (rest t)) <> 0%nat) as Hd by (by destruct (drop m (rest t))).
  rewrite length_drop in *. lia.
Qed.

Lemma next_token_progress t tok t' : next_token t = Ok (tok, t') -> kind tok = Eof \/ (length (rest t') < length (rest t))%nat.
Proof.
  intros H. pose proof (next_token_spec t) as Hs. rewrite H in Hs.
  destruct Hs as [Hs|(w & m & _ & Hm & Hne & [Hr _])]; [by eapply token_from_progress|right].
  rewrite Hr, rest_adv, length_drop. destruct (rest t); [done|]. cbn. lia.
Qed.

Definition well_located (input : text) (tok : Token) : Prop := located input (span tok) \/ exists w, kind tok = Indent w.

Lemma stands_same input t u : same_place u t -> stands input t -> stands input u.
Proof. intros [Hr Hp] (b & Hi & Hb). exists b. by rewrite Hr, Hp. Qed.

Lemma tokenize_loop_spec input fuel t : (length (rest t) < fuel)%nat -> stands input t ->
  exists r, tokenize_loop fuel t = Some r /\
    match r with
    | Ok toks => Forall (well_located input) toks /\ (kind <$> last toks) = Some Eof
    | Err e => exists sp, error_span e = Some sp /\ located input sp
    end.
Proof.
  revert t; induction fuel as [|fuel IH]; intros t Hf Hst; [lia|]. cbn [tokenize_loop].
  pose proof (next_token_spec t) as Hs. pose proof (next_token_progress t) as Hp.
  destruct (next_token t) as [[tok t']|e].
  2:{ destruct Hs as (m & j & n & He). eexists; split; [done|]. eexists; split; [exact He|]. by apply located_adv. }
  assert (Hloc : well_located input tok /\ stands input t').
  { destruct Hs as [(m & n & Hsame & Hsp & _)|(w & m & Hk & _ & _ & Hsame)].
    - split; [left; rewrite Hsp; by apply located_adv|]. eapply stands_same; [exact Hsame|]. by repeat apply stands_adv.
    - split; [right; by exists w|]. eapply stands_same; [exact Hsame|]. by apply stands_adv. }
  destruct Hloc as [Hloc Hst']. specialize (Hp _ _ eq_refl).
  assert (Hrec : kind tok <> Eof ->
    exists r, match tokenize_loop fuel t' with Some (Ok toks) => Some (Ok (tok :: toks)) | r => r end = Some r /\
    match r with
    | Ok toks => Forall (well_located input) toks /\ (kind <$> last toks) = Some Eof
    | Err e => exists sp, error_span e = Some sp /\ located input sp
    end).
  { intros Hne. destruct Hp as [?|Hlt]; [done|]. destruct (IH t' ltac:(lia) Hst') as (r & -> & Hr).
    destruct r as [toks|e]; eexists; (split; [reflexivity|]); [|done]. destruct Hr as [Ha Hl]. split; [by constructor|].
    by destruct toks. }
  destruct (kind tok) eqn:Hk; try (by apply Hrec). eexists; split; [done|]. split; [by constructor|]. cbn. by rewrite Hk.
Qed.
End Positions.

(** The tokenizer stops on every text within one round per character.  A token
    list ends with the end of file, and each token but an indentation spans the
    positions - line, column, number of characters - of two prefixes of the
    text; a failure does too. *)
Theorem tokenizer_located `{CC : CharClass} `{FT : F64Text} input :
  exists r, tokenize input = Some r /\
    match r with
    | Ok toks => Forall (well_located input) toks /\ (kind <$> last toks) = Some Eof
    | Err e => exists sp, error_span e = Some sp /\ located input sp
    end.
Proof. apply tokenize_loop_spec; [cbn [rest tokenizer_new]; lia|apply stands_new]. Qed.

(** ** The parser's loops *)

Section ParserLoops.
Context `{CC : CharClass} `{FT : F64Text}.
Implicit Types (p : Parser).

(** One round of each call. *)
Lemma parse_value_S fuel' p : parse_value (S fuel') p =
      if MAX_NESTING_DEPTH <? depth p then Fails (NestingTooDeep MAX_NESTING_DEPTH (current_span p))
      else
        match current_kind p with
        | Some (StringT s) => Returns (Str s, next p)
        | Some (Number n) => Returns (Num n, next p)
        | Some (Boolean b) => Returns (Bool b, next p)
        | Some (Identifier _) => let '(parts, l) := words (left p) in Returns (Str (join_words parts), set_left p l)
        | Some LeftBrace => '(v, p') ← parse_object fuel' (deeper p); Returns (v, shallower p')
        | Some LeftBracket => '(v, p') ← parse_array fuel' (deeper p); Returns (v, shallower p')
        | _ => Returns (Str [], p)
        end.
Proof. reflexivity. Qed.
Lemma parse_object_S fuel' p : parse_object (S fuel') p =
      match current_kind p with
      | Some LeftBrace => object_loop fuel' [] (next p)
      | _ => Fails (UnexpectedToken (txt "'{'") (found p) (current_span p))
      end.
Proof. reflexivity. Qed.
Lemma object_loop_S fuel' fields p : object_loop (S fuel') fields p =
      let p := skip_whitespace p in
      match current_kind p with
      | Some RightBrace => Returns (Object fields, next p)
      | Some Eof | None => Fails (UnexpectedEof (end_position p))
      | Some (Identifier _) =>
          '(kv, p') ← parse_param fuel' p;
          object_loop fuel' (fields ++ [kv]) (skip_comma (skip_whitespace p'))
      | _ => object_loop fuel' fields (next p)
      end.
Proof. reflexivity. Qed.
Lemma parse_array_S fuel' p : parse_array (S fuel') p =
      match current_kind p with
      | Some LeftBracket => array_loop fuel' [] (next p)
      | _ => Fails (UnexpectedToken (txt "'['") (found p) (current_span p))
      end.
Proof. reflexivity. Qed.
Lemma array_loop_S fuel' items p : array_loop (S fuel') items p =
      let p := skip_whitespace p in
      match current_kind p with
      | Some RightBracket => Returns (List items, next p)
      | Some Eof | None => Fails (UnexpectedEof (end_position p))
      | _ =>
          '(v, p') ← parse_value fuel' p;
          array_loop fuel' (items ++ [v]) (skip_comma (skip_whitespace p'))
      end.
Proof. reflexivity. Qed.
Lemma parse_param_S fuel' p : parse_param (S fuel') p =
      match current_kind p with
      | Some (Identifier s) =>
          let key := to_lowercase s in
          let p := next p in
          match current_kind p with
          | Some Colon => '(v, p') ← parse_value fuel' (next p); Returns ((key, v), p')
          | _ => Returns ((key, Bool true), p)
          end
      | _ => Fails InvalidHeader
      end.
Proof. reflexivity. Qed.

Lemma drop_layout_idem l : drop_layout (drop_layout l) = drop_layout l.
Proof. induction l as [|tok l IH]; [done|]. cbn [drop_layout]. destruct (kind tok) eqn:E; try done; cbn [drop_layout]; by rewrite E. Qed.

Lemma skip_whitespace_idem p : skip_whitespace (skip_whitespace p) = skip_whitespace p.
Proof. unfold skip_whitespace, set_left. cbn. by rewrite drop_layout_idem. Qed.

(** The tokens that start no value and end no array. *)
Definition stray (k : TokenKind) : bool := match k with Colon | RightBrace | End => true | _ => false end.

Lemma array_loop_stuck fuel items p k :
  depth p <= MAX_NESTING_DEPTH -> current_kind (skip_whitespace p) = Some k -> stray k = true ->
  array_loop fuel items p = Diverges.
Proof.
  revert items p; induction fuel as [|fuel IH]; intros items p Hd Hk Hs; [done|].
  rewrite array_loop_S; cbn zeta. rewrite Hk.
  assert (Hv : parse_value fuel (skip_whitespace p) = Diverges \/
               parse_value fuel (skip_whitespace p) = Returns (Str [], skip_whitespace p)).
  { destruct fuel as [|fuel']; [by left|right]. rewrite parse_value_S. change (depth (skip_whitespace p)) with (depth p).
    rewrite (proj2 (Z.ltb_ge _ _) Hd), Hk. by destruct k. }
  assert (Hnext : array_loop fuel (items ++ [Str []]) (skip_comma (skip_whitespace (skip_whitespace p))) = Diverges).
  { rewrite skip_whitespace_idem. unfold skip_comma. rewrite Hk.
    destruct k; try discriminate Hs; (apply IH; [done|by rewrite skip_whitespace_idem|done]). }
  destruct k; try discriminate Hs; (destruct Hv as [-> | ->]; [done|exact Hnext]).
Qed.

(** More fuel does not change what a call returns. *)
Definition upto {A} (m m' : outcome A) : Prop := m = Diverges \/ m' = m.
Lemma upto_refl {A} (m : outcome A) : upto m m.
Proof. by right. Qed.
Lemma upto_bind {A B} (m m' : outcome A) (f f' : A -> outcome B) :
  upto m m' -> (forall a, upto (f a) (f' a)) -> upto (m ≫= f) (m' ≫= f').
Proof. intros [->| ->] Hf; [by left|]. destruct m as [|e|a]; [by left|by right|apply Hf]. Qed.

Lemma calls_upto fuel fuel' : (fuel <= fuel')%nat ->
  (forall p, upto (parse_value fuel p) (parse_value fuel' p)) /\
  (forall p, upto (parse_object fuel p) (parse_object fuel' p)) /\
  (forall fs p, upto (object_loop fuel fs p) (object_loop fuel' fs p)) /\
  (forall p, upto (parse_array fuel p) (parse_array fuel' p)) /\
  (forall vs p, upto (array_loop fuel vs p) (array_loop fuel' vs p)) /\
  (forall p, upto (parse_param fuel p) (parse_param fuel' p)).
Proof.
  revert fuel'; induction fuel as [|fuel IH]; intros fuel' Hf; [split_and!; by left|].
  destruct fuel' as [|fuel']; [lia|]. destruct (IH fuel' ltac:(lia)) as (IHv & IHo & IHol & IHa & IHal & IHp).
  split_and!; intros.
  - rewrite !parse_value_S. destruct (_ <? _); [apply upto_refl|].
    destruct (current_kind p) as [[]|]; try apply upto_refl; (apply upto_bind; [auto|intros []; apply upto_refl]).
  - rewrite !parse_object_S. destruct (current_kind p) as [[]|]; try apply upto_refl; auto.
  - rewrite !object_loop_S; cbn zeta. destruct (current_kind _) as [[]|]; try apply upto_refl; auto.
    apply upto_bind; [auto|intros []; auto].
  - rewrite !parse_array_S. destruct (current_kind p) as [[]|]; try apply upto_refl; auto.
  - rewrite !array_loop_S; cbn zeta.
    destruct (current_kind _) as [[]|]; try apply upto_refl; (apply upto_bind; [auto|intros []; auto]).
  - rewrite !parse_param_S; cbn zeta. destruct (current_kind p) as [[]|]; try apply upto_refl.
    destruct (current_kind _) as [[]|]; try apply upto_refl. apply upto_bind; [auto|intros []; apply upto_refl].
Qed.

Lemma parse_value_returns fuel fuel' p v p' :
  parse_value fuel p = Returns (v, p') -> parse_value fuel' p = Diverges \/ parse_value fuel' p = Returns (v, p').
Proof.
  intros H. destruct (Nat.le_ge_cases fuel fuel') as [Hle|Hle]; destruct (calls_upto _ _ Hle) as [Hv _].
  - destruct (Hv p) as [Hp|Hp]; rewrite H in Hp; [done|by right].
  - destruct (Hv p) as [Hp|Hp]; [by left|]. right. by rewrite <- Hp.
Qed.

(** Every call leaves the parser at the depth it was called at. *)
Definition at_depth {A} (d : Z) (m : outcome (A * Parser)) : Prop :=
  match m with Returns (_, p') => depth p' = d | _ => True end.
Lemma at_depth_bind {A B} d d' (m : outcome (A * Parser)) (f : A * Parser -> outcome (B * Parser)) :
  at_depth d m -> (forall a p', depth p' = d -> at_depth d' (f (a, p'))) -> at_depth d' (m ≫= f).
Proof. destruct m as [| |[a p']]; cbn; auto. Qed.
Lemma skip_comma_depth p : depth (skip_comma p) = depth p.
Proof. unfold skip_comma. by destruct (current_kind p) as [[]|]. Qed.
Lemma calls_keep_depth fuel :
  (forall p, at_depth (depth p) (parse_value fuel p)) /\
  (forall p, at_depth (depth p) (parse_object fuel p)) /\
  (forall fs p, at_depth (depth p) (object_loop fuel fs p)) /\
  (forall p, at_depth (depth p) (parse_array fuel p)) /\
  (forall vs p, at_depth (depth p) (array_loop fuel vs p)) /\
  (forall p, at_depth (depth p) (parse_param fuel p)).
Proof.
  induction fuel as [|fuel (IHv & IHo & IHol & IHa & IHal & IHp)]; [split_and!; intros; exact I|]. split_and!; intros.
  - rewrite parse_value_S. destruct (_ <? _); [exact I|].
    destruct (current_kind p) as [[]|]; try done.
    + by destruct (words (left p)).
    + eapply at_depth_bind; [apply IHo|]. intros v p' H. cbn in *. lia.
    + eapply at_depth_bind; [apply IHa|]. intros v p' H. cbn in *. lia.
  - rewrite parse_object_S. destruct (current_kind p) as [[]|]; try done. apply (IHol [] (next p)).
  - rewrite object_loop_S; cbn zeta.
    destruct (current_kind _) as [[]|]; try done; try apply (IHol fs (next (skip_whitespace p))).
    eapply at_depth_bind; [apply (IHp (skip_whitespace p))|]. intros v p' H.
    pose proof (IHol (fs ++ [v]) (skip_comma (skip_whitespace p'))) as Hl. rewrite skip_comma_depth in Hl.
    cbn [depth skip_whitespace set_left] in *. by rewrite H in Hl.
  - rewrite parse_array_S. destruct (current_kind p) as [[]|]; try done. apply (IHal [] (next p)).
  - rewrite array_loop_S; cbn zeta.
    destruct (current_kind _) as [[]|]; try done;
      (eapply at_depth_bind; [apply (IHv (skip_whitespace p))|]; intros v p' H;
       pose proof (IHal (vs ++ [v]) (skip_comma (skip_whitespace p'))) as Hl; rewrite skip_comma_depth in Hl;
       cbn [depth skip_whitespace set_left] in *; by rewrite H in Hl).
  - rewrite parse_param_S; cbn zeta. destruct (current_kind p) as [[]|]; try done.
    destruct (current_kind _) as [[]|]; try done.
    eapply at_depth_bind; [apply (IHv (next (next p)))|]. by intros v p' H.
Qed.

(** The values of an array read so far, each followed by a comma or not: from
    a place after the bracket to the place where the next round begins. *)
Inductive read_values : Parser -> Parser -> Prop :=
| read_none p : read_values p p
| read_value p fuel v p' q k :
    current_kind (skip_whitespace p) = Some k -> k <> RightBracket -> k <> Eof ->
    parse_value fuel (skip_whitespace p) = Returns (v, p') ->
    read_values (skip_comma (skip_whitespace p')) q -> read_values p q.

Lemma read_values_depth p q : read_values p q -> depth q = depth p.
Proof.
  induction 1 as [|p fuel v p' q k _ _ _ Hv _ IH]; [done|]. rewrite IH, skip_comma_depth.
  pose proof (proj1 (calls_keep_depth fuel) (skip_whitespace p)) as H. by rewrite Hv in H.
Qed.

Lemma array_loop_later_stuck p q : read_values p q -> depth p <= MAX_NESTING_DEPTH -> forall k,
  current_kind (skip_whitespace q) = Some k -> stray k = true -> forall fuel items, array_loop fuel items p = Diverges.
Proof.
  intros Hr Hd k Hk Hs. rewrite <- (read_values_depth _ _ Hr) in Hd.
  induction Hr as [p|p fuel0 v p' q k0 Hk0 Hb He Hv _ IH]; intros fuel items; [by apply (array_loop_stuck _ _ _ k)|].
  destruct fuel as [|fuel]; [done|]. rewrite array_loop_S; cbn zeta. rewrite Hk0.
  destruct (parse_value_returns _ fuel _ _ _ Hv) as [->| ->]; cbn [mbind outcome_bind]; (destruct k0; try done; by apply IH).
Qed.

Definition no_bracket (l : list Token) : Prop := Forall (fun tok => kind tok <> LeftBracket) l.

(** A call that comes back, with a suffix of [l] left. *)
Definition comes_back {A} (l : list Token) (m : outcome (A * Parser)) : Prop :=
  match m with Diverges => False | Fails _ => True | Returns (_, p') => left p' `suffix_of` l end.

Lemma comes_back_here {A} (a : A) p : comes_back (left p) (Returns (a, p)).
Proof. by exists []. Qed.

Lemma comes_back_bind {A B} l l' (m : outcome (A * Parser)) (f : A * Parser -> outcome (B * Parser)) :
  comes_back l m -> (forall a p', left p' `suffix_of` l -> comes_back l' (f (a, p'))) -> comes_back l' (m ≫= f).
Proof. destruct m as [| |[a p']]; cbn; auto. Qed.

Lemma comes_back_weaken {A} l l' (m : outcome (A * Parser)) : l `suffix_of` l' -> comes_back l m -> comes_back l' m.
Proof. destruct m as [| |[a p']]; cbn; [done..|]. intros ??. by etrans. Qed.

Lemma drop_layout_suffix l : drop_layout l `suffix_of` l.
Proof. induction l as [|tok l IH]; [done|]. cbn. destruct (kind tok); try done; by apply suffix_cons_r. Qed.
Lemma tail_suffix (l : list Token) : tail l `suffix_of` l.
Proof. destruct l; [done|]. by apply suffix_cons_r. Qed.
Lemma words_suffix l : snd (words l) `suffix_of` l.
Proof.
  induction l as [|tok l IH]; [done|]. cbn [words].
  destruct (kind tok); try done; destruct (words l); cbn in *; by apply suffix_cons_r.
Qed.
Lemma no_bracket_suffix l l' : l `suffix_of` l' -> no_bracket l' -> no_bracket l.
Proof. intros [k ->] H. by apply Forall_app in H as [_ H]. Qed.

Lemma skip_comma_suffix p : left (skip_comma p) `suffix_of` left p.
Proof. unfold skip_comma. destruct (current_kind p) as [[]|]; try done. apply tail_suffix. Qed.

Lemma current_tail p k : current_kind p = Some k -> length (left p) = S (length (left (next p))).
Proof. unfold current_kind, current, next, set_left. cbn. by destruct (left p). Qed.

(** Without arrays every call comes back; a parameter takes at least its key. *)
Lemma calls_come_back fuel :
  (forall p, no_bracket (left p) -> (3 * length (left p) + 2 <= fuel)%nat -> comes_back (left p) (parse_value fuel p)) /\
  (forall p, no_bracket (left p) -> (3 * length (left p) + 1 <= fuel)%nat -> comes_back (left p) (parse_object fuel p)) /\
  (forall fs p, no_bracket (left p) -> (3 * length (left p) + 2 <= fuel)%nat -> comes_back (left p) (object_loop fuel fs p)) /\
  (forall p, no_bracket (left p) -> (3 * length (left p) + 1 <= fuel)%nat -> comes_back (tail (left p)) (parse_param fuel p)).
Proof.
  induction fuel as [|fuel (IHv & IHo & IHl & IHp)]; [split_and!; intros; lia|]. split_and!.
  - intros p Hn Hf. rewrite parse_value_S. destruct (_ <? _); [done|].
    destruct (current_kind p) as [k|] eqn:Hk; [|apply comes_back_here].
    destruct k; try done; try (apply tail_suffix); try (apply comes_back_here).
    + pose proof (words_suffix (left p)). by destruct (words (left p)).
    + eapply comes_back_bind; [apply (IHo (deeper p)); [done|cbn; lia]|]. by intros v p' ?.
    + exfalso. unfold current_kind, current in Hk. destruct (left p); [done|]. inversion Hn; subst. by injection Hk.
  - intros p Hn Hf. rewrite parse_object_S. destruct (current_kind p) as [k|] eqn:Hk; [|done].
    pose proof (current_tail p k Hk) as Hlen.
    destruct k; try done. eapply comes_back_weaken; [apply tail_suffix|]. apply (IHl [] (next p)); [|lia].
    eapply no_bracket_suffix; [apply tail_suffix|done].
  - intros fs p Hn Hf. rewrite object_loop_S; cbn zeta. set (q := skip_whitespace p).
    assert (Hq : left q `suffix_of` left p) by apply drop_layout_suffix.
    pose proof (suffix_length _ _ Hq) as Hql. assert (Hnq : no_bracket (left q)) by (by eapply no_bracket_suffix).
    destruct (current_kind q) as [k|] eqn:Hk; [|done]. pose proof (current_tail q k Hk) as Hlen.
    assert (Hskip : comes_back (left p) (object_loop fuel fs (next q))).
    { eapply comes_back_weaken; [etrans; [apply tail_suffix|exact Hq]|]. apply (IHl fs (next q)); [|lia].
      eapply no_bracket_suffix; [apply tail_suffix|done]. }
    destruct k; try done; try exact Hskip.
    + eapply comes_back_bind; [apply (IHp q); [done|lia]|]. intros kv p' Hs.
      assert (Hs' : left (skip_comma (skip_whitespace p')) `suffix_of` tail (left q)).
      { etrans; [apply skip_comma_suffix|]. etrans; [apply drop_layout_suffix|done]. }
      pose proof (suffix_length _ _ Hs') as Hsl. cbn [next set_left left] in Hlen.
      eapply comes_back_weaken; [etrans; [exact Hs'|etrans; [apply tail_suffix|exact Hq]]|].
      apply IHl; [|lia]. eapply no_bracket_suffix; [exact Hs'|]. eapply no_bracket_suffix; [apply tail_suffix|done].
    + cbn [comes_back]. etrans; [apply tail_suffix|exact Hq].
  - intros p Hn Hf. rewrite parse_param_S; cbn zeta. destruct (current_kind p) as [k|] eqn:Hk; [|done].
    pose proof (current_tail p k Hk) as Hlen. destruct k; try done.
    assert (Htl : no_bracket (left (next (next p)))).
    { eapply no_bracket_suffix; [etrans; apply tail_suffix|done]. }
    destruct (current_kind (next p)) as [k|] eqn:Hk2; [|apply (comes_back_here _ (next p))].
    pose proof (current_tail _ _ Hk2) as Hlen2. destruct k; try apply (comes_back_here _ (next p)).
    eapply comes_back_bind; [apply (IHv (next (next p))); [done|lia]|]. intros v p' Hs. cbn. etrans; [exact Hs|apply tail_suffix].
Qed.

Lemma params_come_back fuel acc p : no_bracket (left p) -> (3 * length (left p) + 2 <= fuel)%nat ->
  comes_back (left p) (params_loop fuel acc p).
Proof.
  revert acc p; induction fuel as [|fuel IH]; intros acc p Hn Hf; [lia|]. cbn [params_loop]. set (q := skip_whitespace p).
  assert (Hq : left q `suffix_of` left p) by apply drop_layout_suffix.
  pose proof (suffix_length _ _ Hq) as Hql. assert (Hnq : no_bracket (left q)) by (by eapply no_bracket_suffix).
  destruct (current_kind q) as [k|] eqn:Hk; [|exact Hq]. pose proof (current_tail q k Hk) as Hlen.
  assert (Hskip : comes_back (left p) (params_loop fuel acc (next q))).
  { eapply comes_back_weaken; [etrans; [apply tail_suffix|exact Hq]|]. apply (IH acc (next q)); [|lia].
    eapply no_bracket_suffix; [apply tail_suffix|done]. }
  destruct k; try exact Hskip; try exact Hq.
  eapply comes_back_bind; [apply (proj2 (proj2 (proj2 (calls_come_back fuel))) q); [done|lia]|]. intros kv p' Hs.
  pose proof (suffix_length _ _ Hs) as Hsl. cbn [next set_left left] in Hlen.
  eapply comes_back_weaken; [etrans; [exact Hs|etrans; [apply tail_suffix|exact Hq]]|].
  apply IH; [|lia]. eapply no_bracket_suffix; [exact Hs|]. eapply no_bracket_suffix; [apply tail_suffix|done].
Qed.
End ParserLoops.

Section Termination.
Context `{CC : CharClass} `{FT : F64Text}.
Implicit Types (t : Tokenizer).

Lemma eqc_eq c a : eqc c a = true -> c = ch a.
Proof. apply N.eqb_eq. Qed.

Lemma drop_elem {A} n (l : list A) x : x ∈ drop n l -> x ∈ l.
Proof. intros H. rewrite <- (take_drop n l). set_solver. Qed.

Lemma next_content_bracket m t u tok u' : same_place u (adv m t) ->
  next_content u = Ok (tok, u') -> kind tok = LeftBracket -> ch "[" ∈ rest t.
Proof.
  intros Hsame. unfold next_content, skip_whitespace_except_newline.
  destruct (read_while_adv (fun c => among c [" "%char; tab; return_]) (rest u) u) as (k & -> & _). cbn [snd].
  destruct (current_char (adv k u)) as [c|] eqn:Hc; [|by intros [= <- _]].
  assert (Hin : c ∈ rest t).
  { unfold current_char in Hc. rewrite rest_adv, (proj1 Hsame), rest_adv in Hc.
    apply (drop_elem m), (drop_elem k). destruct (drop k _); [done|]. injection Hc as ->. set_solver. }
  destruct (punctuation c) as [x|] eqn:Hx.
  { intros [= <- _]. cbn [kind]. intros ->. revert Hx. unfold punctuation.
    destruct (eqc c "[") eqn:Hb; [apply eqc_eq in Hb; by subst c|]. by repeat case_match. }
  destruct (eqc c quote). { destruct (read_string _ _) as [[s v]|]; [|done]. by intros [= <- _]. }
  destruct (starts_number _ c). { destruct (read_number _ _) as [[s v]|]; [|done]. by intros [= <- _]. }
  destruct (is_alphabetic c || eqc c "_").
  - destruct (read_identifier _) as [w v]. intros [= <- _]. cbn [kind]. unfold keyword. by repeat case_bool_decide.
  - destruct (read_unquoted_value _) as [[|x w] v]; [done|]. by intros [= <- _].
Qed.

Lemma next_token_bracket t tok t' : next_token t = Ok (tok, t') -> kind tok = LeftBracket -> ch "[" ∈ rest t.
Proof.
  unfold next_token. destruct (at_line_start t); [|by apply (next_content_bracket 0)].
  unfold count_indent. destruct (read_while_adv (fun c => among c [" "%char; tab]) (rest t) t) as (m & -> & _).
  destruct (current_char (adv m t)) as [c|]; [|by apply (next_content_bracket m)].
  destruct (eqc c newline); [by apply (next_content_bracket m)|].
  destruct (0 <? _); [|by apply (next_content_bracket m)]. by intros [= <- _].
Qed.

Lemma next_token_rest t tok t' : next_token t = Ok (tok, t') -> exists n, rest t' = drop n (rest t).
Proof.
  intros H. pose proof (next_token_spec t) as Hs. rewrite H in Hs.
  destruct Hs as [(m & n & [Hr _] & _)|(w & m & _ & _ & _ & [Hr _])]; rewrite Hr.
  - exists (m + n)%nat. by rewrite adv_plus, rest_adv.
  - exists m. by rewrite rest_adv.
Qed.

Lemma tokenize_loop_plain fuel t toks : ch "[" ∉ rest t -> tokenize_loop fuel t = Some (Ok toks) ->
  no_bracket toks /\ (length toks <= S (length (rest t)))%nat.
Proof.
  revert t toks; induction fuel as [|fuel IH]; intros t toks Hn; cbn [tokenize_loop]; [done|].
  destruct (next_token t) as [[tok t']|] eqn:E; [|done].
  assert (Hk : kind tok <> LeftBracket) by (intros Hk; by apply Hn, (next_token_bracket t tok t')).
  pose proof (next_token_progress _ _ _ E) as Hlt. destruct (next_token_rest _ _ _ E) as [n Hr].
  assert (Hn' : ch "[" ∉ rest t') by (rewrite Hr; intros ?; by apply Hn, (drop_elem n)).
  assert (Hmore : kind tok <> Eof ->
    match tokenize_loop fuel t' with Some (Ok toks) => Some (Ok (tok :: toks)) | r => r end = Some (Ok toks) ->
    no_bracket toks /\ (length toks <= S (length (rest t)))%nat).
  { intros Hne. destruct (tokenize_loop fuel t') as [[ts|]|] eqn:El; [|done..]. intros [= <-].
    destruct (IH _ _ Hn' El) as [Ha Hl]. split; [by constructor|]. destruct Hlt; [done|]. cbn [length]. lia. }
  destruct (kind tok) eqn:Ek; try (by apply Hmore). intros [= <-].
  split; [apply Forall_singleton; by rewrite Ek|cbn; lia].
Qed.

Lemma parse_terminates fuel toks : no_bracket toks -> (3 * length toks + 2 <= fuel)%nat ->
  parse fuel (parser_new toks) <> Diverges.
Proof.
  intros Hn Hf. unfold parse. set (p := skip_whitespace (parser_new toks)).
  assert (Hp : left p `suffix_of` toks) by apply drop_layout_suffix.
  assert (Hh : match parse_header p with Ok (_, p') => left p' `suffix_of` toks | Err _ => True end).
  { unfold parse_header. destruct (current p) as [tok|]; [|done]. destruct (kind tok); try done.
    destruct (current_kind (next p)) as [[]|]; try done. unfold parse_optional_name.
    repeat case_match; simplify_eq; etrans; try exact Hp; repeat (apply tail_suffix || (etrans; [apply tail_suffix|])). }
  destruct (parse_header p) as [[[[ty nm] sp] p']|e]; [|done].
  unfold parse_params. pose proof (suffix_length _ _ Hh) as Hl.
  pose proof (params_come_back fuel [] p' (no_bracket_suffix _ _ Hh Hn) ltac:(lia)) as Hc.
  destruct (params_loop fuel [] p') as [|e|[ps p2]]; [done|done|]. cbn.
  by destruct (current_kind (skip_whitespace p2)) as [[]|].
Qed.
End Termination.

(** C35: A text without an opening bracket is parsed, or refused, within a bound set
    by its length. *)
Theorem logline_terminates `{CC : CharClass} `{FT : F64Text} fuel input :
  ch "[" ∉ input -> (3 * length input + 5 <= fuel)%nat -> parse_logline fuel input <> Diverges.
Proof.
  intros Hn Hf. unfold parse_logline. destruct (trim input); [done|].
  destruct (tokenizer_located input) as (r & Hr & _). rewrite Hr. destruct r as [toks|e]; [|done].
  apply tokenize_loop_plain in Hr as [Ha Hl]; [|done]. cbn [rest tokenizer_new] in Hl.
  apply parse_terminates; [done|lia].
Qed.

(** C34: The parser never comes back from an array, opened below the nesting
    limit, in which after any number of complete values a colon, a closing brace
    or [END] stands where the next value or the end should: each round appends an
    empty string and takes no token. *)
Theorem stray_in_array_diverges `{CC : CharClass} `{FT : F64Text} fuel p q k :
  depth p < MAX_NESTING_DEPTH -> current_kind p = Some LeftBracket ->
  read_values (next (deeper p)) q -> current_kind (skip_whitespace q) = Some k -> stray k = true ->
  parse_value fuel p = Diverges.
Proof.
  intros Hd Hb Hr Hk Hs. destruct fuel as [|fuel]; [done|]. rewrite parse_value_S, Hb, (proj2 (Z.ltb_ge _ _)) by lia.
  destruct fuel as [|fuel]; [done|]. rewrite parse_array_S. change (current_kind (deeper p)) with (current_kind p). rewrite Hb.
  rewrite (array_loop_later_stuck _ _ Hr) with (k := k); [done|cbn; lia|exact Hk|done].
Qed.
