(* ===== verification/LoglineRoundtrip.v ===== *)
(** * A serialized LogLine document reads back

    The tokens of a serialized text are those of the document
    ([document_kinds]), and the parser builds the document from them; then
    witnesses and examples over ASCII, with integers for numbers. *)

From S2P Require Import Prelude RustStd Logline LoglineFacts.
Local Open Scope string_scope.
Local Open Scope Z_scope.
Local Open Scope list_scope.

(** ** Lexing: from a text and the line-start flag, a token, to a text and flag *)

Section Lexing.
Context `{CC : CharClass} `{FT : F64Text} `{CL : !CharLaws CC}.
Implicit Types (t : Tokenizer) (r : text) (k : TokenKind).

Definition at_ t (s : text * bool) : Prop := rest t = fst s /\ at_line_start t = snd s.

Definition lexc (r : text) (k : TokenKind) (s' : text * bool) : Prop :=
  forall t, at_ t (r, false) -> exists tok t', next_content t = Ok (tok, t') /\ kind tok = k /\ at_ t' s'.
Definition lex (s : text * bool) (k : TokenKind) (s' : text * bool) : Prop :=
  forall t, at_ t s -> exists tok t', next_token t = Ok (tok, t') /\ kind tok = k /\ at_ t' s'.

Inductive lexes : text * bool -> list TokenKind -> text * bool -> Prop :=
| lexes_nil s : lexes s [] s
| lexes_cons s k s1 ks s' : lex s k s1 -> lexes s1 ks s' -> lexes s (k :: ks) s'.

Lemma lexes_one s k s' : lex s k s' -> lexes s [k] s'.
Proof. intros H. eapply lexes_cons; [exact H|constructor]. Qed.
Lemma lexes_app s ks s1 ks' s' : lexes s ks s1 -> lexes s1 ks' s' -> lexes s (ks ++ ks') s'.
Proof. induction 1; [done|]. intros. cbn. eapply lexes_cons; [eassumption|auto]. Qed.

Lemma lex_content r k s' : lexc r k s' -> lex (r, false) k s'.
Proof. intros H t Ht. unfold next_token. destruct (Ht) as [_ ->]. cbn. by apply H. Qed.

(** A character that is not layout, and what follows it. *)
Definition layout_char (c : char) : bool := among c [" "%char; tab; return_].

Lemma read_while_stop p t : from_option p false (head (rest t)) = false -> read_while p (rest t) t = ([], t).
Proof. destruct (rest t) as [|c r]; [done|]. cbn. by intros ->. Qed.

Lemma at_advance t c r b : at_ t (c :: r, b) -> eqc c newline = false -> is_whitespace c = true \/ b = false ->
  at_ (advance t) (r, b).
Proof.
  intros [Hr Hb] Hc H. unfold advance. cbn in Hr, Hb. rewrite Hr, Hc. split; [done|]. cbn.
  destruct H as [-> | ->]; [done|]. by destruct (is_whitespace c).
Qed.

Lemma at_newline t c r b : at_ t (c :: r, b) -> eqc c newline = true -> at_ (advance t) (r, true).
Proof. intros [Hr Hb] Hc. unfold advance. cbn in Hr. by rewrite Hr, Hc. Qed.

Lemma read_while_at p cs r t b : at_ t (cs ++ r, b) -> b = false \/ Forall (fun c => is_whitespace c = true) cs ->
  Forall (fun c => p c = true /\ eqc c newline = false) cs -> from_option p false (head r) = false ->
  exists t', read_while p (rest t) t = (cs, t') /\ at_ t' (r, b).
Proof.
  revert t; induction cs as [|c cs IH]; intros t Ht Hb Hcs Hstop.
  - cbn in Ht. exists t. split; [|done]. apply read_while_stop. by destruct Ht as [-> _].
  - inversion Hcs as [|?? [Hp Hn] Hcs']; subst.
    assert (Ha : at_ (advance t) (cs ++ r, b)).
    { eapply at_advance; [exact Ht|done|]. destruct Hb as [?|Hw]; [by right|left]. by inversion Hw. }
    destruct (IH (advance t) Ha) as (t' & E & Ht'); [|done..|].
    { destruct Hb as [?|Hw]; [by left|right]. by inversion Hw. }
    exists t'. split; [|done]. destruct Ht as [Hr _]. cbn in Hr. rewrite Hr. cbn [read_while app]. rewrite Hp.
    destruct Ha as [Hra _]. cbn in Hra. by rewrite <- Hra, E.
Qed.

(** *** Layout *)

Lemma among_cases c l : among c l = true -> exists a, a ∈ l /\ c = ch a.
Proof.
  unfold among. rewrite existsb_exists. intros (a & Hin & Ha). exists a. split; [by apply list_elem_of_In|by apply N.eqb_eq].
Qed.

Definition layout_blank (c : char) : bool := among c [" "%char; tab].

Lemma layout_is_white c : layout_char c = true -> is_whitespace c = true /\ eqc c newline = false.
Proof.
  intros H. apply among_cases in H as (a & Ha & ->).
  repeat (apply elem_of_cons in Ha as [->|Ha]; [by rewrite whitespace_ascii|]). by apply elem_of_nil in Ha.
Qed.
Lemma blank_is_layout c : layout_blank c = true -> layout_char c = true.
Proof. unfold layout_blank, layout_char, among. cbn. rewrite !orb_true_iff. tauto. Qed.

Lemma skip_layout t c r : at_ t (c :: r, false) -> layout_char c = true ->
  skip_whitespace_except_newline t = skip_whitespace_except_newline (advance t) /\ at_ (advance t) (r, false).
Proof.
  intros Ht Hc. destruct (layout_is_white c Hc) as [Hw Hn].
  assert (Ha : at_ (advance t) (r, false)) by (eapply at_advance; [exact Ht|done|by left]). split; [|done].
  unfold skip_whitespace_except_newline. destruct Ht as [Hr _]. cbn in Hr. rewrite Hr. destruct Ha as [Hra _]. cbn in Hra. rewrite Hra.
  cbn [read_while]. unfold layout_char in Hc. rewrite Hc. by destruct (read_while _ r _).
Qed.

Lemma lexc_layout c r k s' : layout_char c = true -> lexc r k s' -> lexc (c :: r) k s'.
Proof. intros Hc H t Ht. destruct (skip_layout t c r Ht Hc) as [Hs Ha]. unfold next_content. rewrite Hs. by apply H. Qed.

Lemma no_skip t c r : at_ t (c :: r, false) -> layout_char c = false -> skip_whitespace_except_newline t = t.
Proof.
  intros [Hr _] Hc. unfold skip_whitespace_except_newline. rewrite read_while_stop; [done|]. rewrite Hr. exact Hc.
Qed.

Lemma lexc_punctuation c r k : layout_char c = false -> punctuation c = Some k -> lexc (c :: r) k (r, eqc c newline).
Proof.
  intros Hl Hp t Ht. unfold next_content. rewrite (no_skip t c r Ht Hl). unfold current_char.
  rewrite (proj1 Ht). cbn [head fst]. rewrite Hp. eexists _, _. split; [done|]. split; [done|].
  destruct (eqc c newline) eqn:Hn; [by eapply at_newline|]. eapply at_advance; [exact Ht|done|by right].
Qed.

(** *** Lines: indentation, then a token *)

Definition width (ws : text) : Z := foldr (fun c n => indent_width c + n) 0 ws.
Definition indent_kinds (ws : text) : list TokenKind := match ws with [] => [] | _ => [Indent (width ws)] end.
Definition blanks (ws : text) : Prop := Forall (fun c => layout_blank c = true) ws.

Lemma width_nonneg ws : 0 <= width ws.
Proof. induction ws as [|c ws IH]; [done|]. change (0 <= indent_width c + width ws). unfold indent_width. case_match; lia. Qed.

Lemma lexes_line ws c r k s' : blanks ws -> layout_blank c = false -> eqc c newline = false ->
  lexc (c :: r) k s' -> lexes (ws ++ (c :: r), true) (indent_kinds ws ++ [k]) s'.
Proof.
  intros Hws Hb Hn Hk.
  assert (Hcount : forall t, at_ t (ws ++ (c :: r), true) -> exists t1,
    count_indent t = (width ws, t1) /\ at_ t1 (c :: r, true)).
  { intros t Ht. destruct (read_while_at layout_blank ws (c :: r) t true Ht) as (t1 & E & Ht1); [| |done|].
    - right. eapply Forall_impl; [exact Hws|]. cbn. intros x Hx. by apply layout_is_white, blank_is_layout.
    - eapply Forall_impl; [exact Hws|]. cbn. intros x Hx. split; [done|]. by apply layout_is_white, blank_is_layout.
    - exists t1. unfold count_indent. unfold layout_blank in E. by rewrite E. }
  assert (Hleave : forall t1, at_ t1 (c :: r, true) -> at_ (leave_line_start t1) (c :: r, false)).
  { intros t1 [Hr _]. split; [exact Hr|done]. }
  destruct ws as [|w ws'].
  - apply lexes_one. intros t Ht. destruct (Hcount t Ht) as (t1 & E & Ht1).
    unfold next_token. destruct Ht as [_ ->]. rewrite E. unfold current_char. rewrite (proj1 Ht1). cbn [fst snd head].
    rewrite Hn. cbn [width foldr Z.ltb Z.compare]. by apply Hk, Hleave.
  - eapply lexes_cons; [|by apply lexes_one, lex_content].
    intros t Ht. destruct (Hcount t Ht) as (t1 & E & Ht1).
    unfold next_token. destruct Ht as [_ ->]. rewrite E. unfold current_char. rewrite (proj1 Ht1). cbn [fst snd head].
    rewrite Hn. assert (Hpos : (0 <? width (w :: ws')) = true).
    { apply Z.ltb_lt. pose proof (width_nonneg ws'). change (0 < indent_width w + width ws'). unfold indent_width. case_match; lia. }
    rewrite Hpos. eexists _, _. split; [done|]. split; [done|]. by apply Hleave.
Qed.

(** *** Words, numbers, booleans and quoted strings *)

(** The characters of words and numbers: none is a delimiter. *)
Definition plain (c : char) : bool := identifier_char c.
Definition delimiters : list ascii := [newline; ":"; "{"; "}"; "["; "]"; ","; quote; " "; tab; return_; "."]%char.

Lemma plain_not_delimiter c a : a ∈ delimiters -> identifier_char c = true -> eqc c a = false.
Proof.
  intros Ha Hc. destruct (eqc c a) eqn:E; [|done]. apply eqc_eq in E as ->. exfalso. revert Hc.
  unfold identifier_char, is_alphanumeric.
  repeat (apply elem_of_cons in Ha as [->|Ha]; [by rewrite alphabetic_ascii, numeric_ascii|]). by apply elem_of_nil in Ha.
Qed.

Lemma plain_punctuation c : identifier_char c = true -> punctuation c = None /\ eqc c quote = false /\ layout_char c = false.
Proof.
  intros Hc. assert (Hd : forall a, a ∈ delimiters -> eqc c a = false) by (intros; by apply plain_not_delimiter).
  unfold punctuation, layout_char, among, existsb. by rewrite !Hd by set_solver.
Qed.

(** A delimiter stands right after. *)
Definition closes (r : text) : Prop := match r with [] => True | c :: _ => exists a, a ∈ delimiters /\ a <> "."%char /\ c = ch a end.

Lemma closes_stop r : closes r -> from_option identifier_char false (head r) = false.
Proof.
  destruct r as [|c r]; [done|]. intros (a & Ha & _ & ->). cbn. destruct (identifier_char (ch a)) eqn:E; [|done].
  pose proof (plain_not_delimiter _ a Ha E) as H. unfold eqc in H. by rewrite N.eqb_refl in H.
Qed.
Lemma closes_ch a r : a ∈ delimiters -> a <> "."%char -> closes (ch a :: r).
Proof. intros ??. by exists a. Qed.

Definition word (w : text) : Prop :=
  match w with
  | [] => False
  | c :: _ => (is_alphabetic c || eqc c "_") = true /\ is_numeric c = false /\ Forall (fun c => identifier_char c = true) w
  end.

Lemma lexc_word w r : word w -> closes r -> lexc (w ++ r) (keyword w) (r, false).
Proof.
  destruct w as [|c w]; [done|]. intros (Ha & Hnum & Hw) Hr t Ht.
  assert (Hc : identifier_char c = true) by (by inversion Hw).
  destruct (plain_punctuation c Hc) as (Hp & Hq & Hl).
  destruct (read_while_at identifier_char (c :: w) r t false Ht) as (t' & E & Ht'); [by left| |by apply closes_stop|].
  { eapply Forall_impl; [exact Hw|]. cbn. intros x Hx. split; [done|]. apply plain_not_delimiter; [set_solver|done]. }
  assert (Hm : eqc c "-" = false).
  { destruct (eqc c "-") eqn:E'; [|done]. apply eqc_eq in E' as ->. rewrite alphabetic_ascii in Ha by done. discriminate Ha. }
  unfold next_content. rewrite (no_skip t c (w ++ r) Ht Hl). unfold current_char, starts_number, read_identifier.
  rewrite E. rewrite (proj1 Ht). cbn [head fst app]. rewrite Hp, Hq, Hnum, Hm, Ha. cbn.
  eexists _, _. split; [done|]. by split.
Qed.

Lemma word_true : word (txt "true").
Proof. split_and!; [by rewrite alphabetic_ascii|by rewrite numeric_ascii|].
  repeat constructor; unfold identifier_char, is_alphanumeric; by rewrite alphabetic_ascii. Qed.
Lemma word_false : word (txt "false").
Proof. split_and!; [by rewrite alphabetic_ascii|by rewrite numeric_ascii|].
  repeat constructor; unfold identifier_char, is_alphanumeric; by rewrite alphabetic_ascii. Qed.
Lemma word_end : word (txt "END").
Proof. split_and!; [by rewrite alphabetic_ascii|by rewrite numeric_ascii|].
  repeat constructor; unfold identifier_char, is_alphanumeric; by rewrite alphabetic_ascii. Qed.

Lemma lexc_bool b r : closes r -> lexc (bool_text b ++ r) (Boolean b) (r, false).
Proof.
  intros Hr. destruct b.
  - pose proof (lexc_word _ _ word_true Hr) as H. unfold keyword in H. by rewrite upper_true in H.
  - pose proof (lexc_word _ _ word_false Hr) as H. unfold keyword in H. by rewrite upper_false in H.
Qed.

(** The texts [read_number] reads whole. *)
Fixpoint digits_form (has_dot : bool) (l : text) : bool :=
  match l with
  | [] => true
  | c :: l' => if is_numeric c then digits_form has_dot l'
               else eqc c "." && negb has_dot && from_option is_numeric false (head l') && digits_form true l'
  end.
Definition number_form (l : text) : bool :=
  let body := match l with c :: l' => if eqc c "-" then l' else l | [] => [] end in
  from_option is_numeric false (head body) && digits_form false body.

Lemma numeric_plain c : is_numeric c = true -> identifier_char c = true.
Proof. intros H. unfold identifier_char, is_alphanumeric. by rewrite H, orb_true_r. Qed.

Lemma read_digits_at d l r t : digits_form d l = true -> closes r -> at_ t (l ++ r, false) ->
  exists t', read_digits d (rest t) t = (l, t') /\ at_ t' (r, false).
Proof.
  intros Hl Hr. revert d t Hl; induction l as [|c l IH]; intros d t Hl Ht.
  - exists t. split; [|done]. rewrite (proj1 Ht). cbn [fst app]. destruct r as [|x r]; [done|]. cbn [read_digits].
    pose proof (closes_stop _ Hr) as Hs. cbn in Hs. destruct Hr as (a & Ha & Hdot & ->).
    destruct (is_numeric (ch a)) eqn:E; [by rewrite numeric_plain in Hs|].
    assert (Hd : eqc (ch a) "." = false).
    { unfold eqc. apply N.eqb_neq. intros H. apply Hdot. unfold ch in H. rewrite <- (ascii_N_embedding a), H. reflexivity. }
    by rewrite Hd.
  - cbn [digits_form] in Hl.
    assert (Hn : eqc c newline = false).
    { destruct (is_numeric c) eqn:E; [apply plain_not_delimiter; [set_solver|by apply numeric_plain]|].
      rewrite !andb_true_iff in Hl. destruct Hl as [[[Hc _] _] _]. by apply eqc_eq in Hc as ->. }
    assert (Ha : at_ (advance t) (l ++ r, false)) by (eapply at_advance; [exact Ht|done|by right]).
    pose proof (proj1 Ha) as Hra. cbn [fst] in Hra.
    rewrite (proj1 Ht). cbn [fst app read_digits]. destruct (is_numeric c) eqn:E.
    + destruct (IH d (advance t) Hl Ha) as (t' & E' & Ht'). rewrite Hra in E'. rewrite E'. by exists t'.
    + rewrite !andb_true_iff in Hl. destruct Hl as [[[Hc Hd] Hnext] Hl].
      assert (Hpk : from_option is_numeric false (peek_char t 1) = true).
      { unfold peek_char. rewrite (proj1 Ht). cbn. by destruct l. }
      rewrite Hc, Hd, Hpk. cbn.
      destruct (IH true (advance t) Hl Ha) as (t' & E' & Ht'). rewrite Hra in E'. rewrite E'. by exists t'.
Qed.

Lemma lexc_number l n r : number_form l = true -> f64_parse l = Some n -> closes r -> lexc (l ++ r) (Number n) (r, false).
Proof.
  intros Hl Hn Hr t Ht. destruct l as [|c l]; [done|]. unfold number_form in Hl.
  assert (Hc : identifier_char c = true).
  { destruct (eqc c "-") eqn:E; [unfold identifier_char; by rewrite E, !orb_true_r|].
    cbn in Hl. apply andb_true_iff in Hl as [Hl _]. by apply numeric_plain. }
  destruct (plain_punctuation c Hc) as (Hp & Hq & Hlay).
  assert (Hs : starts_number t c = true).
  { unfold starts_number, peek_char. rewrite (proj1 Ht). cbn. destruct (eqc c "-"); [|cbn in Hl; apply andb_true_iff in Hl as [-> _]; done].
    apply andb_true_iff in Hl as [Hd _]. destruct l as [|x l]; [done|]. cbn in *. by rewrite Hd, orb_true_r. }
  unfold next_content. rewrite (no_skip t c (l ++ r) Ht Hlay). unfold current_char at 1. rewrite (proj1 Ht). cbn [head fst app].
  rewrite Hp, Hq, Hs. unfold read_number. unfold current_char. rewrite (proj1 Ht). cbn [head fst app from_option].
  destruct (eqc c "-") eqn:E; apply andb_true_iff in Hl as [_ Hl].
  - assert (Ha : at_ (advance t) (l ++ r, false)).
    { eapply at_advance; [exact Ht|by apply plain_not_delimiter; [set_solver|]|by right]. }
    destruct (read_digits_at false l r _ Hl Hr Ha) as (t' & -> & Ht').
    assert (Hcons : [ch "-"] ++ l = c :: l) by (by apply eqc_eq in E as ->).
    rewrite Hcons, Hn. eexists _, _. split; [done|]. by split.
  - destruct (read_digits_at false (c :: l) r t Hl Hr Ht) as (t' & Hd & Ht').
    rewrite Hd. cbn [app]. rewrite Hn. eexists _, _. split; [done|]. by split.
Qed.

Lemma string_loop_escaped from s r t : at_ t (escape_string s ++ (ch quote :: r), false) ->
  exists t', string_loop from (rest t) t = Ok (s, t') /\ at_ t' (r, false).
Proof.
  revert t; induction s as [|c s IH]; intros t Ht.
  - exists (advance t). rewrite (proj1 Ht). split; [done|]. by eapply at_advance; [exact Ht| |right].
  - change (escape_string (c :: s)) with (escape_char c ++ escape_string s) in Ht. rewrite <- app_assoc in Ht.
    assert (Hone : eqc c quote = false -> eqc c backslash = false -> eqc c newline = false ->
      at_ t (c :: (escape_string s ++ (ch quote :: r)), false) ->
      exists t', string_loop from (rest t) t = Ok (c :: s, t') /\ at_ t' (r, false)).
    { intros Hq Hb Hn Ht1. rewrite (proj1 Ht1). cbn [fst string_loop]. rewrite Hq, Hb, Hn.
      assert (Ha : at_ (advance t) (escape_string s ++ (ch quote :: r), false)) by (eapply at_advance; [exact Ht1|done|by right]).
      destruct (IH _ Ha) as (t' & E & Ht'). rewrite (proj1 Ha) in E. cbn [fst] in E. rewrite E. by exists t'. }
    assert (Htwo : forall e, unescape e = Some c -> eqc e newline = false ->
      at_ t (ch backslash :: e :: (escape_string s ++ (ch quote :: r)), false) ->
      exists t', string_loop from (rest t) t = Ok (c :: s, t') /\ at_ t' (r, false)).
    { intros e He Hn Ht1. rewrite (proj1 Ht1). cbn [fst string_loop].
      change (eqc (ch backslash) quote) with false. change (eqc (ch backslash) backslash) with true. cbn iota. rewrite He.
      assert (Ha : at_ (advance t) (e :: (escape_string s ++ (ch quote :: r)), false)) by (eapply at_advance; [exact Ht1|done|by right]).
      assert (Ha2 : at_ (advance (advance t)) (escape_string s ++ (ch quote :: r), false)) by (eapply at_advance; [exact Ha|done|by right]).
      destruct (IH _ Ha2) as (t' & E & Ht'). rewrite (proj1 Ha2) in E. cbn [fst] in E. rewrite E. by exists t'. }
    unfold escape_char in Ht.
    destruct (eqc c quote) eqn:E1; [apply eqc_eq in E1 as ->; by apply (Htwo (ch quote))|].
    destruct (eqc c backslash) eqn:E2; [apply eqc_eq in E2 as ->; by apply (Htwo (ch backslash))|].
    destruct (eqc c newline) eqn:E3; [apply eqc_eq in E3 as ->; by apply (Htwo (ch "n"))|].
    destruct (eqc c return_) eqn:E4; [apply eqc_eq in E4 as ->; by apply (Htwo (ch "r"))|].
    destruct (eqc c tab) eqn:E5; [apply eqc_eq in E5 as ->; by apply (Htwo (ch "t"))|].
    by apply Hone.
Qed.

Lemma lexc_string s r : lexc (quoted (escape_string s) ++ r) (StringT s) (r, false).
Proof.
  intros t Ht. unfold quoted in Ht. rewrite <- !app_assoc in Ht. cbn [app] in Ht.
  assert (Ha : at_ (advance t) (escape_string s ++ (ch quote :: r), false)) by (by eapply at_advance; [exact Ht| |right]).
  unfold next_content. rewrite (no_skip t _ _ Ht eq_refl). unfold current_char. rewrite (proj1 Ht). cbn [fst head].
  change (punctuation (ch quote)) with (@None TokenKind). cbn iota. change (eqc (ch quote) quote) with true. cbn iota.
  unfold read_string. destruct (string_loop_escaped (current_position t) s r _ Ha) as (t' & -> & Ht').
  eexists _, _. split; [done|]. by split.
Qed.
End Lexing.

(** ** The documents that read back *)

Section Readable.
Context `{CC : CharClass} `{FT : F64Text}.
Implicit Types (v : LogLineValue) (o : SerializeOptions).

Definition all_of {A} (P : A -> Prop) : list A -> Prop := fix go l := match l with [] => True | x :: l' => P x /\ go l' end.

(** A word that is not a keyword. *)
Definition identifier (w : text) : Prop := word w /\ keyword w = Identifier w.
Definition key_ok o (key : text) : Prop :=
  identifier (keyword_text o key) /\ to_lowercase (keyword_text o key) = key.

(** Strings are quoted, or need quotes, or are one word; the text of a number is
    one the tokenizer reads whole and [f64::parse] reads back. *)
Fixpoint value_ok o v : Prop :=
  match v with
  | Str s => quote_strings o || needs_quoting s = true \/ identifier s
  | Num n => number_form (number_text n) = true /\ f64_parse (number_text n) = Some n
  | Bool _ => True
  | List items => all_of (value_ok o) items
  | Object fields => all_of (fun kv => match kv with (key, x) => key_ok o key /\ value_ok o x end) fields
  end.

(** No value stands deeper than the parser reads. *)
Fixpoint fits (d : Z) v : Prop :=
  d <= MAX_NESTING_DEPTH /\
  match v with
  | List items => all_of (fits (d + 1)) items
  | Object fields => all_of (fun kv => match kv with (_, x) => fits (d + 1) x end) fields
  | _ => True
  end.

Definition name_ok (n : option text) : Prop :=
  match n with Some s => needs_quoting s = true \/ identifier s | None => True end.
Definition document_ok o (d : LogLineSpan) : Prop :=
  blanks (indent o) /\ key_ok o (type_ d) /\ name_ok (name d) /\
  all_of (fun kv => match kv with (key, x) => key_ok o key /\ value_ok o x /\ fits 0 x end) (params d).

(** *** The tokens of a document *)

Definition items_kinds {A} (f : A -> list TokenKind) : list A -> list TokenKind :=
  fix go l := match l with [] => [] | [x] => f x | x :: l' => f x ++ Comma :: go l' end.
Definition fields_kinds {A} (f : A -> list TokenKind) (before : text) o : list (text * A) -> list TokenKind :=
  fix go l :=
    match l with
    | [] => []
    | (key, x) :: l' =>
        indent_kinds before ++ [Identifier (keyword_text o key)] ++ Colon :: f x ++ Newline :: go l'
    end.

Definition string_kind (quote_it : bool) (s : text) : TokenKind :=
  if quote_it || needs_quoting s then StringT s else Identifier s.

Fixpoint value_kinds o (depth : nat) v : list TokenKind :=
  match v with
  | Str s => [string_kind (quote_strings o) s]
  | Num n => [Number n]
  | Bool b => [Boolean b]
  | List items => LeftBracket :: items_kinds (value_kinds o (S depth)) items ++ [RightBracket]
  | Object fields =>
      LeftBrace :: Newline :: fields_kinds (value_kinds o (S depth)) (repeat_text (indent o) (S depth)) o fields
        ++ indent_kinds (repeat_text (indent o) depth) ++ [RightBrace]
  end.

Definition document_kinds o (d : LogLineSpan) : list TokenKind :=
  Identifier (keyword_text o (type_ d)) :: Colon ::
    match name d with Some n => [string_kind false n] | None => [] end
    ++ Newline :: fields_kinds (value_kinds o 1) (indent o) o (params d) ++ [End; Eof].

(** Rounds of the parser's loops. *)
Definition items_cost {A} (f : A -> nat) : list A -> nat :=
  fix go l := match l with [] => 1%nat | x :: l' => (1 + f x + go l')%nat end.
Fixpoint cost v : nat :=
  match v with
  | List items => (2 + items_cost cost items)%nat
  | Object fields => (2 + items_cost (fun kv => match kv with (_, x) => S (cost x) end) fields)%nat
  | _ => 1%nat
  end.
Definition document_cost (d : LogLineSpan) : nat := items_cost (fun kv => S (cost (snd kv))) (params d).

(** Induction on a value and the values in it. *)
Lemma value_ind (P : LogLineValue -> Prop) :
  (forall s, P (Str s)) -> (forall n, P (Num n)) -> (forall b, P (Bool b)) ->
  (forall l, Forall P l -> P (List l)) ->
  (forall fs, Forall (fun kv => P (snd kv)) fs -> P (Object fs)) -> forall v, P v.
Proof.
  intros Hs Hn Hb Hl Ho. fix IH 1. intros [s|n|b|l|fs]; [apply Hs|apply Hn|apply Hb|apply Hl|apply Ho].
  - induction l; constructor; [apply IH|done].
  - induction fs as [|[k x] fs IHfs]; constructor; [apply IH|done].
Qed.
End Readable.

(** ** The tokens of a serialized document *)

Section SerializedTokens.
Context `{CC : CharClass} `{FT : F64Text} `{CL : !CharLaws CC}.
Implicit Types (v : LogLineValue) (o : SerializeOptions) (r : text).

Lemma lexes_content r k s' : lexc r k s' -> lexes (r, false) [k] s'.
Proof. intros. by apply lexes_one, lex_content. Qed.

Lemma lexes_space r ks s' : ks <> [] -> lexes (r, false) ks s' -> lexes (ch " " :: r, false) ks s'.
Proof.
  intros Hne H. inversion H as [|s k s1 ks' s2 Hk Hks]; subst; [done|]. eapply lexes_cons; [|exact Hks].
  apply lex_content, lexc_layout; [done|]. intros t Ht. destruct (Hk t Ht) as (tok & t' & E & Hr). exists tok, t'.
  split; [|done]. unfold next_token in E. by rewrite (proj2 Ht) in E.
Qed.

Lemma lexes_punctuation a r k : layout_char (ch a) = false -> punctuation (ch a) = Some k ->
  lexes (ch a :: r, false) [k] (r, eqc (ch a) newline).
Proof. intros. by apply lexes_content, lexc_punctuation. Qed.

Lemma lexes_string q s r : q || needs_quoting s = true \/ identifier s -> closes r ->
  lexes (string_text q s ++ r, false) [string_kind q s] (r, false).
Proof.
  intros H Hr. apply lexes_content. unfold string_text, string_kind. destruct (q || needs_quoting s).
  - apply lexc_string.
  - destruct H as [?|[Hw Hk]]; [done|]. rewrite <- Hk. by apply lexc_word.
Qed.

Lemma value_kinds_ne o depth v : value_kinds o depth v <> [].
Proof. by destruct v. Qed.

Lemma items_text_cons {A} (f : A -> text) x y l : items_text f (x :: y :: l) = f x ++ txt ", " ++ items_text f (y :: l).
Proof. reflexivity. Qed.

(** A field's line, then the rest. *)
Definition field_start (r : text) : Prop := match r with [] => False | c :: _ => layout_blank c = false /\ eqc c newline = false end.

Lemma word_start w r : word w -> exists c r', w ++ r = c :: r' /\ layout_blank c = false /\ eqc c newline = false.
Proof.
  destruct w as [|c w]; [done|]. intros (_ & _ & Hw). exists c, (w ++ r). split; [done|].
  inversion Hw as [|?? Hc _]; subst. destruct (plain_punctuation c Hc) as (_ & _ & Hl). split.
  - destruct (layout_blank c) eqn:E; [|done]. by rewrite blank_is_layout in Hl.
  - apply plain_not_delimiter; [set_solver|done].
Qed.

Lemma lexes_key before o key r : blanks before -> key_ok o key ->
  lexes (before ++ keyword_text o key ++ txt ": " ++ r, true)
    (indent_kinds before ++ [Identifier (keyword_text o key)] ++ [Colon]) (ch " " :: r, false).
Proof.
  intros Hb [[Hw Hk] _]. rewrite (app_assoc (indent_kinds before)). eapply lexes_app.
  - destruct (word_start (keyword_text o key) (txt ": " ++ r) Hw) as (c & r' & Hr & Hc1 & Hc2).
    rewrite Hr. apply lexes_line; [done..|]. rewrite <- Hr, <- Hk. apply lexc_word; [done|]. by apply closes_ch; [set_solver|].
  - by apply (lexes_punctuation ":").
Qed.

Lemma lexes_fields {A} (f : A -> text) (g : A -> list TokenKind) before o l r :
  blanks before -> all_of (fun kv : text * A => key_ok o (fst kv)) l ->
  Forall (fun kv => g (snd kv) <> [] /\ forall r', closes r' -> lexes (f (snd kv) ++ r', false) (g (snd kv)) (r', false)) l ->
  lexes (fields_text f before o l ++ r, true) (fields_kinds g before o l) (r, true).
Proof.
  intros Hb Hk Hl. induction l as [|[key x] l IH]; [constructor|].
  destruct Hk as [Hk Hks]. inversion Hl as [|?? [Hne Hx] Hl']; subst. cbn [fst snd] in *.
  cbn [fields_text fields_kinds]. rewrite <- !app_assoc. 
  replace (indent_kinds before ++ [Identifier (keyword_text o key)] ++ Colon :: g x ++ Newline :: fields_kinds g before o l)
    with ((indent_kinds before ++ [Identifier (keyword_text o key)] ++ [Colon]) ++ g x ++ [Newline] ++ fields_kinds g before o l)
    by (by rewrite <- !app_assoc).
  eapply lexes_app; [by apply lexes_key|].
  apply lexes_space; [by destruct (g x)|].
  eapply lexes_app; [apply Hx; by apply closes_ch; [set_solver|]|].
  eapply lexes_app; [by apply (lexes_punctuation newline)|]. by apply IH.
Qed.

Lemma blanks_repeat ws n : blanks ws -> blanks (repeat_text ws n).
Proof. intros H. unfold repeat_text. induction n as [|n IH]; [constructor|]. cbn. by apply Forall_app. Qed.

Lemma lexes_items {A} (f : A -> text) (g : A -> list TokenKind) l r :
  Forall (fun x => g x <> [] /\ forall r', closes r' -> lexes (f x ++ r', false) (g x) (r', false)) l -> closes r ->
  lexes (items_text f l ++ r, false) (items_kinds g l) (r, false).
Proof.
  intros Hl Hr. induction l as [|x l IH]; [constructor|]. inversion Hl as [|?? [Hne Hx] Hl']; subst.
  destruct l as [|y l]; [by apply Hx|]. rewrite items_text_cons, <- !app_assoc.
  change (items_kinds g (x :: y :: l)) with (g x ++ [Comma] ++ items_kinds g (y :: l)).
  eapply lexes_app; [apply Hx; by apply closes_ch; [set_solver|]|].
  eapply lexes_app; [by apply (lexes_punctuation ",")|].
  change (eqc (ch ",") newline) with false. apply lexes_space; [|by apply IH].
  inversion Hl' as [|?? [Hy _] _]; subst. cbn. by destruct l, (g y).
Qed.

Lemma all_of_Forall {A} (P : A -> Prop) l : all_of P l <-> Forall P l.
Proof. induction l as [|x l IH]; cbn; [split; [constructor|done]|]. rewrite Forall_cons. by rewrite IH. Qed.

Lemma lexes_value o v : blanks (indent o) -> value_ok o v -> forall depth r, closes r ->
  lexes (serialize_value o depth v ++ r, false) (value_kinds o depth v) (r, false).
Proof.
  intros Hb. induction v as [s|n|b|l IH|fs IH] using value_ind; intros Hv depth r Hr.
  - by apply lexes_string.
  - destruct Hv. by apply lexes_content, lexc_number.
  - by apply lexes_content, lexc_bool.
  - cbn [value_ok] in Hv. apply all_of_Forall in Hv. cbn [serialize_value value_kinds]. rewrite <- !app_assoc.
    eapply (lexes_app _ [LeftBracket]); [by apply (lexes_punctuation "[")|].
    change (eqc (ch "[") newline) with false.
    eapply lexes_app; [|by apply (lexes_punctuation "]")].
    apply lexes_items; [|by apply closes_ch; [set_solver|]].
    rewrite Forall_forall in IH, Hv |- *. intros x Hx. split; [apply value_kinds_ne|]. intros r' Hr'. by apply IH; [|apply Hv|].
  - cbn [value_ok] in Hv. apply all_of_Forall in Hv. cbn [serialize_value value_kinds]. rewrite <- !app_assoc.
    eapply (lexes_app _ [LeftBrace]); [by apply (lexes_punctuation "{")|].
    change (eqc (ch "{") newline) with false.
    eapply (lexes_app _ [Newline]); [by apply (lexes_punctuation newline)|].
    eapply lexes_app.
    + apply lexes_fields; [by apply blanks_repeat| |].
      * apply all_of_Forall. eapply Forall_impl; [exact Hv|]. by intros [key x] [? _].
      * rewrite Forall_forall in IH, Hv |- *. intros [key x] Hx. split; [apply value_kinds_ne|]. intros r' Hr'.
        apply (IH _ Hx); [|done]. by apply (Hv _ Hx).
    + apply lexes_line; [by apply blanks_repeat|done..|]. by apply (lexc_punctuation (ch "}") r).
Qed.

(** *** The whole text *)

Definition not_eof (k : TokenKind) : Prop := k <> Eof.

Lemma indent_kinds_not_eof ws : Forall not_eof (indent_kinds ws).
Proof. by destruct ws; repeat constructor. Qed.

Lemma fields_kinds_not_eof {A} (g : A -> list TokenKind) before o l :
  Forall (fun kv => Forall not_eof (g (snd kv))) l -> Forall not_eof (fields_kinds g before o l).
Proof.
  induction 1 as [|[key x] l Hx _ IH]; [constructor|]. cbn [fields_kinds].
  apply Forall_app; split; [apply indent_kinds_not_eof|]. constructor; [done|]. constructor; [done|].
  apply Forall_app; split; [exact Hx|]. by constructor.
Qed.

Lemma string_kind_not_eof q s : not_eof (string_kind q s).
Proof. unfold string_kind. by destruct (q || needs_quoting s). Qed.

Lemma value_kinds_not_eof o v : forall depth, Forall not_eof (value_kinds o depth v).
Proof.
  induction v as [s|n|b|l IH|fs IH] using value_ind; intros depth; cbn [value_kinds].
  - constructor; [apply string_kind_not_eof|constructor].
  - by repeat constructor.
  - by repeat constructor.
  - constructor; [done|]. apply Forall_app; split; [|by repeat constructor].
    induction IH as [|x l Hx _ IHl]; [constructor|]. destruct l as [|y l]; [by apply Hx|].
    change (items_kinds (value_kinds o (S depth)) (x :: y :: l))
      with (value_kinds o (S depth) x ++ Comma :: items_kinds (value_kinds o (S depth)) (y :: l)).
    apply Forall_app; split; [by apply Hx|]. by constructor.
  - do 2 (constructor; [done|]). apply Forall_app; split.
    + apply fields_kinds_not_eof. eapply Forall_impl; [exact IH|]. intros kv H. apply H.
    + apply Forall_app; split; [apply indent_kinds_not_eof|by repeat constructor].
Qed.

Lemma tokenize_loop_lexes fuel t s ks s' (r : result ParseError (list Token)) : Forall not_eof ks -> lexes s (ks ++ [Eof]) s' -> at_ t s ->
  tokenize_loop fuel t = Some r -> exists toks, r = Ok toks /\ kind <$> toks = ks ++ [Eof].
Proof.
  intros Hne. revert fuel t s r. induction Hne as [|k ks Hk Hks IH]; intros fuel t s r Hl Ht Hr;
    (destruct fuel as [|fuel]; [done|]); cbn [app] in Hl; inversion Hl as [|? ? s1 ? ? Hlex Hl']; subst;
    destruct (Hlex t Ht) as (tok & t' & E & Hkd & Ht'); cbn [tokenize_loop] in Hr; rewrite E, Hkd in Hr.
  - injection Hr as <-. exists [tok]. by rewrite <- Hkd.
  - destruct (tokenize_loop fuel t') as [r'|] eqn:El; [|by destruct k].
    destruct (IH fuel t' s1 r' Hl' Ht' El) as (toks & -> & Hm). exists (tok :: toks).
    split; [|cbn; by rewrite Hkd, Hm]. unfold not_eof in Hk. destruct k; congruence.
Qed.

Lemma lexes_document o d : document_ok o d ->
  lexes (serialize_with_options d o, true) (document_kinds o d) ([], false).
Proof.
  intros (Hb & Hkey & Hname & Hps). apply all_of_Forall in Hps. destruct Hkey as [[Hw Hk] _].
  unfold serialize_with_options, document_kinds.
  set (tail_text := [ch newline] ++ fields_text (serialize_value o 1) (indent o) o (params d) ++ txt "END").
  set (tail_kinds := Newline :: fields_kinds (value_kinds o 1) (indent o) o (params d) ++ [End; Eof]).
  assert (Htail : lexes (tail_text, false) tail_kinds ([], false)).
  { eapply (lexes_app _ [Newline]); [by apply (lexes_punctuation newline)|].
    eapply lexes_app.
    - apply lexes_fields; [done| |].
      + apply all_of_Forall. eapply Forall_impl; [exact Hps|]. by intros [key x] [? _].
      + eapply Forall_impl; [exact Hps|]. intros [key x] (_ & Hv & _). split; [apply value_kinds_ne|].
        intros r' Hr'. by apply lexes_value.
    - apply (lexes_app _ [End] ([], false)).
      + apply (lexes_line []); [constructor|done..|].
        pose proof (lexc_word (txt "END") [] word_end I) as H. unfold keyword in H. by rewrite upper_end in H.
      + apply lexes_content. intros t Ht. unfold next_content, skip_whitespace_except_newline.
        rewrite read_while_stop by (by rewrite (proj1 Ht)). cbn [snd]. unfold current_char. rewrite (proj1 Ht). cbn.
        eexists _, _. split; [done|]. by split. }
  destruct (word_start (keyword_text o (type_ d)) (txt ":" ++ match name d with Some n => txt " " ++ string_text false n | None => [] end ++ tail_text) Hw)
    as (c & r' & Hr & Hc1 & Hc2).
  rewrite Hr.
  eapply (lexes_app _ [Identifier _]).
  { apply (lexes_line []); [constructor|done..|]. rewrite <- Hr, <- Hk. apply lexc_word; [done|]. by apply closes_ch; [set_solver|]. }
  eapply (lexes_app _ [Colon]); [by apply (lexes_punctuation ":")|]. change (eqc (ch ":") newline) with false.
  destruct (name d) as [n|]; [|exact Htail].
  rewrite <- app_assoc. apply lexes_space; [done|]. eapply (lexes_app _ [string_kind false n]); [|exact Htail].
  apply lexes_string; [exact Hname|]. by apply closes_ch; [set_solver|].
Qed.

Lemma tokenize_document o d : document_ok o d ->
  exists toks, tokenize (serialize_with_options d o) = Some (Ok toks) /\ kind <$> toks = document_kinds o d.
Proof.
  intros Hd. destruct (tokenizer_located (serialize_with_options d o)) as (r & Hr & _).
  assert (Hk : exists ks, document_kinds o d = ks ++ [Eof] /\ Forall not_eof ks).
  { eexists (Identifier (keyword_text o (type_ d)) :: Colon ::
      match name d with Some n => [string_kind false n] | None => [] end
      ++ Newline :: fields_kinds (value_kinds o 1) (indent o) o (params d) ++ [End]). split.
    - unfold document_kinds. cbn [app]. do 2 f_equal. rewrite <- app_assoc. f_equal. cbn [app]. f_equal. by rewrite <- app_assoc.
    - do 2 (constructor; [done|]). apply Forall_app; split.
      + destruct (name d); [|constructor]. constructor; [apply string_kind_not_eof|constructor].
      + constructor; [done|]. apply Forall_app; split; [|by repeat constructor].
        apply fields_kinds_not_eof, Forall_forall. intros kv _. apply value_kinds_not_eof. }
  destruct Hk as (ks & Hks & Hne). pose proof (lexes_document o d Hd) as Hl. rewrite Hks in Hl.
  destruct (tokenize_loop_lexes _ (tokenizer_new (serialize_with_options d o)) _ ks _ r Hne Hl (conj eq_refl eq_refl) Hr) as (toks & -> & Hm).
  exists toks. by rewrite Hks.
Qed.
End SerializedTokens.

(** ** Parsing the tokens of a document *)

Section ParsingBack.
Context `{CC : CharClass} `{FT : F64Text}.
Implicit Types (v : LogLineValue) (o : SerializeOptions) (p : Parser).

Definition sees p (ks : list TokenKind) : Prop := kind <$> left p = ks.
(** The parser past some tokens, at the same depth. *)
Definition moved_to p p' (ks : list TokenKind) : Prop := sees p' ks /\ depth p' = depth p.

Lemma sees_current p k ks : sees p (k :: ks) -> current_kind p = Some k /\ moved_to p (next p) ks.
Proof. unfold sees, current_kind, current, moved_to, next, set_left. destruct (left p) as [|tok l]; [done|]. intros [= Hk Hl]. split; [cbn; by rewrite Hk|]. split; [exact Hl|done]. Qed.

Fixpoint strip (ks : list TokenKind) : list TokenKind :=
  match ks with (Newline | Indent _) :: ks' => strip ks' | _ => ks end.

Lemma sees_skip p : moved_to p (skip_whitespace p) (strip (kind <$> left p)).
Proof.
  unfold moved_to, sees, skip_whitespace, set_left. cbn [left depth]. split; [|done].
  induction (left p) as [|tok l IH]; [done|]. cbn [drop_layout fmap list_fmap strip]. destruct (kind tok) eqn:E; try exact IH; cbn; by rewrite E.
Qed.

Lemma strip_idem ks : strip (strip ks) = strip ks.
Proof. induction ks as [|k ks IH]; [done|]. by destruct k. Qed.
Lemma strip_indent ws ks : strip (indent_kinds ws ++ ks) = strip ks.
Proof. by destruct ws. Qed.

(** The kinds an unquoted word stops at. *)
Definition value_end (ks : list TokenKind) : Prop :=
  match ks with Newline :: _ | Comma :: _ | RightBracket :: _ => True | _ => False end.

Lemma words_one p s ks : sees p (Identifier s :: ks) -> value_end ks ->
  exists l, words (left p) = ([s], l) /\ kind <$> l = ks.
Proof.
  unfold sees. destruct (left p) as [|tok l]; [done|]. cbn. intros [= Hk Hl] He. rewrite Hk.
  assert (Hw : words l = ([], l)).
  { destruct l as [|x l]; [by subst ks|]. cbn in Hl |- *. subst ks. cbn in He. by destruct (kind x). }
  rewrite Hw. by exists l.
Qed.

Lemma value_head o n v : exists k ks, value_kinds o n v = k :: ks /\ is_value_start k = true.
Proof. destruct v; cbn [value_kinds]; eexists _, _; (split; [done|]); try done. unfold string_kind. by destruct (quote_strings o || needs_quoting s). Qed.

Lemma strip_value o n v ks : strip (value_kinds o n v ++ ks) = value_kinds o n v ++ ks.
Proof. destruct (value_head o n v) as (k & ks' & -> & Hk). by destruct k. Qed.

(** [parse_value] builds [v] from its tokens. *)
Definition reads_back o v : Prop := forall fuel n ks p,
  (cost v <= fuel)%nat -> fits (depth p) v -> value_end ks -> sees p (value_kinds o n v ++ ks) ->
  exists p', parse_value fuel p = Returns (v, p') /\ moved_to p p' ks.

Lemma skip_comma_other p k ks : k <> Comma -> sees p (k :: ks) -> skip_comma p = p.
Proof. intros Hk Hs. unfold skip_comma. destruct (sees_current _ _ _ Hs) as [-> _]. by destruct k. Qed.

Lemma array_reads o n l fuel acc p ks : Forall (reads_back o) l -> all_of (fits (depth p)) l -> (items_cost cost l <= fuel)%nat ->
  sees p (items_kinds (value_kinds o n) l ++ RightBracket :: ks) ->
  exists p', array_loop fuel acc p = Returns (List (acc ++ l), p') /\ moved_to p p' ks.
Proof.
  intros Hl. revert fuel acc p. induction Hl as [|x l Hx Hl IH]; intros fuel acc p Hd Hc Hs;
    (destruct fuel as [|fuel]; [cbn in Hc; lia|]); rewrite array_loop_S; cbn zeta;
    destruct (sees_skip p) as [Hq Hqd]; unfold sees in Hs; rewrite Hs in Hq.
  - cbn in Hq. destruct (sees_current _ _ _ Hq) as [-> [Hn Hnd]]. rewrite app_nil_r. eexists; split; [done|].
    split; [exact Hn|by rewrite Hnd].
  - cbn [items_cost] in Hc. destruct Hd as [Hdx Hdl].
    assert (Hkinds : exists ks', items_kinds (value_kinds o n) (x :: l) ++ RightBracket :: ks = value_kinds o n x ++ ks' /\ value_end ks' /\
      forall q, sees q ks' -> moved_to q (skip_comma (skip_whitespace q)) (items_kinds (value_kinds o n) l ++ RightBracket :: ks)).
    { destruct l as [|y l].
      - exists (RightBracket :: ks). repeat split; try done; destruct (sees_skip q) as [Hk Hkd]; unfold sees in H; rewrite H in Hk;
          by rewrite (skip_comma_other _ RightBracket ks).
      - exists (Comma :: items_kinds (value_kinds o n) (y :: l) ++ RightBracket :: ks).
        change (items_kinds (value_kinds o n) (x :: y :: l)) with (value_kinds o n x ++ Comma :: items_kinds (value_kinds o n) (y :: l)).
        split; [by rewrite <- app_assoc|]. split; [done|]. intros q Hqs. destruct (sees_skip q) as [Hk Hkd].
        unfold sees in Hqs. rewrite Hqs in Hk. cbn [strip] in Hk. destruct (sees_current _ _ _ Hk) as [Hcur [Hn Hnd]].
        unfold skip_comma. rewrite Hcur. split; [exact Hn|by rewrite Hnd]. }
    destruct Hkinds as (ks' & Hks & Hend & Hcomma). rewrite Hks, strip_value in Hq.
    destruct (Hx fuel n ks' (skip_whitespace p)) as (p1 & Hp1 & Hs1 & Hd1); [lia|by rewrite Hqd|done|done|].
    destruct (Hcomma p1 Hs1) as [Hs2 Hd2].
    destruct (IH fuel (acc ++ [x]) (skip_comma (skip_whitespace p1))) as (p' & Hp' & Hs' & Hd'); [by rewrite Hd2, Hd1, Hqd|lia|done|].
    exists p'. split; [|split; [done|by rewrite Hd', Hd2, Hd1]].
    destruct (value_head o n x) as (k & kr & Hk & Hstart). rewrite Hk in Hq. cbn [app] in Hq.
    destruct (sees_current _ _ _ Hq) as [-> _]. rewrite Hp1. cbn [mbind outcome_bind]. rewrite Hp', <- app_assoc.
    by destruct k.
Qed.

(** One field. *)
Lemma param_reads o n key x fuel p ks : reads_back o x -> key_ok o key -> fits (depth p) x -> (S (cost x) <= fuel)%nat -> value_end ks ->
  sees p (Identifier (keyword_text o key) :: Colon :: value_kinds o n x ++ ks) ->
  exists p', parse_param fuel p = Returns ((key, x), p') /\ moved_to p p' ks.
Proof.
  intros Hx [_ Hkey] Hd Hc He Hs. destruct fuel as [|fuel]; [lia|]. rewrite parse_param_S; cbn zeta.
  destruct (sees_current _ _ _ Hs) as [-> [Hs1 Hd1]]. destruct (sees_current _ _ _ Hs1) as [-> [Hs2 Hd2]].
  destruct (Hx fuel n ks (next (next p))) as (p' & Hp' & Hs' & Hd'); [lia|by rewrite Hd2, Hd1|done|done|].
  exists p'. rewrite Hp'. cbn [mbind outcome_bind]. rewrite Hkey. split; [done|]. split; [done|]. by rewrite Hd', Hd2, Hd1.
Qed.

Definition fields_ok o (d : Z) (kv : text * LogLineValue) : Prop :=
  reads_back o (snd kv) /\ key_ok o (fst kv) /\ fits d (snd kv).
Abbreviation fields_cost := (items_cost (fun kv => match kv with (_, x) => S (cost x) end)).

Lemma object_reads o n before l fuel acc p ws ks : Forall (fields_ok o (depth p)) l -> (fields_cost l <= fuel)%nat ->
  strip (kind <$> left p) = strip (fields_kinds (value_kinds o n) before o l ++ indent_kinds ws ++ RightBrace :: ks) ->
  exists p', object_loop fuel acc p = Returns (Object (acc ++ l), p') /\ moved_to p p' ks.
Proof.
  revert fuel acc p; induction l as [|[key x] l IH]; intros fuel acc p Hl Hc Hs;
    (destruct fuel as [|fuel]; [cbn in Hc; lia|]); rewrite object_loop_S; cbn zeta;
    destruct (sees_skip p) as [Hq Hqd]; rewrite Hs in Hq; cbn [fields_kinds app] in Hq.
  - rewrite strip_indent in Hq. destruct (sees_current _ _ _ Hq) as [-> [Hn Hnd]]. rewrite app_nil_r. eexists; split; [done|].
    split; [exact Hn|by rewrite Hnd].
  - rewrite <- app_assoc, strip_indent in Hq. cbn [strip app] in Hq. cbn [items_cost] in Hc.
    destruct (sees_current _ _ _ Hq) as [-> _]. rewrite <- app_assoc in Hq.
    inversion Hl as [|?? (Hx & Hkey & Hd) Hl']; subst. cbn [fst snd] in *.
    edestruct (param_reads o n key x fuel (skip_whitespace p)) as (p1 & Hp1 & Hs1 & Hd1);
      [done|done|by rewrite Hqd|lia| |exact Hq|]; [done|].
    rewrite Hp1. cbn [mbind outcome_bind]. destruct (sees_skip p1) as [Hs2 Hd2]. unfold sees in Hs1. rewrite Hs1 in Hs2.
    cbn [app strip] in Hs2.
    assert (Hcomma : skip_comma (skip_whitespace p1) = skip_whitespace p1).
    { destruct l as [|[key2 x2] l]; cbn [fields_kinds app] in Hs2;
        [rewrite strip_indent in Hs2|rewrite <- app_assoc, strip_indent in Hs2]; by eapply skip_comma_other; [|exact Hs2]. }
    rewrite Hcomma.
    destruct (IH fuel (acc ++ [(key, x)]) (skip_whitespace p1)) as (p' & Hp' & Hs' & Hd'); [by rewrite Hd2, Hd1, Hqd|lia| |].
    { unfold sees in Hs2. by rewrite Hs2, strip_idem. }
    exists p'. rewrite Hp', <- app_assoc. split; [done|]. split; [done|]. by rewrite Hd', Hd2, Hd1.
Qed.

Lemma params_read o n before l fuel acc p : Forall (fields_ok o (depth p)) l -> (fields_cost l <= fuel)%nat ->
  strip (kind <$> left p) = strip (fields_kinds (value_kinds o n) before o l ++ [End; Eof]) ->
  exists p', params_loop fuel acc p = Returns (acc ++ l, p') /\ moved_to p p' [End; Eof].
Proof.
  revert fuel acc p; induction l as [|[key x] l IH]; intros fuel acc p Hl Hc Hs;
    (destruct fuel as [|fuel]; [cbn in Hc; lia|]); cbn [params_loop];
    destruct (sees_skip p) as [Hq Hqd]; rewrite Hs in Hq; cbn [fields_kinds app] in Hq.
  - destruct (sees_current _ _ _ Hq) as [-> _]. rewrite app_nil_r. eexists; split; [done|]. by split.
  - rewrite <- app_assoc, strip_indent in Hq. cbn [strip app] in Hq. cbn [items_cost] in Hc.
    destruct (sees_current _ _ _ Hq) as [-> _]. rewrite <- app_assoc in Hq.
    inversion Hl as [|?? (Hx & Hkey & Hd) Hl']; subst. cbn [fst snd] in *.
    edestruct (param_reads o n key x fuel (skip_whitespace p)) as (p1 & Hp1 & Hs1 & Hd1);
      [done|done|by rewrite Hqd|lia| |exact Hq|]; [done|].
    rewrite Hp1. cbn [mbind outcome_bind].
    destruct (IH fuel (acc ++ [(key, x)]) p1) as (p' & Hp' & Hs' & Hd'); [by rewrite Hd1, Hqd|lia| |].
    { unfold sees in Hs1. by rewrite Hs1. }
    exists p'. rewrite Hp', <- app_assoc. split; [done|]. split; [done|]. by rewrite Hd', Hd1.
Qed.

Lemma value_reads o v : value_ok o v -> reads_back o v.
Proof.
  induction v as [s|x|b|l IH|fs IH] using value_ind; intros Hv fuel n ks p Hc Hd He Hs;
    (destruct fuel as [|fuel]; [cbn in Hc; lia|]); rewrite parse_value_S; destruct Hd as [Hd Hin];
    rewrite (proj2 (Z.ltb_ge _ _) Hd); cbn [value_kinds app] in Hs; destruct (sees_current _ _ _ Hs) as [-> Hnext];
    try (by eexists; split; [done|]).
  - unfold string_kind in *. destruct (quote_strings o || needs_quoting s); [by eexists|].
    destruct (words_one p s ks Hs He) as (l & -> & Hl). eexists; split; [done|]. by split.
  - cbn [value_ok] in Hv. apply all_of_Forall in Hv. cbn [cost] in Hc. destruct fuel as [|fuel]; [lia|]. rewrite parse_array_S.
    destruct (sees_current (deeper p) _ _ Hs) as [-> [Hs1 Hd1]]. rewrite <- app_assoc in Hs1.
    destruct (array_reads o (S n) l fuel [] (next (deeper p)) ks) as (p' & Hp' & Hs' & Hd'); [|by rewrite Hd1|lia|exact Hs1|].
    { rewrite Forall_forall in IH, Hv |- *. auto. }
    rewrite Hp'. cbn. eexists; split; [done|]. split; [exact Hs'|]. cbn. rewrite Hd', Hd1. cbn. lia.
  - cbn [value_ok] in Hv. apply all_of_Forall in Hv. apply all_of_Forall in Hin. cbn [cost] in Hc. destruct fuel as [|fuel]; [lia|].
    rewrite parse_object_S. destruct (sees_current (deeper p) _ _ Hs) as [-> [Hs1 Hd1]].
    destruct (object_reads o (S n) (repeat_text (indent o) (S n)) fs fuel [] (next (deeper p)) (repeat_text (indent o) n) ks)
      as (p' & Hp' & Hs' & Hd'); [|lia| |].
    { rewrite Forall_forall in IH, Hv, Hin |- *. intros [key x] Hx. specialize (Hv _ Hx). destruct Hv as [Hk Hv].
      split; [by apply (IH (key, x))|]. split; [done|]. rewrite Hd1. apply (Hin _ Hx). }
    { unfold sees in Hs1. rewrite Hs1. cbn [strip]. by rewrite <- !app_assoc. }
    rewrite Hp'. cbn. eexists; split; [done|]. split; [exact Hs'|]. cbn. rewrite Hd', Hd1. cbn. lia.
Qed.
End ParsingBack.

Lemma trim_start_stays `{CC : CharClass} s c : is_whitespace c = false -> c ∈ s -> c ∈ trim_start s.
Proof.
  intros Hc. induction s as [|x s IH]; [done|]. cbn [trim_start]. destruct (is_whitespace x) eqn:E; [|done].
  intros H. apply elem_of_cons in H as [->|H]; [congruence|auto].
Qed.

Lemma document_not_blank `{CC : CharClass} `{FT : F64Text} `{CL : !CharLaws CC} o d : trim (serialize_with_options d o) <> [].
Proof.
  assert (H : ch "E" ∈ trim (serialize_with_options d o)).
  { assert (Hc : is_whitespace (ch "E") = false) by (by rewrite whitespace_ascii).
    unfold trim. apply elem_of_reverse, trim_start_stays; [done|]. apply elem_of_reverse, trim_start_stays; [done|].
    unfold serialize_with_options. do 5 (apply elem_of_app; right). by left. }
  intros E. rewrite E in H. by apply elem_of_nil in H.
Qed.

(** C33: A [document_ok] is written and read back: type, name and parameters, in
    order.

    Such a document is indented with blanks; its type and keys are words that the
    parser's lower-casing gives back from the letter case they are written in
    (a key [Goal] would come back as [goal]), and no keywords; its name and its
    strings are quoted or single words; every number is one whose text has the
    form of a number and is read by [f64::parse] as the same number, which is
    not so for NaN and the infinities; and its values nest within the limit. *)
Theorem logline_roundtrip `{CC : CharClass} `{FT : F64Text} `{CL : !CharLaws CC} o d fuel :
  document_ok o d -> (document_cost d <= fuel)%nat ->
  exists sp, parse_logline fuel (serialize_with_options d o) = Returns (mkLogLineSpan (type_ d) (name d) (params d) sp).
Proof.
  intros Hd Hf. pose proof (document_not_blank o d) as Hne. unfold parse_logline. destruct (trim _); [done|]. clear Hne.
  destruct (tokenize_document o d Hd) as (toks & -> & Hk). destruct Hd as (_ & [_ Hty] & Hname & Hps).
  unfold parse. destruct (sees_skip (parser_new toks)) as [Hs0 Hd0]. cbn [parser_new left] in Hs0. rewrite Hk in Hs0.
  unfold document_kinds in Hs0. cbn [strip] in Hs0. set (p0 := skip_whitespace (parser_new toks)) in *.
  destruct (sees_current _ _ _ Hs0) as [Hc0 [Hs1 Hd1]]. destruct (sees_current _ _ _ Hs1) as [Hc1 [Hs2 Hd2]].
  assert (Hhead : exists sp p1, parse_header p0 = Ok (type_ d, name d, sp, p1) /\
    moved_to p0 p1 (Newline :: fields_kinds (value_kinds o 1) (indent o) o (params d) ++ [End; Eof])).
  { unfold parse_header. unfold current_kind in Hc0. destruct (current p0) as [tok|]; [|done]. injection Hc0 as Hc0. rewrite Hc0.
    cbn zeta. rewrite Hc1, Hty. unfold parse_optional_name.
    destruct (name d) as [s|]; destruct (sees_current _ _ _ Hs2) as [-> [Hs3 Hd3]].
    - exists (span tok), (next (next (next p0))). unfold string_kind.
      split; [by destruct (needs_quoting s)|]. split; [exact Hs3|]. by rewrite Hd3, Hd2, Hd1.
    - exists (span tok), (next (next p0)). split; [done|]. split; [exact Hs2|]. by rewrite Hd2, Hd1. }
  destruct Hhead as (sp & p1 & -> & Hs4 & Hd4). unfold parse_params.
  destruct (params_read o 1 (indent o) (params d) fuel [] p1) as (p2 & -> & Hs5 & Hd5).
  - rewrite Hd4, Hd0. apply all_of_Forall in Hps. eapply Forall_impl; [exact Hps|]. intros [key x] (Hkey & Hv & Hfit).
    split; [by apply value_reads|]. by split.
  - unfold document_cost in Hf. etrans; [|exact Hf]. apply Nat.eq_le_incl. clear. induction (params d) as [|[k x] l IH]; [done|]. cbn. by rewrite IH.
  - unfold sees in Hs4. by rewrite Hs4.
  - cbn [mbind outcome_bind]. destruct (sees_skip p2) as [Hs6 Hd6]. unfold sees in Hs5. rewrite Hs5 in Hs6. cbn [strip] in Hs6.
    destruct (sees_current _ _ _ Hs6) as [-> _]. by eexists.
Qed.

(** * LogLine: witnesses and examples *)

Definition upper_char (c : char) : char := if ((97 <=? c) && (c <=? 122))%N then (c - 32)%N else c.
Definition ascii_alphabetic (c : char) : bool := ((65 <=? c) && (c <=? 90) || (97 <=? c) && (c <=? 122))%N.
Definition ascii_numeric (c : char) : bool := ((48 <=? c) && (c <=? 57))%N.
Definition ascii_whitespace (c : char) : bool := ((9 <=? c) && (c <=? 13) || (c =? 32))%N.

#[export] Instance ascii_class : CharClass := {|
  is_alphabetic := ascii_alphabetic; is_numeric := ascii_numeric; is_whitespace := ascii_whitespace;
  to_uppercase := fmap upper_char; to_lowercase := fmap ascii_lower_char |}.

#[export] Instance ascii_laws : CharLaws ascii_class.
Proof. split; reflexivity || done. Qed.

(** Integers for numbers. *)
Fixpoint digits_value (acc : Z) (l : text) : option Z :=
  match l with
  | [] => Some acc
  | c :: l' => if ascii_numeric c then digits_value (10 * acc + (Z.of_N c - 48)) l' else None
  end.
Definition integer_parse (l : text) : option Z :=
  match l with
  | [] => None
  | c :: l' => if eqc c "-" then match l' with [] => None | _ => Z.opp <$> digits_value 0 l' end else digits_value 0 l
  end.
#[export] Instance integers : F64Text := {|
  f64 := Z; f64_parse := integer_parse; f64_to_string := fun n => txt (i_to_string n);
  f64_integral := fun _ => true; f64_as_i64 := fun n => n |}.

Definition plain_options : SerializeOptions := mkSerializeOptions (txt "  ") true false.
Definition job : LogLineSpan :=
  mkLogLineSpan (txt "job") (Some (txt "fix-bug")) [
    (txt "goal", Str (txt "Fix: the [login], now"));
    (txt "tokens", @Num integers 50000);
    (txt "priority", Str (txt "high"));
    (txt "tags", List [Str (txt "urgent"); Bool true; List []]);
    (txt "budget", Object [(txt "limits", Object [(txt "max_files", @Num integers (-5))]); (txt "note", Str [])])] None.

Example job_text : serialize_logline job = txt "JOB: fix-bug" ++ ch newline ::
  txt "  GOAL: " ++ quoted (txt "Fix: the [login], now") ++ ch newline :: txt "  TOKENS: 50000" ++ ch newline ::
  txt "  PRIORITY: high" ++ ch newline :: txt "  TAGS: [urgent, true, []]" ++ ch newline ::
  txt "  BUDGET: {" ++ ch newline :: txt "    LIMITS: {" ++ ch newline :: txt "      MAX_FILES: -5" ++ ch newline ::
  txt "    }" ++ ch newline :: txt "    NOTE: " ++ quoted [] ++ ch newline :: txt "  }" ++ ch newline :: txt "END".
Proof. vm_compute. reflexivity. Qed.

(** Both sides evaluated by the virtual machine. *)
Ltac by_vm := match goal with |- _ = ?r => vm_cast_no_check (@eq_refl _ r) end.

Ltac by_reading := repeat first
  [ split | exact I | reflexivity | discriminate
  | left; reflexivity | right
  | apply Forall_cons_2 | apply Forall_nil_2 ].

Lemma job_ok : document_ok options_default job.
Proof. by_reading. Qed.

Lemma logline_roundtrip_witness : exists sp,
  parse_logline 100 (serialize_with_options job options_default) = Returns (mkLogLineSpan (type_ job) (name job) (params job) sp).
Proof. apply (logline_roundtrip options_default job 100); [exact job_ok|]. apply Nat.leb_le. vm_compute. reflexivity. Defined.

(** ** A text on which the parser never stops *)

Definition stuck_text : text := txt "JOB: x" ++ ch newline :: txt "  K: [1: 2]" ++ ch newline :: txt "END".

Example stuck_text_runs_on : parse_logline 1000 stuck_text = Diverges.
Proof. by_vm. Qed.

Lemma absent (c : char) (l : text) : existsb (N.eqb c) l = false -> c ∉ l.
Proof.
  intros H Hin. assert (Ht : existsb (N.eqb c) l = true) by (apply existsb_exists; exists c; split; [by apply list_elem_of_In|apply N.eqb_refl]).
  congruence.
Qed.

Lemma logline_terminates_witness : exists r, parse_logline 40 (txt "JOB: x END") = r /\ r <> Diverges.
Proof.
  eexists; split; [reflexivity|]. apply (logline_terminates 40 (txt "JOB: x END")); [by apply absent|].
  apply Nat.leb_le. vm_compute. reflexivity.
Defined.

(** The text [[1: 2]]: after the value 1 the colon is where a value should be. *)
Definition one_to_two : Parser :=
  match tokenize (txt "[1: 2]") with Some (Ok toks) => parser_new toks | _ => parser_new [] end.
Definition past_one : Parser := next (next (deeper one_to_two)).
Lemma stray_in_array_diverges_witness :
  current_kind past_one = Some Colon /\ read_values (next (deeper one_to_two)) past_one /\
  parse_value 1000 one_to_two = Diverges.
Proof.
  assert (Hr : read_values (next (deeper one_to_two)) past_one).
  { apply (read_value _ 1 (@Num integers 1) past_one past_one (@Number integers 1)); [by_vm|discriminate..|by_vm|].
    assert (E : skip_comma (skip_whitespace past_one) = past_one) by by_vm. rewrite E. apply read_none. }
  split_and!; [by_vm|exact Hr|].
  apply (stray_in_array_diverges 1000 one_to_two past_one Colon); [vm_compute; reflexivity|by_vm|exact Hr|by_vm|reflexivity].
Defined.

(** ** Without quotes the text of a value is another value *)

Definition reread (d : LogLineSpan) : option (option text * list (text * LogLineValue)) :=
  match parse_logline 100 (serialize_logline d) with Returns r => Some (name r, params r) | _ => None end.

Example string_true_becomes_boolean : reread (with_str (txt "flag") (txt "true") (span_new (txt "job"))) =
  Some (None, [(txt "flag", Bool true)]).
Proof. by_vm. Qed.
Example string_digits_becomes_number : reread (with_str (txt "zip") (txt "04150") (span_new (txt "job"))) =
  Some (None, [(txt "zip", @Num integers 4150)]).
Proof. by_vm. Qed.
Example string_colon_is_spaced : reread (with_str (txt "url") (txt "a:b") (span_new (txt "job"))) =
  Some (None, [(txt "url", Str (txt "a : b"))]).
Proof. by_vm. Qed.
Example string_end_cuts_document :
  reread (with_bool (txt "paid") true (with_str (txt "goal") (txt "weekend END") (span_new (txt "job")))) =
  Some (None, [(txt "goal", Str (txt "weekend"))]).
Proof. by_vm. Qed.

(** The words of a name after its first become parameters. *)
Example name_injects_parameter : reread (with_name (txt "deploy admin") (span_new (txt "job"))) =
  Some (Some (txt "deploy"), [(txt "admin", Bool true)]).
Proof. by_vm. Qed.

(** A key may stand twice; [get] gives the first. *)
Example duplicate_key_kept :
  match parse_logline 100 (txt "JOB: x" ++ ch newline :: txt "A: 1" ++ ch newline :: txt "a: 2" ++ ch newline :: txt "END") with
  | Returns r => Some (params r, get_num r (txt "A"))
  | _ => None
  end = Some ([(txt "a", @Num integers 1); (txt "a", @Num integers 2)], Some 1).
Proof. by_vm. Qed.

(** A tab counts four columns of indentation and one character: the start of the
    indentation wraps. *)
Example tab_indent_wraps :
  match next_token (tokenizer_new (ch tab :: txt "x")) with
  | Ok (tok, _) => Some (kind tok, offset (start (span tok)), offset (end_ (span tok)))
  | Err _ => None
  end = Some (@Indent integers 4, 2 ^ 64 - 3, 1).
Proof. by_vm. Qed.

(** Offsets count characters: an [é], two bytes long, moves them by one. *)
Example offsets_count_characters :
  match next_token (mkTokenizer [58%N; 233%N] 0 1 1 false) with
  | Ok (tok, t') => Some (offset (start (span tok)), position (advance t'))
  | Err _ => None
  end = Some (0, 2).
Proof. by_vm. Qed.
