(* ===== verification/RichUrl.v ===== *)
(** * Rich URLs ([ubl_runtime/src/rich_url.rs])

    Verifiable links to receipts and chips: hosted URLs, self-contained [ubl://]
    URLs and the public receipt token, with their signing payloads, their
    parsers and the offline verification with its environment modes.  Deflate
    and the texts of other libraries' errors are interfaces. *)

From S2P Require Import Prelude RustStd RustStr Json Nrf NrfFacts Vm Policy Types Canon Receipt.

Local Open Scope string_scope.
Local Open Scope Z_scope.
Local Open Scope list_scope.

(** ** Libraries the code calls *)

(** [flate2]'s deflate and inflate. *)
Class Deflate : Type := { deflate : bytes -> bytes; inflate : bytes -> option bytes }.
Class DeflateLaws (D : Deflate) : Prop := { inflate_deflate b : inflate (deflate b) = Some b }.

(** ** Constants, data, errors *)

Definition URL_SIGN_DOMAIN : string := domains.RICH_URL.
Definition MAX_SELF_CONTAINED_URL_BYTES : Z := 2048.
Definition PUBLIC_RECEIPT_MODEL_V1 : string := "ubl:v1".

Record PublicReceiptTokenV1 : Type := mkToken {
  tk_v : Z; tk_r : string; tk_c : string; tk_g : string; tk_k : string; tk_alg : string; tk_sig : string;
  tk_did : option string; tk_rc : option string; tk_bh : option string }.

Record PublicReceiptLink : Type := mkLink {
  model : string; origin : string; path : string; url : string; token : string; payload : PublicReceiptTokenV1 }.

Record HostedUrl : Type := mkHosted {
  host : string; app : string; tenant : string; receipt_id : string;
  h_cid : string; h_did : string; h_rt : string; h_sig : string }.

Record SelfContainedUrl : Type := mkSelfContained { data_b64 : string; s_cid : string; s_did : string; s_sig : string }.

(** What an encoding step reports; the library's own text is left out. *)
Inductive encoding_step : Type := JsonParse | Base64UrlDecode | DeflateDecompress.
Inductive UrlError : Type :=
| InvalidFormat (what : string)
| MissingParam (name : string)
| Encoding (step : encoding_step)
| TooLarge (size limit : Z).

Inductive VerifyError : Type :=
| InvalidSignature
| RuntimeHashMismatch (expected got : string)
| CidMismatch (expected got : string)
| DidKeyInvalid (e : KmsError)
| DecodeUrl (e : UrlError)
| DecodeCid (e : CanonError).

(** The texts of the errors above, in [Display]. *)
Class ErrorTexts : Type := { step_text : encoding_step -> string; kms_text : KmsError -> string; canon_text : CanonError -> string }.

Record VerificationResult : Type := mkVerification {
  cid_valid : bool; sig_valid : bool; rt_valid : bool; verified : bool; summary : string }.

Inductive RichUrlVerifyMode : Type := Shadow | Strict.
#[export] Instance RichUrlVerifyMode_eq_dec : EqDecision RichUrlVerifyMode.
Proof. solve_decision. Defined.

(** ** Strings *)

(** [strip_suffix]. *)
Definition strip_suffix (suf s : string) : option string :=
  let n := (String.length s - String.length suf)%nat in
  if ends_with suf s then Some (String.substring 0 n s) else None.

(** [rsplit_once(c)]: at the last occurrence. *)
Fixpoint rsplit_once (c : ascii) (s : string) : option (string * string) :=
  match s with
  | EmptyString => None
  | String a s' =>
      match rsplit_once c s' with
      | Some (l, r) => Some (String a l, r)
      | None => if Ascii.eqb a c then Some (EmptyString, s') else None
      end
  end.

(** [rsplitn(n, c)]: at most [n] pieces, the last one first. *)
Fixpoint rsplitn (n : nat) (c : ascii) (s : string) : list string :=
  match n with
  | O => []
  | S n' =>
      match n', rsplit_once c s with
      | O, _ | _, None => [s]
      | _, Some (l, r) => r :: rsplitn n' c l
      end
  end.

(** [trim_end_matches(c)]. *)
Fixpoint trim_end_matches (c : ascii) (s : string) : string :=
  match s with
  | EmptyString => EmptyString
  | String a s' =>
      match trim_end_matches c s' with
      | EmptyString => if Ascii.eqb a c then EmptyString else String a EmptyString
      | t => String a t
      end
  end.

(** A [HashMap]: a later pair replaces an earlier one. *)
Definition insert_pair (params : gmap string string) (pair : string) : gmap string string :=
  match split_once "=" pair with Some (k, v) => <[k := v]> params | None => params end.
Definition parse_query_params (query : string) : gmap string string :=
  foldl insert_pair ∅ (split_on "&" query).

Definition param (name : string) (params : gmap string string) : result UrlError string :=
  ok_or (params !! name) (MissingParam name).

(** ** Hosted URLs *)

Definition hosted_path (u : HostedUrl) : string :=
  host u +:+ "/" +:+ app u +:+ "/" +:+ tenant u +:+ "/receipts/" +:+ receipt_id u +:+ ".json".

Definition hosted_to_url_string (u : HostedUrl) : string :=
  hosted_path u +:+ "#cid=" +:+ h_cid u +:+ "&did=" +:+ h_did u +:+ "&rt=" +:+ h_rt u +:+ "&sig=" +:+ h_sig u.

Definition hosted_parse (s : string) : result UrlError HostedUrl :=
  '(pth, fragment) ← ok_or (split_once "#" s) (InvalidFormat "Missing # fragment");
  let params := parse_query_params fragment in
  cid ← param "cid" params;
  did ← param "did" params;
  rt ← param "rt" params;
  sig ← param "sig" params;
  '(base, receipt_file) ← ok_or (split_once_str "/receipts/" pth) (InvalidFormat "Missing /receipts/ in path");
  id ← ok_or (strip_suffix ".json" receipt_file) (InvalidFormat "Receipt path must end in .json");
  match rsplitn 3 "/" base with
  | [t; a; h] => Ok (mkHosted h a t id cid did rt sig)
  | _ => Err (InvalidFormat "Cannot parse host/app/tenant from path")
  end.

Section RichUrls.
Context {U : Unicode} {HB3 : Blake3} {ED : Ed25519} {EK : Ed25519Keys} {B64 : Base64} {B64D : Base64Decode}
  {B58 : Base58} {SJ : SerdeJson} {DF : Deflate} {ET : ErrorTexts}.

(** [to_nrf_bytes(..).unwrap_or_default()]. *)
Definition payload_bytes (v : json) : bytes := match to_nrf_bytes v with Ok b => b | Err _ => [] end.

Definition hosted_payload (u : HostedUrl) : json :=
  JObject [("domain", JString URL_SIGN_DOMAIN); ("path", JString (hosted_path u)); ("cid", JString (h_cid u));
           ("did", JString (h_did u)); ("rt", JString (h_rt u))].
Definition hosted_signing_payload (u : HostedUrl) : bytes := payload_bytes (hosted_payload u).

(** ** Self-contained URLs *)

Definition self_to_url_string (u : SelfContainedUrl) : string :=
  "ubl://" +:+ data_b64 u +:+ "?cid=" +:+ s_cid u +:+ "&did=" +:+ s_did u +:+ "&sig=" +:+ s_sig u.

Definition from_chip (chip : json) (cid did sig : string) : result UrlError SelfContainedUrl :=
  let u := mkSelfContained (base64_url (deflate (to_vec chip))) cid did sig in
  let size := Z.of_nat (String.length (self_to_url_string u)) in
  if MAX_SELF_CONTAINED_URL_BYTES <? size then Err (TooLarge size MAX_SELF_CONTAINED_URL_BYTES) else Ok u.

Definition self_parse (s : string) : result UrlError SelfContainedUrl :=
  rest ← ok_or (strip_prefix "ubl://" s) (InvalidFormat "Must start with ubl://");
  '(data, query) ← ok_or (split_once "?" rest) (InvalidFormat "Missing ? query");
  let params := parse_query_params query in
  cid ← param "cid" params;
  did ← param "did" params;
  sig ← param "sig" params;
  Ok (mkSelfContained data cid did sig).

Definition extract_chip (u : SelfContainedUrl) : result UrlError json :=
  compressed ← ok_or (base64_decode (data_b64 u)) (Encoding Base64UrlDecode);
  decompressed ← ok_or (inflate compressed) (Encoding DeflateDecompress);
  ok_or (from_slice decompressed) (Encoding JsonParse).

Definition self_payload (u : SelfContainedUrl) : json :=
  JObject [("domain", JString URL_SIGN_DOMAIN); ("data_b64", JString (data_b64 u)); ("cid", JString (s_cid u));
           ("did", JString (s_did u))].
Definition self_signing_payload (u : SelfContainedUrl) : bytes := payload_bytes (self_payload u).

(** ** The public receipt token *)

(** [a.or_else(|| b)]. *)
Definition or_else {A} (a b : option A) : option A := match a with Some x => Some x | None => b end.

Definition is_wa_stage (stage : json) : bool :=
  match get "stage" stage ≫= as_str with Some s => eq_ignore_ascii_case s "WA" | None => false end.
Definition input_of (stage : json) : option string := get "input_cid" stage ≫= as_str.
Fixpoint find_wa (stages : list json) : option string :=
  match stages with
  | [] => None
  | s :: stages' => if is_wa_stage s then or_else (input_of s) (find_wa stages') else find_wa stages'
  end.

(** [map(str::trim).filter(|s| !s.is_empty())]. *)
Definition trimmed (o : option string) : option string :=
  match o with
  | Some s => let t := str_trim s in if is_empty t then None else Some t
  | None => None
  end.

Definition build_public_receipt_token_v1 (receipt : json) (genesis_pubkey_sha256 release_commit gate_binary_sha256 : option string)
    : result UrlError PublicReceiptTokenV1 :=
  receipt_cid ← ok_or (or_else (get "receipt_cid" receipt) (get "@id" receipt) ≫= as_str) (InvalidFormat "receipt missing receipt_cid");
  let stages := get "stages" receipt ≫= as_array in
  chip_cid ← ok_or (or_else (stages ≫= find_wa) (stages ≫= fun l => head l ≫= input_of))
               (InvalidFormat "receipt missing chip input CID");
  signer_key ← ok_or (or_else (get "kid" receipt) (get "did" receipt) ≫= as_str) (InvalidFormat "receipt missing signer key (kid/did)");
  let did_opt := get "did" receipt ≫= as_str in
  sig ← ok_or (get "sig" receipt ≫= as_str) (InvalidFormat "receipt missing signature");
  let alg := match split_once ":" sig with Some (a, _) => a | None => "unknown" end in
  let binary_hash := or_else (trimmed gate_binary_sha256)
    ((get "rt" receipt ≫= fun rt => or_else (get "binary_hash" rt) (get "runtime_hash" rt)) ≫= as_str) in
  Ok (mkToken 1 receipt_cid chip_cid (default "" genesis_pubkey_sha256) signer_key alg sig did_opt
        (trimmed release_commit) binary_hash).

Fixpoint canonicalize_json (v : json) : json :=
  match v with
  | JObject m => JObject (foldl (fun acc kv => match kv with (k, x) => btree_insert k x acc end) []
                            (map (fun kv => match kv with (k, x) => (k, canonicalize_json x) end) m))
  | JArray l => JArray (map canonicalize_json l)
  | _ => v
  end.

(** [serde_json::to_value] of a token. *)
Definition token_to_json (t : PublicReceiptTokenV1) : json :=
  JObject ([("v", JNumber (PosInt (tk_v t))); ("r", JString (tk_r t)); ("c", JString (tk_c t)); ("g", JString (tk_g t));
            ("k", JString (tk_k t)); ("alg", JString (tk_alg t)); ("sig", JString (tk_sig t))]
           ++ member_opt "did" JString (tk_did t) ++ member_opt "rc" JString (tk_rc t) ++ member_opt "bh" JString (tk_bh t)).

Definition normal_origin (o : string) : string := trim_end_matches "/" o.
Definition normal_path (p : string) : string :=
  let raw := str_trim p in
  if is_empty raw then "/r" else if starts_with "/" raw then raw else "/" +:+ raw.

Definition build_public_receipt_link_v1 (o p : string) (t : PublicReceiptTokenV1) : result UrlError PublicReceiptLink :=
  let origin_norm := normal_origin o in
  if negb (starts_with "http://" origin_norm || starts_with "https://" origin_norm)
  then Err (InvalidFormat "public receipt origin must start with http:// or https://")
  else
    let path_norm := normal_path p in
    let payload_json := value_to_string (canonicalize_json (token_to_json t)) in
    let tok := base64_url (as_bytes payload_json) in
    Ok (mkLink PUBLIC_RECEIPT_MODEL_V1 origin_norm path_norm
          (origin_norm +:+ path_norm +:+ "#" +:+ PUBLIC_RECEIPT_MODEL_V1 +:+ ":" +:+ tok) tok t).

(** ** The environment *)

Definition env_bool (env : Environment) (name : string) : bool :=
  match env name with Ok v => eq_ignore_ascii_case v "true" || String.eqb v "1" | Err _ => false end.

(** One entry of a scope list: [*/*], or [app/tenant] with stars. *)
Definition scope_entry_matches (app tenant raw : string) : bool :=
  if String.eqb raw "*/*" then true
  else
    match split_once "/" raw with
    | None => false
    | Some (scope_app, scope_tenant) =>
        (String.eqb scope_app "*" || String.eqb scope_app app) && (String.eqb scope_tenant "*" || String.eqb scope_tenant tenant)
    end.

Definition scope_match_env (env : Environment) (var_name : string) (app tenant : option string) : bool :=
  match app, tenant, env var_name with
  | Some a, Some t, Ok scopes =>
      existsb (scope_entry_matches a t) (List.filter (fun s => negb (is_empty s)) (map str_trim (split_on "," scopes)))
  | _, _, _ => false
  end.

Definition mode_from_env (env : Environment) : RichUrlVerifyMode :=
  match env "UBL_RICHURL_VERIFY_MODE" with
  | Ok mode => if eq_ignore_ascii_case mode "strict" then Strict else Shadow
  | Err _ => Shadow
  end.
Definition mode_for_scope (env : Environment) (app tenant : option string) : RichUrlVerifyMode :=
  if bool_decide (mode_from_env env = Strict) then Strict
  else if scope_match_env env "UBL_RICHURL_STRICT_SCOPES" app tenant then Strict
  else Shadow.

(** ** Verification *)

(** [unwrap_or(false)]. *)
Definition ok_true {E} (r : result E bool) : bool := match r with Ok b => b | Err _ => false end.

Definition verify_signature_with_mode (env : Environment) (msg vk : bytes) (sig : string) (mode : CryptoMode)
    (app tenant : option string) : bool :=
  let v1 := ok_true (verify_raw_v1 msg URL_SIGN_DOMAIN vk sig) in
  let v2 := ok_true (verify_raw_v2_hash_first msg URL_SIGN_DOMAIN vk sig) in
  let v2_enforce := env_bool env "UBL_CRYPTO_V2_ENFORCE" || scope_match_env env "UBL_CRYPTO_V2_ENFORCE_SCOPES" app tenant in
  match mode with
  | HashFirstV2 => v2
  | CompatV1 => if v2_enforce then v1 && v2 else v1
  end.

Definition verify_signature_by_env (env : Environment) (msg vk : bytes) (sig : string) (app tenant : option string) : bool :=
  verify_signature_with_mode env msg vk sig (crypto_mode_from_env env) app tenant.

Definition runtime_of (receipt_body : json) : string :=
  default "" ((get "rt" receipt_body ≫= fun rt => or_else (get "runtime_hash" rt) (get "binary_hash" rt)) ≫= as_str).

Definition verify_hosted (env : Environment) (u : HostedUrl) (receipt_body : json) : result VerifyError VerificationResult :=
  let computed_cid := match cid_of receipt_body with Ok c => c | Err _ => "" end in
  let cid_ok := negb (is_empty computed_cid) && String.eqb computed_cid (h_cid u) in
  if negb cid_ok then Err (CidMismatch (h_cid u) computed_cid)
  else
    match verifying_key_from_did (h_did u) with
    | Err e => Err (DidKeyInvalid e)
    | Ok vk =>
        let sig_ok := verify_signature_by_env env (hosted_signing_payload u) vk (h_sig u) (Some (app u)) (Some (tenant u)) in
        if negb sig_ok then Err InvalidSignature
        else
          let expected_rt := runtime_of receipt_body in
          let rt_ok := String.eqb expected_rt (h_rt u) in
          if negb rt_ok then Err (RuntimeHashMismatch expected_rt (h_rt u))
          else Ok (mkVerification cid_ok sig_ok rt_ok true ("VERIFIED: CID=" +:+ h_cid u +:+ ", DID=" +:+ h_did u))
    end.

Definition verify_self_contained (env : Environment) (u : SelfContainedUrl) : result VerifyError VerificationResult :=
  chip ← map_err DecodeUrl (extract_chip u);
  computed_cid ← map_err DecodeCid (cid_of chip);
  let cid_ok := String.eqb computed_cid (s_cid u) in
  if negb cid_ok then Err (CidMismatch (s_cid u) computed_cid)
  else
    match verifying_key_from_did (s_did u) with
    | Err e => Err (DidKeyInvalid e)
    | Ok vk =>
        let sig_ok := verify_signature_by_env env (self_signing_payload u) vk (s_sig u) None None in
        if negb sig_ok then Err InvalidSignature
        else Ok (mkVerification cid_ok sig_ok true true ("VERIFIED: self-contained CID=" +:+ s_cid u))
    end.

Definition url_error_display (e : UrlError) : string :=
  match e with
  | InvalidFormat w => "Invalid URL format: " +:+ w
  | MissingParam p => "Missing URL parameter: " +:+ p
  | Encoding s => "Encoding error: " +:+ step_text s
  | TooLarge size limit => "URL too large: " +:+ u_to_string size +:+ " bytes (limit " +:+ u_to_string limit +:+ " bytes)"
  end.
Definition verify_error_display (e : VerifyError) : string :=
  match e with
  | InvalidSignature => "invalid_signature"
  | RuntimeHashMismatch _ _ => "runtime_hash_mismatch"
  | CidMismatch _ _ => "cid_mismatch"
  | DidKeyInvalid k => "did_key_invalid: " +:+ kms_text k
  | DecodeUrl x => "decode_error: " +:+ url_error_display x
  | DecodeCid x => "decode_error: CID computation: " +:+ canon_text x
  end.

Definition shadow_failure (e : VerifyError) : VerificationResult :=
  mkVerification false false false false ("SHADOW_VERIFY_FAIL: " +:+ verify_error_display e).

Definition verify_hosted_by_mode (env : Environment) (u : HostedUrl) (receipt_body : json) : result VerifyError VerificationResult :=
  match verify_hosted env u receipt_body with
  | Ok r => Ok r
  | Err e => if bool_decide (mode_for_scope env (Some (app u)) (Some (tenant u)) = Shadow) then Ok (shadow_failure e) else Err e
  end.
Definition verify_self_contained_by_mode (env : Environment) (u : SelfContainedUrl) : result VerifyError VerificationResult :=
  match verify_self_contained env u with
  | Ok r => Ok r
  | Err e => if bool_decide (mode_from_env env = Shadow) then Ok (shadow_failure e) else Err e
  end.
End RichUrls.
