(* ===== verification/RichUrlFacts.v ===== *)
(** * Theorems on rich URLs

    Round trips of the URL forms, what the offline verification accepts, what a
    signature covers, and the public token of a receipt; witnesses on the
    instances of the receipt samples. *)

From S2P Require Import Prelude RustStd RustStr Json Nrf NrfFacts NrfExact Vm Policy Types Canon Receipt ReceiptFacts.
From S2P Require Import RichUrl.
Local Open Scope string_scope.
Local Open Scope Z_scope.
Local Open Scope list_scope.

(** ** Strings *)

Lemma starts_with_long p s1 s2 : (String.length p <= String.length s1)%nat -> starts_with p (s1 +:+ s2) = starts_with p s1.
Proof.
  revert s1; induction p as [|a p IH]; intros [|b s1] H; cbn in *; try done; [lia|].
  rewrite str_app_cons. cbn. destruct (Ascii.eqb a b); [|done]. apply IH. lia.
Qed.

Lemma str_contains_cons p a s : str_contains p (String a s) = starts_with p (String a s) || str_contains p s.
Proof. reflexivity. Qed.

(** The marker [x ++ [a]] is found where it stands when it does not start before. *)
Lemma split_once_str_at x a base r :
  str_contains (x +:+ String a "") (base +:+ x) = false ->
  split_once_str (x +:+ String a "") (base +:+ x +:+ String a r) = Some (base, r).
Proof.
  set (pat := x +:+ String a ""). assert (Hpat : forall t, x +:+ String a t = pat +:+ t).
  { intros t. unfold pat. by rewrite str_app_assoc. }
  assert (Hlen : String.length pat = S (String.length x)) by (unfold pat; rewrite str_length_app; cbn; lia).
  rewrite Hpat. induction base as [|b base IH]; intros H.
  - rewrite str_app_nil_l. destruct (pat +:+ r) as [|c t] eqn:E.
    + exfalso. apply (f_equal String.length) in E. rewrite str_length_app, Hlen in E. cbn in E. lia.
    + cbn [split_once_str]. by rewrite <- E, strip_prefix_app.
  - rewrite !str_app_cons in *. rewrite str_contains_cons in H. apply orb_false_iff in H as [Hs Hc].
    cbn [split_once_str]. rewrite IH by done.
    assert (Hst : starts_with pat (String b (base +:+ pat +:+ r)) = false).
    { rewrite <- Hs. assert (Hb : base +:+ pat +:+ r = (base +:+ x) +:+ String a r) by (by rewrite <- Hpat, str_app_assoc).
      rewrite Hb, <- str_app_cons. apply starts_with_long. rewrite Hlen. cbn. rewrite str_length_app. lia. }
    rewrite starts_with_strip in Hst. by destruct (strip_prefix pat _).
Qed.

Lemma rsplit_once_at c l r : contains_char c r = false -> rsplit_once c (l +:+ String c r) = Some (l, r).
Proof.
  intros Hr. assert (Hn : rsplit_once c r = None).
  { induction r as [|a r IH]; [done|]. cbn in *. apply orb_false_iff in Hr as [Ha Hr]. by rewrite IH, Ha. }
  induction l as [|a l IH].
  - rewrite str_app_nil_l. cbn. rewrite Hn. by rewrite Ascii.eqb_refl.
  - rewrite str_app_cons. cbn. by rewrite IH.
Qed.

Lemma rsplitn_three c h a t : contains_char c a = false -> contains_char c t = false ->
  rsplitn 3 c (h +:+ String c (a +:+ String c t)) = [t; a; h].
Proof.
  intros Ha Ht. cbn [rsplitn]. rewrite <- str_app_cons, <- str_app_assoc, rsplit_once_at by done.
  by rewrite rsplit_once_at.
Qed.

Lemma substring_length s : String.substring 0 (String.length s) s = s.
Proof. induction s as [|a s IH]; [done|]. cbn. by rewrite IH. Qed.

Lemma strip_suffix_app s suf : strip_suffix suf (s +:+ suf) = Some s.
Proof.
  unfold strip_suffix, ends_with. rewrite str_length_app.
  replace (String.length s + String.length suf - String.length suf)%nat with (String.length s) by lia.
  rewrite (proj2 (Nat.leb_le _ _)) by lia.
  assert (Hsuf : String.substring (String.length s) (String.length suf) (s +:+ suf) = suf).
  { induction s as [|a s IH]; [rewrite str_app_nil_l; apply substring_length|]. by rewrite str_app_cons. }
  rewrite Hsuf, String.eqb_refl. cbn. f_equal.
  induction s as [|a s IH]; [by destruct suf|]. rewrite str_app_cons. cbn. f_equal. apply IH.
  by rewrite str_app_cons in Hsuf.
Qed.

(** *** Query parameters *)

Definition no_amp (s : string) : Prop := contains_char "&" s = false.

Lemma no_amp_pair k v : no_amp k -> no_amp v -> no_amp (k +:+ "=" +:+ v).
Proof. unfold no_amp. intros Hk Hv. by rewrite !contains_char_app, Hk, Hv. Qed.

Lemma insert_pair_at params k v : contains_char "=" k = false -> insert_pair params (k +:+ "=" +:+ v) = <[k := v]> params.
Proof. intros Hk. unfold insert_pair. rewrite str_app_cons, str_app_nil_l, split_once_app by done. done. Qed.

(** The fragment written for a list of pairs. *)
Fixpoint pairs_text (l : list (string * string)) : string :=
  match l with
  | [] => ""
  | [(k, v)] => k +:+ "=" +:+ v
  | (k, v) :: l' => k +:+ "=" +:+ v +:+ "&" +:+ pairs_text l'
  end.

Lemma parse_pairs l : l <> [] -> Forall (fun kv => no_amp kv.1 /\ contains_char "=" kv.1 = false /\ no_amp kv.2) l ->
  parse_query_params (pairs_text l) = foldl (fun m kv => <[kv.1 := kv.2]> m) ∅ l.
Proof.
  intros Hne Hl. unfold parse_query_params. generalize (∅ : gmap string string).
  induction Hl as [|[k v] l (Hk & He & Hv) Hl IH]; [done|]. intros m. cbn [fst snd] in *. destruct l as [|kv l].
  - cbn [pairs_text]. rewrite split_on_no by (by apply no_amp_pair). cbn [foldl]. by apply insert_pair_at.
  - replace (pairs_text ((k, v) :: kv :: l)) with ((k +:+ "=" +:+ v) +:+ String "&" (pairs_text (kv :: l)))
      by (cbn [pairs_text]; by rewrite !str_app_assoc, str_app_cons, str_app_nil_l).
    rewrite split_on_app by (by apply no_amp_pair). cbn [foldl]. rewrite insert_pair_at by done. by apply IH.
Qed.

(** ** Round trips *)

(** A hosted URL is parsed back to its parts exactly when they keep the marks
    that delimit them: no [#] in the path, no slash in scope names, no earlier
    [/receipts/] (a scope called [receipts] makes one), no [&] in the fragment. *)
Definition hosted_ok (u : HostedUrl) : Prop :=
  contains_char "#" (hosted_path u) = false /\
  contains_char "/" (app u) = false /\ contains_char "/" (tenant u) = false /\
  str_contains "/receipts/" ((host u +:+ "/" +:+ app u +:+ "/" +:+ tenant u) +:+ "/receipts") = false /\
  no_amp (h_cid u) /\ no_amp (h_did u) /\ no_amp (h_rt u) /\ no_amp (h_sig u).

Lemma four_params c d r s :
  let params := foldl (fun m kv => <[kv.1 := kv.2]> m) (∅ : gmap string string) [("cid", c); ("did", d); ("rt", r); ("sig", s)] in
  param "cid" params = Ok c /\ param "did" params = Ok d /\ param "rt" params = Ok r /\ param "sig" params = Ok s.
Proof. cbn. unfold param. split_and!; by simplify_map_eq. Qed.

(** A hosted URL whose parts keep the marks that delimit them apart - no [#] in
    the path, no slash in scope names, no [/receipts/] before the last one, no
    ampersand in the fragment - is parsed back to its parts. *)
Theorem hosted_url_roundtrip u : hosted_ok u -> hosted_parse (hosted_to_url_string u) = Ok u.
Proof.
  intros (Hh & Ha & Ht & Hr & Hc & Hd & Hrt & Hs). unfold hosted_parse, hosted_to_url_string.
  change ("#cid=" +:+ h_cid u +:+ "&did=" +:+ h_did u +:+ "&rt=" +:+ h_rt u +:+ "&sig=" +:+ h_sig u)
    with (String "#" (pairs_text [("cid", h_cid u); ("did", h_did u); ("rt", h_rt u); ("sig", h_sig u)])).
  rewrite split_once_app by done. cbn [ok_or mbind result_bind]. rewrite parse_pairs; [|done|by repeat constructor].
  rewrite (proj1 (four_params _ _ _ _)), (proj1 (proj2 (four_params _ _ _ _))), (proj1 (proj2 (proj2 (four_params _ _ _ _)))),
    (proj2 (proj2 (proj2 (four_params _ _ _ _)))).
  cbn [ok_or mbind result_bind].
  assert (Hp : hosted_path u = (host u +:+ "/" +:+ app u +:+ "/" +:+ tenant u) +:+ "/receipts" +:+ String "/" (receipt_id u +:+ ".json")).
  { unfold hosted_path. by rewrite !str_app_assoc. }
  rewrite Hp, (split_once_str_at "/receipts" "/") by exact Hr. cbn [ok_or mbind result_bind].
  rewrite strip_suffix_app. cbn [ok_or mbind result_bind].
  change ("/" +:+ app u +:+ "/" +:+ tenant u) with (String "/" (app u +:+ String "/" (tenant u))).
  rewrite rsplitn_three by done. by destruct u.
Qed.

Definition self_ok (u : SelfContainedUrl) : Prop :=
  contains_char "?" (data_b64 u) = false /\ no_amp (s_cid u) /\ no_amp (s_did u) /\ no_amp (s_sig u).

Lemma self_url_parses u : self_ok u -> self_parse (self_to_url_string u) = Ok u.
Proof.
  intros (Hb & Hc & Hd & Hs). unfold self_parse, self_to_url_string. rewrite strip_prefix_app. cbn [ok_or mbind result_bind].
  change ("?cid=" +:+ s_cid u +:+ "&did=" +:+ s_did u +:+ "&sig=" +:+ s_sig u)
    with (String "?" (pairs_text [("cid", s_cid u); ("did", s_did u); ("sig", s_sig u)])).
  rewrite split_once_app by done. cbn [ok_or mbind result_bind]. rewrite parse_pairs; [|done|by repeat constructor].
  cbn [foldl fst snd]. unfold param.
  simplify_map_eq.
  by destruct u.
Qed.

Section Verification.
Context {U : Unicode} {HB3 : Blake3} {ED : Ed25519} {EK : Ed25519Keys} {B64 : Base64} {B64D : Base64Decode}
  {B58 : Base58} {SJ : SerdeJson} {DF : Deflate} {ET : ErrorTexts}.

(** A chip fits a self-contained URL when the URL is within the limit; it then
    comes back from the URL's text. *)
Theorem self_contained_roundtrip `{!Base64Laws B64 B64D, !DeflateLaws DF} chip cid did sig u :
  from_slice (to_vec chip) = Some chip -> contains_char "?" (base64_url (deflate (to_vec chip))) = false ->
  no_amp cid -> no_amp did -> no_amp sig -> from_chip chip cid did sig = Ok u ->
  Z.of_nat (String.length (self_to_url_string u)) <= MAX_SELF_CONTAINED_URL_BYTES /\
  self_parse (self_to_url_string u) = Ok u /\ extract_chip u = Ok chip.
Proof.
  intros Hj Hq Hc Hd Hs H. unfold from_chip in H. destruct (MAX_SELF_CONTAINED_URL_BYTES <? _) eqn:E; [done|].
  apply Z.ltb_ge in E. injection H as <-. split; [done|]. split; [by apply self_url_parses|].
  unfold extract_chip. cbn [data_b64]. rewrite base64_roundtrip. cbn [ok_or mbind result_bind].
  by rewrite inflate_deflate; cbn [ok_or mbind result_bind]; rewrite Hj.
Qed.

(** ** What verification accepts *)

Definition signed_by_env (env : Environment) (msg vk : bytes) (s : string) (app tenant : option string) : Prop :=
  verify_signature_by_env env msg vk s app tenant = true.

(** A hosted URL is verified against a fetched body exactly when it names the
    body's CID, its DID is a key, the signature covers the URL's payload under
    that key in the mode of the environment, and its runtime hash is the one in
    the body. *)
Lemma verify_hosted_exact_iff env u body r :
  verify_hosted env u body = Ok r <->
  cid_of body = Ok (h_cid u) /\ runtime_of body = h_rt u /\
  (exists vk, verifying_key_from_did (h_did u) = Ok vk /\
     signed_by_env env (hosted_signing_payload u) vk (h_sig u) (Some (app u)) (Some (tenant u))) /\
  r = mkVerification true true true true ("VERIFIED: CID=" +:+ h_cid u +:+ ", DID=" +:+ h_did u).
Proof.
  unfold verify_hosted, signed_by_env. split.
  - destruct (cid_of body) as [c|] eqn:Hc; cbn; [|discriminate].
    rewrite (cid_nonempty _ _ Hc). cbn. destruct (String.eqb_spec c (h_cid u)) as [->|]; cbn; [|discriminate].
    destruct (verifying_key_from_did (h_did u)) as [vk|]; [|discriminate].
    destruct (verify_signature_by_env _ _ _ _ _ _) eqn:Hs; cbn; [|discriminate].
    destruct (String.eqb_spec (runtime_of body) (h_rt u)); cbn; [|discriminate].
    intros [= <-]. split_and!; try done. by exists vk.
  - intros (Hc & Hrt & (vk & Hvk & Hs) & ->). rewrite Hc, (cid_nonempty _ _ Hc), String.eqb_refl, Hvk, Hs, Hrt, String.eqb_refl.
    done.
Qed.

(** The v1 signature of a payload in the mode without enforcement, the
    hash-first signature in the other mode. *)
Definition sign_for (mode : CryptoMode) (msg sk : bytes) : string :=
  match mode with CompatV1 => sign_raw_v1 msg URL_SIGN_DOMAIN sk | HashFirstV2 => sign_raw_v2_hash_first msg URL_SIGN_DOMAIN sk end.
Definition enforced (env : Environment) (app tenant : option string) : bool :=
  env_bool env "UBL_CRYPTO_V2_ENFORCE" || scope_match_env env "UBL_CRYPTO_V2_ENFORCE_SCOPES" app tenant.

Lemma signature_for_mode `{!Ed25519Laws ED EK, !Base64Laws B64 B64D} env msg sk mode app tenant :
  mode = HashFirstV2 \/ enforced env app tenant = false ->
  verify_signature_with_mode env msg (sk_verifying_key sk) (sign_for mode msg sk) mode app tenant = true.
Proof.
  unfold verify_signature_with_mode, verify_raw_v1, verify_raw_v2_hash_first, enforced. destruct mode; cbn [sign_for].
  - unfold sign_raw_v1. rewrite canon_signature. cbn [ok_true]. intros [?|He]; [done|]. by rewrite He.
  - unfold sign_raw_v2_hash_first. by rewrite canon_signature.
Qed.

(** What the URL's own key signs in the mode of the environment is accepted, as
    long as nothing enforces the second signature. *)
Theorem signed_hosted_verifies `{!Ed25519Laws ED EK, !Base64Laws B64 B64D, !Base58Laws B58} env u body sk strict :
  cid_of body = Ok (h_cid u) -> runtime_of body = h_rt u ->
  h_did u = did_from_verifying_key strict (sk_verifying_key sk) ->
  h_sig u = sign_for (crypto_mode_from_env env) (hosted_signing_payload u) sk ->
  crypto_mode_from_env env = HashFirstV2 \/ enforced env (Some (app u)) (Some (tenant u)) = false ->
  exists r, verify_hosted env u body = Ok r /\ verified r = true.
Proof.
  intros Hc Hrt Hd Hs He. eexists. split; [|].
  - apply verify_hosted_exact_iff. split; [done|]. split; [done|]. split; [|reflexivity].
    exists (sk_verifying_key sk). rewrite Hd, did_roundtrip. split; [done|].
    unfold signed_by_env, verify_signature_by_env. rewrite Hs. by apply signature_for_mode.
  - done.
Qed.

(** With the default mode and enforcement on, a signature has to verify over the
    payload and over its digest: no signature that a key makes does, if it
    verifies for nothing but what was signed. *)
Theorem enforced_default_rejects `{!Base64Laws B64 B64D} env msg sk m app tenant :
  (forall a b, ed25519_verify (sk_verifying_key sk) (sk_sign sk a) b = true -> a = b) ->
  crypto_mode_from_env env = CompatV1 -> enforced env app tenant = true ->
  blake3 (as_bytes URL_SIGN_DOMAIN ++ msg) <> as_bytes URL_SIGN_DOMAIN ++ msg ->
  verify_signature_by_env env msg (sk_verifying_key sk) ("ed25519:" +:+ base64_url (sk_sign sk m)) app tenant = false.
Proof.
  intros Hbind Hm He Hne. unfold verify_signature_by_env, verify_signature_with_mode. rewrite Hm. unfold enforced in He. rewrite He.
  assert (Hv : forall x, ok_true (verify_signature (sk_verifying_key sk) x ("ed25519:" +:+ base64_url (sk_sign sk m))) = true -> m = x).
  { intros x. unfold verify_signature. rewrite strip_prefix_app. cbn [ok_or mbind result_bind].
    rewrite base64_roundtrip. cbn [ok_or mbind result_bind]. destruct (_ =? 64)%nat; [apply Hbind|done]. }
  unfold verify_raw_v1, verify_raw_v2_hash_first.
  apply not_true_iff_false. intros [E1 E2]%andb_true_iff. apply Hv in E1, E2. congruence.
Qed.

(** *** A payload that cannot be encoded is signed as the empty one *)

Lemma unencodable_payload m k s : (k, JString s) ∈ m -> unencodable s = true -> payload_bytes (JObject m) = [].
Proof.
  intros Hin Hs. unfold payload_bytes. destruct (to_nrf_bytes (JObject m)) as [b|] eqn:E; [|done]. exfalso.
  apply to_nrf_bytes_ok in E. destruct (object_members m b k (JString s) E Hin eq_refl) as [n Hn].
  apply unencodable_string in Hn. congruence.
Qed.

Lemma unencodable_hosted u : unencodable (hosted_path u) = true -> hosted_signing_payload u = [].
Proof. intros H. apply (unencodable_payload _ "path" (hosted_path u)); [|done]. right. by left. Qed.

(** A URL whose path is not plain text (a control or byte-order character, text
    that is not normalised) is signed with an empty payload: its signature serves
    every other such URL of the same scope and key, for any body. *)
Theorem unplain_signature_transfers env u1 u2 body1 body2 r1 :
  unencodable (hosted_path u1) = true -> unencodable (hosted_path u2) = true ->
  h_did u2 = h_did u1 -> h_sig u2 = h_sig u1 -> app u2 = app u1 -> tenant u2 = tenant u1 ->
  verify_hosted env u1 body1 = Ok r1 ->
  cid_of body2 = Ok (h_cid u2) -> runtime_of body2 = h_rt u2 ->
  exists r2, verify_hosted env u2 body2 = Ok r2 /\ verified r2 = true.
Proof.
  intros H1 H2 Hd Hs Ha Ht (_ & _ & Hsig & _)%verify_hosted_exact_iff Hc Hrt. eexists. split; [|].
  - apply verify_hosted_exact_iff. split; [done|]. split; [done|]. split; [|reflexivity].
    rewrite (unencodable_hosted u1 H1) in Hsig. by rewrite (unencodable_hosted u2 H2), Hd, Hs, Ha, Ht.
  - done.
Qed.

(** *** The CID of a pipeline receipt *)

Lemma cid_binds v1 v2 c :
  json_wf v1 -> json_fits v1 -> json_wf v2 -> json_fits v2 ->
  (forall b1 b2, to_nrf1_bytes v1 = Ok b1 -> to_nrf1_bytes v2 = Ok b2 -> blake3 b1 = blake3 b2 -> b1 = b2) ->
  cid_of v1 = Ok c -> cid_of v2 = Ok c -> json_equiv v1 v2.
Proof.
  intros W1 F1 W2 F2 Hcf. unfold cid_of.
  intros (b1 & B1%to_nrf_bytes_ok & C1)%result_bind_ok (b2 & B2%to_nrf_bytes_ok & C2)%result_bind_ok.
  rewrite <- C2 in C1. injection C1 as C1%str_app_inj_l%hex_encode_inj.
  pose proof (Hcf _ _ B1 B2 C1) as <-. unfold to_nrf1_bytes in B1, B2.
  apply result_bind_ok in B1 as (n1 & E1 & [= <-]), B2 as (n2 & E2 & [= Hn]).
  apply (conv_equiv _ _ n1); try done. rewrite E2. f_equal.
  pose proof (decode_encode_wf n1 (conv_wf _ _ W1 F1 E1)) as D1.
  pose proof (decode_encode_wf n2 (conv_wf _ _ W2 F2 E2)) as D2.
  unfold encode_to_vec in D1, D2. rewrite Hn in D2. congruence.
Qed.

(** A hosted URL that names a receipt's own CID is refused for the receipt's
    JSON, unless BLAKE3 collides: a receipt's CID is computed with the CID,
    the identifier and the signature left out, the URL's over the whole body. *)
Theorem hosted_receipt_refused {KB3 : Blake3Keyed} env u r k p :
  chain_valid k p r -> stages r <> [] -> h_cid u = cid_as_str (Receipt.receipt_cid r) ->
  json_wf (receipt_to_json r) -> json_fits (receipt_to_json r) ->
  json_wf (receipt_to_json (cleared r)) -> json_fits (receipt_to_json (cleared r)) ->
  (forall b1 b2, to_nrf1_bytes (receipt_to_json r) = Ok b1 ->
     to_nrf1_bytes (receipt_to_json (cleared r)) = Ok b2 -> blake3 b1 = blake3 b2 -> b1 = b2) ->
  exists got, verify_hosted env u (receipt_to_json r) = Err (CidMismatch (h_cid u) got).
Proof.
  intros [_ Hcid] Hst Hu W1 F1 W2 F2 Hcf. unfold verify_hosted.
  assert (Hp : prefix_cid r (stages r) = cid_of (receipt_to_json (cleared r))).
  { unfold prefix_cid. destruct (stages r) eqn:E; [done|]. rewrite <- E. by destruct r. }
  rewrite Hp in Hcid. destruct (cid_of (receipt_to_json r)) as [c|] eqn:Hc; [|by eexists].
  destruct (String.eqb_spec c (h_cid u)) as [->|]; [|rewrite andb_false_r; by eexists]. exfalso.
  rewrite Hu in Hc. pose proof (cid_binds _ _ _ W1 F1 W2 F2 Hcf Hc Hcid) as He.
  bind_field "receipt_cid" H1. apply bound_string in H1. pose proof (cid_nonempty _ _ Hcid) as Hn.
  rewrite H1 in Hn. discriminate Hn.
Qed.

(** ** Modes *)

(** In shadow mode verification never fails and says so in its result; in strict
    mode it is the verification itself. *)
Theorem modes_exact env u body :
  (mode_for_scope env (Some (app u)) (Some (tenant u)) = Shadow ->
     exists r, verify_hosted_by_mode env u body = Ok r /\ (verified r = true <-> is_ok (verify_hosted env u body) = true)) /\
  (mode_for_scope env (Some (app u)) (Some (tenant u)) = Strict -> verify_hosted_by_mode env u body = verify_hosted env u body).
Proof.
  unfold verify_hosted_by_mode. split; intros Hm.
  - destruct (verify_hosted env u body) as [r|e] eqn:E.
    + exists r. split; [done|]. apply verify_hosted_exact_iff in E as (_ & _ & _ & ->). done.
    + rewrite bool_decide_true by done. eexists. split; [done|]. done.
  - destruct (verify_hosted env u body); [done|]. by rewrite bool_decide_false by (by rewrite Hm).
Qed.

(** ** The public token *)

Lemma get_receipt k r : get k (receipt_to_json r) = map_get k (match receipt_to_json r with JObject m => m | _ => [] end).
Proof. reflexivity. Qed.

Lemma find_wa_stages l : find_wa (json_stage <$> l) = input_cid <$> List.find (fun s => bool_decide (stage s = WriteAhead)) l.
Proof.
  induction l as [|s l IH]; [done|]. cbn [fmap list_fmap find_wa List.find].
  assert (Hs : is_wa_stage (json_stage s) = bool_decide (stage s = WriteAhead)).
  { unfold is_wa_stage, json_stage. cbn. by destruct (stage s). }
  rewrite Hs. destruct (bool_decide _); [|exact IH]. reflexivity.
Qed.

(** The token of a receipt with a stage: its CID, the input of its write-ahead
    stage (of its first stage when there is none), the key identifier, the
    signature with its algorithm, and what the caller adds. *)
Theorem receipt_token_exact r s l genesis commit binary :
  stages r = s :: l ->
  build_public_receipt_token_v1 (receipt_to_json r) genesis commit binary =
  Ok (mkToken 1 (cid_as_str (Receipt.receipt_cid r))
        (default (input_cid s) (input_cid <$> List.find (fun s => bool_decide (stage s = WriteAhead)) (s :: l)))
        (default "" genesis) (kid_as_str (kid r))
        (match split_once ":" (sig r) with Some (a, _) => a | None => "unknown" end) (sig r)
        (Some (did_as_str (did r))) (trimmed commit) (or_else (trimmed binary) (binary_hash <$> rt r))).
Proof.
  intros Hst. unfold build_public_receipt_token_v1.
  assert (Hget : forall k, get k (receipt_to_json r) = map_get k (match receipt_to_json r with JObject m => m | _ => [] end)) by done.
  rewrite !Hget. unfold receipt_to_json. rewrite !map_get_app, !map_get_member_opt. cbn [map_get String.eqb Ascii.eqb Bool.eqb].
  cbn [or_else mbind option_bind as_str as_array ok_or result_bind].
  rewrite find_wa_stages, Hst. cbn [head fmap list_fmap option_bind].
  destruct (input_cid <$> _) as [c|] eqn:Hw; cbn [or_else default ok_or mbind result_bind];
    (destruct (rt r) as [i|]; cbn [fmap option_fmap option_map option_bind]; [|by destruct (trimmed binary)]);
    (destruct (trimmed binary); reflexivity).
Qed.

Lemma canonical_token t : forall k, get k (canonicalize_json (token_to_json t)) = get k (token_to_json t).
Proof.
  intros k. destruct t as [v r c g kk alg sg [d|] [rc|] [bh|]];
  match goal with |- context [canonicalize_json ?x] =>
    let y := eval vm_compute in (canonicalize_json x) in change (canonicalize_json x) with y end;
  unfold token_to_json; cbn [member_opt List.app get map_get tk_v tk_r tk_c tk_g tk_k tk_alg tk_sig tk_did tk_rc tk_bh];
  repeat match goal with |- context [String.eqb k ?x] => destruct (String.eqb_spec k x) as [->|]; [reflexivity|] end;
  reflexivity.
Qed.

(** A public link needs an http origin; its fragment names the model and carries
    the token, which decodes to the members of the payload. *)
Theorem link_carries_token `{!Base64Laws B64 B64D} o p t l :
  build_public_receipt_link_v1 o p t = Ok l ->
  from_slice (as_bytes (value_to_string (canonicalize_json (token_to_json t)))) = Some (canonicalize_json (token_to_json t)) ->
  (starts_with "http://" (origin l) || starts_with "https://" (origin l) = true) /\ starts_with "/" (path l) = true /\
  url l = origin l +:+ path l +:+ "#ubl:v1:" +:+ token l /\
  exists v, base64_decode (token l) ≫= from_slice = Some v /\ forall k, get k v = get k (token_to_json t).
Proof.
  unfold build_public_receipt_link_v1. intros H Hj. destruct (starts_with "http://" _ || _) eqn:Ho; cbn [negb] in H; [|discriminate].
  injection H as <-. cbn [origin path url token]. split; [exact Ho|]. split; [|split; [reflexivity|]].
  - unfold normal_path. destruct (is_empty _); [reflexivity|]. by destruct (starts_with "/" (str_trim p)) eqn:E.
  - exists (canonicalize_json (token_to_json t)). rewrite base64_roundtrip. cbn [mbind option_bind]. split; [exact Hj|apply canonical_token].
Qed.
End Verification.

(** * Rich URLs: witnesses *)

#[local] Existing Instance ascii_unicode.
#[local] Existing Instance ReceiptSample.id_blake3.
#[local] Existing Instance ReceiptSample.rev_keyed.
#[local] Existing Instance ReceiptSample.no_hex.
#[local] Existing Instance ReceiptSample.toy_ed.
#[local] Existing Instance ReceiptSample.toy_keys.
#[local] Existing Instance ReceiptSample.toy_ed_laws.
#[local] Existing Instance CanonSample.raw64.
#[local] Existing Instance CanonSample.raw64d.
#[local] Existing Instance CanonSample.raw64_laws.
#[local] Existing Instance CanonSample.raw58.
#[local] Existing Instance CanonSample.raw58_laws.

Definition env0 : Environment := fun _ => Err NotPresent.
Definition body_of (decision : string) : json :=
  JObject [("@type", JString "ubl/receipt"); ("decision", JString decision); ("rt", JObject [("binary_hash", JString "b3:rt")])].
Definition cid_text (v : json) : string := match cid_of v with Ok c => c | Err _ => "" end.

Definition unsigned (id : string) (body : json) : HostedUrl :=
  mkHosted "https://ubl.example.com" "acme" "prod" id (cid_text body) ReceiptSample.did0 "b3:rt" "".
Definition signed (id : string) (body : json) : HostedUrl :=
  let u := unsigned id body in
  mkHosted (host u) (app u) (tenant u) (receipt_id u) (h_cid u) (h_did u) (h_rt u)
    (sign_raw_v1 (hosted_signing_payload u) URL_SIGN_DOMAIN []).

Definition plain_url : HostedUrl := signed "receipt-001" (body_of "allow").

Lemma hosted_url_roundtrip_witness : hosted_parse (hosted_to_url_string plain_url) = Ok plain_url.
Proof. apply (hosted_url_roundtrip plain_url). split_and!; vm_compute; reflexivity. Defined.

(** A tenant called [receipts] is taken for the path marker: the parts shift. *)
Example receipts_tenant_misparsed :
  hosted_parse (hosted_to_url_string (mkHosted "https://h" "acme" "receipts" "r1" "b3:c" "did:key:z" "b3:rt" "s"))
    = Ok (mkHosted "https:/" "h" "acme" "receipts/r1" "b3:c" "did:key:z" "b3:rt" "s").
Proof. vm_compute. reflexivity. Qed.

Lemma signed_hosted_verifies_witness : exists r, verify_hosted env0 plain_url (body_of "allow") = Ok r /\ verified r = true.
Proof. apply (signed_hosted_verifies env0 plain_url (body_of "allow") [] false); try (vm_compute; reflexivity). by right. Defined.

(** A line break in the identifier: the payload cannot be encoded. *)
Definition broken_id : string := String "010" "r1".
Definition denied_url : HostedUrl := signed broken_id (body_of "deny").
Definition forged_url : HostedUrl :=
  mkHosted "https://ubl.example.com" "acme" "prod" broken_id (cid_text (body_of "allow")) ReceiptSample.did0 "b3:rt" (h_sig denied_url).

Lemma unplain_signature_transfers_witness : exists r, verify_hosted env0 forged_url (body_of "allow") = Ok r /\ verified r = true.
Proof.
  apply (unplain_signature_transfers env0 denied_url forged_url (body_of "deny") (body_of "allow")
    (mkVerification true true true true ("VERIFIED: CID=" +:+ h_cid denied_url +:+ ", DID=" +:+ h_did denied_url)));
    vm_compute; reflexivity.
Defined.

Definition receipt_url : HostedUrl :=
  mkHosted "https://ubl.example.com" "acme" "prod" "r1" (cid_as_str (Receipt.receipt_cid ReceiptSample.r1)) ReceiptSample.did0 "" "".

Lemma hosted_receipt_refused_witness :
  exists got, verify_hosted env0 receipt_url (receipt_to_json ReceiptSample.r1) = Err (CidMismatch (h_cid receipt_url) got).
Proof.
  apply (hosted_receipt_refused env0 receipt_url ReceiptSample.r1 ReceiptSample.key0 None);
    [exact ReceiptSample.r1_valid|vm_compute; discriminate|reflexivity
    |apply json_wfb_sound|apply json_fitsb_sound|apply json_wfb_sound|apply json_fitsb_sound|intros b1 b2 _ _ H; exact H].
  all: vm_compute; reflexivity.
Defined.

Lemma receipt_token_exact_witness :
  build_public_receipt_token_v1 (receipt_to_json ReceiptSample.r1) (Some "g") (Some " c1 ") (Some "  ") =
  Ok (mkToken 1 (cid_as_str (Receipt.receipt_cid ReceiptSample.r1)) "b3:01" "g" (kid_as_str (kid ReceiptSample.r1)) "unknown" ""
        (Some ReceiptSample.did0) (Some "c1") None).
Proof.
  destruct (stages ReceiptSample.r1) as [|s l] eqn:E; [vm_compute in E; discriminate|].
  rewrite (receipt_token_exact ReceiptSample.r1 s l (Some "g") (Some " c1 ") (Some "  ") E). vm_compute in E. injection E as <- <-.
  vm_compute. reflexivity.
Defined.

(** ** Enforcement, self-contained URLs and links *)

(** Signatures that are the message, and a digest that is never it. *)
Definition env_enforce : Environment := fun k => if String.eqb k "UBL_CRYPTO_V2_ENFORCE" then Ok "TRUE" else Err NotPresent.
#[local] Instance echo_ed : Ed25519 := {| ed25519_verify _ sig m := bool_decide (sig = m) |}.
#[local] Instance echo_keys : Ed25519Keys := {| sk_sign _ m := m; sk_verifying_key _ := []; vk_is_point _ := true |}.
#[local] Instance longer_blake3 : Blake3 := {| blake3 b := x00 :: b |}.

Lemma enforced_default_rejects_witness :
  verify_signature_by_env env_enforce [x01] (sk_verifying_key []) ("ed25519:" +:+ base64_url (sk_sign [] [x01])) None None = false.
Proof.
  apply (enforced_default_rejects env_enforce [x01] [] [x01] None None); try (vm_compute; reflexivity).
  - intros a b H. cbn in H. by apply bool_decide_eq_true in H.
  - vm_compute. discriminate.
Defined.

Definition chip0 : json := JObject [("@type", JString "ubl/user"); ("@id", JString "u1")].
#[local] Instance one_document : SerdeJson := {|
  from_slice b := if bool_decide (b = [x7b; x7d]) then Some chip0 else None; to_vec _ := [x7b; x7d]; value_to_string _ := "{}" |}.
#[local] Instance stored : Deflate := {| deflate b := b; inflate b := Some b |}.
#[local] Instance stored_laws : DeflateLaws stored.
Proof. by split. Qed.

Lemma self_contained_roundtrip_witness : exists u, from_chip chip0 "b3:c" "did:key:z" "s" = Ok u /\
  Z.of_nat (String.length (self_to_url_string u)) <= 2048 /\ self_parse (self_to_url_string u) = Ok u /\ extract_chip u = Ok chip0.
Proof.
  eexists. split; [reflexivity|].
  apply (self_contained_roundtrip chip0 "b3:c" "did:key:z" "s"); reflexivity.
Defined.
