(* ===== verification/ErrorResponse.v ===== *)
(** * Error responses ([ubl_runtime/src/error_response.rs])

    Every pipeline error becomes a [ubl/error] document with a stable code; the
    code of an admission or adapter error is found in the text of its message.
    The texts of [KnockError] ([knock.rs]) and the codes with their HTTP status,
    category and MCP number are written out; the texts of the other crates'
    errors are an interface.  Messages are classified with the code they name,
    unless the text they quote names another. *)

From S2P Require Import Prelude RustStd RustStr Json Nrf BigNum Unc1 Knock Wasm PipelineTypes Adapter.
Local Open Scope string_scope.
Local Open Scope Z_scope.
Local Open Scope list_scope.

(** ** Texts *)

(** [Display] of the errors that other crates define. *)
Class ForeignTexts : Type := { foreign_text : cause -> string; unc_text : unc_error -> string }.

Section Texts.
Context {SD : StrDebug} {FT : ForeignTexts}.

Definition fault_text (f : num_fault) : string := match f with NumText s => s | NumUnc e => unc_text e end.

(** [Display] of [KnockError]: the number and its words, then the details. *)
Definition knock_display (e : KnockError) : string :=
  match e with
  | BodyTooLarge n => "KNOCK-001: body too large (" +:+ u_to_string n +:+ " bytes, max " +:+ u_to_string MAX_BODY_BYTES +:+ ")"
  | DepthExceeded => "KNOCK-002: nesting depth exceeds " +:+ u_to_string (Z.of_nat MAX_DEPTH)
  | ArrayTooLong n => "KNOCK-003: array length " +:+ u_to_string n +:+ " exceeds " +:+ u_to_string MAX_ARRAY_LEN
  | KnockDuplicateKey k => "KNOCK-004: duplicate key " +:+ str_debug k
  | InvalidUtf8 => "KNOCK-005: invalid UTF-8 in body"
  | MissingAnchor k => "KNOCK-006: missing required anchor " +:+ str_debug k
  | NotObject => "KNOCK-007: body is not a JSON object"
  | RawFloat s => "KNOCK-008: raw float in payload violates UNC-1 — use @num atoms: " +:+ s
  | MalformedNum f => "KNOCK-009: malformed @num atom: " +:+ fault_text f
  | NumericLiteralNotAllowed p => "KNOCK-010: numeric literals are disabled (set as @num atoms) at " +:+ p
  | InputNormalization s => "KNOCK-011: input normalization failed: " +:+ s
  | SchemaValidation s => "KNOCK-012: schema validation failed: " +:+ s
  | KnockPanic => ""
  end.

Fixpoint cause_text (c : cause) : string :=
  match c with
  | Text s => s
  | Within p c' => p +:+ cause_text c'
  | OfKnock e => knock_display e
  | _ => foreign_text c
  end.
End Texts.

(** ** Codes *)

Inductive ErrorCode : Type :=
| ECKnockBodyTooLarge | ECKnockDepthExceeded | ECKnockArrayTooLong | ECKnockDuplicateKey | ECKnockInvalidUtf8
| ECKnockMissingAnchor | ECKnockNotObject | ECKnockRawFloat | ECKnockMalformedNum | ECKnockNumericLiteralNotAllowed
| ECKnockInputNormalization | ECKnockSchemaValidation
| ECPolicyDenied | ECInvalidChip | ECDependencyMissing
| ECWasmAbiMissingVersion | ECWasmAbiUnsupportedVersion | ECWasmAbiInvalidPayload | ECWasmVerifyHashMismatch
| ECWasmVerifySignatureInvalid | ECWasmVerifyTrustAnchorMismatch | ECWasmCapabilityDenied | ECWasmCapabilityDeniedNetwork
| ECWasmDeterminismViolation | ECWasmResourceFuelExhausted | ECWasmResourceMemoryLimit | ECWasmResourceTimeout
| ECWasmReceiptBindingMissingClaim
| ECFuelExhausted | ECTypeMismatch | ECStackUnderflow | ECCasNotFound
| ECReplayDetected | ECCanonError | ECSignError | ECStorageError | ECInvalidSignature | ECRuntimeHashMismatch
| ECIdempotencyConflict | ECDurableCommitFailed | ECTamperDetected | ECInternalError
| ECUnauthorized | ECNotFound | ECTooManyRequests | ECUnavailable.
#[export] Instance ErrorCode_eq_dec : EqDecision ErrorCode.
Proof. solve_decision. Defined.

(** The [serde] names. *)
Definition code_text (c : ErrorCode) : string :=
  match c with
  | ECKnockBodyTooLarge => "KNOCK_BODY_TOO_LARGE"
  | ECKnockDepthExceeded => "KNOCK_DEPTH_EXCEEDED"
  | ECKnockArrayTooLong => "KNOCK_ARRAY_TOO_LONG"
  | ECKnockDuplicateKey => "KNOCK_DUPLICATE_KEY"
  | ECKnockInvalidUtf8 => "KNOCK_INVALID_UTF8"
  | ECKnockMissingAnchor => "KNOCK_MISSING_ANCHOR"
  | ECKnockNotObject => "KNOCK_NOT_OBJECT"
  | ECKnockRawFloat => "KNOCK_RAW_FLOAT"
  | ECKnockMalformedNum => "KNOCK_MALFORMED_NUM"
  | ECKnockNumericLiteralNotAllowed => "KNOCK_NUMERIC_LITERAL_NOT_ALLOWED"
  | ECKnockInputNormalization => "KNOCK_INPUT_NORMALIZATION"
  | ECKnockSchemaValidation => "KNOCK_SCHEMA_VALIDATION"
  | ECPolicyDenied => "POLICY_DENIED"
  | ECInvalidChip => "INVALID_CHIP"
  | ECDependencyMissing => "DEPENDENCY_MISSING"
  | ECWasmAbiMissingVersion => "WASM_ABI_MISSING_VERSION"
  | ECWasmAbiUnsupportedVersion => "WASM_ABI_UNSUPPORTED_VERSION"
  | ECWasmAbiInvalidPayload => "WASM_ABI_INVALID_PAYLOAD"
  | ECWasmVerifyHashMismatch => "WASM_VERIFY_HASH_MISMATCH"
  | ECWasmVerifySignatureInvalid => "WASM_VERIFY_SIGNATURE_INVALID"
  | ECWasmVerifyTrustAnchorMismatch => "WASM_VERIFY_TRUST_ANCHOR_MISMATCH"
  | ECWasmCapabilityDenied => "WASM_CAPABILITY_DENIED"
  | ECWasmCapabilityDeniedNetwork => "WASM_CAPABILITY_DENIED_NETWORK"
  | ECWasmDeterminismViolation => "WASM_DETERMINISM_VIOLATION"
  | ECWasmResourceFuelExhausted => "WASM_RESOURCE_FUEL_EXHAUSTED"
  | ECWasmResourceMemoryLimit => "WASM_RESOURCE_MEMORY_LIMIT"
  | ECWasmResourceTimeout => "WASM_RESOURCE_TIMEOUT"
  | ECWasmReceiptBindingMissingClaim => "WASM_RECEIPT_BINDING_MISSING_CLAIM"
  | ECFuelExhausted => "FUEL_EXHAUSTED"
  | ECTypeMismatch => "TYPE_MISMATCH"
  | ECStackUnderflow => "STACK_UNDERFLOW"
  | ECCasNotFound => "CAS_NOT_FOUND"
  | ECReplayDetected => "REPLAY_DETECTED"
  | ECCanonError => "CANON_ERROR"
  | ECSignError => "SIGN_ERROR"
  | ECStorageError => "STORAGE_ERROR"
  | ECInvalidSignature => "invalid_signature"
  | ECRuntimeHashMismatch => "runtime_hash_mismatch"
  | ECIdempotencyConflict => "idempotency_conflict"
  | ECDurableCommitFailed => "durable_commit_failed"
  | ECTamperDetected => "TAMPER_DETECTED"
  | ECInternalError => "INTERNAL_ERROR"
  | ECUnauthorized => "UNAUTHORIZED"
  | ECNotFound => "NOT_FOUND"
  | ECTooManyRequests => "TOO_MANY_REQUESTS"
  | ECUnavailable => "UNAVAILABLE"
  end.

Definition http_status (c : ErrorCode) : Z :=
  match c with
  | ECKnockBodyTooLarge | ECKnockDepthExceeded | ECKnockArrayTooLong | ECKnockDuplicateKey | ECKnockInvalidUtf8
  | ECKnockMissingAnchor | ECKnockNotObject | ECKnockRawFloat | ECKnockMalformedNum | ECKnockNumericLiteralNotAllowed
  | ECKnockInputNormalization | ECKnockSchemaValidation => 400
  | ECPolicyDenied | ECWasmCapabilityDenied | ECWasmCapabilityDeniedNetwork => 403
  | ECDependencyMissing | ECReplayDetected | ECIdempotencyConflict => 409
  | ECInvalidChip | ECFuelExhausted | ECWasmAbiMissingVersion | ECWasmAbiUnsupportedVersion | ECWasmAbiInvalidPayload
  | ECWasmVerifyHashMismatch | ECWasmVerifySignatureInvalid | ECWasmVerifyTrustAnchorMismatch | ECWasmDeterminismViolation
  | ECWasmResourceFuelExhausted | ECWasmResourceMemoryLimit | ECWasmResourceTimeout | ECWasmReceiptBindingMissingClaim
  | ECTypeMismatch | ECStackUnderflow | ECCasNotFound | ECCanonError | ECSignError | ECTamperDetected => 422
  | ECStorageError | ECDurableCommitFailed | ECInternalError => 500
  | ECInvalidSignature | ECRuntimeHashMismatch => 400
  | ECUnauthorized => 401
  | ECNotFound => 404
  | ECTooManyRequests => 429
  | ECUnavailable => 503
  end.

Definition category (c : ErrorCode) : string :=
  match c with
  | ECKnockBodyTooLarge | ECKnockDepthExceeded | ECKnockArrayTooLong | ECKnockDuplicateKey | ECKnockInvalidUtf8
  | ECKnockMissingAnchor | ECKnockNotObject | ECKnockRawFloat | ECKnockMalformedNum | ECKnockNumericLiteralNotAllowed
  | ECKnockInputNormalization | ECKnockSchemaValidation | ECInvalidChip | ECCanonError | ECFuelExhausted
  | ECWasmAbiMissingVersion | ECWasmAbiUnsupportedVersion | ECWasmAbiInvalidPayload | ECWasmVerifyHashMismatch
  | ECWasmVerifySignatureInvalid | ECWasmVerifyTrustAnchorMismatch | ECWasmDeterminismViolation
  | ECWasmResourceFuelExhausted | ECWasmResourceMemoryLimit | ECWasmResourceTimeout | ECWasmReceiptBindingMissingClaim
  | ECTypeMismatch | ECStackUnderflow | ECCasNotFound | ECInvalidSignature | ECRuntimeHashMismatch => "BadInput"
  | ECUnauthorized | ECSignError => "Unauthorized"
  | ECPolicyDenied | ECWasmCapabilityDenied | ECWasmCapabilityDeniedNetwork => "Forbidden"
  | ECNotFound | ECDependencyMissing => "NotFound"
  | ECReplayDetected | ECIdempotencyConflict | ECTamperDetected => "Conflict"
  | ECTooManyRequests => "TooManyRequests"
  | ECStorageError | ECDurableCommitFailed | ECInternalError => "Internal"
  | ECUnavailable => "Unavailable"
  end.

Definition mcp_code (c : ErrorCode) : Z :=
  let k := category c in
  if String.eqb k "BadInput" then -32602 else if String.eqb k "Unauthorized" then -32001
  else if String.eqb k "Forbidden" then -32003 else if String.eqb k "NotFound" then -32004
  else if String.eqb k "Conflict" then -32005 else if String.eqb k "TooManyRequests" then -32006
  else if String.eqb k "Internal" then -32603 else if String.eqb k "Unavailable" then -32000 else -32603.

Definition produces_receipt (c : ErrorCode) : bool :=
  match c with
  | ECKnockBodyTooLarge | ECKnockDepthExceeded | ECKnockArrayTooLong | ECKnockDuplicateKey | ECKnockInvalidUtf8
  | ECKnockMissingAnchor | ECKnockNotObject | ECKnockRawFloat | ECKnockMalformedNum | ECKnockNumericLiteralNotAllowed
  | ECKnockInputNormalization | ECKnockSchemaValidation
  | ECUnauthorized | ECNotFound | ECTooManyRequests | ECTamperDetected | ECUnavailable => false
  | _ => true
  end.

Definition is_vm_error (c : ErrorCode) : bool :=
  match c with
  | ECFuelExhausted | ECWasmResourceFuelExhausted | ECWasmResourceMemoryLimit | ECWasmResourceTimeout
  | ECTypeMismatch | ECStackUnderflow | ECCasNotFound => true
  | _ => false
  end.

(** ** Classification *)

(** The first pattern of a table that the text contains. *)
Fixpoint first_match (table : list (string * ErrorCode)) (s : string) : option ErrorCode :=
  match table with
  | [] => None
  | (pat, c) :: table' => if str_contains pat s then Some c else first_match table' s
  end.

Definition knock_table : list (string * ErrorCode) := [
  ("KNOCK-001", ECKnockBodyTooLarge); ("KNOCK-002", ECKnockDepthExceeded); ("KNOCK-003", ECKnockArrayTooLong);
  ("KNOCK-004", ECKnockDuplicateKey); ("KNOCK-005", ECKnockInvalidUtf8); ("KNOCK-006", ECKnockMissingAnchor);
  ("KNOCK-007", ECKnockNotObject); ("KNOCK-008", ECKnockRawFloat); ("KNOCK-009", ECKnockMalformedNum);
  ("KNOCK-010", ECKnockNumericLiteralNotAllowed); ("KNOCK-011", ECKnockInputNormalization); ("KNOCK-012", ECKnockSchemaValidation)].
Definition classify_knock_error (msg : string) : ErrorCode := default ECKnockInvalidUtf8 (first_match knock_table msg).

(** [to_ascii_uppercase]. *)
Definition ascii_upper (a : ascii) : ascii :=
  let n := N_of_ascii a in if ((97 <=? n) && (n <=? 122))%N then ascii_of_N (n - 32) else a.
Fixpoint to_ascii_uppercase (s : string) : string :=
  match s with EmptyString => EmptyString | String a s' => String (ascii_upper a) (to_ascii_uppercase s') end.

Definition upper_table : list (string * ErrorCode) := [
  ("WASM_ABI_MISSING_VERSION", ECWasmAbiMissingVersion); ("WASM_ABI_UNSUPPORTED_VERSION", ECWasmAbiUnsupportedVersion);
  ("WASM_ABI_INVALID_PAYLOAD", ECWasmAbiInvalidPayload); ("WASM_VERIFY_HASH_MISMATCH", ECWasmVerifyHashMismatch);
  ("WASM_VERIFY_SIGNATURE_INVALID", ECWasmVerifySignatureInvalid);
  ("WASM_VERIFY_TRUST_ANCHOR_MISMATCH", ECWasmVerifyTrustAnchorMismatch);
  ("WASM_CAPABILITY_DENIED_NETWORK", ECWasmCapabilityDeniedNetwork); ("WASM_CAPABILITY_DENIED", ECWasmCapabilityDenied);
  ("WASM_DETERMINISM_VIOLATION", ECWasmDeterminismViolation); ("WASM_RESOURCE_FUEL_EXHAUSTED", ECWasmResourceFuelExhausted);
  ("WASM_RESOURCE_MEMORY_LIMIT", ECWasmResourceMemoryLimit); ("WASM_RESOURCE_TIMEOUT", ECWasmResourceTimeout);
  ("WASM_RECEIPT_BINDING_MISSING_CLAIM", ECWasmReceiptBindingMissingClaim)].

Definition lower_table : list (string * ErrorCode) := [
  ("adapter.abi_version missing", ECWasmAbiMissingVersion);
  ("adapter.abi_version unsupported", ECWasmAbiUnsupportedVersion); ("wasm abi mismatch", ECWasmAbiUnsupportedVersion);
  ("adapter.wasm_sha256 mismatch", ECWasmVerifyHashMismatch); ("signature invalid", ECWasmVerifySignatureInvalid);
  ("trust anchor mismatch", ECWasmVerifyTrustAnchorMismatch); ("wasi imports are not allowed", ECWasmCapabilityDeniedNetwork);
  ("unknown import", ECWasmCapabilityDenied); ("imported function", ECWasmCapabilityDenied);
  ("fuel exhausted", ECWasmResourceFuelExhausted);
  ("memory exceeded", ECWasmResourceMemoryLimit); ("memory limit", ECWasmResourceMemoryLimit);
  ("timeout", ECWasmResourceTimeout); ("missing required receipt claim", ECWasmReceiptBindingMissingClaim);
  ("invalid adapter module base64", ECWasmAbiInvalidPayload); ("invalid adapter module hex bytes", ECWasmAbiInvalidPayload);
  ("adapter module bytes cannot be empty", ECWasmAbiInvalidPayload); ("adapter requires one of", ECWasmAbiInvalidPayload);
  ("adapter.wasm_cid not found", ECWasmAbiInvalidPayload); ("missing bytes field", ECWasmAbiInvalidPayload);
  ("adapter must be object", ECWasmAbiInvalidPayload);
  ("adapter execution failed", ECWasmDeterminismViolation); ("module must export linear memory", ECWasmDeterminismViolation);
  ("invalid output", ECWasmDeterminismViolation)].

Definition classify_wasm_error (msg : string) : option ErrorCode :=
  match first_match upper_table (to_ascii_uppercase msg) with
  | Some c => Some c
  | None =>
      let lower := to_ascii_lowercase msg in
      if str_contains "wasm" lower || str_contains "adapter." lower then first_match lower_table lower else None
  end.

(** ** The response *)

Record UblError : Type := mkUblError {
  error_type : string; err_id : string; err_ver : string; err_world : string; code : ErrorCode; message : string;
  link : string; details : option json }.

Section Responses.
Context {SD : StrDebug} {FT : ForeignTexts}.

(** The code and the message; a panic is no error value. *)
Definition code_and_message (err : PipelineError) : option (ErrorCode * string) :=
  let wasm_or (c : ErrorCode) (m : string) := default c (classify_wasm_error m) in
  match err with
  | KnockRejected c => let m := cause_text c in Some (classify_knock_error m, m)
  | PolicyDenied c => let m := cause_text c in Some (wasm_or ECPolicyDenied m, m)
  | InvalidChip c => let m := cause_text c in Some (wasm_or ECInvalidChip m, m)
  | DependencyMissing c => Some (ECDependencyMissing, cause_text c)
  | FuelExhausted c => let m := cause_text c in Some (wasm_or ECFuelExhausted m, m)
  | TypeMismatch c => Some (ECTypeMismatch, cause_text c)
  | StackUnderflow c => Some (ECStackUnderflow, cause_text c)
  | CasNotFound c => Some (ECCasNotFound, cause_text c)
  | ReplayDetected c => Some (ECReplayDetected, cause_text c)
  | CanonError c => Some (ECCanonError, cause_text c)
  | SignError c => Some (ECSignError, cause_text c)
  | StorageError c => Some (ECStorageError, cause_text c)
  | IdempotencyConflict c => Some (ECIdempotencyConflict, cause_text c)
  | DurableCommitFailed c => Some (ECDurableCommitFailed, cause_text c)
  | Internal c => Some (ECInternalError, cause_text c)
  | PipelinePanic => None
  end.

(** [random]: the eight bytes of the identifier. *)
Definition from_pipeline_error (random : bytes) (err : PipelineError) : option UblError :=
  '(c, m) ← code_and_message err;
  Some (mkUblError "ubl/error" ("err-" +:+ hex_encode random) "1.0" "a/system/t/errors" c m
          ("https://docs.ubl.agency/errors#" +:+ code_text c) None).

Definition error_to_json (e : UblError) : json :=
  JObject ([("@type", JString (error_type e)); ("@id", JString (err_id e)); ("@ver", JString (err_ver e));
            ("@world", JString (err_world e)); ("code", JString (code_text (code e))); ("message", JString (message e));
            ("link", JString (link e))] ++ Receipt.member_opt "details" id (details e)).
End Responses.

(** * Theorems on error responses *)

(** ** Searching in texts *)

Lemma starts_with_prefix p q s : starts_with (p +:+ q) s = true -> starts_with p s = true.
Proof.
  revert s; induction p as [|a p IH]; intros s; [done|]. rewrite str_app_cons. destruct s as [|b s]; [done|]. cbn.
  destruct (Ascii.eqb a b); [apply IH|done].
Qed.

Lemma str_contains_prefix p q s : str_contains (p +:+ q) s = true -> str_contains p s = true.
Proof.
  induction s as [|a s IH]; cbn [str_contains]; rewrite !orb_true_iff; intros [H|H];
    first [done | left; by eapply starts_with_prefix | right; by apply IH].
Qed.

Lemma str_contains_absent a p s : contains_char a s = false -> str_contains (String a p) s = false.
Proof.
  induction s as [|b s IH]; [done|]. cbn. intros [Hb Hs]%orb_false_iff. rewrite IH by done.
  by rewrite Ascii.eqb_sym, Hb.
Qed.

Lemma str_contains_skip a p s t :
  contains_char a s = false -> str_contains (String a p) (s +:+ t) = str_contains (String a p) t.
Proof.
  induction s as [|b s IH]; [done|]. cbn [contains_char]. intros [Hb Hs]%orb_false_iff.
  rewrite str_app_cons. cbn [str_contains starts_with]. rewrite Ascii.eqb_sym, Hb. by apply IH.
Qed.

(** A character that the pattern does not have separates the places where it can be. *)
Lemma starts_with_break p s a t : contains_char a p = false -> starts_with p (s +:+ String a t) = starts_with p s.
Proof.
  revert s. induction p as [|b p IH]; intros s; [done|]. cbn [contains_char]. intros [Hb Hp]%orb_false_iff.
  destruct s as [|c s]; [rewrite str_app_nil_l|rewrite str_app_cons]; cbn [starts_with]; [by rewrite Hb|].
  by rewrite IH.
Qed.

Lemma str_contains_break b p s a t : contains_char a (String b p) = false ->
  str_contains (String b p) (s +:+ String a t) = str_contains (String b p) s || str_contains (String b p) t.
Proof.
  intros Hp. induction s as [|c s IH].
  - rewrite str_app_nil_l. cbn [str_contains starts_with]. revert Hp. cbn [contains_char].
    intros [Hb _]%orb_false_iff. by rewrite Hb.
  - pose proof (starts_with_break (String b p) (String c s) a t Hp) as Hs. rewrite str_app_cons in *.
    cbn [str_contains]. by rewrite Hs, IH, orb_assoc.
Qed.

Lemma digits_no_letter a n : is_ascii_digit a = false -> contains_char a (u_to_string n) = false.
Proof.
  intros Ha. unfold u_to_string. generalize (S (Z.to_nat (Z.log2 n))) as fuel. intros fuel.
  assert (Hd : forall d, 0 <= d < 10 -> Ascii.eqb (digit_char d) a = false).
  { intros d Hd. destruct (Ascii.eqb_spec (digit_char d) a) as [<-|]; [|done]. exfalso. revert Ha.
    assert (d = 0 \/ d = 1 \/ d = 2 \/ d = 3 \/ d = 4 \/ d = 5 \/ d = 6 \/ d = 7 \/ d = 8 \/ d = 9) as H by lia.
    by repeat (destruct H as [->|H]; [done|]); subst d. }
  assert (Hgo : forall f m acc, contains_char a acc = false -> contains_char a (dec_digits f m acc) = false).
  { induction f as [|f IH]; intros m acc Hacc; [done|]. cbn [dec_digits].
    assert (Hone : contains_char a (String (digit_char (m mod 10)) acc) = false).
    { cbn. rewrite Hd; [done|]. apply Z.mod_pos_bound. lia. }
    destruct (m <? 10); [done|]. by apply IH. }
  by apply Hgo.
Qed.

(** A text that a literal begins: the search goes on behind the literal. *)
Ltac scan := rewrite ?str_app_cons, ?str_app_nil_l; cbn [str_contains starts_with Ascii.eqb Bool.eqb orb andb].

(** ** Codes *)

Definition all_codes : list ErrorCode := [
  ECKnockBodyTooLarge; ECKnockDepthExceeded; ECKnockArrayTooLong; ECKnockDuplicateKey; ECKnockInvalidUtf8;
  ECKnockMissingAnchor; ECKnockNotObject; ECKnockRawFloat; ECKnockMalformedNum; ECKnockNumericLiteralNotAllowed;
  ECKnockInputNormalization; ECKnockSchemaValidation; ECPolicyDenied; ECInvalidChip; ECDependencyMissing;
  ECWasmAbiMissingVersion; ECWasmAbiUnsupportedVersion; ECWasmAbiInvalidPayload; ECWasmVerifyHashMismatch;
  ECWasmVerifySignatureInvalid; ECWasmVerifyTrustAnchorMismatch; ECWasmCapabilityDenied; ECWasmCapabilityDeniedNetwork;
  ECWasmDeterminismViolation; ECWasmResourceFuelExhausted; ECWasmResourceMemoryLimit; ECWasmResourceTimeout;
  ECWasmReceiptBindingMissingClaim; ECFuelExhausted; ECTypeMismatch; ECStackUnderflow; ECCasNotFound; ECReplayDetected;
  ECCanonError; ECSignError; ECStorageError; ECInvalidSignature; ECRuntimeHashMismatch; ECIdempotencyConflict;
  ECDurableCommitFailed; ECTamperDetected; ECInternalError; ECUnauthorized; ECNotFound; ECTooManyRequests; ECUnavailable].

Lemma all_codes_complete c : c ∈ all_codes.
Proof. apply (bool_decide_unpack _). by destruct c. Qed.

Lemma code_text_inj c1 c2 : code_text c1 = code_text c2 -> c1 = c2.
Proof.
  intros H. assert (Hnd : NoDup (code_text <$> all_codes)) by (apply (bool_decide_unpack _); vm_compute; exact I).
  pose proof (all_codes_complete c1) as (i & Hi)%list_elem_of_lookup. pose proof (all_codes_complete c2) as (j & Hj)%list_elem_of_lookup.
  assert (i = j).
  { apply (NoDup_lookup _ i j (code_text c1) Hnd); rewrite list_lookup_fmap; [by rewrite Hi|by rewrite Hj, H]. }
  subst j. congruence.
Qed.

(** The status agrees with the category except for three codes: a missing
    dependency is a [NotFound] with status 409, a signing failure an
    [Unauthorized] and a tampered receipt a [Conflict] with status 422. *)
Definition category_status (k : string) : list Z :=
  if String.eqb k "BadInput" then [400; 422] else if String.eqb k "Unauthorized" then [401]
  else if String.eqb k "Forbidden" then [403] else if String.eqb k "NotFound" then [404]
  else if String.eqb k "Conflict" then [409] else if String.eqb k "TooManyRequests" then [429]
  else if String.eqb k "Internal" then [500] else if String.eqb k "Unavailable" then [503] else [].

Lemma status_of_category c :
  http_status c ∈ category_status (category c) <-> c <> ECDependencyMissing /\ c <> ECSignError /\ c <> ECTamperDetected.
Proof.
  split.
  - intros H. repeat split; intros ->; by apply (bool_decide_pack _) in H.
  - intros (H1 & H2 & H3). apply (bool_decide_unpack _). destruct c; try done.
Qed.

Lemma all_pairs (f : ErrorCode -> ErrorCode -> bool) :
  forallb (fun c1 => forallb (f c1) all_codes) all_codes = true -> forall c1 c2, f c1 c2 = true.
Proof.
  rewrite forallb_forall. intros H c1 c2. pose proof (H c1 ltac:(apply list_elem_of_In, all_codes_complete)) as H1.
  rewrite forallb_forall in H1. apply H1, list_elem_of_In, all_codes_complete.
Qed.

Lemma mcp_code_of_category c1 c2 : category c1 = category c2 <-> mcp_code c1 = mcp_code c2.
Proof.
  pose proof (all_pairs (fun c1 c2 => Bool.eqb (String.eqb (category c1) (category c2)) (mcp_code c1 =? mcp_code c2))
    ltac:(vm_compute; reflexivity) c1 c2) as H. apply Bool.eqb_prop in H.
  destruct (String.eqb_spec (category c1) (category c2)), (Z.eqb_spec (mcp_code c1) (mcp_code c2)); done.
Qed.

(** ** Classification *)

Section Classified.
Context {SD : StrDebug} {FT : ForeignTexts}.

(** The code an admission error has by its number. *)
Definition knock_code (e : KnockError) : ErrorCode :=
  match e with
  | BodyTooLarge _ => ECKnockBodyTooLarge | DepthExceeded => ECKnockDepthExceeded | ArrayTooLong _ => ECKnockArrayTooLong
  | KnockDuplicateKey _ => ECKnockDuplicateKey | InvalidUtf8 => ECKnockInvalidUtf8 | MissingAnchor _ => ECKnockMissingAnchor
  | NotObject => ECKnockNotObject | RawFloat _ => ECKnockRawFloat | MalformedNum _ => ECKnockMalformedNum
  | NumericLiteralNotAllowed _ => ECKnockNumericLiteralNotAllowed | InputNormalization _ => ECKnockInputNormalization
  | SchemaValidation _ => ECKnockSchemaValidation | KnockPanic => ECKnockInvalidUtf8
  end.

(** The text of the input that an error's message quotes. *)
Definition quoted_text (e : KnockError) : string :=
  match e with
  | KnockDuplicateKey k | MissingAnchor k => str_debug k
  | RawFloat s | NumericLiteralNotAllowed s | InputNormalization s | SchemaValidation s => s
  | MalformedNum f => fault_text f
  | _ => ""
  end.

(** An admission error is answered with the code of its number, unless the text
    it quotes from the input contains a number itself. *)
Theorem knock_error_classified e :
  str_contains "KNOCK-" (quoted_text e) = false -> classify_knock_error (knock_display e) = knock_code e.
Proof.
  intros H.
  assert (Hno : forall q, str_contains (String "K" (String "N" (String "O" (String "C" (String "K" (String "-" q))))))
    (quoted_text e) = false).
  { intros q. apply not_true_iff_false. intros E. apply (str_contains_prefix "KNOCK-" q) in E. congruence. }
  assert (Hdig : forall p n t, contains_char "K" t = false -> str_contains (String "K" p) (u_to_string n +:+ t) = false).
  { intros p n t Ht. apply str_contains_absent. by rewrite contains_char_app, Ht, digits_no_letter. }
  unfold classify_knock_error, knock_table.
  destruct e; cbn [knock_display knock_code quoted_text first_match] in *; try reflexivity; scan; try reflexivity;
    try (rewrite Hdig by done; scan; rewrite ?Hdig by done; reflexivity).
  all: rewrite ?Hno; scan; try done.
Qed.

(** ** Adapter errors *)

Lemma to_ascii_uppercase_app s t : to_ascii_uppercase (s +:+ t) = to_ascii_uppercase s +:+ to_ascii_uppercase t.
Proof. induction s as [|a s IH]; [done|]. rewrite str_app_cons. cbn [to_ascii_uppercase]. by rewrite IH, str_app_cons. Qed.

Lemma upper_W b : Ascii.eqb (ascii_upper b) "W" = Ascii.eqb b "W" || Ascii.eqb b "w".
Proof. by destruct b as [[] [] [] [] [] [] [] []]. Qed.

Lemma upper_no_W s : contains_char "W" s = false -> contains_char "w" s = false ->
  contains_char "W" (to_ascii_uppercase s) = false.
Proof.
  induction s as [|b s IH]; [done|]. cbn. intros [H1 Hs1]%orb_false_iff [H2 Hs2]%orb_false_iff.
  by rewrite upper_W, H1, H2, IH.
Qed.

(** The code an adapter error has by its kind; a runtime error is told apart by its message. *)
Definition wasm_code (e : WasmError) : ErrorCode :=
  match e with
  | WasmFuelExhausted _ _ => ECWasmResourceFuelExhausted
  | WasmMemoryExceeded _ => ECWasmResourceMemoryLimit
  | WasmCompile _ | ModuleNotFound _ => ECWasmAbiInvalidPayload
  | AbiMismatch _ _ | WasmInvalidOutput _ | WasmNrf _ => ECWasmDeterminismViolation
  | WasmRuntime msg =>
      if str_contains "WASI imports are not allowed" msg then ECWasmCapabilityDeniedNetwork
      else if str_contains "import" (to_ascii_lowercase msg) then ECWasmCapabilityDenied
      else if str_contains "timeout" (to_ascii_lowercase msg) then ECWasmResourceTimeout
      else ECWasmDeterminismViolation
  end.

(** The texts of the engine and of the module that the message quotes. *)
Definition wasm_quoted (e : WasmError) : list string :=
  match e with
  | WasmCompile msg | WasmInvalidOutput msg | WasmRuntime msg => [msg]
  | ModuleNotFound cid => [cid]
  | AbiMismatch expected got => [expected; got]
  | WasmNrf e => [foreign_text (OfNrf e)]
  | _ => []
  end.

Definition names_no_code (t : string) : Prop := str_contains "WASM_" (to_ascii_uppercase t) = false.

(** Upper-cases the literals of the goal. *)
Ltac upper_literals :=
  rewrite ?to_ascii_uppercase_app;
  repeat match goal with
  | |- context [to_ascii_uppercase (String ?a ?s)] =>
      let u := eval vm_compute in (to_ascii_uppercase (String a s)) in
      change (to_ascii_uppercase (String a s)) with u
  end.

Lemma names_no_code_longer t : names_no_code t ->
  forall q, str_contains (String "W" (String "A" (String "S" (String "M" (String "_" q))))) (to_ascii_uppercase t) = false.
Proof.
  intros H q. apply not_true_iff_false. intros E. apply (str_contains_prefix "WASM_" q) in E. red in H. congruence.
Qed.

Lemma digits_skip p n t :
  str_contains (String "W" p) (to_ascii_uppercase (u_to_string n) +:+ t) = str_contains (String "W" p) t.
Proof. apply str_contains_skip, upper_no_W; by apply digits_no_letter. Qed.

(** An adapter error is answered with the code of its kind, unless the text of
    the module or of the engine that it quotes names a code itself. *)
Theorem adapter_error_classified e :
  Forall names_no_code (wasm_quoted e) ->
  exists m, code_and_message (map_wasm_error e) = Some (wasm_code e, m) /\ classify_wasm_error m = Some (wasm_code e).
Proof.
  intros H.
  assert (Hm : exists m, (code_and_message (map_wasm_error e) =
      Some (default ECFuelExhausted (classify_wasm_error m), m) \/
    code_and_message (map_wasm_error e) = Some (default ECInvalidChip (classify_wasm_error m), m)) /\
    first_match upper_table (to_ascii_uppercase m) = Some (wasm_code e)).
  { destruct e; cbn [map_wasm_error wasm_code wasm_quoted] in *; repeat case_match;
      eexists; (split; [first [left; reflexivity | right; reflexivity]|]);
      unfold upper_table; cbn [cause_text]; upper_literals;
      decompose_Forall_hyps; cbn [first_match]; scan; rewrite ?digits_skip; scan; rewrite ?digits_skip; scan.
    all: rewrite ?str_contains_break by reflexivity; rewrite ?names_no_code_longer by done; scan; try reflexivity.
    rewrite ?str_contains_break by reflexivity. rewrite ?names_no_code_longer by done. reflexivity. }
  destruct Hm as (m & Hmsg & Hup). exists m. unfold classify_wasm_error in *. rewrite Hup in *. by destruct Hmsg.
Qed.

Lemma knock_code_range m : let c := classify_knock_error m in
  http_status c = 400 /\ mcp_code c = -32602 /\ produces_receipt c = false.
Proof.
  unfold classify_knock_error, knock_table. cbn [first_match]. by repeat case_match.
Qed.

(** The response that a rejected body gets: status 400, MCP code -32602, no
    receipt by its code, the code in the document and in its link. *)
Theorem knock_response_exact random e r :
  from_pipeline_error random (KnockRejected (OfKnock e)) = Some r ->
  code r = classify_knock_error (knock_display e) /\ message r = knock_display e /\
  link r = "https://docs.ubl.agency/errors#" +:+ code_text (code r) /\
  http_status (code r) = 400 /\ mcp_code (code r) = -32602 /\ produces_receipt (code r) = false.
Proof.
  unfold from_pipeline_error. cbn [code_and_message cause_text mbind option_bind]. intros [= <-].
  repeat split; apply (knock_code_range (knock_display e)).
Qed.
End Classified.

(** ** Examples *)

#[local] Instance sample_str_debug : StrDebug := {| str_debug := fun s => String (Ascii.ascii_of_nat 34) (s +:+ String (Ascii.ascii_of_nat 34) EmptyString) |}.
#[local] Instance sample_texts : ForeignTexts := {| foreign_text := fun _ => "?"; unc_text := fun _ => "?" |}.

(** A repeated key that is named after another error is answered as that error. *)
Example quoted_number_misleads :
  classify_knock_error (knock_display (KnockDuplicateKey "KNOCK-001")) = ECKnockBodyTooLarge.
Proof. vm_compute. reflexivity. Qed.

Example knock_error_classified_witness :
  knock_code (KnockDuplicateKey "@id") = ECKnockDuplicateKey /\
  classify_knock_error (knock_display (KnockDuplicateKey "@id")) = knock_code (KnockDuplicateKey "@id").
Proof. split; [reflexivity|]. apply (knock_error_classified (KnockDuplicateKey "@id")). vm_compute. reflexivity. Defined.

Example adapter_error_classified_witness :
  names_no_code "1.0" /\ names_no_code "2.0" /\
  exists m, code_and_message (map_wasm_error (AbiMismatch "1.0" "2.0")) = Some (ECWasmDeterminismViolation, m) /\
    classify_wasm_error m = Some ECWasmDeterminismViolation.
Proof.
  split; [reflexivity|]. split; [reflexivity|].
  apply (adapter_error_classified (AbiMismatch "1.0" "2.0")). repeat constructor.
Defined.

Example knock_response_exact_witness :
  exists r, from_pipeline_error [] (KnockRejected (OfKnock DepthExceeded)) = Some r /\
    code r = classify_knock_error (knock_display DepthExceeded) /\ message r = knock_display DepthExceeded /\
    link r = "https://docs.ubl.agency/errors#" +:+ code_text (code r) /\
    http_status (code r) = 400 /\ mcp_code (code r) = -32602 /\ produces_receipt (code r) = false.
Proof.
  eexists. split; [reflexivity|]. apply (knock_response_exact [] DepthExceeded). reflexivity.
Defined.
