(* ===== verification/EventStore.v ===== *)
(** * The event store ([ubl_eventstore/src/lib.rs])

    Events keyed by their identifier in an embedded database ([Sled]), with one
    index by time and one per dimension, and the queries that choose among
    them.  Any call of the database can fail.  The theorems: a query
    returns exactly the matching records in order, whatever index it takes
    ([event_query_exact]); no failure makes an index name an unknown event and
    rebuilding repairs the indexes ([index_never_dangles]); an append that fails
    in the indexes hides its event ([failed_append_hides]). *)

From S2P Require Import Prelude RustStd RustStr Json Nrf BigNum TextFacts KnockFacts PipelineTypes RichUrl RichUrlFacts.
From S2P Require Import ErrorResponse Envelope Sled.
From stdpp Require Import sorting.
Local Open Scope string_scope.
Local Open Scope Z_scope.
Local Open Scope list_scope.

(** [DateTime::parse_from_rfc3339] followed by [timestamp_millis]. *)
Class ChronoMillis : Type := { rfc3339_millis : string -> option Z }.

(** ** Trees *)

Definition TREE_EVENTS : string := "events".
Definition TREE_IDX_TIME : string := "idx_time".
Definition TREE_IDX_WORLD : string := "idx_world".
Definition TREE_IDX_STAGE : string := "idx_stage".
Definition TREE_IDX_TYPE : string := "idx_type".
Definition TREE_IDX_DECISION : string := "idx_decision".
Definition TREE_IDX_CODE : string := "idx_code".
Definition TREE_IDX_ACTOR : string := "idx_actor".
Definition index_trees : list string :=
  [TREE_IDX_TIME; TREE_IDX_WORLD; TREE_IDX_STAGE; TREE_IDX_TYPE; TREE_IDX_DECISION; TREE_IDX_CODE; TREE_IDX_ACTOR].

Record EventQuery : Type := mkQuery {
  q_world : option string; q_stage : option string; q_decision : option string; q_code : option string;
  q_chip_type : option string; q_actor : option string; q_since : option string; q_limit : option Z }.

Record EventRecord : Type := mkRecord { event_id : string; when_ms : Z; event : json }.

(** Texts of the libraries are left out. *)
Inductive EventStoreError : Type := SledError | SerdeError | InvalidEvent (s : string).

(** ** Events *)

Definition str_at (k : string) (v : json) : option string := get k v ≫= as_str.
Definition str_at2 (k k' : string) (v : json) : option string := (get k v ≫= get k') ≫= as_str.
(** [a.or_else(|| b)] *)
Definition or_opt {A} (a b : option A) : option A := match a with Some x => Some x | None => b end.

Definition event_world (e : json) : option string := or_opt (str_at "@world" e) (str_at "world" e).
Definition event_stage (e : json) : option string := or_opt (str_at "stage" e) (str_at "pipeline_stage" e).
Definition event_chip_type (e : json) : option string :=
  or_opt (or_opt (str_at2 "chip" "type" e) (str_at "chip_type" e)) (str_at "receipt_type" e).
Definition event_decision (e : json) : option string := or_opt (str_at2 "receipt" "decision" e) (str_at "decision" e).
Definition event_code (e : json) : option string := or_opt (str_at2 "receipt" "code" e) (str_at "code" e).
Definition event_actor (e : json) : option string := or_opt (str_at2 "actor" "kid" e) (str_at "actor" e).

Definition insert_missing (k v : string) (m : list (string * json)) : list (string * json) :=
  if contains_key k m then m else map_insert k (JString v) m.

(** The identifier of an event that does not carry one. *)
Definition derived_event_id `{Blake3} (e : json) : string :=
  let receipt_cid := default "none" (or_opt (str_at2 "receipt" "cid" e) (str_at "receipt_cid" e)) in
  let stage := default "UNKNOWN" (or_opt (str_at "stage" e) (str_at "pipeline_stage" e)) in
  let source := default "pipeline" (str_at "source" e) in
  "evt_" +:+ hex_encode (take 12 (blake3 (as_bytes (receipt_cid +:+ "|" +:+ stage +:+ "|" +:+ source)))).

Definition normalize_event `{Blake3} `{ChronoMillis} (input : json) : result EventStoreError EventRecord :=
  m ← ok_or (as_object input) (InvalidEvent "event must be object");
  let m := insert_missing "@ver" "1.0.0" (insert_missing "@type" "ubl/event" m) in
  let e := JObject m in
  when_ ← ok_or (or_opt (str_at "when" e) (str_at "timestamp" e)) (InvalidEvent "missing when/timestamp");
  ms ← ok_or (rfc3339_millis when_) (InvalidEvent "invalid when");
  let id := match str_at "@id" e with Some id => id | None => derived_event_id e end in
  Ok (mkRecord id ms (JObject (map_insert "@id" (JString id) m))).

(** ** Keys *)

(** [str::parse::<i64>]: an optional sign and decimal digits. *)
Definition parse_i64 (s : string) : option Z :=
  let '(neg, digits) := match s with String "-" s' => (true, s') | String "+" s' => (false, s') | _ => (false, s) end in
  match digits with
  | EmptyString => None
  | _ => z ← parse_digits digits 0; let z := if neg : bool then - z else z in if in_i64 z then Some z else None
  end.

Definition parse_since_to_ms `{ChronoMillis} (since : option string) : option Z :=
  since ← since;
  match parse_i64 since with Some ts => Some ts | None => rfc3339_millis since end.

Fixpoint zeros (n : nat) : string := match n with O => EmptyString | S n => String "0" (zeros n) end.
(** [{:020}]: zeros after the sign, up to twenty characters. *)
Definition pad20 (z : Z) : string :=
  if z <? 0 then let t := u_to_string (- z) in String "-" (zeros (19 - String.length t) +:+ t)
  else let t := u_to_string z in zeros (20 - String.length t) +:+ t.

(** [\x1f], the separator of the keys' parts. *)
Definition US : ascii := "031".
Definition unit_sep : string := String US EmptyString.

Definition time_index_key (ms : Z) (id : string) : string := pad20 ms +:+ unit_sep +:+ id.
Definition dim_index_key (value : string) (ms : Z) (id : string) : string :=
  value +:+ unit_sep +:+ pad20 ms +:+ unit_sep +:+ id.

Definition extract_event_id_from_index_key (key : string) : option string :=
  if utf8_valid (as_bytes key) then head (rsplitn 2 US key) else None.

(** ** Matching *)

Definition matches_type_glob (actual pattern : string) : bool :=
  if contains_char "*" pattern then
    if String.eqb pattern "*" then true
    else match split_on "*" pattern with
         | [p; q] => starts_with p actual && ends_with q actual
         | p :: _ => str_contains p actual
         | [] => false
         end
  else String.eqb actual pattern.

(** [if let Some(x) = filter { if !test(x) { return false } }] *)
Definition passes_filter (filter : option string) (test : string -> bool) : bool :=
  match filter with Some x => test x | None => true end.

Definition matches_query (e : json) (q : EventQuery) : bool :=
  passes_filter (q_world q) (fun w => bool_decide (event_world e = Some w)) &&
  passes_filter (q_stage q) (eq_ignore_ascii_case (default "" (event_stage e))) &&
  passes_filter (q_decision q) (eq_ignore_ascii_case (default "" (event_decision e))) &&
  passes_filter (q_code q) (fun c => bool_decide (event_code e = Some c)) &&
  passes_filter (q_actor q) (fun a => bool_decide (event_actor e = Some a)) &&
  passes_filter (q_chip_type q) (matches_type_glob (default "" (event_chip_type e))).

(** The most selective index that the query can use; [None] scans by time. *)
Definition choose_best_index (q : EventQuery) : option (string * string) :=
  let upper o := s ← o; if String.eqb s (to_ascii_uppercase s) then Some s else None in
  let index o tree := (fun v => (tree, v)) <$> (o : option string) in
  or_opt (index (t ← q_chip_type q; if contains_char "*" t then None else Some t) TREE_IDX_TYPE)
  (or_opt (index (q_world q) TREE_IDX_WORLD)
  (or_opt (index (q_actor q) TREE_IDX_ACTOR)
  (or_opt (index (q_code q) TREE_IDX_CODE)
  (or_opt (index (upper (q_stage q)) TREE_IDX_STAGE) (index (upper (q_decision q)) TREE_IDX_DECISION))))).

(** ** Operations *)

Section Operations.
Context `{SJ : SerdeJson} `{BL : Blake3} `{CM : ChronoMillis} {EventStore : Type} {SLD : Sled EventStore EventStoreError}.

Abbreviation store := (M EventStore EventStoreError).

(** [EventStore::open] on the trees that the directory holds. *)
Definition ensure_trees : store unit := for_each open_tree (TREE_EVENTS :: index_trees).
Definition open_store : store unit := _ ← open_db; ensure_trees.

Definition insert_dim (tree value : string) (ms : Z) (id : string) : store unit :=
  _ ← open_tree tree;
  tree_insert tree (dim_index_key value ms id) [].

(** The dimensions of an event, in the order in which they are written. *)
Definition event_dims (e : json) : list (string * option string) :=
  [(TREE_IDX_WORLD, Some (default "a/system" (event_world e))); (TREE_IDX_STAGE, event_stage e);
   (TREE_IDX_TYPE, event_chip_type e); (TREE_IDX_DECISION, event_decision e); (TREE_IDX_CODE, event_code e);
   (TREE_IDX_ACTOR, event_actor e)].

Definition insert_indexes (r : EventRecord) : store unit :=
  _ ← open_tree TREE_IDX_TIME;
  _ ← tree_insert TREE_IDX_TIME (time_index_key (when_ms r) (event_id r)) [];
  for_each (fun d => match d with
                     | (tree, Some value) => insert_dim tree value (when_ms r) (event_id r)
                     | (_, None) => mret tt
                     end) (event_dims (event r)).

Definition append_event_json (e : json) : store bool :=
  record ← lift (normalize_event e);
  _ ← open_tree TREE_EVENTS;
  known ← tree_contains TREE_EVENTS (event_id record);
  if known : bool then mret false
  else
    _ ← tree_insert TREE_EVENTS (event_id record) (to_vec (event record));
    _ ← insert_indexes record;
    _ ← db_flush;
    mret true.

Definition rebuild_indexes : store unit :=
  _ ← for_each (fun tree => _ ← open_tree tree; tree_clear tree) index_trees;
  _ ← open_tree TREE_EVENTS;
  events ← asks (tree_of TREE_EVENTS);
  _ ← for_each (fun kv =>
        _ ← next_entry;
        e ← lift (ok_or (from_slice kv.2) SerdeError);
        record ← lift (normalize_event e);
        insert_indexes record) events;
  db_flush.

(** The keys from [start] on, in order. *)
Definition tree_range (start : string) (t : Tree) : Tree := List.filter (fun kv => String.leb start kv.1) t.

(** The loop of [scan_dim_index] over the entries of the range. *)
Fixpoint scan_prefix (prefix : string) (entries : Tree) : store (list string) :=
  match entries with
  | [] => mret []
  | (k, _) :: rest =>
      _ ← next_entry;
      if starts_with prefix k then
        ids ← scan_prefix prefix rest;
        mret (match extract_event_id_from_index_key k with Some id => id :: ids | None => ids end)
      else mret []
  end.

Definition scan_dim_index (tree value : string) (start_ms : Z) : store (list string) :=
  _ ← open_tree tree;
  t ← asks (tree_of tree);
  scan_prefix (value +:+ unit_sep) (tree_range (value +:+ unit_sep +:+ pad20 start_ms +:+ unit_sep) t).

(** Look an event up and keep it when it matches. *)
Definition fetch (q : EventQuery) (id : string) : store (option json) :=
  raw ← tree_get TREE_EVENTS id;
  match raw with
  | None => mret None
  | Some raw =>
      e ← lift (ok_or (from_slice raw) SerdeError);
      mret (if matches_query e q then Some e else None)
  end.

Fixpoint fetch_ids (q : EventQuery) (limit : nat) (ids : list string) (out : list json) : store (list json) :=
  match ids with
  | [] => mret out
  | id :: rest =>
      found ← fetch q id;
      match found with
      | None => fetch_ids q limit rest out
      | Some e => let out := out ++ [e] in if Nat.leb limit (length out) then mret out else fetch_ids q limit rest out
      end
  end.

Fixpoint scan_time (q : EventQuery) (limit : nat) (entries : Tree) (out : list json) : store (list json) :=
  match entries with
  | [] => mret out
  | (k, _) :: rest =>
      _ ← next_entry;
      match extract_event_id_from_index_key k with
      | None => scan_time q limit rest out
      | Some id =>
          found ← fetch q id;
          match found with
          | None => scan_time q limit rest out
          | Some e => let out := out ++ [e] in if Nat.leb limit (length out) then mret out else scan_time q limit rest out
          end
      end
  end.

Definition query_limit (q : EventQuery) : nat := Z.to_nat (Z.max 1 (Z.min 2000 (default 200 (q_limit q)))).
Definition query_start (q : EventQuery) : Z := default 0 (parse_since_to_ms (q_since q)).

Definition query (q : EventQuery) : store (list json) :=
  _ ← open_tree TREE_EVENTS;
  match choose_best_index q with
  | Some (tree, value) =>
      ids ← scan_dim_index tree value (query_start q);
      fetch_ids q (query_limit q) ids []
  | None =>
      _ ← open_tree TREE_IDX_TIME;
      t ← asks (tree_of TREE_IDX_TIME);
      scan_time q (query_limit q) (tree_range (pad20 (query_start q) +:+ unit_sep) t) []
  end.
End Operations.

(** ** Padded numbers *)

Lemma parse_digits_range s a x : parse_digits s a = Some x ->
  a * 10 ^ Z.of_nat (String.length s) <= x < (a + 1) * 10 ^ Z.of_nat (String.length s).
Proof.
  revert a. induction s as [|c s IH]; intros a H; cbn [parse_digits String.length] in *.
  - injection H as ->. lia.
  - destruct (digit_val c) as [d|] eqn:Ed; [|done]. apply IH in H. clear IH.
    assert (0 <= d <= 9) by (unfold digit_val in Ed; case_match eqn:E; [|done]; bool_to_prop; simplify_eq; lia).
    rewrite Nat2Z.inj_succ, Z.pow_succ_r by lia. nia.
Qed.

Lemma ascii_compare_digits a b x y : digit_val a = Some x -> digit_val b = Some y -> Ascii.compare a b = (x ?= y).
Proof.
  unfold digit_val, Ascii.compare. intros Ha Hb. repeat case_match; simplify_eq. rewrite <- N2Z.inj_compare.
  destruct (Z.compare_spec (Z.of_N (N_of_ascii a)) (Z.of_N (N_of_ascii b))); symmetry;
    [apply Z.compare_eq_iff|apply Z.compare_lt_iff|apply Z.compare_gt_iff]; lia.
Qed.

(** Texts of the same number of digits compare as the numbers do. *)
Lemma compare_digits s t a x y : parse_digits s a = Some x -> parse_digits t a = Some y ->
  String.length s = String.length t -> String.compare s t = (x ?= y).
Proof.
  revert t a. induction s as [|c s IH]; intros [|c' t] a Hs Ht Hl; try discriminate Hl; cbn [parse_digits] in *.
  - simplify_eq. by rewrite Z.compare_refl.
  - injection Hl as Hl. destruct (digit_val c) as [d|] eqn:Ed; [|done]. destruct (digit_val c') as [d'|] eqn:Ed'; [|done].
    cbn [mbind option_bind String.compare] in *. rewrite (ascii_compare_digits _ _ _ _ Ed Ed').
    destruct (Z.compare_spec d d') as [<-|Hd|Hd]; [by eapply IH| |].
    all: apply parse_digits_range in Hs, Ht; rewrite Hl in Hs; symmetry;
      first [by apply Z.compare_lt_iff; nia | by apply Z.compare_gt_iff; nia].
Qed.

Lemma dec_digits_length f n acc k : 0 <= n < 10 ^ Z.of_nat k -> (1 <= k)%nat ->
  (String.length (dec_digits f n acc) <= k + String.length acc)%nat.
Proof.
  revert n acc k. induction f as [|f IH]; intros n acc k Hn Hk; cbn [dec_digits]; [lia|].
  destruct (Z.ltb_spec n 10); [cbn; lia|]. destruct k as [|[|k]]; [lia|cbn in Hn; lia|].
  rewrite Nat2Z.inj_succ, Z.pow_succ_r in Hn by lia.
  pose proof (IH (n / 10) (String (digit_char (n mod 10)) acc) (S k)) as H'. cbn [String.length] in H'.
  assert (0 <= n / 10 < 10 ^ Z.of_nat (S k)); [|lia].
  split; [by apply Z.div_pos; lia|]. apply Z.div_lt_upper_bound; lia.
Qed.

Lemma parse_zeros k t : parse_digits (zeros k +:+ t) 0 = parse_digits t 0.
Proof. by induction k. Qed.

Lemma zeros_length k : String.length (zeros k) = k.
Proof. induction k; cbn; lia. Qed.

Definition small (z : Z) : Prop := 0 <= z <= i64_max.

Lemma pad20_digits z : small z -> String.length (pad20 z) = 20%nat /\ parse_digits (pad20 z) 0 = Some z.
Proof.
  intros [H0 H1]. unfold pad20. destruct (Z.ltb_spec z 0); [lia|].
  rewrite parse_zeros, u_to_string_parse, str_length_app, zeros_length by done. split; [|done].
  assert (String.length (u_to_string z) <= 20)%nat; [|lia].
  unfold u_to_string. pose proof (dec_digits_length (S (Z.to_nat (Z.log2 z))) z "" 20) as H'. cbn [String.length] in H'.
  unfold i64_max in H1. lia.
Qed.

Lemma pad20_compare a b : small a -> small b -> String.compare (pad20 a) (pad20 b) = (a ?= b).
Proof.
  intros [La Pa]%pad20_digits [Lb Pb]%pad20_digits. eapply compare_digits; [done..|congruence].
Qed.

Lemma pad20_inj a b : small a -> small b -> pad20 a = pad20 b -> a = b.
Proof. intros Ha Hb E. apply Z.compare_eq_iff. rewrite <- pad20_compare by done. rewrite E. apply str_compare_refl. Qed.

Lemma pad20_wf z : small z -> str_wf (pad20 z).
Proof.
  intros [H0 _]. apply printable_wf. unfold pad20, printable_text. destruct (Z.ltb_spec z 0); [lia|].
  rewrite str_forallb_app. apply andb_true_iff. split; [generalize (20 - String.length (u_to_string z))%nat; intros n; by induction n|].
  by apply dec_digits_printable.
Qed.

(** ** Keys *)

Lemma compare_app_len p1 p2 s1 s2 : String.length p1 = String.length p2 ->
  String.compare (p1 +:+ s1) (p2 +:+ s2) = match String.compare p1 p2 with Eq => String.compare s1 s2 | c => c end.
Proof.
  revert p2. induction p1 as [|a p1 IH]; intros [|b p2] H; try discriminate H; [done|].
  rewrite !str_app_cons. cbn [String.compare]. destruct (Ascii.compare a b); try done. apply IH. by injection H.
Qed.

Lemma compare_app_same p s1 s2 : String.compare (p +:+ s1) (p +:+ s2) = String.compare s1 s2.
Proof. by rewrite compare_app_len, str_compare_refl by done. Qed.

(** What sorts after some text that begins with [p] without beginning with [p]
    itself sorts after all of them. *)
Lemma beyond_prefix p x y k : starts_with p k = false -> String.leb (p +:+ x) k = true -> String.ltb (p +:+ y) k = true.
Proof.
  unfold String.leb, String.ltb. revert k. induction p as [|a p IH]; intros k Hp Hk; [done|].
  destruct k as [|b k]; [done|]. rewrite str_app_cons in *. cbn [starts_with String.compare] in *.
  destruct (Ascii.eqb_spec a b) as [->|Hne].
  - unfold Ascii.compare in *. rewrite N.compare_refl in *. by apply IH.
  - destruct (Ascii.compare a b) eqn:E; [|done..]. unfold Ascii.compare in E. apply N.compare_eq_iff in E.
    exfalso. apply Hne. rewrite <- (ascii_N_embedding a), <- (ascii_N_embedding b). by f_equal.
Qed.

(** The order of the listings: by time, then by identifier. *)
Definition record_lt (r1 r2 : EventRecord) : Prop :=
  when_ms r1 < when_ms r2 \/ when_ms r1 = when_ms r2 /\ String.ltb (event_id r1) (event_id r2) = true.
Definition record_leb (r1 r2 : EventRecord) : bool :=
  (when_ms r1 <? when_ms r2) || ((when_ms r1 =? when_ms r2) && String.leb (event_id r1) (event_id r2)).

Lemma time_key_order m1 i1 m2 i2 : small m1 -> small m2 ->
  String.ltb (time_index_key m1 i1) (time_index_key m2 i2) = true <-> m1 < m2 \/ m1 = m2 /\ String.ltb i1 i2 = true.
Proof.
  intros H1 H2. rewrite !str_ltb_Lt. unfold time_index_key.
  rewrite compare_app_len, pad20_compare, compare_app_same; [|done..|].
  - destruct (Z.compare_spec m1 m2) as [->| |]; split; intros; try done; try lia; try (by left); try (right; split; [done|naive_solver lia]).
    destruct H as [?|[_ ?]]; [lia|done].
  - apply pad20_digits in H1 as [-> _]. by apply pad20_digits in H2 as [-> _].
Qed.

Lemma dim_key_time v m i : dim_index_key v m i = v +:+ unit_sep +:+ time_index_key m i.
Proof. done. Qed.

Lemma dim_key_order v m1 i1 m2 i2 : small m1 -> small m2 ->
  String.ltb (dim_index_key v m1 i1) (dim_index_key v m2 i2) = true <-> m1 < m2 \/ m1 = m2 /\ String.ltb i1 i2 = true.
Proof.
  intros H1 H2. rewrite !dim_key_time, str_ltb_Lt, !compare_app_same, <- str_ltb_Lt. by apply time_key_order.
Qed.

Lemma start_time_key m1 m2 i : small m1 -> small m2 -> String.leb (pad20 m1 +:+ unit_sep) (time_index_key m2 i) = true <-> m1 <= m2.
Proof.
  intros H1 H2. unfold String.leb, time_index_key. rewrite compare_app_len, pad20_compare; [|done..|].
  - destruct (Z.compare_spec m1 m2); [|naive_solver lia..]. split; [lia|]. intros _. by destruct i.
  - apply pad20_digits in H1 as [-> _]. by apply pad20_digits in H2 as [-> _].
Qed.

Lemma start_dim_key v m1 m2 i : small m1 -> small m2 ->
  String.leb (v +:+ unit_sep +:+ pad20 m1 +:+ unit_sep) (dim_index_key v m2 i) = true <-> m1 <= m2.
Proof.
  intros H1 H2. rewrite dim_key_time, <- (start_time_key m1 m2 i) by done. unfold String.leb. by rewrite !compare_app_same.
Qed.

Lemma extract_time_key m i : small m -> str_wf i -> contains_char US i = false ->
  extract_event_id_from_index_key (time_index_key m i) = Some i.
Proof.
  intros Hm Hi Hus. unfold extract_event_id_from_index_key, time_index_key.
  assert (utf8_valid (as_bytes (pad20 m +:+ unit_sep +:+ i)) = true) as ->.
  { apply str_wf_app; [by apply pad20_wf|]. by apply str_wf_app. }
  unfold unit_sep. rewrite str_app_cons, str_app_nil_l. cbn [rsplitn]. by rewrite rsplit_once_at.
Qed.

Lemma extract_dim_key v m i : str_wf v -> small m -> str_wf i -> contains_char US i = false ->
  extract_event_id_from_index_key (dim_index_key v m i) = Some i.
Proof.
  intros Hv Hm Hi Hus. unfold extract_event_id_from_index_key.
  assert (utf8_valid (as_bytes (dim_index_key v m i)) = true) as ->.
  { rewrite dim_key_time. apply str_wf_app; [done|]. apply str_wf_app; [done|]. apply str_wf_app; [by apply pad20_wf|].
    by apply str_wf_app. }
  unfold dim_index_key, unit_sep. rewrite !str_app_cons, !str_app_nil_l. cbn [rsplitn].
  rewrite <- str_app_cons, <- (str_app_assoc v), rsplit_once_at by done. done.
Qed.

(** ** The database *)

Section Store.
Context `{SJ : SerdeJson} `{BL : Blake3} `{CM : ChronoMillis}.
Context {EventStore : Type} {SLD : Sled EventStore EventStoreError} {SLL : SledLaws SLD}.
Implicit Types (s : EventStore) (r : EventRecord).

(** What the indexes hold for a record. *)
Definition index_keys r : list (string * string) :=
  (TREE_IDX_TIME, time_index_key (when_ms r) (event_id r)) ::
  omap (fun d => (fun v => (d.1, dim_index_key v (when_ms r) (event_id r))) <$> d.2) (event_dims (event r)).

(** The record of an entry of the event tree. *)
Definition entry_of r (kv : string * bytes) : Prop :=
  kv.1 = event_id r /\ from_slice kv.2 = Some (event r) /\ normalize_event (event r) = Ok r.
Definition stored s r : Prop := exists kv, kv ∈ tree_of TREE_EVENTS s /\ entry_of r kv.

(** The invariant: ordered trees, readable events, and index entries only for
    stored events. *)
Record store_ok s : Prop := {
  trees_wf name : btree_wf (tree_of name s);
  events_read kv : kv ∈ tree_of TREE_EVENTS s -> exists r, entry_of r kv;
  index_sound name k : name ∈ index_trees -> k ∈ keys name s -> exists r, stored s r /\ (name, k) ∈ index_keys r }.

(** Every stored event is in every index that it belongs to. *)
Definition indexed s : Prop := forall r name k, stored s r -> (name, k) ∈ index_keys r -> k ∈ keys name s.

Lemma same_stored s s' r : same_trees s s' -> stored s r <-> stored s' r.
Proof. intros H. unfold stored. by rewrite (H TREE_EVENTS). Qed.
Lemma same_ok s s' : same_trees s s' -> store_ok s -> store_ok s'.
Proof.
  intros H [H1 H2 H3]. split.
  - intros name. by rewrite H.
  - intros kv. rewrite H. apply H2.
  - intros name k Hn. unfold keys. rewrite H. intros Hk. destruct (H3 name k Hn Hk) as (r & Hr & Hin).
    exists r. split; [by apply (same_stored s)|done].
Qed.
Lemma same_indexed s s' : same_trees s s' -> indexed s -> indexed s'.
Proof.
  intros H Hi r name k Hr Hk. unfold keys. rewrite H. apply (Hi r); [by apply (same_stored s s' r H)|done].
Qed.

(** ** Invariants under failing calls *)

Definition ok_with r s : Prop := store_ok s /\ stored s r.

Lemma on_trees_with r : on_trees (ok_with r).
Proof. intros s s' H [Hs Hr]. split; [by apply (same_ok s)|by apply (same_stored s)]. Qed.
Lemma on_trees_ok : on_trees store_ok.
Proof. intros s s' H Hs. by apply (same_ok s). Qed.

Lemma index_not_events name : name ∈ index_trees -> name <> TREE_EVENTS.
Proof. intros H ->. by apply (bool_decide_eq_false_1 (TREE_EVENTS ∈ index_trees)). Qed.

Lemma index_keys_tree r name k : (name, k) ∈ index_keys r -> name ∈ index_trees.
Proof.
  unfold index_keys. rewrite elem_of_cons. intros [[= -> ->]|H]; [by left|]. right.
  apply list_elem_of_omap in H as ([n v] & Hd & H). cbn in H. destruct v as [v|]; [|done]. injection H as -> _.
  apply (list_elem_of_fmap_2 fst) in Hd. exact Hd.
Qed.

Lemma insert_index_ok r name k : (name, k) ∈ index_keys r -> maintains (ok_with r) (tree_insert name k []).
Proof.
  intros Hk. apply maintains_insert; [apply on_trees_with|]. intros s s' [[H1 H2 H3] Hr] Hw.
  pose proof (index_not_events _ (index_keys_tree _ _ _ Hk)) as Hne.
  assert (Hev : tree_of TREE_EVENTS s' = tree_of TREE_EVENTS s) by (rewrite Hw; by rewrite decide_False by done).
  assert (Hst : forall r', stored s r' <-> stored s' r') by (intros r'; unfold stored; by rewrite Hev).
  split; [split|by apply Hst].
  - eapply writes_wf; [|exact Hw|done]. auto with ubl.
  - intros kv. rewrite Hev. apply H2.
  - intros n x Hn Hx. eapply writes_keys in Hx as [Hx|[-> ->]]; [| | |exact Hw]; [| |done].
    + destruct (H3 n x Hn Hx) as (r' & Hr' & Hin). exists r'. by rewrite <- Hst.
    + exists r. by rewrite <- Hst.
Qed.

Lemma insert_indexes_ok r : maintains (ok_with r) (insert_indexes r).
Proof.
  unfold insert_indexes. apply maintains_bind; [apply maintains_open, on_trees_with|intros _].
  apply maintains_bind; [apply insert_index_ok; left|intros _].
  apply maintains_each. intros [tree [value|]] Hd; [|apply maintains_ret].
  apply maintains_bind; [apply maintains_open, on_trees_with|intros _]. apply insert_index_ok. right.
  apply list_elem_of_omap. by exists (tree, Some value).
Qed.

Lemma str_at_insert k k' id m : k <> k' -> str_at k (JObject (map_insert k' (JString id) m)) = str_at k (JObject m).
Proof. intros H. unfold str_at, get. cbn [mbind option_bind]. rewrite map_get_insert. by destruct (String.eqb_spec k k'). Qed.

Lemma insert_missing_has k v m : contains_key k (insert_missing k v m) = true.
Proof.
  unfold insert_missing. destruct (contains_key k m) eqn:E; [done|]. unfold contains_key. by rewrite map_get_insert, String.eqb_refl.
Qed.
Lemma insert_missing_keeps k k' v m : contains_key k m = true -> contains_key k (insert_missing k' v m) = true.
Proof.
  unfold insert_missing. destruct (contains_key k' m); [done|]. unfold contains_key. rewrite map_get_insert. by destruct (String.eqb _ _).
Qed.

Lemma map_insert_twice {A} k (v : A) m : map_insert k v (map_insert k v m) = map_insert k v m.
Proof.
  induction m as [|[k' v'] m IH]; cbn; [by rewrite String.eqb_refl|].
  destruct (String.eqb k k') eqn:E; cbn; rewrite E; [done|by f_equal].
Qed.

(** Normalising a normalised event changes nothing. *)
Lemma normalize_idem e r : normalize_event e = Ok r -> normalize_event (event r) = Ok r.
Proof.
  unfold normalize_event. destruct e as [| | | | |m]; try done. cbn [as_object ok_or mbind result_bind].
  set (m1 := insert_missing "@ver" "1.0.0" (insert_missing "@type" "ubl/event" m)). intros H.
  set (id := match str_at "@id" (JObject m1) with Some id => id | None => _ end) in *.
  destruct (or_opt (str_at "when" (JObject m1)) (str_at "timestamp" (JObject m1))) as [w|] eqn:Ew; [|done]. cbn [ok_or mbind result_bind] in H.
  destruct (rfc3339_millis w) as [ms|] eqn:Ems; [|done]. cbn [ok_or mbind result_bind] in H. injection H as <-. cbn [event as_object ok_or mbind result_bind].
  assert (Hk : forall k, contains_key k m1 = true -> contains_key k (map_insert "@id" (JString id) m1) = true).
  { intros k. unfold contains_key. rewrite map_get_insert. by destruct (String.eqb _ _). }
  assert (Ht : contains_key "@type" m1 = true) by (apply insert_missing_keeps, insert_missing_has).
  assert (Hv : contains_key "@ver" m1 = true) by apply insert_missing_has.
  set (m2 := map_insert "@id" (JString id) m1) in *.
  assert (insert_missing "@ver" "1.0.0" (insert_missing "@type" "ubl/event" m2) = m2) as ->.
  { unfold insert_missing. by rewrite (Hk _ Ht), (Hk _ Hv). }
  unfold m2. rewrite (str_at_insert "when"), (str_at_insert "timestamp"), Ew by done. cbn [ok_or mbind result_bind]. rewrite Ems. cbn [ok_or mbind result_bind].
  assert (str_at "@id" (JObject (map_insert "@id" (JString id) m1)) = Some id) as ->.
  { unfold str_at, get. cbn [mbind option_bind]. by rewrite map_get_insert, String.eqb_refl. }
  by rewrite map_insert_twice.
Qed.

(** [serde_json] reads the event back that it has written. *)
Definition readable (e : json) : Prop :=
  forall r, normalize_event e = Ok r -> from_slice (to_vec (event r)) = Some (event r).

(** [s'] is [s] with the event written. *)
Definition adds_event r s s' : Prop := writes TREE_EVENTS (btree_insert (event_id r) (to_vec (event r)) (tree_of TREE_EVENTS s)) s s'.

Lemma store_new_event s s' e r : store_ok s -> readable e -> normalize_event e = Ok r ->
  btree_contains_key (event_id r) (tree_of TREE_EVENTS s) = false -> adds_event r s s' -> ok_with r s'.
Proof.
  intros [H1 H2 H3] Hread Hn Hc Hw.
  assert (Hget : btree_get (event_id r) (tree_of TREE_EVENTS s) = None).
  { unfold btree_contains_key in Hc. by destruct (btree_get _ _). }
  assert (Hev : forall kv, kv ∈ tree_of TREE_EVENTS s' <->
    kv ∈ tree_of TREE_EVENTS s \/ kv = (event_id r, to_vec (event r))).
  { intros [k v]. rewrite (Hw TREE_EVENTS), decide_True by done. rewrite <- !btree_get_elem by auto with ubl.
    rewrite btree_get_insert by done. destruct (String.eqb_spec k (event_id r)) as [->|Hne]; [|naive_solver].
    rewrite Hget. naive_solver. }
  assert (Hr : entry_of r (event_id r, to_vec (event r))).
  { split_and!; cbn; [done|by apply Hread|by eapply normalize_idem]. }
  assert (Hst : stored s' r) by (exists (event_id r, to_vec (event r)); split; [apply Hev; by right|done]).
  split; [split|done].
  - eapply writes_wf; [|exact Hw|done]. auto with ubl.
  - intros kv [Hkv| ->]%Hev; [by apply H2|]. by exists r.
  - intros n k Hin Hk. unfold keys in Hk. rewrite (Hw n), decide_False in Hk by by apply index_not_events.
    destruct (H3 n k Hin Hk) as (r' & (kv & Hkv & He) & Hk'). exists r'. split; [|done]. exists kv. split; [apply Hev; by left|done].
Qed.

(** Whatever calls of the database fail, an append keeps the invariant. *)
Lemma append_maintains e : readable e -> maintains store_ok (append_event_json e).
Proof.
  intros He s Hs. unfold append_event_json. unfold mbind at 1, M_bind, lift.
  destruct (normalize_event e) as [r|] eqn:En; [|done]. unfold mbind at 1, M_bind.
  pose proof (maintains_open store_ok TREE_EVENTS on_trees_ok s Hs) as Hs1. destruct (open_tree TREE_EVENTS s) as [s1 [[]|]]; [|done].
  cbn [fst] in Hs1. clear Hs. unfold mbind at 1, M_bind. pose proof (contains_law TREE_EVENTS (event_id r) s1) as Hc.
  destruct (tree_contains _ _ s1) as [s2 [known|]]; [|by apply (same_ok s1), Hs1; apply Hc]. destruct Hc as [[Hst ->] _].
  assert (Hs2 : store_ok s2) by by apply (same_ok s1). destruct (btree_contains_key _ _) eqn:Ek; [done|].
  unfold mbind at 1, M_bind. pose proof (insert_law TREE_EVENTS (event_id r) (to_vec (event r)) s2) as Hi.
  assert (Hadd : forall s3, adds_event r s2 s3 -> ok_with r s3).
  { intros s3 Hw. apply (store_new_event s2 s3 e); [done..| |done]. by rewrite (Hst TREE_EVENTS). }
  destruct (tree_insert _ _ _ s2) as [s3 [[]|]].
  2:{ destruct Hi as [[Hi|Hi] _]; [by apply (same_ok s2)|by apply Hadd]. }
  assert (Hr : ok_with r s3) by apply Hadd, Hi.
  assert (Hrest : maintains (ok_with r) (_ ← insert_indexes r; _ ← db_flush; mret true)).
  { apply maintains_bind; [apply insert_indexes_ok|intros _].
    apply maintains_bind; [by apply maintains_flush, on_trees_with|intros _; apply maintains_ret]. }
  by apply Hrest.
Qed.

Lemma insert_indexes_events l r : maintains (fun s => tree_of TREE_EVENTS s = l) (insert_indexes r).
Proof.
  assert (HP : on_trees (fun s => tree_of TREE_EVENTS s = l)) by (intros s s' H <-; apply H).
  assert (Hi : forall name k, (name, k) ∈ index_keys r -> maintains (fun s => tree_of TREE_EVENTS s = l) (tree_insert name k [])).
  { intros name k Hk. apply maintains_insert; [done|]. intros s s' Hs Hw. rewrite (Hw TREE_EVENTS), decide_False; [done|].
    intros E. by apply index_keys_tree, index_not_events in Hk. }
  unfold insert_indexes. apply maintains_bind; [by apply maintains_open|intros _].
  apply maintains_bind; [apply Hi; left|intros _]. apply maintains_each. intros [tree [value|]] Hd; [|apply maintains_ret].
  apply maintains_bind; [by apply maintains_open|intros _]. apply Hi. right.
  apply list_elem_of_omap. by exists (tree, Some value).
Qed.

(** Entries of an index may be missing. *)
Lemma clear_index_writes s s' name t : name ∈ index_trees -> t `sublist_of` tree_of name s -> writes name t s s' ->
  store_ok s -> store_ok s'.
Proof.
  intros Hn Ht Hw [H1 H2 H3].
  assert (Hev : tree_of TREE_EVENTS s' = tree_of TREE_EVENTS s).
  { rewrite (Hw TREE_EVENTS), decide_False; [done|]. intros E. by apply index_not_events in Hn. }
  split.
  - eapply writes_wf; [|exact Hw|done]. by eapply btree_sublist_wf.
  - intros kv. rewrite Hev. apply H2.
  - intros n k Hin. unfold keys. rewrite Hw. intros Hk.
    assert (k ∈ keys n s) as Hks by (revert Hk; case_decide; [subst; by apply sublist_keys|done]).
    destruct (H3 n k Hin Hks) as (r & Hr & Hk'). exists r. split; [|done]. unfold stored. by rewrite Hev.
Qed.

Lemma clear_index_ok name : name ∈ index_trees -> maintains store_ok (tree_clear name).
Proof. intros Hn. apply maintains_clear. intros s s' t Hs Ht Hw. by eapply clear_index_writes. Qed.

(** Whatever calls fail, rebuilding keeps the invariant. *)
Lemma rebuild_ok : maintains store_ok rebuild_indexes.
Proof.
  unfold rebuild_indexes. apply maintains_bind.
  { apply maintains_each. intros name Hn. apply maintains_bind; [apply maintains_open, on_trees_ok|intros _].
    by apply clear_index_ok. }
  intros _. apply maintains_bind; [apply maintains_open, on_trees_ok|intros _]. intros s Hs.
  unfold mbind at 1, M_bind, asks. remember (tree_of TREE_EVENTS s) as l eqn:Hl.
  assert (Hgo : maintains (fun s => store_ok s /\ tree_of TREE_EVENTS s = l)
    (_ ← for_each (fun kv => _ ← next_entry; e ← lift (ok_or (from_slice kv.2) SerdeError);
       record ← lift (normalize_event e); insert_indexes record) l; db_flush)).
  { assert (HP : on_trees (fun s => store_ok s /\ tree_of TREE_EVENTS s = l)).
    { intros s1 s2 Hst [? ?]. split; [by apply (same_ok s1)|by rewrite (Hst TREE_EVENTS)]. }
    apply maintains_bind; [|intros _; by apply maintains_flush].
    apply maintains_each. intros kv Hkv. apply maintains_bind; [by apply maintains_next|intros _].
    assert (exists r, entry_of r kv) as (r & Hr) by (apply (events_read s Hs); by rewrite <- Hl).
    pose proof Hr as (_ & Hf & Hn). rewrite Hf. cbn [ok_or]. intros s1 [H1 H2].
    unfold mbind, M_bind, lift. rewrite Hn. split.
    - apply insert_indexes_ok. split; [done|]. exists kv. by rewrite H2.
    - by apply insert_indexes_events. }
  apply Hgo. by rewrite Hl.
Qed.

(** ** Calls that do not fail *)

Definition put_key (nk : string * string) : M EventStore EventStoreError unit := _ ← open_tree nk.1; tree_insert nk.1 nk.2 [].

(** The writes of [insert_indexes], as one loop. *)
Lemma insert_indexes_puts r s : insert_indexes r s = for_each put_key (index_keys r) s.
Proof.
  unfold insert_indexes, index_keys. cbn [for_each]. symmetry. etrans; [apply bind_assoc|]. symmetry.
  apply bind_ext. intros _ s1. cbn [fst snd]. apply bind_ext. intros _ s2. generalize (event_dims (event r)). intros ds. revert s2.
  induction ds as [|[tree [v|]] ds IH]; intros s2; cbn [for_each omap list_omap fmap option_fmap option_map]; [done| |].
  - apply bind_ext. intros _ s3. apply IH.
  - apply IH.
Qed.

Lemma puts_quiet l s : quiet s -> (forall n, btree_wf (tree_of n s)) -> (forall nk, nk ∈ l -> nk.1 ∈ index_trees) ->
  exists s', for_each put_key l s = (s', Ok tt) /\ quiet s' /\ tree_of TREE_EVENTS s' = tree_of TREE_EVENTS s /\
    (forall n, btree_wf (tree_of n s')) /\ forall n k, k ∈ keys n s' <-> k ∈ keys n s \/ (n, k) ∈ l.
Proof.
  revert s. induction l as [|[name key] l IH]; intros s Hq Hw Hl; cbn [for_each].
  { exists s. split_and!; try done. intros n k. rewrite elem_of_nil. tauto. }
  destruct (quiet_open name s Hq) as (s1 & E1 & Hs1 & Hq1). destruct (quiet_insert name key [] s1 Hq1) as (s2 & E2 & Hw2 & Hq2).
  assert (Hw1 : forall n, btree_wf (tree_of n s1)) by (intros n; by rewrite Hs1).
  assert (Ep : put_key (name, key) s = (s2, Ok tt)).
  { unfold put_key. cbn [fst snd]. by rewrite (bind_run _ _ _ _ _ E1). }
  rewrite (bind_run _ _ _ _ _ Ep). destruct (IH s2) as (s' & E & Hq' & Hev & Hw' & Hk).
  - done.
  - eapply writes_wf; [|exact Hw2|done]. auto with ubl.
  - intros nk Hnk. apply Hl. by right.
  - exists s'. split_and!; [done..| |done|].
    + rewrite Hev, (Hw2 TREE_EVENTS), decide_False; [apply Hs1|]. intros E'.
      apply (index_not_events name); [|done]. apply (Hl (name, key)). by left.
    + intros n k. rewrite Hk, elem_of_cons, (writes_keys _ _ _ _ _ _ _ (Hw1 name) Hw2). unfold keys. rewrite Hs1. naive_solver.
Qed.

Lemma insert_indexes_quiet r s : quiet s -> (forall n, btree_wf (tree_of n s)) ->
  exists s', insert_indexes r s = (s', Ok tt) /\ quiet s' /\ tree_of TREE_EVENTS s' = tree_of TREE_EVENTS s /\
    (forall n, btree_wf (tree_of n s')) /\ forall n k, k ∈ keys n s' <-> k ∈ keys n s \/ (n, k) ∈ index_keys r.
Proof.
  intros Hq Hw. rewrite insert_indexes_puts. apply puts_quiet; [done..|]. intros [n k] H. by eapply index_keys_tree.
Qed.

Lemma entry_of_fun r r' kv : entry_of r kv -> entry_of r' kv -> r = r'.
Proof. intros (_ & Hf & Hn) (_ & Hf' & Hn'). rewrite Hf in Hf'. injection Hf' as E. rewrite <- E, Hn in Hn'. by injection Hn'. Qed.

Lemma stored_get s r : store_ok s -> stored s r <->
  exists raw, btree_get (event_id r) (tree_of TREE_EVENTS s) = Some raw /\ entry_of r (event_id r, raw).
Proof.
  intros Hs. split.
  - intros ([k raw] & Hkv & He). pose proof He as (Hk & _). cbn in Hk. subst k. exists raw. split; [|done].
    apply btree_get_elem; [apply Hs|done].
  - intros (raw & Hg%btree_get_elem & He); [|apply Hs]. by exists (event_id r, raw).
Qed.

Lemma stored_unique s r r' : store_ok s -> stored s r -> stored s r' -> event_id r = event_id r' -> r = r'.
Proof.
  intros Hs (raw & Hg & He)%stored_get (raw' & Hg' & He')%stored_get E; [|done..].
  rewrite <- E in *. rewrite Hg in Hg'. injection Hg' as ->. by eapply entry_of_fun.
Qed.

(** All that rebuilding needs: ordered trees and events that are read back. *)
Definition events_ok s : Prop :=
  (forall n, btree_wf (tree_of n s)) /\ forall kv, kv ∈ tree_of TREE_EVENTS s -> exists r, entry_of r kv.
Lemma ok_events s : store_ok s -> events_ok s.
Proof. by intros [H1 H2 _]. Qed.

Lemma clear_indexes_quiet l s : quiet s -> (forall n, n ∈ l -> n ∈ index_trees) -> events_ok s -> exists s1,
  for_each (fun tree => _ ← open_tree tree; tree_clear tree) l s = (s1, Ok tt) /\ quiet s1 /\ events_ok s1 /\
  tree_of TREE_EVENTS s1 = tree_of TREE_EVENTS s /\ forall n, n ∈ l \/ tree_of n s = [] -> tree_of n s1 = [].
Proof.
  revert s. induction l as [|n l IH]; intros s Hq Hl Hs; cbn [for_each].
  { exists s. split_and!; [done..|]. by intros n [?%elem_of_nil|]. }
  destruct (quiet_open n s Hq) as (s1 & E1 & Hs1 & Hq1). assert (Hn : n ∈ index_trees) by (apply Hl; left).
  destruct (quiet_clear n s1 Hq1) as (s2 & E2 & Hw & Hq2).
  assert (Hev2 : tree_of TREE_EVENTS s2 = tree_of TREE_EVENTS s).
  { rewrite (Hw TREE_EVENTS), decide_False; [apply Hs1|]. intros E. by apply index_not_events in Hn. }
  assert (Hs2 : events_ok s2).
  { destruct Hs as [H1 H2]. split; [|by rewrite Hev2]. eapply writes_wf; [constructor|exact Hw|]. intros m. by rewrite Hs1. }
  destruct (IH s2 Hq2 (fun n' Hn' => Hl n' (list_elem_of_further _ _ _ Hn')) Hs2) as (s3 & E3 & Hq3 & Hs3 & Hev & Hcl).
  exists s3. split_and!; [|done..|by rewrite Hev|].
  - rewrite (bind_run _ _ _ s2 tt); [done|]. by rewrite (bind_run _ _ _ _ _ E1).
  - intros m Hm. apply Hcl. rewrite (Hw m). rewrite elem_of_cons in Hm. case_decide; [by right|]. rewrite (Hs1 m). naive_solver.
Qed.

Lemma index_entries_quiet l s3 : quiet s3 -> (forall n, btree_wf (tree_of n s3)) -> (forall kv, kv ∈ l -> exists r, entry_of r kv) ->
  exists s4, for_each (fun kv => _ ← next_entry; e ← lift (ok_or (from_slice kv.2) SerdeError);
     record ← lift (normalize_event e); insert_indexes record) l s3 = (s4, Ok tt) /\ quiet s4 /\
  tree_of TREE_EVENTS s4 = tree_of TREE_EVENTS s3 /\ (forall n, btree_wf (tree_of n s4)) /\
  forall n k, k ∈ keys n s4 <-> k ∈ keys n s3 \/ exists kv r, kv ∈ l /\ entry_of r kv /\ (n, k) ∈ index_keys r.
Proof.
  revert s3. induction l as [|kv l IH]; intros s3 Hq Hw Hl; cbn [for_each].
  { exists s3. split_and!; try done. intros n k. split; [by left|]. by intros [?|(? & ? & []%elem_of_nil & _)]. }
  destruct (Hl kv) as (r & Hr); [left|]. destruct (quiet_next s3 Hq) as (s3' & En & Hst & Hq').
  assert (Hw' : forall n, btree_wf (tree_of n s3')) by (intros n; by rewrite (Hst n)).
  destruct (insert_indexes_quiet r s3' Hq' Hw') as (s4 & E & Hq4 & Hev & Hw4 & Hk).
  destruct (IH s4 Hq4 Hw4 (fun kv' H => Hl kv' (list_elem_of_further _ _ _ H))) as (s5 & E5 & Hq5 & Hev5 & Hw5 & Hk5).
  exists s5. split_and!; [|done|rewrite Hev5, Hev; apply Hst|done|].
  - rewrite (bind_run _ _ _ s4 tt); [done|]. rewrite (bind_run _ _ _ _ _ En).
    pose proof Hr as (_ & Hf & Hn). rewrite Hf. cbn [ok_or]. unfold mbind, M_bind, lift. by rewrite Hn.
  - intros n k. rewrite Hk5, Hk. assert (keys n s3' = keys n s3) as -> by (unfold keys; by rewrite (Hst n)).
    setoid_rewrite elem_of_cons. split.
    + intros [[H|H]|(kv' & r' & H)]; [by left|right; by exists kv, r; split; [left|]|right; exists kv', r'; naive_solver].
    + intros [H|(kv' & r' & [->|Hin] & He & Hx)]; [by left; left|left; right|right; by exists kv', r'].
      by rewrite (entry_of_fun r r' kv).
Qed.

(** Rebuilding gives every stored event its index entries, and no other. *)
Theorem rebuild_restores s : events_ok s -> quiet s ->
  exists s', rebuild_indexes s = (s', Ok tt) /\ tree_of TREE_EVENTS s' = tree_of TREE_EVENTS s /\
    quiet s' /\ store_ok s' /\ indexed s'.
Proof.
  intros Hs Hq. unfold rebuild_indexes.
  destruct (clear_indexes_quiet index_trees s Hq (fun _ H => H) Hs) as (s1 & E1 & Hq1 & [Hw1 Hr1] & Hev1 & Hcl).
  rewrite (bind_run _ _ _ _ _ E1). destruct (quiet_open TREE_EVENTS s1 Hq1) as (s2 & E2 & Hst & Hq2).
  rewrite (bind_run _ _ _ _ _ E2). unfold mbind at 1, M_bind, asks. rewrite (Hst TREE_EVENTS).
  assert (Hw2 : forall n, btree_wf (tree_of n s2)) by (intros n; by rewrite Hst).
  destruct (index_entries_quiet (tree_of TREE_EVENTS s1) s2 Hq2 Hw2 Hr1) as (s4 & E4 & Hq4 & Hev4 & Hw4 & Hk4).
  destruct (quiet_flush s4 Hq4) as (s5 & E5 & Hst5 & Hq5).
  assert (Hev : tree_of TREE_EVENTS s5 = tree_of TREE_EVENTS s1) by by rewrite (Hst5 TREE_EVENTS), Hev4, (Hst TREE_EVENTS).
  exists s5. split_and!; [by rewrite (bind_run _ _ _ _ _ E4)|by rewrite Hev|done|split|].
  - intros n. by rewrite (Hst5 n).
  - rewrite Hev. exact Hr1.
  - intros n k Hn Hk. unfold keys in Hk. rewrite (Hst5 n) in Hk. apply Hk4 in Hk as [Hk|(kv & r & Hkv & He & Hx)].
    + unfold keys in Hk. rewrite (Hst n), Hcl in Hk by by left. by apply elem_of_nil in Hk.
    + exists r. split; [|done]. exists kv. by rewrite Hev.
  - intros r n k (kv & Hkv & He) Hk. unfold keys. rewrite (Hst5 n). apply Hk4. right. exists kv, r. by rewrite <- Hev.
Qed.

(** ** Appends *)

(** The store holds exactly the records of [R], and is free of failures. *)
Record holds s (R : list EventRecord) : Prop := {
  holds_ok : store_ok s; holds_indexed : indexed s; holds_quiet : quiet s; holds_stored r : stored s r <-> r ∈ R }.

Lemma unknown_id r s s1 : store_ok s1 -> same_trees s s1 -> event_id r ∉ keys TREE_EVENTS s ->
  btree_contains_key (event_id r) (tree_of TREE_EVENTS s1) = false.
Proof.
  intros Hs1 Hst Hnew. unfold btree_contains_key. destruct (btree_get _ _) eqn:E; [|done]. exfalso. apply Hnew. unfold keys.
  rewrite <- (Hst TREE_EVENTS). apply btree_keys_get; [apply Hs1|by eexists].
Qed.

Lemma adds_stored s s' e r r' : store_ok s -> readable e -> normalize_event e = Ok r ->
  btree_contains_key (event_id r) (tree_of TREE_EVENTS s) = false -> adds_event r s s' ->
  stored s' r' <-> stored s r' \/ r' = r.
Proof.
  intros Hs He Hn Hc Hw. rewrite (stored_get s) by done. rewrite stored_get by by eapply store_new_event.
  rewrite (Hw TREE_EVENTS), decide_True by done. rewrite btree_get_insert by apply Hs.
  destruct (String.eqb_spec (event_id r') (event_id r)) as [E'|Hne]; [|naive_solver].
  rewrite E'. assert (Hr' : entry_of r (event_id r, to_vec (event r))) by (split_and!; [done|by apply He|by eapply normalize_idem]).
  unfold btree_contains_key in Hc. destruct (btree_get (event_id r) _) eqn:Eg; [done|]. split.
  - intros (raw & [= <-] & Hx). right. by eapply entry_of_fun.
  - intros [(? & ? & _)| ->]; [done|]. by exists (to_vec (event r)).
Qed.

Lemma new_quiet e r s : store_ok s -> indexed s -> quiet s -> readable e -> normalize_event e = Ok r ->
  event_id r ∉ keys TREE_EVENTS s ->
  exists s', append_event_json e s = (s', Ok true) /\ quiet s' /\ store_ok s' /\ indexed s' /\
    forall r', stored s' r' <-> stored s r' \/ r' = r.
Proof.
  intros Hs Hi Hq He Hn Hnew. pose proof (append_maintains e He s Hs) as Hok.
  destruct (quiet_open TREE_EVENTS s Hq) as (s1 & E1 & Hst & Hq1). pose proof (same_ok _ _ Hst Hs) as Hs1.
  pose proof (unknown_id r s s1 Hs1 Hst Hnew) as Hc.
  destruct (quiet_contains TREE_EVENTS (event_id r) s1 Hq1) as (s1' & E1' & Hst' & Hq1'). rewrite Hc in E1'.
  destruct (quiet_insert TREE_EVENTS (event_id r) (to_vec (event r)) s1' Hq1') as (s2 & E2 & Hw & Hq2).
  assert (Hst1 : same_trees s s1') by by eapply same_trans. pose proof (same_ok _ _ Hst1 Hs) as Hs1'.
  pose proof (unknown_id r s s1' Hs1' Hst1 Hnew) as Hc'.
  pose proof (store_new_event s1' s2 e r Hs1' He Hn Hc' Hw) as [Hs2 Hr].
  destruct (insert_indexes_quiet r s2 Hq2 (trees_wf _ Hs2)) as (s3 & E3 & Hq3 & Hev & _ & Hk).
  destruct (quiet_flush s3 Hq3) as (s4 & E4 & Hst4 & Hq4).
  assert (E : append_event_json e s = (s4, Ok true)).
  { unfold append_event_json. rewrite (bind_run _ _ _ s r) by by unfold lift; rewrite Hn.
    rewrite (bind_run _ _ _ _ _ E1), (bind_run _ _ _ _ _ E1'), (bind_run _ _ _ _ _ E2), (bind_run _ _ _ _ _ E3).
    by rewrite (bind_run _ _ _ _ _ E4). }
  exists s4. rewrite E in Hok. cbn [fst] in Hok.
  assert (Hin : forall r', stored s4 r' <-> stored s2 r') by (intros r'; unfold stored; by rewrite (Hst4 TREE_EVENTS), Hev).
  assert (Hall : forall r', stored s2 r' <-> stored s r' \/ r' = r).
  { intros r'. rewrite (same_stored _ _ r' Hst1). by eapply adds_stored. }
  split_and!; [done..| |].
  - intros r' n k Hr' Hx. unfold keys. rewrite (Hst4 n). apply Hk. apply Hin, Hall in Hr' as [Hr'| ->]; [left|by right].
    unfold keys. rewrite (Hw n), decide_False by by eapply index_not_events, index_keys_tree.
    rewrite (Hst1 n). by apply (Hi r').
  - intros r'. by rewrite Hin, Hall.
Qed.

Lemma known_quiet e r s : store_ok s -> quiet s -> normalize_event e = Ok r -> event_id r ∈ keys TREE_EVENTS s ->
  exists s', append_event_json e s = (s', Ok false) /\ quiet s' /\ same_trees s s'.
Proof.
  intros Hs Hq Hn Hk. destruct (quiet_open TREE_EVENTS s Hq) as (s1 & E1 & Hst & Hq1).
  destruct (quiet_contains TREE_EVENTS (event_id r) s1 Hq1) as (s2 & E2 & Hst2 & Hq2).
  exists s2. split_and!; [|done|by eapply same_trans].
  unfold append_event_json. rewrite (bind_run _ _ _ s r) by by unfold lift; rewrite Hn. rewrite (bind_run _ _ _ _ _ E1).
  rewrite (bind_run _ _ _ _ _ E2). unfold btree_contains_key.
  rewrite (Hst TREE_EVENTS). apply btree_keys_get in Hk as [v ->]; [done|apply Hs].
Qed.

(** The records of a history of appends: the first one of each identifier. *)
Definition keep_first (R : list EventRecord) (e : json) : list EventRecord :=
  match normalize_event e with
  | Ok r => if existsb (fun r' => String.eqb (event_id r') (event_id r)) R then R else R ++ [r]
  | Err _ => R
  end.
Definition records (events : list json) : list EventRecord := fold_left keep_first events [].

Definition append_all (events : list json) s : EventStore := fold_left (fun s e => (append_event_json e s).1) events s.
(** A new database. *)
Definition empty_store s : Prop := quiet s /\ forall n, tree_of n s = [].

Lemma holds_append e s R : readable e -> holds s R -> holds (append_event_json e s).1 (keep_first R e).
Proof.
  intros He [Hs Hi Hq HR]. unfold keep_first. destruct (normalize_event e) as [r|] eqn:Hn.
  2: { unfold append_event_json, mbind, M_bind, lift. rewrite Hn. by split. }
  assert (Hk : event_id r ∈ keys TREE_EVENTS s <-> existsb (fun r' => String.eqb (event_id r') (event_id r)) R = true).
  { rewrite existsb_exists. unfold keys. rewrite list_elem_of_fmap. split.
    - intros (kv & Ek & Hkv). destruct (events_read _ Hs kv Hkv) as (r' & Hr'). exists r'. rewrite <- list_elem_of_In, <- HR.
      split; [by exists kv|]. apply String.eqb_eq. rewrite Ek. symmetry. apply Hr'.
    - intros (r' & Hr' & Ek%String.eqb_eq). rewrite <- list_elem_of_In, <- HR in Hr'. destruct Hr' as (kv & Hkv & He').
      exists kv. split; [|done]. rewrite <- Ek. symmetry. apply He'. }
  destruct (existsb _ R) eqn:Ex.
  - destruct (known_quiet e r s Hs Hq Hn) as (s' & -> & Hq' & Hst); [by apply Hk|]. cbn [fst]. split.
    + by eapply same_ok.
    + by eapply same_indexed.
    + done.
    + intros r'. rewrite <- HR. symmetry. by apply same_stored.
  - destruct (new_quiet e r s Hs Hi Hq He Hn) as (s' & -> & Hq' & Hs' & Hi' & Hst).
    { by intros H%Hk. }
    cbn [fst]. split; [done..|]. intros r'. rewrite Hst, elem_of_app, list_elem_of_singleton, HR. done.
Qed.

Lemma blank_ok s : (forall n, tree_of n s = []) -> store_ok s.
Proof.
  intros Ht. split.
  - intros n. rewrite Ht. constructor.
  - intros kv. rewrite Ht. by intros ?%elem_of_nil.
  - intros n k _. unfold keys. rewrite Ht. by intros ?%elem_of_nil.
Qed.

Lemma holds_empty s : empty_store s -> holds s [].
Proof.
  intros [Hq Ht]. split; [by apply blank_ok| |done|].
  - intros r n k (kv & H & _). rewrite Ht in H. by apply elem_of_nil in H.
  - intros r. unfold stored. rewrite Ht. setoid_rewrite elem_of_nil. naive_solver.
Qed.

Lemma holds_history events s : empty_store s -> Forall readable events -> holds (append_all events s) (records events).
Proof.
  intros Hs H. induction events as [|e events IH] using rev_ind; [by apply holds_empty|].
  apply Forall_app in H as [H He]. apply Forall_cons_1 in He as [He _]. unfold append_all, records. rewrite !fold_left_app. cbn [fold_left].
  apply holds_append; [done|by apply IH].
Qed.

(** ** Queries *)

Definition upper_text (o : option string) : Prop := forall t, o = Some t -> to_ascii_uppercase t = t.

(** What a record must be like for the indexes to order and find it. *)
Record plain r : Prop := {
  plain_time : small (when_ms r);
  plain_id : str_wf (event_id r) /\ contains_char US (event_id r) = false;
  plain_dims tree v : (tree, Some v) ∈ event_dims (event r) -> str_wf v;
  plain_stage : upper_text (event_stage (event r));
  plain_decision : upper_text (event_decision (event r)) }.

(** No filter of the query is the empty text. *)
Definition named (q : EventQuery) : Prop :=
  q_chip_type q <> Some ""%string /\ q_stage q <> Some ""%string /\ q_decision q <> Some ""%string.

(** The specification: the matching records, by time and identifier. *)
Definition selected (q : EventQuery) r : bool := (query_start q <=? when_ms r) && matches_query (event r) q.
Definition listing (q : EventQuery) (R : list EventRecord) : list json :=
  take (query_limit q) (event <$> List.filter (selected q) (sort_by record_leb R)).

Lemma upper_lower a b : ascii_lower a = ascii_lower b -> ascii_upper a = ascii_upper b.
Proof.
  intros H. assert (forall c, ascii_upper c = ascii_upper (ascii_lower c)) as Hc by (intros [[] [] [] [] [] [] [] []]; reflexivity).
  by rewrite (Hc a), H, <- Hc.
Qed.

Lemma eq_ignore_upper (x y : string) : eq_ignore_ascii_case x y = true -> to_ascii_uppercase x = to_ascii_uppercase y.
Proof.
  unfold eq_ignore_ascii_case. intros H%String.eqb_eq. revert y H.
  induction x as [|a x IH]; intros [|b y] H; try done; cbn in *. injection H as H1 H2. f_equal; [by apply upper_lower|by apply IH].
Qed.

(** A filter on which an index is chosen fixes the value of the dimension. *)
Lemma chosen_value q tree v r : choose_best_index q = Some (tree, v) -> plain r -> named q -> matches_query (event r) q = true ->
  tree ∈ index_trees /\ tree <> TREE_IDX_TIME /\ (tree, Some v) ∈ event_dims (event r) /\
  forall v', (tree, v') ∈ event_dims (event r) -> v' = Some v.
Proof.
  intros Hc Hr (Hn1 & Hn2 & Hn3) Hm.
  assert (Hdim : forall o, (tree, o) ∈ event_dims (event r) -> o = Some v -> tree <> TREE_IDX_TIME ->
    tree ∈ index_trees -> tree ∈ index_trees /\ tree <> TREE_IDX_TIME /\ (tree, Some v) ∈ event_dims (event r) /\
    forall v', (tree, v') ∈ event_dims (event r) -> v' = Some v).
  { intros o Ho -> Ht Hi. split_and!; [done..|]. intros v' Hv'. unfold event_dims in *.
    repeat (apply elem_of_cons in Ho as [[= -> ?]|Ho]; [|]); try by apply elem_of_nil in Ho.
    all: repeat (apply elem_of_cons in Hv' as [Hv'|Hv']; [first [discriminate Hv'|injection Hv'; congruence]|]); by apply elem_of_nil in Hv'. }
  assert (Hin : forall k, nth_error (event_dims (event r)) k = Some (nth k (event_dims (event r)) ("", None)) ->
    nth k (event_dims (event r)) ("", None) ∈ event_dims (event r)).
  { intros k Hk. by apply list_elem_of_In, nth_error_In with k. }
  assert (Hfix : forall d t, default "" d = t -> t <> ""%string -> d = Some t) by (intros [d|] t E Ht; cbn in *; congruence).
  assert (Hup : forall d t, upper_text d -> eq_ignore_ascii_case (default "" d) t = true -> t = to_ascii_uppercase t ->
    t <> ""%string -> d = Some t).
  { intros d t Hd He Ht Hne. apply Hfix; [|done]. apply eq_ignore_upper in He. rewrite <- Ht in He. rewrite <- He. symmetry.
    destruct d; [by apply Hd|done]. }
  unfold matches_query in Hm. bool_to_prop. unfold choose_best_index in Hc.
  destruct (t ← q_chip_type q; _) as [t|] eqn:E1; cbn [or_opt fmap option_fmap option_map] in Hc.
  { injection Hc as <- <-. apply (Hdim _ (Hin 2%nat eq_refl)); [|done|by apply (bool_decide_unpack _)]. cbn [event_dims nth snd].
    destruct (q_chip_type q) as [t'|]; [|done]. cbn [mbind option_bind passes_filter] in *. destruct (contains_char "*" t') eqn:Es; [done|].
    injection E1 as ->. unfold matches_type_glob in *. rewrite Es in *. apply Hfix; [by apply String.eqb_eq|congruence]. }
  clear E1. destruct (q_world q) as [w|]; cbn [or_opt fmap option_fmap option_map passes_filter] in *.
  { injection Hc as <- <-. apply (Hdim _ (Hin 0%nat eq_refl)); [|done|by apply (bool_decide_unpack _)]. cbn [event_dims nth snd].
    by destruct (bool_decide_reflect (event_world (event r) = Some w)) as [->|]. }
  destruct (q_actor q) as [w|]; cbn [or_opt fmap option_fmap option_map passes_filter] in *.
  { injection Hc as <- <-. apply (Hdim _ (Hin 5%nat eq_refl)); [|done|by apply (bool_decide_unpack _)]. cbn [event_dims nth snd].
    by destruct (bool_decide_reflect (event_actor (event r) = Some w)) as [->|]. }
  destruct (q_code q) as [w|]; cbn [or_opt fmap option_fmap option_map passes_filter] in *.
  { injection Hc as <- <-. apply (Hdim _ (Hin 4%nat eq_refl)); [|done|by apply (bool_decide_unpack _)]. cbn [event_dims nth snd].
    by destruct (bool_decide_reflect (event_code (event r) = Some w)) as [->|]. }
  destruct (x ← q_stage q; _) as [t|] eqn:E1; cbn [or_opt fmap option_fmap option_map] in Hc.
  { injection Hc as <- <-. apply (Hdim _ (Hin 1%nat eq_refl)); [|done|by apply (bool_decide_unpack _)]. cbn [event_dims nth snd].
    destruct (q_stage q) as [t'|]; [|done]. cbn [mbind option_bind passes_filter] in *.
    destruct (String.eqb_spec t' (to_ascii_uppercase t')) as [Et|]; [|done]. injection E1 as ->.
    apply Hup; [apply Hr|done..|congruence]. }
  destruct (x ← q_decision q; _) as [t|] eqn:E2; cbn [or_opt fmap option_fmap option_map] in Hc; [|done].
  injection Hc as <- <-. apply (Hdim _ (Hin 3%nat eq_refl)); [|done|by apply (bool_decide_unpack _)]. cbn [event_dims nth snd].
  destruct (q_decision q) as [t'|]; [|done]. cbn [mbind option_bind passes_filter] in *.
  destruct (String.eqb_spec t' (to_ascii_uppercase t')) as [Et|]; [|done]. injection E2 as ->.
  apply Hup; [apply Hr|done..|congruence].
Qed.

Lemma record_leb_total r1 r2 : record_leb r1 r2 = false -> record_leb r2 r1 = true.
Proof.
  unfold record_leb. intros [H1%Z.ltb_ge H2]%orb_false_elim. apply orb_true_iff.
  destruct (Z.ltb_spec (when_ms r2) (when_ms r1)); [by left|right]. assert (when_ms r1 = when_ms r2) as E by lia.
  rewrite E in *. rewrite Z.eqb_refl in *. by apply str_leb_false.
Qed.
Lemma record_leb_trans r1 r2 r3 : record_leb r1 r2 = true -> record_leb r2 r3 = true -> record_leb r1 r3 = true.
Proof.
  unfold record_leb. rewrite !orb_true_iff, !andb_true_iff, !Z.ltb_lt, !Z.eqb_eq. intros [?|[? ?]] [?|[? ?]]; try (left; lia).
  right. split; [lia|]. by eapply str_leb_trans.
Qed.

Lemma sorted_list_filter {A} (S : A -> A -> Prop) f l : StronglySorted S l -> StronglySorted S (List.filter f l).
Proof.
  induction 1 as [|x l Hl IH Hx]; cbn; [constructor|]. destruct (f x); [|done]. constructor; [done|].
  rewrite Forall_forall in *. intros y Hy. apply Hx. rewrite list_elem_of_In in *. by apply List.filter_In in Hy as [? _].
Qed.

Lemma elem_filter {A} (f : A -> bool) l x : x ∈ List.filter f l <-> x ∈ l /\ f x = true.
Proof. rewrite !list_elem_of_In. apply List.filter_In. Qed.

(** Two listings of the same records in order are equal. *)
Lemma listing_unique s l1 l2 : store_ok s -> Forall (stored s) l1 -> Forall (stored s) l2 ->
  StronglySorted (fun a b => record_leb a b = true) l1 -> StronglySorted (fun a b => record_leb a b = true) l2 ->
  NoDup l1 -> NoDup l2 -> (forall r, r ∈ l1 <-> r ∈ l2) -> l1 = l2.
Proof.
  intros Hs H1 H2 S1 S2 N1 N2 Hm. eapply StronglySorted_unique_strong; [|exact S1|exact S2|by apply NoDup_Permutation].
  intros r1 r2 I1 I2 L1 L2. rewrite Forall_forall in H1, H2. apply (stored_unique s); [done|by apply H1|by apply H2|].
  unfold record_leb in *. rewrite orb_true_iff, andb_true_iff, Z.ltb_lt, Z.eqb_eq in *.
  apply String.leb_antisym; naive_solver lia.
Qed.

(** What the queries see: [R] is stored, and the indexes are those of [R]. *)
Record lists s (R : list EventRecord) : Prop := {
  lists_ok : store_ok s;
  lists_quiet : quiet s;
  lists_stored r : r ∈ R -> stored s r;
  lists_keys name k : name ∈ index_trees -> k ∈ keys name s <-> exists r, r ∈ R /\ (name, k) ∈ index_keys r }.

Lemma holds_lists s R : holds s R -> lists s R.
Proof.
  intros [Hs Hi Hq HR]. split; [done..|intros r; apply HR|]. intros name k Hn. split.
  - intros Hk. destruct (index_sound _ Hs _ _ Hn Hk) as (r & Hr%HR & Hx). by exists r.
  - intros (r & Hr%HR & Hx). by apply (Hi r).
Qed.

Lemma same_lists s s' R : same_trees s s' -> quiet s' -> lists s R -> lists s' R.
Proof.
  intros H Hq' [Hs Hq HR Hk]. split; [by eapply same_ok|done|..].
  - intros r Hr. apply (same_stored s); [done|by apply HR].
  - intros name k Hn. unfold keys. rewrite H. by apply Hk.
Qed.

(** Records in the order of their keys. *)
Lemma in_key_order (P : string -> EventRecord -> Prop) M (S : EventRecord -> EventRecord -> Prop) K Rs :
  StronglySorted (fun a b => String.ltb a b = true) K -> Forall2 P K Rs ->
  (forall k1 r1 k2 r2, P k1 r1 -> P k2 r2 -> M r1 = true -> M r2 = true -> String.ltb k1 k2 = true -> S r1 r2) ->
  StronglySorted S (List.filter M Rs).
Proof.
  intros HK H2 HS. induction H2 as [|k r K Rs Hr H IH]; cbn; [constructor|]. inversion HK as [|? ? HK' Hlt]; subst.
  destruct (M r) eqn:EM; [|by apply IH]. constructor; [by apply IH|]. apply Forall_forall. intros r' [Hr' EM']%elem_filter.
  apply list_elem_of_lookup in Hr' as [i Hi]. destruct (Forall2_lookup_r _ _ _ _ _ H Hi) as (k' & Hk' & Hr'').
  rewrite Forall_forall in Hlt. apply (HS k r k' r'); try done. apply Hlt. by eapply list_elem_of_lookup_2.
Qed.

(** What the entries of an index range stand for. *)
Lemma range_listing s R q tree kof K :
  lists s R -> NoDup R -> Forall plain R ->
  StronglySorted (fun a b => String.ltb a b = true) K ->
  (forall k, k ∈ K -> exists r, r ∈ R /\ (tree, k) ∈ index_keys r /\ extract_event_id_from_index_key k = Some (event_id r)) ->
  (forall r k, r ∈ R -> matches_query (event r) q = true -> (tree, k) ∈ index_keys r -> k = kof r) ->
  (forall r, r ∈ R -> matches_query (event r) q = true -> kof r ∈ K <-> query_start q <= when_ms r) ->
  (forall r, r ∈ R -> matches_query (event r) q = true -> extract_event_id_from_index_key (kof r) = Some (event_id r)) ->
  (forall r1 r2, r1 ∈ R -> r2 ∈ R -> String.ltb (kof r1) (kof r2) = true -> record_leb r1 r2 = true /\ r1 <> r2) ->
  exists Rs, omap extract_event_id_from_index_key K = event_id <$> Rs /\ Forall (stored s) Rs /\
    List.filter (fun r => matches_query (event r) q) Rs = List.filter (selected q) (sort_by record_leb R).
Proof.
  intros HR Hnd Hp HK Hk Hfix Hrange Hex Hord.
  assert (exists Rs, Forall2 (fun k r => r ∈ R /\ (tree, k) ∈ index_keys r /\ extract_event_id_from_index_key k = Some (event_id r)) K Rs)
    as [Rs H2].
  { clear -Hk. induction K as [|k K IH]; [by exists []|]. destruct (Hk k) as (r & Hr); [left|].
    destruct IH as [Rs HRs]; [intros k' Hk'; apply Hk; by right|]. exists (r :: Rs). by constructor. }
  pose proof (lists_ok _ _ HR) as Hs.
  assert (Hst : forall l, (forall r, r ∈ l -> r ∈ R) -> Forall (stored s) l).
  { intros l Hl. apply Forall_forall. intros r Hr. by apply (lists_stored _ _ HR), Hl. }
  assert (HRsR : forall r, r ∈ Rs -> r ∈ R).
  { intros r Hr. apply list_elem_of_lookup in Hr as [i Hi]. destruct (Forall2_lookup_r _ _ _ _ _ H2 Hi) as (k & _ & ? & _). done. }
  exists Rs. split_and!.
  - clear -H2. induction H2 as [|k r K Rs (_ & _ & Ek) H IH]; [done|]. cbn. by rewrite Ek, <- IH.
  - by apply Hst.
  - set (M := fun r => matches_query (event r) q).
    assert (Hsort : StronglySorted (fun r1 r2 => record_leb r1 r2 = true /\ r1 <> r2) (List.filter M Rs)).
    { eapply (in_key_order _ M); [exact HK|exact H2|]. intros k1 r1 k2 r2 (R1 & X1 & _) (R2 & X2 & _) M1 M2.
      rewrite (Hfix r1 k1), (Hfix r2 k2) by done. by apply Hord. }
    apply (listing_unique s); [done|..].
    + apply Hst. intros r [Hr _]%elem_filter. by apply HRsR.
    + apply Hst. intros r [Hr _]%elem_filter. by rewrite sort_by_perm in Hr.
    + clear -Hsort. induction Hsort as [|r l Hl IH Hr]; constructor; [done|]. eapply Forall_impl; [exact Hr|]. by intros ? [? _].
    + apply sorted_list_filter, sort_by_sorted; [apply record_leb_total|apply record_leb_trans].
    + clear -Hsort. induction Hsort as [|r l Hl IH Hr]; constructor; [|done]. intros Hin. rewrite Forall_forall in Hr.
      by destruct (Hr r Hin).
    + apply NoDup_ListNoDup, List.NoDup_filter, NoDup_ListNoDup. by rewrite sort_by_perm.
    + intros r. rewrite !elem_filter, sort_by_perm. unfold selected, M. rewrite andb_true_iff, Z.leb_le. split.
      * intros [Hr HM]. split_and!; [by apply HRsR| |done]. pose proof (HRsR r Hr) as HrR.
        apply list_elem_of_lookup in Hr as [i Hi]. destruct (Forall2_lookup_r _ _ _ _ _ H2 Hi) as (k & Hki & _ & Hx & _).
        apply (Hrange r HrR HM). rewrite <- (Hfix r k) by done. by eapply list_elem_of_lookup_2.
      * intros (HrR & Hge & HM). split; [|done]. apply (Hrange r HrR HM), list_elem_of_lookup in Hge as [i Hi].
        destruct (Forall2_lookup_l _ _ _ _ _ H2 Hi) as (r' & Hr' & Hr'R & _ & Hex'). rewrite Hex in Hex' by done.
        assert (r = r') as ->.
        { apply (stored_unique s); [done|by apply (lists_stored _ _ HR)..|by injection Hex']. }
        by eapply list_elem_of_lookup_2.
Qed.

(** The loops, without failures. *)
Lemma fetch_quiet q s id : quiet s -> exists s', same_trees s s' /\ quiet s' /\
  fetch q id s = (s', match btree_get id (tree_of TREE_EVENTS s) with
                      | None => Ok None
                      | Some raw => e ← ok_or (from_slice raw) SerdeError; Ok (if matches_query e q then Some e else None)
                      end).
Proof.
  intros Hq. destruct (quiet_get TREE_EVENTS id s Hq) as (s' & E & Hst & Hq'). exists s'. split_and!; [done..|].
  unfold fetch. rewrite (bind_run _ _ _ _ _ E). destruct (btree_get id _) as [raw|]; [|done]. unfold mbind, M_bind, lift. by destruct (from_slice raw).
Qed.

Lemma fetch_stored q s r : store_ok s -> quiet s -> stored s r -> exists s', same_trees s s' /\ quiet s' /\
  fetch q (event_id r) s = (s', Ok (if matches_query (event r) q then Some (event r) else None)).
Proof.
  intros Hs Hq (raw & Hg & _ & Hf & _)%stored_get; [|done]. destruct (fetch_quiet q s (event_id r) Hq) as (s' & Hst & Hq' & E).
  exists s'. split_and!; [done..|]. cbn [snd] in Hf. by rewrite E, Hg, Hf.
Qed.

Lemma fetch_ids_quiet q s n Rs out : store_ok s -> quiet s -> Forall (stored s) Rs -> (length out < n)%nat ->
  exists s', same_trees s s' /\ quiet s' /\ fetch_ids q n (event_id <$> Rs) out s =
    (s', Ok (take n (out ++ (event <$> List.filter (fun r => matches_query (event r) q) Rs)))).
Proof.
  revert s out. induction Rs as [|r Rs IH]; intros s out Hs Hq HR Hl; cbn [fmap list_fmap fetch_ids List.filter].
  - exists s. rewrite app_nil_r, take_ge by lia. split_and!; [apply same_refl|done..].
  - apply Forall_cons in HR as [Hr HR]. destruct (fetch_stored q s r Hs Hq Hr) as (s1 & Hst & Hq1 & E). rewrite (bind_run _ _ _ _ _ E).
    pose proof (same_ok _ _ Hst Hs) as Hs1. assert (HR1 : Forall (stored s1) Rs).
    { eapply Forall_impl; [exact HR|]. intros r'. apply (same_stored s s1 r' Hst). }
    assert (Hgo : forall out', (length out' < n)%nat -> exists s', same_trees s s' /\ quiet s' /\ fetch_ids q n (event_id <$> Rs) out' s1 =
      (s', Ok (take n (out' ++ (event <$> List.filter (fun r => matches_query (event r) q) Rs))))).
    { intros out' Ho. destruct (IH s1 out' Hs1 Hq1 HR1 Ho) as (s' & ? & ? & ?). exists s'. split_and!; [by eapply same_trans|done..]. }
    destruct (matches_query (event r) q); [|by apply Hgo]. rewrite fmap_cons.
    destruct (Nat.leb_spec n (length (out ++ [event r]))) as [Hn|Hn].
    + exists s1. split_and!; [done..|]. rewrite (cons_middle (event r) out (event <$> _)), (assoc_L app), take_app_le by done. rewrite take_ge; [done|]. rewrite length_app in *. cbn in *. lia.
    + destruct (Hgo _ Hn) as (s' & ? & ? & ->). exists s'. by rewrite <- (assoc_L app).
Qed.

(** Without failures the scan by time fetches the identifiers of its keys. *)
Lemma scan_time_quiet q s n t Rs out : omap extract_event_id_from_index_key t.*1 = event_id <$> Rs ->
  store_ok s -> quiet s -> Forall (stored s) Rs -> (length out < n)%nat ->
  exists s', same_trees s s' /\ quiet s' /\ scan_time q n t out s =
    (s', Ok (take n (out ++ (event <$> List.filter (fun r => matches_query (event r) q) Rs)))).
Proof.
  revert s Rs out. induction t as [|[k v] t IH]; intros s Rs out Hids Hs Hq HR Hl; cbn [scan_time].
  { symmetry in Hids. apply fmap_nil_inv in Hids as ->. exists s. cbn. rewrite app_nil_r, take_ge by lia. split_and!; [apply same_refl|done..]. }
  destruct (quiet_next s Hq) as (s1 & E & Hst & Hq1). rewrite (bind_run _ _ _ _ _ E).
  pose proof (same_ok _ _ Hst Hs) as Hs1. cbn [fmap list_fmap omap list_omap fst] in Hids.
  assert (Hup : forall s2 l, same_trees s1 s2 -> Forall (stored s) l -> Forall (stored s2) l).
  { intros s2 l Hst2 H. eapply Forall_impl; [exact H|]. intros r'. apply (same_stored s s2). by eapply same_trans. }
  destruct (extract_event_id_from_index_key k) as [id|].
  - destruct Rs as [|r Rs]; [done|]. cbn [fmap list_fmap] in Hids. injection Hids as -> Hids. apply Forall_cons in HR as [Hr HR].
    destruct (fetch_stored q s1 r Hs1 Hq1) as (s2 & Hst2 & Hq2 & E2); [by apply (same_stored s)|]. rewrite (bind_run _ _ _ _ _ E2).
    assert (Hgo : forall out', (length out' < n)%nat -> exists s', same_trees s s' /\ quiet s' /\ scan_time q n t out' s2 =
      (s', Ok (take n (out' ++ (event <$> List.filter (fun r => matches_query (event r) q) Rs))))).
    { intros out' Ho. destruct (IH s2 Rs out' Hids (same_ok _ _ Hst2 Hs1) Hq2 (Hup _ _ Hst2 HR) Ho) as (s' & ? & ? & ?).
      exists s'. split_and!; [|done..]. eapply same_trans; [|done]. by eapply same_trans. }
    cbn [List.filter]. destruct (matches_query (event r) q); [|by apply Hgo]. rewrite fmap_cons.
    destruct (Nat.leb_spec n (length (out ++ [event r]))) as [Hn|Hn].
    + exists s2. split_and!; [by eapply same_trans|done|]. rewrite (cons_middle (event r) out (event <$> _)), (assoc_L app), take_app_le by done.
      rewrite take_ge; [done|]. rewrite length_app in *. cbn in *. lia.
    + destruct (Hgo _ Hn) as (s' & ? & ? & ->). exists s'. by rewrite <- (assoc_L app).
  - destruct (IH s1 Rs out Hids Hs1 Hq1 (Hup s1 _ (same_refl _) HR) Hl) as (s' & ? & ? & ?). exists s'. split_and!; [by eapply same_trans|done..].
Qed.

Fixpoint take_prefix (p : string) (ks : list string) : list string :=
  match ks with [] => [] | k :: ks => if starts_with p k then k :: take_prefix p ks else [] end.

Lemma scan_prefix_quiet p t s : quiet s -> exists s', same_trees s s' /\ quiet s' /\
  scan_prefix p t s = (s', Ok (omap extract_event_id_from_index_key (take_prefix p t.*1))).
Proof.
  revert s. induction t as [|[k v] t IH]; intros s Hq; cbn [scan_prefix fmap list_fmap fst take_prefix].
  { exists s. split_and!; [apply same_refl|done..]. }
  destruct (quiet_next s Hq) as (s1 & E & Hst & Hq1). rewrite (bind_run _ _ _ _ _ E).
  destruct (starts_with p k); [|by exists s1]. destruct (IH s1 Hq1) as (s2 & Hst2 & Hq2 & E2). exists s2. split_and!; [by eapply same_trans|done|].
  rewrite (bind_run _ _ _ _ _ E2). cbn [omap list_omap]. by destruct (extract_event_id_from_index_key k).
Qed.

(** On ordered keys, the scan stops when no key with the prefix is left. *)
Lemma take_prefix_sorted p x ks : StronglySorted (fun a b => String.ltb a b = true) ks ->
  Forall (fun k => String.leb (p +:+ x) k = true) ks -> take_prefix p ks = List.filter (starts_with p) ks.
Proof.
  induction 1 as [|k ks Hks IH Hk]; intros Hx; cbn; [done|]. apply Forall_cons in Hx as [Hxk Hx].
  destruct (starts_with p k) eqn:E; [by rewrite IH|]. destruct (List.filter _ ks) as [|k' l] eqn:El; [done|]. exfalso.
  assert (k' ∈ List.filter (starts_with p) ks) as [Hin Hp]%elem_filter by (rewrite El; left).
  rewrite Forall_forall in Hk. apply starts_with_Some in Hp as [y ->].
  pose proof (str_ltb_trans _ _ _ (beyond_prefix p x y k E Hxk) (Hk _ Hin)) as Hc. by rewrite str_ltb_irrefl in Hc.
Qed.

Lemma time_key_only r k : (TREE_IDX_TIME, k) ∈ index_keys r <-> k = time_index_key (when_ms r) (event_id r).
Proof.
  unfold index_keys. rewrite elem_of_cons. split; [|intros ->; by left]. intros [[= ->]|H]; [done|]. exfalso.
  apply list_elem_of_omap in H as ([n v] & Hd & H). cbn in H. destruct v as [v|]; [|done]. injection H as -> _.
  apply (list_elem_of_fmap_2 fst) in Hd. by apply (bool_decide_eq_false_1 (TREE_IDX_TIME ∈ (event_dims (event r)).*1)) in Hd.
Qed.

Lemma dim_key_in r tree k : tree <> TREE_IDX_TIME ->
  (tree, k) ∈ index_keys r <-> exists v, (tree, Some v) ∈ event_dims (event r) /\ k = dim_index_key v (when_ms r) (event_id r).
Proof.
  intros Ht. unfold index_keys. rewrite elem_of_cons, list_elem_of_omap. split.
  - intros [[= ? _]|([n [v|]] & Hd & H)]; [done| |done]. injection H as -> <-. by exists v.
  - intros (v & Hd & ->). right. by exists (tree, Some v).
Qed.

Lemma tree_keys_sorted s t start : btree_wf t -> StronglySorted (fun a b => String.ltb a b = true) (tree_range start t).*1 /\
  forall k, k ∈ (tree_range start t).*1 <-> k ∈ t.*1 /\ String.leb start k = true.
Proof.
  intros Hw. unfold tree_range. split.
  - unfold btree_wf in Hw. induction Hw as [|[k v] t Hw IH Hk]; [constructor|]. cbn [List.filter fst]. destruct (String.leb start k); [|done].
    constructor; [done|]. apply Forall_forall. intros k' ([k1 v1] & -> & [Hin _]%elem_filter)%list_elem_of_fmap.
    rewrite Forall_forall in Hk. by apply (Hk _ Hin).
  - intros k. rewrite !list_elem_of_fmap. split.
    + intros (kv & -> & [? ?]%elem_filter). split; [by exists kv|done].
    + intros [(kv & -> & ?) ?]. exists kv. split; [done|]. by apply elem_filter.
Qed.

Lemma chosen_tree q tree v : choose_best_index q = Some (tree, v) -> tree ∈ index_trees /\ tree <> TREE_IDX_TIME.
Proof.
  unfold choose_best_index. intros H.
  assert (Hin : tree ∈ [TREE_IDX_TYPE; TREE_IDX_WORLD; TREE_IDX_ACTOR; TREE_IDX_CODE; TREE_IDX_STAGE; TREE_IDX_DECISION]).
  { rewrite !elem_of_cons. destruct (t ← q_chip_type q; _); [injection H; naive_solver|].
    destruct (q_world q); [injection H; naive_solver|]. destruct (q_actor q); [injection H; naive_solver|].
    destruct (q_code q); [injection H; naive_solver|]. destruct (x ← q_stage q; _); [injection H; naive_solver|].
    destruct (x ← q_decision q; _); [injection H; naive_solver|done]. }
  rewrite !elem_of_cons, elem_of_nil in Hin. by repeat destruct Hin as [->|Hin]; [split; [by apply (bool_decide_unpack _)|done]..|].
Qed.

(** The entries of the chosen index range, and what they list. *)
Lemma dim_range s R q tree v : lists s R -> NoDup R -> Forall plain R -> named q -> small (query_start q) ->
  choose_best_index q = Some (tree, v) ->
  exists Rs, omap extract_event_id_from_index_key
      (take_prefix (v +:+ unit_sep) (tree_range (v +:+ unit_sep +:+ pad20 (query_start q) +:+ unit_sep) (tree_of tree s)).*1) =
      event_id <$> Rs /\
    Forall (stored s) Rs /\ List.filter (fun r => matches_query (event r) q) Rs = List.filter (selected q) (sort_by record_leb R).
Proof.
  intros HR Hnd Hp Hn Hstart Hc. pose proof (lists_ok _ _ HR) as Hs. pose proof Hp as Hp'. rewrite Forall_forall in Hp'.
  assert (Hch : forall r, r ∈ R -> matches_query (event r) q = true -> (tree, Some v) ∈ event_dims (event r) /\
    forall v', (tree, v') ∈ event_dims (event r) -> v' = Some v).
  { intros r Hr Hm. by destruct (chosen_value q tree v r Hc (Hp' r Hr) Hn Hm) as (_ & _ & ? & ?). }
  destruct (chosen_tree q tree v Hc) as [Htree Htime].
  set (start := v +:+ unit_sep +:+ pad20 (query_start q) +:+ unit_sep).
  destruct (tree_keys_sorted s (tree_of tree s) start (trees_wf _ Hs _)) as [HK HinK].
  assert (Htp : take_prefix (v +:+ unit_sep) (tree_range start (tree_of tree s)).*1 =
    List.filter (starts_with (v +:+ unit_sep)) (tree_range start (tree_of tree s)).*1).
  { apply (take_prefix_sorted _ (pad20 (query_start q) +:+ unit_sep)); [done|]. apply Forall_forall. intros k [_ Hk]%HinK.
    unfold start in Hk. by rewrite str_app_assoc. }
  rewrite Htp. set (K := List.filter _ _). apply (range_listing s R q tree (fun r => dim_index_key v (when_ms r) (event_id r)) K); try done.
  - by apply sorted_list_filter.
  - intros k [Hk _]%elem_filter. apply HinK in Hk as [Hk _].
    apply (lists_keys _ _ HR _ _ Htree) in Hk as (r & Hr & Hx). exists r. split_and!; [done..|].
    apply dim_key_in in Hx as (v' & Hv' & ->); [|done]. destruct (Hp' r Hr). destruct plain_id0. apply extract_dim_key; eauto.
  - intros r k Hr Hm Hx. apply dim_key_in in Hx as (v' & Hv' & ->); [|done]. destruct (Hch r Hr Hm) as [_ Hu].
    apply Hu in Hv'. by injection Hv' as ->.
  - intros r Hr Hm. unfold K. rewrite elem_filter, HinK. unfold start. destruct (Hp' r Hr). rewrite start_dim_key by done. split; [tauto|].
    intros Hge. split_and!; [|done|].
    + apply (lists_keys _ _ HR); [done|]. exists r. split; [done|]. apply dim_key_in; [done|]. exists v. by destruct (Hch r Hr Hm).
    + unfold dim_index_key. rewrite <- str_app_assoc. apply starts_with_app.
  - intros r Hr Hm. destruct (Hp' r Hr). destruct plain_id0. apply extract_dim_key; [|done..]. eapply plain_dims0. by apply Hch.
  - intros r1 r2 H1 H2 Hlt. destruct (Hp' r1 H1), (Hp' r2 H2). rewrite dim_key_order in Hlt by done. split.
    + unfold record_leb. rewrite orb_true_iff, andb_true_iff, Z.ltb_lt, Z.eqb_eq. destruct Hlt as [|[? ?]]; [by left|right].
      split; [done|]. by apply str_ltb_leb.
    + intros ->. rewrite str_ltb_irrefl in Hlt. destruct Hlt as [|[? ?]]; [lia|done].
Qed.

Lemma time_range s R q : lists s R -> NoDup R -> Forall plain R -> small (query_start q) ->
  exists Rs, omap extract_event_id_from_index_key (tree_range (pad20 (query_start q) +:+ unit_sep) (tree_of TREE_IDX_TIME s)).*1 =
      event_id <$> Rs /\
    Forall (stored s) Rs /\ List.filter (fun r => matches_query (event r) q) Rs = List.filter (selected q) (sort_by record_leb R).
Proof.
  intros HR Hnd Hp Hstart. pose proof (lists_ok _ _ HR) as Hs. pose proof Hp as Hp'. rewrite Forall_forall in Hp'.
  destruct (tree_keys_sorted s (tree_of TREE_IDX_TIME s) (pad20 (query_start q) +:+ unit_sep) (trees_wf _ Hs _)) as [HK HinK].
  apply (range_listing s R q TREE_IDX_TIME (fun r => time_index_key (when_ms r) (event_id r))); try done.
  - intros k [Hk _]%HinK. apply (lists_keys _ _ HR _ _ (list_elem_of_here _ _)) in Hk as (r & Hr & Hx). exists r. split_and!; [done..|]. apply time_key_only in Hx as ->.
    destruct (Hp' r Hr). destruct plain_id0. by apply extract_time_key.
  - intros r k _ _ Hx. by apply time_key_only.
  - intros r Hr _. rewrite HinK. destruct (Hp' r Hr). rewrite start_time_key by done. split; [tauto|]. intros Hge. split; [|done].
    apply (lists_keys _ _ HR); [left|]. exists r. split; [done|by apply time_key_only].
  - intros r Hr _. destruct (Hp' r Hr). destruct plain_id0. by apply extract_time_key.
  - intros r1 r2 H1 H2 Hlt. destruct (Hp' r1 H1), (Hp' r2 H2). rewrite time_key_order in Hlt by done. split.
    + unfold record_leb. rewrite orb_true_iff, andb_true_iff, Z.ltb_lt, Z.eqb_eq. destruct Hlt as [|[? ?]]; [by left|right].
      split; [done|]. by apply str_ltb_leb.
    + intros ->. rewrite str_ltb_irrefl in Hlt. destruct Hlt as [|[? ?]]; [lia|done].
Qed.

Lemma query_listing s R q : lists s R -> NoDup R -> Forall plain R -> named q -> small (query_start q) ->
  exists s', query q s = (s', Ok (listing q R)) /\ same_trees s s' /\ quiet s'.
Proof.
  intros HR Hnd Hp Hn Hstart. pose proof (lists_quiet _ _ HR) as Hq. unfold query.
  destruct (quiet_open TREE_EVENTS s Hq) as (s1 & E1 & Hst1 & Hq1). rewrite (bind_run _ _ _ _ _ E1).
  assert (Hlim : (length (@nil json) < query_limit q)%nat) by (unfold query_limit; cbn; lia).
  destruct (choose_best_index q) as [[tree v]|] eqn:Ec.
  - destruct (quiet_open tree s1 Hq1) as (s2 & E2 & Hst2 & Hq2).
    pose proof (same_lists _ _ _ (same_trans _ _ _ Hst1 Hst2) Hq2 HR) as HR2.
    destruct (dim_range s2 R q tree v HR2 Hnd Hp Hn Hstart Ec) as (Rs & Eids & HRs & El).
    unfold scan_dim_index. rewrite bind_assoc, (bind_run _ _ _ _ _ E2), bind_assoc. unfold mbind at 1, M_bind, asks.
    destruct (scan_prefix_quiet (v +:+ unit_sep) (tree_range (v +:+ unit_sep +:+ pad20 (query_start q) +:+ unit_sep) (tree_of tree s2)) s2 Hq2)
      as (s3 & Hst3 & Hq3 & E3). rewrite (bind_run _ _ _ _ _ E3), Eids.
    destruct (fetch_ids_quiet q s3 (query_limit q) Rs []) as (s4 & Hst4 & Hq4 & ->); [|done|..|done|].
    + eapply same_ok, HR2. done.
    + eapply Forall_impl; [exact HRs|]. intros r. apply (same_stored s2 s3 r Hst3).
    + exists s4. cbn [app]. rewrite El. split_and!; [done| |done]. eapply same_trans; [exact Hst1|].
      eapply same_trans; [exact Hst2|]. by eapply same_trans.
  - destruct (quiet_open TREE_IDX_TIME s1 Hq1) as (s2 & E2 & Hst2 & Hq2).
    pose proof (same_lists _ _ _ (same_trans _ _ _ Hst1 Hst2) Hq2 HR) as HR2.
    destruct (time_range s2 R q HR2 Hnd Hp Hstart) as (Rs & Eids & HRs & El).
    rewrite (bind_run _ _ _ _ _ E2). unfold mbind at 1, M_bind, asks.
    destruct (scan_time_quiet q s2 (query_limit q) _ Rs [] Eids (lists_ok _ _ HR2) Hq2 HRs Hlim) as (s3 & Hst3 & Hq3 & ->).
    exists s3. cbn [app]. rewrite El. split_and!; [done| |done]. eapply same_trans; [exact Hst1|]. by eapply same_trans.
Qed.

Lemma records_ids events : NoDup (event_id <$> records events).
Proof.
  induction events as [|e events IH] using rev_ind; [constructor|]. unfold records in *. rewrite fold_left_app. cbn [fold_left].
  unfold keep_first at 1. destruct (normalize_event e) as [r|]; [|done]. destruct (existsb _ _) eqn:Ex; [done|].
  rewrite fmap_app. apply NoDup_app. split_and!; [done| |by repeat constructor; intros ?%elem_of_nil].
  intros id (r' & -> & Hr')%list_elem_of_fmap Hid%list_elem_of_singleton.
  assert (existsb (fun r' => String.eqb (event_id r') (event_id r)) (fold_left keep_first events []) = true); [|congruence].
  apply existsb_exists. exists r'. rewrite <- list_elem_of_In. split; [done|by apply String.eqb_eq].
Qed.

(** C13: After a history of appends to a new database that does not fail, a query
    returns exactly the matching records of the history, ordered by time and
    identifier and cut at the limit, whichever index it chooses; the first event
    of an identifier counts.

    The events are read back as they were written ([readable]) and their records
    are [plain]: an instant between 1970 and [i64_max], an identifier that is
    text without the separator of the index keys, indexed fields that are text,
    and stage and decision in capitals; without the last a query by stage or
    decision can miss an event ([lowercase_stage_missed]).  No filter of the
    query is the empty text ([named]), and the query does not start before 1970. *)
Theorem event_query_exact s events q : empty_store s ->
  Forall readable events -> Forall plain (records events) -> named q -> small (query_start q) ->
  (query q (append_all events s)).2 = Ok (listing q (records events)).
Proof.
  intros Hs0 He Hp Hn Hs. destruct (query_listing (append_all events s) (records events) q) as (s' & -> & _); try done.
  - by apply holds_lists, holds_history.
  - eapply NoDup_fmap_1, records_ids.
Qed.

(** ** Failures *)

Lemma maintains_fetch_ids P q n ids out : on_trees P -> maintains P (fetch_ids q n ids out).
Proof.
  intros HP. revert out. induction ids as [|id ids IH]; intros out; cbn [fetch_ids]; [apply maintains_ret|].
  apply maintains_bind; [|intros [e|]; [|apply IH]; cbv zeta; case_match; [apply maintains_ret|apply IH]].
  unfold fetch. apply maintains_bind; [by apply maintains_get|intros [raw|]; [|apply maintains_ret]].
  apply maintains_bind; [apply maintains_lift|intros e; apply maintains_ret].
Qed.

Lemma maintains_scan_time P q n t out : on_trees P -> maintains P (scan_time q n t out).
Proof.
  intros HP. revert out. induction t as [|[k v] t IH]; intros out; cbn [scan_time]; [apply maintains_ret|].
  apply maintains_bind; [by apply maintains_next|intros _]. destruct (extract_event_id_from_index_key k) as [id|]; [|apply IH].
  apply maintains_bind; [|intros [e|]; [|apply IH]; cbv zeta; case_match; [apply maintains_ret|apply IH]].
  unfold fetch. apply maintains_bind; [by apply maintains_get|intros [raw|]; [|apply maintains_ret]].
  apply maintains_bind; [apply maintains_lift|intros e; apply maintains_ret].
Qed.

(** Queries change no tree's content. *)
Lemma maintains_query P q : on_trees P -> maintains P (query q).
Proof.
  intros HP. unfold query. apply maintains_bind; [by apply maintains_open|intros _].
  destruct (choose_best_index q) as [[tree v]|].
  - apply maintains_bind; [|intros ids; by apply maintains_fetch_ids]. unfold scan_dim_index.
    apply maintains_bind; [by apply maintains_open|intros _]. apply maintains_bind; [apply maintains_asks|intros t].
    generalize (tree_range (v +:+ unit_sep +:+ pad20 (query_start q) +:+ unit_sep) t). clear t.
    intros t. induction t as [|[k x] t IH]; cbn [scan_prefix]; [apply maintains_ret|].
    apply maintains_bind; [by apply maintains_next|intros _]. case_match; [|apply maintains_ret].
    apply maintains_bind; [apply IH|intros ids; apply maintains_ret].
  - apply maintains_bind; [by apply maintains_open|intros _]. apply maintains_bind; [apply maintains_asks|intros t].
    by apply maintains_scan_time.
Qed.

Inductive StoreOp : Type := OpAppend (e : json) | OpRebuild | OpQuery (q : EventQuery).

Definition run_op s (op : StoreOp) : EventStore :=
  match op with
  | OpAppend e => (append_event_json e s).1
  | OpRebuild => (rebuild_indexes s).1
  | OpQuery q => (query q s).1
  end.

Definition op_readable (op : StoreOp) : Prop :=
  match op with OpAppend e => readable e | _ => True end.

Lemma run_ops_ok ops s : Forall op_readable ops -> store_ok s -> store_ok (fold_left run_op ops s).
Proof.
  revert s. induction ops as [|op ops IH]; intros s Ho Hs; [done|]. apply Forall_cons in Ho as [Hop Ho]. cbn [fold_left].
  apply IH; [done|]. destruct op; cbn in Hop |- *; [by apply append_maintains|by apply rebuild_ok|by apply maintains_query; [apply on_trees_ok|]].
Qed.

(** C14: Whatever calls of the database fail, with or without having done their
    work, an index never names an event that is not stored.  After a crash it
    may; but from any part of the events that the database still has, with index
    trees in any state, rebuilding keeps these events and makes the indexes
    exactly theirs. *)
Theorem index_never_dangles s0 ops : (forall n, tree_of n s0 = []) -> Forall op_readable ops ->
  let s := fold_left run_op ops s0 in
  (forall name k, name ∈ index_trees -> k ∈ keys name s -> exists r, stored s r /\ (name, k) ∈ index_keys r) /\
  forall s1, (forall n, btree_wf (tree_of n s1)) -> (forall kv, kv ∈ tree_of TREE_EVENTS s1 -> kv ∈ tree_of TREE_EVENTS s) ->
    quiet s1 ->
    exists s', rebuild_indexes s1 = (s', Ok tt) /\ (forall r, stored s' r <-> stored s1 r) /\
      forall name k, name ∈ index_trees -> k ∈ keys name s' <-> exists r, stored s1 r /\ (name, k) ∈ index_keys r.
Proof.
  intros H0 Ho s. assert (Hs : store_ok s) by (apply run_ops_ok; [done|by apply blank_ok]).
  split; [apply Hs|]. intros s1 Hw1 Hsub Hq1. destruct (rebuild_restores s1) as (s' & E & Hev & _ & Hs' & Hi').
  { split; [done|]. intros kv Hkv. by apply (events_read s Hs), Hsub. }
  { done. }
  assert (Hst : forall r, stored s' r <-> stored s1 r) by (intros r; unfold stored; by rewrite Hev).
  exists s'. split_and!; [done..|]. intros name k Hn. split.
  - intros Hk. destruct (index_sound _ Hs' _ _ Hn Hk) as (r & Hr%Hst & Hx). by exists r.
  - intros (r & Hr%Hst & Hx). by apply (Hi' r).
Qed.

(** A database that holds a new event without its index entries: the event is
    invisible, appending it again reports a duplicate and repairs nothing; only
    rebuilding the indexes shows it. *)
Theorem unindexed_event_hidden s s1 R e r : lists s R -> NoDup (event_id <$> (R ++ [r])) -> Forall plain (R ++ [r]) ->
  (forall r', stored s r' -> r' ∈ R) -> readable e -> normalize_event e = Ok r -> adds_event r s s1 -> quiet s1 ->
  stored s1 r /\ (exists s2, append_event_json e s1 = (s2, Ok false) /\ same_trees s1 s2) /\
  forall q, named q -> small (query_start q) ->
    (query q s1).2 = Ok (listing q R) /\
    (query q (rebuild_indexes s1).1).2 = Ok (listing q (R ++ [r])).
Proof.
  intros HR Hids Hp Hall He Hn Hw Hq. pose proof (lists_ok _ _ HR) as Hs.
  assert (Hnew : event_id r ∉ keys TREE_EVENTS s).
  { intros (kv & Ek & Hkv)%list_elem_of_fmap. destruct (events_read _ Hs kv Hkv) as (r' & Hr').
    rewrite fmap_app in Hids. apply NoDup_app in Hids as (_ & Hd & _). apply (Hd (event_id r)); [|by left].
    pose proof Hr' as (E & _). rewrite Ek, E. apply list_elem_of_fmap. exists r'. split; [done|]. apply Hall. by exists kv. }
  pose proof (unknown_id r s s Hs (same_refl s) Hnew) as Hc.
  destruct (store_new_event s s1 e r Hs He Hn Hc Hw) as [Hs1 Hr1].
  assert (Hst1 : forall r', stored s1 r' <-> stored s r' \/ r' = r) by (intros r'; by eapply adds_stored).
  assert (Hidx : forall name, name ∈ index_trees -> keys name s1 = keys name s).
  { intros name Hname. unfold keys. by rewrite (Hw name), decide_False by by apply index_not_events. }
  assert (H1 : lists s1 R).
  { split; [done|done|intros r' Hr'; apply Hst1; left; by apply (lists_stored _ _ HR)|]. intros name k Hname. rewrite Hidx by done.
    by apply (lists_keys _ _ HR). }
  assert (Hnd : NoDup (R ++ [r])) by by eapply NoDup_fmap_1. split_and!; [done| |].
  - destruct (known_quiet e r s1 Hs1 Hq Hn) as (s2 & E & _ & Hst); [|by exists s2].
    apply (writes_keys _ _ _ _ _ _ _ (trees_wf _ Hs _) Hw). by right.
  - intros q Hnq Hsq. split.
    + rewrite fmap_app in Hids. apply NoDup_app in Hids as (Hids & _). apply Forall_app in Hp as [Hp _].
      destruct (query_listing s1 R q H1) as (s' & -> & _); [by eapply NoDup_fmap_1|done..].
    + destruct (rebuild_restores s1 (ok_events _ Hs1) Hq) as (s' & -> & Hev & Hq' & Hs' & Hi'). cbn [fst].
      assert (Hst : forall r', stored s' r' <-> r' ∈ R ++ [r]).
      { intros r'. assert (stored s' r' <-> stored s1 r') as -> by (unfold stored; by rewrite Hev).
        rewrite Hst1, elem_of_app, list_elem_of_singleton. pose proof (lists_stored _ _ HR r'). naive_solver. }
      destruct (query_listing s' (R ++ [r]) q) as (s2 & -> & _); [by apply holds_lists|done..].
Qed.
End Store.

(** ** A sample store *)

Module EventSample.
(** Instants are written in milliseconds. *)
#[local] Instance millis_text : ChronoMillis := {| rfc3339_millis := parse_i64 |}.
#[local] Instance same_digest : Blake3 := {| blake3 bs := take 12 bs |}.

Definition sample_event (id when_ world stage decision : string) : json :=
  JObject [("@type", JString "ubl/event"); ("@ver", JString "1.0.0"); ("@id", JString id); ("@world", JString world);
           ("stage", JString stage); ("when", JString when_); ("chip", JObject [("type", JString "b/c")]);
           ("receipt", JObject [("decision", JString decision)])].
Definition e1 : json := sample_event "evt-1" "2000" "a/acme" "WF" "ALLOW".
Definition e2 : json := sample_event "evt-2" "1000" "a/acme" "CHECK" "DENY".
Definition e3 : json := sample_event "evt-3" "3000" "a/other" "WF" "ALLOW".
Definition lower_event : json := sample_event "evt-4" "4000" "a/acme" "wf" "ALLOW".

(** The bytes of an event are its number. *)
Definition table : list json := [e1; e2; e3; lower_event].
Fixpoint number_in (e : json) (l : list json) : Z :=
  match l with [] => 255 | x :: l' => if json_eqb x e then 0 else 1 + number_in e l' end.
#[local] Instance sample_sled : Sled SledDb EventStoreError := scripted SledError.
#[local] Instance sample_laws : SledLaws sample_sled := scripted_laws SledError.
#[local] Instance numbered : SerdeJson := {|
  from_slice bs := b ← head bs; table !! Z.to_nat (u8 b); to_vec e := [as_u8 (number_in e table)]; value_to_string _ := "" |}.

Definition no_query : EventQuery := mkQuery None None None None None None None None.
Definition of_acme : EventQuery := mkQuery (Some "a/acme") None None None None None None None.
Definition wf_stage (stage : string) : EventQuery := mkQuery None (Some stage) None None None None None None.

(** The check of [plain] on concrete records. *)
Definition plainb (r : EventRecord) : bool :=
  (0 <=? when_ms r) && (when_ms r <=? i64_max) && utf8_valid (as_bytes (event_id r)) && negb (contains_char US (event_id r)) &&
  forallb (fun d => match d.2 with Some v => utf8_valid (as_bytes v) | None => true end) (event_dims (event r)) &&
  match event_stage (event r) with Some t => String.eqb (to_ascii_uppercase t) t | None => true end &&
  match event_decision (event r) with Some t => String.eqb (to_ascii_uppercase t) t | None => true end.
Lemma plainb_plain r : plainb r = true -> plain r.
Proof.
  unfold plainb. intros H. repeat (apply andb_true_iff in H as [H ?]). bool_to_prop. split.
  - done.
  - done.
  - intros tree v Hv. match goal with Hd : forallb _ _ = true |- _ => rewrite forallb_forall in Hd; apply list_elem_of_In, Hd in Hv end. done.
  - intros t Ht. rewrite Ht in *. by apply String.eqb_eq.
  - intros t Ht. rewrite Ht in *. by apply String.eqb_eq.
Qed.
Lemma plains l : forallb plainb l = true -> Forall plain l.
Proof. rewrite forallb_forall. intros H. apply Forall_forall. intros r Hr. by apply plainb_plain, H, list_elem_of_In. Qed.

Lemma sample_readable e : e ∈ table -> readable e.
Proof.
  intros He r Hn. assert (Hf : Forall (fun e => match normalize_event e with
    | Ok r => from_slice (to_vec (event r)) = Some (event r) | Err _ => True end) table) by (repeat constructor).
  rewrite Forall_forall in Hf. specialize (Hf e He). by rewrite Hn in Hf.
Qed.
Lemma all_readable l : Forall (fun e => e ∈ table) l -> Forall readable l.
Proof. intros H. eapply Forall_impl; [exact H|]. apply sample_readable. Qed.

Lemma no_query_named : named no_query.
Proof. done. Qed.

Lemma new_empty : empty_store empty_db.
Proof. split; [done|]. intros n. unfold tree_of. cbn. unfold at_tree. by rewrite lookup_empty. Qed.

Lemma event_query_exact_witness :
  (query of_acme (append_all [e1; e2; e3; e1] empty_db)).2 = Ok [e2; e1].
Proof.
  refine (eq_trans (event_query_exact empty_db [e1; e2; e3; e1] of_acme new_empty _ _ _ _) _).
  - apply all_readable. repeat constructor.
  - apply plains. vm_compute. reflexivity.
  - done.
  - unfold small, i64_max. cbn. lia.
  - vm_compute. reflexivity.
Defined.

(** A database whose fourth call from now fails, before it does anything. *)
Definition failing (s : SledDb) : SledDb := mkSled (sled_trees s) [None; None; None; Some 0%nat].
(** After a crash that loses all but the first event and leaves the index
    entries of the others. *)
Definition recovered (s : SledDb) : SledDb := mkSled (<[TREE_EVENTS := take 1 (tree_of TREE_EVENTS s)]> (sled_trees s)) [].
Lemma failing_blank n : tree_of n (failing empty_db) = [].
Proof. apply (proj2 new_empty n). Qed.
Lemma recovered_tree s n :
  tree_of n (recovered s) = if decide (n = TREE_EVENTS) then take 1 (tree_of TREE_EVENTS s) else tree_of n s.
Proof. apply at_tree_insert. Qed.
Lemma recovered_wf s n : (forall n, btree_wf (tree_of n s)) -> btree_wf (tree_of n (recovered s)).
Proof. intros H. rewrite recovered_tree. case_decide; [|done]. eapply btree_sublist_wf; [apply sublist_take|apply H]. Qed.
Lemma recovered_events s kv : kv ∈ tree_of TREE_EVENTS (recovered s) -> kv ∈ tree_of TREE_EVENTS s.
Proof. rewrite recovered_tree, decide_True by done. apply sublist_in, sublist_take. Qed.
Definition sample_ops : list StoreOp := [OpAppend e1; OpAppend e2; OpQuery of_acme; OpRebuild].
Lemma index_never_dangles_witness :
  let s := fold_left run_op sample_ops (failing empty_db) in
  keys TREE_IDX_TIME s <> [] /\ length (tree_of TREE_EVENTS s) = 2%nat /\ length (tree_of TREE_EVENTS (recovered s)) = 1%nat /\
  exists s', rebuild_indexes (recovered s) = (s', Ok tt) /\ (forall r, stored s' r <-> stored (recovered s) r) /\
    forall name k, name ∈ index_trees -> k ∈ keys name s' <-> exists r, stored (recovered s) r /\ (name, k) ∈ index_keys r.
Proof.
  intros s. split_and!; [vm_compute; discriminate|vm_compute; reflexivity..|].
  assert (Hop : Forall op_readable sample_ops) by (repeat constructor; cbn; apply sample_readable; repeat constructor).
  apply (index_never_dangles (failing empty_db) sample_ops failing_blank Hop).
  - intros n. apply recovered_wf, (trees_wf _ (run_ops_ok sample_ops (failing empty_db) Hop (blank_ok _ failing_blank))).
  - apply recovered_events.
  - reflexivity.
Defined.

(** An append whose first index write fails reports the failure; its event is
    invisible until the indexes are rebuilt. *)
Example failed_append_hides :
  let s1 := (append_event_json e2 (failing (append_all [e1] empty_db))).1 in
  (append_event_json e2 (failing (append_all [e1] empty_db))).2 = Err SledError /\
  (append_event_json e2 s1).2 = Ok false /\
  (query no_query s1).2 = Ok [e1] /\ (query no_query (rebuild_indexes s1).1).2 = Ok [e2; e1].
Proof. vm_compute. done. Qed.

(** An event whose stage is not in capitals matches a query that the stage
    index never answers. *)
Example lowercase_stage_missed :
  matches_query lower_event (wf_stage "WF") = true /\
  (query (wf_stage "WF") (append_all [lower_event] empty_db)).2 = Ok [] /\
  (query (wf_stage "wf") (append_all [lower_event] empty_db)).2 = Ok [lower_event].
Proof. vm_compute. done. Qed.

(** An event without a world is indexed under a default that no query for this
    default matches. *)
Example default_world_unmatched : let e := JObject [("when", JString "1")] in
  (TREE_IDX_WORLD, Some "a/system") ∈ event_dims e /\
  matches_query e (mkQuery (Some "a/system") None None None None None None None) = false.
Proof. split; [left|done]. Qed.

(** A pattern with two stars only asks for its first part. *)
Example two_stars_ask_for_one_part :
  matches_type_glob "ubl/receipt" "ubl/*.doc*" = true /\ matches_type_glob "b/acme" "*" = true /\
  matches_type_glob "b/acme" "ubl/*" = false.
Proof. done. Qed.

(** Instants before 1970 are listed in reverse. *)
Example negative_instants_reversed : String.ltb (pad20 (-1)) (pad20 (-2)) = true.
Proof. vm_compute. done. Qed.
End EventSample.
