(* ===== verification/GateState.v ===== *)
(** * State and utilities of the gate service ([ubl_gate/src/state.rs], [utils.rs])

    Request headers, bearer tokens and API keys, scopes and worlds, the write
    policy, the rate limiter of MCP tokens, and the state that the handlers
    share: the pipeline's state with its chip store, and the two limiters. *)

From S2P Require Import Prelude RustStd RustStr Json Nrf NrfFacts BigNum Unc1 Tlv Rho Vm Gate RateLimit Canon Types Silicon.
From S2P Require Import Idempotency Durable Policy Receipt Knock ChipStore Capability Auth PolicyLoader Envelope KeyRotation.
From S2P Require Import AuditChip TrRegistry EventBus Ledger Advisory PipelineTypes Check Compaction Wasm Adapter Transition.
From S2P Require Import Pipeline RichUrl ErrorResponse.
Local Open Scope string_scope.
Local Open Scope Z_scope.
Local Open Scope list_scope.

(** ** Headers *)

(** The first value of each header by its lower-case name, as text ([to_str]):
    [None] when it has other than visible characters. *)
Definition HeaderMap : Type := gmap string (option string).
Definition header_text (h : HeaderMap) (name : string) : option string := mjoin (h !! name).

Definition non_empty (s : string) : option string := if is_empty s then None else Some s.

Definition extract_api_key (h : HeaderMap) : option string :=
  match header_text h "x-api-key" ≫= fun v => non_empty (str_trim v) with
  | Some k => Some k
  | None =>
      auth ← header_text h "authorization";
      '(scheme, token) ← split_once " "%char auth;
      if eq_ignore_ascii_case scheme "apikey" || eq_ignore_ascii_case scheme "api-key" || eq_ignore_ascii_case scheme "bearer"
      then non_empty (str_trim token)
      else None
  end.

Definition parse_bearer_token (h : HeaderMap) : option string :=
  auth ← header_text h "authorization";
  '(scheme, token) ← split_once " "%char auth;
  if eq_ignore_ascii_case scheme "bearer" then non_empty (str_trim token) else None.

(** [split(',').next()]. *)
Definition first_piece (c : ascii) (s : string) : string := default "" (head (split_on c s)).

Definition actor_hint_from_headers `{Blake3} (headers : option HeaderMap) : ActorHint :=
  match headers with
  | None => mkHint None None
  | Some h =>
      let forwarded := mjoin (or_else (h !! "cf-connecting-ip") (h !! "x-forwarded-for")) in
      let ip := forwarded ≫= fun v => non_empty (str_trim (first_piece "," v)) in
      let prefix (ip : string) :=
        match split_on "." ip with
        | [a; b; c; _] => a +:+ "." +:+ b +:+ "." +:+ c +:+ ".*"
        | _ => ip
        end in
      mkHint (prefix <$> ip)
        ((fun ua => "b3:" +:+ hex_encode (blake3 (as_bytes ua))) <$> header_text h "user-agent")
  end.

(** ** Scopes *)

Definition world_scope_allows (scope_world target_world : string) : bool :=
  let scope := trim_end_matches "/" (str_trim scope_world) in
  let target := trim_end_matches "/" (str_trim target_world) in
  if is_empty scope || is_empty target then false
  else if String.eqb scope "*" then true
  else if String.eqb target scope then true
  else match strip_prefix scope target with Some rest => starts_with "/" rest | None => false end.

Definition scope_allows_any (scope required : list string) : bool :=
  existsb (fun s => String.eqb s "*") scope
  || existsb (fun needle => existsb (fun s => String.eqb s needle) scope) required.

(** ** Who may write *)

Record WriteAccessPolicy : Type := mkPolicy {
  auth_required : bool; api_keys : list string; public_worlds : list string; public_types : list string }.

Definition allows_public_unauthenticated (w : WriteAccessPolicy) (chip_type world : string) : bool :=
  if is_onboarding_type chip_type then true
  else existsb (fun x => String.eqb x world) (public_worlds w) && existsb (fun t => String.eqb t chip_type) (public_types w).

Definition matches_api_key (w : WriteAccessPolicy) (headers : option HeaderMap) : bool :=
  match headers ≫= extract_api_key with
  | Some presented => existsb (fun k => String.eqb k presented) (api_keys w)
  | None => false
  end.

Definition authorize_write (w : WriteAccessPolicy) (headers : option HeaderMap) (chip_type world : string)
    : result (ErrorCode * string) unit :=
  if negb (auth_required w) && bool_decide (api_keys w = []) then Ok tt
  else if matches_api_key w headers then Ok tt
  else if allows_public_unauthenticated w chip_type world then Ok tt
  else Err (ECUnauthorized, "write auth required for @type='" +:+ chip_type +:+ "' @world='" +:+ world +:+
                            "'; provide X-API-Key or use allowed public onboarding lane").

Record McpWsAuth : Type := mkAuth {
  token_id : string; token_cid : string; auth_world : string; auth_scope : list string; auth_subject : option string }.

(** ** The limiter of MCP tokens *)

(** Instants in nanoseconds, oldest first. *)
Record McpTokenRateLimiter : Type := mkMcpLimiter { mcp_per_minute : Z; buckets : gmap string (list Z) }.
Definition mcp_limiter_new (per_minute : Z) : McpTokenRateLimiter := mkMcpLimiter (Z.max per_minute 1) ∅.
Definition MCP_WINDOW : Z := 60 * SECOND.

(** The [while] loop over the front of a bucket. *)
Fixpoint drop_expired (now : Z) (bucket : list Z) : list Z :=
  match bucket with
  | ts :: rest => if MCP_WINDOW <=? instant_sub now ts then drop_expired now rest else bucket
  | [] => []
  end.

(** The seconds after which to try again when the token is limited. *)
Definition mcp_check (l : McpTokenRateLimiter) (now : Z) (token : string) : option Z * McpTokenRateLimiter :=
  let bucket := drop_expired now (default [] (buckets l !! token)) in
  if mcp_per_minute l <=? Z.of_nat (length bucket) then
    (Some (match bucket with
           | oldest :: _ => u64_saturating_add (Z.max 0 (MCP_WINDOW - instant_sub now oldest) / SECOND) 1
           | [] => 1
           end), mkMcpLimiter (mcp_per_minute l) (<[token := bucket]> (buckets l)))
  else (None, mkMcpLimiter (mcp_per_minute l) (<[token := bucket ++ [now]]> (buckets l))).

(** ** The service *)

(** What stays fixed: [has_durable] when the service opened the database that
    the pipeline commits to; [llm] is the language model, when it is enabled, with
    the text it answers to a context; the tools and chip types are the
    manifest's. *)
Record AppConfig : Type := mkApp {
  write_access_policy : WriteAccessPolicy;
  has_durable : bool;
  public_receipt_origin : string;
  public_receipt_path : string;
  genesis_pubkey_sha256 : option string;
  release_commit : option string;
  gate_binary_sha256 : option string;
  llm : option (json -> option string);
  manifest_tools : json;
  manifest_types : list (string * string * option string) }.

(** More readings of the environment: microseconds of the wall clock, the
    monotonic clock and the random bytes of error identifiers. *)
Class GateReadings : Type := { now_micros : nat -> Z; now_mono : nat -> Z; error_bytes : nat -> bytes }.
(** The text of [chrono]'s error for a text that is no instant, and the texts
    of errors that only the service prints. *)
Class GateTexts : Type := {
  instant_error : string -> string; receipt_error : json -> string; vm_error : ExecError -> string;
  tlv_error : DecodeError -> string; hex_error : string -> string; durable_error : DurableError -> string;
  json_error : string -> string }.

Record GateState (B L : Type) : Type := mkGateState {
  g_pipe : PState B L Fs; g_canon : option RateLimiter; g_mcp : McpTokenRateLimiter }.
Arguments mkGateState {B L}.
Arguments g_pipe {B L}.
Arguments g_canon {B L}.
Arguments g_mcp {B L}.

(** A handler answers with a status, headers and a document.  It stops
    otherwise only by a panic below it; [Unwired] is a state without the chip
    store or the advisory engine that the service is built with. *)
Inductive gate_stop : Type := GatePanic | Unwired.
Definition Response : Type := Z * list (string * string) * json.
Definition status_of (r : Response) : Z := r.1.1.
Definition payload_of (r : Response) : json := r.2.
(** [StatusCode::is_success]. *)
Definition is_success (status : Z) : bool := (200 <=? status) && (status <? 300).

Section Service.
Context {B L : Type} {R : Readings}.
Abbreviation State := (GateState B L).
Abbreviation gate := (M State gate_stop).

Definition set_pipe (x : PState B L Fs) (s : State) : State := mkGateState x (g_canon s) (g_mcp s).
Definition set_canon (x : RateLimiter) (s : State) : State := mkGateState (g_pipe s) (Some x) (g_mcp s).
Definition set_mcp (x : McpTokenRateLimiter) (s : State) : State := mkGateState (g_pipe s) (g_canon s) x.

Definition gread {A} (f : nat -> A) : gate A := fun s => (set_pipe (next_tick (g_pipe s)) s, Ok (f (tick (g_pipe s)))).

(** A call of the pipeline. *)
Definition run_pipe {A} (m : M (PState B L Fs) PipelineError A) : gate (result PipelineError A) := fun s =>
  match m (g_pipe s) with
  | (ps, Err PipelinePanic) => (set_pipe ps s, Err GatePanic)
  | (ps, r) => (set_pipe ps s, Ok r)
  end.

(** [state.chip_store], [state.advisory_engine] and [state.durable_store]. *)
Definition gate_store : gate (ChipStore.ChipStore B) := fun s =>
  match chip_store (g_pipe s) with Some st => (s, Ok st) | None => (s, Err Unwired) end.
Definition gate_engine : gate AdvisoryEngine := fun s =>
  match advisory_engine (g_pipe s) with Some e => (s, Ok e) | None => (s, Err Unwired) end.
Definition gate_durable (app : AppConfig) : gate (option Db) :=
  asks (fun s => if has_durable app then durable_store (g_pipe s) else None).
End Service.

(** ** Error documents *)

Definition gate_error (id_prefix : string) (micros : Z) (c : ErrorCode) (message : string) (details : json) : UblError :=
  mkUblError "ubl/error" (id_prefix +:+ i_to_string micros) "1.0" "a/system/t/errors" c message
    ("https://docs.ubl.agency/errors#" +:+ code_text c) (Some details).
Definition too_many_requests_error (micros : Z) : string -> json -> UblError := gate_error "err-rate-" micros ECTooManyRequests.
Definition tamper_detected_error (micros : Z) : string -> json -> UblError := gate_error "err-tamper-" micros ECTamperDetected.
Definition write_access_error (micros : Z) (c : ErrorCode) : string -> json -> UblError := gate_error "err-write-" micros c.

(** [json!({"@type": "ubl/error", "code": .., "message": ..})]. *)
Definition plain_error (c message : string) : json :=
  JObject [("@type", JString "ubl/error"); ("code", JString c); ("message", JString message)].

Definition knock_reason_code `{StrDebug} `{ForeignTexts} (e : KnockError) : string := first_piece ":" (knock_display e).

Definition link_to_json (l : PublicReceiptLink) : json :=
  JObject [("model", JString (model l)); ("origin", JString (origin l)); ("path", JString (path l)); ("url", JString (url l));
           ("token", JString (token l)); ("payload", token_to_json (payload l))].
Definition json_link (l : option PublicReceiptLink) : json := match l with Some l => link_to_json l | None => JNull end.

(** A failure to build the token or the link is logged and dropped. *)
Definition build_public_receipt_link `{SerdeJson} `{Base64} (app : AppConfig) (receipt_json : json) : option PublicReceiptLink :=
  match build_public_receipt_token_v1 receipt_json (genesis_pubkey_sha256 app) (release_commit app) (gate_binary_sha256 app) with
  | Err _ => None
  | Ok tok =>
      match build_public_receipt_link_v1 (public_receipt_origin app) (public_receipt_path app) tok with
      | Ok l => Some l
      | Err _ => None
      end
  end.
