(* ===== verification/GateSubmit.v ===== *)
(** * Submitting chips to the gate ([ubl_gate/src/chip.rs], [utils.rs])

    From the bytes of a request to the response: admission, the bearer session
    or the write policy, the limiter of canonical bodies, the pipeline, and the
    denial receipts of rejected requests. *)

From S2P Require Import Prelude RustStd RustStr Json Nrf NrfFacts BigNum Unc1 Tlv Rho Vm Gate RateLimit Canon Types Silicon.
From S2P Require Import Idempotency Durable Policy Receipt Knock ChipStore Capability Auth PolicyLoader Envelope KeyRotation.
From S2P Require Import AuditChip TrRegistry EventBus Ledger Advisory PipelineTypes Check Compaction Wasm Adapter Transition.
From S2P Require Import Pipeline RichUrl ErrorResponse GateState.
Local Open Scope string_scope.
Local Open Scope Z_scope.
Local Open Scope list_scope.

Section Gate.
Context {U : Unicode} {CH : Chrono} {HB3 : Blake3} {KB3 : Blake3Keyed} {ED : Ed25519} {EK : Ed25519Keys} {B64 : Base64}
  {B64D : Base64Decode} {B58 : Base58} {NS : NumSerde} {CK : Clock} {SJ : SerdeJson} {BN : BigNum} {SC : StrCase}
  {SU : StrUpper} {SD : StrDebug} {CI : ChronoInstant} {CF : ChronoFormat} {CD : ChronoDate} {HI : HashIter} {BT : BigintText}
  {HX : HexDecode} {B64S : Base64Std} {SH : Sha256} {W : Wasmtime} {PS : PolicySerde} {RS : ReceiptSerde} {R : Readings}
  {FT : ForeignTexts} {GR : GateReadings} {GT : GateTexts}.
Context {B L : Type} {BE : ChipStoreBackend B} {LW : LedgerWriter L}.
Context (p : UblPipeline) (rfc3339 : Z -> string) (app : AppConfig).

Abbreviation State := (GateState B L).
Abbreviation gate := (M State gate_stop).

(** ** Sessions *)

(** A query of which only the total counts; a failing store counts as none. *)
Definition revoked_by (store : ChipStore.ChipStore B) (target : string) : bool :=
  match store_query store (mkQuery (Some "ubl/revoke") ["target_cid:" +:+ target] None None None (Some 1%nat) None) with
  | Ok r => (0 <? total_count r)%nat
  | Err _ => false
  end.

Definition has_id (id : string) (chip : StoredChip) : bool :=
  match get "@id" (chip_data chip) ≫= as_str with Some i => String.eqb i id | None => false end.

(** The DID of the token's user; a missing user or a failing store gives none. *)
Definition session_subject (store : ChipStore.ChipStore B) (user_cid : string) : option string :=
  match get_chip user_cid (backend store) with
  | Ok (Some user_chip) => only_did (get "did" (chip_data user_chip) ≫= as_str)
  | _ => None
  end.

(** The session of the bearer token [id] at an instant. *)
Definition session_of (store : ChipStore.ChipStore B) (now : Z) (id : string) : result string McpWsAuth :=
  found ← map_err (fun e => cause_text (Within "token query failed: " (OfStore e)))
            (store_query store (mkQuery (Some "ubl/token") ["id:" +:+ id] None None None (Some 10%nat) None));
  token_chip ← ok_or (List.find (has_id id) (qr_chips found)) "token not found";
  session ← map_err (fun e => cause_text (Within "invalid token chip: " (OfAuth e)))
              (token_from_chip_body (chip_data token_chip));
  expires ← ok_or (rfc3339_instant (t_expires_at session)) ("invalid token expiry: " +:+ instant_error (t_expires_at session));
  if expires <=? now then Err "token expired"
  else if revoked_by store (cid_as_str (cid token_chip)) then Err "token revoked"
  else
    world ← ok_or ((get "@world" (chip_data token_chip) ≫= as_str) ≫= fun w => non_empty (str_trim w)) "token missing @world";
    if revoked_by store (t_user_cid session) then Err "token user revoked"
    else Ok (mkAuth id (cid_as_str (cid token_chip)) world (t_scope session) (session_subject store (t_user_cid session))).

Definition resolve_session_bearer (headers : HeaderMap) : gate (result string (option McpWsAuth)) :=
  match parse_bearer_token headers with
  | None => mret (Ok None)
  | Some id =>
      store ← gate_store;
      now ← gread now_instant;
      mret (Some <$> session_of store now id)
  end.

(** ** Denials *)

Definition error_response (e : PipelineError) : gate Response :=
  rnd ← gread error_bytes;
  match from_pipeline_error rnd e with
  | Some u => mret (http_status (code u), [], error_to_json u)
  | None => throw GatePanic
  end.

(** The members that both kinds of denial end with. *)
Definition denial_members (r : PipelineResult) : list (string * json) :=
  let receipt_json := receipt_to_json (res_receipt r) in
  let link := build_public_receipt_link app receipt_json in
  [("receipt_cid", JString (cid_as_str (Receipt.receipt_cid (res_receipt r)))); ("receipt_url", json_opt (url <$> link));
   ("receipt_public", json_link link); ("chain", json_strings (res_chain r)); ("receipt", receipt_json);
   ("subject_did", json_opt (Receipt.subject_did (res_receipt r)));
   ("knock_cid", json_opt (cid_as_str <$> Receipt.knock_cid (res_receipt r)));
   ("decision", JString "Deny"); ("status", JString "denied")].

Definition deny_write_with_receipt (knock reason_code reason_msg : string) (err_code : ErrorCode) (value : json)
    (subject_did : string) : gate Response :=
  micros ← gread now_micros;
  let text k := default "unknown" (get k value ≫= as_str) in
  let details :=
    JObject [("@type", JString (text "@type")); ("@world", JString (text "@world")); ("knock_cid", JString knock);
             ("auth_required", JBool (auth_required (write_access_policy app)));
             ("api_keys_configured", JBool (negb (bool_decide (api_keys (write_access_policy app) = []))))] in
  let ubl_err := write_access_error micros err_code reason_msg details in
  r ← run_pipe (process_knock_rejection p knock reason_code reason_msg (Some subject_did));
  match r with
  | Ok result =>
      mret (http_status err_code, [],
            JObject ([("@type", JString "ubl/error"); ("code", JString (code_text err_code)); ("message", JString reason_msg)]
                     ++ denial_members result ++ member_opt "details" id (ErrorResponse.details ubl_err)))
  | Err e => error_response e
  end.

Definition reject_knock (knock : string) (hint : ActorHint) (e : KnockError) : gate Response :=
  let reason_msg := knock_display e in
  r ← run_pipe (process_knock_rejection p knock (knock_reason_code e) reason_msg (Some (resolve_subject_did None (Some hint))));
  match r with
  | Ok result =>
      mret (422, [], JObject ([("@type", JString "ubl/error"); ("code", JString "KNOCK_REJECTED"); ("message", JString reason_msg)]
                              ++ denial_members result))
  | Err e => error_response e
  end.

(** ** Authorization *)

(** The response that ends the request, or the session's subject. *)
Definition authorize_submission (headers : option HeaderMap) (hint : ActorHint) (knock : string) (value : json)
    : gate (Response + option string) :=
  let chip_type := default "" (get "@type" value ≫= as_str) in
  let world := default "" (get "@world" value ≫= as_str) in
  let fallback := resolve_subject_did (Some value) (Some hint) in
  let deny (c : ErrorCode) (msg subject : string) : gate (Response + option string) :=
    r ← deny_write_with_receipt knock (code_text c) msg c value subject; mret (inl r) in
  let by_policy : gate (Response + option string) :=
    match authorize_write (write_access_policy app) headers chip_type world with
    | Ok _ => mret (inr None)
    | Err (c, msg) => deny c msg fallback
    end in
  match headers with
  | Some h =>
      session ← resolve_session_bearer h;
      match session with
      | Ok (Some auth) =>
          let subject := default fallback (auth_subject auth) in
          if scope_allows_any (auth_scope auth) ["write"; "chip:write"; "mcp:write"] then
            if world_scope_allows (auth_world auth) world then mret (inr (auth_subject auth))
            else deny ECPolicyDenied ("token world '" +:+ auth_world auth +:+ "' does not authorize target world '" +:+ world
                                      +:+ "'") subject
          else deny ECPolicyDenied "token scope does not allow write" subject
      | Ok None => by_policy
      | Err msg => deny ECUnauthorized msg fallback
      end
  | None => by_policy
  end.

(** ** The limiter of canonical bodies *)

Definition limit_canonical (value : json) : gate (option Response) :=
  limiter ← asks g_canon;
  match limiter with
  | None => mret None
  | Some l =>
      now ← gread now_mono;
      match check_body l now value with
      | Err _ => throw GatePanic
      | Ok (verdict, l') =>
          _ ← modify (set_canon l');
          match verdict with
          | Some (fp, Limited _ _ retry_after) =>
              micros ← gread now_micros;
              let retry_secs := u64_saturating_add (retry_after / SECOND) 1 in
              let err := too_many_requests_error micros ("Rate limit exceeded for canonical payload " +:+ rate_key fp)
                (JObject [("limited_by", JString "canon_fingerprint"); ("fingerprint", JString (fp_hash fp));
                          ("at_type", JString (fp_type fp)); ("at_ver", JString (fp_ver fp)); ("at_world", JString (fp_world fp));
                          ("retry_after_seconds", json_i64 retry_secs)]) in
              mret (Some (429, [("retry-after", u_to_string retry_secs)], error_to_json err))
          | _ => mret None
          end
      end
  end.

(** ** Submission *)

Definition success_payload (r : PipelineResult) : json :=
  let receipt_json := receipt_to_json (res_receipt r) in
  let link := build_public_receipt_link app receipt_json in
  JObject [("@type", JString "ubl/response"); ("status", JString "success"); ("decision", JString (decision_debug (res_decision r)));
           ("receipt_cid", JString (cid_as_str (Receipt.receipt_cid (res_receipt r)))); ("receipt_url", json_opt (url <$> link));
           ("receipt_public", json_link link); ("chain", json_strings (res_chain r));
           ("subject_did", json_opt (Receipt.subject_did (res_receipt r)));
           ("knock_cid", json_opt (cid_as_str <$> Receipt.knock_cid (res_receipt r)));
           ("receipt", receipt_json); ("replayed", JBool (replayed r))].

(** The last part: the chip goes through the pipeline under a subject. *)
Definition process_admitted (value : json) (subject_did knock : string) : gate Response :=
  let request := mkRequest (default "" (get "@type" value ≫= as_str)) value [] (Some "create") in
  r ← run_pipe (process_chip_with_context p rfc3339 request (mkAuthorship (Some subject_did) (Some knock)));
  match r with
  | Ok result => mret (200, if replayed result then [("x-ubl-replay", "true")] else [], success_payload result)
  | Err e => error_response e
  end.

Definition submit_chip_bytes (headers : option HeaderMap) (trusted_write : bool) (body : bytes) : gate Response :=
  let knock_cid := knock_cid_from_bytes body in
  let hint := actor_hint_from_headers headers in
  match knock (pl_env p) body with
  | Err e => reject_knock knock_cid hint e
  | Ok value =>
      verdict ← if trusted_write : bool then mret (inr None) else authorize_submission headers hint knock_cid value;
      match verdict with
      | inl response => mret response
      | inr subject =>
          limited ← limit_canonical value;
          match limited with
          | Some response => mret response
          | None => process_admitted value (default (resolve_subject_did (Some value) (Some hint)) subject) knock_cid
          end
      end
  end.

Definition create_chip (headers : HeaderMap) (body : bytes) : gate Response := submit_chip_bytes (Some headers) false body.
End Gate.
