(* ===== verification/GateRead.v ===== *)
(** * Retrieval and verification handlers of the gate ([chip.rs], [receipt.rs])

    Chips and receipts by CID with entity tags, their verification, the trace
    and the public URL of a receipt, advisories, and the narration of a receipt,
    which can be stored. *)

From S2P Require Import Prelude RustStd RustStr Json Nrf NrfFacts BigNum Unc1 Tlv Rho Vm Gate RateLimit Canon Types Silicon.
From S2P Require Import Idempotency Durable Policy Receipt Knock ChipStore Capability Auth PolicyLoader Envelope KeyRotation.
From S2P Require Import AuditChip TrRegistry EventBus Ledger Advisory PipelineTypes Check Compaction Wasm Adapter Transition.
From S2P Require Import Pipeline RichUrl ErrorResponse GateState.
Local Open Scope string_scope.
Local Open Scope Z_scope.
Local Open Scope list_scope.

(** ** Entity tags *)

Definition dquote : ascii := Ascii.ascii_of_nat 34.
Definition quoted (s : string) : string := String dquote (s +:+ String dquote EmptyString).

Fixpoint trim_start_char (c : ascii) (s : string) : string :=
  match s with
  | String a s' => if Ascii.eqb a c then trim_start_char c s' else s
  | EmptyString => EmptyString
  end.
(** [trim_matches(c)]. *)
Definition trim_char (c : ascii) (s : string) : string := trim_end_matches c (trim_start_char c s).

Definition etag_matches (cid : string) (headers : HeaderMap) : bool :=
  match header_text headers "if-none-match" with
  | Some inm => String.eqb inm (quoted cid) || String.eqb (trim_char dquote inm) cid
  | None => false
  end.

Definition not_modified (cid : string) : Response := (304, [("etag", quoted cid)], JNull).
Definition immutable_headers (cid : string) : list (string * string) :=
  [("etag", quoted cid); ("cache-control", "public, max-age=31536000, immutable")].
Definition invalid_cid : Response := (400, [], plain_error "INVALID_CID" "CID must start with b3:").
Definition not_found (what cid : string) : Response :=
  (404, [], plain_error "NOT_FOUND" (what +:+ " " +:+ cid +:+ " not found")).
Definition internal_error (message : string) : Response := (500, [], plain_error "INTERNAL_ERROR" message).
Definition store_unavailable : Response :=
  (503, [], plain_error "UNAVAILABLE" "Receipt store unavailable: enable SQLite durable store").

Section Gate.
Context {U : Unicode} {HB3 : Blake3} {KB3 : Blake3Keyed} {ED : Ed25519} {EK : Ed25519Keys} {B64 : Base64}
  {B64D : Base64Decode} {B58 : Base58} {SJ : SerdeJson} {SD : StrDebug} {CD : ChronoDate} {HI : HashIter}
  {HX : HexDecode} {RS : ReceiptSerde} {R : Readings} {FT : ForeignTexts} {GR : GateReadings} {GT : GateTexts}.
Context {B L : Type} {BE : ChipStoreBackend B}.
Context (p : UblPipeline) (app : AppConfig).

Abbreviation State := (GateState B L).
Abbreviation gate := (M State gate_stop).

(** ** Verification of stored receipts *)

(** The chain is checked under the secrets of the environment. *)
Definition verify_receipt_auth_chain (receipt_cid : string) (receipt_json : json) : gate (result UblError unit) :=
  micros ← gread now_micros;
  let tampered (message reason : string) :=
    Err (tamper_detected_error micros message
           (JObject [("receipt_cid", JString receipt_cid); ("reason", JString reason)])) in
  match receipt_from_json receipt_json with
  | None => mret (tampered ("receipt " +:+ receipt_cid +:+ " parse failed: " +:+ receipt_error receipt_json) "receipt_parse_failed")
  | Some receipt =>
      if negb (verify_auth_chain (pl_env p) receipt)
      then mret (tampered ("receipt " +:+ receipt_cid +:+ " auth chain broken") "auth_chain_broken")
      else mret (Ok tt)
  end.

Definition error_document (e : UblError) : Response := (http_status (code e), [], error_to_json e).

(** What the database has under a receipt CID, verified; or the response that
    ends the request. *)
Definition fetch_verified (db : Db) (cid : string) : gate (Response + json) :=
  fails ← gread db_fails;
  match Durable.get_receipt fails db cid with
  | Err e => mret (inl (internal_error ("Receipt fetch failed: " +:+ durable_error e)))
  | Ok None => mret (inl (not_found "Receipt" cid))
  | Ok (Some receipt) =>
      ok ← verify_receipt_auth_chain cid receipt;
      match ok with Err e => mret (inl (error_document e)) | Ok _ => mret (inr receipt) end
  end.

Definition get_receipt (cid : string) (headers : HeaderMap) : gate Response :=
  if negb (starts_with "b3:" cid) then mret invalid_cid
  else if etag_matches cid headers then mret (not_modified cid)
  else
    durable ← gate_durable app;
    match durable with
    | None => mret store_unavailable
    | Some db =>
        r ← fetch_verified db cid;
        match r with inl response => mret response | inr receipt => mret (200, immutable_headers cid, receipt) end
    end.

Definition get_receipt_public_url (cid : string) : gate Response :=
  if negb (starts_with "b3:" cid) then mret invalid_cid
  else
    durable ← gate_durable app;
    match durable with
    | None => mret store_unavailable
    | Some db =>
        r ← fetch_verified db cid;
        match r with
        | inl response => mret response
        | inr receipt =>
            match build_public_receipt_link app receipt with
            | Some link =>
                mret (200, [], JObject [("@type", JString "ubl/receipt.url"); ("receipt_cid", JString cid);
                                        ("receipt_url", JString (url link)); ("receipt_public", link_to_json link)])
            | None => mret (internal_error "failed to derive canonical public receipt URL")
            end
        end
    end.

(** ** Chips *)

(** A lookup in the chip store that must find something. *)
Definition find_chip (what cid : string) (found : result ChipStoreError (option StoredChip)) : Response + StoredChip :=
  match found with
  | Ok (Some chip) => inr chip
  | Ok None => inl (not_found what cid)
  | Err e => inl (internal_error (cause_text (OfStore e)))
  end.

Definition json_cid (c : TypedCid) : json := JString (cid_as_str c).

Definition get_chip_by_cid (cid : string) (headers : HeaderMap) : gate Response :=
  if negb (starts_with "b3:" cid) then mret invalid_cid
  else if etag_matches cid headers then mret (not_modified cid)
  else
    store ← gate_store;
    match find_chip "Chip" cid (get_chip cid (backend store)) with
    | inl response => mret response
    | inr chip =>
        mret (200, immutable_headers (cid_as_str (ChipStore.cid chip)),
              JObject [("@type", JString "ubl/chip"); ("cid", json_cid (ChipStore.cid chip)); ("chip_type", JString (chip_type chip));
                       ("chip_data", chip_data chip); ("receipt_cid", json_cid (ChipStore.receipt_cid chip));
                       ("created_at", JString (created_at chip)); ("tags", json_strings (tags chip))])
    end.

Definition computed_cid (data : json) : option string :=
  match to_nrf1_bytes data with Ok bs => Some (compute_cid bs) | Err _ => None end.

Definition verify_chip (cid : string) : gate Response :=
  if negb (starts_with "b3:" cid) then mret invalid_cid
  else
    store ← gate_store;
    match find_chip "Chip" cid (get_chip cid (backend store)) with
    | inl response => mret response
    | inr chip =>
        let computed := default "" (computed_cid (chip_data chip)) in
        let encoding_ok := bool_decide (is_Some (computed_cid (chip_data chip))) in
        let cid_matches := encoding_ok && String.eqb computed cid in
        let receipt_cid := cid_as_str (ChipStore.receipt_cid chip) in
        let answer (receipt_exists : bool) (verified : option bool) : Response :=
          (200, [], JObject [("@type", JString "ubl/chip.verification"); ("cid", JString cid); ("verified", JBool cid_matches);
                             ("cid_matches", JBool cid_matches); ("computed_cid", JString computed); ("encoding_ok", JBool encoding_ok);
                             ("chip_type", JString (chip_type chip)); ("receipt_cid", JString receipt_cid);
                             ("receipt_exists", JBool receipt_exists);
                             ("auth_chain_verified", match verified with Some b => JBool b | None => JNull end);
                             ("created_at", JString (created_at chip))]) in
        if is_empty receipt_cid then mret (answer false None)
        else
          durable ← gate_durable app;
          match durable with
          | Some db =>
              fails ← gread db_fails;
              match Durable.get_receipt fails db receipt_cid with
              | Ok (Some receipt_json) =>
                  ok ← verify_receipt_auth_chain receipt_cid receipt_json;
                  match ok with Err e => mret (error_document e) | Ok _ => mret (answer true (Some true)) end
              | Ok None => mret (answer false None)
              | Err e => mret (internal_error ("Receipt fetch failed: " +:+ durable_error e))
              end
          | None =>
              let exists_ := match get_chip_by_receipt_cid receipt_cid (backend store) with Ok (Some _) => true | _ => false end in
              mret (answer exists_ None)
          end
    end.

(** ** The trace of a receipt *)

Definition get_receipt_trace (cid : string) : gate Response :=
  durable ← gate_durable app;
  checked ← match durable with
            | Some db => r ← fetch_verified db cid; mret (match r with inl response => Some response | inr _ => None end)
            | None => mret None
            end;
  match checked with
  | Some response => mret response
  | None =>
      store ← gate_store;
      match find_chip "Receipt" cid (get_chip_by_receipt_cid cid (backend store)) with
      | inl response => mret response
      | inr chip =>
          let m := execution_metadata chip in
          mret (200, [], JObject [("@type", JString "ubl/trace"); ("receipt_cid", JString cid); ("chip_cid", json_cid (ChipStore.cid chip));
                                  ("chip_type", JString (chip_type chip));
                                  ("auth_chain_verified", JBool (bool_decide (is_Some durable)));
                                  ("execution_metadata",
                                    JObject [("runtime_version", JString (runtime_version m));
                                             ("execution_time_ms", json_i64 (execution_time_ms m));
                                             ("fuel_consumed", json_i64 (fuel_consumed m));
                                             ("policies_applied", json_strings (policies_applied m));
                                             ("reproducible", JBool (reproducible m))])])
      end
  end.

(** ** Advisories *)

Definition advisory_row (c : StoredChip) : json :=
  let text k := default (JString "unknown") (get k (chip_data c)) in
  JObject [("cid", json_cid (ChipStore.cid c)); ("action", text "action"); ("hook", text "hook");
           ("confidence", default (JNumber (PosInt 0)) (get "confidence" (chip_data c))); ("model", text "model");
           ("input_cid", default (JString "") (get "input_cid" (chip_data c))); ("created_at", JString (created_at c))].

Definition get_passport_advisories (passport_cid : string) : gate Response :=
  store ← gate_store;
  match store_query store (mkQuery (Some "ubl/advisory") ["passport_cid:" +:+ passport_cid] None None None (Some 100%nat) None) with
  | Ok r =>
      let advisories := advisory_row <$> qr_chips r in
      mret (200, [], JObject [("@type", JString "ubl/advisory.list"); ("passport_cid", JString passport_cid);
                              ("count", JNumber (PosInt (Z.of_nat (length advisories)))); ("advisories", JArray advisories)])
  | Err e => mret (internal_error (cause_text (OfStore e)))
  end.

Definition hook_debug (h : AdvisoryHook) : string :=
  match h with PostCheck => "PostCheck" | PostWf => "PostWf" | OnDemand => "OnDemand" end.
(** [AdvisoryError]'s [Display]. *)
Definition advisory_error_text (e : AdvisoryError) : string :=
  match e with AdvMissingField f => "Advisory missing field: " +:+ f | InvalidPassport m => "Invalid passport: " +:+ m end.

(** [get_chip(c).map(|r| r.is_some()).unwrap_or(false)]. *)
Definition chip_known (store : ChipStore.ChipStore B) (c : string) : bool :=
  match get_chip c (backend store) with Ok (Some _) => true | _ => false end.

Definition verify_advisory (cid : string) : gate Response :=
  store ← gate_store;
  match find_chip "Advisory" cid (get_chip cid (backend store)) with
  | inl response => mret response
  | inr chip =>
      if negb (String.eqb (chip_type chip) "ubl/advisory")
      then mret (400, [], plain_error "INVALID_TYPE" "Chip is not an advisory")
      else
        match advisory_from_chip_body (chip_data chip) with
        | Err e => mret (422, [], plain_error "INVALID_ADVISORY" (advisory_error_text e))
        | Ok advisory =>
            match to_nrf1_bytes (chip_data chip) with
            | Err e => mret (500, [], plain_error "ENCODING_ERROR" (cause_text (OfNrf e)))
            | Ok nrf_bytes =>
                let computed := compute_cid nrf_bytes in
                let cid_valid := String.eqb computed cid in
                mret (200, [], JObject
                  [("@type", JString "ubl/advisory.verification"); ("advisory_cid", JString cid); ("verified", JBool cid_valid);
                   ("cid_valid", JBool cid_valid); ("computed_cid", JString computed);
                   ("passport_cid", JString (adv_passport_cid advisory));
                   ("passport_exists", JBool (chip_known store (adv_passport_cid advisory)));
                   ("input_cid", JString (adv_input_cid advisory)); ("input_exists", JBool (chip_known store (adv_input_cid advisory)));
                   ("action", JString (adv_action advisory)); ("model", JString (adv_model advisory));
                   ("hook", JString (hook_debug (adv_hook advisory))); ("confidence", json_i64 (adv_confidence advisory))])
            end
        end
  end.

(** ** Narration *)

Definition world_of (chip : StoredChip) : string := default "a/system/t/unknown" (get "@world" (chip_data chip) ≫= as_str).
Definition policy_count (chip : StoredChip) : Z := Z.of_nat (length (policies_applied (execution_metadata chip))).

Definition base_summary (chip : StoredChip) : string :=
  let m := execution_metadata chip in
  chip_type chip +:+ " processed as allow in " +:+ i_to_string (execution_time_ms m) +:+ "ms (fuel " +:+
  u_to_string (fuel_consumed m) +:+ ", policies " +:+ u_to_string (policy_count chip) +:+ ").".

Definition llm_context (chip : StoredChip) : json :=
  let m := execution_metadata chip in
  JObject [("chip_type", JString (chip_type chip)); ("chip_body", chip_data chip); ("decision", JString "allow");
           ("latency_ms", json_i64 (execution_time_ms m)); ("fuel_consumed", json_i64 (fuel_consumed m));
           ("policy_count", json_i64 (policy_count chip)); ("world", JString (world_of chip))].

Definition narration_summary (chip : StoredChip) : string :=
  match llm app with Some ask => default (base_summary chip) (ask (llm_context chip)) | None => base_summary chip end.

Definition narration_of (cid : string) (chip : StoredChip) (summary now : string) : json :=
  let m := execution_metadata chip in
  JObject [("@type", JString "ubl/advisory.narration"); ("receipt_cid", JString cid); ("chip_cid", json_cid (ChipStore.cid chip));
           ("chip_type", JString (chip_type chip)); ("decision", JString "allow"); ("world", JString (world_of chip));
           ("policy_count", json_i64 (policy_count chip)); ("latency_ms", json_i64 (execution_time_ms m));
           ("fuel_consumed", json_i64 (fuel_consumed m)); ("summary", JString summary); ("generated_at", JString now)].

(** The narration as an advisory chip, stored under the receipt's own CID. *)
Definition persist_narration (cid : string) (chip : StoredChip) (narration : json) : gate (result ChipStoreError string) :=
  engine ← gate_engine;
  let adv := mkAdvisory (eng_passport_cid engine) "narrate" cid narration 90 (eng_model engine) OnDemand in
  let '(body, engine') := advisory_to_chip_body engine adv in
  _ ← modify (fun s => set_pipe (PipelineTypes.set_engine engine' (g_pipe s)) s);
  let metadata := mkMeta "advisory/on-demand" 0 0 [] (executor_did (execution_metadata chip)) true in
  r ← run_pipe (store_chip body cid metadata);
  match r with Ok r => mret r | Err _ => throw GatePanic end.

Definition narrate_receipt (cid : string) (persist : option bool) : gate Response :=
  store ← gate_store;
  match find_chip "Receipt" cid (get_chip_by_receipt_cid cid (backend store)) with
  | inl response => mret response
  | inr chip =>
      now ← gread now_text;
      let narration := narration_of cid chip (narration_summary chip) now in
      let answer (persisted : option string) : Response :=
        (200, [], JObject [("@type", JString "ubl/advisory.narration.response"); ("receipt_cid", JString cid);
                           ("narration", narration); ("persisted_advisory_cid", json_opt persisted)]) in
      if default false persist then
        r ← persist_narration cid chip narration;
        match r with
        | Ok adv_cid => mret (answer (Some adv_cid))
        | Err e => mret (internal_error ("narration persist failed: " +:+ cause_text (OfStore e)))
        end
      else mret (answer None)
  end.
End Gate.
