(* ===== verification/Mcp.v ===== *)
(** * The MCP endpoint of the gate ([ubl_gate/src/mcp.rs])

    JSON-RPC calls of the tools over HTTP and over an authenticated WebSocket:
    the checks on the session, the dispatch of each tool, and the loop over the
    messages of a socket. *)

From S2P Require Import Prelude RustStd RustStr Json Nrf NrfFacts BigNum Unc1 Tlv Rho Vm Gate RateLimit Canon Types Silicon.
From S2P Require Import Idempotency Durable Policy Receipt Knock ChipStore Capability Auth PolicyLoader Envelope KeyRotation.
From S2P Require Import AuditChip TrRegistry EventBus Ledger Advisory PipelineTypes Check Compaction Wasm Adapter Transition.
From S2P Require Import Pipeline RichUrl ErrorResponse GateState GateSubmit GateRead.
Local Open Scope string_scope.
Local Open Scope Z_scope.
Local Open Scope list_scope.

(** ** JSON-RPC documents *)

Definition rpc_num (n : Z) : json := json_i64 n.

Definition mcp_error_value (id : json) (c : Z) (message : string) (data : option json) : json :=
  JObject [("jsonrpc", JString "2.0"); ("id", id);
           ("error", JObject ([("code", rpc_num c); ("message", JString message)] ++ member_opt "data" (fun d => d) data))].

Definition rpc_result (id result : json) : json :=
  JObject [("jsonrpc", JString "2.0"); ("id", id); ("result", result)].

(** [{"content": [{"type": "text", "text": ..}]}]: the document as text. *)
Definition text_content `{SerdeJson} (payload : json) : json :=
  JObject [("content", JArray [JObject [("type", JString "text"); ("text", JString (value_to_string payload))]])].

(** ** Tools *)

Definition canonical_tool_name (name : string) : string :=
  if String.eqb name "ubl.chip.submit" then "ubl.deliver"
  else if String.eqb name "ubl.chip.get" then "ubl.query"
  else if String.eqb name "ubl.chip.verify" then "ubl.verify"
  else name.

Definition as_bool (v : json) : option bool := match v with JBool b => Some b | _ => None end.
Definition bool_arg (k : string) (arguments : json) : bool := default false (get k arguments ≫= as_bool).
Definition text_arg (k : string) (arguments : json) : string := default "" (get k arguments ≫= as_str).

Definition is_write_tool_call (tool_name : string) (arguments : json) : bool :=
  let t := canonical_tool_name tool_name in
  if String.eqb t "ubl.deliver" then true
  else if String.eqb t "ubl.narrate" then bool_arg "persist" arguments
  else false.

Definition mcp_scope_allows_write (auth : McpWsAuth) : bool := scope_allows_any (auth_scope auth) ["write"; "mcp:write"].

(** The derived [Deserialize] of [ErrorCode] and [UblError]: the code and the message. *)
Definition all_error_codes : list ErrorCode := [
  ECKnockBodyTooLarge; ECKnockDepthExceeded; ECKnockArrayTooLong; ECKnockDuplicateKey; ECKnockInvalidUtf8;
  ECKnockMissingAnchor; ECKnockNotObject; ECKnockRawFloat; ECKnockMalformedNum; ECKnockNumericLiteralNotAllowed;
  ECKnockInputNormalization; ECKnockSchemaValidation; ECPolicyDenied; ECInvalidChip; ECDependencyMissing;
  ECWasmAbiMissingVersion; ECWasmAbiUnsupportedVersion; ECWasmAbiInvalidPayload; ECWasmVerifyHashMismatch;
  ECWasmVerifySignatureInvalid; ECWasmVerifyTrustAnchorMismatch; ECWasmCapabilityDenied; ECWasmCapabilityDeniedNetwork;
  ECWasmDeterminismViolation; ECWasmResourceFuelExhausted; ECWasmResourceMemoryLimit; ECWasmResourceTimeout;
  ECWasmReceiptBindingMissingClaim; ECFuelExhausted; ECTypeMismatch; ECStackUnderflow; ECCasNotFound; ECReplayDetected;
  ECCanonError; ECSignError; ECStorageError; ECInvalidSignature; ECRuntimeHashMismatch; ECIdempotencyConflict;
  ECDurableCommitFailed; ECTamperDetected; ECInternalError; ECUnauthorized; ECNotFound; ECTooManyRequests; ECUnavailable].
Definition code_of_text (s : string) : option ErrorCode := List.find (fun c => String.eqb (code_text c) s) all_error_codes.

Definition ubl_error_of (payload : json) : option (ErrorCode * string) :=
  let text k := get k payload ≫= as_str in
  _ ← text "@type"; _ ← text "@id"; _ ← text "@ver"; _ ← text "@world";
  c ← text "code" ≫= code_of_text;
  m ← text "message"; _ ← text "link"; Some (c, m).

(** The RPC error of a failed submission. *)
Definition mcp_code_of_status (status : Z) : Z :=
  if status =? 429 then -32006 else if (status =? 400) || (status =? 422) then -32602 else if status =? 401 then -32001
  else if status =? 403 then -32003 else if status =? 404 then -32004 else if status =? 409 then -32005
  else if status =? 503 then -32000 else -32603.

(** ** The store and signer of [ubl.rb.execute] *)

Definition McpRbCas : Type := gmap string bytes.
#[export] Instance mcp_rb_cas {HB3 : Blake3} : CasProvider McpRbCas := {|
  cas_put store bs := let cid := "b3:" +:+ hex_encode (blake3 bs) in (cid, <[cid := bs]> store);
  cas_get store cid := store !! cid |}.
Definition mcp_rb_signer : SignProvider := {| sign_jws _ := replicate 64 x00; Vm.kid := "did:key:zMcpWs#rb" |}.
Definition mcp_rb_canon {U : Unicode} : CanonProvider := {| canon v := rho v |}.

(** What arrives on a socket, and what is sent back. *)
Inductive ws_message : Type :=
| WsText (s : string) | WsBinary (bs : bytes) | WsPing (bs : bytes) | WsPong (bs : bytes) | WsClose | WsFailed.
Inductive ws_reply : Type := ReplyText (s : string) | ReplyPong (bs : bytes).

Section Mcp.
Context {U : Unicode} {CH : Chrono} {HB3 : Blake3} {KB3 : Blake3Keyed} {ED : Ed25519} {EK : Ed25519Keys} {B64 : Base64}
  {B64D : Base64Decode} {B58 : Base58} {NS : NumSerde} {CK : Clock} {SJ : SerdeJson} {BN : BigNum} {SC : StrCase}
  {SU : StrUpper} {SD : StrDebug} {CI : ChronoInstant} {CF : ChronoFormat} {CD : ChronoDate} {HI : HashIter} {BT : BigintText}
  {HX : HexDecode} {B64S : Base64Std} {SH : Sha256} {W : Wasmtime} {PS : PolicySerde} {RS : ReceiptSerde} {R : Readings}
  {FT : ForeignTexts} {GR : GateReadings} {GT : GateTexts}.
Context {B L : Type} {BE : ChipStoreBackend B} {LW : LedgerWriter L}.
Context (p : UblPipeline) (rfc3339 : Z -> string) (app : AppConfig).

Abbreviation State := (GateState B L).
Abbreviation gate := (M State gate_stop).

Definition not_found_text (what cid : string) : string := what +:+ " " +:+ cid +:+ " not found".
Definition store_text (e : ChipStoreError) : string := cause_text (OfStore e).

Definition deliver (arguments id : json) (headers : option HeaderMap) (trusted : bool) : gate json :=
  let chip := default (JObject []) (get "chip" arguments) in
  response ← submit_chip_bytes p rfc3339 app headers trusted (to_vec chip);
  let payload := payload_of response in
  if is_success (status_of response) then mret (rpc_result id (text_content payload))
  else
    let '(c, message) :=
      match ubl_error_of payload with
      | Some (c, m) => (mcp_code c, m)
      | None => (mcp_code_of_status (status_of response), "HTTP " +:+ u_to_string (status_of response))
      end in
    mret (mcp_error_value id c message (Some payload)).

(** A chip looked up for a tool; or the error document. *)
Definition find_for (id : json) (what cid : string) (found : result ChipStoreError (option StoredChip)) : json + StoredChip :=
  match found with
  | Ok (Some chip) => inr chip
  | Ok None => inl (mcp_error_value id (-32004) (not_found_text what cid) None)
  | Err e => inl (mcp_error_value id (-32603) (store_text e) None)
  end.

Definition tool_query (arguments id : json) : gate json :=
  let cid := text_arg "cid" arguments in
  store ← gate_store;
  match find_for id "Chip" cid (get_chip cid (backend store)) with
  | inl e => mret e
  | inr chip =>
      mret (rpc_result id (text_content (JObject
        [("cid", json_cid (ChipStore.cid chip)); ("chip_type", JString (chip_type chip)); ("chip_data", chip_data chip);
         ("receipt_cid", json_cid (ChipStore.receipt_cid chip))])))
  end.

Definition tool_receipt (arguments id : json) : gate json :=
  let cid := text_arg "cid" arguments in
  if is_empty cid then mret (mcp_error_value id (-32602) "missing required argument: cid" None)
  else
    durable ← gate_durable app;
    match durable with
    | None => mret (mcp_error_value id (-32000) "receipt store unavailable" None)
    | Some db =>
        fails ← gread db_fails;
        mret (match Durable.get_receipt fails db cid with
              | Ok (Some receipt) => rpc_result id (text_content receipt)
              | Ok None => mcp_error_value id (-32004) (not_found_text "Receipt" cid) None
              | Err e => mcp_error_value id (-32603) (durable_error e) None
              end)
    end.

Definition tool_verify (arguments id : json) : gate json :=
  let cid := text_arg "cid" arguments in
  store ← gate_store;
  match find_for id "Chip" cid (get_chip cid (backend store)) with
  | inl e => mret e
  | inr chip =>
      let verified := match computed_cid (chip_data chip) with Some c => String.eqb c cid | None => false end in
      mret (rpc_result id (text_content (JObject [("cid", JString cid); ("verified", JBool verified)])))
  end.

Definition tool_receipt_trace (arguments id : json) : gate json :=
  let cid := text_arg "cid" arguments in
  if is_empty cid then mret (mcp_error_value id (-32602) "missing required argument: cid" None)
  else
    durable ← gate_durable app;
    checked ← match durable with
              | None => mret None
              | Some db =>
                  fails ← gread db_fails;
                  match Durable.get_receipt fails db cid with
                  | Ok (Some receipt_json) =>
                      ok ← verify_receipt_auth_chain p cid receipt_json;
                      mret (match ok with
                            | Ok _ => None
                            | Err e => Some (mcp_error_value id (mcp_code (code e)) (message e) (Some (error_to_json e)))
                            end)
                  | Ok None => mret (Some (mcp_error_value id (-32004) (not_found_text "Receipt" cid) None))
                  | Err e => mret (Some (mcp_error_value id (-32603) ("Receipt fetch failed: " +:+ durable_error e) None))
                  end
              end;
    match checked with
    | Some e => mret e
    | None =>
        store ← gate_store;
        match find_for id "Receipt" cid (get_chip_by_receipt_cid cid (backend store)) with
        | inl e => mret e
        | inr chip =>
            mret (rpc_result id (text_content (JObject
              [("receipt_cid", JString cid); ("chip_cid", json_cid (ChipStore.cid chip)); ("chip_type", JString (chip_type chip));
               ("execution_metadata", metadata_to_json (execution_metadata chip))])))
        end
    end.

Definition tool_cid (arguments id : json) : json :=
  let payload := default (JObject []) (or_else (or_else (get "value" arguments) (get "json" arguments)) (get "chip" arguments)) in
  match to_nrf1_bytes payload with
  | Ok bs => rpc_result id (text_content (JObject [("cid", JString (compute_cid bs))]))
  | Err e => mcp_error_value id (-32602) ("CID compute failed: " +:+ cause_text (OfNrf e)) None
  end.

Definition rb_machine (fuel_limit : Z) : Vm McpRbCas :=
  vm_new {| fuel_limit := fuel_limit; ghost := false; tracing := true |} (∅ : McpRbCas) [].

Definition tool_rb_execute (arguments id : json) : gate json :=
  let bytecode_hex := text_arg "bytecode_hex" arguments in
  if is_empty bytecode_hex then mret (mcp_error_value id (-32602) "missing required argument: bytecode_hex" None)
  else
    let fuel := Z.max 1 (default 1000000 (get "fuel_limit" arguments ≫= as_u64)) in
    match hex_decode bytecode_hex with
    | None => mret (mcp_error_value id (-32602) ("invalid bytecode_hex: " +:+ hex_error bytecode_hex) None)
    | Some bytecode =>
        match decode_stream bytecode with
        | Err e => mret (mcp_error_value id (-32602) ("invalid bytecode stream: " +:+ tlv_error e) None)
        | Ok instructions =>
            match run (SP := mcp_rb_signer) (KP := mcp_rb_canon) instructions (rb_machine fuel) with
            | Ok (outcome, _) =>
                mret (rpc_result id (text_content (JObject
                  [("rc_cid", json_opt (Vm.rc_cid outcome)); ("rc_sig", json_opt (Vm.rc_sig outcome));
                   ("rc_payload_cid", json_opt (rc_payload_cid outcome)); ("steps", json_i64 (out_steps outcome));
                   ("fuel_used", json_i64 (out_fuel_used outcome));
                   ("trace_len", json_i64 (Z.of_nat (length (out_trace outcome))))])))
            | Err Unwinds => throw GatePanic
            | Err e => mret (mcp_error_value id (-32602) ("rb execute failed: " +:+ vm_error e) None)
            end
        end
    end.

Definition tool_narrate (arguments id : json) : gate json :=
  let receipt_cid := text_arg "cid" arguments in
  if is_empty receipt_cid then mret (mcp_error_value id (-32602) "missing required argument: cid" None)
  else
    store ← gate_store;
    match find_for id "Receipt" receipt_cid (get_chip_by_receipt_cid receipt_cid (backend store)) with
    | inl e => mret e
    | inr chip =>
        now ← gread now_text;
        let narration := narration_of receipt_cid chip (base_summary chip) now in
        let answer (persisted : option string) : json :=
          rpc_result id (text_content (JObject [("receipt_cid", JString receipt_cid); ("narration", narration);
                                                ("persisted_advisory_cid", json_opt persisted)])) in
        if bool_arg "persist" arguments then
          r ← persist_narration receipt_cid chip narration;
          match r with
          | Ok adv_cid => mret (answer (Some adv_cid))
          | Err e => mret (mcp_error_value id (-32603) ("narration persist failed: " +:+ store_text e) None)
          end
        else mret (answer None)
    end.

Definition tool_list_types (id : json) : json :=
  rpc_result id (text_content (JArray ((fun t =>
    JObject [("type", JString t.1.1); ("description", JString t.1.2); ("required_cap", json_opt t.2)]) <$> manifest_types app))).

Definition dispatch_tool_call (tool_name : string) (arguments id : json) (headers : option HeaderMap)
    (ws_auth : option McpWsAuth) : gate json :=
  let t := canonical_tool_name tool_name in
  if String.eqb t "ubl.deliver" then deliver arguments id headers (bool_decide (is_Some ws_auth))
  else if String.eqb t "ubl.query" then tool_query arguments id
  else if String.eqb t "ubl.receipt" then tool_receipt arguments id
  else if String.eqb t "ubl.verify" then tool_verify arguments id
  else if String.eqb t "ubl.receipt.trace" then tool_receipt_trace arguments id
  else if String.eqb t "ubl.cid" then mret (tool_cid arguments id)
  else if String.eqb t "ubl.rb.execute" then tool_rb_execute arguments id
  else if String.eqb t "ubl.narrate" then tool_narrate arguments id
  else if String.eqb t "registry.listTypes" then mret (tool_list_types id)
  else mret (mcp_error_value id (-32601) ("Tool not found: " +:+ tool_name) None).

(** ** Calls *)

(** The checks on a socket's session; [Some] is the refusal. *)
Definition check_session (tool_name : string) (arguments id : json) (auth : McpWsAuth) : gate (option json) :=
  now ← gread now_mono;
  limiter ← asks g_mcp;
  let '(limited, limiter') := mcp_check limiter now (token_id auth) in
  _ ← modify (set_mcp limiter');
  mret (match limited with
        | Some retry =>
            Some (mcp_error_value id (-32006) ("Rate limit exceeded for token; retry in " +:+ u_to_string retry +:+ "s")
                    (Some (JObject [("retry_after_seconds", json_i64 retry)])))
        | None =>
            if is_write_tool_call tool_name arguments && negb (mcp_scope_allows_write auth) then
              Some (mcp_error_value id (mcp_code ECPolicyDenied) "token scope does not allow write tools"
                      (Some (JObject [("tool", JString tool_name); ("required_scope", JString "write|*")])))
            else None
        end).

Definition handle_mcp_rpc_request (rpc : json) (headers : option HeaderMap) (ws_auth : option McpWsAuth) : gate (Z * json) :=
  let id := default JNull (get "id" rpc) in
  let method := default "" (get "method" rpc ≫= as_str) in
  let params := default (JObject []) (get "params" rpc) in
  if negb (bool_decide (get "jsonrpc" rpc ≫= as_str = Some "2.0")) then
    mret (400, mcp_error_value id (-32600) "Invalid Request: missing jsonrpc 2.0" None)
  else if String.eqb method "tools/list" then mret (200, rpc_result id (JObject [("tools", manifest_tools app)]))
  else if String.eqb method "tools/call" then
    let tool_name := text_arg "name" params in
    let arguments := default (JObject []) (get "arguments" params) in
    refused ← match ws_auth with Some auth => check_session tool_name arguments id auth | None => mret None end;
    match refused with
    | Some e => mret (200, e)
    | None => payload ← dispatch_tool_call tool_name arguments id headers ws_auth; mret (200, payload)
    end
  else mret (200, mcp_error_value id (-32601) ("Method not found: " +:+ method) None).

Definition mcp_rpc (headers : HeaderMap) (rpc : json) : gate (Z * json) := handle_mcp_rpc_request rpc (Some headers) None.

(** ** WebSockets *)

Definition ws_refusal (status : Z) (c message : string) : Response := (status, [], plain_error c message).

Definition validate_mcp_ws_bearer (headers : HeaderMap) : gate (Response + McpWsAuth) :=
  match parse_bearer_token headers with
  | None => mret (inl (ws_refusal 401 "UNAUTHORIZED" "missing Authorization: Bearer <token>"))
  | Some id =>
      session ← resolve_session_bearer headers;
      match session with
      | Err msg => mret (inl (ws_refusal 401 "UNAUTHORIZED" msg))
      | Ok None => mret (inl (ws_refusal 401 "UNAUTHORIZED" "token not found"))
      | Ok (Some auth) =>
          if negb (scope_allows_any (auth_scope auth) ["mcp"; "read"; "write"; "mcp:write"]) then
            mret (inl (ws_refusal 403 "POLICY_DENIED" "token scope does not allow MCP access"))
          else if negb (String.eqb (token_id auth) id) then mret (inl (ws_refusal 401 "UNAUTHORIZED" "token mismatch"))
          else mret (inr auth)
      end
  end.

Definition parse_failure (message : string) : string := value_to_string (mcp_error_value JNull (-32700) message None).

(** The text of a message that is a call. *)
Definition ws_call (auth : McpWsAuth) (text : string) : gate (ws_reply * bool) :=
  match from_str text with
  | None => mret (ReplyText (parse_failure ("Parse error: " +:+ json_error text)), true)
  | Some rpc => r ← handle_mcp_rpc_request rpc None (Some auth); mret (ReplyText (value_to_string r.2), false)
  end.

(** The messages of a socket with the success of sending the answer to each;
    failing to send a parse error does not end the session. *)
Fixpoint mcp_ws_session (auth : McpWsAuth) (messages : list (ws_message * bool)) : gate (list ws_reply) :=
  match messages with
  | [] => mret []
  | (msg, sent) :: rest =>
      let answer (r : ws_reply * bool) : gate (list ws_reply) :=
        if sent then replies ← mcp_ws_session auth rest; mret (r.1 :: replies)
        else if r.2 then mcp_ws_session auth rest
        else mret [] in
      match msg with
      | WsFailed | WsClose => mret []
      | WsPong _ => mcp_ws_session auth rest
      | WsPing bs => answer (ReplyPong bs, false)
      | WsText s => r ← ws_call auth s; answer r
      | WsBinary bs =>
          match from_utf8 bs with
          | None => answer (ReplyText (parse_failure "Parse error: binary payload must be UTF-8 JSON-RPC text"), true)
          | Some s => r ← ws_call auth s; answer r
          end
      end
  end.
End Mcp.
