(* ===== verification/MetaChip.v ===== *)
(** * Meta chips ([ubl_runtime/src/meta_chip.rs])

    The chips that register, describe and deprecate chip types, as parsed and
    validated bodies; the derived [serde] forms of schemas and known-answer tests
    are written out. *)

From S2P Require Import Prelude RustStd RustStr Json.
Local Open Scope string_scope.
Local Open Scope Z_scope.
Local Open Scope list_scope.

(** ** Data *)

Record Kat : Type := mkKat { label : string; input : json; expected_decision : string; expected_error : option string }.
Record SchemaField : Type := mkField { field_name : string; field_type : string; field_description : string }.
Record TypeSchema : Type := mkSchema {
  required_fields : list SchemaField; optional_fields : list SchemaField; required_cap : option string }.
Record RegisterChip : Type := mkRegister {
  r_target_type : string; r_description : string; schema : TypeSchema; r_kats : list Kat; type_version : string }.
Record DescribeChip : Type := mkDescribe {
  d_target_type : string; d_description : string; docs_url : option string; d_kats : list Kat }.
Record DeprecateChip : Type := mkDeprecate {
  x_target_type : string; x_reason : string; replacement_type : option string; sunset_at : option string }.

(** The texts of [serde]'s errors are data: the value that could not be read. *)
Inductive MetaChipError : Type :=
| MissingField (name : string)
| InvalidSchema (v : json)
| NoKats
| InvalidKat (index : nat) (v : json)
| KatTypeMismatch (index : nat) (kat_type target_type : string)
| ReservedPrefix (prefix : string).

(** ** Derived readers and writers *)

Definition member (k : string) (v : json) : option json := get k v.

Definition str_member (k : string) (v : json) : option string := member k v ≫= as_str.

(** A field with a default; [null] is [None] for an optional string. *)
Definition opt_str_at (k : string) (i : nat) (v : json) : option (option string) :=
  match at_field k i v with
  | None | Some JNull => Some None
  | Some (JString s) => Some (Some s)
  | Some _ => None
  end.

Definition kat_from_value (v : json) : option Kat :=
  if struct_of 4 v then
    l ← str_at "label" 0 v; i ← at_field "input" 1 v; d ← str_at "expected_decision" 2 v;
    e ← opt_str_at "expected_error" 3 v; Some (mkKat l i d e)
  else None.

Definition field_from_value (v : json) : option SchemaField :=
  if struct_of 3 v then
    n ← str_at "name" 0 v; t ← str_at "field_type" 1 v;
    d ← match at_field "description" 2 v with None => Some "" | Some d => as_str d end;
    Some (mkField n t d)
  else None.

Definition fields_from_value (v : json) : option (list SchemaField) := l ← as_array v; mapM field_from_value l.

Definition schema_from_value (v : json) : option TypeSchema :=
  if struct_of 3 v then
    req ← at_field "required_fields" 0 v ≫= fields_from_value;
    opt ← match at_field "optional_fields" 1 v with None => Some [] | Some o => fields_from_value o end;
    cap ← opt_str_at "required_cap" 2 v; Some (mkSchema req opt cap)
  else None.

Definition opt_member (k : string) (o : option string) : list (string * json) :=
  match o with Some s => [(k, JString s)] | None => [] end.

Definition kat_to_value (k : Kat) : json :=
  JObject ([("label", JString (label k)); ("input", input k); ("expected_decision", JString (expected_decision k))]
           ++ opt_member "expected_error" (expected_error k)).
Definition field_to_value (f : SchemaField) : json :=
  JObject [("name", JString (field_name f)); ("field_type", JString (field_type f)); ("description", JString (field_description f))].
Definition schema_to_value (s : TypeSchema) : json :=
  JObject ([("required_fields", JArray (field_to_value <$> required_fields s));
            ("optional_fields", JArray (field_to_value <$> optional_fields s))] ++ opt_member "required_cap" (required_cap s)).

(** ** Parsers *)

Definition RESERVED_PREFIXES : list string := ["ubl/"; "ubl/meta."].

Definition need (k : string) (body : json) : result MetaChipError string := ok_or (str_member k body) (MissingField k).

(** The members of the array, read one by one; the first failure is reported. *)
Fixpoint read_kats (i : nat) (l : list json) : result MetaChipError (list Kat) :=
  match l with
  | [] => Ok []
  | v :: rest => k ← ok_or (kat_from_value v) (InvalidKat i v); ks ← read_kats (S i) rest; Ok (k :: ks)
  end.

Definition kat_type (k : Kat) : string := default "" (str_member "@type" (input k)).

(** The loop that compares each test's type with the registered one. *)
Fixpoint check_kats (target_type : string) (i : nat) (l : list Kat) : result MetaChipError unit :=
  match l with
  | [] => Ok tt
  | k :: rest =>
      if String.eqb (kat_type k) target_type then check_kats target_type (S i) rest
      else Err (KatTypeMismatch i (kat_type k) target_type)
  end.

Definition parse_register (body : json) : result MetaChipError RegisterChip :=
  target_type ← need "target_type" body;
  match List.find (fun prefix => starts_with prefix target_type) RESERVED_PREFIXES with
  | Some prefix => Err (ReservedPrefix prefix)
  | None =>
      description ← need "description" body;
      schema_val ← ok_or (member "schema" body) (MissingField "schema");
      schema ← ok_or (schema_from_value schema_val) (InvalidSchema schema_val);
      kats_val ← ok_or (member "kats" body ≫= as_array) NoKats;
      if bool_decide (kats_val = []) then Err NoKats
      else
        kats ← read_kats 0 kats_val;
        _ ← check_kats target_type 0 kats;
        Ok (mkRegister target_type description schema kats (default "1.0" (str_member "type_version" body)))
  end.

Definition parse_describe (body : json) : result MetaChipError DescribeChip :=
  target_type ← need "target_type" body;
  description ← need "description" body;
  Ok (mkDescribe target_type description (str_member "docs_url" body)
        (omap kat_from_value (default [] (member "kats" body ≫= as_array)))).

Definition parse_deprecate (body : json) : result MetaChipError DeprecateChip :=
  target_type ← need "target_type" body;
  reason ← need "reason" body;
  Ok (mkDeprecate target_type reason (str_member "replacement_type" body) (str_member "sunset_at" body)).
