(* ===== verification/Registry.v ===== *)
(** * The type registry of the gate ([ubl_gate/src/registry.rs])

    The view that is rebuilt from the stored meta chips on every request: a pass
    over the registrations, one over the descriptions and one over the
    deprecations, each oldest first; the documents and pages that show it; and
    the run of a known-answer test.  Then what the view of a type is, field by
    field, in terms of the meta chips that name the type. *)

From S2P Require Import Prelude RustStd RustStr Json Nrf NrfFacts BigNum Unc1 Tlv Rho Vm Gate RateLimit Canon Types Silicon.
From S2P Require Import Idempotency Durable Policy Receipt Knock ChipStore Capability Auth PolicyLoader Envelope KeyRotation.
From S2P Require Import AuditChip TrRegistry EventBus Ledger Advisory PipelineTypes Check Compaction Wasm Adapter Transition.
From S2P Require Import Pipeline RichUrl ErrorResponse GateState GateSubmit GateRead MetaChip.
Local Open Scope string_scope.
Local Open Scope Z_scope.
Local Open Scope list_scope.

(** ** The view ([templates.rs]) *)

Record RegistryVersionView : Type := mkVersion {
  version : string; v_schema : option json; v_kats : list json; v_required_cap : option string;
  register_cid : option string; updated_at : option string }.
Record RegistryTypeView : Type := mkTypeView {
  tv_chip_type : string; latest_version : option string; deprecated : bool; has_kats : bool; tv_required_cap : option string;
  description : option string; tv_docs_url : option string; deprecation : option json; last_cid : option string;
  last_updated_at : option string; versions : gmap string RegistryVersionView }.
Abbreviation RegistryView := (gmap string RegistryTypeView).

Definition empty_view (chip_type : string) : RegistryTypeView :=
  mkTypeView chip_type None false false None None None None None None ∅.
Definition type_entry (types : RegistryView) (chip_type : string) : RegistryTypeView :=
  default (empty_view chip_type) (types !! chip_type).

Definition world_matches (chip : StoredChip) (world_filter : option string) : bool :=
  match world_filter with
  | None => true
  | Some expected => match get "@world" (chip_data chip) ≫= as_str with Some w => String.eqb w expected | None => false end
  end.

(** [sort_by(|a, b| a.created_at.cmp(&b.created_at))]. *)
Definition oldest_first (a b : StoredChip) : bool := String.leb (created_at a) (created_at b).

Section Passes.
Context (world_filter : option string).

Definition cid_text (chip : StoredChip) : string := cid_as_str (ChipStore.cid chip).

Definition registered (chip : StoredChip) (r : RegisterChip) (e : RegistryTypeView) : RegistryTypeView :=
  mkTypeView (tv_chip_type e) (Some (type_version r)) (deprecated e) (has_kats e || negb (bool_decide (r_kats r = [])))
    (required_cap (schema r)) (Some (r_description r)) (tv_docs_url e) (deprecation e)
    (Some (cid_text chip)) (Some (created_at chip))
    (<[type_version r := mkVersion (type_version r) (Some (schema_to_value (schema r))) (kat_to_value <$> r_kats r)
                           (required_cap (schema r)) (Some (cid_text chip)) (Some (created_at chip))]> (versions e)).

Definition described (chip : StoredChip) (d : DescribeChip) (e : RegistryTypeView) : RegistryTypeView :=
  let kats := negb (bool_decide (d_kats d = [])) in
  let refresh (v : RegistryVersionView) :=
    mkVersion (version v) (v_schema v) (kat_to_value <$> d_kats d) (v_required_cap v) (register_cid v) (Some (created_at chip)) in
  mkTypeView (tv_chip_type e) (latest_version e) (deprecated e) (if kats then true else has_kats e) (tv_required_cap e)
    (Some (d_description d)) (docs_url d) (deprecation e) (Some (cid_text chip)) (Some (created_at chip))
    (if kats then match latest_version e with Some ver => alter refresh ver (versions e) | None => versions e end
     else versions e).

Definition deprecation_note (chip : StoredChip) (x : DeprecateChip) : json :=
  JObject [("reason", JString (x_reason x)); ("replacement_type", json_opt (replacement_type x));
           ("sunset_at", json_opt (sunset_at x)); ("cid", JString (cid_text chip))].
Definition withdrawn (chip : StoredChip) (x : DeprecateChip) (e : RegistryTypeView) : RegistryTypeView :=
  mkTypeView (tv_chip_type e) (latest_version e) true (has_kats e) (tv_required_cap e) (description e) (tv_docs_url e)
    (Some (deprecation_note chip x)) (Some (cid_text chip)) (Some (created_at chip)) (versions e).

(** One turn of a pass: chips of other worlds and chips that do not parse are
    left out. *)
Definition turn {A} (parse : json -> result MetaChipError A) (target : A -> string)
    (update : StoredChip -> A -> RegistryTypeView -> RegistryTypeView) (types : RegistryView) (chip : StoredChip) : RegistryView :=
  if world_matches chip world_filter then
    match parse (chip_data chip) with
    | Ok a => <[target a := update chip a (type_entry types (target a))]> types
    | Err _ => types
    end
  else types.

Definition register_turn := turn parse_register r_target_type registered.
Definition describe_turn := turn parse_describe d_target_type described.
Definition deprecate_turn := turn parse_deprecate x_target_type withdrawn.

Definition fold_registry (registers describes deprecates : list StoredChip) : RegistryView :=
  fold_left deprecate_turn (sort_by oldest_first deprecates)
    (fold_left describe_turn (sort_by oldest_first describes)
       (fold_left register_turn (sort_by oldest_first registers) ∅)).
End Passes.

(** ** Known-answer tests *)

Record KatForm : Type := mkForm { f_chip_type : string; f_version : string; f_kat_index : nat }.
Record KatResult : Type := mkKatResult {
  status_code : Z; kat_label : string; kr_expected_decision : string; kr_expected_error : string; actual_decision : string;
  actual_error : string; kr_receipt_cid : string; pass : bool; response_json : json; kr_message : string }.

Definition text_or (d k : string) (v : json) : string := default d (get k v ≫= as_str).

(** A field of the response, or of the receipt in it. *)
Definition field_or_receipt (k : string) (payload : json) : string :=
  default "-" (or_else (get k payload ≫= as_str) (get "receipt" payload ≫= fun r => get k r ≫= as_str)).

Definition kat_verdict (kat payload : json) (status : Z) : KatResult :=
  let expected_decision := text_or "-" "expected_decision" kat in
  let expected_error := text_or "-" "expected_error" kat in
  let actual_decision := text_or "-" "decision" payload in
  let actual_error := field_or_receipt "code" payload in
  let decision_match := String.eqb expected_decision "-"
    || str_contains (to_ascii_lowercase expected_decision) (to_ascii_lowercase actual_decision) in
  let error_match := String.eqb expected_error "-" || String.eqb actual_error expected_error in
  let pass := is_success status && decision_match && error_match in
  mkKatResult status (text_or "kat" "label" kat) expected_decision expected_error actual_decision actual_error
    (field_or_receipt "receipt_cid" payload) pass payload (if pass then "KAT passed" else "KAT failed").

Definition kat_without_input (kat : json) : KatResult :=
  mkKatResult 400 (text_or "kat" "label" kat) (text_or "-" "expected_decision" kat) (text_or "-" "expected_error" kat)
    "-" "missing_kat_input" "-" false (JObject []) "KAT input missing".

(** ** Documents *)

(** A map in the order of its keys. *)
Definition key_leb {A} (x y : string * A) : bool := String.leb x.1 y.1.
Definition by_key {A} (m : gmap string A) : list (string * A) := sort_by key_leb (map_to_list m).

Definition json_or_null (o : option json) : json := default JNull o.

Definition version_to_json (v : RegistryVersionView) : list (string * json) :=
  [("version", JString (version v)); ("schema", json_or_null (v_schema v)); ("kats", JArray (v_kats v));
   ("required_cap", json_opt (v_required_cap v)); ("register_cid", json_opt (register_cid v));
   ("updated_at", json_opt (updated_at v))].

Definition type_summary (v : RegistryTypeView) : json :=
  JObject [("type", JString (tv_chip_type v)); ("latest_version", json_opt (latest_version v)); ("deprecated", JBool (deprecated v));
           ("has_kats", JBool (has_kats v)); ("required_cap", json_opt (tv_required_cap v)); ("last_cid", json_opt (last_cid v));
           ("last_updated_at", json_opt (last_updated_at v)); ("versions_count", json_i64 (Z.of_nat (size (versions v))))].

Definition type_detail (v : RegistryTypeView) : json :=
  JObject [("@type", JString "ubl/registry.type"); ("type", JString (tv_chip_type v)); ("latest_version", json_opt (latest_version v));
           ("deprecated", JBool (deprecated v)); ("description", json_opt (description v)); ("docs_url", json_opt (tv_docs_url v));
           ("deprecation", json_or_null (deprecation v)); ("has_kats", JBool (has_kats v)); ("required_cap", json_opt (tv_required_cap v));
           ("last_cid", json_opt (last_cid v)); ("last_updated_at", json_opt (last_updated_at v));
           ("versions", JArray ((fun kv => JObject (version_to_json kv.2)) <$> by_key (versions v)))].

(** The preview of a test's input: a slice of 240 bytes, which panics inside a
    character. *)
Definition input_preview `{SerdeJson} (kat : json) : option string :=
  match get "input" kat with
  | None => Some "-"
  | Some v =>
      let s := value_to_string v in
      if (240 <? String.length s)%nat then
        match String.get 240 s with
        | Some a => if is_cont (byte_of_ascii a) then None else Some (substring 0 240 s +:+ "...")
        | None => Some s
        end
      else Some s
  end.

(** ** Pages

    The rows that the templates render. *)

Record RegistryRow : Type := mkRow {
  row_type : string; row_latest : string; row_deprecated : bool; row_kats : bool; row_cap : string; row_updated : string }.
Record KatRow : Type := mkKatRow {
  kat_index : nat; kat_row_label : string; kat_decision : string; kat_error : string; input_json_preview : string }.
Record VersionRow : Type := mkVersionRow {
  vr_version : string; vr_cap : string; kats_count : Z; vr_register_cid : string; vr_updated_at : string; vr_kats : list KatRow }.
Record TypePage : Type := mkTypePage {
  page_type : string; page_latest : string; page_deprecated : bool; page_description : string; page_docs : option string;
  deprecation_json : string; page_versions : list VersionRow }.

Definition or_dash (o : option string) : string := default "-" o.

Definition registry_row (v : RegistryTypeView) : RegistryRow :=
  mkRow (tv_chip_type v) (or_dash (latest_version v)) (deprecated v) (has_kats v) (or_dash (tv_required_cap v))
    (or_dash (last_updated_at v)).

(** [console.rs]: what is shown and what is folded away. *)
Definition split_rows {A} (rows : list A) (keep : nat) : list A * list A := (take keep rows, drop keep rows).

Definition kat_row `{SerdeJson} (i : nat) (kat : json) : option KatRow :=
  preview ← input_preview kat;
  Some (mkKatRow i (text_or "kat" "label" kat) (text_or "-" "expected_decision" kat) (text_or "-" "expected_error" kat) preview).

Fixpoint kat_rows `{SerdeJson} (i : nat) (kats : list json) : option (list KatRow) :=
  match kats with
  | [] => Some []
  | kat :: rest => row ← kat_row i kat; rows ← kat_rows (S i) rest; Some (row :: rows)
  end.

Definition version_row `{SerdeJson} (v : RegistryVersionView) : option VersionRow :=
  rows ← kat_rows 0 (v_kats v);
  Some (mkVersionRow (version v) (or_dash (v_required_cap v)) (Z.of_nat (length (v_kats v))) (or_dash (register_cid v))
          (or_dash (updated_at v)) rows).

Definition type_page `{SerdeJson} (v : RegistryTypeView) : option TypePage :=
  rows ← mapM (fun kv => version_row kv.2) (by_key (versions v));
  Some (mkTypePage (tv_chip_type v) (or_dash (latest_version v)) (deprecated v) (or_dash (description v)) (tv_docs_url v)
          (default "-" (value_to_string <$> deprecation v)) rows).

Section Registry.
Context {U : Unicode} {CH : Chrono} {HB3 : Blake3} {KB3 : Blake3Keyed} {ED : Ed25519} {EK : Ed25519Keys} {B64 : Base64}
  {B64D : Base64Decode} {B58 : Base58} {NS : NumSerde} {CK : Clock} {SJ : SerdeJson} {BN : BigNum} {SC : StrCase}
  {SU : StrUpper} {SD : StrDebug} {CI : ChronoInstant} {CF : ChronoFormat} {CD : ChronoDate} {HI : HashIter} {BT : BigintText}
  {HX : HexDecode} {B64S : Base64Std} {SH : Sha256} {W : Wasmtime} {PS : PolicySerde} {RS : ReceiptSerde} {R : Readings}
  {FT : ForeignTexts} {GR : GateReadings} {GT : GateTexts}.
Context {B L : Type} {BE : ChipStoreBackend B} {LW : LedgerWriter L}.
Context (p : UblPipeline) (rfc3339 : Z -> string) (app : AppConfig).

Abbreviation State := (GateState B L).
Abbreviation gate := (M State gate_stop).

Definition read_registry (store : ChipStore.ChipStore B) (world_filter : option string) : result ChipStoreError RegistryView :=
  registers ← get_chips_by_type "ubl/meta.register" (backend store);
  describes ← get_chips_by_type "ubl/meta.describe" (backend store);
  deprecates ← get_chips_by_type "ubl/meta.deprecate" (backend store);
  Ok (fold_registry world_filter registers describes deprecates).

Definition materialize_registry (world_filter : option string) : gate (result string RegistryView) :=
  store ← gate_store;
  mret (map_err (fun e => cause_text (OfStore e)) (read_registry store world_filter)).

Definition registry_failure (e : string) : Response := internal_error ("registry materialization failed: " +:+ e).
Definition type_missing (t : string) : Response := (404, [], plain_error "NOT_FOUND" ("Registry type '" +:+ t +:+ "' not found")).
Definition version_missing (ver t : string) : Response :=
  (404, [], plain_error "NOT_FOUND" ("Registry version '" +:+ ver +:+ "' not found for type '" +:+ t +:+ "'")).

Definition registry_types (world : option string) : gate Response :=
  registry ← materialize_registry world;
  match registry with
  | Err e => mret (registry_failure e)
  | Ok types =>
      let rows := (fun kv => type_summary kv.2) <$> by_key types in
      mret (200, [], JObject [("@type", JString "ubl/registry.types"); ("count", json_i64 (Z.of_nat (length rows))); ("types", JArray rows)])
  end.

Definition registry_type_detail (chip_type : string) : gate Response :=
  registry ← materialize_registry None;
  match registry with
  | Err e => mret (registry_failure e)
  | Ok types =>
      match types !! chip_type with
      | None => mret (type_missing chip_type)
      | Some view => mret (200, [], type_detail view)
      end
  end.

Definition registry_type_version (chip_type ver : string) : gate Response :=
  registry ← materialize_registry None;
  match registry with
  | Err e => mret (registry_failure e)
  | Ok types =>
      match types !! chip_type with
      | None => mret (type_missing chip_type)
      | Some view =>
          match versions view !! ver with
          | None => mret (version_missing ver chip_type)
          | Some v =>
              mret (200, [], JObject ([("@type", JString "ubl/registry.version"); ("type", JString chip_type)] ++ version_to_json v
                                      ++ [("deprecated", JBool (deprecated view)); ("deprecation", json_or_null (deprecation view))]))
          end
      end
  end.

(** The world of the query, unless it is blank or [*]. *)
Definition table_world (world : option string) : option string :=
  w ← world; if is_empty (str_trim w) || String.eqb w "*" then None else Some w.

Definition registry_table_partial (world : option string) : gate (Response + (list RegistryRow * list RegistryRow)) :=
  registry ← materialize_registry (table_world world);
  match registry with
  | Err e => mret (inl (registry_failure e))
  | Ok types => mret (inr (split_rows ((fun kv => registry_row kv.2) <$> by_key types) 6))
  end.

Definition registry_type_page (chip_type : string) : gate (Response + TypePage) :=
  let normalized_type := trim_start_char "/" chip_type in
  registry ← materialize_registry None;
  match registry with
  | Err e => mret (inl (registry_failure e))
  | Ok types =>
      match types !! normalized_type with
      | None => mret (inl (type_missing normalized_type))
      | Some view => match type_page view with Some page => mret (inr page) | None => throw GatePanic end
      end
  end.

(** The test's input is submitted as a trusted write, without headers. *)
Definition registry_kat_test (form : KatForm) : gate (Response + KatResult) :=
  registry ← materialize_registry None;
  match registry with
  | Err e => mret (inl (registry_failure e))
  | Ok types =>
      match types !! f_chip_type form with
      | None => mret (inl (type_missing (f_chip_type form)))
      | Some view =>
          match versions view !! f_version form with
          | None => mret (inl (version_missing (f_version form) (f_chip_type form)))
          | Some v =>
              match v_kats v !! f_kat_index form with
              | None =>
                  mret (inl (404, [], plain_error "NOT_FOUND"
                    ("KAT index '" +:+ u_to_string (Z.of_nat (f_kat_index form)) +:+ "' not found for type '" +:+ f_chip_type form +:+
                     "' version '" +:+ f_version form +:+ "'")))
              | Some kat =>
                  match get "input" kat with
                  | None => mret (inr (kat_without_input kat))
                  | Some input_chip =>
                      response ← submit_chip_bytes p rfc3339 app None true (to_vec input_chip);
                      mret (inr (kat_verdict kat (payload_of response) (status_of response)))
                  end
              end
          end
      end
  end.
End Registry.

(** * Theorems on the type registry *)

(** ** Folds that start from nothing *)

Lemma fold_some {A C} (step : C -> A -> C) (d : C) (l : list A) (o : option C) :
  fold_left (fun o a => Some (step (default d o) a)) l o =
  if bool_decide (l = []) then o else Some (fold_left step l (default d o)).
Proof.
  revert o. induction l as [|a l IH]; intros o; [done|]. cbn [fold_left]. rewrite IH. case_bool_decide; [by subst|done].
Qed.

(** A field that every step sets. *)
Lemma fold_last {A C Y} (step : C -> A -> C) (field : C -> Y) (value : A -> Y) (l : list A) (c : C) :
  (forall c a, field (step c a) = value a) -> field (fold_left step l c) = default (field c) (value <$> last l).
Proof.
  intros H. induction l as [|a l IH] using rev_ind; [done|]. rewrite fold_left_app, last_snoc. cbn. apply H.
Qed.

(** A field that no step touches. *)
Lemma fold_keeps {A C Y} (step : C -> A -> C) (field : C -> Y) (l : list A) (c : C) :
  (forall c a, field (step c a) = field c) -> field (fold_left step l c) = field c.
Proof. intros H. revert c. induction l as [|a l IH]; intros c; [done|]. cbn. by rewrite IH. Qed.

(** A flag that a step can only raise. *)
Lemma fold_flag {A C} (step : C -> A -> C) (flag : C -> bool) (raise : A -> bool) (l : list A) (c : C) :
  (forall c a, flag (step c a) = flag c || raise a) -> flag (fold_left step l c) = flag c || existsb raise l.
Proof. intros H. revert c. induction l as [|a l IH]; intros c; cbn; [by rewrite orb_false_r|]. by rewrite IH, H, orb_assoc. Qed.

(** ** The view of one type *)

Section View.
Context (world_filter : option string) (t : string).

(** The chip is of the world, parses and names the type. *)
Definition about {A} (parse : json -> result MetaChipError A) (target : A -> string) (chip : StoredChip) : option (StoredChip * A) :=
  if world_matches chip world_filter then
    match parse (chip_data chip) with
    | Ok a => if String.eqb (target a) t then Some (chip, a) else None
    | Err _ => None
    end
  else None.

(** The chips about the type, oldest first. *)
Definition history {A} (parse : json -> result MetaChipError A) (target : A -> string) (chips : list StoredChip)
    : list (StoredChip * A) := omap (about parse target) (sort_by oldest_first chips).

Lemma turn_at {A} parse (target : A -> string) update types chip :
  turn world_filter parse target update types chip !! t =
  match about parse target chip with
  | Some (c, a) => Some (update c a (type_entry types t))
  | None => types !! t
  end.
Proof.
  unfold turn, about. destruct (world_matches chip world_filter); [|done]. destruct (parse (chip_data chip)) as [a|]; [|done].
  destruct (String.eqb_spec (target a) t) as [<-|Hne]; [by rewrite lookup_insert_eq|by rewrite lookup_insert_ne].
Qed.

Lemma pass_at {A} parse (target : A -> string) update chips types :
  fold_left (turn world_filter parse target update) chips types !! t =
  fold_left (fun o ca => Some (update ca.1 ca.2 (default (empty_view t) o))) (omap (about parse target) chips) (types !! t).
Proof.
  revert types. induction chips as [|chip chips IH]; intros types; [done|]. cbn [fold_left omap list_omap].
  rewrite IH, turn_at. by destruct (about parse target chip) as [[c a]|].
Qed.

(** A pass over all types is, for one type, a fold over its own chips. *)
Lemma pass_history {A} parse (target : A -> string) update (chips : list StoredChip) types :
  let own := history parse target chips in
  fold_left (turn world_filter parse target update) (sort_by oldest_first chips) types !! t =
  if bool_decide (own = []) then types !! t
  else Some (fold_left (fun e ca => update ca.1 ca.2 e) own (default (empty_view t) (types !! t))).
Proof. intros own. rewrite pass_at. apply (fold_some (fun e ca => update ca.1 ca.2 e)). Qed.

(** The version that a registration writes. *)
Definition version_of (ca : StoredChip * RegisterChip) : RegistryVersionView :=
  let (chip, r) := ca in
  mkVersion (type_version r) (Some (schema_to_value (schema r))) (kat_to_value <$> r_kats r) (required_cap (schema r))
    (Some (cid_text chip)) (Some (created_at chip)).

(** The last registration of a version. *)
Definition last_version (regs : list (StoredChip * RegisterChip)) (ver : string) : option RegistryVersionView :=
  version_of <$> last (List.filter (fun ca => String.eqb (type_version ca.2) ver) regs).

(** The last description that has tests. *)
Definition last_tests (descs : list (StoredChip * DescribeChip)) : option (StoredChip * DescribeChip) :=
  last (List.filter (fun ca => negb (bool_decide (d_kats ca.2 = []))) descs).

Definition with_tests (ca : StoredChip * DescribeChip) (v : RegistryVersionView) : RegistryVersionView :=
  mkVersion (version v) (v_schema v) (kat_to_value <$> d_kats ca.2) (v_required_cap v) (register_cid v) (Some (created_at ca.1)).

(** The chips of all three kinds. *)
Definition chips_of (regs : list (StoredChip * RegisterChip)) (descs : list (StoredChip * DescribeChip))
    (deps : list (StoredChip * DeprecateChip)) : list StoredChip := (fst <$> regs) ++ (fst <$> descs) ++ (fst <$> deps).

(** The view of a type after its registrations, descriptions and deprecations. *)
Record describes (regs : list (StoredChip * RegisterChip)) (descs : list (StoredChip * DescribeChip))
    (deps : list (StoredChip * DeprecateChip)) (v : RegistryTypeView) : Prop := {
  of_type : tv_chip_type v = t;
  of_latest : latest_version v = (fun ca => type_version ca.2) <$> last regs;
  of_cap : tv_required_cap v = (last regs ≫= fun ca => required_cap (schema ca.2));
  of_description : description v =
    or_else ((fun ca => d_description ca.2) <$> last descs) ((fun ca => r_description ca.2) <$> last regs);
  of_docs : tv_docs_url v = (last descs ≫= fun ca => docs_url ca.2);
  of_deprecated : deprecated v = negb (bool_decide (deps = []));
  of_deprecation : deprecation v = (fun ca => deprecation_note ca.1 ca.2) <$> last deps;
  of_cid : last_cid v = cid_text <$> last (chips_of regs descs deps);
  of_updated : last_updated_at v = created_at <$> last (chips_of regs descs deps);
  of_kats : has_kats v = existsb (fun ca => negb (bool_decide (r_kats ca.2 = []))) regs
                      || existsb (fun ca => negb (bool_decide (d_kats ca.2 = []))) descs;
  of_versions ver : versions v !! ver =
    if bool_decide (latest_version v = Some ver) then
      match last_tests descs with
      | Some ca => with_tests ca <$> last_version regs ver
      | None => last_version regs ver
      end
    else last_version regs ver }.

Definition reg_step (e : RegistryTypeView) (ca : StoredChip * RegisterChip) : RegistryTypeView := registered ca.1 ca.2 e.
Definition desc_step (e : RegistryTypeView) (ca : StoredChip * DescribeChip) : RegistryTypeView := described ca.1 ca.2 e.
Definition dep_step (e : RegistryTypeView) (ca : StoredChip * DeprecateChip) : RegistryTypeView := withdrawn ca.1 ca.2 e.

Lemma reg_versions regs ver e :
  versions (fold_left reg_step regs e) !! ver = or_else (last_version regs ver) (versions e !! ver).
Proof.
  induction regs as [|ca regs IH] using rev_ind; [done|]. rewrite fold_left_app. cbn [fold_left reg_step registered versions].
  unfold last_version in *. rewrite List.filter_app. cbn [List.filter].
  destruct (String.eqb_spec (type_version ca.2) ver) as [<-|Hne].
  - rewrite last_snoc, lookup_insert_eq. by destruct ca.
  - rewrite lookup_insert_ne by done. by rewrite app_nil_r.
Qed.

Lemma desc_latest descs e : latest_version (fold_left desc_step descs e) = latest_version e.
Proof. by apply (fold_keeps desc_step latest_version). Qed.

Lemma desc_versions descs ver e :
  versions (fold_left desc_step descs e) !! ver =
  if bool_decide (latest_version e = Some ver) then
    match last_tests descs with
    | Some ca => with_tests ca <$> versions e !! ver
    | None => versions e !! ver
    end
  else versions e !! ver.
Proof.
  induction descs as [|ca descs IH] using rev_ind; [by case_bool_decide|].
  rewrite fold_left_app. cbn [fold_left desc_step described versions]. fold (desc_step (fold_left desc_step descs e)).
  rewrite desc_latest. unfold last_tests in *. rewrite List.filter_app. cbn [List.filter].
  destruct (negb (bool_decide (d_kats ca.2 = []))) eqn:Ek; [|by rewrite app_nil_r].
  rewrite last_snoc. destruct (latest_version e) as [lv|]; [|done]. clear Ek. destruct (decide (lv = ver)) as [->|Hv].
  - rewrite lookup_alter_eq, IH. rewrite !bool_decide_eq_true_2 by done.
    destruct (last _); [|by destruct (versions e !! ver)]. by destruct (versions e !! ver).
  - rewrite lookup_alter_ne by done. rewrite IH. by rewrite !bool_decide_eq_false_2 by congruence.
Qed.

(** The three passes over one view. *)
Definition passes (regs : list (StoredChip * RegisterChip)) (descs : list (StoredChip * DescribeChip))
    (deps : list (StoredChip * DeprecateChip)) : RegistryTypeView :=
  fold_left dep_step deps (fold_left desc_step descs (fold_left reg_step regs (empty_view t))).

Lemma last_of_chips {Y} (value : StoredChip -> Y) regs descs deps :
  value <$> last (chips_of regs descs deps) =
  or_else ((fun ca => value ca.1) <$> last deps) (or_else ((fun ca => value ca.1) <$> last descs) ((fun ca => value ca.1) <$> last regs)).
Proof. unfold chips_of. rewrite !last_app, !fmap_last. by destruct (last deps), (last descs), (last regs). Qed.

(** A field that the steps of all three passes set from the chip. *)
Lemma passes_last {Y} (field : RegistryTypeView -> option Y) (value : StoredChip -> Y) regs descs deps :
  (forall e ca, field (reg_step e ca) = Some (value ca.1)) -> (forall e ca, field (desc_step e ca) = Some (value ca.1)) ->
  (forall e ca, field (dep_step e ca) = Some (value ca.1)) -> field (empty_view t) = None ->
  field (passes regs descs deps) = value <$> last (chips_of regs descs deps).
Proof.
  intros H1 H2 H3 H0. unfold passes. rewrite (fold_last dep_step field (fun ca => Some (value ca.1))) by done.
  rewrite (fold_last desc_step field (fun ca => Some (value ca.1))) by done.
  rewrite (fold_last reg_step field (fun ca => Some (value ca.1))), H0, last_of_chips by done.
  by destruct (last deps), (last descs), (last regs).
Qed.

(** A field that the deprecations leave as it is. *)
Lemma passes_before {Y} (field : RegistryTypeView -> Y) regs descs deps : (forall e ca, field (dep_step e ca) = field e) ->
  field (passes regs descs deps) = field (fold_left desc_step descs (fold_left reg_step regs (empty_view t))).
Proof. apply fold_keeps. Qed.

Lemma passes_describe regs descs deps : describes regs descs deps (passes regs descs deps).
Proof.
  assert (latest_version (passes regs descs deps) = (fun ca => type_version ca.2) <$> last regs) as Hl.
  { rewrite passes_before, desc_latest by done.
    rewrite (fold_last reg_step latest_version (fun ca => Some (type_version ca.2))) by done. by destruct (last regs). }
  split.
  - rewrite passes_before, (fold_keeps desc_step), (fold_keeps reg_step) by done. done.
  - done.
  - rewrite passes_before, (fold_keeps desc_step) by done.
    rewrite (fold_last reg_step tv_required_cap (fun ca => required_cap (schema ca.2))) by done. by destruct (last regs).
  - rewrite passes_before, (fold_last desc_step description (fun ca => Some (d_description ca.2))) by done.
    rewrite (fold_last reg_step description (fun ca => Some (r_description ca.2))) by done. by destruct (last descs), (last regs).
  - rewrite passes_before, (fold_last desc_step tv_docs_url (fun ca => docs_url ca.2)), (fold_keeps reg_step) by done.
    by destruct (last descs).
  - unfold passes. rewrite (fold_flag dep_step deprecated (fun _ => true)) by (intros; cbn; by rewrite orb_true_r).
    rewrite (fold_keeps desc_step), (fold_keeps reg_step) by done. by destruct deps.
  - unfold passes. rewrite (fold_last dep_step deprecation (fun ca => Some (deprecation_note ca.1 ca.2))) by done.
    rewrite (fold_keeps desc_step), (fold_keeps reg_step) by done. by destruct (last deps).
  - by apply passes_last.
  - by apply passes_last.
  - rewrite passes_before by done. rewrite (fold_flag desc_step has_kats (fun ca => negb (bool_decide (d_kats ca.2 = [])))).
    + by rewrite (fold_flag reg_step has_kats (fun ca => negb (bool_decide (r_kats ca.2 = [])))).
    + intros c ca. cbn. case_bool_decide; cbn; by rewrite ?orb_true_r, ?orb_false_r.
  - intros ver. rewrite Hl, passes_before, desc_versions, reg_versions by done. change (versions (empty_view t) !! ver) with (@None RegistryVersionView).
    replace (latest_version (fold_left reg_step regs (empty_view t))) with ((fun ca => type_version ca.2) <$> last regs).
    2: { rewrite (fold_last reg_step latest_version (fun ca => Some (type_version ca.2))) by done. by destruct (last regs). }
    by destruct (last_version regs ver).
Qed.

(** C20: A type is in the registry exactly when a meta chip of the world names it,
    and its view is a function of the meta chips that name it: chips of other
    types and worlds, and chips that do not parse, play no part. *)
Theorem registry_view_exact registers describes_ deprecates :
  let regs := history parse_register r_target_type registers in
  let descs := history parse_describe d_target_type describes_ in
  let deps := history parse_deprecate x_target_type deprecates in
  match fold_registry world_filter registers describes_ deprecates !! t with
  | None => regs = [] /\ descs = [] /\ deps = []
  | Some v => chips_of regs descs deps <> [] /\ describes regs descs deps v
  end.
Proof.
  intros regs descs deps. unfold fold_registry, register_turn, describe_turn, deprecate_turn. rewrite !pass_history, lookup_empty.
  fold regs descs deps. pose proof (passes_describe regs descs deps) as H. unfold passes in H. unfold chips_of.
  destruct regs, descs, deps; (split; [done|exact H]) || done.
Qed.
End View.

(** ** Registrations *)

Lemma reserved_prefixes s : List.find (fun prefix => starts_with prefix s) RESERVED_PREFIXES = None <-> starts_with "ubl/" s = false.
Proof.
  unfold RESERVED_PREFIXES. cbn [List.find]. destruct (starts_with "ubl/" s) eqn:E; [done|].
  destruct (starts_with "ubl/meta." s) eqn:E2; [|done].
  apply starts_with_Some in E2 as (rest & ->). exfalso. revert E. change ("ubl/meta." +:+ rest) with ("ubl/" +:+ ("meta." +:+ rest)).
  by rewrite starts_with_app.
Qed.

Lemma read_kats_exact l i ks : read_kats i l = Ok ks <-> mapM kat_from_value l = Some ks.
Proof.
  revert i ks. induction l as [|v l IH]; intros i ks; cbn; [split; by intros [= <-]|].
  destruct (kat_from_value v) as [k|]; cbn; [|done]. specialize (IH (S i)).
  destruct (read_kats (S i) l) as [ks'|] eqn:E, (mapM kat_from_value l) as [l0|] eqn:F; cbn; try done.
  - assert (Some l0 = Some ks') as [= ->] by by apply IH. split; by intros [= <-].
  - by assert (None = Some ks') by by apply IH.
  - by assert (Err e = Ok l0) by by apply IH.
Qed.

Lemma check_kats_exact t l i : check_kats t i l = Ok tt <-> Forall (fun k => kat_type k = t) l.
Proof.
  revert i. induction l as [|k l IH]; intros i; cbn; [by split|]. rewrite Forall_cons, <- (IH (S i)).
  destruct (String.eqb_spec (kat_type k) t); naive_solver.
Qed.

Lemma ok_or_ok {E A} (o : option A) (e : E) a : ok_or o e = Ok a <-> o = Some a.
Proof. destruct o; cbn; naive_solver. Qed.

(** A registration is read exactly when it names a type outside [ubl/], has a
    description, a schema that can be read and a non-empty list of tests, every
    one of which can be read and has an input of the registered type. *)
Theorem registration_exact body r : parse_register body = Ok r <->
  str_member "target_type" body = Some (r_target_type r) /\ starts_with "ubl/" (r_target_type r) = false /\
  str_member "description" body = Some (r_description r) /\ (member "schema" body ≫= schema_from_value) = Some (schema r) /\
  (exists l, (member "kats" body ≫= as_array) = Some l /\ l <> [] /\ mapM kat_from_value l = Some (r_kats r)) /\
  Forall (fun k => kat_type k = r_target_type r) (r_kats r) /\ type_version r = default "1.0" (str_member "type_version" body).
Proof.
  unfold parse_register, need. rewrite result_bind_ok. setoid_rewrite ok_or_ok. split.
  - intros (t & Ht & H). destruct (List.find _ _) eqn:Ep; [done|]. apply reserved_prefixes in Ep.
    apply result_bind_ok in H as (d & Hd%ok_or_ok & (v & Hv%ok_or_ok & (sc & Hs%ok_or_ok & (l & Hl%ok_or_ok & H)%result_bind_ok)%result_bind_ok)%result_bind_ok).
    case_bool_decide; [done|]. apply result_bind_ok in H as (ks & Hk%read_kats_exact & ([] & Hc%check_kats_exact & [= <-])%result_bind_ok).
    cbn. rewrite Hv. cbn. split_and!; eauto.
  - intros (Ht & Hp & Hd & Hs & (l & Hl & Hne & Hk) & Hc & Hver). exists (r_target_type r). split; [done|].
    rewrite (proj2 (reserved_prefixes _) Hp), Hd. cbn [ok_or mbind result_bind].
    destruct (member "schema" body) as [v|]; [|done]. cbn in Hs |- *. rewrite Hs, Hl. cbn. rewrite bool_decide_eq_false_2 by done.
    rewrite (proj2 (read_kats_exact l 0 _) Hk). cbn. rewrite (proj2 (check_kats_exact _ _ 0) Hc). cbn. rewrite <- Hver. by destruct r.
Qed.

(** ** Readers and writers *)

(** Tests, fields and schemas survive being written and read back. *)
Lemma kat_roundtrip k : kat_from_value (kat_to_value k) = Some k.
Proof. by destruct k as [l i d [e|]]. Qed.
Lemma field_roundtrip f : field_from_value (field_to_value f) = Some f.
Proof. by destruct f. Qed.

Lemma fields_roundtrip l : fields_from_value (JArray (field_to_value <$> l)) = Some l.
Proof.
  unfold fields_from_value. cbn [as_array mbind option_bind]. induction l as [|f l IH]; [done|].
  cbn [fmap list_fmap mapM]. rewrite field_roundtrip. cbn. by rewrite IH.
Qed.

Theorem schema_roundtrip sc : schema_from_value (schema_to_value sc) = Some sc.
Proof.
  destruct sc as [req opt cap]. unfold schema_from_value, schema_to_value.
  change (struct_of 3 _) with true. unfold at_field, opt_str_at. cbn [member required_fields optional_fields MetaChip.required_cap].
  assert (forall rest, get "required_fields" (JObject ([("required_fields", JArray (field_to_value <$> req));
    ("optional_fields", JArray (field_to_value <$> opt))] ++ rest)) = Some (JArray (field_to_value <$> req))) as H1 by done.
  assert (forall rest, get "optional_fields" (JObject ([("required_fields", JArray (field_to_value <$> req));
    ("optional_fields", JArray (field_to_value <$> opt))] ++ rest)) = Some (JArray (field_to_value <$> opt))) as H2 by done.
  unfold member. rewrite H1, H2. cbn [mbind option_bind]. rewrite !fields_roundtrip. cbn [mbind option_bind]. by destruct cap.
Qed.

(** ** Limits of the registry *)

(** The prefix is checked for registrations only: a description or a
    deprecation may name a type of the system. *)
Example reserved_types_deprecated :
  parse_deprecate (JObject [("target_type", JString "ubl/token"); ("reason", JString "old")]) =
  Ok (mkDeprecate "ubl/token" "old" None None).
Proof. reflexivity. Qed.

(** The second reserved prefix is never reported. *)
Example meta_prefix_unreported :
  parse_register (JObject [("target_type", JString "ubl/meta.register")]) = Err (ReservedPrefix "ubl/").
Proof. reflexivity. Qed.
