(* ===== verification/GateEvents.v ===== *)
(** * Event streams, searches and the advisor of the gate

    [ubl_gate/src/events.rs], [advisor.rs], [audit.rs], [outbox.rs] and the data
    of the event pages of [console.rs], over the store of [EventStore].  The
    HTML of the pages is not modelled: a page is the record its template
    prints.  Streams are the frames they send, given what the bus delivers.

    The theorems: a search finds what the pipeline published
    ([search_finds_published]) but its pages never end
    ([search_pages_never_end]); the live half of a stream agrees with the stored
    one except on patterns ([live_agrees_with_history]); the console shows the
    oldest events ([console_shows_oldest]); the advisor does not panic on its
    percentiles ([advisor_never_panics]). *)

From Stdlib Require Import SpecFloat.
From S2P Require Import Prelude RustStd RustStr Json Nrf BigNum Types Policy Receipt AuditChip EventBus Durable ChipStore.
From S2P Require Import PipelineTypes Compaction Transition RichUrl ErrorResponse Envelope GateState Registry Sled EventStore.
Local Open Scope string_scope.
Local Open Scope Z_scope.
Local Open Scope list_scope.

(** The [Display] of the store's errors. *)
Class EventTexts : Type := { event_error_text : EventStoreError -> string; store_error_text : ChipStore.ChipStoreError -> string }.

Definition json_opt_int (o : option Z) : json := match o with Some z => json_i64 z | None => JNull end.

(** ** Events of the hub *)

Definition normalize_stage (stage : string) : string :=
  let s := to_ascii_lowercase stage in
  if String.eqb s "knock" then "KNOCK"
  else if String.eqb s "wa" || String.eqb s "write_ahead" then "WA"
  else if String.eqb s "check" then "CHECK"
  else if String.eqb s "tr" || String.eqb s "transition" then "TR"
  else if String.eqb s "wf" || String.eqb s "write_finished" then "WF"
  else if String.eqb s "registry" then "REGISTRY"
  else to_ascii_uppercase s.

Definition deterministic_event_id (e : ReceiptEvent) (stage : string) : string :=
  "evt:" +:+ ev_receipt_cid e +:+ ":" +:+ stage +:+ ":" +:+ default "" (ev_input_cid e) +:+ ":" +:+ default "" (ev_output_cid e).

(** A member that is removed when it is null. *)
Definition unless_null (k : string) (o : option string) : list (string * json) :=
  match o with Some s => [(k, JString s)] | None => [] end.

Definition or_opt_int (a b : option Z) : option Z := match a with Some x => Some x | None => b end.

Definition to_hub_event (e : ReceiptEvent) : json :=
  let stage := normalize_stage (ev_pipeline_stage e) in
  JObject [("@type", JString "ubl/event"); ("@ver", JString "1.0.0"); ("@id", JString (deterministic_event_id e stage));
           ("@world", JString (default "a/system" (ev_world e))); ("source", JString "pipeline"); ("stage", JString stage);
           ("when", JString (ev_timestamp e));
           ("chip", JObject [("type", JString (ev_receipt_type e)); ("id", JString (default "" (str_at "@id" (ev_metadata e))));
                             ("ver", JString (default "" (str_at "@ver" (ev_metadata e))))]);
           ("receipt", JObject ([("cid", JString (ev_receipt_cid e)); ("decision", json_opt (to_ascii_uppercase <$> ev_decision e))]
                                ++ unless_null "code" (str_at "code" (ev_metadata e)) ++ unless_null "knock_cid" (ev_knock_cid e)));
           ("perf", JObject [("latency_ms", json_opt_int (or_opt_int (ev_latency_ms e) (ev_duration_ms e)));
                             ("fuel", json_opt_int (ev_fuel_used e)); ("mem_kb", JNull)]);
           ("actor", JObject ([("kid", json_opt (ev_actor e))] ++ unless_null "did" (ev_subject_did e)
                              ++ unless_null "cap" (str_at "cap" (ev_metadata e))));
           ("artifacts", json_strings (ev_artifact_cids e));
           ("runtime", JObject [("binary_hash", json_opt (ev_binary_hash e)); ("build", default JNull (ev_build_meta e))]);
           ("labels", JObject [])].

Record EventStreamQuery : Type := mkStream {
  es_world : option string; es_stage : option string; es_decision : option string; es_code : option string;
  es_chip_type : option string; es_actor : option string; es_since : option string; es_limit : option Z }.

Definition same_text (actual wanted : string) : bool := String.eqb actual wanted || eq_ignore_ascii_case actual wanted.

Definition hub_matches_query (e : json) (q : EventStreamQuery) : bool :=
  passes_filter (es_world q) (fun w => bool_decide (str_at "@world" e = Some w)) &&
  passes_filter (es_stage q) (same_text (default "" (str_at "stage" e))) &&
  passes_filter (es_decision q) (same_text (default "" (str_at2 "receipt" "decision" e))) &&
  passes_filter (es_code q) (fun c => bool_decide (str_at2 "receipt" "code" e = Some c)) &&
  passes_filter (es_chip_type q) (fun t => String.eqb t "*" || String.eqb (default "" (str_at2 "chip" "type" e)) t) &&
  passes_filter (es_actor q) (fun a => bool_decide (str_at2 "actor" "kid" e = Some a)).

Definition stream_query (q : EventStreamQuery) : EventQuery :=
  mkQuery (es_world q) (es_stage q) (es_decision q) (es_code q) (es_chip_type q) (es_actor q) (es_since q) (es_limit q).

(** ** Ingestion

    The task that [run] spawns: each event that the bus delivers is appended;
    failures are logged, lagging loses events. *)

Inductive bus_item : Type := Received (e : ReceiptEvent) | Lagged.

Section Hub.
Context {SJ : SerdeJson} {BL : Blake3} {CM : ChronoMillis} {ET : EventTexts}.
Context {EventStore : Type} {SLD : Sled EventStore EventStoreError}.

Definition ingest (items : list bus_item) (s : EventStore) : EventStore :=
  fold_left (fun s i => match i with Received e => (append_event_json (to_hub_event e) s).1 | Lagged => s end) items s.

Definition internal_document (message : string) : Response := (500, [], plain_error "INTERNAL_ERROR" message).

(** Handlers that need the event store. *)
Definition with_store {A} (unavailable : string) (f : EventStore -> EventStore * (Response + A)) (es : option EventStore)
    : option EventStore * (Response + A) :=
  match es with
  | None => (None, inl (503, [], plain_error "UNAVAILABLE" unavailable))
  | Some s => let '(s', r) := f s in (Some s', r)
  end.

(** ** The stream *)

Definition frame_of (e : json) : string * json := (default "evt" (str_at "@id" e), e).

(** The frames: the stored events of the query, then the events that the bus
    delivers after the subscription, which follows the query. *)
Definition stream_events (q : EventStreamQuery) (received : list bus_item)
    : option EventStore -> option EventStore * (Response + list (string * json)) :=
  with_store "Event hub unavailable: enable EventStore" (fun s =>
    match query (stream_query q) s with
    | (s', Err e) => (s', inl (internal_document ("event query failed: " +:+ event_error_text e)))
    | (s', Ok historical) =>
        let live := omap (fun i => match i with
                                   | Received e => if hub_matches_query (to_hub_event e) q then Some (to_hub_event e) else None
                                   | Lagged => None
                                   end) received in
        (s', inr (frame_of <$> (historical ++ live)))
    end).

(** ** Searches *)

Record EventSearchQuery : Type := mkSearch {
  se_world : option string; se_stage : option string; se_decision : option string; se_code : option string;
  se_chip_type : option string; se_actor : option string; se_from : option string; se_to : option string;
  se_page_key : option string; se_limit : option Z }.

Definition parse_when_to_ms (input : string) : option Z :=
  match parse_i64 input with Some ms => Some ms | None => rfc3339_millis input end.

Definition event_when (e : json) : option string := or_opt (str_at "when" e) (str_at "timestamp" e).

Definition search_since (q : EventSearchQuery) : string := default "0" (or_opt (se_page_key q) (se_from q)).
Definition search_query (q : EventSearchQuery) : EventQuery :=
  mkQuery (se_world q) (se_stage q) (se_decision q) (se_code q) (se_chip_type q) (se_actor q) (Some (search_since q)) (se_limit q).

(** [retain]: the events up to the end of the search. *)
Definition up_to (to : option string) (events : list json) : list json :=
  match to ≫= parse_when_to_ms with
  | Some to => List.filter (fun e => match event_when e ≫= parse_when_to_ms with Some ms => ms <=? to | None => false end) events
  | None => events
  end.

Definition search_document (events : list json) : json :=
  JObject [("@type", JString "ubl/events.search.response"); ("count", json_usize (length events));
           ("next_page_key", json_opt (last events ≫= event_when)); ("events", JArray events)].

Definition search_events (q : EventSearchQuery) : option EventStore -> option EventStore * (Response + Empty_set) :=
  with_store "Event hub unavailable: enable EventStore" (fun s =>
    match query (search_query q) s with
    | (s', Err e) => (s', inl (internal_document ("event search failed: " +:+ event_error_text e)))
    | (s', Ok events) => (s', inl (200, [], search_document (up_to (se_to q) events)))
    end).

(** ** The advisor *)

(** A duration in milliseconds; [None] is no window, [Err] the panic of
    [split_at] inside a character. *)
Definition parse_window_duration (input : option string) : result gate_stop (option Z) :=
  match str_trim <$> input with
  | None | Some EmptyString => Ok None
  | Some raw =>
      match parse_u64 raw with
      | Some ms => Ok (Some ms)
      | None =>
          match split_last raw with
          | None => Ok None
          | Some (num, unit) =>
              if is_cont (byte_of_ascii unit) then Err GatePanic
              else Ok (value ← parse_u64 num;
                       if existsb (Ascii.eqb unit) ["s"; "S"]%char then Some (1000 * value)
                       else if existsb (Ascii.eqb unit) ["m"; "M"]%char then Some (1000 * Z.min u64_max (value * 60))
                       else if existsb (Ascii.eqb unit) ["h"; "H"]%char then Some (1000 * Z.min u64_max (value * 3600))
                       else None)
          end
      end
  end.

(** *** [f64] *)

Definition f64_of_int (z : Z) : spec_float := binary_normalize 53 1024 z 0 false.
(** The number with the given bits; and its bits. *)
Definition f64_of_bits (b : Z) : spec_float :=
  let neg := Z.testbit b 63 in
  let ex := (b / 2 ^ 52) mod 2 ^ 11 in
  let m := b mod 2 ^ 52 in
  if ex =? 2047 then (if m =? 0 then S754_infinity neg else S754_nan)
  else if ex =? 0 then (if m =? 0 then S754_zero neg else S754_finite neg (Z.to_pos m) (-1074))
  else S754_finite neg (Z.to_pos (m + 2 ^ 52)) (ex - 1075).
Definition bits_of_f64 (x : spec_float) : Z :=
  let sign (neg : bool) := if neg then 2 ^ 63 else 0 in
  match x with
  | S754_zero neg => sign neg
  | S754_infinity neg => sign neg + 2047 * 2 ^ 52
  | S754_nan => 2047 * 2 ^ 52 + 2 ^ 51
  | S754_finite neg m e =>
      sign neg + (if Z.pos m <? 2 ^ 52 then Z.pos m else (e + 1075) * 2 ^ 52 + (Z.pos m - 2 ^ 52))
  end.
(** [Value::as_f64] *)
Definition as_f64 (v : json) : option spec_float :=
  match v with
  | JNumber (PosInt z) | JNumber (NegInt z) => Some (f64_of_int z)
  | JNumber (Float b) => Some (f64_of_bits b)
  | _ => None
  end.
Definition json_f64 (x : spec_float) : json := JNumber (Float (bits_of_f64 x)).

(** [a.partial_cmp(b).unwrap_or(Equal)] is not [Greater]. *)
Definition f64_leb (a b : spec_float) : bool := match SFcompare a b with Some Gt => false | _ => true end.

(** *** Snapshots *)

Definition member (k : string) (v : json) : json := default JNull (get k v).
Definition member2 (k k' : string) (v : json) : json := default JNull (get k v ≫= get k').
Definition latency_of (e : json) : option spec_float := (get "perf" e ≫= get "latency_ms") ≫= as_f64.

(** [lat_stage]: the latencies of each stage, in the order of the events. *)
Definition latencies (events : list json) : list (string * list spec_float) :=
  fold_left (fun m e => match latency_of e with
                        | Some lat => let stage := default "UNKNOWN" (str_at "stage" e) in
                            btree_insert stage (default [] (btree_get stage m) ++ [lat]) m
                        | None => m
                        end) events [].

Definition p95_index (len : nat) : nat := Z.to_nat (f64_round_usize (f64_mul (f64_of_len (len - 1)) q95)).
(** [None] is the panic of an index out of bounds. *)
Definition p95_of (vals : list spec_float) : option spec_float := sort_by f64_leb vals !! p95_index (length vals).

Definition p95_by_stage (events : list json) : option (list (string * json)) :=
  mapM (fun sv => p ← p95_of sv.2; Some (sv.1, json_f64 p)) (latencies events).

Definition outlier_of (e : json) : option (spec_float * json) :=
  lat ← latency_of e;
  Some (lat, JObject [("receipt_cid", member2 "receipt" "cid" e); ("stage", member "stage" e);
                      ("chip_type", member2 "chip" "type" e); ("latency_ms", json_f64 lat)]).
Definition top_outliers (events : list json) : list json :=
  take 5 ((sort_by (fun a b => f64_leb b.1 a.1) (omap outlier_of events)).*2).

Definition sample_of (e : json) : json :=
  JObject [("event_id", member "@id" e); ("when", member "when" e); ("stage", member "stage" e);
           ("chip_type", member2 "chip" "type" e); ("receipt_cid", member2 "receipt" "cid" e);
           ("decision", member2 "receipt" "decision" e); ("code", member2 "receipt" "code" e)].

(** What a snapshot reads: the clock, and the pending rows of the outbox when
    the service has a database that answers. *)
Record Reading : Type := mkReading { rd_now_ms : Z; rd_now_text : string; rd_outbox : option Z }.

(** [min_instant]: the earliest instant of [chrono], in milliseconds. *)
Definition window_start (min_instant now window : Z) : result string Z :=
  if i64_max <? window then Err "Source duration value is out of range for the target type"
  else if now - window <? min_instant then Err "window underflow" else Ok (now - window).

Definition frame_document (r : Reading) (world : option string) (window : Z) (events : list json) (p95 : list (string * json)) : json :=
  JObject [("@type", JString "ubl/advisor.tap.frame"); ("@ver", JString "1.0.0"); ("@id", JString ("adv-" +:+ i_to_string (rd_now_ms r)));
           ("@world", JString (default "*" world)); ("generated_at", JString (rd_now_text r));
           ("window_ms", json_u64 (window mod 2 ^ 64));
           ("counts", JObject [("stage", json_counts (count_names (omap (str_at "stage") events)));
                               ("decision", json_counts (count_names (omap (str_at2 "receipt" "decision") events)));
                               ("code", json_counts (count_names (omap (str_at2 "receipt" "code") events)))]);
           ("latency_ms_p95_by_stage", JObject p95); ("top_outliers", JArray (top_outliers events));
           ("samples", JArray (sample_of <$> take 5 (reverse events)));
           ("outbox", JObject [("pending", json_opt_int (rd_outbox r)); ("retries", JNull)])].

Definition advisor_query (world : option string) (since limit : Z) : EventQuery :=
  mkQuery world None None None None None (Some (i_to_string since)) (Some limit).

Inductive snapshot : Type := Frame (f : json) | Refused (s : string) | SnapshotPanic.

Definition build_advisor_snapshot (min_instant : Z) (r : Reading) (world : option string) (window limit : Z) (s : EventStore)
    : EventStore * snapshot :=
  match window_start min_instant (rd_now_ms r) window with
  | Err e => (s, Refused e)
  | Ok since =>
      match query (advisor_query world since limit) s with
      | (s', Err e) => (s', Refused (event_error_text e))
      | (s', Ok events) =>
          match p95_by_stage events with
          | Some p95 => (s', Frame (frame_document r world window events p95))
          | None => (s', SnapshotPanic)
          end
      end
  end.

Record AdvisorQuery : Type := mkAdvisor {
  aq_world : option string; aq_window : option string; aq_interval_ms : option Z; aq_limit : option Z }.

Definition advisor_limit (q : AdvisorQuery) : Z := clamp 100 50000 (default 10000 (aq_limit q)).
Definition advisor_window (q : AdvisorQuery) : result gate_stop Z :=
  w ← parse_window_duration (aq_window q); Ok (default 300000 w).
Definition tap_interval (q : AdvisorQuery) : Z := clamp 1000 5000 (default 2000 (aq_interval_ms q)).

Definition advisor_snapshots (min_instant : Z) (r : Reading) (q : AdvisorQuery) (es : option EventStore)
    : option EventStore * result gate_stop Response :=
  match es with
  | None => (None, Ok (503, [], plain_error "UNAVAILABLE" "Advisor snapshot unavailable: enable EventStore"))
  | Some s =>
      match advisor_window q with
      | Err e => (Some s, Err e)
      | Ok window =>
          match build_advisor_snapshot min_instant r (aq_world q) window (advisor_limit q) s with
          | (s', Frame frame) =>
              (Some s', Ok (200, [], JObject [("@type", JString "ubl/advisor.snapshot"); ("window_ms", json_u64 (window mod 2 ^ 64));
                                              ("snapshot", frame)]))
          | (s', Refused e) => (Some s', Ok (internal_document ("advisor snapshot failed: " +:+ e)))
          | (s', SnapshotPanic) => (Some s', Err GatePanic)
          end
      end
  end.

(** The rounds of the tap, one per reading: a failed snapshot sends nothing, a
    panic ends the stream. *)
Fixpoint tap_rounds (min_instant : Z) (q : AdvisorQuery) (window : Z) (readings : list Reading) (s : EventStore)
    : EventStore * list (string * json) :=
  match readings with
  | [] => (s, [])
  | r :: rest =>
      match build_advisor_snapshot min_instant r (aq_world q) window (advisor_limit q) s with
      | (s', SnapshotPanic) => (s', [])
      | (s', Refused _) => tap_rounds min_instant q window rest s'
      | (s', Frame frame) =>
          let '(s2, frames) := tap_rounds min_instant q window rest s' in
          (s2, (default "adv" (str_at "@id" frame), frame) :: frames)
      end
  end.

Definition advisor_tap (min_instant : Z) (readings : list Reading) (q : AdvisorQuery) (es : option EventStore)
    : option EventStore * result gate_stop (Response + list (string * json)) :=
  match es with
  | None => (None, Ok (inl (503, [], plain_error "UNAVAILABLE" "Advisor tap unavailable: enable EventStore")))
  | Some s =>
      match advisor_window q with
      | Err e => (Some s, Err e)
      | Ok window => let '(s', frames) := tap_rounds min_instant q window readings s in (Some s', Ok (inr frames))
      end
  end.

(** ** Pages

    What the templates of the console print. *)

Definition normalize_console_tab (raw : string) : string :=
  let s := to_ascii_lowercase raw in
  if String.eqb s "stats" || String.eqb s "stat" || String.eqb s "estatisticas" then "stats" else "live".

(** The [world] parameter, unless blank or a star. *)
Definition world_filter (world : option string) : option string :=
  w ← world; if is_empty (str_trim w) || String.eqb w "*" then None else Some w.

Record ConsoleEventRow : Type := mkEventRow {
  row_when : string; row_stage : string; row_decision : string; row_chip_type : string; row_code : string;
  row_receipt_cid : string }.
Record ConsoleEvents : Type := mkConsoleEvents {
  ev_available : bool; ev_message : string; visible_rows : list ConsoleEventRow; hidden_rows : list ConsoleEventRow }.

Definition event_row (e : json) : ConsoleEventRow :=
  mkEventRow (default "-" (str_at "when" e)) (default "-" (str_at "stage" e)) (default "-" (str_at2 "receipt" "decision" e))
    (default "-" (str_at2 "chip" "type" e)) (default "-" (str_at2 "receipt" "code" e)) (default "-" (str_at2 "receipt" "cid" e)).

Definition console_query (world : option string) : EventQuery :=
  mkQuery (world_filter world) None None None None None None (Some 20).

Definition console_events_partial (world : option string) (es : option EventStore) : option EventStore * ConsoleEvents :=
  match es with
  | None => (None, mkConsoleEvents false "EventStore unavailable" [] [])
  | Some s =>
      match query (console_query world) s with
      | (s', Err e) => (Some s', mkConsoleEvents false ("Events query error: " +:+ event_error_text e) [] [])
      | (s', Ok events) =>
          let rows := split_rows (event_row <$> reverse events) 6 in (Some s', mkConsoleEvents true "" rows.1 rows.2)
      end
  end.

Record ConsoleKpis : Type := mkKpis {
  kpi_available : bool; kpi_message : string; generated_at : string; total_events : Z; allow_count : Z; deny_count : Z;
  kpi_outbox : string; visible_p95 : list (string * string); hidden_p95 : list (string * string) }.

(** [fixed2]: [{:.2}] of an [f64]. *)
Definition kpis_of_snapshot (fixed2 : spec_float -> string) (snapshot : json) : ConsoleKpis :=
  let counts k := get "counts" snapshot ≫= get k in
  let count k k' := default 0 ((counts k ≫= get k') ≫= as_u64) in
  let total := match counts "stage" ≫= as_object with
               | Some m => fold_left (fun t kv => u64_saturating_add t (default 0 (as_u64 kv.2))) m 0
               | None => 0
               end in
  let p95 := match get "latency_ms_p95_by_stage" snapshot ≫= as_object with
             | Some m => (fun kv => (kv.1, match as_f64 kv.2 with Some v => fixed2 v | None => "-" end)) <$> m
             | None => []
             end in
  let rows := split_rows (sort_by (fun a b => String.leb a.1 b.1) p95) 6 in
  mkKpis true "" (default "-" (str_at "generated_at" snapshot)) total (count "decision" "ALLOW") (count "decision" "DENY")
    (match (get "outbox" snapshot ≫= get "pending") ≫= as_i64 with Some z => i_to_string z | None => "-" end) rows.1 rows.2.

Definition no_kpis (message : string) : ConsoleKpis := mkKpis false message "-" 0 0 0 "-" [] [].

Definition console_kpis_partial (fixed2 : spec_float -> string) (min_instant : Z) (r : Reading) (world : option string)
    (es : option EventStore) : option EventStore * result gate_stop ConsoleKpis :=
  match es with
  | None => (None, Ok (no_kpis "EventStore unavailable"))
  | Some s =>
      match build_advisor_snapshot min_instant r (world_filter world) 300000 5000 s with
      | (s', Frame snapshot) => (Some s', Ok (kpis_of_snapshot fixed2 snapshot))
      | (s', Refused e) => (Some s', Ok (no_kpis ("Snapshot error: " +:+ e)))
      | (s', SnapshotPanic) => (Some s', Err GatePanic)
      end
  end.
End Hub.

(** ** Audit lists *)

Record AuditRow : Type := mkAuditRow {
  ar_cid : string; ar_chip_type : string; ar_world : string; ar_created_at : string; ar_summary : string }.

Definition normalize_audit_kind (kind : string) : string :=
  if String.eqb kind "reports" then "reports"
  else if String.eqb kind "snapshots" then "snapshots"
  else if String.eqb kind "compactions" then "compactions"
  else "reports".

Definition audit_chip_type_for_kind (kind : string) : string :=
  if String.eqb kind "reports" then "ubl/audit.dataset.v1"
  else if String.eqb kind "snapshots" then "ubl/audit.snapshot.manifest.v1"
  else if String.eqb kind "compactions" then "ubl/ledger.compaction.rollup.v1"
  else "ubl/audit.dataset.v1".

Definition u64_member (o : option json) : string := u_to_string (default 0 (o ≫= as_u64)).

Definition audit_summary (data : json) (kind : string) : string :=
  if String.eqb kind "reports" then
    "lines=" +:+ u64_member (get "line_count" data) +:+ " format=" +:+ default "ndjson" (str_at "format" data)
  else if String.eqb kind "snapshots" then
    "segments=" +:+ u64_member (get "coverage" data ≫= get "segments") +:+ " dataset=" +:+ default "-" (str_at2 "artifacts" "dataset" data)
  else if String.eqb kind "compactions" then
    "freed_bytes=" +:+ u64_member (get "freed_bytes" data) +:+ " mode=" +:+ default "-" (str_at "mode" data)
  else "-".

Section Audit.
Context {ET : EventTexts} {B : Type} {BE : ChipStoreBackend B}.

Definition audit_chips_query (kind : string) (world : option string) (limit : nat) : ChipQuery :=
  ChipStore.mkQuery (Some (audit_chip_type_for_kind kind)) (match world with Some w => ["world:" +:+ w] | None => [] end)
    None None None (Some limit) None.

Definition audit_row (kind : string) (chip : StoredChip) : AuditRow :=
  mkAuditRow (cid_as_str (ChipStore.cid chip)) (chip_type chip) (default "-" (str_at "@world" (chip_data chip))) (created_at chip)
    (audit_summary (chip_data chip) kind).

Definition query_audit_rows (store : ChipStore.ChipStore B) (kind : string) (world : option string) (limit : nat)
    : result string (list AuditRow) :=
  match store_query store (audit_chips_query kind world limit) with
  | Ok found => Ok (audit_row kind <$> qr_chips found)
  | Err e => Err (store_error_text e)
  end.

Definition audit_row_document (r : AuditRow) : json :=
  JObject [("cid", JString (ar_cid r)); ("chip_type", JString (ar_chip_type r)); ("world", JString (ar_world r));
           ("created_at", JString (ar_created_at r)); ("summary", JString (ar_summary r))].

Definition list_audit_kind_json (store : ChipStore.ChipStore B) (kind : string) (world : option string) (limit : option Z) : Response :=
  match query_audit_rows store kind (world_filter world) (Z.to_nat (clamp 1 500 (default 100 limit))) with
  | Ok rows => (200, [], JObject [("@type", JString "ubl/audit.list"); ("kind", JString (normalize_audit_kind kind));
                                  ("count", json_usize (length rows)); ("rows", JArray (audit_row_document <$> rows))])
  | Err e => (500, [], plain_error "INTERNAL_ERROR" ("audit list failed: " +:+ e))
  end.
Definition list_audit_reports (store : ChipStore.ChipStore B) := list_audit_kind_json store "reports".
Definition list_audit_snapshots (store : ChipStore.ChipStore B) := list_audit_kind_json store "snapshots".
Definition list_audit_compactions (store : ChipStore.ChipStore B) := list_audit_kind_json store "compactions".

(** The table page: the normalised kind with the visible and hidden rows. *)
Definition audit_table_partial (store : ChipStore.ChipStore B) (kind world : option string)
    : Response + (string * list AuditRow * list AuditRow) :=
  let kind := normalize_audit_kind (default "reports" kind) in
  match query_audit_rows store kind (world_filter world) 100 with
  | Ok rows => let split := split_rows rows 6 in inr (kind, split.1, split.2)
  | Err e => inl (500, [], plain_error "INTERNAL_ERROR" ("audit table query failed: " +:+ e))
  end.
End Audit.

(** ** Delivery of receipts ([outbox.rs])

    [post] is the endpoint's answer to a document: the text of a transport
    error, or a status with a body that may be unreadable. *)
Inductive post_answer : Type := SendFailed (error : string) | Answered (status : Z) (status_text : string) (body : option string).

Definition delivery_payload (e : OutboxEvent) : json :=
  JObject [("event_id", json_i64 (e_id e)); ("event_type", JString (e_type e));
           ("attempt", json_i64 (i64_saturating_add (e_attempts e) 1)); ("payload", e_payload e)].

Definition deliver_emit_receipt_event (post : string -> json -> post_answer) (endpoint : option string) (e : OutboxEvent)
    : result string unit :=
  match endpoint with
  | None => Ok tt
  | Some endpoint =>
      match post endpoint (delivery_payload e) with
      | SendFailed error => Err ("outbox http send failed: " +:+ error)
      | Answered status text body =>
          if is_success status then Ok tt
          else Err ("outbox endpoint returned " +:+ text +:+ " body=" +:+
                    of_chars (take 240 (str_chars (default "<unreadable body>" body))))
      end
  end.

(** The handler of a worker, and one round of it ([run] in [lib.rs]). *)
Definition outbox_handler (post : string -> json -> post_answer) (endpoint : option string) (e : OutboxEvent) : result string unit :=
  if String.eqb (e_type e) "emit_receipt" then deliver_emit_receipt_event post endpoint e
  else Err ("unknown outbox event type: " +:+ e_type e).

Definition outbox_round `{SerdeJson} (post : string -> json -> post_answer) (endpoint : option string) (clock : nat -> Z)
    (claim_fails : stmt -> bool) (fails : nat -> stmt -> bool) (db : Db) (now : Z) : result DurableError nat * Db :=
  run_once (with_backoff 2 300) (fun e => is_ok (outbox_handler post endpoint e)) clock claim_fails fails db now 64.

(** * Theorems *)

Section Facts.
Context {SJ : SerdeJson} {BL : Blake3} {CM : ChronoMillis} {ET : EventTexts}.
Context {EventStore : Type} {SLD : Sled EventStore EventStoreError} {SLL : SledLaws SLD}.
Implicit Types (e : ReceiptEvent) (s : EventStore) (R : list EventRecord).

Lemma uppercase_twice t : to_ascii_uppercase (to_ascii_uppercase t) = to_ascii_uppercase t.
Proof.
  induction t as [|a t IH]; [done|]. cbn. f_equal; [|done]. destruct a as [[] [] [] [] [] [] [] []]; reflexivity.
Qed.

Lemma normalize_stage_upper t : to_ascii_uppercase (normalize_stage t) = normalize_stage t.
Proof. unfold normalize_stage. repeat case_match; try done. apply uppercase_twice. Qed.

Definition hub_id e : string := deterministic_event_id e (normalize_stage (ev_pipeline_stage e)).

(** What the store makes of an event of the hub: its record, unchanged. *)
Lemma normalize_hub e ms : rfc3339_millis (ev_timestamp e) = Some ms ->
  normalize_event (to_hub_event e) = Ok (mkRecord (hub_id e) ms (to_hub_event e)).
Proof.
  intros H. unfold normalize_event, to_hub_event. cbn -[rfc3339_millis]. rewrite H. done.
Qed.

(** An event whose texts are those of Rust strings, with a time after 1970 and
    an identifier without the separator. *)
Record ingestible e ms : Prop := {
  in_time : rfc3339_millis (ev_timestamp e) = Some ms /\ small ms;
  in_id : str_wf (hub_id e) /\ contains_char US (hub_id e) = false;
  in_dims tree v : (tree, Some v) ∈ event_dims (to_hub_event e) -> str_wf v }.

Lemma hub_stage e : event_stage (to_hub_event e) = Some (normalize_stage (ev_pipeline_stage e)).
Proof. done. Qed.
Lemma hub_decision e : event_decision (to_hub_event e) = to_ascii_uppercase <$> ev_decision e.
Proof. unfold event_decision, str_at2, to_hub_event. cbn. by destruct (ev_decision e). Qed.

Lemma hub_plain e ms : ingestible e ms -> plain (mkRecord (hub_id e) ms (to_hub_event e)).
Proof.
  intros [[Ht Hs] Hi Hd]. split; cbn [when_ms event_id event]; [done..| |].
  - rewrite hub_stage. intros t [= <-]. apply normalize_stage_upper.
  - rewrite hub_decision. intros t Ht'. destruct (ev_decision e) as [d|]; [|done]. injection Ht' as <-. apply uppercase_twice.
Qed.

Definition received_events (items : list bus_item) : list ReceiptEvent :=
  omap (fun i => match i with Received e => Some e | Lagged => None end) items.
Definition hub_records (items : list bus_item) : list EventRecord := records (to_hub_event <$> received_events items).

Lemma ingest_appends items s : ingest items s = append_all (to_hub_event <$> received_events items) s.
Proof.
  revert s. induction items as [|[e|] items IH]; intros s; cbn; [done|apply IH|apply IH].
Qed.

Lemma records_plain (P : json -> Prop) events : Forall P events -> (forall v r, P v -> normalize_event v = Ok r -> plain r) ->
  Forall plain (records events).
Proof.
  intros H HP. unfold records. assert (Hgo : forall R, Forall plain R -> Forall plain (fold_left keep_first events R)); [|by apply Hgo].
  induction H as [|v events Hv H IH]; intros R HR; [done|]. cbn [fold_left]. apply IH. unfold keep_first.
  destruct (normalize_event v) as [r|] eqn:En; [|done]. case_match; [done|]. apply Forall_app. split; [done|]. constructor; [by eapply HP|done].
Qed.

Definition all_ingestible (items : list bus_item) : Prop :=
  Forall (fun e => exists ms, ingestible e ms) (received_events items) /\
  Forall (fun e => readable (to_hub_event e)) (received_events items).

Lemma ingested_lists s items : empty_store s -> all_ingestible items ->
  lists (ingest items s) (hub_records items) /\ NoDup (hub_records items) /\ Forall plain (hub_records items).
Proof.
  intros H0 [Hi Hr]. split_and!.
  - rewrite ingest_appends. apply holds_lists, holds_history; [done|]. by apply Forall_fmap.
  - eapply NoDup_fmap_1, records_ids.
  - apply (records_plain (fun v => exists e ms, v = to_hub_event e /\ ingestible e ms)).
    + apply Forall_fmap. eapply Forall_impl; [exact Hi|]. intros e [ms He]. by exists e, ms.
    + intros v r (e & ms & -> & He) Hn. rewrite (normalize_hub e ms) in Hn by apply He. injection Hn as <-. by apply hub_plain.
Qed.

Lemma search_lists s R q : lists s R -> NoDup R -> Forall plain R -> named (search_query q) -> small (query_start (search_query q)) ->
  (search_events q (Some s)).2 = inl (200, [], search_document (up_to (se_to q) (listing (search_query q) R))).
Proof.
  intros HR Hnd Hp Hn Hs. destruct (query_listing s R (search_query q) HR Hnd Hp Hn Hs) as (s' & E & _).
  unfold search_events, with_store. by rewrite E.
Qed.

(** What the pipeline publishes is what a search finds: after the hub has taken
    in the events of the bus, a search answers with exactly the matching
    events, once per identifier, by time and identifier. *)
Theorem search_finds_published s items q : empty_store s -> all_ingestible items -> named (search_query q) -> small (query_start (search_query q)) ->
  (search_events q (Some (ingest items s))).2 =
    inl (200, [], search_document (up_to (se_to q) (listing (search_query q) (hub_records items)))).
Proof. intros H0 Hi Hn Hs. destruct (ingested_lists s items H0 Hi) as (HR & Hnd & Hp). by apply search_lists. Qed.

(** *** The live half of a stream *)

Lemma same_text_ignore a b : same_text a b = eq_ignore_ascii_case a b.
Proof.
  unfold same_text. destruct (String.eqb_spec a b) as [->|]; [|done]. unfold eq_ignore_ascii_case. by rewrite String.eqb_refl.
Qed.

(** Without a pattern in the type, the filter of the live events is the filter
    of the stored ones. *)
Theorem live_agrees_with_history e q :
  (forall t, es_chip_type q = Some t -> contains_char "*" t = false \/ t = "*"%string) ->
  hub_matches_query (to_hub_event e) q = matches_query (to_hub_event e) (stream_query q).
Proof.
  intros Ht. unfold hub_matches_query, matches_query, stream_query. cbn [q_world q_stage q_decision q_code q_chip_type q_actor].
  assert (Hdec : event_decision (to_hub_event e) = str_at2 "receipt" "decision" (to_hub_event e)).
  { unfold event_decision. by destruct (str_at2 _ _ _). }
  assert (Hcode : event_code (to_hub_event e) = str_at2 "receipt" "code" (to_hub_event e)).
  { unfold event_code. by destruct (str_at2 "receipt" "code" _). }
  assert (Hact : event_actor (to_hub_event e) = str_at2 "actor" "kid" (to_hub_event e)).
  { unfold event_actor. by destruct (str_at2 "actor" "kid" _). }
  rewrite Hdec, Hcode, Hact.
  assert (Hs : forall a f, passes_filter f (same_text a) = passes_filter f (eq_ignore_ascii_case a)).
  { intros a [t|]; [apply same_text_ignore|done]. }
  rewrite !Hs. change (event_world (to_hub_event e)) with (str_at "@world" (to_hub_event e)).
  change (event_stage (to_hub_event e)) with (str_at "stage" (to_hub_event e)).
  change (event_chip_type (to_hub_event e)) with (str_at2 "chip" "type" (to_hub_event e)).
  rewrite <- !andb_assoc. do 4 f_equal. rewrite andb_comm. f_equal. destruct (es_chip_type q) as [t|]; [|done].
  cbn [passes_filter]. unfold matches_type_glob. destruct (Ht t eq_refl) as [E| ->]; [rewrite E|done].
  by destruct (String.eqb_spec t "*") as [->|].
Qed.

(** *** Pages *)

(** [rfc3339_millis] reads no text that is an integer. *)
Class MillisLaws : Prop := { rfc3339_no_int t ms : rfc3339_millis t = Some ms -> parse_i64 t = None }.

Definition at_page (q : EventSearchQuery) (key : string) : EventSearchQuery :=
  mkSearch (se_world q) (se_stage q) (se_decision q) (se_code q) (se_chip_type q) (se_actor q) (se_from q) (se_to q) (Some key)
    (se_limit q).

Lemma stored_when r : normalize_event (event r) = Ok r -> exists w, event_when (event r) = Some w /\ rfc3339_millis w = Some (when_ms r).
Proof.
  unfold normalize_event, event_when. destruct (event r) as [| | | | |m] eqn:Er; try done. cbn [as_object ok_or mbind result_bind].
  assert (Hk : forall k, (k = "when" \/ k = "timestamp")%string ->
    str_at k (JObject (insert_missing "@ver" "1.0.0" (insert_missing "@type" "ubl/event" m))) = str_at k (JObject m)).
  { intros k Hk. unfold insert_missing. destruct (contains_key "@type" m), (contains_key "@ver" _); rewrite ?str_at_insert; try done; by destruct Hk as [->| ->]. }
  rewrite (Hk "when"%string), (Hk "timestamp"%string) by auto. destruct (or_opt _ _) as [w|]; [|done]. cbn [ok_or mbind result_bind]. destruct (rfc3339_millis w) as [ms|] eqn:E; [|done].
  cbn [ok_or mbind result_bind]. intros H. exists w. split; [done|]. rewrite E. by injection H as <-.
Qed.

(** A page up to the end of the search. *)
Definition page_of (q : EventSearchQuery) (R : list EventRecord) : list json := up_to (se_to q) (listing (search_query q) R).

Lemma up_to_elem to l v : v ∈ up_to to l -> v ∈ l.
Proof. unfold up_to. destruct (to ≫= _); [|done]. by intros [_ H]%elem_of_list_filter. Qed.
Lemma listing_elem q R v : v ∈ listing q R -> exists r, event r = v /\ r ∈ R /\ selected q r = true.
Proof.
  unfold listing. intros (i & Hv & _)%elem_of_take. apply list_elem_of_lookup_2, list_elem_of_fmap in Hv as (r & -> & Hr).
  apply elem_of_list_filter in Hr as [Hr Hin]. rewrite sort_by_perm in Hin. by exists r.
Qed.

(** The first event of a page that starts at the instant of a matching event
    has this instant. *)
Lemma listing_head q R r : r ∈ R -> selected q r = true -> query_start q = when_ms r ->
  exists x, event x ∈ listing q R /\ x ∈ R /\ when_ms x = when_ms r.
Proof.
  intros Hr Hs Hst.
  assert (Hin : r ∈ List.filter (selected q) (sort_by record_leb R)) by (apply elem_of_list_filter; split; [done|by rewrite sort_by_perm]).
  assert (Hsort : StronglySorted (fun a b => record_leb a b = true) (List.filter (selected q) (sort_by record_leb R))).
  { apply sorted_list_filter, sort_by_sorted; [apply record_leb_total|apply record_leb_trans]. }
  assert (Hsel : forall x, x ∈ List.filter (selected q) (sort_by record_leb R) -> x ∈ R /\ when_ms r <= when_ms x).
  { intros x [Hx Hin']%elem_of_list_filter. rewrite sort_by_perm in Hin'. split; [done|].
    apply andb_true_iff in Hx as [Hx _]. apply Z.leb_le in Hx. lia. }
  unfold listing. destruct (List.filter _ _) as [|x l]; [by apply elem_of_nil in Hin|]. exists x.
  destruct (Hsel x) as [Hx Hle]; [left|]. split_and!; [|done|].
  - assert (query_limit q <> 0)%nat as Hl by (unfold query_limit; lia). destruct (query_limit q); [done|]. left.
  - apply elem_of_cons in Hin as [->|Hin]; [done|]. apply StronglySorted_inv in Hsort as [_ Hall].
    rewrite Forall_forall in Hall. specialize (Hall r Hin). unfold record_leb in Hall.
    rewrite orb_true_iff, andb_true_iff, Z.ltb_lt, Z.eqb_eq in Hall. lia.
Qed.

(** [n] more pages follow, none of them empty, each reached by the key of the
    one before it. *)
Fixpoint more_pages (n : nat) (q : EventSearchQuery) (s : EventStore) : Prop :=
  exists page v key, (search_events q (Some s)).2 = inl (200, [], search_document page) /\
    last page = Some v /\ event_when v = Some key /\
    match n with O => True | S n' => more_pages n' (at_page q key) s end.

Lemma next_page `{!MillisLaws} s R q v : lists s R -> Forall plain R -> last (page_of q R) = Some v ->
  exists key, event_when v = Some key /\ small (query_start (search_query (at_page q key))) /\
    exists v', last (page_of (at_page q key) R) = Some v'.
Proof.
  intros HR Hp Hv. assert (Hin : v ∈ page_of q R) by (apply last_Some in Hv as [l ->]; apply elem_of_app; right; left).
  destruct (listing_elem _ _ _ (up_to_elem _ _ _ Hin)) as (r & <- & Hr & Hsel).
  assert (Hwhen : forall r, r ∈ R -> exists w, event_when (event r) = Some w /\ rfc3339_millis w = Some (when_ms r)).
  { intros r' Hr'. apply (lists_stored _ _ HR) in Hr' as (kv & _ & _ & _ & Hx). by apply stored_when. }
  assert (Hparse : forall w ms, rfc3339_millis w = Some ms -> parse_when_to_ms w = Some ms).
  { intros w ms Hw. unfold parse_when_to_ms. by rewrite (rfc3339_no_int _ _ Hw). }
  destruct (Hwhen r Hr) as (key & Hkey & Hms). exists key.
  assert (Hst : query_start (search_query (at_page q key)) = when_ms r).
  { unfold query_start, search_query, search_since, at_page. cbn. by rewrite (rfc3339_no_int _ _ Hms), Hms. }
  assert (Hsel' : selected (search_query (at_page q key)) r = true).
  { unfold selected in *. rewrite Hst, Z.leb_refl. apply andb_true_iff in Hsel as [_ Hm]. exact Hm. }
  split_and!; [done|rewrite Hst; rewrite Forall_forall in Hp; by destruct (Hp r Hr)|].
  destruct (listing_head _ R r Hr Hsel' Hst) as (x & Hx & HxR & Hxm). destruct (Hwhen x HxR) as (w' & Hw' & Hms').
  destruct (last (page_of (at_page q key) R)) as [v'|] eqn:El; [by eexists|]. exfalso. apply last_None in El.
  assert (event x ∈ page_of (at_page q key) R) as Hn; [|rewrite El in Hn; by apply elem_of_nil in Hn].
  unfold page_of, up_to in Hin |- *. cbn [at_page se_to]. destruct (se_to q ≫= _) as [e|]; [|done].
  apply elem_of_list_filter in Hin as [Hle _]. apply elem_of_list_filter. split; [|done].
  rewrite Hkey in Hle. rewrite Hw'. cbn in *. rewrite (Hparse _ _ Hms) in Hle. by rewrite (Hparse _ _ Hms'), Hxm.
Qed.

(** C25: Pages never end: once a search has a page that is not empty, following
    the keys of its pages leads to a further page that is not empty and has a
    key, any number of times; with an end of the search or without.

    The store lists the records [R], each once and each [plain] (an instant from
    1970 on, identifier and indexed texts that are texts without the separator,
    stage and decision in capitals); no filter of the search is the empty text
    and its start is an instant from 1970 on. *)
Theorem search_pages_never_end `{!MillisLaws} s R q v n :
  lists s R -> NoDup R -> Forall plain R -> named (search_query q) -> small (query_start (search_query q)) ->
  last (up_to (se_to q) (listing (search_query q) R)) = Some v -> more_pages n q s.
Proof.
  intros HR Hnd Hp. revert q v. induction n as [|n IH]; intros q v Hn Hs Hv;
    destruct (next_page s R q v HR Hp Hv) as (key & Hk & Hs' & v' & Hv'); cbn [more_pages];
    exists (page_of q R), v, key; (split_and!; [by apply search_lists|done|done|]); [done|]. by apply (IH _ v').
Qed.

(** *** What the console shows *)

Lemma insert_by_last (r x : EventRecord) l : record_leb x r = true -> insert_by record_leb x (l ++ [r]) = insert_by record_leb x l ++ [r].
Proof.
  intros H. induction l as [|y l IH]; cbn; [by rewrite H|]. destruct (record_leb x y); [done|]. by rewrite IH.
Qed.

Lemma sort_by_last R r : Forall (fun x => record_leb x r = true) R -> sort_by record_leb (R ++ [r]) = sort_by record_leb R ++ [r].
Proof.
  induction 1 as [|x R Hx H IH]; cbn; [done|]. by rewrite IH, insert_by_last.
Qed.

(** A page that is full does not change when later events come. *)
Lemma listing_frozen q R r : Forall (fun x => record_leb x r = true) R ->
  (query_limit q <= length (List.filter (selected q) R))%nat -> listing q (R ++ [r]) = listing q R.
Proof.
  intros Hr Hn. unfold listing. rewrite sort_by_last by done. rewrite List.filter_app, fmap_app, take_app_le; [done|].
  rewrite length_fmap. etrans; [exact Hn|]. apply Nat.eq_le_incl, Permutation_length.
  assert (Hp : R ≡ₚ sort_by record_leb R) by by rewrite sort_by_perm. clear -Hp.
  induction Hp as [|x l l' Hp IH|x y l|l l' l'' _ IH1 _ IH2]; cbn; [done| | |by etrans].
  - destruct (selected q x); [by constructor|done].
  - destruct (selected q x), (selected q y); try done. apply Permutation_swap.
Qed.

(** The list of live events shows the twenty oldest events: once it is full, no
    later event appears in it. *)
Theorem console_shows_oldest s s' R r world :
  lists s R -> lists s' (R ++ [r]) -> NoDup (R ++ [r]) -> Forall plain (R ++ [r]) ->
  Forall (fun x => record_leb x r = true) R ->
  (20 <= length (List.filter (selected (console_query world)) R))%nat ->
  (console_events_partial world (Some s')).2 = (console_events_partial world (Some s)).2.
Proof.
  intros HR HR' Hnd Hp Hr Hn. assert (Hz : small (query_start (console_query world))) by (unfold small, i64_max; cbn; lia).
  assert (Hnm : named (console_query world)) by done.
  pose proof (proj1 (Forall_app _ _ _) Hp) as [Hp1 _]. assert (NoDup R) as Hnd1 by (by apply NoDup_app in Hnd as [? _]).
  destruct (query_listing s R (console_query world) HR Hnd1 Hp1 Hnm Hz) as (s1 & E1 & _).
  destruct (query_listing s' (R ++ [r]) (console_query world) HR' Hnd Hp Hnm Hz) as (s2 & E2 & _).
  unfold console_events_partial. rewrite E1, E2, listing_frozen; [done..|]. exact Hn.
Qed.

(** *** The advisor *)

Lemma fetch_ids_length q n ids out s s' l : (length out < n)%nat -> fetch_ids q n ids out s = (s', Ok l) -> (length l <= n)%nat.
Proof.
  revert out s. induction ids as [|id ids IH]; intros out s Ho H; cbn [fetch_ids] in H; [injection H as _ <-; lia|].
  apply M_bind_ok in H as (s1 & [e|] & _ & H); [|by eapply IH]. cbv zeta in H. destruct (Nat.leb_spec n (length (out ++ [e]))) as [Hl|Hl].
  - injection H as _ <-. rewrite length_app in *. cbn in *. lia.
  - by eapply IH.
Qed.

Lemma scan_time_length q n t out s s' l : (length out < n)%nat -> scan_time q n t out s = (s', Ok l) -> (length l <= n)%nat.
Proof.
  revert out s. induction t as [|[k v] t IH]; intros out s Ho H; cbn [scan_time] in H; [injection H as _ <-; lia|].
  apply M_bind_ok in H as (s1 & _ & _ & H). destruct (extract_event_id_from_index_key k) as [id|]; [|by eapply IH].
  apply M_bind_ok in H as (s2 & [e|] & _ & H); [|by eapply IH]. cbv zeta in H. destruct (Nat.leb_spec n (length (out ++ [e]))) as [Hl|Hl].
  - injection H as _ <-. rewrite length_app in *. cbn in *. lia.
  - by eapply IH.
Qed.

(** No query answers with more events than its limit, nor with more than 2000. *)
Lemma query_length q s s' l : query q s = (s', Ok l) -> (length l <= query_limit q <= 2000)%nat.
Proof.
  intros H. split; [|unfold query_limit; lia]. assert (Hl : (@length json [] < query_limit q)%nat) by (unfold query_limit; cbn; lia).
  unfold query in H. apply M_bind_ok in H as (s1 & _ & _ & H). destruct (choose_best_index q) as [[tree v]|].
  - apply M_bind_ok in H as (s2 & ids & _ & H). by eapply fetch_ids_length.
  - apply M_bind_ok in H as (s2 & _ & _ & H). apply M_bind_ok in H as (s3 & t & _ & H). by eapply scan_time_length.
Qed.

(** The index of the percentile is inside its list, for any list of at most
    2000 latencies. *)
Lemma p95_index_inside n : (1 <= n <= 2000)%nat -> (p95_index n < n)%nat.
Proof.
  assert (Hall : forallb (fun n => Nat.ltb (p95_index n) n) (seq 1 2000) = true) by (vm_compute; reflexivity).
  intros Hn. rewrite forallb_forall in Hall. apply Nat.ltb_lt, Hall, in_seq. lia.
Qed.

Lemma latencies_bound events : Forall (fun sv => (1 <= length sv.2 <= length events)%nat) (latencies events).
Proof.
  unfold latencies. induction events as [|e events IH] using rev_ind; [constructor|]. rewrite fold_left_app. cbn [fold_left].
  set (m := fold_left _ events []) in *. rewrite length_app. cbn [length].
  assert (Hm : Forall (fun sv => (1 <= length sv.2 <= length events + 1)%nat) m) by (eapply Forall_impl; [exact IH|]; cbn; lia).
  destruct (latency_of e) as [lat|]; [|done].
  assert (Hget : (length (default [] (btree_get (default "UNKNOWN" (str_at "stage" e)) m)) <= length events)%nat).
  { clear Hm. induction IH as [|[k v] m Hv H IHm]; cbn; [lia|]. destruct (String.eqb _ k); [cbn in *; lia|done]. }
  set (k := default "UNKNOWN" _) in *. set (v := default [] _ ++ [lat]).
  assert (Hv : (1 <= length v <= length events + 1)%nat) by (unfold v; rewrite length_app; cbn; lia). clearbody v. clear Hget IH.
  induction Hm as [|[k' v'] m Hv' Hm IH]; cbn [btree_insert]; [constructor; [done|constructor]|].
  destruct (String.compare k k'); constructor; try done. by constructor.
Qed.

Lemma p95_defined events : (length events <= 2000)%nat -> is_Some (p95_by_stage events).
Proof.
  intros Hn. apply mapM_is_Some. pose proof (latencies_bound events) as Hb. eapply Forall_impl; [exact Hb|]. intros [k v] Hv. cbn in *.
  unfold p95_of. destruct (sort_by f64_leb v !! p95_index (length v)) as [x|] eqn:E; [by eexists|].
  apply lookup_ge_None in E. rewrite sort_by_perm in E. pose proof (p95_index_inside (length v)). lia.
Qed.

(** The advisor never panics on its percentiles, whatever the store holds and
    whatever calls of it fail: the store answers with at most 2000 events,
    although the advisor asks for up to 50000. *)
Theorem advisor_never_panics min_instant r world window limit s :
  (build_advisor_snapshot min_instant r world window limit s).2 <> SnapshotPanic.
Proof.
  unfold build_advisor_snapshot. destruct (window_start _ _ _) as [since|]; [|done].
  destruct (query _ s) as [s' [events|e]] eqn:E; [|done]. apply query_length in E as [Hl Hq].
  destruct (p95_defined events) as [p ->]; [lia|done].
Qed.

(** A window is refused, with a panic, exactly when its text ends inside a
    character of several bytes. *)
Lemma window_parse_panics input : parse_window_duration input = Err GatePanic <->
  exists raw num unit, str_trim <$> input = Some raw /\ parse_u64 raw = None /\ split_last raw = Some (num, unit) /\
    is_cont (byte_of_ascii unit) = true.
Proof.
  unfold parse_window_duration. destruct (str_trim <$> input) as [raw|] eqn:E.
  2: { split; [done|]. by intros (raw & num & unit & ? & _). }
  assert (Hr : forall x, Some raw = Some x -> x = raw) by (intros x [= ->]; done).
  destruct (parse_u64 raw) as [ms|] eqn:Ep.
  { split; [by destruct raw|]. intros (x & num & unit & ->%Hr & H & _). congruence. }
  destruct (split_last raw) as [[num unit]|] eqn:El.
  - destruct raw as [|a raw]; [done|]. destruct (is_cont (byte_of_ascii unit)) eqn:Ec; split; try done.
    + intros _. by exists (String a raw), num, unit.
    + intros (x & num' & unit' & ->%Hr & _ & H & Hc). congruence.
  - split; [by destruct raw|]. intros (x & num & unit & ->%Hr & _ & H & _). congruence.
Qed.

(** Without an endpoint, every receipt event counts as delivered. *)
Lemma unset_endpoint_delivers post (e : OutboxEvent) : e_type e = "emit_receipt"%string -> outbox_handler post None e = Ok tt.
Proof. unfold outbox_handler. intros ->. done. Qed.

(** A worker acknowledges only what the endpoint has accepted. *)
Lemma delivered_accepted post endpoint (e : OutboxEvent) : outbox_handler post (Some endpoint) e = Ok tt ->
  e_type e = "emit_receipt"%string /\ exists status text body,
    post endpoint (delivery_payload e) = Answered status text body /\ is_success status = true.
Proof.
  unfold outbox_handler. destruct (String.eqb_spec (e_type e) "emit_receipt") as [->|]; [|done]. cbn [deliver_emit_receipt_event].
  destruct (post _ _) as [err|status text body]; [done|]. destruct (is_success status) eqn:E; [|done]. intros _. split; [done|].
  by exists status, text, body.
Qed.
End Facts.

(** ** A sample hub *)

Module HubSample.
(** Instants are written with a [T] before the milliseconds. *)
#[local] Instance millis_t : ChronoMillis := {| rfc3339_millis t := match t with String "T" t => parse_i64 t | _ => None end |}.
#[local] Instance millis_t_laws : MillisLaws.
Proof. split. intros [|a t] ms H; [done|]. cbn in H. by destruct a as [[] [] [] [] [] [] [] []]. Qed.
#[local] Instance same_digest : Blake3 := {| blake3 bs := take 12 bs |}.
#[local] Instance plain_texts : EventTexts := {| event_error_text _ := "error"; store_error_text _ := "error" |}.

Definition published (cid when_ : string) : ReceiptEvent :=
  EventBus.mkEvent "ubl/event" "ubl.receipt.wf" "1.0" cid cid "b/c" (Some "allow") (Some 7) when_ "wf" (Some 3) None [] (JObject [])
    (Some "b3:in") None None None (Some "a/acme") (Some "did:key:z") None None (Some 7).
Definition numbered_event (n : nat) : ReceiptEvent := published ("b3:" +:+ u_to_string (Z.of_nat n)) ("T" +:+ u_to_string (Z.of_nat n)).
Definition published_events : list ReceiptEvent := numbered_event <$> seq 1 21.

#[local] Instance hub_sled : Sled SledDb EventStoreError := scripted SledError.
#[local] Instance hub_sled_laws : SledLaws hub_sled := scripted_laws SledError.
Lemma hub_empty : empty_store empty_db.
Proof. split; [done|]. intros n. unfold tree_of. cbn. unfold at_tree. by rewrite lookup_empty. Qed.

(** The bytes of an event are its number. *)
Definition event_number (bs : bytes) : nat := Z.to_nat (u8 (default x00 (head bs))).
#[local] Instance by_number : SerdeJson := {|
  from_slice bs := Some (to_hub_event (numbered_event (event_number bs)));
  to_vec v := [as_u8 (default 0 (event_when v ≫= rfc3339_millis))]; value_to_string _ := "" |}.

(** [ingestible] on concrete events. *)
Definition ingestibleb (e : ReceiptEvent) : bool :=
  match rfc3339_millis (ev_timestamp e) with Some ms => (0 <=? ms) && (ms <=? i64_max) | None => false end &&
  utf8_valid (as_bytes (hub_id e)) && negb (contains_char US (hub_id e)) &&
  forallb (fun d => match d.2 with Some v => utf8_valid (as_bytes v) | None => true end) (event_dims (to_hub_event e)).

Definition sent_items (n : nat) : list bus_item := Received <$> take n published_events.

Lemma ingestibleb_sound e : ingestibleb e = true -> exists ms, ingestible e ms.
Proof.
  unfold ingestibleb. intros H. repeat (apply andb_true_iff in H as [H ?]). destruct (rfc3339_millis _) as [ms|] eqn:E; [|done].
  bool_to_prop. exists ms. split; [done|done|]. intros tree v Hv.
  match goal with Hd : forallb _ _ = true |- _ => rewrite forallb_forall in Hd; apply list_elem_of_In, Hd in Hv end. done.
Qed.

Lemma published_readable : Forall (fun e => readable (to_hub_event e)) published_events.
Proof.
  assert (H : (fun n => event_number (to_vec (to_hub_event (numbered_event n)))) <$> seq 1 21 = seq 1 21) by (vm_compute; reflexivity).
  unfold published_events. apply Forall_fmap, Forall_lookup. intros i n Hn r Hr. cbn [compose] in *.
  pose proof (f_equal (fun l => l !! i) H) as Hi. cbn beta in Hi. rewrite list_lookup_fmap, Hn in Hi. apply (inj Some) in Hi.
  assert (Hev : event r = to_hub_event (numbered_event n)).
  { destruct (rfc3339_millis (ev_timestamp (numbered_event n))) as [ms|] eqn:Em.
    - rewrite (normalize_hub _ ms Em) in Hr. by injection Hr as <-.
    - unfold normalize_event, to_hub_event in Hr. cbn -[rfc3339_millis numbered_event] in Hr. by rewrite Em in Hr. }
  rewrite Hev. change (Some (to_hub_event (numbered_event (event_number (to_vec (to_hub_event (numbered_event n)))))) =
    Some (to_hub_event (numbered_event n))). by rewrite Hi.
Qed.

Lemma received_sent n : received_events (sent_items n) = take n published_events.
Proof. unfold sent_items. generalize (take n published_events). intros l. induction l as [|e l IH]; [done|]. cbn. by f_equal. Qed.

Lemma sent_ingestible n : all_ingestible (sent_items n).
Proof.
  unfold all_ingestible. rewrite received_sent. split.
  - assert (Hall : forallb ingestibleb published_events = true) by (vm_compute; reflexivity). rewrite forallb_forall in Hall.
    apply Forall_forall. intros e He. apply ingestibleb_sound, Hall, list_elem_of_In. eapply elem_of_take in He as (i & Hi & _).
    by eapply list_elem_of_lookup_2.
  - apply Forall_take, published_readable.
Qed.

Definition any_search (limit : Z) : EventSearchQuery := mkSearch (Some "a/acme") None None None None None None None None (Some limit).
Lemma any_search_ok limit : named (search_query (any_search limit)) /\ small (query_start (search_query (any_search limit))).
Proof. split; [done|]. unfold small, i64_max. vm_compute. split; discriminate. Qed.

Lemma search_finds_published_witness :
  (search_events (any_search 2) (Some (ingest (sent_items 3) empty_db))).2 =
    inl (200, [], search_document [to_hub_event (numbered_event 1); to_hub_event (numbered_event 2)]).
Proof.
  destruct (any_search_ok 2) as [Hn Hs].
  refine (eq_trans (search_finds_published empty_db (sent_items 3) (any_search 2) hub_empty (sent_ingestible 3) Hn Hs) _).
  vm_compute. reflexivity.
Defined.

Lemma live_agrees_with_history_witness :
  let q := mkStream (Some "a/acme") None (Some "ALLOW") None (Some "b/c") None None None in
  hub_matches_query (to_hub_event (numbered_event 1)) q = matches_query (to_hub_event (numbered_event 1)) (stream_query q).
Proof. apply live_agrees_with_history. intros t [= <-]. left. reflexivity. Defined.

(** With a pattern, the stored half of a stream has events that the live half
    leaves out. *)
Example live_ignores_patterns :
  let q := mkStream None None None None (Some "b/*") None None None in
  hub_matches_query (to_hub_event (numbered_event 1)) q = false /\
  matches_query (to_hub_event (numbered_event 1)) (stream_query q) = true.
Proof. vm_compute. done. Qed.

(** The search for one event at a time never leaves the first event, with an
    end too. *)
Definition ending_search : EventSearchQuery := mkSearch (Some "a/acme") None None None None None None (Some "T2") None (Some 1).
Lemma search_pages_never_end_witness : more_pages 5 ending_search (ingest (sent_items 3) empty_db).
Proof.
  destruct (any_search_ok 1) as [Hn Hs]. destruct (ingested_lists empty_db (sent_items 3) hub_empty (sent_ingestible 3)) as (HR & Hnd & Hp).
  refine (search_pages_never_end _ _ ending_search (to_hub_event (numbered_event 1)) 5 HR Hnd Hp Hn Hs _).
  vm_compute. reflexivity.
Defined.

Example first_page_repeats :
  listing (search_query (at_page (any_search 1) "T1")) (hub_records (sent_items 3)) = [to_hub_event (numbered_event 1)].
Proof. vm_compute. reflexivity. Qed.

Definition last_record : EventRecord := mkRecord (hub_id (numbered_event 21)) 21 (to_hub_event (numbered_event 21)).
Lemma last_sent : hub_records (sent_items 21) = hub_records (sent_items 20) ++ [last_record].
Proof. vm_compute. reflexivity. Qed.
Lemma sent_before : forallb (fun x => record_leb x last_record) (hub_records (sent_items 20)) = true.
Proof. vm_compute. reflexivity. Qed.

(** The twenty-first event does not show. *)
Lemma console_shows_oldest_witness :
  (console_events_partial (Some "a/acme") (Some (ingest (sent_items 21) empty_db))).2 =
  (console_events_partial (Some "a/acme") (Some (ingest (sent_items 20) empty_db))).2.
Proof.
  destruct (ingested_lists empty_db (sent_items 20) hub_empty (sent_ingestible 20)) as (HR & _ & _).
  destruct (ingested_lists empty_db (sent_items 21) hub_empty (sent_ingestible 21)) as (HR' & Hnd & Hp).
  rewrite last_sent in HR', Hnd, Hp. apply (console_shows_oldest _ _ (hub_records (sent_items 20)) last_record); try assumption.
  - apply Forall_forall. intros x Hx. pose proof sent_before as Hall. rewrite forallb_forall in Hall.
    exact (Hall x (proj1 (list_elem_of_In _ _) Hx)).
  - vm_compute. lia.
Defined.
End HubSample.
