(* ===== verification/SubmitFacts.v ===== *)
(** * Theorems on the gate: who writes

    Which submissions reach the pipeline, what the others leave as it was, what
    a bearer session rests on, and how little it takes to mint one. *)

From S2P Require Import Prelude RustStd RustStr Json Nrf NrfFacts BigNum Unc1 Tlv Rho Vm Gate RateLimit Canon Types Silicon.
From S2P Require Import Idempotency Durable Policy Receipt Knock ChipStore ChipStoreFacts Capability Auth AuthFacts.
From S2P Require Import PolicyLoader Envelope KeyRotation AuditChip TrRegistry EventBus Ledger Advisory PipelineTypes Check.
From S2P Require Import CheckFacts Compaction Wasm Adapter Transition Pipeline PipelineFacts RichUrl ErrorResponse GateState.
From S2P Require Import GateSubmit.
Local Open Scope string_scope.
Local Open Scope Z_scope.
Local Open Scope list_scope.

(** ** Handlers that keep a part of the state *)

Section Keeps.
Context {B L X : Type} {R : Readings} (f : GateState B L -> X).
Abbreviation gate := (M (GateState B L) gate_stop).

Definition leaves {A} (m : gate A) : Prop := forall s, f (fst (m s)) = f s.

Lemma leaves_ret {A} (a : A) : leaves (mret a).
Proof. done. Qed.
Lemma leaves_throw {A} e : leaves (throw e : gate A).
Proof. done. Qed.
Lemma leaves_asks {A} (g : GateState B L -> A) : leaves (asks g).
Proof. done. Qed.
Lemma leaves_modify (h : GateState B L -> GateState B L) : (forall s, f (h s) = f s) -> leaves (modify h).
Proof. intros H s. apply H. Qed.
Lemma leaves_gread {A} (g : nat -> A) : (forall s, f (set_pipe (next_tick (g_pipe s)) s) = f s) -> leaves (gread g).
Proof. intros H s. apply H. Qed.
Lemma leaves_bind {A C} (m : gate A) (k : A -> gate C) : leaves m -> (forall a, leaves (k a)) -> leaves (m ≫= k).
Proof.
  intros Hm Hk s. unfold mbind, M_bind. specialize (Hm s). destruct (m s) as [s1 [a|e]]; cbn in *; [|done].
  by rewrite Hk.
Qed.
Lemma leaves_store : leaves gate_store.
Proof. intros s. unfold gate_store. by case_match. Qed.
Lemma leaves_engine : leaves gate_engine.
Proof. intros s. unfold gate_engine. by case_match. Qed.
Lemma leaves_run {A} (m : gate A) s s' r : leaves m -> m s = (s', r) -> f s' = f s.
Proof. intros H E. specialize (H s). by rewrite E in H. Qed.
End Keeps.

Lemma leaves_pipe {B L X A} (g : PState B L Fs -> X) (m : M (PState B L Fs) PipelineError A) :
  preserves g m -> leaves (fun s => g (g_pipe s)) (run_pipe m).
Proof. intros H s. specialize (H (g_pipe s)). unfold run_pipe. destruct (m (g_pipe s)) as [ps [a|[]]]; cbn in *; done. Qed.

(** [t] is tried first: it closes the goals about named handlers. *)
Ltac leaves_with t :=
  repeat first [ t | apply leaves_ret | apply leaves_throw | apply leaves_asks | apply leaves_store | apply leaves_engine
               | apply leaves_gread; intros; reflexivity | apply leaves_modify; intros; reflexivity
               | apply leaves_bind; [|intros ?] | case_match ].

Ltac leaves_tac := leaves_with ltac:(fail).

(** ** Statuses *)

Lemma error_status_fails c : is_success (http_status c) = false.
Proof. by destruct c. Qed.

Section Facts.
Context {U : Unicode} {CH : Chrono} {HB3 : Blake3} {KB3 : Blake3Keyed} {ED : Ed25519} {EK : Ed25519Keys} {B64 : Base64}
  {B64D : Base64Decode} {B58 : Base58} {NS : NumSerde} {CK : Clock} {SJ : SerdeJson} {BN : BigNum} {SC : StrCase}
  {SU : StrUpper} {SD : StrDebug} {CI : ChronoInstant} {CF : ChronoFormat} {CD : ChronoDate} {HI : HashIter} {BT : BigintText}
  {HX : HexDecode} {B64S : Base64Std} {SH : Sha256} {W : Wasmtime} {PS : PolicySerde} {RS : ReceiptSerde} {R : Readings}
  {FT : ForeignTexts} {GR : GateReadings} {GT : GateTexts}.
Context {B L : Type} {BE : ChipStoreBackend B} {LW : LedgerWriter L}.
Context (p : UblPipeline) (rfc3339 : Z -> string) (app : AppConfig).
Abbreviation State := (GateState B L).
Abbreviation gate := (M State gate_stop).
Implicit Types (s : State) (headers : option HeaderMap).

(** Chips, ledger, disk and secrets. *)
Definition kept s := durable_part (g_pipe s).

Lemma knock_rejection_keeps knock rc reason hint :
  preserves durable_part (process_knock_rejection p knock rc reason hint : M (PState B L Fs) PipelineError PipelineResult).
Proof.
  unfold process_knock_rejection, generate_nonce, new_receipt, stage_record, append_stage_receipt, finalize.
  repeat first [by apply persist_keeps|progress preserves_tac].
Qed.

Lemma error_response_keeps e : leaves kept (error_response e : gate Response).
Proof. unfold error_response. leaves_tac. Qed.

Lemma rejection_keeps knock rc reason hint :
  leaves kept (run_pipe (process_knock_rejection p knock rc reason hint) : gate (result PipelineError PipelineResult)).
Proof. apply leaves_pipe, knock_rejection_keeps. Qed.

Lemma deny_keeps knock rc msg c value subject : leaves kept (deny_write_with_receipt p app knock rc msg c value subject : gate Response).
Proof. unfold deny_write_with_receipt. leaves_with ltac:(first [apply rejection_keeps|apply error_response_keeps]). Qed.

Lemma reject_keeps knock hint e : leaves kept (reject_knock p app knock hint e : gate Response).
Proof. unfold reject_knock. leaves_with ltac:(first [apply rejection_keeps|apply error_response_keeps]). Qed.

Lemma bearer_keeps h : leaves kept (resolve_session_bearer h : gate (result string (option McpWsAuth))).
Proof. unfold resolve_session_bearer. leaves_tac. Qed.

Lemma authorize_keeps headers hint knock value :
  leaves kept (authorize_submission p app headers hint knock value : gate (Response + option string)).
Proof. unfold authorize_submission. leaves_with ltac:(first [apply deny_keeps|apply bearer_keeps]). Qed.

(** *** A refusal is no success *)

Lemma error_response_fails e s s' r : error_response e s = (s', Ok r) -> is_success (status_of r) = false.
Proof.
  unfold error_response. intros (s1 & rnd & _ & H)%M_bind_ok. revert H. case_match; intros [= <- <-]. apply error_status_fails.
Qed.

Lemma deny_fails knock rc msg c value subject s s' r :
  deny_write_with_receipt p app knock rc msg c value subject s = (s', Ok r) -> is_success (status_of r) = false.
Proof.
  unfold deny_write_with_receipt. intros (s1 & micros & _ & (s2 & res & _ & H)%M_bind_ok)%M_bind_ok. destruct res as [res|e].
  - injection H as <- <-. apply error_status_fails.
  - by apply error_response_fails in H.
Qed.

Lemma reject_fails knock hint e s s' r : reject_knock p app knock hint e s = (s', Ok r) -> is_success (status_of r) = false.
Proof.
  unfold reject_knock. intros (s1 & res & _ & H)%M_bind_ok. destruct res as [res|err].
  - by injection H as <- <-.
  - by apply error_response_fails in H.
Qed.

(** ** Authority *)

Definition type_of (value : json) : string := default "" (get "@type" value ≫= as_str).
Definition target_world (value : json) : string := default "" (get "@world" value ≫= as_str).

(** The session of a bearer token in the request. *)
Definition bearer_session s headers (auth : McpWsAuth) : Prop :=
  exists h id store, headers = Some h /\ parse_bearer_token h = Some id /\ chip_store (g_pipe s) = Some store /\
    session_of store (now_instant (tick (g_pipe s))) id = Ok auth.

(** A request may write a chip: by a session with a write scope whose world
    contains the chip's, or, without a bearer token, by the write policy. *)
Definition authorized s headers (value : json) : Prop :=
  (exists auth, bearer_session s headers auth /\
     scope_allows_any (auth_scope auth) ["write"; "chip:write"; "mcp:write"] = true /\
     world_scope_allows (auth_world auth) (target_world value) = true) \/
  (headers ≫= parse_bearer_token = None /\
   authorize_write (write_access_policy app) headers (type_of value) (target_world value) = Ok tt).

Lemma bearer_read h s s' r : resolve_session_bearer h s = (s', Ok r) ->
  match parse_bearer_token h with
  | None => r = Ok None
  | Some id => exists store, chip_store (g_pipe s) = Some store /\
      r = (Some <$> session_of store (now_instant (tick (g_pipe s))) id)
  end.
Proof.
  unfold resolve_session_bearer. destruct (parse_bearer_token h) as [id|]; [|by intros [= <- <-]].
  intros (s1 & store & H & (s2 & now & [= <- <-] & [= <- <-])%M_bind_ok)%M_bind_ok. unfold gate_store in H. revert H.
  destruct (chip_store (g_pipe s)) as [st|]; intros [= <- <-]. by exists st.
Qed.

(** Authorization grants exactly the authorized requests. *)
Lemma authorize_exact headers hint knock value s s' v :
  authorize_submission p app headers hint knock value s = (s', Ok v) ->
  match v with inr _ => authorized s headers value | inl r => ~ authorized s headers value /\ is_success (status_of r) = false end.
Proof.
  intros H. pose (deny c msg subj := r ← deny_write_with_receipt p app knock (code_text c) msg c value subj;
                                     mret (inl r) : gate (Response + option string)).
  assert (Hdeny : forall c msg subj s1, ~ authorized s headers value -> deny c msg subj s1 = (s', Ok v) ->
    match v with inr _ => authorized s headers value | inl r => ~ authorized s headers value /\ is_success (status_of r) = false end).
  { intros c msg subj s1 Hn (s2 & r & Hd & [= <- <-])%M_bind_ok. split; [done|]. by eapply deny_fails. }
  assert (Hpol : forall s1, headers ≫= parse_bearer_token = None ->
    match authorize_write (write_access_policy app) headers (type_of value) (target_world value) with
    | Ok _ => mret (inr None)
    | Err (c, msg) => deny c msg (resolve_subject_did (Some value) (Some hint))
    end s1 = (s', Ok v) ->
    match v with inr _ => authorized s headers value | inl r => ~ authorized s headers value /\ is_success (status_of r) = false end).
  { intros s1 Hb. destruct (authorize_write _ _ _ _) as [[]|[c msg]] eqn:E.
    - intros [= <- <-]. by right.
    - apply Hdeny. intros [(auth & (h & id & st & -> & Hid & _) & _)|[_ Ho]]; [|congruence].
      cbn in Hb. congruence. }
  unfold authorize_submission in H. destruct headers as [h|]; [|by eapply Hpol].
  apply M_bind_ok in H as (s1 & session & Hr & H). apply bearer_read in Hr.
  destruct (parse_bearer_token h) as [id|] eqn:Hid.
  2: { subst session. by eapply Hpol. }
  destruct Hr as (store & Hst & ->).
  assert (Hone : forall P : Prop, (forall auth, session_of store (now_instant (tick (g_pipe s))) id = Ok auth ->
      scope_allows_any (auth_scope auth) ["write"; "chip:write"; "mcp:write"] = true ->
      world_scope_allows (auth_world auth) (target_world value) = true -> P) -> authorized s (Some h) value -> P).
  { intros P HP [(auth & (h' & id' & st & [= <-] & Hid' & Hst' & Ha) & H1 & H2)|[Hb _]]; [|cbn in Hb; congruence].
    rewrite Hid in Hid'. injection Hid' as <-. rewrite Hst in Hst'. injection Hst' as <-. by eapply HP. }
  destruct (session_of _ _ _) as [auth|msg] eqn:Ha; cbn [fmap result_fmap] in H.
  - destruct (scope_allows_any (auth_scope auth) _) eqn:Hs.
    + destruct (world_scope_allows (auth_world auth) (default "" (get "@world" value ≫= as_str))) eqn:Hw.
      * injection H as <- <-. left. exists auth. split; [by exists h, id, store|]. by split.
      * eapply Hdeny; [|exact H]. refine (Hone False _). intros a [= <-] _ Hw2. unfold target_world in Hw2. congruence.
    + eapply Hdeny; [|exact H]. refine (Hone False _). intros a [= <-] Hs2. congruence.
  - eapply Hdeny; [|exact H]. by refine (Hone False _).
Qed.

(** ** Submission *)

(** A submission that is not authorized is refused: no success, and chips,
    ledger, disk and secrets are as before.  Admission, sessions and the write
    policy are all that stands before the pipeline. *)
Lemma unauthorized_write_refused headers body s s' r :
  submit_chip_bytes p rfc3339 app headers false body s = (s', Ok r) ->
  (forall value, knock (pl_env p) body = Ok value -> ~ authorized s headers value) ->
  kept s' = kept s /\ is_success (status_of r) = false.
Proof.
  unfold submit_chip_bytes. destruct (knock (pl_env p) body) as [value|e].
  2: { intros H _. split; [by eapply leaves_run, H; apply reject_keeps|by eapply reject_fails]. }
  intros (s1 & v & Ha & H)%M_bind_ok Hn. specialize (Hn value eq_refl). pose proof (authorize_exact _ _ _ _ _ _ _ Ha) as Hv.
  destruct v as [resp|subject]; [|done]. injection H as <- <-. split; [|by destruct Hv].
  by eapply leaves_run, Ha; apply authorize_keeps.
Qed.
End Facts.

(** * Theorems on bearer sessions *)

Lemma find_Some {A} (f : A -> bool) l a : List.find f l = Some a -> a ∈ l /\ f a = true.
Proof. intros [H1 H2]%List.find_some. split; [by apply list_elem_of_In|done]. Qed.

Lemma has_id_true id chip : has_id id chip = true <-> get "@id" (chip_data chip) ≫= as_str = Some id.
Proof.
  unfold has_id. destruct (get "@id" (chip_data chip) ≫= as_str) as [x|]; [|done]. rewrite String.eqb_eq. naive_solver.
Qed.

Lemma non_empty_Some s x : non_empty s = Some x <-> x = s /\ s <> "".
Proof. unfold non_empty. destruct s; cbn; naive_solver. Qed.

(** The identifier of a chip is one of its tags. *)
Lemma id_in_tags `{ChronoDate} data ty id : get "@id" data = Some (JString id) -> ("id:" +:+ id) ∈ extract_tags data ty.
Proof.
  intros H'. unfold extract_tags. rewrite H'. cbn [mbind option_bind as_str]. rewrite !elem_of_app. right. right. left. by left.
Qed.

Section Sessions.
Context {U : Unicode} {HB3 : Blake3} {CI : ChronoInstant} {CD : ChronoDate} {SD : StrDebug}
  {ED : Ed25519} {EK : Ed25519Keys} {B64 : Base64} {B64D : Base64Decode} {B58 : Base58} {FT : ForeignTexts} {GT : GateTexts}.
Context {B : Type} {BE : ChipStoreBackend B} {inv : B -> Prop} {accepts : StoredChip -> Prop}
  {contents : B -> gmap TypedCid StoredChip} `{!BackendSpec BE inv accepts contents}.
Implicit Types (s : ChipStore.ChipStore B).
Abbreviation held s := (contents (backend s)).

Lemma revoked_by_exact s t : inv (backend s) -> (revoked_by s t = true <-> revoked (held s) t).
Proof.
  intros Hi. unfold revoked_by, store_query.
  destruct (query_empty (tagged "ubl/revoke" ("target_cid:" +:+ t) (Some 1%nat)) (backend s) Hi) as (r & Hq & He).
  change (mkQuery _ _ _ _ _ _ _) with (tagged "ubl/revoke" ("target_cid:" +:+ t) (Some 1%nat)). rewrite Hq, Nat.ltb_lt.
  split.
  - intros Hr. destruct (existsb (fun c => matches_query c (tagged "ubl/revoke" ("target_cid:" +:+ t) (Some 1%nat)))
      (all_chips (held s))) eqn:E.
    + apply existsb_exists in E as (c & Hc & Hm). apply list_elem_of_In in Hc.
      apply elem_all_chips in Hc; [|by apply held_keyed]. apply tagged_matches in Hm as [? ?]. by exists c.
    + assert (total_count r = 0%nat); [|lia]. apply He. intros c Hc. apply not_true_iff_false. intros Hm.
      assert (existsb (fun c => matches_query c (tagged "ubl/revoke" ("target_cid:" +:+ t) (Some 1%nat))) (all_chips (held s)) = true);
        [|congruence]. apply existsb_exists. exists c. split; [by apply list_elem_of_In|done].
  - intros (c & Hc & Ht & Htag). destruct (total_count r) eqn:E; [|lia]. exfalso.
    assert (matches_query c (tagged "ubl/revoke" ("target_cid:" +:+ t) (Some 1%nat)) = true) as Hm by by apply tagged_matches.
    rewrite (proj1 He eq_refl c) in Hm; [done|]. apply elem_all_chips; [by apply held_keyed|done].
Qed.

(** The chips that a query for the token can answer. *)
Definition token_query (id : string) : ChipQuery := tagged "ubl/token" ("id:" +:+ id) (Some 10%nat).

Lemma token_page s id : inv (backend s) -> exists r, store_query s (token_query id) = Ok r /\
  (forall c, c ∈ qr_chips r -> held s !! cid c = Some c /\ chip_type c = "ubl/token" /\ ("id:" +:+ id) ∈ tags c).
Proof.
  intros Hi. destruct (spec_query (token_query id) (backend s) Hi) as (l & Hp & Hq). eexists. split; [exact Hq|].
  intros c Hc. unfold apply_pagination in Hc. cbn [qr_chips q_offset q_limit token_query tagged default from_option] in Hc.
  rewrite drop_0 in Hc. apply subseteq_take in Hc. rewrite sort_by_perm, Hp in Hc. unfold matching in Hc.
  apply elem_of_list_filter in Hc as [Hm Hc]. apply elem_all_chips in Hc; [|by apply held_keyed].
  by apply tagged_matches in Hm.
Qed.

(** *** What a session rests on *)

(** C21: A session comes from a stored, unexpired token chip of that identifier that
    is not revoked and whose user is not revoked; world and scope are the chip's,
    the subject is the DID of its user. *)
Theorem session_sound s now id a : inv (backend s) -> session_of s now id = Ok a ->
  exists chip t e, held s !! cid chip = Some chip /\ chip_type chip = "ubl/token" /\
    get "@id" (chip_data chip) = Some (JString id) /\ token_from_chip_body (chip_data chip) = Ok t /\
    rfc3339_instant (t_expires_at t) = Some e /\ now < e /\
    ~ revoked (held s) (cid_as_str (cid chip)) /\ ~ revoked (held s) (t_user_cid t) /\
    (exists w, get "@world" (chip_data chip) = Some (JString w) /\ str_trim w = auth_world a) /\
    token_id a = id /\ token_cid a = cid_as_str (cid chip) /\ auth_scope a = t_scope t /\
    auth_subject a = only_did (uc ← held s !! cid_new_unchecked (t_user_cid t); get "did" (chip_data uc) ≫= as_str).
Proof.
  intros Hi. unfold session_of. destruct (token_page s id Hi) as (r & Hq & Hin).
  change (mkQuery _ _ _ _ _ _ _) with (token_query id). rewrite Hq. cbn [map_err mbind result_bind].
  destruct (List.find (has_id id) (qr_chips r)) as [chip|] eqn:Ef; cbn [ok_or mbind result_bind]; [|done].
  apply find_Some in Ef as [Hc Hid%has_id_true]. apply Hin in Hc as (Hc & Hty & _).
  destruct (token_from_chip_body (chip_data chip)) as [t|] eqn:Et; cbn [map_err mbind result_bind]; [|done].
  destruct (rfc3339_instant (t_expires_at t)) as [e|] eqn:Ee; cbn [ok_or mbind result_bind]; [|done].
  destruct (Z.leb_spec e now) as [|Hlt]; [done|].
  pose proof (revoked_by_exact s (cid_as_str (cid chip)) Hi) as R1. destruct (revoked_by s (cid_as_str (cid chip))); [done|].
  destruct (get "@world" (chip_data chip)) as [[]|] eqn:Ew; cbn [mbind option_bind as_str ok_or result_bind]; try done.
  destruct (non_empty (str_trim s0)) as [w|] eqn:En; cbn [ok_or mbind result_bind]; [|done].
  pose proof (revoked_by_exact s (t_user_cid t) Hi) as R2. destruct (revoked_by s (t_user_cid t)); [done|].
  intros [= <-]. apply non_empty_Some in En as [-> _]. exists chip, t, e.
  cbn [auth_world token_id token_cid auth_scope auth_subject]. split_and!; try done.
  - destruct (get "@id" (chip_data chip)) as [[]|]; cbn in Hid; try done. by injection Hid as ->.
  - by intros ?%R1.
  - by intros ?%R2.
  - by exists s0.
  - unfold session_subject. rewrite (spec_get (t_user_cid t) (backend s) Hi). destruct (held s !! cid_new_unchecked (t_user_cid t)) as [uc|]; reflexivity.
Qed.

(** *** Minting *)

Lemma token_body_reads t id world : onboarding_valid (OToken t) = true ->
  token_from_chip_body (token_to_chip_body t id world) = Ok t.
Proof.
  intros H. pose proof (print_token t id world H) as P.
  assert (parse_onboarding_chip (token_to_chip_body t id world) =
    (x ← token_from_chip_body (token_to_chip_body t id world); Ok (Some (OToken x)))) as E by reflexivity.
  rewrite E in P. destruct (token_from_chip_body _) as [x|]; cbn in P; [|done]. by injection P as ->.
Qed.

(** No other stored token has the identifier. *)
Definition fresh_id (m : gmap TypedCid StoredChip) (id c : string) : Prop :=
  forall k chip, m !! k = Some chip -> chip_type chip = "ubl/token" -> ("id:" +:+ id) ∈ tags chip -> k = cid_new_unchecked c.

(** The token is found after it has been stored. *)
Lemma stored_token_found b chip id : inv b -> contents b !! cid chip = Some chip -> chip_type chip = "ubl/token" ->
  ("id:" +:+ id) ∈ tags chip -> fresh_id (contents b) id (cid_as_str (cid chip)) ->
  get "@id" (chip_data chip) = Some (JString id) ->
  exists r, query_chips (token_query id) b = Ok r /\ List.find (has_id id) (qr_chips r) = Some chip.
Proof.
  intros Hi Hc Hty Htag Hf Hid. assert (keyed (contents b)) as Hk by (intros k c; by apply spec_keyed).
  assert (Hall : forall c, c ∈ matching (token_query id) (contents b) <-> c = chip).
  { intros c. unfold matching, token_query. rewrite elem_of_list_filter, elem_all_chips, (tagged_matches c "ubl/token") by done. split.
    - intros [[H1 H2] H3]. specialize (Hf _ _ H3 H1 H2). rewrite Hf in H3.
      replace (cid_new_unchecked (cid_as_str (cid chip))) with (cid chip) in H3 by by destruct (cid chip). congruence.
    - by intros ->. }
  destruct (spec_query (token_query id) b Hi) as (l & Hp & Hq). eexists. split; [exact Hq|].
  assert (l = [chip]) as ->.
  { assert (NoDup l) as Hnd.
    { rewrite Hp. unfold matching. apply filter_NoDup, NoDup_all_chips. done. }
    assert (forall c, c ∈ l <-> c = chip) as Hl by (intros c; by rewrite Hp).
    destruct l as [|x l]; [exfalso; by apply (elem_of_nil chip), Hl|]. assert (x = chip) as -> by (apply Hl; left).
    destruct l as [|y l]; [done|]. assert (y = chip) as -> by (apply Hl; right; left).
    apply NoDup_cons in Hnd as [Hn _]. destruct Hn. left. }
  unfold apply_pagination. cbn. by rewrite (proj2 (has_id_true id chip)) by by rewrite Hid.
Qed.

(** C19: Whoever names an active user in a token chip obtains that user's session.
    The write policy lets the chip in without credentials, the onboarding check
    asks for the user only, and once the chip is stored its identifier is a
    bearer token with the world and the scope that the chip claims and the
    user's DID as subject.  No key, signature or consent of the user is part
    of it. *)
Theorem minted_token_impersonates s t id world bs receipt meta at_ now nt uc d e :
  let body := token_to_chip_body t id world in
  let c := compute_cid bs in
  inv (backend s) -> onboarding_valid (OToken t) = true ->
  held s !! cid_new_unchecked (t_user_cid t) = Some uc -> chip_type uc = "ubl/user" ->
  get "did" (chip_data uc) = Some (JString d) -> starts_with "did:" d = true -> ~ revoked (held s) (t_user_cid t) ->
  to_nrf1_bytes body = Ok bs -> accepts (stored_of body c receipt meta at_) ->
  c <> t_user_cid t -> ~ revoked (held s) c -> fresh_id (held s) id c ->
  rfc3339_instant (t_expires_at t) = Some e -> now < e -> str_trim world <> "" ->
  (forall w, authorize_write w None "ubl/token" world = Ok tt) /\
  validate_onboarding_dependencies (OToken t) body world s now nt = Ok tt /\
  exists s', store_executed_chip s body receipt meta at_ = (s', Ok c) /\
    session_of s' now id = Ok (mkAuth id c (str_trim world) (t_scope t) (Some d)).
Proof.
  intros body c Hi Hv Hu Huty Hd Hdid Hur Hb Ha Hcu Hcr Hf He Hnow Hw. set (chip := stored_of body c receipt meta at_) in *.
  split_and!.
  - intros w. unfold authorize_write. by repeat case_match.
  - apply (require_chip_exact s (t_user_cid t) "ubl/user" Hi). split; [by exists uc|done].
  - unfold store_executed_chip. rewrite Hb. fold c. fold chip.
    destruct (spec_put chip (backend s) Hi Ha) as (b' & -> & Hi' & Hc & _). eexists. split; [reflexivity|]. cbn [indexer_index_chip].
    assert (contents b' !! cid chip = Some chip) as Hl by by rewrite Hc, lookup_insert_eq.
    assert (chip_type chip = "ubl/token") as Hty by done.
    assert (Hrev : forall x, revoked (contents b') x -> revoked (held s) x).
    { intros x (k & Hk & Hkt & Hkg). exists k. rewrite Hc in Hk. apply lookup_insert_Some in Hk as [[_ <-]|[_ Hk]]; [done|].
      done. }
    destruct (stored_token_found b' chip id Hi' Hl Hty) as (r & Hq & Hfind).
    { by apply id_in_tags. }
    { intros k x Hk Hx Hg. rewrite Hc in Hk. apply lookup_insert_Some in Hk as [[<- _]|[_ Hk]]; [done|]. by eapply Hf. }
    { done. }
    unfold session_of, store_query. cbn [backend]. change (mkQuery _ _ _ _ _ _ _) with (token_query id). rewrite Hq.
    cbn [map_err mbind result_bind]. rewrite Hfind. cbn [ok_or mbind result_bind].
    change (chip_data chip) with (token_to_chip_body t id world). rewrite (token_body_reads t id world Hv). cbn [map_err mbind result_bind].
    rewrite He. cbn [ok_or mbind result_bind]. rewrite (proj2 (Z.leb_gt e now) Hnow).
    assert (Hno : forall ix x, ~ revoked (held s) x -> revoked_by (mkStore b' ix) x = false).
    { intros ix x Hx. apply not_true_iff_false. intros Hy. apply Hx, Hrev. by apply (revoked_by_exact (mkStore b' ix) x Hi'). }
    rewrite (Hno _ (cid_as_str (cid chip))) by exact Hcr.
    change (get "@world" (token_to_chip_body t id world)) with (Some (JString world)). cbn [mbind option_bind as_str].
    rewrite (proj2 (non_empty_Some (str_trim world) _) (conj eq_refl Hw)). cbn [ok_or mbind result_bind].
    rewrite (Hno _ (t_user_cid t)) by exact Hur. do 2 f_equal. unfold session_subject. cbn [backend].
    rewrite (spec_get (t_user_cid t) b' Hi'), Hc, lookup_insert_ne by (intros [= ?]; congruence).
    rewrite Hu, Hd. cbn [mbind option_bind as_str only_did]. by rewrite Hdid.
Qed.
End Sessions.
