(* ===== verification/Router.v ===== *)
(** * The routes of the gate ([ubl_gate/src/lib.rs])

    The requests that the router passes on to the modelled handlers, as data:
    a path and a method have been matched and the extractors have run.  Then
    what requests change: most change nothing but the clock; the others change
    chips, ledger, disk and secrets only with authority, by a narration or by a
    known-answer test. *)

From S2P Require Import Prelude RustStd RustStr Json Nrf NrfFacts BigNum Unc1 Tlv Rho Vm Gate RateLimit Canon Types Silicon.
From S2P Require Import Idempotency Durable Policy Receipt Knock ChipStore Capability Auth PolicyLoader Envelope KeyRotation.
From S2P Require Import AuditChip TrRegistry EventBus Ledger Advisory PipelineTypes Check Compaction Wasm Adapter Transition.
From S2P Require Import Pipeline RichUrl ErrorResponse GateState GateSubmit GateRead Mcp MetaChip Registry ChipStoreFacts.
From S2P Require Import AuthFacts CheckFacts PipelineFacts SubmitFacts.
Local Open Scope string_scope.
Local Open Scope Z_scope.
Local Open Scope list_scope.

(** ** Requests *)

(** The route of each constructor; [GetChip] is also [/v1/cas/:cid]. *)
Inductive gate_request : Type :=
| PostChip (headers : HeaderMap) (body : bytes)                 (* POST /v1/chips *)
| GetChip (cid : string) (headers : HeaderMap)                  (* GET /v1/chips/:cid *)
| VerifyChip (cid : string)                                     (* GET /v1/chips/:cid/verify *)
| GetReceipt (cid : string) (headers : HeaderMap)               (* GET /v1/receipts/:cid *)
| GetReceiptUrl (cid : string)                                  (* GET /v1/receipts/:cid/url *)
| GetReceiptTrace (cid : string)                                (* GET /v1/receipts/:cid/trace *)
| NarrateReceipt (cid : string) (persist : option bool)         (* GET /v1/receipts/:cid/narrate *)
| PassportAdvisories (cid : string)                             (* GET /v1/passports/:cid/advisories *)
| VerifyAdvisory (cid : string)                                 (* GET /v1/advisories/:cid/verify *)
| RegistryTypes (world : option string)                         (* GET /v1/registry/types *)
| RegistryType (chip_type : string)                             (* GET /v1/registry/types/:chip_type *)
| RegistryVersion (chip_type ver : string)                      (* GET /v1/registry/types/:chip_type/versions/:ver *)
| RegistryTable (world : option string)                         (* GET /registry/_table *)
| RegistryPage (chip_type : string)                             (* GET /registry/*chip_type *)
| RegistryKatTest (form : KatForm)                              (* POST /registry/_kat_test *)
| PostMcpRpc (headers : HeaderMap) (rpc : json)                 (* POST /mcp/rpc *)
| McpSocket (headers : HeaderMap) (messages : list (ws_message * bool)). (* GET /mcp/ws *)

Inductive gate_reply : Type :=
| Document (r : Response)
| KatVerdict (r : KatResult)
| TypeDocument (p : TypePage)
| TableDocument (visible hidden : list RegistryRow)
| RpcReply (status : Z) (payload : json)
| SocketReplies (replies : list ws_reply).

(** ** What a request may change *)

Definition rpc_writes (rpc : json) : bool :=
  let params := default (JObject []) (get "params" rpc) in
  bool_decide (get "jsonrpc" rpc ≫= as_str = Some "2.0")
  && String.eqb (default "" (get "method" rpc ≫= as_str)) "tools/call"
  && is_write_tool_call (text_arg "name" params) (default (JObject []) (get "arguments" params)).

(** The request has a chip stored or submitted. *)
Definition writes (req : gate_request) : bool :=
  match req with
  | PostChip _ _ | RegistryKatTest _ | McpSocket _ _ => true
  | NarrateReceipt _ persist => default false persist
  | PostMcpRpc _ rpc => rpc_writes rpc
  | _ => false
  end.

Section Router.
Context {U : Unicode} {CH : Chrono} {HB3 : Blake3} {KB3 : Blake3Keyed} {ED : Ed25519} {EK : Ed25519Keys} {B64 : Base64}
  {B64D : Base64Decode} {B58 : Base58} {NS : NumSerde} {CK : Clock} {SJ : SerdeJson} {BN : BigNum} {SC : StrCase}
  {SU : StrUpper} {SD : StrDebug} {CI : ChronoInstant} {CF : ChronoFormat} {CD : ChronoDate} {HI : HashIter} {BT : BigintText}
  {HX : HexDecode} {B64S : Base64Std} {SH : Sha256} {W : Wasmtime} {PS : PolicySerde} {RS : ReceiptSerde} {R : Readings}
  {FT : ForeignTexts} {GR : GateReadings} {GT : GateTexts}.
Context {B L : Type} {BE : ChipStoreBackend B} {LW : LedgerWriter L}.
Context (p : UblPipeline) (rfc3339 : Z -> string) (app : AppConfig).

Abbreviation State := (GateState B L).
Abbreviation gate := (M State gate_stop).

(** [mcp_ws_upgrade]: the session follows when the bearer is accepted. *)
Definition mcp_ws_upgrade (headers : HeaderMap) (messages : list (ws_message * bool)) : gate gate_reply :=
  accepted ← validate_mcp_ws_bearer headers;
  match accepted with
  | inl refusal => mret (Document refusal)
  | inr auth => replies ← mcp_ws_session p rfc3339 app auth messages; mret (SocketReplies replies)
  end.

Definition document (m : gate Response) : gate gate_reply := r ← m; mret (Document r).
Definition either {A} (f : A -> gate_reply) (m : gate (Response + A)) : gate gate_reply :=
  r ← m; mret (match r with inl d => Document d | inr a => f a end).

Definition handle (req : gate_request) : gate gate_reply :=
  match req with
  | PostChip headers body => document (create_chip p rfc3339 app headers body)
  | GetChip cid headers => document (get_chip_by_cid cid headers)
  | VerifyChip cid => document (verify_chip p app cid)
  | GetReceipt cid headers => document (get_receipt p app cid headers)
  | GetReceiptUrl cid => document (get_receipt_public_url p app cid)
  | GetReceiptTrace cid => document (get_receipt_trace p app cid)
  | NarrateReceipt cid persist => document (narrate_receipt app cid persist)
  | PassportAdvisories cid => document (get_passport_advisories cid)
  | VerifyAdvisory cid => document (verify_advisory cid)
  | RegistryTypes world => document (registry_types world)
  | RegistryType chip_type => document (registry_type_detail chip_type)
  | RegistryVersion chip_type ver => document (registry_type_version chip_type ver)
  | RegistryTable world => either (fun rows => TableDocument rows.1 rows.2) (registry_table_partial world)
  | RegistryPage chip_type => either TypeDocument (registry_type_page chip_type)
  | RegistryKatTest form => either KatVerdict (registry_kat_test p rfc3339 app form)
  | PostMcpRpc headers rpc => r ← mcp_rpc p rfc3339 app headers rpc; mret (RpcReply r.1 r.2)
  | McpSocket headers messages => mcp_ws_upgrade headers messages
  end.

(** Requests in the order in which they are handled. *)
Fixpoint serve_all (reqs : list gate_request) (s : State) : State :=
  match reqs with [] => s | req :: rest => serve_all rest (handle req s).1 end.
End Router.

(** * Theorems on the gate: what requests change *)

Section Facts.
Context {U : Unicode} {CH : Chrono} {HB3 : Blake3} {KB3 : Blake3Keyed} {ED : Ed25519} {EK : Ed25519Keys} {B64 : Base64}
  {B64D : Base64Decode} {B58 : Base58} {NS : NumSerde} {CK : Clock} {SJ : SerdeJson} {BN : BigNum} {SC : StrCase}
  {SU : StrUpper} {SD : StrDebug} {CI : ChronoInstant} {CF : ChronoFormat} {CD : ChronoDate} {HI : HashIter} {BT : BigintText}
  {HX : HexDecode} {B64S : Base64Std} {SH : Sha256} {W : Wasmtime} {PS : PolicySerde} {RS : ReceiptSerde} {R : Readings}
  {FT : ForeignTexts} {GR : GateReadings} {GT : GateTexts}.
Context {B L : Type} {BE : ChipStoreBackend B} {LW : LedgerWriter L}.
Context (p : UblPipeline) (rfc3339 : Z -> string) (app : AppConfig).
Abbreviation State := (GateState B L).
Abbreviation gate := (M State gate_stop).
Implicit Types (s : State).

(** ** Retrieval

    [f] is any view of the state that readings do not change. *)

Section Reads.
Context {X : Type} (f : State -> X) (Hf : forall s, f (set_pipe (next_tick (g_pipe s)) s) = f s).

Lemma keeps_reading {A} (g : nat -> A) : leaves f (gread g).
Proof. apply leaves_gread, Hf. Qed.

Ltac reads := unfold gate_durable; leaves_with ltac:(apply keeps_reading).

Lemma chain_check_reads cid j : leaves f (verify_receipt_auth_chain p cid j).
Proof. unfold verify_receipt_auth_chain. reads. Qed.

Lemma fetch_reads db cid : leaves f (fetch_verified p db cid).
Proof. unfold fetch_verified. leaves_with ltac:(first [apply keeps_reading|apply chain_check_reads]). Qed.

Ltac reads ::= unfold gate_durable; leaves_with ltac:(first [apply keeps_reading|apply chain_check_reads|apply fetch_reads]).

Lemma get_receipt_reads cid h : leaves f (GateRead.get_receipt p app cid h).
Proof. unfold GateRead.get_receipt. reads. Qed.
Lemma receipt_url_reads cid : leaves f (get_receipt_public_url p app cid).
Proof. unfold get_receipt_public_url. reads. Qed.
Lemma trace_reads cid : leaves f (get_receipt_trace p app cid).
Proof. unfold get_receipt_trace. reads. Qed.
Lemma get_chip_reads cid h : leaves f (get_chip_by_cid cid h).
Proof. unfold get_chip_by_cid. reads. Qed.
Lemma verify_chip_reads cid : leaves f (verify_chip p app cid).
Proof. unfold verify_chip. reads. Qed.
Lemma advisories_reads cid : leaves f (get_passport_advisories cid).
Proof. unfold get_passport_advisories. reads. Qed.
Lemma advisory_reads cid : leaves f (verify_advisory cid).
Proof. unfold verify_advisory. reads. Qed.
Lemma registry_reads w : leaves f (materialize_registry w).
Proof. unfold materialize_registry. reads. Qed.

Lemma narrate_reads cid persist : default false persist = false -> leaves f (narrate_receipt app cid persist).
Proof. intros H. unfold narrate_receipt. rewrite H. reads. Qed.

Lemma tool_reads name arguments id headers auth : is_write_tool_call name arguments = false ->
  leaves f (dispatch_tool_call p rfc3339 app name arguments id headers auth).
Proof.
  unfold is_write_tool_call, dispatch_tool_call. destruct (String.eqb _ "ubl.deliver"); [done|]. intros H.
  destruct (String.eqb _ "ubl.query"); [unfold tool_query; reads|].
  destruct (String.eqb _ "ubl.receipt"); [unfold tool_receipt; reads|].
  destruct (String.eqb _ "ubl.verify"); [unfold tool_verify; reads|].
  destruct (String.eqb _ "ubl.receipt.trace"); [unfold tool_receipt_trace; reads|].
  destruct (String.eqb _ "ubl.cid"); [reads|].
  destruct (String.eqb _ "ubl.rb.execute"); [unfold tool_rb_execute; reads|].
  destruct (String.eqb _ "ubl.narrate"); [unfold tool_narrate; rewrite H; reads|]. reads.
Qed.
End Reads.

(** All of the state but the number of readings. *)
Definition settled s := (forget (g_pipe s), g_canon s, g_mcp s).

Lemma settled_kept s1 s2 : settled s1 = settled s2 -> kept s1 = kept s2.
Proof. intros H. apply forget_durable, (f_equal (fun x => x.1.1) H). Qed.

Lemma rpc_reads rpc headers : rpc_writes rpc = false -> leaves settled (handle_mcp_rpc_request p rfc3339 app rpc headers None).
Proof.
  intros H. unfold handle_mcp_rpc_request. unfold rpc_writes in H. destruct (bool_decide _); cbn [negb andb] in *; [|leaves_tac].
  destruct (String.eqb _ "tools/list") eqn:E1; [leaves_tac|]. destruct (String.eqb _ "tools/call"); [|leaves_tac]. cbn [andb] in H.
  apply leaves_bind; [leaves_tac|]. intros [e|]; [leaves_tac|]. apply leaves_bind; [|intros; leaves_tac]. by apply tool_reads.
Qed.

(** Requests that are not writes leave chips, ledger, disk, secrets, the
    database, the nonces, the events and the limiters as they were. *)
Lemma handle_reads req : writes req = false -> leaves settled (handle p rfc3339 app req).
Proof.
  intros Hw. pose proof (fun s : State => eq_refl : settled (set_pipe (next_tick (g_pipe s)) s) = settled s) as Hf.
  destruct req; try done; cbn [handle writes] in *; unfold document, either; (apply leaves_bind; [|intros; leaves_tac]).
  - by apply get_chip_reads.
  - by apply verify_chip_reads.
  - by apply get_receipt_reads.
  - by apply receipt_url_reads.
  - by apply trace_reads.
  - by apply narrate_reads.
  - by apply advisories_reads.
  - by apply advisory_reads.
  - unfold registry_types. apply leaves_bind; [by apply registry_reads|intros; leaves_tac].
  - unfold registry_type_detail. apply leaves_bind; [by apply registry_reads|intros; leaves_tac].
  - unfold registry_type_version. apply leaves_bind; [by apply registry_reads|intros; leaves_tac].
  - unfold registry_table_partial. apply leaves_bind; [by apply registry_reads|intros; leaves_tac].
  - unfold registry_type_page. apply leaves_bind; [by apply registry_reads|intros; leaves_tac].
  - by apply rpc_reads.
Qed.

Lemma socket_bearer_keeps headers : leaves kept (validate_mcp_ws_bearer headers : gate (Response + McpWsAuth)).
Proof. unfold validate_mcp_ws_bearer. leaves_with ltac:(apply bearer_keeps). Qed.

Lemma socket_bearer headers s s' auth : validate_mcp_ws_bearer headers s = (s', Ok (inr auth)) -> bearer_session s (Some headers) auth.
Proof.
  unfold validate_mcp_ws_bearer. destruct (parse_bearer_token headers) as [id|] eqn:Hid; [|done].
  intros (s1 & session & Hr & H)%M_bind_ok. apply bearer_read in Hr. rewrite Hid in Hr. destruct Hr as (store & Hst & ->).
  destruct (session_of _ _ _) as [a|] eqn:Ha; cbn [fmap result_fmap] in H; [|done]. revert H. do 2 (case_match; [done|]).
  intros [= <- <-]. by exists headers, id, store.
Qed.
(** ** Writes *)

Lemma check_session_keeps name arguments id auth : leaves kept (check_session name arguments id auth : gate (option json)).
Proof. unfold check_session. leaves_tac. Qed.

Lemma check_session_passes name arguments id auth s s' : check_session name arguments id auth s = (s', Ok None) ->
  is_write_tool_call name arguments && negb (mcp_scope_allows_write auth) = false.
Proof.
  unfold check_session. intros (s1 & now & _ & (s2 & limiter & _ & H)%M_bind_ok)%M_bind_ok.
  destruct (mcp_check limiter now (token_id auth)) as [limited limiter'].
  apply M_bind_ok in H as (s3 & [] & _ & H). destruct limited; [done|]. by destruct (_ && _).
Qed.

Lemma socket_call_keeps rpc auth : mcp_scope_allows_write auth = false ->
  leaves kept (handle_mcp_rpc_request p rfc3339 app rpc None (Some auth)).
Proof.
  intros Ha. unfold handle_mcp_rpc_request. destruct (negb _); [leaves_tac|]. destruct (String.eqb _ "tools/list"); [leaves_tac|].
  destruct (String.eqb _ "tools/call"); [|leaves_tac]. intros s. unfold mbind at 1, M_bind at 1.
  set (name := text_arg "name" _). set (arguments := default (JObject []) (get "arguments" _)). set (id := default JNull _).
  destruct (check_session name arguments id auth s) as [s1 [verdict|e]] eqn:E.
  2: { cbn. by eapply leaves_run, E; apply check_session_keeps. }
  transitivity (kept s1); [|by eapply leaves_run, E; apply check_session_keeps]. destruct verdict as [e|]; [done|].
  apply check_session_passes in E. rewrite Ha, andb_true_r in E. apply leaves_bind; [by apply tool_reads|intros; leaves_tac].
Qed.

Lemma ws_call_keeps auth text : mcp_scope_allows_write auth = false -> leaves kept (ws_call p rfc3339 app auth text : gate _).
Proof.
  intros Ha. unfold ws_call. destruct (from_str text); [|leaves_tac]. apply leaves_bind; [by apply socket_call_keeps|intros; leaves_tac].
Qed.

Lemma socket_keeps auth messages : mcp_scope_allows_write auth = false -> leaves kept (mcp_ws_session p rfc3339 app auth messages).
Proof.
  intros Ha. induction messages as [|[msg sent] rest IH]; [leaves_tac|]. cbn [mcp_ws_session].
  destruct msg; [| |leaves_with ltac:(apply IH)|done|done|done].
  - apply leaves_bind; [by apply ws_call_keeps|intros r; leaves_with ltac:(apply IH)].
  - destruct (from_utf8 bs); [|leaves_with ltac:(apply IH)].
    apply leaves_bind; [by apply ws_call_keeps|intros r; leaves_with ltac:(apply IH)].
Qed.

(** *** What a change rests on *)

(** The chip of a [ubl.deliver] call, as the bytes that are submitted. *)
Definition delivered (rpc : json) : bytes :=
  to_vec (default (JObject []) (get "chip" (default (JObject []) (get "arguments" (default (JObject []) (get "params" rpc)))))).

(** The submitted bytes are admitted, and the request may write their chip. *)
Definition authorized_body s headers (body : bytes) : Prop :=
  exists value, knock (pl_env p) body = Ok value /\ authorized app s headers value.

(** Why a request may change chips, ledger, disk or secrets.  The last three
    ask for no authority. *)
Inductive permitted s : gate_request -> Prop :=
| submission headers body : authorized_body s (Some headers) body -> permitted s (PostChip headers body)
| tool_submission headers rpc : authorized_body s (Some headers) (delivered rpc) -> permitted s (PostMcpRpc headers rpc)
| socket_session headers messages auth :
    bearer_session s (Some headers) auth -> mcp_scope_allows_write auth = true -> permitted s (McpSocket headers messages)
| narration cid : permitted s (NarrateReceipt cid (Some true))
| tool_narration headers rpc :
    canonical_tool_name (text_arg "name" (default (JObject []) (get "params" rpc))) = "ubl.narrate" ->
    bool_arg "persist" (default (JObject []) (get "arguments" (default (JObject []) (get "params" rpc)))) = true ->
    permitted s (PostMcpRpc headers rpc)
| kat_test form : permitted s (RegistryKatTest form).

Lemma submission_changes headers body s s' r :
  submit_chip_bytes p rfc3339 app headers false body s = (s', r) -> kept s' = kept s \/ authorized_body s headers body.
Proof.
  unfold submit_chip_bytes. destruct (knock (pl_env p) body) as [value|e] eqn:Ek.
  2: { intros H. left. by eapply leaves_run, H; apply reject_keeps. }
  unfold mbind, M_bind. destruct (authorize_submission _ _ _ _ _ _ s) as [s1 [v|e]] eqn:Ea.
  - pose proof (authorize_exact p app _ _ _ _ _ _ _ Ea) as Hv. destruct v as [resp|subject].
    + intros [= <- <-]. left. by eapply leaves_run, Ea; apply authorize_keeps.
    + intros _. right. by exists value.
  - intros [= <- <-]. left. by eapply leaves_run, Ea; apply authorize_keeps.
Qed.

Lemma bind_changes {A C} (m : gate A) (k : A -> gate C) s s' r (P : Prop) :
  (forall s1 r1, m s = (s1, r1) -> kept s1 = kept s \/ P) -> (forall a, leaves kept (k a)) -> (m ≫= k) s = (s', r) ->
  kept s' = kept s \/ P.
Proof.
  intros Hm Hk. unfold mbind, M_bind. destruct (m s) as [s1 [a|e]] eqn:E.
  - intros H. destruct (Hm _ _ eq_refl) as [Hs|]; [|by right]. left. rewrite <- Hs. by eapply leaves_run, H.
  - intros [= <- <-]. by eapply Hm.
Qed.

Lemma bind_ret {A C} (a : A) (k : A -> gate C) s : (mret a ≫= k) s = k a s.
Proof. done. Qed.

Lemma rpc_changes headers rpc s s' r :
  handle_mcp_rpc_request p rfc3339 app rpc (Some headers) None s = (s', r) ->
  kept s' = kept s \/ permitted s (PostMcpRpc headers rpc).
Proof.
  intros H. destruct (rpc_writes rpc) eqn:Ew.
  2: { left. by apply settled_kept; eapply leaves_run, H; apply rpc_reads. }
  unfold rpc_writes in Ew. apply andb_true_iff in Ew as [[Ev Em]%andb_true_iff Ew].
  unfold handle_mcp_rpc_request in H. rewrite Ev in H. apply String.eqb_eq in Em. rewrite Em in H. change (String.eqb "tools/call" "tools/list") with false in H. change (String.eqb "tools/call" "tools/call") with true in H.
  cbn [negb] in H. rewrite bind_ret in H.
  revert H. apply bind_changes; [|intros; leaves_tac]. intros s1 r1. unfold dispatch_tool_call. unfold is_write_tool_call in Ew.
  destruct (String.eqb _ "ubl.deliver") eqn:Ed.
  - unfold deliver. apply bind_changes; [|intros; leaves_tac]. intros s2 r2 [|Ha]%submission_changes; [by left|].
    right. by constructor.
  - destruct (String.eqb _ "ubl.narrate") eqn:En; [|done]. intros _. right. apply tool_narration; [|done]. by apply String.eqb_eq.
Qed.

Lemma change_permitted req s s' r : handle p rfc3339 app req s = (s', r) -> kept s' = kept s \/ permitted s req.
Proof.
  destruct (writes req) eqn:Ew.
  2: { intros H. left. apply settled_kept. revert H. apply leaves_run. by apply (handle_reads req). }
  destruct req; try done; cbn [handle]; unfold document, either.
  - apply bind_changes; [|intros; leaves_tac]. intros s1 r1 [|]%submission_changes; [by left|]. right. by constructor.
  - cbn in Ew. destruct persist as [[]|]; try done. intros _. right. constructor.
  - intros _. right. constructor.
  - apply bind_changes; [|intros; leaves_tac]. intros s1 r1. apply rpc_changes.
  - unfold mcp_ws_upgrade, mbind at 1, M_bind at 1. destruct (validate_mcp_ws_bearer headers s) as [s1 [[refusal|auth]|e]] eqn:Ev.
    + intros [= <- <-]. left. by eapply leaves_run, Ev; apply socket_bearer_keeps.
    + intros H. destruct (mcp_scope_allows_write auth) eqn:Ea.
      * right. apply (socket_session _ _ _ auth); [|done]. by eapply socket_bearer.
      * left. transitivity (kept s1); [|by eapply leaves_run, Ev; apply socket_bearer_keeps].
        revert H. apply leaves_run. apply leaves_bind; [by apply socket_keeps|intros; leaves_tac].
    + intros [= <- <-]. left. by eapply leaves_run, Ev; apply socket_bearer_keeps.
Qed.

(** ** Sequences of requests *)

(** C22: Requests that are not writes leave chips, ledger, disk, secrets, the
    database, the nonces, the events and the limiters as they were. *)
Theorem reads_change_nothing reqs s : Forall (fun req => writes req = false) reqs ->
  settled (serve_all p rfc3339 app reqs s) = settled s.
Proof. intros H. revert s. induction H as [|req reqs Hr _ IH]; intros s; [done|]. cbn. rewrite IH. by apply handle_reads. Qed.

(** C18: Chips, ledger, disk and secrets change only by permitted requests: an
    authorized submission, directly or as a tool call, a socket of a session that
    may write, a narration that is kept, or a known-answer test.  The advisory tasks
    that the runs of submissions have spawned wait in the state and store their
    chips apart from requests ([run_schedule]). *)
Theorem changes_are_permitted reqs s : kept (serve_all p rfc3339 app reqs s) = kept s \/
  exists before req after, reqs = before ++ req :: after /\ permitted (serve_all p rfc3339 app before s) req.
Proof.
  revert s. induction reqs as [|req reqs IH]; intros s; [by left|]. cbn.
  destruct (handle p rfc3339 app req s) as [s1 r] eqn:E. cbn. destruct (change_permitted _ _ _ _ E) as [Hk|Hp].
  2: { right. by exists [], req, reqs. }
  destruct (IH s1) as [Hs|(before & q & after & -> & Hq)]; [left; by rewrite Hs|].
  right. exists (req :: before), q, after. cbn. by rewrite E.
Qed.
End Facts.
