(* ===== verification/PolicyLock.v ===== *)
(** * The policy lockfile ([ubl_runtime/src/policy_lock.rs])

    Pins of policy CIDs per scope level, their text form, and the comparison
    with the policies that were loaded. *)

From S2P Require Import Prelude RustStd RustStr Json Nrf TextFacts BigNum.
From stdpp Require sorting.
Local Open Scope string_scope.
Local Open Scope Z_scope.
Local Open Scope list_scope.

(** ** Data *)

(** [policies] is a [BTreeMap]: entries in the order of their levels. *)
Record PolicyLock : Type := mkLock { lock_version : Z; policies : list (string * string) }.
Record LockMismatch : Type := mkMismatch { level : string; expected_cid : string; actual_cid : string }.
Record LockVerification : Type := mkVerification {
  ok : bool; mismatches : list LockMismatch; missing : list string; extra : list string }.

(** The texts of errors quote what could not be read. *)
Inductive lock_error : Type := InvalidVersion (v : string) | UnsupportedVersion (n : Z).

Definition lock_new : PolicyLock := mkLock 1 [].
Definition pin (l : PolicyLock) (lvl cid : string) : PolicyLock := mkLock (lock_version l) (btree_insert lvl cid (policies l)).

(** ** Text *)

Definition newline : ascii := ascii_of_nat 10.
(** [lines()], up to carriage returns and an empty last piece, which the
    trimming of every line makes no difference of. *)
Definition pieces (s : string) : list string := split_on newline s.

(** [str::parse::<u32>]. *)
Definition parse_u32 (s : string) : option Z :=
  let digits := match s with String "+" s' => s' | _ => s end in
  match digits with
  | EmptyString => None
  | _ => z ← parse_digits digits 0; if z <=? u32_max then Some z else None
  end.

(** [trim_start_matches(pat)] with a non-empty pattern. *)
Fixpoint trim_start_str (fuel : nat) (pat s : string) : string :=
  match fuel with
  | O => s
  | S fuel' => match strip_prefix pat s with Some r => trim_start_str fuel' pat r | None => s end
  end.

(** One turn of the loop over the lines, with the flag [in_policies]. *)
Definition read_line (st : PolicyLock * bool) (line : string) : result lock_error (PolicyLock * bool) :=
  let '(lock, in_policies) := st in
  let trimmed := str_trim line in
  if is_empty trimmed || starts_with "#" trimmed then Ok st
  else if starts_with "version:" trimmed then
    let v := str_trim (trim_start_str (String.length trimmed) "version:" trimmed) in
    n ← ok_or (parse_u32 v) (InvalidVersion v);
    Ok (mkLock n (policies lock), in_policies)
  else if String.eqb trimmed "policies:" then Ok (lock, true)
  else if in_policies then
    match split_once ":" trimmed with
    | Some (k, v) =>
        let val := str_trim v in
        if is_empty val then Ok st else Ok (pin lock (str_trim k) val, in_policies)
    | None => Ok st
    end
  else Ok st.

Fixpoint read_lines (st : PolicyLock * bool) (lines : list string) : result lock_error (PolicyLock * bool) :=
  match lines with [] => Ok st | line :: rest => st' ← read_line st line; read_lines st' rest end.

Definition from_yaml (yaml : string) : result lock_error PolicyLock :=
  '(lock, _) ← read_lines (lock_new, false) (pieces yaml);
  if lock_version lock =? 1 then Ok lock else Err (UnsupportedVersion (lock_version lock)).

Definition line_of (text : string) : string := text +:+ String newline EmptyString.
Definition entry_line (kv : string * string) : string := line_of ("  " +:+ kv.1 +:+ ": " +:+ kv.2).
Fixpoint entry_lines (m : list (string * string)) : string :=
  match m with [] => "" | kv :: rest => entry_line kv +:+ entry_lines rest end.
Definition to_yaml (l : PolicyLock) : string :=
  line_of ("version: " +:+ u_to_string (lock_version l)) +:+ line_of "policies:" +:+ entry_lines (policies l).

(** ** Verification *)

(** The loop over the pins. *)
Fixpoint check_pins (loaded pins : list (string * string)) : list LockMismatch * list string :=
  match pins with
  | [] => ([], [])
  | (lvl, expected) :: rest =>
      let '(ms, gone) := check_pins loaded rest in
      match btree_get lvl loaded with
      | Some actual => if String.eqb actual expected then (ms, gone) else (mkMismatch lvl expected actual :: ms, gone)
      | None => (ms, lvl :: gone)
      end
  end.

(** [mismatches.is_empty() && missing.is_empty()]. *)
Definition no_items {A} (l : list A) : bool := match l with [] => true | _ => false end.

Definition verify (l : PolicyLock) (loaded : list (string * string)) : LockVerification :=
  let '(ms, gone) := check_pins loaded (policies l) in
  mkVerification (no_items ms && no_items gone) ms gone
    (List.filter (fun lvl => negb (btree_contains_key lvl (policies l))) loaded.*1).

Definition verification_display (v : LockVerification) : string :=
  let row (text : string) : string := String newline EmptyString +:+ "  " +:+ text in
  let extras := join "" ((fun e => row ("EXTRA " +:+ e +:+ " (not in lockfile)")) <$> extra v) in
  if ok v then "policy lockfile: OK" +:+ extras
  else "policy lockfile: DRIFT DETECTED"
       +:+ join "" ((fun m => row ("MISMATCH " +:+ level m +:+ ": expected " +:+ expected_cid m +:+ " got " +:+ actual_cid m)) <$> mismatches v)
       +:+ join "" ((fun m => row ("MISSING " +:+ m)) <$> missing v) +:+ extras.

(** ** Properties: verification *)

Lemma check_pins_exact loaded pins : forall ms gone, check_pins loaded pins = (ms, gone) ->
  (forall lvl e a, mkMismatch lvl e a ∈ ms <-> (lvl, e) ∈ pins /\ btree_get lvl loaded = Some a /\ a <> e) /\
  (forall lvl, lvl ∈ gone <-> lvl ∈ pins.*1 /\ btree_get lvl loaded = None).
Proof.
  induction pins as [|[k e0] pins IH]; cbn [check_pins]; intros ms gone.
  { intros [= <- <-]. set_solver. }
  destruct (check_pins loaded pins) as [ms0 gone0]. destruct (IH ms0 gone0 eq_refl) as [H1 H2]. csimpl.
  destruct (btree_get k loaded) as [a0|] eqn:E.
  - destruct (String.eqb_spec a0 e0) as [->|Hne]; intros [= <- <-]; split.
    + intros lvl e a. rewrite H1, elem_of_cons. split; [naive_solver|]. intros ([[= -> ->]|Hin] & Ha & Hn); [congruence|done].
    + intros lvl. rewrite H2, elem_of_cons. split; [naive_solver|]. intros ([->|Hin] & Hn); [congruence|done].
    + intros lvl e a. rewrite !elem_of_cons, H1. split.
      * intros [[= -> -> ->]|Hr]; [split; [by left|done]|]. destruct Hr as (? & ? & ?). split; [by right|done].
      * intros ([[= -> ->]|Hin] & Ha & Hn); [left; congruence|by right].
    + intros lvl. rewrite H2, elem_of_cons. split; [naive_solver|]. intros ([->|Hin] & Hn); [congruence|done].
  - intros [= <- <-]. split.
    + intros lvl e a. rewrite H1, elem_of_cons. split; [naive_solver|]. intros ([[= -> ->]|Hin] & Ha & Hn); [congruence|done].
    + intros lvl. rewrite !elem_of_cons, H2. split; [|naive_solver]. intros [->|[? ?]]; [by split; [left|]|by split; [right|]].
Qed.

Lemma no_items_spec {A} (l : list A) : no_items l = true <-> forall x, x ∉ l.
Proof. destruct l as [|x l]; cbn; split; try done; [intros _ x; set_solver|intros H; destruct (H x); left]. Qed.

(** C26: The check passes exactly when every pinned level is loaded with its pinned
    CID; the reports list exactly the levels that differ, that are missing and
    that are loaded without a pin.  A level without a pin never fails it. *)
Theorem lock_verify_exact l loaded : btree_wf (policies l) -> btree_wf loaded ->
  let v := verify l loaded in
  (ok v = true <-> forall lvl e, btree_get lvl (policies l) = Some e -> btree_get lvl loaded = Some e) /\
  (forall lvl e a, mkMismatch lvl e a ∈ mismatches v <->
     btree_get lvl (policies l) = Some e /\ btree_get lvl loaded = Some a /\ a <> e) /\
  (forall lvl, lvl ∈ missing v <-> is_Some (btree_get lvl (policies l)) /\ btree_get lvl loaded = None) /\
  (forall lvl, lvl ∈ extra v <-> is_Some (btree_get lvl loaded) /\ btree_get lvl (policies l) = None).
Proof.
  intros Hp Hl v. subst v. unfold verify. destruct (check_pins loaded (policies l)) as [ms gone] eqn:E.
  destruct (check_pins_exact _ _ _ _ E) as [H1 H2]. cbn [ok mismatches missing extra].
  assert (forall (m : list (string * string)) lvl, btree_wf m -> lvl ∈ m.*1 <-> is_Some (btree_get lvl m)) as Hkey.
  { intros m lvl Hm. rewrite list_elem_of_fmap. split.
    - intros ([k e] & -> & Hin). exists e. by apply btree_get_elem.
    - intros [e He]. exists (lvl, e). split; [done|]. by apply btree_get_elem. }
  assert (forall lvl e a, mkMismatch lvl e a ∈ ms <-> btree_get lvl (policies l) = Some e /\ btree_get lvl loaded = Some a /\ a <> e) as H1'.
  { intros lvl e a. by rewrite H1, (btree_get_elem lvl e (policies l)). }
  assert (forall lvl, lvl ∈ gone <-> is_Some (btree_get lvl (policies l)) /\ btree_get lvl loaded = None) as H2'.
  { intros lvl. by rewrite H2, (Hkey (policies l)). }
  split_and!; [|done..|].
  - rewrite andb_true_iff, !no_items_spec. split.
    + intros [Hm Hg] lvl e He. destruct (btree_get lvl loaded) as [a|] eqn:Ea.
      * destruct (decide (a = e)) as [->|Hne]; [done|]. destruct (Hm (mkMismatch lvl e a)). by apply H1'.
      * destruct (Hg lvl). apply H2'. by rewrite He.
    + intros H. split.
      * intros [lvl e a] (He & Ha & Hn)%H1'. apply H in He. congruence.
      * intros lvl ([e He] & Hn)%H2'. apply H in He. congruence.
  - intros lvl. rewrite list_elem_of_In, filter_In, <- list_elem_of_In, (Hkey loaded) by done. unfold btree_contains_key.
    destruct (btree_get lvl (policies l)); cbn; naive_solver.
Qed.

(** ** Properties: text *)

(** A character that is neither a space nor a control. *)
Definition graphic (a : ascii) : bool := ascii_between "!" "~" a.

Lemma graphic_range a : graphic a = true -> 33 <= Z.of_N (N_of_ascii a) <= 126.
Proof.
  unfold graphic, ascii_between. intros [H1%N.leb_le H2%N.leb_le]%andb_true_iff.
  change (N_of_ascii "!") with 33%N in H1. change (N_of_ascii "~") with 126%N in H2. lia.
Qed.

(** The characters of an ASCII text. *)
Definition byte_chars (s : string) : list (Z * bytes) := (fun a => (Z.of_N (N_of_ascii a), [byte_of_ascii a])) <$> list_ascii_of_string s.

Lemma ascii_str_chars s : ascii_text s = true -> str_chars s = byte_chars s.
Proof.
  unfold str_chars. assert (length (as_bytes s) <= length (as_bytes s))%nat as Hf by lia. revert Hf.
  generalize (length (as_bytes s)) at 2 as fuel.
  intros fuel. revert s. induction fuel as [|fuel IH]; intros s Hf Hs.
  - destruct s; [done|cbn in Hf; lia].
  - destruct s as [|a s]; [done|]. cbn [ascii_text str_forallb] in Hs. apply andb_true_iff in Hs as [Ha%N.ltb_lt Hs].
    change (as_bytes (String a s)) with (byte_of_ascii a :: as_bytes s) in *. cbn [char_texts length] in *. unfold next_char.
    assert ((u8 (byte_of_ascii a) <=? 0x7F) = true) as -> by (rewrite u8_of_ascii; apply Z.leb_le; lia).
    replace (take (S (length (as_bytes s)) - length (as_bytes s)) (byte_of_ascii a :: as_bytes s)) with [byte_of_ascii a].
    + rewrite IH by (done || lia). by rewrite u8_of_ascii.
    + replace (S (length (as_bytes s)) - length (as_bytes s))%nat with 1%nat by lia. done.
Qed.

Lemma of_byte_chars s : of_chars (byte_chars s) = s.
Proof.
  unfold of_chars, byte_chars. rewrite <- (string_of_list_byte_of_string s) at 2. f_equal. unfold list_byte_of_string.
  induction (list_ascii_of_string s) as [|a l IH]; [done|]. csimpl. by rewrite IH.
Qed.

(** A text that begins and ends with a graphic character. *)
Definition edged (s : string) : Prop :=
  exists a b s1 s2, s = String a s1 /\ s = s2 +:+ String b EmptyString /\ graphic a = true /\ graphic b = true.

Lemma byte_chars_app s1 s2 : byte_chars (s1 +:+ s2) = byte_chars s1 ++ byte_chars s2.
Proof. unfold byte_chars. induction s1 as [|a s1 IH]; [done|]. rewrite str_app_cons. csimpl. by rewrite IH. Qed.

Lemma graphic_not_space a : graphic a = true -> is_whitespace (Z.of_N (N_of_ascii a)) = false.
Proof.
  intros H%graphic_range. unfold is_whitespace. repeat (apply orb_false_iff; split);
    first [apply Z.eqb_neq; lia | apply andb_false_iff; first [left; apply Z.leb_gt; lia|right; apply Z.leb_gt; lia]].
Qed.

Lemma drop_while_all {A} (f : A -> bool) l x rest : Forall (fun y => f y = true) l -> f x = false ->
  drop_while f (l ++ x :: rest) = x :: rest.
Proof. induction 1 as [|y l Hy _ IH]; intros Hx; cbn; [by rewrite Hx|]. rewrite Hy. by apply IH. Qed.

Lemma drop_while_stop {A} (f : A -> bool) x rest : f x = false -> drop_while f (x :: rest) = x :: rest.
Proof. intros H. cbn. by rewrite H. Qed.

(** Trimming takes the indentation and nothing else. *)
Lemma trim_indent n s : ascii_text s = true -> edged s -> str_trim (string_of_list_ascii (replicate n " "%char) +:+ s) = s.
Proof.
  intros Ha (a & b & s1 & s2 & E1 & E2 & Hga & Hgb). set (pre := string_of_list_ascii (replicate n " "%char)).
  unfold str_trim. rewrite ascii_str_chars.
  2: { unfold ascii_text in *. rewrite str_forallb_app, Ha, andb_true_r. subst pre. clear. induction n; cbn; [done|]. by rewrite IHn. }
  rewrite byte_chars_app. rewrite E1 at 1. unfold byte_chars at 2. csimpl. rewrite drop_while_all.
  - fold (byte_chars s1). change (_ :: byte_chars s1) with (byte_chars (String a s1)). rewrite <- E1, E2, byte_chars_app.
    unfold byte_chars at 2. csimpl. rewrite reverse_app. change (reverse [?x]) with [x]. cbn [app].
    rewrite drop_while_stop by by apply graphic_not_space.
    rewrite <- (reverse_involutive (byte_chars s2)) at 1.
    rewrite reverse_cons, !reverse_involutive. change [_] with (byte_chars (String b EmptyString)).
    by rewrite <- byte_chars_app, of_byte_chars.
  - subst pre. clear. unfold byte_chars. induction n; cbn; constructor; done.
  - by apply graphic_not_space.
Qed.

(** A level and a CID that the text form keeps apart: visible ASCII characters;
    no colon, comment sign or the word [version] as a level. *)
Definition plain_level (k : string) : bool :=
  str_forallb graphic k && negb (is_empty k) && negb (contains_char ":" k) && negb (starts_with "#" k) && negb (String.eqb k "version").
Definition plain_cid (c : string) : bool := str_forallb graphic c && negb (is_empty c).
Definition plain_entry (kv : string * string) : bool := plain_level kv.1 && plain_cid kv.2.

Lemma graphic_edged s : str_forallb graphic s = true -> is_empty s = false -> edged s /\ ascii_text s = true.
Proof.
  intros Hg He. split.
  - destruct s as [|a s]; [done|]. cbn in Hg. apply andb_true_iff in Hg as [Ha Hs]. clear He.
    assert (exists s2 b, String a s = s2 +:+ String b EmptyString /\ graphic b = true) as (s2 & b & E & Hb).
    { revert a Ha. induction s as [|c s IH]; intros a Ha; [by exists "", a|]. cbn in Hs. apply andb_true_iff in Hs as [Hc Hs].
      destruct (IH Hs c Hc) as (s2 & b & E & Hb). exists (String a s2), b. by rewrite str_app_cons, <- E. }
    by exists a, b, s, s2.
  - revert Hg. apply str_forallb_weaken. intros a H%graphic_range. apply N.ltb_lt. lia.
Qed.

Lemma edged_join k v m : edged k -> edged v -> edged (k +:+ m +:+ v).
Proof.
  intros (a & _ & s1 & _ & -> & _ & Ha & _) (_ & b & _ & s2 & _ & -> & _ & Hb).
  exists a, b, (s1 +:+ m +:+ s2 +:+ String b EmptyString), (String a s1 +:+ m +:+ s2). rewrite !str_app_cons.
  split_and!; [done| |done|done]. by rewrite !str_app_assoc.
Qed.

(** The line of a plain entry pins it. *)
Lemma read_entry_line l kv : plain_entry kv = true ->
  read_line (l, true) ("  " +:+ kv.1 +:+ ": " +:+ kv.2) = Ok (pin l kv.1 kv.2, true).
Proof.
  destruct kv as [k v]. unfold plain_entry, plain_level, plain_cid. cbn [fst snd]. rewrite !andb_true_iff, !negb_true_iff.
  intros (((((Hg & He) & Hc) & Hh) & Hv) & (Hvg & Hve)).
  destruct (graphic_edged k Hg He) as [Hke Hka], (graphic_edged v Hvg Hve) as [Hee Hea].
  assert (str_trim ("  " +:+ k +:+ ": " +:+ v) = k +:+ ": " +:+ v) as Ht.
  { apply (trim_indent 2); [|by apply edged_join]. unfold ascii_text in *. rewrite !str_forallb_app, Hka, Hea. done. }
  assert (split_once ":" (k +:+ ": " +:+ v) = Some (k, " " +:+ v)) as Hs by (apply (split_once_app ":" k (" " +:+ v)); done).
  unfold read_line. rewrite Ht. assert (is_empty (k +:+ ": " +:+ v) = false) as -> by by destruct k.
  assert (starts_with "#" (k +:+ ": " +:+ v) = false) as ->.
  { destruct k as [|a k]; [done|]. rewrite str_app_cons. cbn in Hh |- *. done. }
  assert (starts_with "version:" (k +:+ ": " +:+ v) = false) as ->.
  { apply not_true_iff_false. intros (r & E)%starts_with_Some. rewrite E in Hs.
    change ("version:" +:+ r) with ("version" +:+ String ":" r) in Hs. rewrite split_once_app in Hs by done.
    injection Hs as <- _. done. }
  assert (String.eqb (k +:+ ": " +:+ v) "policies:" = false) as ->.
  { apply String.eqb_neq. intros E. rewrite E in Hs. by injection Hs. }
  cbn [orb]. rewrite Hs.
  assert (str_trim (" " +:+ v) = v) as -> by by apply (trim_indent 1). rewrite Hve.
  assert (str_trim k = k) as -> by by apply (trim_indent 0). done.
Qed.

Lemma plain_no_newline s : str_forallb graphic s = true -> contains_char newline s = false.
Proof.
  intros H. rewrite contains_char_forallb. apply negb_false_iff. revert H. apply str_forallb_weaken. intros a Ha%graphic_range.
  apply negb_true_iff, Ascii.eqb_neq. intros ->. change (Z.of_N (N_of_ascii newline)) with 10 in Ha. lia.
Qed.

Lemma pieces_line t rest : contains_char newline t = false -> pieces (line_of t +:+ rest) = t :: pieces rest.
Proof. intros H. unfold pieces, line_of. rewrite str_app_assoc. by apply (split_on_app newline t rest). Qed.

Lemma read_entries m l : forallb plain_entry m = true -> btree_wf (policies l ++ m) ->
  read_lines (l, true) (pieces (entry_lines m)) = Ok (mkLock (lock_version l) (policies l ++ m), true).
Proof.
  revert l. induction m as [|kv m IH]; intros l Hm Hwf.
  { rewrite app_nil_r. cbn. by destruct l. }
  cbn in Hm. apply andb_true_iff in Hm as [Hkv Hm]. cbn [entry_lines]. unfold entry_line. rewrite pieces_line.
  - cbn [read_lines]. rewrite read_entry_line by done. cbn [mbind result_bind]. unfold pin.
    assert (btree_insert kv.1 kv.2 (policies l) = policies l ++ [kv]) as ->.
    { destruct kv as [k v]. apply btree_insert_last. unfold btree_wf in Hwf. apply Forall_forall. intros b Hb.
      apply sorting.StronglySorted_app in Hwf as (Hall & _ & _). apply (Hall b (k, v)); [done|by left]. }
    rewrite IH; cbn [policies lock_version]; [|done|]; by rewrite <- app_assoc.
  - unfold plain_entry, plain_level, plain_cid in Hkv. rewrite !andb_true_iff in Hkv.
    destruct Hkv as (((((Hg & _) & _) & _) & _) & (Hvg & _)). rewrite !contains_char_app, (plain_no_newline kv.1), (plain_no_newline kv.2) by done. done.
Qed.

(** A lockfile of plain entries survives being written and read back. *)
Theorem lockfile_roundtrip l : lock_version l = 1 -> btree_wf (policies l) -> forallb plain_entry (policies l) = true ->
  from_yaml (to_yaml l) = Ok l.
Proof.
  intros Hv Hwf Hp. unfold from_yaml, to_yaml. rewrite Hv. change (u_to_string 1) with "1".
  rewrite !pieces_line by done. cbn [read_lines]. change (read_line (lock_new, false) _) with (Ok (E:=lock_error) (lock_new, false)).
  cbn [mbind result_bind]. change (read_line (lock_new, false) _) with (Ok (E:=lock_error) (lock_new, true)).
  cbn [mbind result_bind]. rewrite read_entries by done. cbn. destruct l. cbn in *. by subst.
Qed.

Lemma lockfile_roundtrip_witness :
  from_yaml (to_yaml (mkLock 1 [("app/acme", "b3:def"); ("genesis", "b3:abc")])) =
  Ok (mkLock 1 [("app/acme", "b3:def"); ("genesis", "b3:abc")]).
Proof. apply lockfile_roundtrip; [reflexivity|repeat constructor|reflexivity]. Defined.

(** A level called [version] is read as the version of the file. *)
Example version_level_lost :
  from_yaml (to_yaml (mkLock 1 [("version", "1")])) = Ok lock_new /\
  from_yaml (to_yaml (mkLock 1 [("version", "b3:abc")])) = Err (InvalidVersion "b3:abc").
Proof. by vm_compute. Qed.

Lemma lock_verify_exact_witness :
  ok (verify (mkLock 1 [("genesis", "b3:abc")]) [("app/acme", "b3:def"); ("genesis", "b3:abc")]) = true <->
  forall lvl e, btree_get lvl [("genesis", "b3:abc")] = Some e ->
    btree_get lvl [("app/acme", "b3:def"); ("genesis", "b3:abc")] = Some e.
Proof. apply (lock_verify_exact (mkLock 1 [("genesis", "b3:abc")])); repeat constructor. Defined.
