(* ===== verification/ReadFacts.v ===== *)
(** * Theorems on the gate: receipts, narrations, sockets

    When a stored receipt is served, what a kept narration does to its receipt,
    what a socket's session does not look at, and the limiter of its calls; and
    a sample gate on which the theorems are applied. *)

From S2P Require Import Prelude RustStd RustStr Json Nrf NrfFacts BigNum Unc1 Tlv Rho Vm Gate RateLimit Canon Types Silicon.
From S2P Require Import Idempotency Durable Policy Receipt Knock ChipStore ChipStoreFacts Capability Auth AuthFacts.
From S2P Require Import PolicyLoader Envelope KeyRotation AuditChip TrRegistry EventBus Ledger Advisory PipelineTypes Check.
From S2P Require Import CheckFacts Compaction Wasm Adapter Transition Pipeline PipelineFacts RichUrl ErrorResponse GateState.
From S2P Require Import GateSubmit GateRead Mcp MetaChip Registry Router SubmitFacts ReceiptFacts AdapterFacts.
From S2P Require Import PipelineSample.
Local Open Scope string_scope.
Local Open Scope Z_scope.
Local Open Scope list_scope.

(** ** The limiter of MCP tokens *)

(** The limiter that admits the same calls. *)
Definition as_limiter (l : McpTokenRateLimiter) : RateLimiter := mkLimiter (RateLimit.mkConfig (mcp_per_minute l) MCP_WINDOW) (buckets l).

Lemma retain_all cutoff bucket : Forall (fun t => cutoff < t) bucket -> retain_after cutoff bucket = bucket.
Proof.
  induction 1 as [|t bucket Ht _ IH]; [done|]. unfold retain_after in *. cbn [List.filter].
  destruct (Z.ltb_spec cutoff t); [by rewrite IH|lia].
Qed.

Lemma drop_expired_retains now bucket : StronglySorted Z.le bucket -> Forall (fun t => t <= now) bucket ->
  drop_expired now bucket = retain_after (now - MCP_WINDOW) bucket.
Proof.
  induction bucket as [|ts rest IH]; intros Hs Hn; [done|]. apply StronglySorted_inv in Hs as [Hs Hle]. inversion Hn; subst.
  cbn [drop_expired]. unfold instant_sub. destruct (Z.leb_spec MCP_WINDOW (Z.max 0 (now - ts))) as [Hold|Hnew].
  - rewrite IH by done. unfold retain_after. cbn [List.filter]. unfold MCP_WINDOW, SECOND in *.
    destruct (Z.ltb_spec (now - 60 * 1000000000) ts); [lia|done].
  - symmetry. apply retain_all. constructor; [lia|]. eapply Forall_impl; [exact Hle|]. cbn. lia.
Qed.

Lemma retained_recent now w bucket ts rest : retain_after (now - w) bucket = ts :: rest -> Forall (fun t => t <= now) bucket ->
  now - w < ts <= now.
Proof.
  intros H Hn. assert (ts ∈ retain_after (now - w) bucket) as Hin by (rewrite H; left).
  unfold retain_after in Hin. apply list_elem_of_In, List.filter_In in Hin as [Hin Hlt%Z.ltb_lt].
  rewrite Forall_forall in Hn. apply list_elem_of_In, Hn in Hin. lia.
Qed.

(** C24: On buckets as they arise, filled by a clock that does not go back, the
    limiter is the sliding window over one minute: the same calls pass, the same
    instants stay, and a limited call is told the same number of seconds. *)
Theorem mcp_limiter_is_sliding_window l now token :
  let bucket := default [] (buckets l !! token) in
  1 <= mcp_per_minute l -> Z.of_nat (length bucket) < 2 ^ 32 ->
  StronglySorted Z.le bucket -> Forall (fun t => t <= now) bucket ->
  exists r, RateLimit.check (as_limiter l) now token = Ok (r, as_limiter (mcp_check l now token).2) /\
    (mcp_check l now token).1 = retry_after_secs r.
Proof.
  intros bucket H1 Hlen Hs Hn. unfold mcp_check, RateLimit.check. change (entries (as_limiter l)) with (buckets l).
  change (RateLimit.config (as_limiter l)) with (RateLimit.mkConfig (mcp_per_minute l) MCP_WINDOW).
  change (default entry_new (buckets l !! token)) with bucket. fold bucket.
  rewrite (drop_expired_retains now bucket Hs Hn). unfold check_and_record. cbn [window max_requests]. cbv zeta.
  assert (len_as_u32 (retain_after (now - MCP_WINDOW) bucket) = Z.of_nat (length (retain_after (now - MCP_WINDOW) bucket))) as ->.
  { unfold len_as_u32. apply Z.mod_small. pose proof (List.filter_length_le (fun t => now - MCP_WINDOW <? t) bucket).
    unfold retain_after. lia. }
  destruct (Z.leb_spec (mcp_per_minute l) (Z.of_nat (length (retain_after (now - MCP_WINDOW) bucket)))) as [Hfull|Hroom].
  - destruct (retain_after (now - MCP_WINDOW) bucket) as [|oldest rest] eqn:E; [cbn in Hfull; lia|].
    eexists. split; [reflexivity|]. cbn [fst retry_after_secs]. f_equal.
    apply retained_recent in E; [|done]. unfold instant_sub, u64_saturating_add.
    rewrite (Z.max_r 0 (now - oldest)), Z.max_r by lia.
    assert (0 <= (MCP_WINDOW - (now - oldest)) / SECOND <= 60).
    { unfold MCP_WINDOW, SECOND in *. split; [apply Z.div_pos; lia|].
      transitivity ((60 * 1000000000) / 1000000000); [apply Z.div_le_mono; lia|done]. }
    apply Z.min_r. unfold u64_max. lia.
  - eexists. split; [reflexivity|]. done.
Qed.

Section Facts.
Context {U : Unicode} {CH : Chrono} {HB3 : Blake3} {KB3 : Blake3Keyed} {ED : Ed25519} {EK : Ed25519Keys} {B64 : Base64}
  {B64D : Base64Decode} {B58 : Base58} {NS : NumSerde} {CK : Clock} {SJ : SerdeJson} {BN : BigNum} {SC : StrCase}
  {SU : StrUpper} {SD : StrDebug} {CI : ChronoInstant} {CF : ChronoFormat} {CD : ChronoDate} {HI : HashIter} {BT : BigintText}
  {HX : HexDecode} {B64S : Base64Std} {SH : Sha256} {W : Wasmtime} {PS : PolicySerde} {RS : ReceiptSerde} {R : Readings}
  {FT : ForeignTexts} {GR : GateReadings} {GT : GateTexts}.
Context {B L : Type} {BE : ChipStoreBackend B} {LW : LedgerWriter L}.
Context (p : UblPipeline) (rfc3339 : Z -> string) (app : AppConfig).
Abbreviation State := (GateState B L).
Abbreviation gate := (M State gate_stop).
Implicit Types (s : State).

(** ** Stored receipts *)

(** The document reads as a receipt whose chain verifies under the secrets of
    the environment. *)
Definition vouched (j : json) : bool :=
  match receipt_from_json j with Some r => verify_auth_chain (pl_env p) r | None => false end.

(** C23: A stored receipt is served as it is exactly when its chain verifies under
    the secrets of the environment; every other one is answered with the status
    and the code of tampering.  Nothing but the clock changes. *)
Theorem receipt_served_exact cid headers s db j :
  starts_with "b3:" cid = true -> etag_matches cid headers = false -> has_durable app = true ->
  durable_store (g_pipe s) = Some db -> Durable.get_receipt (db_fails (tick (g_pipe s))) db cid = Ok (Some j) ->
  exists s' r, GateRead.get_receipt p app cid headers s = (s', Ok r) /\ settled s' = settled s /\
    if vouched j then r = (200, immutable_headers cid, j)
    else status_of r = 422 /\ get "code" (payload_of r) = Some (JString "TAMPER_DETECTED").
Proof.
  intros Hb He Hd Hs Hr. destruct (GateRead.get_receipt p app cid headers s) as [s' r] eqn:E.
  assert (settled s' = settled s) as Hk by (by eapply leaves_run, E; apply get_receipt_reads).
  revert E. unfold GateRead.get_receipt. rewrite Hb, He. cbn [negb]. unfold gate_durable, asks, mbind, M_bind. rewrite Hd, Hs.
  unfold fetch_verified, mbind, M_bind, gread. rewrite Hr. unfold verify_receipt_auth_chain, vouched, mbind, M_bind, gread.
  destruct (receipt_from_json j) as [x|].
  - destruct (verify_auth_chain (pl_env p) x); cbn; intros [= <- <-]; eexists _, _; (split; [reflexivity|]); by split.
  - cbn. intros [= <- <-]. eexists _, _. split; [reflexivity|]. by split.
Qed.

(** Without the secret in the environment the gate disowns every receipt, also
    those that its own pipeline has just issued under the secret that it derives
    from its signing key. *)
Lemma no_secret_no_receipt j : pl_env p STAGE_SECRET_ENV = Err NotPresent -> vouched j = false.
Proof.
  intros H. unfold vouched. destruct (receipt_from_json j); [|done]. unfold verify_auth_chain, load_required_stage_secret_key.
  by rewrite H.
Qed.

(** ** Narrations *)

Context {inv : B -> Prop} {accepts : StoredChip -> Prop} {contents : B -> gmap TypedCid StoredChip}
  `{!BackendSpec BE inv accepts contents}.

(** A narration that is kept takes its receipt over: with no credentials, and
    outside the pipeline, an advisory is stored under the receipt's CID, and the
    lookups by that CID answer the advisory instead of the chip. *)
Theorem narration_takes_receipt cid s st engine chip : let now := now_text (tick (g_pipe s)) in
  let narration := narration_of cid chip (narration_summary app chip) now in
  let body := advisory_chip_body (mkAdvisory (eng_passport_cid engine) "narrate" cid narration 90 (eng_model engine) OnDemand)
                (next_id engine).1 (eng_world engine) in
  let metadata := mkMeta "advisory/on-demand" 0 0 [] (executor_did (execution_metadata chip)) true in
  forall bs, to_nrf1_bytes body = Ok bs ->
  chip_store (g_pipe s) = Some st -> advisory_engine (g_pipe s) = Some engine -> inv (backend st) ->
  get_chip_by_receipt_cid cid (backend st) = Ok (Some chip) ->
  let adv := stored_of body (compute_cid bs) cid metadata (now_text (S (tick (g_pipe s)))) in
  accepts adv ->
  exists s' r st', narrate_receipt app cid (Some true) s = (s', Ok r) /\ status_of r = 200 /\
    chip_store (g_pipe s') = Some st' /\ get_chip_by_receipt_cid cid (backend st') = Ok (Some adv) /\
    chip_type adv = "ubl/advisory" /\ runtime_version (execution_metadata adv) = "advisory/on-demand".
Proof.
  intros now narration body metadata bs Hbs Hst Heng Hi Hget adv Ha.
  destruct (spec_put adv (backend st) Hi Ha) as (b' & Hput & _ & _ & Hfind).
  unfold narrate_receipt, gate_store, mbind, M_bind. rewrite Hst, Hget. cbn [find_chip]. unfold gread. cbn [default from_option id].
  fold now. fold narration. unfold persist_narration, gate_engine, mbind, M_bind. cbn [g_pipe set_pipe next_tick advisory_engine].
  rewrite Heng. unfold advisory_to_chip_body. destruct (next_id engine) as [id engine'] eqn:En. cbn [fst] in body.
  unfold modify, run_pipe, store_chip, read, asks, mbind, M_bind. cbn [g_pipe set_pipe next_tick PipelineTypes.set_engine chip_store tick].
  rewrite Hst. unfold store_executed_chip. change (advisory_chip_body _ _ _) with body. rewrite Hbs.
  change (stored_of body (compute_cid bs) cid _ _) with adv. rewrite Hput. cbn [indexer_index_chip].
  unfold modify. eexists _, _, _. split; [reflexivity|]. split; [reflexivity|]. split; [reflexivity|]. cbn [backend]. split; [exact Hfind|done].
Qed.

(** ** Sockets *)

(** Only the identifier and the scope of a token count for a call on a socket:
    the token's world and subject, which a submission over HTTP is held to, are
    not looked at. *)
Theorem socket_ignores_world auth1 auth2 rpc s :
  token_id auth1 = token_id auth2 -> auth_scope auth1 = auth_scope auth2 ->
  handle_mcp_rpc_request p rfc3339 app rpc None (Some auth1) s = handle_mcp_rpc_request p rfc3339 app rpc None (Some auth2) s.
Proof.
  intros Hid Hsc. unfold handle_mcp_rpc_request.
  assert (forall name arguments id s, check_session name arguments id auth1 s = check_session name arguments id auth2 (s : State)) as Hc.
  { intros. unfold check_session, mcp_scope_allows_write. by rewrite Hid, Hsc. }
  destruct (negb _); [done|]. destruct (String.eqb _ "tools/list"); [done|]. destruct (String.eqb _ "tools/call"); [|done].
  unfold mbind at 1 3, M_bind at 1 3. rewrite Hc. reflexivity.
Qed.
End Facts.

(** * A sample gate *)

Module GateSample.

(** ** Libraries *)

#[local] Instance no_texts : ForeignTexts := {| foreign_text _ := "?"; unc_text _ := "?" |}.
#[local] Instance still_gate : GateReadings := {| now_micros _ := 0; now_mono _ := 0; error_bytes _ := [] |}.
#[local] Instance no_gate_texts : GateTexts := {|
  instant_error _ := "?"; receipt_error _ := "?"; vm_error _ := "?"; tlv_error _ := "?"; hex_error _ := "?";
  durable_error _ := "?"; json_error _ := "?" |}.
(** Every instant in a text is the hundredth nanosecond; the clock is at zero. *)
#[local] Instance later : ChronoInstant := {| rfc3339_instant _ := Some 100 |}.

(** ** A receipt *)

Definition env1 : Environment := fun k => if String.eqb k STAGE_SECRET_ENV then Ok "secret" else Err NotPresent.
Definition p1 : UblPipeline := Eval vm_compute in
  pipeline_new false env1 PipelineSample.key0
    (runtime_info_new (mkBuildMeta "" "" "" "" None None) "b3:0" "1") (in_memory_storage policy_storage_new)
    (fun _ => false) config0 3 3.
Definition signed0 : UnifiedReceipt := Eval vm_compute in
  fst (append_stage_with_secrets (receipt_new "2024-01-01T00:00:00Z" "a/acme/t/prod" "did:key:z1" "did:key:z1#ed25519" "00")
    "secret" None (mkStage WriteAhead "2024-01-01T00:00:00Z" "b3:01" None None [] None None "" 1)).
Definition receipt_doc : json := JObject [("@type", JString "ubl/receipt")].
#[local] Instance one_doc : SerdeJson := {| from_slice _ := Some receipt_doc; to_vec _ := []; value_to_string _ := "" |}.
#[local] Instance one_receipt : ReceiptSerde := {| receipt_from_json _ := Some signed0 |}.

(** ** The service *)

Definition policy0 : WriteAccessPolicy := mkPolicy true ["key"] [] [].
Definition app0 : AppConfig := mkApp policy0 true "https://gate" "r" None None None None (JArray []) [].
Definition limiter0 : McpTokenRateLimiter := mcp_limiter_new 2.
Abbreviation Gate := (GateState InMemoryBackend NullLedger).
Definition gate_of (s : PState InMemoryBackend NullLedger Fs) : Gate := mkGateState s None limiter0.

(** A database with one receipt. *)
Definition db1 : Db := mkDb {["b3:r" := mkReceiptRow "" 0 "" "" "" "Allow"]} ∅ [] 0 ∅ None.
Definition gate1 : Gate := gate_of (set_durable db1 (state0 None)).

Lemma receipt_served_exact_witness : exists s',
  GateRead.get_receipt p1 app0 "b3:r" ∅ gate1 = (s', Ok (200, immutable_headers "b3:r", receipt_doc)) /\ settled s' = settled gate1.
Proof.
  destruct (receipt_served_exact p1 app0 "b3:r" ∅ gate1 db1 receipt_doc) as (s' & r & H & Hk & Hr);
    [reflexivity..|vm_compute; reflexivity|].
  exists s'. split; [|exact Hk]. rewrite H. do 2 f_equal.
  assert (vouched p1 receipt_doc = true) as Hv by (vm_compute; reflexivity). rewrite Hv in Hr. exact Hr.
Defined.

(** The pipeline of [PipelineSample] has a secret that its environment lacks. *)
Example gate_disowns_receipts : vouched p0 receipt_doc = false.
Proof. apply no_secret_no_receipt. reflexivity. Qed.

(** *** Requests that only read *)

Lemma reads_change_nothing_witness :
  settled (serve_all p1 rfc0 app0 [GetReceipt "b3:r" ∅; GetChip "b3:c" ∅; RegistryTypes None] gate1) = settled gate1.
Proof. apply reads_change_nothing. repeat constructor. Defined.

(** *** The limiter *)

Lemma mcp_limiter_is_sliding_window_witness : exists r,
  RateLimit.check (as_limiter (mkMcpLimiter 2 {["t" := [5; 7]]})) 10 "t" =
    Ok (r, as_limiter (mcp_check (mkMcpLimiter 2 {["t" := [5; 7]]}) 10 "t").2) /\
  (mcp_check (mkMcpLimiter 2 {["t" := [5; 7]]}) 10 "t").1 = retry_after_secs r.
Proof.
  apply mcp_limiter_is_sliding_window; [cbn; lia|vm_compute; reflexivity| |]; vm_compute; repeat constructor; discriminate.
Defined.

(** ** A narration *)

Definition meta0 : ExecutionMetadata := mkMeta "0.1" 1 1 [] (did_new_unchecked "did:key:z1") true.
Definition told : StoredChip := stored_of (PipelineSample.chip "ubl/document" "doc-1" []) "b3:d" "b3:r" meta0 "2024-01-01T00:00:00Z".
Definition engine0 : AdvisoryEngine := Advisory.engine_new "b3:passport" "model" "a/acme".
Definition advice : json :=
  advisory_chip_body (mkAdvisory "b3:passport" "narrate" "b3:r"
    (narration_of "b3:r" told (narration_summary app0 told) "2024-01-01T00:00:00Z") 90 "model" OnDemand) (next_id engine0).1 "a/acme".
Definition advice_bytes : bytes := Eval vm_compute in match to_nrf1_bytes advice with Ok b => b | Err _ => [] end.
Definition told_types (c : TypedCid) : string := if String.eqb (cid_as_str c) "b3:d" then "ubl/document" else "ubl/advisory".
Definition store1 : ChipStore.ChipStore InMemoryBackend := mkStore (mem_put_chip told mem_new).1 no_indexes.
Definition gate2 : Gate := gate_of (PipelineTypes.set_engine engine0 (state0 (Some store1))).

Lemma narration_takes_receipt_witness : exists s' r st',
  narrate_receipt app0 "b3:r" (Some true) gate2 = (s', Ok r) /\ status_of r = 200 /\ chip_store (g_pipe s') = Some st' /\
  exists adv, get_chip_by_receipt_cid "b3:r" (backend st') = Ok (Some adv) /\ chip_type adv = "ubl/advisory".
Proof.
  destruct (narration_takes_receipt app0 (inv := mem_inv told_types) (contents := mem_chips)
    (BackendSpec0 := in_memory_spec told_types) "b3:r" gate2 store1 engine0 told advice_bytes) as (s' & r & st' & H1 & H2 & H3 & H4 & H5 & _).
  - vm_compute. reflexivity.
  - reflexivity.
  - reflexivity.
  - apply mem_put_inv; [apply mem_inv_new|reflexivity].
  - vm_compute. reflexivity.
  - vm_compute. reflexivity.
  - exists s', r, st'. split; [exact H1|]. split; [exact H2|]. split; [exact H3|]. eexists. split; [exact H4|exact H5].
Defined.

(** ** Sessions *)

Definition user1 : StoredChip := mkChip (cid_new_unchecked "b3:user") "ubl/user" (JObject [("did", JString "did:key:zAlice")])
  (cid_new_unchecked "b3:r2") "2024-01-01T00:00:00Z" meta0 [] [].
Definition user_types (c : TypedCid) : string := if String.eqb (cid_as_str c) "b3:user" then "ubl/user" else "ubl/token".
Definition store2 : ChipStore.ChipStore InMemoryBackend := mkStore (mem_put_chip user1 mem_new).1 no_indexes.
Definition forged : SessionToken := Auth.mkToken "b3:user" ["*"] "2030-01-01T00:00:00Z" "kid".
Definition forged_bytes : bytes := Eval vm_compute in
  match to_nrf1_bytes (token_to_chip_body forged "tok-1" "*") with Ok b => b | Err _ => [] end.
Definition forged_cid : string := compute_cid forged_bytes.

Lemma store2_inv : mem_inv user_types (backend store2).
Proof. apply mem_put_inv; [apply mem_inv_new|reflexivity]. Defined.

Lemma store2_only_user k c : mem_chips (backend store2) !! k = Some c -> c = user1.
Proof. cbn. intros [[_ <-]|[_ H]]%lookup_insert_Some; [done|]. by rewrite lookup_empty in H. Defined.

Lemma minted_token_impersonates_witness : exists s',
  store_executed_chip store2 (token_to_chip_body forged "tok-1" "*") "b3:r" meta0 "2024-01-01T00:00:00Z" = (s', Ok forged_cid) /\
  session_of s' 0 "tok-1" = Ok (mkAuth "tok-1" forged_cid "*" ["*"] (Some "did:key:zAlice")).
Proof.
  destruct (minted_token_impersonates (inv := mem_inv user_types) (contents := mem_chips)
    (BackendSpec0 := in_memory_spec user_types) store2 forged "tok-1" "*" forged_bytes "b3:r" meta0 "2024-01-01T00:00:00Z" 0 "" user1
    "did:key:zAlice" 100) as (_ & _ & s' & H1 & H2).
  - apply store2_inv.
  - vm_compute. reflexivity.
  - reflexivity.
  - reflexivity.
  - reflexivity.
  - reflexivity.
  - intros (k & Hk & Ht & _). apply store2_only_user in Hk. subst. discriminate.
  - vm_compute. reflexivity.
  - vm_compute. reflexivity.
  - vm_compute. discriminate.
  - intros (k & Hk & Ht & _). apply store2_only_user in Hk. subst. discriminate.
  - intros k c Hk Ht _. apply store2_only_user in Hk. subst. discriminate.
  - reflexivity.
  - reflexivity.
  - vm_compute. discriminate.
  - exists s'. split; [exact H1|exact H2].
Defined.

Definition store3 : ChipStore.ChipStore InMemoryBackend :=
  (store_executed_chip store2 (token_to_chip_body forged "tok-1" "*") "b3:r" meta0 "2024-01-01T00:00:00Z").1.

Lemma store3_inv : mem_inv user_types (backend store3).
Proof.
  change (mem_inv user_types (mem_put_chip (stored_of (token_to_chip_body forged "tok-1" "*") forged_cid "b3:r" meta0
    "2024-01-01T00:00:00Z") (backend store2)).1). apply mem_put_inv; [apply store2_inv|vm_compute; reflexivity].
Defined.

Lemma session_sound_witness : exists chip t,
  mem_chips (backend store3) !! cid chip = Some chip /\ chip_type chip = "ubl/token" /\ token_from_chip_body (chip_data chip) = Ok t.
Proof.
  destruct (session_sound (inv := mem_inv user_types) (contents := mem_chips) (BackendSpec0 := in_memory_spec user_types)
    store3 0 "tok-1" (mkAuth "tok-1" forged_cid "*" ["*"] (Some "did:key:zAlice"))) as (chip & t & e & H1 & H2 & _ & H3 & _).
  - apply store3_inv.
  - vm_compute. reflexivity.
  - exists chip, t. split; [exact H1|]. split; [exact H2|exact H3].
Defined.

(** The forged session passes the check on an HTTP submission to any world. *)
Example forged_session_writes : world_scope_allows "*" "a/other/t/prod" = true /\ scope_allows_any ["*"] ["write"] = true.
Proof. done. Qed.

End GateSample.
