(* ===== verification/Config.v ===== *)
(** * The configuration of the gate ([ubl_config/src/lib.rs])

    Every section of the configuration as it is read from the environment, a
    function from names to texts, and the write policy and limiters that the
    gate builds from it ([ubl_gate/src/state.rs], [lib.rs]).

    The theorems: a configuration read from the environment is always valid,
    with positive workers and limits ([config_from_env_valid]); the lists of
    what may be written without credentials are never empty
    ([public_writes_remain]); a flag that is not spelt as expected leaves the
    gate open ([misspelt_flag_opens]); the log line depends on no secret
    ([log_hides_secrets]). *)

From S2P Require Import Prelude RustStd RustStr TextFacts Json RateLimit AuditChip RichUrl ErrorResponse PolicyLock GateState.
Local Open Scope string_scope.
Local Open Scope Z_scope.
Local Open Scope list_scope.

(** [std::env::var(..).ok()] *)
Definition Env : Type := string -> option string.

Definition DEFAULT_SQLITE_DSN : string := "file:./data/ubl.db?mode=rwc&_journal_mode=WAL".

Definition env_opt_trim (env : Env) (name : string) : option string := v ← env name; non_empty (str_trim v).

Definition flag_text (v : string) : bool := existsb (String.eqb v) ["1"; "true"; "TRUE"; "yes"; "on"].
Definition env_bool (env : Env) (name : string) (dflt : bool) : bool :=
  match env name with Some v => flag_text v | None => dflt end.

Definition csv_env (env : Env) (name : string) : list string :=
  match env_opt_trim env name with
  | Some s => List.filter (fun v => negb (is_empty v)) (str_trim <$> split_on "," s)
  | None => []
  end.

(** [parse::<u32>] and [parse::<usize>], then at least one. *)
Definition env_count (parse : string -> option Z) (env : Env) (name : string) (dflt : Z) : Z :=
  Z.max 1 (default dflt (env name ≫= parse)).

Definition or_env (a b : option string) : option string := match a with Some _ => a | None => b end.
Definition bool_word (b : bool) : string := if b then "true" else "false".
Definition is_set {A} (o : option A) : bool := match o with Some _ => true | None => false end.

(** ** Sections *)

Record GateConfig : Type := mkGateConfig { bind : string; data_dir : string }.
Definition gate_default : GateConfig := mkGateConfig "0.0.0.0:4000" "./data".
Definition gate_from_env (env : Env) : GateConfig :=
  mkGateConfig (default (bind gate_default) (env_opt_trim env "UBL_GATE_BIND"))
    (default (data_dir gate_default) (env_opt_trim env "UBL_DATA_DIR")).
Definition gate_validate (c : GateConfig) : result string unit :=
  if is_empty (str_trim (bind c)) then Err "GateConfig.bind must not be empty"
  else if is_empty (str_trim (data_dir c)) then Err "GateConfig.data_dir must not be empty"
  else Ok tt.

Record StorageConfig : Type := mkStorage {
  st_backend : string; dsn : option string; idempotency_dsn : option string; outbox_dsn : option string; outbox_workers : Z;
  outbox_endpoint : option string; eventstore_enabled : bool; eventstore_path : string }.
Definition storage_default : StorageConfig := mkStorage "memory" None None None 1 None true "./data/events".
Definition storage_from_env (env : Env) : StorageConfig :=
  mkStorage (default (st_backend storage_default) (env_opt_trim env "UBL_STORE_BACKEND"))
    (env_opt_trim env "UBL_STORE_DSN") (env_opt_trim env "UBL_IDEMPOTENCY_DSN") (env_opt_trim env "UBL_OUTBOX_DSN")
    (env_count parse_u64 env "UBL_OUTBOX_WORKERS" (outbox_workers storage_default))
    (env_opt_trim env "UBL_OUTBOX_ENDPOINT")
    (match env "UBL_EVENTSTORE_ENABLED" with Some v => flag_text (str_trim v) | None => true end)
    (default (eventstore_path storage_default) (env_opt_trim env "UBL_EVENTSTORE_PATH")).
Definition effective_sqlite_dsn (c : StorageConfig) : string :=
  default DEFAULT_SQLITE_DSN (or_env (dsn c) (or_env (idempotency_dsn c) (outbox_dsn c))).

Definition obs_default : string := "info,ubl_runtime=debug,ubl_gate=debug".
Definition obs_from_env (env : Env) : string := default obs_default (env_opt_trim env "RUST_LOG").

Record GateUrlsConfig : Type := mkUrls { u_receipt_origin : string; u_receipt_path : string; u_manifest_base : string }.
Definition urls_default : GateUrlsConfig := mkUrls "https://logline.world" "/r" "https://api.ubl.agency".
(** The origin of a domain, whatever scheme it is written with. *)
Definition origin_of_domain (domain : string) : string :=
  let trim pat s := trim_start_str (String.length s) pat s in
  "https://" +:+ trim "http://" (trim "https://" domain).
Definition urls_from_env (env : Env) : GateUrlsConfig :=
  mkUrls
    (default (u_receipt_origin urls_default)
       (or_env (env_opt_trim env "UBL_PUBLIC_RECEIPT_ORIGIN") (origin_of_domain <$> env_opt_trim env "UBL_RICH_URL_DOMAIN")))
    (default (u_receipt_path urls_default)
       ((fun p => if starts_with "/" p then p else "/" +:+ p) <$> env_opt_trim env "UBL_PUBLIC_RECEIPT_PATH"))
    (default (u_manifest_base urls_default)
       (or_env (env_opt_trim env "UBL_MCP_BASE_URL")
          (or_env (env_opt_trim env "UBL_API_BASE_URL") (origin_of_domain <$> env_opt_trim env "UBL_API_DOMAIN")))).

Record GateLimitsConfig : Type := mkLimits { canon_limit_enabled : bool; canon_limit_per_min : Z; mcp_token_rpm : Z }.
Definition limits_default : GateLimitsConfig := mkLimits true 120 120.
Definition limits_from_env (env : Env) : GateLimitsConfig :=
  mkLimits (env_bool env "UBL_CANON_RATE_LIMIT_ENABLED" true)
    (env_count parse_u32 env "UBL_CANON_RATE_LIMIT_PER_MIN" (canon_limit_per_min limits_default))
    (env_count parse_u64 env "UBL_MCP_TOKEN_RPM" (mcp_token_rpm limits_default)).

Record GateWritePolicyConfig : Type := mkWrite {
  write_auth_required : bool; write_api_keys : list string; public_write_worlds : list string; public_write_types : list string }.
Definition write_default : GateWritePolicyConfig :=
  mkWrite false [] ["a/chip-registry/t/public"; "a/demo/t/dev"] ["ubl/document"; "audit/advisory.request.v1"].
Definition or_default_list (l dflt : list string) : list string := match l with [] => dflt | _ => l end.
Definition write_from_env (env : Env) : GateWritePolicyConfig :=
  mkWrite (env_bool env "UBL_WRITE_AUTH_REQUIRED" false) (csv_env env "UBL_WRITE_API_KEYS")
    (or_default_list (csv_env env "UBL_PUBLIC_WRITE_WORLDS") (public_write_worlds write_default))
    (or_default_list (csv_env env "UBL_PUBLIC_WRITE_TYPES") (public_write_types write_default)).

Record BuildInfoConfig : Type := mkBuild { b_genesis : option string; b_commit : option string; b_binary : option string }.
Definition build_from_env (env : Env) : BuildInfoConfig :=
  mkBuild (env_opt_trim env "UBL_GENESIS_PUBKEY_SHA256") (env_opt_trim env "UBL_RELEASE_COMMIT")
    (env_opt_trim env "UBL_GATE_BINARY_SHA256").

Record LlmConfig : Type := mkLlm { llm_enabled : bool; llm_base_url : option string; llm_model : string; openai_api_key : option string }.
Definition llm_default : LlmConfig := mkLlm false None "gpt-4o-mini" None.
Definition llm_from_env (env : Env) : LlmConfig :=
  let base := env_opt_trim env "UBL_LLM_BASE_URL" in
  mkLlm (env_bool env "UBL_ENABLE_REAL_LLM" false) base
    (default (if is_set base then "qwen3:4b" else llm_model llm_default) (env_opt_trim env "UBL_LLM_MODEL"))
    (env_opt_trim env "OPENAI_API_KEY").
Definition openai_api_key_redacted (c : LlmConfig) : string := if is_set (openai_api_key c) then "<redacted>" else "<unset>".
Definition llm_redacted_log (c : LlmConfig) : string :=
  "llm(enabled=" +:+ bool_word (llm_enabled c) +:+ ",base_url_set=" +:+ bool_word (is_set (llm_base_url c)) +:+ ",model=" +:+ llm_model c +:+
  ",openai_api_key=" +:+ openai_api_key_redacted c +:+ ")".

Definition crypto_from_env (env : Env) : string := default "compat_v1" (env_opt_trim env "UBL_CRYPTO_MODE").

Record AppConfig : Type := mkConfig {
  c_gate : GateConfig; c_storage : StorageConfig; c_rust_log : string; c_urls : GateUrlsConfig; c_limits : GateLimitsConfig;
  c_write : GateWritePolicyConfig; c_build : BuildInfoConfig; c_llm : LlmConfig; c_crypto_mode : string }.

Definition from_env (env : Env) : AppConfig :=
  mkConfig (gate_from_env env) (storage_from_env env) (obs_from_env env) (urls_from_env env) (limits_from_env env)
    (write_from_env env) (build_from_env env) (llm_from_env env) (crypto_from_env env).

Definition validate (c : AppConfig) : result string unit :=
  _ ← gate_validate (c_gate c);
  if eq_ignore_ascii_case (st_backend (c_storage c)) "sqlite" && is_empty (str_trim (effective_sqlite_dsn (c_storage c)))
  then Err "StorageConfig sqlite dsn must not be empty"
  else Ok tt.

Definition to_redacted_log (c : AppConfig) : string :=
  let s := c_storage c in
  "gate(bind=" +:+ bind (c_gate c) +:+ ",data_dir=" +:+ data_dir (c_gate c) +:+ ") storage(backend=" +:+ st_backend s +:+ ",dsn_set="
  +:+ bool_word (is_set (dsn s)) +:+ ",idempotency_dsn_set=" +:+ bool_word (is_set (idempotency_dsn s)) +:+ ",outbox_dsn_set="
  +:+ bool_word (is_set (outbox_dsn s)) +:+ ",eventstore_enabled=" +:+ bool_word (eventstore_enabled s) +:+ ",eventstore_path="
  +:+ eventstore_path s +:+ ") crypto(mode=" +:+ c_crypto_mode c +:+ ") " +:+ llm_redacted_log (c_llm c).

(** ** What the gate builds from it *)

Definition policy_of_config (c : GateWritePolicyConfig) : WriteAccessPolicy :=
  mkPolicy (write_auth_required c) (write_api_keys c) (public_write_worlds c) (public_write_types c).
Definition canon_limiter_of_config (c : GateLimitsConfig) : option RateLimitConfig :=
  if canon_limit_enabled c then Some (per_minute (canon_limit_per_min c)) else None.
Definition mcp_limiter_of_config (c : GateLimitsConfig) : McpTokenRateLimiter := mcp_limiter_new (mcp_token_rpm c).

(** ** Trimmed texts *)

Lemma drop_while_suffix {A} (p : A -> bool) l : exists pre, l = pre ++ drop_while p l /\ forallb p pre = true.
Proof.
  induction l as [|x l (pre & E & Hp)]; [by exists []|]. cbn [drop_while]. destruct (p x) eqn:Ex; [|by exists []].
  exists (x :: pre). cbn. by rewrite <- E, Ex.
Qed.

Lemma drop_while_head {A} (p : A -> bool) l x r : drop_while p l = x :: r -> p x = false.
Proof. induction l as [|y l IH]; [done|]. cbn. destruct (p y) eqn:E; [done|]. by intros [= <- _]. Qed.

Lemma drop_while_keeps {A} (p : A -> bool) x r : p x = false -> drop_while p (x :: r) = x :: r.
Proof. cbn. by intros ->. Qed.

(** Dropping at both ends leaves nothing to drop. *)
Lemma drop_both_twice {A} (p : A -> bool) l :
  let t := reverse (drop_while p (reverse (drop_while p l))) in reverse (drop_while p (reverse (drop_while p t))) = t.
Proof.
  cbv zeta. set (m := drop_while p l). set (u := drop_while p (reverse m)).
  destruct (drop_while_suffix p (reverse m)) as (pre & E & _). fold u in E.
  assert (Em : m = reverse u ++ reverse pre) by (rewrite <- (reverse_involutive m), E; apply reverse_app).
  assert (Hu : drop_while p (reverse u) = reverse u).
  { destruct (reverse u) as [|x r] eqn:Er; [done|]. apply drop_while_keeps. apply (drop_while_head p l x (r ++ reverse pre)).
    change (drop_while p l) with m. by rewrite Em. }
  rewrite Hu, reverse_involutive. destruct u as [|x r] eqn:Eu; [done|]. f_equal. apply drop_while_keeps.
  by apply (drop_while_head p (reverse m) x r).
Qed.

(** The bytes of one character. *)
Definition whole (ct : Z * bytes) : Prop := ct.2 <> [] /\ forall r, next_char (ct.2 ++ r) = Some (ct.1, r).

Lemma str_chars_whole s : Forall whole (str_chars s).
Proof.
  unfold str_chars. assert (Hgo : forall n bs, Forall whole (char_texts n bs)); [|apply Hgo].
  intros n. induction n as [|n IH]; intros bs; cbn; [constructor|].
  destruct (next_char bs) as [[c r]|] eqn:E; [|constructor]. destruct (next_char_pre _ _ _ E) as (pre & -> & Hn & Hc).
  constructor; [|apply IH]. rewrite length_app, Nat.add_sub, take_app_length. done.
Qed.

Lemma whole_chars l : Forall whole l -> str_chars (of_chars l) = l.
Proof.
  unfold str_chars, of_chars, as_bytes. rewrite list_byte_of_string_of_list_byte.
  assert (Hgo : forall n, (length (concat l.*2) <= n)%nat -> Forall whole l -> char_texts n (concat l.*2) = l); [|by intros; apply Hgo].
  induction l as [|[c t] l IH]; intros n Hn Hl; cbn [fmap list_fmap concat snd] in *; [by destruct n|].
  apply Forall_cons in Hl as [[Ht Hc] Hl]. cbn [fst snd] in *. destruct n as [|n]; [destruct t; [done|cbn in Hn; lia]|].
  cbn [char_texts]. rewrite Hc, length_app, Nat.add_sub, take_app_length. f_equal. apply IH; [|done].
  rewrite length_app in Hn. destruct t; [done|]. cbn in Hn. lia.
Qed.

Lemma trim_twice s : str_trim (str_trim s) = str_trim s.
Proof.
  set (sp := fun c : Z * bytes => is_whitespace c.1).
  set (t := reverse (drop_while sp (reverse (drop_while sp (str_chars s))))).
  assert (Hw : Forall whole t).
  { pose proof (str_chars_whole s) as H. destruct (drop_while_suffix sp (str_chars s)) as (p1 & E1 & _). rewrite E1 in H.
    apply Forall_app in H as [_ H]. apply Forall_reverse. apply Forall_reverse in H.
    destruct (drop_while_suffix sp (reverse (drop_while sp (str_chars s)))) as (p2 & E2 & _). rewrite E2 in H. by apply Forall_app in H as [_ H]. }
  change (str_trim s) with (of_chars t). unfold str_trim. rewrite (whole_chars t Hw). fold sp. unfold t.
  by rewrite (drop_both_twice sp (str_chars s)).
Qed.

(** ** Theorems *)

Lemma env_opt_trim_some env name v : env_opt_trim env name = Some v -> v <> ""%string /\ str_trim v = v.
Proof.
  unfold env_opt_trim, non_empty. destruct (env name) as [t|]; [|done]. cbn. destruct (is_empty (str_trim t)) eqn:E; [done|].
  intros [= <-]. split; [|apply trim_twice]. by destruct (str_trim t).
Qed.

Lemma trimmed_default env name dflt : is_empty (str_trim dflt) = false -> is_empty (str_trim (default dflt (env_opt_trim env name))) = false.
Proof.
  intros Hd. destruct (env_opt_trim env name) as [v|] eqn:E; [|done].
  apply env_opt_trim_some in E as [Hv Ht]. cbn [default id from_option]. unfold id. rewrite Ht. by destruct v.
Qed.

(** A configuration that is read from an environment, whatever it holds, is
    valid, has at least one outbox worker, positive limits and a database name
    that is not blank. *)
Theorem config_from_env_valid env : let c := from_env env in
  validate c = Ok tt /\ 1 <= outbox_workers (c_storage c) /\ 1 <= canon_limit_per_min (c_limits c) /\ 1 <= mcp_token_rpm (c_limits c) /\
  is_empty (str_trim (effective_sqlite_dsn (c_storage c))) = false.
Proof.
  cbv zeta. assert (Hd : is_empty (str_trim (effective_sqlite_dsn (storage_from_env env))) = false).
  { unfold effective_sqlite_dsn, storage_from_env. cbn [dsn idempotency_dsn outbox_dsn].
    destruct (env_opt_trim env "UBL_STORE_DSN") as [v|] eqn:E1; [|destruct (env_opt_trim env "UBL_IDEMPOTENCY_DSN") as [v|] eqn:E2;
      [|destruct (env_opt_trim env "UBL_OUTBOX_DSN") as [v|] eqn:E3; [|done]]].
    all: match goal with H : env_opt_trim _ _ = Some ?v |- _ => apply env_opt_trim_some in H as [Hv Ht]; change (is_empty (str_trim v) = false); rewrite Ht; by destruct v end. }
  split_and!; [|unfold from_env, env_count; cbn; unfold env_count; lia..|exact Hd].
  unfold validate, from_env, gate_validate, gate_from_env. cbn [c_gate c_storage bind data_dir].
  rewrite !trimmed_default by reflexivity. cbn [mbind result_bind]. rewrite Hd. by rewrite andb_false_r.
Qed.

(** Whatever the environment says, some worlds and some types can be written
    without credentials: an empty list means the default list. *)
Theorem public_writes_remain env : let w := c_write (from_env env) in
  public_write_worlds w <> [] /\ public_write_types w <> [] /\
  Forall (fun x => x <> ""%string) (public_write_worlds w ++ public_write_types w ++ write_api_keys w).
Proof.
  cbv zeta. unfold from_env, write_from_env. cbn [c_write public_write_worlds public_write_types write_api_keys].
  assert (Hcsv : forall name, Forall (fun x => x <> ""%string) (csv_env env name)).
  { intros name. unfold csv_env. destruct (env_opt_trim env name) as [v|]; [|constructor]. apply Forall_forall. intros x Hx.
    apply list_elem_of_In, List.filter_In in Hx as [_ Hx]. by destruct x. }
  pose proof (Hcsv "UBL_PUBLIC_WRITE_WORLDS"%string) as H1. pose proof (Hcsv "UBL_PUBLIC_WRITE_TYPES"%string) as H2.
  destruct (csv_env env "UBL_PUBLIC_WRITE_WORLDS"), (csv_env env "UBL_PUBLIC_WRITE_TYPES"); (split; [done|]; split; [done|]).
  all: rewrite !Forall_app; split_and!; try apply Hcsv; try done; by repeat constructor.
Qed.

(** A gate whose credentials are demanded with a word that is not one of the
    five expected ones, and that has no keys, lets anyone write anything. *)
Theorem misspelt_flag_opens env v headers chip_type world :
  env "UBL_WRITE_AUTH_REQUIRED"%string = Some v -> flag_text v = false -> csv_env env "UBL_WRITE_API_KEYS" = [] ->
  authorize_write (policy_of_config (c_write (from_env env))) headers chip_type world = Ok tt.
Proof.
  intros Hv Hf Hk. unfold authorize_write, policy_of_config, from_env, write_from_env, env_bool.
  cbn [c_write write_auth_required write_api_keys auth_required api_keys]. by rewrite Hv, Hf, Hk.
Qed.

Lemma misspelt_flag_opens_witness :
  let env := fun name => if String.eqb name "UBL_WRITE_AUTH_REQUIRED" then Some "True"%string else None in
  authorize_write (policy_of_config (c_write (from_env env))) None "ubl/document" "a/bank/t/prod" = Ok tt.
Proof. apply (misspelt_flag_opens _ "True"); reflexivity. Defined.

(** With the flag spelt as expected, the same write is refused. *)
Example spelt_flag_refuses :
  let env := fun name => if String.eqb name "UBL_WRITE_AUTH_REQUIRED" then Some "true"%string else None in
  is_ok (authorize_write (policy_of_config (c_write (from_env env))) None "ubl/document" "a/bank/t/prod") = false.
Proof. reflexivity. Qed.

(** A configuration without its secrets: names of databases, keys and the
    address of the language model are replaced by a mark that they are set. *)
Definition mask (o : option string) : option string := (fun _ => ""%string) <$> o.
Definition masked (c : AppConfig) : AppConfig :=
  let s := c_storage c in let l := c_llm c in
  mkConfig (c_gate c)
    (mkStorage (st_backend s) (mask (dsn s)) (mask (idempotency_dsn s)) (mask (outbox_dsn s)) (outbox_workers s)
       (mask (outbox_endpoint s)) (eventstore_enabled s) (eventstore_path s))
    (c_rust_log c) (c_urls c) (c_limits c)
    (mkWrite (write_auth_required (c_write c)) [] (public_write_worlds (c_write c)) (public_write_types (c_write c)))
    (c_build c) (mkLlm (llm_enabled l) (mask (llm_base_url l)) (llm_model l) (mask (openai_api_key l))) (c_crypto_mode c).

(** The line that is logged at the start is that of the masked configuration. *)
Theorem log_hides_secrets c : to_redacted_log c = to_redacted_log (masked c).
Proof.
  unfold to_redacted_log, llm_redacted_log, openai_api_key_redacted, masked. cbn.
  assert (Hm : forall o, is_set (mask o) = is_set o) by by intros []. by rewrite !Hm.
Qed.
